(* ===== verification/_CoqProject ===== *)
-Q . S2P
Prelude.v
RustStr.v
Utf8.v
Domain.v
Patch.v
PatchFacts.v
PatchRoundtrip.v
BTree.v
Overview.v
OverviewFacts.v
Snapshot.v
SnapshotFacts.v
Annotation.v
F32.v
F64.v
Heights.v
HeightsFacts.v
Scroll.v
Theme.v
ThemeFacts.v
Editor.v
EditorFacts.v
Syntax.v
SyntaxFacts.v
Registry.v
RegistryFacts.v
Session.v
SessionFacts.v
Review.v
ReviewFacts.v
Store.v
StoreFacts.v
Json.v
Outbox.v
OutboxFacts.v
Durability.v
Inline.v
InlineFacts.v
Rich.v
RichFacts.v
Presentation.v
PresentationFacts.v
Layout.v
Viewport.v
ViewportFacts.v
Timefmt.v
FileTree.v
Export.v
Releases.v
ReleasesFacts.v
Process.v
ProcessFacts.v
Remote.v
Github.v
GithubFacts.v
GithubRuns.v
Gitlab.v
GitlabFacts.v
GitlabRuns.v
Programs.v
Handoff.v
HandoffFacts.v
HandoffRuns.v
EntireContext.v
EntireContextFacts.v
Entire.v
EntireFacts.v
EntireRuns.v
LocalGit.v
LocalGitRuns.v
Service.v
ServiceFacts.v
ServiceRuns.v
ServiceSamples.v
ReviewFlow.v
ReviewFlowFacts.v
Opening.v
OpeningFacts.v
CommandLine.v
CommandLineFacts.v
