(* ===== verification/Prelude.v ===== *)
(** * diffz: a verification development

    diffz is a desktop program, in Rust, for reading the changes of a pull request, a commit
    range or a patch file and for writing a review of them. This library models the logic
    that decides what a reader sees and what is sent on the reader's behalf, as executable
    definitions that follow the code of [src/crates/core], [src/crates/adapters], and the
    parts of [src/crates/ui] and [src/crates/app] that do not draw, and proves what the program relies on.

    How the program works

    The command line is read into a request ([main.rs]) and handed to the window that already
    runs, or to one that is started with arguments that mean the same ([handoff.rs]). A source is opened by its provider ([github.rs], [gitlab.rs], [entire.rs]), which runs
    the provider's command-line tool ([process.rs]) and translates its JSON, or read from a
    local repository ([local_git.rs]). The patch is
    parsed once ([patch.rs]) and frozen as a snapshot whose identity is a digest of its source
    ([domain.rs]). The reader shows the snapshot as rows ([presentation.rs], [inline.rs],
    [layout.rs]) in a tree of files ([file_tree.rs]), with releases, blame, verdict and comment
    threads around it ([review_details.rs], [releases.rs]). Drafts of comments live in a
    session ([session.rs]), are stored in an SQLite database ([store.rs]), prepared into one
    review with a fingerprint ([review.rs]) and published through an outbox ([outbox.rs])
    that survives crashes and never sends an operation twice. The view of a file keeps its rows
    and selection and fetches hidden lines around hunks ([viewport.rs], [reader.rs],
    [height_index.rs], [scroll.rs]); comments are written in an editor with menus
    ([comment_editor.rs]) and saved by tasks that run beside the window ([review_flow.rs]). Languages, themes and annotators come from the program and from
    extensions ([registry.rs], [extension.rs], [syntax.rs], [theme.rs], [palette.rs],
    [annotation.rs]). The window reaches all of this
    through the methods of its services, on a thread for each call ([service.rs]).

    Files

    - [Prelude]: results of fallible code and their monad, tactics ([inv_ok], [to_prop],
      [case_if], [divlia]), integers of the code. [RustStr] and [Utf8]: byte strings, [str]
      operations, decimal numbers, UTF-8 as in Rust's standard library. [BTree]: ordered maps
      with string keys and orders on tuples. [F32] and [F64]: floats of both precisions over the
      Standard Library's [SpecFloat], and when their arithmetic is exact. [Json]: parsed JSON values.
    - [Domain] ([domain.rs] to line 329): digests, source documents, repository paths.
      [Snapshot] (the rest of [domain.rs], [review_details.rs] from line 427): identities,
      points, selections, comment locations.
    - [Patch] ([patch.rs]): the parser, one definition for each loop; [PatchFacts] its
      invariants, [PatchRoundtrip] a printer and the proof that the parser inverts it.
    - [Overview] ([review_details.rs]): releases by path, blame, the verdict. [Releases]
      ([releases.rs]): the timeline of a compare and the bounded parallel reads.
    - [Session] ([session.rs], [anchor.rs]): the reducer and draft versions.
    - [Review] ([review.rs]): preparation, fingerprints, the states of an operation.
    - [Store] ([store.rs]): the tables, each SQL statement as a function of them; [Outbox]
      ([outbox.rs]): publishing and reconciling, and [step], the interleaving of one
      publication for each provider with every other use of the store, failures and restarts. [StoreFacts],
      [OutboxFacts] and [Durability] prove their invariants.
    - [Inline], [Presentation], [Layout], [FileTree] (the files of those names in
      [core/src]): word marks, display rows, positions, the tree. [Timefmt] and [Export]
      ([timefmt.rs]; [export.rs] and [source_link.rs]): dates, exports, links.
    - [Rich] ([rich.rs]): differences of prose by blocks. [Annotation] ([annotation.rs]): what
      annotators find, and the built-in check. [Theme] ([palette.rs], [theme.rs]), [Syntax]
      ([syntax.rs]) and [Registry] ([registry.rs], [extension.rs]): colours, highlighting, and
      what the program and its extensions offer.
    - [Heights] ([height_index.rs]) and [Scroll] ([scroll.rs]): the tree of row heights, inertia
      and the pull at an edge. [Viewport] ([viewport.rs], [navigation.rs], [expand_context] of
      [reader.rs]): the view of a file. [Editor] ([comment_editor.rs] and its two modules): the
      comment editor.
    - [Process] ([process.rs]): running a tool. [Remote]: commands, the
      server that answers them, the monad [io] of programs that run commands, and the logic
      [emits] of what they send. [Github] ([github.rs]) and [Gitlab] ([gitlab.rs]): addresses,
      reading, translation, sending; [GithubFacts], [GitlabFacts] about the pure parts,
      [GithubRuns], [GitlabRuns] about whole runs.
    - [Programs]: programs as trees of calls to an environment, their runs, and the logic
      [follows] of protocols over calls. [Handoff] ([handoff.rs], parts of [store.rs]): frames,
      sending, delivering, listening; [HandoffFacts] about one process, [HandoffRuns] the
      interleaving [world_step] of many on one state directory.
    - [Entire] ([entire.rs]): addresses, the login, reads through the [entire] tool and
      [curl], capturing a Change; [EntireContext] ([entire_context.rs], [entire_sessions.rs]):
      gates, runs and sessions in the overview. [EntireFacts], [EntireContextFacts] about the
      pure parts and who may see the login, [EntireRuns] about whole runs.

    - [LocalGit] ([local_git.rs]): reading a repository through the program [git];
      [LocalGitRuns] about untracked files and whole runs.
    - [Service] ([service.rs], [provider.rs] of both crates, [error.rs], [fixtures.rs]): the
      methods of the services, what the shared parts answer ([serve]) and the threads of a
      window ([window_step]). [ServiceFacts] is about any interleaving, [ServiceRuns] about one
      run of a method; [ServiceSamples] runs a window for the witnesses. [Opening] (the rest of
      [service.rs]): finding a source, the state directory, starting the services.
    - [ReviewFlow] ([review_flow.rs], and what it uses of [app.rs], [source.rs],
      [command_handlers.rs], [thread.rs] and [panels/review.rs]): the drafts that the window
      shows, the tasks it starts for them and their interleaving [flow_event] with typing, opening
      reviews and other calls on the store.
    - [CommandLine] ([main.rs] to line 540): options, the arguments of the background window,
      handing off and reporting.

    A file [X] holds definitions; [XFacts] and [XRuns] hold the theorems about them (in
    [Session], [Domain], [Timefmt], [Export], [FileTree], [Layout], [Annotation], [Remote] and
    [Scroll] both are in one file).

    Conventions

    A [str] is a list of bytes; [&str] arguments are assumed to be UTF-8 where a theorem says
    [utf8_valid]. Positions in lists are [nat], other integers [N], with the width written
    out where the code checks or saturates it. [Result<A, E>] is [result E A]; a panic is
    [None], or a constructor ([Panic], [Panics]) where the code can also return an error.
    Rust's [BTreeMap] is an ordered association list, since the code reads the order; a hash
    map is whatever only its lookups need.

    Code that is not the program's is a parameter: SHA-256 and SHA-1 ([Sha256], [Sha1]), the
    JSON encoders ([SourceJson], [ReviewJson], [ReleasesKey], [PayloadJson], [PositionJson],
    [HandoffJson]), the readers of structures ([ComparisonJson], [ContextJson]) and parsed
    JSON values ([JsonValue]), the parser of addresses ([UrlParser]),
    the provider's server ([Answers] for the outbox, [Server] for the commands: an answer for
    every history of commands), Unicode's tables ([CharClass], [CaseMap]) and grapheme
    boundaries ([GraphemeCursor], [Graphemes]); the files, directories and environment that
    themes and extensions are read from ([Machine]), the reader of manifests ([Toml]), the
    highlighter ([TreeSitter]), the component runtime ([Wasm]), the platform's exp and ln
    ([Libm]) and texts that only a message shows ([DebugText], [PathText], [IoText]). Laws that theorems need of them are classes or named
    hypotheses ([SourceJsonLaws], [ReviewJsonLaws], [ReviewRulesLaws], [UrlLaws], [JsonLaws],
    [HandoffLaws], [fingerprints_bind]); the witnesses satisfy them with concrete instances
    ([sample_sha256], [bits_json], [plain_parser], [sample_json], [sample_wire], ...).

    Commands that the code starts on several threads are in the order of the text: a server is
    arbitrary, so the answers of every interleaving are those of some server; [bounded_answers]
    is about the interleavings themselves.

    What the theorems show

    - Publishing: nothing is sent twice under any interleaving and crash
      ([never_sent_twice]), the one call is a run of the steps ([publish_is_run]), it sends
      only what was previewed and confirms only what the server shows
      ([publish_sends_and_confirms], [matches_review_iff]), operations move through their
      states once ([outbox_moves_once]), and no unpublished text is ever lost
      ([unpublished_draft_kept], [prune_keeps_work]).
    - Providers: what is sent, in which order and when ([gitlab_send_in_order],
      [github_send_outcome]), snapshots that belong together ([github_snapshot_coherent],
      [gitlab_snapshot_coherent]), whole listings ([pages_whole]), targets and addresses
      ([github_target_typed], [reopen_address_reopens]), reviews found again
      ([gitlab_review_found_again]).
    - Entire: the login goes nowhere else ([login_stays_with_entire]), its claims are decoded
      as they were encoded ([decode_base64url_inverts]), a snapshot is one consistent, typed
      reading ([entire_snapshot_coherent], [entire_target_typed]) that can be opened again
      ([entire_reopens], [canonical_url_reads_back]), files are exact ([entire_source_exact]),
      and no evidence is shown for another revision ([evidence_pinned], [sessions_shown]).
    - Services: what the threads of a window do is what the outbox allows, and no thread waits
      but for the gate of a publication that goes on ([window_refines_outbox]), they publish only with permission ([publishes_with_permission])
      and read four at a time ([reads_bounded]); what was opened is what is resumed
      ([resume_returns_opened]), source lines are exact ([source_lines_exact]) and listing
      releases only adds to a snapshot ([releases_only_add]). The state directory is where the
      bundle or the environment says, whatever renames do ([state_survives]); a detected host is one known
      ([detected_host_known]) and writes follow the flags ([writes_follow_flags]).
    - Command line: the window in the background is started with arguments that mean the same
      ([background_window_reads_the_same]) and a handoff reports how it ended
      ([hand_off_reports]).
    - Local repositories: reading one changes nothing and opens nothing outside it
      ([local_git_reads_only]), its snapshot is whole, stable and exact ([local_snapshot_whole],
      [local_capture_stable], [untracked_bytes_kept]).
    - Handing over: requests arrive as sent ([handoff_delivers]), the listener answers everyone
      ([accept_answers]), a token is used once ([token_spent_once]), a delivery ends
      ([deliver_answers]) and windows are not started side by side ([one_window_at_a_time]).
    - Preparing: exactly the eligible drafts are prepared ([prepare_Ok_iff]) and the
      fingerprint and the snapshot's identity bind what they cover, up to a hash collision
      ([verified_fingerprint_binds], [verified_identity_binds_source]).
    - Sessions: every edit is stored, in order, and saved means stored
      ([run_persists_every_edit], [saved_means_acknowledged]). In the window, with its tasks in any
      order, what was typed is in the store or held by its latest save, and the window does not
      close before ([typed_text_kept]).
    - Parsing: the parser inverts a printer, its results are well formed, it loses nothing
      and always answers ([parse_patch_render], [parse_patch_wf], [parse_hunk_lossless],
      [parse_patch_total]); paths stay inside the repository and are displayed without
      control characters.
    - Reading: rows, marks, positions, copies and the tree are exact ([rows_show_source],
      [word_diff_marks], [lcs_longest], [display_positions], [copy_selection_exact],
      [tree_lists_files], [timestamp_calendar], [encode_decodes]); so are releases, blame,
      threads and the verdict of the overview ([steps_timeline]). Rich differences show every
      block once ([rich_hunk_exact]).
    - The view: context is inserted without repeating or losing a line
      ([context_expands_faithfully]), motions end on the line they mean ([motions_stay_in_source]), sums
      of heights are exact ([height_index_exact]) and only a pull turns the file
      ([turn_takes_a_pull]). The editor's menus never leave their bounds
      ([editor_session_completes]) and blocks stand apart ([block_edit_stands_apart]).
    - Extensions: what they name stays in their folder ([discovered_extensions_ok]), every
      annotator runs and keeps to the snapshot ([annotate_runs_all]), the best language wins
      ([language_first_highest]), highlighting has every line ([highlight_every_line]) and cuts
      exactly ([spans_exact]); colours and palettes read back ([rgb_reads_back],
      [palette_parse_exact]); the built-in check flags what it should ([diff_check_exact]).

    Some theorems and lemmas record how the code fails what it means to do:
    [lineless_comment_never_confirmed], [gitlab_renamed_left_never_matches],
    [live_socket_removed], [accepted_file_without_path], [releases_by_path_order_dependent],
    [prose_difference_unmarked], [switching_while_fetching_repeats_lines],
    [reversed_pull_turns_back], [reopening_while_typing_loses_text], [deletion_gap_miscounts] and [theme_name_becomes_a_path].

    Fuel

    Loops that are not structural take fuel: the parser one unit for each line, tokens one
    for each character, [lcs_walk] one for each token of both sides, [split_rows] and
    [mark_hunk] one for each row, the tree its height, decoding an address or a response one
    for each byte. Each is enough because every round consumes a unit of what the fuel counts;
    the theorems above prove it, since a loop that ran out would lose rows, tokens or files.
    The waiting loops of the handoff take a number of rounds and are [Pending] after them:
    [deliver_answers] shows that 101 rounds of 50 ms cover the longest wait. Listings are
    read for at most the number of pages that the code allows.

    What is not modelled

    Drawing: elements, painting, measuring and hit tests of the user interface, which call the
    GUI framework at every step, and the preview of a comment. Of the window's own state, what
    does not bear on drafts: focus, panel sizes, the release filter, settings, themes. [run] of [main.rs] and its
    diagnostics, which start the parts and print what they say. [component.rs], which drives
    the runtime of components; [visible_markdown], which works on the tree of a third-party
    parser; the tables in [syntax.rs] that configure the grammars. The settings table, the
    writing of exports, and the store's file; the network and the operating system. *)

From Stdlib Require Export NArith ZArith Lia.
From Stdlib Require Strings.Byte Strings.String.
From stdpp Require Export base tactics list gmap strings fin_maps sorting.

#[export] Set Default Goal Selector "!".

(** ** Results of fallible code

    [result E A] is Rust's [Result<A, E>]; the error type comes first so that
    [result E] is a monad for stdpp's [x ← m; k] notation, which stands for the
    [?] operator. *)

Inductive result (E A : Type) : Type :=
| Ok (a : A)
| Err (e : E).
Arguments Ok {E A} a.
Arguments Err {E A} e.

#[export] Instance result_ret E : MRet (result E) := λ A a, Ok a.
#[export] Instance result_bind E : MBind (result E) := λ A B f m,
  match m with Ok a => f a | Err e => Err e end.
#[export] Instance result_fmap E : FMap (result E) := λ A B f m,
  match m with Ok a => Ok (f a) | Err e => Err e end.

#[export] Instance result_eq_dec {E A} `{EqDecision E, EqDecision A} :
  EqDecision (result E A).
Proof. solve_decision. Defined.

(** [Option::is_some]. *)
Definition is_Some_b {A} (o : option A) : bool := match o with Some _ => true | None => false end.

(** [Option::ok_or] and [Result::map_err]. *)
Definition ok_or {E A} (o : option A) (e : E) : result E A :=
  match o with Some a => Ok a | None => Err e end.
Definition map_err {E F A} (f : E → F) (m : result E A) : result F A :=
  match m with Ok a => Ok a | Err e => Err (f e) end.

Definition is_ok {E A} (m : result E A) : bool :=
  match m with Ok _ => true | Err _ => false end.

Section result_lemmas.
  Context {E F A B : Type}.
  Implicit Types (m : result E A) (f : A → result E B).

Lemma bind_Ok m f b : m ≫= f = Ok b ↔ ∃ a, m = Ok a ∧ f a = Ok b.
Proof. destruct m as [a|e]; simpl; naive_solver. Qed.

Lemma bind_Err m f e :
    m ≫= f = Err e ↔ m = Err e ∨ ∃ a, m = Ok a ∧ f a = Err e.
Proof. destruct m as [a|e']; simpl; naive_solver. Qed.

Lemma fmap_Ok m (g : A → B) b : g <$> m = Ok b ↔ ∃ a, m = Ok a ∧ b = g a.
Proof. destruct m as [a|e]; simpl; naive_solver. Qed.

Lemma ok_or_Ok (o : option A) (e : E) a : ok_or o e = Ok a ↔ o = Some a.
Proof. destruct o; simpl; naive_solver. Qed.

Lemma map_err_Ok (g : E → F) m a : map_err g m = Ok a ↔ m = Ok a.
Proof. destruct m; simpl; naive_solver. Qed.

Lemma is_ok_true m : is_ok m = true ↔ ∃ a, m = Ok a.
Proof. destruct m; simpl; naive_solver. Qed.
End result_lemmas.

(** [inv_ok] takes apart every hypothesis that says a chain of fallible steps
    succeeded: each bind gives the value of its first step and the equation of
    the rest. *)
Ltac inv_ok_step :=
  match goal with
  | H : Ok _ = Ok _ |- _ => injection H as H; try subst
  | H : Err _ = Ok _ |- _ => discriminate H
  | H : Ok _ = Err _ |- _ => discriminate H
  | H : mret _ = Ok _ |- _ => unfold mret, result_ret in H
  | H : mbind _ _ = Ok _ |- _ =>
      let a := fresh "r" in let Ha := fresh "Hr" in
      apply bind_Ok in H as (a & Ha & H)
  | H : fmap _ _ = Ok _ |- _ =>
      let a := fresh "r" in let Ha := fresh "Hr" in
      apply fmap_Ok in H as (a & Ha & H)
  | H : ok_or _ _ = Ok _ |- _ => apply ok_or_Ok in H
  | H : map_err _ _ = Ok _ |- _ => apply map_err_Ok in H
  end.
Ltac inv_ok := repeat inv_ok_step; simpl in *.

(** The first bind of [H], with names for its value and its equation. *)
Tactic Notation "inv_bind" hyp(H) "as" simple_intropattern(x) simple_intropattern(Hx) :=
  apply bind_Ok in H as (x & Hx & H).

(** ** Booleans *)

Create HintDb bools discriminated.

Lemma andb_True (a b : bool) : a && b = true ↔ a = true ∧ b = true.
Proof. apply andb_true_iff. Qed.

(** [to_prop] turns the boolean guards of the code, as hypotheses or goals,
    into the propositions they decide. *)
Ltac to_prop :=
  repeat match goal with
  | H : _ && _ = true |- _ => apply andb_true_iff in H as [? ?]
  | H : _ || _ = false |- _ => apply orb_false_iff in H as [? ?]
  | H : _ || _ = true |- _ => apply orb_true_iff in H
  | H : _ && _ = false |- _ => apply andb_false_iff in H
  | H : negb _ = true |- _ => apply negb_true_iff in H
  | H : negb _ = false |- _ => apply negb_false_iff in H
  | H : bool_decide _ = true |- _ => apply bool_decide_eq_true in H
  | H : bool_decide _ = false |- _ => apply bool_decide_eq_false in H
  | H : (_ <? _)%N = true |- _ => apply N.ltb_lt in H
  | H : (_ <? _)%N = false |- _ => apply N.ltb_ge in H
  | H : (_ <=? _)%N = true |- _ => apply N.leb_le in H
  | H : (_ <=? _)%N = false |- _ => apply N.leb_gt in H
  | H : (_ =? _)%N = true |- _ => apply N.eqb_eq in H
  | H : (_ =? _)%N = false |- _ => apply N.eqb_neq in H
  | H : (_ <? _)%nat = true |- _ => apply Nat.ltb_lt in H
  | H : (_ <? _)%nat = false |- _ => apply Nat.ltb_ge in H
  | H : (_ <=? _)%nat = true |- _ => apply Nat.leb_le in H
  | H : (_ <=? _)%nat = false |- _ => apply Nat.leb_gt in H
  | H : (_ =? _)%nat = true |- _ => apply Nat.eqb_eq in H
  | H : (_ =? _)%nat = false |- _ => apply Nat.eqb_neq in H
  end.

(** Case analysis on the guard of the [if] in a hypothesis or the goal. *)
Ltac case_if :=
  match goal with
  | H : context [if ?b then _ else _] |- _ => destruct b eqn:?
  | |- context [if ?b then _ else _] => destruct b eqn:?
  end; to_prop.

(** Linear arithmetic with divisions and remainders by constants. *)
Ltac divlia := zify; Z.to_euclidean_division_equations; lia.

(** ** Machine integers

    [usize] positions are [nat], since every one of them indexes a list; [u32]
    and [u64] quantities are [N] with the width written where the code checks
    it. *)

Definition u8_max : N := 255.
Definition u32_max : N := 4294967295.
Definition u64_max : N := 18446744073709551615.

(** [u32::checked_add], [u32::saturating_add] and [u32::checked_sub]. *)
Definition u32_checked_add (a b : N) : option N :=
  if (a + b <=? u32_max)%N then Some (a + b)%N else None.
Definition u32_saturating_add (a b : N) : N := N.min (a + b) u32_max.
Definition checked_sub (a b : N) : option N :=
  if (b <=? a)%N then Some (a - b)%N else None.

(** The length of a list as an integer the limits of the code compare with. *)
Definition lenN {A} (l : list A) : N := N.of_nat (length l).

Lemma u32_checked_add_Some a b c :
  u32_checked_add a b = Some c ↔ (c = a + b)%N ∧ (a + b <= u32_max)%N.
Proof. unfold u32_checked_add. case_if; split; intros; naive_solver lia. Qed.

Lemma checked_sub_Some a b c :
  checked_sub a b = Some c ↔ (c = a - b)%N ∧ (b <= a)%N.
Proof. unfold checked_sub. case_if; split; intros; naive_solver lia. Qed.

(** Equality of tuples of counters, component by component. *)
Ltac ok_tuple :=
  repeat first [reflexivity | unfold lenN in *; simpl in *; lia | progress f_equal].
