(* ===== verification/RustStr.v ===== *)
(** * Bytes and strings of the Rust standard library

    What the modelled code uses of [u8], [&\[u8\]], [char] and [&str]: character
    classes, prefix and separator searches, decimal and hexadecimal numerals, and
    UTF-8. A Rust [str] is a list of bytes that [utf8_decode] accepts; byte
    offsets into it are list positions, so [is_char_boundary] and slicing mean
    what they mean in Rust. *)

From S2P Require Import Prelude.

Notation byte := Byte.byte.
Notation bytes := (list Byte.byte).

(** A string literal of the source as its UTF-8 bytes. *)
Definition bs (s : string) : bytes := String.list_byte_of_string s.
Arguments bs s%_string_scope.

#[export] Instance byte_eq_dec : EqDecision byte := Byte.byte_eq_dec.
#[export] Program Instance byte_countable : Countable byte :=
  inj_countable Byte.to_N Byte.of_N Byte.of_to_N.

(** ** Bytes as numbers *)

Definition bN (b : byte) : N := Byte.to_N b.

(** The [as u8] cast. *)
Definition u8_of (n : N) : byte := default Byte.x00 (Byte.of_N (n mod 256)).

Lemma bN_bound b : (bN b < 256)%N.
Proof. destruct b; vm_compute; reflexivity. Qed.

Lemma u8_of_bN b : u8_of (bN b) = b.
Proof. destruct b; vm_compute; reflexivity. Qed.

#[export] Instance bN_inj : Inj (=) (=) bN.
Proof. intros a b H. rewrite <- (u8_of_bN a), <- (u8_of_bN b). by rewrite H. Qed.

Lemma bN_u8_of n : (n < 256)%N → bN (u8_of n) = n.
Proof.
  intros H. unfold bN, u8_of. rewrite N.mod_small by done.
  destruct (Byte.of_N n) as [b|] eqn:E.
  - simpl. by apply Byte.to_of_N.
  - apply Byte.of_N_None_iff in E. lia.
Qed.

(** A property of one byte is decided by looking at all 256 of them. *)
Lemma byte_forall_dec (P : byte → bool) :
  (∀ n, (n < 256)%nat → P (u8_of (N.of_nat n)) = true) → ∀ b, P b = true.
Proof.
  intros H b. pose proof (bN_bound b) as Hb.
  specialize (H (N.to_nat (bN b)) ltac:(lia)).
  by rewrite N2Nat.id, u8_of_bN in H.
Qed.

Definition LF : byte := Byte.x0a.
Definition CR : byte := Byte.x0d.
Definition TAB : byte := Byte.x09.
Definition SPACE : byte := Byte.x20.
Definition SLASH : byte := Byte.x2f.
Definition QUOTE : byte := Byte.x22.
Definition BACKSLASH : byte := Byte.x5c.
Definition NUL : byte := Byte.x00.

Definition between (lo hi n : N) : bool := (lo <=? n)%N && (n <=? hi)%N.

(** [u8::is_ascii_digit], [is_ascii_graphic], [is_ascii_whitespace] and
    [is_ascii_alphanumeric]. *)
Definition is_ascii_digit (b : byte) : bool := between 48 57 (bN b).
Definition is_ascii_graphic (b : byte) : bool := between 33 126 (bN b).
Definition is_ascii_whitespace (b : byte) : bool :=
  bool_decide (bN b ∈ [9; 10; 12; 13; 32]%N).
Definition is_ascii_upper (b : byte) : bool := between 65 90 (bN b).
Definition is_ascii_lower (b : byte) : bool := between 97 122 (bN b).
Definition is_ascii_alphanumeric (b : byte) : bool :=
  is_ascii_digit b || is_ascii_upper b || is_ascii_lower b.
Definition byte_to_ascii_lowercase (b : byte) : byte :=
  if is_ascii_upper b then u8_of (bN b + 32) else b.
Definition to_ascii_lowercase (s : bytes) : bytes := byte_to_ascii_lowercase <$> s.

(** ** Searching byte strings *)

(** [strip_prefix] and [starts_with]. *)
Fixpoint strip_prefix (p s : bytes) : option bytes :=
  match p, s with
  | [], _ => Some s
  | c :: p', d :: s' => if bool_decide (c = d) then strip_prefix p' s' else None
  | _ :: _, [] => None
  end.
Definition starts_with (p s : bytes) : bool :=
  match strip_prefix p s with Some _ => true | None => false end.

(** [strip_suffix] and [ends_with]. *)
Definition strip_suffix (p s : bytes) : option bytes :=
  reverse <$> strip_prefix (reverse p) (reverse s).
Definition ends_with (p s : bytes) : bool :=
  match strip_suffix p s with Some _ => true | None => false end.

(** [str::split_once], at the first occurrence of the separator. *)
Fixpoint split_once (sep s : bytes) : option (bytes * bytes) :=
  match strip_prefix sep s with
  | Some r => Some ([], r)
  | None =>
      match s with
      | [] => None
      | c :: s' => '(a, b) ← split_once sep s'; Some (c :: a, b)
      end
  end.

(** [split(|b| *b == c)]: one more piece than there are separators. *)
Fixpoint split_on (c : byte) (s : bytes) : list bytes :=
  match s with
  | [] => [[]]
  | d :: s' =>
      if bool_decide (d = c) then [] :: split_on c s'
      else match split_on c s' with
           | [] => [[d]]
           | w :: ws => (d :: w) :: ws
           end
  end.

(** [contains] of one byte, and [str::contains] of a string. *)
Definition contains_byte (c : byte) (s : bytes) : bool := bool_decide (c ∈ s).
Definition contains (sep s : bytes) : bool :=
  match split_once sep s with Some _ => true | None => false end.

(** [\[T\]::join]. *)
Fixpoint join (sep : bytes) (ws : list bytes) : bytes :=
  match ws with
  | [] => []
  | [w] => w
  | w :: ws' => w ++ sep ++ join sep ws'
  end.

(** [str::rsplit_once], at the last occurrence of the separator. *)
Fixpoint rsplit_once (sep s : bytes) : option (bytes * bytes) :=
  match s with
  | [] => r ← strip_prefix sep []; Some ([], r)
  | c :: s' =>
      match rsplit_once sep s' with
      | Some (a, b) => Some (c :: a, b)
      | None => r ← strip_prefix sep s; Some ([], r)
      end
  end.

(** [str::splitn] of one byte: the last piece keeps its separators. *)
Fixpoint splitn (n : nat) (c : byte) (s : bytes) : list bytes :=
  match n with
  | 0 => []
  | 1 => [s]
  | S n' => match split_once [c] s with
            | Some (a, b) => a :: splitn n' c b
            | None => [s]
            end
  end.

(** [trim_start_matches], [trim_end_matches] and [trim_matches] of one byte. *)
Fixpoint trim_start_byte (c : byte) (s : bytes) : bytes :=
  match s with
  | d :: s' => if bool_decide (d = c) then trim_start_byte c s' else s
  | [] => []
  end.
Definition trim_end_byte (c : byte) (s : bytes) : bytes :=
  reverse (trim_start_byte c (reverse s)).
Definition trim_byte (c : byte) (s : bytes) : bytes := trim_end_byte c (trim_start_byte c s).

(** [str::replace] of one byte. *)
Definition replace_byte (c : byte) (by_ s : bytes) : bytes :=
  concat ((λ d, if bool_decide (d = c) then by_ else [d]) <$> s).

(** [str::lines]: the carriage return before a line feed goes with it. *)
Definition strip_cr (l : bytes) : bytes := default l (strip_suffix [CR] l).
Fixpoint str_lines_aux (ps : list bytes) : list bytes :=
  match ps with
  | [] | [[]] => []
  | [p] => [p]
  | p :: ps' => strip_cr p :: str_lines_aux ps'
  end.
Definition str_lines (s : bytes) : list bytes := str_lines_aux (split_on LF s).

Definition eq_ignore_ascii_case (a b : bytes) : bool :=
  bool_decide (to_ascii_lowercase a = to_ascii_lowercase b).

Lemma strip_prefix_Some p s r : strip_prefix p s = Some r ↔ s = p ++ r.
Proof.
  revert s. induction p as [|c p IH]; intros s; simpl; [naive_solver|].
  destruct s as [|d s]; [naive_solver|].
  case_bool_decide; [rewrite IH|]; naive_solver.
Qed.

Lemma strip_prefix_app p r : strip_prefix p (p ++ r) = Some r.
Proof. by apply strip_prefix_Some. Qed.

Lemma starts_with_true p s : starts_with p s = true ↔ ∃ r, s = p ++ r.
Proof.
  unfold starts_with. destruct (strip_prefix p s) as [r|] eqn:E.
  - apply strip_prefix_Some in E. naive_solver.
  - split; [done|]. intros [r ->]. by rewrite strip_prefix_app in E.
Qed.

Lemma strip_suffix_Some p s r : strip_suffix p s = Some r ↔ s = r ++ p.
Proof.
  unfold strip_suffix. rewrite fmap_Some. split.
  - intros (x & Hx & ->). apply strip_prefix_Some in Hx.
    by rewrite <- (reverse_involutive s), Hx, reverse_app, reverse_involutive.
  - intros ->. exists (reverse r). rewrite reverse_involutive. split; [|done].
    rewrite reverse_app. apply strip_prefix_app.
Qed.

Lemma ends_with_true p s : ends_with p s = true ↔ ∃ r, s = r ++ p.
Proof.
  unfold ends_with. destruct (strip_suffix p s) as [r|] eqn:E.
  - apply strip_suffix_Some in E. naive_solver.
  - split; [done|]. intros [r Hr]. apply strip_suffix_Some in Hr. congruence.
Qed.

Lemma split_once_Some sep s a b : split_once sep s = Some (a, b) → s = a ++ sep ++ b.
Proof.
  revert a. induction s as [|c s IH]; intros a; simpl.
  - destruct (strip_prefix sep []) eqn:E; [|done]. intros [= <- <-].
    by apply strip_prefix_Some in E.
  - destruct (strip_prefix sep (c :: s)) eqn:E.
    + intros [= <- <-]. by apply strip_prefix_Some in E.
    + rewrite bind_Some. intros ([a' b'] & H & [= <- <-]). simpl.
      by rewrite <- (IH a').
Qed.

(** When the separator's first byte is not in the left part, that part is cut
    off whole. *)
Lemma split_once_app c sep a b :
  c ∉ a → split_once (c :: sep) (a ++ (c :: sep) ++ b) = Some (a, b).
Proof.
  induction a as [|d a IH]; intros Hc.
  - change ([] ++ ?x) with x. rewrite <- app_comm_cons. simpl.
    rewrite bool_decide_true by done. by rewrite strip_prefix_app.
  - apply not_elem_of_cons in Hc as [Hd Ha].
    simpl. rewrite bool_decide_false by done.
    simpl in IH. by rewrite IH.
Qed.

Lemma split_once_None_not_in c s : c ∉ s → split_once [c] s = None.
Proof.
  induction s as [|d s IH]; intros Hc; simpl; [done|].
  apply not_elem_of_cons in Hc as [Hd Hs].
  rewrite bool_decide_false by done. by rewrite IH.
Qed.

Lemma split_on_not_nil c s : split_on c s ≠ [].
Proof. destruct s; simpl; [done|]. case_bool_decide; [done|]. by case_match. Qed.

Lemma split_on_sep c w r : c ∉ w → split_on c (w ++ c :: r) = w :: split_on c r.
Proof.
  induction w as [|d w IH]; intros Hc; simpl.
  - by rewrite bool_decide_true.
  - apply not_elem_of_cons in Hc as [Hd Hw].
    rewrite bool_decide_false by done. by rewrite IH.
Qed.

Lemma split_on_single c w : c ∉ w → split_on c w = [w].
Proof.
  induction w as [|d w IH]; intros Hc; simpl; [done|].
  apply not_elem_of_cons in Hc as [Hd Hw].
  rewrite bool_decide_false by done. by rewrite IH.
Qed.

Lemma split_on_pieces c s : Forall (λ w, c ∉ w) (split_on c s).
Proof.
  induction s as [|d s IH]; simpl; [repeat constructor; apply not_elem_of_nil|].
  case_bool_decide as Hd.
  - constructor; [apply not_elem_of_nil|done].
  - destruct (split_on c s) as [|w ws]; inversion IH; subst;
      repeat constructor; auto; apply not_elem_of_cons; split; auto;
      try congruence; apply not_elem_of_nil.
Qed.

Lemma join_split_on c s : join [c] (split_on c s) = s.
Proof.
  induction s as [|d s IH]; simpl; [done|].
  pose proof (split_on_not_nil c s) as Hne.
  case_bool_decide as Hd.
  - subst. destruct (split_on c s) as [|w ws]; [done|]. simpl. by rewrite <- IH.
  - destruct (split_on c s) as [|w [|w' ws]]; [done| |]; simpl in *; by rewrite <- IH.
Qed.

(** Joining LF-free lines, each closed by an LF, and splitting again. *)
Lemma split_on_lines c ws :
  Forall (λ w, c ∉ w) ws →
  split_on c (concat ((λ w, w ++ [c]) <$> ws)) = ws ++ [[]].
Proof.
  induction 1 as [|w ws Hw _ IH]; [done|].
  rewrite fmap_cons. cbn [concat]. rewrite <- app_assoc. cbn [app].
  rewrite split_on_sep by done. by rewrite IH.
Qed.

(** ** Numerals *)

Definition digit (n : N) : byte := u8_of (48 + n).
Definition digit_val (b : byte) : option N :=
  if is_ascii_digit b then Some (bN b - 48)%N else None.

(** [str::parse] of an unsigned integer whose largest value is [max]: an optional
    [+], then digits, with an overflow check after each of them. *)
Fixpoint parse_digits (max acc : N) (s : bytes) : option N :=
  match s with
  | [] => Some acc
  | c :: s' =>
      d ← digit_val c;
      if (acc * 10 + d <=? max)%N then parse_digits max (acc * 10 + d) s' else None
  end.
Definition strip_plus (s : bytes) : bytes :=
  match s with c :: s' => if (bN c =? 43)%N then s' else s | [] => [] end.
Definition parse_uint (max : N) (s : bytes) : option N :=
  match strip_plus s with [] => None | ds => parse_digits max 0 ds end.
Definition parse_u8 : bytes → option N := parse_uint u8_max.
Definition parse_u32 : bytes → option N := parse_uint u32_max.
Definition parse_u64 : bytes → option N := parse_uint u64_max.

Definition u16_max : N := 65535.
Definition parse_u16 : bytes → option N := parse_uint u16_max.

(** [u8::from_str_radix] with radix 16. *)
Definition hex_val (b : byte) : option N :=
  if is_ascii_digit b then Some (bN b - 48)%N
  else if between 65 70 (bN b) then Some (bN b - 55)%N
  else if between 97 102 (bN b) then Some (bN b - 87)%N
  else None.
Definition is_ascii_hexdigit (b : byte) : bool := is_Some_b (hex_val b).
Fixpoint parse_hex_digits (max acc : N) (s : bytes) : option N :=
  match s with
  | [] => Some acc
  | c :: s' =>
      d ← hex_val c;
      if (acc * 16 + d <=? max)%N then parse_hex_digits max (acc * 16 + d) s' else None
  end.
Definition from_str_radix_16 (max : N) (s : bytes) : option N :=
  match strip_plus s with [] => None | ds => parse_hex_digits max 0 ds end.

(** [{}] of an unsigned integer. *)
Fixpoint dec_aux (fuel : nat) (n : N) (acc : bytes) : bytes :=
  match fuel with
  | O => acc
  | S f =>
      let acc' := digit (n mod 10) :: acc in
      if (n <? 10)%N then acc' else dec_aux f (n / 10) acc'
  end.
Definition dec (n : N) : bytes := dec_aux (S (N.size_nat n)) n [].

(** [{:0w$}]: zero padding on the left up to [w] digits. *)
Definition dec_pad (w : nat) (n : N) : bytes :=
  let s := dec n in replicate (w - length s) (digit 0) ++ s.

(** [{:02x}] and [{:02X}] of a byte. *)
Definition hex_digit (upper : bool) (n : N) : byte :=
  if (n <? 10)%N then digit n else u8_of ((if upper then 55 else 87) + n).
Definition hex2 (upper : bool) (b : byte) : bytes :=
  [hex_digit upper (bN b / 16); hex_digit upper (bN b mod 16)].

Lemma digit_val_digit n : (n < 10)%N → digit_val (digit n) = Some n.
Proof.
  intros H. unfold digit_val, digit, is_ascii_digit, between.
  rewrite bN_u8_of by lia.
  destruct (48 <=? 48 + n)%N eqn:E1; destruct (48 + n <=? 57)%N eqn:E2; to_prop;
    simpl; try lia. f_equal. lia.
Qed.

Lemma parse_digits_dec_aux max fuel n tl :
  (n < 10 ^ N.of_nat fuel)%N → (n <= max)%N →
  parse_digits max 0 (dec_aux fuel n tl) = parse_digits max n tl.
Proof.
  revert n tl. induction fuel as [|fuel IH]; intros n tl Hn Hmax.
  - simpl in *. by replace n with 0%N by lia.
  - rewrite Nat2N.inj_succ, N.pow_succ_r' in Hn.
    cbn [dec_aux]. destruct (n <? 10)%N eqn:E; to_prop.
    + rewrite N.mod_small by done. simpl. rewrite digit_val_digit by done. simpl.
      rewrite (proj2 (N.leb_le _ _)) by lia. done.
    + pose proof (N.mod_lt n 10 ltac:(done)).
      pose proof (N.div_mod n 10 ltac:(done)) as Hdm.
      rewrite IH; [|by apply N.Div0.div_lt_upper_bound|].
      2:{ transitivity n; [apply N.Div0.div_le_upper_bound|]; lia. }
      cbn [parse_digits]. rewrite digit_val_digit by done.
      cbn [mbind option_bind].
      replace (n / 10 * 10 + n mod 10)%N with n by lia.
      by rewrite (proj2 (N.leb_le _ _)).
Qed.

Lemma size_nat_pow10 n : (n < 10 ^ N.of_nat (S (N.size_nat n)))%N.
Proof.
  rewrite Nat2N.inj_succ.
  replace (N.of_nat (N.size_nat n)) with (N.size n).
  2:{ destruct n as [|p]; [done|]. cbn [N.size_nat N.size].
      induction p; cbn [Pos.size_nat Pos.size]; lia. }
  pose proof (N.size_gt n). rewrite N.pow_succ_r'.
  pose proof (N.pow_le_mono_l 2 10 (N.size n)). lia.
Qed.

Lemma dec_aux_digits fuel n tl :
  Forall (λ b, is_ascii_digit b = true) tl →
  Forall (λ b, is_ascii_digit b = true) (dec_aux fuel n tl).
Proof.
  revert n tl. induction fuel as [|fuel IH]; intros n tl Htl; simpl; [done|].
  assert (is_ascii_digit (digit (n mod 10)) = true) as Hd.
  { pose proof (N.mod_lt n 10 ltac:(done)) as Hm.
    pose proof (digit_val_digit _ Hm) as H. unfold digit_val in H. by case_match. }
  case_match; [by constructor|]. apply IH. by constructor.
Qed.

Lemma dec_digits n : Forall (λ b, is_ascii_digit b = true) (dec n).
Proof. apply dec_aux_digits. constructor. Qed.

Lemma dec_aux_not_nil fuel n tl : tl ≠ [] → dec_aux fuel n tl ≠ [].
Proof.
  revert n tl. induction fuel as [|fuel IH]; intros n tl H; simpl; [done|].
  case_match; [done|]. by apply IH.
Qed.

Lemma dec_not_nil n : dec n ≠ [].
Proof. unfold dec. cbn [dec_aux]. case_match; [done|]. by apply dec_aux_not_nil. Qed.

(** Printing an integer that fits and parsing it gives it back. *)
Lemma parse_uint_dec max n : (n <= max)%N → parse_uint max (dec n) = Some n.
Proof.
  intros H. unfold parse_uint, strip_plus.
  pose proof (dec_digits n) as Hd. pose proof (dec_not_nil n) as Hne.
  destruct (dec n) as [|c s] eqn:E; [done|].
  inversion Hd as [|? ? Hc _]; subst.
  assert ((bN c =? 43)%N = false) as ->.
  { unfold is_ascii_digit, between in Hc. to_prop. apply N.eqb_neq. lia. }
  rewrite <- E. unfold dec. rewrite parse_digits_dec_aux; [done| |done].
  apply size_nat_pow10.
Qed.

Lemma parse_uint_le max s n : parse_uint max s = Some n → (n <= max)%N.
Proof.
  unfold parse_uint. destruct (strip_plus s) as [|c ds]; [done|].
  generalize (c :: ds). intros l. assert (0 <= max)%N as H by lia. revert H.
  generalize 0%N. induction l as [|d l IH]; intros acc Hacc Hn; simpl in Hn; [naive_solver|].
  destruct (digit_val d); [|done]. simpl in Hn. case_if; [by eapply IH|done].
Qed.
