(* ===== verification/Utf8.v ===== *)
(** * UTF-8

    [std::str::from_utf8], [str::chars], [char::len_utf8], char boundaries and the
    Unicode character classes of [char] whose tables are small. The decoder
    accepts what Rust accepts: shortest forms only, no surrogates, nothing past
    U+10FFFF. *)

From S2P Require Import Prelude RustStr.

(** A [char] is a Unicode scalar value. *)
Definition is_scalar (c : N) : bool := (c <? 55296)%N || between 57344 1114111 c.

(** ** Encoding: [char::encode_utf8] *)

Definition cont (n : N) : byte := u8_of (128 + n mod 64).
Definition encode_char (c : N) : bytes :=
  if (c <? 128)%N then [u8_of c]
  else if (c <? 2048)%N then [u8_of (192 + c / 64); cont c]
  else if (c <? 65536)%N then [u8_of (224 + c / 64 / 64); cont (c / 64); cont c]
  else [u8_of (240 + c / 64 / 64 / 64); cont (c / 64 / 64); cont (c / 64); cont c].
Definition encode (cs : list N) : bytes := concat (encode_char <$> cs).
Definition len_utf8 (c : N) : nat := length (encode_char c).

(** ** Decoding: [std::str::from_utf8] *)

Definition is_cont (b : byte) : bool := between 128 191 (bN b).
Definition cont_val (b : byte) : N := bN b - 128.

(** Which first and second bytes may start a three- and a four-byte form; [c1]
    says whether the second byte is a continuation byte. *)
Definition lead3 (n0 n1 : N) (c1 : bool) : bool :=
 ( ((n0 =? 224) && between 160 191 n1) || (between 225 236 n0 && c1)
  || ((n0 =? 237) && between 128 159 n1) || (between 238 239 n0 && c1))%N.
Definition lead4 (n0 n1 : N) (c1 : bool) : bool :=
 ( ((n0 =? 240) && between 144 191 n1) || (between 241 243 n0 && c1)
  || ((n0 =? 244) && between 128 143 n1))%N.

(** The first character and the number of bytes it takes. *)
Definition decode1 (s : bytes) : option (N * nat) :=
  match s with
  | [] => None
  | b0 :: s1 =>
      let n0 := bN b0 in
      if n0 <? 128 then Some (n0, 1%nat)
      else match s1 with
      | [] => None
      | b1 :: s2 =>
          let n1 := bN b1 in
          if between 194 223 n0
          then if is_cont b1 then Some ((n0 - 192) * 64 + cont_val b1, 2%nat)%N else None
          else match s2 with
          | [] => None
          | b2 :: s3 =>
              if lead3 n0 n1 (is_cont b1)
              then if is_cont b2
                   then Some (((n0 - 224) * 64 + cont_val b1) * 64 + cont_val b2, 3%nat)%N
                   else None
              else match s3 with
              | [] => None
              | b3 :: _ =>
                  if lead4 n0 n1 (is_cont b1) && is_cont b2 && is_cont b3
                  then Some ((((n0 - 240) * 64 + cont_val b1) * 64 + cont_val b2) * 64
                             + cont_val b3, 4%nat)%N
                  else None
              end
          end
      end
  end%N.

(** [skip] bytes of the current character are still to be passed over. *)
Fixpoint decode_skip (skip : nat) (s : bytes) : option (list N) :=
  match s with
  | [] => match skip with O => Some [] | S _ => None end
  | _ :: s' =>
      match skip with
      | S k => decode_skip k s'
      | O => '(c, len) ← decode1 s; cs ← decode_skip (pred len) s'; Some (c :: cs)
      end
  end.
Definition utf8_decode (s : bytes) : option (list N) := decode_skip 0 s.
Definition utf8_valid (s : bytes) : bool :=
  match utf8_decode s with Some _ => true | None => false end.

(** [str::chars] of bytes that are a [str]. *)
Definition chars (s : bytes) : list N := default [] (utf8_decode s).

(** [str::is_char_boundary]. *)
Definition is_char_boundary (s : bytes) (i : nat) : bool :=
  match i with
  | O => true
  | _ => match s !! i with
         | Some b => negb (is_cont b)
         | None => (i =? length s)%nat
         end
  end.

(** [str::get(lo..hi)]. *)
Definition str_get (s : bytes) (lo hi : nat) : option bytes :=
  if (lo <=? hi)%nat && is_char_boundary s lo && is_char_boundary s hi
  then Some (take (hi - lo) (drop lo s)) else None.

(** ** Character classes *)

(** [char::is_whitespace]: the [White_Space] property. *)
Definition is_whitespace (c : N) : bool :=
  between 9 13 c || bool_decide (c ∈ [32; 133; 160; 5760; 8232; 8233; 8239; 8287; 12288]%N)
  || between 8192 8202 c.
(** [char::is_control]: the general category [Cc]. *)
Definition is_control (c : N) : bool := (c <? 32)%N || between 127 159 c.

(** [str::trim_start], [trim_end] and [trim]. *)
Fixpoint drop_ws (cs : list N) : list N :=
  match cs with
  | c :: cs' => if is_whitespace c then drop_ws cs' else cs
  | [] => []
  end.
Definition trim_start (s : bytes) : bytes := encode (drop_ws (chars s)).
Definition trim_end (s : bytes) : bytes := encode (reverse (drop_ws (reverse (chars s)))).
Definition trim (s : bytes) : bytes :=
  encode (reverse (drop_ws (reverse (drop_ws (chars s))))).

(** [str::split_whitespace]. *)
Fixpoint words_aux (cur : list N) (cs : list N) : list (list N) :=
  match cs with
  | [] => match cur with [] => [] | _ => [reverse cur] end
  | c :: cs' =>
      if is_whitespace c
      then match cur with [] => words_aux [] cs' | _ => reverse cur :: words_aux [] cs' end
      else words_aux (c :: cur) cs'
  end.
Definition split_whitespace (s : bytes) : list bytes := encode <$> words_aux [] (chars s).

(** ** Laws *)

Lemma split64 a b : (b < 64)%N → ((a * 64 + b) / 64 = a ∧ (a * 64 + b) mod 64 = b)%N.
Proof.
  intros H. split.
  - rewrite N.div_add_l by done. rewrite N.div_small by done. lia.
  - rewrite N.add_comm, N.Div0.mod_add. by apply N.mod_small.
Qed.

Lemma cont_cont_val a b : is_cont b = true → cont (a * 64 + cont_val b) = b.
Proof.
  unfold is_cont, between, cont, cont_val. intros H; to_prop.
  rewrite (proj2 (split64 a (bN b - 128) ltac:(lia))).
  rewrite <- (u8_of_bN b) at 2. f_equal. lia.
Qed.

Lemma cont_val_bound b : is_cont b = true → (cont_val b < 64)%N.
Proof. unfold is_cont, between, cont_val. intros H; to_prop. lia. Qed.

Lemma is_cont_cont n : is_cont (cont n) = true.
Proof.
  unfold is_cont, between, cont. rewrite bN_u8_of by divlia.
  apply andb_true_iff; split; apply N.leb_le; divlia.
Qed.

Lemma cont_val_cont n : cont_val (cont n) = (n mod 64)%N.
Proof. unfold cont_val, cont. rewrite bN_u8_of by divlia. divlia. Qed.

(** The four shapes of an encoding, by the size of the scalar value. *)
Lemma encode_char_2 c :
  (128 <= c < 2048)%N → encode_char c = [u8_of (192 + c / 64); cont c].
Proof.
  intros H. unfold encode_char.
  by rewrite (proj2 (N.ltb_ge c 128)), (proj2 (N.ltb_lt c 2048)) by lia.
Qed.
Lemma encode_char_3 c :
  (2048 <= c < 65536)%N →
  encode_char c = [u8_of (224 + c / 64 / 64); cont (c / 64); cont c].
Proof.
  intros H. unfold encode_char.
  by rewrite (proj2 (N.ltb_ge c 128)), (proj2 (N.ltb_ge c 2048)),
    (proj2 (N.ltb_lt c 65536)) by lia.
Qed.
Lemma encode_char_4 c :
  (65536 <= c)%N →
  encode_char c = [u8_of (240 + c / 64 / 64 / 64); cont (c / 64 / 64); cont (c / 64); cont c].
Proof.
  intros H. unfold encode_char.
  by rewrite (proj2 (N.ltb_ge c 128)), (proj2 (N.ltb_ge c 2048)),
    (proj2 (N.ltb_ge c 65536)) by lia.
Qed.

Lemma is_scalar_intro c : (c < 55296 ∨ 57344 <= c <= 1114111)%N → is_scalar c = true.
Proof.
  unfold is_scalar, between. intros [H|H].
  - by rewrite (proj2 (N.ltb_lt _ _)).
  - rewrite !(proj2 (N.leb_le _ _)) by lia. apply orb_true_r.
Qed.

(** The lead-byte tests of the three- and four-byte forms as ranges. *)
Lemma lead3_range b0 b1 :
  lead3 (bN b0) (bN b1) (is_cont b1) = true →
  is_cont b1 = true ∧ (224 <= bN b0 <= 239)%N ∧
  (bN b0 = 224 → 32 <= cont_val b1)%N ∧ (bN b0 = 237 → cont_val b1 <= 31)%N.
Proof.
  unfold lead3, is_cont, cont_val, between. rewrite !orb_true_iff, !andb_true_iff.
  rewrite !N.leb_le, !N.eqb_eq. lia.
Qed.

Lemma lead4_range b0 b1 :
  lead4 (bN b0) (bN b1) (is_cont b1) = true →
  is_cont b1 = true ∧ (240 <= bN b0 <= 244)%N ∧
  (bN b0 = 240 → 16 <= cont_val b1)%N ∧ (bN b0 = 244 → cont_val b1 <= 15)%N.
Proof.
  unfold lead4, is_cont, cont_val, between. rewrite !orb_true_iff, !andb_true_iff.
  rewrite !N.leb_le, !N.eqb_eq. lia.
Qed.

(** What a successful [decode1] says: the bytes are the shortest encoding of a
    scalar value. *)
Lemma decode1_Some s c len :
  decode1 s = Some (c, len) →
  s = encode_char c ++ drop len s ∧ length (encode_char c) = len ∧ is_scalar c = true.
Proof.
  destruct s as [|b0 s1]; [done|]. cbn [decode1].
  destruct (bN b0 <? 128)%N eqn:E0; to_prop.
  { intros [= <- <-]. unfold encode_char. rewrite (proj2 (N.ltb_lt _ _)) by done.
    rewrite u8_of_bN. split_and!; try done. apply is_scalar_intro. lia. }
  destruct s1 as [|b1 s2]; [done|].
  destruct (between 194 223 (bN b0)) eqn:E1.
  { destruct (is_cont b1) eqn:C1; [|done]. intros [= <- <-].
    pose proof (cont_val_bound _ C1). unfold between in E1; to_prop.
    rewrite encode_char_2 by lia. rewrite cont_cont_val by done.
    rewrite (proj1 (split64 (bN b0 - 192) (cont_val b1) ltac:(done))).
    replace (192 + (bN b0 - 192))%N with (bN b0) by lia.
    rewrite u8_of_bN. split_and!; try done. apply is_scalar_intro. lia. }
  destruct s2 as [|b2 s3]; [done|].
  destruct (lead3 _ _ _) eqn:E2.
  { destruct (is_cont b2) eqn:C2; [|done]. intros [= <- <-].
    apply lead3_range in E2 as (C1 & Hr & Hlo & Hhi).
    pose proof (cont_val_bound _ C1). pose proof (cont_val_bound _ C2).
    rewrite encode_char_3 by lia. rewrite cont_cont_val by done.
    rewrite !(proj1 (split64 _ (cont_val b2) ltac:(done))), cont_cont_val by done.
    rewrite !(proj1 (split64 _ (cont_val b1) ltac:(done))).
    replace (224 + (bN b0 - 224))%N with (bN b0) by lia.
    rewrite u8_of_bN. split_and!; try done. apply is_scalar_intro. lia. }
  destruct s3 as [|b3 s4]; [done|].
  destruct (lead4 _ _ _) eqn:E3; [|done].
  destruct (is_cont b2) eqn:C2; [|done]. destruct (is_cont b3) eqn:C3; [|done].
  intros [= <- <-]. apply lead4_range in E3 as (C1 & Hr & Hlo & Hhi).
  pose proof (cont_val_bound _ C1). pose proof (cont_val_bound _ C2).
  pose proof (cont_val_bound _ C3).
  rewrite encode_char_4 by lia. rewrite cont_cont_val by done.
  rewrite !(proj1 (split64 _ (cont_val b3) ltac:(done))), cont_cont_val by done.
  rewrite !(proj1 (split64 _ (cont_val b2) ltac:(done))), cont_cont_val by done.
  rewrite !(proj1 (split64 _ (cont_val b1) ltac:(done))).
  replace (240 + (bN b0 - 240))%N with (bN b0) by lia.
  rewrite u8_of_bN. split_and!; try done. apply is_scalar_intro. lia.
Qed.

Lemma between_true lo hi n : between lo hi n = true ↔ (lo <= n <= hi)%N.
Proof. unfold between. by rewrite andb_true_iff, !N.leb_le. Qed.
Lemma between_false lo hi n : (n < lo ∨ hi < n)%N → between lo hi n = false.
Proof.
  intros H. apply not_true_is_false. rewrite between_true. lia.
Qed.

Lemma is_scalar_elim c : is_scalar c = true → (c < 55296 ∨ 57344 <= c <= 1114111)%N.
Proof. unfold is_scalar. rewrite orb_true_iff, N.ltb_lt, between_true. done. Qed.

Lemma decode1_encode c r :
  is_scalar c = true → decode1 (encode_char c ++ r) = Some (c, length (encode_char c)).
Proof.
  intros Hc%is_scalar_elim.
  destruct (decide (c < 128)%N) as [H1|H1].
  { unfold encode_char. rewrite (proj2 (N.ltb_lt _ _)) by done. simpl.
    rewrite bN_u8_of by lia. by rewrite (proj2 (N.ltb_lt _ _)). }
  destruct (decide (c < 2048)%N) as [H2|H2].
  { rewrite encode_char_2 by lia. cbn [app decode1 length].
    rewrite bN_u8_of by divlia. rewrite (proj2 (N.ltb_ge _ _)) by divlia.
    rewrite (proj2 (between_true _ _ _)) by divlia.
    rewrite is_cont_cont, cont_val_cont. f_equal. f_equal. divlia. }
  destruct (decide (c < 65536)%N) as [H3|H3].
  { rewrite encode_char_3 by lia. cbn [app decode1 length].
    rewrite !bN_u8_of by divlia. rewrite (proj2 (N.ltb_ge _ _)) by divlia.
    rewrite between_false by divlia.
    assert (lead3 (224 + c / 64 / 64) (bN (cont (c / 64))) true = true) as Hl.
    { unfold lead3, cont. rewrite bN_u8_of by divlia.
      rewrite !orb_true_iff, !andb_true_iff, !between_true, !N.eqb_eq. divlia. }
    rewrite !is_cont_cont, !cont_val_cont, Hl. f_equal. f_equal. divlia. }
  rewrite encode_char_4 by lia. cbn [app decode1 length].
  rewrite !bN_u8_of by divlia. rewrite (proj2 (N.ltb_ge _ _)) by divlia.
  rewrite between_false by divlia.
  assert (lead3 (240 + c / 64 / 64 / 64) (bN (cont (c / 64 / 64))) true = false) as Hl.
  { apply not_true_is_false. unfold lead3.
    rewrite !orb_true_iff, !andb_true_iff, !between_true, !N.eqb_eq. divlia. }
  assert (lead4 (240 + c / 64 / 64 / 64) (bN (cont (c / 64 / 64))) true = true) as Hl'.
  { unfold lead4, cont. rewrite bN_u8_of by divlia.
    rewrite !orb_true_iff, !andb_true_iff, !between_true, !N.eqb_eq. divlia. }
  rewrite !is_cont_cont, !cont_val_cont, Hl, Hl'. cbn [andb]. f_equal. f_equal. divlia.
Qed.

Lemma encode_char_not_nil c : encode_char c ≠ [].
Proof. unfold encode_char. by repeat case_match. Qed.

Lemma decode_skip_drop k s :
  k ≤ length s → decode_skip k s = utf8_decode (drop k s).
Proof.
  revert k. induction s as [|b s IH]; intros [|k] H; try done; [simpl in H; lia|].
  simpl. apply IH. simpl in H. lia.
Qed.

(** The decoder one character at a time. *)
Lemma utf8_decode_step s c len :
  decode1 s = Some (c, len) →
  utf8_decode s = cs ← utf8_decode (drop len s); Some (c :: cs).
Proof.
  intros H. pose proof (decode1_Some _ _ _ H) as (Hs & Hlen & _).
  destruct s as [|b s]; [done|]. unfold utf8_decode at 1. cbn [decode_skip].
  rewrite H. cbn [mbind option_bind].
  assert (len ≠ 0) by (intros ->; by apply nil_length_inv, encode_char_not_nil in Hlen).
  rewrite decode_skip_drop.
  - destruct len; [done|]. done.
  - apply (f_equal length) in Hs. rewrite length_app, length_drop in Hs. simpl in *. lia.
Qed.

Lemma utf8_decode_cons c s :
  is_scalar c = true →
  utf8_decode (encode_char c ++ s) = cs ← utf8_decode s; Some (c :: cs).
Proof.
  intros Hc. rewrite (utf8_decode_step _ _ _ (decode1_encode c s Hc)).
  by rewrite drop_app_length.
Qed.

Lemma encode_utf8_decode_len n s cs :
  length s ≤ n → utf8_decode s = Some cs →
  encode cs = s ∧ Forall (λ c, is_scalar c = true) cs.
Proof.
  revert s cs. induction n as [|n IH]; intros s cs Hn H.
  { destruct s; [|simpl in Hn; lia]. by injection H as <-. }
  destruct s as [|b s]; [by injection H as <-|].
  destruct (decode1 (b :: s)) as [[c len]|] eqn:E.
  2:{ unfold utf8_decode in H. cbn [decode_skip] in H. by rewrite E in H. }
  rewrite (utf8_decode_step _ _ _ E) in H.
  apply bind_Some in H as (cs' & Hcs & [= <-]).
  apply decode1_Some in E as (Hs & Hlen & Hc).
  assert (len ≠ 0) by (intros ->; by apply nil_length_inv, encode_char_not_nil in Hlen).
  apply IH in Hcs as [He Hf].
  - split; [|by constructor]. unfold encode in *. rewrite fmap_cons. cbn [concat].
    by rewrite He, <- Hs.
  - rewrite length_drop. simpl in *. lia.
Qed.

(** Decoding gives scalar values whose encoding is the input, and the converse. *)
Lemma encode_utf8_decode s cs : utf8_decode s = Some cs → encode cs = s.
Proof. intros H. by apply (encode_utf8_decode_len (length s)) in H as [? _]. Qed.
Lemma utf8_decode_scalars s cs :
  utf8_decode s = Some cs → Forall (λ c, is_scalar c = true) cs.
Proof. intros H. by apply (encode_utf8_decode_len (length s)) in H as [_ ?]. Qed.

Lemma utf8_decode_app_encode cs s :
  Forall (λ c, is_scalar c = true) cs →
  utf8_decode (encode cs ++ s) = ds ← utf8_decode s; Some (cs ++ ds).
Proof.
  induction 1 as [|c cs Hc _ IH].
  { change (encode [] ++ s) with s. by destruct (utf8_decode s). }
  unfold encode in *. rewrite fmap_cons. cbn [concat]. rewrite <- app_assoc.
  rewrite utf8_decode_cons by done. rewrite IH. by destruct (utf8_decode s).
Qed.

Lemma utf8_decode_encode cs :
  Forall (λ c, is_scalar c = true) cs → utf8_decode (encode cs) = Some cs.
Proof.
  intros H. rewrite <- (app_nil_r (encode cs)), utf8_decode_app_encode by done.
  simpl. by rewrite app_nil_r.
Qed.

Lemma utf8_valid_iff s :
  utf8_valid s = true ↔ ∃ cs, Forall (λ c, is_scalar c = true) cs ∧ s = encode cs.
Proof.
  unfold utf8_valid. split.
  - destruct (utf8_decode s) as [cs|] eqn:E; [|done]. intros _. exists cs.
    split; [by eapply utf8_decode_scalars|]. symmetry. by apply encode_utf8_decode.
  - intros (cs & Hcs & ->). by rewrite utf8_decode_encode.
Qed.

Lemma encode_app cs ds : encode (cs ++ ds) = encode cs ++ encode ds.
Proof. unfold encode. by rewrite fmap_app, concat_app. Qed.
Lemma drop_ws_suffix cs : ∃ pre, cs = pre ++ drop_ws cs.
Proof.
  induction cs as [|c cs [pre IH]]; [by exists []|]. cbn.
  destruct (is_whitespace c); [exists (c :: pre); by rewrite IH at 1|by exists []].
Qed.

Lemma utf8_valid_app s t :
  utf8_valid s = true → utf8_valid t = true → utf8_valid (s ++ t) = true.
Proof.
  rewrite !utf8_valid_iff. intros (cs & Hcs & ->) (ds & Hds & ->).
  exists (cs ++ ds). by rewrite encode_app, Forall_app.
Qed.

Lemma utf8_valid_concat ss :
  Forall (λ s, utf8_valid s = true) ss → utf8_valid (concat ss) = true.
Proof. induction 1; [done|]. simpl. by apply utf8_valid_app. Qed.

(** Bytes below 128 are characters of their own. *)
Lemma encode_char_ascii b : (bN b < 128)%N → encode_char (bN b) = [b].
Proof.
  intros H. unfold encode_char. rewrite (proj2 (N.ltb_lt _ _)) by done.
  by rewrite u8_of_bN.
Qed.

Lemma utf8_decode_ascii_cons b s :
  (bN b < 128)%N → utf8_decode (b :: s) = cs ← utf8_decode s; Some (bN b :: cs).
Proof.
  intros H. change (b :: s) with ([b] ++ s). rewrite <- (encode_char_ascii b) by done.
  apply utf8_decode_cons. apply is_scalar_intro. lia.
Qed.

Lemma utf8_valid_ascii s : Forall (λ b, (bN b < 128)%N) s → utf8_valid s = true.
Proof.
  induction 1 as [|b s Hb _ IH]; [done|]. unfold utf8_valid in *.
  rewrite utf8_decode_ascii_cons by done. by destruct (utf8_decode s).
Qed.

Lemma lead_not_cont n : (n < 128 ∨ 192 <= n < 256)%N → is_cont (u8_of n) = false.
Proof. intros H. unfold is_cont. rewrite bN_u8_of by lia. apply between_false. lia. Qed.

Lemma encode_char_shape c :
  is_scalar c = true →
  ∃ b t, encode_char c = b :: t ∧ is_cont b = false ∧ Forall (λ x, is_cont x = true) t.
Proof.
  intros Hc%is_scalar_elim. unfold encode_char. repeat case_if.
  all: eexists _, _; split_and!; [reflexivity | apply lead_not_cont; divlia |].
  all: repeat constructor; apply is_cont_cont.
Qed.

(** A char boundary of a [str] separates its characters. *)
Lemma boundary_split cs i :
  Forall (λ c, is_scalar c = true) cs →
  is_char_boundary (encode cs) i = true →
  ∃ cs1 cs2, cs = cs1 ++ cs2 ∧ i = length (encode cs1).
Proof.
  intros Hcs. revert i. induction Hcs as [|c cs Hc Hcs IH]; intros i Hi.
  { destruct i as [|i]; [|done]. by exists [], []. }
  destruct (decide (i = 0)) as [->|Hi0]; [by exists [], (c :: cs)|].
  destruct (encode_char_shape c Hc) as (b & t & Hbt & Hb & Ht).
  change (encode (c :: cs)) with (encode_char c ++ encode cs) in Hi.
  destruct (decide (i < length (encode_char c))) as [Hlt|Hge].
  - exfalso. unfold is_char_boundary in Hi. destruct i as [|i]; [done|].
    rewrite lookup_app_l in Hi by done. rewrite Hbt in Hi, Hlt. simpl in Hi, Hlt.
    destruct (lookup_lt_is_Some_2 t i ltac:(lia)) as [x Hx]. rewrite Hx in Hi.
    eapply Forall_lookup_1 in Ht; [|exact Hx]. by rewrite Ht in Hi.
  - destruct (IH (i - length (encode_char c))) as (cs1 & cs2 & -> & Hi').
    + unfold is_char_boundary in *. destruct i as [|i]; [done|].
      rewrite lookup_app_r in Hi by lia.
      destruct (S i - length (encode_char c)) as [|j] eqn:Ej; [done|].
      destruct (encode cs !! S j); [done|].
      to_prop. apply Nat.eqb_eq. rewrite length_app in Hi. lia.
    + exists (c :: cs1), cs2. split; [done|].
      change (encode (c :: cs1)) with (encode_char c ++ encode cs1).
      rewrite length_app. lia.
Qed.

(** And where two texts are joined there is one. *)
Lemma boundary_join cs ds :
  Forall (λ c, is_scalar c = true) ds →
  is_char_boundary (encode (cs ++ ds)) (length (encode cs)) = true.
Proof.
  intros Hds. unfold is_char_boundary. destruct (length (encode cs)) as [|n] eqn:En; [done|].
  rewrite encode_app, <- En, lookup_app_r, Nat.sub_diag by done.
  destruct Hds as [|d ds Hd _].
  - cbn. apply Nat.eqb_eq. by rewrite length_app, Nat.add_0_r.
  - destruct (encode_char_shape d Hd) as (x & t & Hx & Hc & _).
    change (encode (d :: ds)) with (encode_char d ++ encode ds). rewrite Hx. cbn. by rewrite Hc.
Qed.

Lemma utf8_valid_cut s i :
  utf8_valid s = true → is_char_boundary s i = true →
  utf8_valid (take i s) = true ∧ utf8_valid (drop i s) = true ∧ i ≤ length s.
Proof.
  intros (cs & Hcs & ->)%utf8_valid_iff Hi.
  destruct (boundary_split _ _ Hcs Hi) as (cs1 & cs2 & -> & ->).
  apply Forall_app in Hcs as [H1 H2]. rewrite encode_app.
  rewrite take_app_length, drop_app_length, length_app, !utf8_valid_iff.
  split_and!; [by exists cs1|by exists cs2|lia].
Qed.
