(* ===== verification/Domain.v ===== *)
(** * Source identity ([crates/core/src/domain.rs])

    Digests, line endings, source documents and repository paths. [Snapshot.v]
    holds the rest of the file. SHA-256 is a parameter: the crate [sha2] is not
    part of the program. *)

From S2P Require Import Prelude RustStr Utf8.

(** ** Digests *)

(** [Sha256::digest] of the crate [sha2]. *)
Class Sha256 := sha256 : bytes → bytes.

(** [u64::to_le_bytes]. *)
Fixpoint le_bytes (k : nat) (n : N) : bytes :=
  match k with O => [] | S k' => u8_of n :: le_bytes k' (n / 256) end.
Definition u64_le_bytes (n : N) : bytes := le_bytes 8 (n mod (u64_max + 1)).

(** The bytes [digest] feeds to the hash, part by part. *)
Definition digest_input (parts : list bytes) : bytes :=
  concat ((λ p, u64_le_bytes (lenN p) ++ p) <$> parts).
Definition hex (s : bytes) : bytes := concat (hex2 false <$> s).
Definition digest `{Sha256} (parts : list bytes) : bytes := hex (sha256 (digest_input parts)).

(** ** Sides and line endings *)

Inductive Side := Left | Right.
#[export] Instance Side_eq_dec : EqDecision Side.
Proof. solve_decision. Defined.
Definition Side_api (s : Side) : bytes :=
  match s with Left => bs "LEFT" | Right => bs "RIGHT" end.

Module LineEnding.
Inductive LineEnding := Lf | CrLf | None.
Definition ending_bytes (e : LineEnding) : bytes :=
  match e with Lf => [LF] | CrLf => [CR; LF] | None => [] end.
Definition label (e : LineEnding) : bytes :=
  match e with Lf => bs "LF" | CrLf => bs "CRLF" | None => bs "no final newline" end.
#[export] Instance LineEnding_eq_dec : EqDecision LineEnding.
Proof. solve_decision. Defined.
End LineEnding.
Notation LineEnding := LineEnding.LineEnding.
#[export] Existing Instance LineEnding.LineEnding_eq_dec.

(** ** Source documents *)

Record SourceLine := mkSourceLine { content : nat * nat; ending : LineEnding }.
Inductive SourceError := InvalidUtf8 | TooLarge | TooManyLines | InvalidCoordinate.
#[export] Instance SourceError_eq_dec : EqDecision SourceError.
Proof. solve_decision. Defined.

Record SourceDocument := mkSourceDocument { raw : bytes; lines : list SourceLine }.

Definition max_source_bytes : N := 32 * 1024 * 1024.
Definition max_source_lines : N := 1000000.

(** The loop of [SourceDocument::from_utf8] from byte [i], whose bytes to come are
    [rest]; [n] lines are already pushed and the current one begins at [start].
    The second component is where the last line begins. *)
Fixpoint scan_lines (raw rest : bytes) (i start : nat) (n : N)
    : result SourceError (list SourceLine * nat) :=
  match rest with
  | [] => Ok ([], start)
  | b :: rest' =>
      if bool_decide (b = LF) then
        let cr := (start <? i)%nat && bool_decide (raw !! (i - 1)%nat = Some CR) in
        let l := mkSourceLine (start, if cr then (i - 1)%nat else i)
                              (if cr then LineEnding.CrLf else LineEnding.Lf) in
        if (max_source_lines <? n + 1)%N then Err TooManyLines
        else '(ls, st) ← scan_lines raw rest' (S i) (S i) (n + 1)%N; Ok (l :: ls, st)
      else scan_lines raw rest' (S i) start n
  end.

Definition from_utf8 (input : bytes) : result SourceError SourceDocument :=
  if (max_source_bytes <? lenN input)%N then Err TooLarge
  else if negb (utf8_valid input) then Err InvalidUtf8
  else
    '(ls, start) ← scan_lines input input 0 0 0;
    let ls := if (start <? length input)%nat
              then ls ++ [mkSourceLine (start, length input) LineEnding.None] else ls in
    if (max_source_lines <? lenN ls)%N then Err TooManyLines
    else Ok (mkSourceDocument input ls).

(** The slice of [raw] a range selects. *)
Definition slice (s : bytes) (r : nat * nat) : bytes := take (r.2 - r.1) (drop r.1 s).

Definition line_text (d : SourceDocument) (line : N) : option bytes :=
  k ← checked_sub line 1;
  l ← lines d !! N.to_nat k;
  Some (slice (raw d) (content l)).

Definition offset (d : SourceDocument) (line : N) (column : nat) : result SourceError nat :=
  k ← ok_or (checked_sub line 1) InvalidCoordinate;
  l ← ok_or (lines d !! N.to_nat k) InvalidCoordinate;
  if ((content l).2 - (content l).1 <? column)%nat
     || negb (is_char_boundary (raw d) ((content l).1 + column))
  then Err InvalidCoordinate
  else Ok ((content l).1 + column)%nat.

(** ** Repository paths *)

Module RepoPath.

Record RepoPath := mkRepoPath { path_bytes : bytes }.
#[export] Instance RepoPath_eq_dec : EqDecision RepoPath.
Proof. solve_decision. Defined.

Definition bad_component (p : bytes) : bool :=
  bool_decide (p = []) || bool_decide (p = bs ".") || bool_decide (p = bs "..").

Definition new (b : bytes) : result bytes RepoPath :=
  if bool_decide (b = []) || contains_byte NUL b || starts_with [SLASH] b
     || existsb bad_component (split_on SLASH b)
  then Err (bs "invalid relative repository path")
  else Ok (mkRepoPath b).

Definition utf8 (p : RepoPath) : result bytes bytes :=
  if utf8_valid (path_bytes p) then Ok (path_bytes p)
  else Err (bs "GitHub requires a UTF-8 path").

(** [char::escape_default] of a control character: its code point is below 160. *)
Definition escape_control (c : N) : bytes :=
  if (c =? 9)%N then bs "\t" else if (c =? 13)%N then bs "\r"
  else if (c =? 10)%N then bs "\n"
  else bs "\u{" ++ (if (c <? 16)%N then [] else [hex_digit false (c / 16)])
       ++ [hex_digit false (c mod 16)] ++ bs "}".
Definition display_char (c : N) : bytes :=
  if is_control c then escape_control c else encode_char c.
Definition display_byte (b : byte) : bytes :=
  if is_ascii_graphic b || bool_decide (b = SPACE) then [b] else bs "\x" ++ hex2 false b.
Definition display (p : RepoPath) : bytes :=
  match utf8_decode (path_bytes p) with
  | Some cs => concat (display_char <$> cs)
  | None => concat (display_byte <$> path_bytes p)
  end.

(** ** Git's quoted paths *)

Definition octal (b : byte) : option N :=
  if between 48 55 (bN b) then Some (bN b - 48)%N else None.

(** The octal escape whose first digit is [n]: up to two more digits. *)
Definition octal_escape (n : N) (s : bytes) : N * bytes :=
  match s with
  | d :: s1 =>
      match octal d with
      | Some n1 =>
          match s1 with
          | e :: s2 =>
              match octal e with
              | Some n2 => ((n * 8 + n1) * 8 + n2, s2)%N
              | None => (n * 8 + n1, s1)%N
              end
          | [] => (n * 8 + n1, s1)%N
          end
      | None => (n, s)
      end
  | [] => (n, s)
  end.

(** The one-letter escapes. *)
Definition letter_escape (c : byte) : option byte :=
  if bool_decide (c = u8_of 97) then Some (u8_of 7)        (* a *)
  else if bool_decide (c = u8_of 98) then Some (u8_of 8)   (* b *)
  else if bool_decide (c = u8_of 116) then Some (u8_of 9)  (* t *)
  else if bool_decide (c = u8_of 110) then Some (u8_of 10) (* n *)
  else if bool_decide (c = u8_of 118) then Some (u8_of 11) (* v *)
  else if bool_decide (c = u8_of 102) then Some (u8_of 12) (* f *)
  else if bool_decide (c = u8_of 114) then Some (u8_of 13) (* r *)
  else if bool_decide (c = BACKSLASH) || bool_decide (c = QUOTE) then Some c
  else None.

(** The loop of [from_git_token] over the bytes between the quotes; each
    iteration takes at least one of them, so their number is fuel enough. *)
Fixpoint unquote (fuel : nat) (s : bytes) : result bytes bytes :=
  match fuel with
  | O => Ok []
  | S fuel' =>
      match s with
      | [] => Ok []
      | b :: s1 =>
          if bool_decide (b = QUOTE) then Err (bs "unescaped quote in path")
          else if negb (bool_decide (b = BACKSLASH)) then cons b <$> unquote fuel' s1
          else match s1 with
          | [] => Err (bs "trailing path escape")
          | c :: s2 =>
              match octal c with
              | Some n =>
                  let '(n, s3) := octal_escape n s2 in
                  if (255 <? n)%N then Err (bs "octal path escape is larger than one byte")
                  else cons (u8_of n) <$> unquote fuel' s3
              | None =>
                  match letter_escape c with
                  | Some d => cons d <$> unquote fuel' s2
                  | None => Err (bs "invalid Git path escape")
                  end
              end
          end
      end
  end.

Definition from_git_token (v : bytes) : result bytes RepoPath :=
  if negb (starts_with [QUOTE] v) then new v
  else if (length v <? 2)%nat || negb (ends_with [QUOTE] v)
  then Err (bs "unterminated quoted path")
  else
    let inner := take (length v - 2) (drop 1 v) in
    out ← unquote (length inner) inner; new out.

Definition without_side (p : RepoPath) : result bytes RepoPath :=
  if starts_with (bs "a/") (path_bytes p) || starts_with (bs "b/") (path_bytes p)
  then new (drop 2 (path_bytes p)) else Ok p.

End RepoPath.
Notation RepoPath := RepoPath.RepoPath.
#[export] Existing Instance RepoPath.RepoPath_eq_dec.

(** ** Digests: the framing is injective *)

Fixpoint le_value (s : bytes) : N :=
  match s with [] => 0 | b :: s' => bN b + 256 * le_value s' end.

Lemma length_le_bytes k n : length (le_bytes k n) = k.
Proof. revert n. induction k; intros; simpl; auto. Qed.

Lemma le_value_le_bytes k n : (n < 256 ^ N.of_nat k)%N → le_value (le_bytes k n) = n.
Proof.
  revert n. induction k as [|k IH]; intros n H.
  { simpl in *. lia. }
  rewrite Nat2N.inj_succ, N.pow_succ_r' in H.
  cbn [le_bytes le_value]. rewrite IH by (by apply N.Div0.div_lt_upper_bound).
  assert (bN (u8_of n) = n mod 256)%N as ->.
  { rewrite <- (bN_u8_of (n mod 256)) by divlia. unfold u8_of.
    by rewrite N.Div0.mod_mod. }
  divlia.
Qed.

Lemma u64_le_bytes_inj m n :
  (m <= u64_max)%N → (n <= u64_max)%N → u64_le_bytes m = u64_le_bytes n → m = n.
Proof.
  unfold u64_le_bytes. intros Hm Hn H. apply (f_equal le_value) in H.
  rewrite !N.mod_small in H by lia.
  rewrite !le_value_le_bytes in H by (change (256 ^ N.of_nat 8)%N with (u64_max + 1)%N; lia).
  done.
Qed.

Definition part_fits (p : bytes) : Prop := (lenN p <= u64_max)%N.

Lemma digest_input_inj ps qs :
  Forall part_fits ps → Forall part_fits qs →
  digest_input ps = digest_input qs → ps = qs.
Proof.
  intros Hps. revert qs. induction Hps as [|p ps Hp _ IH]; intros qs Hqs H.
  - destruct qs as [|q qs]; [done|]. apply (f_equal length) in H.
    unfold digest_input in H. rewrite fmap_cons in H. cbn [concat] in H.
    rewrite !length_app in H. unfold u64_le_bytes in H. rewrite length_le_bytes in H.
    simpl in H. lia.
  - inversion Hqs as [|q qs' Hq Hqs']; subst.
    + apply (f_equal length) in H. unfold digest_input in H. rewrite fmap_cons in H.
      cbn [concat] in H. rewrite !length_app in H. unfold u64_le_bytes in H.
      rewrite length_le_bytes in H. simpl in H. lia.
    + unfold digest_input in H. rewrite !fmap_cons in H. cbn [concat] in H.
      rewrite <- !app_assoc in H.
      apply app_inj_1 in H as [Hl H].
      2:{ unfold u64_le_bytes. by rewrite !length_le_bytes. }
      apply u64_le_bytes_inj in Hl; [|done|done].
      apply app_inj_1 in H as [-> H]; [|unfold lenN in Hl; lia].
      f_equal. by apply IH.
Qed.

Definition unhex_digit (b : byte) : N :=
  if is_ascii_digit b then bN b - 48 else bN b - 87.

Lemma unhex_hex2 b :
  match hex2 false b with
  | [h; l] => u8_of (unhex_digit h * 16 + unhex_digit l) = b
  | _ => False
  end.
Proof. destruct b; vm_compute; reflexivity. Qed.

Lemma hex_inj s t : hex s = hex t → s = t.
Proof.
  revert t. induction s as [|b s IH]; intros [|c t] H; try done.
  unfold hex in H. rewrite !fmap_cons in H. cbn [concat] in H.
  pose proof (unhex_hex2 b) as Hb. pose proof (unhex_hex2 c) as Hc.
  unfold hex2 in *. injection H as H1 H2 H3. rewrite H1, H2 in Hb.
  f_equal; [congruence|]. by apply IH.
Qed.

(** Two lists of parts with the same digest are the same list, or the digest
    exhibits a SHA-256 collision. *)
Theorem digest_collision `{Sha256} ps qs :
  Forall part_fits ps → Forall part_fits qs → digest ps = digest qs →
  ps = qs ∨ ∃ x y, x ≠ y ∧ sha256 x = sha256 y.
Proof.
  intros Hps Hqs Hd%hex_inj.
  destruct (decide (digest_input ps = digest_input qs)) as [He|Hne].
  - left. by apply digest_input_inj.
  - right. eauto.
Qed.

(** ** Source documents: the lines against a reference splitting *)

(** The pieces between LFs. Every piece but the last was closed by an LF, after a
    CR when it ends in one; the last one is a line only when it has bytes. *)
Definition close_piece (p : bytes) : bytes * LineEnding :=
  match strip_suffix [CR] p with
  | Some t => (t, LineEnding.CrLf)
  | None => (p, LineEnding.Lf)
  end.
Definition last_piece (p : bytes) : list (bytes * LineEnding) :=
  match p with [] => [] | _ => [(p, LineEnding.None)] end.
Fixpoint close_pieces (ps : list bytes) : list (bytes * LineEnding) :=
  match ps with
  | [] => []
  | p :: ps' => match ps' with [] => last_piece p | _ => close_piece p :: close_pieces ps' end
  end.
Definition reference_lines (s : bytes) : list (bytes * LineEnding) :=
  close_pieces (split_on LF s).

Definition read_line (raw : bytes) (l : SourceLine) : bytes * LineEnding :=
  (slice raw (content l), ending l).
Definition read_lines (d : SourceDocument) : list (bytes * LineEnding) :=
  read_line (raw d) <$> lines d.

Lemma slice_app pre cur rest :
  slice (pre ++ cur ++ rest) (length pre, length pre + length cur) = cur.
Proof.
  unfold slice. simpl. rewrite drop_app_length.
  replace (length pre + length cur - length pre) with (length cur) by lia.
  by rewrite take_app_length.
Qed.

Lemma strip_suffix_snoc c p : strip_suffix [c] (p ++ [c]) = Some p.
Proof. by apply strip_suffix_Some. Qed.
Lemma strip_suffix_snoc_ne c d p : c ≠ d → strip_suffix [c] (p ++ [d]) = None.
Proof.
  intros H. destruct (strip_suffix [c] (p ++ [d])) as [r|] eqn:E; [|done].
  apply strip_suffix_Some, app_inj_tail in E as [_ ?]. congruence.
Qed.

(** The line an LF closes, as the loop records it. *)
Lemma close_line pre cur rest :
  let raw := pre ++ cur ++ LF :: rest in
  let i := length pre + length cur in
  let cr := (length pre <? i)%nat && bool_decide (raw !! (i - 1)%nat = Some CR) in
  read_line raw (mkSourceLine (length pre, if cr then (i - 1)%nat else i)
                              (if cr then LineEnding.CrLf else LineEnding.Lf))
  = close_piece cur.
Proof.
  destruct cur as [|x cur _] using rev_ind; cbn zeta.
  - rewrite (proj2 (Nat.ltb_ge _ _)) by (simpl; lia). cbn [andb].
    unfold read_line, close_piece. cbn [content ending].
    by rewrite (slice_app pre [] (LF :: rest)).
  - rewrite length_app. simpl.
    rewrite (proj2 (Nat.ltb_lt _ _)) by lia.
    assert ((pre ++ (cur ++ [x]) ++ LF :: rest) !! (length pre + (length cur + 1) - 1)
            = Some x) as ->.
    { rewrite lookup_app_r by lia. rewrite <- app_assoc, lookup_app_r by lia.
      by replace (_ - _) with 0 by lia. }
    case_bool_decide as Hx; simpl.
    + injection Hx as ->. unfold close_piece. rewrite strip_suffix_snoc.
      unfold read_line. cbn [content ending]. f_equal.
      rewrite <- app_assoc. cbn [app].
      replace (length pre + (length cur + 1) - 1) with (length pre + length cur) by lia.
      apply slice_app.
    + unfold close_piece. rewrite strip_suffix_snoc_ne by congruence.
      unfold read_line. cbn [content ending]. f_equal.
      rewrite <- (slice_app pre (cur ++ [x]) (LF :: rest)) at 2.
      by rewrite length_app.
Qed.

(** Where the loop leaves the last line, and what the final push adds. *)
Definition final_push (raw : bytes) (start : nat) : list SourceLine :=
  if (start <? length raw)%nat
  then [mkSourceLine (start, length raw) LineEnding.None] else [].

Lemma final_push_read pre cur :
  read_line (pre ++ cur) <$> final_push (pre ++ cur) (length pre) = last_piece cur.
Proof.
  unfold final_push. rewrite length_app. destruct cur as [|x cur].
  - rewrite (proj2 (Nat.ltb_ge _ _)) by (simpl; lia). done.
  - rewrite (proj2 (Nat.ltb_lt _ _)) by (simpl; lia). cbn [fmap list_fmap].
    unfold read_line. cbn [content ending].
    pose proof (slice_app pre (x :: cur) []) as H. rewrite app_nil_r in H.
    by rewrite H.
Qed.

Definition scan_post (raw cur rest : bytes) (n : N)
    (r : result SourceError (list SourceLine * nat)) : Prop :=
  let ref := close_pieces (split_on LF (cur ++ rest)) in
  match r with
  | Ok (ls, st) =>
      read_line raw <$> (ls ++ final_push raw st) = ref ∧ (ls = [] ∨ n + lenN ls <= max_source_lines)%N
  | Err e => e = TooManyLines ∧ (max_source_lines < n + lenN ref)%N
  end.

Lemma scan_lines_post raw rest pre cur n :
  raw = pre ++ cur ++ rest → LF ∉ cur →
  scan_post raw cur rest n
    (scan_lines raw rest (length pre + length cur) (length pre) n).
Proof.
  revert pre cur n. induction rest as [|b rest IH]; intros pre cur n -> Hcur.
  { unfold scan_post. cbn [scan_lines]. rewrite !app_nil_r. cbn [app].
    rewrite final_push_read, split_on_single by done. by split; [|left]. }
  cbn [scan_lines]. case_bool_decide as Hb.
  - subst b. pose proof (close_line pre cur rest) as Hl. cbn zeta in Hl.
    unfold scan_post. rewrite split_on_sep by done.
    destruct (split_on LF rest) as [|p ps] eqn:Ers; [by apply split_on_not_nil in Ers|].
    change (close_pieces (cur :: p :: ps)) with (close_piece cur :: close_pieces (p :: ps)).
    destruct (max_source_lines <? n + 1)%N eqn:Emax; to_prop; cbv beta iota zeta.
    { split; [done|]. unfold lenN. cbn [length]. lia. }
    assert (pre ++ cur ++ LF :: rest = (pre ++ cur ++ [LF]) ++ [] ++ rest) as Hraw.
    { by rewrite <- !app_assoc. }
    specialize (IH (pre ++ cur ++ [LF]) [] (n + 1)%N Hraw (not_elem_of_nil _)).
    rewrite !length_app in IH. cbn [length] in IH.
    replace (length pre + (length cur + 1) + 0) with (S (length pre + length cur)) in IH by lia.
    replace (length pre + (length cur + 1)) with (S (length pre + length cur)) in IH by lia.
    unfold scan_post in IH. cbn [app] in IH. rewrite Ers in IH.
    destruct (scan_lines _ _ _ _ _) as [[ls st]|e]; cbn [mbind result_bind] in *; cbv beta iota zeta in *.
    + destruct IH as [IHl IHn]. split.
      * cbn [app]. rewrite fmap_cons. by rewrite IHl, Hl.
      * right. unfold lenN in *. cbn [length]. destruct IHn as [->|?]; simpl; lia.
    + destruct IH as [-> IHn]. split; [done|]. unfold lenN in *. cbn [length]. lia.
  - assert (pre ++ cur ++ b :: rest = pre ++ (cur ++ [b]) ++ rest) as Hraw.
    { by rewrite <- app_assoc. }
    specialize (IH pre (cur ++ [b]) n Hraw).
    rewrite length_app in IH. simpl in IH.
    replace (length pre + (length cur + 1)) with (S (length pre + length cur)) in IH by lia.
    unfold scan_post in *. rewrite <- app_assoc in IH. apply IH.
    rewrite elem_of_app, list_elem_of_singleton. naive_solver.
Qed.

(** [SourceDocument::from_utf8] keeps every byte and cuts the lines exactly where
    the reference splitting does, with the reference's line endings; it fails for
    the size limit, for bytes that are not UTF-8 and for more than a million
    lines, in this order and in no other case. *)
Theorem from_utf8_refines input :
  match from_utf8 input with
  | Ok d =>
      raw d = input ∧ read_lines d = reference_lines input ∧
      (lenN input <= max_source_bytes)%N ∧ utf8_valid input = true ∧
      (lenN (reference_lines input) <= max_source_lines)%N
  | Err TooLarge => (max_source_bytes < lenN input)%N
  | Err InvalidUtf8 => (lenN input <= max_source_bytes)%N ∧ utf8_valid input = false
  | Err TooManyLines =>
      (lenN input <= max_source_bytes)%N ∧ utf8_valid input = true ∧
      (max_source_lines < lenN (reference_lines input))%N
  | Err InvalidCoordinate => False
  end.
Proof.
  unfold from_utf8. case_if; [done|]. case_if; [done|].
  pose proof (scan_lines_post input input [] [] 0 eq_refl (not_elem_of_nil _)) as H.
  cbn [length Nat.add app] in H. unfold scan_post in H.
  destruct (scan_lines _ _ _ _ _) as [[ls st]|e]; cbn [mbind result_bind].
  2:{ by destruct H as [-> Hn]. }
  destruct H as [Hl _]. cbn [app] in Hl.
  assert ((if (st <? length input)%nat
           then ls ++ [mkSourceLine (st, length input) LineEnding.None] else ls)
          = ls ++ final_push input st) as ->.
  { unfold final_push. case_if; [done|]. by rewrite app_nil_r. }
  assert (lenN (ls ++ final_push input st) = lenN (reference_lines input)) as Hlen.
  { unfold lenN, reference_lines. by rewrite <- Hl, length_fmap. }
  case_if; rewrite Hlen in *; [done|]. split_and!; done.
Qed.

(** Writing the lines of a source document back, each followed by its ending,
    gives the bytes it was made from. *)
Theorem from_utf8_roundtrip input d :
  from_utf8 input = Ok d →
  concat ((λ '(t, e), t ++ LineEnding.ending_bytes e) <$> read_lines d) = input.
Proof.
  intros H. pose proof (from_utf8_refines input) as Hr. rewrite H in Hr.
  destruct Hr as (_ & -> & _). clear H d. unfold reference_lines.
  rewrite <- (join_split_on LF input) at 2.
  induction (split_on LF input) as [|p ps IH]; [done|].
  destruct ps as [|p' ps].
  { destruct p; simpl; by rewrite ?app_nil_r. }
  change (close_pieces (p :: p' :: ps)) with (close_piece p :: close_pieces (p' :: ps)).
  rewrite fmap_cons. cbn [concat]. rewrite IH.
  change (join [LF] (p :: p' :: ps)) with (p ++ [LF] ++ join [LF] (p' :: ps)).
  rewrite app_assoc. f_equal. unfold close_piece.
  destruct (strip_suffix [CR] p) eqn:E; [|done].
  apply strip_suffix_Some in E as ->. by rewrite <- app_assoc.
Qed.

(** ** Repository paths: nothing leaves the root *)

(** How a file system walks a relative path from the directory [dir]. *)
Fixpoint walk (dir : list bytes) (components : list bytes) : list bytes :=
  match components with
  | [] => dir
  | c :: cs =>
      if bool_decide (c = []) || bool_decide (c = bs ".") then walk dir cs
      else if bool_decide (c = bs "..") then walk (take (length dir - 1) dir) cs
      else walk (dir ++ [c]) cs
  end.

Definition safe_path (b : bytes) : Prop :=
  b ≠ [] ∧ NUL ∉ b ∧ starts_with [SLASH] b = false ∧
  Forall (λ c, RepoPath.bad_component c = false) (split_on SLASH b).

Lemma existsb_false_Forall {A} (f : A → bool) l :
  existsb f l = false ↔ Forall (λ x, f x = false) l.
Proof.
  induction l as [|x l IH]; simpl; [by split|].
  rewrite orb_false_iff, IH, Forall_cons. done.
Qed.

Lemma RepoPath_new_Ok b p : RepoPath.new b = Ok p ↔ p = RepoPath.mkRepoPath b ∧ safe_path b.
Proof.
  unfold RepoPath.new, safe_path, contains_byte. case_if.
  - split; [done|]. intros (-> & Hne & Hnul & Hs & Hc%existsb_false_Forall).
    rewrite Hs, Hc, !bool_decide_false in * by done.
    match goal with H : _ |- _ => by repeat destruct H end.
  - rewrite <- existsb_false_Forall. split; [intros [= <-]; split_and!; done|].
    by intros [-> _].
Qed.

Lemma walk_safe dir cs :
  Forall (λ c, RepoPath.bad_component c = false) cs → walk dir cs = dir ++ cs.
Proof.
  intros H. revert dir. induction H as [|c cs Hc _ IH]; intros dir; simpl.
  { by rewrite app_nil_r. }
  unfold RepoPath.bad_component in Hc. apply orb_false_iff in Hc as [Hc ->].
  rewrite Hc, IH, <- app_assoc. done.
Qed.

Lemma from_git_token_safe v p :
  RepoPath.from_git_token v = Ok p → safe_path (RepoPath.path_bytes p).
Proof.
  unfold RepoPath.from_git_token. intros H.
  repeat case_if; inv_ok; try done; by apply RepoPath_new_Ok in H as [-> ?].
Qed.

Lemma without_side_safe p q :
  safe_path (RepoPath.path_bytes p) → RepoPath.without_side p = Ok q →
  safe_path (RepoPath.path_bytes q).
Proof.
  unfold RepoPath.without_side. intros Hp H. case_if; inv_ok; [|done].
  by apply RepoPath_new_Ok in H as [-> ?].
Qed.

(** A path read from a patch, with or without its [a/] or [b/] side, stays inside
    the directory it is resolved against: walking its components from any
    directory ends below that directory, at exactly those components. *)
Theorem git_paths_stay_inside v p q dir :
  RepoPath.from_git_token v = Ok p → RepoPath.without_side p = Ok q →
  let cs (r : RepoPath) := split_on SLASH (RepoPath.path_bytes r) in
  walk dir (cs p) = dir ++ cs p ∧ walk dir (cs q) = dir ++ cs q.
Proof.
  intros Hp%from_git_token_safe Hq. pose proof (without_side_safe _ _ Hp Hq) as Hq'.
  destruct Hp as (_ & _ & _ & Hp). destruct Hq' as (_ & _ & _ & Hq').
  split; by apply walk_safe.
Qed.

(** ** Git's quoting *)

(** [quote_c_style] of Git: what a quoted path in a patch looks like. *)
Definition quote_byte (b : byte) : bytes :=
  let n := bN b in
  let letter (c : N) := [BACKSLASH; u8_of c] in
  (if n =? 7 then letter 97 else if n =? 8 then letter 98 else if n =? 9 then letter 116
   else if n =? 10 then letter 110 else if n =? 11 then letter 118
   else if n =? 12 then letter 102 else if n =? 13 then letter 114
   else if n =? 34 then letter 34 else if n =? 92 then letter 92
   else if between 32 126 n then [b]
   else [BACKSLASH; digit (n / 64); digit (n / 8 mod 8); digit (n mod 8)])%N.
Definition git_quote (s : bytes) : bytes := [QUOTE] ++ concat (quote_byte <$> s) ++ [QUOTE].

Lemma unquote_quote_byte b s fuel :
  RepoPath.unquote (S fuel) (quote_byte b ++ s) = cons b <$> RepoPath.unquote fuel s.
Proof. destruct b; reflexivity. Qed.

Lemma unquote_quote s fuel :
  length s ≤ fuel → RepoPath.unquote fuel (concat (quote_byte <$> s)) = Ok s.
Proof.
  revert fuel. induction s as [|b s IH]; intros fuel H.
  { by destruct fuel. }
  simpl in H. destruct fuel as [|fuel]; [lia|].
  rewrite fmap_cons. cbn [concat]. rewrite unquote_quote_byte, IH by lia. done.
Qed.

Lemma length_quote s : length s ≤ length (concat (quote_byte <$> s)).
Proof.
  induction s as [|b s IH]; [done|]. rewrite fmap_cons. cbn [concat].
  rewrite length_app. simpl. assert (1 ≤ length (quote_byte b)); [|lia].
  unfold quote_byte. repeat case_match; simpl; lia.
Qed.

(** The fuel of [unquote] is enough: more of it changes nothing. *)
Lemma octal_escape_length n s : length (RepoPath.octal_escape n s).2 ≤ length s.
Proof. unfold RepoPath.octal_escape. repeat case_match; simpl; lia. Qed.

Lemma unquote_fuel_enough f g s :
  length s ≤ f → length s ≤ g → RepoPath.unquote f s = RepoPath.unquote g s.
Proof.
  revert g s. induction f as [|f IH]; intros g s Hf Hg.
  { destruct s; [by destruct g|simpl in Hf; lia]. }
  destruct s as [|b s1]; [by destruct g|]. simpl in Hf, Hg.
  destruct g as [|g]; [lia|]. cbn [RepoPath.unquote].
  case_if; [done|]. case_if; [by rewrite (IH g) by lia|].
  destruct s1 as [|c s2]; [done|]. simpl in Hf, Hg.
  destruct (RepoPath.octal c) as [n|].
  - pose proof (octal_escape_length n s2). destruct (RepoPath.octal_escape n s2) as [m s3].
    simpl in *. case_if; [done|]. by rewrite (IH g) by lia.
  - destruct (RepoPath.letter_escape c); [|done]. by rewrite (IH g) by lia.
Qed.

(** Reading a path back from Git's quoted form gives the path, for every byte
    string: what fails is only a string that is no valid relative path. *)
Theorem from_git_token_quote s : RepoPath.from_git_token (git_quote s) = RepoPath.new s.
Proof.
  unfold RepoPath.from_git_token, git_quote.
  assert (starts_with [QUOTE] ([QUOTE] ++ concat (quote_byte <$> s) ++ [QUOTE]) = true) as ->.
  { apply starts_with_true. eauto. }
  assert (ends_with [QUOTE] ([QUOTE] ++ concat (quote_byte <$> s) ++ [QUOTE]) = true) as ->.
  { apply ends_with_true. rewrite app_assoc. eauto. }
  rewrite !length_app. simpl. rewrite (proj2 (Nat.ltb_ge _ _)) by lia. simpl.
  replace (length (concat (quote_byte <$> s)) + 1 - 1)
    with (length (concat (quote_byte <$> s))) by lia.
  rewrite drop_0, take_app_length, unquote_quote by apply length_quote. done.
Qed.

(** ** Displayed paths *)

Definition printable (b : byte) : Prop := (32 <= bN b <= 126)%N.

Lemma utf8_decode_printable s : Forall printable s → utf8_decode s = Some (bN <$> s).
Proof.
  induction 1 as [|b s Hb _ IH]; [done|]. unfold printable in Hb.
  rewrite utf8_decode_ascii_cons by lia. by rewrite IH.
Qed.

Lemma hex_digit_printable u n : (n < 16)%N → printable (hex_digit u n).
Proof.
  intros H. unfold printable, hex_digit, digit. repeat case_if; rewrite bN_u8_of by lia; lia.
Qed.

Lemma printable_dec s :
  forallb (λ b, between 32 126 (bN b)) s = true → Forall printable s.
Proof.
  intros H. apply Forall_forall. intros b Hb%list_elem_of_In.
  rewrite forallb_forall in H. by apply between_true, H.
Qed.

Lemma escape_control_printable c : (c < 256)%N → Forall printable (RepoPath.escape_control c).
Proof.
  intros H. unfold RepoPath.escape_control. repeat case_if.
  all: try (by apply printable_dec).
  all: repeat apply Forall_app_2; try (by apply printable_dec).
  all: repeat constructor; apply hex_digit_printable; divlia.
Qed.

Lemma display_char_decodes c s cs :
  is_scalar c = true → utf8_decode s = Some cs → Forall (λ d, is_control d = false) cs →
  ∃ ds, utf8_decode (RepoPath.display_char c ++ s) = Some ds ∧
        Forall (λ d, is_control d = false) ds.
Proof.
  intros Hc Hs Hcs. unfold RepoPath.display_char. destruct (is_control c) eqn:E.
  - assert (Forall printable (RepoPath.escape_control c)) as Hp.
    { apply escape_control_printable. unfold is_control in E.
      rewrite orb_true_iff, N.ltb_lt, between_true in E. lia. }
    exists ((bN <$> RepoPath.escape_control c) ++ cs). split.
    + pose proof (utf8_decode_printable _ Hp) as Hd.
      rewrite <- (encode_utf8_decode _ _ Hd) at 1.
      rewrite utf8_decode_app_encode by (by eapply utf8_decode_scalars). by rewrite Hs.
    + apply Forall_app_2; [|done]. apply Forall_fmap. eapply Forall_impl; [exact Hp|].
      intros b Hb. unfold printable in Hb. simpl. unfold is_control.
      rewrite between_false by lia. by rewrite (proj2 (N.ltb_ge _ _)) by lia.
  - exists (c :: cs). split; [|by constructor].
    rewrite utf8_decode_cons by done. by rewrite Hs.
Qed.

(** A displayed path is valid UTF-8 and holds no control character, whatever
    bytes the repository's path has. *)
Theorem display_has_no_control p :
  ∃ cs, utf8_decode (RepoPath.display p) = Some cs ∧ Forall (λ c, is_control c = false) cs.
Proof.
  unfold RepoPath.display. destruct (utf8_decode (RepoPath.path_bytes p)) as [cs|] eqn:E.
  - apply utf8_decode_scalars in E. clear p.
    induction E as [|c cs Hc _ (ds & Hd & Hf)]; [by exists []|].
    rewrite fmap_cons. cbn [concat]. by eapply display_char_decodes.
  - assert (Forall printable (concat (RepoPath.display_byte <$> RepoPath.path_bytes p))) as Hp.
    { apply Forall_concat, Forall_fmap, Forall_true. intros b.
      apply printable_dec. destruct b; reflexivity. }
    exists (bN <$> concat (RepoPath.display_byte <$> RepoPath.path_bytes p)).
    split; [by apply utf8_decode_printable|]. apply Forall_fmap.
    eapply Forall_impl; [exact Hp|]. intros b Hb. unfold printable in Hb. simpl.
    unfold is_control. rewrite between_false by lia. by rewrite (proj2 (N.ltb_ge _ _)) by lia.
Qed.

(** ** Witnesses *)

Example digest_collision_witness :
  let sha : Sha256 := λ _, [] in
  digest [bs "a"] = digest [bs "b"] ∧
  ([bs "a"] = [bs "b"] ∨ ∃ x y, x ≠ y ∧ sha256 x = sha256 y).
Proof.
  split; [reflexivity|].
  apply digest_collision; [repeat constructor; vm_compute; discriminate..|reflexivity].
Defined.

Definition sample_source : bytes := bs "fn" ++ [CR; LF; LF] ++ bs "end".

Example from_utf8_roundtrip_witness :
  ∃ d, from_utf8 sample_source = Ok d ∧
  concat ((λ '(t, e), t ++ LineEnding.ending_bytes e) <$> read_lines d) = sample_source.
Proof.
  eexists. split; [vm_compute; reflexivity|].
  apply (from_utf8_roundtrip sample_source). vm_compute. reflexivity.
Defined.

Example git_paths_stay_inside_witness :
  let p := RepoPath.mkRepoPath (bs "a/src/lib.rs") in
  let q := RepoPath.mkRepoPath (bs "src/lib.rs") in
  let cs (r : RepoPath) := split_on SLASH (RepoPath.path_bytes r) in
  walk [bs "root"] (cs p) = [bs "root"] ++ cs p ∧ walk [bs "root"] (cs q) = [bs "root"] ++ cs q.
Proof.
  apply (git_paths_stay_inside (bs "a/src/lib.rs")); vm_compute; reflexivity.
Defined.
