(* ===== verification/Patch.v ===== *)
(** * Counted unified patches ([crates/core/src/patch.rs]): data and parser

    The parser's three nested loops are [hunk_loop], [file_loop] and [files_loop].
    Where the code moves an index [i] through the vector of lines, the model
    carries the lines from [i] on together with [i], which the error messages
    report. [PatchFacts.v] proves the parser's properties. *)

From S2P Require Import Prelude RustStr Utf8 Domain.

(** ** Data *)

Notation FileId := bytes (only parsing).

Record ParseLimits := mkParseLimits {
  max_bytes : N; max_files : N; max_rows : N; max_line_bytes : N
}.
Definition default_limits : ParseLimits :=
  mkParseLimits (32 * 1024 * 1024) 10000 500000 (1024 * 1024).

Inductive PatchError :=
| Malformed (line : nat) (message : bytes)
| Unsupported (what : bytes)
| Limit (what : bytes).

Module ChangeKind.
Inductive ChangeKind := Added | Deleted | Modified | Renamed | Copied.
#[export] Instance ChangeKind_eq_dec : EqDecision ChangeKind.
Proof. solve_decision. Defined.
End ChangeKind.
Notation ChangeKind := ChangeKind.ChangeKind.
#[export] Existing Instance ChangeKind.ChangeKind_eq_dec.

Module ContentKind.
Inductive ContentKind := Text | Binary | Submodule.
#[export] Instance ContentKind_eq_dec : EqDecision ContentKind.
Proof. solve_decision. Defined.
End ContentKind.
Notation ContentKind := ContentKind.ContentKind.
#[export] Existing Instance ContentKind.ContentKind_eq_dec.

Module RowKind.
Inductive RowKind := Context | Added | Removed.
#[export] Instance RowKind_eq_dec : EqDecision RowKind.
Proof. solve_decision. Defined.
End RowKind.
Notation RowKind := RowKind.RowKind.
#[export] Existing Instance RowKind.RowKind_eq_dec.

Record PatchRow := mkPatchRow {
  old_line : option N;
  new_line : option N;
  row_text : bytes;
  row_ending : LineEnding;
  row_kind : RowKind
}.
Definition row_number (r : PatchRow) (s : Side) : option N :=
  match s with Left => old_line r | Right => new_line r end.

Record Hunk := mkHunk {
  old_start : N; old_count : N; new_start : N; new_count : N;
  section : bytes;
  rows : list PatchRow
}.

Record FileChange := mkFileChange {
  file_id : FileId;
  old_path : option RepoPath;
  new_path : option RepoPath;
  change_kind : ChangeKind;
  content_kind : ContentKind;
  old_mode : option bytes;
  new_mode : option bytes;
  old_oid : option bytes;
  new_oid : option bytes;
  hunks : list Hunk;
  metadata : list bytes
}.

Record PatchReport := mkPatchReport { files : list FileChange }.

(** Field assignments of the parser. *)
Definition set_id (x : FileId) (f : FileChange) : FileChange :=
  mkFileChange x (old_path f) (new_path f) (change_kind f) (content_kind f) (old_mode f)
    (new_mode f) (old_oid f) (new_oid f) (hunks f) (metadata f).
Definition set_old_path (x : option RepoPath) (f : FileChange) : FileChange :=
  mkFileChange (file_id f) x (new_path f) (change_kind f) (content_kind f) (old_mode f)
    (new_mode f) (old_oid f) (new_oid f) (hunks f) (metadata f).
Definition set_new_path (x : option RepoPath) (f : FileChange) : FileChange :=
  mkFileChange (file_id f) (old_path f) x (change_kind f) (content_kind f) (old_mode f)
    (new_mode f) (old_oid f) (new_oid f) (hunks f) (metadata f).
Definition set_kind (x : ChangeKind) (f : FileChange) : FileChange :=
  mkFileChange (file_id f) (old_path f) (new_path f) x (content_kind f) (old_mode f)
    (new_mode f) (old_oid f) (new_oid f) (hunks f) (metadata f).
Definition set_content (x : ContentKind) (f : FileChange) : FileChange :=
  mkFileChange (file_id f) (old_path f) (new_path f) (change_kind f) x (old_mode f)
    (new_mode f) (old_oid f) (new_oid f) (hunks f) (metadata f).
Definition set_old_mode (x : option bytes) (f : FileChange) : FileChange :=
  mkFileChange (file_id f) (old_path f) (new_path f) (change_kind f) (content_kind f) x
    (new_mode f) (old_oid f) (new_oid f) (hunks f) (metadata f).
Definition set_new_mode (x : option bytes) (f : FileChange) : FileChange :=
  mkFileChange (file_id f) (old_path f) (new_path f) (change_kind f) (content_kind f)
    (old_mode f) x (old_oid f) (new_oid f) (hunks f) (metadata f).
Definition set_oids (a b : option bytes) (f : FileChange) : FileChange :=
  mkFileChange (file_id f) (old_path f) (new_path f) (change_kind f) (content_kind f)
    (old_mode f) (new_mode f) a b (hunks f) (metadata f).
Definition push_hunk (h : Hunk) (f : FileChange) : FileChange :=
  mkFileChange (file_id f) (old_path f) (new_path f) (change_kind f) (content_kind f)
    (old_mode f) (new_mode f) (old_oid f) (new_oid f) (hunks f ++ [h]) (metadata f).
Definition push_metadata (m : bytes) (f : FileChange) : FileChange :=
  mkFileChange (file_id f) (old_path f) (new_path f) (change_kind f) (content_kind f)
    (old_mode f) (new_mode f) (old_oid f) (new_oid f) (hunks f) (metadata f ++ [m]).

(** ** Parsing helpers *)

Definition bad (line : nat) (msg : bytes) : PatchError := Malformed (S line) msg.

Definition mark_no_final_newline (row : PatchRow) (line : nat) : result PatchError PatchRow :=
  let close t := mkPatchRow (old_line row) (new_line row) t LineEnding.None (row_kind row) in
  match row_ending row with
  | LineEnding.None => Err (bad line (bs "duplicate EOF marker"))
  | LineEnding.CrLf => Ok (close (row_text row ++ [CR]))
  | LineEnding.Lf => Ok (close (row_text row))
  end.

Definition utf8 (v : bytes) (line : nat) : result PatchError bytes :=
  if utf8_valid v then Ok v
  else Err (bad line (bs "source bytes are invalid UTF-8; this patch cannot render safely")).

Definition parse_path (v : bytes) (line : nat) (strip : bool) : result PatchError RepoPath :=
  p ← map_err (bad line) (RepoPath.from_git_token v);
  if strip then map_err (bad line) (RepoPath.without_side p) else Ok p.

(** The index of the quote that closes the one at index 0; [i] is the index of the
    first byte of [s]. *)
Fixpoint closing_quote (s : bytes) (i : nat) (esc : bool) : option nat :=
  match s with
  | [] => None
  | b :: s' =>
      if esc then closing_quote s' (S i) false
      else if bool_decide (b = BACKSLASH) then closing_quote s' (S i) true
      else if bool_decide (b = QUOTE) then Some i
      else closing_quote s' (S i) false
  end.

(** The positions [windows(3)] finds [pat] at; [i] is the index of the first byte. *)
Fixpoint positions (pat s : bytes) (i : nat) : list nat :=
  match s with
  | [] => []
  | _ :: s' => (if starts_with pat s then [i] else []) ++ positions pat s' (S i)
  end.

Definition header_paths (v : bytes) (line : nat)
    : result PatchError (option RepoPath * option RepoPath) :=
  if starts_with [QUOTE] v then
    match closing_quote (drop 1 v) 1 false with
    | Some e =>
        if bool_decide (v !! S e = Some SPACE) then
          a ← parse_path (take (S e) v) line true;
          b ← parse_path (drop (e + 2) v) line true;
          Ok (Some a, Some b)
        else Err (bad line (bs "invalid quoted diff header"))
    | None => Err (bad line (bs "invalid quoted diff header"))
    end
  else match positions (bs " b/") v 0 with
  | [i] =>
      a ← parse_path (take i v) line true;
      b ← parse_path (drop (S i) v) line true;
      Ok (Some a, Some b)
  | _ => Ok (None, None)
  end.

Definition pair (s : bytes) (line : nat) : result PatchError (N * N) :=
  let '(a, b) := default (s, bs "1") (split_once (bs ",") s) in
  start ← ok_or (parse_u32 a) (bad line (bs "invalid hunk start"));
  count ← ok_or (parse_u32 b) (bad line (bs "invalid hunk count"));
  if (0 <? count)%N
     && ((start =? 0)%N || match u32_checked_add start count with None => true | _ => false end)
  then Err (bad line (bs "invalid or overflowing hunk range"))
  else Ok (start, count).

Definition hunk_header (v : bytes) (line : nat) : result PatchError Hunk :=
  s ← utf8 v line;
  rest ← ok_or (strip_prefix (bs "@@ -") s) (bad line (bs "invalid hunk header"));
  '(old, rest) ← ok_or (split_once (bs " +") rest) (bad line (bs "missing new range"));
  '(new, sec) ← ok_or (split_once (bs " @@") rest) (bad line (bs "unclosed hunk header"));
  '(os, oc) ← pair old line;
  '(ns, nc) ← pair new line;
  Ok (mkHunk os oc ns nc (trim_start sec) []).

Definition NO_NEWLINE : bytes := bs "\ No newline at end of file".
Definition DIFF_GIT : bytes := bs "diff --git ".
Definition TRAILER : bytes := bs "-- ".

(** ** Hunk rows *)

Definition row_kind_of (prefix : byte) (line : nat) : result PatchError RowKind :=
  if bool_decide (prefix = SPACE) then Ok RowKind.Context
  else if bool_decide (prefix = u8_of 43) then Ok RowKind.Added
  else if bool_decide (prefix = u8_of 45) then Ok RowKind.Removed
  else Err (bad line (bs "unexpected hunk row; count mismatch")).

(** The number a row takes on one side, and that side's count after it. [start] and
    [count] are the hunk's, [seen] the rows of the side so far; [here] says whether
    the row is on the side. *)
Definition take_number (here : bool) (start count seen : N) (full : bytes) (line : nat)
    : result PatchError (option N * N) :=
  if here then
    if (count <=? seen)%N then Err (bad line full)
    else n ← ok_or (u32_checked_add start seen) (bad line (bs "line overflow"));
         Ok (Some n, seen + 1)%N
  else Ok (None, seen).

Definition row_ending_of (text : bytes) : bytes * LineEnding :=
  match strip_suffix [CR] text with
  | Some t => (t, LineEnding.CrLf)
  | None => (text, LineEnding.Lf)
  end.

(** One counted row: [old], [new] and [total] are the counters before and after. *)
Definition hunk_row (lim : ParseLimits) (h : Hunk) (l : bytes) (line : nat) (old new total : N)
    : result PatchError (PatchRow * N * N * N) :=
  match l with
  | [] => Err (bad line (bs "unprefixed empty hunk row"))
  | prefix :: text =>
      kind ← row_kind_of prefix line;
      '(ol, old') ← take_number (bool_decide (kind ≠ RowKind.Added)) (old_start h)
                      (old_count h) old (bs "too many old-side lines") line;
      '(nl, new') ← take_number (bool_decide (kind ≠ RowKind.Removed)) (new_start h)
                      (new_count h) new (bs "too many new-side lines") line;
      let '(text, ending) := row_ending_of text in
      if (max_rows lim <? total + 1)%N then Err (Limit (bs "source row count"))
      else t ← utf8 text line;
           Ok (mkPatchRow ol nl t ending kind, old', new', total + 1)%N
  end.

(** Marks the last row, the head of the reversed rows. *)
Definition mark_last (rrows : list PatchRow) (line : nat) : result PatchError (list PatchRow) :=
  match rrows with
  | [] => Err (bad line (bs "orphan EOF marker"))
  | last :: rr => last' ← mark_no_final_newline last line; Ok (last' :: rr)
  end.

(** [while old < h.old_count || new < h.new_count]: the rows are kept in reverse.
    Returns them with the lines left, their index and the row total. *)
Fixpoint hunk_loop (lim : ParseLimits) (h : Hunk) (ls : list bytes) (i : nat)
    (old new total : N) (rrows : list PatchRow)
    : result PatchError (list PatchRow * list bytes * nat * N) :=
  if (old <? old_count h)%N || (new <? new_count h)%N then
    match ls with
    | [] => Err (bad i (bs "truncated counted hunk"))
    | l :: ls' =>
        if bool_decide (l = NO_NEWLINE) then
          rrows ← mark_last rrows i;
          hunk_loop lim h ls' (S i) old new total rrows
        else
          '(r, old, new, total) ← hunk_row lim h l i old new total;
          hunk_loop lim h ls' (S i) old new total (r :: rrows)
    end
  else Ok (rrows, ls, i, total).

Definition overlaps (prev h : Hunk) : bool :=
  (old_start h <? u32_saturating_add (old_start prev) (old_count prev))%N
  || (new_start h <? u32_saturating_add (new_start prev) (new_count prev))%N.

Definition set_rows (rs : list PatchRow) (h : Hunk) : Hunk :=
  mkHunk (old_start h) (old_count h) (new_start h) (new_count h) (section h) rs.

(** The branch of [file_loop] for a line [l] that starts a hunk; [ls] are the lines
    after it. *)
Definition parse_hunk (lim : ParseLimits) (f : FileChange) (l : bytes) (ls : list bytes)
    (i : nat) (total : N) : result PatchError (Hunk * list bytes * nat * N) :=
  h ← hunk_header l i;
  let i := S i in
  if match last (hunks f) with Some prev => overlaps prev h | None => false end
  then Err (bad i (bs "overlapping/out-of-order hunks"))
  else
    '(rrows, ls, i, total) ← hunk_loop lim h ls i 0 0 total [];
    match ls with
    | l' :: ls' =>
        if bool_decide (l' = NO_NEWLINE)
        then rrows ← mark_last rrows i;
             Ok (set_rows (reverse rrows) h, ls', S i, total)
        else Ok (set_rows (reverse rrows) h, ls, i, total)
    | [] => Ok (set_rows (reverse rrows) h, ls, i, total)
    end.

(** ** File headers *)

Definition DEV_NULL : bytes := bs "/dev/null".

(** The path after [---] or [+++], up to a tab. *)
Definition marker_path (v : bytes) (line : nat) : result PatchError (option RepoPath) :=
  let v := default v (head (split_on TAB v)) in
  if bool_decide (v = DEV_NULL) then Ok None else Some <$> parse_path v line true.

Definition index_line (s : bytes) (f : FileChange) : FileChange :=
  let ws := split_whitespace s in
  let f := match w ← head ws; split_once (bs "..") w with
           | Some (a, b) => set_oids (Some a) (Some b) f
           | None => f
           end in
  match head (tail ws) with
  | Some mode => set_new_mode (Some mode) (set_old_mode (Some mode) f)
  | None => f
  end.

Definition header_line (f : FileChange) (l : bytes) (i : nat) : result PatchError FileChange :=
  match strip_prefix (bs "--- ") l with Some v =>
    p ← marker_path v i; Ok (set_old_path p f) | None =>
  match strip_prefix (bs "+++ ") l with Some v =>
    p ← marker_path v i; Ok (set_new_path p f) | None =>
  match strip_prefix (bs "rename from ") l with Some v =>
    p ← parse_path v i false; Ok (set_kind ChangeKind.Renamed (set_old_path (Some p) f)) | None =>
  match strip_prefix (bs "rename to ") l with Some v =>
    p ← parse_path v i false; Ok (set_kind ChangeKind.Renamed (set_new_path (Some p) f)) | None =>
  match strip_prefix (bs "copy from ") l with Some v =>
    p ← parse_path v i false; Ok (set_kind ChangeKind.Copied (set_old_path (Some p) f)) | None =>
  match strip_prefix (bs "copy to ") l with Some v =>
    p ← parse_path v i false; Ok (set_kind ChangeKind.Copied (set_new_path (Some p) f)) | None =>
  match strip_prefix (bs "new file mode ") l with Some v =>
    m ← utf8 v i;
    Ok (set_old_path None (set_kind ChangeKind.Added (set_new_mode (Some m) f))) | None =>
  match strip_prefix (bs "deleted file mode ") l with Some v =>
    m ← utf8 v i;
    Ok (set_new_path None (set_kind ChangeKind.Deleted (set_old_mode (Some m) f))) | None =>
  match strip_prefix (bs "old mode ") l with Some v =>
    m ← utf8 v i; Ok (set_old_mode (Some m) f) | None =>
  match strip_prefix (bs "new mode ") l with Some v =>
    m ← utf8 v i; Ok (set_new_mode (Some m) f) | None =>
  if starts_with (bs "Binary files ") l || bool_decide (l = bs "GIT binary patch")
  then Ok (set_content ContentKind.Binary f)
  else
  match strip_prefix (bs "index ") l with Some v =>
    s ← utf8 v i; Ok (index_line s f) | None =>
  if negb (bool_decide (l = [])) then m ← utf8 l i; Ok (push_metadata m f)
  else Ok f
  end end end end end end end end end end end.

(** ** Files *)

(** The loop over the lines of one file, from after its [diff --git] line to the
    next one. [None] when the fuel runs out. *)
Fixpoint file_loop (fuel : nat) (lim : ParseLimits) (f : FileChange) (ls : list bytes)
    (i : nat) (total : N) : option (result PatchError (FileChange * list bytes * nat * N)) :=
  match fuel with
  | O => None
  | S fuel =>
      match ls with
      | [] => Some (Ok (f, [], i, total))
      | l :: ls' =>
          if starts_with DIFF_GIT l then Some (Ok (f, ls, i, total))
          else if starts_with (bs "@@ ") l then
            match parse_hunk lim f l ls' i total with
            | Ok (h, ls2, i2, total2) => file_loop fuel lim (push_hunk h f) ls2 i2 total2
            | Err e => Some (Err e)
            end
          else if negb (bool_decide (hunks f = [] :> list Hunk)) then
            if bool_decide (l = []) then file_loop fuel lim f ls' (S i) total
            else if bool_decide (l = TRAILER) then Some (Ok (f, [], i + length ls, total))
            else Some (Err (bad i (bs "unexpected text after counted hunk")))
          else
            match header_line f l i with
            | Ok f' => file_loop fuel lim f' ls' (S i) total
            | Err e => Some (Err e)
            end
      end
  end.

Definition SUBMODULE_MODE : bytes := bs "160000".
Definition is_submodule (m : option bytes) : bool := bool_decide (m = Some SUBMODULE_MODE).
Definition path_or_empty (p : option RepoPath) : bytes :=
  match p with Some p => RepoPath.path_bytes p | None => [] end.

(** What the parser does with a file after its last line. *)
Definition finish_file `{Sha256} (f : FileChange) (i : nat) : result PatchError FileChange :=
  match old_path f, new_path f with
  | None, None => Err (bad i (bs "file has no unambiguous path"))
  | _, _ =>
      let f := if is_submodule (old_mode f) || is_submodule (new_mode f)
               then set_content ContentKind.Submodule f else f in
      let f := if bool_decide (change_kind f = ChangeKind.Added) then set_old_path None f else f in
      let f := if bool_decide (change_kind f = ChangeKind.Deleted) then set_new_path None f else f in
      Ok (set_id (digest [bs "file-v1"; path_or_empty (old_path f); path_or_empty (new_path f)]) f)
  end.

Definition new_file (old new : option RepoPath) : FileChange :=
  mkFileChange [] old new ChangeKind.Modified ContentKind.Text None None None None [] [].

(** The outer loop over the files of the patch; [seen] are the identities so far. *)
Fixpoint files_loop `{Sha256} (fuel : nat) (lim : ParseLimits) (ls : list bytes) (i : nat)
    (fs : list FileChange) (total : N) (seen : gset bytes)
    : option (result PatchError (list FileChange)) :=
  match fuel with
  | O => None
  | S fuel =>
      match ls with
      | [] => Some (Ok fs)
      | l :: ls' =>
          if negb (starts_with DIFF_GIT l) then
            if bool_decide (fs = [] :> list FileChange) || bool_decide (l = [])
               || bool_decide (l = TRAILER)
            then files_loop fuel lim ls' (S i) fs total seen
            else Some (Err (bad i (bs "unexpected patch trailer")))
          else if (max_files lim <=? lenN fs)%N then Some (Err (Limit (bs "file count")))
          else
            match header_paths (drop 11 l) i with
            | Err e => Some (Err e)
            | Ok (op, np) =>
                match file_loop fuel lim (new_file op np) ls' (S i) total with
                | None => None
                | Some (Err e) => Some (Err e)
                | Some (Ok (f, ls2, i2, total2)) =>
                    match finish_file f i2 with
                    | Err e => Some (Err e)
                    | Ok f =>
                        if bool_decide (file_id f ∈ seen)
                        then Some (Err (bad i2 (bs "duplicate file change")))
                        else files_loop fuel lim ls2 i2 (fs ++ [f]) total2 ({[file_id f]} ∪ seen)
                    end
                end
            end
      end
  end.

Definition combined (l : bytes) : bool :=
  starts_with (bs "diff --cc ") l || starts_with (bs "diff --combined ") l
  || starts_with (bs "@@@ ") l.

(** The first pass over the lines: lengths and merge diffs. *)
Fixpoint check_lines (lim : ParseLimits) (ls : list bytes) (i : nat) : option PatchError :=
  match ls with
  | [] => None
  | l :: ls' =>
      if (max_line_bytes lim <? lenN l)%N
      then Some (Limit (bs "line " ++ dec (N.of_nat (S i)) ++ bs " length"))
      else if combined l then Some (Unsupported (bs "combined merge diff"))
      else check_lines lim ls' (S i)
  end.

(** [bytes.split(|b| *b == b'\n')], less an empty last line. *)
Definition patch_lines (input : bytes) : list bytes :=
  let ls := split_on LF input in
  if bool_decide (last ls = Some []) then take (length ls - 1) ls else ls.

Definition parse_patch `{Sha256} (input : bytes) (lim : ParseLimits)
    : option (result PatchError PatchReport) :=
  if (max_bytes lim <? lenN input)%N then Some (Err (Limit (bs "bytes")))
  else
    let ls := patch_lines input in
    match check_lines lim ls 0 with
    | Some e => Some (Err e)
    | None =>
        match files_loop (S (length ls)) lim ls 0 [] 0 ∅ with
        | None => None
        | Some (Err e) => Some (Err e)
        | Some (Ok fs) =>
            if bool_decide (fs = [] :> list FileChange) && negb (forallb is_ascii_whitespace input)
            then Some (Err (Unsupported (bs "Git unified file headers are missing")))
            else Some (Ok (mkPatchReport fs))
        end
    end.

(** ** Reading a parsed file *)

(** [None] where the code panics: the parser requires a path. *)
Definition path (f : FileChange) : option RepoPath :=
  match new_path f with Some p => Some p | None => old_path f end.
Definition display_path (f : FileChange) : option bytes := RepoPath.display <$> path f.

Definition all_rows (f : FileChange) : list PatchRow := hunks f ≫= rows.

Fixpoint find_map {A B} (g : A → option B) (l : list A) : option B :=
  match l with
  | [] => None
  | x :: l' => match g x with Some y => Some y | None => find_map g l' end
  end.

Definition header_percent (f : FileChange) (name : bytes) : option N :=
  s ← find_map (strip_prefix name) (metadata f);
  s ← strip_suffix (bs "%") (trim s);
  n ← parse_u8 s;
  if (n <=? 100)%N then Some n else None.
Definition similarity (f : FileChange) : option N := header_percent f (bs "similarity index ").
Definition dissimilarity (f : FileChange) : option N :=
  header_percent f (bs "dissimilarity index ").

Definition moved_from (f : FileChange) : option RepoPath :=
  match change_kind f with
  | ChangeKind.Renamed | ChangeKind.Copied => old_path f
  | _ => None
  end.

Definition empty_note (f : FileChange) : option bytes :=
  if negb (bool_decide (hunks f = [] :> list Hunk)) then None
  else if bool_decide (content_kind f = ContentKind.Binary) then Some (bs "Binary file changed")
  else if bool_decide (content_kind f = ContentKind.Submodule) then Some (bs "Submodule changed")
  else
    let similar := match similarity f with
                   | Some n => bs " (" ++ dec n ++ bs "% similar)" | None => [] end in
    let from := RepoPath.display <$> moved_from f in
    match change_kind f, from with
    | ChangeKind.Renamed, Some p =>
        Some (bs "Renamed from " ++ p ++ bs ", contents unchanged" ++ similar)
    | ChangeKind.Copied, Some p =>
        Some (bs "Copied from " ++ p ++ bs ", contents unchanged" ++ similar)
    | _, _ =>
        match old_mode f, new_mode f with
        | Some a, Some b =>
            if negb (bool_decide (a = b)) then Some (bs "Mode changed " ++ a ++ bs " → " ++ b)
            else None
        | _, _ => None
        end
    end.

Definition line (f : FileChange) (s : Side) (n : N) : option PatchRow :=
  find_map (λ r, if bool_decide (row_number r s = Some n) then Some r else None) (all_rows f).

Definition count_kind (k : RowKind) (rs : list PatchRow) : nat :=
  length (filter (λ r, row_kind r = k) rs).
Definition additions (f : FileChange) : nat := count_kind RowKind.Added (all_rows f).
Definition deletions (f : FileChange) : nat := count_kind RowKind.Removed (all_rows f).

(** The numbers [a], [a+1], … of a range of [n]. *)
Definition range (a : N) (n : nat) : list N := (λ k, a + N.of_nat k)%N <$> seq 0 n.

Definition eligible (f : FileChange) (s : Side) (start end_ : N) : bool :=
  bool_decide (content_kind f = ContentKind.Text) && (0 <? start)%N && (start <=? end_)%N
  && (end_ - start <=? 10000)%N
  && existsb (λ h, forallb (λ n, existsb (λ r, bool_decide (row_number r s = Some n)) (rows h))
                     (range start (N.to_nat (end_ - start + 1)))) (hunks f).

(** ** Move labels *)

Record MoveLabel := mkMoveLabel {
  label_prefix : bytes; label_old : bytes; label_new : bytes; label_suffix : bytes
}.

(** [zip(..).take_while(|(a, b)| a == b).count()]. *)
Fixpoint common (a b : bytes) : nat :=
  match a, b with
  | x :: a', y :: b' => if bool_decide (x = y) then S (common a' b') else 0
  | _, _ => 0
  end.
(** [rposition] and [position] of the slash. *)
Fixpoint slash_position (s : bytes) : option nat :=
  match s with
  | [] => None
  | c :: s' => if bool_decide (c = SLASH) then Some 0 else S <$> slash_position s'
  end.
Definition slash_rposition (s : bytes) : option nat :=
  (λ i, length s - 1 - i) <$> slash_position (reverse s).

Definition MoveLabel_new (old new : bytes) : MoveLabel :=
  let n := common old new in
  let cut := match slash_rposition (take n old) with Some i => i + 1 | None => 0 end in
  let old_rest := drop cut old in
  let new_rest := drop cut new in
  let shared := common (reverse old_rest) (reverse new_rest) in
  let tail := drop (length old_rest - shared) old_rest in
  let keep := match slash_position tail with Some i => shared - i | None => 0 end in
  mkMoveLabel (take cut old)
    (take (length old_rest - keep) old_rest) (take (length new_rest - keep) new_rest)
    (drop (length old_rest - keep) old_rest).

Definition folded (m : MoveLabel) : bool :=
  negb (bool_decide (label_prefix m = [])) || negb (bool_decide (label_suffix m = [])).
Definition plain (m : MoveLabel) : bytes :=
  let arrow := label_old m ++ bs " → " ++ label_new m in
  if folded m then label_prefix m ++ bs "{" ++ arrow ++ bs "}" ++ label_suffix m else arrow.
Definition move_label (f : FileChange) : option MoveLabel :=
  old ← RepoPath.display <$> moved_from f;
  new ← RepoPath.display <$> new_path f;
  if bool_decide (old = new) then None else Some (MoveLabel_new old new).
