(* ===== verification/PatchFacts.v ===== *)
(** * The patch parser: totality, well-formed results, nothing lost

    Facts about [Patch.v]. The parser always answers; an accepted patch has rows
    numbered without gaps inside the ranges of their hunk headers, hunks in order,
    a path and an identity of its own for every file, and no limit exceeded; and
    the rows of a hunk render back to exactly the lines they were read from. *)

From S2P Require Import Prelude RustStr Utf8 Domain Patch.

(** ** Termination *)

Lemma hunk_loop_length lim h ls i old new total rrows rrows' ls' i' total' :
  hunk_loop lim h ls i old new total rrows = Ok (rrows', ls', i', total') →
  length ls' ≤ length ls ∧ i' + length ls' = i + length ls.
Proof.
  revert i old new total rrows. induction ls as [|l ls IH]; intros i old new total rrows H.
  - cbn [hunk_loop] in H. case_if; inv_ok. simpl. lia.
  - cbn [hunk_loop] in H. case_if.
    2:{ inv_ok. simpl. lia. }
    case_if; inv_ok.
    + apply IH in H. simpl. lia.
    + destruct r as [[[r ?] ?] ?]. apply IH in H. simpl. lia.
Qed.

Lemma parse_hunk_length lim f l ls i total h ls' i' total' :
  parse_hunk lim f l ls i total = Ok (h, ls', i', total') →
  length ls' ≤ length ls ∧ i' + length ls' = S i + length ls.
Proof.
  unfold parse_hunk. intros H. inv_ok. case_if; [done|]. inv_ok.
  destruct r0 as [[[rr ls2] i2] t2]. apply hunk_loop_length in Hr0.
  destruct ls2 as [|l' ls2]; inv_ok; [done|].
  case_if; inv_ok; simpl in *; lia.
Qed.

Lemma file_loop_total fuel lim f ls i total :
  length ls < fuel →
  ∃ r, file_loop fuel lim f ls i total = Some r ∧
       ∀ f' ls' i' total', r = Ok (f', ls', i', total') →
         length ls' ≤ length ls ∧ i' + length ls' = i + length ls.
Proof.
  revert f ls i total. induction fuel as [|fuel IH]; intros f ls i total Hf; [lia|].
  destruct ls as [|l ls]; cbn [file_loop].
  { eexists; split; [done|]. intros * [= <- <- <- <-]. done. }
  simpl in Hf.
  assert (∀ f2 ls2 i2 t2, length ls2 ≤ length ls → i2 + length ls2 = S i + length ls →
    ∃ r, file_loop fuel lim f2 ls2 i2 t2 = Some r ∧
      ∀ f' ls' i' total', r = Ok (f', ls', i', total') →
        length ls' ≤ S (length ls) ∧ i' + length ls' = i + S (length ls)) as Hnext.
  { intros f2 ls2 i2 t2 Hl Hi. destruct (IH f2 ls2 i2 t2 ltac:(lia)) as (r & -> & Hr).
    eexists; split; [done|]. intros * ->. destruct (Hr _ _ _ _ eq_refl). lia. }
  case_if; [|case_if; [|case_if; [case_if; [|case_if]|]]].
  - eexists; split; [done|]. intros * [= <- <- <- <-]. done.
  - destruct (parse_hunk lim f l ls i total) as [[[[h ls2] i2] t2]|e] eqn:E.
    + apply parse_hunk_length in E. apply Hnext; lia.
    + by eexists.
  - apply Hnext; lia.
  - eexists; split; [done|]. intros * [= <- <- <- <-]. simpl. lia.
  - by eexists.
  - destruct (header_line f l i); [|by eexists]. apply Hnext; lia.
Qed.

Lemma files_loop_total `{Sha256} fuel lim ls i fs total seen :
  length ls < fuel → ∃ r, files_loop fuel lim ls i fs total seen = Some r.
Proof.
  revert ls i fs total seen. induction fuel as [|fuel IH]; intros ls i fs total seen Hf; [lia|].
  destruct ls as [|l ls]; cbn [files_loop]; [by eexists|]. simpl in Hf.
  case_if; [case_if; [apply IH; lia|by eexists]|].
  case_if; [by eexists|].
  destruct (header_paths _ _) as [[op np]|e]; [|by eexists].
  destruct (file_loop_total fuel lim (new_file op np) ls (S i) total ltac:(lia))
    as (r & -> & Hr).
  destruct r as [[[[f ls2] i2] t2]|e]; [|by eexists].
  destruct (Hr _ _ _ _ eq_refl) as [Hl _].
  destruct (finish_file f i2); [|by eexists].
  case_if; [by eexists|]. apply IH. lia.
Qed.

(** The parser answers on every input: its loops never run out of the fuel they
    are started with, so every patch is either a report or an error. *)
Theorem parse_patch_total `{Sha256} input lim : ∃ r, parse_patch input lim = Some r.
Proof.
  unfold parse_patch. case_if; [by eexists|].
  destruct (check_lines _ _ _); [by eexists|].
  destruct (files_loop_total (S (length (patch_lines input))) lim (patch_lines input) 0 [] 0 ∅)
    as [r ->]; [lia|].
  destruct r; [|by eexists]. case_if; by eexists.
Qed.

(** ** Rows and hunks of an accepted patch *)

Definition row_wf (r : PatchRow) : Prop :=
  utf8_valid (row_text r) = true ∧
  match row_kind r with
  | RowKind.Context => is_Some (old_line r) ∧ is_Some (new_line r)
  | RowKind.Added => old_line r = None ∧ is_Some (new_line r)
  | RowKind.Removed => is_Some (old_line r) ∧ new_line r = None
  end.

Definition side_numbers (s : Side) (rs : list PatchRow) : list N :=
  omap (λ r, row_number r s) rs.
Definition side_start (h : Hunk) (s : Side) : N :=
  match s with Left => old_start h | Right => new_start h end.
Definition side_count (h : Hunk) (s : Side) : N :=
  match s with Left => old_count h | Right => new_count h end.

(** The range of a header: inside 1 .. [u32::MAX] unless it is empty. *)
Definition range_wf (start count : N) : Prop :=
  (start <= u32_max ∧ (count = 0 ∨ 0 < start ∧ start + count <= u32_max))%N.

Record hunk_wf (h : Hunk) : Prop := {
  hw_rows : Forall row_wf (rows h);
  hw_numbers s : side_numbers s (rows h) = range (side_start h s) (N.to_nat (side_count h s));
  hw_range s : range_wf (side_start h s) (side_count h s)
}.

Definition hunk_before (h1 h2 : Hunk) : Prop :=
  ∀ s, (u32_saturating_add (side_start h1 s) (side_count h1 s) <= side_start h2 s)%N.

Record file_wf (f : FileChange) : Prop := {
  fw_hunks : Forall hunk_wf (hunks f);
  fw_order i h1 h2 : hunks f !! i = Some h1 → hunks f !! S i = Some h2 → hunk_before h1 h2;
  fw_path :
    change_kind f ≠ ChangeKind.Added → change_kind f ≠ ChangeKind.Deleted → is_Some (path f)
}.

Lemma range_cons a n : range a (S n) = a :: range (a + 1) n.
Proof.
  unfold range. cbn [seq]. rewrite fmap_cons. f_equal; [lia|].
  rewrite <- fmap_S_seq, <- list_fmap_compose. apply list_fmap_ext. intros. simpl. lia.
Qed.

Lemma range_snoc a n : range a (S n) = range a n ++ [a + N.of_nat n]%N.
Proof. unfold range. by rewrite seq_S, fmap_app. Qed.

Lemma range_elem a n x : x ∈ range a n ↔ (a <= x < a + N.of_nat n)%N.
Proof.
  unfold range. rewrite list_elem_of_fmap. split.
  - intros (k & -> & Hk%elem_of_seq). lia.
  - intros H. exists (N.to_nat (x - a)). split; [lia|]. apply elem_of_seq. lia.
Qed.

(** The state of [hunk_loop] after some rows. *)
Record loop_inv (h : Hunk) (old new : N) (rrows : list PatchRow) : Prop := {
  li_rows : Forall row_wf rrows;
  li_old : side_numbers Left (reverse rrows) = range (old_start h) (N.to_nat old);
  li_new : side_numbers Right (reverse rrows) = range (new_start h) (N.to_nat new);
  li_le : (old <= old_count h ∧ new <= new_count h)%N
}.

Lemma side_numbers_snoc s rs r :
  side_numbers s (rs ++ [r]) =
  side_numbers s rs ++ match row_number r s with Some n => [n] | None => [] end.
Proof.
  unfold side_numbers. rewrite omap_app. simpl. by destruct (row_number r s).
Qed.

Lemma take_number_Ok here start count seen full line o seen' :
  take_number here start count seen full line = Ok (o, seen') →
  (here = true ∧ o = Some (start + seen)%N ∧ seen' = (seen + 1)%N ∧ (seen < count)%N) ∨
  (here = false ∧ o = None ∧ seen' = seen).
Proof.
  unfold take_number. intros H. case_if; inv_ok; [|by right].
  case_if; inv_ok. apply u32_checked_add_Some in Hr as [-> _]. left. done.
Qed.

Lemma hunk_row_inv lim h l i old new total rrows r old' new' total' :
  loop_inv h old new rrows →
  hunk_row lim h l i old new total = Ok (r, old', new', total') →
  loop_inv h old' new' (r :: rrows).
Proof.
  intros [Hrows Hold Hnew Hle] H. unfold hunk_row in H.
  destruct l as [|prefix text]; [done|].
  inv_bind H as kind Hk. inv_bind H as [ol old1] Ho. inv_bind H as [nl new1] Hn.
  destruct (row_ending_of text) as [t e].
  destruct (max_rows lim <? total + 1)%N; [done|].
  inv_bind H as t' Ht. unfold utf8 in Ht. destruct (utf8_valid t) eqn:Hv; [|done].
  injection Ht as <-. injection H as <- <- <- <-. apply take_number_Ok in Ho, Hn.
  assert (old1 <= old_count h ∧ new1 <= new_count h)%N as Hle'.
  { destruct Ho as [(_ & _ & -> & ?)|(_ & _ & ->)], Hn as [(_ & _ & -> & ?)|(_ & _ & ->)]; lia. }
  constructor; simpl; try done.
  - constructor; [|done]. unfold row_wf. simpl. split; [done|].
    destruct kind; naive_solver.
  - rewrite reverse_cons, side_numbers_snoc, Hold. simpl.
    destruct Ho as [(_ & -> & -> & _)|(_ & -> & ->)]; [|by rewrite app_nil_r].
    replace (N.to_nat (old + 1)) with (S (N.to_nat old)) by lia.
    by rewrite range_snoc, N2Nat.id.
  - rewrite reverse_cons, side_numbers_snoc, Hnew. simpl.
    destruct Hn as [(_ & -> & -> & _)|(_ & -> & ->)]; [|by rewrite app_nil_r].
    replace (N.to_nat (new + 1)) with (S (N.to_nat new)) by lia.
    by rewrite range_snoc, N2Nat.id.
Qed.

Lemma mark_no_final_newline_Ok r line r' :
  mark_no_final_newline r line = Ok r' →
  old_line r' = old_line r ∧ new_line r' = new_line r ∧ row_kind r' = row_kind r ∧
  row_ending r' = LineEnding.None ∧
  (row_ending r = LineEnding.Lf ∧ row_text r' = row_text r ∨
   row_ending r = LineEnding.CrLf ∧ row_text r' = row_text r ++ [CR]).
Proof.
  unfold mark_no_final_newline. destruct (row_ending r); intros; inv_ok; try done; naive_solver.
Qed.

Lemma mark_last_inv h old new rrows rrows' line :
  loop_inv h old new rrows → mark_last rrows line = Ok rrows' → loop_inv h old new rrows'.
Proof.
  intros [Hrows Hold Hnew Hle] H. destruct rrows as [|r rr]; [done|].
  inv_bind H as r' Hr. injection H as <-.
  apply mark_no_final_newline_Ok in Hr as (Ho & Hn & Hk & _ & Ht).
  inversion Hrows as [|? ? [Hu Hw] Hrr]; subst.
  rewrite !reverse_cons, !side_numbers_snoc in *. simpl in *.
  constructor; rewrite ?reverse_cons, ?side_numbers_snoc; simpl; rewrite ?Ho, ?Hn; try done.
  constructor; [|done]. unfold row_wf. rewrite Ho, Hn, Hk. split; [|done].
  destruct Ht as [[_ ->]|[_ ->]]; [done|].
  apply utf8_valid_app; [done|]. by vm_compute.
Qed.

Lemma hunk_loop_inv lim h ls i old new total rrows rrows' ls' i' total' :
  loop_inv h old new rrows →
  hunk_loop lim h ls i old new total rrows = Ok (rrows', ls', i', total') →
  loop_inv h (old_count h) (new_count h) rrows'.
Proof.
  revert i old new total rrows. induction ls as [|l ls IH]; intros i old new total rrows Hinv H.
  all: pose proof (li_le _ _ _ _ Hinv) as Hle.
  all: cbn [hunk_loop] in H; destruct (_ || _) eqn:E; to_prop; try done.
  all: try (injection H as <- <- <- <-; by replace (old_count h) with old by lia;
            replace (new_count h) with new by lia).
  case_bool_decide.
  - inv_bind H as rr Hrr. eapply IH, H. by eapply mark_last_inv.
  - inv_bind H as [[[r o] n] t] Hr. eapply IH, H. by eapply hunk_row_inv.
Qed.

Lemma pair_wf s line a b : pair s line = Ok (a, b) → range_wf a b.
Proof.
  unfold pair. destruct (default _ _) as [x y]. intros H.
  inv_bind H as start Hs. inv_bind H as count Hc. apply ok_or_Ok in Hs, Hc.
  apply parse_uint_le in Hs.
  destruct (_ && _) eqn:E in H; [done|]. injection H as -> ->. split; [done|].
  apply andb_false_iff in E as [E|E]; to_prop; [lia|]. right.
  destruct (u32_checked_add a b) eqn:E2; [|done].
  apply u32_checked_add_Some in E2. lia.
Qed.

Lemma hunk_header_wf v line h :
  hunk_header v line = Ok h →
  rows h = [] ∧ ∀ s, range_wf (side_start h s) (side_count h s).
Proof.
  unfold hunk_header. intros H.
  inv_bind H as t Ht. inv_bind H as r1 Hr1. inv_bind H as [o r2] Hr2.
  inv_bind H as [n sec] Hr3. inv_bind H as [os oc] Ho. inv_bind H as [ns nc] Hn.
  injection H as <-. split; [done|]. apply pair_wf in Ho, Hn. by intros [|].
Qed.

Lemma overlaps_false prev h : overlaps prev h = false → hunk_before prev h.
Proof. unfold overlaps, hunk_before. intros H; to_prop. by intros [|]. Qed.

Lemma parse_hunk_wf lim f l ls i total h ls' i' total' :
  parse_hunk lim f l ls i total = Ok (h, ls', i', total') →
  hunk_wf h ∧ ∀ prev, last (hunks f) = Some prev → hunk_before prev h.
Proof.
  unfold parse_hunk. intros H. inv_bind H as h0 Hh.
  apply hunk_header_wf in Hh as [Hr0 Hrange].
  destruct (match last (hunks f) with Some prev => overlaps prev h0 | None => false end)
    eqn:Hov; [done|].
  inv_bind H as [[[rr ls2] i2] t2] Hloop.
  apply (hunk_loop_inv _ h0) in Hloop.
  2:{ constructor; simpl; try done; lia. }
  assert (∀ rs, loop_inv h0 (old_count h0) (new_count h0) rs →
    hunk_wf (set_rows (reverse rs) h0) ∧
    ∀ prev, last (hunks f) = Some prev → hunk_before prev (set_rows (reverse rs) h0)) as Hfin.
  { intros rs [Hrows Hold Hnew _]. split.
    - constructor; simpl; [by apply Forall_reverse|intros []|apply Hrange]; done.
    - intros prev Hp. rewrite Hp in Hov. by apply overlaps_false in Hov. }
  destruct ls2 as [|l' ls2]; [injection H as <- <- <- <-; by apply Hfin|].
  case_bool_decide; [|injection H as <- <- <- <-; by apply Hfin].
  inv_bind H as rr' Hm. injection H as <- <- <- <-. apply Hfin. by eapply mark_last_inv.
Qed.

(** ** Files *)

(** What holds of the hunks of a file while its lines are read. *)
Definition hunks_ok (hs : list Hunk) : Prop :=
  Forall hunk_wf hs ∧ ∀ i h1 h2, hs !! i = Some h1 → hs !! S i = Some h2 → hunk_before h1 h2.

Lemma hunks_ok_snoc hs h :
  hunks_ok hs → hunk_wf h → (∀ prev, last hs = Some prev → hunk_before prev h) →
  hunks_ok (hs ++ [h]).
Proof.
  intros [Hf Ho] Hh Hp. split; [by apply Forall_app_2; [|constructor]|].
  intros i h1 h2 H1 H2.
  destruct (decide (S i < length hs)) as [Hlt|Hge].
  - rewrite !lookup_app_l in * by lia. by eapply Ho.
  - pose proof (lookup_lt_Some _ _ _ H2) as Hl. rewrite length_app in Hl. simpl in Hl.
    rewrite lookup_app_r in H2 by lia. replace (S i - length hs) with 0 in H2 by lia.
    injection H2 as <-. apply Hp. rewrite lookup_app_l in H1 by lia.
    rewrite last_lookup. by replace (pred (length hs)) with i by lia.
Qed.

Lemma index_line_hunks s f : hunks (index_line s f) = hunks f.
Proof. unfold index_line. repeat case_match; done. Qed.

Lemma header_line_hunks f l i f' : header_line f l i = Ok f' → hunks f' = hunks f.
Proof.
  unfold header_line. intros H.
  repeat match type of H with
  | context [match strip_prefix ?p l with _ => _ end] =>
      destruct (strip_prefix p l); [inv_ok; by rewrite ?index_line_hunks|]
  | context [if ?b then _ else _] => destruct b
  end; by inv_ok.
Qed.

Lemma file_loop_ok fuel lim f ls i total f' ls' i' total' :
  hunks_ok (hunks f) →
  file_loop fuel lim f ls i total = Some (Ok (f', ls', i', total')) → hunks_ok (hunks f').
Proof.
  revert f ls i total. induction fuel as [|fuel IH]; intros f ls i total Hok H; [done|].
  destruct ls as [|l ls]; cbn [file_loop] in H; [naive_solver|].
  case_if; [naive_solver|]. case_if.
  { destruct (parse_hunk lim f l ls i total) as [[[[h ls2] i2] t2]|e] eqn:E; [|done].
    apply parse_hunk_wf in E as [Hh Hp]. eapply IH, H. simpl. by apply hunks_ok_snoc. }
  case_if.
  { case_if; [by eapply IH|]. case_if; [naive_solver|done]. }
  destruct (header_line f l i) as [f2|e] eqn:E; [|done].
  eapply IH, H. by rewrite (header_line_hunks _ _ _ _ E).
Qed.

Lemma finish_file_Ok `{Sha256} f i f' :
  finish_file f i = Ok f' →
  hunks f' = hunks f ∧
  file_id f' = digest [bs "file-v1"; path_or_empty (old_path f'); path_or_empty (new_path f')] ∧
  (change_kind f' ≠ ChangeKind.Added → change_kind f' ≠ ChangeKind.Deleted → is_Some (path f')).
Proof.
  unfold finish_file, path. intros Hf.
  destruct (old_path f) as [op|] eqn:Eo, (new_path f) as [np|] eqn:En; [| | |done].
  all: destruct (is_submodule _ || is_submodule _); cbn zeta in Hf.
  all: repeat case_bool_decide; injection Hf as <-; simpl in *; rewrite ?Eo, ?En; naive_solver.
Qed.

Definition report_ok `{Sha256} (lim : ParseLimits) (fs : list FileChange) : Prop :=
  Forall file_wf fs ∧
  Forall (λ f, file_id f =
    digest [bs "file-v1"; path_or_empty (old_path f); path_or_empty (new_path f)]) fs ∧
  NoDup (file_id <$> fs) ∧ (lenN fs <= max_files lim)%N.

Lemma files_loop_ok `{Sha256} fuel lim ls i fs total seen fs' :
  report_ok lim fs → seen = list_to_set (file_id <$> fs) →
  files_loop fuel lim ls i fs total seen = Some (Ok fs') → report_ok lim fs'.
Proof.
  revert ls i fs total seen.
  induction fuel as [|fuel IH]; intros ls i fs total seen Hok Hseen Hr; [done|].
  destruct ls as [|l ls]; cbn [files_loop] in Hr; [naive_solver|].
  case_if; [case_if; [by eapply IH|done]|].
  case_if; [done|].
  destruct (header_paths _ _) as [[op np]|e]; [|done].
  destruct (file_loop _ _ _ _ _ _) as [[[[[f ls2] i2] t2]|e]|] eqn:Ef; [|done..].
  apply file_loop_ok in Ef as [Hf Ho]; [|by split].
  destruct (finish_file f i2) as [f'|e] eqn:Efin; [|done].
  apply finish_file_Ok in Efin as (Hh & Hid & Hp).
  case_bool_decide as Hin; [done|].
  eapply IH; [| |exact Hr].
  - destruct Hok as (Hwf & Hids & Hnd & Hlen). split_and!.
    + apply Forall_app_2; [done|]. constructor; [|done].
      constructor; rewrite ?Hh; done.
    + by apply Forall_app_2; [|constructor].
    + rewrite fmap_app. apply NoDup_app. split_and!; [done| |by apply NoDup_singleton].
      intros x Hx Hx'. simpl in Hx'. apply list_elem_of_singleton in Hx' as ->.
      apply Hin. rewrite Hseen. by apply elem_of_list_to_set.
    + unfold lenN in *. rewrite length_app. simpl. lia.
  - rewrite Hseen, fmap_app, list_to_set_app_L. simpl. set_solver.
Qed.

Lemma parse_patch_report_ok `{Sha256} input lim rep :
  parse_patch input lim = Some (Ok rep) → report_ok lim (files rep).
Proof.
  unfold parse_patch. intros Hp. case_if; [done|].
  destruct (check_lines _ _ _); [done|].
  destruct (files_loop _ _ _ _ _ _ _) as [[fs|e]|] eqn:E; [|done..].
  case_if; [done|]. injection Hp as <-. eapply files_loop_ok; [| |exact E]; [|done].
  split_and!; [constructor..|apply NoDup_nil_2|]. unfold lenN. simpl. lia.
Qed.

(** ** Row limit and nothing lost *)

Definition kind_prefix (k : RowKind) : byte :=
  match k with
  | RowKind.Context => SPACE | RowKind.Added => u8_of 43 | RowKind.Removed => u8_of 45
  end.

(** The lines of the patch a row stands for. *)
Definition render_row (r : PatchRow) : list bytes :=
  match row_ending r with
  | LineEnding.Lf => [kind_prefix (row_kind r) :: row_text r]
  | LineEnding.CrLf => [kind_prefix (row_kind r) :: row_text r ++ [CR]]
  | LineEnding.None => [kind_prefix (row_kind r) :: row_text r; NO_NEWLINE]
  end.
Definition render_rows (rs : list PatchRow) : list bytes := rs ≫= render_row.

Lemma render_rows_snoc rs r : render_rows (rs ++ [r]) = render_rows rs ++ render_row r.
Proof. unfold render_rows. rewrite bind_app. simpl. by rewrite app_nil_r. Qed.

Lemma row_kind_of_prefix p line k : row_kind_of p line = Ok k → kind_prefix k = p.
Proof. unfold row_kind_of. intros H. repeat case_bool_decide; inv_ok; done. Qed.

Lemma hunk_row_render lim h l line old new total r old' new' total' :
  hunk_row lim h l line old new total = Ok (r, old', new', total') →
  render_row r = [l] ∧ total' = (total + 1)%N ∧ (total' <= max_rows lim)%N.
Proof.
  unfold hunk_row. intros H. destruct l as [|prefix text]; [done|].
  inv_bind H as kind Hk. inv_bind H as [ol old1] Ho. inv_bind H as [nl new1] Hn.
  destruct (row_ending_of text) as [t e] eqn:Et.
  destruct (max_rows lim <? total + 1)%N eqn:Em; [done|]. to_prop.
  inv_bind H as t' Ht. unfold utf8 in Ht. destruct (utf8_valid t); [|done].
  injection Ht as <-. injection H as <- <- <- <-. split_and!; [|done..].
  unfold row_ending_of in Et. unfold render_row. simpl. rewrite (row_kind_of_prefix _ _ _ Hk).
  destruct (strip_suffix [CR] text) eqn:Es; injection Et as <- <-; [|done].
  by apply strip_suffix_Some in Es as ->.
Qed.

Lemma mark_last_render rrows line rrows' :
  mark_last rrows line = Ok rrows' →
  render_rows (reverse rrows') = render_rows (reverse rrows) ++ [NO_NEWLINE] ∧
  length rrows' = length rrows.
Proof.
  intros H. destruct rrows as [|r rr]; [done|].
  inv_bind H as r' Hr. injection H as <-. split; [|done].
  rewrite !reverse_cons, !render_rows_snoc, <- app_assoc. f_equal.
  apply mark_no_final_newline_Ok in Hr as (_ & _ & Hk & He & Ht).
  unfold render_row. rewrite He, Hk. by destruct Ht as [[-> ->]|[-> ->]].
Qed.

Lemma hunk_loop_render lim h ls i old new total rrows rrows' ls' i' total' :
  hunk_loop lim h ls i old new total rrows = Ok (rrows', ls', i', total') →
  render_rows (reverse rrows) ++ ls = render_rows (reverse rrows') ++ ls' ∧
  (total' + lenN rrows = total + lenN rrows')%N ∧
  (total <= max_rows lim → total' <= max_rows lim)%N.
Proof.
  revert i old new total rrows. induction ls as [|l ls IH]; intros i old new total rrows H.
  all: cbn [hunk_loop] in H; destruct (_ || _); try done.
  all: try (injection H as <- <- <- <-; by split_and!).
  case_bool_decide.
  - inv_bind H as rr Hrr. apply IH in H as (H & Ht & Hlim).
    apply mark_last_render in Hrr as [Hrr Hl]. unfold lenN in *. rewrite Hl in Ht. subst l.
    rewrite Hrr, <- app_assoc in H. done.
  - inv_bind H as [[[r o] n] t] Hr. apply hunk_row_render in Hr as (Hr & -> & Hmax).
    apply IH in H as (H & Ht & Hlim).
    rewrite reverse_cons, render_rows_snoc, Hr, <- app_assoc in H.
    split_and!; [done| |by intros _; apply Hlim].
    unfold lenN in *. simpl in Ht. lia.
Qed.

(** Reading a hunk loses nothing: the lines after its header are the lines its rows
    render to, line endings and EOF markers included, followed by the lines left;
    and the running row total grows by exactly its rows. *)
Theorem parse_hunk_lossless lim f l ls i total h ls' i' total' :
  parse_hunk lim f l ls i total = Ok (h, ls', i', total') →
  ls = render_rows (rows h) ++ ls' ∧ total' = (total + lenN (rows h))%N.
Proof.
  unfold parse_hunk. intros H. inv_bind H as h0 Hh.
  case_if; [done|]. inv_bind H as [[[rr ls2] i2] t2] Hloop.
  apply hunk_loop_render in Hloop as (Hr & Ht & _). unfold lenN in Ht. simpl in Hr, Ht.
  assert (ls = render_rows (reverse rr) ++ ls2) as -> by done. clear Hr.
  destruct ls2 as [|l' ls2].
  { injection H as <- <- <- <-. simpl. unfold lenN. rewrite length_reverse. split; [done|lia]. }
  case_bool_decide.
  - inv_bind H as rr' Hm. injection H as <- <- <- <-. subst l'.
    apply mark_last_render in Hm as [Hm Hl]. simpl. unfold lenN.
    rewrite Hm, length_reverse, Hl, <- app_assoc. split; [done|lia].
  - injection H as <- <- <- <-. simpl. unfold lenN. rewrite length_reverse. split; [done|lia].
Qed.

Definition rows_of (hs : list Hunk) : list PatchRow := hs ≫= rows.

Lemma rows_of_snoc hs h : rows_of (hs ++ [h]) = rows_of hs ++ rows h.
Proof. unfold rows_of. rewrite bind_app. simpl. by rewrite app_nil_r. Qed.

Lemma parse_hunk_limit lim f l ls i total h ls' i' total' :
  parse_hunk lim f l ls i total = Ok (h, ls', i', total') →
  (total <= max_rows lim → total' <= max_rows lim)%N.
Proof.
  unfold parse_hunk. intros H. inv_bind H as h0 Hh.
  case_if; [done|]. inv_bind H as [[[rr ls2] i2] t2] Hloop.
  apply hunk_loop_render in Hloop as (_ & _ & Hlim).
  destruct ls2; [by injection H as <- <- <- <-|].
  case_bool_decide; [inv_bind H as rr' Hm|]; by injection H as <- <- <- <-.
Qed.

Lemma file_loop_rows fuel lim f ls i total f' ls' i' total' :
  file_loop fuel lim f ls i total = Some (Ok (f', ls', i', total')) →
  (total' + lenN (all_rows f) = total + lenN (all_rows f'))%N ∧
  (total <= max_rows lim → total' <= max_rows lim)%N.
Proof.
  revert f ls i total. induction fuel as [|fuel IH]; intros f ls i total H; [done|].
  destruct ls as [|l ls]; cbn [file_loop] in H; [by injection H as <- <- <- <-|].
  case_if; [by injection H as <- <- <- <-|]. case_if.
  { destruct (parse_hunk lim f l ls i total) as [[[[h ls2] i2] t2]|e] eqn:E; [|done].
    pose proof (parse_hunk_limit _ _ _ _ _ _ _ _ _ _ E) as Hlim.
    apply parse_hunk_lossless in E as [_ ->]. apply IH in H as [H Hlim'].
    split; [|by auto]. unfold all_rows in *. simpl in H.
    change (hunks f ++ [h] ≫= rows) with (rows_of (hunks f ++ [h])) in H.
    rewrite rows_of_snoc in H. unfold lenN in *. rewrite length_app in H.
    change (rows_of (hunks f)) with (hunks f ≫= rows) in H. lia. }
  case_if.
  { case_if; [by eapply IH|]. case_if; [by injection H as <- <- <- <-|done]. }
  destruct (header_line f l i) as [f2|e] eqn:E; [|done].
  apply IH in H. unfold all_rows in *. by rewrite (header_line_hunks _ _ _ _ E) in H.
Qed.

Lemma files_loop_rows `{Sha256} fuel lim ls i fs total seen fs' :
  total = lenN (fs ≫= all_rows) → (total <= max_rows lim)%N →
  files_loop fuel lim ls i fs total seen = Some (Ok fs') →
  (lenN (fs' ≫= all_rows) <= max_rows lim)%N.
Proof.
  revert ls i fs total seen.
  induction fuel as [|fuel IH]; intros ls i fs total seen Ht Hlim Hr; [done|].
  destruct ls as [|l ls]; cbn [files_loop] in Hr; [naive_solver|].
  case_if; [case_if; [by eapply IH|done]|]. case_if; [done|].
  destruct (header_paths _ _) as [[op np]|e]; [|done].
  destruct (file_loop _ _ _ _ _ _) as [[[[[f ls2] i2] t2]|e]|] eqn:Ef; [|done..].
  apply file_loop_rows in Ef as [Hf Hl].
  destruct (finish_file f i2) as [f'|e] eqn:Efin; [|done].
  apply finish_file_Ok in Efin as (Hh & _).
  case_bool_decide; [done|]. eapply IH; [|by apply Hl|exact Hr].
  rewrite bind_app. simpl. rewrite app_nil_r.
  assert (all_rows f' = all_rows f) as -> by (unfold all_rows; by rewrite Hh).
  assert (lenN (all_rows (new_file op np)) = 0%N) as Hz by done.
  rewrite Hz in Hf. unfold lenN in *. rewrite length_app. lia.
Qed.

Lemma parse_patch_rows `{Sha256} input lim rep :
  parse_patch input lim = Some (Ok rep) →
  (lenN (files rep ≫= all_rows) <= max_rows lim)%N ∧ (lenN input <= max_bytes lim)%N.
Proof.
  unfold parse_patch. intros Hp. case_if; [done|].
  destruct (check_lines _ _ _); [done|].
  destruct (files_loop _ _ _ _ _ _ _) as [[fs|e]|] eqn:E; [|done..].
  case_if; [done|]. injection Hp as <-. split; [|done].
  eapply files_loop_rows; [| |exact E]; [done|]. unfold lenN; simpl; lia.
Qed.

(** C20: what an accepted patch is: every hunk's rows are numbered without gap or
    overlap by the ranges of its header on both sides, lie inside [u32], and are
    UTF-8; hunks follow each other in order; the identities of the files are the
    digests of their paths and no two are equal; and the byte, file and row
    limits hold. *)
Theorem parse_patch_wf `{Sha256} input lim rep :
  parse_patch input lim = Some (Ok rep) →
  report_ok lim (files rep) ∧
  (lenN (files rep ≫= all_rows) <= max_rows lim)%N ∧ (lenN input <= max_bytes lim)%N.
Proof. intros Hp. split; [by eapply parse_patch_report_ok|by eapply parse_patch_rows]. Qed.

(** Bad input does not become an empty success: an accepted patch without files is
    made of ASCII white space only. *)
Theorem parse_patch_no_empty_success `{Sha256} input lim :
  parse_patch input lim = Some (Ok (mkPatchReport [])) →
  Forall (λ b, is_ascii_whitespace b = true) input.
Proof.
  unfold parse_patch. intros Hp. case_if; [done|].
  destruct (check_lines _ _ _); [done|].
  destruct (files_loop _ _ _ _ _ _ _) as [[fs|e]|] eqn:E; [|done..].
  destruct (bool_decide _ && _) eqn:Eb in Hp; [done|]. injection Hp as ->.
  apply negb_false_iff in Eb. rewrite forallb_forall in Eb.
  apply Forall_forall. intros b Hb%list_elem_of_In. by apply Eb.
Qed.

(** ** Looking rows up *)

Definition side_end (h : Hunk) (s : Side) : N := (side_start h s + side_count h s)%N.

Lemma omap_elem {A B} (g : A → option B) (l : list A) (y : B) : y ∈ omap g l ↔ ∃ x, x ∈ l ∧ g x = Some y.
Proof. apply list_elem_of_omap. Qed.

Lemma hunk_number h s n :
  hunk_wf h →
  (∃ r, r ∈ rows h ∧ row_number r s = Some n) ↔ (side_start h s <= n < side_end h s)%N.
Proof.
  intros [_ Hn _]. rewrite <- (omap_elem (λ r, row_number r s)).
  change (omap _ (rows h)) with (side_numbers s (rows h)). rewrite Hn, range_elem.
  unfold side_end. lia.
Qed.

Lemma find_map_Some {A B} (g : A → option B) (l : list A) (y : B) :
  find_map g l = Some y → ∃ x, x ∈ l ∧ g x = Some y.
Proof.
  induction l as [|x l IH]; simpl; [done|]. destruct (g x) eqn:E.
  - intros [= <-]. exists x. split; [left|done].
  - intros (x' & Hx & Hg)%IH. exists x'. split; [by right|done].
Qed.
Lemma find_map_None {A B} (g : A → option B) (l : list A) : find_map g l = None ↔ ∀ x, x ∈ l → g x = None.
Proof.
  induction l as [|x l IH]; simpl.
  { split; [|done]. intros _ x Hx. by apply not_elem_of_nil in Hx. }
  destruct (g x) eqn:E.
  - split; [done|]. intros H. specialize (H x (list_elem_of_here _ _)). congruence.
  - rewrite IH. split; intros H x' Hx'; [|by apply H; right].
    apply elem_of_cons in Hx' as [->|Hx']; auto.
Qed.

Lemma line_Some f s n r : line f s n = Some r → r ∈ all_rows f ∧ row_number r s = Some n.
Proof.
  unfold line. intros (x & Hx & Hg)%find_map_Some. case_bool_decide; [|done].
  by injection Hg as ->.
Qed.

Lemma line_is_Some f s n :
  is_Some (line f s n) ↔ ∃ r, r ∈ all_rows f ∧ row_number r s = Some n.
Proof.
  split.
  - intros [r Hr]. apply line_Some in Hr. eauto.
  - intros (r & Hr & Hn). apply not_eq_None_Some. unfold line. rewrite find_map_None.
    intros H. specialize (H r Hr). by rewrite bool_decide_true in H.
Qed.

Lemma all_rows_elem f r : r ∈ all_rows f ↔ ∃ h, h ∈ hunks f ∧ r ∈ rows h.
Proof. unfold all_rows. rewrite list_elem_of_bind. naive_solver. Qed.

(** In a file of an accepted patch, a side has a loaded line [n] exactly when a
    hunk header's range on that side contains [n]. *)
Theorem line_loaded_iff_in_hunk f s n :
  file_wf f →
  is_Some (line f s n) ↔ ∃ h, h ∈ hunks f ∧ (side_start h s <= n < side_end h s)%N.
Proof.
  intros [Hh _ _]. rewrite Forall_forall in Hh. rewrite line_is_Some. split.
  - intros (r & (h & Hin & Hr)%all_rows_elem & Hn). exists h. split; [done|].
    apply hunk_number; eauto.
  - intros (h & Hin & Hn). apply hunk_number in Hn as (r & Hr & Hn); [|by apply Hh].
    exists r. rewrite all_rows_elem. eauto.
Qed.

(** A comment range of an accepted patch is eligible exactly when the file is text
    and one hunk's range on that side contains it, for ranges of at most 10,001
    lines. *)
Theorem eligible_iff_hunk_range f s a b :
  file_wf f →
  eligible f s a b = true ↔
  content_kind f = ContentKind.Text ∧ (0 < a <= b)%N ∧ (b - a <= 10000)%N ∧
  ∃ h, h ∈ hunks f ∧ (side_start h s <= a)%N ∧ (b < side_end h s)%N.
Proof.
  intros [Hh _ _]. rewrite Forall_forall in Hh. unfold eligible.
  rewrite !andb_true_iff, bool_decide_eq_true, N.ltb_lt, !N.leb_le, existsb_exists.
  assert (∀ h, h ∈ hunks f → (a <= b)%N →
    forallb (λ n, existsb (λ r, bool_decide (row_number r s = Some n)) (rows h))
      (range a (N.to_nat (b - a + 1))) = true ↔
    (side_start h s <= a)%N ∧ (b < side_end h s)%N) as Hhunk.
  { intros h Hin Hab. rewrite forallb_forall.
    assert (∀ n, existsb (λ r, bool_decide (row_number r s = Some n)) (rows h) = true ↔
                 (side_start h s <= n < side_end h s)%N) as Hn.
    { intros n. rewrite <- hunk_number by auto. rewrite existsb_exists.
      setoid_rewrite bool_decide_eq_true. setoid_rewrite <- list_elem_of_In. done. }
    split.
    - intros H. assert (∀ n, (a <= n <= b)%N → (side_start h s <= n < side_end h s)%N) as H'.
      { intros n Hab'. apply Hn, H, list_elem_of_In, range_elem. lia. }
      pose proof (H' a ltac:(lia)). pose proof (H' b ltac:(lia)). lia.
    - intros [H1 H2] n Hin'%list_elem_of_In%range_elem. apply Hn. lia. }
  split.
  - intros ((((Ht & Ha) & Hab) & Hd) & h & Hin%list_elem_of_In & Hr).
    apply Hhunk in Hr as [??]; [|done..]. split_and!; eauto.
  - intros (Ht & [Ha Hab] & Hd & h & Hin & H1 & H2). split_and!; try done.
    exists h. rewrite <- list_elem_of_In, Hhunk by done. done.
Qed.

(** ** A file without a path *)

(** The lines of a patch, each closed by an LF. *)

(** ** Line numbers are unique *)

(** Rows in order: a numbered row has a smaller number than the numbered rows after it. *)
Definition number_lt (s : Side) (r1 r2 : PatchRow) : Prop :=
  ∀ n1 n2, row_number r1 s = Some n1 → row_number r2 s = Some n2 → (n1 < n2)%N.

Lemma numbers_sorted s rs start n :
  side_numbers s rs = range start n → StronglySorted (number_lt s) rs.
Proof.
  revert start n. induction rs as [|r rs IH]; intros start n H; [constructor|].
  unfold side_numbers in H. cbn [omap list_omap] in H.
  destruct (row_number r s) as [k|] eqn:E.
  - destruct n as [|n]; [done|]. unfold range in H. cbn [seq] in H. rewrite fmap_cons in H.
    rewrite <- fmap_S_seq, <- list_fmap_compose in H. injection H as Hk H.
    assert (side_numbers s rs = range (start + 1) n) as Hrs.
    { etrans; [exact H|]. apply list_fmap_ext. intros. cbn. lia. }
    constructor; [by eapply IH|]. apply Forall_forall. intros r' Hr' n1 n2 H1 H2.
    assert (n2 ∈ side_numbers s rs) as Hin by (apply list_elem_of_omap; eauto).
    rewrite Hrs, range_elem in Hin. rewrite E in H1. injection H1 as <-. lia.
  - constructor; [by eapply IH|]. apply Forall_forall. intros r' _ n1 n2 H1. congruence.
Qed.

Lemma later_rows s h hs :
  Forall hunk_wf (h :: hs) →
  (∀ i h1 h2, (h :: hs) !! i = Some h1 → (h :: hs) !! S i = Some h2 → hunk_before h1 h2) →
  ∀ h', h' ∈ hs → (side_start h s + side_count h s <= side_start h' s)%N.
Proof.
  revert h. induction hs as [|h2 hs IH]; intros h Hw Ho h' Hin; [by apply not_elem_of_nil in Hin|].
  inversion Hw as [|? ? Hh Hw']; subst.
  pose proof (Ho 0 h h2 eq_refl eq_refl s) as Hb.
  pose proof (hw_range _ Hh s) as Hr. unfold u32_saturating_add in Hb. unfold range_wf in Hr.
  assert (side_start h s + side_count h s <= side_start h2 s)%N as Hle.
  { destruct Hr as [Hmax [Hz|[_ Hfit]]]; lia. }
  apply elem_of_cons in Hin as [->|Hin]; [done|].
  assert (side_start h2 s + side_count h2 s <= side_start h' s)%N; [|lia].
  apply IH; [done| |done]. intros i. apply (Ho (S i)).
Qed.

Lemma StronglySorted_app_2 {A} (R : relation A) l k :
  StronglySorted R l → StronglySorted R k → (∀ x y, x ∈ l → y ∈ k → R x y) →
  StronglySorted R (l ++ k).
Proof.
  intros Hl Hk. induction Hl as [|x l Hl IH Hx]; intros H; [done|]. cbn. constructor.
  - apply IH. intros y z Hy Hz. apply H; [by right|done].
  - apply Forall_app. split; [done|]. apply Forall_forall. intros y Hy. apply H; [by left|done].
Qed.

Lemma rows_sorted s hs :
  Forall hunk_wf hs →
  (∀ i h1 h2, hs !! i = Some h1 → hs !! S i = Some h2 → hunk_before h1 h2) →
  StronglySorted (number_lt s) (rows_of hs).
Proof.
  induction hs as [|h hs IH]; intros Hw Ho; [constructor|].
  unfold rows_of. cbn [mbind list_bind]. inversion Hw as [|? ? Hh Hw']; subst.
  apply StronglySorted_app_2.
  - eapply numbers_sorted, hw_numbers, Hh.
  - apply IH; [done|]. intros i. apply (Ho (S i)).
  - intros r1 r2 H1 (h' & H2 & Hh')%list_elem_of_bind n1 n2 Hn1 Hn2.
    assert (hunk_wf h') as Hwh' by (rewrite Forall_forall in Hw'; auto).
    pose proof (later_rows s h hs Hw Ho h' Hh') as Hle.
    assert (n1 ∈ side_numbers s (rows h)) as Hin1 by (apply list_elem_of_omap; eauto).
    assert (n2 ∈ side_numbers s (rows h')) as Hin2 by (apply list_elem_of_omap; eauto).
    rewrite (hw_numbers _ Hh), range_elem in Hin1.
    rewrite (hw_numbers _ Hwh'), range_elem in Hin2. lia.
Qed.

(** In an accepted file the row a line number finds is the only one that has it. *)
Lemma line_exact f s n r :
  file_wf f → r ∈ all_rows f → row_number r s = Some n → line f s n = Some r.
Proof.
  intros [Hw Ho _] Hin Hn. pose proof (rows_sorted s _ Hw Ho) as Hs. unfold line.
  change (rows_of (hunks f)) with (all_rows f) in Hs.
  induction Hs as [|x l Hs IH Hx]; [by apply not_elem_of_nil in Hin|]. cbn [find_map].
  apply elem_of_cons in Hin as [->|Hin]; [by rewrite bool_decide_true|].
  rewrite bool_decide_false; [by apply IH|]. intros Hx'.
  rewrite Forall_forall in Hx. specialize (Hx _ Hin _ _ Hx' Hn). lia.
Qed.

Definition unlines (ls : list bytes) : bytes := concat ((λ l, l ++ [LF]) <$> ls).

Definition pathless_patch : bytes := unlines
  [bs "diff --git a/x b/x"; bs "new file mode 100644"; bs "--- a/x"; bs "+++ /dev/null";
   bs "@@ -1 +0,0 @@"; bs "-gone"].

(** The parser can accept a file that has neither path, although every reader of a
    file ([FileChange::path]) requires one: the check for a missing path comes
    before an added file loses its old path. *)
Theorem accepted_file_without_path `{Sha256} :
  ∃ rep f, parse_patch pathless_patch default_limits = Some (Ok rep) ∧
           f ∈ files rep ∧ path f = None ∧ display_path f = None.
Proof.
  eexists _, _. split; [vm_compute; reflexivity|]. split; [by left|]. by vm_compute.
Qed.

(** ** Witnesses *)

Definition sample_patch : bytes := unlines
  [bs "diff --git a/src/lib.rs b/src/lib.rs"; bs "index 1234567..89abcde 100644";
   bs "--- a/src/lib.rs"; bs "+++ b/src/lib.rs"; bs "@@ -1,2 +1,3 @@ fn main";
   bs " keep"; bs "-old"; bs "+new"; bs "+more"; NO_NEWLINE].
(** A hash to run the parser with: any function does. *)
Definition sample_sha256 : Sha256 := λ s, s.
Definition sample_parsed : PatchReport :=
  match @parse_patch sample_sha256 sample_patch default_limits with
  | Some (Ok rep) => rep
  | _ => mkPatchReport []
  end.

Example parse_patch_wf_witness :
  let sha := sample_sha256 in
  length (files sample_parsed) = 1 ∧
  report_ok default_limits (files sample_parsed) ∧
  (lenN (files sample_parsed ≫= all_rows) <= max_rows default_limits)%N ∧
  (lenN sample_patch <= max_bytes default_limits)%N.
Proof.
  split; [vm_compute; reflexivity|].
  apply parse_patch_wf. vm_compute. reflexivity.
Defined.

Example parse_patch_no_empty_success_witness :
  Forall (λ b, is_ascii_whitespace b = true) [SPACE; LF].
Proof.
  apply (@parse_patch_no_empty_success sample_sha256 [SPACE; LF] default_limits).
  vm_compute. reflexivity.
Defined.

Definition sample_rows : list bytes := [bs " keep"; bs "-old"; bs "+new"; NO_NEWLINE; bs "tail"].
Definition sample_hunk_line : bytes := bs "@@ -4,2 +4,2 @@".

Example parse_hunk_lossless_witness :
  ∃ h, parse_hunk default_limits (new_file None None) sample_hunk_line sample_rows 0 0
       = Ok (h, [bs "tail"], 5, 3%N) ∧
       sample_rows = render_rows (rows h) ++ [bs "tail"] ∧ 3%N = (0 + lenN (rows h))%N.
Proof.
  eexists. split; [vm_compute; reflexivity|].
  apply (parse_hunk_lossless default_limits (new_file None None) sample_hunk_line
           sample_rows 0 0 _ _ 5 3%N).
  vm_compute. reflexivity.
Defined.

Definition sample_file : FileChange :=
  mkFileChange [] (Some (RepoPath.mkRepoPath (bs "f"))) (Some (RepoPath.mkRepoPath (bs "f")))
    ChangeKind.Modified ContentKind.Text None None None None
    [mkHunk 7 1 7 2 [] [mkPatchRow (Some 7%N) (Some 7%N) (bs "x") LineEnding.Lf RowKind.Context;
                        mkPatchRow None (Some 8%N) (bs "y") LineEnding.Lf RowKind.Added]] [].

Lemma sample_file_wf : file_wf sample_file.
Proof.
  split.
  - constructor; [|constructor]. split.
    + repeat constructor; by eexists.
    + by intros [].
    + intros []; vm_compute; split; [discriminate|right|discriminate|right];
        split; (reflexivity || discriminate).
  - intros [|i] h1 h2; [|destruct i]; done.
  - by eexists.
Qed.

Example line_loaded_iff_in_hunk_witness :
  is_Some (line sample_file Right 8) ↔
  ∃ h, h ∈ hunks sample_file ∧ (side_start h Right <= 8 < side_end h Right)%N.
Proof. apply line_loaded_iff_in_hunk, sample_file_wf. Defined.

Example eligible_iff_hunk_range_witness :
  eligible sample_file Right 7 8 = true ↔
  content_kind sample_file = ContentKind.Text ∧ (0 < 7 <= 8)%N ∧ (8 - 7 <= 10000)%N ∧
  ∃ h, h ∈ hunks sample_file ∧ (side_start h Right <= 7)%N ∧ (8 < side_end h Right)%N.
Proof. apply eligible_iff_hunk_range, sample_file_wf. Defined.
