(* ===== verification/PatchRoundtrip.v ===== *)
(** * The patch parser reads back what a printer writes

    [render_report] is a printer of reports in Git's format, with quoted paths. For
    every report that satisfies [printable_report] the parser gives the report
    back: it misses no row, number, path, mode or header line. *)

From S2P Require Import Prelude RustStr Utf8 Domain Patch PatchFacts.

(** ** Hunks *)

Definition render_range (start count : N) : bytes := dec start ++ bs "," ++ dec count.
Definition render_section (s : bytes) : bytes := match s with [] => [] | _ => SPACE :: s end.
Definition render_header (h : Hunk) : bytes :=
  bs "@@ -" ++ render_range (old_start h) (old_count h)
  ++ bs " +" ++ render_range (new_start h) (new_count h)
  ++ bs " @@" ++ render_section (section h).
Definition render_hunk (h : Hunk) : list bytes := render_header h :: render_rows (rows h).

(** A row whose text and ending are what the parser makes of its line. *)
Definition row_printable (r : PatchRow) : Prop :=
  LF ∉ row_text r ∧ (row_ending r = LineEnding.Lf → strip_suffix [CR] (row_text r) = None).

Record hunk_printable (h : Hunk) : Prop := {
  hp_wf : hunk_wf h;
  hp_rows : Forall row_printable (rows h);
  hp_section : utf8_valid (section h) = true ∧ LF ∉ section h ∧
               trim_start (section h) = section h
}.

(** The row as it is before its EOF marker is read. *)
Definition unmarked (r : PatchRow) : PatchRow :=
  match row_ending r with
  | LineEnding.None =>
      let '(t, e) := row_ending_of (row_text r) in
      mkPatchRow (old_line r) (new_line r) t e (row_kind r)
  | _ => r
  end.
Definition row_line (r : PatchRow) : bytes :=
  kind_prefix (row_kind r) :: row_text r
  ++ match row_ending r with LineEnding.CrLf => [CR] | _ => [] end.
Definition marker (r : PatchRow) : list bytes :=
  match row_ending r with LineEnding.None => [NO_NEWLINE] | _ => [] end.

Lemma render_row_split r : render_row r = row_line r :: marker r.
Proof.
  unfold render_row, row_line, marker. destruct (row_ending r); by rewrite ?app_nil_r.
Qed.

Lemma mark_unmarked r line :
  row_ending r = LineEnding.None → mark_no_final_newline (unmarked r) line = Ok r.
Proof.
  intros He. unfold unmarked, mark_no_final_newline. rewrite He.
  destruct r as [o n t e k]; simpl in *. subst e. unfold row_ending_of.
  destruct (strip_suffix [CR] t) as [u|] eqn:E; simpl; [|done].
  by apply strip_suffix_Some in E as ->.
Qed.

Lemma unmarked_eq r : row_ending r ≠ LineEnding.None → unmarked r = r.
Proof. unfold unmarked. by destruct (row_ending r). Qed.

Lemma row_ending_of_line r :
  row_printable r →
  row_ending_of (row_text r ++ match row_ending r with LineEnding.CrLf => [CR] | _ => [] end)
  = (row_text (unmarked r), row_ending (unmarked r)).
Proof.
  intros [_ Hlf]. unfold unmarked. destruct (row_ending r) eqn:E; rewrite ?app_nil_r.
  - unfold row_ending_of. rewrite Hlf by done. by rewrite E.
  - unfold row_ending_of. rewrite strip_suffix_snoc. by rewrite E.
  - by destruct (row_ending_of (row_text r)).
Qed.

Lemma unmarked_text_valid r : utf8_valid (row_text r) = true →
  utf8_valid (row_text (unmarked r)) = true.
Proof.
  intros H. unfold unmarked. destruct (row_ending r); try done.
  unfold row_ending_of. destruct (strip_suffix [CR] (row_text r)) as [u|] eqn:E; [|done].
  simpl. apply strip_suffix_Some in E. rewrite E in H.
  assert (is_char_boundary (u ++ [CR]) (length u) = true) as Hb.
  { unfold is_char_boundary. destruct (length u) eqn:El; [done|].
    rewrite lookup_app_r by lia. by replace (S n - length u) with 0 by lia. }
  apply utf8_valid_cut in Hb as (Hb & _); [|done]. by rewrite take_app_length in Hb.
Qed.

(** The rows still to be read fill the two ranges. *)
Definition fills (h : Hunk) (s : Side) (seen : N) (rs : list PatchRow) : Prop :=
  (seen <= side_count h s)%N ∧
  side_numbers s rs = range (side_start h s + seen) (N.to_nat (side_count h s - seen)).

Lemma fills_step h s seen r rs :
  range_wf (side_start h s) (side_count h s) →
  fills h s seen (r :: rs) →
  match row_number r s with
  | Some n => n = (side_start h s + seen)%N ∧ (seen < side_count h s)%N ∧
              (side_start h s + seen <= u32_max)%N ∧ fills h s (seen + 1) rs
  | None => fills h s seen rs
  end.
Proof.
  intros Hrange [Hle H]. unfold side_numbers in H. simpl in H.
  destruct (row_number r s) as [n|]; [|done].
  destruct (N.to_nat (side_count h s - seen)) as [|k] eqn:Ek; [done|].
  rewrite range_cons in H. injection H as -> H. unfold range_wf in Hrange.
  split_and!; try lia. split; [lia|]. etrans; [exact H|]. f_equal; lia.
Qed.

Lemma take_number_row h s seen r rs full line :
  range_wf (side_start h s) (side_count h s) →
  fills h s seen (r :: rs) →
  ∃ seen', take_number (match row_number r s with Some _ => true | None => false end)
             (side_start h s) (side_count h s) seen full line = Ok (row_number r s, seen') ∧
           fills h s seen' rs.
Proof.
  intros Hr Hf%fills_step; [|done]. unfold take_number.
  destruct (row_number r s) as [n|]; [|by eauto].
  destruct Hf as (-> & Hlt & Hmax & Hf).
  rewrite (proj2 (N.leb_gt _ _)) by done. unfold u32_checked_add.
  rewrite (proj2 (N.leb_le _ _)) by done. cbn. by eauto.
Qed.

(** What is left of [parse_hunk] after its loop. *)
Definition finish_rows (x : list PatchRow * list bytes * nat * N)
    : result PatchError (list PatchRow * list bytes * nat * N) :=
  let '(rrows, ls, i, total) := x in
  match ls with
  | l' :: ls' =>
      if bool_decide (l' = NO_NEWLINE)
      then rrows ← mark_last rrows i; Ok (rrows, ls', S i, total)
      else Ok (rrows, ls, i, total)
  | [] => Ok (rrows, ls, i, total)
  end.

Definition no_marker (rest : list bytes) : Prop := head rest ≠ Some NO_NEWLINE.

Lemma finish_rows_no_marker rrows rest i total :
  no_marker rest → finish_rows (rrows, rest, i, total) = Ok (rrows, rest, i, total).
Proof.
  unfold no_marker, finish_rows. destruct rest as [|l rest]; [done|]. intros H.
  by rewrite bool_decide_false by naive_solver.
Qed.

Lemma row_sides r :
  row_wf r →
  bool_decide (row_kind r ≠ RowKind.Added)
    = match old_line r with Some _ => true | None => false end ∧
  bool_decide (row_kind r ≠ RowKind.Removed)
    = match new_line r with Some _ => true | None => false end.
Proof.
  intros [_ Hk]. destruct (row_kind r).
  - destruct Hk as [[x ->] [y ->]]. by split; vm_compute.
  - destruct Hk as [-> [y ->]]. by split; vm_compute.
  - destruct Hk as [[x ->] ->]. by split; vm_compute.
Qed.

Lemma hunk_row_line lim h r rs i old new total :
  (∀ s, range_wf (side_start h s) (side_count h s)) →
  row_wf r → row_printable r →
  fills h Left old (r :: rs) → fills h Right new (r :: rs) →
  (total + 1 <= max_rows lim)%N →
  ∃ old' new', hunk_row lim h (row_line r) i old new total
                 = Ok (unmarked r, old', new', total + 1)%N ∧
               fills h Left old' rs ∧ fills h Right new' rs.
Proof.
  intros Hrange Hw Hp Hl Hr Htot. unfold row_line. cbn [hunk_row].
  assert (row_kind_of (kind_prefix (row_kind r)) i = Ok (row_kind r)) as ->.
  { by destruct (row_kind r). }
  cbn [mbind result_bind].
  destruct (take_number_row h Left old r rs (bs "too many old-side lines") i (Hrange Left) Hl)
    as (o & Ho & Hlo).
  destruct (take_number_row h Right new r rs (bs "too many new-side lines") i (Hrange Right) Hr)
    as (n & Hn & Hrn).
  simpl in Ho, Hn.
  rewrite (proj1 (row_sides r Hw)).
  rewrite Ho. cbn [mbind result_bind].
  rewrite (proj2 (row_sides r Hw)).
  rewrite Hn. cbn [mbind result_bind].
  rewrite row_ending_of_line by done.
  rewrite (proj2 (N.ltb_ge _ _)) by done.
  unfold utf8. rewrite unmarked_text_valid by apply Hw. cbn [mbind result_bind].
  exists o, n. split; [|done]. do 4 f_equal.
  unfold unmarked. destruct r as [? ? t e k]; simpl. destruct e; try done.
  by destruct (row_ending_of t).
Qed.

Lemma row_line_not_marker r : row_line r ≠ NO_NEWLINE.
Proof. unfold row_line. by destruct (row_kind r). Qed.

Lemma fills_more h old new r rs :
  row_wf r → fills h Left old (r :: rs) → fills h Right new (r :: rs) →
  (old <? old_count h)%N || (new <? new_count h)%N = true.
Proof.
  intros [_ Hk] [Hl1 Hl2] [Hr1 Hr2]. apply orb_true_iff. rewrite !N.ltb_lt.
  assert (is_Some (old_line r) ∨ is_Some (new_line r)) as [[x Hx]|[x Hx]].
  { destruct (row_kind r); naive_solver. }
  - left. unfold side_numbers in Hl2. simpl in Hl2. rewrite Hx in Hl2.
    destruct (N.to_nat (old_count h - old)) eqn:E; [done|lia].
  - right. unfold side_numbers in Hr2. simpl in Hr2. rewrite Hx in Hr2.
    destruct (N.to_nat (new_count h - new)) eqn:E; [done|lia].
Qed.

Lemma fills_done h old new :
  fills h Left old [] → fills h Right new [] →
  (old <? old_count h)%N || (new <? new_count h)%N = false.
Proof.
  intros [Hl1 Hl2] [Hr1 Hr2]. simpl in *. apply orb_false_iff. rewrite !N.ltb_ge.
  unfold range in Hl2, Hr2. symmetry in Hl2, Hr2.
  apply fmap_nil_inv, (f_equal length) in Hl2, Hr2. rewrite length_seq in Hl2, Hr2.
  simpl in Hl2, Hr2. lia.
Qed.

Lemma hunk_loop_stop lim h ls i old new total rrows :
  (old <? old_count h)%N || (new <? new_count h)%N = false →
  hunk_loop lim h ls i old new total rrows = Ok (rrows, ls, i, total).
Proof. intros H. destruct ls; cbn [hunk_loop]; by rewrite H. Qed.

Lemma loop_roundtrip lim h todo rest i old new total read :
  (∀ s, range_wf (side_start h s) (side_count h s)) →
  Forall row_wf todo → Forall row_printable todo →
  fills h Left old todo → fills h Right new todo →
  (total + lenN todo <= max_rows lim)%N → no_marker rest →
  hunk_loop lim h (render_rows todo ++ rest) i old new total read ≫= finish_rows
  = Ok (reverse todo ++ read, rest, i + length (render_rows todo), (total + lenN todo)%N).
Proof.
  intros Hrange Hw. revert i old new total read.
  induction Hw as [|r todo Hr Hw IH]; intros i old new total read Hp Hl Hn Htot Hrest.
  { rewrite hunk_loop_stop by by apply fills_done.
    cbn [mbind result_bind render_rows mbind list_bind app].
    rewrite finish_rows_no_marker by done. by ok_tuple. }
  inversion Hp as [|? ? Hpr Hp']; subst.
  unfold lenN in Htot. simpl in Htot.
  destruct (hunk_row_line lim h r todo i old new total) as (old' & new' & Hrow & Hl' & Hn');
    [done..|lia|].
  assert (render_rows (r :: todo) ++ rest
          = row_line r :: marker r ++ render_rows todo ++ rest) as ->.
  { unfold render_rows. cbn [mbind list_bind]. rewrite render_row_split. simpl.
    by rewrite <- app_assoc. }
  cbn [hunk_loop]. rewrite (fills_more h old new r todo) by done.
  rewrite bool_decide_false by apply row_line_not_marker.
  rewrite Hrow. cbn [mbind result_bind].
  assert (length (render_rows (r :: todo)) = S (length (marker r) + length (render_rows todo)))
    as ->.
  { unfold render_rows. cbn [mbind list_bind]. rewrite render_row_split. simpl.
    by rewrite length_app. }
  assert (reverse (r :: todo) ++ read = reverse todo ++ r :: read) as ->.
  { by rewrite reverse_cons, <- app_assoc. }
  assert (total + lenN (r :: todo) = total + 1 + lenN todo)%N as -> by (unfold lenN; simpl; lia).
  destruct (decide (row_ending r = LineEnding.None)) as [He|He].
  - unfold marker. rewrite He. cbn [app length Nat.add].
    destruct todo as [|r' todo].
    + rewrite hunk_loop_stop by by apply fills_done. cbn [mbind result_bind finish_rows].
      rewrite bool_decide_true by done. cbn [render_rows mbind list_bind app mark_last].
      rewrite mark_unmarked by done. cbn. by ok_tuple.
    + inversion Hw; subst. cbn [hunk_loop]. rewrite (fills_more h old' new' r' todo) by done.
      rewrite bool_decide_true by done. cbn [mark_last].
      rewrite mark_unmarked by done. cbn [mbind result_bind].
      etrans; [apply IH; [done..|unfold lenN in *; simpl in *; lia|done]|].
      by ok_tuple.
  - unfold marker. rewrite unmarked_eq by done.
    replace (match row_ending r with LineEnding.None => [NO_NEWLINE] | _ => [] end)
      with ([] : list bytes) by by destruct (row_ending r).
    cbn [app length Nat.add]. etrans; [apply IH; [done..|unfold lenN in *; simpl in *; lia|done]|].
    by ok_tuple.
Qed.

(** ** Hunk headers *)

Lemma dec_not_in c n : is_ascii_digit c = false → c ∉ dec n.
Proof.
  intros Hc Hin. pose proof (dec_digits n) as H. rewrite Forall_forall in H.
  apply H in Hin. congruence.
Qed.

Lemma pair_render a b line :
  range_wf a b → (b <= u32_max)%N → pair (render_range a b) line = Ok (a, b).
Proof.
  intros [Ha Hb] Hbm. unfold pair, render_range.
  change (bs ",") with [u8_of 44]. rewrite (split_once_app (u8_of 44) [] (dec a) (dec b)) by by apply dec_not_in.
  cbn [default from_option id]. unfold parse_u32. rewrite !parse_uint_dec by done. cbn.
  destruct (0 <? b)%N eqn:E; [|done]. to_prop.
  destruct Hb as [->|[Hpos Hmax]]; [lia|].
  rewrite (proj2 (N.eqb_neq _ _)) by lia. unfold u32_checked_add.
  by rewrite (proj2 (N.leb_le _ _)).
Qed.

Lemma dec_ascii n : Forall (λ b, (bN b < 128)%N) (dec n).
Proof.
  eapply Forall_impl; [apply dec_digits|]. intros b H.
  apply between_true in H. lia.
Qed.

Lemma ascii_dec s : forallb (λ b, (bN b <? 128)%N) s = true → Forall (λ b, (bN b < 128)%N) s.
Proof.
  intros H. apply Forall_forall. intros b Hb%list_elem_of_In.
  rewrite forallb_forall in H. by apply N.ltb_lt, H.
Qed.

Lemma render_range_ascii a b : Forall (λ b, (bN b < 128)%N) (render_range a b).
Proof.
  unfold render_range. repeat apply Forall_app_2; try apply dec_ascii.
  by apply ascii_dec.
Qed.

Lemma render_range_not_in c a b :
  is_ascii_digit c = false → c ≠ u8_of 44 → c ∉ render_range a b.
Proof.
  intros Hc Hne. unfold render_range. rewrite !elem_of_app.
  intros [H|[H|H]]; [by apply dec_not_in in H| |by apply dec_not_in in H].
  apply list_elem_of_singleton in H. done.
Qed.

Lemma trim_start_section s :
  utf8_valid s = true → trim_start s = s → trim_start (render_section s) = s.
Proof.
  unfold render_section. destruct s as [|b s]; [done|]. unfold trim_start, chars, utf8_valid.
  intros Hv Ht. rewrite utf8_decode_ascii_cons by (by vm_compute).
  destruct (utf8_decode (b :: s)) as [cs|]; [|done]. simpl in *. done.
Qed.

Lemma hunk_header_render h line :
  hunk_printable h → hunk_header (render_header h) line = Ok (set_rows [] h).
Proof.
  intros [[_ _ Hrange] _ (Hsv & _ & Hst)]. unfold hunk_header, render_header, utf8.
  pose proof (Hrange Left) as Hl. pose proof (Hrange Right) as Hr. simpl in Hl, Hr.
  assert (utf8_valid (render_section (section h)) = true) as Hs.
  { unfold render_section. destruct (section h); [done|].
    change (SPACE :: ?x) with ([SPACE] ++ x). by apply utf8_valid_app. }
  rewrite utf8_valid_app; [|done|].
  2:{ repeat (apply utf8_valid_app; [first [by vm_compute|by apply utf8_valid_ascii, render_range_ascii]|]).
      done. }
  cbn [mbind result_bind]. rewrite strip_prefix_app. cbn [ok_or mbind result_bind].
  change (bs " +") with (SPACE :: bs "+").
  rewrite split_once_app by by apply render_range_not_in.
  cbn [ok_or mbind result_bind]. change (bs " @@") with (SPACE :: bs "@@").
  rewrite split_once_app by by apply render_range_not_in.
  cbn [ok_or mbind result_bind].
  rewrite !pair_render by (try done; unfold range_wf in *; lia).
  cbn [mbind result_bind]. by rewrite trim_start_section.
Qed.

Lemma parse_hunk_finish lim f l ls i total :
  parse_hunk lim f l ls i total =
  h ← hunk_header l i;
  if match last (hunks f) with Some prev => overlaps prev h | None => false end
  then Err (bad (S i) (bs "overlapping/out-of-order hunks"))
  else '(rrows, ls, i, total) ← hunk_loop lim h ls (S i) 0 0 total [] ≫= finish_rows;
       Ok (set_rows (reverse rrows) h, ls, i, total).
Proof.
  unfold parse_hunk. destruct (hunk_header l i) as [h|e]; [|done]. cbn [mbind result_bind].
  case_match; [done|].
  destruct (hunk_loop _ _ _ _ _ _ _ _) as [[[[rr ls2] i2] t2]|e]; [|done].
  cbn [mbind result_bind finish_rows]. destruct ls2 as [|l' ls2]; [done|].
  case_bool_decide; [|done]. by destruct (mark_last rr i2).
Qed.

(** A printed hunk is read back as it was, with the lines that follow it left over. *)
Theorem parse_hunk_render lim f h rest i total :
  hunk_printable h →
  (∀ prev, last (hunks f) = Some prev → overlaps prev h = false) →
  (total + lenN (rows h) <= max_rows lim)%N → no_marker rest →
  parse_hunk lim f (render_header h) (render_rows (rows h) ++ rest) i total
  = Ok (h, rest, S i + length (render_rows (rows h)), (total + lenN (rows h))%N).
Proof.
  intros Hp Hov Htot Hrest. rewrite parse_hunk_finish, hunk_header_render by done.
  cbn [mbind result_bind].
  assert (match last (hunks f) with Some prev => overlaps prev (set_rows [] h) | None => false end
          = false) as ->.
  { destruct (last (hunks f)) as [prev|]; [by apply (Hov prev)|done]. }
  pose proof (hp_wf _ Hp) as [Hw Hn Hr].
  assert (∀ s, fills (set_rows [] h) s 0 (rows h)) as Hfill.
  { intros s. split; [lia|]. rewrite (Hn s). destruct s; simpl; f_equal; lia. }
  rewrite (loop_roundtrip lim (set_rows [] h)); try done.
  - cbn [mbind result_bind]. rewrite app_nil_r, reverse_involutive. by destruct h.
  - apply Hp.
Qed.

(** ** Paths and headers *)

Definition side_quote (side : bytes) (p : RepoPath) : bytes :=
  git_quote (side ++ RepoPath.path_bytes p).

Lemma safe_path_side (c : byte) b :
  c ≠ SLASH → RepoPath.bad_component [c] = false → c ≠ NUL →
  safe_path b → safe_path ([c; SLASH] ++ b).
Proof.
  intros Hc Hbad Hnul (Hne & Hn & _ & Hcs). unfold safe_path. split_and!.
  - done.
  - cbn [app]. rewrite !elem_of_cons. naive_solver.
  - unfold starts_with. cbn [app strip_prefix]. by rewrite bool_decide_false.
  - change ([c; SLASH] ++ b) with ([c] ++ SLASH :: b).
    rewrite split_on_sep by (by rewrite list_elem_of_singleton). by constructor.
Qed.

Lemma parse_path_side_quote c p line :
  (c = u8_of 97 ∨ c = u8_of 98) → safe_path (RepoPath.path_bytes p) →
  parse_path (side_quote [c; SLASH] p) line true = Ok p.
Proof.
  intros Hc Hs. unfold parse_path, side_quote. rewrite from_git_token_quote.
  assert (RepoPath.new ([c; SLASH] ++ RepoPath.path_bytes p)
          = Ok (RepoPath.mkRepoPath ([c; SLASH] ++ RepoPath.path_bytes p))) as ->.
  { apply RepoPath_new_Ok. split; [done|]. apply safe_path_side; try done;
      by destruct Hc as [-> | ->]. }
  cbn [map_err mbind result_bind]. unfold RepoPath.without_side. cbn [RepoPath.path_bytes].
  assert (starts_with (bs "a/") ([c; SLASH] ++ RepoPath.path_bytes p)
          || starts_with (bs "b/") ([c; SLASH] ++ RepoPath.path_bytes p) = true) as ->.
  { by destruct Hc as [-> | ->]. }
  change (drop 2 ([c; SLASH] ++ RepoPath.path_bytes p)) with (RepoPath.path_bytes p).
  assert (RepoPath.new (RepoPath.path_bytes p) = Ok p) as ->; [|done].
  apply RepoPath_new_Ok. by destruct p.
Qed.

Lemma parse_path_quote p line :
  safe_path (RepoPath.path_bytes p) →
  parse_path (git_quote (RepoPath.path_bytes p)) line false = Ok p.
Proof.
  intros Hs. unfold parse_path. rewrite from_git_token_quote.
  assert (RepoPath.new (RepoPath.path_bytes p) = Ok p) as ->; [|done].
  apply RepoPath_new_Ok. by destruct p.
Qed.

Lemma closing_quote_byte b s i :
  closing_quote (quote_byte b ++ s) i false = closing_quote s (length (quote_byte b) + i) false.
Proof. destruct b; reflexivity. Qed.

Lemma closing_quote_quote s rest i :
  closing_quote (concat (quote_byte <$> s) ++ QUOTE :: rest) i false
  = Some (length (concat (quote_byte <$> s)) + i).
Proof.
  revert i. induction s as [|b s IH]; intros i; [done|].
  rewrite fmap_cons. cbn [concat]. rewrite <- app_assoc, closing_quote_byte, IH.
  rewrite length_app. f_equal. lia.
Qed.

Lemma header_paths_quote a b p q line :
  (a = u8_of 97 ∨ a = u8_of 98) → (b = u8_of 97 ∨ b = u8_of 98) →
  safe_path (RepoPath.path_bytes p) → safe_path (RepoPath.path_bytes q) →
  header_paths (side_quote [a; SLASH] p ++ [SPACE] ++ side_quote [b; SLASH] q) line
  = Ok (Some p, Some q).
Proof.
  intros Ha Hb Hp Hq. unfold header_paths.
  set (x := side_quote [a; SLASH] p). set (y := side_quote [b; SLASH] q).
  set (inner := concat (quote_byte <$> ([a; SLASH] ++ RepoPath.path_bytes p))).
  assert (x = [QUOTE] ++ inner ++ [QUOTE]) as Hx by done.
  assert (length x = S (S (length inner))) as Hlen.
  { rewrite Hx, !length_app. simpl. lia. }
  assert (starts_with [QUOTE] (x ++ [SPACE] ++ y) = true) as ->.
  { apply starts_with_true. rewrite Hx. rewrite <- app_assoc. by eexists. }
  assert (closing_quote (drop 1 (x ++ [SPACE] ++ y)) 1 false = Some (S (length inner))) as ->.
  { assert (drop 1 (x ++ [SPACE] ++ y) = inner ++ QUOTE :: [SPACE] ++ y) as ->.
    { rewrite Hx. by rewrite <- !app_assoc. }
    unfold inner. rewrite closing_quote_quote. f_equal. lia. }
  rewrite bool_decide_true.
  2:{ rewrite lookup_app_r by lia. by replace (S (S (length inner)) - length x) with 0 by lia. }
  rewrite take_app_length' by done.
  rewrite (app_assoc x [SPACE] y), (drop_app_length' (x ++ [SPACE]))
    by (rewrite length_app, Hlen; cbn [length]; lia).
  unfold x, y. by rewrite !parse_path_side_quote.
Qed.

Lemma git_quote_clean c s :
  c = LF ∨ c = TAB → c ∉ git_quote s.
Proof.
  intros Hc Hin. unfold git_quote in Hin. rewrite !elem_of_app in Hin.
  assert (∀ b, c ∉ quote_byte b) as Hb.
  { intros b. destruct Hc as [-> | ->]; destruct b;
      apply (bool_decide_unpack _); vm_compute; exact I. }
  destruct Hin as [Hin|[Hin|Hin]].
  - apply list_elem_of_singleton in Hin. destruct Hc; subst; done.
  - apply list_elem_of_In, in_concat in Hin as (w & Hw & Hcw).
    apply list_elem_of_In, list_elem_of_fmap in Hw as (b & -> & _).
    apply list_elem_of_In in Hcw. by apply Hb in Hcw.
  - apply list_elem_of_singleton in Hin. destruct Hc; subst; done.
Qed.

Lemma marker_path_quote c p line :
  (c = u8_of 97 ∨ c = u8_of 98) → safe_path (RepoPath.path_bytes p) →
  marker_path (side_quote [c; SLASH] p) line = Ok (Some p).
Proof.
  intros Hc Hs. unfold marker_path.
  rewrite split_on_single by (apply git_quote_clean; by right).
  cbn [head default from_option id].
  rewrite bool_decide_false by done. by rewrite parse_path_side_quote.
Qed.

(** ** Files *)

Definition A_SIDE : bytes := [u8_of 97; SLASH].
Definition B_SIDE : bytes := [u8_of 98; SLASH].

Definition mode_line (tag : bytes) (m : option bytes) : list bytes :=
  match m with Some m => [tag ++ m] | None => [] end.
Definition path_line (tag : bytes) (p : option RepoPath) : list bytes :=
  match p with Some p => [tag ++ git_quote (RepoPath.path_bytes p)] | None => [] end.
Definition kind_lines (f : FileChange) : list bytes :=
  let modes := mode_line (bs "old mode ") (old_mode f) ++ mode_line (bs "new mode ") (new_mode f) in
  match change_kind f with
  | ChangeKind.Modified => modes
  | ChangeKind.Added => mode_line (bs "new file mode ") (new_mode f)
  | ChangeKind.Deleted => mode_line (bs "deleted file mode ") (old_mode f)
  | ChangeKind.Renamed =>
      modes ++ path_line (bs "rename from ") (old_path f) ++ path_line (bs "rename to ") (new_path f)
  | ChangeKind.Copied =>
      modes ++ path_line (bs "copy from ") (old_path f) ++ path_line (bs "copy to ") (new_path f)
  end.
Definition marker_line (tag side : bytes) (p : option RepoPath) : bytes :=
  tag ++ match p with Some p => side_quote side p | None => DEV_NULL end.
(** The path the [diff --git] line names on a side that has none. *)
Definition git_path (p q : option RepoPath) : RepoPath :=
  match p with Some p => p | None => default (RepoPath.mkRepoPath []) q end.
Definition git_line (f : FileChange) : bytes :=
  DIFF_GIT ++ side_quote A_SIDE (git_path (old_path f) (new_path f)) ++ [SPACE]
  ++ side_quote B_SIDE (git_path (new_path f) (old_path f)).
Definition file_lines (f : FileChange) : list bytes :=
  metadata f ++ kind_lines f
  ++ [marker_line (bs "--- ") A_SIDE (old_path f); marker_line (bs "+++ ") B_SIDE (new_path f)]
  ++ (hunks f ≫= render_hunk).
Definition render_file (f : FileChange) : list bytes := git_line f :: file_lines f.
Definition render_report (rep : PatchReport) : list bytes := files rep ≫= render_file.

(** Header lines the parser keeps as they are: it gives no other meaning to them. *)
Definition special_prefixes : list bytes :=
  [DIFF_GIT; bs "@@ "; bs "--- "; bs "+++ "; bs "rename from "; bs "rename to "; bs "copy from ";
   bs "copy to "; bs "new file mode "; bs "deleted file mode "; bs "old mode "; bs "new mode ";
   bs "Binary files "; bs "index "; bs "diff --cc "; bs "diff --combined "; bs "@@@ "].
Definition plain_header (l : bytes) : Prop :=
  l ≠ [] ∧ l ≠ bs "GIT binary patch" ∧ utf8_valid l = true ∧ LF ∉ l ∧
  Forall (λ p, starts_with p l = false) special_prefixes.

Definition mode_printable (m : option bytes) : Prop :=
  match m with
  | Some m => utf8_valid m = true ∧ LF ∉ m ∧ m ≠ SUBMODULE_MODE
  | None => True
  end.
Definition path_safe (p : option RepoPath) : Prop :=
  match p with Some p => safe_path (RepoPath.path_bytes p) | None => True end.

Record file_printable `{Sha256} (f : FileChange) : Prop := {
  fp_hunks : Forall hunk_printable (hunks f);
  fp_order i h1 h2 : hunks f !! i = Some h1 → hunks f !! S i = Some h2 → overlaps h1 h2 = false;
  fp_metadata : Forall plain_header (metadata f);
  fp_content : content_kind f = ContentKind.Text ∧ old_oid f = None ∧ new_oid f = None;
  fp_modes : mode_printable (old_mode f) ∧ mode_printable (new_mode f);
  fp_safe : path_safe (old_path f) ∧ path_safe (new_path f);
  fp_kind : match change_kind f with
            | ChangeKind.Added => old_path f = None ∧ is_Some (new_path f) ∧
                                  old_mode f = None ∧ is_Some (new_mode f)
            | ChangeKind.Deleted => is_Some (old_path f) ∧ new_path f = None ∧
                                    is_Some (old_mode f) ∧ new_mode f = None
            | _ => is_Some (old_path f) ∧ is_Some (new_path f)
            end;
  fp_id : file_id f =
    digest [bs "file-v1"; path_or_empty (old_path f); path_or_empty (new_path f)]
}.

(** *** One header line at a time *)

Definition plain_line (l : bytes) : Prop :=
  starts_with DIFF_GIT l = false ∧ starts_with (bs "@@ ") l = false.

Lemma file_loop_header fuel lim f l ls i total f' :
  hunks f = [] → plain_line l → header_line f l i = Ok f' →
  file_loop (S fuel) lim f (l :: ls) i total = file_loop fuel lim f' ls (S i) total.
Proof.
  intros Hh [H1 H2] H3. cbn [file_loop]. rewrite H1, H2, Hh.
  rewrite bool_decide_true by done. cbn [negb]. by rewrite H3.
Qed.

Lemma starts_with_false p l : starts_with p l = false → strip_prefix p l = None.
Proof. unfold starts_with. by destruct (strip_prefix p l). Qed.

Lemma header_line_plain f l i : plain_header l → header_line f l i = Ok (push_metadata l f).
Proof.
  intros (Hne & Hgit & Hu & _ & Hp). rewrite Forall_forall in Hp. unfold header_line.
  rewrite !starts_with_false by (apply Hp; apply (bool_decide_unpack _); vm_compute; exact I).
  rewrite Hp by (apply (bool_decide_unpack _); vm_compute; exact I).
  rewrite (bool_decide_false (l = bs "GIT binary patch")) by done.
  rewrite (bool_decide_false (l = [])) by done. unfold utf8. by rewrite Hu.
Qed.

Lemma plain_header_line l : plain_header l → plain_line l.
Proof.
  intros (_ & _ & _ & _ & Hp). rewrite Forall_forall in Hp.
  split; apply Hp; apply (bool_decide_unpack _); vm_compute; exact I.
Qed.

Definition with_metadata (ms : list bytes) (f : FileChange) : FileChange :=
  mkFileChange (file_id f) (old_path f) (new_path f) (change_kind f) (content_kind f)
    (old_mode f) (new_mode f) (old_oid f) (new_oid f) (hunks f) (metadata f ++ ms).

Lemma file_loop_metadata fuel lim f ms ls i total :
  hunks f = [] → Forall plain_header ms →
  file_loop (length ms + fuel) lim f (ms ++ ls) i total
  = file_loop fuel lim (with_metadata ms f) ls (i + length ms) total.
Proof.
  intros Hh Hms. revert f i Hh. induction Hms as [|m ms Hm _ IH]; intros f i Hh.
  { simpl. rewrite Nat.add_0_r. f_equal. destruct f. unfold with_metadata. simpl.
    by rewrite app_nil_r. }
  cbn [length Nat.add app].
  rewrite (file_loop_header _ _ _ _ _ _ _ (push_metadata m f)); [|done| |].
  2:{ by apply plain_header_line. }
  2:{ by apply header_line_plain. }
  rewrite IH by done. rewrite Nat.add_succ_r. f_equal.
  unfold with_metadata. simpl. by rewrite <- app_assoc.
Qed.

(** *** All the header lines of a file *)

Fixpoint header_lines (f : FileChange) (ls : list bytes) (i : nat)
    : result PatchError FileChange :=
  match ls with
  | [] => Ok f
  | l :: ls => f ← header_line f l i; header_lines f ls (S i)
  end.

Lemma header_lines_app f ls1 ls2 i :
  header_lines f (ls1 ++ ls2) i
  = f' ← header_lines f ls1 i; header_lines f' ls2 (i + length ls1).
Proof.
  revert f i. induction ls1 as [|l ls1 IH]; intros f i.
  { cbn. by rewrite Nat.add_0_r. }
  cbn [app header_lines length]. destruct (header_line f l i); [|done].
  cbn [mbind result_bind]. rewrite IH. by rewrite Nat.add_succ_comm.
Qed.

Lemma file_loop_headers fuel lim f ls rest i total f' :
  hunks f = [] → Forall plain_line ls → header_lines f ls i = Ok f' →
  file_loop (length ls + fuel) lim f (ls ++ rest) i total
  = file_loop fuel lim f' rest (i + length ls) total.
Proof.
  intros Hh Hls. revert f i Hh. induction Hls as [|l ls Hl _ IH]; intros f i Hh H.
  { cbn in H. injection H as ->. by rewrite Nat.add_0_r. }
  cbn [header_lines] in H. destruct (header_line f l i) as [g|e] eqn:E; [|done].
  cbn [mbind result_bind] in H. cbn [length Nat.add app].
  rewrite (file_loop_header _ _ _ _ _ _ _ g) by done.
  rewrite IH; [by rewrite Nat.add_succ_comm| |done].
  by rewrite (header_line_hunks _ _ _ _ E).
Qed.

Lemma header_lines_plain f ms i :
  Forall plain_header ms → header_lines f ms i = Ok (with_metadata ms f).
Proof.
  intros Hms. revert f i. induction Hms as [|m ms Hm _ IH]; intros f i.
  { cbn. f_equal. destruct f. unfold with_metadata. cbn. by rewrite app_nil_r. }
  cbn [header_lines]. rewrite header_line_plain by done. cbn [mbind result_bind].
  rewrite IH. f_equal. unfold with_metadata. cbn. by rewrite <- app_assoc.
Qed.

Lemma utf8_mode m i : mode_printable (Some m) → utf8 m i = Ok m.
Proof. intros (Hm & _). unfold utf8. by rewrite Hm. Qed.

Lemma old_mode_header f m i :
  mode_printable (Some m) → header_line f (bs "old mode " ++ m) i = Ok (set_old_mode (Some m) f).
Proof.
  intros Hm. transitivity (x ← utf8 m i; Ok (set_old_mode (Some x) f)); [done|].
  by rewrite utf8_mode.
Qed.
Lemma new_mode_header f m i :
  mode_printable (Some m) → header_line f (bs "new mode " ++ m) i = Ok (set_new_mode (Some m) f).
Proof.
  intros Hm. transitivity (x ← utf8 m i; Ok (set_new_mode (Some x) f)); [done|].
  by rewrite utf8_mode.
Qed.
Lemma new_file_header f m i :
  mode_printable (Some m) →
  header_line f (bs "new file mode " ++ m) i
  = Ok (set_old_path None (set_kind ChangeKind.Added (set_new_mode (Some m) f))).
Proof.
  intros Hm. transitivity (x ← utf8 m i;
    Ok (set_old_path None (set_kind ChangeKind.Added (set_new_mode (Some x) f)))); [done|].
  by rewrite utf8_mode.
Qed.
Lemma deleted_file_header f m i :
  mode_printable (Some m) →
  header_line f (bs "deleted file mode " ++ m) i
  = Ok (set_new_path None (set_kind ChangeKind.Deleted (set_old_mode (Some m) f))).
Proof.
  intros Hm. transitivity (x ← utf8 m i;
    Ok (set_new_path None (set_kind ChangeKind.Deleted (set_old_mode (Some x) f)))); [done|].
  by rewrite utf8_mode.
Qed.
Lemma from_header f k p i :
  safe_path (RepoPath.path_bytes p) → k = ChangeKind.Renamed ∨ k = ChangeKind.Copied →
  header_line f ((if decide (k = ChangeKind.Renamed) then bs "rename from " else bs "copy from ")
                 ++ git_quote (RepoPath.path_bytes p)) i
  = Ok (set_kind k (set_old_path (Some p) f)).
Proof.
  intros Hp Hk.
  transitivity (x ← parse_path (git_quote (RepoPath.path_bytes p)) i false;
    Ok (set_kind k (set_old_path (Some x) f))); [by destruct Hk as [-> | ->]|].
  by rewrite parse_path_quote.
Qed.
Lemma to_header f k p i :
  safe_path (RepoPath.path_bytes p) → k = ChangeKind.Renamed ∨ k = ChangeKind.Copied →
  header_line f ((if decide (k = ChangeKind.Renamed) then bs "rename to " else bs "copy to ")
                 ++ git_quote (RepoPath.path_bytes p)) i
  = Ok (set_kind k (set_new_path (Some p) f)).
Proof.
  intros Hp Hk.
  transitivity (x ← parse_path (git_quote (RepoPath.path_bytes p)) i false;
    Ok (set_kind k (set_new_path (Some x) f))); [by destruct Hk as [-> | ->]|].
  by rewrite parse_path_quote.
Qed.

Lemma marker_value c p i :
  (c = u8_of 97 ∨ c = u8_of 98) → path_safe p →
  marker_path (match p with Some p => side_quote [c; SLASH] p | None => DEV_NULL end) i = Ok p.
Proof.
  intros Hc Hp. destruct p as [p|]; [by apply marker_path_quote|].
  by vm_compute.
Qed.
Lemma old_marker_header f p i :
  path_safe p → header_line f (marker_line (bs "--- ") A_SIDE p) i = Ok (set_old_path p f).
Proof.
  intros Hp.
  transitivity (x ← marker_path (match p with Some p => side_quote A_SIDE p | None => DEV_NULL end) i;
    Ok (set_old_path x f)); [done|].
  unfold A_SIDE. rewrite marker_value by tauto. done.
Qed.
Lemma new_marker_header f p i :
  path_safe p → header_line f (marker_line (bs "+++ ") B_SIDE p) i = Ok (set_new_path p f).
Proof.
  intros Hp.
  transitivity (x ← marker_path (match p with Some p => side_quote B_SIDE p | None => DEV_NULL end) i;
    Ok (set_new_path x f)); [done|].
  unfold B_SIDE. rewrite marker_value by tauto. done.
Qed.

Lemma mode_lines_header f m n i :
  old_mode f = None → new_mode f = None → mode_printable m → mode_printable n →
  header_lines f (mode_line (bs "old mode ") m ++ mode_line (bs "new mode ") n) i
  = Ok (set_new_mode n (set_old_mode m f)).
Proof.
  intros Hm Hn Hpm Hpn. destruct m as [m|], n as [n|]; cbn [mode_line app header_lines];
    rewrite ?old_mode_header by done; cbn [mbind result_bind];
    rewrite ?new_mode_header by done; cbn [mbind result_bind];
    destruct f; cbn in *; by subst.
Qed.

(** The file as it is when its header has been read: without identity and hunks. *)
Definition bare (f : FileChange) : FileChange :=
  mkFileChange [] (old_path f) (new_path f) (change_kind f) ContentKind.Text (old_mode f)
    (new_mode f) None None [] (metadata f).

Lemma kind_lines_header `{Sha256} f i :
  file_printable f →
  header_lines (with_metadata (metadata f)
                  (new_file (Some (git_path (old_path f) (new_path f)))
                            (Some (git_path (new_path f) (old_path f)))))
    (kind_lines f ++ [marker_line (bs "--- ") A_SIDE (old_path f);
                      marker_line (bs "+++ ") B_SIDE (new_path f)]) i
  = Ok (bare f).
Proof.
  intros [_ _ _ _ [Hmo Hmn] [Hpo Hpn] Hk _]. rewrite header_lines_app.
  unfold kind_lines, bare. cbv zeta. destruct (change_kind f).
  - destruct Hk as (Ho & [p Hp] & Hom & [m Hm]). rewrite Ho, Hp, Hom, Hm in *.
    cbn [mode_line header_lines]. rewrite new_file_header by done. cbn [mbind result_bind].
    rewrite old_marker_header by done. cbn [mbind result_bind].
    by rewrite new_marker_header by done.
  - destruct Hk as ([p Hp] & Hn & [m Hm] & Hnm). rewrite Hp, Hn, Hm, Hnm in *.
    cbn [mode_line header_lines]. rewrite deleted_file_header by done. cbn [mbind result_bind].
    rewrite old_marker_header by done. cbn [mbind result_bind].
    by rewrite new_marker_header by done.
  - destruct Hk as ([p Hp] & [q Hq]). rewrite Hp, Hq in *.
    rewrite mode_lines_header by done. cbn [mbind result_bind header_lines].
    rewrite old_marker_header by done. cbn [mbind result_bind].
    by rewrite new_marker_header by done.
  - destruct Hk as ([p Hp] & [q Hq]). rewrite Hp, Hq in *.
    rewrite header_lines_app, mode_lines_header by done.
    cbn [mbind result_bind header_lines path_line app].
    rewrite (from_header _ ChangeKind.Renamed) by (done || by left). cbn [mbind result_bind].
    rewrite (to_header _ ChangeKind.Renamed) by (done || by left). cbn [mbind result_bind].
    rewrite old_marker_header by done. cbn [mbind result_bind].
    by rewrite new_marker_header by done.
  - destruct Hk as ([p Hp] & [q Hq]). rewrite Hp, Hq in *.
    rewrite header_lines_app, mode_lines_header by done.
    cbn [mbind result_bind header_lines path_line app].
    rewrite (from_header _ ChangeKind.Copied) by (done || by right). cbn [mbind result_bind].
    rewrite (to_header _ ChangeKind.Copied) by (done || by right). cbn [mbind result_bind].
    rewrite old_marker_header by done. cbn [mbind result_bind].
    by rewrite new_marker_header by done.
Qed.

Lemma kind_lines_plain f : Forall plain_line (kind_lines f).
Proof.
  unfold kind_lines, mode_line, path_line.
  destruct (change_kind f), (old_mode f), (new_mode f), (old_path f), (new_path f);
    repeat constructor.
Qed.

Lemma file_loop_file_header `{Sha256} fuel lim f rest i total :
  file_printable f →
  let hdr := metadata f ++ kind_lines f
               ++ [marker_line (bs "--- ") A_SIDE (old_path f);
                   marker_line (bs "+++ ") B_SIDE (new_path f)] in
  file_loop (length hdr + fuel) lim
    (new_file (Some (git_path (old_path f) (new_path f)))
              (Some (git_path (new_path f) (old_path f))))
    (hdr ++ rest) i total
  = file_loop fuel lim (bare f) rest (i + length hdr) total.
Proof.
  intros Hf hdr. apply file_loop_headers; [done| |].
  - unfold hdr. repeat apply Forall_app_2.
    + eapply Forall_impl; [apply Hf|]. by apply plain_header_line.
    + apply kind_lines_plain.
    + repeat constructor.
  - unfold hdr. rewrite header_lines_app, header_lines_plain by apply Hf.
    cbn [mbind result_bind]. by apply kind_lines_header.
Qed.

(** *** The hunks of a file *)

Definition set_hunks (hs : list Hunk) (f : FileChange) : FileChange :=
  mkFileChange (file_id f) (old_path f) (new_path f) (change_kind f) (content_kind f)
    (old_mode f) (new_mode f) (old_oid f) (new_oid f) hs (metadata f).

Lemma render_hunk_no_marker hs rest :
  no_marker rest → no_marker ((hs ≫= render_hunk) ++ rest).
Proof. by destruct hs. Qed.

Lemma file_loop_hunks fuel lim f hs rest i total :
  Forall hunk_printable hs →
  (∀ j h1 h2, (hunks f ++ hs) !! j = Some h1 → (hunks f ++ hs) !! S j = Some h2 →
              overlaps h1 h2 = false) →
  (total + lenN (rows_of hs) <= max_rows lim)%N → no_marker rest →
  file_loop (length hs + fuel) lim f ((hs ≫= render_hunk) ++ rest) i total
  = file_loop fuel lim (set_hunks (hunks f ++ hs) f) rest
      (i + length (hs ≫= render_hunk)) (total + lenN (rows_of hs)).
Proof.
  intros Hhs. revert f i total. induction Hhs as [|h hs Hh _ IH]; intros f i total Hov Htot Hr.
  { cbn. rewrite app_nil_r, Nat.add_0_r, N.add_0_r. f_equal. by destruct f. }
  assert (lenN (rows_of (h :: hs)) = lenN (rows h) + lenN (rows_of hs))%N as Hlen.
  { unfold rows_of, lenN. cbn [mbind list_bind]. rewrite length_app. lia. }
  rewrite Hlen in *.
  assert (((h :: hs) ≫= render_hunk) ++ rest
          = render_header h :: render_rows (rows h) ++ (hs ≫= render_hunk) ++ rest) as ->.
  { cbn [mbind list_bind]. unfold render_hunk at 1. by rewrite <- app_assoc. }
  assert (length ((h :: hs) ≫= render_hunk)
          = S (length (render_rows (rows h)) + length (hs ≫= render_hunk))) as ->.
  { cbn [mbind list_bind]. unfold render_hunk at 1. rewrite length_app. done. }
  cbn [length Nat.add file_loop].
  assert (starts_with DIFF_GIT (render_header h) = false) as -> by done.
  assert (starts_with (bs "@@ ") (render_header h) = true) as -> by done.
  rewrite parse_hunk_render; [|done| |lia|by apply render_hunk_no_marker].
  2:{ intros prev Hprev. apply (Hov (length (hunks f) - 1)).
      - rewrite last_lookup in Hprev. rewrite lookup_app_l.
        + replace (length (hunks f) - 1) with (pred (length (hunks f))) by lia. done.
        + apply lookup_lt_Some in Hprev. lia.
      - assert (0 < length (hunks f)).
        { rewrite last_lookup in Hprev. apply lookup_lt_Some in Hprev. lia. }
        rewrite lookup_app_r by lia.
        by replace (S (length (hunks f) - 1) - length (hunks f)) with 0 by lia. }
  assert (hunks f ++ h :: hs = hunks (push_hunk h f) ++ hs) as Happ.
  { cbn. by rewrite <- app_assoc. }
  rewrite Happ in *.
  etrans; [apply IH; [done|lia|done]|].
  f_equal; [lia|lia].
Qed.

(** *** Reports *)

Lemma bare_finished `{Sha256} f i :
  file_printable f → finish_file (set_hunks (hunks f) (bare f)) i = Ok f.
Proof.
  intros [_ _ _ (Hc & Ho & Hn) [Hmo Hmn] _ Hk Hid]. unfold finish_file.
  assert (∀ m, mode_printable m → is_submodule m = false) as Hm.
  { intros [m|] Hm; unfold is_submodule; apply bool_decide_false; [|done].
    destruct Hm as (_ & _ & Hm). intros [= ->]. done. }
  destruct f as [id op np k c om nm oo no hs md]. cbn in *. subst c oo no id.
  rewrite !Hm by done. cbn [orb].
  destruct op as [op|], np as [np|], k; cbn in *; try done;
    repeat match goal with
    | H : is_Some None |- _ => destruct H; done
    | H : _ ∧ _ |- _ => destruct H
    | H : Some _ = None |- _ => done
    end; done.
Qed.

Lemma git_line_paths `{Sha256} f i :
  file_printable f →
  header_paths (drop 11 (git_line f)) i
  = Ok (Some (git_path (old_path f) (new_path f)), Some (git_path (new_path f) (old_path f))).
Proof.
  intros [_ _ _ _ _ [Hpo Hpn] Hk _].
  assert (safe_path (RepoPath.path_bytes (git_path (old_path f) (new_path f)))
          ∧ safe_path (RepoPath.path_bytes (git_path (new_path f) (old_path f)))) as [H1 H2].
  { destruct (old_path f) as [p|], (new_path f) as [q|]; try done.
    destruct (change_kind f); naive_solver. }
  unfold git_line. rewrite drop_app_length' by done.
  apply header_paths_quote; try done; [by left|by right].
Qed.

Definition next_file (rest : list bytes) : Prop :=
  match rest with [] => True | l :: _ => starts_with DIFF_GIT l = true end.

Lemma file_loop_end fuel lim f rest i total :
  next_file rest → file_loop (S fuel) lim f rest i total = Some (Ok (f, rest, i, total)).
Proof. destruct rest as [|l rest]; [done|]. cbn. by intros ->. Qed.

Lemma next_file_no_marker rest : next_file rest → no_marker rest.
Proof.
  destruct rest as [|l rest]; [done|]. intros H [= ->]. by vm_compute in H.
Qed.

Lemma git_line_starts f : starts_with DIFF_GIT (git_line f) = true.
Proof. apply starts_with_true. by eexists. Qed.

Lemma render_next_file fs : next_file (fs ≫= render_file).
Proof. destruct fs as [|f fs]; [done|]. apply git_line_starts. Qed.

Lemma render_hunks_length hs : length hs <= length (hs ≫= render_hunk).
Proof.
  induction hs as [|h hs IH]; [done|]. rewrite bind_cons, length_app.
  cbn [length render_hunk]. lia.
Qed.

Lemma file_loop_render `{Sha256} fuel lim f rest i total :
  file_printable f → next_file rest → length (file_lines f) < fuel →
  (total + lenN (all_rows f) <= max_rows lim)%N →
  file_loop fuel lim
    (new_file (Some (git_path (old_path f) (new_path f)))
              (Some (git_path (new_path f) (old_path f))))
    (file_lines f ++ rest) i total
  = Some (Ok (set_hunks (hunks f) (bare f), rest, i + length (file_lines f),
              (total + lenN (all_rows f))%N)).
Proof.
  intros Hf Hr Hfuel Htot. unfold file_lines in *.
  assert (∀ tl, metadata f ++ kind_lines f
     ++ [marker_line (bs "--- ") A_SIDE (old_path f); marker_line (bs "+++ ") B_SIDE (new_path f)]
     ++ tl = (metadata f ++ kind_lines f
     ++ [marker_line (bs "--- ") A_SIDE (old_path f); marker_line (bs "+++ ") B_SIDE (new_path f)])
     ++ tl) as Ha by (intros; by rewrite <- !app_assoc).
  rewrite Ha in *. set (hdr := metadata f ++ _) in *.
  pose proof (render_hunks_length (hunks f)) as Hle.
  rewrite length_app in Hfuel.
  assert (∃ k, fuel = length hdr + (length (hunks f) + S k)) as [k ->].
  { exists (fuel - length hdr - length (hunks f) - 1). lia. }
  rewrite <- (app_assoc hdr).
  etrans; [by apply file_loop_file_header|].
  etrans; [apply file_loop_hunks|].
  - apply Hf.
  - apply Hf.
  - done.
  - by apply next_file_no_marker.
  - cbn [bare hunks app]. rewrite file_loop_end by done.
    by rewrite (length_app hdr), (Nat.add_assoc i (length hdr)).
Qed.

Definition all_report_rows (fs : list FileChange) : list PatchRow := fs ≫= all_rows.

Lemma files_loop_render `{Sha256} fuel lim fs done_ seen i total :
  Forall file_printable fs →
  length (fs ≫= render_file) < fuel →
  (lenN (done_ ++ fs) <= max_files lim)%N →
  (total + lenN (all_report_rows fs) <= max_rows lim)%N →
  NoDup (file_id <$> fs) → (∀ f, f ∈ fs → file_id f ∉ seen) →
  files_loop fuel lim (fs ≫= render_file) i done_ total seen = Some (Ok (done_ ++ fs)).
Proof.
  intros Hfs. revert fuel done_ seen i total.
  induction Hfs as [|f fs Hf Hfs IH]; intros fuel dn seen i total Hfuel Hmax Htot Hnd Hseen.
  { destruct fuel; [lia|]. cbn. by rewrite app_nil_r. }
  destruct fuel as [|fuel]; [lia|].
  cbn [mbind list_bind render_file app length files_loop] in *. rewrite length_app in Hfuel.
  rewrite git_line_starts. cbn [negb].
  unfold lenN in Hmax. rewrite length_app in Hmax. cbn [length] in Hmax.
  rewrite (proj2 (N.leb_gt _ _)) by (unfold lenN; lia).
  rewrite git_line_paths by done.
  assert (lenN (all_report_rows (f :: fs)) = lenN (all_rows f) + lenN (all_report_rows fs))%N
    as Hrows.
  { unfold all_report_rows, lenN. cbn [mbind list_bind]. rewrite length_app. lia. }
  rewrite file_loop_render; [|done|apply render_next_file|lia|lia].
  rewrite bare_finished by done.
  rewrite bool_decide_false by (apply Hseen; by left).
  rewrite fmap_cons in Hnd. apply NoDup_cons in Hnd as [Hnin Hnd].
  rewrite IH.
  - by rewrite <- app_assoc.
  - lia.
  - unfold lenN. rewrite !length_app. cbn [length]. lia.
  - lia.
  - done.
  - intros g Hg. rewrite not_elem_of_union, not_elem_of_singleton. split.
    + intros Heq. apply Hnin. rewrite <- Heq. by apply list_elem_of_fmap_2.
    + apply Hseen. by right.
Qed.

(** *** The lines of a printed report *)

Definition clean_line (l : bytes) : Prop := LF ∉ l ∧ combined l = false.

Lemma not_in_app (c : byte) (a b : bytes) : c ∉ a → c ∉ b → c ∉ a ++ b.
Proof. rewrite elem_of_app. tauto. Qed.
Lemma not_in_dec (c : byte) (s : bytes) : bool_decide (c ∈ s) = false → c ∉ s.
Proof. by intros ?%bool_decide_eq_false. Qed.
(** Splits [LF ∉ a ++ b ++ …] into its parts and closes those that cannot hold a LF. *)
Ltac no_lf :=
  repeat first
    [ assumption
    | apply not_in_dec; reflexivity
    | apply git_quote_clean; left; reflexivity
    | apply render_range_not_in; [reflexivity|done]
    | apply not_in_app ].

Lemma mode_line_clean tag m :
  clean_line tag → (∀ x, combined (tag ++ x) = false) → mode_printable m →
  Forall clean_line (mode_line tag m).
Proof.
  intros [Ht _] Hc Hm. destruct m as [m|]; constructor; [|constructor].
  split; [|done]. apply not_in_app; [done|]. apply Hm.
Qed.

Lemma path_line_clean tag p :
  clean_line tag → (∀ x, combined (tag ++ x) = false) → Forall clean_line (path_line tag p).
Proof.
  intros [Ht _] Hc. destruct p as [p|]; constructor; [|constructor].
  split; [|done]. apply not_in_app; [done|]. apply git_quote_clean. by left.
Qed.

Ltac clean_tag := split; [apply not_in_dec; reflexivity|reflexivity].

Lemma kind_lines_clean `{Sha256} f : file_printable f → Forall clean_line (kind_lines f).
Proof.
  intros [_ _ _ _ [Hmo Hmn] _ _ _]. unfold kind_lines.
  destruct (change_kind f); repeat apply Forall_app_2;
    first [apply mode_line_clean; [clean_tag|done|done] | apply path_line_clean; [clean_tag|done]].
Qed.

Lemma marker_line_clean tag side p :
  clean_line tag → (∀ x, combined (tag ++ x) = false) → clean_line (marker_line tag side p).
Proof.
  intros [Ht _] Hc. split; [|apply Hc]. unfold marker_line. apply not_in_app; [done|].
  destruct p; [apply git_quote_clean; by left|by apply not_in_dec].
Qed.

Lemma git_line_clean f : clean_line (git_line f).
Proof.
  split; [|done]. unfold git_line, side_quote. no_lf.
Qed.

Lemma render_header_clean h : hunk_printable h → clean_line (render_header h).
Proof.
  intros [_ _ (_ & Hs & _)]. split; [|done]. unfold render_header.
  assert (LF ∉ render_section (section h)).
  { unfold render_section. destruct (section h); [by apply not_in_dec|].
    apply (not_in_app _ [SPACE]); [by apply not_in_dec|done]. }
  no_lf.
Qed.

Lemma render_row_clean r : row_printable r → Forall clean_line (render_row r).
Proof.
  intros [Hlf _]. rewrite render_row_split. constructor.
  - unfold row_line. split; [|by destruct (row_kind r)].
    apply (not_in_app _ [_]); [destruct (row_kind r); by apply not_in_dec|].
    apply not_in_app; [done|]. destruct (row_ending r); by apply not_in_dec.
  - unfold marker. destruct (row_ending r); constructor; [clean_tag|constructor].
Qed.

Lemma render_file_clean `{Sha256} f : file_printable f → Forall clean_line (render_file f).
Proof.
  intros Hf. pose proof Hf as [Hh _ Hm _ _ _ _ _]. unfold render_file, file_lines.
  constructor; [apply git_line_clean|]. repeat apply Forall_app_2.
  - eapply Forall_impl; [exact Hm|]. intros l (_ & _ & _ & Hlf & Hp). split; [done|].
    rewrite Forall_forall in Hp. unfold combined.
    by rewrite !Hp by (apply (bool_decide_unpack _); vm_compute; exact I).
  - by apply kind_lines_clean.
  - repeat constructor; apply marker_line_clean; try done; clean_tag.
  - apply Forall_bind. eapply Forall_impl; [exact Hh|]. intros h Hp. constructor.
    + by apply render_header_clean.
    + apply Forall_bind. eapply Forall_impl; [apply (hp_rows _ Hp)|]. apply render_row_clean.
Qed.

Lemma check_lines_clean lim ls i :
  Forall clean_line ls → Forall (λ l, lenN l <= max_line_bytes lim)%N ls →
  check_lines lim ls i = None.
Proof.
  intros Hc Hl. revert i. induction Hl as [|l ls Hl _ IH]; intros i; [done|].
  inversion Hc as [|? ? [_ Hcl] Hc']; subst. cbn [check_lines].
  rewrite (proj2 (N.ltb_ge _ _)) by done. rewrite Hcl. by apply IH.
Qed.

Lemma patch_lines_unlines ls : Forall clean_line ls → patch_lines (unlines ls) = ls.
Proof.
  intros Hc. unfold patch_lines, unlines. rewrite split_on_lines.
  2:{ eapply Forall_impl; [exact Hc|]. by intros ? []. }
  rewrite bool_decide_true by by rewrite last_snoc.
  rewrite length_app. cbn [length]. rewrite take_app_length' by lia. done.
Qed.

(** A report the printer can write and the parser can accept under [lim]. *)
Record printable_report `{Sha256} (lim : ParseLimits) (rep : PatchReport) : Prop := {
  pr_files : Forall file_printable (files rep);
  pr_ids : NoDup (file_id <$> files rep);
  pr_count : (lenN (files rep) <= max_files lim)%N;
  pr_rows : (lenN (all_report_rows (files rep)) <= max_rows lim)%N;
  pr_lines : Forall (λ l, lenN l <= max_line_bytes lim)%N (render_report rep);
  pr_bytes : (lenN (unlines (render_report rep)) <= max_bytes lim)%N
}.

(** C19: printing and parsing are inverse. A report of printable files (text changes of
    every kind, with any safe paths, modes, header lines, ordered hunks, sections and
    rows with each of the three line endings) that is printed as a Git patch within
    the limits is parsed to exactly that report. *)
Theorem parse_patch_render `{Sha256} lim rep :
  printable_report lim rep →
  parse_patch (unlines (render_report rep)) lim = Some (Ok rep).
Proof.
  intros [Hf Hid Hc Hr Hl Hb]. unfold parse_patch.
  rewrite (proj2 (N.ltb_ge _ _)) by done.
  assert (Forall clean_line (render_report rep)) as Hclean.
  { apply Forall_bind. eapply Forall_impl; [exact Hf|]. apply render_file_clean. }
  cbv zeta. rewrite patch_lines_unlines, check_lines_clean by done.
  unfold render_report at 2. rewrite files_loop_render;
    [|done|unfold render_report; lia|done|lia|done|set_solver].
  cbn [app]. destruct rep as [fs]. cbn [files] in *.
  destruct fs; [done|]. rewrite bool_decide_false by done. done.
Qed.

(** ** Move labels *)

Lemma common_take a b : take (common a b) a = take (common a b) b.
Proof.
  revert b. induction a as [|x a IH]; intros [|y b]; cbn; try done.
  case_bool_decide as Hxy; [|done]. subst. cbn. by rewrite IH.
Qed.
Lemma common_le a b : common a b <= length a ∧ common a b <= length b.
Proof.
  revert b. induction a as [|x a IH]; intros [|y b]; cbn; try lia.
  case_bool_decide; cbn; [|lia]. specialize (IH b). lia.
Qed.

Lemma slash_position_Some s i :
  slash_position s = Some i → s !! i = Some SLASH ∧ i < length s ∧ SLASH ∉ take i s.
Proof.
  revert i. induction s as [|c s IH]; intros i; [done|]. cbn [slash_position].
  case_bool_decide as Hc.
  - intros [= <-]. subst. split_and!; [done|cbn; lia|apply not_elem_of_nil].
  - destruct (slash_position s) as [j|]; [|done]. intros [= <-].
    destruct (IH j eq_refl) as (H1 & H2 & H3). split_and!; [done|cbn; lia|].
    cbn. rewrite elem_of_cons. naive_solver.
Qed.
Lemma slash_position_None s : slash_position s = None → SLASH ∉ s.
Proof.
  induction s as [|c s IH]; cbn [slash_position]; [intros _; apply not_elem_of_nil|].
  case_bool_decide; [done|]. destruct (slash_position s); [done|].
  intros _. rewrite elem_of_cons. naive_solver.
Qed.
Lemma slash_rposition_Some s i :
  slash_rposition s = Some i → i < length s ∧ s !! i = Some SLASH ∧ SLASH ∉ drop (S i) s.
Proof.
  unfold slash_rposition. destruct (slash_position (reverse s)) as [j|] eqn:E; [|done].
  apply slash_position_Some in E as (Hj & Hlt & Hn). rewrite length_reverse in Hlt.
  intros [= <-]. rewrite reverse_lookup in Hj by done.
  split_and!; [lia|by replace (length s - 1 - j) with (length s - S j) by lia|].
  rewrite take_reverse, elem_of_reverse in Hn.
  by replace (S (length s - 1 - j)) with (length s - j) by lia.
Qed.

Lemma common_suffix a b k :
  k <= common (reverse a) (reverse b) → drop (length a - k) a = drop (length b - k) b.
Proof.
  intros Hk. pose proof (common_take (reverse a) (reverse b)) as H.
  apply (f_equal (take k)) in H. rewrite !take_take, !Nat.min_l in H by lia.
  rewrite !take_reverse in H. by apply (inj reverse).
Qed.

(** A move label reads back as the two paths: prefix, changed part and suffix make
    the old path and the new one. What is shared is whole folders: the prefix is empty
    or ends with a slash, the suffix is empty or begins with one. *)
Theorem MoveLabel_new_reads_back old new :
  let m := MoveLabel_new old new in
  label_prefix m ++ label_old m ++ label_suffix m = old ∧
  label_prefix m ++ label_new m ++ label_suffix m = new ∧
  (label_prefix m = [] ∨ last (label_prefix m) = Some SLASH) ∧
  (label_suffix m = [] ∨ head (label_suffix m) = Some SLASH).
Proof.
  unfold MoveLabel_new. cbv zeta. cbn [label_prefix label_old label_new label_suffix].
  set (n := common old new).
  set (cut := match slash_rposition (take n old) with Some i => i + 1 | None => 0 end).
  assert (cut <= n ∧ (take cut old = [] ∨ last (take cut old) = Some SLASH)) as [Hcut Hpre].
  { unfold cut. destruct (slash_rposition (take n old)) as [i|] eqn:E; [|split; [lia|by left]].
    apply slash_rposition_Some in E as (Hi & Hl & _).
    pose proof (length_take_le old n (proj1 (common_le old new))) as Hlen.
    split; [lia|]. right. rewrite Nat.add_1_r, last_lookup, length_take, Nat.min_l.
    - cbn [pred]. rewrite lookup_take_lt by lia. rewrite lookup_take_lt in Hl by lia. done.
    - pose proof (common_le old new). lia. }
  set (o := drop cut old). set (w := drop cut new).
  set (shared := common (reverse o) (reverse w)).
  set (keep := match slash_position (drop (length o - shared) o) with
               | Some i => shared - i | None => 0 end).
  pose proof (common_le (reverse o) (reverse w)) as Hsh. rewrite !length_reverse in Hsh.
  fold shared in Hsh.
  assert (keep <= shared ∧ (drop (length o - keep) o = [] ∨
            head (drop (length o - keep) o) = Some SLASH)) as [Hkeep Hsuf].
  { unfold keep. destruct (slash_position _) as [i|] eqn:E.
    - apply slash_position_Some in E as (Hi & Hlt & _). split; [lia|]. right.
      rewrite length_drop in Hlt. rewrite lookup_drop in Hi.
      rewrite head_lookup, lookup_drop, Nat.add_0_r. rewrite <- Hi. f_equal. lia.
    - split; [lia|]. left. rewrite Nat.sub_0_r. apply drop_all. }
  split_and!; [..|done|done].
  - rewrite (take_drop (length o - keep) o). apply take_drop.
  - rewrite (common_suffix o w), (take_drop (length w - keep) w) by done. unfold w.
    assert (take cut old = take cut new) as ->; [|apply take_drop].
    pose proof (common_take old new) as H. apply (f_equal (take cut)) in H.
    fold n in H. by rewrite !take_take, !Nat.min_l in H by lia.
Qed.

(** ** Witnesses *)

(** A renamed file with a header line, one hunk and all three line endings. *)
Definition print_hunk : Hunk :=
  mkHunk 7 2 7 2 (bs "fn f()")
    [mkPatchRow (Some 7%N) (Some 7%N) (bs "x") LineEnding.CrLf RowKind.Context;
     mkPatchRow (Some 8%N) None (bs "y") LineEnding.Lf RowKind.Removed;
     mkPatchRow None (Some 8%N) (bs "z") LineEnding.None RowKind.Added].
Definition print_file : FileChange :=
  let old := RepoPath.mkRepoPath (bs "src/a b.rs") in
  let new := RepoPath.mkRepoPath (bs "src/c.rs") in
  mkFileChange (@digest sample_sha256 [bs "file-v1"; RepoPath.path_bytes old; RepoPath.path_bytes new])
    (Some old) (Some new) ChangeKind.Renamed ContentKind.Text
    (Some (bs "100644")) (Some (bs "100755")) None None [print_hunk]
    [bs "similarity index 80%"].
Definition print_report : PatchReport := mkPatchReport [print_file].

Lemma print_hunk_printable : hunk_printable print_hunk.
Proof.
  split.
  - split.
    + repeat constructor; by eexists.
    + by intros [].
    + intros []; vm_compute; split; [discriminate|right|discriminate|right];
        split; (reflexivity || discriminate).
  - repeat constructor; by apply not_in_dec.
  - split_and!; [reflexivity|by apply not_in_dec|reflexivity].
Qed.

Example parse_hunk_render_witness :
  parse_hunk default_limits (new_file None None) (render_header print_hunk)
    (render_rows (rows print_hunk) ++ [bs "rest"]) 4 10
  = Ok (print_hunk, [bs "rest"], 9, 13%N).
Proof.
  apply (parse_hunk_render default_limits (new_file None None) print_hunk [bs "rest"] 4 10);
    [apply print_hunk_printable|discriminate|vm_compute; discriminate|discriminate].
Defined.

Lemma safe_path_new b : RepoPath.new b = Ok (RepoPath.mkRepoPath b) → safe_path b.
Proof. by intros [_ H]%RepoPath_new_Ok. Qed.

Lemma print_file_printable : @file_printable sample_sha256 print_file.
Proof.
  split.
  - constructor; [apply print_hunk_printable|constructor].
  - intros [|i] h1 h2; [|destruct i]; done.
  - constructor; [|constructor]. split_and!; try done; [by apply not_in_dec|].
    apply (bool_decide_unpack _). vm_compute. exact I.
  - done.
  - cbn. split_and!; try done; by apply not_in_dec.
  - cbn. split; apply safe_path_new; reflexivity.
  - cbn. split; by eexists.
  - reflexivity.
Qed.

Example parse_patch_render_witness :
  let sha := sample_sha256 in
  parse_patch (unlines (render_report print_report)) default_limits = Some (Ok print_report).
Proof.
  apply parse_patch_render. split.
  - constructor; [apply print_file_printable|constructor].
  - apply NoDup_singleton.
  - vm_compute. discriminate.
  - vm_compute. discriminate.
  - repeat constructor; vm_compute; discriminate.
  - vm_compute. discriminate.
Defined.
