(* ===== verification/BTree.v ===== *)
(** * Ordered maps with string keys

    The program's [BTreeMap<String, _>]: association lists in the order of their
    keys, because the code reads the order back when it lists them. *)

From S2P Require Import Prelude RustStr.

(** [Ord] for [str]: byte by byte. *)
Fixpoint lex_lt (a b : bytes) : bool :=
  match a, b with
  | _, [] => false
  | [], _ :: _ => true
  | x :: a', y :: b' =>
      (bN x <? bN y)%N || (bool_decide (x = y) && lex_lt a' b')
  end.

Notation btree A := (list (bytes * A)).

Fixpoint get {A} (k : bytes) (m : btree A) : option A :=
  match m with
  | [] => None
  | (k', v) :: m' => if bool_decide (k = k') then Some v else get k m'
  end.
Definition contains_key {A} (k : bytes) (m : btree A) : bool :=
  match get k m with Some _ => true | None => false end.
Fixpoint insert_key {A} (k : bytes) (v : A) (m : btree A) : btree A :=
  match m with
  | [] => [(k, v)]
  | (k', v') :: m' =>
      if bool_decide (k = k') then (k, v) :: m'
      else if lex_lt k k' then (k, v) :: m
      else (k', v') :: insert_key k v m'
  end.
(** [BTreeMap::extend]: later pairs replace earlier ones. *)
Definition extend {A} (m : btree A) (l : list (bytes * A)) : btree A :=
  foldl (λ m '(k, v), insert_key k v m) m l.
Definition remove_key {A} (k : bytes) (m : btree A) : btree A :=
  filter (λ p, p.1 ≠ k) m.

(** Keys in strict order: what every map built by [insert_key] keeps. *)
Definition key_lt (a b : bytes) : Prop := lex_lt a b = true.
Definition ordered {A} (m : btree A) : Prop := StronglySorted key_lt m.*1.

Lemma lex_lt_irrefl a : lex_lt a a = false.
Proof. induction a as [|x a IH]; simpl; [done|]. by rewrite N.ltb_irrefl, IH, andb_false_r. Qed.

Lemma lex_lt_trans a b c : key_lt a b → key_lt b c → key_lt a c.
Proof.
  unfold key_lt. revert b c.
  induction a as [|x a IH]; intros [|y b] [|z c]; simpl; try done.
  rewrite !orb_true_iff, !andb_true_iff, !N.ltb_lt, !bool_decide_eq_true.
  intros [H1|[-> H1]] [H2|[-> H2]]; [left; lia|by left|by left|].
  right. split; [done|]. by eapply IH.
Qed.

Lemma lex_lt_total a b : a ≠ b → lex_lt a b = false → key_lt b a.
Proof.
  unfold key_lt. revert b. induction a as [|x a IH]; intros [|y b] Hne; simpl; try done.
  rewrite orb_false_iff, N.ltb_ge, orb_true_iff, N.ltb_lt. intros [Hle H].
  destruct (decide (x = y)) as [->|Hxy].
  - right. rewrite bool_decide_true in * by done. simpl in *. apply IH; [congruence|done].
  - left. assert (bN x ≠ bN y); [|lia]. intros He. apply Hxy.
    rewrite <- (u8_of_bN x), <- (u8_of_bN y). by rewrite He.
Qed.

Lemma get_insert {A} k k' (v : A) m :
  get k (insert_key k' v m) = if bool_decide (k = k') then Some v else get k m.
Proof.
  induction m as [|[k2 v2] m IH]; [done|]. cbn [insert_key].
  destruct (decide (k' = k2)) as [->|H1].
  - rewrite (bool_decide_true (k2 = k2)) by done. cbn [get]. by destruct (bool_decide (k = k2)).
  - rewrite (bool_decide_false (k' = k2)) by done.
    destruct (lex_lt k' k2); cbn [get]; [done|]. rewrite IH.
    destruct (decide (k = k2)) as [->|H2].
    + by rewrite (bool_decide_true (k2 = k2)), bool_decide_false by congruence.
    + by rewrite (bool_decide_false (k = k2)).
Qed.

Lemma get_extend {A} k (m : btree A) l :
  get k (extend m l)
  = match get k (reverse l) with Some v => Some v | None => get k m end.
Proof.
  unfold extend. induction l as [|[k' v] l IH] using rev_ind; [done|].
  rewrite foldl_snoc, get_insert, reverse_snoc. cbn [get]. by case_bool_decide.
Qed.

Lemma insert_key_ordered {A} k (v : A) m : ordered m → ordered (insert_key k v m).
Proof.
  unfold ordered. induction m as [|[k' v'] m IH]; intros Hm.
  { repeat constructor. }
  cbn [insert_key]. rewrite fmap_cons in Hm. apply StronglySorted_inv in Hm as [Hm Hk].
  case_bool_decide as He; [subst; by constructor|].
  destruct (lex_lt k k') eqn:E; rewrite !fmap_cons.
  - constructor; [by constructor|]. constructor; [done|].
    eapply Forall_impl; [exact Hk|]. intros x. by apply lex_lt_trans.
  - constructor; [by apply IH|]. apply Forall_fmap. apply Forall_forall. intros [k2 v2] Hin.
    assert (k2 = k ∨ k2 ∈ m.*1) as [->|Hin2].
    { clear -Hin. induction m as [|[k3 v3] m IH]; cbn [insert_key] in Hin.
      - apply list_elem_of_singleton in Hin. left. congruence.
      - case_bool_decide as He; [|destruct (lex_lt k k3)];
          apply elem_of_cons in Hin as [[= -> ->]|Hin]; try (by left).
        + right. right. by apply list_elem_of_fmap_2 with (f := fst) in Hin.
        + right. by apply list_elem_of_fmap_2 with (f := fst) in Hin.
        + right. left.
        + apply IH in Hin as [->|Hin]; [by left|]. right. by right. }
    + by apply lex_lt_total.
    + rewrite Forall_forall in Hk. by apply Hk.
Qed.

Lemma get_Some_in {A} k (v : A) m : get k m = Some v → (k, v) ∈ m.
Proof.
  induction m as [|[k' v'] m IH]; [done|]. cbn [get].
  case_bool_decide as H; [intros [= ->]; subst; left|]. intros ?. right. auto.
Qed.

Lemma ordered_get {A} k (v : A) m : ordered m → (k, v) ∈ m → get k m = Some v.
Proof.
  unfold ordered. induction m as [|[k' v'] m IH]; intros Hm Hin.
  { by apply not_elem_of_nil in Hin. }
  rewrite fmap_cons in Hm. apply StronglySorted_inv in Hm as [Hm Hk].
  cbn [get]. apply elem_of_cons in Hin as [[= -> ->]|Hin]; [by rewrite bool_decide_true|].
  rewrite bool_decide_false; [by apply IH|]. intros ->.
  rewrite Forall_forall in Hk. specialize (Hk k').
  apply list_elem_of_fmap_2 with (f := fst) in Hin. specialize (Hk Hin).
  unfold key_lt in Hk. by rewrite lex_lt_irrefl in Hk.
Qed.

Lemma insert_key_elem {A} k (v : A) m p : p ∈ insert_key k v m → p = (k, v) ∨ p ∈ m.
Proof.
  induction m as [|[k' v'] m IH]; cbn [insert_key].
  { intros ->%list_elem_of_singleton. by left. }
  case_bool_decide; [|destruct (lex_lt k k')]; rewrite ?elem_of_cons; naive_solver.
Qed.

Lemma filter_ordered {A} (P : bytes * A → Prop) `{!∀ p, Decision (P p)} (m : btree A) :
  ordered m → ordered (filter P m).
Proof.
  unfold ordered. induction m as [|[k v] m IH]; [done|].
  rewrite fmap_cons. intros [Hm Hk]%StronglySorted_inv. rewrite filter_cons.
  destruct (decide _); [|by apply IH]. rewrite fmap_cons. constructor; [by apply IH|].
  apply Forall_fmap, Forall_forall. intros [k2 v2] [_ Hin]%list_elem_of_filter.
  rewrite Forall_forall in Hk. apply Hk. by apply (list_elem_of_fmap_2 fst) in Hin.
Qed.

Lemma get_filter {A} (P : bytes * A → Prop) `{!∀ p, Decision (P p)} k v (m : btree A) :
  ordered m → get k (filter P m) = Some v ↔ get k m = Some v ∧ P (k, v).
Proof.
  intros Hm. split.
  - intros [HP Hin]%get_Some_in%list_elem_of_filter. split; [by apply ordered_get|done].
  - intros [Hg HP]. apply ordered_get; [by apply filter_ordered|].
    apply list_elem_of_filter. split; [done|]. by apply get_Some_in.
Qed.

(** ** Lexicographic orders on pairs *)

Record strict_total {A} (lt : A → A → bool) : Prop := {
  st_irrefl a : lt a a = false;
  st_trans a b c : lt a b = true → lt b c = true → lt a c = true;
  st_total a b : a ≠ b → lt a b = false → lt b a = true
}.

Definition pair_lt {A B} `{EqDecision A} (la : A → A → bool) (lb : B → B → bool)
    (x y : A * B) : bool := la x.1 y.1 || (bool_decide (x.1 = y.1) && lb x.2 y.2).

Lemma pair_lt_strict {A B} `{EqDecision A, EqDecision B} (la : A → A → bool) (lb : B → B → bool) :
  strict_total la → strict_total lb → strict_total (pair_lt la lb).
Proof.
  intros [Ia Ta Oa] [Ib Tb Ob]. unfold pair_lt. split.
  - intros [a b]. cbn. by rewrite Ia, Ib, andb_false_r.
  - intros [a b] [a' b'] [a2 b2]. cbn.
    rewrite !orb_true_iff, !andb_true_iff, !bool_decide_eq_true.
    intros [H1|[-> H1]] [H2|[-> H2]]; eauto.
  - intros [a b] [a' b'] Hne. cbn. rewrite orb_false_iff, orb_true_iff, andb_true_iff.
    rewrite bool_decide_eq_true. intros [H1 H2].
    destruct (decide (a = a')) as [->|Ha]; [|left; auto].
    rewrite bool_decide_true in H2 by done. right. split; [done|]. apply Ob; [congruence|done].
Qed.

Lemma lex_lt_strict : strict_total lex_lt.
Proof. split; [apply lex_lt_irrefl|apply lex_lt_trans|apply lex_lt_total]. Qed.
Lemma N_ltb_strict : strict_total N.ltb.
Proof.
  split; [apply N.ltb_irrefl|intros a b c; rewrite !N.ltb_lt; lia|].
  intros a b Hne. rewrite N.ltb_ge, N.ltb_lt. lia.
Qed.

(** The order [≤] of a strict order, and sorting by it: sorted lists of the same
    elements are equal. *)
Section sorting.
Context {A : Type} `{EqDecision A} (lt : A → A → bool) (Hlt : strict_total lt).

Definition le_of (a b : A) : Prop := lt b a = false.
#[export] Instance le_of_dec a b : Decision (le_of a b) := decide (_ = _).

Lemma le_of_antisymm : AntiSymm (=) le_of.
Proof.
  intros a b H1 H2. destruct (decide (a = b)) as [|Hne]; [done|].
  pose proof (st_total _ Hlt a b Hne H2). unfold le_of in *. congruence.
Qed.
Lemma le_of_trans : Transitive le_of.
Proof.
  intros a b c H1 H2. unfold le_of in *. destruct (lt c a) eqn:E; [|done].
  destruct (decide (b = a)) as [->|Hne]; [congruence|].
  pose proof (st_trans _ Hlt _ _ _ E (st_total _ Hlt b a Hne H1)). congruence.
Qed.
Lemma le_of_total : Total le_of.
Proof.
  intros a b. unfold le_of. destruct (lt b a) eqn:E; [right|by left].
  destruct (lt a b) eqn:E2; [|done]. pose proof (st_trans _ Hlt _ _ _ E E2) as H.
  by rewrite (st_irrefl _ Hlt) in H.
Qed.

Lemma merge_sort_eq_iff l k : merge_sort le_of l = merge_sort le_of k ↔ l ≡ₚ k.
Proof.
  pose proof le_of_antisymm. pose proof le_of_trans. pose proof le_of_total. split.
  - intros Heq. rewrite <- (merge_sort_Permutation le_of l), Heq. apply merge_sort_Permutation.
  - intros Hp. apply (StronglySorted_unique le_of).
    + by apply StronglySorted_merge_sort.
    + by apply StronglySorted_merge_sort.
    + by rewrite !merge_sort_Permutation.
Qed.
End sorting.

Lemma get_remove {A} k k' (m : btree A) :
  get k (remove_key k' m) = if bool_decide (k = k') then None else get k m.
Proof.
  unfold remove_key. induction m as [|[k2 v2] m IH]; [by destruct (bool_decide _)|].
  rewrite filter_cons. cbn [fst]. destruct (decide (k2 = k')) as [->|Hne].
  - rewrite decide_False by naive_solver. rewrite IH. cbn [get].
    destruct (decide (k = k')) as [->|H2]; [by rewrite bool_decide_true|].
    by rewrite !bool_decide_false.
  - rewrite decide_True by done. cbn [get]. rewrite IH.
    destruct (decide (k = k2)) as [->|H2].
    + rewrite (bool_decide_true (k2 = k2)), bool_decide_false by done. done.
    + by rewrite (bool_decide_false (k = k2)).
Qed.
