(* ===== verification/Overview.v ===== *)
(** * The review overview ([crates/core/src/review_details.rs])

    Releases of a compare and the blame of its lines, the review verdict, and the
    comment threads of a path. [Snapshot.v] has the part that needs a snapshot. *)

From S2P Require Import Prelude RustStr Utf8 Domain Patch BTree.

(** ** Data *)

Record ReleaseFile := mkReleaseFile {
  rf_path : bytes; rf_additions : N; rf_deletions : N; rf_previous : option bytes
}.
Record Release := mkRelease {
  tag : option bytes; commit : bytes; date : option bytes; commits : N;
  release_files : list ReleaseFile; notes : option bytes; url : option bytes; shas : list bytes
}.
Record Blamed := mkBlamed {
  blamed_start : N; blamed_end : N; release : nat; blamed_commit : bytes
}.
Notation BlameRead := (btree (option (list Blamed))).

Module ReviewDecision.
Inductive ReviewDecision := Approved | ChangesRequested.
Definition label (d : ReviewDecision) : bytes :=
  match d with Approved => bs "approved" | ChangesRequested => bs "changes requested" end.
#[export] Instance ReviewDecision_eq_dec : EqDecision ReviewDecision.
Proof. solve_decision. Defined.
End ReviewDecision.
Notation ReviewDecision := ReviewDecision.ReviewDecision.

Record CheckRun := mkCheckRun {
  check_name : bytes; check_kind : bytes; check_status : bytes;
  conclusion : option bytes; check_url : option bytes
}.
Record ConversationComment := mkConversationComment {
  conversation_id : N; conversation_author : bytes; conversation_body : bytes;
  conversation_created_at : option bytes
}.
Record Overview := mkOverview {
  description : option bytes; overview_author : option bytes;
  decision : option ReviewDecision; checks : list CheckRun; notices : list bytes;
  captured_at : option N; conversation : list ConversationComment;
  releases : list Release; blame : BlameRead
}.
Definition default_overview : Overview :=
  mkOverview None None None [] [] None [] [] [].

Record ThreadComment := mkThreadComment {
  comment_id : N; root_id : N; comment_path : bytes; comment_side : option Side;
  comment_line : option N; start_line : option N; file_level : option bool;
  body : bytes; author : bytes; commit_id : bytes; created_at : option bytes
}.

(** ** Releases and their files *)

Definition Release_name (r : Release) (head : bytes) : bytes := default head (tag r).

(** The body of the inner loop of [releases_by_path]: [paths] and [renamed] before
    and after one file of release [i]. *)
Definition touch_file (i : nat) (st : gmap bytes (list nat) * gmap bytes bytes)
    (f : ReleaseFile) : gmap bytes (list nat) * gmap bytes bytes :=
  let '(paths, renamed) := st in
  let head := default (rf_path f) (renamed !! rf_path f) in
  (<[head := default [] (paths !! head) ++ [i]]> paths,
   match rf_previous f with Some p => <[p := head]> renamed | None => renamed end).

(** [Vec::dedup]: drops an element equal to the one before it. *)
Fixpoint dedup (l : list nat) : list nat :=
  match l with
  | [] => []
  | x :: l' => match l' with
               | y :: _ => if bool_decide (x = y) then dedup l' else x :: dedup l'
               | [] => [x]
               end
  end.

Definition touch_release (st : gmap bytes (list nat) * gmap bytes bytes) (ir : nat * Release) :
    gmap bytes (list nat) * gmap bytes bytes :=
  foldl (touch_file ir.1) st (release_files ir.2).
Definition releases_by_path (rs : list Release) : gmap bytes (list nat) :=
  let '(paths, _) := foldl touch_release (∅, ∅) (reverse (imap Datatypes.pair rs)) in
  (λ touched, dedup (merge_sort (≤) touched)) <$> paths.

(** ** Blame *)

(** The release that added each commit; [collect] keeps the last one. *)
Definition release_of (rs : list Release) (sha : bytes) : option nat :=
  foldl (λ found '(i, r), if bool_decide (sha ∈ shas r) then Some i else found) None
        (imap Datatypes.pair rs).

Definition blamed_le (a b : Blamed) : Prop := (blamed_start a <= blamed_start b)%N.
#[export] Instance blamed_le_dec a b : Decision (blamed_le a b) := decide (_ <= _)%N.

(** [sort_unstable_by_key] leaves the order of equal keys open; this sort is stable. *)
Definition attribute (rs : list Release) (ranges : list (N * N * bytes)) : list Blamed :=
  merge_sort blamed_le
    (omap (λ '(s, e, c), i ← release_of rs c; Some (mkBlamed s e i c)) ranges).

(** [partition_point] on a slice the predicate partitions: the length of the first part. *)
Fixpoint partition_point {A} (p : A → bool) (l : list A) : nat :=
  match l with
  | [] => 0
  | x :: l' => if p x then S (partition_point p l') else 0
  end.

Definition blamed (b : BlameRead) (path : bytes) (line : N) : option Blamed :=
  ranges ← mjoin (get path b);
  x ← ranges !! partition_point (λ x, (blamed_end x <? line)%N) ranges;
  if (blamed_start x <=? line)%N then Some x else None.

Definition row_release (b : BlameRead) (path : bytes) (row : PatchRow) : option Blamed :=
  if negb (bool_decide (row_kind row = RowKind.Added)) then None
  else n ← new_line row; blamed b path n.

Definition UNBLAMED : bytes := bs "Release attribution is unavailable for".
Definition unblamed_warning (b : BlameRead) : option bytes :=
  let failed := (filter (λ p, p.2 = None) b).*1 in
  let shown := join (bs ", ") (take 3 failed) in
  match length failed with
  | 0 => None
  | 1 => Some (UNBLAMED ++ bs " " ++ shown
               ++ bs ": its blame could not be read, so its lines show no release.")
  | n => Some (UNBLAMED ++ bs " " ++ dec (N.of_nat n)
               ++ bs " files whose blame could not be read, so their lines show no release: "
               ++ shown ++ (if (3 <? n)%nat then bs ", …" else []) ++ bs ".")
  end.

Definition widen (span : option (N * N)) (n : N) : option (N * N) :=
  Some match span with Some (a, b) => (a `min` n, b `max` n)%N | None => (n, n) end.
Definition added_lines (f : FileChange) : list N :=
  omap new_line (filter (λ r, row_kind r = RowKind.Added) (all_rows f)).
Definition blame_span (o : Overview) (f : FileChange) : option (N * N) :=
  if (length (releases o) <? 2)%nat
     || forallb (λ r, bool_decide (shas r = [])) (releases o)
     || match display_path f with Some p => contains_key p (blame o) | None => false end
  then None
  else foldl widen None (added_lines f).

(** What can be said of a removed line, given the releases that touched its file. *)
Definition removed_in (names : list bytes) : bytes :=
  match names with
  | [] => bs "Removed in this range"
  | [one] => bs "Removed in " ++ one
  | first :: rest =>
      if (4 <? length names)%nat
      then bs "Removed in one of " ++ dec (lenN names) ++ bs " releases, " ++ first
           ++ bs " to " ++ default [] (last rest)
      else bs "Removed in one of: " ++ join (bs ", ") names
  end.

(** ** The verdict *)

Definition ruling (state : bytes) : bool :=
  bool_decide (state = bs "APPROVED") || bool_decide (state = bs "CHANGES_REQUESTED")
  || bool_decide (state = bs "DISMISSED").
Definition review_decision (reviews : list (bytes * bytes)) : option ReviewDecision :=
  let latest := foldl (λ m '(user, state), if ruling state then insert_key user state m else m)
                      [] reviews in
  if existsb (λ p, bool_decide (p.2 = bs "CHANGES_REQUESTED")) latest
  then Some ReviewDecision.ChangesRequested
  else if existsb (λ p, bool_decide (p.2 = bs "APPROVED")) latest
  then Some ReviewDecision.Approved
  else None.

(** ** Timestamps, threads and progress *)

(** [None] where a slice of the code cuts a character and panics. *)
Definition short_timestamp (s : bytes) : option bytes :=
  if (16 <=? length s)%nat && bool_decide (s !! 10 = Some (u8_of 84))
     && bool_decide (s !! 4 = Some (u8_of 45)) && bool_decide (s !! 13 = Some (u8_of 58))
  then a ← str_get s 0 10; b ← str_get s 11 16; Some (a ++ bs " " ++ b)
  else Some s.

Definition push_new (roots : list N) (id : N) : list N :=
  if bool_decide (id ∈ roots) then roots else roots ++ [id].
Definition comment_at (path : bytes) (side : Side) (line : N) (c : ThreadComment) : bool :=
  bool_decide (comment_path c = path) && bool_decide (comment_side c = Some side)
  && match comment_line c with
     | Some e => (default e (start_line c) <=? line)%N && (line <=? e)%N
     | None => false
     end.
Definition threads_at (comments : list ThreadComment) (path : bytes) (side : Side) (line : N)
    : list N :=
  foldl (λ roots c, if comment_at path side line c then push_new roots (root_id c) else roots)
        [] comments.

Definition thread_counts (comments : list ThreadComment) : btree nat :=
  foldl (λ counts c,
           if (comment_id c =? root_id c)%N
           then insert_key (comment_path c) (S (default 0 (get (comment_path c) counts))) counts
           else counts) [] comments.

Definition reviewed_progress (viewed : btree bool) (files : list bytes) : nat * nat :=
  (length (filter (λ f, get f viewed = Some true) files), length files).
