(* ===== verification/OverviewFacts.v ===== *)
(** * The review overview: verdicts, blame and the files of releases *)

From S2P Require Import Prelude RustStr Utf8 Domain Patch PatchFacts BTree Overview.

(** ** The verdict *)

(** The last ruling of a reviewer. *)
Definition last_ruling (user : bytes) (reviews : list (bytes * bytes)) : option bytes :=
  last (omap (λ '(u, s), if bool_decide (u = user) && ruling s then Some s else None) reviews).

Definition latest (reviews : list (bytes * bytes)) : btree bytes :=
  foldl (λ m '(user, state), if ruling state then insert_key user state m else m) [] reviews.

Lemma latest_ordered reviews : ordered (latest reviews).
Proof.
  unfold latest. induction reviews as [|[u s] l IH] using rev_ind; [by constructor|].
  rewrite foldl_snoc. destruct (ruling s); [by apply insert_key_ordered|done].
Qed.

Lemma get_latest user reviews : get user (latest reviews) = last_ruling user reviews.
Proof.
  unfold latest, last_ruling. induction reviews as [|[u s] l IH] using rev_ind; [done|].
  rewrite foldl_snoc, omap_app. cbn [omap list_omap].
  destruct (ruling s) eqn:E; [rewrite get_insert|].
  - destruct (decide (user = u)) as [->|Hu].
    + rewrite !bool_decide_true by done. cbn. by rewrite last_snoc.
    + rewrite !bool_decide_false by done. cbn. by rewrite app_nil_r.
  - rewrite andb_false_r, app_nil_r. done.
Qed.

Lemma existsb_latest state reviews :
  existsb (λ p, bool_decide (p.2 = state)) (latest reviews) = true
  ↔ ∃ u, last_ruling u reviews = Some state.
Proof.
  rewrite existsb_exists. setoid_rewrite <- get_latest. split.
  - intros ([u s] & Hin & Hs%bool_decide_eq_true). cbn in Hs. subst. exists u.
    apply ordered_get; [apply latest_ordered|by apply list_elem_of_In].
  - intros (u & Hg%get_Some_in). exists (u, state).
    split; [by apply list_elem_of_In|by apply bool_decide_eq_true].
Qed.

(** The verdict is that of the reviewers' last rulings: changes are requested when
    some reviewer's last ruling requests them, and otherwise the review is approved
    when some reviewer's last ruling approves; comments never change it. *)
Theorem review_decision_last_rulings reviews :
  match review_decision reviews with
  | Some ReviewDecision.ChangesRequested =>
      ∃ u, last_ruling u reviews = Some (bs "CHANGES_REQUESTED")
  | Some ReviewDecision.Approved =>
      (∀ u, last_ruling u reviews ≠ Some (bs "CHANGES_REQUESTED")) ∧
      ∃ u, last_ruling u reviews = Some (bs "APPROVED")
  | None => ∀ u s, last_ruling u reviews = Some s → s = bs "DISMISSED"
  end.
Proof.
  unfold review_decision. change (foldl _ [] reviews) with (latest reviews). cbv zeta.
  destruct (existsb (λ p, bool_decide (p.2 = bs "CHANGES_REQUESTED")) (latest reviews)) eqn:E1.
  { by apply existsb_latest. }
  apply not_true_iff_false in E1. rewrite existsb_latest in E1.
  destruct (existsb (λ p, bool_decide (p.2 = bs "APPROVED")) (latest reviews)) eqn:E2.
  { apply existsb_latest in E2. naive_solver. }
  apply not_true_iff_false in E2. rewrite existsb_latest in E2.
  intros u s Hs. assert (ruling s = true) as Hr.
  { unfold last_ruling in Hs. apply last_Some in Hs as [l Hl].
    assert (s ∈ l ++ [s]) as Hin by (apply elem_of_app; right; by left).
    rewrite <- Hl in Hin. apply list_elem_of_omap in Hin as ([u' s'] & _ & Heq).
    destruct (bool_decide (u' = u)), (ruling s') eqn:E; try done. by injection Heq as ->. }
  unfold ruling in Hr. rewrite !orb_true_iff, !bool_decide_eq_true in Hr. naive_solver.
Qed.

(** ** Blame *)

(** Two lists of lines that share none. *)
Definition apart (a b : N * N) : Prop := (a.2 < b.1 ∨ b.2 < a.1)%N.
(** Ranges of one file as a provider reports them: none shares a line with another. *)
Definition disjoint_ranges (l : list (N * N * bytes)) : Prop :=
  StronglySorted (λ r1 r2, apart r1.1 r2.1) l.
Definition range_ordered (r : N * N * bytes) : Prop := (r.1.1 <= r.1.2)%N.

(** A symmetric relation holds between all elements in any order of them. *)
Lemma pairwise_permutation {A} (R : relation A) `{!Symmetric R} l k :
  l ≡ₚ k → StronglySorted R l → StronglySorted R k.
Proof.
  induction 1 as [|x l k H IH|x y l|l1 l2 l3 _ IH1 _ IH2]; intros Hs; [done|..].
  - apply StronglySorted_inv in Hs as [Hs Hx]. constructor; [by apply IH|by rewrite <- H].
  - apply StronglySorted_inv in Hs as [Hs Hx].
    apply StronglySorted_inv in Hs as [Hs Hy]. inversion Hx as [|? ? Hxy Hx']; subst.
    repeat constructor; try done.
  - by apply IH2, IH1.
Qed.

Lemma pairwise_omap {A B} (R : relation A) (S : relation B) (g : A → option B) l :
  (∀ x y a b, R x y → g x = Some a → g y = Some b → S a b) →
  StronglySorted R l → StronglySorted S (omap g l).
Proof.
  intros HRS. induction 1 as [|x l Hs IH Hx]; [constructor|]. cbn [omap list_omap].
  destruct (g x) as [a|] eqn:E; [|done]. constructor; [done|].
  apply Forall_forall. intros b (y & Hy & Hb)%list_elem_of_omap.
  rewrite Forall_forall in Hx. by eapply HRS; [apply Hx|..].
Qed.

Definition blamed_before (a b : Blamed) : Prop := (blamed_end a < blamed_start b)%N.
Definition blamed_ok (b : Blamed) : Prop := (blamed_start b <= blamed_end b)%N.

Lemma partition_point_sorted l line b :
  StronglySorted blamed_before l → Forall blamed_ok l →
  (x ← l !! partition_point (λ x, (blamed_end x <? line)%N) l;
   if (blamed_start x <=? line)%N then Some x else None) = Some b
  ↔ b ∈ l ∧ (blamed_start b <= line <= blamed_end b)%N.
Proof.
  intros Hs Hok. induction Hs as [|x l Hs IH Hx]; [split; [done|intros [[]%not_elem_of_nil _]]|].
  inversion Hok as [|? ? Hox Hok']; subst. unfold blamed_ok in Hox.
  cbn [partition_point]. destruct (blamed_end x <? line)%N eqn:E; to_prop.
  - cbn [lookup list_lookup]. rewrite IH by done. rewrite elem_of_cons.
    split; [naive_solver|]. intros [[->|H] Hl]; [lia|done].
  - cbn. destruct (blamed_start x <=? line)%N eqn:E2; to_prop.
    + rewrite elem_of_cons. split.
      * intros [= <-]. split; [by left|lia].
      * intros [[->|Hin] Hl]; [done|]. rewrite Forall_forall in Hx.
        apply Hx in Hin. unfold blamed_before in Hin. lia.
    + split; [done|]. rewrite elem_of_cons. intros [[->|Hin] Hl]; [lia|].
      rewrite Forall_forall in Hx. apply Hx in Hin. unfold blamed_before in Hin. lia.
Qed.

#[export] Instance blamed_le_total : Total blamed_le.
Proof. intros a b. unfold blamed_le. lia. Qed.
#[export] Instance blamed_le_trans : Transitive blamed_le.
Proof. intros a b c. unfold blamed_le. lia. Qed.

(** Sorted by their first lines, disjoint ranges follow one another. *)
Definition blamed_apart (a b : Blamed) : Prop :=
  apart (blamed_start a, blamed_end a) (blamed_start b, blamed_end b).
#[export] Instance blamed_apart_symmetric : Symmetric blamed_apart.
Proof. intros a b. unfold blamed_apart, apart. simpl. lia. Qed.

Lemma sorted_disjoint (l : list Blamed) :
  StronglySorted blamed_le l → Forall blamed_ok l → StronglySorted blamed_apart l →
  StronglySorted blamed_before l.
Proof.
  intros Hs Hok Hd. induction Hs as [|x l Hs IH Hx]; [constructor|].
  inversion Hok as [|? ? Hox Hok']; subst.
  apply StronglySorted_inv in Hd as [Hd Hdx]. constructor; [by apply IH|].
  apply Forall_forall. intros y Hy. rewrite Forall_forall in Hx, Hok', Hdx.
  specialize (Hx _ Hy). specialize (Hok' _ Hy). specialize (Hdx _ Hy).
  unfold blamed_before, blamed_le, blamed_ok, blamed_apart, apart in *. simpl in *. lia.
Qed.

Definition to_blamed (rs : list Release) (r : N * N * bytes) : option Blamed :=
  let '(s, e, c) := r in i ← release_of rs c; Some (mkBlamed s e i c).

Lemma to_blamed_Some rs s e c b :
  to_blamed rs (s, e, c) = Some b ↔ ∃ i, release_of rs c = Some i ∧ b = mkBlamed s e i c.
Proof. unfold to_blamed. simpl. destruct (release_of rs c); simpl; naive_solver. Qed.

Lemma attribute_permutation rs ranges : attribute rs ranges ≡ₚ omap (to_blamed rs) ranges.
Proof. unfold attribute. apply merge_sort_Permutation. Qed.

Lemma attribute_sorted rs ranges :
  Forall range_ordered ranges → disjoint_ranges ranges →
  StronglySorted blamed_before (attribute rs ranges) ∧ Forall blamed_ok (attribute rs ranges).
Proof.
  intros Ho Hd. assert (Forall blamed_ok (attribute rs ranges)) as Hok.
  { rewrite attribute_permutation. apply Forall_forall.
    intros b ([[s e] c] & Hin & (i & _ & ->)%to_blamed_Some)%list_elem_of_omap.
    rewrite Forall_forall in Ho. by apply Ho in Hin. }
  split; [|done]. apply sorted_disjoint; [|done|].
  - apply StronglySorted_merge_sort; apply _.
  - eapply (pairwise_permutation _ (omap (to_blamed rs) ranges));
      [symmetry; apply attribute_permutation|].
    eapply pairwise_omap; [|exact Hd].
    intros [[s1 e1] c1] [[s2 e2] c2] a b H (? & _ & ->)%to_blamed_Some (? & _ & ->)%to_blamed_Some.
    exact H.
Qed.

(** Blame finds the right range: after a file's ranges are attributed, looking a
    line up gives a range exactly when the provider reported one that holds the
    line and whose commit a release added, and then gives that range with that
    release; for ranges in any order that share no line. *)
Theorem blamed_attribute rs ranges path line b :
  Forall range_ordered ranges → disjoint_ranges ranges →
  blamed [(path, Some (attribute rs ranges))] path line = Some b ↔
  ∃ s e c i, (s, e, c) ∈ ranges ∧ (s <= line <= e)%N ∧ release_of rs c = Some i ∧
             b = mkBlamed s e i c.
Proof.
  intros Ho Hd. destruct (attribute_sorted rs ranges Ho Hd) as [Hs Hok].
  unfold blamed. cbn [get]. rewrite bool_decide_true by done. cbn [mjoin option_join mbind option_bind].
  rewrite partition_point_sorted by done.
  rewrite attribute_permutation, list_elem_of_omap. split.
  - intros [([[s e] c] & Hin & (i & Hi & ->)%to_blamed_Some) Hl]. by exists s, e, c, i.
  - intros (s & e & c & i & Hin & Hl & Hi & ->). split; [|done].
    exists (s, e, c). split; [done|]. apply to_blamed_Some. eauto.
Qed.

(** ** The files of releases *)

(** [follows rs i p h]: the file [p] has in release [i] and before is named [h] after
    some renames of release [i] and later ones. *)
Inductive follows (rs : list Release) : nat → bytes → bytes → Prop :=
| follows_here i p : follows rs i p p
| follows_rename i j p r g h :
    i <= j → rs !! j = Some r → g ∈ release_files r → rf_previous g = Some p →
    follows rs j (rf_path g) h → follows rs i p h.

Lemma follows_earlier rs i k p h : k <= i → follows rs i p h → follows rs k p h.
Proof.
  intros Hk H. destruct H as [i p|i j p r g h Hij Hr Hg Hp H]; [constructor|].
  eapply follows_rename; [|done..]. lia.
Qed.

(** Release [k] has a file that is named [h] in the end. *)
Definition touches (rs : list Release) (k : nat) (h : bytes) : Prop :=
  ∃ r f, rs !! k = Some r ∧ f ∈ release_files r ∧ follows rs k (rf_path f) h.

Record path_inv (rs : list Release) (i : nat) (done : nat → ReleaseFile → Prop)
    (st : gmap bytes (list nat) * gmap bytes bytes) : Prop := {
  pi_renamed p h : st.2 !! p = Some h → follows rs i p h;
  pi_sound h l k : st.1 !! h = Some l → k ∈ l → touches rs k h;
  pi_found k f : done k f →
    ∃ h l, st.1 !! h = Some l ∧ k ∈ l ∧ follows rs k (rf_path f) h
}.

Lemma touch_file_inv rs i r dn st f :
  rs !! i = Some r → f ∈ release_files r → path_inv rs i dn st →
  path_inv rs i (λ k g, dn k g ∨ k = i ∧ g = f) (touch_file i st f).
Proof.
  intros Hr Hf [Hren Hs Hd]. destruct st as [paths renamed]. cbn in *.
  set (head := default (rf_path f) (renamed !! rf_path f)).
  assert (follows rs i (rf_path f) head) as Hhead.
  { unfold head. destruct (renamed !! rf_path f) eqn:E; [by apply Hren|constructor]. }
  split; cbn.
  - intros p h. destruct (rf_previous f) as [q|] eqn:Eq; [|apply Hren].
    destruct (decide (q = p)) as [->|Hne].
    + rewrite lookup_insert_eq. intros [= <-]. by eapply follows_rename.
    + rewrite lookup_insert_ne by done. apply Hren.
  - intros h l k. destruct (decide (head = h)) as [<-|Hne].
    + rewrite lookup_insert_eq. intros [= <-] [Hk|Hk%list_elem_of_singleton]%elem_of_app.
      * destruct (paths !! head) eqn:E; [|by apply not_elem_of_nil in Hk]. by eapply Hs.
      * subst. by exists r, f.
    + rewrite lookup_insert_ne by done. apply Hs.
  - intros k g [Hk|[-> ->]].
    + destruct (Hd _ _ Hk) as (h & l & Hl & Hkl & Hfol).
      destruct (decide (head = h)) as [<-|Hne].
      * exists head, (l ++ [i]). rewrite lookup_insert_eq, Hl. cbn.
        split_and!; [done|apply elem_of_app; by left|done].
      * exists h, l. by rewrite lookup_insert_ne.
    + exists head, (default [] (paths !! head) ++ [i]). rewrite lookup_insert_eq.
      split_and!; [done|apply elem_of_app; right; by left|done].
Qed.

Lemma touch_files_inv rs i r dn st fs :
  rs !! i = Some r → (∀ f, f ∈ fs → f ∈ release_files r) → path_inv rs i dn st →
  path_inv rs i (λ k g, dn k g ∨ k = i ∧ g ∈ fs) (foldl (touch_file i) st fs).
Proof.
  intros Hr Hfs Hinv. induction fs as [|f fs IH] using rev_ind.
  - destruct Hinv as [H1 H2 H3]. split; [done..|]. intros k g [Hk|[_ []%not_elem_of_nil]]. by apply H3.
  - rewrite foldl_snoc.
    assert (path_inv rs i (λ k g, dn k g ∨ k = i ∧ g ∈ fs) (foldl (touch_file i) st fs)) as Hi.
    { apply IH. intros g Hg. apply Hfs. apply elem_of_app. by left. }
    eapply (touch_file_inv rs i r) in Hi as [H1 H2 H3]; [|done|apply Hfs, elem_of_app; right; by left].
    split; [done..|]. intros k g Hk. apply H3. rewrite elem_of_app, list_elem_of_singleton in Hk.
    naive_solver.
Qed.

Lemma path_inv_mono rs i k dn dn' st :
  k <= i → (∀ j f, dn' j f → dn j f) → path_inv rs i dn st → path_inv rs k dn' st.
Proof.
  intros Hk Hdn [H1 H2 H3]. split; [|done|naive_solver].
  intros p h Hp. eapply follows_earlier, H1; done.
Qed.

Lemma releases_inv rs n :
  n <= length rs →
  path_inv rs n (λ k f, n <= k ∧ ∃ r, rs !! k = Some r ∧ f ∈ release_files r)
    (foldl touch_release (∅, ∅) (reverse (drop n (imap Datatypes.pair rs)))).
Proof.
  intros Hn. remember (length rs - n) as m eqn:Em. revert n Hn Em.
  induction m as [|m IH]; intros n Hn Em.
  - rewrite drop_ge by (rewrite length_imap; lia). cbn. split; cbn.
    + intros p h. by rewrite lookup_empty.
    + intros h l k. by rewrite lookup_empty.
    + intros k f [Hk (r & Hr & _)]. apply lookup_lt_Some in Hr. lia.
  - destruct (rs !! n) as [r|] eqn:Er.
    2:{ apply lookup_ge_None in Er. lia. }
    rewrite (drop_S _ (n, r)) by by rewrite list_lookup_imap, Er.
    rewrite reverse_cons, foldl_snoc. unfold touch_release at 1. cbn [fst snd].
    assert (n < length rs) as Hlt by by apply lookup_lt_Some in Er.
    pose proof (IH (S n) ltac:(lia) ltac:(lia)) as Hi.
    eapply (path_inv_mono _ (S n) n) in Hi; [|lia|intros j f H; exact H].
    eapply (touch_files_inv rs n r _ _ (release_files r)) in Hi; [|done|done].
    eapply path_inv_mono; [|intros j f H|exact Hi]; [lia|].
    destruct H as [Hj (r' & Hr' & Hf)].
    destruct (decide (j = n)) as [->|Hne].
    + right. rewrite Er in Hr'. injection Hr' as ->. done.
    + left. split; [lia|]. by exists r'.
Qed.

Lemma dedup_elem l x : x ∈ dedup l ↔ x ∈ l.
Proof.
  induction l as [|a l IH]; [done|]. cbn [dedup]. destruct l as [|b l].
  { done. }
  case_bool_decide as H.
  - subst. rewrite IH, !elem_of_cons. tauto.
  - rewrite (elem_of_cons (dedup (b :: l))), IH. by rewrite (elem_of_cons (b :: l)).
Qed.

Lemma dedup_sorted l : StronglySorted (≤) l → StronglySorted lt (dedup l).
Proof.
  induction 1 as [|a l Hs IH Ha]; [constructor|]. cbn [dedup]. destruct l as [|b l].
  { repeat constructor. }
  case_bool_decide as H; [done|]. constructor; [done|]. apply Forall_forall.
  intros y Hy. rewrite dedup_elem in Hy. rewrite Forall_forall in Ha.
  apply StronglySorted_inv in Hs as [_ Hb]. rewrite Forall_forall in Hb.
  assert (a <= b) by (apply Ha; by left). apply elem_of_cons in Hy as [->|Hy]; [lia|].
  specialize (Hb y Hy). lia.
Qed.

(** The index of releases by head path: each path's releases come once each, oldest
    first; a release is listed under a path only when it has a file that later
    renames lead to that path; and every file of every release is listed. *)
Theorem releases_by_path_index rs :
  (∀ h l, releases_by_path rs !! h = Some l →
     StronglySorted lt l ∧ ∀ k, k ∈ l → touches rs k h) ∧
  (∀ k r f, rs !! k = Some r → f ∈ release_files r →
     ∃ h l, releases_by_path rs !! h = Some l ∧ k ∈ l ∧ follows rs k (rf_path f) h).
Proof.
  pose proof (releases_inv rs 0 ltac:(lia)) as Hinv. rewrite drop_0 in Hinv.
  unfold releases_by_path. destruct (foldl _ _ _) as [paths renamed].
  destruct Hinv as [_ Hs Hd]. cbn in Hs, Hd. split.
  - intros h l. rewrite lookup_fmap. destruct (paths !! h) as [l'|] eqn:E; [|done].
    intros [= <-]. split.
    + apply dedup_sorted, StronglySorted_merge_sort; apply _.
    + intros k. rewrite dedup_elem, merge_sort_Permutation. by apply Hs.
  - intros k r f Hr Hf. destruct (Hd k f) as (h & l & Hl & Hk & Hfol).
    { split; [lia|]. by exists r. }
    exists h, (dedup (merge_sort (≤) l)). rewrite lookup_fmap, Hl. split_and!; [done| |done].
    by rewrite dedup_elem, merge_sort_Permutation.
Qed.

(** Two listings of one release that renames [a] to [b] and adds a new [a]. *)
Definition moved : ReleaseFile := mkReleaseFile (bs "b") 0 0 (Some (bs "a")).
Definition added_anew : ReleaseFile := mkReleaseFile (bs "a") 5 0 None.
Definition one_release (fs : list ReleaseFile) : list Release :=
  [mkRelease (Some (bs "v1")) (bs "c1") None 1 fs None None []].

(** The index depends on the order of files within one release: where a release
    renames [a] to [b] and adds a new [a], the new [a] is listed under [b], and not
    under its own path, when the rename comes first. *)
Theorem releases_by_path_order_dependent :
  releases_by_path (one_release [added_anew; moved]) !! bs "a" = Some [0] ∧
  releases_by_path (one_release [moved; added_anew]) !! bs "a" = None ∧
  releases_by_path (one_release [moved; added_anew]) !! bs "b" = Some [0].
Proof. split_and!; vm_compute; reflexivity. Qed.

(** ** Witnesses *)

Definition sample_releases : list Release :=
  [mkRelease (Some (bs "v1")) (bs "c1") None 1 [] None None [bs "c1"];
   mkRelease (Some (bs "v2")) (bs "c2") None 1 [] None None [bs "c2"]].

Example blamed_attribute_witness :
  let ranges := [(9, 12, bs "c1"); (1, 4, bs "c2"); (5, 8, bs "old")]%N in
  let b := mkBlamed 1 4 1 (bs "c2") in
  blamed [(bs "f", Some (attribute sample_releases ranges))] (bs "f") 3 = Some b ↔
  ∃ s e c i, (s, e, c) ∈ ranges ∧ (s <= 3 <= e)%N ∧ release_of sample_releases c = Some i ∧
             b = mkBlamed s e i c.
Proof.
  apply blamed_attribute.
  - repeat constructor; vm_compute; discriminate.
  - repeat constructor; vm_compute; first [left; reflexivity|right; reflexivity].
Defined.
