(* ===== verification/Snapshot.v ===== *)
(** * Snapshots ([crates/core/src/domain.rs] from [SourcePoint] on, and the snapshot
    part of [crates/core/src/review_details.rs])

    The JSON encoder behind a snapshot's identity is the crate [serde_json]: a
    parameter. What the program itself decides, the form a path takes and the fields that
    are encoded, is defined here. *)

From S2P Require Import Prelude RustStr Utf8 Domain Patch Overview.

(** ** Paths as serialized values (domain.rs:158-225) *)

Inductive PathValue := PathStr (s : bytes) | PathSeq (s : bytes).

(** [legacy] is the flag [LEGACY_PATH_ENCODING]. *)
Definition serialize_path (legacy : bool) (p : RepoPath) : PathValue :=
  if utf8_valid (RepoPath.path_bytes p) && negb legacy
  then PathStr (RepoPath.path_bytes p) else PathSeq (RepoPath.path_bytes p).
(** [visit_str] and [visit_seq]; a JSON string is UTF-8. *)
Definition deserialize_path (v : PathValue) : result bytes RepoPath :=
  match v with PathStr s => RepoPath.new s | PathSeq s => RepoPath.new s end.

(** ** Data *)

Notation SnapshotId := bytes (only parsing).

Record SourcePoint := mkSourcePoint {
  snapshot : SnapshotId; file_of : FileId; side : Side; line_no : N; byte_column : nat
}.
#[export] Instance SourcePoint_eq_dec : EqDecision SourcePoint.
Proof. solve_decision. Defined.
Record SourceSelection := mkSourceSelection { sel_start : SourcePoint; sel_end : SourcePoint }.

Record RepositoryKey := mkRepositoryKey {
  host : bytes; repository_id : N; owner : bytes; repository_name : bytes
}.
#[export] Instance RepositoryKey_eq_dec : EqDecision RepositoryKey.
Proof. solve_decision. Defined.

Module ProviderId.
Definition GITHUB : bytes := bs "GitHub".
Definition GITLAB : bytes := bs "GitLab".
Definition ENTIRE : bytes := bs "Entire".
Definition is_github (p : bytes) : bool := bool_decide (p = GITHUB).
Definition identity_tag (p : bytes) : bytes :=
  if is_github p then bs "snapshot-v1"
  else bs "snapshot-" ++ to_ascii_lowercase p ++ bs "-v1".
End ProviderId.

Record CompareRefs := mkCompareRefs { base : bytes; compare_head : bytes; direct : bool }.
Definition CompareRefs_label (c : CompareRefs) : bytes :=
  base c ++ (if direct c then bs ".." else bs "...") ++ compare_head c.

Record EntireTarget := mkEntireTarget {
  forge : bytes; entire_repository_id : bytes; placement_id : bytes; change_id : bytes;
  api_origin : bytes; address : bytes; project_trail_id : option bytes
}.
Record RemoteTarget := mkRemoteTarget {
  provider : bytes; repository : RepositoryKey; account : bytes; pr : N;
  target_tip : bytes; comparison_base : bytes; head : bytes;
  open : bool; draft : bool; merged : bool; pending_review : bool;
  compare : option CompareRefs; entire : option EntireTarget
}.

Record Snapshot := mkSnapshot {
  id : SnapshotId; title : bytes; origin : bytes; patch : PatchReport;
  remote : option RemoteTarget; comments : list ThreadComment; overview : Overview;
  warnings : list bytes
}.

(** ** Identity *)

(** The fields of a remote target that the identity holds. *)
Definition source_key (r : RemoteTarget) : RepositoryKey * N * bytes * bytes * bytes * bytes :=
  (repository r, pr r, target_tip r, comparison_base r, head r, account r).

(** [serde_json::to_vec] of the two values the identity encodes; the first takes how
    paths are serialized, which the program sets for the encoder. *)
Class SourceJson := {
  source_json : (RepoPath → PathValue) → bytes → PatchReport →
                option (RepositoryKey * N * bytes * bytes * bytes * bytes) → bytes;
  entire_json : option EntireTarget → bytes
}.

Definition identity_tag_of (r : option RemoteTarget) : bytes :=
  match r with
  | Some r => ProviderId.identity_tag (provider r)
  | None => ProviderId.identity_tag ProviderId.GITHUB
  end.
Definition is_entire (r : RemoteTarget) : bool := bool_decide (provider r = ProviderId.ENTIRE).

(** The parts the identity's digest is made of. *)
Definition identity_parts `{SourceJson} (p : PatchReport) (r : option RemoteTarget)
    (origin : bytes) : list bytes :=
  let encoded := source_json (serialize_path true) origin p (source_key <$> r) in
  [identity_tag_of r; encoded]
  ++ match r with
     | Some r => if is_entire r then [entire_json (entire r)] else []
     | None => []
     end.
Definition identity `{Sha256} `{SourceJson} (p : PatchReport) (r : option RemoteTarget)
    (origin : bytes) : SnapshotId := digest (identity_parts p r origin).

Definition with_origin `{Sha256} `{SourceJson} (title : bytes) (p : PatchReport)
    (r : option RemoteTarget) (cs : list ThreadComment) (origin : bytes) : Snapshot :=
  mkSnapshot (identity p r origin) title origin p r cs default_overview [].
Definition Snapshot_new `{Sha256} `{SourceJson} (title : bytes) (p : PatchReport)
    (r : option RemoteTarget) (cs : list ThreadComment) : Snapshot :=
  with_origin title p r cs (bs "patch-bytes").

Definition verify_identity `{Sha256} `{SourceJson} (s : Snapshot) : bool :=
  bool_decide (id s = identity (patch s) (remote s) (origin s)).

(** ** Points and selections *)

Definition file (s : Snapshot) (f : FileId) : option FileChange :=
  find_map (λ c, if bool_decide (file_id c = f) then Some c else None) (files (patch s)).

Definition validate_point (s : Snapshot) (p : SourcePoint) : result bytes PatchRow :=
  if negb (bool_decide (id s = snapshot p))
  then Err (bs "source point comes from a different snapshot")
  else
    r ← ok_or (f ← file s (file_of p); line f (side p) (line_no p))
              (bs "source line is not loaded");
    if negb (is_char_boundary (row_text r) (byte_column p))
    then Err (bs "invalid UTF-8 source column")
    else Ok r.

(** One iteration of the loop of [copy_selection]: the text line [n] adds. *)
Definition copy_line (f : FileChange) (a b : SourcePoint) (n : N) : result bytes bytes :=
  row ← ok_or (line f (side a) n)
          (bs "selection includes unloaded context; choose a smaller range");
  let lo := if (n =? line_no a)%N then byte_column a else 0 in
  let hi := if (n =? line_no b)%N then byte_column b else length (row_text row) in
  text ← ok_or (str_get (row_text row) lo hi) (bs "invalid source selection");
  Ok (text ++ (if negb (n =? line_no b)%N
               then LineEnding.ending_bytes (row_ending row) else [])).
Fixpoint copy_lines (f : FileChange) (a b : SourcePoint) (ns : list N) : result bytes bytes :=
  match ns with
  | [] => Ok []
  | n :: ns' => x ← copy_line f a b n; rest ← copy_lines f a b ns'; Ok (x ++ rest)
  end.

(** [(line, column)] pairs compare lexicographically. *)
Definition point_le (a b : SourcePoint) : bool :=
  (line_no a <? line_no b)%N
  || ((line_no a =? line_no b)%N && (byte_column a <=? byte_column b)%nat).

Definition copy_selection (s : Snapshot) (sel : SourceSelection) : result bytes bytes :=
  let st := sel_start sel in let en := sel_end sel in
  if negb (bool_decide (snapshot st = snapshot en)) || negb (bool_decide (file_of st = file_of en))
     || negb (bool_decide (side st = side en))
  then Err (bs "selection spans multiple files, snapshots, or sides")
  else
    _ ← validate_point s st;
    _ ← validate_point s en;
    let '(a, b) := if point_le st en then (st, en) else (en, st) in
    f ← ok_or (file s (file_of a)) (bs "missing file");
    copy_lines f a b (range (line_no a) (N.to_nat (line_no b + 1 - line_no a))).

(** ** Comment threads of a snapshot (review_details.rs:427-519) *)

Module ThreadLocation.
Inductive ThreadLocation := Line (p : SourcePoint) | File (p : SourcePoint) | Outdated.
End ThreadLocation.
Notation ThreadLocation := ThreadLocation.ThreadLocation.

(** [display_path] is [None] where the code panics: a file without a path. *)
Definition thread_location (s : Snapshot) (c : ThreadComment) : ThreadLocation :=
  match find_map (λ f, if bool_decide (display_path f = Some (comment_path c))
                       then Some f else None) (files (patch s)) with
  | None => ThreadLocation.Outdated
  | Some f =>
      match comment_side c with
      | None => ThreadLocation.Outdated
      | Some sd =>
          match (l ← comment_line c;
                 if bool_decide (file_level c = Some true) then None else Some l) with
          | Some l =>
              let p := mkSourcePoint (id s) (file_id f) sd l 0 in
              if is_ok (validate_point s p) then ThreadLocation.Line p
              else ThreadLocation.Outdated
          | None =>
              if negb (bool_decide (sd = Right))
                 || negb (default (match comment_line c with None => true | _ => false end)
                                  (file_level c))
                 || match remote s with
                    | Some r => negb (bool_decide (commit_id c = head r))
                    | None => false
                    end
              then ThreadLocation.Outdated
              else ThreadLocation.File (mkSourcePoint (id s) (file_id f) sd 0 0)
          end
      end
  end.

Definition is_file_thread (s : Snapshot) (c : ThreadComment) : bool :=
  match thread_location s c with ThreadLocation.File _ => true | _ => false end.

(** The line a context row has on the other side. *)
Definition other_side (r : PatchRow) (sd : Side) : option (Side * N) :=
  match sd with
  | Left => (λ n, (Right, n)) <$> new_line r
  | Right => (λ n, (Left, n)) <$> old_line r
  end.

Definition thread_roots_at (s : Snapshot) (p : SourcePoint) : list N :=
  match file s (file_of p) with
  | None => []
  | Some f =>
      let path := default [] (display_path f) in
      if bool_decide (side p = Right) && (line_no p =? 0)%N then
        foldl (λ roots c,
                 if bool_decide (comment_path c = path) && is_file_thread s c
                 then push_new roots (root_id c) else roots) [] (comments s)
      else
        let roots := threads_at (comments s) path (side p) (line_no p) in
        match (r ← line f (side p) (line_no p);
               if bool_decide (row_kind r = RowKind.Context) then other_side r (side p)
               else None) with
        | Some (sd, n) => foldl push_new roots (threads_at (comments s) path sd n)
        | None => roots
        end
  end.

(** ** Blame over a snapshot *)

Definition with_overview (o : Overview) (s : Snapshot) : Snapshot :=
  mkSnapshot (id s) (title s) (origin s) (patch s) (remote s) (comments s) o (warnings s).
Definition with_blame (from : Snapshot) (found : BlameRead) : Snapshot :=
  let o := overview from in
  with_overview
    (mkOverview (description o) (overview_author o) (decision o) (checks o) (notices o)
       (captured_at o) (conversation o) (releases o) (BTree.extend (blame o) found)) from.
