(* ===== verification/SnapshotFacts.v ===== *)
(** * Snapshots: what an identity binds, what a selection copies, where threads show *)

From S2P Require Import Prelude RustStr Utf8 Domain Patch PatchFacts BTree Overview Snapshot.

(** ** Paths as serialized values *)

Lemma serialize_path_roundtrip legacy p :
  safe_path (RepoPath.path_bytes p) → deserialize_path (serialize_path legacy p) = Ok p.
Proof.
  intros Hp. assert (RepoPath.new (RepoPath.path_bytes p) = Ok p) as Hn.
  { apply RepoPath_new_Ok. by destruct p. }
  unfold serialize_path. by case_match.
Qed.

#[export] Instance serialize_path_inj legacy : Inj (=) (=) (serialize_path legacy).
Proof.
  intros [p] [q]. unfold serialize_path. cbn. intros H. repeat case_match; congruence.
Qed.

(** ** Identity *)

(** What the JSON encoder guarantees: different values have different encodings. *)
Class SourceJsonLaws `{SourceJson} : Prop := {
  source_json_inj ser o p k o' p' k' :
    Inj (=) (=) ser → source_json ser o p k = source_json ser o' p' k' →
    o = o' ∧ p = p' ∧ k = k';
  entire_json_inj :: Inj (=) (=) entire_json
}.

(** The Entire target that a remote's identity holds. *)
Definition bound_entire (r : option RemoteTarget) : option (option EntireTarget) :=
  r ← r; if is_entire r then Some (entire r) else None.

Lemma identity_parts_inj `{SourceJsonLaws} p r o p' r' o' :
  identity_parts p r o = identity_parts p' r' o' →
  o = o' ∧ p = p' ∧ source_key <$> r = source_key <$> r' ∧
  identity_tag_of r = identity_tag_of r' ∧ bound_entire r = bound_entire r'.
Proof.
  unfold identity_parts. cbv zeta. intros Heq. cbn [app] in Heq.
  injection Heq as Htag Hjson Hent.
  apply source_json_inj in Hjson as (-> & -> & Hk); [|apply _]. split_and!; try done.
  unfold bound_entire. destruct r as [r|], r' as [r'|]; cbn; try done;
    repeat case_match; try done. injection Hent as Hent. by apply entire_json_inj in Hent as ->.
Qed.

(** C21: a snapshot's identity binds its source. Two snapshots whose identities verify
    and are equal have the same origin, the same patch down to every byte, the same
    repository, number, commits and account, the same kind of provider and the same
    Entire target, unless they exhibit a SHA-256 collision. *)
Theorem verified_identity_binds_source `{Sha256, SourceJsonLaws} s1 s2 :
  verify_identity s1 = true → verify_identity s2 = true → id s1 = id s2 →
  Forall part_fits (identity_parts (patch s1) (remote s1) (origin s1)) →
  Forall part_fits (identity_parts (patch s2) (remote s2) (origin s2)) →
  (origin s1 = origin s2 ∧ patch s1 = patch s2 ∧
   source_key <$> remote s1 = source_key <$> remote s2 ∧
   identity_tag_of (remote s1) = identity_tag_of (remote s2) ∧
   bound_entire (remote s1) = bound_entire (remote s2))
  ∨ ∃ x y, x ≠ y ∧ sha256 x = sha256 y.
Proof.
  unfold verify_identity, identity. intros Hv1%bool_decide_eq_true Hv2%bool_decide_eq_true Hid Hf1 Hf2.
  rewrite Hid, Hv2 in Hv1. destruct (digest_collision _ _ Hf2 Hf1 Hv1) as [Heq|Hc]; [left|by right].
  by apply identity_parts_inj in Heq as (-> & -> & -> & -> & ->).
Qed.

Lemma with_origin_verifies `{Sha256, SourceJson} t p r cs o :
  verify_identity (with_origin t p r cs o) = true.
Proof. by apply bool_decide_eq_true. Qed.

(** ** Copying a selection *)

(** The text of loaded lines [ns] of one side: each with its ending, but the last. *)
Fixpoint lines_text (rs : list PatchRow) : bytes :=
  match rs with
  | [] => []
  | [r] => row_text r
  | r :: rs' => row_text r ++ LineEnding.ending_bytes (row_ending r) ++ lines_text rs'
  end.

(** The rows of lines [ns]. *)
Definition loaded (f : FileChange) (s : Side) (ns : list N) (rs : list PatchRow) : Prop :=
  Forall2 (λ n r, line f s n = Some r) ns rs.

Lemma str_get_Some s lo hi t :
  str_get s lo hi = Some t ↔
  lo <= hi ∧ is_char_boundary s lo = true ∧ is_char_boundary s hi = true ∧
  t = take (hi - lo) (drop lo s).
Proof.
  unfold str_get. destruct (lo <=? hi)%nat eqn:E1; cbn; to_prop.
  - destruct (is_char_boundary s lo), (is_char_boundary s hi); naive_solver.
  - split; [done|]. intros (? & _). lia.
Qed.

Lemma char_boundary_le s i : is_char_boundary s i = true → i <= length s.
Proof.
  unfold is_char_boundary. destruct i as [|i]; [lia|].
  destruct (s !! S i) eqn:E; [apply lookup_lt_Some in E; lia|].
  intros ?. to_prop. lia.
Qed.

Lemma char_boundary_end s : is_char_boundary s (length s) = true.
Proof.
  unfold is_char_boundary. destruct (length s) eqn:E; [done|].
  rewrite (proj2 (lookup_ge_None s (S n))) by lia. by apply Nat.eqb_eq.
Qed.

(** One line of a selection, at the ends of the lines [a] to [b]. *)
Definition line_lo (a : SourcePoint) (n : N) : nat :=
  if (n =? line_no a)%N then byte_column a else 0.
Definition line_hi (b : SourcePoint) (n : N) (r : PatchRow) : nat :=
  if (n =? line_no b)%N then byte_column b else length (row_text r).

Lemma copy_line_Ok f a b n x :
  copy_line f a b n = Ok x ↔
  ∃ r t, line f (side a) n = Some r ∧ str_get (row_text r) (line_lo a n) (line_hi b n r) = Some t ∧
         x = t ++ (if (n =? line_no b)%N then [] else LineEnding.ending_bytes (row_ending r)).
Proof.
  unfold copy_line. destruct (line f (side a) n) as [r|]; cbn; [|naive_solver].
  fold (line_lo a n) (line_hi b n r).
  destruct (str_get _ _ _) as [t|] eqn:E; cbn.
  - destruct (n =? line_no b)%N; cbn; naive_solver.
  - split; [done|]. intros (r' & t & [= <-] & Ht & _). congruence.
Qed.

Lemma lines_text_last rs r c :
  last rs = Some r → ∃ z, lines_text rs = z ++ drop c (row_text r).
Proof.
  induction rs as [|r1 rs IH]; [done|]. destruct rs as [|r2 rs]; intros Hlast.
  - injection Hlast as ->. exists (take c (row_text r)). cbn. by rewrite take_drop.
  - rewrite last_cons_cons in Hlast. destruct (IH Hlast) as [z Hz].
    exists (row_text r1 ++ LineEnding.ending_bytes (row_ending r1) ++ z).
    change (lines_text (r1 :: r2 :: rs))
      with (row_text r1 ++ LineEnding.ending_bytes (row_ending r1) ++ lines_text (r2 :: rs)).
    rewrite Hz. by rewrite <- !app_assoc.
Qed.

(** A line inside the selection adds all of its text and its ending. *)
Lemma copy_line_inner f a b n x :
  line_no a ≠ n → line_no b ≠ n →
  copy_line f a b n = Ok x ↔
  ∃ r, line f (side a) n = Some r ∧
       x = row_text r ++ LineEnding.ending_bytes (row_ending r).
Proof.
  intros Ha Hb. rewrite copy_line_Ok.
  unfold line_lo, line_hi. rewrite !(proj2 (N.eqb_neq _ _)) by done.
  assert (∀ r, str_get (row_text r) 0 (length (row_text r)) = Some (row_text r)) as Hget.
  { intros r. apply str_get_Some.
    split_and!; [lia|done|apply char_boundary_end|]. by rewrite Nat.sub_0_r, drop_0, take_ge. }
  setoid_rewrite Hget. naive_solver.
Qed.

(** The last line, when it is not the first one, adds its text up to the end's column. *)
Lemma copy_line_last f a b n x :
  line_no a ≠ n → line_no b = n →
  copy_line f a b n = Ok x ↔
  ∃ r, line f (side a) n = Some r ∧ is_char_boundary (row_text r) (byte_column b) = true ∧
       x ++ drop (byte_column b) (row_text r) = row_text r.
Proof.
  intros Ha Hb. rewrite copy_line_Ok. unfold line_lo, line_hi.
  rewrite (proj2 (N.eqb_neq n (line_no a))), (proj2 (N.eqb_eq n (line_no b))) by done.
  assert (∀ r t, str_get (row_text r) 0 (byte_column b) = Some t ↔
    is_char_boundary (row_text r) (byte_column b) = true ∧ t = take (byte_column b) (row_text r))
    as Hget.
  { intros r t. rewrite str_get_Some, Nat.sub_0_r, drop_0. split; [tauto|].
    intros [? ?]. split_and!; [lia|done..]. }
  setoid_rewrite Hget. split.
  - intros (r & t & Hr & (Hbd & ->) & ->). exists r.
    rewrite app_nil_r, take_drop. done.
  - intros (r & Hr & Hbd & Hx). exists r, x. rewrite app_nil_r. split_and!; [done|done| |done].
    apply (app_inv_tail (drop (byte_column b) (row_text r))). by rewrite take_drop.
Qed.

(** The lines after the first, up to the last one. *)
Lemma copy_lines_tail f a b m out n :
  (line_no a < n)%N → line_no b = (n + N.of_nat m)%N →
  copy_lines f a b (range n (S m)) = Ok out ↔
  ∃ rs r, loaded f (side a) (range n (S m)) rs ∧ last rs = Some r ∧
          is_char_boundary (row_text r) (byte_column b) = true ∧
          out ++ drop (byte_column b) (row_text r) = lines_text rs.
Proof.
  revert out n. induction m as [|m IH]; intros out n Ha Hb.
  - rewrite range_cons. cbn [copy_lines range seq fmap list_fmap]. rewrite bind_Ok.
    setoid_rewrite copy_line_last; [|lia..]. split.
    + intros (x & (r & Hr & Hbd & Hx) & [= <-]). exists [r], r. rewrite app_nil_r.
      split_and!; [by repeat constructor|done|done|done].
    + intros (rs & r & Hl & Hlast & Hbd & Ht). inversion Hl as [|? r' ? ? Hr Hnil]; subst.
      inversion Hnil; subst. injection Hlast as ->. exists out.
      split; [by exists r|]. cbn. by rewrite app_nil_r.
  - specialize (λ out, IH out (n + 1)%N ltac:(lia) ltac:(lia)).
    rewrite (range_cons n (S m)). cbn [copy_lines]. rewrite bind_Ok.
    setoid_rewrite copy_line_inner; [|lia..]. split.
    + intros (x & (r & Hr & ->) & (y & Hy & [= <-])%bind_Ok).
      apply IH in Hy as (rs & rl & Hl & Hlast & Hbd & Ht).
      exists (r :: rs), rl. destruct rs as [|r2 rs]; [done|].
      split_and!; [by constructor|by rewrite last_cons_cons|done|].
      rewrite <- app_assoc, Ht. cbn [lines_text]. by rewrite <- !app_assoc.
    + intros (rs & rl & Hl & Hlast & Hbd & Ht). inversion Hl as [|? r ? rs' Hr Hl']; subst.
      destruct rs' as [|r2 rs']; [rewrite range_cons in Hl'; inversion Hl'|].
      rewrite last_cons_cons in Hlast.
      destruct (lines_text_last _ _ (byte_column b) Hlast) as [z Hz].
      change (lines_text (r :: r2 :: rs')) with
        (row_text r ++ LineEnding.ending_bytes (row_ending r) ++ lines_text (r2 :: rs')) in Ht.
      rewrite Hz, !app_assoc in Ht. apply app_inv_tail in Ht as ->.
      exists (row_text r ++ LineEnding.ending_bytes (row_ending r)). split; [by exists r|].
      apply bind_Ok. exists z. split; [|done]. apply IH. by exists (r2 :: rs'), rl.
Qed.

(** What the lines [rs] of a selection from [a] to [b] and the copied text [out] have to do
    with one another: the text before the selection, the copy and the text after it
    make up the lines. *)
Definition copied (f : FileChange) (a b : SourcePoint) (rs : list PatchRow) (out : bytes) : Prop :=
  loaded f (side a) (range (line_no a) (N.to_nat (line_no b + 1 - line_no a))) rs ∧
  ∃ r0 rl, hd_error rs = Some r0 ∧ last rs = Some rl ∧
    is_char_boundary (row_text r0) (byte_column a) = true ∧
    is_char_boundary (row_text rl) (byte_column b) = true ∧
    take (byte_column a) (row_text r0) ++ out ++ drop (byte_column b) (row_text rl)
    = lines_text rs.

Lemma loaded_cons f sd n ns r rs :
  loaded f sd (n :: ns) (r :: rs) ↔ line f sd n = Some r ∧ loaded f sd ns rs.
Proof. unfold loaded. by rewrite Forall2_cons. Qed.

Lemma take_mid_drop (t x : bytes) lo hi :
  lo <= hi → hi <= length t →
  x = take (hi - lo) (drop lo t) ↔ take lo t ++ x ++ drop hi t = t.
Proof.
  intros Hlo Hhi. assert (take lo t ++ take (hi - lo) (drop lo t) ++ drop hi t = t) as Ht.
  { replace (drop hi t) with (drop (hi - lo) (drop lo t)) by (rewrite drop_drop; f_equal; lia).
    by rewrite take_drop, take_drop. }
  split; [by intros ->|]. intros Hx. rewrite <- Ht in Hx at 3.
  apply app_inv_head in Hx. by apply app_inv_tail in Hx.
Qed.

Lemma copy_one_line f a b out :
  line_no a = line_no b → byte_column a <= byte_column b →
  copy_lines f a b [line_no a] = Ok out ↔ ∃ r, copied f a b [r] out.
Proof.
  intros Hl Hc. cbn [copy_lines]. rewrite bind_Ok. unfold copied.
  replace (N.to_nat (line_no b + 1 - line_no a)) with 1 by lia. rewrite range_cons.
  change (range (line_no a + 1) 0) with (@nil N). cbn [hd_error last lines_text].
  setoid_rewrite copy_line_Ok. unfold line_lo, line_hi. rewrite Hl, N.eqb_refl.
  split.
  - intros (x & (r & t & Hr & (_ & Ha & Hb & Ht)%str_get_Some & ->) & [= <-]).
    exists r. rewrite !app_nil_r. split; [by apply loaded_cons; split; [|constructor]|].
    exists r, r. split_and!; [done..|]. apply take_mid_drop; [done| |done].
    by apply char_boundary_le.
  - intros (r & [Hr _]%loaded_cons & r0 & rl & [= <-] & [= <-] & Ha & Hb & Ht).
    exists out. cbn [mbind result_bind]. rewrite app_nil_r. split; [|done]. exists r, out. rewrite app_nil_r.
    split_and!; [done| |done]. apply str_get_Some. split_and!; [done..|].
    apply take_mid_drop; [done| |done]. by apply char_boundary_le.
Qed.

(** The first line of a selection that goes on after it. *)
Lemma copy_line_first f a b x :
  (line_no a < line_no b)%N →
  copy_line f a b (line_no a) = Ok x ↔
  ∃ r, line f (side a) (line_no a) = Some r ∧
       is_char_boundary (row_text r) (byte_column a) = true ∧
       take (byte_column a) (row_text r) ++ x
       = row_text r ++ LineEnding.ending_bytes (row_ending r).
Proof.
  intros Hl. rewrite copy_line_Ok. unfold line_lo, line_hi. rewrite N.eqb_refl.
  rewrite (proj2 (N.eqb_neq _ _)) by lia. split.
  - intros (r & t & Hr & (_ & Ha & _ & ->)%str_get_Some & ->). exists r.
    split_and!; [done..|]. rewrite app_assoc. f_equal.
    rewrite (take_ge (drop _ _)) by (rewrite length_drop; lia). apply take_drop.
  - intros (r & Hr & Ha & Hx). exists r, (drop (byte_column a) (row_text r)).
    split_and!; [done| |].
    + apply str_get_Some. split_and!; [by apply char_boundary_le|done|apply char_boundary_end|].
      rewrite take_ge; [done|]. rewrite length_drop. lia.
    + apply (app_inv_head (take (byte_column a) (row_text r))).
      by rewrite Hx, app_assoc, take_drop.
Qed.

Lemma copy_many_lines f a b out :
  (line_no a < line_no b)%N →
  copy_lines f a b (range (line_no a) (N.to_nat (line_no b + 1 - line_no a))) = Ok out
  ↔ ∃ rs, copied f a b rs out.
Proof.
  intros Hl. unfold copied.
  assert (∃ m, N.to_nat (line_no b + 1 - line_no a) = S (S m) ∧
               line_no b = line_no a + 1 + N.of_nat m)%N as (m & -> & Hm).
  { exists (N.to_nat (line_no b - line_no a - 1)). lia. }
  rewrite (range_cons _ (S m)). cbn [copy_lines]. rewrite bind_Ok.
  setoid_rewrite copy_line_first; [|done]. setoid_rewrite bind_Ok.
  setoid_rewrite (copy_lines_tail f a b m); [|lia|done]. split.
  - intros (x & (r & Hr & Ha & Hx) & y & (rs & rl & Hrs & Hlast & Hb & Hy) & [= <-]).
    exists (r :: rs). split; [by apply loaded_cons|]. exists r, rl.
    destruct rs as [|r2 rs]; [done|]. rewrite last_cons_cons. split_and!; [done..|].
    rewrite <- app_assoc, Hy, app_assoc, Hx. cbn [lines_text]. by rewrite <- app_assoc.
  - intros (rs & Hrs & r0 & rl & Hhd & Hlast & Ha & Hb & Ht).
    destruct rs as [|r [|r2 rs]]; [done| |].
    { apply loaded_cons in Hrs as [_ Hrs]. rewrite range_cons in Hrs. inversion Hrs. }
    injection Hhd as <-. apply loaded_cons in Hrs as [Hr Hrs]. rewrite last_cons_cons in Hlast.
    destruct (lines_text_last _ _ (byte_column b) Hlast) as [z Hz].
    change (lines_text (r :: r2 :: rs)) with
      (row_text r ++ LineEnding.ending_bytes (row_ending r) ++ lines_text (r2 :: rs)) in Ht.
    exists (drop (byte_column a) (row_text r) ++ LineEnding.ending_bytes (row_ending r)).
    split; [exists r; split_and!; [done..|by rewrite app_assoc, take_drop]|].
    exists z. split; [by exists (r2 :: rs), rl|]. f_equal. symmetry.
    apply (app_inv_head (take (byte_column a) (row_text r))).
    apply (app_inv_tail (drop (byte_column b) (row_text rl))).
    rewrite <- app_assoc, Ht, Hz. rewrite <- !app_assoc.
    by rewrite (app_assoc (take _ _)), take_drop.
Qed.

(** The two ends of a selection in the order of the file. *)
Definition ends (sel : SourceSelection) : SourcePoint * SourcePoint :=
  if point_le (sel_start sel) (sel_end sel)
  then (sel_start sel, sel_end sel) else (sel_end sel, sel_start sel).

Lemma validate_point_Ok s p r :
  validate_point s p = Ok r ↔
  id s = snapshot p ∧ ∃ f, file s (file_of p) = Some f ∧ line f (side p) (line_no p) = Some r ∧
  is_char_boundary (row_text r) (byte_column p) = true.
Proof.
  unfold validate_point. destruct (decide (id s = snapshot p)) as [Hid|Hid].
  2:{ rewrite bool_decide_false by done. cbn. naive_solver. }
  rewrite bool_decide_true by done. cbn [negb].
  destruct (file s (file_of p)) as [f|]; cbn; [|by split; [|intros (_ & f & ? & _)]].
  destruct (line f (side p) (line_no p)) as [r'|] eqn:El; cbn.
  2:{ split; [done|]. intros (_ & f' & [= <-] & ? & _). congruence. }
  destruct (is_char_boundary (row_text r') (byte_column p)) eqn:E; cbn.
  - split; [intros [= <-]; eauto|]. intros (_ & f' & [= <-] & ? & _). congruence.
  - split; [done|]. intros (_ & f' & [= <-] & ? & ?). congruence.
Qed.

Lemma point_le_spec a b :
  point_le a b = true ↔
  (line_no a < line_no b)%N ∨ line_no a = line_no b ∧ byte_column a <= byte_column b.
Proof.
  unfold point_le. rewrite orb_true_iff, andb_true_iff, N.ltb_lt, N.eqb_eq, Nat.leb_le. tauto.
Qed.

Lemma ends_ordered sel : point_le (ends sel).1 (ends sel).2 = true.
Proof.
  unfold ends. destruct (point_le (sel_start sel) (sel_end sel)) eqn:E; [done|]. cbn.
  apply point_le_spec. apply not_true_iff_false in E. rewrite point_le_spec in E. lia.
Qed.

(** The ends of a selection lie in one snapshot, file and side. *)
Definition one_side (sel : SourceSelection) : Prop :=
  snapshot (sel_start sel) = snapshot (sel_end sel) ∧
  file_of (sel_start sel) = file_of (sel_end sel) ∧ side (sel_start sel) = side (sel_end sel).

Lemma copied_valid f a b rs out :
  point_le a b = true → side a = side b → copied f a b rs out →
  (∃ r, line f (side a) (line_no a) = Some r ∧ is_char_boundary (row_text r) (byte_column a) = true) ∧
  (∃ r, line f (side b) (line_no b) = Some r ∧ is_char_boundary (row_text r) (byte_column b) = true).
Proof.
  intros Hle Hside (Hl & r0 & rl & Hhd & Hlast & Ha & Hb & _).
  apply point_le_spec in Hle.
  assert (∃ m, N.to_nat (line_no b + 1 - line_no a) = S m) as [m Hm].
  { exists (N.to_nat (line_no b - line_no a)). lia. }
  rewrite Hm in Hl. split.
  - exists r0. split; [|done]. rewrite range_cons in Hl.
    destruct rs as [|r rs]; [done|]. injection Hhd as ->. by apply loaded_cons in Hl as [].
  - exists rl. split; [|done]. rewrite range_snoc in Hl.
    apply Forall2_app_inv_l in Hl as (rs1 & rs2 & _ & Hl & ->).
    inversion Hl as [|? r ? ? Hr Hnil]; subst. inversion Hnil; subst.
    rewrite last_snoc in Hlast. injection Hlast as ->. rewrite <- Hside. cbn in Hr.
    by replace (line_no b) with (line_no a + N.of_nat m)%N by lia.
Qed.

Lemma copy_lines_exact f a b out :
  point_le a b = true →
  copy_lines f a b (range (line_no a) (N.to_nat (line_no b + 1 - line_no a))) = Ok out
  ↔ ∃ rs, copied f a b rs out.
Proof.
  intros [Hlt|[Heq Hc]]%point_le_spec; [by apply copy_many_lines|].
  replace (N.to_nat (line_no b + 1 - line_no a)) with 1 by lia.
  rewrite range_cons. etrans; [by apply copy_one_line|]. split; [intros [r Hr]; eauto|].
  intros [rs Hrs]. pose proof Hrs as [Hl _]. unfold loaded in Hl.
  replace (N.to_nat (line_no b + 1 - line_no a)) with 1 in Hl by lia. rewrite range_cons in Hl.
  inversion Hl as [|? r ? ? _ Hnil]; subst. inversion Hnil; subst. eauto.
Qed.

(** Copying is exact. A selection copies exactly when its ends lie in this snapshot,
    in one file and side, on loaded lines and character boundaries, with every line
    between them loaded; and then the copy, put back between the text before the
    selection and the text after it, gives the lines with their endings. Which end
    the selection starts from makes no difference. *)
Theorem copy_selection_exact s sel out :
  copy_selection s sel = Ok out ↔
  let '(a, b) := ends sel in
  one_side sel ∧ id s = snapshot a ∧
  ∃ f rs, file s (file_of a) = Some f ∧ copied f a b rs out.
Proof.
  unfold copy_selection. cbv zeta. fold (ends sel). unfold one_side.
  destruct (decide (one_side sel)) as [(H1 & H2 & H3)|Hone].
  2:{ unfold one_side in Hone. destruct (ends sel) as [a b].
      repeat case_bool_decide; cbn; naive_solver. }
  rewrite !bool_decide_true by done. cbn [negb orb].
  pose proof (ends_ordered sel) as Hle.
  assert (∀ P : SourcePoint → Prop, P (sel_start sel) ∧ P (sel_end sel)
            ↔ P (ends sel).1 ∧ P (ends sel).2) as Hswap.
  { intros P. unfold ends. destruct (point_le (sel_start sel) (sel_end sel)); cbn; tauto. }
  assert (file_of (ends sel).1 = file_of (ends sel).2 ∧ side (ends sel).1 = side (ends sel).2 ∧
          snapshot (ends sel).1 = snapshot (ends sel).2) as (E1 & E2 & E3).
  { unfold ends. destruct (point_le (sel_start sel) (sel_end sel)); done. }
  rewrite bind_Ok. setoid_rewrite bind_Ok.
  assert (∀ Q : Prop, (∃ r1, validate_point s (sel_start sel) = Ok r1 ∧
            ∃ r2, validate_point s (sel_end sel) = Ok r2 ∧ Q) ↔
          ((∃ r, validate_point s (ends sel).1 = Ok r) ∧
           (∃ r, validate_point s (ends sel).2 = Ok r)) ∧ Q) as Hvalid.
  { intros Q. rewrite <- (Hswap (λ p, ∃ r, validate_point s p = Ok r)). naive_solver. }
  rewrite Hvalid. destruct (ends sel) as [a b]. cbn [fst snd] in *.
  rewrite bind_Ok. setoid_rewrite ok_or_Ok. setoid_rewrite validate_point_Ok.
  setoid_rewrite copy_lines_exact; [|done].  split.
  - intros (((r1 & Hid & _) & _) & f & Hf & rs & Hrs). by eauto 10.
  - intros (_ & Hid & f & rs & Hf & Hrs).
    destruct (copied_valid f a b rs out Hle E2 Hrs) as [(r1 & Hr1 & Hb1) (r2 & Hr2 & Hb2)].
    split; [split|]; [exists r1|exists r2|by eauto].
    + split; [done|]. by exists f.
    + split; [congruence|]. exists f. split_and!; [congruence|done..].
Qed.

(** ** Threads *)

Lemma push_new_elem roots x y : x ∈ push_new roots y ↔ x ∈ roots ∨ x = y.
Proof.
  unfold push_new. case_bool_decide; [naive_solver|].
  by rewrite elem_of_app, list_elem_of_singleton.
Qed.

Lemma push_all_elem roots l x : x ∈ foldl push_new roots l ↔ x ∈ roots ∨ x ∈ l.
Proof.
  revert roots. induction l as [|y l IH]; intros roots; cbn [foldl].
  { rewrite elem_of_nil. tauto. }
  rewrite IH, push_new_elem, elem_of_cons. tauto.
Qed.

Lemma numbered_positive f s r n :
  file_wf f → r ∈ all_rows f → row_number r s = Some n → (0 < n)%N.
Proof.
  intros [Hw _ _] (h & Hh & Hr)%all_rows_elem Hn. rewrite Forall_forall in Hw.
  assert (side_start h s <= n < side_end h s)%N by (apply hunk_number; eauto).
  pose proof (hw_range _ (Hw h Hh) s) as [_ Hrange]. unfold side_end in *. lia.
Qed.

(** The threads of a line that a context row shows: those of either side. *)
Lemma thread_roots_context s f r sd n other m x :
  file s (file_id f) = Some f → file_wf f → r ∈ all_rows f → row_kind r = RowKind.Context →
  row_number r sd = Some n → other_side r sd = Some (other, m) →
  x ∈ thread_roots_at s (mkSourcePoint (id s) (file_id f) sd n 0) ↔
  x ∈ threads_at (comments s) (default [] (display_path f)) sd n
  ∨ x ∈ threads_at (comments s) (default [] (display_path f)) other m.
Proof.
  intros Hf Hw Hr Hk Hn Ho. unfold thread_roots_at. cbn [file_of side line_no]. rewrite Hf.
  pose proof (numbered_positive _ _ _ _ Hw Hr Hn).
  rewrite (proj2 (N.eqb_neq n 0)), andb_false_r by lia. cbv zeta.
  rewrite (line_exact f sd n r) by done. cbn [mbind option_bind].
  rewrite bool_decide_true by done. rewrite Ho. apply push_all_elem.
Qed.

(** A line both sides show has the same comment threads on both: in an accepted
    file, the threads found from a context row's old line are those found from its
    new line. *)
Theorem context_threads_agree s f r n m x :
  file s (file_id f) = Some f → file_wf f → r ∈ all_rows f → row_kind r = RowKind.Context →
  old_line r = Some n → new_line r = Some m →
  x ∈ thread_roots_at s (mkSourcePoint (id s) (file_id f) Left n 0) ↔
  x ∈ thread_roots_at s (mkSourcePoint (id s) (file_id f) Right m 0).
Proof.
  intros Hf Hw Hr Hk Hn Hm.
  rewrite (thread_roots_context s f r Left n Right m) by (try done; cbn; by rewrite Hm).
  rewrite (thread_roots_context s f r Right m Left n) by (try done; cbn; by rewrite Hn).
  tauto.
Qed.

(** ** A concrete encoder

    An encoding that satisfies [SourceJsonLaws]: the bits of stdpp's [encode]. It
    stands for [serde_json] in the witness only. *)

Fixpoint pos_bytes (p : positive) : bytes :=
  match p with
  | xH => [u8_of 2] | xO p => u8_of 0 :: pos_bytes p | xI p => u8_of 1 :: pos_bytes p
  end.
#[export] Instance pos_bytes_inj : Inj (=) (=) pos_bytes.
Proof.
  intros p. induction p as [p IH|p IH|]; intros [q|q|] H; try done; cbn in H;
    injection H as H; f_equal; auto.
Qed.

Definition kind_code (k : ChangeKind) : nat :=
  match k with
  | ChangeKind.Added => 0 | ChangeKind.Deleted => 1 | ChangeKind.Modified => 2
  | ChangeKind.Renamed => 3 | ChangeKind.Copied => 4
  end.
Definition content_code (k : ContentKind) : nat :=
  match k with ContentKind.Text => 0 | ContentKind.Binary => 1 | ContentKind.Submodule => 2 end.
Definition row_code (k : RowKind) : nat :=
  match k with RowKind.Context => 0 | RowKind.Added => 1 | RowKind.Removed => 2 end.
Definition ending_code (e : LineEnding) : nat :=
  match e with LineEnding.Lf => 0 | LineEnding.CrLf => 1 | LineEnding.None => 2 end.
Definition path_code (v : PathValue) : bool * bytes :=
  match v with PathStr s => (true, s) | PathSeq s => (false, s) end.

Definition row_tuple (r : PatchRow) :=
  (old_line r, new_line r, row_text r, ending_code (row_ending r), row_code (row_kind r)).
Definition hunk_tuple (h : Hunk) :=
  (old_start h, old_count h, new_start h, new_count h, section h, row_tuple <$> rows h).
Definition file_tuple (ser : RepoPath → PathValue) (f : FileChange) :=
  (file_id f, (path_code ∘ ser) <$> old_path f, (path_code ∘ ser) <$> new_path f,
   kind_code (change_kind f), content_code (content_kind f),
   (old_mode f, new_mode f, old_oid f, new_oid f), hunk_tuple <$> hunks f, metadata f).
Definition key_tuple (k : RepositoryKey * N * bytes * bytes * bytes * bytes) :=
  let '(r, n, a, b, c, d) := k in
  (host r, repository_id r, owner r, repository_name r, n, (a, b, c, d)).
Definition entire_tuple (e : EntireTarget) :=
  (forge e, entire_repository_id e, placement_id e, change_id e, api_origin e, address e,
   project_trail_id e).

#[export] Instance row_tuple_inj : Inj (=) (=) row_tuple.
Proof.
  intros [o n t e k] [o' n' t' e' k']. unfold row_tuple. cbn. intros [= -> -> -> He Hk].
  destruct e, e', k, k'; done.
Qed.
#[export] Instance hunk_tuple_inj : Inj (=) (=) hunk_tuple.
Proof.
  intros [a b c d s rs] [a' b' c' d' s' rs']. unfold hunk_tuple. cbn.
  intros [= -> -> -> -> -> Hr]. by apply (inj (fmap row_tuple)) in Hr as ->.
Qed.
#[export] Instance path_code_inj : Inj (=) (=) path_code.
Proof. intros [s|s] [t|t]; cbn; congruence. Qed.
#[export] Instance file_tuple_inj ser : Inj (=) (=) ser → Inj (=) (=) (file_tuple ser).
Proof.
  intros Hser [i op np k c om nm oo no hs md] [i' op' np' k' c' om' nm' oo' no' hs' md'].
  unfold file_tuple. cbn. intros Heq.
  injection Heq as -> Hop Hnp Hk Hc -> -> -> -> Hhs ->.
  apply (inj (fmap (path_code ∘ ser))) in Hop as ->, Hnp as ->.
  apply (inj (fmap hunk_tuple)) in Hhs as ->. f_equal; [by destruct k, k'|by destruct c, c'].
Qed.
#[export] Instance key_tuple_inj : Inj (=) (=) key_tuple.
Proof.
  intros [[[[[[h i o n] p] a] b] c] d] [[[[[[h' i' o' n'] p'] a'] b'] c'] d']. cbn. congruence.
Qed.
#[export] Instance entire_tuple_inj : Inj (=) (=) entire_tuple.
Proof. intros [] []. unfold entire_tuple. cbn. congruence. Qed.

Definition bits_json : SourceJson := {|
  source_json ser o p k := pos_bytes (countable.encode (o, file_tuple ser <$> files p, key_tuple <$> k));
  entire_json e := pos_bytes (countable.encode (entire_tuple <$> e))
|}.

Lemma bits_json_laws : @SourceJsonLaws bits_json.
Proof.
  split.
  - intros ser o [fs] k o' [fs'] k' Hser. cbn. intros H%(inj pos_bytes)%(inj countable.encode).
    injection H as -> Hf Hk. apply (inj (fmap (file_tuple ser))) in Hf as ->.
    apply (inj (fmap key_tuple)) in Hk as ->. done.
  - intros e e'. cbn. intros H%(inj pos_bytes)%(inj countable.encode).
    by apply (inj (fmap entire_tuple)) in H.
Qed.

(** ** Witnesses *)

Example verified_identity_binds_source_witness :
  let sha : Sha256 := λ s, s in
  let json := bits_json in
  let s t := with_origin t (mkPatchReport []) None [] (bs "o") in
  (origin (s (bs "a")) = origin (s (bs "b")) ∧ patch (s (bs "a")) = patch (s (bs "b")) ∧
   source_key <$> remote (s (bs "a")) = source_key <$> remote (s (bs "b")) ∧
   identity_tag_of (remote (s (bs "a"))) = identity_tag_of (remote (s (bs "b"))) ∧
   bound_entire (remote (s (bs "a"))) = bound_entire (remote (s (bs "b"))))
  ∨ ∃ x y, x ≠ y ∧ sha256 x = sha256 y.
Proof.
  apply (@verified_identity_binds_source (λ s, s) bits_json bits_json_laws);
    [vm_compute; reflexivity|vm_compute; reflexivity|vm_compute; reflexivity|..];
    repeat constructor; vm_compute; discriminate.
Defined.

Definition thread_comment : ThreadComment :=
  mkThreadComment 5 5 (bs "f") (Some Right) (Some 7%N) None None (bs "hi") (bs "me") [] None.
Definition thread_snapshot : Snapshot :=
  mkSnapshot (bs "s") [] [] (mkPatchReport [sample_file]) None [thread_comment]
    default_overview [].

Example context_threads_agree_witness :
  5%N ∈ thread_roots_at thread_snapshot (mkSourcePoint (bs "s") [] Left 7 0) ↔
  5%N ∈ thread_roots_at thread_snapshot (mkSourcePoint (bs "s") [] Right 7 0).
Proof.
  apply (context_threads_agree thread_snapshot sample_file
           (mkPatchRow (Some 7%N) (Some 7%N) (bs "x") LineEnding.Lf RowKind.Context));
    [vm_compute; reflexivity|apply sample_file_wf|by left|reflexivity..].
Defined.
