(* ===== verification/Annotation.v ===== *)
(** * Annotations of a review ([crates/core/src/annotation.rs])

    What annotators find, where it may be anchored, and the built-in check of added lines.
    [cancelled k] says whether the [k]-th look at the cancellation finds it cancelled; a [None]
    is the panic of [display_path] on a file without a path. *)

From S2P Require Import Prelude RustStr Utf8 Domain Patch PatchFacts Overview Snapshot.

Module Severity.
Inductive Severity := Note | Info | Warning | Error.
#[export] Instance Severity_eq_dec : EqDecision Severity.
Proof. solve_decision. Defined.
End Severity.
Export (hints) Severity.
Notation Severity := Severity.Severity.

Inductive Anchor :=
| AtFile (path : bytes)
| AtLines (path : bytes) (side : Side) (start end_ : N).
#[export] Instance Anchor_eq_dec : EqDecision Anchor.
Proof. solve_decision. Defined.
Definition anchor_path (a : Anchor) : bytes :=
  match a with AtFile p | AtLines p _ _ _ => p end.
Definition covers (a : Anchor) (s : Side) (n : N) : bool :=
  match a with
  | AtLines _ side start end_ => bool_decide (side = s) && (start <=? n)%N && (n <=? end_)%N
  | AtFile _ => false
  end.

Record Annotation := mkAnnotation {
  anchor : Anchor; severity : Severity; an_title : bytes; body : option bytes; source : bytes
}.

(** [files.iter().find], which computes each path as it goes. *)
Fixpoint find_displayed (path : bytes) (fs : list FileChange) : option (option FileChange) :=
  match fs with
  | [] => Some None
  | f :: fs =>
      p ← display_path f;
      if bool_decide (p = path) then Some (Some f) else find_displayed path fs
  end.
Definition in_snapshot (s : Snapshot) (a : Anchor) : option bool :=
  file ← find_displayed (anchor_path a) (files (patch s));
  Some match file, a with
       | None, _ => false
       | Some _, AtFile _ => true
       | Some f, AtLines _ side start end_ =>
           (1 <=? start)%N && (start <=? end_)%N && is_Some_b (line f side start)
           && is_Some_b (line f side end_)
       end.

(** ** The check of added lines *)

Module DiffCheck.
Definition indent_byte (b : byte) : bool := bool_decide (b ∈ [Byte.x20; Byte.x09]).
Fixpoint indent (s : bytes) : bytes :=
  match s with b :: s => if indent_byte b then b :: indent s else [] | [] => [] end.
Definition problem (text : bytes) : option (Severity * bytes) :=
  if existsb (λ m, starts_with m text) [bs "<<<<<<< "; bs ">>>>>>> "]
     || existsb (λ m, bool_decide (text = m)) [bs "======="; bs "<<<<<<<"; bs ">>>>>>>"]
  then Some (Severity.Error, bs "Conflict marker")
  else if match last text with Some b => indent_byte b | None => false end
  then Some (Severity.Warning, bs "Trailing whitespace")
  else if contains [Byte.x20; Byte.x09] (indent text)
  then Some (Severity.Warning, bs "Space before tab in indentation")
  else None.
Definition id : bytes := bs "diff check".

(** The new line of an added row, with what is wrong with it. *)
Definition flagged (r : PatchRow) : option (N * (Severity * bytes)) :=
  match row_kind r, new_line r with
  | RowKind.Added, Some n => p ← problem (row_text r); Some (n, p)
  | _, _ => None
  end.
(** One problem after what was found; the last annotation may grow by the line. *)
Definition add_problem (path : bytes) (out : list Annotation) (x : N * (Severity * bytes))
    : list Annotation :=
  let '(n, (sev, t)) := x in
  let fresh := mkAnnotation (AtLines path Right n n) sev t None id in
  match reverse out with
  | mkAnnotation (AtLines p side start end_) sev' t' b src :: before =>
      if bool_decide (p = path) && bool_decide (t' = t) && (end_ + 1 =? n)%N
      then reverse before ++ [mkAnnotation (AtLines p side start n) sev' t' b src]
      else out ++ [fresh]
  | _ => out ++ [fresh]
  end.
(** The loop over the files; [k] looks at the cancellation were made before. *)
Fixpoint files_loop (cancelled : nat → bool) (k : nat) (fs : list FileChange)
    (out : list Annotation) : option (result bytes (list Annotation) * nat) :=
  match fs with
  | [] => Some (Ok out, k)
  | f :: fs =>
      if cancelled k then Some (Err (bs "cancelled"), S k)
      else
        path ← display_path f;
        files_loop cancelled (S k) fs
          (foldl (add_problem path) out (omap flagged (all_rows f)))
  end.
Definition annotate (s : Snapshot) (cancelled : nat → bool) (k : nat)
    : option (result bytes (list Annotation) * nat) :=
  files_loop cancelled k (files (patch s)) [].
End DiffCheck.

(** ** What the check finds *)

Section check.
Import DiffCheck.

(** The lines that are flagged, one after the other. *)
Fixpoint flagged_lines (fs : list FileChange) : option (list (bytes * N * (Severity * bytes))) :=
  match fs with
  | [] => Some []
  | f :: fs =>
      path ← display_path f; rest ← flagged_lines fs;
      Some (((λ x, (path, x.1, x.2)) <$> omap flagged (all_rows f)) ++ rest)
  end.

(** An annotation marks a line of a path with a title. *)
Definition marks_line (a : Annotation) (path : bytes) (n : N) (t : bytes) : Prop :=
  ∃ start end_, anchor a = AtLines path Right start end_ ∧ (start <= n <= end_)%N ∧ an_title a = t.
(** What the loop keeps, over the lines that were flagged so far. *)
Record tracks (ls : list (bytes * N * (Severity * bytes))) (out : list Annotation) : Prop := {
  tr_marks p n t : (∃ a, a ∈ out ∧ marks_line a p n t) ↔ ∃ sev, (p, n, (sev, t)) ∈ ls;
  tr_shape a : a ∈ out → ∃ p start end_, anchor a = AtLines p Right start end_ ∧
    (start <= end_)%N ∧ body a = None ∧ source a = id ∧
    (∃ x, (p, start, x) ∈ ls) ∧ (∃ x, (p, end_, x) ∈ ls)
}.

Lemma tracks_fresh ls out p n sev t :
  tracks ls out →
  tracks (ls ++ [(p, n, (sev, t))]) (out ++ [mkAnnotation (AtLines p Right n n) sev t None id]).
Proof.
  intros [Hm Hs]. split.
  - intros q m u. split.
    + intros (a & [Ha|Ha%list_elem_of_singleton]%elem_of_app & Hk).
      * destruct (proj1 (Hm q m u) (ex_intro _ a (conj Ha Hk))) as [sev' H]. exists sev'. set_solver.
      * subst a. destruct Hk as (s & e & [= <- <- <-] & Hle & <-). cbn in *.
        exists sev. replace m with n by lia. set_solver.
    + intros [sev' [H|H%list_elem_of_singleton]%elem_of_app].
      * destruct (proj2 (Hm q m u) (ex_intro _ sev' H)) as (a & Ha & Hk). exists a. set_solver.
      * injection H as -> -> -> ->. eexists. split; [apply elem_of_app; right; left|].
        exists n, n. split_and!; cbn; [done|lia|lia|done].
  - intros a [Ha|Ha%list_elem_of_singleton]%elem_of_app.
    + destruct (Hs a Ha) as (q & s & e & H1 & H2 & H3 & H4 & [x Hx] & [y Hy]).
      exists q, s, e. split_and!; [done..|exists x|exists y]; apply elem_of_app; by left.
    + subst a. exists p, n, n. split_and!; [done|lia|done|done|eexists|eexists]; apply elem_of_app; right; left.
Qed.
Lemma tracks_grow ls before p start end_ sev' sev t b src :
  tracks ls (before ++ [mkAnnotation (AtLines p Right start end_) sev' t b src]) →
  tracks (ls ++ [(p, (end_ + 1)%N, (sev, t))])
    (before ++ [mkAnnotation (AtLines p Right start (end_ + 1)) sev' t b src]).
Proof.
  intros [Hm Hs].
  destruct (Hs _ ltac:(apply elem_of_app; right; left)) as (p' & s' & e' & Ha & Hle & Hb & Hsrc & [x Hx] & _).
  cbn in Ha, Hb, Hsrc. injection Ha as <- <- <-. subst b src. split.
  - intros q m u. split.
    + intros (a & [Ha|Ha%list_elem_of_singleton]%elem_of_app & Hk).
      * destruct (proj1 (Hm q m u)) as [sev2 H]; [exists a; set_solver|]. exists sev2. set_solver.
      * subst a. destruct Hk as (s & e & [= <- <- <-] & Hk & <-). cbn in *.
        destruct (decide (m = end_ + 1)%N) as [->|Hne]; [exists sev; set_solver|].
        destruct (proj1 (Hm p m t)) as [sev2 H]; [|exists sev2; set_solver].
        eexists. split; [apply elem_of_app; right; left|]. exists start, end_.
        split_and!; cbn; [done|lia|lia|done].
    + intros [sev2 [H|H%list_elem_of_singleton]%elem_of_app].
      * destruct (proj2 (Hm q m u) (ex_intro _ sev2 H)) as (a & [Ha|Ha%list_elem_of_singleton]%elem_of_app & Hk).
        { exists a. set_solver. }
        subst a. destruct Hk as (s & e & [= <- <- <-] & Hk & <-).
        eexists. split; [apply elem_of_app; right; left|]. exists start, (end_ + 1)%N.
        split_and!; cbn in *; [done|lia|lia|done].
      * injection H as -> -> -> ->. eexists. split; [apply elem_of_app; right; left|].
        exists start, (end_ + 1)%N. split_and!; cbn; [done|lia|lia|done].
  - intros a [Ha|Ha%list_elem_of_singleton]%elem_of_app.
    + destruct (Hs a) as (q & s & e & H1 & H2 & H3 & H4 & [y Hy] & [z Hz]); [set_solver|].
      exists q, s, e. split_and!; [done..|exists y|exists z]; apply elem_of_app; by left.
    + subst a. exists p, start, (end_ + 1)%N. cbn. split_and!; [done|lia|done|done| |].
      * exists x. apply elem_of_app. by left.
      * eexists. apply elem_of_app. right. left.
Qed.
Lemma tracks_add ls out p x :
  tracks ls out → tracks (ls ++ [(p, x.1, x.2)]) (add_problem p out x).
Proof.
  intros Ht. destruct x as [n [sev t]]. unfold add_problem. cbn [fst snd].
  destruct (reverse out) as [|[[q|q side start end_] sev' t' b src] before] eqn:E;
    [by apply tracks_fresh..|].
  apply (f_equal reverse) in E. rewrite reverse_involutive, reverse_cons in E.
  destruct (_ && _ && _) eqn:Ec; [|by apply tracks_fresh].
  apply andb_true_iff in Ec as [[E1%bool_decide_eq_true E2%bool_decide_eq_true]%andb_true_iff E3%N.eqb_eq].
  subst q t' n. subst out.
  destruct (tr_shape _ _ Ht _ ltac:(apply elem_of_app; right; left)) as (p' & s' & e' & Ha & _).
  cbn in Ha. injection Ha as _ -> _ _. by apply tracks_grow.
Qed.
Lemma tracks_fold ls out p xs :
  tracks ls out →
  tracks (ls ++ ((λ x, (p, x.1, x.2)) <$> xs)) (foldl (add_problem p) out xs).
Proof.
  revert ls out. induction xs as [|x xs IH]; intros ls out Ht; [by rewrite app_nil_r|].
  cbn [foldl]. rewrite fmap_cons, cons_middle, app_assoc. by apply IH, tracks_add.
Qed.
Lemma files_loop_tracks cancelled k fs ls out found k' :
  tracks ls out → files_loop cancelled k fs out = Some (Ok found, k') →
  ∃ rest, flagged_lines fs = Some rest ∧ tracks (ls ++ rest) found.
Proof.
  revert k ls out. induction fs as [|f fs IH]; intros k ls out Ht; cbn [files_loop flagged_lines].
  - intros [= <- _]. exists []. by rewrite app_nil_r.
  - destruct (cancelled k); [done|]. destruct (display_path f) as [p|]; [|done]. cbn.
    intros H. eapply IH in H as (rest & Hr & Hrest); [|by apply tracks_fold].
    rewrite Hr. cbn. eexists. split; [done|]. by rewrite app_assoc.
Qed.

Lemma flagged_lines_elem fs ls p n x :
  flagged_lines fs = Some ls → (p, n, x) ∈ ls →
  ∃ f r, f ∈ fs ∧ display_path f = Some p ∧ r ∈ all_rows f ∧ flagged r = Some (n, x).
Proof.
  revert ls. induction fs as [|f fs IH]; intros ls; cbn.
  { intros [= <-] H. by apply not_elem_of_nil in H. }
  destruct (display_path f) as [q|] eqn:Ep; [|done]. cbn.
  destruct (flagged_lines fs) as [rest|]; [|done]. cbn. intros [= <-] [H|H]%elem_of_app.
  - apply list_elem_of_fmap in H as ([m y] & [= -> -> ->] & H).
    apply list_elem_of_omap in H as (r & Hr & Hf). exists f, r. split_and!; [left|done..].
  - destruct (IH rest eq_refl H) as (g & r & Hg & ?). exists g, r. split; [by right|done].
Qed.
Lemma flagged_lines_complete fs ls f r p n x :
  flagged_lines fs = Some ls → f ∈ fs → display_path f = Some p → r ∈ all_rows f →
  flagged r = Some (n, x) → (p, n, x) ∈ ls.
Proof.
  revert ls. induction fs as [|g fs IH]; intros ls; cbn; [by intros _ H%not_elem_of_nil|].
  destruct (display_path g) as [q|] eqn:Ep; [|done]. cbn.
  destruct (flagged_lines fs) as [rest|]; [|done]. cbn.
  intros [= <-] [->|Hf]%elem_of_cons Hp Hr Hx; apply elem_of_app.
  - left. rewrite Ep in Hp. injection Hp as ->. apply list_elem_of_fmap. exists (n, x).
    split; [done|]. apply list_elem_of_omap. by exists r.
  - right. by apply IH.
Qed.

(** The built-in check marks exactly the added lines that have a problem, each with its
    title, whether or not neighbouring ones were joined into one annotation; and every
    annotation begins and ends at such a line of its file. *)
Theorem diff_check_exact s cancelled found k :
  DiffCheck.annotate s cancelled 0 = Some (Ok found, k) →
  (∀ p n t, (∃ a, a ∈ found ∧ marks_line a p n t) ↔
     ∃ f r sev, f ∈ files (patch s) ∧ display_path f = Some p ∧ r ∈ all_rows f ∧
                row_kind r = RowKind.Added ∧ new_line r = Some n ∧
                problem (row_text r) = Some (sev, t)) ∧
  (∀ a, a ∈ found → ∃ f p start end_,
     anchor a = AtLines p Right start end_ ∧ (start <= end_)%N ∧
     f ∈ files (patch s) ∧ display_path f = Some p ∧ is_Some (line f Right start)).
Proof.
  intros H. eapply (files_loop_tracks _ _ _ []) in H as (ls & Hls & [Hm Hs]).
  2:{ split; [|by intros a H0%not_elem_of_nil]. intros p n t. split.
      - by intros (a & H0%not_elem_of_nil & _).
      - by intros (sev & H0%not_elem_of_nil). }
  cbn [app] in Hm, Hs.
  assert (∀ r n x, flagged r = Some (n, x) →
    row_kind r = RowKind.Added ∧ new_line r = Some n ∧ problem (row_text r) = Some x) as Hf.
  { intros r n x. unfold flagged. destruct (row_kind r); [done| |done].
    destruct (new_line r) as [m|]; [|done].
    destruct (problem _) as [y|]; [|done]. cbn. by intros [= -> ->]. }
  split.
  - intros p n t. rewrite Hm. split.
    + intros (sev & Hin). eapply flagged_lines_elem in Hin as (f & r & ? & ? & ? & Hx); [|done].
      apply Hf in Hx as (? & ? & ?). by exists f, r, sev.
    + intros (f & r & sev & Hfs & Hp & Hr & Hk & Hn & Hx). exists sev.
      eapply (flagged_lines_complete _ _ f r); [done..|]. unfold flagged. by rewrite Hk, Hn, Hx.
  - intros a Ha. destruct (Hs a Ha) as (p & st & e & H1 & H2 & _ & _ & [x Hx] & _).
    eapply flagged_lines_elem in Hx as (f & r & Hfs & Hp & Hr & Hx); [|done].
    apply Hf in Hx as (_ & Hn & _). exists f, p, st, e. split_and!; [done..|].
    apply line_is_Some. by exists r.
Qed.
End check.

(** ** A sample *)

Definition flawed_file : FileChange :=
  let row n t := mkPatchRow None (Some n) (bs t) LineEnding.Lf RowKind.Added in
  mkFileChange (bs "f") None (Some (RepoPath.mkRepoPath (bs "f")))
    ChangeKind.Added ContentKind.Text None None None None
    [mkHunk 0 0 1 4 [] [row 1%N "<<<<<<< ours"; row 2%N "a "; row 3%N "b "; row 4%N "c"]] [].
Definition flawed_snapshot : Snapshot :=
  mkSnapshot (bs "s") [] [] (mkPatchReport [flawed_file]) None [] default_overview [].
Definition flawed_found : list Annotation :=
  [mkAnnotation (AtLines (bs "f") Right 1 1) Severity.Error (bs "Conflict marker") None DiffCheck.id;
   mkAnnotation (AtLines (bs "f") Right 2 3) Severity.Warning (bs "Trailing whitespace") None DiffCheck.id].

Lemma diff_check_exact_witness :
  DiffCheck.annotate flawed_snapshot (λ _, false) 0 = Some (Ok flawed_found, 1%nat) ∧
  ∃ a, a ∈ flawed_found ∧ marks_line a (bs "f") 3 (bs "Trailing whitespace").
Proof.
  assert (DiffCheck.annotate flawed_snapshot (λ _, false) 0 = Some (Ok flawed_found, 1%nat)) as H
    by by vm_compute.
  split; [exact H|]. apply (diff_check_exact _ _ _ _ H).
  exists flawed_file, (mkPatchRow None (Some 3%N) (bs "b ") LineEnding.Lf RowKind.Added), Severity.Warning.
  split_and!; [left|by vm_compute| |done..]. right; right; left.
Defined.
