(* ===== verification/F32.v ===== *)
(** * Single-precision floats

    The program's [f32] as the Standard Library's [spec_float] with 24 bits of
    precision: rounding to nearest even, infinities and NaN as IEEE 754 has them. *)

From S2P Require Import Prelude.
From Stdlib Require Export SpecFloat.

Notation f32 := spec_float.
Notation prec32 := 24%Z.
Notation emax32 := 128%Z.

Declare Scope f32_scope.
Delimit Scope f32_scope with f32.
Bind Scope f32_scope with spec_float.

Definition f32_add : f32 → f32 → f32 := SFadd prec32 emax32.
Definition f32_sub : f32 → f32 → f32 := SFsub prec32 emax32.
Definition f32_mul : f32 → f32 → f32 := SFmul prec32 emax32.
Definition f32_div : f32 → f32 → f32 := SFdiv prec32 emax32.
Definition f32_lt : f32 → f32 → bool := SFltb.
Definition f32_le : f32 → f32 → bool := SFleb.
Definition f32_zero : f32 := S754_zero false.
(** [n as f32]. *)
Definition f32_of_N (n : N) : f32 := binary_normalize prec32 emax32 (Z.of_N n) 0 false.
Notation "x + y" := (f32_add x y) : f32_scope.
Notation "x - y" := (f32_sub x y) : f32_scope.
Notation "x * y" := (f32_mul x y) : f32_scope.
Notation "x / y" := (f32_div x y) : f32_scope.
Notation "x <? y" := (f32_lt x y) : f32_scope.
Notation "x <=? y" := (f32_le x y) : f32_scope.

Definition is_nan (x : f32) : bool := match x with S754_nan => true | _ => false end.
Definition is_finite (x : f32) : bool :=
  match x with S754_zero _ | S754_finite _ _ _ => true | _ => false end.

(** [f32::max]: a NaN gives way to the other argument. *)
Definition f32_max (x y : f32) : f32 :=
  if is_nan x then y else if is_nan y then x else if (x <? y)%f32 then y else x.
Definition f32_min (x y : f32) : f32 :=
  if is_nan x then y else if is_nan y then x else if (y <? x)%f32 then y else x.
(** [f32::clamp]; [None] where it panics. *)
Definition f32_clamp (x lo hi : f32) : option f32 :=
  if (lo <=? hi)%f32
  then Some (if (x <? lo)%f32 then lo else if (hi <? x)%f32 then hi else x)
  else None.

(** ** Order *)

Lemma le_refl x : is_nan x = false → (x <=? x)%f32 = true.
Proof.
  destruct x as [s|s| |s m e]; try done; intros _; unfold f32_le, SFleb, SFcompare.
  - by destruct s.
  - by destruct s; rewrite Z.compare_refl, Pos.compare_cont_refl.
Qed.

Lemma compare_antisym x y :
  SFcompare y x = match SFcompare x y with
                  | Some Lt => Some Gt | Some Gt => Some Lt | c => c end.
Proof.
  destruct x as [sx|sx| |sx mx ex], y as [sy|sy| |sy my ey]; try done;
    destruct sx, sy; try done; cbn;
    rewrite (Z.compare_antisym ex ey); destruct (ex ?= ey)%Z; cbn; try done;
    change (Pos.compare_cont Eq my mx) with (Pos.compare_cont (CompOpp Eq) my mx);
    rewrite <- (Pos.compare_cont_antisym mx my); by destruct (Pos.compare_cont _ mx my).
Qed.

Lemma not_lt_le x y :
  is_nan x = false → is_nan y = false → (x <? y)%f32 = false → (y <=? x)%f32 = true.
Proof.
  intros Hx Hy. unfold f32_lt, f32_le, SFltb, SFleb. rewrite (compare_antisym x y).
  assert (SFcompare x y ≠ None) as Hc.
  { destruct x as [sx|sx| |sx mx ex], y as [sy|sy| |sy my ey]; try done;
      destruct sx, sy; try done; cbn; by destruct (_ ?= _)%Z. }
  by destruct (SFcompare x y) as [[]|].
Qed.

Lemma lt_le x y : (x <? y)%f32 = true → (x <=? y)%f32 = true.
Proof. unfold f32_lt, f32_le, SFltb, SFleb. by destruct (SFcompare x y) as [[]|]. Qed.

Lemma f32_max_nan x y : is_nan x = false → is_nan y = false → is_nan (f32_max x y) = false.
Proof. intros Hx Hy. unfold f32_max. rewrite Hx, Hy. by destruct (x <? y)%f32. Qed.

Lemma le_max_r x y : is_nan x = false → is_nan y = false → (y <=? f32_max x y)%f32 = true.
Proof.
  intros Hx Hy. unfold f32_max. rewrite Hx, Hy. destruct (x <? y)%f32 eqn:E.
  - by apply le_refl.
  - by apply not_lt_le.
Qed.

(** A clamped number lies between its bounds. *)
Lemma clamp_bounds x lo hi r :
  is_nan x = false → is_nan lo = false → is_nan hi = false → f32_clamp x lo hi = Some r →
  (lo <=? r)%f32 = true ∧ (r <=? hi)%f32 = true.
Proof.
  intros Hx Hlo Hhi. unfold f32_clamp. destruct (lo <=? hi)%f32 eqn:E; [|done].
  intros [= <-]. destruct (x <? lo)%f32 eqn:E1.
  { split; [by apply le_refl|done]. }
  destruct (hi <? x)%f32 eqn:E2.
  - split; [done|by apply le_refl].
  - by split; apply not_lt_le.
Qed.

(** ** Sums of finite numbers are no NaN *)

Lemma shr_1_nonneg m : (0 <= shr_m m)%Z → (0 <= shr_m (shr_1 m))%Z.
Proof. destruct m as [x r s]. cbn. destruct x as [|[p|p|]|p]; cbn; lia. Qed.

Lemma iter_shr_nonneg p m : (0 <= shr_m m)%Z → (0 <= shr_m (iter_pos shr_1 p m))%Z.
Proof.
  revert m. induction p as [p IH|p IH|]; intros m Hm; cbn [iter_pos];
    [by apply IH, IH, shr_1_nonneg|by apply IH, IH|by apply shr_1_nonneg].
Qed.

Lemma shr_nonneg m e n : (0 <= shr_m m)%Z → (0 <= shr_m (shr m e n).1)%Z.
Proof.
  intros Hm. unfold shr. destruct n as [|p|p]; cbn [fst]; [done| |done].
  by apply iter_shr_nonneg.
Qed.

Lemma shr_record_of_loc_m m l : shr_m (shr_record_of_loc m l) = m.
Proof. by destruct l as [|[]]. Qed.

Lemma shr_fexp_nonneg m e l :
  (0 <= m)%Z → (0 <= shr_m (shr_fexp prec32 emax32 m e l).1)%Z.
Proof. intros Hm. unfold shr_fexp. apply shr_nonneg. by rewrite shr_record_of_loc_m. Qed.

Lemma round_nonneg m l : (0 <= m)%Z → (0 <= round_nearest_even m l)%Z.
Proof.
  intros Hm. unfold round_nearest_even. destruct l as [|[]]; try lia.
  destruct (Z.even m); lia.
Qed.

Lemma round_aux_no_nan s m e l :
  (0 <= m)%Z → is_nan (binary_round_aux prec32 emax32 s m e l) = false.
Proof.
  intros Hm. unfold binary_round_aux.
  pose proof (shr_fexp_nonneg m e l Hm) as H1. destruct (shr_fexp _ _ m e l) as [r1 e1]. cbn in H1.
  pose proof (shr_fexp_nonneg _ e1 loc_Exact (round_nonneg _ (loc_of_shr_record r1) H1)) as H2.
  destruct (shr_fexp _ _ _ e1 loc_Exact) as [r2 e2]. cbn in H2.
  destruct (shr_m r2); [done| |lia]. by destruct (e2 <=? _)%Z.
Qed.

Lemma normalize_no_nan m e s : is_nan (binary_normalize prec32 emax32 m e s) = false.
Proof.
  unfold binary_normalize. destruct m as [|p|p]; [done|..]; unfold binary_round;
    destruct (shl_align p e _) as [q k]; by apply round_aux_no_nan.
Qed.

Lemma add_no_nan x y : is_finite x = true → is_finite y = true → is_nan (x + y)%f32 = false.
Proof.
  destruct x as [sx|sx| |sx mx ex], y as [sy|sy| |sy my ey]; try done; intros _ _;
    unfold f32_add, SFadd; first [done | by destruct sx, sy | apply normalize_no_nan].
Qed.

Lemma sub_no_nan x y : is_finite x = true → is_finite y = true → is_nan (x - y)%f32 = false.
Proof.
  destruct x as [sx|sx| |sx mx ex], y as [sy|sy| |sy my ey]; try done; intros _ _;
    unfold f32_sub, SFsub; first [done | by destruct sx, sy | apply normalize_no_nan].
Qed.
