(* ===== verification/F64.v ===== *)
(** * Double-precision floats, and when arithmetic on floats is exact

    The program's [f64] as the Standard Library's [spec_float] with 53 bits of precision, its
    conversions from and to [f32], and lemmas for any precision: a float is worth [units]
    multiples of the smallest positive one, comparison compares [units], and a sum that fits
    the mantissa is not rounded. *)

From S2P Require Import Prelude F32.

Definition f64_add : spec_float → spec_float → spec_float := SFadd 53 1024.
Definition f64_sub : spec_float → spec_float → spec_float := SFsub 53 1024.
(** [x as f64], which is exact, and [x as f32], which rounds. *)
Definition f64_of_f32 (x : f32) : spec_float :=
  match x with
  | S754_finite s m e => binary_normalize 53 1024 (cond_Zopp s (Zpos m)) e s
  | _ => x
  end.
Definition f32_of_f64 (x : spec_float) : f32 :=
  match x with
  | S754_finite s m e => binary_normalize 24 128 (cond_Zopp s (Zpos m)) e s
  | _ => x
  end.

(** ** Digits and shifts *)

Lemma digits_bounds p :
  (2 ^ (Zpos (digits2_pos p) - 1) <= Zpos p < 2 ^ Zpos (digits2_pos p))%Z.
Proof.
  induction p as [p IH|p IH|]; cbn [digits2_pos]; [..|done];
    rewrite Pos2Z.inj_succ; replace (Z.succ (Zpos (digits2_pos p)) - 1)%Z with (Zpos (digits2_pos p)) by lia;
    rewrite Z.pow_succ_r by lia;
    replace (2 ^ Zpos (digits2_pos p))%Z with (2 * 2 ^ (Zpos (digits2_pos p) - 1))%Z in *
      by (rewrite <- Z.pow_succ_r by lia; f_equal; lia); lia.
Qed.

(** The number of digits is the only [d] with these bounds. *)
Lemma digits_unique p d :
  (0 <= d)%Z → (2 ^ (d - 1) <= Zpos p < 2 ^ d)%Z → Zpos (digits2_pos p) = d.
Proof.
  intros Hd [H1 H2]. pose proof (digits_bounds p) as [H3 H4].
  destruct (Z.lt_trichotomy (Zpos (digits2_pos p)) d) as [H|[H|H]]; [|done|].
  - assert (2 ^ Zpos (digits2_pos p) <= 2 ^ (d - 1))%Z by (apply Z.pow_le_mono_r; lia). lia.
  - assert (2 ^ d <= 2 ^ (Zpos (digits2_pos p) - 1))%Z by (apply Z.pow_le_mono_r; lia). lia.
Qed.
Lemma digits_shift p q n :
  (0 <= n)%Z → Zpos q = (Zpos p * 2 ^ n)%Z →
  Zpos (digits2_pos q) = (Zpos (digits2_pos p) + n)%Z.
Proof.
  intros Hn Hq. apply digits_unique; [lia|]. rewrite Hq. pose proof (digits_bounds p) as [H1 H2].
  replace (Zpos (digits2_pos p) + n - 1)%Z with (Zpos (digits2_pos p) - 1 + n)%Z by lia.
  rewrite !Z.pow_add_r by lia. assert (0 < 2 ^ n)%Z by (apply Z.pow_pos_nonneg; lia). nia.
Qed.

Lemma iter_xO p d : Zpos (Pos.iter xO p d) = (Zpos p * 2 ^ Zpos d)%Z.
Proof.
  induction d as [|d IH] using Pos.peano_ind; [cbn; lia|].
  rewrite Pos.iter_succ, Pos2Z.inj_xO, IH, Pos2Z.inj_succ, Z.pow_succ_r by lia. lia.
Qed.

Lemma iter_pos_swap {A} (f : A → A) n x : iter_pos f n (f x) = f (iter_pos f n x).
Proof. revert x. induction n as [n IH|n IH|]; intros x; cbn [iter_pos]; [..|done]; by rewrite !IH. Qed.
Lemma iter_pos_succ {A} (f : A → A) n x : iter_pos f (Pos.succ n) x = f (iter_pos f n x).
Proof.
  revert x. induction n as [n IH|n IH|]; intros x; [| |done].
  - change (iter_pos f (Pos.succ n) (iter_pos f (Pos.succ n) x)
      = f (iter_pos f n (iter_pos f n (f x)))). by rewrite !IH, !iter_pos_swap.
  - change (iter_pos f n (iter_pos f n (f x)) = f (iter_pos f n (iter_pos f n x))).
    by rewrite !iter_pos_swap.
Qed.
(** A shift that drops only zeros is exact. *)
Lemma shr_exact q n :
  iter_pos shr_1 n (Build_shr_record (Zpos q * 2 ^ Zpos n) false false)
  = Build_shr_record (Zpos q) false false.
Proof.
  revert q. induction n as [|n IH] using Pos.peano_ind; intros q.
  { replace (Zpos q * 2 ^ 1)%Z with (Zpos q~0) by lia. reflexivity. }
  rewrite iter_pos_succ, Pos2Z.inj_succ, Z.pow_succ_r by lia.
  replace (Zpos q * (2 * 2 ^ Zpos n))%Z with (Zpos q~0 * 2 ^ Zpos n)%Z by lia. by rewrite IH.
Qed.

(** ** Values *)

Section exact.
Context (prec emax : Z) (Hprec : (1 < prec)%Z) (Hemax : (prec < emax)%Z).
Notation emin := (emin prec emax).
Notation fexp := (fexp prec emax).

Definition units (x : spec_float) : Z :=
  match x with
  | S754_finite s m e => cond_Zopp s (Zpos m) * 2 ^ (e - emin)
  | _ => 0
  end.
Definition fin (x : spec_float) : Prop := valid_binary prec emax x = true ∧ is_finite x = true.
(** The numbers of units that some float is worth. *)
Definition fits (n : Z) : Prop :=
  ∃ c j, n = (c * 2 ^ j)%Z ∧ (Z.abs c < 2 ^ prec)%Z ∧ (0 <= j <= emax - prec - emin)%Z.

Lemma round_aux_exact s q p e n :
  (0 <= n)%Z → Zpos p = (Zpos q * 2 ^ n)%Z → fexp (Zpos (digits2_pos p) + e) = (e + n)%Z →
  binary_round_aux prec emax s (Zpos p) e loc_Exact
  = if (e + n <=? emax - prec)%Z then S754_finite s q (e + n) else S754_infinity s.
Proof.
  intros Hn Hp He. unfold binary_round_aux, shr_fexp. cbn [Zdigits2 shr_record_of_loc].
  rewrite He. replace (e + n - e)%Z with n by lia.
  assert (shr (Build_shr_record (Zpos p) false false) e n
    = (Build_shr_record (Zpos q) false false, e + n)%Z) as ->.
  { unfold shr. destruct n as [|n|n]; [|by rewrite Hp, shr_exact|lia].
    rewrite Z.pow_0_r, Z.mul_1_r in Hp. by rewrite Z.add_0_r, Hp. }
  cbn [loc_of_shr_record round_nearest_even shr_m Zdigits2 shr_record_of_loc].
  replace (fexp (Zpos (digits2_pos q) + (e + n))) with (e + n)%Z.
  2:{ etransitivity; [symmetry; exact He|]. f_equal. rewrite (digits_shift q p n) by done. lia. }
  by rewrite Z.sub_diag.
Qed.

Lemma round_exact s p e :
  (emin <= e)%Z → fits (Zpos p * 2 ^ (e - emin)) →
  ∃ q k, binary_round prec emax s p e = S754_finite s q k ∧ bounded prec emax q k = true
    ∧ (Zpos q * 2 ^ (k - emin) = Zpos p * 2 ^ (e - emin))%Z ∧ (emin <= k)%Z.
Proof.
  intros He (c & j & Hc & Habs & Hj).
  set (d := Zpos (digits2_pos p)). set (k := fexp (d + e)).
  assert (0 < c)%Z as Hcpos.
  { assert (0 < 2 ^ (e - emin) ∧ 0 < 2 ^ j)%Z by (split; apply Z.pow_pos_nonneg; lia). nia. }
  destruct c as [|c|c]; try lia.
  (* the digits of both sides agree *)
  assert (d + (e - emin) = Zpos (digits2_pos c) + j)%Z as Hd.
  { assert (0 < Zpos p * 2 ^ (e - emin))%Z as Hpos
      by (apply Z.mul_pos_pos; [lia|apply Z.pow_pos_nonneg; lia]).
    pose proof (digits_shift p (Z.to_pos (Zpos p * 2 ^ (e - emin))) (e - emin) ltac:(lia)
      ltac:(by rewrite Z2Pos.id)) as H1.
    pose proof (digits_shift c (Z.to_pos (Zpos p * 2 ^ (e - emin))) j ltac:(lia)
      ltac:(by rewrite Z2Pos.id)) as H2. subst d. lia. }
  assert (Zpos (digits2_pos c) <= prec)%Z as Hdc.
  { destruct (Z.le_gt_cases (Zpos (digits2_pos c)) prec) as [|H]; [done|].
    pose proof (digits_bounds c) as [H1 _].
    assert (2 ^ prec <= 2 ^ (Zpos (digits2_pos c) - 1))%Z by (apply Z.pow_le_mono_r; lia). lia. }
  assert (emin <= k)%Z as Hk1 by (subst k; unfold SpecFloat.fexp; lia).
  assert (k <= emax - prec)%Z as Hk2.
  { subst k. unfold SpecFloat.fexp. unfold SpecFloat.emin in *. lia. }
  assert (∃ q, (Zpos q * 2 ^ (k - emin) = Zpos p * 2 ^ (e - emin))%Z ∧
    binary_round prec emax s p e = S754_finite s q k) as (q & Hq & Hr).
  { unfold binary_round. fold d k. unfold shl_align.
    destruct (k - e)%Z as [|n|n] eqn:En.
    - exists p. split; [by replace k with e by lia|]. rewrite (round_aux_exact s p p e 0); [|lia|lia|].
      + rewrite Z.add_0_r, (proj2 (Z.leb_le _ _)) by lia. f_equal. lia.
      + fold d k. lia.
    - assert (k = d + e - prec)%Z as Hke by (subst k; unfold SpecFloat.fexp in *; lia).
      assert (Zpos p = Zpos c * 2 ^ (j - (e - emin)))%Z as Hpc.
      { assert (0 < 2 ^ (e - emin))%Z as H2 by (apply Z.pow_pos_nonneg; lia).
        apply (Z.mul_reg_r _ _ (2 ^ (e - emin))); [lia|]. rewrite Hc, <- Z.mul_assoc, <- Z.pow_add_r by lia.
        do 2 f_equal. lia. }
      assert (0 < Zpos c * 2 ^ (j - (e - emin) - Zpos n))%Z as Hpos
        by (apply Z.mul_pos_pos; [lia|apply Z.pow_pos_nonneg; lia]).
      exists (Z.to_pos (Zpos c * 2 ^ (j - (e - emin) - Zpos n))).
      rewrite Z2Pos.id by done. split.
      + rewrite Hc, <- Z.mul_assoc, <- Z.pow_add_r by lia. do 2 f_equal. lia.
      + rewrite (round_aux_exact s (Z.to_pos (Zpos c * 2 ^ (j - (e - emin) - Zpos n))) p e (Zpos n)).
        * replace (e + Zpos n)%Z with k by lia. by rewrite (proj2 (Z.leb_le _ _)).
        * lia.
        * rewrite Z2Pos.id, <- Z.mul_assoc, <- Z.pow_add_r by (done || lia). rewrite Hpc. do 2 f_equal. lia.
        * fold d k. lia.
    - exists (Pos.iter xO p n). split.
      + rewrite iter_xO, <- Z.mul_assoc, <- Z.pow_add_r by lia. do 2 f_equal. lia.
      + rewrite (round_aux_exact s (Pos.iter xO p n) (Pos.iter xO p n) k 0); [|lia|lia|].
        * by rewrite Z.add_0_r, (proj2 (Z.leb_le _ _)).
        * rewrite (digits_shift p (Pos.iter xO p n) (Zpos n)) by (try lia; by rewrite iter_xO).
          fold d. replace (d + Zpos n + k)%Z with (d + e)%Z by lia. fold k. lia. }
  exists q, k. split; [done|]. split; [|done]. unfold bounded, canonical_mantissa.
  apply andb_true_iff. split; [|lia]. apply Z.eqb_eq.
  replace (Zpos (digits2_pos q) + k)%Z with (d + e)%Z; [done|].
  assert (0 < Zpos q * 2 ^ (k - emin))%Z by (apply Z.mul_pos_pos; [lia|apply Z.pow_pos_nonneg; lia]).
  pose proof (digits_shift q (Z.to_pos (Zpos q * 2 ^ (k - emin))) (k - emin) ltac:(lia)
    ltac:(by rewrite Z2Pos.id)) as H1.
  pose proof (digits_shift p (Z.to_pos (Zpos q * 2 ^ (k - emin))) (e - emin) ltac:(lia)
    ltac:(by rewrite Z2Pos.id)) as H2. subst d. lia.
Qed.

Lemma normalize_exact m e z :
  (emin <= e)%Z → fits (m * 2 ^ (e - emin)) →
  fin (binary_normalize prec emax m e z) ∧
  units (binary_normalize prec emax m e z) = (m * 2 ^ (e - emin))%Z.
Proof.
  intros He Hf. destruct m as [|p|p]; cbn [binary_normalize]; [done|..].
  - destruct (round_exact false p e He Hf) as (q & k & -> & Hb & Hq & _). by rewrite <- Hq.
  - destruct (round_exact true p e He) as (q & k & -> & Hb & Hq & _).
    { destruct Hf as (c & j & Hc & Ha & Hj). exists (- c)%Z, j.
      split; [|lia]. rewrite Z.mul_opp_l, <- Hc. lia. }
    split; [done|]. cbn [units cond_Zopp]. lia.
Qed.

Lemma bounded_emin m e : bounded prec emax m e = true → (emin <= e)%Z.
Proof.
  unfold bounded, canonical_mantissa, SpecFloat.fexp. intros [H _]%andb_true_iff.
  apply Z.eqb_eq in H. lia.
Qed.

Lemma shl_align_value m e k :
  (k <= e)%Z → Zpos (shl_align m e k).1 = (Zpos m * 2 ^ (e - k))%Z.
Proof.
  intros H. unfold shl_align. destruct (k - e)%Z as [|n|n] eqn:E; [|lia|].
  - replace (e - k)%Z with 0%Z by lia. cbn. lia.
  - cbn [fst]. rewrite iter_xO. do 2 f_equal. lia.
Qed.

(** A sum that fits is exact. *)
Lemma add_exact x y :
  fin x → fin y → fits (units x + units y) →
  fin (SFadd prec emax x y) ∧ units (SFadd prec emax x y) = (units x + units y)%Z.
Proof.
  intros [Hx Fx] [Hy Fy] Hf.
  destruct x as [sx|sx| |sx mx ex], y as [sy|sy| |sy my ey]; try done.
  - by destruct sx, sy.
  - split; [done|]. cbn [units SFadd]. by rewrite Z.add_0_r.
  - cbn [valid_binary] in Hx, Hy. apply bounded_emin in Hx, Hy. cbn [SFadd units] in Hf |- *.
    set (ez := Z.min ex ey).
    assert (∀ s m e, (ez <= e)%Z → (cond_Zopp s (Zpos (shl_align m e ez).1) * 2 ^ (ez - emin)
      = cond_Zopp s (Zpos m) * 2 ^ (e - emin))%Z) as Hval.
    { intros s m e He. rewrite shl_align_value by done. replace (e - emin)%Z with (e - ez + (ez - emin))%Z by lia.
      rewrite Z.pow_add_r by lia. destruct s; cbn [cond_Zopp]; lia. }
    rewrite <- (Hval sx mx ex), <- (Hval sy my ey), <- Z.mul_add_distr_r in * by lia.
    apply normalize_exact; [lia|done].
Qed.

Lemma units_opp x : units (SFopp x) = (- units x)%Z.
Proof. destruct x as [| | |[]]; cbn [SFopp units negb cond_Zopp]; lia. Qed.
Lemma fin_opp x : fin x → fin (SFopp x).
Proof. by destruct x. Qed.
Lemma sub_exact x y :
  fin x → fin y → fits (units x - units y) →
  fin (SFsub prec emax x y) ∧ units (SFsub prec emax x y) = (units x - units y)%Z.
Proof.
  intros Hx Hy Hf. destruct (add_exact x (SFopp y)) as [H1 H2]; [done|by apply fin_opp|by rewrite units_opp|].
  rewrite units_opp in H2. replace (SFsub prec emax x y) with (SFadd prec emax x (SFopp y)); [by rewrite H2|].
  destruct x as [[]|[]| |sx mx ex], y as [[]|[]| |[] my ey]; try done; cbn [SFsub SFadd SFopp negb cond_Zopp];
    by rewrite <- Z.add_opp_r; f_equal.
Qed.

(** A canonical float with the smaller exponent is the smaller one. *)
Lemma canonical_lt m1 e1 m2 e2 :
  bounded prec emax m1 e1 = true → bounded prec emax m2 e2 = true → (e1 < e2)%Z →
  (Zpos m1 * 2 ^ (e1 - emin) < Zpos m2 * 2 ^ (e2 - emin))%Z.
Proof.
  intros H1 H2 He. pose proof (bounded_emin _ _ H1). pose proof (bounded_emin _ _ H2).
  unfold bounded, canonical_mantissa, SpecFloat.fexp in H1, H2.
  apply andb_true_iff in H1 as [H1 _], H2 as [H2 _]. apply Z.eqb_eq in H1, H2.
  pose proof (digits_bounds m1) as [_ U1]. pose proof (digits_bounds m2) as [L2 _].
  assert (Zpos m1 < 2 ^ prec)%Z.
  { eapply Z.lt_le_trans; [exact U1|]. apply Z.pow_le_mono_r; lia. }
  assert (2 ^ (prec - 1) <= Zpos m2)%Z.
  { eapply Z.le_trans; [|exact L2]. apply Z.pow_le_mono_r; lia. }
  assert (2 ^ prec * 2 ^ (e1 - emin) <= 2 ^ (prec - 1) * 2 ^ (e2 - emin))%Z.
  { rewrite <- !Z.pow_add_r by lia. apply Z.pow_le_mono_r; lia. }
  assert (0 < 2 ^ (e1 - emin) ∧ 0 < 2 ^ (e2 - emin))%Z by (split; apply Z.pow_pos_nonneg; lia). nia.
Qed.

Lemma compare_units_pos m1 e1 m2 e2 :
  bounded prec emax m1 e1 = true → bounded prec emax m2 e2 = true →
  match (e1 ?= e2)%Z with Lt => Lt | Gt => Gt | Eq => Pos.compare_cont Eq m1 m2 end
  = (Zpos m1 * 2 ^ (e1 - emin) ?= Zpos m2 * 2 ^ (e2 - emin))%Z.
Proof.
  intros H1 H2. destruct (Z.compare_spec e1 e2) as [->|He|He].
  - pose proof (bounded_emin _ _ H1).
    assert (0 < 2 ^ (e2 - emin))%Z by (apply Z.pow_pos_nonneg; lia).
    change (Pos.compare_cont Eq m1 m2) with (Zpos m1 ?= Zpos m2)%Z.
    destruct (Z.compare_spec (Zpos m1) (Zpos m2)) as [E|E|E]; symmetry;
      [apply Z.compare_eq_iff|apply Z.compare_lt_iff|apply Z.compare_gt_iff]; nia.
  - symmetry. apply Z.compare_lt_iff. by apply canonical_lt.
  - symmetry. apply Z.compare_gt_iff. by apply canonical_lt.
Qed.

(** Comparison of floats compares what they are worth. *)
Lemma compare_units x y : fin x → fin y → SFcompare x y = Some (units x ?= units y)%Z.
Proof.
  intros [Hx Fx] [Hy Fy].
  assert (∀ m e, (0 < Zpos m * 2 ^ (e - emin))%Z ∨ (e < emin)%Z) as Hpos.
  { intros m e. destruct (Z.le_gt_cases emin e); [left|by right].
    apply Z.mul_pos_pos; [lia|apply Z.pow_pos_nonneg; lia]. }
  destruct x as [sx|sx| |sx mx ex], y as [sy|sy| |sy my ey]; try done; cbn [SFcompare units valid_binary] in *.
  - pose proof (bounded_emin _ _ Hy). destruct (Hpos my ey); [|lia]. f_equal.
    destruct sy; cbn [cond_Zopp]; symmetry; [apply Z.compare_gt_iff|apply Z.compare_lt_iff]; lia.
  - pose proof (bounded_emin _ _ Hx). destruct (Hpos mx ex); [|lia]. f_equal.
    destruct sx; cbn [cond_Zopp]; symmetry; [apply Z.compare_lt_iff|apply Z.compare_gt_iff]; lia.
  - pose proof (bounded_emin _ _ Hx). pose proof (bounded_emin _ _ Hy).
    pose proof (compare_units_pos _ _ _ _ Hx Hy) as Hc.
    destruct (Hpos mx ex); [|lia]. destruct (Hpos my ey); [|lia]. f_equal.
    destruct sx, sy; cbn [cond_Zopp].
    + transitivity (- (Zpos mx * 2 ^ (ex - emin)) ?= - (Zpos my * 2 ^ (ey - emin)))%Z.
      2:{ f_equal; cbn [Z.opp]; lia. }
      rewrite Z.compare_opp, (Z.compare_antisym (Zpos mx * _)), <- Hc. by destruct (ex ?= ey)%Z.
    + symmetry. apply Z.compare_lt_iff. lia.
    + symmetry. apply Z.compare_gt_iff. lia.
    + exact Hc.
Qed.
Lemma le_units x y : fin x → fin y → SFleb x y = (units x <=? units y)%Z.
Proof. intros Hx Hy. unfold SFleb. rewrite compare_units by done. unfold Z.leb. by destruct (_ ?= _)%Z. Qed.
Lemma lt_units x y : fin x → fin y → SFltb x y = (units x <? units y)%Z.
Proof. intros Hx Hy. unfold SFltb. rewrite compare_units by done. unfold Z.ltb. by destruct (_ ?= _)%Z. Qed.

(** ** Rounding gives canonical floats *)

Lemma shr_1_m r : (0 <= shr_m r)%Z → shr_m (shr_1 r) = (shr_m r / 2)%Z.
Proof.
  destruct r as [m r s]. destruct m as [|[p|p|]|p]; cbn [shr_1 shr_m]; intros H; [done| | |done|lia].
  - change (Zpos p~1) with (2 * Zpos p + 1)%Z. apply (Z.div_unique _ _ _ 1); lia.
  - change (Zpos p~0) with (2 * Zpos p)%Z. apply (Z.div_unique _ _ _ 0); lia.
Qed.
Lemma iter_shr_m n r :
  (0 <= shr_m r)%Z → shr_m (iter_pos shr_1 n r) = (shr_m r / 2 ^ Zpos n)%Z.
Proof.
  intros Hr. induction n as [|n IH] using Pos.peano_ind; [by apply shr_1_m|].
  rewrite iter_pos_succ, shr_1_m, IH by (rewrite IH; apply Z.div_pos; [done|lia]).
  rewrite Pos2Z.inj_succ, Z.pow_succ_r, (Z.mul_comm 2), Z.div_div by lia. done.
Qed.
Lemma shr_fexp_value m e l :
  (0 <= m)%Z → (e <= fexp (Zdigits2 m + e))%Z →
  let n := (fexp (Zdigits2 m + e) - e)%Z in
  shr_m (shr_fexp prec emax m e l).1 = (m / 2 ^ n)%Z ∧ (shr_fexp prec emax m e l).2 = (e + n)%Z.
Proof.
  intros Hm He n. unfold shr_fexp. fold n.
  assert (shr_m (shr_record_of_loc m l) = m) as Hl by by destruct l as [|[]].
  destruct n as [|k|k] eqn:En; cbn [shr fst snd].
  - rewrite Hl, Z.div_1_r. lia.
  - by rewrite iter_shr_m, Hl by (by rewrite Hl).
  - subst n. lia.
Qed.
Lemma digits_div p n :
  (0 <= n < Zpos (digits2_pos p))%Z →
  (0 < Zpos p / 2 ^ n)%Z ∧ Zdigits2 (Zpos p / 2 ^ n) = (Zpos (digits2_pos p) - n)%Z.
Proof.
  intros Hn. pose proof (digits_bounds p) as [H1 H2].
  assert (0 < 2 ^ n)%Z by (apply Z.pow_pos_nonneg; lia).
  assert (2 ^ (Zpos (digits2_pos p) - 1 - n) <= Zpos p / 2 ^ n)%Z.
  { apply Z.div_le_lower_bound; [done|]. rewrite <- Z.pow_add_r by lia.
    etransitivity; [|exact H1]. apply Z.pow_le_mono_r; lia. }
  assert (Zpos p / 2 ^ n < 2 ^ (Zpos (digits2_pos p) - n))%Z.
  { apply Z.div_lt_upper_bound; [done|]. rewrite <- Z.pow_add_r by lia.
    eapply Z.lt_le_trans; [exact H2|]. apply Z.pow_le_mono_r; lia. }
  assert (0 < 2 ^ (Zpos (digits2_pos p) - 1 - n))%Z by (apply Z.pow_pos_nonneg; lia).
  split; [lia|]. destruct (Zpos p / 2 ^ n)%Z as [|q|q]; try lia. cbn [Zdigits2].
  apply digits_unique; [lia|]. split; [|done].
  by replace (Zpos (digits2_pos p) - n - 1)%Z with (Zpos (digits2_pos p) - 1 - n)%Z by lia.
Qed.
Lemma digits_mono p q : (p <= q)%positive → (Zpos (digits2_pos p) <= Zpos (digits2_pos q))%Z.
Proof.
  intros H. destruct (Z.le_gt_cases (Zpos (digits2_pos p)) (Zpos (digits2_pos q))) as [|Hlt]; [done|].
  pose proof (digits_bounds p) as [H1 _]. pose proof (digits_bounds q) as [_ H2].
  assert (2 ^ Zpos (digits2_pos q) <= 2 ^ (Zpos (digits2_pos p) - 1))%Z
    by (apply Z.pow_le_mono_r; lia). lia.
Qed.

Lemma round_aux_valid s p e l :
  (e <= fexp (Zpos (digits2_pos p) + e))%Z →
  valid_binary prec emax (binary_round_aux prec emax s (Zpos p) e l) = true.
Proof.
  intros He. unfold binary_round_aux.
  destruct (shr_fexp_value (Zpos p) e l ltac:(lia) He) as [Hm1 He1].
  destruct (shr_fexp prec emax (Zpos p) e l) as [r1 e1]. cbn [fst snd Zdigits2] in Hm1, He1.
  set (d := Zpos (digits2_pos p)) in *. set (n := (fexp (d + e) - e)%Z) in *.
  assert (e1 = fexp (d + e)) as -> by lia. clear He1.
  assert (0 <= n)%Z as Hn by (subst n; lia).
  assert (0 <= shr_m r1)%Z as Hr0.
  { rewrite Hm1. apply Z.div_pos; [lia|]. apply Z.pow_pos_nonneg; lia. }
  remember (round_nearest_even (shr_m r1) (loc_of_shr_record r1)) as m eqn:Em.
  assert (shr_m r1 <= m <= shr_m r1 + 1)%Z as Hm.
  { subst m. unfold round_nearest_even. destruct (loc_of_shr_record r1) as [|[]]; try lia.
    destruct (Z.even _); lia. }
  destruct m as [|q|q]; [|clear Em|lia].
  { unfold shr_fexp. cbn [Zdigits2 shr_record_of_loc].
    assert (∀ k, shr_m (shr (Build_shr_record 0 false false) (fexp (d + e)) k).1 = 0%Z) as Hz.
    { intros [|k|k]; [done| |done]. cbn [shr fst]. rewrite iter_shr_m by done. by rewrite Z.div_0_l by lia. }
    destruct (shr _ _ _) as [r2 e2] eqn:E2. specialize (Hz (fexp (0 + fexp (d + e)) - fexp (d + e))%Z).
    rewrite E2 in Hz. cbn [fst] in Hz. by rewrite Hz. }
  assert (fexp (d + e) <= fexp (Zpos (digits2_pos q) + fexp (d + e)))%Z as Hle.
  { destruct (Z.le_gt_cases (d + e - prec) emin) as [Hsub|Hnorm].
    { unfold SpecFloat.fexp. lia. }
    assert (fexp (d + e) = d + e - prec)%Z as Hfe by (unfold SpecFloat.fexp; lia).
    destruct (digits_div p n) as [Hpos Hdig]; [subst n; fold d; lia|].
    rewrite Hm1 in Hm. destruct (Zpos p / 2 ^ n)%Z as [|q0|q0]; try lia. cbn [Zdigits2] in Hdig.
    pose proof (digits_mono q0 q ltac:(lia)). unfold SpecFloat.fexp at 2. fold d in Hdig. subst n. lia. }
  destruct (shr_fexp_value (Zpos q) (fexp (d + e)) loc_Exact ltac:(lia) Hle) as [Hm2 He2].
  destruct (shr_fexp prec emax (Zpos q) (fexp (d + e)) loc_Exact) as [r2 e2]. cbn [fst snd Zdigits2] in Hm2, He2.
  destruct (digits_div q (fexp (Zpos (digits2_pos q) + fexp (d + e)) - fexp (d + e))) as [Hpos Hdig].
  { split; [lia|]. unfold SpecFloat.fexp in *. lia. }
  rewrite <- Hm2 in Hpos, Hdig. destruct (shr_m r2) as [|q2|q2]; try lia. cbn [Zdigits2] in Hdig.
  destruct (Z.leb_spec e2 (emax - prec)) as [Hmax|]; [|done]. cbn [valid_binary]. unfold bounded, canonical_mantissa.
  apply andb_true_iff. split; [|by apply Z.leb_le]. apply Z.eqb_eq.
  rewrite Hdig, He2. replace (Zpos (digits2_pos q) - _ + _)%Z with (Zpos (digits2_pos q) + fexp (d + e))%Z by lia. lia.
Qed.

Lemma normalize_valid m e z :
  valid_binary prec emax (binary_normalize prec emax m e z) = true.
Proof.
  assert (∀ s p, valid_binary prec emax (binary_round prec emax s p e) = true) as H.
  { intros s p. unfold binary_round, shl_align. set (d := Zpos (digits2_pos p)).
    destruct (fexp (d + e) - e)%Z as [|n|n] eqn:En; [apply round_aux_valid; fold d; lia..|].
    apply round_aux_valid.
    rewrite (digits_shift p (Pos.iter xO p n) (Zpos n)) by (try lia; by rewrite iter_xO). fold d.
    replace (d + Zpos n + fexp (d + e))%Z with (d + e)%Z by lia. lia. }
  destruct m; cbn [binary_normalize]; [done|apply H..].
Qed.
End exact.

(** ** Conversions *)

Notation fin32 := (fin 24 128).
Notation fin64 := (fin 53 1024).
Notation units32 := (units 24 128).
Notation units64 := (units 53 1024).

Lemma of_f32_exact x :
  fin32 x → fin64 (f64_of_f32 x) ∧ units64 (f64_of_f32 x) = (units32 x * 2 ^ 925)%Z.
Proof.
  intros [Hv Hf]. destruct x as [s|s| |s m e]; try done. cbn [f64_of_f32 units]. cbn [valid_binary] in Hv.
  pose proof Hv as He. apply bounded_emin in He. unfold emin in He.
  assert (cond_Zopp s (Zpos m) * 2 ^ (e - emin 53 1024)
    = cond_Zopp s (Zpos m) * 2 ^ (e - emin 24 128) * 2 ^ 925)%Z as <-.
  { rewrite <- Z.mul_assoc, <- Z.pow_add_r by (unfold emin; lia). do 2 f_equal. unfold emin. lia. }
  apply normalize_exact; [unfold emin; lia..|].
  exists (cond_Zopp s (Zpos m)), (e - emin 53 1024)%Z. split; [done|].
  unfold bounded, canonical_mantissa, fexp, emin in Hv. apply andb_true_iff in Hv as [Hc Hm].
  apply Z.eqb_eq in Hc. apply Z.leb_le in Hm. unfold emin. split; [|lia].
  pose proof (digits_bounds m) as [_ Hd].
  assert (2 ^ Zpos (digits2_pos m) <= 2 ^ 53)%Z by (apply Z.pow_le_mono_r; lia).
  destruct s; cbn [cond_Zopp]; lia.
Qed.
Lemma of_f64_valid x : fin64 x → valid_binary 24 128 (f32_of_f64 x) = true.
Proof. intros [_ Hf]. destruct x; try done. by apply normalize_valid. Qed.
