(* ===== verification/Heights.v ===== *)
(** * The index of row heights ([crates/core/src/height_index.rs])

    A Fenwick tree of row heights in double precision. *)

From S2P Require Import Prelude RustStr F32 F64.

Record HeightIndex := mkHeightIndex { values : list spec_float; tree : list spec_float }.

Definition f64_at (l : list spec_float) (i : nat) : spec_float := default (S754_zero false) (l !! i).

(** [i & (!i + 1)] on a [usize] of 64 bits. *)
Definition lowbit (i : nat) : nat :=
  let n := N.of_nat i in N.to_nat (N.land n ((u64_max - n + 1) mod (u64_max + 1))).

(** The loop of [set]; the position grows, so the length of the tree is enough fuel. *)
Fixpoint set_loop (fuel i : nat) (delta : spec_float) (t : list spec_float) : list spec_float :=
  match fuel with
  | O => t
  | S fuel =>
      if (i <? length t)%nat
      then set_loop fuel (i + lowbit i) delta (<[i := f64_add (f64_at t i) delta]> t)
      else t
  end.
Definition set (h : HeightIndex) (index : nat) (value : spec_float) : HeightIndex :=
  let delta := f64_sub value (f64_at (values h) index) in
  mkHeightIndex (<[index := value]> (values h))
                (set_loop (length (tree h)) (index + 1) delta (tree h)).

Definition twenty : spec_float := S754_finite false 5629499534213120 (-48).
Definition initial_height (estimate : f32) : spec_float :=
  if is_finite estimate && f32_lt f32_zero estimate then f64_of_f32 estimate else twenty.
Definition HeightIndex_new (count : nat) (estimate : f32) : HeightIndex :=
  foldl (λ h i, set h i (initial_height estimate))
        (mkHeightIndex (replicate count (S754_zero false)) (replicate (count + 1) (S754_zero false)))
        (seq 0 count).

Definition update (h : HeightIndex) (index : nat) (height : f32) : result bytes HeightIndex :=
  if (length (values h) <=? index)%nat || negb (is_finite height) || f32_le height f32_zero
  then Err (bs "invalid row height")
  else Ok (set h index (f64_of_f32 height)).

Fixpoint prefix_loop (fuel i : nat) (sum : spec_float) (t : list spec_float) : spec_float :=
  match fuel, i with
  | S fuel, S _ => prefix_loop fuel (i - lowbit i) (f64_add sum (f64_at t i)) t
  | _, _ => sum
  end.
Definition prefix (h : HeightIndex) (count : nat) : f32 :=
  let i := Nat.min count (length (values h)) in
  f32_of_f64 (prefix_loop i i (S754_zero false) (tree h)).
Definition total (h : HeightIndex) : f32 := prefix h (length (values h)).

(** The first power of two that is not below [len]: the loop that shifts left. *)
Fixpoint first_bit (fuel bit len : nat) : nat :=
  match fuel with
  | O => bit
  | S fuel => if (bit <? len)%nat then first_bit fuel (2 * bit) len else bit
  end.
(** The loop that shifts right, to zero. *)
Fixpoint descend (fuel bit index : nat) (sum y : spec_float) (t : list spec_float)
    : nat * spec_float :=
  match fuel, bit with
  | S fuel, S _ =>
      let next := index + bit in
      if (next <? length t)%nat && SFleb (f64_add sum (f64_at t next)) y
      then descend fuel (bit / 2) next (f64_add sum (f64_at t next)) y t
      else descend fuel (bit / 2) index sum y t
  | _, _ => (index, sum)
  end.
Definition clamped (h : HeightIndex) (y : f32) : spec_float :=
  if is_finite y then f64_of_f32 (f32_min (f32_max y f32_zero) (total h)) else S754_zero false.
Definition locate (h : HeightIndex) (y : f32) : nat * f32 :=
  if bool_decide (values h = []) then (0, f32_zero)
  else
    let y := clamped h y in
    let len := length (tree h) in
    let bit := first_bit len 1 len in
    let '(index, _) := descend (S bit) bit 0 (S754_zero false) y (tree h) in
    let i := Nat.min index (length (values h) - 1) in
    (i, f32_of_f64 (f32_min (f32_max (f64_sub y (f64_of_f32 (prefix h i))) (S754_zero false))
                            (f64_at (values h) i))).
