(* ===== verification/HeightsFacts.v ===== *)
(** * The index of row heights gives exact sums

    As long as all heights are multiples of one power of two and their sum fits 53 bits, no
    addition in the tree rounds: every prefix is the exact sum, rounded once to [f32], and
    [locate] finds the row that holds a position. *)

From S2P Require Import Prelude RustStr F32 F64 Heights.

(** ** The lowest bit *)

Lemma odd_part n : (0 < n)%N → ∃ t q, n = (2 ^ t * (2 * q + 1))%N.
Proof.
  induction n as [n IH] using (well_founded_induction N.lt_wf_0). intros Hn.
  destruct (N.Even_or_Odd n) as [[m ->]|[q ->]].
  - destruct (IH m ltac:(lia) ltac:(lia)) as (t & q & ->). exists (N.succ t), q.
    rewrite N.pow_succ_r'. lia.
  - exists 0%N, q. rewrite N.pow_0_r. lia.
Qed.

Lemma land_complement q k : (q < 2 ^ k)%N → N.land q (2 ^ k - 1 - q) = 0%N.
Proof.
  intros Hq. destruct (decide (q = 0)%N) as [->|Hq0]; [by rewrite N.land_0_l|].
  assert (N.log2 q < k)%N as Hl by (apply N.log2_lt_pow2; lia).
  replace (2 ^ k - 1 - q)%N with (N.lnot q k).
  - by apply N.land_lnot_diag_low.
  - rewrite N.lnot_sub_low by done. rewrite N.ones_equiv. lia.
Qed.

Lemma lowbit_spec i :
  0 < i → (N.of_nat i <= u64_max)%N → ∃ t q, i = 2 ^ t * (2 * q + 1) ∧ lowbit i = 2 ^ t.
Proof.
  intros Hi Hmax. destruct (odd_part (N.of_nat i) ltac:(lia)) as (t & q & Hn).
  exists (N.to_nat t), (N.to_nat q).
  assert (N.of_nat (2 ^ N.to_nat t) = 2 ^ t)%N as Hp by (rewrite Nat2N.inj_pow, N2Nat.id; done).
  split; [apply Nat2N.inj; rewrite Nat2N.inj_mul, Hp, Hn, Nat2N.inj_add, Nat2N.inj_mul, N2Nat.id; lia|].
  unfold lowbit. apply Nat2N.inj. rewrite N2Nat.id, Hp. unfold u64_max in *.
  rewrite N.mod_small by lia.
  assert (0 < 2 ^ t)%N as Ht0 by (apply N.neq_0_lt_0, N.pow_nonzero; done).
  assert (t < 64)%N as Ht.
  { apply (N.pow_lt_mono_r_iff 2); [lia|]. change (2 ^ 64)%N with 18446744073709551616%N. nia. }
  assert (2 ^ 64 = 2 ^ t * 2 ^ (64 - t))%N as H64 by (rewrite <- N.pow_add_r; f_equal; lia).
  assert (2 ^ (64 - t) = 2 * 2 ^ (63 - t))%N as H63 by (rewrite <- N.pow_succ_r'; f_equal; lia).
  change (2 ^ 64)%N with 18446744073709551616%N in H64.
  replace (18446744073709551615 - N.of_nat i + 1)%N with (2 ^ t * (2 * (2 ^ (63 - t) - 1 - q) + 1))%N by nia.
  rewrite Hn, !(N.mul_comm (2 ^ t)), <- !N.shiftl_mul_pow2, <- N.shiftl_land.
  assert (q < 2 ^ (63 - t))%N as Hq by nia.
  assert (N.land (2 * q + 1) (2 * (2 ^ (63 - t) - 1 - q) + 1) = 1)%N as ->.
  { apply N.bits_inj. intros b. rewrite N.land_spec. destruct b as [|b] using N.peano_ind.
    - by rewrite !N.testbit_odd_0.
    - rewrite !N.testbit_odd_succ by lia. rewrite <- N.land_spec, land_complement by done.
      by rewrite N.bits_0, <- (N.add_0_l 1), <- (N.mul_0_r 2), N.testbit_odd_succ, N.bits_0 by lia. }
  by rewrite N.shiftl_1_l.
Qed.

Lemma lowbit_pos i : 0 < i → (N.of_nat i <= u64_max)%N → 1 ≤ lowbit i ≤ i.
Proof.
  intros Hi Hm. destruct (lowbit_spec i Hi Hm) as (t & q & E & ->).
  assert (0 < 2 ^ t) by (apply Nat.neq_0_lt_0, Nat.pow_nonzero; done). nia.
Qed.

(** The node at [j] holds the sum of the heights from [j - lowbit j] to [j]. *)
Definition covers_node (i j : nat) : Prop := i ≤ j ∧ j - lowbit j < i.
#[local] Instance covers_node_dec i j : Decision (covers_node i j) := and_dec _ _.

Lemma pow2_multiple s t : s ≤ t → ∃ r, 2 ^ t = 2 ^ s * r ∧ 0 < r.
Proof.
  intros H. exists (2 ^ (t - s)). split; [|apply Nat.neq_0_lt_0, Nat.pow_nonzero; done].
  rewrite <- Nat.pow_add_r. f_equal. lia.
Qed.

(** The nodes over [i] are [i] itself and the nodes over [i + lowbit i]. *)
Lemma covers_next i j :
  0 < i → i < j → (N.of_nat j <= u64_max)%N → covers_node i j ↔ covers_node (i + lowbit i) j.
Proof.
  intros Hi Hij Hj. unfold covers_node.
  destruct (lowbit_spec i Hi ltac:(lia)) as (t & q & Ei & Hli).
  destruct (lowbit_spec j ltac:(lia) Hj) as (s & p & Ej & Hlj). rewrite Hli, Hlj.
  assert (0 < 2 ^ t ∧ 0 < 2 ^ s) as [Ht Hs] by (split; apply Nat.neq_0_lt_0, Nat.pow_nonzero; done).
  assert (j - 2 ^ s = 2 ^ s * (2 * p)) as -> by nia.
  destruct (le_lt_dec s t) as [Hst|Hts].
  - (* no node that narrow covers both *)
    destruct (pow2_multiple s t Hst) as (r & Er & Hr). rewrite Er in *. subst i j.
    replace (2 ^ s * r * (2 * q + 1) + 2 ^ s * r) with (2 ^ s * (r * (2 * q + 2))) by lia.
    rewrite <- Nat.mul_assoc, <- !Nat.mul_lt_mono_pos_l, <- !Nat.mul_le_mono_pos_l in * by done. lia.
  - destruct (pow2_multiple (S t) s Hts) as (r & Er & Hr). rewrite Nat.pow_succ_r' in Er.
    rewrite Er in *. subst i j.
    replace (2 ^ t * (2 * q + 1) + 2 ^ t) with (2 ^ t * (2 * q + 2)) by lia.
    replace (2 * 2 ^ t * r * (2 * p + 1)) with (2 ^ t * (4 * (r * p) + 2 * r)) in * by lia.
    replace (2 * 2 ^ t * r * (2 * p)) with (2 ^ t * (4 * (r * p))) by lia.
    rewrite <- !Nat.mul_lt_mono_pos_l, <- !Nat.mul_le_mono_pos_l in * by done. lia.
Qed.

Lemma f64_at_insert t i j x :
  i < length t → f64_at (<[i := x]> t) j = if bool_decide (j = i) then x else f64_at t j.
Proof.
  intros H. unfold f64_at. case_bool_decide as E.
  - subst j. by rewrite list_lookup_insert_eq.
  - by rewrite list_lookup_insert_ne.
Qed.

(** The loop of [set] adds to the nodes over [i], and to no other. *)
Lemma set_loop_lookup fuel i d t j :
  0 < i → length t ≤ i + fuel → (N.of_nat (length t) <= u64_max)%N → j < length t →
  f64_at (set_loop fuel i d t) j =
  if bool_decide (covers_node i j) then f64_add (f64_at t j) d else f64_at t j.
Proof.
  revert i t. induction fuel as [|fuel IH]; intros i t Hi Hf Hmax Hj; cbn [set_loop].
  { rewrite bool_decide_false; [done|]. unfold covers_node. lia. }
  destruct (Nat.ltb_spec i (length t)) as [Hlt|Hge].
  2:{ rewrite bool_decide_false; [done|]. unfold covers_node. lia. }
  pose proof (lowbit_pos i Hi ltac:(lia)).
  rewrite IH by (rewrite ?length_insert; lia). rewrite f64_at_insert by done.
  destruct (decide (j = i)) as [->|Hne].
  - rewrite (bool_decide_true (i = i)), bool_decide_false, bool_decide_true
      by (unfold covers_node; lia). done.
  - rewrite (bool_decide_false (j = i)) by done. destruct (decide (i < j)) as [Hij|Hij].
    + by rewrite (bool_decide_ext (covers_node i j) (covers_node (i + lowbit i) j) (covers_next i j Hi Hij ltac:(lia))).
    + rewrite !bool_decide_false by (unfold covers_node; lia). done.
Qed.
Lemma set_loop_length fuel i d t : length (set_loop fuel i d t) = length t.
Proof.
  revert i t. induction fuel as [|fuel IH]; intros i t; [done|]. cbn [set_loop].
  destruct (_ <? _); [|done]. by rewrite IH, length_insert.
Qed.

(** ** Sums of a list of units *)

Definition upto (us : list Z) (i : nat) : Z := foldr Z.add 0%Z (take i us).

Lemma upto_0 us : upto us 0 = 0%Z.
Proof. by destruct us. Qed.
Lemma upto_S us i x : us !! i = Some x → upto us (S i) = (upto us i + x)%Z.
Proof.
  intros H. unfold upto. rewrite (take_S_r _ _ _ H), foldr_app. cbn [foldr].
  generalize (take i us). intros l. induction l as [|y l IH]; cbn [foldr]; lia.
Qed.
Lemma upto_cons x us i : upto (x :: us) (S i) = (x + upto us i)%Z.
Proof. done. Qed.
Lemma upto_insert us k v x i :
  us !! k = Some x → upto (<[k := v]> us) i = (upto us i + if bool_decide (k < i)%nat then v - x else 0)%Z.
Proof.
  intros Hk. revert k i Hk. induction us as [|y us IH]; intros k i Hk; [done|].
  destruct i as [|i]; [rewrite bool_decide_false, !upto_0 by lia; lia|].
  destruct k as [|k]; [change (<[0 := v]> (y :: us)) with (v :: us)
    |change (<[S k := v]> (y :: us)) with (y :: <[k := v]> us)]; rewrite !upto_cons.
  - injection Hk as ->. rewrite bool_decide_true by lia. lia.
  - rewrite (IH k i Hk), (bool_decide_ext (S k < S i)%nat (k < i)%nat) by lia. lia.
Qed.
Lemma upto_ge us i : length us ≤ i → upto us i = upto us (length us).
Proof. intros H. unfold upto. by rewrite !take_ge by lia. Qed.

(** All heights are multiples of [2 ^ K], none negative, and their sum fits. *)
Record grid (K B : Z) (us : list Z) : Prop := {
  grid_each x : x ∈ us → ∃ c, x = (c * 2 ^ K)%Z ∧ (0 <= c <= B)%Z;
  grid_K : (0 <= K <= 2045)%Z;
  grid_B : (0 <= B)%Z;
  grid_sum : (Z.of_nat (length us) * B < 2 ^ 53)%Z
}.
Lemma grid_upto K B us i :
  grid K B us → ∃ c, upto us i = (c * 2 ^ K)%Z ∧ (0 <= c <= Z.of_nat (Nat.min i (length us)) * B)%Z.
Proof.
  intros [Hx _ HB _]. revert i. induction us as [|x us IH]; intros i.
  { exists 0%Z. unfold upto. rewrite take_nil. cbn. lia. }
  destruct i as [|i]; [exists 0%Z; cbn; lia|].
  destruct (IH ltac:(intros y Hy; apply Hx; by right) i) as (c & Hc & Hb).
  destruct (Hx x ltac:(by left)) as (d & -> & Hd).
  exists (d + c)%Z. unfold upto in *. cbn [take foldr length Nat.min]. rewrite Hc. split; [lia|]. nia.
Qed.

(** ** The tree *)

Record index_ok (us : list Z) (h : HeightIndex) : Prop := {
  io_values : units64 <$> values h = us;
  io_fin : Forall fin64 (values h);
  io_len : length (tree h) = S (length us);
  io_max : (N.of_nat (S (length us)) <= u64_max)%N;
  io_node j : 1 ≤ j ≤ length us → fin64 (f64_at (tree h) j) ∧
    units64 (f64_at (tree h) j) = (upto us j - upto us (j - lowbit j))%Z
}.

Lemma grid_fits K c : (0 <= K <= 2045)%Z → (Z.abs c < 2 ^ 53)%Z → fits 53 1024 (c * 2 ^ K).
Proof. intros HK Hc. exists c, K. unfold emin. split_and!; [done..|lia|lia]. Qed.
Lemma grid_diff K B us i j : grid K B us → fits 53 1024 (upto us i - upto us j).
Proof.
  intros Hg. destruct (grid_upto K B us i Hg) as (c & -> & Hc). destruct (grid_upto K B us j Hg) as (d & -> & Hd).
  destruct Hg as [_ HK HB Hs]. rewrite <- Z.mul_sub_distr_r. apply grid_fits; [done|].
  assert (Z.of_nat (Nat.min i (length us)) * B <= Z.of_nat (length us) * B)%Z by nia.
  assert (Z.of_nat (Nat.min j (length us)) * B <= Z.of_nat (length us) * B)%Z by nia. lia.
Qed.
Lemma index_value us h i x : index_ok us h → us !! i = Some x → fin64 (f64_at (values h) i) ∧ units64 (f64_at (values h) i) = x.
Proof.
  intros [<- Hf _ _ _] Hi. rewrite list_lookup_fmap in Hi. unfold f64_at.
  destruct (values h !! i) as [v|] eqn:E; [|done]. injection Hi as <-. cbn [default].
  split; [|done]. rewrite Forall_lookup in Hf. by eapply Hf.
Qed.

Lemma set_ok K B us h i x :
  index_ok us h → grid K B us → grid K B (<[i := units64 x]> us) → i < length us → fin64 x →
  index_ok (<[i := units64 x]> us) (Heights.set h i x).
Proof.
  intros Hok Hg Hg' Hi Hx. destruct (lookup_lt_is_Some_2 us i Hi) as [u Hu].
  destruct (index_value us h i u Hok Hu) as [Hfu Huu].
  assert (fits 53 1024 (units64 x - units64 (f64_at (values h) i))) as Hfit.
  { destruct (grid_each _ _ _ Hg u) as (c & Hc & Hb); [by eapply list_elem_of_lookup_2|].
    destruct (grid_each _ _ _ Hg' (units64 x)) as (d & Hd & Hb').
    { apply (list_elem_of_lookup_2 _ i). by rewrite list_lookup_insert_eq. }
    rewrite Huu, Hc, Hd, <- Z.mul_sub_distr_r. destruct Hg as [_ HK HB Hs]. apply grid_fits; [done|].
    assert (B <= Z.of_nat (length us) * B)%Z by nia. lia. }
  destruct (sub_exact 53 1024 ltac:(lia) ltac:(lia) x _ Hx Hfu Hfit) as [Hdf Hdu]. rewrite Huu in Hdu.
  destruct Hok as [Hv Hf Hl Hm Hn]. unfold Heights.set. constructor; cbn [values tree].
  - by rewrite list_fmap_insert, Hv.
  - by apply Forall_insert.
  - by rewrite set_loop_length, length_insert.
  - by rewrite length_insert.
  - intros j Hj. rewrite length_insert in Hj. rewrite set_loop_lookup by (rewrite ?Hl; lia).
    destruct (Hn j Hj) as [Hnf Hnu]. pose proof (lowbit_pos j ltac:(lia) ltac:(lia)) as Hlow.
    rewrite !(upto_insert _ _ _ _ _ Hu). unfold f64_sub.
    case_bool_decide as Hcov; unfold covers_node in Hcov.
    + rewrite (bool_decide_true (i < j)), (bool_decide_false (i < j - lowbit j)) by lia.
      assert (units64 (f64_at (tree h) j) + units64 (SFsub 53 1024 x (f64_at (values h) i))
        = upto (<[i := units64 x]> us) j - upto (<[i := units64 x]> us) (j - lowbit j))%Z as Hsum.
      { rewrite !(upto_insert _ _ _ _ _ Hu), Hnu, Hdu.
        rewrite (bool_decide_true (i < j)), (bool_decide_false (i < j - lowbit j)) by lia. lia. }
      destruct (add_exact 53 1024 ltac:(lia) ltac:(lia) _ _ Hnf Hdf) as [H1 H2].
      { rewrite Hsum. by eapply grid_diff. }
      split; [exact H1|]. unfold f64_add. rewrite H2, Hnu, Hdu. lia.
    + split; [done|]. rewrite Hnu.
      destruct (decide (i < j)).
      * rewrite !bool_decide_true by lia. lia.
      * rewrite !bool_decide_false by lia. lia.
Qed.

Lemma prefix_loop_ok K B us h fuel i N sum :
  index_ok us h → grid K B us → i ≤ fuel → i ≤ N → N ≤ length us → fin64 sum →
  units64 sum = (upto us N - upto us i)%Z →
  let r := prefix_loop fuel i sum (tree h) in fin64 r ∧ units64 r = upto us N.
Proof.
  intros Hok Hg. revert i sum. induction fuel as [|fuel IH]; intros i sum Hf Hi HN Hs Hu; cbn [prefix_loop].
  { assert (i = 0) as -> by lia. rewrite upto_0 in Hu. split; [done|]. lia. }
  destruct i as [|i]; [rewrite upto_0 in Hu; split; [done|]; lia|].
  destruct Hok as [Hv Hfv Hl Hm Hn]. destruct (Hn (S i)) as [Hnf Hnu]; [lia|].
  pose proof (lowbit_pos (S i) ltac:(lia) ltac:(lia)).
  assert (units64 sum + units64 (f64_at (tree h) (S i)) = upto us N - upto us (S i - lowbit (S i)))%Z as E by lia.
  destruct (add_exact 53 1024 ltac:(lia) ltac:(lia) sum (f64_at (tree h) (S i)) Hs Hnf) as [H1 H2].
  { rewrite E. by eapply grid_diff. }
  apply IH; [lia|lia|done|exact H1|]. unfold f64_add. rewrite H2. exact E.
Qed.

(** ** Finding a row *)

Lemma lowbit_odd k r : (N.of_nat (2 ^ k * (2 * r + 1)) <= u64_max)%N → lowbit (2 ^ k * (2 * r + 1)) = 2 ^ k.
Proof.
  intros Hm. assert (0 < 2 ^ k) as Hk by (apply Nat.neq_0_lt_0, Nat.pow_nonzero; done).
  destruct (lowbit_spec (2 ^ k * (2 * r + 1)) ltac:(nia) Hm) as (t & q & E & ->).
  assert (0 < 2 ^ t) as Ht by (apply Nat.neq_0_lt_0, Nat.pow_nonzero; done).
  destruct (Nat.lt_trichotomy t k) as [H|[->|H]]; [exfalso|done|exfalso].
  - destruct (pow2_multiple (S t) k H) as (c & Ec & _). rewrite Nat.pow_succ_r' in Ec. rewrite Ec in E.
    assert (2 ^ t * (2 * (c * (2 * r + 1))) = 2 ^ t * (2 * q + 1)) as E' by lia.
    apply Nat.mul_cancel_l in E'; lia.
  - destruct (pow2_multiple (S k) t H) as (c & Ec & _). rewrite Nat.pow_succ_r' in Ec. rewrite Ec in E.
    assert (2 ^ k * (2 * (c * (2 * q + 1))) = 2 ^ k * (2 * r + 1)) as E' by lia.
    apply Nat.mul_cancel_l in E'; lia.
Qed.

Lemma first_bit_spec fuel bit len :
  (∃ k, bit = 2 ^ k) → len ≤ bit + fuel → (∃ k, first_bit fuel bit len = 2 ^ k) ∧ len ≤ first_bit fuel bit len.
Proof.
  revert bit. induction fuel as [|fuel IH]; intros bit [k ->] Hf; cbn [first_bit]; [split; [by exists k|lia]|].
  assert (0 < 2 ^ k) by (apply Nat.neq_0_lt_0, Nat.pow_nonzero; done).
  destruct (Nat.ltb_spec (2 ^ k) len); [|split; [by exists k|lia]].
  apply IH; [by exists (S k)|lia].
Qed.

Lemma descend_0 fuel i s y t : descend fuel 0 i s y t = (i, s).
Proof. by destruct fuel. Qed.
Lemma descend_S fuel bit i s y t :
  0 < bit → descend (S fuel) bit i s y t =
  let next := i + bit in
  if (next <? length t)%nat && SFleb (f64_add s (f64_at t next)) y
  then descend fuel (bit / 2) next (f64_add s (f64_at t next)) y t
  else descend fuel (bit / 2) i s y t.
Proof. destruct bit; [lia|done]. Qed.

(** The sum at the next node of a search. *)
Lemma node_sum K B us h k r sum :
  index_ok us h → grid K B us → 2 ^ S k * r + 2 ^ k ≤ length us → fin64 sum →
  units64 sum = upto us (2 ^ S k * r) →
  let next := 2 ^ S k * r + 2 ^ k in
  fin64 (f64_add sum (f64_at (tree h) next)) ∧ units64 (f64_add sum (f64_at (tree h) next)) = upto us next.
Proof.
  intros Hok Hg Hle Hs Hu next. destruct Hok as [Hv Hfv Hl Hm Hn].
  assert (0 < 2 ^ k) as Hk by (apply Nat.neq_0_lt_0, Nat.pow_nonzero; done).
  assert (next = 2 ^ k * (2 * r + 1)) as Hnext by (subst next; rewrite Nat.pow_succ_r'; lia).
  assert (lowbit next = 2 ^ k) as Hlow.
  { rewrite Hnext. apply lowbit_odd. rewrite <- Hnext. subst next. lia. }
  destruct (Hn next) as [Hnf Hnu]; [subst next; lia|].
  rewrite Hlow in Hnu. replace (next - 2 ^ k) with (2 ^ S k * r) in Hnu by (subst next; lia).
  destruct (add_exact 53 1024 ltac:(lia) ltac:(lia) sum (f64_at (tree h) next) Hs Hnf) as [Ha1 Ha2].
  { rewrite Hu, Hnu. replace (upto us (2 ^ S k * r) + (upto us next - upto us (2 ^ S k * r)))%Z
      with (upto us next - upto us 0)%Z by (rewrite upto_0; lia). by eapply grid_diff. }
  split; [exact Ha1|]. unfold f64_add. rewrite Ha2. lia.
Qed.

(** The bit of a search over [2 ^ m] rows. *)
Definition bit_of (m : nat) : nat := match m with O => 0 | S k => 2 ^ k end.
Lemma bit_half k : 2 ^ k / 2 = bit_of k.
Proof. destruct k as [|k]; [done|]. rewrite Nat.pow_succ_r', Nat.mul_comm. by apply Nat.div_mul. Qed.

Lemma descend_ok K B us h y m fuel r sum :
  index_ok us h → grid K B us → fin64 y → m ≤ fuel →
  2 ^ m * r ≤ length us → fin64 sum → units64 sum = upto us (2 ^ m * r) →
  (upto us (2 ^ m * r) <= units64 y)%Z →
  length us < 2 ^ m * r + 2 ^ m ∨ (units64 y < upto us (2 ^ m * r + 2 ^ m))%Z →
  let i := (descend fuel (bit_of m) (2 ^ m * r) sum y (tree h)).1 in
  i ≤ length us ∧ (upto us i <= units64 y)%Z ∧ (length us ≤ i ∨ (units64 y < upto us (S i))%Z).
Proof.
  intros Hok Hg Hy. revert fuel r sum. induction m as [|k IH]; intros fuel r sum Hf Hi Hs Hu Hle Hgt.
  { cbn [bit_of]. rewrite descend_0. cbn [fst]. rewrite Nat.pow_0_r, Nat.add_1_r in *. split_and!; [done..|].
    destruct Hgt; [left; lia|by right]. }
  destruct fuel as [|fuel]; [lia|]. cbn [bit_of].
  rewrite descend_S, bit_half by (apply Nat.neq_0_lt_0, Nat.pow_nonzero; done). cbv zeta.
  pose proof (node_sum K B us h k r sum Hok Hg) as Hnode. cbv zeta in Hnode.
  assert (2 ^ S k * r = 2 ^ k * (2 * r)) as E0 by (rewrite Nat.pow_succ_r'; lia).
  assert (2 ^ S k * r + 2 ^ k = 2 ^ k * (2 * r + 1)) as E1 by lia.
  assert (2 ^ S k = 2 ^ k + 2 ^ k) as E2 by (rewrite Nat.pow_succ_r'; lia).
  rewrite (io_len _ _ Hok). destruct (_ && _) eqn:Et.
  - apply andb_true_iff in Et as [H1 H2]. apply Nat.ltb_lt in H1.
    destruct (Hnode ltac:(lia) Hs Hu) as [Hf' Hu'].
    rewrite (le_units 53 1024) in H2 by (done || lia). apply Z.leb_le in H2. rewrite Hu' in H2.
    rewrite E1 in *. apply IH; [lia|lia|done|done|done|].
    destruct Hgt as [H|H]; [left|right]; [lia|]. by replace (2 ^ k * (2 * r + 1) + 2 ^ k)
      with (2 ^ S k * r + 2 ^ S k) by lia.
  - rewrite E0 in *. apply IH; [lia|lia|done|done|done|].
    destruct (Nat.le_gt_cases (2 ^ k * (2 * r) + 2 ^ k) (length us)) as [Hn|Hn]; [right|left; lia].
    destruct (Hnode Hn Hs Hu) as [Hf' Hu'].
    apply andb_false_iff in Et as [H1|H2]; [apply Nat.ltb_ge in H1; lia|].
    rewrite (le_units 53 1024) in H2 by (done || lia). apply Z.leb_gt in H2. lia.
Qed.

(** ** Whole runs *)

(** Updates that are refused change nothing; the layout ignores the error. *)
Definition update_all (h : HeightIndex) (ups : list (nat * f32)) : HeightIndex :=
  foldl (λ h u, match update h u.1 u.2 with Ok h' => h' | Err _ => h end) h ups.
(** The heights as a plain list of units. *)
Definition valid_height (n : nat) (u : nat * f32) : bool :=
  (u.1 <? n)%nat && is_finite u.2 && f32_lt f32_zero u.2.
Definition heights (count : nat) (estimate : f32) (ups : list (nat * f32)) : list Z :=
  foldl (λ us u, if valid_height count u then <[u.1 := units64 (f64_of_f32 u.2)]> us else us)
        (replicate count (units64 (initial_height estimate))) ups.

(** A measured height: a multiple of [2 ^ K] units, at most [B] of them. *)
Definition measured (K B : Z) (x : spec_float) : Prop :=
  fin64 x ∧ ∃ c, units64 x = (c * 2 ^ K)%Z ∧ (0 <= c <= B)%Z.

Lemma zero_fin : fin64 (S754_zero false).
Proof. done. Qed.
Lemma grid_insert K B us i x : grid K B us → measured K B x → grid K B (<[i := units64 x]> us).
Proof.
  intros [He HK HB Hs] [_ Hx]. constructor; [|done..|by rewrite length_insert].
  intros y [j Hj]%list_elem_of_lookup. destruct (decide (i = j)) as [->|Hne].
  - apply list_lookup_insert_Some in Hj as [(_ & <- & _)|(Hn & _)]; done.
  - rewrite list_lookup_insert_ne in Hj by done. apply He. by eapply list_elem_of_lookup_2.
Qed.

Lemma lt_not_le x y : is_finite x = true → is_finite y = true → f32_le y x = negb (f32_lt x y).
Proof.
  intros Hx Hy. unfold f32_le, f32_lt, SFleb, SFltb. rewrite (compare_antisym x y).
  destruct x as [sx|sx| |sx mx ex], y as [sy|sy| |sy my ey]; try done;
    destruct sx, sy; try done; cbn; by destruct (_ ?= _)%Z; try destruct (Pos.compare_cont _ _ _).
Qed.

Lemma new_ok K B count est :
  grid K B (replicate count (units64 (initial_height est))) → measured K B (initial_height est) →
  (N.of_nat (S count) <= u64_max)%N →
  index_ok (replicate count (units64 (initial_height est))) (HeightIndex_new count est).
Proof.
  intros Hg Hm Hmax. unfold HeightIndex_new. set (v := initial_height est) in *.
  set (h0 := mkHeightIndex _ _).
  assert (∀ n, n ≤ count → let us := replicate n (units64 v) ++ replicate (count - n) 0%Z in
    index_ok us (foldl (λ h i, Heights.set h i v) h0 (seq 0 n)) ∧ grid K B us) as H.
  { destruct Hg as [He HK HB Hs]. rewrite length_replicate in Hs. destruct Hm as [Hfv Hcv].
    assert (∀ n, n ≤ count → grid K B (replicate n (units64 v) ++ replicate (count - n) 0%Z)) as Hgr.
    { intros n Hn. constructor; [|done..|rewrite length_app, !length_replicate].
      - intros x [Hx|Hx]%elem_of_app; apply elem_of_replicate in Hx as [-> _]; [done|exists 0%Z; lia].
      - by replace (n + (count - n)) with count by lia. }
    induction n as [|n IH]; intros Hn us; subst us.
    - split; [|by apply Hgr]. rewrite Nat.sub_0_r. cbn [replicate app foldl seq]. subst h0.
      assert (∀ i, upto (replicate count 0%Z) i = 0%Z) as Hz.
      { intros i. unfold upto. rewrite take_replicate. induction (Nat.min i count) as [|k IH]; [done|].
        cbn [replicate foldr]. lia. }
      constructor; cbn [values tree]; rewrite ?length_replicate; [by rewrite fmap_replicate| |lia|done|].
      + apply Forall_replicate. by split.
      + intros j Hj. unfold f64_at. rewrite lookup_replicate_2, !Hz by lia. by split.
    - destruct (IH ltac:(lia)) as [Hok Hg]. rewrite seq_S, foldl_app. cbn [foldl].
      assert (replicate (S n) (units64 v) ++ replicate (count - S n) 0%Z
        = <[0 + n := units64 v]> (replicate n (units64 v) ++ replicate (count - n) 0%Z)) as E.
      { replace (count - n) with (S (count - S n)) by lia.
        rewrite insert_app_r_alt by (rewrite length_replicate; lia).
        rewrite length_replicate, Nat.add_0_l, Nat.sub_diag. cbn [replicate].
        change (<[0 := units64 v]> (0%Z :: replicate (count - S n) 0%Z))
          with (units64 v :: replicate (count - S n) 0%Z).
        change (units64 v :: replicate n (units64 v)) with (replicate (S n) (units64 v)).
        rewrite replicate_S_end, <- app_assoc. done. }
      split; [|by apply Hgr]. rewrite E. eapply set_ok; [exact Hok|exact Hg| |rewrite length_app, !length_replicate; lia|done].
      rewrite <- E. by apply Hgr. }
  destruct (H count ltac:(lia)) as [Hok _]. by rewrite Nat.sub_diag, app_nil_r in Hok.
Qed.

Lemma update_all_ok K B n us h ups :
  index_ok us h → grid K B us → length us = n →
  Forall (λ u, valid_height n u = true → measured K B (f64_of_f32 u.2)) ups →
  let us' := foldl (λ us u, if valid_height n u then <[u.1 := units64 (f64_of_f32 u.2)]> us else us) us ups in
  index_ok us' (update_all h ups) ∧ grid K B us' ∧ length us' = n.
Proof.
  intros Hok Hg Hn Hups. revert us h Hok Hg Hn. induction ups as [|[i x] ups IH]; intros us h Hok Hg Hn; [done|].
  apply Forall_cons in Hups as [Hx Hups]. unfold update_all. cbn [foldl fst snd].
  fold (update_all (match update h i x with Ok h' => h' | Err _ => h end) ups).
  assert (length (values h) = n) as Hl by (by rewrite <- Hn, <- (io_values _ _ Hok), length_fmap).
  assert (update h i x = if valid_height n (i, x) then Ok (Heights.set h i (f64_of_f32 x))
    else Err (bs "invalid row height")) as ->.
  { unfold update, valid_height. rewrite Hl. cbn [fst snd].
    destruct (Nat.leb_spec n i), (Nat.ltb_spec i n); try lia; [done|].
    destruct (is_finite x) eqn:Ef; [|done]. cbn [negb orb andb].
    rewrite lt_not_le by done. by destruct (f32_lt _ _). }
  destruct (valid_height n (i, x)) eqn:Ev; [|by apply IH].
  specialize (Hx eq_refl). cbn [snd] in Hx.
  assert (i < length us) as Hi.
  { unfold valid_height in Ev. cbn [fst snd] in Ev. rewrite Hn. by destruct (Nat.ltb_spec i n). }
  pose proof (grid_insert K B us i _ Hg Hx) as Hg'.
  apply (IH Hups); [|done|by rewrite length_insert].
  eapply set_ok; [done..|by destruct Hx].
Qed.

(** ** The clamped position *)

(** Rounding a number that is not negative gives one, or positive infinity. *)
Definition not_negative (x : f32) : Prop := (fin32 x ∧ (0 <= units32 x)%Z) ∨ x = S754_infinity false.
Lemma round_not_negative m e :
  valid_binary 24 128 (binary_round 24 128 false m e) = true → not_negative (binary_round 24 128 false m e).
Proof.
  unfold binary_round. destruct (shl_align _ _ _) as [m' e']. unfold binary_round_aux.
  destruct (shr_fexp _ _ (Zpos m') _ _) as [r1 e1] eqn:E1.
  pose proof (shr_fexp_nonneg (Zpos m') e' loc_Exact ltac:(lia)) as H1. rewrite E1 in H1. cbn [fst] in H1.
  pose proof (shr_fexp_nonneg _ e1 loc_Exact (round_nonneg _ (loc_of_shr_record r1) H1)) as H2.
  destruct (shr_fexp _ _ _ e1 _) as [r2 e2]. cbn [fst] in H2.
  destruct (shr_m r2) as [|q|q]; [by left| |lia].
  destruct (_ <=? _)%Z; [|by right]. intros Hv. left. split; [done|]. cbn [units cond_Zopp].
  apply Z.mul_nonneg_nonneg; [lia|]. by apply Z.pow_nonneg.
Qed.
Lemma of_f64_not_negative x : fin64 x → (0 <= units64 x)%Z → not_negative (f32_of_f64 x).
Proof.
  intros Hfin Hu. pose proof (of_f64_valid x Hfin) as Hval. destruct Hfin as [Hv Hf].
  destruct x as [s|s| |[] m e]; try done; [by left| |].
  - cbn [units cond_Zopp valid_binary] in Hu, Hv. apply bounded_emin in Hv.
    assert (0 < 2 ^ (e - emin 53 1024))%Z by (apply Z.pow_pos_nonneg; lia). nia.
  - by apply round_not_negative.
Qed.

Lemma clamped_ok h y :
  valid_binary 24 128 y = true → not_negative (total h) →
  fin64 (clamped h y) ∧ (0 <= units64 (clamped h y))%Z.
Proof.
  intros Hv Ht. unfold clamped. destruct (is_finite y) eqn:Ef; [|done].
  assert (∀ x, fin32 x → (0 <= units32 x)%Z → fin64 (f64_of_f32 x) ∧ (0 <= units64 (f64_of_f32 x))%Z) as Hc.
  { intros x Hx Hu. destruct (of_f32_exact x Hx) as [H1 ->]. split; [done|]. lia. }
  assert (fin32 (f32_max y f32_zero) ∧ (0 <= units32 (f32_max y f32_zero))%Z) as [Hm Hmu].
  { unfold f32_max. assert (is_nan y = false) as -> by by destruct y. cbn [is_nan f32_zero].
    destruct (y <? f32_zero)%f32 eqn:E; [done|]. split; [done|].
    unfold f32_lt in E. rewrite (lt_units 24 128) in E by done. apply Z.ltb_ge in E. done. }
  set (a := f32_max y f32_zero) in *. unfold f32_min.
  assert (is_nan a = false) as -> by by destruct a; destruct Hm.
  destruct Ht as [[Hft Htu]|Hinf].
  - assert (is_nan (total h) = false) as -> by by destruct (total h); destruct Hft.
    destruct (_ <? _)%f32; by apply Hc.
  - rewrite Hinf. cbn [is_nan]. assert ((S754_infinity false <? a)%f32 = false) as ->.
    { destruct a as [| | |]; try done; by destruct Hm. }
    by apply Hc.
Qed.

(** C35: The scrollbar's geometry is exact. When the heights of a file's rows are multiples of one
    power of two and their sum has at most 53 bits, then after any updates, refused ones
    included, the tree holds exactly the heights it was given, every prefix is their exact
    sum rounded once to [f32], and the row located for a position, clamped to the file,
    begins at or above it and ends below it, unless it is the last. *)
Theorem height_index_exact K B count est ups :
  grid K B (replicate count (units64 (initial_height est))) →
  measured K B (initial_height est) →
  Forall (λ u, valid_height count u = true → measured K B (f64_of_f32 u.2)) ups →
  (N.of_nat (S count) <= u64_max)%N →
  let h := update_all (HeightIndex_new count est) ups in
  let us := heights count est ups in
  units64 <$> values h = us ∧
  (∀ n, ∃ s, prefix h n = f32_of_f64 s ∧ fin64 s ∧ units64 s = upto us n) ∧
  (∀ y, valid_binary 24 128 y = true → 0 < count →
     let row := (locate h y).1 in let at_ := units64 (clamped h y) in
     row < count ∧ (upto us row <= at_)%Z ∧ (S row = count ∨ (at_ < upto us (S row))%Z)).
Proof.
  intros Hg0 Hm Hups Hmax h us.
  destruct (update_all_ok K B count (replicate count (units64 (initial_height est))) _ ups
    (new_ok K B count est Hg0 Hm Hmax) Hg0 (length_replicate _ _) Hups) as (Hok & Hg & Hl).
  fold (heights count est ups) in Hok, Hg, Hl. fold us h in Hok, Hg, Hl.
  assert (length (values h) = count) as Hlv by (by rewrite <- Hl, <- (io_values _ _ Hok), length_fmap).
  assert (∀ n, ∃ s, prefix h n = f32_of_f64 s ∧ fin64 s ∧ units64 s = upto us n) as Hpre.
  { intros n. eexists. split; [reflexivity|]. rewrite Hlv.
    destruct (prefix_loop_ok K B us h (Nat.min n count) (Nat.min n count) (Nat.min n count) (S754_zero false))
      as [H1 H2]; try (lia || done); [by rewrite Z.sub_diag|]. split; [exact H1|]. rewrite H2.
    destruct (Nat.le_gt_cases n count); [by rewrite Nat.min_l|].
    rewrite Nat.min_r, (upto_ge us n), Hl by lia. done. }
  split; [apply (io_values _ _ Hok)|]. split; [exact Hpre|]. intros y Hy Hc.
  assert (not_negative (total h)) as Ht.
  { unfold total. destruct (Hpre (length (values h))) as (s & -> & Hs & Hu). apply of_f64_not_negative; [done|].
    rewrite Hu. destruct (grid_upto K B us (length (values h)) Hg) as (c & -> & Hb & _).
    apply Z.mul_nonneg_nonneg; [done|]. apply Z.pow_nonneg. lia. }
  destruct (clamped_ok h y Hy Ht) as [Hf Hu]. unfold locate.
  rewrite bool_decide_false by (intros E; rewrite E in Hlv; cbn in Hlv; lia).
  destruct (first_bit_spec (length (tree h)) 1 (length (tree h)) ltac:(by exists 0) ltac:(lia)) as [[k Hk] Hlen].
  rewrite Hk in *. rewrite (io_len _ _ Hok), Hl in Hlen.
  pose proof (descend_ok K B us h (clamped h y) (S k) (S (2 ^ k)) 0 (S754_zero false) Hok Hg Hf) as Hd.
  rewrite Nat.mul_0_r, upto_0, Hl in Hd. cbn [bit_of] in Hd.
  destruct Hd as (H1 & H2 & H3); [pose proof (Nat.pow_gt_lin_r 2 k); lia|lia|done|done|done|left; rewrite Nat.pow_succ_r'; lia|].
  destruct (descend _ _ _ _ _ _) as [i s]. cbn [fst] in *. rewrite Hlv. split; [lia|].
  destruct (decide (i = count)) as [->|Hne].
  - rewrite Nat.min_r by lia. split; [|left; lia].
    destruct (lookup_lt_is_Some_2 us (count - 1)) as [x Hx]; [lia|].
    pose proof (upto_S us _ x Hx) as HS. replace (S (count - 1)) with count in HS by lia.
    destruct (grid_each _ _ _ Hg x) as (c & -> & Hc0); [by eapply list_elem_of_lookup_2|].
    assert (0 <= c * 2 ^ K)%Z by (apply Z.mul_nonneg_nonneg; [lia|apply Z.pow_nonneg; lia]). lia.
  - rewrite Nat.min_l by lia. split; [done|]. destruct H3; [lia|by right].
Qed.

(** A file of three rows, at the estimate of a font of 14 pixels, one of them measured. *)
Lemma height_index_exact_witness :
  let est := S754_finite false 11324621 (-19) in
  let ups := [(1, S754_finite false 11010048 (-18)); (7, f32_zero); (0, S754_nan)] in
  let h := update_all (HeightIndex_new 3 est) ups in
  units64 <$> values h = heights 3 est ups ∧ (locate h (f32_of_N 50)).1 = 1.
Proof.
  intros est ups. cbv zeta.
  assert (measured 1055 (2 ^ 30) (initial_height est)) as Hm.
  { split; [by vm_compute|]. exists 11324621%Z. split; [by vm_compute|lia]. }
  destruct (height_index_exact 1055 (2 ^ 30) 3 est ups) as (H & _ & _).
  - constructor; [|lia..|cbn [length replicate]; lia].
    intros x Hx%elem_of_replicate. destruct Hx as [-> _]. exists 11324621%Z. split; [by vm_compute|lia].
  - exact Hm.
  - apply Forall_cons. split; [|apply Forall_cons; split; [by intros [=]|apply Forall_cons; split; [by intros [=]|apply Forall_nil_2]]].
    intros _. cbn [snd]. split; [by vm_compute|]. exists (11010048 * 2)%Z. split; [by vm_compute|lia].
  - by vm_compute.
  - split; [exact H|by vm_compute].
Defined.
