(* ===== verification/Scroll.v ===== *)
(** * Scrolling past the edge of a file ([crates/core/src/scroll.rs])

    Inertia after the finger lifts, and the pull that turns to the next file. Times are
    [f64], distances [f32]; the logarithm and the exponential are parameters. *)

From S2P Require Import Prelude F32 F64.

Class Libm := { f32_ln : f32 → f32; f32_exp : f32 → f32 }.

Definition LIFT_GAP_MS : spec_float := S754_finite false 5629499534213120 (-47).
Definition VELOCITY_WINDOW_MS : spec_float := S754_finite false 5629499534213120 (-47).
Definition MIN_FLING_SPEED : f32 := S754_finite false 8388608 (-25).
Definition STOP_SPEED : f32 := S754_finite false 10737418 (-29).
Definition DECAY_PER_MS : f32 := S754_finite false 16726884 (-24).
Definition MAX_FLING_DISTANCE : f32 := S754_finite false 16384000 (-12).
Definition f32_one : f32 := S754_finite false 8388608 (-23).
Definition f64_zero : spec_float := S754_zero false.

(** ** Inertia *)

Record Fling := mkFling { v0 : f32; started_ms : spec_float; emitted : f32 }.
Record Kinetic := mkKinetic { samples : list (spec_float * f32); fling : option Fling }.

Section kinetic.
Context {libm_ : Libm}.
Local Open Scope f32_scope.

Definition tau : f32 := SFopp f32_one / f32_ln DECAY_PER_MS.
Definition elapsed (f : Fling) (now_ms : spec_float) : f32 :=
  f32_of_f64 (f32_max (f64_sub now_ms (started_ms f)) f64_zero).
Definition distance (f : Fling) (now_ms : spec_float) : option f32 :=
  let t := elapsed f now_ms in
  let d := v0 f * tau * (f32_one - f32_exp (SFopp t / tau)) in
  f32_clamp d (SFopp MAX_FLING_DISTANCE) MAX_FLING_DISTANCE.
Definition speed (f : Fling) (now_ms : spec_float) : f32 :=
  SFabs (v0 f * f32_exp (SFopp (elapsed f now_ms) / tau)).

(** The loop that drops samples from before the window. *)
Fixpoint drop_old (now_ms : spec_float) (l : list (spec_float * f32)) : list (spec_float * f32) :=
  match l with
  | (t, dy) :: l' => if SFltb VELOCITY_WINDOW_MS (f64_sub now_ms t) then drop_old now_ms l' else l
  | [] => []
  end.
Definition finger (k : Kinetic) (now_ms : spec_float) (dy : f32) : Kinetic :=
  mkKinetic (drop_old now_ms (samples k ++ [(now_ms, dy)])) None.
Definition cancel (k : Kinetic) : Kinetic := mkKinetic [] None.

Definition release_velocity (k : Kinetic) (now_ms : spec_float) : option f32 :=
  first ← head (samples k);
  last ← last (samples k);
  if (length (samples k) <? 3)%nat
     || SFltb (SFmul 53 1024 LIFT_GAP_MS (S754_finite false 4503599627370496 (-51)))
              (f64_sub now_ms last.1)
  then None
  else
    let span := f64_sub last.1 first.1 in
    if SFltb span (S754_finite false 4503599627370496 (-49)) then None
    else
      let v := foldl f32_add (S754_zero true) (drop 1 (samples k)).*2 / f32_of_f64 span in
      if MIN_FLING_SPEED <=? SFabs v then Some v else None.

Definition lift (k : Kinetic) (now_ms : spec_float) : Kinetic * bool :=
  let fl := v ← release_velocity k now_ms; Some (mkFling v now_ms f32_zero) in
  (mkKinetic [] fl, is_Some_b fl).
Definition coasting (k : Kinetic) : bool := is_Some_b (fling k).
(** The outer option is the panic of [clamp] on bounds out of order, which does not occur. *)
Definition tick (k : Kinetic) (now_ms : spec_float) : option (Kinetic * option f32) :=
  match fling k with
  | None => Some (k, None)
  | Some f =>
      d ← distance f now_ms;
      let step := d - emitted f in
      let f' := mkFling (v0 f) (started_ms f) (emitted f + step) in
      Some (mkKinetic (samples k) (if speed f' now_ms <? STOP_SPEED then None else Some f'), Some step)
  end.
End kinetic.

(** ** Turning to the next file *)

Definition PULL_THRESHOLD : f32 := S754_finite false 15728640 (-17).

Record BoundaryScroll := mkBoundaryScroll { armed : Z; pulling_ : bool; progress_ : f32 }.
Definition boundary_default : BoundaryScroll := mkBoundaryScroll 0 false f32_zero.
Definition stop_pull (b : BoundaryScroll) : BoundaryScroll :=
  mkBoundaryScroll (armed b) false f32_zero.

Definition direction (delta : f32) : Z :=
  if f32_lt f32_zero delta then 1 else if f32_lt delta f32_zero then -1 else 0.
Definition update (b : BoundaryScroll) (edge : Z) (delta : f32) (fresh : bool)
    : BoundaryScroll * option Z :=
  if (edge =? 0)%Z then (stop_pull (mkBoundaryScroll (direction delta) (pulling_ b) (progress_ b)), None)
  else if negb (edge =? direction delta)%Z
  then (stop_pull (mkBoundaryScroll 0 (pulling_ b) (progress_ b)), None)
  else
    let b := if fresh then mkBoundaryScroll (armed b) (armed b =? edge)%Z f32_zero else b in
    if negb (pulling_ b) then (mkBoundaryScroll edge (pulling_ b) (progress_ b), None)
    else
      let p := f32_add (progress_ b) (SFabs delta) in
      if f32_le PULL_THRESHOLD p then (boundary_default, Some edge)
      else (mkBoundaryScroll (armed b) (pulling_ b) p, None).
Definition arm (b : BoundaryScroll) (edge : Z) : BoundaryScroll :=
  stop_pull (mkBoundaryScroll edge (pulling_ b) (progress_ b)).
Definition release (b : BoundaryScroll) : BoundaryScroll := stop_pull b.
Definition progress (b : BoundaryScroll) : option f32 :=
  if pulling_ b then f32_clamp (f32_div (progress_ b) PULL_THRESHOLD) f32_zero f32_one
  else Some f32_zero.
Definition pulling (b : BoundaryScroll) : Z := if pulling_ b then armed b else 0.

(** What the window feeds to the gate. *)
Inductive ScrollEvent :=
| Wheel (edge : Z) (delta : f32) (fresh : bool)
| Arm (edge : Z)
| Release.
Definition scroll_step (b : BoundaryScroll) (e : ScrollEvent) : BoundaryScroll :=
  match e with
  | Wheel edge delta fresh => (update b edge delta fresh).1
  | Arm edge => arm b edge
  | Release => release b
  end.
Definition scroll_run (es : list ScrollEvent) : BoundaryScroll := foldl scroll_step boundary_default es.

(** [Workbench::edge_of] (ui/src/reader.rs): the edge a movement meets. *)
Definition edge_of (delta_y : f32) (at_start at_end : bool) : Z :=
  if f32_lt delta_y f32_zero && at_start then -1
  else if f32_lt f32_zero delta_y && at_end then 1
  else 0.

(** ** A turn takes a pull *)

(** A movement along an edge, of the gesture that is under way. *)
Definition along (e : ScrollEvent) : bool :=
  match e with
  | Wheel edge delta fresh => negb (edge =? 0)%Z && (edge =? direction delta)%Z && negb fresh
  | _ => false
  end.
Definition pulled (es : list ScrollEvent) : f32 :=
  foldl f32_add f32_zero
        (omap (λ e, match e with Wheel _ delta _ => Some (SFabs delta) | _ => None end) es).

(** The gesture that pulls began anew at the edge that was armed before it. *)
Definition pull_of (es : list ScrollEvent) (p : f32) : Prop :=
  ∃ before edge delta mid,
    es = before ++ Wheel edge delta true :: mid ∧ edge ≠ 0%Z ∧ edge = direction delta ∧
    armed (scroll_run before) = edge ∧ Forall (λ e, along e = true) mid ∧
    p = pulled (Wheel edge delta true :: mid).

Lemma scroll_run_snoc es e : scroll_run (es ++ [e]) = scroll_step (scroll_run es) e.
Proof. unfold scroll_run. by rewrite foldl_app. Qed.
Lemma pulled_snoc es edge delta fresh :
  pulled (es ++ [Wheel edge delta fresh]) = f32_add (pulled es) (SFabs delta).
Proof. unfold pulled. rewrite omap_app, foldl_app. done. Qed.

Lemma pulling_pull es :
  pulling_ (scroll_run es) = true → pull_of es (progress_ (scroll_run es)).
Proof.
  induction es as [|e es IH] using rev_ind; [done|]. rewrite scroll_run_snoc.
  destruct e as [edge delta fresh|edge|]; [|done..]. cbn [scroll_step]. unfold update.
  destruct (Z.eqb_spec edge 0) as [|H0]; [done|].
  destruct (Z.eqb_spec edge (direction delta)) as [Hd|]; [|done]. cbn [negb]. destruct fresh.
  - cbn [pulling_ armed progress_]. destruct (Z.eqb_spec (armed (scroll_run es)) edge) as [Ha|]; [|done].
    cbn [negb]. destruct (f32_le _ _); [done|]. intros _. exists es, edge, delta, []. done.
  - destruct (pulling_ (scroll_run es)) eqn:Ep; cbn [negb].
    2:{ done. }
    destruct (f32_le _ _); [done|]. intros _. cbn [progress_].
    destruct (IH eq_refl) as (before & edge' & delta' & mid & -> & H1 & H2 & H3 & H4 & ->).
    exists before, edge', delta', (mid ++ [Wheel edge delta false]). split_and!; try done.
    + by rewrite <- app_assoc.
    + apply Forall_app. split; [done|]. apply Forall_singleton. cbn [along].
      rewrite <- Hd, (proj2 (Z.eqb_neq _ _) H0), Z.eqb_refl. done.
    + rewrite app_comm_cons, pulled_snoc. done.
Qed.

(** The view turns to another file only at the end of a pull: the movement that turns it is
    along an edge, the gesture it belongs to began at an edge that an earlier gesture or coast
    had armed, every movement since met an edge, and together they went at least the
    threshold. After the turn the gate is as new. *)
Theorem turn_takes_a_pull es edge delta fresh b d :
  update (scroll_run es) edge delta fresh = (b, Some d) →
  d = edge ∧ d = direction delta ∧ d ≠ 0%Z ∧ b = boundary_default ∧
  ∃ p, pull_of (es ++ [Wheel edge delta fresh]) p ∧ f32_le PULL_THRESHOLD p = true.
Proof.
  unfold update. destruct (Z.eqb_spec edge 0) as [|H0]; [done|].
  destruct (Z.eqb_spec edge (direction delta)) as [Hd|]; [|done]. cbn [negb]. destruct fresh.
  - cbn [pulling_ armed progress_]. destruct (Z.eqb_spec (armed (scroll_run es)) edge) as [Ha|]; [|done].
    cbn [negb]. destruct (f32_le _ _) eqn:El; [|done]. intros [= <- <-]. split_and!; try done.
    exists (f32_add f32_zero (SFabs delta)). split; [|done]. by exists es, edge, delta, [].
  - destruct (pulling_ (scroll_run es)) eqn:Ep; cbn [negb]; [|done].
    destruct (f32_le _ _) eqn:El; [|done]. intros [= <- <-]. split_and!; try done.
    destruct (pulling_pull es Ep) as (before & edge' & delta' & mid & Hes & H1 & H2 & H3 & H4 & Hp).
    exists (f32_add (progress_ (scroll_run es)) (SFabs delta)). split; [|done].
    exists before, edge', delta', (mid ++ [Wheel edge delta false]). split_and!; try done.
    + by rewrite Hes, <- app_assoc.
    + apply Forall_app. split; [done|]. apply Forall_singleton. cbn [along].
      rewrite <- Hd, (proj2 (Z.eqb_neq _ _) H0), Z.eqb_refl. done.
    + rewrite app_comm_cons, pulled_snoc. by rewrite Hp.
Qed.

Lemma turn_takes_a_pull_witness :
  let es := [Wheel 1 (f32_of_N 10) true; Release; Wheel 1 (f32_of_N 70) true] in
  (update (scroll_run es) 1 (f32_of_N 60) false).2 = Some 1%Z ∧
  ∃ p, pull_of (es ++ [Wheel 1 (f32_of_N 60) false]) p ∧ f32_le PULL_THRESHOLD p = true.
Proof.
  intros es. split; [by vm_compute|].
  by destruct (turn_takes_a_pull es 1 (f32_of_N 60) false boundary_default 1 ltac:(by vm_compute)) as (_ & _ & _ & _ & H).
Defined.

(** In a view that sits at both edges, a file that fits on the screen, a gesture that pulls
    119 pixels down and then moves a single pixel up, without lifting the finger, turns to
    the file before: the pull against the other edge counts for it. *)
Theorem reversed_pull_turns_back :
  let down d := Wheel (edge_of d true true) d in
  let es := [down (f32_of_N 10) true; Release; down (f32_of_N 119) true] in
  let up := SFopp (f32_of_N 1) in
  pulling (scroll_run es) = 1%Z ∧
  (update (scroll_run es) (edge_of up true true) up false).2 = Some (-1)%Z.
Proof. split; by vm_compute. Qed.
