(* ===== verification/Theme.v ===== *)
(** * Themes ([crates/core/src/palette.rs], [crates/core/src/theme.rs])

    Palettes and themes as texts of [key = value] lines, and where they are looked for. What the
    file system and the environment hold is a parameter ([Machine]). *)

From S2P Require Import Prelude RustStr Utf8 BTree F32.

(** ** Colors *)

Record Rgb := mkRgb { red_ : N; green_ : N; blue_ : N }.
#[export] Instance Rgb_eq_dec : EqDecision Rgb.
Proof. solve_decision. Defined.
Definition rgb_ok (c : Rgb) : Prop := (red_ c < 256 ∧ green_ c < 256 ∧ blue_ c < 256)%N.

Definition nibble (b : byte) : option N :=
  let n := bN b in
  if (48 <=? n)%N && (n <=? 57)%N then Some (n - 48)%N
  else if (97 <=? n)%N && (n <=? 102)%N then Some (n - 97 + 10)%N
  else if (65 <=? n)%N && (n <=? 70)%N then Some (n - 65 + 10)%N
  else None.
Definition Rgb_parse (hex : bytes) : option Rgb :=
  match hex with
  | [h; a; b; c; d; e; f] =>
      if negb (bool_decide (h = Byte.x23)) then None
      else
        a ← nibble a; b ← nibble b; c ← nibble c; d ← nibble d; e ← nibble e; f ← nibble f;
        Some (mkRgb (a * 16 + b) (c * 16 + d) (e * 16 + f))
  | _ => None
  end.
Definition Rgb_hex (c : Rgb) : bytes :=
  bs "#" ++ hex2 false (u8_of (red_ c)) ++ hex2 false (u8_of (green_ c))
  ++ hex2 false (u8_of (blue_ c)).

(** [f32::round] and [as u8], which saturates. *)
Definition round_u8 (x : f32) : N :=
  match x with
  | S754_finite false m e =>
      N.min 255 (Z.to_N (if (0 <=? e)%Z then Zpos m * 2 ^ e
                         else (Zpos m + 2 ^ (- e - 1)) / 2 ^ (- e))%Z)
  | S754_infinity false => 255
  | _ => 0
  end.
Definition lerp (a b : N) (t : f32) : N :=
  round_u8 (f32_of_N a + (f32_of_N b - f32_of_N a) * t)%f32.
Definition mix (a b : Rgb) (t : f32) : Rgb :=
  mkRgb (lerp (red_ a) (red_ b) t) (lerp (green_ a) (green_ b) t) (lerp (blue_ a) (blue_ b) t).

Inductive Mode := Dark | Light.

(** ** Palettes *)

Record Palette := mkPalette {
  palette_mode : Mode;
  accent : Rgb; selection : Rgb; muted : Rgb; background : Rgb; dark_background : Rgb;
  darker_background : Rgb; lighter_background : Rgb; foreground : Rgb; dark_foreground : Rgb;
  light_foreground : Rgb; bright_foreground : Rgb; red : Rgb; yellow : Rgb; orange : Rgb;
  green : Rgb; cyan : Rgb; blue : Rgb; magenta : Rgb; brown : Rgb; bright_red : Rgb;
  bright_yellow : Rgb; bright_green : Rgb; bright_cyan : Rgb; bright_blue : Rgb;
  bright_magenta : Rgb
}.
Definition KEYS : list bytes :=
  [bs "accent"; bs "selection"; bs "muted"; bs "background"; bs "dark_background";
   bs "darker_background"; bs "lighter_background"; bs "foreground"; bs "dark_foreground";
   bs "light_foreground"; bs "bright_foreground"; bs "red"; bs "yellow"; bs "orange";
   bs "green"; bs "cyan"; bs "blue"; bs "magenta"; bs "brown"; bs "bright_red";
   bs "bright_yellow"; bs "bright_green"; bs "bright_cyan"; bs "bright_blue";
   bs "bright_magenta"].
Definition ALIASES : list (bytes * bytes) :=
  [(bs "bg", bs "background"); (bs "fg", bs "foreground"); (bs "dark_bg", bs "dark_background");
   (bs "darker_bg", bs "darker_background"); (bs "lighter_bg", bs "lighter_background");
   (bs "dark_fg", bs "dark_foreground"); (bs "light_fg", bs "light_foreground");
   (bs "bright_fg", bs "bright_foreground")].
Definition canonical_key (key : bytes) : option bytes :=
  match List.find (λ a, bool_decide (a.1 = key)) ALIASES with
  | Some a => Some a.2
  | None => List.find (λ k, bool_decide (k = key)) KEYS
  end.

Definition QUOTED : bytes := [Byte.x22].
Definition quoted (rest : bytes) : bytes :=
  let rest := trim rest in
  match split_once QUOTED rest with
  | Some (_, after) => match split_once QUOTED after with Some (inside, _) => inside | None => after end
  | None => rest
  end.
(** [key = value] of a line that is no comment. *)
Definition entry_of (line : bytes) : option (bytes * bytes) :=
  let line := trim line in
  if bool_decide (line = []) || starts_with (bs "#") line then None
  else '(key, rest) ← split_once (bs "=") line; Some (trim key, quoted rest).

(** [{:?}] of a string. *)
Class DebugText := debug_text : bytes → bytes.

Module Palette.
(** What the loop over the lines collects: the raw values, and the mode. *)
Definition collect (st : gmap bytes bytes * option bytes) (kv : bytes * bytes)
    : gmap bytes bytes * option bytes :=
  let '(raw, mode) := st in
  let '(key, value) := kv in
  if bool_decide (key = bs "mode") then (raw, Some value)
  else
    match canonical_key key with
    | None => st
    | Some canonical =>
        if negb (bool_decide (canonical = key)) && is_Some_b (raw !! canonical) then st
        else (<[canonical := value]> raw, mode)
    end.
Definition entries (text : bytes) : list (bytes * bytes) := omap entry_of (str_lines text).
Definition collected (text : bytes) : gmap bytes bytes * option bytes :=
  foldl collect (∅, None) (entries text).

Definition missing (raw : gmap bytes bytes) : list bytes :=
  List.filter (λ k, negb (is_Some_b (raw !! k))) KEYS.
Definition bad `{DebugText} (raw : gmap bytes bytes) : list bytes :=
  omap (λ k, v ← raw !! k;
             match Rgb_parse v with
             | Some _ => None
             | None => Some (bs "bad value for " ++ k ++ bs ": " ++ debug_text v)
             end) KEYS.
Definition color (raw : gmap bytes bytes) (k : bytes) : Rgb :=
  default (mkRgb 0 0 0) (v ← raw !! k; Rgb_parse v).
Definition built (raw : gmap bytes bytes) (mode : option bytes) : Palette :=
  let c := color raw in
  mkPalette (if bool_decide (mode = Some (bs "light")) then Light else Dark)
    (c (bs "accent")) (c (bs "selection")) (c (bs "muted")) (c (bs "background"))
    (c (bs "dark_background")) (c (bs "darker_background")) (c (bs "lighter_background"))
    (c (bs "foreground")) (c (bs "dark_foreground")) (c (bs "light_foreground"))
    (c (bs "bright_foreground")) (c (bs "red")) (c (bs "yellow")) (c (bs "orange"))
    (c (bs "green")) (c (bs "cyan")) (c (bs "blue")) (c (bs "magenta")) (c (bs "brown"))
    (c (bs "bright_red")) (c (bs "bright_yellow")) (c (bs "bright_green")) (c (bs "bright_cyan"))
    (c (bs "bright_blue")) (c (bs "bright_magenta")).
Definition parse `{DebugText} (text : bytes) : result bytes Palette :=
  let '(raw, mode) := collected text in
  if bool_decide (missing raw = []) && bool_decide (bad raw = []) then Ok (built raw mode)
  else
    Err (join (bs "; ")
           ((if bool_decide (missing raw = []) then []
             else [bs "missing: " ++ join (bs ", ") (missing raw)]) ++ bad raw)).
(** The colors of a palette, in the order of [KEYS]. *)
Definition colors (p : Palette) : list Rgb :=
  [accent p; selection p; muted p; background p; dark_background p; darker_background p;
   lighter_background p; foreground p; dark_foreground p; light_foreground p;
   bright_foreground p; red p; yellow p; orange p; green p; cyan p; blue p; magenta p; brown p;
   bright_red p; bright_yellow p; bright_green p; bright_cyan p; bright_blue p; bright_magenta p].
End Palette.
Export (hints) Palette.

(** ** Files *)

(** What the code asks of the machine while it looks for themes; a text that cannot be read is
    the text of the error. *)
Class Machine := {
  is_file : bytes → bool;
  is_dir : bytes → bool;
  read_to_string : bytes → result bytes bytes;
  read_dir : bytes → option (list bytes);         (* names, in the order of the system *)
  var_os : bytes → option bytes
}.

Definition SLASH_ : bytes := bs "/".
(** [Path::join]. *)
Definition join_path (dir name : bytes) : bytes :=
  if starts_with SLASH_ name then name
  else if bool_decide (dir = []) || ends_with SLASH_ dir then dir ++ name
  else dir ++ SLASH_ ++ name.
(** [Path::display]. *)
Class PathText := path_text : bytes → bytes.

Section files.
Context {machine_ : Machine} {debug_ : DebugText} {path_ : PathText}.

Definition theme_file (dir : bytes) : option bytes :=
  List.find is_file ((λ n, join_path dir n) <$> [bs "theme.toml"; bs "colors.toml"]).

Definition read_named (file : bytes) : result bytes bytes :=
  map_err (λ e, bs "cannot read " ++ path_text file ++ bs ": " ++ e) (read_to_string file).
Definition Palette_load (path : bytes) : result bytes Palette :=
  text ← read_named (if is_dir path then join_path path (bs "colors.toml") else path);
  Palette.parse text.

(** ** Skins and syntax colors *)

Record SkinSpec := mkSkinSpec {
  base : Rgb; surface : Rgb; raised : Rgb; text_ : Rgb; skin_muted : Rgb; border : Rgb;
  skin_accent : Rgb; added : Rgb; removed : Rgb; added_word : Rgb; removed_word : Rgb;
  skin_selection : Rgb; warning : Rgb; positive : Rgb; negative : Rgb; function_ : Rgb;
  symbol : Rgb
}.
Definition SKIN_KEYS : list bytes :=
  [bs "base"; bs "surface"; bs "raised"; bs "text"; bs "muted"; bs "border"; bs "accent";
   bs "added"; bs "removed"; bs "added_word"; bs "removed_word"; bs "selection"; bs "warning";
   bs "positive"; bs "negative"; bs "function"; bs "symbol"].
Definition skin_list (s : SkinSpec) : list Rgb :=
  [base s; surface s; raised s; text_ s; skin_muted s; border s; skin_accent s; added s;
   removed s; added_word s; removed_word s; skin_selection s; warning s; positive s; negative s;
   function_ s; symbol s].
Definition skin_of (l : list Rgb) : SkinSpec :=
  let c i := default (mkRgb 0 0 0) (l !! i) in
  mkSkinSpec (c 0) (c 1) (c 2) (c 3) (c 4) (c 5) (c 6) (c 7) (c 8) (c 9) (c 10) (c 11) (c 12)
    (c 13) (c 14) (c 15) (c 16).
Fixpoint index_of (k : bytes) (ks : list bytes) : option nat :=
  match ks with
  | [] => None
  | x :: ks => if bool_decide (x = k) then Some 0 else S <$> index_of k ks
  end.
(** An assignment to [slot key]. *)
Definition set_slot (key : bytes) (c : Rgb) (s : SkinSpec) : option SkinSpec :=
  i ← index_of key SKIN_KEYS; Some (skin_of (<[i := c]> (skin_list s))).

Definition rgb_of (hex : N) : Rgb :=
  mkRgb (N.land (N.shiftr hex 16) 255) (N.land (N.shiftr hex 8) 255) (N.land hex 255).
Definition builtin_skin (m : Mode) : SkinSpec :=
  skin_of (rgb_of <$>
    match m with
    | Dark => [0x151820; 0x1b1f29; 0x262d3b; 0xe8eaf0; 0x9ba5b5; 0x303848; 0x88b4ff; 0x18332a;
               0x3c242a; 0x28583c; 0x703845; 0x385678; 0xf0be72; 0x81c995; 0xf28b95; 0xd2a8ff;
               0x6fd3c8]
    | Light => [0xfafbfd; 0xf0f3f7; 0xe7edf4; 0x1c2633; 0x5a687a; 0xcdd7e3; 0x245fbb; 0xe1f1e6;
                0xfae7e8; 0xbce0c9; 0xf2bfc5; 0xb6d5fa; 0x8c5809; 0x237a45; 0xc73745; 0x6f42c1;
                0x0f766e]
    end%N).
(** [0.18] and [0.40] in single precision. *)
Definition tint : f32 := S754_finite false 12079596 (-26).
Definition word_tint : f32 := S754_finite false 13421773 (-25).
Definition skin_from_palette (p : Palette) : SkinSpec :=
  mkSkinSpec (background p) (lighter_background p) (selection p) (foreground p)
    (dark_foreground p) (muted p) (accent p) (mix (background p) (green p) tint)
    (mix (background p) (red p) tint) (mix (background p) (green p) word_tint)
    (mix (background p) (red p) word_tint) (selection p) (yellow p) (green p) (red p)
    (magenta p) (cyan p).

Inductive Token :=
| Keyword | Function_ | Type_ | String_ | Number_ | Comment | Property_ | Constant | Operator
| Punctuation | Variable_ | Parameter_ | Attribute_ | Namespace | Label_ | Embedded.
Definition TOKENS : list Token :=
  [Keyword; Function_; Type_; String_; Number_; Comment; Property_; Constant; Operator;
   Punctuation; Variable_; Parameter_; Attribute_; Namespace; Label_; Embedded].
Definition token_name (t : Token) : bytes :=
  match t with
  | Keyword => bs "keyword" | Function_ => bs "function" | Type_ => bs "type"
  | String_ => bs "string" | Number_ => bs "number" | Comment => bs "comment"
  | Property_ => bs "property" | Constant => bs "constant" | Operator => bs "operator"
  | Punctuation => bs "punctuation" | Variable_ => bs "variable" | Parameter_ => bs "parameter"
  | Attribute_ => bs "attribute" | Namespace => bs "namespace" | Label_ => bs "label"
  | Embedded => bs "embedded"
  end.
(** [t as usize]. *)
Definition token_index (t : Token) : nat :=
  default 0 (index_of (token_name t) (token_name <$> TOKENS)).
Definition skin_token (s : SkinSpec) (t : Token) : Rgb :=
  match t with
  | Keyword | Operator => skin_accent s
  | Function_ => function_ s
  | Type_ | Namespace | Attribute_ | Label_ | Property_ => symbol s
  | String_ => positive s
  | Number_ | Constant => warning s
  | Comment | Punctuation => skin_muted s
  | Variable_ | Parameter_ | Embedded => text_ s
  end.

(** ** Themes *)

Record Theme := mkTheme {
  mode : Mode; palette : option Palette; skin : SkinSpec; syntax : list (option Rgb);
  theme_files : list bytes; warnings : list bytes
}.
Definition no_syntax : list (option Rgb) := replicate (length TOKENS) None.
Definition from_palette (p : Palette) : Theme :=
  mkTheme (palette_mode p) (Some p) (skin_from_palette p) no_syntax [] [].
Definition theme_token (t : Theme) (k : Token) : Rgb :=
  match syntax t !! token_index k with Some (Some c) => c | _ => skin_token (skin t) k end.

(** What the loop over the lines collects. *)
Record Sections := mkSections {
  in_section : bytes; extends : option bytes; mode_value : option bytes;
  skin_values : list (bytes * bytes); syntax_values : list (bytes * bytes);
  unknown : list bytes
}.
Definition read_line (s : Sections) (line : bytes) : Sections :=
  let line := trim line in
  let 'mkSections sec ext mv sk sy w := s in
  if bool_decide (line = []) || starts_with (bs "#") line then s
  else
    match strip_prefix (bs "[") line with
    | Some l =>
        let name := trim match split_once (bs "]") l with Some (a, _) => a | None => l end in
        mkSections name ext mv sk sy
          (if bool_decide (name ∈ [bs "skin"; bs "syntax"]) then w
           else w ++ [bs "unknown section [" ++ name ++ bs "]"])
    | None =>
        match split_once (bs "=") line with
        | None => s
        | Some (key, rest) =>
            let key := trim key in
            let value := quoted rest in
            if bool_decide (sec = []) then
              if bool_decide (key = bs "extends") then mkSections sec (Some value) mv sk sy w
              else if bool_decide (key = bs "mode") then mkSections sec ext (Some value) sk sy w
              else mkSections sec ext mv sk sy (w ++ [bs "unknown key " ++ key])
            else if bool_decide (sec = bs "skin") then mkSections sec ext mv (sk ++ [(key, value)]) sy w
            else if bool_decide (sec = bs "syntax") then mkSections sec ext mv sk (sy ++ [(key, value)]) w
            else s
        end
    end.

(** The two loops over the values; [bad] collects what is refused. *)
Fixpoint apply_skin (vs : list (bytes * bytes)) (t : Theme) (bad : list bytes)
    : Theme * list bytes :=
  match vs with
  | [] => (t, bad)
  | (key, value) :: vs =>
      match index_of key SKIN_KEYS with
      | None =>
          apply_skin vs (mkTheme (mode t) (palette t) (skin t) (syntax t) (theme_files t)
                           (warnings t ++ [bs "unknown key skin." ++ key])) bad
      | Some _ =>
          match Rgb_parse value with
          | Some c =>
              apply_skin vs (mkTheme (mode t) (palette t) (default (skin t) (set_slot key c (skin t)))
                               (syntax t) (theme_files t) (warnings t)) bad
          | None =>
              apply_skin vs t (bad ++ [bs "bad value for skin." ++ key ++ bs ": " ++ debug_text value])
          end
      end
  end.
Fixpoint apply_syntax (vs : list (bytes * bytes)) (t : Theme) (bad : list bytes)
    : Theme * list bytes :=
  match vs with
  | [] => (t, bad)
  | (key, value) :: vs =>
      match List.find (λ k, bool_decide (token_name k = key)) TOKENS with
      | None =>
          apply_syntax vs (mkTheme (mode t) (palette t) (skin t) (syntax t) (theme_files t)
                             (warnings t ++ [bs "unknown key syntax." ++ key])) bad
      | Some k =>
          match Rgb_parse value with
          | Some c =>
              apply_syntax vs (mkTheme (mode t) (palette t) (skin t)
                                 (<[token_index k := Some c]> (syntax t)) (theme_files t)
                                 (warnings t)) bad
          | None =>
              apply_syntax vs t
                (bad ++ [bs "bad value for syntax." ++ key ++ bs ": " ++ debug_text value])
          end
      end
  end.

Definition Theme_parse (text dir : bytes) : result bytes Theme :=
  let s := foldl read_line (mkSections [] None None [] [] []) (str_lines text) in
  extended ← match extends s with
             | Some name =>
                 let path := join_path dir name in
                 p ← map_err (λ e, bs "extends: " ++ e) (Palette_load path);
                 Ok (Some p, [if is_dir path then join_path path (bs "colors.toml") else path])
             | None => Ok (None, [])
             end;
  let '(pal, files) := extended in
  m ← match mode_value s with
      | Some v =>
          if bool_decide (v = bs "dark") then Ok Dark
          else if bool_decide (v = bs "light") then Ok Light
          else Err (bs "bad value for mode: " ++ debug_text v)
      | None => Ok match pal with Some p => palette_mode p | None => Dark end
      end;
  let theme := mkTheme m pal
                 match pal with Some p => skin_from_palette p | None => builtin_skin m end
                 no_syntax files (unknown s) in
  let '(theme, bad) := apply_skin (skin_values s) theme [] in
  let '(theme, bad) := apply_syntax (syntax_values s) theme bad in
  if bool_decide (bad = []) then Ok theme else Err (join (bs "; ") bad).

(** The last component of a path, which may end in slashes. *)
Definition file_name (path : bytes) : option bytes :=
  match last (List.filter (λ c, negb (bool_decide (c = [])) && negb (bool_decide (c = bs ".")))
                (split_on Byte.x2f path)) with
  | Some c => if bool_decide (c = bs "..") then None else Some c
  | None => None
  end.
(** [Path::parent] of a path that ends in a name. *)
Definition parent_of (path : bytes) : bytes :=
  match rsplit_once SLASH_ path with
  | Some ([], _) => SLASH_
  | Some (d, _) => d
  | None => []
  end.
Definition Theme_load (path : bytes) : result bytes Theme :=
  file ← (if is_dir path then ok_or (theme_file path) (bs "no theme in " ++ path_text path)
          else Ok path);
  text ← read_named file;
  t ← (if bool_decide (file_name file = Some (bs "theme.toml"))
       then Theme_parse text (parent_of file)
       else from_palette <$> Palette.parse text);
  Ok (mkTheme (mode t) (palette t) (skin t) (syntax t) (file :: theme_files t) (warnings t)).

(** ** Where themes are *)

Record ThemeEntry := mkThemeEntry { te_label : bytes; te_reference : bytes; te_path : bytes }.

Definition theme_dirs : list bytes :=
  let home := var_os (bs "HOME") in
  match var_os (bs "XDG_CONFIG_HOME"), home with
  | Some xdg, _ => [join_path (join_path xdg (bs "diffz")) (bs "themes")]
  | None, Some h =>
      [join_path (join_path (join_path h (bs ".config")) (bs "diffz")) (bs "themes")]
  | None, None => []
  end
  ++ match home with
     | Some h => [join_path (join_path (join_path h (bs ".config")) (bs "omarchy")) (bs "themes")]
     | None => []
     end
  ++ [bs "/usr/share/omarchy/themes"].

Definition omarchy_entry : option ThemeEntry :=
  home ← var_os (bs "HOME");
  path ← theme_file (join_path home (bs ".local/state/omarchy/current/theme"));
  Some (mkThemeEntry (bs "Omarchy current theme") (bs "current") path).
Definition omarchy_resolve (reference : bytes) : option ThemeEntry :=
  if negb (bool_decide (reference = bs "current")) && negb (bool_decide (reference = bs "omarchy"))
  then None
  else e ← omarchy_entry; Some (mkThemeEntry (te_label e) reference (te_path e)).

(** One directory's entries, after the themes that were found before. *)
Fixpoint discover_names (dir : bytes) (names : list bytes) (out : list (bytes * bytes))
    : list (bytes * bytes) :=
  match names with
  | [] => out
  | n :: names =>
      discover_names dir names
        match theme_file (join_path dir n) with
        | Some file =>
            if utf8_valid n && negb (bool_decide (n ∈ out.*1)) then out ++ [(n, file)] else out
        | None => out
        end
  end.
Fixpoint discover_dirs (dirs : list bytes) (out : list (bytes * bytes)) : list (bytes * bytes) :=
  match dirs with
  | [] => out
  | d :: dirs =>
      discover_dirs dirs match read_dir d with Some ns => discover_names d ns out | None => out end
  end.
Definition name_le (a b : bytes * bytes) : Prop := lex_lt b.1 a.1 = false.
#[local] Instance name_le_dec a b : Decision (name_le a b) := decide (_ = _).
Definition discover_in (dirs : list bytes) : list (bytes * bytes) :=
  merge_sort name_le (discover_dirs dirs []).
Definition directories_list (dirs : list bytes) : list ThemeEntry :=
  (λ x, mkThemeEntry x.1 x.1 x.2) <$> discover_in dirs.
Definition directories_resolve (dirs : list bytes) (reference : bytes) : option ThemeEntry :=
  let fix go ds :=
    match ds with
    | [] => None
    | d :: ds => match theme_file (join_path d reference) with Some p => Some p | None => go ds end
    end in
  path ← go dirs; Some (mkThemeEntry reference reference path).
End files.
