(* ===== verification/ThemeFacts.v ===== *)
(** * Theorems about themes: colors, palettes, and the themes that are listed *)

From S2P Require Import Prelude RustStr Utf8 BTree F32 Theme.

(** ** Colors *)

Lemma nibble_digit n : (n < 16)%N → nibble (hex_digit false n) = Some n.
Proof.
  intros Hn. assert (∀ k, k < 16 → nibble (hex_digit false (N.of_nat k)) = Some (N.of_nat k)) as H.
  { intros k Hk. do 16 (destruct k as [|k]; [reflexivity|]). lia. }
  specialize (H (N.to_nat n) ltac:(lia)). by rewrite N2Nat.id in H.
Qed.
Lemma hex_pair n :
  (n < 256)%N → ∃ a b, hex2 false (u8_of n) = [a; b] ∧
    ∃ x y, nibble a = Some x ∧ nibble b = Some y ∧ (x * 16 + y)%N = n.
Proof.
  intros Hn. unfold hex2. eexists _, _. split; [reflexivity|]. rewrite bN_u8_of by lia.
  exists (n / 16)%N, (n mod 16)%N. split_and!; [apply nibble_digit; divlia..|]. divlia.
Qed.
Theorem rgb_reads_back c : rgb_ok c → Rgb_parse (Rgb_hex c) = Some c.
Proof.
  destruct c as [r g b]. intros (Hr & Hg & Hb). cbn in Hr, Hg, Hb. unfold Rgb_hex; cbn [red_ green_ blue_].
  destruct (hex_pair r Hr) as (r1 & r2 & -> & x1 & x2 & E1 & E2 & <-).
  destruct (hex_pair g Hg) as (g1 & g2 & -> & y1 & y2 & E3 & E4 & <-).
  destruct (hex_pair b Hb) as (b1 & b2 & -> & z1 & z2 & E5 & E6 & <-).
  unfold bs. cbn. by rewrite E1, E2, E3, E4, E5, E6.
Qed.

(** ** Palettes *)

Section palettes.
Import Palette.

(** The values of the keys that [P] holds of, in their order. *)
Definition values (P : bytes → bool) (es : list (bytes * bytes)) : list bytes :=
  (λ e, e.2) <$> List.filter (λ e, P e.1) es.
Definition is_alias (k a : bytes) : bool :=
  negb (bool_decide (a = k)) && bool_decide (canonical_key a = Some k).
(** The last value of a key itself or, if it has none, the first of its aliases. *)
Definition chosen (es : list (bytes * bytes)) (k : bytes) : option bytes :=
  match last (values (λ a, bool_decide (a = k)) es) with
  | Some v => Some v
  | None => hd_error (values (is_alias k) es)
  end.
Definition chosen_mode (es : list (bytes * bytes)) : option bytes :=
  last (values (λ a, bool_decide (a = bs "mode")) es).

Lemma values_snoc P es k v :
  values P (es ++ [(k, v)]) = values P es ++ (if P k then [v] else []).
Proof. unfold values. rewrite List.filter_app, fmap_app. cbn. by destruct (P k). Qed.
Lemma keys_canonical k : k ∈ KEYS → canonical_key k = Some k ∧ k ≠ bs "mode".
Proof.
  assert (Forall (λ k, canonical_key k = Some k ∧ k ≠ bs "mode") KEYS) as H
    by (repeat constructor; done).
  rewrite Forall_forall in H. apply H.
Qed.
Lemma mode_no_alias k : is_alias k (bs "mode") = false.
Proof. unfold is_alias. by rewrite andb_false_r. Qed.
Lemma hd_error_app {A} (l k : list A) :
  hd_error (l ++ k) = match hd_error l with Some x => Some x | None => hd_error k end.
Proof. by destruct l. Qed.

Lemma chosen_snoc es a v k :
  chosen (es ++ [(a, v)]) k =
  match last (values (λ a, bool_decide (a = k)) es ++ (if bool_decide (a = k) then [v] else [])) with
  | Some v => Some v
  | None => hd_error (values (is_alias k) es ++ (if is_alias k a then [v] else []))
  end.
Proof. unfold chosen. by rewrite !values_snoc. Qed.

Lemma collected_spec es :
  let st := foldl collect (∅, None) es in
  st.2 = chosen_mode es ∧ ∀ k, k ∈ KEYS → st.1 !! k = chosen es k.
Proof.
  induction es as [|[a v] es IH] using rev_ind; [by split; [|intros k _; apply lookup_empty]|].
  rewrite foldl_app. cbv zeta in IH |- *. cbn [foldl].
  destruct (foldl collect (∅, None) es) as [raw m]. destruct IH as [Hm Hk]. cbn [fst snd] in *.
  unfold chosen_mode in *. rewrite values_snoc. setoid_rewrite chosen_snoc. unfold chosen in Hk.
  unfold collect.
  case_bool_decide as Ha; [subst a|]; cbn [fst snd].
  - split; [by rewrite last_snoc|]. intros k Hin. destruct (keys_canonical k Hin) as [_ Hne].
    rewrite mode_no_alias, bool_decide_false by done. rewrite !app_nil_r. by apply Hk.
  - destruct (canonical_key a) as [c|] eqn:Ec.
    2:{ split; [by rewrite app_nil_r|]. intros k Hin. destruct (keys_canonical k Hin) as [Hc _].
        unfold is_alias. rewrite Ec, (bool_decide_false (a = k)) by congruence.
        cbn. rewrite !app_nil_r. by apply Hk. }
    destruct (negb (bool_decide (c = a)) && is_Some_b (raw !! c)) eqn:Eb; cbn [fst snd].
    + split; [by rewrite app_nil_r|]. intros k Hin. destruct (keys_canonical k Hin) as [Hc _].
      apply andb_true_iff in Eb as [Eb Er]. apply negb_true_iff, bool_decide_eq_false in Eb.
      rewrite (bool_decide_false (a = k)) by congruence. rewrite app_nil_r, (Hk k Hin).
      unfold is_alias. rewrite Ec. destruct (decide (c = k)) as [->|Hne].
      * rewrite (bool_decide_true (Some k = Some k)), (bool_decide_false (a = k)) by congruence.
        cbn [negb andb]. rewrite (Hk k Hin) in Er. destruct (last (values (λ a, bool_decide (a = k)) es)); [done|].
        rewrite hd_error_app. by destruct (hd_error _).
      * rewrite (bool_decide_false (Some c = Some k)) by congruence. by rewrite andb_false_r, app_nil_r.
    + split; [by rewrite app_nil_r|]. intros k Hin. destruct (keys_canonical k Hin) as [Hc _].
      destruct (decide (c = k)) as [->|Hne].
      * rewrite lookup_insert_eq. unfold is_alias. rewrite Ec, (bool_decide_true (Some k = Some k)) by done.
        destruct (decide (a = k)) as [->|Hak].
        { rewrite bool_decide_true by done. by rewrite last_snoc. }
        rewrite (bool_decide_false (a = k)) by done. cbn [negb andb]. rewrite app_nil_r.
        apply andb_false_iff in Eb as [Eb|Eb]; [apply negb_false_iff, bool_decide_eq_true in Eb; congruence|].
        rewrite (Hk k Hin) in Eb. destruct (last (values (λ a, bool_decide (a = k)) es)); [done|]. rewrite hd_error_app.
        by destruct (hd_error _).
      * rewrite lookup_insert_ne by done. unfold is_alias.
        rewrite Ec, (bool_decide_false (a = k)), (bool_decide_false (Some c = Some k)) by congruence.
        cbn. rewrite !app_nil_r. by apply Hk.
Qed.

Lemma colors_built raw m i k : KEYS !! i = Some k → colors (built raw m) !! i = Some (color raw k).
Proof. intros H. do 25 (destruct i as [|i]; [by injection H as <-|]). done. Qed.
Lemma palette_ext p q : palette_mode p = palette_mode q → colors p = colors q → p = q.
Proof. destruct p, q. cbn. intros -> H. by injection H as -> -> -> -> -> -> -> -> -> -> -> -> -> -> -> -> -> -> -> -> -> -> -> -> ->. Qed.

(** A palette is accepted exactly when each of the 25 keys has a color in the text, its own
    last value or else the first of its aliases, and it holds those colors; it is light exactly
    when the last mode says so. *)
Theorem palette_parse_exact `{DebugText} text p :
  Palette.parse text = Ok p ↔
  (∀ i k, KEYS !! i = Some k →
     ∃ v c, chosen (entries text) k = Some v ∧ Rgb_parse v = Some c ∧ colors p !! i = Some c) ∧
  palette_mode p = (if bool_decide (chosen_mode (entries text) = Some (bs "light")) then Light else Dark).
Proof.
  unfold Palette.parse, collected. destruct (collected_spec (entries text)) as [Hm Hk].
  destruct (foldl collect _ _) as [raw m]. cbn [fst snd] in *. subst m.
  assert (bool_decide (missing raw = []) && bool_decide (bad raw = []) = true ↔
    ∀ k, k ∈ KEYS → ∃ v c, raw !! k = Some v ∧ Rgb_parse v = Some c) as Hall.
  { rewrite andb_true_iff, !bool_decide_eq_true. unfold missing, bad. split.
    - intros [Hmiss Hbad] k Hin.
      destruct (raw !! k) as [v|] eqn:Ev.
      2:{ assert (k ∈ []) as He by (rewrite <- Hmiss; apply list_elem_of_In, filter_In; split;
            [by apply list_elem_of_In|by rewrite Ev]). by apply not_elem_of_nil in He. }
      destruct (Rgb_parse v) as [c|] eqn:Ec; [by exists v, c|]. exfalso.
      apply (not_elem_of_nil (bs "bad value for " ++ k ++ bs ": " ++ debug_text v)).
      rewrite <- Hbad. apply list_elem_of_omap. exists k. split; [done|]. rewrite Ev. cbn. by rewrite Ec.
    - intros Hall. split.
      + destruct (List.filter _ KEYS) as [|k l] eqn:E; [done|]. exfalso.
        assert (k ∈ k :: l) as Hin by left. rewrite <- E in Hin.
        apply list_elem_of_In, filter_In in Hin as [Hin Hn]. apply list_elem_of_In in Hin.
        destruct (Hall k Hin) as (v & c & Hv & _). by rewrite Hv in Hn.
      + destruct (omap _ KEYS) as [|x l] eqn:E; [done|]. exfalso.
        assert (x ∈ x :: l) as Hin by left. rewrite <- E in Hin.
        apply list_elem_of_omap in Hin as (k & Hin & Hx).
        destruct (Hall k Hin) as (v & c & Hv & Hc). rewrite Hv in Hx. cbn in Hx. by rewrite Hc in Hx. }
  assert (∀ i k v c, KEYS !! i = Some k → raw !! k = Some v → Rgb_parse v = Some c →
    colors (built raw (chosen_mode (entries text))) !! i = Some c) as Hcol.
  { intros i k v c Hi Hv Hc. rewrite (colors_built _ _ i k Hi). unfold color. by rewrite Hv; cbn; rewrite Hc. }
  split.
  - destruct (_ && _) eqn:E; [|done]. intros [= <-]. split; [|done]. intros i k Hi.
    assert (k ∈ KEYS) as Hin by (by eapply list_elem_of_lookup_2).
    destruct (proj1 Hall eq_refl k Hin) as (v & c & Hv & Hc). exists v, c.
    split_and!; [by rewrite <- Hk|done|by eapply Hcol].
  - intros [Hc Hmode]. rewrite (proj2 Hall).
    2:{ intros k [i Hi]%list_elem_of_lookup. destruct (Hc i k Hi) as (v & c & Hv & Hp & _).
        exists v, c. split; [|done]. rewrite Hk by (by eapply list_elem_of_lookup_2). done. }
    f_equal. apply palette_ext; [done|]. apply list_eq. intros i.
    destruct (KEYS !! i) as [k|] eqn:Hi.
    + destruct (Hc i k Hi) as (v & c & Hv & Hp & Hi'). rewrite Hi'. eapply Hcol; [done| |done].
      rewrite Hk by (by eapply list_elem_of_lookup_2). done.
    + apply lookup_ge_None in Hi. cbn in Hi. by rewrite !lookup_ge_None_2 by (cbn; lia).
Qed.
End palettes.
