(* ===== verification/Editor.v ===== *)
(** * The comment editor ([crates/ui/src/comment_editor.rs], [comment_editor/markdown.rs],
      [comment_editor/state.rs])

    The text field is a component of the toolkit: what it holds, its selection and its cursor
    are arguments, and an edit is the range it replaces with the text and the selection that
    follow. Opening menus, the keys that move in them, edits and saved replies are modelled;
    drawing is not. A [None] is a slice outside the text or an index out of bounds. *)

From S2P Require Import Prelude RustStr Utf8.

(** ** Markdown *)

Inductive Format :=
| Heading | Bold | Italic | QuoteLines | InlineCode | CodeBlock | Link | Bulleted | Numbered | Checklist.
#[export] Instance Format_eq_dec : EqDecision Format.
Proof. solve_decision. Defined.

(** The text that replaces, and the selection from its start. *)
Record Edit := mkEdit { edit_text : bytes; edit_selection : nat * nat }.
Definition caret (text : bytes) (offset : nat) : Edit := mkEdit text (offset, offset).

Definition wrap (selected before after : bytes) : Edit :=
  mkEdit (before ++ selected ++ after) (length before, length before + length selected).
(** [split_inclusive('\n')]. *)
Fixpoint lines_inclusive (cur s : bytes) : list bytes :=
  match s with
  | [] => match cur with [] => [] | _ => [cur] end
  | b :: s => if bool_decide (b = LF) then (cur ++ [b]) :: lines_inclusive [] s
              else lines_inclusive (cur ++ [b]) s
  end.
Definition prefix_lines (selected prefix : bytes) : Edit :=
  let text := mjoin ((λ l, prefix ++ l) <$> lines_inclusive [] selected) in
  let text := if bool_decide (text = []) then prefix else text in
  caret text (length text).
Definition code_block (language selected : bytes) : Edit :=
  let text := bs "```" ++ language ++ [LF] ++ selected ++ [LF] ++ bs "```" in
  if bool_decide (selected = []) then caret text (4 + length language)
  else mkEdit text (4 + length language, 4 + length language + length selected).
Definition format (action : Format) (selected : bytes) : Edit :=
  match action with
  | Bold => wrap selected (bs "**") (bs "**")
  | Italic => wrap selected (bs "*") (bs "*")
  | InlineCode => wrap selected (bs "`") (bs "`")
  | Link =>
      let text := bs "[" ++ selected ++ bs "](url)" in
      if bool_decide (selected = []) then caret text 1
      else mkEdit text (length selected + 3, length selected + 6)
  | Heading => prefix_lines selected (bs "## ")
  | QuoteLines => prefix_lines selected (bs "> ")
  | Bulleted => prefix_lines selected (bs "- ")
  | Numbered => prefix_lines selected (bs "1. ")
  | Checklist => prefix_lines selected (bs "- [ ] ")
  | CodeBlock => code_block [] selected
  end.

Fixpoint leading_newlines (s : bytes) : nat :=
  match s with b :: s => if bool_decide (b = LF) then S (leading_newlines s) else 0 | [] => 0 end.
Definition newlines_for (n : nat) : bytes :=
  match n with 0 => [LF; LF] | 1 => [LF] | _ => [] end.
Definition block_context (e : Edit) (before after : bytes) : Edit :=
  let leading := if bool_decide (before = []) then []
                 else newlines_for (leading_newlines (reverse before)) in
  let trailing := if bool_decide (after = []) then []
                  else newlines_for (leading_newlines (reverse (edit_text e)) + leading_newlines after) in
  mkEdit (leading ++ edit_text e ++ trailing)
    ((edit_selection e).1 + length leading, (edit_selection e).2 + length leading).

Definition MAX_TABLE_DIMENSION : nat := 20.
Definition clamp (lo hi n : nat) : nat := Nat.max lo (Nat.min hi n).
Definition table_row (cells : list bytes) : bytes := bs "| " ++ join (bs " | ") cells ++ bs " |".
Definition table (columns rows : nat) : Edit :=
  let columns := clamp 1 MAX_TABLE_DIMENSION columns in
  let rows := clamp 1 MAX_TABLE_DIMENSION rows in
  let header := table_row ((λ n, bs "Column " ++ dec (N.of_nat n)) <$> seq 1 columns) in
  let separator := table_row (replicate columns (bs "---")) in
  let empty := table_row (replicate columns (bs " ")) in
  let text := header ++ [LF] ++ separator ++ [LF] ++ join [LF] (replicate rows empty) in
  caret text (length header + 1 + length separator + 3).

(** The last slash before the caret, where it begins a word that reaches the caret. *)
Definition slash_query (text : bytes) (at_ : nat) : option ((nat * nat) * bytes) :=
  before ← str_get text 0 at_;
  '(front, query) ← rsplit_once [SLASH] before;
  if (0 <? length front)%nat && negb (match last (chars front) with Some c => is_whitespace c | None => false end)
  then None
  else if existsb is_whitespace (chars query) then None
  else Some ((length front, at_), to_ascii_lowercase query).

(** ** Menus *)

Inductive SlashMenu := CommandsMenu | TableMenu | LanguageMenu | RepliesMenu.
#[export] Instance SlashMenu_eq_dec : EqDecision SlashMenu.
Proof. solve_decision. Defined.
Inductive SlashCommand := TableCommand | LanguageCommand | RepliesCommand | QuoteSource.
#[export] Instance SlashCommand_eq_dec : EqDecision SlashCommand.
Proof. solve_decision. Defined.
Definition COMMANDS : list SlashCommand := [TableCommand; LanguageCommand; RepliesCommand; QuoteSource].
Definition command_title (c : SlashCommand) : bytes :=
  match c with
  | TableCommand => bs "Table" | LanguageCommand => bs "Code with language"
  | RepliesCommand => bs "Saved reply" | QuoteSource => bs "Quote selected line"
  end.
Definition command_detail (c : SlashCommand) : bytes :=
  match c with
  | TableCommand => bs "Choose rows and columns" | LanguageCommand => bs "Insert a highlighted code fence"
  | RepliesCommand => bs "Reuse a local comment" | QuoteSource => bs "Include the line being reviewed"
  end.
Definition LANGUAGES : list (string * string) :=
  [("Rust", "rust"); ("TypeScript", "typescript"); ("Python", "python"); ("Shell", "bash");
   ("JSON", "json"); ("Plain text", "text")]%string.

Record SavedReply := mkSavedReply { reply_title : bytes; reply_body : bytes }.
#[export] Instance SavedReply_eq_dec : EqDecision SavedReply.
Proof. solve_decision. Defined.
(** [ComposerState], but for the fields of the toolkit and the preview, and the saved replies. *)
Record Composer := mkComposer {
  slash : option SlashMenu; slash_range : option (nat * nat); slash_query_ : bytes;
  slash_index : nat; table_columns : nat; table_rows : nat; replies : list SavedReply
}.
Definition with_menu (m : option SlashMenu) (i : nat) (c : Composer) : Composer :=
  mkComposer m (slash_range c) (slash_query_ c) i (table_columns c) (table_rows c) (replies c).
Definition no_slash (c : Composer) : Composer :=
  mkComposer None None [] 0 (table_columns c) (table_rows c) (replies c).

(** What the text field holds. *)
Record Field := mkField { value : bytes; selected : nat * nat; cursor : nat }.

Definition sync_slash (f : Field) (c : Composer) : Composer :=
  match (if ((selected f).1 =? (selected f).2)%nat then slash_query (value f) (cursor f) else None) with
  | Some (range, query) =>
      let moved := negb (bool_decide (slash_range c = Some range))
                   || negb (bool_decide (slash_query_ c = query)) in
      mkComposer (if moved then Some CommandsMenu else slash c) (Some range) query
        (if moved then 0 else slash_index c) (table_columns c) (table_rows c) (replies c)
  | None =>
      match slash_range c with
      | Some _ => mkComposer None None [] (slash_index c) (table_columns c) (table_rows c) (replies c)
      | None => c
      end
  end.

(** The range that the field replaces, with the text and the selection inside. *)
Record Replacement := mkReplacement { replaced : nat * nat; by_edit : Edit }.

Definition around (text : bytes) (r : nat * nat) : option (bytes * bytes) :=
  before ← str_get text 0 r.1; after ← str_get text r.2 (length text); Some (before, after).
Definition is_block (a : Format) : bool :=
  bool_decide (a ∈ [Heading; QuoteLines; CodeBlock; Bulleted; Numbered; Checklist]).
Definition format_comment (action : Format) (f : Field) (c : Composer)
    : option (Replacement * Composer) :=
  let edit := format action (default [] (str_get (value f) (selected f).1 (selected f).2)) in
  edit ← (if is_block action
          then '(before, after) ← around (value f) (selected f); Some (block_context edit before after)
          else Some edit);
  Some (mkReplacement (selected f) edit, no_slash c).

Definition active_slash_range (f : Field) (c : Composer) : option (nat * nat) :=
  r ← slash_range c;
  if (cursor f =? r.2)%nat
     && match str_get (value f) r.1 r.2 with Some t => starts_with [SLASH] t | None => false end
  then Some r else None.
Definition insert_slash_edit (edit : Edit) (f : Field) (c : Composer) : option (Replacement * Composer) :=
  let r := default (selected f) (active_slash_range f c) in
  '(before, after) ← around (value f) r;
  Some (mkReplacement r (block_context edit before after), no_slash c).

(** ** Commands and keys *)

Definition matching_comment_commands (quotable : bool) (c : Composer) : list SlashCommand :=
  List.filter (λ cmd,
    (negb (bool_decide (cmd = QuoteSource)) || quotable)
    && (contains (slash_query_ c) (to_ascii_lowercase (command_title cmd))
        || contains (slash_query_ c) (to_ascii_lowercase (command_detail cmd)))) COMMANDS.
Definition comment_menu_count (quotable : bool) (m : SlashMenu) (c : Composer) : nat :=
  match m with
  | CommandsMenu => length (matching_comment_commands quotable c)
  | TableMenu => 25
  | LanguageMenu => length LANGUAGES
  | RepliesMenu => length (replies c) + 1
  end.

(** [quote] is the line that the selection of the review names: its path, number and text. *)
Definition quote_source_comment (quote : option (bytes * N * bytes)) (f : Field) (c : Composer)
    : option (option Replacement * Composer) :=
  match quote with
  | None => Some (None, c)
  | Some (path, n, text) =>
      let q := bs "> " ++ path ++ bs ":" ++ dec n ++ [LF] ++ bs "> " ++ trim_end text ++ [LF; LF] in
      '(r, c) ← insert_slash_edit (caret q (length q)) f c; Some (Some r, c)
  end.
Definition choose_slash_command (cmd : SlashCommand) (quote : option (bytes * N * bytes)) (f : Field)
    (c : Composer) : option (option Replacement * Composer) :=
  match cmd with
  | TableCommand => Some (None, with_menu (Some TableMenu) 0 c)
  | LanguageCommand => Some (None, with_menu (Some LanguageMenu) 0 c)
  | RepliesCommand => Some (None, with_menu (Some RepliesMenu) 0 c)
  | QuoteSource => quote_source_comment quote f (with_menu (slash c) 0 c)
  end.

(** The flag says whether the key was taken. *)
Definition dismiss_comment_menu (c : Composer) : bool * Composer :=
  match slash c with
  | None => (false, c)
  | Some _ => (true, with_menu None (slash_index c) c)
  end.
Definition move_comment_menu (delta : Z) (quotable : bool) (c : Composer) : bool * Composer :=
  match slash c with
  | None => (false, c)
  | Some m =>
      let count := comment_menu_count quotable m c in
      if (count =? 0)%nat then (false, c)
      else (true, with_menu (slash c)
                    (Z.to_nat ((Z.of_nat (slash_index c) + delta) mod Z.of_nat count)) c)
  end.
Definition step_dimension (n : nat) (delta : Z) : nat :=
  Z.to_nat (Z.max 1 (Z.min 5 (Z.of_nat n + delta))).
Definition with_dimensions (columns rows : nat) (c : Composer) : Composer :=
  mkComposer (slash c) (slash_range c) (slash_query_ c) (slash_index c) columns rows (replies c).
(** [typing]: a field of the table's dimensions has the focus. *)
Definition move_comment_menu_vertical (delta : Z) (typing quotable : bool) (c : Composer) : bool * Composer :=
  if bool_decide (slash c = Some TableMenu)
  then if typing then (false, c)
       else (true, with_dimensions (Nat.min (table_columns c) 5) (step_dimension (table_rows c) delta) c)
  else move_comment_menu delta quotable c.
Definition move_comment_menu_horizontal (delta : Z) (typing quotable : bool) (c : Composer) : bool * Composer :=
  if bool_decide (slash c = Some TableMenu)
  then if typing then (false, c)
       else (true, with_dimensions (step_dimension (table_columns c) delta) (Nat.min (table_rows c) 5) c)
  else move_comment_menu delta quotable c.

(** ** Saved replies *)

Definition MAX_REPLIES : nat := 30.
Definition current_reply_body (f : Field) (c : Composer) : bytes :=
  trim match active_slash_range f c with
       | Some r => take r.1 (value f) ++ drop r.2 (value f)
       | None => value f
       end.
Definition add_reply (body : bytes) (l : list SavedReply) : list SavedReply :=
  if existsb (λ r, bool_decide (reply_body r = body)) l then l
  else
    let title := encode (take 42 (chars (default (bs "Reply") (head (str_lines body))))) in
    (if (length l =? MAX_REPLIES)%nat then drop 1 l else l) ++ [mkSavedReply title body].
Definition reply_position (body : bytes) (l : list SavedReply) : option nat :=
  fst <$> list_find (λ r, reply_body r = body) l.
Definition save_comment_reply (f : Field) (c : Composer) : option Replacement * Composer :=
  let body := current_reply_body f c in
  if bool_decide (body = []) then (None, c)
  else
    let r := (λ r, mkReplacement r (caret [] 0)) <$> active_slash_range f c in
    let saved := add_reply body (replies c) in
    let c := mkComposer (slash c) (slash_range c) (slash_query_ c) (slash_index c)
               (table_columns c) (table_rows c) saved in
    let c := match r with Some _ => no_slash c | None => c end in
    (r, with_menu (Some RepliesMenu) match reply_position body saved with Some i => i + 1 | None => 0 end c).

(** [dimensions] are the numbers in the table's fields, where both are valid. *)
Definition activate_comment_menu (dimensions : option (nat * nat)) (quotable : bool)
    (quote : option (bytes * N * bytes)) (f : Field) (c : Composer)
    : option (bool * option Replacement * Composer) :=
  match slash c with
  | None => Some (false, None, c)
  | Some m =>
      let count := comment_menu_count quotable m c in
      let at_ := Nat.min (slash_index c) (count - 1) in
      if (count =? 0)%nat then Some (false, None, c)
      else
        '(r, c) ← match m with
                  | CommandsMenu =>
                      cmd ← matching_comment_commands quotable c !! at_;
                      choose_slash_command cmd quote f c
                  | TableMenu =>
                      match dimensions with
                      | Some (columns, rows) =>
                          '(r, c) ← insert_slash_edit (table columns rows) f c; Some (Some r, c)
                      | None => Some (None, c)
                      end
                  | LanguageMenu =>
                      l ← LANGUAGES !! at_;
                      '(r, c) ← insert_slash_edit (code_block (bs l.2) []) f c; Some (Some r, c)
                  | RepliesMenu =>
                      if (slash_index c =? 0)%nat then Some (save_comment_reply f c)
                      else
                        reply ← replies c !! (at_ - 1);
                        '(r, c) ← insert_slash_edit (caret (reply_body reply) (length (reply_body reply))) f c;
                        Some (Some r, c)
                  end;
        Some (true, r, c)
  end.
