(* ===== verification/EditorFacts.v ===== *)
(** * Theorems about the comment editor *)

From S2P Require Import Prelude RustStr Utf8 Editor.

(** ** Slices *)

Lemma boundary_le s i : is_char_boundary s i = true → i <= length s.
Proof.
  unfold is_char_boundary. destruct i as [|i]; [lia|].
  destruct (s !! S i) as [b|] eqn:E; [intros _; apply lookup_lt_Some in E; lia|].
  intros ->%Nat.eqb_eq. done.
Qed.
Lemma boundary_end s : is_char_boundary s (length s) = true.
Proof.
  unfold is_char_boundary. destruct (length s) as [|n] eqn:E; [done|].
  rewrite lookup_ge_None_2 by lia. apply Nat.eqb_refl.
Qed.
Lemma around_ok text r :
  is_char_boundary text r.1 = true → is_char_boundary text r.2 = true →
  around text r = Some (take r.1 text, drop r.2 text).
Proof.
  intros H1 H2. unfold around, str_get. rewrite H1, H2, boundary_end. cbn [Nat.leb andb is_char_boundary mbind option_bind].
  pose proof (boundary_le _ _ H2) as Hle. apply Nat.leb_le in Hle. rewrite Hle. cbn [andb mbind option_bind].
  rewrite drop_0, Nat.sub_0_r. f_equal. f_equal. apply take_ge. rewrite length_drop. lia.
Qed.

(** A selection of the text, as a text field has it. *)
Record field_ok (f : Field) : Prop := {
  fo_order : (selected f).1 <= (selected f).2;
  fo_start : is_char_boundary (value f) (selected f).1 = true;
  fo_end : is_char_boundary (value f) (selected f).2 = true
}.
Lemma active_range_ok f c r :
  active_slash_range f c = Some r →
  r.1 <= r.2 ∧ is_char_boundary (value f) r.1 = true ∧ is_char_boundary (value f) r.2 = true ∧
  cursor f = r.2 ∧ head (drop r.1 (value f)) = Some SLASH.
Proof.
  unfold active_slash_range. destruct (slash_range c) as [[i j]|]; [|done]. cbn.
  destruct (Nat.eqb_spec (cursor f) j) as [Hc|]; [|done]. cbn.
  unfold str_get. destruct (_ && _ && _) eqn:E; [|done].
  apply andb_true_iff in E as [[E1%Nat.leb_le E2]%andb_true_iff E3].
  destruct (starts_with _ _) eqn:Es; [|done]. intros [= <-]. cbn. split_and!; [done..|].
  destruct (drop i (value f)) as [|b l]; [by rewrite take_nil in Es|].
  destruct (j - i); [done|]. cbn in Es. unfold starts_with in Es. cbn in Es.
  case_bool_decide as Hb; [by subst b|done].
Qed.
(** The range that an edit replaces. *)
Lemma insert_range f c :
  field_ok f → let r := default (selected f) (active_slash_range f c) in
  r.1 <= r.2 ∧ is_char_boundary (value f) r.1 = true ∧ is_char_boundary (value f) r.2 = true.
Proof.
  intros [H1 H2 H3]. destruct (active_slash_range f c) as [r|] eqn:E; [|done].
  by apply active_range_ok in E as (? & ? & ? & _).
Qed.

(** ** An edit and the text around it *)

Lemma leading_newlines_app s : s = replicate (leading_newlines s) LF ++ drop (leading_newlines s) s.
Proof. induction s as [|b s IH]; [done|]. cbn. case_bool_decide; [subst; cbn; by rewrite <- IH|done]. Qed.
Lemma newlines_for_all n : newlines_for n = replicate (2 - n) LF.
Proof. by destruct n as [|[|n]]. Qed.
(** The text ends in two line feeds. *)
Definition ends_paragraph (s : bytes) : Prop := 2 <= leading_newlines (reverse s).
Lemma leading_newlines_replicate n s : leading_newlines (replicate n LF ++ s) = n + leading_newlines s.
Proof. induction n as [|n IH]; [done|]. cbn. by rewrite IH. Qed.
Lemma ends_after_newlines s : ends_paragraph (s ++ newlines_for (leading_newlines (reverse s))).
Proof.
  unfold ends_paragraph. rewrite newlines_for_all, reverse_app, reverse_replicate, leading_newlines_replicate. lia.
Qed.

(** What a block edit leaves in the text field. *)
Definition after_edit (f : Field) (r : Replacement) : bytes :=
  take (replaced r).1 (value f) ++ edit_text (by_edit r) ++ drop (replaced r).2 (value f).
Definition slice (s : bytes) (r : nat * nat) : bytes := take (r.2 - r.1) (drop r.1 s).

Lemma slice_inside l s t r : r.1 <= r.2 → r.2 <= length s →
  slice (l ++ s ++ t) (r.1 + length l, r.2 + length l) = slice s r.
Proof.
  intros H1 H2. unfold slice. cbn.
  rewrite drop_app_ge by lia. replace (r.1 + length l - length l) with r.1 by lia.
  replace (r.2 + length l - (r.1 + length l)) with (r.2 - r.1) by lia.
  rewrite drop_app_le by lia. rewrite take_app_le; [done|]. rewrite length_drop. lia.
Qed.

(** Inserting a block replaces the slash word before the cursor, or else the selection, and
    nothing else of the text: what stands before it ends in an empty line and what follows
    begins after one, where there is any, only line feeds are added for that, and what the
    edit selects is selected. *)
Theorem block_edit_stands_apart e f c :
  field_ok f → (edit_selection e).1 <= (edit_selection e).2 → (edit_selection e).2 <= length (edit_text e) →
  ∃ r c', insert_slash_edit e f c = Some (r, c') ∧
    let before := take (replaced r).1 (value f) in let after := drop (replaced r).2 (value f) in
    match active_slash_range f c with
    | Some range => replaced r = range ∧ range.2 = cursor f ∧ head (drop range.1 (value f)) = Some SLASH
    | None => replaced r = selected f
    end ∧
    (∃ m n, after_edit f r = before ++ replicate m LF ++ edit_text e ++ replicate n LF ++ after ∧
       m <= 2 ∧ n <= 2 ∧
       (before = [] → m = 0) ∧ (after = [] → n = 0) ∧
       (before ≠ [] → ends_paragraph (before ++ replicate m LF)) ∧
       (after ≠ [] → 2 <= leading_newlines (reverse (edit_text e)) + n + leading_newlines after) ∧
       slice (after_edit f r)
         ((replaced r).1 + (edit_selection (by_edit r)).1, (replaced r).1 + (edit_selection (by_edit r)).2)
       = slice (edit_text e) (edit_selection e)) ∧
    slash c' = None.
Proof.
  intros Hf H1 H2. unfold insert_slash_edit.
  destruct (insert_range f c Hf) as (Hr & Hb1 & Hb2).
  set (range := default (selected f) (active_slash_range f c)) in *.
  rewrite around_ok by done. cbn [mbind option_bind]. eexists _, _. split; [done|].
  unfold after_edit, block_context. cbn [replaced by_edit edit_text edit_selection fst snd].
  set (before := take range.1 (value f)). set (after := drop range.2 (value f)).
  split; [|split; [|done]].
  { subst range. destruct (active_slash_range f c) as [x|] eqn:E; [|done].
    by apply active_range_ok in E as (_ & _ & _ & ? & ?). }
  exists (if bool_decide (before = []) then 0 else 2 - leading_newlines (reverse before)),
    (if bool_decide (after = []) then 0 else 2 - (leading_newlines (reverse (edit_text e)) + leading_newlines after)).
  assert (length before = range.1) as Hlen.
  { subst before. rewrite length_take. pose proof (boundary_le _ _ Hb1). lia. }
  assert (∀ b n, (if b : bool then [] else newlines_for n) = replicate (if b then 0 else 2 - n) LF) as Hn
    by (intros [] n; [done|apply newlines_for_all]).
  rewrite !Hn. set (m := if bool_decide (before = []) then _ else _).
  set (n := if bool_decide (after = []) then _ else _).
  split_and!.
  - by rewrite <- !app_assoc.
  - subst m. case_bool_decide; lia.
  - subst n. case_bool_decide; lia.
  - subst m. by intros E; rewrite bool_decide_true.
  - subst n. by intros E; rewrite bool_decide_true.
  - intros Hne. subst m. rewrite bool_decide_false, <- newlines_for_all by done. apply ends_after_newlines.
  - intros Hne. subst n. rewrite bool_decide_false by done. lia.
  - rewrite <- (slice_inside (before ++ replicate m LF) (edit_text e) (replicate n LF ++ after) (edit_selection e) H1 H2).
    unfold slice. cbn [fst snd]. rewrite !length_app, !length_replicate, Hlen, <- !app_assoc.
    f_equal; [lia|]. f_equal. lia.
Qed.

(** ** A session of edits *)

(** What the user does, with the text field as it is then. *)
Inductive Act :=
| Typed (f : Field)
| Formatted (a : Format) (f : Field)
| Chosen (cmd : SlashCommand) (quote : option (bytes * N * bytes)) (f : Field)
| Activated (dimensions : option (nat * nat)) (quotable : bool) (quote : option (bytes * N * bytes)) (f : Field)
| MovedVertically (delta : Z) (typing quotable : bool)
| MovedHorizontally (delta : Z) (typing quotable : bool)
| Dismissed.
Definition act_ok (a : Act) : Prop :=
  match a with
  | Typed f | Formatted _ f | Chosen _ _ f | Activated _ _ _ f => field_ok f
  | _ => True
  end.
Definition perform (c : Composer) (a : Act) : option Composer :=
  match a with
  | Typed f => Some (sync_slash f c)
  | Formatted a f => snd <$> format_comment a f c
  | Chosen cmd quote f => snd <$> choose_slash_command cmd quote f c
  | Activated dimensions quotable quote f => snd <$> activate_comment_menu dimensions quotable quote f c
  | MovedVertically delta typing quotable => Some (move_comment_menu_vertical delta typing quotable c).2
  | MovedHorizontally delta typing quotable => Some (move_comment_menu_horizontal delta typing quotable c).2
  | Dismissed => Some (dismiss_comment_menu c).2
  end.
Fixpoint perform_all (c : Composer) (l : list Act) : option Composer :=
  match l with [] => Some c | a :: l => c ← perform c a; perform_all c l end.

Record composer_ok (c : Composer) : Prop := {
  co_index : slash c = Some RepliesMenu → slash_index c <= length (replies c);
  co_bodies : NoDup (reply_body <$> replies c);
  co_many : length (replies c) <= MAX_REPLIES
}.

Lemma composer_ok_menu m i c :
  composer_ok c → (m = Some RepliesMenu → i <= length (replies c)) → composer_ok (with_menu m i c).
Proof. intros [H1 H2 H3] Hi. by split. Qed.
Lemma composer_ok_none c : composer_ok c → composer_ok (no_slash c).
Proof. intros [H1 H2 H3]. by split. Qed.

Lemma insert_ok e f c :
  field_ok f → composer_ok c → ∃ r c', insert_slash_edit e f c = Some (r, c') ∧ composer_ok c'.
Proof.
  intros Hf Hc. unfold insert_slash_edit. destruct (insert_range f c Hf) as (_ & H1 & H2).
  rewrite around_ok by done. cbn [mbind option_bind]. eexists _, _. split; [done|]. by apply composer_ok_none.
Qed.
Lemma choose_ok cmd quote f c :
  field_ok f → composer_ok c →
  ∃ r c', choose_slash_command cmd quote f c = Some (r, c') ∧ composer_ok c'.
Proof.
  intros Hf Hc. destruct cmd; try (eexists _, _; split; [done|apply composer_ok_menu; [done|cbn; lia]]).
  unfold choose_slash_command, quote_source_comment. destruct quote as [[[p n] t]|].
  - edestruct insert_ok as (r & c' & -> & Hc'); [exact Hf| |].
    { apply composer_ok_menu; [exact Hc|]. intros _. apply Nat.le_0_l. }
    by eexists _, _.
  - eexists _, _. split; [done|]. apply composer_ok_menu; [done|]. lia.
Qed.
Lemma add_reply_ok body l :
  NoDup (reply_body <$> l) → length l <= MAX_REPLIES →
  NoDup (reply_body <$> add_reply body l) ∧ length (add_reply body l) <= MAX_REPLIES.
Proof.
  intros Hd Hl. unfold add_reply. destruct (existsb _ l) eqn:E; [done|].
  assert (body ∉ reply_body <$> l) as Hb.
  { intros (r & -> & Hr)%list_elem_of_fmap. apply not_true_iff_false in E. apply E, existsb_exists.
    exists r. split; [by apply list_elem_of_In|by apply bool_decide_eq_true]. }
  set (kept := if length l =? MAX_REPLIES then drop 1 l else l).
  assert (∃ n, kept = drop n l) as [n Hn].
  { subst kept. destruct (length l =? MAX_REPLIES); [by exists 1|by exists 0]. }
  assert (length kept < MAX_REPLIES) as Hk.
  { subst kept. destruct (Nat.eqb_spec (length l) MAX_REPLIES) as [Hm|]; [|lia].
    rewrite length_drop, Hm. unfold MAX_REPLIES. lia. }
  rewrite <- (take_drop n l), <- Hn, fmap_app in Hd, Hb.
  rewrite fmap_app. split; [|rewrite length_app; cbn; lia].
  apply NoDup_app in Hd as (_ & _ & Hd). apply NoDup_app. split_and!; [done| |apply NoDup_singleton].
  intros x Hx [= ->]%list_elem_of_singleton. apply Hb, elem_of_app. by right.
Qed.
Lemma save_ok f c : composer_ok c → composer_ok (save_comment_reply f c).2.
Proof.
  intros [H1 H2 H3]. unfold save_comment_reply. case_bool_decide; [by split|].
  set (body := current_reply_body f c). destruct (add_reply_ok body _ H2 H3) as [Hd Hl].
  assert (match reply_position body (add_reply body (replies c)) with Some i => i + 1 | None => 0 end
          <= length (add_reply body (replies c))) as Hp.
  { unfold reply_position. destruct (list_find _ _) as [[i r]|] eqn:E; cbn; [|lia].
    apply list_find_Some in E as (E & _). apply lookup_lt_Some in E. lia. }
  by destruct (active_slash_range f c); cbn; split.
Qed.
Lemma move_ok delta quotable c : composer_ok c → composer_ok (move_comment_menu delta quotable c).2.
Proof.
  intros Hc. unfold move_comment_menu. destruct (slash c) as [m|] eqn:E; [|done].
  destruct (Nat.eqb_spec (comment_menu_count quotable m c) 0) as [|Hn]; [done|].
  apply composer_ok_menu; [done|]. intros [= ->]. cbn [comment_menu_count] in *.
  pose proof (Z.mod_pos_bound (Z.of_nat (slash_index c) + delta) (Z.of_nat (length (replies c) + 1)) ltac:(lia)).
  lia.
Qed.
Lemma activate_ok dimensions quotable quote f c :
  field_ok f → composer_ok c →
  ∃ b r c', activate_comment_menu dimensions quotable quote f c = Some (b, r, c') ∧ composer_ok c'.
Proof.
  intros Hf Hc. unfold activate_comment_menu. destruct (slash c) as [m|] eqn:Em; [|by eexists _, _, _].
  destruct (Nat.eqb_spec (comment_menu_count quotable m c) 0) as [|Hn]; [by eexists _, _, _|].
  assert (∀ (p : option (option Replacement * Composer)),
    (∃ r c', p = Some (r, c') ∧ composer_ok c') →
    ∃ b r c', ('(r, c) ← p; Some (true, r, c)) = Some (b, r, c') ∧ composer_ok c') as Hp.
  { intros p (r & c' & -> & ?). by eexists _, _, _. }
  assert (∀ e, ∃ r c', ('(r, c') ← insert_slash_edit e f c; Some (Some r, c')) = Some (r, c') ∧ composer_ok c') as Hi.
  { intros e. destruct (insert_ok e f c Hf Hc) as (r & c' & -> & ?). by eexists _, _. }
  apply Hp. destruct m.
  - destruct (lookup_lt_is_Some_2 (matching_comment_commands quotable c)
      (slash_index c `min` (comment_menu_count quotable CommandsMenu c - 1))) as [cmd Hcmd].
    { cbn [comment_menu_count] in *. lia. }
    rewrite Hcmd. by apply choose_ok.
  - destruct dimensions as [[columns rows]|]; [apply Hi|by eexists _, _].
  - destruct (lookup_lt_is_Some_2 LANGUAGES
      (slash_index c `min` (comment_menu_count quotable LanguageMenu c - 1))) as [l Hl].
    { cbn [comment_menu_count] in *. lia. }
    rewrite Hl. apply Hi.
  - destruct (Nat.eqb_spec (slash_index c) 0).
    { destruct (save_comment_reply f c) as [r c'] eqn:E. eexists _, _. split; [done|].
      change c' with (r, c').2. rewrite <- E. by apply save_ok. }
    pose proof (co_index _ Hc Em) as Hx.
    destruct (lookup_lt_is_Some_2 (replies c)
      (slash_index c `min` (comment_menu_count quotable RepliesMenu c - 1) - 1)) as [l Hl].
    { cbn [comment_menu_count]. lia. }
    rewrite Hl. apply Hi.
Qed.
Lemma dimensions_ok columns rows c : composer_ok c → composer_ok (with_dimensions columns rows c).
Proof. by intros [H1 H2 H3]. Qed.
Lemma sync_ok f c : composer_ok c → composer_ok (sync_slash f c).
Proof.
  intros [H1 H2 H3]. unfold sync_slash. destruct (if _ =? _ then _ else _) as [[range query]|].
  - destruct (_ || _); by split.
  - by destruct (slash_range c); split.
Qed.
Lemma perform_ok c a : act_ok a → composer_ok c → ∃ c', perform c a = Some c' ∧ composer_ok c'.
Proof.
  intros Ha Hc. destruct a; cbn [perform act_ok] in *.
  - eexists. split; [done|by apply sync_ok].
  - unfold format_comment. destruct (is_block a).
    + rewrite around_ok by apply Ha. eexists. split; [done|by apply composer_ok_none].
    + eexists. split; [done|by apply composer_ok_none].
  - destruct (choose_ok cmd quote f c Ha Hc) as (r & c' & -> & ?). by eexists.
  - destruct (activate_ok dimensions quotable quote f c Ha Hc) as (b & r & c' & -> & ?). by eexists.
  - eexists. split; [done|]. unfold move_comment_menu_vertical. case_bool_decide; [|by apply move_ok].
    destruct typing; [done|by apply dimensions_ok].
  - eexists. split; [done|]. unfold move_comment_menu_horizontal. case_bool_decide; [|by apply move_ok].
    destruct typing; [done|by apply dimensions_ok].
  - eexists. split; [done|]. unfold dismiss_comment_menu. destruct (slash c); [|done].
    by apply composer_ok_menu.
Qed.

(** C24: Whatever is typed, chosen and moved through in the menus of the comment editor, no slice of
    the text and no index of a menu is out of bounds: every act completes. The saved replies
    stay at most thirty with different texts, and the reply that is marked exists. *)
Theorem editor_session_completes c acts :
  composer_ok c → Forall act_ok acts → ∃ c', perform_all c acts = Some c' ∧ composer_ok c'.
Proof.
  intros Hc Ha. revert c Hc. induction Ha as [|a acts Ha _ IH]; intros c Hc; cbn; [by exists c|].
  destruct (perform_ok c a Ha Hc) as (c' & -> & Hc'). by apply IH.
Qed.

(** ** A sample *)

Definition sample_field : Field := mkField (bs "Keep /rep" ++ [LF; LF] ++ bs "after") (9, 9) 9.
Definition sample_composer : Composer :=
  mkComposer None None [] 0 3 2 [mkSavedReply (bs "Nit") (bs "Nit: rename")].
(** The word is seen, the menu of replies opens, the saved one is marked and inserted. *)
Definition sample_acts : list Act :=
  [Typed sample_field; Activated None false None sample_field; MovedVertically 1 false false;
   Activated None false None sample_field].

Lemma sample_field_ok : field_ok sample_field.
Proof. by split; vm_compute; [lia|..]. Qed.
Lemma editor_session_completes_witness :
  perform_all sample_composer sample_acts = Some sample_composer ∧
  ∃ c', perform_all sample_composer sample_acts = Some c' ∧ composer_ok c'.
Proof.
  split; [vm_compute; reflexivity|]. apply (editor_session_completes sample_composer sample_acts).
  - split; [done|apply NoDup_singleton|cbn; unfold MAX_REPLIES; lia].
  - unfold sample_acts. repeat (constructor; [first [apply sample_field_ok|exact I]|]). constructor.
Defined.
Lemma block_edit_stands_apart_witness :
  ∃ r c', insert_slash_edit (caret (bs "Nit") 3) sample_field (sync_slash sample_field sample_composer) = Some (r, c') ∧
          after_edit sample_field r = bs "Keep " ++ [LF; LF] ++ bs "Nit" ++ [LF; LF] ++ bs "after".
Proof.
  destruct (block_edit_stands_apart (caret (bs "Nit") 3) sample_field (sync_slash sample_field sample_composer)
              sample_field_ok ltac:(cbn; lia) ltac:(cbn; lia)) as (r & c' & H & _).
  exists r, c'. split; [exact H|]. revert H. vm_compute. by intros [= <- _].
Defined.
