(* ===== verification/Syntax.v ===== *)
(** * Highlighted source ([crates/core/src/syntax.rs])

    Which grammar takes a path, how the events of a highlighter become spans of each line, and
    how a grammar of an extension is compiled. The crate [tree_sitter_highlight] and the
    grammars are the class [TreeSitter]; the program is built with every grammar. A [None] of
    [push_span] is an index out of bounds. *)

From S2P Require Import Prelude RustStr Utf8 BTree F32 Theme.

Definition RECOGNIZED : list (bytes * Token) := [
  (bs "keyword", Keyword); (bs "function", Function_); (bs "function.method", Function_);
  (bs "function.macro", Function_); (bs "method", Function_); (bs "constructor", Function_);
  (bs "type", Type_); (bs "type.builtin", Type_); (bs "string", String_);
  (bs "string.special", String_); (bs "character", String_); (bs "escape", String_);
  (bs "number", Number_); (bs "float", Number_); (bs "comment", Comment);
  (bs "property", Property_); (bs "field", Property_); (bs "constant", Constant);
  (bs "constant.builtin", Constant); (bs "boolean", Constant); (bs "operator", Operator);
  (bs "punctuation", Punctuation); (bs "punctuation.bracket", Punctuation);
  (bs "punctuation.delimiter", Punctuation); (bs "punctuation.special", Punctuation);
  (bs "variable", Variable_); (bs "variable.builtin", Variable_);
  (bs "variable.parameter", Parameter_); (bs "parameter", Parameter_);
  (bs "attribute", Attribute_); (bs "tag", Attribute_); (bs "tag.delimiter", Attribute_);
  (bs "namespace", Namespace); (bs "module", Namespace); (bs "label", Label_);
  (bs "embedded", Embedded)
].
Definition recognized_names : list bytes := RECOGNIZED.*1.
Definition token_for (index : nat) : option Token := snd <$> RECOGNIZED !! index.

(** The names of the built-in grammars, with the endings they take. *)
Definition GRAMMARS : list (list string * string) := [
  (["rs"], "rust"); (["js"; "mjs"; "cjs"; "jsx"], "javascript"); (["ts"; "mts"; "cts"], "typescript");
  (["tsx"], "tsx"); (["json"], "json"); (["py"], "python"); (["go"], "go"); (["c"; "h"], "c");
  (["cpp"; "cc"; "cxx"; "hpp"; "hh"; "hxx"], "cpp"); (["java"], "java"); (["rb"], "ruby");
  (["sh"; "bash"; "zsh"], "bash"); (["toml"], "toml"); (["yaml"; "yml"], "yaml");
  (["html"; "htm"], "html"); (["css"], "css"); (["ex"; "exs"], "elixir"); (["heex"], "heex");
  (["gleam"], "gleam")]%string.

Definition path_extension (path : bytes) : option bytes :=
  name ← last (split_on Byte.x2f path); '(_, ext) ← rsplit_once (bs ".") name;
  Some (to_ascii_lowercase ext).
Definition language_for_path (path : bytes) : option bytes :=
  ext ← path_extension path;
  g ← List.find (λ g, existsb (λ e, bool_decide (ext = bs e)) g.1) GRAMMARS;
  Some (bs g.2).

(** ** From events to spans *)

Inductive HighlightEvent :=
| HighlightStart (highlight : nat) | HighlightEnd | SourceEvent (start end_ : nat).

(** A span of one line: its bytes and its kind. *)
Notation Span := ((nat * nat) * Token)%type.

(** The bytes of every line, without its ending; [line_start] is where the line begins. *)
Fixpoint line_bounds (line_start at_ : nat) (cr : bool) (rest : bytes) : list (nat * nat) :=
  match rest with
  | [] => [(line_start, at_)]
  | b :: rest =>
      if bool_decide (b = LF)
      then (line_start, if (line_start <? at_)%nat && cr then at_ - 1 else at_)
           :: line_bounds (S at_) (S at_) false rest
      else line_bounds line_start (S at_) (bool_decide (b = CR)) rest
  end.
Definition bounds (source : bytes) : list (nat * nat) := line_bounds 0 0 false source.

(** The loop of [push_span] from a line on: [rest] are the bounds of it and the lines after. *)
Fixpoint push_loop (rest : list (nat * nat)) (line cursor end_ : nat) (token : Token)
    (lines : list (list Span)) : option (list (list Span)) :=
  if (cursor <? end_)%nat then
    match rest with
    | [] => None
    | (line_start, line_end) :: rest =>
        let clipped := Nat.min end_ line_end in
        let lines :=
          if (cursor <? clipped)%nat
          then alter (λ spans, spans ++ [((cursor - line_start, clipped - line_start), token)]) line lines
          else lines in
        if (clipped =? end_)%nat then Some lines
        else match rest with
             | [] => None
             | (next, _) :: _ => push_loop rest (S line) next end_ token lines
             end
    end
  else Some lines.
(** [partition_point] counts the lines that begin at or before the start. *)
Definition push_span (lines : list (list Span)) (bounds : list (nat * nat)) (start end_ : nat)
    (token : Token) : option (list (list Span)) :=
  let after := length (List.filter (λ b, (b.1 <=? start)%nat) bounds) in
  push_loop (drop (after - 1) bounds) (after - 1) start end_ token lines.

(** What the events give; an event that is an error, or one of a kind that is not recognized,
    leaves the source without spans. The outer option is a panic. *)
Fixpoint spans_loop (bounds : list (nat * nat)) (events : list (option HighlightEvent))
    (stack : list Token) (lines : list (list Span)) : option (option (list (list Span))) :=
  match events with
  | [] => Some (Some lines)
  | None :: _ => Some None
  | Some (HighlightStart h) :: events =>
      match token_for h with
      | Some t => spans_loop bounds events (t :: stack) lines
      | None => Some None
      end
  | Some HighlightEnd :: events => spans_loop bounds events (tail stack) lines
  | Some (SourceEvent start end_) :: events =>
      match stack with
      | t :: _ => lines ← push_span lines bounds start end_ t; spans_loop bounds events stack lines
      | [] => spans_loop bounds events stack lines
      end
  end.
Definition spans (events : option (list (option HighlightEvent))) (source : bytes)
    : option (option (list (list Span))) :=
  match events with
  | None => Some None
  | Some events => spans_loop (bounds source) events [] (replicate (length (bounds source)) [])
  end.

(** ** Grammars *)

(** What the libraries do: the events of a built-in grammar, by its name, and those of a
    compiled one; the stages of compiling, whose errors are their text. *)
Class TreeSitter := {
  Grammar : Type;
  Configuration : Type;
  builtin_events : bytes → bytes → option (list (option HighlightEvent));
  events_of : Configuration → bytes → option (list (option HighlightEvent));
  read_file : bytes → result bytes bytes;           (* [fs::read] *)
  new_store : result bytes unit;
  set_wasm_store : bool;                            (* whether a highlighter takes a store *)
  load_grammar : bytes → bytes → result bytes Grammar;
  new_configuration : Grammar → bytes → bytes → bytes → bytes → result bytes Configuration
}.

Section grammars.
Context {machine_ : Machine} {path_ : PathText} {tree_ : TreeSitter}.

(** The files of a grammar: its name, its code and the directory of its queries. *)
Definition query_text (queries : bytes) (file : bytes) (required : bool) : result bytes bytes :=
  let path := join_path queries file in
  match read_to_string path with
  | Ok text => Ok text
  | Err e => if required then Err (bs "cannot read " ++ path_text path ++ bs ": " ++ e) else Ok []
  end.
Definition compile (name wasm queries : bytes) : result bytes Configuration :=
  code ← map_err (λ e, bs "cannot read " ++ path_text wasm ++ bs ": " ++ e) (read_file wasm);
  _ ← new_store;
  language ← map_err (λ e, path_text wasm ++ bs ": " ++ e) (load_grammar name code);
  highlights ← query_text queries (bs "highlights.scm") true;
  injections ← query_text queries (bs "injections.scm") false;
  locals ← query_text queries (bs "locals.scm") false;
  map_err (λ e, path_text queries ++ bs ": " ++ e)
    (new_configuration language name highlights injections locals).
(** [WasmGrammar::highlight]; a highlighter of the pool or a new one, which needs a store. *)
Definition wasm_highlight (name wasm queries : bytes) (pooled : bool) (source : bytes)
    : option (option (list (list Span))) :=
  match compile name wasm queries with
  | Err _ => Some None
  | Ok config =>
      if pooled || (is_ok new_store && set_wasm_store) then spans (events_of config source) source else Some None
  end.
Definition run_builtin (path source : bytes) : option (option (list (list Span))) :=
  match language_for_path path with
  | None => Some None
  | Some name => spans (builtin_events name source) source
  end.
End grammars.
