(* ===== verification/SyntaxFacts.v ===== *)
(** * The spans of every line are the painted source cut at the lines *)

From S2P Require Import Prelude RustStr Utf8 BTree F32 Theme Syntax.

(** ** Lines *)

(** Consecutive lines from a byte to the end, each ending before the next begins. *)
Fixpoint chain (from total : nat) (l : list (nat * nat)) : Prop :=
  match l with
  | [] => False
  | (s, e) :: l' =>
      s = from ∧ s <= e ∧ match l' with [] => e = total | (s', _) :: _ => e < s' ∧ chain s' total l' end
  end.
Lemma line_bounds_chain ls at_ cr rest :
  ls <= at_ → chain ls (at_ + length rest) (line_bounds ls at_ cr rest).
Proof.
  revert ls at_ cr. induction rest as [|b rest IH]; intros ls at_ cr H; cbn [line_bounds length];
    [cbn; split_and!; lia|].
  case_bool_decide.
  - specialize (IH (S at_) (S at_) false ltac:(lia)).
    replace (at_ + S (length rest)) with (S at_ + length rest) by lia.
    destruct (line_bounds (S at_) (S at_) false rest) as [|[s' e'] l] eqn:E; [done|].
    assert (s' = S at_) as -> by (cbn in IH; by destruct IH).
    cbn [chain]. destruct (Nat.ltb_spec ls at_), cr; cbn [andb];
      (split; [done|split; [|split; [|exact IH]]]; lia).
  - replace (at_ + S (length rest)) with (S at_ + length rest) by lia. apply IH. lia.
Qed.
Lemma bounds_chain source : chain 0 (length source) (bounds source).
Proof. apply (line_bounds_chain 0 0 false source). lia. Qed.
Lemma chain_above from total l start :
  chain from total l → start < from → List.filter (λ b, b.1 <=? start) l = [].
Proof.
  revert from. induction l as [|[s e] l IH]; [done|]. intros from (-> & Hle & Hl) H. cbn.
  destruct (Nat.leb_spec from start); [lia|]. destruct l as [|[s' e'] l]; [done|].
  destruct Hl as [He Hl]. apply (IH s' Hl). lia.
Qed.
Lemma chain_lookup k l b from total : chain from total l → l !! k = Some b → from <= b.1.
Proof.
  revert l from. induction k as [|k IH]; intros [|[s e] l] from; try done; intros (-> & Hle & Hl).
  - by intros [= <-].
  - destruct l as [|[s' e'] l]; [done|]. destruct Hl as [Hlt Hl]. intros Hk%(IH _ _ Hl). lia.
Qed.
(** The line that [partition_point] finds: it begins before the start, and the lines before it
    are over there. *)
Lemma chain_find from total l start :
  chain from total l → from <= start →
  let k := length (List.filter (λ b, b.1 <=? start) l) - 1 in
  (∃ s, s <= start ∧ chain s total (drop k l) ∧ ∀ b, drop k l !! 1 = Some b → start < b.1) ∧
  ∀ i b, i < k → l !! i = Some b → b.2 < start.
Proof.
  revert from. induction l as [|[s e] l IH]; [done|]. intros from (-> & Hle & Hl) H.
  cbn [List.filter fst]. destruct (Nat.leb_spec from start); [|lia]. cbn [length].
  rewrite Nat.sub_succ, Nat.sub_0_r. destruct l as [|[s' e'] l].
  { cbn. split; [|intros; lia]. exists from. split; [done|]. by split. }
  destruct Hl as [He Hl]. destruct (decide (s' <= start)) as [Hs|Hs].
  - destruct (IH s' Hl Hs) as [(s2 & Hs2 & Hc & Hn) Hb].
    assert (0 < length (List.filter (λ b, b.1 <=? start) ((s', e') :: l))) as Hpos.
    { cbn. destruct (Nat.leb_spec s' start); [cbn; lia|lia]. }
    destruct (length (List.filter _ _)) as [|k] eqn:Ek; [lia|].
    rewrite Nat.sub_succ, Nat.sub_0_r in Hc, Hn, Hb. cbn [drop]. split; [by exists s2|].
    intros [|i] b Hi; cbn; [intros [= <-]; cbn; lia|]. apply Hb. lia.
  - rewrite (chain_above _ _ _ _ Hl) by lia. cbn [length drop]. split; [|intros; lia].
    exists from. split; [done|]. split; [by split|]. intros b [= <-]. cbn. lia.
Qed.

(** ** One painted piece of the source *)

(** The part of a piece that lies on a line, from where the line begins. *)
Definition clip (b : nat * nat) (x : nat * nat * Token) : option Span :=
  let '(start, end_, t) := x in
  let lo := Nat.max start b.1 in let hi := Nat.min end_ b.2 in
  if (lo <? hi)%nat then Some ((lo - b.1, hi - b.1), t) else None.
Definition added (b : option (nat * nat)) (x : nat * nat * Token) : list Span :=
  match b ≫= λ b, clip b x with Some s => [s] | None => [] end.

Lemma added_eq b start end_ t :
  added (Some b) (start, end_, t) =
    if Nat.max start b.1 <? Nat.min end_ b.2
    then [((Nat.max start b.1 - b.1, Nat.min end_ b.2 - b.1), t)] else [].
Proof. unfold added, clip. cbn [mbind option_bind]. by destruct (_ <? _). Qed.
Lemma added_over b start end_ t : end_ <= b.1 → added (Some b) (start, end_, t) = [].
Proof. intros H. rewrite added_eq. destruct (Nat.ltb_spec (start `max` b.1) (end_ `min` b.2)); [lia|done]. Qed.

Lemma push_loop_exact rest line cursor end_ t lines from total :
  chain from total rest → from <= cursor → (∀ b, rest !! 1 = Some b → cursor < b.1) →
  end_ <= total → length lines = line + length rest →
  ∃ lines', push_loop rest line cursor end_ t lines = Some lines' ∧
    ∀ i, lines' !! i = (λ spans, spans ++ (if decide (line <= i) then added (rest !! (i - line)) (cursor, end_, t)
                                          else [])) <$> lines !! i.
Proof.
  revert line cursor lines from. induction rest as [|[s e] rest IH]; [done|].
  intros line cursor lines from (-> & Hle & Hl) Hc Hn He Hlen. cbn [push_loop].
  destruct (Nat.ltb_spec cursor end_).
  2:{ exists lines. split; [done|]. intros i. destruct (lines !! i) as [x|] eqn:Ex; [|done].
      cbn [fmap option_fmap option_map]. f_equal. symmetry.
      destruct (decide (line <= i)); [|by rewrite app_nil_r].
      destruct (((from, e) :: rest) !! (i - line)) as [b|]; [rewrite added_eq|by rewrite app_nil_r].
      destruct (Nat.ltb_spec (cursor `max` b.1) (end_ `min` b.2)); [lia|by rewrite app_nil_r]. }
  set (lines1 := if cursor <? end_ `min` e then _ else _).
  assert (length lines1 = length lines) as Hlen1.
  { subst lines1. destruct (_ <? _); [apply length_alter|done]. }
  assert (∀ i, lines1 !! i = (λ spans, spans ++ (if decide (i = line) then added (Some (from, e)) (cursor, end_, t)
                                                else [])) <$> lines !! i) as H1.
  { intros i. assert (added (Some (from, e)) (cursor, end_, t) =
      if cursor <? end_ `min` e then [((cursor - from, end_ `min` e - from), t)] else []) as Ha.
    { rewrite added_eq. cbn [fst snd]. by rewrite (Nat.max_l cursor from) by lia. }
    rewrite Ha. subst lines1. destruct (_ <? _).
    - destruct (decide (i = line)) as [->|Hne]; [by rewrite list_lookup_alter_eq|].
      rewrite list_lookup_alter_ne by done.
      destruct (lines !! i); [|done]. cbn [fmap option_fmap option_map]. by rewrite app_nil_r.
    - destruct (lines !! i); [|done]. cbn [fmap option_fmap option_map].
      by destruct (decide (i = line)); rewrite app_nil_r. }
  destruct (Nat.eqb_spec (end_ `min` e) end_) as [Hend|Hend].
  - exists lines1. split; [done|]. intros i. rewrite H1. destruct (lines !! i) as [x|] eqn:Ex; [|done].
    cbn [fmap option_fmap option_map]. do 2 f_equal. destruct (decide (i = line)) as [->|Hne].
    { rewrite decide_True by done. by rewrite Nat.sub_diag. }
    destruct (decide (line <= i)) as [Hli|]; [|done].
    replace (i - line) with (S (i - S line)) by lia. cbn [lookup list_lookup].
    destruct (rest !! (i - S line)) as [b|] eqn:Eb; [|done]. symmetry. apply added_over.
    destruct rest as [|[s' e'] rest]; [done|]. destruct Hl as [He' Hl].
    pose proof (chain_lookup _ _ _ _ _ Hl Eb). lia.
  - destruct rest as [|[s' e'] rest]; [exfalso; cbn in Hl; lia|]. destruct Hl as [He' Hl].
    destruct (IH (S line) s' lines1 s' Hl ltac:(lia)) as (lines' & Hp & Hi); [|done| |].
    { intros [s2 e2] E. destruct rest as [|b2 rest]; [done|]. cbn in E. injection E as ->.
      cbn in Hl |- *. lia. }
    { rewrite Hlen1, Hlen. cbn. lia. }
    exists lines'. split; [exact Hp|]. intros i. rewrite Hi, H1.
    destruct (lines !! i) as [x|]; [|done]. cbn [fmap option_fmap option_map]. f_equal.
    rewrite <- app_assoc. f_equal.
    destruct (decide (i = line)) as [->|Hne].
    { rewrite (decide_False (P := S line <= line)), (decide_True (P := line <= line)) by lia.
      by rewrite Nat.sub_diag, app_nil_r. }
    cbn [app]. destruct (decide (S line <= i)), (decide (line <= i)); try lia; [|done].
    replace (i - line) with (S (i - S line)) by lia. cbn [lookup list_lookup].
    destruct (((s', e') :: rest) !! (i - S line)) as [b|] eqn:Eb; [|done].
    pose proof (chain_lookup _ _ _ _ _ Hl Eb). specialize (Hn _ eq_refl). cbn in Hn. rewrite !added_eq, !(Nat.max_r _ b.1) by lia. done.
Qed.

Lemma push_span_exact source lines start end_ t :
  end_ <= length source → length lines = length (bounds source) →
  ∃ lines', push_span lines (bounds source) start end_ t = Some lines' ∧
    ∀ i, lines' !! i = (λ spans, spans ++ added (bounds source !! i) (start, end_, t)) <$> lines !! i.
Proof.
  intros He Hlen. unfold push_span.
  destruct (chain_find 0 _ _ start (bounds_chain source) ltac:(lia)) as [(s & Hs & Hc & Hn) Hb].
  set (k := length _ - 1) in *.
  assert (k < length (bounds source)) as Hk.
  { destruct (decide (k < length (bounds source))); [done|]. by rewrite drop_ge in Hc by lia. }
  destruct (push_loop_exact _ k start end_ t lines _ _ Hc Hs Hn He) as (lines' & Hp & Hi).
  { rewrite Hlen, length_drop. lia. }
  exists lines'. split; [exact Hp|]. intros i. rewrite Hi.
  destruct (lines !! i) as [x|] eqn:Ex; [|done]. cbn [fmap option_fmap option_map]. do 2 f_equal.
  destruct (decide (k <= i)).
  - rewrite lookup_drop. do 2 f_equal. lia.
  - destruct (bounds source !! i) as [b|] eqn:Eb; [|done]. specialize (Hb i b ltac:(lia) Eb).
    rewrite added_eq. destruct (Nat.ltb_spec (start `max` b.1) (end_ `min` b.2)); [lia|done].
Qed.

(** ** The whole source *)

(** The pieces of the source with what they are painted as: the innermost open highlight. *)
Fixpoint painted (events : list (option HighlightEvent)) (stack : list Token)
    : option (list (nat * nat * Token)) :=
  match events with
  | [] => Some []
  | None :: _ => None
  | Some (HighlightStart h) :: events => t ← token_for h; painted events (t :: stack)
  | Some HighlightEnd :: events => painted events (tail stack)
  | Some (SourceEvent start end_) :: events =>
      rest ← painted events stack;
      Some (match stack with t :: _ => (start, end_, t) :: rest | [] => rest end)
  end.
Definition within_source (source : bytes) (e : option HighlightEvent) : Prop :=
  match e with Some (SourceEvent _ end_) => end_ <= length source | _ => True end.

Definition painted_lines (source : bytes) (pieces : list (nat * nat * Token)) : list (list Span) :=
  (λ b, omap (clip b) pieces) <$> bounds source.

Lemma omap_cons_app {A B} (f : A → option B) x l :
  omap f (x :: l) = match f x with Some y => [y] | None => [] end ++ omap f l.
Proof. cbn. by destruct (f x). Qed.

Lemma spans_loop_exact source events stack lines :
  Forall (within_source source) events → length lines = length (bounds source) →
  spans_loop (bounds source) events stack lines =
    Some ((λ pieces, zip_with (λ spans b, spans ++ omap (clip b) pieces) lines (bounds source))
            <$> painted events stack).
Proof.
  intros He. revert stack lines. induction He as [|e events Hw _ IH]; intros stack lines Hlen.
  - cbn. do 2 f_equal. apply list_eq. intros i. rewrite lookup_zip_with.
    destruct (lines !! i) as [x|] eqn:Ex; [|done]. cbn.
    destruct (lookup_lt_is_Some_2 (bounds source) i) as [b ->].
    { rewrite <- Hlen. by eapply lookup_lt_Some. }
    cbn. by rewrite app_nil_r.
  - destruct e as [[h| |start end_]|]; cbn [spans_loop painted]; [| | |done].
    + destruct (token_for h) as [t|]; [|done]. by apply IH.
    + by apply IH.
    + destruct stack as [|t stack].
      { rewrite IH by done. by destruct (painted events []). }
      destruct (push_span_exact source lines start end_ t Hw Hlen) as (lines' & -> & Hi).
      cbn [mbind option_bind].
      assert (length lines' = length lines) as Hl'.
      { apply Nat.le_antisymm; apply Nat.nlt_ge; intros Hlt.
        - destruct (lookup_lt_is_Some_2 lines' (length lines)) as [x Hx]; [lia|].
          rewrite Hi, (lookup_ge_None_2 lines) in Hx by lia. by cbn in Hx.
        - destruct (lookup_lt_is_Some_2 lines (length lines')) as [x Hx]; [lia|].
          specialize (Hi (length lines')). rewrite Hx, (lookup_ge_None_2 lines') in Hi by lia. by cbn in Hi. }
      rewrite IH by lia. destruct (painted events (t :: stack)) as [pieces|]; [|done]. cbn [fmap option_fmap option_map mbind option_bind].
      do 2 f_equal. apply list_eq. intros i. rewrite !lookup_zip_with, Hi.
      destruct (lines !! i) as [x|]; [|done]. cbn [mbind option_bind fmap option_fmap option_map].
      destruct (bounds source !! i) as [b|]; [|done]. cbn [mbind option_bind fmap option_fmap option_map].
      f_equal. rewrite omap_cons_app, <- app_assoc. done.
Qed.

Lemma spans_painted source events :
  Forall (within_source source) events →
  spans (Some events) source = Some (painted_lines source <$> painted events []).
Proof.
  intros He. unfold spans. rewrite spans_loop_exact by (done || by rewrite length_replicate).
  f_equal. destruct (painted events []) as [pieces|]; [|done]. cbn. f_equal.
  apply list_eq. intros i. rewrite lookup_zip_with. unfold painted_lines. rewrite list_lookup_fmap.
  destruct (bounds source !! i) as [b|] eqn:Eb.
  - rewrite lookup_replicate_2 by by eapply lookup_lt_Some. done.
  - by destruct (replicate _ _ !! i).
Qed.

(** C32: What highlighting gives is the painted source cut at the lines: nothing of an event that is
    an error or of an unknown kind, and otherwise for every line, without its ending, the part
    of each piece that lies on it, in order, with the kind of the innermost highlight; and no
    index of the loop is out of bounds. *)
Theorem spans_exact source events :
  Forall (within_source source) events →
  spans (Some events) source = Some (painted_lines source <$> painted events []).
Proof. exact (spans_painted source events). Qed.

Lemma line_bounds_length ls at_ cr rest :
  length (line_bounds ls at_ cr rest) = length (List.filter (λ b, bool_decide (b = LF)) rest) + 1.
Proof.
  revert ls at_ cr. induction rest as [|b rest IH]; intros ls at_ cr; [done|]. cbn [line_bounds List.filter].
  case_bool_decide; cbn [length]; by rewrite IH.
Qed.
(** The highlighter says what lies in the source it was given. *)
Definition in_source (events : bytes → option (list (option HighlightEvent))) : Prop :=
  ∀ source l, events source = Some l → Forall (within_source source) l.
Lemma spans_lines events source :
  (∀ l, events = Some l → Forall (within_source source) l) →
  match spans events source with
  | Some (Some lines) => length lines = length (List.filter (λ b, bool_decide (b = LF)) source) + 1
  | Some None => True
  | None => False
  end.
Proof.
  intros H. destruct events as [l|]; [|done]. rewrite spans_painted by by apply H.
  destruct (painted l []) as [pieces|]; [|done]. cbn. unfold painted_lines. rewrite length_fmap.
  apply line_bounds_length.
Qed.

(** A source with both kinds of endings, and a highlight over several lines. *)
Definition sample_code : bytes := bs "fn f" ++ [CR; LF] ++ bs "// x" ++ [LF; LF] ++ bs "y".
Definition sample_events : list (option HighlightEvent) :=
  [Some (HighlightStart 0); Some (SourceEvent 0 2); Some HighlightEnd; Some (SourceEvent 2 3);
   Some (HighlightStart 14); Some (SourceEvent 3 13); Some HighlightEnd].
Lemma spans_exact_witness :
  spans (Some sample_events) sample_code
  = Some (Some [[((0, 2), Keyword); ((3, 4), Comment)]; [((0, 4), Comment)]; []; [((0, 1), Comment)]]).
Proof.
  refine (eq_trans (spans_exact sample_code sample_events _) _).
  - repeat constructor; cbn; lia.
  - vm_compute. reflexivity.
Defined.
