(* ===== verification/Registry.v ===== *)
(** * Languages, themes, annotators and extensions ([crates/core/src/registry.rs],
    [crates/core/src/extension.rs])

    A provider of the code (a trait object) is a record of its operations. Reading TOML and
    running WebAssembly components are parameters ([Toml], [Wasm]); the
    program is the default build, with WebAssembly. *)

From S2P Require Import Prelude RustStr Utf8 BTree Domain Patch Overview Snapshot F32 Theme Annotation Syntax.

Definition HIGHLIGHT_LIMIT : nat := 256 * 1024.

(** The outer option of [provider_highlight] is a panic. *)
Record LanguageProvider := mkLanguageProvider {
  claim : bytes → option (bytes * N);
  provider_highlight : bytes → bytes → option (option (list (list Span)))
}.
Record ThemeSource := mkThemeSource {
  list_themes : list ThemeEntry; resolve_in : bytes → option ThemeEntry
}.
(** [run] gets what looks at the cancellation find, from the number of looks made before; a
    [None] is a panic. *)
Record Annotator := mkAnnotator {
  annotator_id : bytes;
  run_annotator : Snapshot → (nat → bool) → nat → option (result bytes (list Annotation) * nat)
}.

(** ** Extensions *)

Record Language := mkLanguage {
  lang_name : bytes; grammar : bytes; queries : bytes; lang_extensions : list bytes
}.
Record Extension := mkExtension {
  ext_id : bytes; ext_name : bytes; ext_version : bytes; ext_dir : bytes;
  ext_languages : list Language; ext_themes : list bytes; ext_annotators : list (bytes * bytes)
}.
Record Installed := mkInstalled { installed : list Extension; installed_problems : list bytes }.

(** What [extension.toml] holds. *)
Record Manifest := mkManifest {
  m_id : bytes; m_name : option bytes; m_version : option bytes; m_diffz : bytes;
  m_languages : list Language; m_themes : list bytes; m_annotators : list (bytes * bytes)
}.
Class Toml := parse_manifest : bytes → result bytes Manifest.

Definition CONTRACT : N * N := (0, 1)%N.
Definition PRIORITY : N := 10.

(** [Path::components]: what stays after empty parts and dots inside are left out. *)
Definition parts (p : bytes) : list bytes :=
  match List.filter (λ c, negb (bool_decide (c = []))) (split_on Byte.x2f p) with
  | c :: cs => c :: List.filter (λ c, negb (bool_decide (c = bs "."))) cs
  | [] => []
  end.
(** Every component is a name: no root, no dot at the front and no step up. *)
Definition all_normal (p : bytes) : bool :=
  negb (starts_with SLASH_ p)
  && forallb (λ c, negb (bool_decide (c = bs "..")) && negb (bool_decide (c = bs "."))) (parts p).

Section extensions.
Context {machine_ : Machine} {debug_ : DebugText} {path_ : PathText} {toml_ : Toml}.

Definition extension_dirs : list bytes :=
  match var_os (bs "XDG_CONFIG_HOME") with
  | Some xdg => [join_path xdg (bs "diffz/extensions")]
  | None => match var_os (bs "HOME") with
            | Some home => [join_path home (bs ".config/diffz/extensions")]
            | None => []
            end
  end.

Definition inside (dir p : bytes) : result bytes bytes :=
  if all_normal p then Ok (join_path dir p)
  else Err (bs "path " ++ path_text p ++ bs " leaves the extension").

Definition id_byte (b : byte) : bool := is_ascii_alphanumeric b || bool_decide (b ∈ [Byte.x2d; Byte.x5f]).
Definition valid_id (i : bytes) : bool := negb (bool_decide (i = [])) && forallb id_byte i.
Definition contract_of (v : bytes) : option (N * N) :=
  '(a, b) ← split_once (bs ".") v; major ← parse_u64 a; minor ← parse_u64 b; Some (major, minor).

(** [iter().map().collect()] of fallible steps: the first error ends it. *)
Fixpoint collect {A B} (g : A → result bytes B) (l : list A) : result bytes (list B) :=
  match l with
  | [] => Ok []
  | x :: l => y ← g x; ys ← collect g l; Ok (y :: ys)
  end.

Definition load_language (dir : bytes) (l : Language) : result bytes Language :=
  g ← inside dir (grammar l);
  q ← inside dir (queries l);
  Ok (mkLanguage (lang_name l) g q (to_ascii_lowercase <$> lang_extensions l)).
Definition load_annotator (dir id : bytes) (a : bytes * bytes) : result bytes (bytes * bytes) :=
  p ← inside dir a.2; Ok (id ++ bs "/" ++ a.1, p).
Definition load (dir : bytes) : result bytes Extension :=
  text ← read_to_string (join_path dir (bs "extension.toml"));
  m ← map_err (λ e, bs "extension.toml: " ++ e) (parse_manifest text);
  if negb (valid_id (m_id m)) then Err (bs "invalid id " ++ debug_text (m_id m))
  else
    v ← ok_or (contract_of (m_diffz m)) (bs "invalid diffz version " ++ debug_text (m_diffz m));
    if negb (v.1 =? CONTRACT.1)%N || (CONTRACT.2 <? v.2)%N
    then Err (bs "needs extension contract " ++ m_diffz m ++ bs ", this diffz provides "
              ++ dec CONTRACT.1 ++ bs "." ++ dec CONTRACT.2)
    else
      languages ← collect (load_language dir) (m_languages m);
      themes ← collect (inside dir) (m_themes m);
      annotators ← collect (load_annotator dir (m_id m)) (m_annotators m);
      Ok (mkExtension (m_id m) (default (m_id m) (m_name m)) (default [] (m_version m)) dir
            languages themes annotators).

(** One folder of a directory of extensions. *)
Definition discover_folder (found : Installed) (folder : bytes) : Installed :=
  if negb (is_file (join_path folder (bs "extension.toml"))) then found
  else
    match load folder with
    | Ok e =>
        if bool_decide (ext_id e ∈ ext_id <$> installed found)
        then mkInstalled (installed found)
               (installed_problems found ++ [path_text folder ++ bs ": duplicate id " ++ ext_id e])
        else mkInstalled (installed found ++ [e]) (installed_problems found)
    | Err e =>
        mkInstalled (installed found) (installed_problems found ++ [path_text folder ++ bs ": " ++ e])
    end.
Definition path_le (a b : bytes) : Prop := lex_lt b a = false.
#[local] Instance path_le_dec a b : Decision (path_le a b) := decide (_ = _).
Definition discover (dirs : list bytes) : Installed :=
  foldl (λ found dir,
    match read_dir dir with
    | Some names => foldl discover_folder found (merge_sort path_le (join_path dir <$> names))
    | None => found
    end) (mkInstalled [] []) dirs.

(** The language an extension claims: the last extension of the last component. *)
Definition extension_claim (l : Language) (path : bytes) : option (bytes * N) :=
  name ← last (split_on Byte.x2f path);
  '(_, ext) ← rsplit_once (bs ".") name;
  if bool_decide (to_ascii_lowercase ext ∈ lang_extensions l) then Some (lang_name l, PRIORITY) else None.

(** [ExtensionThemes]. *)
Definition label_le (a b : ThemeEntry) : Prop := lex_lt (te_label b) (te_label a) = false.
#[local] Instance label_le_dec a b : Decision (label_le a b) := decide (_ = _).
Definition extension_theme (dir : bytes) : option ThemeEntry :=
  name ← file_name dir;
  if utf8_valid name then p ← theme_file dir; Some (mkThemeEntry name name p) else None.
Definition extension_themes_list (dirs : list bytes) : list ThemeEntry :=
  merge_sort label_le (omap extension_theme dirs).
Definition ExtensionThemes (dirs : list bytes) : ThemeSource :=
  mkThemeSource (extension_themes_list dirs)
    (λ r, List.find (λ e, bool_decide (te_reference e = r)) (extension_themes_list dirs)).
Definition OmarchyCurrent : ThemeSource :=
  mkThemeSource (match omarchy_entry with Some e => [e] | None => [] end) omarchy_resolve.
Definition ThemeDirectories (dirs : list bytes) : ThemeSource :=
  mkThemeSource (directories_list dirs) (directories_resolve dirs).

(** ** The registry *)

(** Annotators compiled to WebAssembly, and whether the pool of highlighters holds one. *)
Class Wasm := {
  pooled : bool;
  code_annotator : bytes → bytes → Annotator;
  component_check : bytes * bytes → result bytes unit
}.
Context {tree_ : TreeSitter} {wasm_ : Wasm}.

Record Registry := mkRegistry {
  languages : list LanguageProvider; themes_ : list ThemeSource; extensions : list Extension;
  problems : list bytes; annotators : list Annotator; components : list (bytes * bytes)
}.

Definition DiffCheckAnnotator : Annotator := mkAnnotator DiffCheck.id DiffCheck.annotate.
Definition BuiltinGrammars : LanguageProvider :=
  mkLanguageProvider (λ path, name ← language_for_path path; Some (name, 0%N)) run_builtin.
Definition builtin : Registry :=
  mkRegistry [BuiltinGrammars] [OmarchyCurrent; ThemeDirectories theme_dirs] [] []
    [DiffCheckAnnotator] [].
Definition ExtensionLanguage (l : Language) : LanguageProvider :=
  mkLanguageProvider (extension_claim l)
    (λ _ source, wasm_highlight (lang_name l) (grammar l) (queries l) pooled source).
Definition add_extension (r : Registry) (e : Extension) : Registry :=
  mkRegistry (languages r ++ (ExtensionLanguage <$> ext_languages e)) (themes_ r)
    (extensions r ++ [e]) (problems r)
    (annotators r ++ ((λ a, code_annotator a.1 a.2) <$> ext_annotators e))
    (components r ++ ext_annotators e).
Definition add_extensions (r : Registry) (i : Installed) : Registry :=
  let r := mkRegistry (languages r) (themes_ r) (extensions r) (problems r ++ installed_problems i)
             (annotators r) (components r) in
  let r := foldl add_extension r (installed i) in
  match installed i ≫= ext_themes with
  | [] => r
  | themes => mkRegistry (languages r) (themes_ r ++ [ExtensionThemes themes]) (extensions r)
                (problems r) (annotators r) (components r)
  end.
Definition installed_registry : Registry := add_extensions builtin (discover extension_dirs).

Definition check_extensions (r : Registry) : list bytes :=
  (e ← extensions r; l ← ext_languages e;
   match compile (lang_name l) (grammar l) (queries l) with
   | Ok _ => []
   | Err m => [ext_id e ++ bs ": " ++ lang_name l ++ bs ": " ++ m]
   end)
  ++ (c ← components r;
      match component_check c with Ok _ => [] | Err m => [c.1 ++ bs ": " ++ m] end).

(** *** Annotations *)

Fixpoint keep_in_snapshot (s : Snapshot) (l : list Annotation) : option (list Annotation) :=
  match l with
  | [] => Some []
  | a :: l => b ← in_snapshot s (anchor a); rest ← keep_in_snapshot s l;
              Some (if b : bool then a :: rest else rest)
  end.
Fixpoint annotate_all (s : Snapshot) (cancelled : nat → bool) (k : nat) (l : list Annotator)
    (found : list Annotation) (problems : list bytes) : option (list Annotation * list bytes) :=
  match l with
  | [] => Some (found, problems)
  | a :: l =>
      if cancelled k then Some (found, problems)
      else
        '(r, k) ← run_annotator a s cancelled (S k);
        match r with
        | Ok list =>
            kept ← keep_in_snapshot s list;
            let dropped := length list - length kept in
            annotate_all s cancelled k l (found ++ kept)
              (if (0 <? dropped)%nat
               then problems ++ [annotator_id a ++ bs ": " ++ dec (N.of_nat dropped)
                                 ++ bs " annotations point outside this review"]
               else problems)
        | Err e => annotate_all s cancelled k l found (problems ++ [annotator_id a ++ bs ": " ++ e])
        end
  end.
Definition annotate (r : Registry) (s : Snapshot) (cancelled : nat → bool)
    : option (list Annotation * list bytes) :=
  annotate_all s cancelled 0 (annotators r) [] [].

(** *** Languages *)

(** The first provider whose claim has the highest priority. *)
Definition better (path : bytes) (best : option (LanguageProvider * bytes * N)) (p : LanguageProvider)
    : option (LanguageProvider * bytes * N) :=
  match claim p path with
  | Some (name, priority) =>
      match best with
      | Some (_, _, b) => if (b <? priority)%N then Some (p, name, priority) else best
      | None => Some (p, name, priority)
      end
  | None => best
  end.
Definition language (r : Registry) (path : bytes) : option (LanguageProvider * bytes) :=
  '(p, name, _) ← foldl (better path) None (languages r); Some (p, name).
Definition language_name (r : Registry) (path : bytes) : option bytes := snd <$> language r path.
Definition highlight (r : Registry) (path source : bytes) (cancelled : bool)
    : option (list (list Span)) :=
  let plain := replicate (length (List.filter (λ b, bool_decide (b = LF)) source) + 1) [] in
  if (HIGHLIGHT_LIMIT <? length source)%nat || cancelled then Some plain
  else match language r path with
       | Some (p, _) => default plain <$> provider_highlight p path source
       | None => Some plain
       end.

(** *** Themes *)

Definition themes (r : Registry) : list ThemeEntry :=
  foldl (λ out e, if bool_decide (te_reference e ∈ te_reference <$> out) then out else out ++ [e])
        [] (themes_ r ≫= list_themes).
Definition TILDE : bytes := bs "~".
Definition theme_at_path (reference : bytes) : option ThemeEntry :=
  path ← match strip_prefix TILDE reference with
         | Some rest =>
             home ← var_os (bs "HOME");
             Some (if bool_decide (rest = []) then home
                   else join_path home (trim_start_byte Byte.x2f rest))
         | None => Some reference
         end;
  file ← (if is_dir path then theme_file path else Some path);
  if negb (is_file file) then None
  else
    let dir := match file_name reference with
               | Some n => if bool_decide (n ∈ [bs "colors.toml"; bs "theme.toml"])
                           then parent_of reference else reference
               | None => reference
               end in
    Some (mkThemeEntry
            match file_name dir with
            | Some n => if utf8_valid n then n else reference
            | None => reference
            end reference file).
Fixpoint first_resolved (sources : list ThemeSource) (reference : bytes) : option ThemeEntry :=
  match sources with
  | [] => None
  | s :: sources => match resolve_in s reference with
                    | Some e => Some e
                    | None => first_resolved sources reference
                    end
  end.
Definition resolve_theme (r : Registry) (reference : bytes) : option ThemeEntry :=
  if starts_with TILDE reference || contains SLASH_ reference then theme_at_path reference
  else first_resolved (themes_ r) reference.
End extensions.
