(* ===== verification/RegistryFacts.v ===== *)
(** * What extensions, annotators and languages are held to ([crates/core/src/registry.rs],
    [crates/core/src/extension.rs]) *)

From S2P Require Import Prelude RustStr Utf8 BTree Domain Patch Overview Snapshot F32 Theme Annotation Syntax SyntaxFacts Registry.

Section facts.
Context {machine_ : Machine} {debug_ : DebugText} {path_ : PathText} {toml_ : Toml}.

(** ** Extensions *)

Lemma collect_Forall2 {A B} (g : A → result bytes B) (P : A → B → Prop) l ys :
  (∀ x y, g x = Ok y → P x y) → collect g l = Ok ys → Forall2 P l ys.
Proof.
  intros Hg. revert ys. induction l as [|x l IH]; intros ys; cbn; [intros [= <-]; constructor|].
  intros (y & Hy & (zs & Hz & [= <-])%bind_Ok)%bind_Ok. constructor; eauto.
Qed.

(** [p] is a file of the directory: names below it, without a root or a step up. *)
Definition within (dir p : bytes) : Prop := ∃ rest, p = join_path dir rest ∧ all_normal rest = true.
Record extension_ok (dirs : list bytes) (e : Extension) : Prop := {
  eo_id : valid_id (ext_id e) = true;
  eo_dir : ∃ dir names name, dir ∈ dirs ∧ read_dir dir = Some names ∧ name ∈ names ∧
             ext_dir e = join_path dir name ∧
             is_file (join_path (ext_dir e) (bs "extension.toml")) = true;
  eo_languages : Forall (λ l, within (ext_dir e) (grammar l) ∧ within (ext_dir e) (queries l)) (ext_languages e);
  eo_themes : Forall (within (ext_dir e)) (ext_themes e);
  eo_annotators : Forall (λ a, (∃ own, a.1 = ext_id e ++ bs "/" ++ own) ∧ within (ext_dir e) a.2)
                    (ext_annotators e)
}.

Lemma inside_Ok dir p q : inside dir p = Ok q → within dir q.
Proof. unfold inside. destruct (all_normal p) eqn:E; [|done]. intros [= <-]. by exists p. Qed.
Lemma collect_Forall {A B} (g : A → result bytes B) (P : B → Prop) l ys :
  (∀ x y, g x = Ok y → P y) → collect g l = Ok ys → Forall P ys.
Proof. intros Hg H. by eapply (collect_Forall2 g (λ _, P)), Forall2_Forall_r in H; [|by apply Forall_true|]. Qed.

Lemma load_ok dir e :
  load dir = Ok e →
  ext_dir e = dir ∧ valid_id (ext_id e) = true ∧
  Forall (λ l, within dir (grammar l) ∧ within dir (queries l)) (ext_languages e) ∧
  Forall (within dir) (ext_themes e) ∧
  Forall (λ a, (∃ own, a.1 = ext_id e ++ bs "/" ++ own) ∧ within dir a.2) (ext_annotators e).
Proof.
  unfold load. intros (t & _ & (m & _ & H)%bind_Ok)%bind_Ok.
  destruct (valid_id (m_id m)) eqn:Ev; cbn in H; [|done].
  apply bind_Ok in H as (v & _ & H). destruct (_ || _); [done|].
  apply bind_Ok in H as (ls & Hl & (ths & Ht & (ans & Ha & [= <-])%bind_Ok)%bind_Ok). cbn.
  split_and!; [done..| | |].
  - eapply collect_Forall, Hl. intros x y Hy. unfold load_language in Hy.
    apply bind_Ok in Hy as (g & Hg & (q & Hq & [= <-])%bind_Ok). eauto using inside_Ok.
  - eapply collect_Forall, Ht. eauto using inside_Ok.
  - eapply collect_Forall, Ha. intros x y (p & Hp & [= <-])%bind_Ok. eauto using inside_Ok.
Qed.

Record found_ok (dirs : list bytes) (i : Installed) : Prop := {
  fo_each : Forall (extension_ok dirs) (installed i);
  fo_ids : NoDup (ext_id <$> installed i)
}.
Lemma discover_folder_ok dirs dir names name i :
  dir ∈ dirs → read_dir dir = Some names → name ∈ names → found_ok dirs i →
  found_ok dirs (discover_folder i (join_path dir name)).
Proof.
  intros Hd Hr Hn [He Hi]. unfold discover_folder.
  destruct (is_file _) eqn:Ef; cbn; [|done].
  destruct (load _) as [e|m] eqn:El; [|done]. case_bool_decide as Hin; [done|].
  destruct (load_ok _ _ El) as (Hdir & Hv & Hl & Ht & Ha).
  split; cbn.
  - apply Forall_app. split; [done|]. apply Forall_singleton. rewrite <- Hdir in Hl, Ht, Ha.
    split; [done| |done..]. exists dir, names, name. by rewrite Hdir.
  - rewrite fmap_app. apply NoDup_app. split_and!; [done| |apply NoDup_singleton].
    intros x Hx [= ->]%list_elem_of_singleton. done.
Qed.
Lemma discover_names_ok dirs dir names l i :
  dir ∈ dirs → read_dir dir = Some names → (∀ f, f ∈ l → ∃ name, f = join_path dir name ∧ name ∈ names) →
  found_ok dirs i → found_ok dirs (foldl discover_folder i l).
Proof.
  intros Hd Hr. revert i. induction l as [|f l IH]; intros i Hl Hi; [done|]. cbn. apply IH.
  - intros g Hg. apply Hl. by right.
  - destruct (Hl f) as (name & -> & Hn); [left|]. by eapply discover_folder_ok.
Qed.

(** C37: Whatever is on the disk, the extensions discovered are folders of the directories read,
    with an [extension.toml]; their ids are well formed and all different; the grammars,
    queries, themes and annotators they name stay inside their own folder; and an annotator
    carries the id of its extension. *)
Theorem discovered_extensions_ok dirs :
  NoDup (ext_id <$> installed (discover dirs)) ∧
  ∀ e, e ∈ installed (discover dirs) → extension_ok dirs e.
Proof.
  assert (found_ok dirs (discover dirs)) as [He Hi]; [|split; [done|by apply Forall_forall]].
  unfold discover.
  assert (∀ ds i, (∀ d, d ∈ ds → d ∈ dirs) → found_ok dirs i → found_ok dirs (foldl (λ found dir,
    match read_dir dir with
    | Some names => foldl discover_folder found (merge_sort path_le (join_path dir <$> names))
    | None => found
    end) i ds)) as H.
  { induction ds as [|d ds IH]; intros i Hds Hf; [done|]. cbn. apply IH; [set_solver|].
    destruct (read_dir d) as [names|] eqn:Er; [|done].
    eapply discover_names_ok; [apply Hds; left|done| |done]. intros f Hf'.
    rewrite merge_sort_Permutation in Hf'. apply list_elem_of_fmap in Hf' as (n & -> & Hn). eauto. }
  apply H; [done|]. split; [constructor|apply NoDup_nil_2].
Qed.

(** ** Annotations *)

Context {tree_ : TreeSitter} {wasm_ : Wasm}.

Definition anchored (s : Snapshot) (a : Annotation) : bool :=
  match in_snapshot s (anchor a) with Some b => b | None => false end.
Lemma keep_in_snapshot_filter s l kept :
  keep_in_snapshot s l = Some kept → kept = List.filter (anchored s) l.
Proof.
  revert kept. induction l as [|a l IH]; intros kept; cbn; [by intros [= <-]|].
  unfold anchored at 1. destruct (in_snapshot s (anchor a)) as [b|]; [|done]. cbn.
  destruct (keep_in_snapshot s l) as [rest|]; [|done]. cbn. intros [= <-].
  rewrite (IH rest eq_refl). by destruct b.
Qed.
(** What one annotator adds: the annotations kept, and a line about what went wrong. *)
Definition contributes (s : Snapshot) (a : Annotator) (r : result bytes (list Annotation))
    (kept : list Annotation) (lines : list bytes) : Prop :=
  match r with
  | Ok list =>
      kept = List.filter (anchored s) list ∧
      lines = (if decide (length kept = length list) then []
               else [annotator_id a ++ bs ": " ++ dec (N.of_nat (length list - length kept))
                     ++ bs " annotations point outside this review"])
  | Err e => kept = [] ∧ lines = [annotator_id a ++ bs ": " ++ e]
  end.
Lemma annotate_all_parts s cancelled k l found problems found' problems' :
  (∀ j, cancelled j = false) →
  annotate_all s cancelled k l found problems = Some (found', problems') →
  ∃ ps, Forall2 (λ a p, ∃ r j j', run_annotator a s cancelled j = Some (r, j') ∧
                         contributes s a r p.1 p.2) l ps ∧
        found' = found ++ mjoin (fst <$> ps) ∧ problems' = problems ++ mjoin (snd <$> ps).
Proof.
  intros Hc. revert k found problems. induction l as [|a l IH]; intros k found problems.
  { intros [= <- <-]. exists []. by rewrite !app_nil_r. }
  cbn [annotate_all]. rewrite Hc. destruct (run_annotator a s cancelled (S k)) as [[r j]|] eqn:Er; [|done].
  cbn [mbind option_bind]. destruct r as [list|e].
  - destruct (keep_in_snapshot s list) as [kept|] eqn:Ek; [|done]. cbn [mbind option_bind].
    apply keep_in_snapshot_filter in Ek. assert (length kept <= length list)%nat as Hle.
    { rewrite Ek. apply List.filter_length_le. }
    destruct (Nat.ltb_spec 0 (length list - length kept)) as [Hd|Hd]; intros (ps & Hps & -> & ->)%IH.
    + eexists ((kept, [_]) :: ps). split_and!; [|by rewrite <- app_assoc|by rewrite <- app_assoc].
      constructor; [|done]. exists (Ok list), (S k), j. split; [done|].
      split; [done|]. by rewrite decide_False by (cbn; lia).
    + exists ((kept, []) :: ps). split_and!; [|by rewrite <- app_assoc|done].
      constructor; [|done]. exists (Ok list), (S k), j. split; [done|].
      split; [done|]. by rewrite decide_True by (cbn; lia).
  - intros (ps & Hps & -> & ->)%IH. eexists (([], [_]) :: ps).
    split_and!; [|done|by rewrite <- app_assoc]. constructor; [|done]. by exists (Err e), (S k), j.
Qed.

(** Unless it is cancelled, the registry runs every annotator, in order, whatever another one
    answered: it keeps exactly the annotations that lie inside the review, in the order they
    were made, and reports an annotator that failed or pointed outside. *)
Theorem annotate_runs_all r s cancelled found problems :
  (∀ j, cancelled j = false) →
  annotate r s cancelled = Some (found, problems) →
  (∃ ps, Forall2 (λ a p, ∃ answer j j', run_annotator a s cancelled j = Some (answer, j') ∧
                           contributes s a answer p.1 p.2) (annotators r) ps ∧
         found = mjoin (fst <$> ps) ∧ problems = mjoin (snd <$> ps)) ∧
  ∀ a, a ∈ found → in_snapshot s (anchor a) = Some true.
Proof.
  intros Hc H. apply annotate_all_parts in H as (ps & Hps & -> & ->); [|done].
  split; [by exists ps|]. intros a Ha.
  apply list_elem_of_join in Ha as (l & Ha & Hl). apply list_elem_of_fmap in Hl as ([kept ls] & -> & Hp).
  apply list_elem_of_lookup in Hp as [i Hi].
  destruct (Forall2_lookup_r _ _ _ _ _ Hps Hi) as (x & _ & answer & _ & _ & _ & Hx).
  destruct answer as [list|e]; destruct Hx as [Hk _]; cbn [fst] in Hk, Ha; subst kept;
    [|by apply not_elem_of_nil in Ha].
  apply list_elem_of_In, filter_In in Ha as [_ Ha].
  unfold anchored in Ha. by destruct (in_snapshot s (anchor a)) as [[]|].
Qed.

(** ** Languages *)

Definition claims (path : bytes) (p : LanguageProvider) (n : N) : Prop := ∃ name, claim p path = Some (name, n).
(** [p] is the first of the providers that claims with the highest priority. *)
Definition first_highest (path : bytes) (l : list LanguageProvider) (p : LanguageProvider)
    (name : bytes) (n : N) : Prop :=
  ∃ i, l !! i = Some p ∧ claim p path = Some (name, n) ∧
       ∀ j q m, l !! j = Some q → claims path q m → (m <= n)%N ∧ ((j < i)%nat → (m < n)%N).
Definition nobody (path : bytes) (l : list LanguageProvider) : Prop :=
  ∀ p, p ∈ l → claim p path = None.
Definition best_of (path : bytes) (l : list LanguageProvider)
    (b : option (LanguageProvider * bytes * N)) : Prop :=
  match b with Some (p, name, n) => first_highest path l p name n | None => nobody path l end.

Lemma better_best path l b p : best_of path l b → best_of path (l ++ [p]) (better path b p).
Proof.
  intros Hb. unfold better.
  assert (∀ j q, (l ++ [p]) !! j = Some q → (l !! j = Some q) ∨ (j = length l ∧ q = p)) as Hsplit.
  { intros j q [H|[Hj H]]%lookup_app_Some; [by left|]. right.
    apply list_lookup_singleton_Some in H as [? <-]. split; [lia|done]. }
  destruct (claim p path) as [[name n]|] eqn:Ec.
  - assert (∀ m, claims path p m → m = n) as Hp by (intros m [? H]; congruence).
    assert ((l ++ [p]) !! length l = Some p) as Hl by by apply list_lookup_middle.
    destruct b as [[[q name'] n']|]; cbn in Hb |- *.
    + destruct Hb as (i & Hi & Hq & Hm). destruct (N.ltb_spec n' n).
      * exists (length l). split_and!; [done..|]. intros j o m [Hj|[-> ->]]%Hsplit Ho.
        -- destruct (Hm j o m Hj Ho). lia.
        -- apply Hp in Ho. lia.
      * exists i. split_and!; [by apply lookup_app_l_Some|done|].
        intros j o m [Hj|[-> ->]]%Hsplit Ho; [by eapply Hm|].
        apply Hp in Ho. apply lookup_lt_Some in Hi. lia.
    + exists (length l). split_and!; [done..|]. intros j o m [Hj|[-> ->]]%Hsplit Ho.
      * destruct Ho as [name2 Ho]. rewrite (Hb o) in Ho; [done|]. by eapply list_elem_of_lookup_2.
      * apply Hp in Ho. lia.
  - assert (∀ m, ¬ claims path p m) as Hp by (intros m [? H]; congruence).
    destruct b as [[[q name'] n']|]; cbn in Hb |- *.
    + destruct Hb as (i & Hi & Hq & Hm). exists i. split_and!; [by apply lookup_app_l_Some|done|].
      intros j o m [Hj|[-> ->]]%Hsplit Ho; [by eapply Hm|]. by apply Hp in Ho.
    + intros o [Ho|Ho%list_elem_of_singleton]%elem_of_app; [by apply Hb|]. by subst.
Qed.
Lemma better_all path l : best_of path l (foldl (better path) None l).
Proof.
  induction l as [|p l IH] using rev_ind; [by intros p H%not_elem_of_nil|].
  rewrite foldl_app. cbn. by apply better_best.
Qed.

(** The language of a path is what the first provider with the highest priority claims, so an
    extension takes over a built-in language only with a higher priority; and no language is
    found only where no provider claims the path. *)
Theorem language_first_highest r path :
  match language r path with
  | Some (p, name) => ∃ n, first_highest path (languages r) p name n
  | None => nobody path (languages r)
  end.
Proof.
  unfold language. pose proof (better_all path (languages r)) as H.
  destruct (foldl _ _ _) as [[[p name] n]|]; [by exists n|done].
Qed.

(** A provider that the program makes. *)
Definition own_provider (p : LanguageProvider) : Prop :=
  p = BuiltinGrammars ∨ ∃ l, p = ExtensionLanguage l.
(** Highlighting always answers, with one list of spans for every line of the source, however
    it was ended: by its size, a cancellation, an error of the highlighter, an extension whose
    grammar does not compile, or spans. *)
Theorem highlight_every_line r path source cancelled :
  Forall own_provider (languages r) →
  (∀ name, in_source (builtin_events name)) → (∀ config, in_source (events_of config)) →
  ∃ lines, highlight r path source cancelled = Some lines ∧
           length lines = length (List.filter (λ b, bool_decide (b = LF)) source) + 1.
Proof.
  intros Hp Hb He. unfold highlight.
  set (plain := replicate _ _).
  assert (length plain = length (List.filter (λ b, bool_decide (b = LF)) source) + 1) as Hplain
    by apply length_replicate.
  destruct (_ || _); [by exists plain|].
  pose proof (better_all path (languages r)) as Hl. unfold language.
  destruct (foldl _ _ _) as [[[p name] n]|]; [|by exists plain]. cbn [mbind option_bind].
  assert (match provider_highlight p path source with
          | Some (Some lines) => length lines = length (List.filter (λ b, bool_decide (b = LF)) source) + 1
          | Some None => True | None => False end) as H.
  { destruct Hl as (i & Hi & _). rewrite Forall_lookup in Hp.
    destruct (Hp i p Hi) as [->|[l ->]]; cbn [provider_highlight BuiltinGrammars ExtensionLanguage].
    - unfold run_builtin. destruct (language_for_path path) as [g|]; [|done].
      apply spans_lines. intros l. apply Hb.
    - unfold wasm_highlight. destruct (compile _ _ _) as [config|]; [|done].
      destruct (_ || _); [|done]. apply spans_lines. intros l'. apply He. }
  destruct (provider_highlight p path source) as [[lines|]|]; [by exists lines|by exists plain|done].
Qed.

(** ** Themes *)

Lemma themes_nodup r : NoDup (te_reference <$> themes r).
Proof.
  unfold themes. generalize (themes_ r ≫= list_themes). intros l.
  assert (∀ out, NoDup (te_reference <$> out) → NoDup (te_reference <$> foldl (λ out e,
    if bool_decide (te_reference e ∈ te_reference <$> out) then out else out ++ [e]) out l)) as H.
  { induction l as [|e l IH]; intros out Ho; [done|]. cbn. apply IH. case_bool_decide as Hin; [done|].
    rewrite fmap_app. apply NoDup_app. split_and!; [done| |apply NoDup_singleton].
    intros x Hx [= ->]%list_elem_of_singleton. done. }
  apply H, NoDup_nil_2.
Qed.
End facts.

(** ** A sample *)

(** The built-in check, an annotator that points outside of the review and one that fails. *)
Definition stray : Annotation :=
  mkAnnotation (AtLines (bs "f") Right 9 9) Severity.Note (bs "stray") None (bs "other").
Definition sample_registry : Registry :=
  mkRegistry [] [] [] []
    [DiffCheckAnnotator; mkAnnotator (bs "other") (λ _ _ k, Some (Ok [stray], k));
     mkAnnotator (bs "broken") (λ _ _ k, Some (Err (bs "no"), k))] [].
Definition sample_problems : list bytes :=
  [bs "other: 1 annotations point outside this review"; bs "broken: no"].

Lemma annotate_runs_all_witness :
  annotate sample_registry flawed_snapshot (λ _, false) = Some (flawed_found, sample_problems) ∧
  ∀ a, a ∈ flawed_found → in_snapshot flawed_snapshot (anchor a) = Some true.
Proof.
  assert (annotate sample_registry flawed_snapshot (λ _, false) = Some (flawed_found, sample_problems)) as H
    by by vm_compute.
  split; [exact H|]. apply (annotate_runs_all _ _ _ _ _ ltac:(done) H).
Defined.

#[local] Instance sample_machine : Machine := {|
  is_file _ := false; is_dir _ := false; read_to_string _ := Err []; read_dir _ := None; var_os _ := None
|}.
#[local] Instance sample_paths : PathText := λ p, p.
#[local] Instance sample_tree : TreeSitter := {|
  Grammar := unit; Configuration := unit; builtin_events _ source := Some [Some (SourceEvent 0 (length source))];
  events_of _ _ := None; read_file _ := Err []; new_store := Ok tt; set_wasm_store := true;
  load_grammar _ _ := Ok tt; new_configuration _ _ _ _ _ := Ok tt
|}.
#[local] Instance sample_wasm : Wasm := {|
  pooled := false; code_annotator id _ := mkAnnotator id (λ _ _ k, Some (Ok [], k)); component_check _ := Ok tt
|}.
Definition two_languages : Registry :=
  mkRegistry [BuiltinGrammars; ExtensionLanguage (mkLanguage (bs "rust") (bs "g") (bs "q") [bs "rs"])]
    [] [] [] [] [].
Lemma highlight_every_line_witness :
  language_name two_languages (bs "src/a.RS") = Some (bs "rust") ∧
  ∃ lines, highlight two_languages (bs "a.py") (bs "x") false = Some lines ∧ length lines = 1.
Proof.
  split; [vm_compute; reflexivity|].
  refine (highlight_every_line two_languages (bs "a.py") (bs "x") false _ _ _).
  - constructor; [by left|]. constructor; [right; by eexists|constructor].
  - intros name source l [= <-]. repeat constructor; cbn; lia.
  - intros config source l [=].
Defined.
