(* ===== verification/Session.v ===== *)
(** * Review sessions ([crates/core/src/session.rs], [anchor.rs], and the drafts of
    [domain.rs])

    [reduce] is the event handler; a run of a session is [reduce] over a list of events. *)

From S2P Require Import Prelude RustStr Domain Patch BTree Overview Snapshot F32.

(** ** Anchors (anchor.rs) *)

Record ViewportAnchor := mkViewportAnchor {
  point : SourcePoint; viewport_y : f32; horizontal : f32
}.
Inductive NavigationReason :=
| NavOpen | NavFile | NavHunk | NavFind | NavThread | NavRestore | AcceptRevision | UserCollapse.

(** [NavigationClock]: a [u64] that wraps around. *)
Definition generation (clock : N) : N := clock.
Definition user_input (clock : N) : N := ((clock + 1) mod (u64_max + 1))%N.
Definition accepts (clock g : N) : bool := (clock =? g)%N.

(** [None] where [clamp] panics. *)
Definition restore_scroll (a : ViewportAnchor) (source_y content viewport : f32)
    : option (result bytes f32) :=
  if existsb (λ v, negb (is_finite v)) [viewport_y a; source_y; content; viewport]
     || (content <? f32_zero)%f32 || (viewport <? f32_zero)%f32
  then Some (Err (bs "invalid measured geometry"))
  else Ok <$> f32_clamp (source_y - viewport_y a)%f32 f32_zero
                (f32_max (content - viewport)%f32 f32_zero).

(** ** Drafts (domain.rs) *)

Notation DraftId := bytes (only parsing).

Record Draft := mkDraft {
  draft_id : DraftId; draft_snapshot : SnapshotId; draft_file : FileId; draft_side : Side;
  draft_start_line : N; draft_line : N; draft_file_level : bool;
  draft_body : bytes; version : N; saved_version : N; published : bool
}.
Definition is_saved (d : Draft) : bool := (version d =? saved_version d)%N.
Definition is_file_level (d : Draft) : bool := draft_file_level d.
Definition set_body (b : bytes) (v : N) (d : Draft) : Draft :=
  mkDraft (draft_id d) (draft_snapshot d) (draft_file d) (draft_side d) (draft_start_line d)
    (draft_line d) (draft_file_level d) b v (saved_version d) (published d).
Definition set_saved (v : N) (d : Draft) : Draft :=
  mkDraft (draft_id d) (draft_snapshot d) (draft_file d) (draft_side d) (draft_start_line d)
    (draft_line d) (draft_file_level d) (draft_body d) (version d) v (published d).

(** The new draft, and whether it changed. *)
Definition edit_draft (d : Draft) (b : bytes) : result bytes (Draft * bool) :=
  if published d || bool_decide (draft_body d = b) then Ok (d, false)
  else
    next ← ok_or (if (version d + 1 <=? u64_max)%N then Some (version d + 1)%N else None)
                 (bs "draft revision overflow");
    Ok (set_body b next d, true).
Definition acknowledge_save (d : Draft) (v : N) : Draft :=
  if (v <=? version d)%N then set_saved (N.max (saved_version d) v) d else d.

(** ** Sessions *)

Record Session := mkSession {
  session_snapshot : Snapshot;
  selected_file : option FileId;
  drafts : btree Draft;
  viewed : btree bool;
  anchors : btree ViewportAnchor;
  revision_offer : option bytes;
  last_error : option bytes
}.

Module Event.
Inductive Event :=
| SelectFile (id : FileId)
| Navigate (p : SourcePoint) (reason : NavigationReason)
| EditDraft (id : DraftId) (body : bytes)
| DraftSaved (id : DraftId) (version : N)
| RevisionOffered (current : SnapshotId) (head : bytes)
| StoreFailed (message : bytes)
| SaveAnchor (a : ViewportAnchor).
End Event.
Notation Event := Event.Event.

Module Effect.
Inductive Effect :=
| PersistDraft (d : Draft)
| Navigate (p : SourcePoint) (reason : NavigationReason)
| PersistPreferences.
End Effect.
Notation Effect := Effect.Effect.

Definition Session_new (s : Snapshot) : Session :=
  mkSession s (file_id <$> hd_error (files (patch s))) [] [] [] None None.

Definition set_drafts (m : btree Draft) (s : Session) : Session :=
  mkSession (session_snapshot s) (selected_file s) m (viewed s) (anchors s) (revision_offer s)
    (last_error s).
Definition set_error (e : bytes) (s : Session) : Session :=
  mkSession (session_snapshot s) (selected_file s) (drafts s) (viewed s) (anchors s)
    (revision_offer s) (Some e).

Definition reduce (s : Session) (e : Event) : Session * list Effect :=
  match e with
  | Event.SelectFile id =>
      match file (session_snapshot s) id with
      | Some _ => (mkSession (session_snapshot s) (Some id) (drafts s) (viewed s) (anchors s)
                     (revision_offer s) (last_error s), [])
      | None => (s, [])
      end
  | Event.Navigate p reason =>
      (s, if is_ok (validate_point (session_snapshot s) p)
          then [Effect.Navigate p reason] else [])
  | Event.EditDraft id body =>
      match get id (drafts s) with
      | None => (s, [])
      | Some d =>
          match edit_draft d body with
          | Ok (d', true) => (set_drafts (insert_key id d' (drafts s)) s, [Effect.PersistDraft d'])
          | Ok (_, false) => (s, [])
          | Err m => (set_error m s, [])
          end
      end
  | Event.DraftSaved id v =>
      match get id (drafts s) with
      | Some d => (set_drafts (insert_key id (acknowledge_save d v) (drafts s)) s, [])
      | None => (s, [])
      end
  | Event.RevisionOffered current head =>
      if bool_decide (current = id (session_snapshot s))
         && match remote (session_snapshot s) with
            | Some r => negb (bool_decide (Snapshot.head r = head))
            | None => false
            end
      then (mkSession (session_snapshot s) (selected_file s) (drafts s) (viewed s) (anchors s)
              (Some head) (last_error s), [])
      else (s, [])
  | Event.StoreFailed message => (set_error message s, [])
  | Event.SaveAnchor a =>
      ((if bool_decide (snapshot (point a) = id (session_snapshot s))
        then mkSession (session_snapshot s) (selected_file s) (drafts s) (viewed s)
               (insert_key (file_of (point a)) a (anchors s)) (revision_offer s) (last_error s)
        else s), [Effect.PersistPreferences])
  end.

(** A run: the events in order, with the effects in the order they are asked for. *)
Fixpoint run (s : Session) (es : list Event) : Session * list Effect :=
  match es with
  | [] => (s, [])
  | e :: es' =>
      let '(s1, f1) := reduce s e in
      let '(s2, f2) := run s1 es' in (s2, f1 ++ f2)
  end.

(** ** Scroll positions *)

(** A restored scroll position lies between the top and the last position that fills
    the viewport, for every anchor and every measured geometry, and restoring never
    panics: only geometry that is not finite or negative is refused. *)
Theorem restore_scroll_in_bounds a source_y content viewport :
  match restore_scroll a source_y content viewport with
  | None => False
  | Some (Ok y) =>
      (f32_zero <=? y)%f32 = true ∧ (y <=? f32_max (content - viewport) f32_zero)%f32 = true
  | Some (Err _) =>
      Exists (λ v, is_finite v = false) [viewport_y a; source_y; content; viewport] ∨
      (content <? f32_zero)%f32 = true ∨ (viewport <? f32_zero)%f32 = true
  end.
Proof.
  unfold restore_scroll. cbn [existsb].
  destruct (is_finite (viewport_y a)) eqn:E1, (is_finite source_y) eqn:E2,
    (is_finite content) eqn:E3, (is_finite viewport) eqn:E4; cbn [negb orb];
    try (left; rewrite !Exists_cons; by tauto).
  destruct (content <? f32_zero)%f32 eqn:E5; [by right; left|].
  destruct (viewport <? f32_zero)%f32 eqn:E6; [by right; right|]. cbn [orb].
  pose proof (sub_no_nan _ _ E3 E4) as H1. pose proof (sub_no_nan _ _ E2 E1) as H2.
  pose proof (le_max_r _ f32_zero H1 eq_refl) as H3.
  destruct (f32_clamp _ _ _) as [y|] eqn:Ec; cbn.
  - eapply clamp_bounds; [exact H2|reflexivity|by apply f32_max_nan|exact Ec].
  - unfold f32_clamp in Ec. by rewrite H3 in Ec.
Qed.

(** A generation taken before some input is not accepted after it, up to a full turn of
    the clock. *)
Lemma clock_rejects_stale clock k :
  (clock <= u64_max)%N → (0 < k)%nat → (N.of_nat k <= u64_max)%N →
  accepts (Nat.iter k user_input clock) clock = false.
Proof.
  intros Hc Hk Hmax. apply N.eqb_neq.
  assert (Nat.iter k user_input clock = (clock + N.of_nat k) mod (u64_max + 1))%N as ->.
  { clear Hk. induction k as [|k IH]; [cbn; rewrite N.mod_small by lia; lia|].
    rewrite Nat.iter_succ, IH by lia. unfold user_input.
    rewrite N.Div0.add_mod_idemp_l. f_equal. lia. }
  destruct (decide (clock + N.of_nat k <= u64_max)%N) as [Hle|Hgt].
  - rewrite N.mod_small by lia. lia.
  - assert ((clock + N.of_nat k) mod (u64_max + 1) = clock + N.of_nat k - (u64_max + 1))%N as ->.
    { symmetry. apply (N.mod_unique _ _ 1); lia. }
    lia.
Qed.
