(* ===== verification/SessionFacts.v ===== *)
(** * Sessions: what any sequence of events can do to drafts *)

From S2P Require Import Prelude RustStr Domain Patch PatchFacts BTree Overview Snapshot F32.
From S2P Require Import Session.

(** A draft of a session: under its own key, saved no further than written. *)
Definition draft_ok (k : bytes) (d : Draft) : Prop :=
  draft_id d = k ∧ (saved_version d <= version d <= u64_max)%N.
Record session_ok (s : Session) : Prop := {
  so_drafts k d : get k (drafts s) = Some d → draft_ok k d;
  so_selected k : selected_file s = Some k → is_Some (file (session_snapshot s) k)
}.

(** The drafts [k] that a list of effects asks to be stored. *)
Definition persisted (k : bytes) (fx : list Effect) : list Draft :=
  omap (λ e, match e with
             | Effect.PersistDraft d => if bool_decide (draft_id d = k) then Some d else None
             | _ => None
             end) fx.

Lemma persisted_app k f1 f2 : persisted k (f1 ++ f2) = persisted k f1 ++ persisted k f2.
Proof. apply omap_app. Qed.

(** What one event does to the draft [k]. *)
Inductive draft_step (k : bytes) (d : Draft) : Event → Draft → list Draft → Prop :=
| step_other e :
    (∀ b, e = Event.EditDraft k b →
       published d = true ∨ b = draft_body d ∨ (u64_max < version d + 1)%N) →
    draft_step k d e d []
| step_ack v : (v <= version d)%N →
    draft_step k d (Event.DraftSaved k v) (set_saved (N.max (saved_version d) v) d) []
| step_edit b : published d = false → (version d + 1 <= u64_max)%N → b ≠ draft_body d →
    draft_step k d (Event.EditDraft k b) (set_body b (version d + 1) d)
      [set_body b (version d + 1) d].

Lemma draft_step_ok k d e d' ps : draft_ok k d → draft_step k d e d' ps → draft_ok k d'.
Proof. intros [Hid Hv] [e' _|v Hle|b Hp Hmax Hb]; split; cbn; try done; lia. Qed.
(** An event that edits no draft, or another one. *)
Lemma step_unedited k d e : (∀ b, e ≠ Event.EditDraft k b) → draft_step k d e d [].
Proof. intros H. apply step_other. intros b Hb. by apply H in Hb. Qed.

Lemma edit_draft_spec d b :
  edit_draft d b =
  if published d || bool_decide (draft_body d = b) then Ok (d, false)
  else if (version d + 1 <=? u64_max)%N then Ok (set_body b (version d + 1) d, true)
  else Err (bs "draft revision overflow").
Proof.
  unfold edit_draft. destruct (published d || _); [done|].
  by destruct (version d + 1 <=? u64_max)%N.
Qed.

Lemma reduce_draft s e s' fx k d :
  session_ok s → reduce s e = (s', fx) → get k (drafts s) = Some d →
  ∃ d', get k (drafts s') = Some d' ∧ draft_step k d e d' (persisted k fx).
Proof.
  intros [Hok _] He Hd. destruct e as [i|p r|i b|i v|c h|m|a]; cbn in He.
  - destruct (file _ i); injection He as <- <-; (exists d; split; [done|by apply step_unedited]).
  - injection He as <- <-. exists d. split; [done|]. destruct (is_ok _); by apply step_unedited.
  - destruct (get i (drafts s)) as [d1|] eqn:E.
    2:{ injection He as <- <-. exists d. split; [done|]. apply step_unedited. intros b' [= -> _]. congruence. }
    rewrite edit_draft_spec in He.
    destruct (published d1) eqn:Ep; cbn [orb] in He.
    { injection He as <- <-. exists d. split; [done|]. apply step_other. intros b' [= -> <-]. left. congruence. }
    destruct (decide (draft_body d1 = b)) as [Hb|Hb].
    { rewrite bool_decide_true in He by done. injection He as <- <-. exists d. split; [done|].
      apply step_other. intros b' [= -> <-]. right. left. congruence. }
    rewrite bool_decide_false in He by done.
    destruct (version d1 + 1 <=? u64_max)%N eqn:Ev; injection He as <- <-.
    2:{ exists d. split; [done|]. apply step_other. intros b' [= -> <-]. right. right. to_prop.
        rewrite E in Hd. injection Hd as ->. lia. }
    to_prop. cbn. rewrite get_insert. pose proof (Hok _ _ E) as [Hid _].
    destruct (decide (k = i)) as [->|Hne].
    + rewrite !bool_decide_true by done. rewrite E in Hd. injection Hd as ->.
      eexists. split; [done|]. by apply step_edit.
    + rewrite !bool_decide_false by congruence. exists d. split; [done|]. apply step_unedited. intros b' [= ->]. done.
  - destruct (get i (drafts s)) as [d1|] eqn:E; injection He as <- <-.
    2:{ exists d. split; [done|by apply step_unedited]. }
    cbn. rewrite get_insert. destruct (decide (k = i)) as [->|Hne].
    + rewrite bool_decide_true by done. rewrite E in Hd. injection Hd as ->.
      eexists. split; [done|]. unfold acknowledge_save.
      destruct (v <=? version d)%N eqn:Ev; to_prop; [by apply step_ack|by apply step_unedited].
    + rewrite bool_decide_false by done. exists d. split; [done|by apply step_unedited].
  - case_if; injection He as <- <-; (exists d; split; [done|by apply step_unedited]).
  - injection He as <- <-. exists d. split; [done|by apply step_unedited].
  - injection He as <- <-. exists d. split; [by case_if|by apply step_unedited].
Qed.

(** No event makes a draft. *)
Lemma reduce_no_draft s e s' fx k :
  reduce s e = (s', fx) → get k (drafts s) = None → get k (drafts s') = None.
Proof.
  intros He Hk. destruct e as [i|p r|i b|i v|c h|m|a]; cbn in He;
    repeat case_match; simplify_eq; try done; cbn; rewrite get_insert;
    (rewrite bool_decide_false; [done|congruence]).
Qed.

Lemma reduce_ok s e s' fx :
  session_ok s → reduce s e = (s', fx) →
  session_ok s' ∧ session_snapshot s' = session_snapshot s.
Proof.
  intros Hs He.
  assert (session_snapshot s' = session_snapshot s) as Hsnap.
  { destruct e; cbn in He; repeat case_match; by simplify_eq. }
  split; [|done]. split.
  - intros k d' Hd'. destruct (get k (drafts s)) as [d|] eqn:E.
    + destruct (reduce_draft _ _ _ _ _ _ Hs He E) as (d2 & Hd2 & Hstep).
      rewrite Hd' in Hd2. injection Hd2 as <-.
      eapply draft_step_ok; [by apply (so_drafts _ Hs)|exact Hstep].
    + pose proof (reduce_no_draft _ _ _ _ _ He E). congruence.
  - rewrite Hsnap. intros k Hk.
    assert (selected_file s' = selected_file s ∨ is_Some (file (session_snapshot s) k)) as [Heq|?].
    { destruct e; cbn in He; repeat case_match; simplify_eq; auto. right. cbn in Hk.
      injection Hk as ->. eauto. }
    + apply (so_selected _ Hs). congruence.
    + done.
Qed.

Lemma Session_new_ok s : session_ok (Session_new s).
Proof.
  split; [done|]. cbn. unfold file. intros k. destruct (files (patch s)) as [|f fs]; [done|].
  intros [= <-]. cbn. rewrite bool_decide_true by done. by eexists.
Qed.

(** What a run does to the draft [k], whose stores it asked for are [ps]. *)
Record draft_run (k : bytes) (es : list Event) (d : Draft) (ps : list Draft) (d' : Draft)
    : Prop := {
  dr_ok : draft_ok k d';
  dr_versions : StronglySorted (λ a b, (version a < version b)%N) (d :: ps);
  dr_last : version (default d (last ps)) = version d' ∧
            draft_body (default d (last ps)) = draft_body d';
  dr_published : published d' = published d ∧ (published d = true → ps = []);
  dr_saved : saved_version d' = saved_version d ∨ Event.DraftSaved k (saved_version d') ∈ es
}.

Lemma draft_run_step k e es d d1 ps1 ps d' :
  draft_ok k d → draft_step k d e d1 ps1 → draft_run k es d1 ps d' →
  draft_run k (e :: es) d (ps1 ++ ps) d'.
Proof.
  intros Hd Hstep [Hok Hv Hl Hp Hs]. apply StronglySorted_inv in Hv as [Hv Hf].
  destruct Hstep as [e|v Hle|b Hpub Hmax Hb]; cbn [app].
  - split; [done|by constructor|done|done|]. destruct Hs; [by left|right; by right].
  - cbn in *. split; [done|by constructor|by destruct (last ps)|done|].
    destruct Hs as [Hs|Hs]; [|right; by right].
    destruct (decide (v <= saved_version d)%N).
    + left. rewrite Hs. lia.
    + right. rewrite Hs, N.max_r by lia. by left.
  - split; [done| | | |].
    + constructor; [by constructor|]. constructor; [cbn; lia|].
      eapply Forall_impl; [exact Hf|]. cbn. intros x. lia.
    + rewrite last_cons. by destruct (last ps).
    + split; [apply Hp|congruence].
    + destruct Hs; [by left|right; by right].
Qed.

Lemma run_draft s es s' fx k d :
  session_ok s → run s es = (s', fx) → get k (drafts s) = Some d →
  session_ok s' ∧ session_snapshot s' = session_snapshot s ∧
  ∃ d', get k (drafts s') = Some d' ∧ draft_run k es d (persisted k fx) d'.
Proof.
  revert s fx d. induction es as [|e es IH]; intros s fx d Hs Hrun Hd.
  - injection Hrun as <- <-. split_and!; [done..|]. exists d. split; [done|].
    pose proof (so_drafts _ Hs _ _ Hd) as Hok. split; [done|repeat constructor|done|done|by left].
  - cbn [run] in Hrun. destruct (reduce s e) as [s1 f1] eqn:E1.
    destruct (run s1 es) as [s2 f2] eqn:E2. injection Hrun as <- <-.
    pose proof (reduce_ok _ _ _ _ Hs E1) as [Hs1 Hsnap].
    destruct (reduce_draft _ _ _ _ _ _ Hs E1 Hd) as (d1 & Hd1 & Hstep).
    destruct (IH _ _ _ Hs1 E2 Hd1) as (Hs2 & Hsnap2 & d2 & Hd2 & Hrun2).
    split_and!; [done|congruence|]. exists d2. split; [done|].
    rewrite persisted_app. eapply draft_run_step; [|done..]. by apply (so_drafts _ Hs).
Qed.

(** The texts typed into the draft [k], in order. *)
Definition typed (k : bytes) (es : list Event) : list bytes :=
  omap (λ e, match e with
             | Event.EditDraft i b => if bool_decide (i = k) then Some b else None
             | _ => None
             end) es.
(** Each text that differs from the one before gets the next version, while versions last. *)
Fixpoint stores (v : N) (text : bytes) (bodies : list bytes) : list (N * bytes) :=
  match bodies with
  | [] => []
  | b :: rest =>
      if bool_decide (b = text) || negb (v + 1 <=? u64_max)%N then stores v text rest
      else ((v + 1)%N, b) :: stores (v + 1) b rest
  end.
Definition stamp (d : Draft) : N * bytes := (version d, draft_body d).

Lemma typed_cons k e es : typed k (e :: es) = typed k [e] ++ typed k es.
Proof. by apply (omap_app _ [e]). Qed.
Lemma step_stores k d e d1 ps bodies :
  draft_step k d e d1 ps →
  published d1 = published d ∧
  (published d = false →
     stores (version d) (draft_body d) (typed k [e] ++ bodies)
     = (stamp <$> ps) ++ stores (version d1) (draft_body d1) bodies).
Proof.
  intros [e' He|v Hle|b Hp Hmax Hb]; (split; [done|]); intros Hpub.
  - destruct e' as [i|p r|i b|i v|c h|m|a]; try done. cbn. case_bool_decide as Hi; [|done]. subst i.
    destruct (He b eq_refl) as [H|[H|H]]; [congruence| |]; cbn [app stores].
    + by rewrite bool_decide_true.
    + rewrite (proj2 (N.leb_gt _ _)) by lia. by rewrite orb_true_r.
  - done.
  - cbn. rewrite (bool_decide_true (k = k)) by done. cbn [app stores].
    rewrite bool_decide_false by done. by rewrite (proj2 (N.leb_le _ _) Hmax).
Qed.
Lemma run_stores s es s' fx k d :
  session_ok s → run s es = (s', fx) → get k (drafts s) = Some d → published d = false →
  stamp <$> persisted k fx = stores (version d) (draft_body d) (typed k es).
Proof.
  revert s fx d. induction es as [|e es IH]; intros s fx d Hs Hrun Hd Hp; [by injection Hrun as <- <-|].
  cbn [run] in Hrun. destruct (reduce s e) as [s1 f1] eqn:E1.
  destruct (run s1 es) as [s2 f2] eqn:E2. injection Hrun as <- <-.
  pose proof (reduce_ok _ _ _ _ Hs E1) as [Hs1 _].
  destruct (reduce_draft _ _ _ _ _ _ Hs E1 Hd) as (d1 & Hd1 & Hstep).
  destruct (step_stores _ _ _ _ _ (typed k es) Hstep) as [Hp1 Hst].
  rewrite persisted_app, fmap_app, typed_cons, Hst by done. f_equal. apply (IH s1); [done|done|done|congruence].
Qed.

(** C23: No edit of a draft is lost and none is stored twice. In any run of a session the stores
    asked for an unpublished draft are exactly the texts typed into it, in order, without those that
    change nothing, each with the next version while versions last; their versions grow strictly, the
    last one has the version and the text the session ends with, a published draft is never stored
    again, and the session's own invariant and snapshot are kept. *)
Theorem run_persists_every_edit s es s' fx k d :
  session_ok s → run s es = (s', fx) → get k (drafts s) = Some d →
  session_ok s' ∧ session_snapshot s' = session_snapshot s ∧
  ∃ d', get k (drafts s') = Some d' ∧
    stamp <$> persisted k fx
      = (if published d then [] else stores (version d) (draft_body d) (typed k es)) ∧
    StronglySorted (λ a b, (version a < version b)%N) (d :: persisted k fx) ∧
    version (default d (last (persisted k fx))) = version d' ∧
    draft_body (default d (last (persisted k fx))) = draft_body d' ∧
    published d' = published d.
Proof.
  intros Hs Hrun Hd. destruct (run_draft _ _ _ _ _ _ Hs Hrun Hd) as (Hs' & Hsn & d' & Hd' & Hr).
  split_and!; [done..|]. exists d'. destruct Hr as [_ Hv [Hl1 Hl2] [Hp1 Hp2] _].
  split_and!; try done. destruct (published d) eqn:Ep; [by rewrite Hp2|exact (run_stores _ _ _ _ _ _ Hs Hrun Hd Ep)].
Qed.

(** A draft counts as saved only when its current text is stored: if it is saved at the
    end of a run, either a store of its current version was acknowledged, or it was
    saved at the start and has not been edited since. A late acknowledgement of an
    older version does not make it saved. *)
Theorem saved_means_acknowledged s es s' fx k d d' :
  session_ok s → run s es = (s', fx) → get k (drafts s) = Some d →
  get k (drafts s') = Some d' → is_saved d' = true →
  Event.DraftSaved k (version d') ∈ es ∨
  (is_saved d = true ∧ persisted k fx = [] ∧ draft_body d' = draft_body d).
Proof.
  intros Hs Hrun Hd Hd' Hsaved. unfold is_saved in *. to_prop.
  destruct (run_draft _ _ _ _ _ _ Hs Hrun Hd) as (_ & _ & d2 & Hd2 & Hr).
  rewrite Hd' in Hd2. injection Hd2 as <-. destruct Hr as [_ Hv [Hl1 Hl2] _ [Heq|Hin]].
  2:{ left. by rewrite Hsaved. }
  right. pose proof (so_drafts _ Hs _ _ Hd) as [_ Hdv].
  apply StronglySorted_inv in Hv as [_ Hf].
  destruct (last (persisted k fx)) as [p|] eqn:E; cbn in *.
  - apply last_Some_elem_of in E. rewrite Forall_forall in Hf. specialize (Hf _ E). lia.
  - apply last_None in E. split_and!; [apply N.eqb_eq; lia|done|done].
Qed.

(** ** Witnesses *)

Definition sample_draft : Draft :=
  mkDraft (bs "d") (bs "s") [] Right 7 7 false (bs "old") 3 3 false.
Definition sample_session : Session :=
  set_drafts [(bs "d", sample_draft)]
    (Session_new (mkSnapshot (bs "s") [] [] (mkPatchReport [sample_file]) None []
                    default_overview [])).
Definition sample_events : list Event :=
  [Event.EditDraft (bs "d") (bs "new"); Event.DraftSaved (bs "d") 3;
   Event.EditDraft (bs "d") (bs "newer"); Event.DraftSaved (bs "d") 5].

Lemma sample_session_ok : session_ok sample_session.
Proof.
  split.
  - intros k d. cbn. case_bool_decide; [|done]. intros [= <-]. subst.
    split; [done|]. cbn. split; vm_compute; discriminate.
  - intros k [= <-]. vm_compute. by eexists.
Qed.

Example run_persists_every_edit_witness :
  let '(s', fx) := run sample_session sample_events in
  session_ok s' ∧ session_snapshot s' = session_snapshot sample_session ∧
  ∃ d', get (bs "d") (drafts s') = Some d' ∧
    stamp <$> persisted (bs "d") fx = [(4%N, bs "new"); (5%N, bs "newer")] ∧
    StronglySorted (λ a b, (version a < version b)%N) (sample_draft :: persisted (bs "d") fx) ∧
    version (default sample_draft (last (persisted (bs "d") fx))) = version d' ∧
    draft_body (default sample_draft (last (persisted (bs "d") fx))) = draft_body d' ∧
    published d' = published sample_draft.
Proof.
  exact (run_persists_every_edit sample_session sample_events _ _ (bs "d") sample_draft
           sample_session_ok eq_refl eq_refl).
Defined.

Example saved_means_acknowledged_witness :
  let '(s', fx) := run sample_session sample_events in
  ∃ d', get (bs "d") (drafts s') = Some d' ∧ is_saved d' = true ∧
  (Event.DraftSaved (bs "d") (version d') ∈ sample_events ∨
   (is_saved sample_draft = true ∧ persisted (bs "d") fx = [] ∧
    draft_body d' = draft_body sample_draft)).
Proof.
  eexists. split; [reflexivity|]. split; [reflexivity|].
  exact (saved_means_acknowledged sample_session sample_events _ _ (bs "d") sample_draft _
           sample_session_ok eq_refl eq_refl eq_refl eq_refl).
Defined.
