(* ===== verification/Review.v ===== *)
(** * Reviews ([crates/core/src/review.rs], the rules interface of [provider.rs])

    [ReviewRules] is the interface every provider implements; what a client may rely on
    is [ReviewRulesLaws]. The JSON encoder behind the fingerprint is a parameter. *)

From S2P Require Import Prelude RustStr Utf8 Domain Patch BTree Overview Snapshot F32 Session.

(** ** Data *)

Module Verdict.
Inductive Verdict := Approve | RequestChanges | Comment.
Definition api (v : Verdict) : bytes :=
  match v with
  | Approve => bs "APPROVE" | RequestChanges => bs "REQUEST_CHANGES" | Comment => bs "COMMENT"
  end.
Definition remote_state (v : Verdict) : bytes :=
  match v with
  | Approve => bs "APPROVED" | RequestChanges => bs "CHANGES_REQUESTED"
  | Comment => bs "COMMENTED"
  end.
#[export] Instance Verdict_eq_dec : EqDecision Verdict.
Proof. solve_decision. Defined.
End Verdict.
Notation Verdict := Verdict.Verdict.
#[export] Existing Instance Verdict.Verdict_eq_dec.

#[export] Instance CompareRefs_eq_dec : EqDecision CompareRefs.
Proof. solve_decision. Defined.
#[export] Instance EntireTarget_eq_dec : EqDecision EntireTarget.
Proof. solve_decision. Defined.
#[export] Instance RemoteTarget_eq_dec : EqDecision RemoteTarget.
Proof. solve_decision. Defined.

Notation OperationId := bytes (only parsing).

Record PreparedComment := mkPreparedComment {
  pc_draft : DraftId; pc_version : N; pc_path : bytes; pc_position : option bytes;
  pc_body : bytes; pc_side : Side; pc_start_line : N; pc_line : N; pc_file_level : bool
}.
Record PreparedReview := mkPreparedReview {
  op_id : OperationId; op_snapshot : SnapshotId; target : RemoteTarget; verdict : Verdict;
  summary : bytes; prepared_comments : list PreparedComment; fingerprint : bytes
}.
Definition set_fingerprint (x : bytes) (p : PreparedReview) : PreparedReview :=
  mkPreparedReview (op_id p) (op_snapshot p) (target p) (verdict p) (summary p)
    (prepared_comments p) x.

(** A [ReviewError], or the panic of [FileChange::path]. *)
Inductive ReviewFailure := ReviewError (m : bytes) | Panic.
Notation fail m := (Err (ReviewError m)).

(** ** The rules of a provider *)

Record ReviewRules := mkReviewRules {
  rules_id : bytes;
  read_only_reason : option bytes;
  check : Verdict → bytes → list Draft → result bytes unit;
  position : RemoteTarget → FileChange → Draft → result bytes (option bytes);
  payload : PreparedReview → bytes;
  marks_reviews : bool
}.
(** The payload is made before the fingerprint, which it goes into. *)
Class ReviewRulesLaws (rules : ReviewRules) : Prop :=
  payload_without_fingerprint x p : payload rules (set_fingerprint x p) = payload rules p.

(** [serde_json::to_vec] of the fingerprinted fields. *)
Class ReviewJson :=
  review_json : OperationId → SnapshotId → RemoteTarget → bytes → list (DraftId * N) → bytes.

Definition draft_versions (p : PreparedReview) : list (DraftId * N) :=
  (λ c, (pc_draft c, pc_version c)) <$> prepared_comments p.
Definition compute_fingerprint `{Sha256} `{ReviewJson} (rules : ReviewRules)
    (p : PreparedReview) : bytes :=
  digest [bs "review-v1";
          review_json (op_id p) (op_snapshot p) (target p) (payload rules p) (draft_versions p)].
Definition verify `{Sha256} `{ReviewJson} (p : PreparedReview) (rules : ReviewRules) : bool :=
  bool_decide (rules_id rules = provider (target p))
  && bool_decide (fingerprint p = compute_fingerprint rules p).

(** ** Preparing a review *)

Definition max_text : N := 64 * 1024.
Definition is_blank (s : bytes) : bool := bool_decide (trim s = []).

(** The loop over the drafts, one draft: [ids] are the drafts so far. *)
Definition prepare_comment (rules : ReviewRules) (s : Snapshot) (t : RemoteTarget)
    (ids : gset bytes) (d : Draft) : result ReviewFailure PreparedComment :=
  if bool_decide (draft_id d ∈ ids) then fail (bs "duplicate local draft")
  else if negb (bool_decide (draft_snapshot d = id s)) || published d
  then fail (bs "draft targets another revision or has already been published")
  else if negb (is_saved d) then fail (bs "save every selected draft before continuing")
  else if is_blank (draft_body d) || (max_text <? lenN (draft_body d))%N
  then fail (bs "empty or oversized draft body")
  else
    f ← ok_or (file s (draft_file d))
          (ReviewError (bs "draft file is absent from this snapshot"));
    if negb (is_file_level d)
       && negb (eligible f (draft_side d) (draft_start_line d) (draft_line d))
    then fail (bs "comment range must remain inside one canonical provider hunk for posting")
    else
      p ← ok_or (path f) Panic;
      path ← map_err ReviewError (RepoPath.utf8 p);
      pos ← map_err ReviewError (position rules t f d);
      Ok (mkPreparedComment (draft_id d) (version d) path pos (draft_body d) (draft_side d)
            (draft_start_line d) (draft_line d) (is_file_level d)).
Fixpoint prepare_comments (rules : ReviewRules) (s : Snapshot) (t : RemoteTarget)
    (ids : gset bytes) (ds : list Draft) : result ReviewFailure (list PreparedComment) :=
  match ds with
  | [] => Ok []
  | d :: ds' =>
      c ← prepare_comment rules s t ids d;
      cs ← prepare_comments rules s t ({[draft_id d]} ∪ ids) ds';
      Ok (c :: cs)
  end.

Definition prepare `{Sha256} `{SourceJson} `{ReviewJson} (rules : ReviewRules) (i : OperationId)
    (s : Snapshot) (ds : list Draft) (v : Verdict) (sum : bytes)
    : result ReviewFailure PreparedReview :=
  t ← ok_or (remote s)
        (ReviewError (bs "offline source; a hosted review target is required"));
  if negb (bool_decide (rules_id rules = provider t))
  then fail (bs "this review belongs to another provider")
  else match read_only_reason rules with
  | Some reason => fail reason
  | None =>
  if negb (bool_decide (compare t = None))
  then fail (bs "a compare is read-only; reviews can only be sent on a pull or merge request")
  else
    _ ← map_err ReviewError (check rules v sum ds);
    if negb (verify_identity s) then fail (bs "snapshot identity failed verification")
    else if negb (bool_decide (warnings s = []))
    then fail (bs "coverage warnings mean the snapshot is incomplete; inspect diagnostics first")
    else if negb (open t) then fail (bs "pull request is not open")
    else if pending_review t
    then fail (bs "another pending review exists; handle it separately")
    else if negb (bool_decide (v = Verdict.Approve)) && is_blank sum
    then fail (bs "this verdict needs a summary")
    else if (max_text <? lenN sum)%N || (100 <? lenN ds)%N
    then fail (bs "summary or batch is beyond safety limits")
    else
      cs ← prepare_comments rules s t ∅ ds;
      let p := mkPreparedReview i (id s) t v sum cs [] in
      Ok (set_fingerprint (compute_fingerprint rules p) p)
  end.

(** ** Outbox states *)

Module OutboxState.
Inductive OutboxState := Prepared | InFlight | Confirmed | Rejected | UnknownOutcome.
#[export] Instance OutboxState_eq_dec : EqDecision OutboxState.
Proof. solve_decision. Defined.
Definition as_str (s : OutboxState) : bytes :=
  match s with
  | Prepared => bs "prepared" | InFlight => bs "in_flight" | Confirmed => bs "confirmed"
  | Rejected => bs "rejected" | UnknownOutcome => bs "unknown"
  end.
Definition parse (s : bytes) : option OutboxState :=
  if bool_decide (s = bs "prepared") then Some Prepared
  else if bool_decide (s = bs "in_flight") then Some InFlight
  else if bool_decide (s = bs "confirmed") then Some Confirmed
  else if bool_decide (s = bs "rejected") then Some Rejected
  else if bool_decide (s = bs "unknown") then Some UnknownOutcome
  else None.
Definition can_transition (from to : OutboxState) : bool :=
  match from, to with
  | Prepared, InFlight | Prepared, Rejected | InFlight, Confirmed | InFlight, Rejected
  | InFlight, UnknownOutcome | UnknownOutcome, Confirmed => true
  | _, _ => false
  end.
End OutboxState.
Notation OutboxState := OutboxState.OutboxState.
#[export] Existing Instance OutboxState.OutboxState_eq_dec.

Record OutboxEntry := mkOutboxEntry {
  prepared : PreparedReview; state : OutboxState; baseline_review_ids : list N;
  remote_id : option N; diagnostic : option bytes
}.

Lemma parse_as_str s x : OutboxState.parse s = Some x ↔ s = OutboxState.as_str x.
Proof.
  unfold OutboxState.parse. split.
  - intros H. repeat case_bool_decide; simplify_eq; done.
  - intros ->. by destruct x.
Qed.
