(* ===== verification/ReviewFacts.v ===== *)
(** * Reviews: what is prepared, what a fingerprint binds, where operations can go *)

From S2P Require Import Prelude RustStr Utf8 Domain Patch PatchFacts BTree Overview Snapshot.
From S2P Require Import SnapshotFacts F32 Session SessionFacts Review.

(** ** Preparing *)

(** A draft that may be sent, and the comment it becomes. *)
Record comment_of (rules : ReviewRules) (s : Snapshot) (t : RemoteTarget) (d : Draft)
    (c : PreparedComment) : Prop := {
  co_snapshot : draft_snapshot d = id s;
  co_unpublished : published d = false;
  co_saved : is_saved d = true;
  co_text : is_blank (draft_body d) = false ∧ (lenN (draft_body d) <= max_text)%N;
  co_file : ∃ f p pos,
    file s (draft_file d) = Some f ∧
    (is_file_level d = true ∨
     eligible f (draft_side d) (draft_start_line d) (draft_line d) = true) ∧
    path f = Some p ∧ utf8_valid (RepoPath.path_bytes p) = true ∧
    position rules t f d = Ok pos ∧
    c = mkPreparedComment (draft_id d) (version d) (RepoPath.path_bytes p) pos (draft_body d)
          (draft_side d) (draft_start_line d) (draft_line d) (is_file_level d)
}.

(** What else a review needs. *)
Record reviewable `{Sha256, SourceJson} (rules : ReviewRules) (s : Snapshot) (t : RemoteTarget)
    (ds : list Draft) (v : Verdict) (sum : bytes) : Prop := {
  rv_remote : remote s = Some t;
  rv_provider : rules_id rules = provider t;
  rv_writable : read_only_reason rules = None ∧ compare t = None;
  rv_check : check rules v sum ds = Ok tt;
  rv_complete : verify_identity s = true ∧ warnings s = [];
  rv_open : open t = true ∧ pending_review t = false;
  rv_summary : (v = Verdict.Approve ∨ is_blank sum = false) ∧ (lenN sum <= max_text)%N;
  rv_drafts : (lenN ds <= 100)%N ∧ NoDup (draft_id <$> ds)
}.

(** Passes a check that refuses when its condition holds. *)
Tactic Notation "pass" hyp(H) "as" ident(name) :=
  match type of H with (if ?b then _ else _) = Ok _ => destruct b eqn:name; [discriminate H|] end.

Lemma map_err_Ok_iff {E F A} (g : E → F) (m : result E A) a : map_err g m = Ok a ↔ m = Ok a.
Proof. destruct m; cbn; naive_solver. Qed.

Lemma utf8_path_Ok p x :
  RepoPath.utf8 p = Ok x ↔ utf8_valid (RepoPath.path_bytes p) = true ∧ x = RepoPath.path_bytes p.
Proof. unfold RepoPath.utf8. destruct (utf8_valid _); naive_solver. Qed.

Lemma prepare_comment_Ok rules s t ids d c :
  prepare_comment rules s t ids d = Ok c ↔ draft_id d ∉ ids ∧ comment_of rules s t d c.
Proof.
  unfold prepare_comment.
  destruct (decide (draft_id d ∈ ids)) as [Hin|Hin].
  { rewrite bool_decide_true by done. naive_solver. }
  rewrite (bool_decide_false (_ ∈ _)) by done.
  destruct (decide (draft_snapshot d = id s)) as [Hs|Hs].
  2:{ rewrite bool_decide_false by done. split; [done|]. by intros [_ []]. }
  rewrite bool_decide_true by done. cbn [negb orb].
  destruct (published d) eqn:Hp; [split; [done|]; intros [_ []]; congruence|].
  destruct (is_saved d) eqn:Hsv; cbn [negb]; [|split; [done|]; intros [_ []]; congruence].
  destruct (is_blank (draft_body d)) eqn:Hb; cbn [orb].
  { split; [done|]. intros [_ [_ _ _ [? _] _]]. congruence. }
  destruct (max_text <? lenN (draft_body d))%N eqn:Hm; to_prop.
  { split; [done|]. intros [_ [_ _ _ [_ ?] _]]. lia. }
  rewrite bind_Ok. setoid_rewrite ok_or_Ok. split.
  - intros (f & Hf & H). split; [done|]. split; try done.
    destruct (negb (is_file_level d) && _) eqn:E; [done|].
    apply bind_Ok in H as (p & Hpath%ok_or_Ok & H).
    apply bind_Ok in H as (x & (Hu & ->)%map_err_Ok_iff%utf8_path_Ok & H).
    apply bind_Ok in H as (pos & Hpos%map_err_Ok_iff & [= <-]).
    exists f, p, pos. split_and!; try done.
    apply andb_false_iff in E as [E%negb_false_iff|E%negb_false_iff]; tauto.
  - intros (_ & [_ _ _ _ (f & p & pos & Hf & He & Hpath & Hu & Hpos & ->)]).
    exists f. split; [done|].
    assert (negb (is_file_level d)
            && negb (eligible f (draft_side d) (draft_start_line d) (draft_line d)) = false) as ->.
    { destruct He as [-> | ->]; [done|]. by rewrite andb_false_r. }
    rewrite Hpath. cbn. unfold RepoPath.utf8. rewrite Hu. cbn. by rewrite Hpos.
Qed.

Lemma prepare_comments_Ok rules s t ids ds cs :
  prepare_comments rules s t ids ds = Ok cs ↔
  NoDup (draft_id <$> ds) ∧ (∀ d, d ∈ ds → draft_id d ∉ ids) ∧ Forall2 (comment_of rules s t) ds cs.
Proof.
  revert ids cs. induction ds as [|d ds IH]; intros ids cs; cbn [prepare_comments].
  - split.
    + intros [= <-]. split_and!; [constructor| |constructor]. by intros d ?%not_elem_of_nil.
    + intros (_ & _ & H). by inversion H.
  - rewrite bind_Ok. setoid_rewrite bind_Ok. setoid_rewrite prepare_comment_Ok.
    setoid_rewrite IH. rewrite fmap_cons, NoDup_cons. split.
    + intros (c & (Hd & Hc) & cs' & (Hnd & Hids & Hcs) & [= <-]). split_and!; [|done| |].
      * intros (d' & Heq & Hin)%list_elem_of_fmap. apply (Hids d' Hin). rewrite <- Heq. set_solver.
      * intros d' [->|Hin]%elem_of_cons; [done|]. specialize (Hids d' Hin). set_solver.
      * by constructor.
    + intros ((Hnin & Hnd) & Hids & H). inversion H as [|? c ? cs' Hc Hcs]; subst.
      exists c. split; [split; [apply Hids; by left|done]|].
      exists cs'. split_and!; try done. intros d' Hin.
      rewrite not_elem_of_union, not_elem_of_singleton. split; [|apply Hids; by right].
      intros Heq. apply Hnin. rewrite <- Heq. by apply list_elem_of_fmap_2.
Qed.

Definition review_of `{Sha256, ReviewJson} (rules : ReviewRules) (i : OperationId) (s : Snapshot)
    (t : RemoteTarget) (v : Verdict) (sum : bytes) (cs : list PreparedComment) : PreparedReview :=
  let p := mkPreparedReview i (id s) t v sum cs [] in
  set_fingerprint (compute_fingerprint rules p) p.

Lemma prepare_spec `{Sha256, SourceJson, ReviewJson} rules i s ds v sum p :
  prepare rules i s ds v sum = Ok p ↔
  ∃ t cs, reviewable rules s t ds v sum ∧ Forall2 (comment_of rules s t) ds cs ∧
          p = review_of rules i s t v sum cs.
Proof.
  unfold prepare. rewrite bind_Ok. setoid_rewrite ok_or_Ok. split.
  - intros (t & Ht & H'). pass H' as Hp. destruct (read_only_reason rules) eqn:Hr; [done|].
    pass H' as Hcmp. apply bind_Ok in H' as (u & Hcheck%map_err_Ok_iff & H'). destruct u.
    pass H' as Hv. pass H' as Hw. pass H' as Ho. pass H' as Hpr. pass H' as Hsum. pass H' as Hlim.
    apply bind_Ok in H' as (cs & (Hnd & _ & Hcs)%prepare_comments_Ok & [= <-]).
    apply negb_false_iff in Hp, Hcmp, Hv, Hw, Ho. apply bool_decide_eq_true in Hp, Hcmp, Hw.
    assert (v = Verdict.Approve ∨ is_blank sum = false) as Hs.
    { destruct (decide (v = Verdict.Approve)) as [|Hne]; [by left|].
      rewrite bool_decide_false in Hsum by done. by right. }
    apply orb_false_iff in Hlim as [Hl1%N.ltb_ge Hl2%N.ltb_ge].
    exists t, cs. split_and!; [|done|done]. by split.
  - intros (t & cs & [Ht Hp [Hr Hcmp] Hc [Hv Hw] [Ho Hpr] [Hs1 Hs2] [Hd1 Hd2]] & Hcs & ->).
    exists t. split; [done|]. rewrite bool_decide_true, Hr by done. cbn [negb].
    rewrite bool_decide_true, Hc by done. cbn [negb map_err mbind result_bind].
    rewrite Hv, Ho, Hpr, bool_decide_true by done. cbn [negb].
    assert (negb (bool_decide (v = Verdict.Approve)) && is_blank sum = false) as ->.
    { destruct Hs1 as [-> | ->]; [done|by rewrite andb_false_r]. }
    rewrite !(proj2 (N.ltb_ge _ _)) by done. cbn [orb].
    assert (prepare_comments rules s t ∅ ds = Ok cs) as ->; [|done].
    apply prepare_comments_Ok. split_and!; [done| |done]. set_solver.
Qed.

(** C22: a review is prepared exactly when everything it needs holds, and it holds exactly
    the given drafts: the target is hosted, writable, open, of this provider and not a
    compare; the snapshot is verified and complete; summary and batch are inside the
    limits; and each draft, once, belongs to this snapshot, is saved, unpublished, not
    blank and lies on a file or inside one hunk with a path the provider can take. *)
Theorem prepare_Ok_iff `{Sha256, SourceJson, ReviewJson} rules i s ds v sum p :
  prepare rules i s ds v sum = Ok p ↔
  ∃ t cs, reviewable rules s t ds v sum ∧ Forall2 (comment_of rules s t) ds cs ∧
          p = review_of rules i s t v sum cs.
Proof. apply prepare_spec. Qed.

Lemma review_of_verifies `{Sha256, ReviewJson} rules `{!ReviewRulesLaws rules} i s t v sum cs :
  rules_id rules = provider t → verify (review_of rules i s t v sum cs) rules = true.
Proof.
  intros Hp. unfold verify, review_of. cbv zeta. cbn [target set_fingerprint].
  rewrite bool_decide_true by done. cbn [andb]. apply bool_decide_eq_true.
  unfold compute_fingerprint. by rewrite payload_without_fingerprint.
Qed.

(** ** Fingerprints *)

Class ReviewJsonLaws `{ReviewJson} : Prop :=
  review_json_inj i s t y vs i' s' t' y' vs' :
    review_json i s t y vs = review_json i' s' t' y' vs' →
    i = i' ∧ s = s' ∧ t = t' ∧ y = y' ∧ vs = vs'.

Definition fingerprint_parts `{ReviewJson} (rules : ReviewRules) (p : PreparedReview) : list bytes :=
  [bs "review-v1";
   review_json (op_id p) (op_snapshot p) (target p) (payload rules p) (draft_versions p)].

(** A fingerprint fixes the review. Two reviews that verify under the same rules with
    the same fingerprint are the same operation on the same snapshot and target, with
    the same payload and the same draft versions, unless they exhibit a SHA-256
    collision. *)
Theorem verified_fingerprint_binds `{Sha256, ReviewJsonLaws} rules p1 p2 :
  verify p1 rules = true → verify p2 rules = true → fingerprint p1 = fingerprint p2 →
  Forall part_fits (fingerprint_parts rules p1) → Forall part_fits (fingerprint_parts rules p2) →
  (op_id p1 = op_id p2 ∧ op_snapshot p1 = op_snapshot p2 ∧ target p1 = target p2 ∧
   payload rules p1 = payload rules p2 ∧ draft_versions p1 = draft_versions p2)
  ∨ ∃ x y, x ≠ y ∧ sha256 x = sha256 y.
Proof.
  unfold verify. intros [_ Hv1%bool_decide_eq_true]%andb_true_iff
    [_ Hv2%bool_decide_eq_true]%andb_true_iff Hf Hp1 Hp2.
  rewrite Hf, Hv2 in Hv1. unfold compute_fingerprint in Hv1.
  destruct (digest_collision _ _ Hp2 Hp1 Hv1) as [Heq|Hc]; [left|by right].
  injection Heq as Heq. apply review_json_inj in Heq as (-> & -> & -> & -> & ->). done.
Qed.

(** ** Operations *)

(** The states an operation goes through. *)
Inductive moves : OutboxState → list OutboxState → Prop :=
| moves_nil s : moves s []
| moves_cons s t l : OutboxState.can_transition s t = true → moves t l → moves s (t :: l).

Lemma moves_split s l1 x l2 : moves s (l1 ++ x :: l2) → moves x l2.
Proof.
  revert s. induction l1 as [|y l1 IH]; intros s Hm; inversion Hm; subst; [done|by eapply IH].
Qed.

(** How many moves a state can still make. *)
Definition moves_left (s : OutboxState) : nat :=
  match s with
  | OutboxState.Prepared => 3 | OutboxState.InFlight => 2 | OutboxState.UnknownOutcome => 1
  | OutboxState.Confirmed | OutboxState.Rejected => 0
  end.

Lemma moves_length s l : moves s l → length l <= moves_left s.
Proof. induction 1 as [s|s t l Ht _ IH]; cbn; [lia|]. destruct s, t; cbn in *; try done; lia. Qed.

Lemma moves_no_inflight s l : s ≠ OutboxState.Prepared → moves s l → OutboxState.InFlight ∉ l.
Proof.
  intros Hs Hm. induction Hm as [s|s t l' Ht Hm IH]; [apply not_elem_of_nil|].
  rewrite not_elem_of_cons. split; [by destruct s, t|]. apply IH. by destruct s, t.
Qed.

Lemma can_transition_unprepared s t :
  OutboxState.can_transition s t = true → t ≠ OutboxState.Prepared.
Proof. by destruct s, t. Qed.

(** An operation is in flight at most once, is confirmed only after that, and once
    confirmed or rejected never moves again. *)
Theorem outbox_moves_once l :
  moves OutboxState.Prepared l →
  (∀ l1 l2, l = l1 ++ OutboxState.InFlight :: l2 →
     l1 = [] ∧ OutboxState.InFlight ∉ l2 ∧ length l2 <= 2) ∧
  (OutboxState.Confirmed ∈ l → hd_error l = Some OutboxState.InFlight) ∧
  (∀ l1 x l2, l = l1 ++ x :: l2 →
     x = OutboxState.Confirmed ∨ x = OutboxState.Rejected → l2 = []).
Proof.
  intros Hm. split_and!.
  - intros l1 l2 ->. pose proof (moves_split _ _ _ _ Hm) as Hm2.
    split_and!; [|eapply moves_no_inflight; [|exact Hm2]; done|by apply moves_length in Hm2].
    destruct l1 as [|y l1]; [done|]. inversion Hm as [|? ? ? Ht Hm1]; subst.
    apply moves_no_inflight in Hm1; [|by eapply can_transition_unprepared].
    rewrite elem_of_app, elem_of_cons in Hm1. tauto.
  - intros Hc. inversion Hm as [|? t l' Ht Hm']; subst; [by apply not_elem_of_nil in Hc|].
    destruct t; try done. apply moves_length in Hm'. destruct l'; [|cbn in Hm'; lia].
    by apply list_elem_of_singleton in Hc.
  - intros l1 x l2 -> Hx. apply moves_split, moves_length in Hm.
    destruct Hx as [-> | ->]; destruct l2; cbn in Hm; [done|lia|done|lia].
Qed.

(** ** A concrete encoder and rules, for the witnesses *)

Definition repository_tuple (k : RepositoryKey) :=
  ((host k, repository_id k), (owner k, repository_name k)).
Definition compare_tuple (c : CompareRefs) := (base c, compare_head c, direct c).
Definition target_tuple (r : RemoteTarget) :=
  (((provider r, account r), (repository_tuple (repository r), pr r)),
   ((target_tip r, (comparison_base r, head r)),
    (((open r, draft r), (merged r, pending_review r)),
     (compare_tuple <$> compare r, entire_tuple <$> entire r)))).
Definition side_code (s : Side) : bool := match s with Left => true | Right => false end.

#[export] Instance repository_tuple_inj : Inj (=) (=) repository_tuple.
Proof. intros [] []. unfold repository_tuple. cbn. congruence. Qed.
#[export] Instance compare_tuple_inj : Inj (=) (=) compare_tuple.
Proof. intros [] []. unfold compare_tuple. cbn. congruence. Qed.
#[export] Instance target_tuple_inj : Inj (=) (=) target_tuple.
Proof.
  intros [p [k1 k2 k3 k4] a n t b h o d m pe c e] [p' [k1' k2' k3' k4'] a' n' t' b' h' o' d' m' pe' c' e'].
  unfold target_tuple, repository_tuple. cbn. intros Heq.
  assert (compare_tuple <$> c = compare_tuple <$> c') as Hc by congruence.
  assert (entire_tuple <$> e = entire_tuple <$> e') as He by congruence.
  apply (inj (fmap compare_tuple)) in Hc. apply (inj (fmap entire_tuple)) in He. congruence.
Qed.

Definition bits_review_json : ReviewJson := λ i s t y vs,
  pos_bytes (countable.encode ((i, s), (target_tuple t, (y, vs)))).
Lemma bits_review_json_laws : @ReviewJsonLaws bits_review_json.
Proof.
  intros i s t y vs i' s' t' y' vs' Heq. unfold review_json, bits_review_json in Heq.
  apply (inj pos_bytes), (inj countable.encode) in Heq.
  assert (target_tuple t = target_tuple t') as Ht by congruence.
  apply (inj target_tuple) in Ht. split_and!; congruence.
Qed.

Definition sample_target : RemoteTarget :=
  mkRemoteTarget ProviderId.GITHUB (mkRepositoryKey (bs "github.com") 1 (bs "o") (bs "r"))
    (bs "me") 7 (bs "tip") (bs "base") (bs "head") true false false false None None.
Definition sample_rules : ReviewRules :=
  mkReviewRules ProviderId.GITHUB None (λ _ _ _, Ok tt) (λ _ _ _, Ok None) (λ p, summary p) false.
#[export] Instance sample_rules_laws : ReviewRulesLaws sample_rules.
Proof. done. Qed.
Definition review_snapshot : Snapshot :=
  mkSnapshot (bs "s") (bs "t") (bs "o") (mkPatchReport [sample_file]) (Some sample_target) []
    default_overview [].
Definition sample_comment : PreparedComment :=
  mkPreparedComment (bs "d") 2 (bs "f") None (bs "why?") Right 7 8 false.
Definition sample_review : PreparedReview :=
  @review_of sample_sha256 bits_review_json sample_rules (bs "op") review_snapshot sample_target
    Verdict.Comment (bs "see below") [sample_comment].

(** ** Witnesses *)

Example verified_fingerprint_binds_witness :
  let sha := sample_sha256 in
  let json := bits_review_json in
  prepared_comments sample_review ≠ [] ∧
  ((op_id sample_review = op_id sample_review ∧
    op_snapshot sample_review = op_snapshot sample_review ∧
    target sample_review = target sample_review ∧
    payload sample_rules sample_review = payload sample_rules sample_review ∧
    draft_versions sample_review = draft_versions sample_review)
   ∨ ∃ x y, x ≠ y ∧ sha256 x = sha256 y).
Proof.
  split; [vm_compute; discriminate|].
  apply (@verified_fingerprint_binds sample_sha256 bits_review_json bits_review_json_laws sample_rules);
    [vm_compute; reflexivity|vm_compute; reflexivity|reflexivity|..];
    repeat constructor; vm_compute; discriminate.
Defined.

Example outbox_moves_once_witness :
  let l := [OutboxState.InFlight; OutboxState.UnknownOutcome; OutboxState.Confirmed] in
  (∀ l1 l2, l = l1 ++ OutboxState.InFlight :: l2 →
     l1 = [] ∧ OutboxState.InFlight ∉ l2 ∧ length l2 <= 2) ∧
  (OutboxState.Confirmed ∈ l → hd_error l = Some OutboxState.InFlight) ∧
  (∀ l1 x l2, l = l1 ++ x :: l2 →
     x = OutboxState.Confirmed ∨ x = OutboxState.Rejected → l2 = []).
Proof. apply outbox_moves_once. repeat (constructor; [reflexivity|]). constructor. Defined.
