(* ===== verification/Store.v ===== *)
(** * The review store ([crates/adapters/src/store.rs])

    The tables of the SQLite database hold the values their JSON encodes, keyed as the
    schema keys them; each SQL statement of the code is the function of the tables that
    it describes. A transaction that returns an error leaves the tables as they were.
    The clock [now] (SQLite's [unixepoch()]) is an argument of the operations that read it.
    Opening the database file, its lock and the settings table are not here. *)

From S2P Require Import Prelude RustStr Utf8 Domain Patch BTree Overview Snapshot F32 Session.
From S2P Require Import Review.

(** [releases_key]: the digest of the JSON of a release list (review_details.rs:32-35). *)
Class ReleasesKey := releases_key : list Release → bytes.

Record SavedView := mkSavedView {
  revision : N; review_summary : bytes; review_verdict : option Verdict;
  view_viewed : btree bool; view_anchors : btree ViewportAnchor; view_selected : option FileId
}.
Definition default_view : SavedView := mkSavedView 0 [] None [] [] None.

(** When a row of [snapshots] was last touched, and its [rowid]. *)
Record RowTime := mkRowTime { updated_at : N; rowid : N }.

Record Store := mkStore {
  t_snapshots : btree Snapshot;
  t_times : btree RowTime;
  t_blame : list (bytes * bytes * bytes * list Blamed);  (* snapshot, path, releases key *)
  t_drafts : btree Draft;
  t_views : btree SavedView;
  t_outbox : btree OutboxEntry;
  t_hidden : btree unit
}.
Definition empty_store : Store := mkStore [] [] [] [] [] [] [].
Definition set_t_drafts (m : btree Draft) (st : Store) : Store :=
  mkStore (t_snapshots st) (t_times st) (t_blame st) m (t_views st) (t_outbox st) (t_hidden st).
Definition set_t_outbox (m : btree OutboxEntry) (st : Store) : Store :=
  mkStore (t_snapshots st) (t_times st) (t_blame st) (t_drafts st) (t_views st) m (t_hidden st).

(** The error of [query_row] without a row. *)
Definition no_rows : bytes := bs "Query returned no rows".

(** ** Snapshots *)

(** The [rowid] SQLite gives a new row: one more than the largest. *)
Definition next_rowid (t : btree RowTime) : N := foldr (λ r n, N.max (rowid r.2 + 1) n) 1%N t.
(** [updated_at=unixepoch()] on the row of one snapshot, if there is one. *)
Definition touch (i : bytes) (now : N) (t : btree RowTime) : btree RowTime :=
  match get i t with
  | Some r => insert_key i (mkRowTime now (rowid r)) t
  | None => t
  end.

Definition put_snapshot `{Sha256} `{SourceJson} (s : Snapshot) (now : N) (st : Store)
    : result bytes Store :=
  if negb (verify_identity s)
  then Err (bs "snapshot identity and its source data do not agree")
  else
    let t := match get (id s) (t_times st) with
             | Some _ => touch (id s) now (t_times st)
             | None => insert_key (id s) (mkRowTime now (next_rowid (t_times st))) (t_times st)
             end in
    Ok (mkStore (insert_key (id s) s (t_snapshots st)) t
          (filter (λ r, r.1.1.1 ≠ id s) (t_blame st)) (t_drafts st) (t_views st) (t_outbox st)
          (t_hidden st)).

(** Replaces the row of one key, or adds it. *)
Definition upsert_blame (i path key : bytes) (rs : list Blamed)
    (t : list (bytes * bytes * bytes * list Blamed)) : list (bytes * bytes * bytes * list Blamed) :=
  filter (λ r, r.1 ≠ (i, path, key)) t ++ [(i, path, key, rs)].
(** The error of a row whose snapshot is not stored. *)
Definition no_snapshot : bytes := bs "FOREIGN KEY constraint failed".
Fixpoint save_blame_rows (i key : bytes) (found : BlameRead)
    (t : list (bytes * bytes * bytes * list Blamed)) : list (bytes * bytes * bytes * list Blamed) :=
  match found with
  | [] => t
  | (path, Some rs) :: found' => save_blame_rows i key found' (upsert_blame i path key rs t)
  | (_, None) :: found' => save_blame_rows i key found' t
  end.
Definition save_blame (i key : bytes) (found : BlameRead) (now : N) (st : Store)
    : result bytes Store :=
  if negb (contains_key i (t_snapshots st)) && existsb (λ p, negb (bool_decide (p.2 = None))) found
  then Err no_snapshot
  else Ok (mkStore (t_snapshots st) (touch i now (t_times st))
             (save_blame_rows i key found (t_blame st)) (t_drafts st) (t_views st) (t_outbox st)
             (t_hidden st)).

Definition stored_snapshot `{Sha256} `{SourceJson} `{ReleasesKey} (i : SnapshotId) (st : Store)
    : result bytes Snapshot :=
  s ← ok_or (get i (t_snapshots st)) no_rows;
  if negb (verify_identity s) then Err (bs "saved snapshot integrity check failed")
  else
    let key := releases_key (releases (overview s)) in
    Ok (with_blame s ((λ r, (r.1.1.2, Some r.2))
                        <$> filter (λ r, r.1.1.1 = i ∧ r.1.2 = key) (t_blame st))).

(** ** Drafts *)

Definition i64_max : N := 2 ^ 63 - 1.

(** A write of [d] over the stored draft [p]. *)
Definition check_rewrite (p d : Draft) : result bytes unit :=
  if negb (bool_decide (draft_snapshot p = draft_snapshot d))
     || negb (bool_decide (draft_file p = draft_file d))
     || negb (bool_decide (draft_side p = draft_side d))
     || negb (draft_start_line p =? draft_start_line d)%N
     || negb (draft_line p =? draft_line d)%N || published p
  then Err (bs "a draft's source identity and published state cannot be rewritten")
  else if (version d <? version p)%N
  then Err (bs "the draft write is stale; the newer text remains stored")
  else if (version p =? version d)%N && negb (bool_decide (draft_body p = draft_body d))
  then Err (bs "draft text differs for the existing version")
  else Ok tt.

Definition save_draft `{Sha256} `{SourceJson} `{ReleasesKey} (d : Draft) (st : Store)
    : result bytes (N * Store) :=
  if (version d =? 0)%N || (i64_max <? version d)%N || (1024 * 1024 <? lenN (draft_body d))%N
  then Err (bs "draft metadata fails version or size checks")
  else
    s ← stored_snapshot (draft_snapshot d) st;
    f ← ok_or (file s (draft_file d)) (bs "draft file is absent");
    if negb (is_file_level d)
       && negb (eligible f (draft_side d) (draft_start_line d) (draft_line d))
    then Err (bs "the draft range does not exist in the frozen patch")
    else
      _ ← match get (draft_id d) (t_drafts st) with
          | Some p => check_rewrite p d
          | None => Ok tt
          end;
      if published d
      then Err (bs "only confirmed outbox evidence may mark a draft published")
      else Ok (version d,
               set_t_drafts (insert_key (draft_id d) (set_saved (version d) d) (t_drafts st)) st).

Definition discard_draft (i : DraftId) (v : N) (st : Store) : result bytes Store :=
  match get i (t_drafts st) with
  | Some d =>
      if (version d =? v)%N && negb (published d)
      then Ok (set_t_drafts (remove_key i (t_drafts st)) st)
      else Err (bs "the draft changed, is published, or no longer exists")
  | None => Err (bs "the draft changed, is published, or no longer exists")
  end.

(** [drafts]. *)
Definition stored_drafts (i : SnapshotId) (st : Store) : list Draft :=
  filter (λ d, draft_snapshot d = i) (t_drafts st).*2.

(** ** Views *)

Definition save_view (i : SnapshotId) (v : SavedView) (st : Store) : result bytes Store :=
  let put := mkStore (t_snapshots st) (t_times st) (t_blame st) (t_drafts st)
               (insert_key i v (t_views st)) (t_outbox st) (t_hidden st) in
  match get i (t_views st) with
  | Some old =>
      Ok (if (N.min (revision old) i64_max <=? N.min (revision v) i64_max)%N then put else st)
  | None => if contains_key i (t_snapshots st) then Ok put else Err no_snapshot
  end.
Definition view (i : SnapshotId) (st : Store) : SavedView := default default_view (get i (t_views st)).

(** ** The outbox *)

Definition insert_prepared `{Sha256} `{ReviewJson} (p : PreparedReview) (rules : ReviewRules)
    (st : Store) : result bytes (OutboxEntry * Store) :=
  if negb (verify p rules) then Err (bs "prepared review fingerprint mismatch")
  else match get (op_id p) (t_outbox st) with
  | Some _ => Err (bs "UNIQUE constraint failed: outbox.id")
  | None =>
      let e := mkOutboxEntry p OutboxState.Prepared [] None None in
      Ok (e, set_t_outbox (insert_key (op_id p) e (t_outbox st)) st)
  end.

(** The code lists the entries by their last change; its callers look at all of them,
    whatever their order. *)
Definition outbox (st : Store) : list OutboxEntry := (t_outbox st).*2.
Definition operation (i : OperationId) (st : Store) : result bytes OutboxEntry :=
  ok_or (get i (t_outbox st)) no_rows.

(** Marks the draft of one comment published, when it still is what was sent. *)
Definition publish_draft (m : btree Draft) (c : PreparedComment) : btree Draft :=
  match get (pc_draft c) m with
  | Some d =>
      if (version d =? pc_version c)%N && bool_decide (draft_body d = pc_body c)
      then insert_key (draft_id d)
             (mkDraft (draft_id d) (draft_snapshot d) (draft_file d) (draft_side d)
                (draft_start_line d) (draft_line d) (draft_file_level d) (draft_body d)
                (version d) (saved_version d) true) m
      else m
  | None => m
  end.

(** [{:?}] of an outbox state. *)
Definition state_debug (s : OutboxState) : bytes :=
  bs match s with
     | OutboxState.Prepared => "Prepared"
     | OutboxState.InFlight => "InFlight"
     | OutboxState.Confirmed => "Confirmed"
     | OutboxState.Rejected => "Rejected"
     | OutboxState.UnknownOutcome => "UnknownOutcome"
     end.

(** [rules] is [None] only when the stored review does not change. *)
Definition write_transition `{Sha256} `{ReviewJson} (e : OutboxEntry) (rules : option ReviewRules)
    (st : Store) : result bytes Store :=
  old ← operation (op_id (prepared e)) st;
  if negb (bool_decide (fingerprint (prepared old) = fingerprint (prepared e)))
     || match rules with Some r => negb (verify (prepared e) r) | None => false end
  then Err (bs "outbox payload changed after preview")
  else if negb (OutboxState.can_transition (state old) (state e))
  then Err (bs "bad outbox move " ++ state_debug (state old) ++ bs " → " ++ state_debug (state e))
  else
    let st := set_t_outbox (insert_key (op_id (prepared e)) e (t_outbox st)) st in
    if bool_decide (state e = OutboxState.Confirmed) then
      if bool_decide (remote_id e = None)
      then Err (bs "the confirmed review lacks its remote evidence ID")
      else Ok (set_t_drafts (foldl publish_draft (t_drafts st) (prepared_comments (prepared e))) st)
    else Ok st.
Definition transition `{Sha256} `{ReviewJson} (e : OutboxEntry) (rules : ReviewRules) (st : Store)
    : result bytes Store := write_transition e (Some rules) st.

Definition interrupted (e : OutboxEntry) : OutboxEntry :=
  mkOutboxEntry (prepared e) OutboxState.UnknownOutcome (baseline_review_ids e) (remote_id e)
    (Some (bs "the process stopped after sending became possible; reconcile before submitting again")).
(** The loop of [recover_inflight] over the entries read at its start. *)
Fixpoint recover_entries `{Sha256} `{ReviewJson} (es : list OutboxEntry) (st : Store)
    : result bytes Store :=
  match es with
  | [] => Ok st
  | e :: es' =>
      if bool_decide (state e = OutboxState.InFlight)
      then st ← write_transition (interrupted e) None st; recover_entries es' st
      else recover_entries es' st
  end.
Definition recover_inflight `{Sha256} `{ReviewJson} (st : Store) : result bytes Store :=
  recover_entries (outbox st) st.


(** ** The recent list *)

(** [ORDER BY updated_at DESC, rowid DESC]. *)
Definition later (a b : bytes * RowTime) : bool :=
  pair_lt N.ltb N.ltb (updated_at b.2, rowid b.2) (updated_at a.2, rowid a.2).
Definition by_recency (t : btree RowTime) : list bytes := (merge_sort (le_of later) t).*1.

Definition show_recent (i : SnapshotId) (now : N) (st : Store) : Store :=
  mkStore (t_snapshots st) (touch i now (t_times st)) (t_blame st) (t_drafts st) (t_views st)
    (t_outbox st) (remove_key i (t_hidden st)).
Definition hide_recent (i : option SnapshotId) (st : Store) : Store :=
  let ids := match i with
             | Some i => filter (λ k, k = i) (t_snapshots st).*1
             | None => (t_snapshots st).*1
             end in
  mkStore (t_snapshots st) (t_times st) (t_blame st) (t_drafts st) (t_views st) (t_outbox st)
    (extend (t_hidden st) ((λ k, (k, tt)) <$> ids)).
(** [RecentSession]: a snapshot and its title. *)
Definition recent (st : Store) : list (SnapshotId * bytes) :=
  omap (λ k, s ← get k (t_snapshots st); Some (k, title s))
    (take 30 (filter (λ k, contains_key k (t_hidden st) = false) (by_recency (t_times st)))).

(** ** Pruning *)

Definition keep_recent : nat := 50.
Definition open_operation (e : OutboxEntry) : bool :=
  bool_decide (state e = OutboxState.Prepared) || bool_decide (state e = OutboxState.InFlight)
  || bool_decide (state e = OutboxState.UnknownOutcome).
(** The snapshots that [prune] removes: not among the [keep] latest, without unpublished
    drafts and not of an open operation. *)
Definition is_doomed (keep : nat) (st : Store) (i : SnapshotId) : bool :=
  negb (bool_decide (i ∈ take keep (by_recency (t_times st))))
  && negb (existsb (λ r, bool_decide (draft_snapshot r.2 = i) && negb (published r.2))
             (t_drafts st))
  && negb (existsb (λ r, open_operation r.2 && bool_decide (op_snapshot (prepared r.2) = i))
             (t_outbox st)).
Definition prune (keep : nat) (st : Store) : nat * Store :=
  let doomed := filter (λ i, is_doomed keep st i = true) (t_snapshots st).*1 in
  let kept {A} (m : btree A) := filter (λ r, r.1 ∉ doomed) m in
  (length doomed,
   mkStore (kept (t_snapshots st)) (kept (t_times st))
     (filter (λ r, r.1.1.1 ∉ doomed) (t_blame st))
     (filter (λ r, draft_snapshot r.2 ∉ doomed) (t_drafts st))
     (kept (t_views st)) (t_outbox st) (kept (t_hidden st))).

(** ** Opening *)

(** What [open] does to the tables it finds, and what it returns for one snapshot. *)
Definition open_store `{Sha256} `{ReviewJson} (st : Store) : result bytes Store :=
  st ← recover_inflight st; Ok (prune keep_recent st).2.
Definition opened `{Sha256} `{SourceJson} `{ReleasesKey} (i : SnapshotId) (now : N) (st : Store)
    : result bytes (Snapshot * list Draft * SavedView) * Store :=
  let st := show_recent i now st in
  (s ← stored_snapshot i st; Ok (s, stored_drafts i st, view i st), st).
