(* ===== verification/StoreFacts.v ===== *)
(** * The tables of the store: references hold, and pruning removes no work *)

From S2P Require Import Prelude RustStr Utf8 Domain Patch PatchFacts BTree Overview Snapshot.
From S2P Require Import SnapshotFacts F32 Session Review ReviewFacts Store.

Lemma insert_key_keys {A} k (v : A) m i :
  i ∈ (insert_key k v m).*1 ↔ i = k ∨ i ∈ m.*1.
Proof.
  induction m as [|[k' v'] m IH]; cbn [insert_key].
  { cbn. rewrite list_elem_of_singleton. set_solver. }
  case_bool_decide; [|destruct (lex_lt k k')]; rewrite ?fmap_cons; cbn [fst];
    rewrite ?elem_of_cons, ?IH; naive_solver.
Qed.

Lemma get_is_key {A} k (v : A) m : get k m = Some v → k ∈ m.*1.
Proof. intros H%get_Some_in. by apply (list_elem_of_fmap_2 fst) in H. Qed.

Lemma key_get {A} k (m : btree A) : ordered m → k ∈ m.*1 → ∃ v, get k m = Some v.
Proof.
  intros Hm ([k' v] & -> & Hin)%list_elem_of_fmap. exists v. by apply ordered_get.
Qed.

Lemma contains_key_spec {A} k (m : btree A) : ordered m → contains_key k m = true ↔ k ∈ m.*1.
Proof.
  intros Hm. unfold contains_key. split.
  - destruct (get k m) as [v|] eqn:E; [|done]. intros _. by eapply get_is_key.
  - intros [v ->]%key_get; done.
Qed.

Lemma filter_keys {A} (l : list bytes) (m : btree A) i :
  i ∈ (filter (λ r, r.1 ∉ l) m).*1 ↔ i ∉ l ∧ i ∈ m.*1.
Proof.
  rewrite !list_elem_of_fmap. setoid_rewrite list_elem_of_filter. naive_solver.
Qed.

Section facts.
Context {sha_ : Sha256} {source_ : SourceJson} {review_ : ReviewJson} {key_ : ReleasesKey}.
Implicit Types (st : Store) (d : Draft) (s : Snapshot) (e : OutboxEntry).

Notation stored_ids st := ((t_snapshots st).*1).

(** What every operation keeps: rows refer to stored snapshots, stored snapshots have the
    identity of their data, and drafts are within the limits. *)
Record tables_ok st : Prop := {
  tk_snapshots : ordered (t_snapshots st);
  tk_drafts_ordered : ordered (t_drafts st);
  tk_views_ordered : ordered (t_views st);
  tk_verified i s : (i, s) ∈ t_snapshots st → id s = i ∧ verify_identity s = true;
  tk_times i : i ∈ (t_times st).*1 ↔ i ∈ stored_ids st;
  tk_drafts k d : (k, d) ∈ t_drafts st →
    draft_id d = k ∧ draft_snapshot d ∈ stored_ids st ∧
    (1 <= version d <= i64_max)%N ∧ saved_version d = version d;
  tk_views i : i ∈ (t_views st).*1 → i ∈ stored_ids st;
  tk_blame r : r ∈ t_blame st → r.1.1.1 ∈ stored_ids st;
  tk_hidden i : i ∈ (t_hidden st).*1 → i ∈ stored_ids st
}.

Lemma empty_tables_ok : tables_ok empty_store.
Proof. split; cbn; try constructor; set_solver. Qed.

(** ** Each operation *)

Lemma touch_keys i now t k : k ∈ (touch i now t).*1 ↔ k ∈ t.*1.
Proof.
  unfold touch. destruct (get i t) eqn:E; [|done]. rewrite insert_key_keys.
  apply get_is_key in E. naive_solver.
Qed.

Lemma put_snapshot_ok s now st st' :
  tables_ok st → put_snapshot s now st = Ok st' → tables_ok st'.
Proof.
  intros [Ho Hd Hv Hver Ht Hdr Hvi Hb Hh] Hp. unfold put_snapshot in Hp. pass Hp as E.
  apply negb_false_iff in E.
  injection Hp as <-. split; cbn; try done.
  - by apply insert_key_ordered.
  - intros i s' [[= -> ->]|Hin]%insert_key_elem; [done|by apply Hver].
  - intros i. rewrite insert_key_keys. destruct (get (id s) (t_times st)) eqn:Et.
    + rewrite touch_keys, Ht. apply get_is_key in Et. rewrite Ht in Et. naive_solver.
    + rewrite insert_key_keys, Ht. done.
  - intros k d Hin. rewrite insert_key_keys. apply Hdr in Hin. naive_solver.
  - intros i Hi. rewrite insert_key_keys. auto.
  - intros r [_ Hin]%list_elem_of_filter. rewrite insert_key_keys. auto.
  - intros i Hi. rewrite insert_key_keys. auto.
Qed.

Lemma save_blame_rows_elem i key found t r :
  r ∈ save_blame_rows i key found t →
  r ∈ t ∨ r.1.1.1 = i ∧ existsb (λ p, negb (bool_decide (p.2 = None))) found = true.
Proof.
  revert t. induction found as [|[path [rs|]] found IH]; intros t; cbn [save_blame_rows existsb].
  - by left.
  - intros [Hin|[-> ?]]%IH; [|by right]. unfold upsert_blame in Hin.
    apply elem_of_app in Hin as [[_ Hin]%list_elem_of_filter| ->%list_elem_of_singleton];
      [by left|by right].
  - intros [Hin|[-> ->]]%IH; [by left|]. right. by rewrite orb_true_r.
Qed.

Lemma save_blame_ok i key found now st st' :
  tables_ok st → save_blame i key found now st = Ok st' → tables_ok st'.
Proof.
  intros [Ho Hd Hv Hver Ht Hdr Hvi Hb Hh] Hp. unfold save_blame in Hp. pass Hp as E.
  injection Hp as <-. split; cbn; try done.
  - intros k. by rewrite touch_keys.
  - intros r [Hin|[-> Hex]]%save_blame_rows_elem; [by apply Hb|].
    rewrite Hex, andb_true_r in E. apply negb_false_iff in E. by apply contains_key_spec.
Qed.

Lemma stored_snapshot_key i st s : stored_snapshot i st = Ok s → i ∈ stored_ids st.
Proof. intros (s0 & Hs%ok_or_Ok & _)%bind_Ok. by eapply get_is_key. Qed.

Lemma drafts_ok st m :
  tables_ok st → ordered m →
  (∀ k d, (k, d) ∈ m → draft_id d = k ∧ draft_snapshot d ∈ stored_ids st ∧
    (1 <= version d <= i64_max)%N ∧ saved_version d = version d) →
  tables_ok (set_t_drafts m st).
Proof. intros [] Hm Hd. by split. Qed.
Lemma outbox_ok st m : tables_ok st → tables_ok (set_t_outbox m st).
Proof. intros []. by split. Qed.

Lemma save_draft_ok d st v st' : tables_ok st → save_draft d st = Ok (v, st') → tables_ok st'.
Proof.
  intros Hok Hs. unfold save_draft in Hs. pass Hs as E1.
  apply bind_Ok in Hs as (s & Hsn%stored_snapshot_key & Hs). apply bind_Ok in Hs as (f & _ & Hs).
  pass Hs as E2. apply bind_Ok in Hs as (u & _ & Hs). pass Hs as E3. injection Hs as <- <-.
  apply drafts_ok; [done|by apply insert_key_ordered, Hok|].
  intros k d' [[= -> ->]|Hin]%insert_key_elem; [|by apply Hok].
  to_prop. split_and!; [done|done|cbn; lia|cbn; lia|done].
Qed.

Lemma discard_draft_ok i v st st' : tables_ok st → discard_draft i v st = Ok st' → tables_ok st'.
Proof.
  intros Hok Hd. unfold discard_draft in Hd. destruct (get i (t_drafts st)); [|done].
  destruct (_ && _); [|done]. injection Hd as <-.
  apply drafts_ok; [done|by apply filter_ordered, Hok|].
  intros k d' [_ Hin]%list_elem_of_filter. by apply Hok.
Qed.

Lemma save_view_ok i v st st' : tables_ok st → save_view i v st = Ok st' → tables_ok st'.
Proof.
  intros Hok Hs. unfold save_view in Hs.
  assert (i ∈ stored_ids st → tables_ok (mkStore (t_snapshots st) (t_times st) (t_blame st)
    (t_drafts st) (insert_key i v (t_views st)) (t_outbox st) (t_hidden st))) as Hput.
  { destruct Hok as [Ho Hd Hv Hver Ht Hdr Hvi Hb Hh]. intros Hi. split; cbn; try done.
    - by apply insert_key_ordered.
    - intros k [-> |Hk]%insert_key_keys; auto. }
  destruct (get i (t_views st)) eqn:Ev.
  - injection Hs as <-. destruct (_ <=? _)%N; [|done].
    by apply Hput, (tk_views _ Hok), (get_is_key _ _ _ Ev).
  - destruct (contains_key _ _) eqn:Ec; [|done]. injection Hs as <-.
    apply Hput, contains_key_spec; [apply Hok|done].
Qed.

(** A comment that is published marks one draft; no other field changes. *)
Lemma publish_draft_cases m c :
  publish_draft m c = m ∨
  ∃ d, get (pc_draft c) m = Some d ∧ version d = pc_version c ∧ draft_body d = pc_body c ∧
    publish_draft m c = insert_key (draft_id d)
      (mkDraft (draft_id d) (draft_snapshot d) (draft_file d) (draft_side d)
         (draft_start_line d) (draft_line d) (draft_file_level d) (draft_body d)
         (version d) (saved_version d) true) m.
Proof.
  unfold publish_draft. destruct (get (pc_draft c) m) as [d|]; [|by left].
  destruct (_ && _) eqn:E; [|by left]. to_prop. right. by exists d.
Qed.

Lemma publish_drafts_ok st cs m :
  tables_ok (set_t_drafts m st) → tables_ok (set_t_drafts (foldl publish_draft m cs) st).
Proof.
  revert m. induction cs as [|c cs IH]; intros m Hok; [done|]. cbn [foldl]. apply IH.
  destruct (publish_draft_cases m c) as [->|(d & Hd & _ & _ & ->)]; [done|].
  apply get_Some_in, (tk_drafts _ Hok) in Hd as (_ & Hd2).
  apply (drafts_ok (set_t_drafts m st)); [done|by apply insert_key_ordered, Hok|].
  intros k d' [[= -> ->]|Hin]%insert_key_elem; [by split|by apply Hok].
Qed.

Lemma write_transition_ok e r st st' :
  tables_ok st → write_transition e r st = Ok st' → tables_ok st'.
Proof.
  intros Hok Ht. unfold write_transition in Ht. apply bind_Ok in Ht as (old & _ & Ht).
  pass Ht as E1. pass Ht as E2. cbv zeta in Ht. destruct (bool_decide (state e = _)).
  - pass Ht as E3. injection Ht as <-. apply publish_drafts_ok. destruct Hok. by split.
  - injection Ht as <-. by apply outbox_ok.
Qed.

Lemma recover_entries_ok es st st' :
  tables_ok st → recover_entries es st = Ok st' → tables_ok st'.
Proof.
  revert st. induction es as [|e es IH]; intros st Hok Hr; [by injection Hr as <-|].
  cbn [recover_entries] in Hr. destruct (bool_decide _); [|by eapply IH].
  apply bind_Ok in Hr as (st1 & Ht & Hr). eapply IH; [|exact Hr]. by eapply write_transition_ok.
Qed.

Lemma insert_prepared_ok p rules st e st' :
  tables_ok st → insert_prepared p rules st = Ok (e, st') → tables_ok st'.
Proof.
  intros Hok Hi. unfold insert_prepared in Hi. pass Hi as E.
  destruct (get (op_id p) (t_outbox st)); [done|]. injection Hi as <- <-. by apply outbox_ok.
Qed.

Lemma show_recent_ok i now st : tables_ok st → tables_ok (show_recent i now st).
Proof.
  intros [Ho Hd Hv Hver Ht Hdr Hvi Hb Hh]. split; cbn; try done.
  - intros k. by rewrite touch_keys.
  - intros k (r & -> & [_ Hin]%list_elem_of_filter)%list_elem_of_fmap.
    by apply Hh, list_elem_of_fmap_2.
Qed.

Lemma extend_keys {A} (l : list (bytes * A)) (m : btree A) i :
  i ∈ (extend m l).*1 ↔ i ∈ m.*1 ∨ i ∈ l.*1.
Proof.
  unfold extend. revert m. induction l as [|[k v] l IH]; intros m; cbn [foldl]; [set_solver|].
  rewrite IH, insert_key_keys, fmap_cons, elem_of_cons. cbn. naive_solver.
Qed.

Lemma hide_recent_ok i st : tables_ok st → tables_ok (hide_recent i st).
Proof.
  intros [Ho Hd Hv Hver Ht Hdr Hvi Hb Hh]. split; cbn; try done.
  intros k. rewrite extend_keys, <- list_fmap_compose.
  intros [?|(k' & -> & Hin)%list_elem_of_fmap]; [by apply Hh|].
  destruct i; [|done]. by apply list_elem_of_filter in Hin as [_ ?].
Qed.

(** ** Pruning *)

(** What keeps a snapshot: it is recent, has an unpublished draft, or an operation on it is
    not over. *)
Definition in_use keep st (i : SnapshotId) : Prop :=
  i ∈ take keep (by_recency (t_times st)) ∨
  (∃ k d, (k, d) ∈ t_drafts st ∧ draft_snapshot d = i ∧ published d = false) ∨
  (∃ k e, (k, e) ∈ t_outbox st ∧ state e ≠ OutboxState.Confirmed ∧
     state e ≠ OutboxState.Rejected ∧ op_snapshot (prepared e) = i).

Lemma open_operation_spec e :
  open_operation e = true ↔ state e ≠ OutboxState.Confirmed ∧ state e ≠ OutboxState.Rejected.
Proof. unfold open_operation. destruct (state e); split; naive_solver. Qed.

Lemma is_doomed_false keep st i : is_doomed keep st i = false ↔ in_use keep st i.
Proof.
  unfold is_doomed, in_use. rewrite !andb_false_iff, !negb_false_iff, bool_decide_eq_true.
  rewrite !existsb_exists.
  setoid_rewrite andb_true_iff. setoid_rewrite bool_decide_eq_true.
  setoid_rewrite negb_true_iff. setoid_rewrite open_operation_spec.
  setoid_rewrite <- list_elem_of_In. split.
  - intros [[?|([k d] & ? & ? & ?)]|([k e] & ? & [? ?] & ?)]; eauto 9.
  - intros [?|[(k & d & ? & ? & ?)|(k & e & ? & ? & ? & ?)]]; [by auto| |].
    + left. right. by exists (k, d).
    + right. by exists (k, e).
Qed.

Definition doomed keep st : list SnapshotId :=
  filter (λ i, is_doomed keep st i = true) (stored_ids st).

Lemma not_doomed keep st i : i ∈ stored_ids st → i ∉ doomed keep st ↔ in_use keep st i.
Proof.
  intros Hi. unfold doomed. rewrite list_elem_of_filter, <- is_doomed_false.
  destruct (is_doomed keep st i); naive_solver.
Qed.

Lemma prune_ok keep st : tables_ok st → tables_ok (prune keep st).2.
Proof.
  intros [Ho Hd Hv Hver Ht Hdr Hvi Hb Hh]. split; cbn; try by apply filter_ordered.
  - intros i s [_ Hin]%list_elem_of_filter. auto.
  - intros i. rewrite !filter_keys, Ht. done.
  - intros k d [Hn Hin]%list_elem_of_filter. cbn in Hn. rewrite filter_keys.
    apply Hdr in Hin. naive_solver.
  - intros i. rewrite !filter_keys. naive_solver.
  - intros r [Hn Hin]%list_elem_of_filter. rewrite filter_keys. auto.
  - intros i. rewrite !filter_keys. naive_solver.
Qed.

Lemma prune_keys keep st i :
  i ∈ stored_ids (prune keep st).2 ↔ i ∈ stored_ids st ∧ in_use keep st i.
Proof.
  cbn. rewrite (filter_keys (doomed keep st)).
  split.
  - intros [H1 H2]. split; [done|]. by apply not_doomed in H1.
  - intros [H1 H2]. split; [|done]. by apply not_doomed.
Qed.

Lemma filter_count {A} (f : bytes → bool) (l : list bytes) (m : btree A) :
  (∀ i, i ∈ m.*1 → i ∈ l ↔ f i = true) →
  (length (filter (λ i, f i = true) m.*1) + length (filter (λ r, r.1 ∉ l) m) = length m)%nat.
Proof.
  induction m as [|r m IH]; intros Hl; [done|].
  rewrite fmap_cons, !filter_cons. cbn [length].
  rewrite <- IH by (intros i Hi; apply Hl; by right).
  pose proof (Hl r.1 ltac:(left)) as Hr.
  destruct (decide (f r.1 = true)), (decide (r.1 ∉ l)); cbn [length]; try lia; naive_solver.
Qed.

Lemma prune_count keep st :
  ((prune keep st).1 + length (t_snapshots (prune keep st).2) = length (t_snapshots st))%nat.
Proof.
  apply filter_count. intros i Hi. rewrite list_elem_of_filter. naive_solver.
Qed.

Lemma stored_drafts_prune keep st i :
  i ∉ doomed keep st → stored_drafts i (prune keep st).2 = stored_drafts i st.
Proof.
  intros Hi. unfold stored_drafts. cbn. fold (doomed keep st).
  induction (t_drafts st) as [|[k d] m IH]; [done|]. rewrite filter_cons, fmap_cons, filter_cons.
  cbn [fst snd]. destruct (decide (draft_snapshot d ∉ doomed keep st)) as [Hn|Hn].
  - rewrite fmap_cons, filter_cons. cbn [snd]. rewrite IH. done.
  - rewrite IH, decide_False; [done|]. intros <-. done.
Qed.

Lemma stored_snapshot_prune keep st i :
  ordered (t_snapshots st) → i ∉ doomed keep st →
  stored_snapshot i (prune keep st).2 = stored_snapshot i st.
Proof.
  intros Ho Hi. unfold stored_snapshot. cbn. fold (doomed keep st).
  assert (get i (filter (λ r, r.1 ∉ doomed keep st) (t_snapshots st)) = get i (t_snapshots st)) as ->.
  { apply option_eq. intros s. rewrite get_filter by done. naive_solver. }
  destruct (get i (t_snapshots st)) as [s|]; [|done]. cbn.
  destruct (verify_identity s); [|done]. cbn. do 2 f_equal.
  rewrite list_filter_filter. f_equal. apply list_filter_iff. intros [[[i' p] k] b]. cbn.
  naive_solver.
Qed.

(** C26: opening the store throws away no work. Of the stored snapshots, pruning keeps
    exactly those among the [keep] latest, those with an unpublished draft and those an
    operation that is not over refers to; the outbox stays as it is, no row is left without
    its snapshot, the number it reports is the number of snapshots gone; and each snapshot
    kept reads as before, with its blame, its drafts and its view. *)
Theorem prune_keeps_work keep st :
  tables_ok st →
  let st' := (prune keep st).2 in
  tables_ok st' ∧ t_outbox st' = t_outbox st ∧
  ((prune keep st).1 + length (t_snapshots st') = length (t_snapshots st))%nat ∧
  (∀ i, i ∈ stored_ids st' ↔ i ∈ stored_ids st ∧ in_use keep st i) ∧
  (∀ i, i ∈ stored_ids st' →
     stored_snapshot i st' = stored_snapshot i st ∧ stored_drafts i st' = stored_drafts i st ∧
     view i st' = view i st).
Proof.
  intros Hok st'. split_and!;
    [by apply prune_ok|done|by apply prune_count|apply prune_keys|].
  intros i [Hi Hn%not_doomed]%prune_keys; [|done].
  split_and!; [by apply stored_snapshot_prune, Hn; apply Hok|by apply stored_drafts_prune|].
  unfold view, st'. cbn. fold (doomed keep st). f_equal. apply option_eq. intros v.
  rewrite get_filter by apply Hok. naive_solver.
Qed.
End facts.

(** ** Witnesses *)

Definition sample_releases_key : ReleasesKey := λ _, [].
#[local] Existing Instances sample_sha256 bits_json bits_review_json sample_releases_key.

Definition sample_report : PatchReport := mkPatchReport [sample_file].
Definition sample_id : SnapshotId := identity sample_report None (bs "o").

(** The store after one snapshot and one draft of it are saved. *)
Definition snapshot_of (i : SnapshotId) : Snapshot :=
  mkSnapshot i (bs "t") (bs "o") sample_report None [] default_overview [].
Definition draft_of (i : SnapshotId) : Draft :=
  mkDraft (bs "d") i [] Right 7 8 false (bs "why?") 1 0 false.
Definition snapshot_store (i : SnapshotId) : Store :=
  mkStore [(i, snapshot_of i)] [(i, mkRowTime 1 1)] [] [] [] [] [].
Definition draft_store (i : SnapshotId) : Store :=
  set_t_drafts [(bs "d", set_saved 1 (draft_of i))] (snapshot_store i).

Lemma snapshot_of_verifies : verify_identity (snapshot_of sample_id) = true.
Proof. unfold verify_identity. by apply bool_decide_true. Qed.

Lemma put_sample i :
  verify_identity (snapshot_of i) = true →
  put_snapshot (snapshot_of i) 1 empty_store = Ok (snapshot_store i).
Proof. intros Hv. unfold put_snapshot. by rewrite Hv. Qed.

Lemma save_sample i :
  verify_identity (snapshot_of i) = true →
  save_draft (draft_of i) (snapshot_store i) = Ok (1%N, draft_store i).
Proof.
  intros Hv. unfold save_draft, stored_snapshot.
  change (t_snapshots (snapshot_store i)) with [(i, snapshot_of i)]. cbn [get draft_snapshot draft_of].
  rewrite bool_decide_true by done. cbn [ok_or mbind result_bind]. rewrite Hv. reflexivity.
Qed.

Lemma draft_store_ok : tables_ok (draft_store sample_id).
Proof.
  pose proof snapshot_of_verifies as Hv.
  eapply save_draft_ok; [|by apply save_sample].
  eapply put_snapshot_ok; [|by apply put_sample]. apply empty_tables_ok.
Qed.

(** With nothing recent to keep, the draft keeps its snapshot. *)
Example prune_keeps_work_witness :
  let st := draft_store sample_id in
  in_use 0 st sample_id ∧ sample_id ∈ (t_snapshots (prune 0 st).2).*1.
Proof.
  assert (in_use 0 (draft_store sample_id) sample_id) as Hu.
  { right. left. exists (bs "d"), (set_saved 1 (draft_of sample_id)).
    split; [left|split; reflexivity]. }
  split; [exact Hu|].
  apply (proj1 (proj2 (proj2 (proj2 (prune_keeps_work 0 (draft_store sample_id) draft_store_ok))))).
  split; [left|exact Hu].
Defined.
