(* ===== verification/Json.v ===== *)
(** * Parsed JSON values

    The crate [serde_json] is not part of the program: [JsonValue] is its type [Value] with
    the operations the adapters use, and [JsonLaws] what its documentation says about the
    values that [json!] builds. [json] is a small instance for examples. *)

From S2P Require Import Prelude RustStr BTree.

Class JsonValue := {
  Value : Type;
  index : Value → bytes → Value;                  (* [v\["k"\]]: [Null] where there is none *)
  pointer : Value → bytes → option Value;         (* [Value::pointer] *)
  as_u64 : Value → option N;
  as_str : Value → option bytes;
  as_bool : Value → option bool;
  as_array : Value → option (list Value);
  is_null : Value → bool;
  is_object : Value → bool;
  json_eqb : Value → Value → bool;
  json_null : Value;                              (* what [json!] makes *)
  json_str : bytes → Value;
  json_num : N → Value;
  json_object : list (bytes * Value) → Value;
  to_vec : Value → bytes;                         (* [serde_json::to_vec], also [{}] *)
  from_slice : bytes → result bytes Value         (* [serde_json::from_slice] *)
}.

(** Comparisons of a value with a string and with a truth value. *)
Definition is_str {_ : JsonValue} (v : Value) (s : bytes) : bool :=
  bool_decide (as_str v = Some s).
Definition is_true {_ : JsonValue} (v : Value) : bool := bool_decide (as_bool v = Some true).

Class JsonLaws {json_ : JsonValue} : Prop := {
  index_object fs k : NoDup fs.*1 → index (json_object fs) k = default json_null (get k fs);
  index_null k : index json_null k = json_null;
  as_str_str s : as_str (json_str s) = Some s;
  as_u64_num n : as_u64 (json_num n) = Some n;
  as_str_null : as_str json_null = None;
  as_u64_null : as_u64 json_null = None;
  as_str_num n : as_str (json_num n) = None;
  as_u64_str s : as_u64 (json_str s) = None
}.
Arguments JsonLaws _ : clear implicits.

(** ** An instance for examples *)

Inductive json :=
| JNull | JBool (b : bool) | JNum (n : N) | JStr (s : bytes) | JArr (l : list json)
| JObj (fs : list (bytes * json)).

Fixpoint json_same (v w : json) : bool :=
  match v, w with
  | JNull, JNull => true
  | JBool a, JBool b => Bool.eqb a b
  | JNum a, JNum b => (a =? b)%N
  | JStr a, JStr b => bool_decide (a = b)
  | JArr a, JArr b =>
      (fix go a b := match a, b with
                     | [], [] => true
                     | x :: a, y :: b => json_same x y && go a b
                     | _, _ => false
                     end) a b
  | JObj a, JObj b =>
      (fix go a b := match a, b with
                     | [], [] => true
                     | (k, x) :: a, (l, y) :: b => bool_decide (k = l) && json_same x y && go a b
                     | _, _ => false
                     end) a b
  | _, _ => false
  end.

Definition json_index (v : json) (k : bytes) : json :=
  match v with JObj fs => default JNull (get k fs) | _ => JNull end.
(** A pointer of object keys and array positions. *)
Definition json_child (v : json) (k : bytes) : option json :=
  match v with
  | JObj fs => get k fs
  | JArr l => i ← parse_u64 k; l !! N.to_nat i
  | _ => None
  end.
Definition json_pointer (v : json) (p : bytes) : option json :=
  foldl (λ o k, v ← o; json_child v k) (Some v) (drop 1 (split_on SLASH p)).

#[export] Instance sample_json : JsonValue := {|
  Value := json;
  index := json_index;
  pointer := json_pointer;
  as_u64 v := match v with JNum n => Some n | _ => None end;
  as_str v := match v with JStr s => Some s | _ => None end;
  as_bool v := match v with JBool b => Some b | _ => None end;
  as_array v := match v with JArr l => Some l | _ => None end;
  is_null v := match v with JNull => true | _ => false end;
  is_object v := match v with JObj _ => true | _ => false end;
  json_eqb := json_same;
  json_null := JNull;
  json_str := JStr;
  json_num := JNum;
  json_object := JObj;
  to_vec _ := [];
  from_slice _ := Err (bs "no text form")
|}.
#[export] Instance sample_json_laws : JsonLaws sample_json.
Proof. by split. Qed.
