(* ===== verification/Outbox.v ===== *)
(** * Publishing ([crates/adapters/src/outbox.rs])

    The provider's server is outside the program: its answers are a parameter
    ([Answers]), and [requests] lists the requests the program sends. [step] is the
    interleaving of publishing with the other users of the store and with crashes. *)

From S2P Require Import Prelude RustStr Utf8 Domain Patch BTree Overview Snapshot F32 Session.
From S2P Require Import Review Store Json.

Section outbox.
Context {sha_ : Sha256} {source_ : SourceJson} {review_ : ReviewJson} {key_ : ReleasesKey}
  {json_ : JsonValue}.

Definition same_pr (a b : RemoteTarget) : bool :=
  bool_decide (provider a = provider b) && bool_decide (repository a = repository b)
  && bool_decide (pr a = pr b) && bool_decide (account a = account b).

Definition matches_metadata (p : PreparedReview) (r : Value) (marked : bool) : bool :=
  if marked && negb (bool_decide (as_str (index r (bs "fingerprint")) = Some (fingerprint p)))
  then false
  else
    bool_decide (as_str (index r (bs "commit_id")) = Some (head (target p)))
    && bool_decide (as_str (index r (bs "state")) = Some (Verdict.remote_state (verdict p)))
    && bool_decide (default [] (as_str (index r (bs "body"))) = summary p)
    && bool_decide (as_str (index (index r (bs "user")) (bs "login")) = Some (account (target p))).

Definition or_else {A} (a b : option A) : option A := match a with Some _ => a | None => b end.

(** Path, body, side, first line and last line. *)
Notation CommentKey := (bytes * bytes * bytes * N * N)%type.

Definition comment_key (c : Value) : option CommentKey :=
  line ← or_else (as_u64 (index c (bs "line"))) (as_u64 (index c (bs "original_line")));
  let start := default line (or_else (as_u64 (index c (bs "start_line")))
                                     (as_u64 (index c (bs "original_start_line")))) in
  side ← as_str (index c (bs "side"));
  let start_side := default side (as_str (index c (bs "start_side"))) in
  if negb (bool_decide (start_side = side)) then None
  else
    path ← as_str (index c (bs "path"));
    body ← as_str (index c (bs "body"));
    Some (path, body, side, start, line).

Definition expected_key (c : PreparedComment) : CommentKey :=
  (pc_path c, pc_body c, Side_api (pc_side c), pc_start_line c, pc_line c).

(** The order of the keys: tuples compare lexicographically. *)
Definition comment_lt : CommentKey → CommentKey → bool :=
  pair_lt (pair_lt (pair_lt (pair_lt lex_lt lex_lt) lex_lt) N.ltb) N.ltb.

Definition matches_review (p : PreparedReview) (r : Value) (cs : list Value) (marked : bool)
    : bool :=
  if negb (matches_metadata p r marked)
     || negb (length cs =? length (prepared_comments p))%nat then false
  else match mapM comment_key cs with
  | None => false
  | Some actual =>
      bool_decide (merge_sort (le_of comment_lt) (expected_key <$> prepared_comments p)
                   = merge_sort (le_of comment_lt) actual)
  end.

(** ** The server *)

Inductive SendOutcome := Accepted (v : Value) | Rejected (code : N) | Unknown (reason : bytes).

(** What the server answers during one call of [publish] or [reconcile]. *)
Record Answers := mkAnswers {
  current1 : result bytes RemoteTarget;
  reviews : result bytes (list Value);
  current2 : result bytes RemoteTarget;
  send : SendOutcome;
  review_comments : N → result bytes (list Value)
}.

(** ** Publishing *)

Definition unresolved (s : OutboxState) : bool :=
  bool_decide (s = OutboxState.UnknownOutcome) || bool_decide (s = OutboxState.InFlight).
Definition with_state (s : OutboxState) (d : option bytes) (e : OutboxEntry) : OutboxEntry :=
  mkOutboxEntry (prepared e) s (baseline_review_ids e) (remote_id e) d.

Definition draft_unchanged (saved : list Draft) (c : PreparedComment) : bool :=
  existsb (λ d, bool_decide (draft_id d = pc_draft c) && (version d =? pc_version c)%N
                && bool_decide (draft_body d = pc_body c) && negb (published d) && is_saved d)
          saved.

(** [publish] up to its first write: the entry that it writes, [Rejected] or [InFlight]. *)
Definition publish_check (rules : ReviewRules) (a : Answers) (p : PreparedReview) (st : Store)
    : result bytes OutboxEntry :=
  entry ← operation (op_id p) st;
  if negb (bool_decide (state entry = OutboxState.Prepared))
     || negb (bool_decide (fingerprint (prepared entry) = fingerprint p))
     || negb (verify p rules)
  then Err (bs "the operation differs from its prepared review; an uncertain send cannot be retried")
  else if existsb (λ x, negb (bool_decide (op_id (prepared x) = op_id p))
                        && same_pr (target (prepared x)) (target p) && unresolved (state x))
            (outbox st)
  then Err (bs "this PR already has an operation whose result is unresolved")
  else
    current ← current1 a;
    if negb (bool_decide (current = target p)) || negb (open current) || pending_review current
    then Ok (with_state OutboxState.Rejected
               (Some (bs "The PR revision, repository, account, or pending-review state no longer matches the preview."))
               entry)
    else if negb (forallb (draft_unchanged (stored_drafts (op_snapshot p) st)) (prepared_comments p))
    then Err (bs "the saved text is newer or already published; prepare another preview")
    else
      rs ← reviews a;
      current ← current2 a;
      if negb (bool_decide (current = target p))
      then Err (bs "the PR changed just before sending; no request was made")
      else Ok (mkOutboxEntry (prepared entry) OutboxState.InFlight
                 (omap (λ r, as_u64 (index r (bs "id"))) rs) (remote_id entry) (diagnostic entry)).

(** The entry [publish] writes after the server's answer. *)
Definition after_send (rules : ReviewRules) (a : Answers) (p : PreparedReview) (e : OutboxEntry)
    : OutboxEntry :=
  match send a with
  | Rejected code =>
      with_state OutboxState.Rejected
        (Some (bs "Provider refused this request (HTTP " ++ dec code ++ bs "); drafts remain")) e
  | Unknown reason => with_state OutboxState.UnknownOutcome (Some reason) e
  | Accepted response =>
      let rid := as_u64 (index response (bs "id")) in
      let verified := match rid with
                      | Some i => match review_comments a i with
                                  | Ok cs => matches_review p response cs (marks_reviews rules)
                                  | Err _ => false
                                  end
                      | None => false
                      end in
      let e := mkOutboxEntry (prepared e) (state e) (baseline_review_ids e) rid (diagnostic e) in
      if verified then with_state OutboxState.Confirmed None e
      else with_state OutboxState.UnknownOutcome
             (Some (bs "The server accepted the request, but the review or comment could not be fully verified.")) e
  end.

(** The whole call without interruption: its result, the store after it, and the number
    of requests sent. *)
Definition publish (rules : ReviewRules) (a : Answers) (p : PreparedReview) (st : Store)
    : result bytes OutboxEntry * Store * nat :=
  match publish_check rules a p st with
  | Err m => (Err m, st, 0)
  | Ok e =>
      match transition e rules st with
      | Err m => (Err m, st, 0)
      | Ok st1 =>
          if bool_decide (state e = OutboxState.Rejected) then (Ok e, st1, 0)
          else
            let e2 := after_send rules a p e in
            match transition e2 rules st1 with
            | Err m => (Err m, st1, 1)
            | Ok st2 => (Ok e2, st2, 1)
            end
      end
  end.

(** ** Reconciling *)

(** The loop over the server's reviews: those that match the operation. *)
Fixpoint find_matches (rules : ReviewRules) (a : Answers) (e : OutboxEntry) (rs : list Value)
    : result bytes (list N) :=
  match rs with
  | [] => Ok []
  | r :: rs' =>
      match as_u64 (index r (bs "id")) with
      | None => find_matches rules a e rs'
      | Some i =>
          if match remote_id e with
             | Some known => negb (known =? i)%N
             | None => bool_decide (i ∈ baseline_review_ids e)
             end
          then find_matches rules a e rs'
          else if negb (matches_metadata (prepared e) r (marks_reviews rules))
          then find_matches rules a e rs'
          else
            cs ← review_comments a i;
            ms ← find_matches rules a e rs';
            Ok (if matches_review (prepared e) r cs (marks_reviews rules) then i :: ms else ms)
      end
  end.

(** What a look at the server finds: the confirmed entry, when exactly one review matches. *)
Definition reconciled (rules : ReviewRules) (a : Answers) (e : OutboxEntry)
    : result bytes (option OutboxEntry) :=
  current ← current1 a;
  if negb (bool_decide (account current = account (target (prepared e))))
  then Err (bs "reconciliation requires the account that originally sent this review")
  else
    rs ← reviews a;
    ms ← find_matches rules a e rs;
    Ok match ms with
       | [m] => Some (mkOutboxEntry (prepared e) OutboxState.Confirmed (baseline_review_ids e)
                        (Some m) None)
       | _ => None
       end.
Definition reconcile (rules : ReviewRules) (a : Answers) (i : OperationId) (st : Store)
    : result bytes (OutboxEntry * Store) :=
  e ← operation i st;
  if negb (bool_decide (state e = OutboxState.UnknownOutcome)) then Ok (e, st)
  else
    found ← reconciled rules a e;
    match found with
    | Some e => st ← transition e rules st; Ok (e, st)
    | None => Ok (e, st)
    end.

(** ** Interleavings and crashes *)

(** Where a call of [publish] is. *)
Inductive Publishing :=
| Checked (p : PreparedReview) (e : OutboxEntry)
| Flying (p : PreparedReview) (e : OutboxEntry)
| Sent (p : PreparedReview) (e : OutboxEntry).

(** Each provider has an outbox of its own, whose gate holds one call of [publish] at a time;
    reconciling takes no gate, so any number of entries may be looked up at once. *)
Record World := mkWorld {
  store : Store;
  requests : list OperationId;        (* the requests sent to the servers, oldest first *)
  active : gmap bytes Publishing;     (* by the provider *)
  matching : list OutboxEntry         (* read by calls of [reconcile] that still look *)
}.
Definition set_store (st : Store) (w : World) : World :=
  mkWorld st (requests w) (active w) (matching w).
Definition set_active (m : gmap bytes Publishing) (w : World) : World :=
  mkWorld (store w) (requests w) m (matching w).

(** [known] are the rules of the registered providers. *)
Inductive step (known : ReviewRules → Prop) : World → World → Prop :=
| step_prepare w rules p e st :
    known rules → insert_prepared p rules (store w) = Ok (e, st) → step known w (set_store st w)
| step_save_draft w d v st :
    save_draft d (store w) = Ok (v, st) → step known w (set_store st w)
| step_discard_draft w i v st :
    discard_draft i v (store w) = Ok st → step known w (set_store st w)
| step_put_snapshot w s now st :
    put_snapshot s now (store w) = Ok st → step known w (set_store st w)
| step_save_blame w i key found now st :
    save_blame i key found now (store w) = Ok st → step known w (set_store st w)
| step_save_view w i v st :
    save_view i v (store w) = Ok st → step known w (set_store st w)
| step_show_recent w i now : step known w (set_store (show_recent i now (store w)) w)
| step_hide_recent w i : step known w (set_store (hide_recent i (store w)) w)
| step_match w i e :
    operation i (store w) = Ok e → state e = OutboxState.UnknownOutcome →
    step known w (mkWorld (store w) (requests w) (active w) (e :: matching w))
| step_reconcile w rules a e e' st :
    known rules → e ∈ matching w → reconciled rules a e = Ok (Some e') →
    transition e' rules (store w) = Ok st → step known w (set_store st w)
| step_check w rules a p e :
    known rules → active w !! rules_id rules = None → publish_check rules a p (store w) = Ok e →
    step known w (set_active (<[rules_id rules := Checked p e]> (active w)) w)
| step_reject w rules p e st :
    known rules → active w !! rules_id rules = Some (Checked p e) →
    state e = OutboxState.Rejected → transition e rules (store w) = Ok st →
    step known w (set_active (delete (rules_id rules) (active w)) (set_store st w))
| step_fly w rules p e st :
    known rules → active w !! rules_id rules = Some (Checked p e) →
    state e ≠ OutboxState.Rejected → transition e rules (store w) = Ok st →
    step known w (set_active (<[rules_id rules := Flying p e]> (active w)) (set_store st w))
| step_send w k p e :
    active w !! k = Some (Flying p e) →
    step known w (mkWorld (store w) (requests w ++ [op_id p]) (<[k := Sent p e]> (active w))
                    (matching w))
| step_finish w rules a p e st :
    known rules → active w !! rules_id rules = Some (Sent p e) →
    transition (after_send rules a p e) rules (store w) = Ok st →
    step known w (set_active (delete (rules_id rules) (active w)) (set_store st w))
| step_fail w k : step known w (set_active (delete k (active w)) w)
| step_restart w st :
    open_store (store w) = Ok st → step known w (mkWorld st (requests w) ∅ []).

Definition start : World := mkWorld empty_store [] ∅ [].
Definition reachable (known : ReviewRules → Prop) (w : World) : Prop := rtc (step known) start w.

End outbox.
