(* ===== verification/OutboxFacts.v ===== *)
(** * Publishing: what is confirmed, and that nothing is sent twice *)

From S2P Require Import Prelude RustStr Utf8 Domain Patch PatchFacts BTree Overview Snapshot.
From S2P Require Import SnapshotFacts F32 Session SessionFacts Review ReviewFacts Store.
From S2P Require Import StoreFacts Json Outbox.

Section facts.
Context {sha_ : Sha256} {source_ : SourceJson} {review_ : ReviewJson} {key_ : ReleasesKey}
  {json_ : JsonValue}.
Implicit Types (known : ReviewRules → Prop) (rules : ReviewRules) (st : Store) (e : OutboxEntry) (p : PreparedReview).

(** ** Matching a review *)

Lemma comment_lt_strict : strict_total comment_lt.
Proof.
  unfold comment_lt. repeat apply pair_lt_strict; auto using lex_lt_strict, N_ltb_strict.
Qed.

(** A review on the server matches an operation exactly when its metadata does and its
    comments are the operation's comments in some order, each with the same path, text,
    side and lines: none missing, none added, none twice. *)
Theorem matches_review_iff p r cs marked :
  matches_review p r cs marked = true ↔
  matches_metadata p r marked = true ∧
  ∃ keys, mapM comment_key cs = Some keys ∧
          (expected_key <$> prepared_comments p) ≡ₚ keys.
Proof.
  unfold matches_review. destruct (matches_metadata p r marked); cbn [negb orb].
  2:{ split; [done|by intros []]. }
  destruct (mapM comment_key cs) as [keys|] eqn:E.
  - apply mapM_Some_1, Forall2_length in E.
    split.
    + destruct (length cs =? _)%nat eqn:El; cbn [negb]; [|done].
      rewrite bool_decide_eq_true, (merge_sort_eq_iff _ comment_lt_strict). eauto.
    + intros (_ & ? & [= <-] & Hp). pose proof (Permutation_length Hp) as Hlen.
      rewrite length_fmap in Hlen. rewrite (proj2 (Nat.eqb_eq _ _)) by lia. cbn [negb].
      by rewrite bool_decide_eq_true, (merge_sort_eq_iff _ comment_lt_strict).
  - split; [by destruct (negb _)|]. by intros (_ & ? & ? & _).
Qed.

(** A comment value that has no line, as a comment on a whole file. *)
Definition lineless (c : Value) : Prop :=
  as_u64 (index c (bs "line")) = None ∧ as_u64 (index c (bs "original_line")) = None.

Lemma mapM_None_in {A B} (g : A → option B) (l : list A) x :
  x ∈ l → g x = None → mapM g l = None.
Proof.
  intros Hin Hg. destruct (mapM g l) as [k|] eqn:E; [|done].
  apply mapM_Some_1 in E. apply list_elem_of_lookup in Hin as [i Hi].
  destruct (Forall2_lookup_l _ _ _ _ _ E Hi) as (y & _ & Hy). congruence.
Qed.

Lemma lineless_no_match p r cs c marked : c ∈ cs → lineless c → matches_review p r cs marked = false.
Proof.
  intros Hin [H1 H2]. unfold matches_review. destruct (_ || _); [done|].
  rewrite (mapM_None_in _ _ c); [done|done|]. unfold comment_key. by rewrite H1, H2.
Qed.
(** Only the review that was posted is looked at. *)
Lemma find_matches_lineless rules a e i cs c rs ms :
  remote_id e = Some i → review_comments a i = Ok cs → c ∈ cs → lineless c →
  find_matches rules a e rs = Ok ms → ms = [].
Proof.
  intros Hi Hcs Hin Hc. revert ms. induction rs as [|r rs IH]; intros ms; cbn [find_matches]; [by intros [= <-]|].
  destruct (as_u64 _) as [j|]; [|by apply IH]. rewrite Hi.
  destruct (i =? j)%N eqn:Ej; cbn [negb]; [|by apply IH]. apply N.eqb_eq in Ej as <-.
  destruct (negb _); [by apply IH|]. rewrite Hcs. cbn [mbind result_bind].
  destruct (find_matches rules a e rs) as [ms'|]; [|done]. cbn [mbind result_bind].
  rewrite (lineless_no_match _ _ _ _ _ Hin Hc). intros [= <-]. by apply IH.
Qed.

(** C25: A review whose comments the server lists with one that has no line is never confirmed,
    however exactly the server has accepted it: [publish] records it as unknown, and as long as the
    server lists such a comment, reconciling leaves it as it is. *)
Theorem lineless_comment_never_confirmed rules a p e response i cs c :
  send a = Accepted response → as_u64 (index response (bs "id")) = Some i →
  review_comments a i = Ok cs → c ∈ cs → lineless c →
  let sent := after_send rules a p e in
  state sent = OutboxState.UnknownOutcome ∧
  ∀ later cs' c' k st e' st',
    review_comments later i = Ok cs' → c' ∈ cs' → lineless c' → operation k st = Ok sent →
    reconcile rules later k st = Ok (e', st') → e' = sent ∧ st' = st.
Proof.
  intros Hs Hi Hcs Hin Hc sent.
  assert (state sent = OutboxState.UnknownOutcome ∧ remote_id sent = Some i) as [Hst Hid].
  { subst sent. unfold after_send. by rewrite Hs, Hi, Hcs, (lineless_no_match _ _ _ _ _ Hin Hc). }
  split; [done|]. intros later cs' c' k st e' st' Hcs' Hin' Hc' Hop Hr.
  unfold reconcile in Hr. rewrite Hop in Hr. cbn [mbind result_bind] in Hr.
  rewrite Hst, bool_decide_true in Hr by done. cbn [negb] in Hr. unfold reconciled in Hr.
  destruct (current1 later) as [t|]; [|done]. cbn [mbind result_bind] in Hr.
  destruct (negb _) in Hr; [done|]. destruct (reviews later) as [rs|]; [|done]. cbn [mbind result_bind] in Hr.
  destruct (find_matches rules later sent rs) as [ms|] eqn:Em; [|done]. cbn [mbind result_bind] in Hr.
  apply (find_matches_lineless _ _ _ _ _ _ _ _ Hid Hcs' Hin' Hc') in Em as ->. by injection Hr as <- <-.
Qed.

(** ** Transitions *)

Definition stored st k : option OutboxEntry := get k (t_outbox st).

Lemma write_transition_Ok e r st st' :
  write_transition e r st = Ok st' →
  ∃ old, stored st (op_id (prepared e)) = Some old ∧
    fingerprint (prepared old) = fingerprint (prepared e) ∧
    (∀ rules, r = Some rules → verify (prepared e) rules = true) ∧
    OutboxState.can_transition (state old) (state e) = true ∧
    t_outbox st' = insert_key (op_id (prepared e)) e (t_outbox st) ∧
    t_drafts st' = (if bool_decide (state e = OutboxState.Confirmed)
                    then foldl publish_draft (t_drafts st) (prepared_comments (prepared e))
                    else t_drafts st).
Proof.
  unfold write_transition, operation. intros Ht.
  apply bind_Ok in Ht as (old & Hold%ok_or_Ok & Ht). exists old. split; [done|].
  pass Ht as E1. pass Ht as E2. apply negb_false_iff in E2.
  apply orb_false_iff in E1 as [E1%negb_false_iff%bool_decide_eq_true E3].
  split; [done|]. split; [intros rules ->; by apply negb_false_iff in E3|]. split; [done|].
  destruct (bool_decide (state e = OutboxState.Confirmed)).
  - pass Ht as E4. by injection Ht as <-.
  - by injection Ht as <-.
Qed.

Lemma stored_transition e r st st' k :
  write_transition e r st = Ok st' →
  stored st' k = if bool_decide (k = op_id (prepared e)) then Some e else stored st k.
Proof.
  intros (old & _ & _ & _ & _ & Ho & _)%write_transition_Ok. unfold stored.
  by rewrite Ho, get_insert.
Qed.

(** ** The invariant *)

(** Two reviews that verify with one fingerprint have one target: [verified_fingerprint_binds]
    gives it, a hash collision apart. *)
Definition checked_by known p : Prop := ∃ rules, known rules ∧ verify p rules = true.
Definition fingerprints_bind known : Prop := ∀ p1 p2,
  checked_by known p1 → checked_by known p2 → fingerprint p1 = fingerprint p2 →
  target p1 = target p2.

Lemma same_pr_spec a b :
  same_pr a b = true ↔
  provider a = provider b ∧ repository a = repository b ∧ pr a = pr b ∧ account a = account b.
Proof. unfold same_pr. rewrite !andb_true_iff, !bool_decide_eq_true. tauto. Qed.
Lemma same_pr_sym a b : same_pr a b = true → same_pr b a = true.
Proof. rewrite !same_pr_spec. naive_solver. Qed.

(** No other operation on the same pull request is unresolved. *)
Definition quiet st (k : OperationId) (t : RemoteTarget) : Prop :=
  ∀ j e, stored st j = Some e → j ≠ k → same_pr (target (prepared e)) t = true →
         unresolved (state e) = false.

(** A confirmed operation that sent this text of this draft. *)
Definition evidence st (d : Draft) : Prop :=
  ∃ j e c, stored st j = Some e ∧ state e = OutboxState.Confirmed ∧
    c ∈ prepared_comments (prepared e) ∧ pc_draft c = draft_id d ∧
    pc_version c = version d ∧ pc_body c = draft_body d.

Record store_inv known st : Prop := {
  si_ordered : ordered (t_outbox st);
  si_entries k e : stored st k = Some e →
    op_id (prepared e) = k ∧ checked_by known (prepared e);
  si_quiet k e : stored st k = Some e → unresolved (state e) = true →
    quiet st k (target (prepared e));
  si_drafts k d : (k, d) ∈ t_drafts st →
    draft_id d = k ∧ (published d = true → evidence st d)
}.

Definition not_prepared st k : Prop :=
  ∃ e, stored st k = Some e ∧ state e ≠ OutboxState.Prepared.

Definition publishing_inv st (reqs : list OperationId) (k : bytes) (x : Publishing) : Prop :=
  match x with
  | Sent _ _ => True
  | Checked p e =>
      provider (target (prepared e)) = k ∧ op_id (prepared e) = op_id p ∧
      (state e = OutboxState.Rejected ∨
       state e = OutboxState.InFlight ∧ quiet st (op_id p) (target (prepared e)))
  | Flying p e =>
      op_id p ∉ reqs ∧
      ∃ e', stored st (op_id p) = Some e' ∧ state e' ≠ OutboxState.Prepared ∧
            provider (target (prepared e')) = k
  end.

Record world_inv known (w : World) : Prop := {
  wi_store : store_inv known (store w);
  wi_sent : Forall (not_prepared (store w)) (requests w);
  wi_once : NoDup (requests w);
  wi_active k x : active w !! k = Some x → publishing_inv (store w) (requests w) k x
}.

(** No operation is lost, none is prepared again and a confirmed one stays as it is. *)
Definition keeps st st' : Prop :=
  ∀ k e, stored st k = Some e →
    ∃ e', stored st' k = Some e' ∧ target (prepared e') = target (prepared e) ∧
      (e' = e ∨ state e ≠ OutboxState.Confirmed ∧ state e' ≠ OutboxState.Prepared).
Definition keeps_quiet st st' : Prop := ∀ k t, quiet st k t → quiet st' k t.

Lemma keeps_not_prepared st st' k : keeps st st' → not_prepared st k → not_prepared st' k.
Proof.
  intros Hle (e & He & Hs). destruct (Hle _ _ He) as (e' & He' & _ & [->|[_ Ht]]); [by exists e|].
  by exists e'.
Qed.

Lemma keeps_confirmed st st' k e :
  keeps st st' → stored st k = Some e → state e = OutboxState.Confirmed → stored st' k = Some e.
Proof.
  intros Hle He Hs. by destruct (Hle _ _ He) as (e' & He' & _ & [->|[? _]]).
Qed.

Lemma keeps_evidence st st' d : keeps st st' → evidence st d → evidence st' d.
Proof.
  intros Hle (j & e & c & He & Hs & Hrest). exists j, e, c. split; [|done].
  by eapply keeps_confirmed.
Qed.

Lemma keeps_same st st' : t_outbox st' = t_outbox st → keeps st st' ∧ keeps_quiet st st'.
Proof.
  intros Heq. unfold keeps, keeps_quiet, quiet, stored. rewrite Heq.
  split; [|done]. intros k e He. exists e. auto.
Qed.

(** A call of [publish] of another provider is not disturbed. *)
Lemma publishing_inv_keeps st st' reqs k x :
  keeps st st' → (∀ i t, provider t = k → quiet st i t → quiet st' i t) →
  publishing_inv st reqs k x → publishing_inv st' reqs k x.
Proof.
  intros Hle Hq. destruct x as [p e|p e|p e]; cbn; [| |done].
  - intros (Hp & Hid & [Hr|[Hr Hk]]); (split; [exact Hp|split; [exact Hid|]]); [by left|right].
    split; [exact Hr|]. by apply Hq.
  - intros (Hreq & e0 & He0 & Hs & Hp). split; [exact Hreq|].
    destruct (Hle _ _ He0) as (e1 & He1 & Ht & [->|[_ Hs1]]); [by exists e0|].
    exists e1. by rewrite Ht.
Qed.

Lemma world_inv_move known w st' :
  world_inv known w → store_inv known st' → keeps (store w) st' → keeps_quiet (store w) st' →
  world_inv known (set_store st' w).
Proof.
  intros [Hs Hf Hnd Ha] Hs' Hle Hq. split; cbn; [done| |done|].
  - eapply Forall_impl; [exact Hf|]. intros k. by apply keeps_not_prepared.
  - intros k x Hx. eapply publishing_inv_keeps; [done|by intros i t _; apply Hq|by apply Ha].
Qed.

(** The same with other calls of [publish], each as it should be. *)
Lemma world_inv_change known w st' m ms :
  world_inv known w → store_inv known st' → keeps (store w) st' →
  (∀ k x, m !! k = Some x → publishing_inv st' (requests w) k x) →
  world_inv known (mkWorld st' (requests w) m ms).
Proof.
  intros [Hs Hf Hnd Ha] Hs' Hle Hm. split; cbn; [done| |done|done].
  eapply Forall_impl; [exact Hf|]. intros k. by apply keeps_not_prepared.
Qed.
Lemma world_inv_end known w st' k :
  world_inv known w → store_inv known st' → keeps (store w) st' → keeps_quiet (store w) st' →
  world_inv known (set_active (delete k (active w)) (set_store st' w)).
Proof.
  intros Hw Hs' Hle Hq. apply (world_inv_change known w st'); [done..|].
  intros j x [_ Hx]%lookup_delete_Some. pose proof (world_inv_move _ _ _ Hw Hs' Hle Hq) as Hw'.
  exact (wi_active _ _ Hw' j x Hx).
Qed.

Lemma keeps_trans st1 st2 st3 : keeps st1 st2 → keeps st2 st3 → keeps st1 st3.
Proof.
  intros H12 H23 k e He. destruct (H12 _ _ He) as (e2 & He2 & Ht2 & Hm2).
  destruct (H23 _ _ He2) as (e3 & He3 & Ht3 & Hm3). exists e3. split; [done|].
  split; [congruence|].
  destruct Hm2 as [->|[? ?]]; [done|]. destruct Hm3 as [->|[? ?]]; by right.
Qed.

(** ** Each operation of the store keeps the invariant *)

(** A write of [e] over [old] as [write_transition] allows it. *)
Record allowed known st e old : Prop := {
  al_old : stored st (op_id (prepared e)) = Some old;
  al_verify : checked_by known (prepared e);
  al_target : target (prepared old) = target (prepared e);
  al_move : OutboxState.can_transition (state old) (state e) = true;
  al_quiet : state e = OutboxState.InFlight →
             quiet st (op_id (prepared e)) (target (prepared e))
}.

Section one_transition.
Context known e old st st' (Hinv : store_inv known st) (Hal : allowed known st e old)
  (Hst : ∀ k, stored st' k = if bool_decide (k = op_id (prepared e)) then Some e else stored st k).

Lemma stored_new : stored st' (op_id (prepared e)) = Some e.
Proof. by rewrite Hst, bool_decide_true. Qed.
Lemma stored_other k : k ≠ op_id (prepared e) → stored st' k = stored st k.
Proof. intros Hk. by rewrite Hst, bool_decide_false. Qed.

Lemma transition_keeps : keeps st st'.
Proof.
  intros k e0 He0. destruct (decide (k = op_id (prepared e))) as [->|Hne].
  - exists e. split; [apply stored_new|]. destruct Hal as [Hold _ Htarget Hmove _].
    rewrite He0 in Hold. injection Hold as <-. split; [done|]. right.
    by destruct (state e0), (state e).
  - exists e0. rewrite stored_other by done. auto.
Qed.

(** Only a move to [InFlight] makes an operation unresolved. *)
Lemma unresolved_old :
  state e ≠ OutboxState.InFlight → unresolved (state e) = true → unresolved (state old) = true.
Proof. intros Hne Hu. pose proof (al_move _ _ _ _ Hal). by destruct (state e), (state old). Qed.

Lemma transition_keeps_quiet k t :
  (state e = OutboxState.InFlight → same_pr (target (prepared e)) t = false) →
  quiet st k t → quiet st' k t.
Proof.
  intros Hfly Hk j e' Hj Hjk Hpr.
  destruct (decide (j = op_id (prepared e))) as [->|Hj'].
  - rewrite stored_new in Hj. injection Hj as <-.
    destruct (decide (state e = OutboxState.InFlight)) as [Hf|Hne].
    { rewrite Hfly in Hpr by done. done. }
    destruct (unresolved (state e)) eqn:Eu; [|done].
    apply (unresolved_old Hne) in Eu. rewrite <- Eu.
    apply (Hk _ _ (al_old _ _ _ _ Hal) Hjk). by rewrite (al_target _ _ _ _ Hal).
  - rewrite stored_other in Hj by done. by eapply Hk.
Qed.

Lemma new_quiet : unresolved (state e) = true → quiet st (op_id (prepared e)) (target (prepared e)).
Proof.
  intros Hu. destruct (decide (state e = OutboxState.InFlight)) as [Hf|Hf].
  - by apply (al_quiet _ _ _ _ Hal).
  - rewrite <- (al_target _ _ _ _ Hal). apply (si_quiet _ _ Hinv); [apply Hal|].
    by apply unresolved_old.
Qed.

Lemma transition_quiet k e1 :
  stored st' k = Some e1 → unresolved (state e1) = true → quiet st' k (target (prepared e1)).
Proof.
  intros H1 Hu j e2 H2 Hjk Hpr.
  destruct (decide (k = op_id (prepared e))) as [->|Hk].
  - rewrite stored_new in H1. injection H1 as <-. rewrite stored_other in H2 by done.
    by apply (new_quiet Hu _ _ H2).
  - rewrite stored_other in H1 by done.
    destruct (decide (j = op_id (prepared e))) as [->|Hj].
    + rewrite stored_new in H2. injection H2 as <-.
      destruct (unresolved (state e)) eqn:Eu; [|done].
      pose proof (new_quiet Eu _ _ H1 Hk (same_pr_sym _ _ Hpr)). congruence.
    + rewrite stored_other in H2 by done. by apply (si_quiet _ _ Hinv _ _ H1 Hu _ _ H2).
Qed.
End one_transition.

(** Drafts: a draft that becomes published has the new entry as its evidence. *)
Definition drafts_inv st (m : btree Draft) : Prop :=
  ∀ k d, (k, d) ∈ m → draft_id d = k ∧ (published d = true → evidence st d).

Lemma publish_drafts_inv st k e cs m :
  stored st k = Some e → state e = OutboxState.Confirmed →
  (∀ c, c ∈ cs → c ∈ prepared_comments (prepared e)) →
  drafts_inv st m → drafts_inv st (foldl publish_draft m cs).
Proof.
  intros He Hs. revert m. induction cs as [|c cs IH]; intros m Hcs Hm; [done|].
  cbn [foldl]. apply IH; [intros c' Hc'; apply Hcs; by right|].
  unfold publish_draft. destruct (get (pc_draft c) m) as [d|] eqn:Ed; [|done].
  destruct (_ && _) eqn:Em; [|done].
  apply andb_true_iff in Em as [Ev%N.eqb_eq Eb%bool_decide_eq_true].
  destruct (Hm _ _ (get_Some_in _ _ _ Ed)) as [Hid _].
  intros k' d' [[= -> ->]|Hin]%insert_key_elem; [|by apply Hm].
  split; [done|]. intros _. exists k, e, c. cbn. split_and!; try done. apply Hcs. by left.
Qed.

Lemma write_inv known e old r st st' :
  store_inv known st → allowed known st e old → write_transition e r st = Ok st' →
  store_inv known st' ∧ keeps st st' ∧
  ∀ k t, (state e = OutboxState.InFlight → same_pr (target (prepared e)) t = false) →
         quiet st k t → quiet st' k t.
Proof.
  intros Hinv Hal Ht. pose proof (λ k, stored_transition e r st st' k Ht) as Hst.
  pose proof (transition_keeps known e old st st' Hal Hst) as Hk.
  split; [|split; [done|by eapply transition_keeps_quiet]]. split.
  - pose proof Ht as (_ & _ & _ & _ & _ & -> & _)%write_transition_Ok.
    apply insert_key_ordered, Hinv.
  - intros k e0 He0. destruct (decide (k = op_id (prepared e))) as [->|Hne].
    + rewrite Hst, bool_decide_true in He0 by done. injection He0 as <-.
      split; [done|apply Hal].
    + rewrite Hst, bool_decide_false in He0 by done. by apply Hinv.
  - by eapply transition_quiet.
  - apply write_transition_Ok in Ht as (_ & _ & _ & _ & _ & _ & ->).
    assert (drafts_inv st' (t_drafts st)) as Hd.
    { intros k d Hd. destruct (si_drafts _ _ Hinv _ _ Hd) as [Hid Hp]. split; [done|].
      intros Hpub. by eapply keeps_evidence, Hp. }
    case_bool_decide as Hc; [|exact Hd].
    eapply publish_drafts_inv; [|exact Hc|done|exact Hd]. rewrite Hst. by rewrite bool_decide_true.
Qed.

Lemma drafts_only_inv known st st' :
  store_inv known st → t_outbox st' = t_outbox st →
  (∀ k d, (k, d) ∈ t_drafts st' →
     (k, d) ∈ t_drafts st ∨ (draft_id d = k ∧ published d = false)) →
  store_inv known st' ∧ keeps st st' ∧ keeps_quiet st st'.
Proof.
  intros [Hord He Hq Hd] Ho Hdr. destruct (keeps_same st st' Ho) as [Hk Hkq].
  split; [|done]. split.
  - by rewrite Ho.
  - intros k e. unfold stored. rewrite Ho. apply He.
  - intros k e Hs Hu. unfold stored in Hs. rewrite Ho in Hs. by apply Hkq, (Hq k).
  - intros k d Hg. destruct (Hdr _ _ Hg) as [Hold|[Hid Hp]]; [|split; [done|congruence]].
    destruct (Hd _ _ Hold) as [Hid Hp]. split; [done|]. intros Hpub.
    by eapply keeps_evidence, Hp.
Qed.

Lemma save_draft_inv known d st v st' :
  store_inv known st → save_draft d st = Ok (v, st') →
  store_inv known st' ∧ keeps st st' ∧ keeps_quiet st st'.
Proof.
  intros Hinv Hs. unfold save_draft in Hs. pass Hs as E1.
  apply bind_Ok in Hs as (s & _ & Hs). apply bind_Ok in Hs as (f & _ & Hs).
  pass Hs as E2. apply bind_Ok in Hs as (u & _ & Hs). pass Hs as E3. injection Hs as <- <-.
  apply (drafts_only_inv known st); [done..|]. intros k d'. cbn.
  intros [[= -> ->]|Hin]%insert_key_elem; [right; by split|by left].
Qed.

Lemma discard_draft_inv known i v st st' :
  store_inv known st → discard_draft i v st = Ok st' →
  store_inv known st' ∧ keeps st st' ∧ keeps_quiet st st'.
Proof.
  intros Hinv Hd. unfold discard_draft in Hd. destruct (get i (t_drafts st)); [|done].
  destruct (_ && _); [|done]. injection Hd as <-.
  apply (drafts_only_inv known st); [done..|]. intros k d' [_ Hin]%list_elem_of_filter.
  by left.
Qed.

(** The operations on the other tables. *)
Lemma same_drafts_inv known st st' :
  store_inv known st → t_outbox st' = t_outbox st → t_drafts st' = t_drafts st →
  store_inv known st' ∧ keeps st st' ∧ keeps_quiet st st'.
Proof. intros Hinv Ho Hd. apply (drafts_only_inv known st); [done..|]. rewrite Hd. by left. Qed.

Lemma put_snapshot_same s now st st' :
  put_snapshot s now st = Ok st' → t_outbox st' = t_outbox st ∧ t_drafts st' = t_drafts st.
Proof. unfold put_snapshot. intros Hp. pass Hp as E. by injection Hp as <-. Qed.
Lemma save_blame_same i key found now st st' :
  save_blame i key found now st = Ok st' → t_outbox st' = t_outbox st ∧ t_drafts st' = t_drafts st.
Proof. unfold save_blame. intros Hp. pass Hp as E. by injection Hp as <-. Qed.
Lemma save_view_same i v st st' :
  save_view i v st = Ok st' → t_outbox st' = t_outbox st ∧ t_drafts st' = t_drafts st.
Proof.
  unfold save_view. intros Hp. destruct (get i (t_views st)).
  - injection Hp as <-. by destruct (_ <=? _)%N.
  - destruct (contains_key _ _); [|done]. by injection Hp as <-.
Qed.
Lemma prune_inv known keep st :
  store_inv known st →
  store_inv known (prune keep st).2 ∧ keeps st (prune keep st).2 ∧
  keeps_quiet st (prune keep st).2.
Proof.
  intros Hinv. apply (drafts_only_inv known st); [done..|].
  intros k d [_ Hin]%list_elem_of_filter. by left.
Qed.

Lemma insert_prepared_inv known rules p st e st' :
  known rules → store_inv known st → insert_prepared p rules st = Ok (e, st') →
  store_inv known st' ∧ keeps st st' ∧ keeps_quiet st st'.
Proof.
  intros Hkn [Hord He Hq Hd] Hi. unfold insert_prepared in Hi. pass Hi as Ev.
  destruct (get (op_id p) (t_outbox st)) eqn:Eg; [done|]. injection Hi as <- <-.
  set (e := mkOutboxEntry p OutboxState.Prepared [] None None).
  set (st' := set_t_outbox _ st).
  assert (∀ k, stored st' k = if bool_decide (k = op_id p) then Some e else stored st k) as Hst.
  { intros k. apply get_insert. }
  assert (keeps st st') as Hk.
  { intros k e0 He0. exists e0. rewrite Hst, bool_decide_false; [auto|].
    intros ->. unfold stored in He0. congruence. }
  assert (keeps_quiet st st') as Hkq.
  { intros k t Hk' j e' Hj Hne Hpr. rewrite Hst in Hj. case_bool_decide; [|by eapply Hk'].
    by injection Hj as <-. }
  split; [|done]. split.
  - by apply insert_key_ordered.
  - intros k e0 He0. rewrite Hst in He0. case_bool_decide as Hkp; [|by apply He].
    injection He0 as <-. split; [done|]. exists rules. split; [done|]. by apply negb_false_iff in Ev.
  - intros k e0 He0 Hu. rewrite Hst in He0. case_bool_decide; [by injection He0 as <-|].
    by apply Hkq, (Hq k).
  - intros k d Hg. destruct (Hd _ _ Hg) as [Hid Hp]. split; [done|]. intros Hpub.
    by eapply keeps_evidence, Hp.
Qed.

Lemma transition_allowed known e r st st' :
  fingerprints_bind known → store_inv known st → checked_by known (prepared e) →
  (state e = OutboxState.InFlight → quiet st (op_id (prepared e)) (target (prepared e))) →
  write_transition e r st = Ok st' → ∃ old, allowed known st e old.
Proof.
  intros Hbind Hinv Hv Hq Ht. apply write_transition_Ok in Ht as (old & Hold & Hfp & _ & Hcan & _).
  exists old. split; try done. apply Hbind; [|done|done]. by apply (si_entries _ _ Hinv _ _ Hold).
Qed.

Lemma transition_inv known rules e st st' :
  fingerprints_bind known → known rules → store_inv known st →
  (state e = OutboxState.InFlight → quiet st (op_id (prepared e)) (target (prepared e))) →
  transition e rules st = Ok st' →
  store_inv known st' ∧ keeps st st' ∧
  ∀ k t, (state e = OutboxState.InFlight → same_pr (target (prepared e)) t = false) →
         quiet st k t → quiet st' k t.
Proof.
  intros Hbind Hkn Hinv Hq Ht.
  assert (checked_by known (prepared e)) as Hv.
  { apply write_transition_Ok in Ht as (? & _ & _ & Hv & _). exists rules. split; [done|by apply Hv]. }
  destruct (transition_allowed known e (Some rules) st st' Hbind Hinv Hv Hq Ht) as [old Hal].
  by eapply write_inv.
Qed.

Lemma reconciled_confirmed rules a e e' :
  reconciled rules a e = Ok (Some e') → state e' = OutboxState.Confirmed.
Proof.
  unfold reconciled. intros Hr. apply bind_Ok in Hr as (cur & _ & Hr). pass Hr as Ea.
  apply bind_Ok in Hr as (rs & _ & Hr). apply bind_Ok in Hr as (ms & _ & Hr).
  destruct ms as [|m [|]]; [done| |done]. by injection Hr as <-.
Qed.
Lemma confirm_inv known rules e st st' :
  fingerprints_bind known → known rules → store_inv known st →
  state e = OutboxState.Confirmed → transition e rules st = Ok st' →
  store_inv known st' ∧ keeps st st' ∧ keeps_quiet st st'.
Proof.
  intros Hbind Hkn Hinv Hs Ht.
  apply (transition_inv known) in Ht as (? & ? & Hq); [|done..|congruence].
  split_and!; [done|done|]. intros k t. apply Hq. congruence.
Qed.

Lemma recover_entries_inv known es st st' :
  fingerprints_bind known → store_inv known st →
  Forall (λ e, checked_by known (prepared e)) es → recover_entries es st = Ok st' →
  store_inv known st' ∧ keeps st st'.
Proof.
  intros Hbind Hinv Hes. revert st Hinv. induction Hes as [|e es Hv _ IH]; intros st Hinv Hr.
  - injection Hr as <-. split; [done|]. by apply keeps_same.
  - cbn [recover_entries] in Hr. case_bool_decide as Hs; [|by apply IH].
    apply bind_Ok in Hr as (st1 & Ht & Hr).
    destruct (transition_allowed known (interrupted e) None st st1 Hbind Hinv Hv) as [old Hal];
      [done..|].
    destruct (write_inv _ _ _ _ _ _ Hinv Hal Ht) as (Hinv1 & Hk1 & _).
    destruct (IH st1 Hinv1 Hr) as [Hinv2 Hk2]. split; [done|].
    by eapply keeps_trans.
Qed.

(** ** Steps *)

Lemma publish_check_Ok rules a p st e :
  publish_check rules a p st = Ok e →
  ∃ old, stored st (op_id p) = Some old ∧ state old = OutboxState.Prepared ∧
    prepared e = prepared old ∧ fingerprint (prepared old) = fingerprint p ∧
    verify p rules = true ∧
    (∀ j x, stored st j = Some x → op_id (prepared x) ≠ op_id p →
       same_pr (target (prepared x)) (target p) = true → unresolved (state x) = false) ∧
    (state e = OutboxState.Rejected ∨
     state e = OutboxState.InFlight ∧ current1 a = Ok (target p) ∧ current2 a = Ok (target p) ∧
     open (target p) = true ∧ pending_review (target p) = false ∧
     Forall (λ c, draft_unchanged (stored_drafts (op_snapshot p) st) c = true)
       (prepared_comments p)).
Proof.
  unfold publish_check, operation. intros Hc. apply bind_Ok in Hc as (old & Hold%ok_or_Ok & Hc).
  exists old. split; [done|]. pass Hc as E1. pass Hc as E2.
  apply orb_false_iff in E1 as [[E1 E3]%orb_false_iff E4].
  apply negb_false_iff in E1, E3, E4. apply bool_decide_eq_true in E1, E3.
  assert (∀ j x, stored st j = Some x → op_id (prepared x) ≠ op_id p →
    same_pr (target (prepared x)) (target p) = true → unresolved (state x) = false) as Hq.
  { intros j x Hx Hne Hpr. destruct (unresolved (state x)) eqn:Eu; [|done].
    rewrite <- E2. symmetry. apply existsb_exists. exists x. split.
    - apply list_elem_of_In. apply get_Some_in in Hx.
      by apply (list_elem_of_fmap_2 snd) in Hx.
    - rewrite bool_decide_false by done. by rewrite Hpr, Eu. }
  apply bind_Ok in Hc as (cur & Hcur & Hc).
  destruct (negb (bool_decide (cur = target p)) || negb (open cur) || pending_review cur) eqn:E5.
  { injection Hc as <-. split_and!; try done. by left. }
  apply orb_false_iff in E5 as [[E5%negb_false_iff E6%negb_false_iff]%orb_false_iff E7].
  apply bool_decide_eq_true in E5 as ->. pass Hc as E8. apply negb_false_iff in E8.
  apply bind_Ok in Hc as (rs & _ & Hc). apply bind_Ok in Hc as (cur2 & Hcur2 & Hc).
  pass Hc as E9. apply negb_false_iff, bool_decide_eq_true in E9 as ->.
  injection Hc as <-. split_and!; try done. right. split_and!; try done.
  apply Forall_forall. intros c Hin. rewrite forallb_forall in E8.
  by apply E8, list_elem_of_In.
Qed.

Lemma after_send_state rules a p e : state (after_send rules a p e) ≠ OutboxState.InFlight.
Proof. unfold after_send. by repeat case_match. Qed.

Lemma step_fly_inv known rules w p e st' :
  fingerprints_bind known → known rules → world_inv known w →
  active w !! rules_id rules = Some (Checked p e) →
  state e ≠ OutboxState.Rejected → transition e rules (store w) = Ok st' →
  world_inv known (set_active (<[rules_id rules := Flying p e]> (active w)) (set_store st' w)).
Proof.
  intros Hbind Hkn Hw Hact Hst Ht. pose proof Hw as [Hs Hf Hnd Ha].
  destruct (Ha _ _ Hact) as (Hprov & Hid & [?|[Hfly Hq]]); [done|].
  pose proof Ht as (old & Hold & _ & _ & Hcan & _)%write_transition_Ok.
  pose proof Ht as Ht'.
  apply (transition_inv known) in Ht as (Hs' & Hk & Hkq); [|done..|by rewrite Hid].
  apply (world_inv_change known w st'); [done..|]. intros k x Hx.
  apply lookup_insert_Some in Hx as [[<- <-]|[Hne Hx]].
  - rewrite Hid in Hold. rewrite Hfly in Hcan.
    assert (state old = OutboxState.Prepared) as Hprep by by destruct (state old).
    split.
    + intros Hin. rewrite Forall_forall in Hf. destruct (Hf _ Hin) as (e0 & He0 & Hne). congruence.
    + exists e. rewrite (stored_transition e (Some rules) _ _ _ Ht'), Hid.
      rewrite bool_decide_true by done. split_and!; [done|congruence|done].
  - eapply publishing_inv_keeps; [exact Hk| |by apply Ha].
    intros i t Hpt. apply Hkq. intros _. apply not_true_is_false. intros Hpr.
    apply same_pr_spec in Hpr as (Hpr & _). congruence.
Qed.

Lemma step_check_inv known rules a w p e :
  fingerprints_bind known → known rules → world_inv known w →
  publish_check rules a p (store w) = Ok e →
  world_inv known (set_active (<[rules_id rules := Checked p e]> (active w)) w).
Proof.
  intros Hbind Hkn Hw Hc. pose proof Hw as [Hs Hf Hnd Ha].
  apply publish_check_Ok in Hc as (old & Hold & _ & Hpe & Hfp & Hv & Hq & Hst).
  destruct (si_entries _ _ Hs _ _ Hold) as [Hid Hvold].
  assert (checked_by known p) as Hvp by (by exists rules).
  apply (world_inv_change known w (store w)); [done|done|by apply keeps_same|].
  intros k x Hx. apply lookup_insert_Some in Hx as [[<- <-]|[_ Hx]]; [|by apply Ha].
  split_and!.
  - rewrite Hpe, (Hbind _ _ Hvold Hvp Hfp). by apply andb_true_iff in Hv as [Hv%bool_decide_eq_true _].
  - by rewrite Hpe.
  - destruct Hst as [Hr|[Hfly _]]; [by left|right]. split; [done|].
    rewrite Hpe, (Hbind _ _ Hvold Hvp Hfp). intros j y Hy Hne Hpr. apply (Hq j y Hy); [|done].
    destruct (si_entries _ _ Hs _ _ Hy) as [-> _]. done.
Qed.

Lemma step_send_inv known w k p e :
  world_inv known w → active w !! k = Some (Flying p e) →
  world_inv known (mkWorld (store w) (requests w ++ [op_id p]) (<[k := Sent p e]> (active w))
                     (matching w)).
Proof.
  intros [Hs Hf Hnd Ha] Hact. destruct (Ha _ _ Hact) as (Hnin & e1 & He1 & Hne1 & Hp1).
  split; cbn; [done| | |].
  - apply Forall_app_2; [done|]. constructor; [by exists e1|constructor].
  - apply NoDup_app. split_and!; [done| |apply NoDup_singleton].
    intros i Hi ->%list_elem_of_singleton. done.
  - intros j x Hx. apply lookup_insert_Some in Hx as [[<- <-]|[Hne Hx]]; [done|].
    apply Ha in Hx. destruct x as [p2 e2|p2 e2|p2 e2]; [done| |done].
    destruct Hx as (Hnin2 & e2' & He2 & Hne2 & Hp2). split; [|by exists e2'].
    rewrite elem_of_app, list_elem_of_singleton. intros [?|Heq]; [done|]. congruence.
Qed.

Lemma step_inv known w w' :
  fingerprints_bind known → world_inv known w → step known w w' → world_inv known w'.
Proof.
  intros Hbind Hw Hstep. pose proof (wi_store _ _ Hw) as Hs.
  destruct Hstep as [w rules p e st Hkn Hp|w d v st Hd|w i v st Hd|w s now st Hp
    |w i key found now st Hp|w i v st Hp|w i now|w i|w i e He Hst|w rules a e e' st Hkn Hin Hr Ht
    |w rules a p e Hkn Ha Hc|w rules p e st Hkn Ha He Ht|w rules p e st Hkn Ha He Ht|w k p e Ha
    |w rules a p e st Hkn Ha Ht|w k|w st Hr].
  - apply (insert_prepared_inv known) in Hp as (? & ? & ?); [|done..]. by apply world_inv_move.
  - apply (save_draft_inv known) in Hd as (? & ? & ?); [|done]. by apply world_inv_move.
  - apply (discard_draft_inv known) in Hd as (? & ? & ?); [|done]. by apply world_inv_move.
  - apply put_snapshot_same in Hp as [Ho Hd].
    destruct (same_drafts_inv known _ _ Hs Ho Hd) as (? & ? & ?). by apply world_inv_move.
  - apply save_blame_same in Hp as [Ho Hd].
    destruct (same_drafts_inv known _ _ Hs Ho Hd) as (? & ? & ?). by apply world_inv_move.
  - apply save_view_same in Hp as [Ho Hd].
    destruct (same_drafts_inv known _ _ Hs Ho Hd) as (? & ? & ?). by apply world_inv_move.
  - destruct (same_drafts_inv known _ (show_recent i now (store w)) Hs eq_refl eq_refl)
      as (? & ? & ?). by apply world_inv_move.
  - destruct (same_drafts_inv known _ (hide_recent i (store w)) Hs eq_refl eq_refl)
      as (? & ? & ?). by apply world_inv_move.
  - apply (world_inv_change known w (store w)); [done|done|by apply keeps_same|]. apply Hw.
  - apply reconciled_confirmed in Hr.
    apply (confirm_inv known) in Ht as (? & ? & ?); [|done..]. by apply world_inv_move.
  - by eapply step_check_inv.
  - apply (transition_inv known) in Ht as (? & ? & Hq); [|done..|congruence].
    apply world_inv_end; [done..|]. intros k t. apply Hq. congruence.
  - by eapply step_fly_inv.
  - by eapply step_send_inv.
  - pose proof (after_send_state rules a p e) as Hne.
    apply (transition_inv known) in Ht as (? & ? & Hq); [|done..].
    apply world_inv_end; [done..|]. intros k t. by apply Hq.
  - apply (world_inv_change known w (store w)); [done|done|by apply keeps_same|].
    intros j x [_ Hx]%lookup_delete_Some. by apply Hw.
  - unfold open_store in Hr. apply bind_Ok in Hr as (st1 & Hr & [= <-]).
    apply (recover_entries_inv known) in Hr as [Hs1 Hk1]; [|done|done|].
    + destruct (prune_inv known keep_recent st1 Hs1) as (Hs2 & Hk2 & _).
      apply (world_inv_change known w); [done|done|by eapply keeps_trans|done].
    + apply Forall_forall. intros e Hin. unfold outbox in Hin.
      apply list_elem_of_fmap in Hin as ([k e'] & -> & Hin). cbn.
      apply ordered_get in Hin; [|apply Hs]. by apply (si_entries _ _ Hs) in Hin as [_ ?].
Qed.

Lemma reachable_inv known w : fingerprints_bind known → reachable known w → world_inv known w.
Proof.
  intros Hbind Hr. unfold reachable in Hr.
  apply (rtc_ind_r (R:=step known) (world_inv known) start); [| |done].
  - split; cbn; [|constructor|constructor|done]. split; [constructor|done..|].
    intros k d []%not_elem_of_nil.
  - intros w1 w2 _ Hstep Hinv. by eapply step_inv.
Qed.

(** C1: nothing is sent twice. However publishing, preparing, saving, discarding,
    reconciling, failures and crashes with restarts interleave: every operation is sent to
    the server at most once; a sent operation is never prepared again; one pull request
    and account never has two operations whose outcome is open; and a draft is marked
    published only when a confirmed operation sent exactly its text. *)
Theorem never_sent_twice known w :
  fingerprints_bind known → reachable known w →
  NoDup (requests w) ∧
  Forall (not_prepared (store w)) (requests w) ∧
  (∀ k1 k2 e1 e2, operation k1 (store w) = Ok e1 → operation k2 (store w) = Ok e2 →
     unresolved (state e1) = true → unresolved (state e2) = true →
     same_pr (target (prepared e1)) (target (prepared e2)) = true → k1 = k2) ∧
  (∀ k d, get k (t_drafts (store w)) = Some d → published d = true → evidence (store w) d).
Proof.
  intros Hbind Hr. destruct (reachable_inv known w Hbind Hr) as [Hs Hf Hnd _].
  split_and!; [done|done| |].
  - intros k1 k2 e1 e2 H1%ok_or_Ok H2%ok_or_Ok Hu1 Hu2 Hpr.
    destruct (decide (k1 = k2)) as [|Hne]; [done|].
    pose proof (si_quiet _ _ Hs _ _ H2 Hu2 _ _ H1 Hne Hpr). congruence.
  - intros k d Hd%get_Some_in Hp. by apply (si_drafts _ _ Hs) in Hd as [_ He]; auto.
Qed.

(** The uninterrupted call of [publish] is one of the runs the steps allow: it sends
    what the steps send, and leaves the store they leave. *)
Theorem publish_is_run known rules a p w :
  known rules → active w !! rules_id rules = None →
  let '(_, st', n) := publish rules a p (store w) in
  rtc (step known) w (mkWorld st' (requests w ++ replicate n (op_id p)) (active w) (matching w)).
Proof.
  intros Hkn Hfree. unfold publish. destruct (publish_check rules a p (store w)) as [e|m] eqn:Ec.
  2:{ rewrite app_nil_r. by destruct w. }
  set (k := rules_id rules) in *.
  assert (∀ x, delete k (<[k := x]> (active w)) = active w) as Hdel.
  { intros x. by rewrite delete_insert_eq, delete_id. }
  assert (step known w (set_active (<[k := Checked p e]> (active w)) w)) as Hcheck.
  { by eapply step_check. }
  assert (∀ st, transition e rules (store w) = Ok st →
    ∀ x, active (set_active (<[k := x]> (active w)) (set_store st w)) !! k = Some x) as Hlook.
  { intros st _ x. cbn. by rewrite lookup_insert_eq. }
  destruct (transition e rules (store w)) as [st1|m] eqn:Et.
  2:{ rewrite app_nil_r. eapply rtc_l; [exact Hcheck|]. apply rtc_once.
      pose proof (step_fail known (set_active (<[k := Checked p e]> (active w)) w) k) as Hf.
      unfold set_active in Hf. cbn in Hf. rewrite Hdel in Hf. exact Hf. }
  case_bool_decide as Hrej.
  { rewrite app_nil_r. eapply rtc_l; [exact Hcheck|]. apply rtc_once.
    pose proof (step_reject known (set_active (<[k := Checked p e]> (active w)) w) rules p e st1 Hkn)
      as Hf. fold k in Hf. cbn in Hf. rewrite lookup_insert_eq in Hf. specialize (Hf eq_refl Hrej Et).
    unfold set_active in Hf. cbn in Hf. rewrite Hdel in Hf. exact Hf. }
  assert (rtc (step known) w
            (mkWorld st1 (requests w ++ [op_id p]) (<[k := Sent p e]> (active w)) (matching w)))
    as Hsent.
  { eapply rtc_l; [exact Hcheck|].
    pose proof (step_fly known (set_active (<[k := Checked p e]> (active w)) w) rules p e st1 Hkn)
      as Hf. fold k in Hf. cbn in Hf. rewrite lookup_insert_eq in Hf. specialize (Hf eq_refl Hrej Et).
    eapply rtc_l; [exact Hf|]. apply rtc_once.
    pose proof (step_send known (set_active (<[k := Flying p e]> (<[k := Checked p e]> (active w)))
                                   (set_store st1 w)) k p e) as Hg.
    cbn in Hg. rewrite !insert_insert_eq, lookup_insert_eq in Hg. rewrite insert_insert_eq.
    exact (Hg eq_refl). }
  destruct (transition (after_send rules a p e) rules st1) as [st2|m] eqn:Et2;
    (eapply rtc_r; [exact Hsent|]).
  - pose proof (step_finish known (mkWorld st1 (requests w ++ [op_id p]) (<[k := Sent p e]> (active w))
                                     (matching w)) rules a p e st2 Hkn) as Hf.
    fold k in Hf. cbn in Hf. rewrite lookup_insert_eq in Hf. specialize (Hf eq_refl Et2).
    unfold set_active in Hf. cbn in Hf. rewrite Hdel in Hf. exact Hf.
  - pose proof (step_fail known (mkWorld st1 (requests w ++ [op_id p]) (<[k := Sent p e]> (active w))
                                   (matching w)) k) as Hf.
    unfold set_active in Hf. cbn in Hf. rewrite Hdel in Hf. exact Hf.
Qed.

(** So is the uninterrupted call of [reconcile]. *)
Theorem reconcile_is_run known rules a i w e st' :
  known rules → reconcile rules a i (store w) = Ok (e, st') →
  ∃ ms, rtc (step known) w (mkWorld st' (requests w) (active w) ms).
Proof.
  intros Hkn Hr. unfold reconcile in Hr. apply bind_Ok in Hr as (e0 & He0 & Hr).
  assert (∃ ms, rtc (step known) w (mkWorld (store w) (requests w) (active w) ms)) as Hnone.
  { exists (matching w). by destruct w. }
  case_bool_decide as Hu; cbn [negb] in Hr; [|by injection Hr as <- <-].
  apply bind_Ok in Hr as (found & Hf & Hr). destruct found as [e'|]; [|by injection Hr as <- <-].
  apply bind_Ok in Hr as (st & Ht & [= <- <-]). exists (e0 :: matching w).
  eapply rtc_l; [by eapply step_match|]. apply rtc_once.
  eapply (step_reconcile known (mkWorld (store w) (requests w) (active w) (e0 :: matching w)));
    [done|by left|done|done].
Qed.

(** [publish] sends only what was previewed and is still true, and confirms only what
    the server shows: it sends at most one request, and one only for a prepared, verified
    operation on an open pull request that is as it was in the preview, checked twice,
    with every draft as it was saved; and a confirmed result carries the server's number
    of a review that has this operation's metadata and comments. *)
Theorem publish_sends_and_confirms rules a p st res st' n :
  publish rules a p st = (res, st', n) →
  n <= 1 ∧
  (n = 1 →
     (∃ old, stored st (op_id p) = Some old ∧ state old = OutboxState.Prepared ∧
             fingerprint (prepared old) = fingerprint p) ∧
     verify p rules = true ∧ current1 a = Ok (target p) ∧ current2 a = Ok (target p) ∧
     open (target p) = true ∧ pending_review (target p) = false ∧
     Forall (λ c, draft_unchanged (stored_drafts (op_snapshot p) st) c = true)
       (prepared_comments p)) ∧
  (∀ e, res = Ok e → state e = OutboxState.Confirmed →
     n = 1 ∧ ∃ response i cs, send a = Accepted response ∧
       as_u64 (index response (bs "id")) = Some i ∧ remote_id e = Some i ∧
       review_comments a i = Ok cs ∧
       matches_review p response cs (marks_reviews rules) = true).
Proof.
  unfold publish. destruct (publish_check rules a p st) as [e|m] eqn:Ec.
  2:{ intros [= <- <- <-]. split_and!; [lia|done|done]. }
  apply publish_check_Ok in Ec as (old & Hold & Hprep & Hpe & Hfp & Hv & _ & Hst).
  destruct (transition e rules st) as [st1|m].
  2:{ intros [= <- <- <-]. split_and!; [lia|done|done]. }
  case_bool_decide as Hrej.
  { intros [= <- <- <-]. split_and!; [lia|done|]. intros e' [= <-]. congruence. }
  destruct Hst as [?|(Hfly & Hst)]; [done|].
  destruct (transition (after_send rules a p e) rules st1) as [st2|m];
    intros [= <- <- <-]; split_and!; try done; try (intros _; by eauto 10).
  intros e' [= <-] Hc. split; [done|]. unfold after_send in Hc |- *.
  destruct (send a) as [response|code|reason]; [|done..]. cbv zeta in Hc |- *.
  destruct (as_u64 (index response (bs "id"))) as [i|] eqn:Ei; [|done].
  destruct (review_comments a i) as [cs|] eqn:Ecs; [|done].
  destruct (matches_review p response cs (marks_reviews rules)) eqn:Em; [|done].
  by exists response, i, cs.
Qed.
End facts.

(** ** Witnesses *)

#[local] Existing Instances sample_sha256 bits_json bits_review_json sample_releases_key.

(** An injective hash binds fingerprints. *)
Lemma sample_fingerprints_bind : fingerprints_bind (eq sample_rules).
Proof.
  intros p1 p2 (? & <- & [_ H1%bool_decide_eq_true]%andb_true_iff)
    (? & <- & [_ H2%bool_decide_eq_true]%andb_true_iff) Hf.
  rewrite Hf, H2 in H1. unfold compute_fingerprint, digest in H1. apply hex_inj in H1.
  unfold sha256, sample_sha256, digest_input in H1. rewrite !fmap_cons, !fmap_nil in H1.
  cbn [concat] in H1. rewrite !app_nil_r in H1. apply app_inv_head in H1.
  apply app_inj_1 in H1 as [_ H1].
  - by apply bits_review_json_laws in H1 as (_ & _ & -> & _).
  - unfold u64_le_bytes. by rewrite !length_le_bytes.
Qed.

Definition approval : PreparedReview :=
  review_of sample_rules (bs "op") review_snapshot sample_target Verdict.Approve (bs "") [].
Definition approval_answers : Answers :=
  mkAnswers (Ok sample_target) (Ok []) (Ok sample_target) (Unknown (bs "timeout")) (λ _, Ok []).
Definition entry_of (p : PreparedReview) (s : OutboxState) : OutboxEntry :=
  mkOutboxEntry p s [] None None.
Definition store_of (p : PreparedReview) (s : OutboxState) : Store :=
  set_t_outbox [(bs "op", entry_of p s)] empty_store.

(** What the witnesses need of [approval], so that its digest is not computed. *)
Record plain_review (p : PreparedReview) : Prop := {
  pl_id : op_id p = bs "op";
  pl_target : target p = sample_target;
  pl_comments : prepared_comments p = [];
  pl_verifies : verify p sample_rules = true
}.

Lemma approval_plain : plain_review approval.
Proof. split; [reflexivity..|]. by apply review_of_verifies. Qed.

Lemma plain_prepared p : plain_review p →
  insert_prepared p sample_rules empty_store
  = Ok (entry_of p OutboxState.Prepared, store_of p OutboxState.Prepared).
Proof. intros [Hid _ _ Hv]. unfold insert_prepared. rewrite Hv. cbn. by rewrite Hid. Qed.

Lemma plain_operation p s : operation (bs "op") (store_of p s) = Ok (entry_of p s).
Proof. reflexivity. Qed.

Lemma plain_checked p : plain_review p →
  publish_check sample_rules approval_answers p (store_of p OutboxState.Prepared)
  = Ok (entry_of p OutboxState.InFlight).
Proof.
  intros [Hid Ht Hc Hv]. unfold publish_check. rewrite Hid, plain_operation.
  cbn [result_bind mbind state prepared entry_of].
  rewrite Ht, Hc, Hv, (bool_decide_true (fingerprint p = fingerprint p)) by done.
  unfold store_of, outbox; cbn. by rewrite Hid.
Qed.

Lemma plain_transition p s e : plain_review p →
  OutboxState.can_transition s (state e) = true → state e ≠ OutboxState.Confirmed →
  prepared e = p →
  transition e sample_rules (store_of p s) = Ok (set_t_outbox [(bs "op", e)] empty_store).
Proof.
  intros [Hid Ht Hc Hv] Hcan Hne He. unfold transition, write_transition.
  rewrite He, Hid, plain_operation. cbn [result_bind mbind state prepared entry_of].
  by rewrite Hv, Hcan, (bool_decide_true (fingerprint p = fingerprint p)),
    (bool_decide_false (state e = OutboxState.Confirmed)) by done.
Qed.

Definition world_of (p : PreparedReview) : World :=
  mkWorld (store_of p OutboxState.InFlight) [bs "op"]
    {[rules_id sample_rules := Sent p (entry_of p OutboxState.InFlight)]} [].

Lemma plain_reachable p : plain_review p → reachable (eq sample_rules) (world_of p).
Proof.
  intros Hp. eapply rtc_l.
  { by eapply (step_prepare _ start sample_rules p), plain_prepared. }
  eapply rtc_l.
  { eapply (step_check _ _ sample_rules approval_answers p); [done|done|by apply plain_checked]. }
  eapply rtc_l.
  { apply (step_fly _ _ sample_rules p (entry_of p OutboxState.InFlight)
             (store_of p OutboxState.InFlight));
      [reflexivity|apply lookup_insert_eq|discriminate|by apply plain_transition]. }
  apply rtc_once.
  set (k := rules_id sample_rules). set (e := entry_of p OutboxState.InFlight).
  set (w := mkWorld (store_of p OutboxState.InFlight) []
              (<[k := Flying p e]> (<[k := Checked p e]> ∅)) []).
  assert (active w !! k = Some (Flying p e)) as Hl by apply lookup_insert_eq.
  apply (step_send (eq sample_rules) w k p e) in Hl. unfold w in Hl. cbn in Hl.
  rewrite (pl_id p Hp), insert_insert_eq in Hl. exact Hl.
Qed.

Lemma plain_sends p : plain_review p →
  (publish sample_rules approval_answers p (store_of p OutboxState.Prepared)).2 = 1.
Proof.
  intros Hp. unfold publish. rewrite plain_checked by done.
  rewrite (plain_transition p OutboxState.Prepared) by done.
  rewrite (bool_decide_false (_ = OutboxState.Rejected)) by done.
  by destruct (transition _ _ _).
Qed.

Example never_sent_twice_witness :
  let w := world_of approval in
  requests w = [bs "op"] ∧
  NoDup (requests w) ∧
  Forall (not_prepared (store w)) (requests w) ∧
  (∀ k1 k2 e1 e2, operation k1 (store w) = Ok e1 → operation k2 (store w) = Ok e2 →
     unresolved (state e1) = true → unresolved (state e2) = true →
     same_pr (target (prepared e1)) (target (prepared e2)) = true → k1 = k2) ∧
  (∀ k d, get k (t_drafts (store w)) = Some d → published d = true → evidence (store w) d).
Proof.
  split; [reflexivity|].
  exact (never_sent_twice (eq sample_rules) (world_of approval) sample_fingerprints_bind
           (plain_reachable approval approval_plain)).
Defined.

Example publish_sends_and_confirms_witness :
  let call := publish sample_rules approval_answers approval
                (store_of approval OutboxState.Prepared) in
  call.2 = 1 ∧ let '(_, _, n) := call in n <= 1.
Proof.
  intros call. split; [exact (plain_sends approval approval_plain)|subst call].
  destruct (publish sample_rules approval_answers approval (store_of approval OutboxState.Prepared))
    as [[res st'] n] eqn:E.
  pose proof (publish_sends_and_confirms sample_rules approval_answers approval
                (store_of approval OutboxState.Prepared) res st' n E) as [Hn _].
  exact Hn.
Defined.

Example lineless_comment_never_confirmed_witness :
  let a := mkAnswers (Ok sample_target) (Ok []) (Ok sample_target) (Accepted (JObj [(bs "id", JNum 9)]))
             (λ _, Ok [JObj [(bs "position", JNum 1)]]) in
  let sent := after_send sample_rules a approval (entry_of approval OutboxState.InFlight) in
  state sent = OutboxState.UnknownOutcome ∧
  ∀ k st e' st', operation k st = Ok sent → reconcile sample_rules a k st = Ok (e', st') →
    e' = sent ∧ st' = st.
Proof.
  intros a. destruct (lineless_comment_never_confirmed sample_rules a approval
    (entry_of approval OutboxState.InFlight) (JObj [(bs "id", JNum 9)]) 9 [JObj [(bs "position", JNum 1)]]
    (JObj [(bs "position", JNum 1)])) as [Hst Hr]; [reflexivity..|by left|split; reflexivity|].
  split; [exact Hst|]. intros k st e' st'.
  apply (Hr a [JObj [(bs "position", JNum 1)]] (JObj [(bs "position", JNum 1)]));
    [reflexivity|by left|split; reflexivity].
Defined.
