(* ===== verification/Durability.v ===== *)
(** * Durability: no unpublished text is lost *)

From S2P Require Import Prelude RustStr Utf8 Domain Patch PatchFacts BTree Overview Snapshot.
From S2P Require Import SnapshotFacts F32 Session Review ReviewFacts Store StoreFacts Outbox.
From S2P Require Import Json OutboxFacts.

Section facts.
Context {sha_ : Sha256} {source_ : SourceJson} {review_ : ReviewJson} {key_ : ReleasesKey}
  {json_ : JsonValue}.
Implicit Types (known : ReviewRules → Prop) (rules : ReviewRules) (st : Store) (d : Draft) (e : OutboxEntry).

(** [d'] is [d], with its text as it was. *)
Definition same_text d d' : Prop :=
  draft_snapshot d' = draft_snapshot d ∧ version d' = version d ∧ draft_body d' = draft_body d.

(** [m'] has every draft of [m]: those that are published may be gone, or anything. *)
Definition keeps_text (m m' : btree Draft) : Prop := ∀ k d,
  get k m = Some d → ∃ d', get k m' = Some d' ∧ same_text d d'.

Lemma same_text_refl d : same_text d d.
Proof. done. Qed.

Lemma keeps_text_refl m : keeps_text m m.
Proof. intros k d Hd. by exists d. Qed.

Lemma publish_drafts_keep m cs :
  (∀ k d, get k m = Some d → draft_id d = k) → keeps_text m (foldl publish_draft m cs).
Proof.
  revert m. induction cs as [|c cs IH]; intros m Hm; [apply keeps_text_refl|]. cbn [foldl].
  destruct (publish_draft_cases m c) as [->|(d & Hd & _ & _ & ->)]; [by apply IH|].
  set (d2 := mkDraft _ _ _ _ _ _ _ _ _ _ _). pose proof (Hm _ _ Hd) as Hid.
  assert (∀ k d', get k (insert_key (draft_id d) d2 m) = Some d' → draft_id d' = k) as Hm2.
  { intros k d'. rewrite get_insert. case_bool_decide as Hk; [|by apply Hm].
    intros [= <-]. by rewrite Hk. }
  intros k d0 Hd0. destruct (decide (k = draft_id d)) as [->|Hne].
  - destruct (IH _ Hm2 (draft_id d) d2) as (d3 & Hd3 & Ht).
    { by rewrite get_insert, bool_decide_true. }
    exists d3. split; [done|]. rewrite Hid, Hd in Hd0. by injection Hd0 as <-.
  - apply (IH _ Hm2). by rewrite get_insert, bool_decide_false.
Qed.

Lemma write_transition_keeps_text e r st st' :
  tables_ok st → write_transition e r st = Ok st' → keeps_text (t_drafts st) (t_drafts st').
Proof.
  intros Hok (_ & _ & _ & _ & _ & _ & ->)%write_transition_Ok.
  case_bool_decide; [|apply keeps_text_refl]. apply publish_drafts_keep.
  intros k d Hd%get_Some_in. by apply (tk_drafts _ Hok).
Qed.

Lemma recover_entries_drafts es st st' :
  recover_entries es st = Ok st' → t_drafts st' = t_drafts st.
Proof.
  revert st. induction es as [|e es IH]; intros st Hr; [by injection Hr as <-|].
  cbn [recover_entries] in Hr. destruct (bool_decide _); [|by apply IH].
  apply bind_Ok in Hr as (st1 & Ht & Hr). rewrite (IH _ Hr).
  by apply write_transition_Ok in Ht as (_ & _ & _ & _ & _ & _ & ->).
Qed.

(** ** Reachable stores *)

Lemma step_tables_ok known w w' : tables_ok (store w) → step known w w' → tables_ok (store w').
Proof.
  intros Hok Hstep.
  destruct Hstep as [w rules p e st _ Hp|w d v st Hd|w i v st Hd|w s now st Hp
    |w i key found now st Hp|w i v st Hp|w i now|w i|w i e _ _|w rules a e e' st _ _ _ Ht
    |w rules a p e _ Ha Hc|w rules p e st _ Ha He Ht|w rules p e st _ Ha He Ht|w k p e Ha
    |w rules a p e st _ Ha Ht|w k|w st Hr]; cbn [store];
    try exact Hok; try (by eapply write_transition_ok in Ht).
  - by eapply insert_prepared_ok.
  - by eapply save_draft_ok.
  - by eapply discard_draft_ok.
  - by eapply put_snapshot_ok.
  - by eapply save_blame_ok.
  - by eapply save_view_ok.
  - by apply show_recent_ok.
  - by apply hide_recent_ok.
  - apply bind_Ok in Hr as (st1 & Hr & [= <-]). apply prune_ok. by eapply recover_entries_ok.
Qed.

Lemma reachable_tables_ok known w : reachable known w → tables_ok (store w).
Proof.
  intros Hr. apply (rtc_ind_r (R:=step known) (λ w, tables_ok (store w)) start); [| |done].
  - apply empty_tables_ok.
  - intros w1 w2 _ Hs Hok. by eapply step_tables_ok.
Qed.

(** A stored snapshot opens, and shows its drafts. *)
Lemma opened_ok i now st :
  tables_ok st → i ∈ (t_snapshots st).*1 →
  ∃ s, (opened i now st).1 = Ok (s, stored_drafts i st, view i st).
Proof.
  intros Hok Hi. destruct (key_get i (t_snapshots st)) as [s Hs]; [apply Hok|done|].
  unfold opened, stored_snapshot. cbn. rewrite Hs. cbn.
  destruct (tk_verified _ Hok _ _ (get_Some_in _ _ _ Hs)) as [_ ->]. cbn. eauto.
Qed.

Lemma stored_drafts_in k d st :
  get k (t_drafts st) = Some d → d ∈ stored_drafts (draft_snapshot d) st.
Proof.
  intros Hd%get_Some_in. apply list_elem_of_filter. split; [done|].
  by apply (list_elem_of_fmap_2 snd) in Hd.
Qed.

(** What a step may do to an unpublished draft, other than discarding it. *)
Definition kept st' k d : Prop :=
  ∃ d', get k (t_drafts st') = Some d' ∧ draft_snapshot d' = draft_snapshot d ∧
    (same_text d d' ∨ (version d < version d')%N ∧ published d' = false).

Lemma keeps_text_kept st st' k d :
  keeps_text (t_drafts st) (t_drafts st') → get k (t_drafts st) = Some d → kept st' k d.
Proof.
  intros Ht Hd. destruct (Ht _ _ Hd) as (d' & Hd' & Hs). exists d'.
  split_and!; [done|apply Hs|by left].
Qed.

Lemma save_draft_kept d0 st v st' k d :
  get k (t_drafts st) = Some d → save_draft d0 st = Ok (v, st') → kept st' k d.
Proof.
  intros Hd Hs. unfold save_draft in Hs. pass Hs as E1.
  apply bind_Ok in Hs as (s & _ & Hs). apply bind_Ok in Hs as (f & _ & Hs).
  pass Hs as E2. apply bind_Ok in Hs as (u & Hw & Hs). pass Hs as E3. injection Hs as <- <-.
  unfold kept. cbn. rewrite get_insert.
  destruct (decide (k = draft_id d0)) as [->|Hne].
  2:{ rewrite bool_decide_false by done. exists d. split_and!; [done|done|left; apply same_text_refl]. }
  rewrite bool_decide_true by done. rewrite Hd in Hw. unfold check_rewrite in Hw.
  pass Hw as W1. pass Hw as W2. pass Hw as W3. to_prop.
  exists (set_saved (version d0) d0). split_and!; [done|by cbn|]. cbn.
  destruct W3 as [W3|W3]; to_prop.
  - right. split; [cbn; lia|done].
  - destruct (decide (version d = version d0)); [left; by split_and!|].
    right. split; [cbn; lia|done].
Qed.

Lemma discard_draft_cases i v st st' k d :
  tables_ok st → get k (t_drafts st) = Some d → discard_draft i v st = Ok st' →
  kept st' k d ∨ discard_draft k (version d) st = Ok st'.
Proof.
  intros Hok Hd Hs. pose proof Hs as Hs'. unfold discard_draft in Hs.
  destruct (get i (t_drafts st)) as [d0|] eqn:E0; [|done].
  destruct (_ && _) eqn:Ev; [|done]. injection Hs as <-.
  destruct (decide (k = i)) as [->|Hne].
  - right. rewrite E0 in Hd. injection Hd as ->. to_prop. by subst v.
  - left. exists d. cbn. rewrite get_remove, bool_decide_false by done.
    split_and!; [done|done|left; apply same_text_refl].
Qed.

Lemma prune_kept keep st k d :
  tables_ok st → get k (t_drafts st) = Some d → published d = false →
  kept (prune keep st).2 k d.
Proof.
  intros Hok Hd Hp. exists d. split_and!; [|done|left; apply same_text_refl]. cbn.
  apply get_filter; [apply Hok|]. split; [done|]. cbn. apply get_Some_in in Hd.
  change (draft_snapshot d ∉ doomed keep st). apply not_doomed; [by apply (tk_drafts _ Hok) in Hd as (_ & ? & _)|].
  right. left. eauto.
Qed.

Lemma step_kept known w w' k d :
  tables_ok (store w) → step known w w' →
  get k (t_drafts (store w)) = Some d → published d = false →
  kept (store w') k d ∨ discard_draft k (version d) (store w) = Ok (store w').
Proof.
  intros Hok Hstep Hd Hp.
  assert (∀ st', t_drafts st' = t_drafts (store w) → kept st' k d) as Hsame.
  { intros st' Heq. apply (keeps_text_kept (store w)); [|done]. rewrite Heq.
    apply keeps_text_refl. }
  assert (∀ e r st', write_transition e r (store w) = Ok st' → kept st' k d) as Htr.
  { intros e r st' Ht. eapply keeps_text_kept; [|exact Hd]. by eapply write_transition_keeps_text. }
  destruct Hstep as [w rules p e st _ Hi|w d0 v st Hs|w i v st Hs|w s now st Hs
    |w i key found now st Hs|w i v st Hs|w i now|w i|w i e _ _|w rules a e e' st _ _ _ Ht
    |w rules a p e _ Ha Hc|w rules p e st _ Ha He Ht|w rules p e st _ Ha He Ht|w k0 p e Ha
    |w rules a p e st _ Ha Ht|w k0|w st Hr]; cbn [store];
    try (left; by apply Hsame); try (left; exact (Htr _ (Some rules) _ Ht)).
  - left. apply Hsame. unfold insert_prepared in Hi. pass Hi as E.
    destruct (get (op_id p) _); [done|]. by injection Hi as <- <-.
  - left. by eapply save_draft_kept.
  - by eapply discard_draft_cases.
  - left. apply put_snapshot_same in Hs as [_ ?]. by apply Hsame.
  - left. apply save_blame_same in Hs as [_ ?]. by apply Hsame.
  - left. apply save_view_same in Hs as [_ ?]. by apply Hsame.
  - left. apply bind_Ok in Hr as (st1 & Hr & [= <-]). apply prune_kept; [| |done].
    + by eapply recover_entries_ok.
    + by rewrite (recover_entries_drafts _ _ _ Hr).
Qed.

(** C2: no unpublished text is lost. Whatever step the program takes from a reachable state,
    including publishing, failures, a crash and the pruning at the next start, an
    unpublished draft stays stored with its text, or with a newer version of it, and its
    snapshot opens and shows it; only discarding exactly this version removes it. *)
Theorem unpublished_draft_kept known w w' k d now :
  reachable known w → step known w w' →
  get k (t_drafts (store w)) = Some d → published d = false →
  (∃ d' s ds v,
     (opened (draft_snapshot d) now (store w')).1 = Ok (s, ds, v) ∧ d' ∈ ds ∧
     get k (t_drafts (store w')) = Some d' ∧
     (same_text d d' ∨ (version d < version d')%N ∧ published d' = false)) ∨
  discard_draft k (version d) (store w) = Ok (store w').
Proof.
  intros Hr Hs Hd Hp. pose proof (reachable_tables_ok _ _ Hr) as Hok.
  destruct (step_kept known w w' k d Hok Hs Hd Hp) as [(d' & Hd' & Hsn & Ht)|]; [left|by right].
  pose proof (step_tables_ok _ _ _ Hok Hs) as Hok'.
  destruct (opened_ok (draft_snapshot d) now (store w') Hok') as [s Ho].
  { rewrite <- Hsn. by apply get_Some_in, (tk_drafts _ Hok') in Hd' as (_ & ? & _). }
  exists d', s. eexists _, _. split_and!; [exact Ho| |done|done].
  rewrite <- Hsn. by apply (stored_drafts_in k).
Qed.
End facts.

(** ** Witness *)

#[local] Existing Instances sample_sha256 bits_json bits_review_json sample_releases_key.

Lemma draft_reachable :
  reachable (eq sample_rules) (mkWorld (draft_store sample_id) [] ∅ []).
Proof.
  pose proof snapshot_of_verifies as Hv.
  eapply rtc_l; [|apply rtc_once].
  - eapply (step_put_snapshot (eq sample_rules) start). by apply put_sample.
  - eapply (step_save_draft (eq sample_rules) (mkWorld (snapshot_store sample_id) [] ∅ [])).
    by apply save_sample.
Qed.

(** The program starts again and prunes: the draft is still there. *)
Example unpublished_draft_kept_witness :
  let st := draft_store sample_id in
  let w' := mkWorld (prune keep_recent st).2 [] ∅ [] in
  (∃ d' s ds v,
     (opened sample_id 2 (store w')).1 = Ok (s, ds, v) ∧ d' ∈ ds ∧
     get (bs "d") (t_drafts (store w')) = Some d' ∧
     (same_text (set_saved 1 (draft_of sample_id)) d' ∨ (1 < version d')%N ∧ published d' = false)) ∨
  discard_draft (bs "d") 1 st = Ok (store w').
Proof.
  apply (unpublished_draft_kept (eq sample_rules) (mkWorld (draft_store sample_id) [] ∅ [])
           (mkWorld (prune keep_recent (draft_store sample_id)).2 [] ∅ []) (bs "d")
           (set_saved 1 (draft_of sample_id)) 2 draft_reachable);
    [|reflexivity..].
  apply (step_restart (eq sample_rules) (mkWorld (draft_store sample_id) [] ∅ [])). reflexivity.
Defined.
