(* ===== verification/Inline.v ===== *)
(** * Word marks of changed lines ([crates/core/src/inline.rs])

    Ranges are byte positions of one text. Which characters are letters and digits is
    Unicode's table, an argument here ([CharClass]). *)

From S2P Require Import Prelude RustStr Utf8 F32.

(** [char::is_alphanumeric]. *)
Class CharClass := is_alphanumeric : N → bool.

Notation Range := (nat * nat)%type.
Notation Ranges := (list Range).

(** [&s[r]]. *)
Definition slice (s : bytes) (r : Range) : bytes := take (r.2 - r.1) (drop r.1 s).
(** [v[i..j]] for lists. *)
Definition sub {A} (i j : nat) (v : list A) : list A := take (j - i) (drop i v).

Definition max_bytes : N := 4096.
Definition max_tokens : N := 512.

(** ** Tokens *)

Section tokens.
Context {class_ : CharClass}.

Definition is_word (c : N) : bool := is_alphanumeric c || (c =? 95)%N.

(** The inner loop: the end of the token and the characters after it. *)
Fixpoint token_end (word space : bool) (cs : list N) (end_ : nat) : nat * list N :=
  match cs with
  | next :: cs' =>
      if (word && is_word next) || (space && is_whitespace next)
      then token_end word space cs' (end_ + len_utf8 next)
      else (end_, cs)
  | [] => (end_, [])
  end.

(** The outer loop, with one unit of fuel for each character. *)
Fixpoint tokens_loop (fuel : nat) (max : N) (cs : list N) (start : nat) (out : Ranges)
    : option Ranges :=
  match fuel, cs with
  | S fuel, c :: cs' =>
      let '(end_, cs'') := token_end (is_word c) (is_whitespace c) cs' (start + len_utf8 c) in
      let out := out ++ [(start, end_)] in
      if (max <? lenN out)%N then None else tokens_loop fuel max cs'' end_ out
  | _, _ => Some out
  end.
Definition tokens (s : bytes) (max : N) : option Ranges :=
  tokens_loop (length (chars s)) max (chars s) 0 [].

Fixpoint coalesce_from (p : Range) (v : Ranges) : Ranges :=
  match v with
  | [] => [p]
  | r :: v' => if (p.2 =? r.1)%nat then coalesce_from (p.1, r.2) v' else p :: coalesce_from r v'
  end.
Definition coalesce (v : Ranges) : Ranges :=
  match v with [] => [] | r :: v' => coalesce_from r v' end.

(** ** The longest common subsequence *)

(** One row of the table, from the row below it: [dp[i][j..]] from [dp[i+1][j..]]. *)
Fixpoint dp_row (x : bytes) (b : list bytes) (below : list nat) : list nat :=
  match b, below with
  | y :: b', d :: below' =>
      let right := dp_row x b' below' in
      (if bool_decide (x = y) then 1 + default 0 (head below')
       else Nat.max d (default 0 (head right))) :: right
  | _, _ => [0]
  end.
Fixpoint dp_table (a b : list bytes) : list (list nat) :=
  match a with
  | [] => [replicate (S (length b)) 0]
  | x :: a' => let t := dp_table a' b in dp_row x b (default [] (head t)) :: t
  end.
Definition dp_at (t : list (list nat)) (i j : nat) : nat := default 0 (t !! i ≫= (.!! j)).

(** The loop that reads the pairs off the table; every round moves in one of the lists. *)
Fixpoint lcs_walk (fuel : nat) (a b : list bytes) (t : list (list nat)) (i j : nat)
    : list (nat * nat) :=
  match fuel, a !! i, b !! j with
  | S fuel, Some x, Some y =>
      if bool_decide (x = y) then (i, j) :: lcs_walk fuel a b t (S i) (S j)
      else if (dp_at t i (S j) <=? dp_at t (S i) j)%nat then lcs_walk fuel a b t (S i) j
      else lcs_walk fuel a b t i (S j)
  | _, _, _ => []
  end.
Definition lcs (a b : list bytes) : list (nat * nat) :=
  match a, b with
  | [], _ | _, [] => []
  | _, _ => lcs_walk (length a + length b) a b (dp_table a b) 0 0
  end.

(** ** Marks *)

Definition span (t : Ranges) : Ranges :=
  match t with [] => [] | f :: _ => [(f.1, (default f (last t)).2)] end.

(** The loop over the matches: what lies between them is marked. *)
Fixpoint between_matches {A} (ms : list (nat * nat)) (a b : list A) (i j : nat)
    : list A * list A :=
  match ms with
  | [] => ([], [])
  | (mi, mj) :: ms' =>
      let '(ra, rb) := between_matches ms' a b (Nat.min (S mi) (length a))
                         (Nat.min (S mj) (length b)) in
      (sub i mi a ++ ra, sub j mj b ++ rb)
  end.

Definition total (t : Ranges) : N := foldr (λ r n, (N.of_nat (r.2 - r.1) + n)%N) 0%N t.
(** [0.7] in single precision. *)
Definition seven_tenths : f32 := S754_finite false 11744051 (-24).
Definition fraction (ranges : Ranges) (len : N) : bool :=
  (0 <? len)%N && f32_lt seven_tenths (f32_div (f32_of_N (total ranges)) (f32_of_N len)).

Definition fine (old new : bytes) (a b : Ranges) : option (Ranges * Ranges) :=
  let matches := lcs (slice old <$> a) (slice new <$> b) in
  let '(ra, rb) := between_matches (matches ++ [(length a, length b)]) a b 0 0 in
  if fraction ra (total a) || fraction rb (total b) then None
  else Some (coalesce ra, coalesce rb).

Definition word_diff (old new : bytes) : Ranges * Ranges :=
  if (max_bytes <? lenN old)%N || (max_bytes <? lenN new)%N then ([], [])
  else match tokens old max_tokens, tokens new max_tokens with
  | Some a, Some b => default ([], []) (fine old new a b)
  | _, _ => ([], [])
  end.

(** ** Prose *)

Record Sentence := mkSentence { sn_bytes : Range; sn_tokens : Range }.

Definition is_terminal (text : bytes) (piece : bytes) (next : option Range) : bool :=
  existsb (λ p, bool_decide (piece = p)) [bs "."; bs "!"; bs "?"]
  && match next with
     | Some n => forallb is_whitespace (chars (slice text n))
     | None => false
     end.
(** The loop over the tokens from number [i] on; [start] is the sentence's first token and
    [lo] its first byte. *)
Fixpoint sentences_loop (text : bytes) (toks : Ranges) (i start lo : nat) : list Sentence :=
  match toks with
  | [] => []
  | t :: toks' =>
      let lo := if (i =? start)%nat then t.1 else lo in
      let piece := slice text t in
      if is_terminal text piece (head toks') || contains [LF] piece
         || bool_decide (toks' = [])
      then mkSentence (lo, t.2) (start, S i) :: sentences_loop text toks' (S i) (S i) lo
      else sentences_loop text toks' (S i) start lo
  end.
Definition sentences (text : bytes) (toks : Ranges) : list Sentence :=
  sentences_loop text toks 0 0 0.

(** One pair of changed sentences. *)
Definition refine_pair (old new : bytes) (a b : Ranges) (max : N) (x y : Sentence)
    : Ranges * Ranges :=
  let ta := sub (sn_tokens x).1 (sn_tokens x).2 a in
  let tb := sub (sn_tokens y).1 (sn_tokens y).2 b in
  let refined := if (lenN ta <=? max)%N && (lenN tb <=? max)%N then fine old new ta tb else None in
  default ([sn_bytes x], [sn_bytes y]) refined.

(** The changed sentences between two matches: paired as far as both sides have one. *)
Fixpoint refine_pairs (old new : bytes) (a b : Ranges) (max : N) (xs ys : list Sentence)
    : Ranges * Ranges :=
  match xs, ys with
  | x :: xs', y :: ys' =>
      let '(xa, xb) := refine_pair old new a b max x y in
      let '(ra, rb) := refine_pairs old new a b max xs' ys' in
      (xa ++ ra, xb ++ rb)
  | _, _ => (sn_bytes <$> xs, sn_bytes <$> ys)
  end.

Fixpoint coarse_loop (old new : bytes) (a b : Ranges) (max : N) (ms : list (nat * nat))
    (ca cb : list Sentence) (i j : nat) : Ranges * Ranges :=
  match ms with
  | [] => ([], [])
  | (mi, mj) :: ms' =>
      let '(xa, xb) := refine_pairs old new a b max (sub i mi ca) (sub j mj cb) in
      let '(ra, rb) := coarse_loop old new a b max ms' ca cb (Nat.min (S mi) (length ca))
                         (Nat.min (S mj) (length cb)) in
      (xa ++ ra, xb ++ rb)
  end.

Definition coarse (old new : bytes) (a b : Ranges) (max : N) : Ranges * Ranges :=
  let ca := sentences old a in
  let cb := sentences new b in
  if (4000000 <? lenN ca * lenN cb)%N then (span a, span b)
  else
    let matches := lcs ((λ c, trim (slice old (sn_bytes c))) <$> ca)
                       ((λ c, trim (slice new (sn_bytes c))) <$> cb) in
    let '(ra, rb) := coarse_loop old new a b max (matches ++ [(length ca, length cb)]) ca cb 0 0 in
    (coalesce ra, coalesce rb).

(** How many texts two lists begin with in common. *)
Fixpoint common_prefix (a b : list bytes) : nat :=
  match a, b with
  | x :: a', y :: b' => if bool_decide (x = y) then S (common_prefix a' b') else 0
  | _, _ => 0
  end.

Definition word_diff_with (old new : bytes) (max_bytes max : N) : Ranges * Ranges :=
  if (max_bytes <? lenN old)%N || (max_bytes <? lenN new)%N then ([], [])
  else
    let old := trim_end old in
    let new := trim_end new in
    match tokens old u64_max, tokens new u64_max with
    | Some a, Some b =>
        let ta := slice old <$> a in
        let tb := slice new <$> b in
        let prefix := common_prefix ta tb in
        let suffix := common_prefix (reverse (drop prefix ta)) (reverse (drop prefix tb)) in
        let a := sub prefix (length a - suffix) a in
        let b := sub prefix (length b - suffix) b in
        if bool_decide (a = []) && bool_decide (b = []) then ([], [])
        else if (lenN a <=? max)%N && (lenN b <=? max)%N
        then default (span a, span b) (fine old new a b)
        else coarse old new a b max
    | _, _ => ([], [])
    end.
End tokens.
