(* ===== verification/InlineFacts.v ===== *)
(** * Word marks: the matches are a longest common subsequence, and what is not marked is
    the same on both sides *)

From S2P Require Import Prelude RustStr Utf8 F32 Inline.

(** ** The longest common subsequence *)

(** The reference: its length by recursion on the two lists. *)
Fixpoint lcs_len (a : list bytes) : list bytes → nat :=
  match a with
  | [] => λ _, 0
  | x :: a' => fix inner b :=
      match b with
      | [] => 0
      | y :: b' => if bool_decide (x = y) then S (lcs_len a' b')
                   else Nat.max (lcs_len a' b) (inner b')
      end
  end.

Lemma lcs_len_nil_r a : lcs_len a [] = 0.
Proof. by destruct a. Qed.

Lemma lcs_len_max a b c :
  c `sublist_of` a → c `sublist_of` b → length c ≤ lcs_len a b.
Proof.
  revert b c. induction a as [|x a IHa]; intros b c Ha Hb.
  { apply sublist_nil_r in Ha as ->. done. }
  induction b as [|y b IHb].
  { apply sublist_nil_r in Hb as ->. done. }
  cbn [lcs_len]. case_bool_decide as Hxy.
  - subst y. apply sublist_cons_r in Ha as [Ha|(c1 & -> & Ha)].
    + apply sublist_cons_r in Hb as [Hb|(c2 & -> & Hb)]; [apply IHa in Hb; [lia|done]|].
      cbn. apply le_n_S, IHa; [|done]. by eapply sublist_cons_l in Ha as (? & ? & -> & ?);
        apply sublist_inserts_l, sublist_cons.
    + apply sublist_cons_r in Hb as [Hb|(c2 & [= <-] & Hb)]; cbn; apply le_n_S, IHa; try done.
      eapply sublist_cons_l in Hb as (? & ? & -> & ?). by apply sublist_inserts_l, sublist_cons.
  - apply sublist_cons_r in Ha as [Ha|(c1 & -> & Ha)].
    + transitivity (lcs_len a (y :: b)); [by apply IHa|lia].
    + apply sublist_cons_r in Hb as [Hb|(c2 & [= -> _] & _)]; [|done].
      etransitivity; [apply IHb, Hb|]. cbn [lcs_len]. lia.
Qed.

(** The rows of the table hold the reference's lengths of all suffixes. *)
Fixpoint suffix_row (a b : list bytes) : list nat :=
  lcs_len a b :: match b with [] => [] | _ :: b' => suffix_row a b' end.

Lemma suffix_row_head a b : default 0 (head (suffix_row a b)) = lcs_len a b.
Proof. by destruct b. Qed.

Lemma suffix_row_nil b : suffix_row [] b = replicate (S (length b)) 0.
Proof. induction b as [|y b IH]; [done|]. cbn [suffix_row]. by rewrite IH. Qed.

Lemma dp_row_spec x a b : dp_row x b (suffix_row a b) = suffix_row (x :: a) b.
Proof.
  induction b as [|y b IH]; [done|]. cbn [suffix_row dp_row].
  rewrite IH, !suffix_row_head. by destruct a.
Qed.

Lemma dp_table_head a b : default [] (head (dp_table a b)) = suffix_row a b.
Proof.
  induction a as [|x a IH]; cbn [dp_table head default from_option].
  - by rewrite suffix_row_nil.
  - by rewrite IH, dp_row_spec.
Qed.

Lemma suffix_row_lookup a b j : j ≤ length b → suffix_row a b !! j = Some (lcs_len a (drop j b)).
Proof.
  revert j. induction b as [|y b IH]; intros [|j] Hj; cbn in *; try done; [lia|].
  apply IH. lia.
Qed.

Lemma dp_at_spec a b i j :
  i ≤ length a → j ≤ length b → dp_at (dp_table a b) i j = lcs_len (drop i a) (drop j b).
Proof.
  intros Hi Hj. assert (dp_table a b !! i = Some (suffix_row (drop i a) b)) as Ht.
  { clear j Hj. revert i Hi. induction a as [|x a IH]; intros [|i] Hi; cbn in *.
    - by rewrite suffix_row_nil.
    - lia.
    - by rewrite dp_table_head, dp_row_spec.
    - apply IH. lia. }
  unfold dp_at. rewrite Ht. cbn. by rewrite suffix_row_lookup.
Qed.

(** Pairs of equal texts, in strictly increasing positions of both lists. *)
Fixpoint matching (a b : list bytes) (i j : nat) (ms : list (nat * nat)) : Prop :=
  match ms with
  | [] => True
  | (mi, mj) :: ms' =>
      i ≤ mi ∧ j ≤ mj ∧ (∃ x, a !! mi = Some x ∧ b !! mj = Some x) ∧
      matching a b (S mi) (S mj) ms'
  end.

Lemma matching_weaken a b i j i' j' ms :
  i' ≤ i → j' ≤ j → matching a b i j ms → matching a b i' j' ms.
Proof.
  intros Hi Hj. destruct ms as [|[mi mj] ms]; [done|]. cbn [matching].
  intros (? & ? & ? & ?). split_and!; [lia|lia|done|done].
Qed.

Lemma lcs_walk_spec a b fuel i j :
  i ≤ length a → j ≤ length b → (length a - i) + (length b - j) ≤ fuel →
  let ms := lcs_walk fuel a b (dp_table a b) i j in
  matching a b i j ms ∧ length ms = lcs_len (drop i a) (drop j b).
Proof.
  revert i j. induction fuel as [|fuel IH]; intros i j Hi Hj Hf.
  { cbn. split; [done|]. rewrite drop_ge by lia. done. }
  cbn [lcs_walk]. destruct (a !! i) as [x|] eqn:Ea.
  2:{ apply lookup_ge_None in Ea. split; [done|]. by rewrite drop_ge. }
  destruct (b !! j) as [y|] eqn:Eb.
  2:{ apply lookup_ge_None in Eb. split; [done|]. rewrite (drop_ge b) by done.
      by rewrite lcs_len_nil_r. }
  pose proof (lookup_lt_Some _ _ _ Ea). pose proof (lookup_lt_Some _ _ _ Eb).
  rewrite (drop_S a x i), (drop_S b y j) by done. cbn [lcs_len].
  rewrite !dp_at_spec by lia. rewrite (drop_S b y j Eb), (drop_S a x i Ea).
  case_bool_decide as Hxy.
  - subst y. destruct (IH (S i) (S j)) as [Hm Hl]; [lia..|]. split.
    + cbn [matching]. split_and!; [lia|lia|by exists x|done].
    + cbn [length]. by rewrite Hl.
  - destruct (_ <=? _)%nat eqn:Ec; to_prop.
    + destruct (IH (S i) j) as [Hm Hl]; [lia..|]. split.
      * by eapply matching_weaken; [..|exact Hm]; lia.
      * rewrite Hl, (drop_S b y j Eb). cbn [lcs_len] in Ec |- *.
        rewrite Nat.max_l; [done|]. exact Ec.
    + destruct (IH i (S j)) as [Hm Hl]; [lia..|]. split.
      * by eapply matching_weaken; [..|exact Hm]; lia.
      * rewrite Hl, (drop_S a x i Ea). cbn [lcs_len] in Ec |- *.
        rewrite Nat.max_r; [done|]. apply Nat.lt_le_incl, Ec.
Qed.

(** [lcs] gives a longest common subsequence: the pairs it returns match equal texts in
    order, and no common subsequence of the two lists has more elements. *)
Theorem lcs_longest a b :
  matching a b 0 0 (lcs a b) ∧
  ∀ c, c `sublist_of` a → c `sublist_of` b → length c ≤ length (lcs a b).
Proof.
  assert (matching a b 0 0 (lcs a b) ∧ length (lcs a b) = lcs_len a b) as [Hm Hl].
  { destruct a as [|x a]; [done|]. destruct b as [|y b]; [done|].
    unfold lcs. by apply lcs_walk_spec; cbn; lia. }
  split; [done|]. intros c Ha Hb. rewrite Hl. by apply lcs_len_max.
Qed.

(** ** Tokens *)

Section marks.
Context {class_ : CharClass}.
Implicit Types (s : bytes) (a b ts rs : Ranges).

(** Non-empty ranges that cut [s] from [pos] to [end_] at character boundaries. *)
Fixpoint tiles s (pos : nat) ts (end_ : nat) : Prop :=
  match ts with
  | [] => pos = end_
  | r :: ts' => r.1 = pos ∧ pos < r.2 ∧ r.2 ≤ length s ∧ is_char_boundary s pos = true ∧
                is_char_boundary s r.2 = true ∧ tiles s r.2 ts' end_
  end.

(** Whether [next] belongs to the token that [c] starts. *)
Definition joins (c next : N) : bool :=
  is_word c && is_word next || is_whitespace c && is_whitespace next.

Lemma encode_cons c cs : encode (c :: cs) = encode_char c ++ encode cs.
Proof. done. Qed.

Lemma token_end_runs c cs e :
  let out := token_end (is_word c) (is_whitespace c) cs e in
  ∃ run, cs = run ++ out.2 ∧ out.1 = e + length (encode run) ∧ Forall (joins c) run ∧
    ∀ d ds, out.2 = d :: ds → joins c d = false.
Proof.
  revert e. induction cs as [|d cs IH]; intros e; cbn [token_end].
  { exists []. cbn. split_and!; [done|lia|constructor|done]. }
  fold (joins c d). destruct (joins c d) eqn:Ej.
  - destruct (IH (e + len_utf8 d)) as (run & H1 & H2 & H3 & H4). exists (d :: run).
    rewrite H2. rewrite H1 at 1. rewrite encode_cons, length_app. unfold len_utf8.
    split_and!; [done|lia| |exact H4]. constructor; [by rewrite Ej|done].
  - exists []. cbn. split_and!; [done|lia|constructor|]. by intros ? ? [= <- <-].
Qed.

Lemma tokens_loop_tile fuel max pre cs out ts :
  Forall (λ c, is_scalar c = true) (pre ++ cs) → length cs ≤ fuel →
  tokens_loop fuel max cs (length (encode pre)) out = Some ts →
  ∃ ts', ts = out ++ ts' ∧
    tiles (encode (pre ++ cs)) (length (encode pre)) ts' (length (encode (pre ++ cs))).
Proof.
  revert pre cs out. induction fuel as [|fuel IH]; intros pre cs out Hcs Hf Ht.
  { destruct cs; [|cbn in Hf; lia]. injection Ht as <-. exists [].
    by rewrite !app_nil_r. }
  destruct cs as [|c cs]; cbn [tokens_loop] in Ht.
  { injection Ht as <-. exists []. by rewrite !app_nil_r. }
  destruct (token_end_runs c cs (length (encode pre) + len_utf8 c)) as (run & H1 & H2 & _).
  destruct (token_end _ _ _ _) as [e cs'']. cbn [fst snd] in H1, H2. subst cs.
  destruct (_ <? _)%N; [done|].
  assert (e = length (encode (pre ++ c :: run))) as He.
  { rewrite encode_app, length_app. change (encode (c :: run)) with (encode_char c ++ encode run).
    rewrite length_app. unfold len_utf8 in H2. lia. }
  rewrite He in Ht.
  assert (pre ++ c :: run ++ cs'' = (pre ++ c :: run) ++ cs'') as Happ by by rewrite <- app_assoc.
  rewrite Happ in Hcs |- *.
  apply IH in Ht as (ts' & -> & Hts); [|done|cbn in Hf; rewrite length_app in Hf; lia].
  exists ((length (encode pre), length (encode (pre ++ c :: run))) :: ts').
  split; [by rewrite <- app_assoc|]. cbn [tiles fst snd].
  pose proof (encode_char_not_nil c) as Hn.
  assert (0 < length (encode_char c)) by (destruct (encode_char c); [done|cbn; lia]).
  split_and!; [done| | | | |done].
  - rewrite <- He, H2. unfold len_utf8. lia.
  - rewrite (encode_app (pre ++ c :: run)), length_app. lia.
  - rewrite <- Happ. apply boundary_join. apply Forall_app in Hcs as [[_ ?]%Forall_app ?].
    apply (Forall_app _ (c :: run) cs''). by split.
  - apply boundary_join. by apply Forall_app in Hcs as [_ ?].
Qed.

Lemma tokens_tile s max ts :
  utf8_valid s = true → tokens s max = Some ts → tiles s 0 ts (length s).
Proof.
  intros (cs & Hcs & ->)%utf8_valid_iff. unfold tokens, chars.
  rewrite utf8_decode_encode by done. cbn [default from_option].
  intros (ts' & -> & Ht)%(tokens_loop_tile _ _ []); [done|done|done].
Qed.

(** ** Erasing marks *)

(** What is left of [s] from [pos] on without the ranges. *)
Fixpoint erase (pos : nat) rs s : bytes :=
  match rs with
  | [] => drop pos s
  | r :: rs' => sub pos r.1 s ++ erase r.2 rs' s
  end.

(** Ranges inside [s] at character boundaries, none empty, in order from [pos] on and at
    least [d] bytes apart. *)
Fixpoint marks s (d pos : nat) rs : Prop :=
  match rs with
  | [] => True
  | r :: rs' => pos ≤ r.1 ∧ r.1 < r.2 ∧ r.2 ≤ length s ∧ is_char_boundary s r.1 = true ∧
                is_char_boundary s r.2 = true ∧ marks s d (r.2 + d) rs'
  end.

Lemma sub_split {A} i j k (v : list A) : i ≤ j → j ≤ k → sub i k v = sub i j v ++ sub j k v.
Proof.
  intros H1 H2. unfold sub. replace (k - i) with ((j - i) + (k - j)) by lia.
  rewrite <- take_take_drop, drop_drop. by replace (i + (j - i)) with j by lia.
Qed.
Lemma sub_nil {A} i (v : list A) : sub i i v = [].
Proof. unfold sub. by rewrite Nat.sub_diag. Qed.

Lemma erase_coalesce pos rs s : erase pos (coalesce rs) s = erase pos rs s.
Proof.
  destruct rs as [|p v]; [done|]. cbn [coalesce]. revert p pos.
  induction v as [|r v IH]; intros p pos; [done|]. cbn [coalesce_from].
  destruct (p.2 =? r.1)%nat eqn:E; [|cbn [erase]; by rewrite IH].
  rewrite IH. cbn [erase fst snd]. apply Nat.eqb_eq in E. by rewrite E, sub_nil.
Qed.

Lemma coalesce_marks pos rs s : marks s 0 pos rs → marks s 1 pos (coalesce rs).
Proof.
  destruct rs as [|p v]; [done|]. cbn [coalesce]. revert p pos.
  induction v as [|r v IH]; intros p pos; cbn [coalesce_from].
  { cbn [marks]. tauto. }
  intros (H1 & H2 & H3 & H4 & H5 & Hr). destruct (p.2 =? r.1)%nat eqn:E; to_prop.
  - apply IH. cbn [marks fst snd] in *. destruct Hr as (? & ? & ? & ? & ? & ?).
    split_and!; [lia|lia|done..].
  - cbn [marks]. split_and!; [done..|]. apply IH. cbn [marks] in *.
    destruct Hr as (? & ? & ? & ? & ? & ?). split_and!; [lia|done..].
Qed.

Lemma tiles_marks s pos ts e R :
  tiles s pos ts e → marks s 0 e R → marks s 0 pos (ts ++ R).
Proof.
  revert pos. induction ts as [|r ts IH]; intros pos; [by intros ->|].
  cbn [tiles]. intros (H1 & H2 & H3 & H4 & H5 & Ht) HR. cbn [app marks].
  rewrite Nat.add_0_r. split_and!; [lia|lia|done|congruence|done|by apply IH].
Qed.

Lemma erase_tiles s pos ts e R : tiles s pos ts e → erase pos (ts ++ R) s = erase e R s.
Proof.
  revert pos. induction ts as [|r ts IH]; intros pos; [by intros ->|].
  cbn [tiles app erase]. intros (H1 & _ & _ & _ & _ & Ht). rewrite H1, sub_nil. cbn. by apply IH.
Qed.

Lemma erase_skip s pos mid R :
  marks s 0 mid R → pos ≤ mid → mid ≤ length s →
  erase pos R s = sub pos mid s ++ erase mid R s.
Proof.
  intros HR Hp Hm. destruct R as [|r R]; cbn [erase].
  - unfold sub. rewrite <- (take_drop (mid - pos) (drop pos s)) at 1.
    rewrite drop_drop. by replace (pos + (mid - pos)) with mid by lia.
  - destruct HR as [HR _]. by rewrite (sub_split pos mid), app_assoc.
Qed.

Lemma tiles_concat s pos ts : tiles s pos ts (length s) → concat (slice s <$> ts) = drop pos s.
Proof.
  revert pos. induction ts as [|r ts IH]; intros pos; cbn [tiles].
  { intros ->. by rewrite drop_ge. }
  intros (<- & ? & ? & _ & _ & Ht). rewrite fmap_cons. cbn [concat]. rewrite (IH _ Ht).
  symmetry. apply (erase_skip s r.1 r.2 []); [done|lia|done].
Qed.

Lemma tiles_app s pos t1 t2 e :
  tiles s pos (t1 ++ t2) e → ∃ mid, tiles s pos t1 mid ∧ tiles s mid t2 e.
Proof.
  revert pos. induction t1 as [|r t1 IH]; intros pos; [by exists pos|].
  cbn [app tiles]. intros (? & ? & ? & ? & ? & Ht). apply IH in Ht as (mid & Hm1 & Hm2).
  exists mid. by split_and!.
Qed.

(** One side of [between_matches]. *)
Fixpoint gaps {A} (v : list A) (ms : list nat) (i : nat) : list A :=
  match ms with
  | [] => []
  | m :: ms' => sub i m v ++ gaps v ms' (Nat.min (S m) (length v))
  end.

Lemma between_matches_gaps {A} (ms : list (nat * nat)) (a b : list A) i j :
  between_matches ms a b i j = (gaps a ms.*1 i, gaps b ms.*2 j).
Proof.
  revert i j. induction ms as [|[mi mj] ms IH]; intros i j; [done|].
  cbn [between_matches]. by rewrite IH.
Qed.

(** Increasing positions in a list of [n]. *)
Fixpoint increasing (n i : nat) (ms : list nat) : Prop :=
  match ms with [] => i ≤ n | m :: ms' => i ≤ m ∧ m < n ∧ increasing n (S m) ms' end.

Lemma increasing_le n i ms : increasing n i ms → i ≤ n.
Proof. destruct ms as [|m ms]; cbn; lia. Qed.

Lemma gaps_spec s a ms i pos :
  increasing (length a) i ms → tiles s pos (drop i a) (length s) →
  let rs := gaps a (ms ++ [length a]) i in
  marks s 0 pos rs ∧ erase pos rs s = concat (omap (λ m, slice s <$> a !! m) ms).
Proof.
  revert i pos. induction ms as [|m ms IH]; intros i pos Hms Ht; cbn [app gaps].
  - cbn [omap list_omap concat]. unfold sub. rewrite take_ge by (rewrite length_drop; lia).
    split; [by eapply tiles_marks|]. rewrite (erase_tiles _ _ _ _ _ Ht). cbn. by apply drop_ge.
  - destruct Hms as (H1 & H2 & Hms). rewrite Nat.min_l by lia.
    destruct (lookup_lt_is_Some_2 a m H2) as [tok Htok].
    assert (drop i a = sub i m a ++ tok :: drop (S m) a) as Hd.
    { unfold sub. rewrite <- (take_drop (m - i) (drop i a)) at 1. f_equal.
      rewrite drop_drop. replace (i + (m - i)) with m by lia. by apply drop_S. }
    rewrite Hd in Ht. apply tiles_app in Ht as (mid & Ht1 & (Hlo & Hlt & Hle & Hb1 & Hb2 & Ht2)).
    destruct (IH (S m) tok.2 Hms Ht2) as [HR He].
    assert (marks s 0 mid (gaps a (ms ++ [length a]) (S m))) as HR'.
    { clear -HR Hlt. destruct (gaps _ _ _); [done|]. cbn [marks] in *.
      destruct HR as (? & ? & ? & ? & ? & ?). split_and!; [lia|done..]. }
    split; [by eapply tiles_marks|].
    rewrite (erase_tiles _ _ _ _ _ Ht1), (erase_skip _ mid tok.2), He by (done || lia).
    cbn [omap list_omap]. rewrite Htok. cbn [fmap option_fmap option_map concat].
    unfold slice. by rewrite Hlo.
Qed.

Lemma matching_increasing (a b : list bytes) i j ms :
  i ≤ length a → j ≤ length b → matching a b i j ms →
  increasing (length a) i ms.*1 ∧ increasing (length b) j ms.*2.
Proof.
  revert i j. induction ms as [|[mi mj] ms IH]; intros i j Hi Hj; [done|].
  cbn [matching]. intros (H1 & H2 & (x & Ha & Hb) & Hm).
  apply lookup_lt_Some in Ha. apply lookup_lt_Some in Hb. rewrite !fmap_cons. cbn [increasing fst snd].
  destruct (IH (S mi) (S mj)) as [? ?]; [lia|lia|done|]. by split_and!.
Qed.

(** The texts that the matches pair are the same on both sides. *)
Lemma matching_texts (a b : list bytes) i j ms :
  matching a b i j ms → omap (a !!.) ms.*1 = omap (b !!.) ms.*2.
Proof.
  revert i j. induction ms as [|[mi mj] ms IH]; intros i j; [done|].
  cbn [matching]. intros (_ & _ & (x & Ha & Hb) & Hm). rewrite !fmap_cons. cbn [omap list_omap fst snd].
  rewrite Ha, Hb. f_equal. by eapply IH.
Qed.

Lemma omap_fmap_lookup s a (ms : list nat) :
  omap (λ m, slice s <$> a !! m) ms = omap ((slice s <$> a) !!.) ms.
Proof.
  induction ms as [|m ms IH]; [done|]. cbn [omap list_omap].
  rewrite list_lookup_fmap. by destruct (a !! m); cbn; rewrite IH.
Qed.

(** *** The texts of the tokens *)

(** The longest runs of word characters and of white space, and every other character by
    itself. *)
Fixpoint token_runs (gs : list (list N)) : Prop :=
  match gs with
  | [] => True
  | g :: gs' =>
      (∃ c cs, g = c :: cs ∧ Forall (joins c) cs ∧
         ∀ d ds gs'', gs' = (d :: ds) :: gs'' → joins c d = false) ∧
      token_runs gs'
  end.

(** The ranges of the runs, one after the other from [start]. *)
Fixpoint run_ranges (start : nat) (gs : list (list N)) : Ranges :=
  match gs with
  | [] => []
  | g :: gs' => let end_ := start + length (encode g) in (start, end_) :: run_ranges end_ gs'
  end.

Lemma run_ranges_slices pre gs :
  slice (pre ++ concat (encode <$> gs)) <$> run_ranges (length pre) gs = encode <$> gs.
Proof.
  revert pre. induction gs as [|g gs IH]; intros pre; [done|].
  cbn [run_ranges fmap list_fmap concat]. f_equal.
  - unfold slice. cbn [fst snd]. rewrite drop_app_length, take_app_le by lia.
    apply take_ge. lia.
  - rewrite app_assoc, <- length_app. apply IH.
Qed.

Lemma tokens_loop_runs fuel max cs start out :
  length cs ≤ fuel → (lenN out ≤ max)%N →
  ∃ gs, concat gs = cs ∧ token_runs gs ∧
    tokens_loop fuel max cs start out =
    if (max <? lenN out + lenN gs)%N then None else Some (out ++ run_ranges start gs).
Proof.
  revert cs start out. induction fuel as [|fuel IH]; intros cs start out Hf Ho.
  all: destruct cs as [|c cs]; [exists [] | cbn in Hf; try lia].
  1, 2: cbn [tokens_loop concat run_ranges]; rewrite app_nil_r;
        destruct (max <? _)%N eqn:Em2; to_prop; [unfold lenN in *; cbn in *; lia|done].
  cbn [tokens_loop]. destruct (token_end_runs c cs (start + len_utf8 c)) as (run & H1 & H2 & H3 & H4).
  destruct (token_end _ _ _ _) as [e cs'']. cbn [fst snd] in *. subst cs.
  assert (e = start + length (encode (c :: run))) as He.
  { rewrite encode_cons, length_app. unfold len_utf8 in H2. lia. }
  destruct (_ <? _)%N eqn:Em; to_prop.
  - destruct (IH cs'' e []) as (gs & Hc & Hg & _);
      [rewrite length_app in Hf; lia|unfold lenN; cbn; lia|].
    exists ((c :: run) :: gs). split_and!; [cbn; by rewrite Hc| |].
    + split; [|done]. exists c, run. split_and!; [done..|].
      intros d ds gs'' ->. by eapply H4.
    + destruct (max <? _)%N eqn:Em2; to_prop; [done|].
      unfold lenN in *. rewrite length_app in Em. cbn in *. lia.
  - destruct (IH cs'' e (out ++ [(start, e)])) as (gs & Hc & Hg & ->);
      [rewrite length_app in Hf; lia|done|].
    exists ((c :: run) :: gs). split_and!; [cbn; by rewrite Hc| |].
    + split; [|done]. exists c, run. split_and!; [done..|].
      intros d ds gs'' ->. by eapply H4.
    + cbn [run_ranges]. rewrite <- He, <- app_assoc.
      replace (lenN (out ++ [(start, e)]) + lenN gs)%N
        with (lenN out + lenN ((c :: run) :: gs))%N by (unfold lenN; rewrite length_app; cbn; lia).
      done.
Qed.

Lemma tokens_runs s max :
  utf8_valid s = true →
  ∃ gs, token_runs gs ∧ concat (encode <$> gs) = s ∧
    ((lenN gs ≤ max)%N →
       ∃ ts, tokens s max = Some ts ∧ slice s <$> ts = encode <$> gs) ∧
    ((max < lenN gs)%N → tokens s max = None).
Proof.
  intros (cs & Hcs & ->)%utf8_valid_iff.
  assert (tokens (encode cs) max = tokens_loop (length cs) max cs 0 []) as ->.
  { unfold tokens, chars. by rewrite utf8_decode_encode. }
  destruct (tokens_loop_runs (length cs) max cs 0 []) as (gs & Hc & Hg & ->); [done|unfold lenN; cbn; lia|].
  assert (concat (encode <$> gs) = encode cs) as He.
  { rewrite <- Hc. clear. induction gs as [|g gs IH]; [done|].
    cbn [fmap list_fmap concat]. by rewrite IH, encode_app. }
  exists gs. split_and!; [done..| |]; intros Hm; destruct (max <? _)%N eqn:Em2; to_prop;
    try (unfold lenN in *; cbn in *; lia); [|done].
  eexists. split; [done|]. rewrite <- He. apply (run_ranges_slices []).
Qed.

(** *** The marks *)

Lemma erase_length pos s rs :
  pos ≤ length s → marks s 0 pos rs →
  (total rs + N.of_nat (length (erase pos rs s)))%N = N.of_nat (length s - pos).
Proof.
  revert pos. induction rs as [|r rs IH]; intros pos Hp; cbn [marks erase total foldr].
  { intros _. rewrite length_drop. lia. }
  intros (? & ? & ? & _ & _ & Hr). rewrite Nat.add_0_r in Hr. apply IH in Hr; [|done].
  rewrite length_app. unfold sub. rewrite length_take, length_drop.
  fold (total rs). lia.
Qed.

Lemma tiles_total s a : tiles s 0 a (length s) → total a = lenN s.
Proof.
  intros Ht. assert (marks s 0 0 (a ++ [])) as Hm by by eapply tiles_marks.
  apply erase_length in Hm; [|lia]. rewrite (erase_tiles _ _ _ _ _ Ht) in Hm.
  cbn [erase] in Hm. rewrite drop_ge in Hm by done. rewrite app_nil_r in Hm.
  cbn [length] in Hm. unfold lenN. lia.
Qed.

Lemma increasing_sublist {A} (v : list A) i ms :
  increasing (length v) i ms → omap (v !!.) ms `sublist_of` drop i v.
Proof.
  revert i. induction ms as [|m ms IH]; intros i; cbn [increasing omap list_omap].
  { intros _. apply sublist_nil_l. }
  intros (H1 & H2 & H3). destruct (lookup_lt_is_Some_2 v m H2) as [x Hx]. rewrite Hx.
  apply IH in H3. transitivity (drop m v).
  - rewrite (drop_S v x m) by done. by apply sublist_skip.
  - replace m with (i + (m - i)) by lia. rewrite <- drop_drop. apply sublist_drop.
Qed.

Lemma increasing_omap_length {A} (v : list A) i ms :
  increasing (length v) i ms → length (omap (v !!.) ms) = length ms.
Proof.
  revert i. induction ms as [|m ms IH]; intros i; [done|]. cbn [increasing omap list_omap].
  intros (_ & H2 & H3). destruct (lookup_lt_is_Some_2 v m H2) as [x Hx]. rewrite Hx.
  cbn [length]. by erewrite IH.
Qed.

(** More than 70 percent of the bytes of [s] are marked when [kept] is left unmarked, in
    single precision. *)
Definition mostly_marked (s : bytes) (kept : list bytes) : bool :=
  (0 <? lenN s)%N &&
  f32_lt (f32_div (f32_of_N 7) (f32_of_N 10))
    (f32_div (f32_of_N (lenN s - lenN (concat kept))) (f32_of_N (lenN s))).

(** The longest common subsequences of two lists. *)
Definition longest_common (kept a b : list bytes) : Prop :=
  kept `sublist_of` a ∧ kept `sublist_of` b ∧
  ∀ c, c `sublist_of` a → c `sublist_of` b → length c ≤ length kept.

Lemma matching_longest (a b : list bytes) :
  let kept := omap (a !!.) (lcs a b).*1 in
  longest_common kept a b ∧ kept = omap (b !!.) (lcs a b).*2 ∧
  increasing (length a) 0 (lcs a b).*1 ∧ increasing (length b) 0 (lcs a b).*2.
Proof.
  destruct (lcs_longest a b) as [Hm Hl]. pose proof (matching_texts _ _ _ _ _ Hm) as Ht.
  apply matching_increasing in Hm as [Ia Ib]; [|lia..]. split_and!; [|done..].
  split_and!.
  - exact (increasing_sublist a 0 _ Ia).
  - rewrite Ht. exact (increasing_sublist b 0 _ Ib).
  - intros c Ha Hb. rewrite (increasing_omap_length a 0) by done. rewrite length_fmap.
    by apply Hl.
Qed.

Lemma fraction_mostly s a rs kept :
  tiles s 0 a (length s) → marks s 0 0 rs → erase 0 rs s = concat kept →
  fraction rs (total a) = mostly_marked s kept.
Proof.
  intros Ha%tiles_total Hm He. apply erase_length in Hm; [|lia]. rewrite He in Hm.
  unfold fraction, mostly_marked. rewrite Ha. do 4 f_equal. unfold lenN. lia.
Qed.

(** The marks of two texts within the limits. *)
Lemma fine_marks old new a b :
  tiles old 0 a (length old) → tiles new 0 b (length new) →
  ∃ kept, longest_common kept (slice old <$> a) (slice new <$> b) ∧
    if mostly_marked old kept || mostly_marked new kept then fine old new a b = None
    else ∃ ra rb, fine old new a b = Some (ra, rb) ∧
      marks old 1 0 ra ∧ marks new 1 0 rb ∧
      erase 0 ra old = concat kept ∧ erase 0 rb new = concat kept.
Proof.
  intros Hta Htb. set (ta := slice old <$> a). set (tb := slice new <$> b).
  destruct (matching_longest ta tb) as (Hk & Htx & Ia & Ib).
  exists (omap (ta !!.) (lcs ta tb).*1). split; [done|].
  unfold fine. fold ta tb. rewrite between_matches_gaps, !fmap_app.
  change ([(length a, length b)].*1) with [length a].
  change ([(length a, length b)].*2) with [length b].
  unfold ta in Ia. unfold tb in Ib. rewrite length_fmap in Ia, Ib. fold ta tb in Ia, Ib.
  destruct (gaps_spec old a _ 0 0 Ia Hta) as [Ma Era].
  destruct (gaps_spec new b _ 0 0 Ib Htb) as [Mb Erb].
  rewrite omap_fmap_lookup in Era, Erb. fold ta in Era. fold tb in Erb. rewrite <- Htx in Erb.
  rewrite (fraction_mostly old a _ _ Hta Ma Era), (fraction_mostly new b _ _ Htb Mb Erb).
  destruct (_ || _); [done|]. do 2 eexists. split; [done|].
  rewrite !erase_coalesce. split_and!; [by apply coalesce_marks..|done|done].
Qed.

Lemma word_diff_spec old new :
  utf8_valid old = true → utf8_valid new = true →
  ∃ ga gb, token_runs ga ∧ token_runs gb ∧
    let ta : list bytes := encode <$> ga in
    let tb : list bytes := encode <$> gb in
    concat ta = old ∧ concat tb = new ∧
    let '(ra, rb) := word_diff old new in
    if (4096 <? lenN old)%N || (4096 <? lenN new)%N || (512 <? lenN ta)%N || (512 <? lenN tb)%N
    then ra = [] ∧ rb = []
    else ∃ kept, longest_common kept ta tb ∧
      if mostly_marked old kept || mostly_marked new kept then ra = [] ∧ rb = []
      else marks old 1 0 ra ∧ marks new 1 0 rb ∧
           erase 0 ra old = concat kept ∧ erase 0 rb new = concat kept.
Proof.
  intros Ho Hn. destruct (tokens_runs old max_tokens Ho) as (ga & Hga & Hca & Ha1 & Ha2).
  destruct (tokens_runs new max_tokens Hn) as (gb & Hgb & Hcb & Hb1 & Hb2).
  exists ga, gb. split; [done|]. split; [done|]. intros ta tb. split; [done|]. split; [done|].
  unfold word_diff, max_bytes. destruct (_ || (4096 <? lenN new)%N) eqn:E1; [done|].
  assert (lenN ta = lenN ga ∧ lenN tb = lenN gb) as [-> ->].
  { unfold lenN, ta, tb. by rewrite !length_fmap. }
  destruct (512 <? lenN ga)%N eqn:E2; to_prop; [by rewrite Ha2|].
  destruct Ha1 as (a & Ea & Sa); [done|]. rewrite Ea.
  destruct (512 <? lenN gb)%N eqn:E3; to_prop; [by rewrite Hb2|].
  destruct Hb1 as (b & Eb & Sb); [done|]. rewrite Eb. cbn [orb].
  destruct (fine_marks old new a b) as (kept & Hk & Hf);
    [by eapply tokens_tile..|].
  rewrite Sa, Sb in Hk.
  destruct (mostly_marked old kept || mostly_marked new kept) eqn:Em.
  - rewrite Hf. exists kept. by rewrite Em.
  - destruct Hf as (ra & rb & -> & ?). exists kept. by rewrite Em.
Qed.

Lemma word_diff_valid old new :
  utf8_valid old = true → utf8_valid new = true →
  marks old 1 0 (word_diff old new).1 ∧ marks new 1 0 (word_diff old new).2.
Proof.
  intros Ho Hn. destruct (word_diff_spec old new Ho Hn) as (ga & gb & _ & _ & _ & _ & H).
  destruct (word_diff old new) as [ra rb]. cbn [fst snd].
  destruct (_ || _ || _ || _); [by destruct H as [-> ->]|].
  destruct H as (kept & _ & H). destruct (_ || _); [by destruct H as [-> ->]|].
  tauto.
Qed.

(** C27: the marks of a changed line are exactly what the two lines do not share. Cut both
    lines into tokens, the longest runs of word characters and of white space and every
    other character by itself. If a line has more than 4096 bytes or 512 tokens there are
    no marks. Otherwise there is a longest common subsequence of the two lists of tokens:
    if more than 70 percent of the bytes of a line are outside it there are no marks
    either, and if not, the marked ranges lie in their line at character boundaries, none
    empty, in order and apart, and erasing them leaves both lines exactly this
    subsequence. *)
Theorem word_diff_marks old new :
  utf8_valid old = true → utf8_valid new = true →
  ∃ ga gb, token_runs ga ∧ token_runs gb ∧
    let ta : list bytes := encode <$> ga in
    let tb : list bytes := encode <$> gb in
    concat ta = old ∧ concat tb = new ∧
    let '(ra, rb) := word_diff old new in
    if (4096 <? lenN old)%N || (4096 <? lenN new)%N || (512 <? lenN ta)%N || (512 <? lenN tb)%N
    then ra = [] ∧ rb = []
    else ∃ kept, longest_common kept ta tb ∧
      if mostly_marked old kept || mostly_marked new kept then ra = [] ∧ rb = []
      else marks old 1 0 ra ∧ marks new 1 0 rb ∧
           erase 0 ra old = concat kept ∧ erase 0 rb new = concat kept.
Proof. exact (word_diff_spec old new). Qed.
End marks.

(** ** Witnesses *)

Definition ascii_letters : CharClass := λ c, between 97 122 c.

(** One word changes: its tokens are marked on both sides, and the rest is what the two
    lines share. *)
Example word_diff_marks_witness :
  let old := bs "let na = 1;" in
  let new := bs "let nab = 1;" in
  @word_diff ascii_letters old new = ([(4, 6)], [(4, 7)]) ∧
  (erase 0 [(4, 6)] old = bs "let  = 1;") ∧
  ∃ ga gb, @token_runs ascii_letters ga ∧ @token_runs ascii_letters gb ∧
    concat (encode <$> ga) = old ∧ concat (encode <$> gb) = new.
Proof.
  intros old new. split; [vm_compute; reflexivity|]. split; [vm_compute; reflexivity|].
  destruct (@word_diff_marks ascii_letters old new eq_refl eq_refl)
    as (ga & gb & H1 & H2 & H3 & H4 & _).
  exists ga, gb. split; [exact H1|]. split; [exact H2|]. split; [exact H3|exact H4].
Defined.

(** Prose that differs only in the white space between its sentences is compared without
    it once it has more than [max] tokens, and comes back without marks, although the code
    documents that differing texts always have some. *)
Lemma prose_difference_unmarked :
  let old := bs "a.  b.  c" in
  let new := bs "a. b. c" in
  old ≠ new ∧ @word_diff_with ascii_letters old new 65536 3 = ([], []) ∧
  @word_diff_with ascii_letters old new 65536 4 ≠ ([], []).
Proof. vm_compute. by repeat split. Qed.
