(* ===== verification/Rich.v ===== *)
(** * Rich differences of Markdown prose ([crates/core/src/rich.rs])

    A side of a hunk is cut into blocks: fenced code, headings and runs of prose. The blocks of
    the two sides are paired along a longest common subsequence of their texts. *)

From S2P Require Import Prelude RustStr Utf8 Domain Patch Inline.

Module RichKind.
Inductive RichKind := Same | Added | Removed | Changed.
#[export] Instance RichKind_eq_dec : EqDecision RichKind.
Proof. solve_decision. Defined.
End RichKind.
Export (hints) RichKind.
Notation RichKind := RichKind.RichKind.

(** Texts and first lines of a block, on the sides that have it. *)
Record RichBlock := mkRichBlock {
  kind : RichKind; rb_old : option bytes; rb_new : option bytes;
  rb_old_line : option N; rb_new_line : option N
}.
Inductive RichItem :=
| Block (b : RichBlock)
| Gap (old_line new_line count : N).

(** ** Blocks *)

Definition BACKTICK : byte := Byte.x60.
Definition TILDE : byte := Byte.x7e.
Definition HASH : byte := Byte.x23.
Definition SPACE : byte := Byte.x20.

(** How many times a text begins with a byte. *)
Fixpoint leading (c : byte) (s : bytes) : nat :=
  match s with b :: s => if bool_decide (b = c) then S (leading c s) else 0 | [] => 0 end.

Definition opener (trimmed : bytes) : option (byte * nat) :=
  match trimmed with
  | [] => None
  | ch :: _ =>
      if negb (bool_decide (ch = BACKTICK)) && negb (bool_decide (ch = TILDE)) then None
      else if (3 <=? leading ch trimmed)%nat then Some (ch, leading ch trimmed) else None
  end.
Definition closer (trimmed : bytes) (ch : byte) (open_len : nat) : bool :=
  starts_with [ch] trimmed && (Nat.max open_len 3 <=? leading ch trimmed)%nat.
Definition is_heading (line : bytes) : bool :=
  let spaces := leading SPACE line in
  if (3 <? spaces)%nat then false
  else
    let rest := drop spaces line in
    let hashes := leading HASH rest in
    (1 <=? hashes)%nat && (hashes <=? 6)%nat && starts_with [SPACE] (drop hashes rest).

Definition blank (line : bytes) : bool := bool_decide (trim line = []).
(** A line that goes on a run of prose. *)
Definition prose (line : bytes) : bool :=
  negb (blank line) && negb (is_heading line) && negb (is_Some_b (opener (trim line))).
Fixpoint run_length (p : bytes → bool) (ls : list bytes) : nat :=
  match ls with l :: ls => if p l then S (run_length p ls) else 0 | [] => 0 end.

(** How many lines the block takes that begins with the first of [ls], a line that is not
    blank: a fence to its end, a heading, or a run of prose. *)
Definition block_length (line : bytes) (ls : list bytes) : nat :=
  match opener (trim line) with
  | Some (ch, len) =>
      S (Nat.min (S (run_length (λ l, negb (closer (trim l) ch len)) ls)) (length ls))
  | None => if is_heading line then 1 else S (run_length prose ls)
  end.
(** The loop, at line [i] with the lines [ls] to come. *)
Fixpoint blocks_loop (fuel i : nat) (ls : list bytes) : list (nat * nat) :=
  match fuel, ls with
  | S fuel, l :: ls =>
      if blank l then blocks_loop fuel (S i) ls
      else
        let n := block_length l ls in
        (i, i + n) :: blocks_loop fuel (i + n) (drop n (l :: ls))
  | _, _ => []
  end.
Definition blocks (ls : list bytes) : list (nat * nat) := blocks_loop (length ls) 0 ls.

(** ** One side of a hunk *)

Record HunkSide := mkHunkSide {
  side_lines : list bytes; side_nums : list N; side_blocks : list (nat * nat)
}.
Definition block_lines (s : HunkSide) (r : nat * nat) : list bytes :=
  take (r.2 - r.1) (drop r.1 (side_lines s)).
Definition side_text (s : HunkSide) (r : nat * nat) : bytes := join [LF] (block_lines s r).
(** The white space at the end of the last line is left out. *)
Definition side_norm (s : HunkSide) (r : nat * nat) : bytes :=
  let ls := block_lines s r in
  let suffix := match last ls with Some l => length l - length (trim_end l) | None => 0 end in
  take (length (join [LF] ls) - suffix) (join [LF] ls).
(** The number of the first line; a block has one. *)
Definition side_line (s : HunkSide) (r : nat * nat) : N := default 0%N (side_nums s !! r.1).

Definition build_side (h : Hunk) (keep : RowKind → bool) (num : PatchRow → option N) : HunkSide :=
  let kept := List.filter (λ r, keep (row_kind r)) (rows h) in
  mkHunkSide (row_text <$> kept) ((λ r, default 0%N (num r)) <$> kept) (blocks (row_text <$> kept)).
Definition old_side (h : Hunk) : HunkSide :=
  build_side h (λ k, negb (bool_decide (k = RowKind.Added))) old_line.
Definition new_side (h : Hunk) : HunkSide :=
  build_side h (λ k, negb (bool_decide (k = RowKind.Removed))) new_line.

(** ** Pairing *)

(** The walk over the table of lengths; on the last block of the old side it moves in the new. *)
Fixpoint pair_walk (fuel : nat) (a b : list bytes) (t : list (list nat)) (i j : nat)
    : list (nat * nat) :=
  match fuel, a !! i, b !! j with
  | S fuel, Some x, Some y =>
      if bool_decide (x = y) then (i, j) :: pair_walk fuel a b t (S i) (S j)
      else if (S i <? length a)%nat && (dp_at t i (S j) <=? dp_at t (S i) j)%nat
      then pair_walk fuel a b t (S i) j
      else pair_walk fuel a b t i (S j)
  | _, _, _ => []
  end.
Definition pairs (a b : HunkSide) : option (list (nat * nat)) :=
  if bool_decide (side_blocks a = []) || bool_decide (side_blocks b = []) then Some []
  else if (250000 <? lenN (side_blocks a) * lenN (side_blocks b))%N then None
  else
    let na := side_norm a <$> side_blocks a in
    let nb := side_norm b <$> side_blocks b in
    Some (pair_walk (length na + length nb) na nb (dp_table na nb) 0 0).

Definition block (k : RichKind) (old new : option (nat * nat * HunkSide)) : RichItem :=
  Block (mkRichBlock k ((λ x, side_text x.2 x.1) <$> old) ((λ x, side_text x.2 x.1) <$> new)
           ((λ x, side_line x.2 x.1) <$> old) ((λ x, side_line x.2 x.1) <$> new)).

(** The blocks before a pair: those of one side with those of the other, in order, then what
    is left of either. *)
Fixpoint unpaired (old new : HunkSide) (xs ys : list (nat * nat)) : list RichItem :=
  match xs, ys with
  | x :: xs, y :: ys =>
      block RichKind.Changed (Some (x, old)) (Some (y, new)) :: unpaired old new xs ys
  | xs, [] => (λ x, block RichKind.Removed (Some (x, old)) None) <$> xs
  | [], ys => (λ y, block RichKind.Added None (Some (y, new))) <$> ys
  end.
(** The loop over the pairs, from block [i] of the old and block [j] of the new side. *)
Fixpoint emit_loop (old new : HunkSide) (i j : nat) (ms : list (nat * nat)) : list RichItem :=
  let xs n := take (n - i) (drop i (side_blocks old)) in
  let ys n := take (n - j) (drop j (side_blocks new)) in
  match ms with
  | [] => unpaired old new (xs (length (side_blocks old))) (ys (length (side_blocks new)))
  | (mi, mj) :: ms =>
      unpaired old new (xs mi) (ys mj)
      ++ match side_blocks old !! mi, side_blocks new !! mj with
         | Some x, Some y => [block RichKind.Same (Some (x, old)) (Some (y, new))]
         | _, _ => []
         end
      ++ emit_loop old new (S mi) (S mj) ms
  end.
Definition emit_hunk (h : Hunk) : list RichItem :=
  let old := old_side h in
  let new := new_side h in
  match pairs old new with
  | None =>
      ((λ x, block RichKind.Removed (Some (x, old)) None) <$> side_blocks old)
      ++ ((λ y, block RichKind.Added None (Some (y, new))) <$> side_blocks new)
  | Some ms => emit_loop old new 0 0 ms
  end.

(** ** A file *)

Definition max_line (ns : list N) (otherwise : N) : N :=
  match ns with [] => otherwise | n :: ns => foldl N.max n ns end.
Fixpoint rich_hunks (hs : list Hunk) (prev_old_end prev_new_end : N) : list RichItem :=
  match hs with
  | [] => []
  | h :: hs =>
      (if (prev_new_end + 1 <? new_start h)%N
       then [Gap (prev_old_end + 1) (prev_new_end + 1) (new_start h - prev_new_end - 1)] else [])
      ++ emit_hunk h
      ++ rich_hunks hs (max_line (omap old_line (rows h)) prev_old_end)
           (max_line (omap new_line (rows h)) prev_new_end)
  end.
Definition rich_diff (f : FileChange) : list RichItem := rich_hunks (hunks f) 0 0.

(** ** Marked words *)

Section marks.
Context {class_ : CharClass}.

(** Marks with at most two bytes between them, none of a letter or digit, become one. *)
Fixpoint merge_marks (text : bytes) (last : nat * nat) (rs : list (nat * nat)) : list (nat * nat) :=
  match rs with
  | [] => [last]
  | r :: rs =>
      if (last.2 <=? r.1)%nat && (r.1 - last.2 <=? 2)%nat
         && negb (existsb is_alphanumeric (chars (slice text (last.2, r.1))))
      then merge_marks text (last.1, r.2) rs
      else last :: merge_marks text r rs
  end.
Definition merged_marks (text : bytes) (rs : list (nat * nat)) : list (nat * nat) :=
  match rs with [] => [] | r :: rs => merge_marks text r rs end.
(** The loop that writes the text with a delimiter on both sides of each mark. *)
Fixpoint wrap_loop (text : bytes) (marker : bytes * bytes) (at_ : nat) (rs : list (nat * nat))
    : bytes :=
  match rs with
  | [] => drop at_ text
  | r :: rs =>
      let piece := slice text r in
      let lead := length piece - length (trim_start piece) in
      let trail := length piece - length (trim_end piece) in
      if (length piece <=? lead + trail)%nat then wrap_loop text marker at_ rs
      else
        let start := r.1 + lead in
        let end_ := r.2 - trail in
        slice text (at_, start) ++ marker.1 ++ slice text (start, end_) ++ marker.2
        ++ wrap_loop text marker end_ rs
  end.
Definition wrap (text : bytes) (rs : list (nat * nat)) (marker : bytes * bytes) : bytes :=
  wrap_loop text marker 0 (merged_marks text rs).

Definition mark_words (old new : bytes) (removed added : bytes * bytes) : bytes * bytes :=
  if starts_with (bs "```") (trim_start old) || starts_with (bs "~~~") (trim_start old)
  then (old, new)
  else
    let '(a, b) := word_diff_with old new (64 * 1024) 3000 in
    (wrap old a removed, wrap new b added).
End marks.
