(* ===== verification/RichFacts.v ===== *)
(** * Theorems about rich differences: blocks, pairing, marks *)

From S2P Require Import Prelude RustStr Utf8 Domain Patch Inline InlineFacts Rich.

(** ** Blocks *)

Lemma run_length_le p ls : run_length p ls ≤ length ls.
Proof. induction ls as [|l ls IH]; cbn; [done|]. destruct (p l); lia. Qed.
Lemma block_length_bounds l ls : 1 ≤ block_length l ls ≤ S (length ls).
Proof.
  unfold block_length. destruct (opener _) as [[ch len]|]; [lia|].
  destruct (is_heading l); [lia|]. pose proof (run_length_le prose ls). lia.
Qed.

(** Ranges in order, none empty, from [i] to [n], with only blank lines between them. *)
Fixpoint cut (ls : list bytes) (i : nat) (rs : list (nat * nat)) : Prop :=
  match rs with
  | [] => ∀ k l, i ≤ k → ls !! k = Some l → blank l = true
  | r :: rs =>
      i ≤ r.1 < r.2 ∧ r.2 ≤ length ls ∧
      (∀ k l, i ≤ k < r.1 → ls !! k = Some l → blank l = true) ∧
      (∃ l, ls !! r.1 = Some l ∧ blank l = false) ∧ cut ls r.2 rs
  end.
Lemma cut_after ls i i' rs :
  i ≤ i' → (∀ k l, i ≤ k < i' → ls !! k = Some l → blank l = true) → cut ls i' rs → cut ls i rs.
Proof.
  intros Hi Hb. destruct rs as [|r rs]; cbn.
  - intros H k l Hk Hl. destruct (decide (k < i')); [apply (Hb k l)|apply (H k l)]; first [done|lia].
  - intros (H1 & H2 & H3 & H4 & H5). split_and!; [lia|lia|done| |done|done].
    intros k l Hk Hl. destruct (decide (k < i')); [apply (Hb k l)|apply (H3 k l)]; first [done|lia].
Qed.
Lemma blocks_loop_cut all fuel i :
  length all - i ≤ fuel → cut all i (blocks_loop fuel i (drop i all)).
Proof.
  revert i. induction fuel as [|fuel IH]; intros i Hf.
  { cbn. intros k l Hk Hl%lookup_lt_Some. lia. }
  destruct (drop i all) as [|l ls] eqn:Ed.
  { cbn. intros k x Hk Hx%lookup_lt_Some. apply (f_equal length) in Ed.
    rewrite length_drop in Ed. cbn in Ed. lia. }
  assert (all !! i = Some l) as Hl.
  { rewrite <- (Nat.add_0_r i), <- lookup_drop. by rewrite Ed. }
  assert (length all = i + S (length ls)) as Hlen.
  { pose proof (lookup_lt_Some _ _ _ Hl). apply (f_equal length) in Ed.
    rewrite length_drop in Ed. cbn in Ed. lia. }
  cbn [blocks_loop]. destruct (blank l) eqn:Eb.
  - apply (cut_after _ i (S i)); [lia| |].
    + intros k x Hk Hx. replace k with i in Hx by lia. congruence.
    + assert (ls = drop (S i) all) as ->; [|apply IH; lia].
      rewrite <- Nat.add_1_r, <- drop_drop, Ed. done.
  - pose proof (block_length_bounds l ls) as Hn. cbn [cut fst snd].
    split_and!; [lia..| |by exists l|].
    + intros k x Hk. lia.
    + rewrite <- Ed, drop_drop. apply IH. lia.
Qed.
Lemma blocks_cut ls : cut ls 0 (blocks ls).
Proof. unfold blocks. rewrite <- (drop_0 ls) at 3. apply blocks_loop_cut. lia. Qed.

(** ** Pairs *)

Lemma pair_walk_spec a b fuel i j :
  i ≤ length a → j ≤ length b → (length a - i) + (length b - j) ≤ fuel →
  let ms := pair_walk fuel a b (dp_table a b) i j in
  matching a b i j ms ∧ length ms = lcs_len (drop i a) (drop j b).
Proof.
  revert i j. induction fuel as [|fuel IH]; intros i j Hi Hj Hf.
  { cbn. split; [done|]. rewrite drop_ge by lia. done. }
  cbn [pair_walk]. destruct (a !! i) as [x|] eqn:Ea.
  2:{ apply lookup_ge_None in Ea. split; [done|]. by rewrite drop_ge. }
  destruct (b !! j) as [y|] eqn:Eb.
  2:{ apply lookup_ge_None in Eb. split; [done|]. rewrite (drop_ge b) by done.
      by rewrite lcs_len_nil_r. }
  pose proof (lookup_lt_Some _ _ _ Ea). pose proof (lookup_lt_Some _ _ _ Eb).
  rewrite (drop_S a x i), (drop_S b y j) by done. cbn [lcs_len].
  rewrite !dp_at_spec by lia. rewrite (drop_S b y j Eb), (drop_S a x i Ea).
  case_bool_decide as Hxy.
  - subst y. destruct (IH (S i) (S j)) as [Hm Hl]; [lia..|]. split.
    + cbn [matching]. split_and!; [lia|lia|by exists x|done].
    + cbn [length]. by rewrite Hl.
  - destruct (_ && _) eqn:Ec.
    + apply andb_true_iff in Ec as [_ Ec%Nat.leb_le]. destruct (IH (S i) j) as [Hm Hl]; [lia..|]. split.
      * by eapply matching_weaken; [..|exact Hm]; lia.
      * rewrite Hl, (drop_S b y j Eb). cbn [lcs_len] in Ec |- *.
        rewrite Nat.max_l; [done|]. exact Ec.
    + destruct (IH i (S j)) as [Hm Hl]; [lia..|]. split.
      * by eapply matching_weaken; [..|exact Hm]; lia.
      * rewrite Hl, (drop_S a x i Ea). cbn [lcs_len] in Ec |- *.
        rewrite Nat.max_r; [done|]. apply andb_false_iff in Ec as [Ec%Nat.ltb_ge|Ec%Nat.leb_gt].
        -- rewrite (drop_ge a (S i)) by lia. cbn. lia.
        -- cbn [lcs_len] in Ec. lia.
Qed.

(** What blocks are compared by, as the code documents it: their text without the white space
    at the end of the last line. *)
Definition trimmed_text (ls : list bytes) : bytes :=
  match reverse ls with l :: before => join [LF] (reverse (trim_end l :: before)) | [] => [] end.
Lemma trim_end_take s : take (length (trim_end s)) s = trim_end s.
Proof.
  unfold trim_end, chars. destruct (utf8_decode s) as [cs|] eqn:E; [|done].
  apply encode_utf8_decode in E as <-. cbn [default].
  destruct (drop_ws_suffix (reverse cs)) as [pre Hp].
  assert (cs = reverse (drop_ws (reverse cs)) ++ reverse pre) as Hc
    by (by rewrite <- reverse_app, <- Hp, reverse_involutive).
  rewrite Hc at 2. by rewrite encode_app, take_app_length.
Qed.
Lemma join_snoc (ls : list bytes) : ∃ pre, ∀ x : bytes, join [LF] (ls ++ [x]) = pre ++ x.
Proof.
  induction ls as [|l ls [pre IH]]; [by exists []|]. exists (l ++ [LF] ++ pre). intros x.
  rewrite <- !app_assoc, <- IH. by destruct ls.
Qed.
Lemma side_norm_trimmed s r : side_norm s r = trimmed_text (block_lines s r).
Proof.
  unfold side_norm. generalize (block_lines s r) as ls. intros ls. cbv zeta. unfold trimmed_text.
  destruct ls as [|l ls _] using rev_ind; [done|]. rewrite last_snoc, reverse_snoc, reverse_cons, reverse_involutive.
  destruct (join_snoc ls) as [pre Hp]. rewrite !Hp, length_app.
  assert (length (trim_end l) ≤ length l) as Hl by (rewrite <- (trim_end_take l), length_take; lia).
  rewrite take_app_ge by lia. f_equal. rewrite <- (trim_end_take l) at 2. f_equal. lia.
Qed.

Notation norms s := (side_norm s <$> side_blocks s).
Lemma pairs_spec old new ms :
  pairs old new = Some ms →
  matching (norms old) (norms new) 0 0 ms ∧ length ms = lcs_len (norms old) (norms new).
Proof.
  unfold pairs. destruct (_ || _) eqn:E.
  - intros [= <-]. split; [done|].
    apply orb_true_iff in E as [E%bool_decide_eq_true|E%bool_decide_eq_true]; rewrite E; cbn; [done|].
    by rewrite lcs_len_nil_r.
  - destruct (250000 <? _)%N; [done|]. intros [= <-]. apply pair_walk_spec; lia.
Qed.

(** A longest common subsequence is attained, and grows with each pair before it. *)
Lemma lcs_len_attained a b :
  ∃ c, c `sublist_of` a ∧ c `sublist_of` b ∧ length c = lcs_len a b.
Proof.
  revert b. induction a as [|x a IHa]; intros b; [exists []; split_and!; [done|apply sublist_nil_l|done]|].
  induction b as [|y b IHb]; [exists []; split_and!; [apply sublist_nil_l|done..]|].
  cbn [lcs_len]. case_bool_decide as Hxy.
  - subst y. destruct (IHa b) as (c & H1 & H2 & H3). exists (x :: c).
    split_and!; [by apply sublist_skip..|cbn; by rewrite H3].
  - destruct (Nat.max_spec (lcs_len a (y :: b)) (lcs_len (x :: a) b)) as [[_ Hm]|[_ Hm]].
    + destruct IHb as (c & H1 & H2 & H3). exists c. split_and!; [done|by apply sublist_cons|].
      cbn [lcs_len] in H3, Hm. lia.
    + destruct (IHa (y :: b)) as (c & H1 & H2 & H3). exists c. split_and!; [by apply sublist_cons|done|].
      cbn [lcs_len] in H3, Hm. lia.
Qed.
Lemma sublist_drop_pick {A} (a : list A) i m x c :
  i ≤ m → a !! m = Some x → c `sublist_of` drop (S m) a → (x :: c) `sublist_of` drop i a.
Proof.
  intros Hi Hx Hc. replace (drop i a) with (take (m - i) (drop i a) ++ x :: drop (S m) a).
  - apply sublist_inserts_l, sublist_skip, Hc.
  - rewrite <- (take_drop (m - i) (drop i a)) at 2. f_equal. rewrite drop_drop.
    replace (i + (m - i)) with m by lia. symmetry. by apply drop_S.
Qed.
Lemma lcs_len_pair a b i j mi mj x :
  i ≤ mi → j ≤ mj → a !! mi = Some x → b !! mj = Some x →
  S (lcs_len (drop (S mi) a) (drop (S mj) b)) ≤ lcs_len (drop i a) (drop j b).
Proof.
  intros Hi Hj Ha Hb.
  destruct (lcs_len_attained (drop (S mi) a) (drop (S mj) b)) as (c & H1 & H2 & <-).
  change (S (length c)) with (length (x :: c)). apply lcs_len_max; by eapply sublist_drop_pick.
Qed.
Lemma matching_len a b i j ms :
  matching a b i j ms → length ms ≤ lcs_len (drop i a) (drop j b).
Proof.
  revert i j. induction ms as [|[mi mj] ms IH]; intros i j; cbn [matching length]; [lia|].
  intros (Hi & Hj & (x & Ha & Hb) & Hm). apply IH in Hm.
  pose proof (lcs_len_pair a b i j mi mj x Hi Hj Ha Hb). lia.
Qed.

(** ** What a hunk shows *)

Section hunk.
Context (old new : HunkSide).
Notation na := (norms old).
Notation nb := (norms new).

Definition part (s : HunkSide) (r : nat * nat) : bytes * N := (side_text s r, side_line s r).
Definition old_part (x : RichItem) : option (bytes * N) :=
  match x with Block b => t ← rb_old b; n ← rb_old_line b; Some (t, n) | Gap _ _ _ => None end.
Definition new_part (x : RichItem) : option (bytes * N) :=
  match x with Block b => t ← rb_new b; n ← rb_new_line b; Some (t, n) | Gap _ _ _ => None end.

(** Each kind of block shows what it says. *)
Inductive item_ok : RichItem → Prop :=
| ok_same x y :
    x ∈ side_blocks old → y ∈ side_blocks new → side_norm old x = side_norm new y →
    item_ok (block RichKind.Same (Some (x, old)) (Some (y, new)))
| ok_changed x y :
    x ∈ side_blocks old → y ∈ side_blocks new → side_norm old x ≠ side_norm new y →
    item_ok (block RichKind.Changed (Some (x, old)) (Some (y, new)))
| ok_removed x : x ∈ side_blocks old → item_ok (block RichKind.Removed (Some (x, old)) None)
| ok_added y : y ∈ side_blocks new → item_ok (block RichKind.Added None (Some (y, new))).

Definition same (x : RichItem) : bool :=
  match x with Block b => bool_decide (kind b = RichKind.Same) | Gap _ _ _ => false end.
Definition sames (xs : list RichItem) : nat := length (List.filter same xs).

(** Items that show the blocks [xs] of the old and [ys] of the new side, [n] of them the same. *)
Record shows (items : list RichItem) (xs ys : list (nat * nat)) (n : nat) : Prop := {
  sh_old : omap old_part items = part old <$> xs;
  sh_new : omap new_part items = part new <$> ys;
  sh_ok : Forall item_ok items;
  sh_same : sames items = n
}.
Lemma shows_app l1 l2 xs1 xs2 ys1 ys2 n1 n2 :
  shows l1 xs1 ys1 n1 → shows l2 xs2 ys2 n2 →
  shows (l1 ++ l2) (xs1 ++ xs2) (ys1 ++ ys2) (n1 + n2).
Proof.
  intros [A1 B1 C1 D1] [A2 B2 C2 D2]. split.
  - by rewrite omap_app, A1, A2, fmap_app.
  - by rewrite omap_app, B1, B2, fmap_app.
  - by apply Forall_app.
  - unfold sames in *. by rewrite List.filter_app, length_app, D1, D2.
Qed.
Lemma shows_nil : shows [] [] [] 0.
Proof. by split. Qed.
Lemma shows_removed xs :
  (∀ x, x ∈ xs → x ∈ side_blocks old) →
  shows ((λ x, block RichKind.Removed (Some (x, old)) None) <$> xs) xs [] 0.
Proof.
  induction xs as [|x xs IH]; intros Hx; [apply shows_nil|].
  apply (shows_app [_] _ [x] _ [] [] 0 0); [|apply IH; set_solver].
  split; [done..| |done]. constructor; [constructor; set_solver|done].
Qed.
Lemma shows_added ys :
  (∀ y, y ∈ ys → y ∈ side_blocks new) →
  shows ((λ y, block RichKind.Added None (Some (y, new))) <$> ys) [] ys 0.
Proof.
  induction ys as [|y ys IH]; intros Hy; [apply shows_nil|].
  apply (shows_app [_] _ [] [] [y] _ 0 0); [|apply IH; set_solver].
  split; [done..| |done]. constructor; [constructor; set_solver|done].
Qed.
Lemma shows_unpaired xs ys :
  (∀ x, x ∈ xs → x ∈ side_blocks old) → (∀ y, y ∈ ys → y ∈ side_blocks new) →
  (∀ x y, x ∈ xs → y ∈ ys → side_norm old x ≠ side_norm new y) →
  shows (unpaired old new xs ys) xs ys 0.
Proof.
  revert ys. induction xs as [|x xs IH]; intros ys Hx Hy Hne.
  - destruct ys; [apply shows_nil|]. by apply shows_added.
  - destruct ys as [|y ys]; [by apply shows_removed|].
    apply (shows_app [_] _ [x] _ [y] _ 0 0); [|apply IH; set_solver].
    split; [done..| |done]. constructor; [constructor; set_solver|done].
Qed.

(** A stretch of a list. *)
Lemma elem_stretch {A} (l : list A) i n x :
  x ∈ take (n - i) (drop i l) → ∃ k, i ≤ k < n ∧ l !! k = Some x.
Proof.
  intros [k Hk]%list_elem_of_lookup. pose proof (lookup_lt_Some _ _ _ Hk) as Hlt.
  rewrite length_take in Hlt. rewrite lookup_take_lt, lookup_drop in Hk by lia.
  exists (i + k). split; [lia|done].
Qed.
Lemma stretch_split {A} (l : list A) i m x :
  i ≤ m → l !! m = Some x → drop i l = take (m - i) (drop i l) ++ [x] ++ drop (S m) l.
Proof.
  intros Hi Hx. rewrite <- (take_drop (m - i) (drop i l)) at 1. f_equal. rewrite drop_drop.
  replace (i + (m - i)) with m by lia. by apply drop_S.
Qed.

Lemma shows_loop ms i j :
  i ≤ length (side_blocks old) → j ≤ length (side_blocks new) →
  matching na nb i j ms → length ms = lcs_len (drop i na) (drop j nb) →
  shows (emit_loop old new i j ms) (drop i (side_blocks old)) (drop j (side_blocks new)) (length ms).
Proof.
  revert i j. induction ms as [|[mi mj] ms IH]; intros i j Hi Hj Hm Hl; cbn [emit_loop].
  - rewrite !take_ge by (rewrite length_drop; lia).
    assert (∀ s k x, x ∈ drop k (side_blocks s) → x ∈ side_blocks s) as Hin.
    { intros s k x Hx. rewrite <- (take_drop k (side_blocks s)). apply elem_of_app. by right. }
    apply shows_unpaired; [apply Hin|apply Hin|].
    intros x y [k Hx]%list_elem_of_lookup [k' Hy]%list_elem_of_lookup He.
    rewrite lookup_drop in Hx, Hy.
    pose proof (lcs_len_pair na nb i j (i + k) (j + k') (side_norm old x)) as Hp.
    rewrite !list_lookup_fmap, Hx, Hy in Hp. cbn in Hp, Hl.
    rewrite He in Hp. specialize (Hp ltac:(lia) ltac:(lia) eq_refl eq_refl). lia.
  - destruct Hm as (Hmi & Hmj & (t & Ha & Hb) & Hm).
    rewrite list_lookup_fmap in Ha, Hb.
    destruct (side_blocks old !! mi) as [x|] eqn:Ex; [|done].
    destruct (side_blocks new !! mj) as [y|] eqn:Ey; [|done].
    cbn in Ha, Hb. injection Ha as Ha. injection Hb as Hb.
    rewrite (stretch_split _ i mi x Hmi Ex) at 2. rewrite (stretch_split _ j mj y Hmj Ey) at 2.
    pose proof (lookup_lt_Some _ _ _ Ex). pose proof (lookup_lt_Some _ _ _ Ey).
    pose proof (matching_len _ _ _ _ _ Hm) as Hle.
    assert (na !! mi = Some t) as Hna by (by rewrite list_lookup_fmap, Ex; cbn; rewrite Ha).
    assert (nb !! mj = Some t) as Hnb by (by rewrite list_lookup_fmap, Ey; cbn; rewrite Hb).
    pose proof (lcs_len_pair na nb i j mi mj t Hmi Hmj Hna Hnb) as Hge. cbn [length] in Hl.
    apply (shows_app _ _ _ _ _ _ 0 (S (length ms))); [|apply (shows_app [_] _ [x] _ [y] _ 1 (length ms))].
    + apply shows_unpaired.
      * intros z (k & _ & Hz)%elem_stretch. by eapply list_elem_of_lookup_2.
      * intros z (k & _ & Hz)%elem_stretch. by eapply list_elem_of_lookup_2.
      * intros u v (k & Hk & Hu)%elem_stretch (k' & Hk' & Hv)%elem_stretch He.
        pose proof (lcs_len_pair na nb i j k k' (side_norm old u)) as Hp1.
        pose proof (lcs_len_pair na nb (S k) (S k') mi mj t) as Hp2.
        rewrite !(list_lookup_fmap (side_norm _) _ k), !(list_lookup_fmap (side_norm _) _ k'), Hu, Hv in Hp1.
        cbn in Hp1. rewrite He in Hp1.
        specialize (Hp1 ltac:(lia) ltac:(lia) eq_refl eq_refl).
        specialize (Hp2 ltac:(lia) ltac:(lia) Hna Hnb). lia.
    + split; [done..| |done]. constructor; [|done]. constructor; [by eapply list_elem_of_lookup_2..|congruence].
    + apply IH; [lia|lia|done|lia].
Qed.

(** *** Where the blocks stand *)

Definition kinds (xs : list RichItem) : list RichKind.RichKind :=
  omap (λ x, match x with Block b => Some (kind b) | Gap _ _ _ => None end) xs.
(** What stands before a pair of equal blocks, or after the last one: blocks of both sides as
    changed ones as long as there are blocks of both, then those left, all of one side. *)
Definition stretch (ks : list RichKind.RichKind) : Prop :=
  ∃ changed left k, ks = replicate changed RichKind.Changed ++ replicate left k ∧
    (k = RichKind.Removed ∨ k = RichKind.Added).
Inductive laid_out : list RichKind.RichKind → Prop :=
| laid_last ks : stretch ks → laid_out ks
| laid_same ks rest : stretch ks → laid_out rest → laid_out (ks ++ RichKind.Same :: rest).

Lemma kinds_app xs ys : kinds (xs ++ ys) = kinds xs ++ kinds ys.
Proof. apply omap_app. Qed.
Lemma kinds_removed xs :
  kinds ((λ x, block RichKind.Removed (Some (x, old)) None) <$> xs) =
  replicate (length xs) RichKind.Removed.
Proof. induction xs as [|x xs IH]; [done|]. cbn. f_equal. exact IH. Qed.
Lemma kinds_added ys :
  kinds ((λ y, block RichKind.Added None (Some (y, new))) <$> ys) =
  replicate (length ys) RichKind.Added.
Proof. induction ys as [|y ys IH]; [done|]. cbn. f_equal. exact IH. Qed.
Lemma unpaired_stretch xs ys : stretch (kinds (unpaired old new xs ys)).
Proof.
  revert ys. induction xs as [|x xs IH]; intros [|y ys].
  - exists 0, 0, RichKind.Removed. by split; [|left].
  - exists 0, (length (y :: ys)), RichKind.Added. split; [|by right]. apply kinds_added.
  - exists 0, (length (x :: xs)), RichKind.Removed. split; [|by left]. apply kinds_removed.
  - destruct (IH ys) as (n & m & k & Hk & Ho). exists (S n), m, k. split; [|done].
    cbn [unpaired replicate app]. rewrite <- Hk. done.
Qed.
Lemma loop_laid_out ms i j :
  matching na nb i j ms → laid_out (kinds (emit_loop old new i j ms)).
Proof.
  revert i j. induction ms as [|[mi mj] ms IH]; intros i j Hm; cbn [emit_loop].
  - apply laid_last, unpaired_stretch.
  - destruct Hm as (_ & _ & (t & Ha & Hb) & Hm). rewrite list_lookup_fmap in Ha, Hb.
    destruct (side_blocks old !! mi) as [x|]; [|done].
    destruct (side_blocks new !! mj) as [y|]; [|done].
    rewrite kinds_app. by apply laid_same; [apply unpaired_stretch|apply IH].
Qed.
End hunk.

Definition too_many (old new : HunkSide) : bool :=
  (250000 <? lenN (side_blocks old) * lenN (side_blocks new))%N.
Lemma pairs_too_many old new : pairs old new = None ↔ too_many old new = true.
Proof.
  unfold pairs, too_many. destruct (_ || _) eqn:E; [|by destruct (_ <? _)%N].
  split; [done|]. apply orb_true_iff in E as [E%bool_decide_eq_true|E%bool_decide_eq_true];
    rewrite E; cbn; by rewrite ?N.mul_0_r.
Qed.

(** C31: A rich difference shows every block of both sides once, in order, with its text and
    its first line. The blocks of a side are in order and leave out blank lines only. Blocks
    are compared without the white space at the end of their last line: those shown as the
    same agree in this text, those shown as changed do not. As many are shown as the same as
    a longest common subsequence has; and between two of them (before the first, after the
    last) stand first the blocks of both sides, paired as changed for as long as both have
    one, then those left over of one side. Only when the two sides have more than 250000
    pairs of blocks is nothing compared: then all blocks of the old side are removed, then
    all of the new side added. *)
Theorem rich_hunk_exact h :
  let old := old_side h in
  let new := new_side h in
  cut (side_lines old) 0 (side_blocks old) ∧ cut (side_lines new) 0 (side_blocks new) ∧
  (∀ s r, side_norm s r = trimmed_text (block_lines s r)) ∧
  omap old_part (emit_hunk h) = part old <$> side_blocks old ∧
  omap new_part (emit_hunk h) = part new <$> side_blocks new ∧
  Forall (item_ok old new) (emit_hunk h) ∧
  if (250000 <? lenN (side_blocks old) * lenN (side_blocks new))%N
  then kinds (emit_hunk h) =
         replicate (length (side_blocks old)) RichKind.Removed
         ++ replicate (length (side_blocks new)) RichKind.Added
  else laid_out (kinds (emit_hunk h)) ∧
       ∀ c, c `sublist_of` norms old → c `sublist_of` norms new → length c ≤ sames (emit_hunk h).
Proof.
  intros old new. split; [apply blocks_cut|]. split; [apply blocks_cut|].
  split; [apply side_norm_trimmed|]. fold (too_many old new).
  pose proof (pairs_too_many old new) as Hp. unfold emit_hunk. fold old new.
  destruct (pairs old new) as [ms|] eqn:E.
  - destruct (too_many old new); [by pose proof (proj2 Hp eq_refl)|].
    apply pairs_spec in E as [Hm Hl].
    destruct (shows_loop old new ms 0 0 ltac:(lia) ltac:(lia) Hm Hl) as [H1 H2 H3 H4].
    split; [exact H1|]. split; [exact H2|]. split; [exact H3|].
    split; [by apply loop_laid_out|].
    intros c Ha Hb. rewrite H4, Hl. by apply lcs_len_max.
  - rewrite (proj1 Hp eq_refl).
    destruct (shows_app old new _ _ _ _ _ _ 0 0 (shows_removed old new (side_blocks old) ltac:(done))
                (shows_added old new (side_blocks new) ltac:(done))) as [H1 H2 H3 H4].
    rewrite app_nil_r in H1. cbn [app] in H2.
    split; [exact H1|]. split; [exact H2|]. split; [exact H3|].
    by rewrite kinds_app, kinds_removed, kinds_added.
Qed.

(** Two hunks without context, the first of which only deletes: three unchanged lines come
    before it, then line 4, but the gap counts three; and after it the gap counts from the first
    line again. *)
Definition deletion_first : FileChange :=
  mkFileChange [] None None ChangeKind.Modified ContentKind.Text None None None None
    [mkHunk 5 1 4 0 [] [mkPatchRow (Some 5%N) None (bs "gone") LineEnding.Lf RowKind.Removed];
     mkHunk 9 1 8 1 []
       [mkPatchRow (Some 9%N) None (bs "old") LineEnding.Lf RowKind.Removed;
        mkPatchRow None (Some 8%N) (bs "new") LineEnding.Lf RowKind.Added]] [].
Definition gaps (xs : list RichItem) : list (N * N * N) :=
  omap (λ x, match x with Gap o n c => Some (o, n, c) | Block _ => None end) xs.
Theorem deletion_gap_miscounts :
  gaps (rich_diff deletion_first) = [(1, 1, 3)%N; (6, 1, 7)%N].
Proof. vm_compute. reflexivity. Qed.

(** ** Marked words *)

Lemma drop_ws_length cs : length (encode (drop_ws cs)) ≤ length (encode cs).
Proof.
  induction cs as [|c cs IH]; [done|]. cbn [drop_ws]. destruct (is_whitespace c); [|done].
  change (c :: cs) with ([c] ++ cs). rewrite encode_app, length_app. lia.
Qed.
Lemma encode_chars_length s : length (encode (chars s)) ≤ length s.
Proof.
  unfold chars. destruct (utf8_decode s) as [cs|] eqn:E; [|cbn; lia].
  exact (Nat.eq_le_incl _ _ (f_equal length (encode_utf8_decode _ _ E))).
Qed.
Lemma trim_start_length s : length (trim_start s) ≤ length s.
Proof. etrans; [apply drop_ws_length|apply encode_chars_length]. Qed.
Lemma encode_reverse_length cs : length (encode (reverse cs)) = length (encode cs).
Proof.
  induction cs as [|c cs IH]; [done|]. rewrite reverse_cons, encode_app, length_app, IH.
  change (c :: cs) with ([c] ++ cs). rewrite (encode_app [c]), length_app. lia.
Qed.
Lemma trim_end_length s : length (trim_end s) ≤ length s.
Proof.
  unfold trim_end. rewrite encode_reverse_length. etrans; [apply drop_ws_length|].
  rewrite encode_reverse_length. apply encode_chars_length.
Qed.

(** A text in which some parts, not empty, have a delimiter on both sides. *)
Inductive marked (m : bytes * bytes) : bytes → bytes → Prop :=
| marked_plain s : marked m s s
| marked_part p s t out :
    s ≠ [] → marked m t out → marked m (p ++ s ++ t) (p ++ m.1 ++ s ++ m.2 ++ out).

(** Ranges in order inside a text of [n] bytes. *)
Fixpoint ordered (n pos : nat) (rs : list (nat * nat)) : Prop :=
  match rs with
  | [] => pos ≤ n
  | r :: rs => pos ≤ r.1 ≤ r.2 ∧ r.2 ≤ n ∧ ordered n r.2 rs
  end.

Section marks.
Context {class_ : CharClass}.

Lemma ordered_weaken n pos pos' rs : pos' ≤ pos → ordered n pos rs → ordered n pos' rs.
Proof. destruct rs; cbn; [lia|]. intros ? (? & ? & ?). split_and!; [lia|lia|done|done]. Qed.
Lemma merge_marks_ordered text n pos r rs :
  pos ≤ r.1 ≤ r.2 → r.2 ≤ n → ordered n r.2 rs → ordered n pos (merge_marks text r rs).
Proof.
  revert pos r. induction rs as [|q rs IH]; intros pos r Hp Hn Ho; cbn [merge_marks].
  { cbn in *. split_and!; lia. }
  destruct Ho as (Hq & Hqn & Ho). destruct (_ && _ && _).
  - apply IH; cbn; [lia|lia|done].
  - cbn. split_and!; [lia|lia|lia|]. by apply IH.
Qed.
Lemma wrap_loop_marked text m at_ rs :
  ordered (length text) at_ rs → marked m (drop at_ text) (wrap_loop text m at_ rs).
Proof.
  revert at_. induction rs as [|r rs IH]; intros at_ Ho; [constructor|].
  destruct Ho as (Hr & Hn & Ho). cbn [wrap_loop]. set (piece := slice text r).
  pose proof (trim_start_length piece). pose proof (trim_end_length piece).
  assert (length piece = r.2 - r.1) as Hl.
  { unfold piece, slice. rewrite length_take, length_drop. lia. }
  destruct (_ <=? _)%nat eqn:E.
  { apply IH. eapply ordered_weaken; [|exact Ho]. lia. }
  apply Nat.leb_gt in E. set (start := r.1 + _). set (end_ := r.2 - _).
  assert (at_ ≤ start ∧ start < end_ ∧ end_ ≤ length text ∧ end_ ≤ r.2) as (H1 & H2 & H3 & H4).
  { unfold start, end_. lia. }
  assert (drop at_ text = slice text (at_, start) ++ slice text (start, end_) ++ drop end_ text) as ->.
  { unfold slice; cbn [fst snd]. rewrite <- (take_drop (start - at_) (drop at_ text)) at 1. f_equal.
    rewrite drop_drop. replace (at_ + (start - at_)) with start by lia.
    rewrite <- (take_drop (end_ - start) (drop start text)) at 1. f_equal.
    rewrite drop_drop. f_equal. lia. }
  apply marked_part.
  - intros He. apply (f_equal length) in He. unfold slice in He; cbn in He.
    rewrite length_take, length_drop in He. lia.
  - apply IH. eapply ordered_weaken; [|exact Ho]. done.
Qed.

(** Marking words changes nothing of a text: the delimiters go around parts of it that are
    not empty, in order. *)
Theorem wrap_marked text rs m :
  ordered (length text) 0 rs → marked m text (wrap text rs m).
Proof.
  intros Ho. unfold wrap, merged_marks. rewrite <- (drop_0 text) at 1. apply wrap_loop_marked.
  destruct rs as [|r rs]; [done|]. destruct Ho as (? & ? & ?). by apply merge_marks_ordered.
Qed.
End marks.
