(* ===== verification/Presentation.v ===== *)
(** * Display rows of a file and search ([crates/core/src/presentation.rs])

    Positions in lists are [nat], source lines [N]; [words] is the code's hash map of word
    marks by side and line. *)

From S2P Require Import Prelude RustStr Utf8 Domain Patch BTree Overview Snapshot F32 Inline.

Record Cell := mkCell {
  number : N; cell_text : bytes; cell_ending : LineEnding; cell_kind : RowKind; intra : Ranges
}.
Definition Cell_from (r : PatchRow) (s : Side) : option Cell :=
  n ← row_number r s; Some (mkCell n (row_text r) (row_ending r) (row_kind r) []).

Inductive DisplayRow :=
| HunkRow (label : bytes) (source_line : N) (hunk_side : Side)
| LineRow (left right : option Cell) (unified : bool) (old_number : option N)
| NoticeRow (text : bytes).

Definition cell (r : DisplayRow) (s : Side) : option Cell :=
  match r with
  | LineRow l r _ _ => match s with Left => l | Right => r end
  | _ => None
  end.
Definition find_source (rs : list DisplayRow) (s : Side) (n : N) : option nat :=
  fst <$> list_find (λ r, number <$> cell r s = Some n) rs.

(** ** Notices *)

Definition content_debug (c : ContentKind) : bytes :=
  bs match c with
     | ContentKind.Text => "Text"
     | ContentKind.Binary => "Binary"
     | ContentKind.Submodule => "Submodule"
     end.
Definition kind_debug (k : ChangeKind) : bytes :=
  bs match k with
     | ChangeKind.Added => "Added"
     | ChangeKind.Deleted => "Deleted"
     | ChangeKind.Modified => "Modified"
     | ChangeKind.Renamed => "Renamed"
     | ChangeKind.Copied => "Copied"
     end.
Definition mode_label (f : FileChange) : bytes :=
  match change_kind f with
  | ChangeKind.Added =>
      if bool_decide (new_mode f = Some (bs "100755")) then bs "Added executable file"
      else bs "Added file"
  | ChangeKind.Deleted => bs "Deleted file"
  | _ =>
      if bool_decide ((old_mode f, new_mode f) = (Some (bs "100644"), Some (bs "100755")))
      then bs "Executable permission added"
      else if bool_decide ((old_mode f, new_mode f) = (Some (bs "100755"), Some (bs "100644")))
      then bs "Executable permission removed"
      else bs "File mode: " ++ default (bs "not recorded") (old_mode f) ++ bs " → "
           ++ default (bs "not recorded") (new_mode f)
  end.
Definition notices (f : FileChange) : list DisplayRow :=
  (if bool_decide (content_kind f = ContentKind.Text) then []
   else [NoticeRow (content_debug (content_kind f)
           ++ bs " change — executable and binary content are not opened")])
  ++ (if bool_decide (old_mode f = new_mode f) then [] else [NoticeRow (mode_label f)])
  ++ (if bool_decide (hunks f = []) then
        [NoticeRow (kind_debug (change_kind f) ++ bs ": metadata-only change")] else []).

(** ** Rows *)

Definition hunk_label (h : Hunk) : DisplayRow :=
  HunkRow
    (bs "@@ -" ++ dec (old_start h) ++ bs "," ++ dec (old_count h) ++ bs " +" ++ dec (new_start h)
     ++ bs "," ++ dec (new_count h) ++ bs " @@ " ++ section h)
    (if (0 <? new_count h)%N then new_start h else old_start h)
    (if (0 <? new_count h)%N then Right else Left).

Definition unified_row (r : PatchRow) : DisplayRow :=
  LineRow (if bool_decide (row_kind r = RowKind.Removed) then Cell_from r Left else None)
          (if bool_decide (row_kind r = RowKind.Removed) then None else Cell_from r Right)
          true (old_line r).

(** The rows of one kind that a list begins with, and the rest. *)
Fixpoint take_kind (k : RowKind) (rs : list PatchRow) : list PatchRow * list PatchRow :=
  match rs with
  | r :: rs' => if bool_decide (row_kind r = k)
                then let '(a, b) := take_kind k rs' in (r :: a, b) else ([], rs)
  | [] => ([], [])
  end.

(** Removed rows beside the added rows that follow them. *)
Definition beside (removed added : list PatchRow) : list DisplayRow :=
  (λ p, LineRow (r ← removed !! p; Cell_from r Left) (r ← added !! p; Cell_from r Right) false None)
    <$> seq 0 (Nat.max (length removed) (length added)).

Fixpoint split_rows (fuel : nat) (rs : list PatchRow) : list DisplayRow :=
  match fuel, rs with
  | S fuel, r :: rs' =>
      if bool_decide (row_kind r = RowKind.Removed) then
        let '(removed, rest) := take_kind RowKind.Removed rs in
        let '(added, rest) := take_kind RowKind.Added rest in
        beside removed added ++ split_rows fuel rest
      else LineRow (Cell_from r Left) (Cell_from r Right) false None :: split_rows fuel rs'
  | _, _ => []
  end.

Definition hunk_rows (split : bool) (h : Hunk) : list DisplayRow :=
  hunk_label h :: (if split then split_rows (length (Patch.rows h)) (Patch.rows h)
                   else unified_row <$> Patch.rows h).

(** ** Word marks *)

Notation Words := (list ((Side * N) * Ranges)).
Fixpoint words_get (k : Side * N) (w : Words) : option Ranges :=
  match w with
  | [] => None
  | (k', v) :: w' => if bool_decide (k = k') then Some v else words_get k w'
  end.
Definition words_remove (k : Side * N) (w : Words) : Words := filter (λ p, p.1 ≠ k) w.
Definition words_insert (k : option (Side * N)) (v : Ranges) (w : Words) : Words :=
  match k with Some k => (k, v) :: words_remove k w | None => w end.

Section words.
Context {class_ : CharClass}.

Definition mark_pair (w : Words) (p : PatchRow * PatchRow) : Words :=
  let '(old, new) := p in
  let '(l, r) := word_diff (row_text old) (row_text new) in
  words_insert (Datatypes.pair Right <$> new_line new) r
    (words_insert (Datatypes.pair Left <$> old_line old) l w).

Fixpoint mark_hunk (fuel : nat) (rs : list PatchRow) (w : Words) : Words :=
  match fuel, rs with
  | S fuel, r :: rs' =>
      if bool_decide (row_kind r = RowKind.Removed) then
        let '(removed, rest) := take_kind RowKind.Removed rs in
        let '(added, rest) := take_kind RowKind.Added rest in
        mark_hunk fuel rest
          (if negb (length removed =? length added)%nat || (32 <? length removed)%nat then w
           else foldl mark_pair w (zip removed added))
      else mark_hunk fuel rs' w
  | _, _ => w
  end.
Definition mark_hunks (hs : list Hunk) : Words :=
  foldl (λ w h, mark_hunk (length (Patch.rows h)) (Patch.rows h) w) [] hs.

(** One cell takes its marks out of the map. *)
Definition decorate_cell (s : Side) (c : option Cell) (w : Words) : option Cell * Words :=
  match c with
  | Some c => (Some (mkCell (number c) (cell_text c) (cell_ending c) (cell_kind c)
                       (default [] (words_get (s, number c) w))),
               words_remove (s, number c) w)
  | None => (None, w)
  end.
Fixpoint decorate (rs : list DisplayRow) (w : Words) : list DisplayRow :=
  match rs with
  | LineRow l r u o :: rs' =>
      let '(l, w) := decorate_cell Left l w in
      let '(r, w) := decorate_cell Right r w in
      LineRow l r u o :: decorate rs' w
  | row :: rs' => row :: decorate rs' w
  | [] => []
  end.

Definition rows (f : FileChange) (split : bool) : list DisplayRow :=
  if bool_decide (hunks f = []) then notices f
  else decorate (notices f ++ concat (hunk_rows split <$> hunks f)) (mark_hunks (hunks f)).
End words.

Definition default_wrap (path : bytes) : bool :=
  let p := to_ascii_lowercase path in
  existsb (λ e, ends_with e p) [bs ".md"; bs ".markdown"; bs ".mdx"].

(** ** Search *)

Record SearchHit := mkSearchHit {
  hit_file : FileId; hit_side : Side; hit_line : N; hit_bytes : Range
}.

(** [match_indices]: the matches from left to right that do not overlap; [skip] bytes of
    [s] belong to the last match. *)
Fixpoint match_indices (q s : bytes) (pos skip : nat) : list nat :=
  match s with
  | [] => []
  | _ :: s' =>
      match skip with
      | S skip => match_indices q s' (S pos) skip
      | O => if starts_with q s then pos :: match_indices q s' (S pos) (length q - 1)
             else match_indices q s' (S pos) 0
      end
  end.
Definition row_hits (f : FileChange) (q : bytes) (r : PatchRow) : list SearchHit :=
  let s := if bool_decide (row_kind r = RowKind.Removed) then Left else Right in
  match row_number r s with
  | None => []
  | Some n => (λ i, mkSearchHit (file_id f) s n (i, i + length q))
                <$> match_indices q (row_text r) 0 0
  end.
(** The limit is looked at after each hit, so there is at least one. *)
Definition find (s : Snapshot) (q : bytes) (limit : nat) : list SearchHit :=
  if bool_decide (q = []) then []
  else take (Nat.max 1 limit)
         (f ← files (patch s); h ← hunks f; r ← Patch.rows h; row_hits f q r).
