(* ===== verification/PresentationFacts.v ===== *)
(** * Display rows: every source row once, with marks inside its text *)

From S2P Require Import Prelude RustStr Utf8 Domain Patch PatchFacts BTree Overview Snapshot F32.
From S2P Require Import Inline InlineFacts Presentation.

(** A cell without its marks. *)
Definition bare (c : Cell) : Cell :=
  mkCell (number c) (cell_text c) (cell_ending c) (cell_kind c) [].

(** The rows that one side shows: in the unified view a removed row on the left and any
    other on the right, in the split view every row that has a number on the side. *)
Definition shows (split : bool) (s : Side) (r : PatchRow) : bool :=
  split || match s with
           | Left => bool_decide (row_kind r = RowKind.Removed)
           | Right => negb (bool_decide (row_kind r = RowKind.Removed))
           end.
Definition shown (split : bool) (s : Side) (rs : list PatchRow) : list Cell :=
  omap (λ r, if shows split s r then Cell_from r s else None) rs.

Section facts.
Context {class_ : CharClass}.

Lemma shown_app split s rs rs' : shown split s (rs ++ rs') = shown split s rs ++ shown split s rs'.
Proof. apply omap_app. Qed.

(** ** Spans of one kind *)

Lemma take_kind_app k rs : rs = (take_kind k rs).1 ++ (take_kind k rs).2.
Proof.
  induction rs as [|r rs IH]; [done|]. cbn [take_kind]. case_bool_decide; [|done].
  destruct (take_kind k rs). cbn in *. by f_equal.
Qed.
Lemma take_kind_kind k rs : Forall (λ r, row_kind r = k) (take_kind k rs).1.
Proof.
  induction rs as [|r rs IH]; [done|]. cbn [take_kind]. case_bool_decide; [|done].
  destruct (take_kind k rs). by constructor.
Qed.
Lemma take_kind_spec k rs a b :
  take_kind k rs = (a, b) → rs = a ++ b ∧ Forall (λ r, row_kind r = k) a.
Proof.
  intros H. pose proof (take_kind_app k rs) as Ha. pose proof (take_kind_kind k rs) as Hk.
  by rewrite H in Ha, Hk.
Qed.

(** ** Cells of the rows *)

Lemma omap_of_fmap {A B C} (f : B → option C) (g : A → B) (l : list A) :
  omap f (g <$> l) = omap (λ x, f (g x)) l.
Proof. induction l as [|x l IH]; [done|]. rewrite fmap_cons. cbn. by rewrite IH. Qed.

Lemma omap_seq {A B} (f : A → option B) (l : list A) n :
  length l ≤ n → omap (λ p, r ← l !! p; f r) (seq 0 n) = omap f l.
Proof.
  revert n. induction l as [|x l IH]; intros n Hn.
  - cbn [omap list_omap]. induction (seq 0 n) as [|p ps IHp]; [done|]. cbn [omap list_omap].
    by rewrite lookup_nil.
  - destruct n as [|n]; [cbn in Hn; lia|]. cbn [seq omap list_omap].
    rewrite <- (IH n) by (cbn in Hn; lia). rewrite <- fmap_S_seq, omap_of_fmap. done.
Qed.

Lemma beside_cells removed added s :
  omap (λ r, cell r s) (beside removed added)
  = omap (λ r, Cell_from r s) (match s with Left => removed | Right => added end).
Proof.
  unfold beside. rewrite omap_of_fmap. destruct s; cbn [cell]; apply omap_seq; lia.
Qed.

Lemma omap_None {A B} (f : A → option B) l : Forall (λ x, f x = None) l → omap f l = [].
Proof. induction 1 as [|x l Hx _ IH]; [done|]. cbn [omap list_omap]. by rewrite Hx. Qed.

Lemma split_rows_cells s fuel rs :
  Forall row_wf rs → length rs ≤ fuel →
  omap (λ r, cell r s) (split_rows fuel rs) = shown true s rs.
Proof.
  revert rs. induction fuel as [|fuel IH]; intros rs Hw Hf.
  { by destruct rs; [|cbn in Hf; lia]. }
  destruct rs as [|r rs]; [done|]. cbn [split_rows]. case_bool_decide as Hk.
  - destruct (take_kind RowKind.Removed (r :: rs)) as [removed rest] eqn:E1.
    destruct (take_kind RowKind.Added rest) as [added rest'] eqn:E2.
    assert (removed ≠ []) as Hne.
    { cbn [take_kind] in E1. rewrite bool_decide_true in E1 by done.
      destruct (take_kind _ rs). by injection E1 as <- _. }
    apply take_kind_spec in E1 as [E1 Hr], E2 as [-> Ha]. rewrite E1 in Hw, Hf |- *.
    rewrite !length_app in Hf. apply Forall_app in Hw as [Hw1 [Hw2 Hw3]%Forall_app].
    rewrite omap_app, beside_cells, IH; [|done|destruct removed; [done|cbn in Hf; lia]].
    rewrite !shown_app, app_assoc. f_equal.
    unfold shown, shows. cbn [orb]. destruct s.
    + rewrite (omap_None _ added), app_nil_r; [done|]. apply Forall_forall. intros x Hx.
      rewrite Forall_forall in Hw2, Ha. destruct (Hw2 _ Hx) as [_ H2]. rewrite (Ha _ Hx) in H2.
      unfold Cell_from. cbn. by rewrite (proj1 H2).
    + rewrite (omap_None _ removed); [done|]. apply Forall_forall. intros x Hx.
      rewrite Forall_forall in Hw1, Hr. destruct (Hw1 _ Hx) as [_ H1]. rewrite (Hr _ Hx) in H1.
      unfold Cell_from. cbn. by rewrite (proj2 H1).
  - cbn [omap list_omap shown]. apply Forall_cons in Hw as [_ Hw].
    rewrite IH; [|done|cbn in Hf; lia]. by destruct s.
Qed.

Lemma unified_rows_cells s rs :
  omap (λ r, cell r s) (unified_row <$> rs) = shown false s rs.
Proof.
  rewrite omap_of_fmap. unfold shown. induction rs as [|r rs IH]; [done|].
  cbn [omap list_omap]. rewrite IH. unfold shows; cbn [orb unified_row cell].
  by destruct s, (bool_decide (row_kind r = RowKind.Removed)).
Qed.

Lemma hunk_rows_cells split s h :
  hunk_wf h → omap (λ r, cell r s) (hunk_rows split h) = shown split s (Patch.rows h).
Proof.
  intros [Hw _ _]. cbn [hunk_rows omap list_omap cell hunk_label].
  destruct split; [by apply split_rows_cells|apply unified_rows_cells].
Qed.

Lemma notices_cells s f : omap (λ r, cell r s) (notices f) = [].
Proof.
  unfold notices. rewrite !omap_app. by do 3 destruct (bool_decide _).
Qed.

Lemma decorate_cells s rs w :
  bare <$> omap (λ r, cell r s) (decorate rs w) = bare <$> omap (λ r, cell r s) rs.
Proof.
  revert w. induction rs as [|r rs IH]; intros w; [done|]. destruct r as [| l r u o |]; cbn; try apply IH.
  destruct l as [l|], r as [r|], s; cbn; by rewrite IH.
Qed.

Lemma shown_bare split s rs : bare <$> shown split s rs = shown split s rs.
Proof.
  unfold shown. induction rs as [|r rs IH]; [done|]. cbn [omap list_omap].
  destruct (shows split s r); [|done]. unfold Cell_from. destruct (row_number r s); [|done].
  cbn [mbind option_bind]. rewrite fmap_cons. by f_equal.
Qed.

Lemma rows_cells f split s :
  file_wf f → bare <$> omap (λ r, cell r s) (rows f split) = shown split s (all_rows f).
Proof.
  intros [Hw _ _]. unfold rows, all_rows. destruct (decide (hunks f = [])) as [He|He].
  - rewrite bool_decide_true by done. by rewrite notices_cells, He.
  - rewrite bool_decide_false by done. rewrite decorate_cells, omap_app, notices_cells.
    cbn [app]. rewrite <- (shown_bare split s (hunks f ≫= Patch.rows)). f_equal.
    clear He. induction Hw as [|h hs Hh _ IH]; [done|].
    rewrite fmap_cons. cbn [concat]. rewrite omap_app, hunk_rows_cells by done.
    rewrite bind_cons, shown_app. f_equal. exact IH.
Qed.

(** ** Marks *)

Section marks_of.
Context (R : list PatchRow) (HR : Forall row_wf R)
  (Huniq : ∀ s n r r', r ∈ R → r' ∈ R → row_number r s = Some n → row_number r' s = Some n → r = r').

(** Every entry holds marks of the text of a row with its key. *)
Definition words_ok (w : Words) : Prop := ∀ k v, words_get k w = Some v →
  ∃ r, r ∈ R ∧ row_number r k.1 = Some k.2 ∧ marks (row_text r) 1 0 v.

Lemma words_get_remove k k' w :
  words_get k (words_remove k' w) = if bool_decide (k = k') then None else words_get k w.
Proof.
  unfold words_remove. induction w as [|[k2 v] w IH]; [by destruct (bool_decide _)|].
  rewrite filter_cons. cbn [words_get fst]. destruct (decide (k2 ≠ k')) as [Hk|Hk].
  - cbn [words_get]. rewrite IH. destruct (decide (k = k2)) as [->|Hk2].
    + by rewrite (bool_decide_true (k2 = k2)), bool_decide_false.
    + by rewrite (bool_decide_false (k = k2)).
  - rewrite IH. apply dec_stable in Hk as ->. by destruct (bool_decide (k = k')).
Qed.

Lemma words_remove_ok k w : words_ok w → words_ok (words_remove k w).
Proof. intros Hw k' v. rewrite words_get_remove. case_bool_decide; [done|apply Hw]. Qed.

Lemma words_insert_ok s r v w :
  words_ok w → r ∈ R → marks (row_text r) 1 0 v →
  words_ok (words_insert (Datatypes.pair s <$> row_number r s) v w).
Proof.
  intros Hw Hr Hv. destruct (row_number r s) as [n|] eqn:En; [|done]. intros k v'. cbn.
  case_bool_decide as Hk; [|by apply words_remove_ok]. subst k. intros [= <-]. by exists r.
Qed.

Lemma mark_pair_ok w old new : words_ok w → old ∈ R → new ∈ R → words_ok (mark_pair w (old, new)).
Proof.
  intros Hw Ho Hn. rewrite Forall_forall in HR.
  destruct (word_diff_valid (row_text old) (row_text new) (proj1 (HR _ Ho)) (proj1 (HR _ Hn)))
    as [Hl Hrr].
  unfold mark_pair. destruct (word_diff _ _) as [l r].
  apply (words_insert_ok Right); [|done..]. by apply (words_insert_ok Left).
Qed.

Lemma mark_hunk_ok fuel rs w : (∀ r, r ∈ rs → r ∈ R) → words_ok w → words_ok (mark_hunk fuel rs w).
Proof.
  revert rs w. induction fuel as [|fuel IH]; intros rs w Hrs Hw; [done|].
  destruct rs as [|r rs]; [done|]. cbn [mark_hunk]. case_bool_decide.
  2:{ apply IH; [|done]. intros r' Hr'. apply Hrs. by right. }
  destruct (take_kind RowKind.Removed (r :: rs)) as [removed rest] eqn:E1.
  destruct (take_kind RowKind.Added rest) as [added rest'] eqn:E2.
  apply take_kind_spec in E1 as [E1 _], E2 as [-> _]. rewrite E1 in Hrs.
  apply IH; [intros r' Hr'; apply Hrs; set_solver|]. destruct (_ || _); [done|].
  assert (∀ p, p ∈ zip removed added → p.1 ∈ R ∧ p.2 ∈ R) as Hz.
  { intros [x y] Hp. pose proof Hp as Hp2. apply elem_of_zip_l in Hp. apply elem_of_zip_r in Hp2.
    split; apply Hrs; set_solver. }
  clear -Hw Hz HR. revert w Hw. induction (zip removed added) as [|[x y] z IH]; intros w Hw; [done|].
  cbn [foldl]. apply IH; [intros p Hp; apply Hz; by right|].
  destruct (Hz (x, y)) as [? ?]; [by left|]. by apply mark_pair_ok.
Qed.

Definition cell_ok (s : Side) (c : Cell) : Prop :=
  ∃ r, r ∈ R ∧ row_number r s = Some (number c) ∧ row_text r = cell_text c.

Lemma decorate_cell_ok s c w :
  words_ok w → (∀ c', c = Some c' → cell_ok s c') →
  words_ok (decorate_cell s c w).2 ∧
  ∀ c', (decorate_cell s c w).1 = Some c' → marks (cell_text c') 1 0 (intra c').
Proof.
  intros Hw Hc. destruct c as [c|]; [|done]. cbn [decorate_cell fst snd].
  split; [by apply words_remove_ok|]. intros c' [= <-]. cbn [cell_text intra].
  destruct (words_get (s, number c) w) as [v|] eqn:Ev; [|done].
  destruct (Hw _ _ Ev) as (r & Hr & Hn & Hv). destruct (Hc c eq_refl) as (r' & Hr' & Hn' & <-).
  by rewrite (Huniq _ _ _ _ Hr' Hr Hn' Hn).
Qed.

Lemma decorate_ok rs w :
  words_ok w → (∀ row s c, row ∈ rs → cell row s = Some c → cell_ok s c) →
  ∀ row s c, row ∈ decorate rs w → cell row s = Some c → marks (cell_text c) 1 0 (intra c).
Proof.
  revert w. induction rs as [|r rs IH]; intros w Hw Hc row s c Hin Hs.
  { by apply not_elem_of_nil in Hin. }
  assert (∀ row s c, row ∈ rs → cell row s = Some c → cell_ok s c) as Hc'.
  { intros ? ? ? ?. apply Hc. by right. }
  destruct r as [| l r u o |]; cbn [decorate] in Hin.
  - apply elem_of_cons in Hin as [->|Hin]; [done|by eapply IH].
  - destruct (decorate_cell_ok Left l w Hw) as [Hw1 Hl].
    { intros c' ->. by eapply (Hc _ Left); [left|]. }
    destruct (decorate_cell Left l w) as [l' w1].
    destruct (decorate_cell_ok Right r w1 Hw1) as [Hw2 Hr].
    { intros c' ->. by eapply (Hc _ Right); [left|]. }
    destruct (decorate_cell Right r w1) as [r' w2].
    apply elem_of_cons in Hin as [->|Hin]; [|by eapply IH].
    destruct s; [by apply Hl|by apply Hr].
  - apply elem_of_cons in Hin as [->|Hin]; [done|by eapply IH].
Qed.
End marks_of.

Lemma cell_elem row s c (rs : list DisplayRow) : row ∈ rs → cell row s = Some c → c ∈ omap (λ r, cell r s) rs.
Proof. intros Hr Hc. apply list_elem_of_omap. by exists row. Qed.

Lemma shown_elem split s rs c :
  c ∈ shown split s rs → ∃ r, r ∈ rs ∧ shows split s r = true ∧ Cell_from r s = Some c.
Proof.
  intros (r & Hr & Hc)%list_elem_of_omap. exists r. split; [done|].
  by destruct (shows split s r).
Qed.

Lemma rows_source f split row s c :
  file_wf f → row ∈ rows f split → cell row s = Some c →
  ∃ r, r ∈ all_rows f ∧ shows split s r = true ∧ Cell_from r s = Some (bare c).
Proof.
  intros Hwf Hin Hc. apply shown_elem. rewrite <- rows_cells by done.
  apply list_elem_of_fmap_2. by eapply cell_elem.
Qed.

Lemma Cell_from_Some r s c :
  Cell_from r s = Some c → row_number r s = Some (number c) ∧ row_text r = cell_text c.
Proof.
  unfold Cell_from. destruct (row_number r s) as [n|]; [|done]. cbn. by intros [= <-].
Qed.

Lemma rows_unique f s n r r' :
  file_wf f → r ∈ all_rows f → r' ∈ all_rows f →
  row_number r s = Some n → row_number r' s = Some n → r = r'.
Proof.
  intros Hwf Hr Hr' Hn Hn'. pose proof (line_exact _ _ _ _ Hwf Hr Hn) as H1.
  pose proof (line_exact _ _ _ _ Hwf Hr' Hn') as H2. congruence.
Qed.

Lemma all_rows_wf f : file_wf f → Forall row_wf (all_rows f).
Proof.
  intros [Hw _ _]. unfold all_rows. apply Forall_forall. intros r (h & Hr & Hh)%list_elem_of_bind.
  rewrite Forall_forall in Hw. destruct (Hw _ Hh) as [Hrs _ _]. rewrite Forall_forall in Hrs. auto.
Qed.

Lemma mark_hunks_ok f : file_wf f → words_ok (all_rows f) (mark_hunks (hunks f)).
Proof.
  intros Hwf. unfold mark_hunks.
  assert (∀ hs w, (∀ h, h ∈ hs → h ∈ hunks f) → words_ok (all_rows f) w → words_ok (all_rows f)
    (foldl (λ w h, mark_hunk (length (Patch.rows h)) (Patch.rows h) w) w hs)) as H.
  { induction hs as [|h hs IH]; intros w Hhs Hw; [done|]. cbn [foldl]. apply IH.
    - intros h' Hh'. apply Hhs. by right.
    - apply mark_hunk_ok; [by apply all_rows_wf|intros ? ? ? ?; by apply rows_unique| |done].
      intros r Hr. unfold all_rows.
      apply list_elem_of_bind. exists h. split; [done|]. apply Hhs. by left. }
  by apply H.
Qed.

Lemma rows_marks f split row s c :
  file_wf f → row ∈ rows f split → cell row s = Some c → marks (cell_text c) 1 0 (intra c).
Proof.
  intros Hwf Hin Hc. unfold rows in Hin. case_bool_decide as He.
  { exfalso. assert (c ∈ omap (λ r, cell r s) (notices f)) as Hn by by eapply cell_elem.
    rewrite notices_cells in Hn. by apply not_elem_of_nil in Hn. }
  eapply (decorate_ok (all_rows f)); [|by apply mark_hunks_ok| |exact Hin|exact Hc].
  { intros ? ? ? ?. by eapply rows_unique. }
  intros row' s' c' Hrow Hc'.
  assert (bare c' ∈ shown split s' (all_rows f)) as (r & Hr & _ & [Hn Ht]%Cell_from_Some)%shown_elem.
  { rewrite <- rows_cells by done. unfold rows. rewrite bool_decide_false by done.
    rewrite decorate_cells. apply list_elem_of_fmap_2. by eapply cell_elem. }
  by exists r.
Qed.

(** A line of the patch that the view shows is in one of its rows. *)
Lemma line_shown f split s n r :
  file_wf f → line f s n = Some r → shows split s r = true →
  ∃ row c, row ∈ rows f split ∧ cell row s = Some c ∧ number c = n.
Proof.
  intros Hwf Hl Hs. unfold line in Hl.
  assert (r ∈ all_rows f ∧ row_number r s = Some n) as [Hr Hn].
  { clear -Hl. induction (all_rows f) as [|x l IH]; [done|]. cbn [find_map] in Hl.
    case_bool_decide as Hx; [injection Hl as ->; split; [left|done]|].
    destruct (IH Hl). split; [by right|done]. }
  assert (mkCell n (row_text r) (row_ending r) (row_kind r) [] ∈ shown split s (all_rows f)) as Hin.
  { apply list_elem_of_omap. exists r. split; [done|]. rewrite Hs. unfold Cell_from. by rewrite Hn. }
  rewrite <- rows_cells in Hin by done.
  apply list_elem_of_fmap in Hin as (c & Hc & (row & Hrow & Hcell)%list_elem_of_omap).
  exists row, c. split_and!; [done|done|]. unfold bare in Hc. by injection Hc.
Qed.

(** The cell of a row on one side: its line there, with its text and ending. *)
Definition source_cell (r : PatchRow) (s : Side) : option Cell :=
  match match s with Left => old_line r | Right => new_line r end with
  | Some n => Some (mkCell n (row_text r) (row_ending r) (row_kind r) [])
  | None => None
  end.

Lemma find_source_at rs s n :
  match find_source rs s n with
  | Some i => ∃ row c, rs !! i = Some row ∧ cell row s = Some c ∧ number c = n
  | None => ∀ row c, row ∈ rs → cell row s = Some c → number c ≠ n
  end.
Proof.
  unfold find_source. destruct (list_find _ rs) as [[i row]|] eqn:E; cbn.
  - apply list_find_Some in E as (Hi & Hc & _). destruct (cell row s) as [c|] eqn:Ec; [|done].
    injection Hc as Hn. by exists row, c.
  - apply list_find_None in E. intros row c Hin Hc Hn. rewrite Forall_forall in E.
    eapply (E row Hin). by rewrite Hc, <- Hn.
Qed.

(** C33: the reader sees every source row. With the two sides side by side, each side's cells
    are, in order, exactly the rows of the patch that have a line there; in the unified view
    the left cells are the removed rows and the right cells all others; each with its number,
    text and ending. Looking up a line of a side gives the row of the view that holds exactly
    this line of the patch, and fails only for lines that the patch does not have or that the
    view does not show on this side. The word marks of a cell are ranges of its own text. *)
Theorem rows_show_source f split s :
  file_wf f →
  bare <$> omap (λ r, cell r s) (rows f split) =
    omap (λ r, if shows split s r then source_cell r s else None) (all_rows f) ∧
  (∀ n, match find_source (rows f split) s n with
        | Some i =>
            ∃ row c r, rows f split !! i = Some row ∧ cell row s = Some c ∧
              line f s n = Some r ∧ shows split s r = true ∧ number c = n ∧
              source_cell r s = Some (bare c)
        | None => ∀ r, line f s n = Some r → shows split s r = false
        end) ∧
  (∀ row c, row ∈ rows f split → cell row s = Some c → marks (cell_text c) 1 0 (intra c)).
Proof.
  intros Hwf. split; [exact (rows_cells f split s Hwf)|]. split.
  2:{ intros row c. by apply rows_marks. }
  intros n. pose proof (find_source_at (rows f split) s n) as H.
  destruct (find_source _ s n) as [i|].
  - destruct H as (row & c & Hi & Hc & <-). pose proof (list_elem_of_lookup_2 _ _ _ Hi) as Hin.
    destruct (rows_source _ _ _ _ _ Hwf Hin Hc) as (r & Hr & Hs & Hf).
    pose proof Hf as [Hn _]%Cell_from_Some.
    exists row, c, r. split_and!; [done|done|by apply line_exact|done|done|exact Hf].
  - intros r Hl. destruct (shows split s r) eqn:Hs; [exfalso|done].
    destruct (line_shown _ _ _ _ _ Hwf Hl Hs) as (row & c & Hin & Hc & Hn). by eapply H.
Qed.
End facts.

(** ** Witness *)

Example rows_show_source_witness :
  let f := sample_file in
  find_source (@rows ascii_letters f true) Right 8 = Some 2 ∧
  ∃ row c r, @rows ascii_letters f true !! 2 = Some row ∧ cell row Right = Some c ∧
    line f Right 8 = Some r ∧ source_cell r Right = Some (bare c).
Proof.
  split; [vm_compute; reflexivity|].
  destruct (@rows_show_source ascii_letters sample_file true Right sample_file_wf) as (_ & H & _).
  specialize (H 8%N). change (find_source _ Right 8) with (Some 2) in H.
  destruct H as (row & c & r & H1 & H2 & H3 & _ & _ & H4).
  exists row, c, r. split; [exact H1|]. split; [exact H2|]. split; [exact H3|exact H4].
Defined.
