(* ===== verification/Layout.v ===== *)
(** * Mapping between source and display text ([crates/core/src/layout.rs])

    Byte positions are [nat]. Grapheme boundaries are computed by the crate
    unicode-segmentation: an argument ([GraphemeCursor]). The theorems after the definitions are
    about display text: tabs expand, and positions map back and forth. *)

From S2P Require Import Prelude RustStr Utf8 BTree Domain Patch PatchFacts Overview F32 Inline.

Inductive MappingError := OutOfBounds | InvalidBoundary | Incomplete.

Definition copy_source_range (raw : bytes) (r : Range) : result MappingError bytes :=
  if negb (utf8_valid raw) then Err InvalidBoundary
  else if (r.2 <? r.1)%nat || (length raw <? r.2)%nat then Err OutOfBounds
  else ok_or (str_get raw r.1 r.2) InvalidBoundary.

(** ** Measured lines *)

Record VisualFragment := mkVisualFragment { frag_bytes : Range; frag_y : f32; frag_height : f32 }.
Record MeasuredLine := mkMeasuredLine { fragments : list VisualFragment; line_height : f32 }.

(** [str::get] answers [None] for a range past the end. *)
Definition str_get_range (s : bytes) (r : Range) : option bytes :=
  if (length s <? r.2)%nat then None else str_get s r.1 r.2.

(** The loop: the end and the bottom of the fragments so far. *)
Fixpoint validate_fragments (text : bytes) (fs : list VisualFragment) (end_ : nat) (y : f32)
    : result MappingError (nat * f32) :=
  match fs with
  | [] => Ok (end_, y)
  | f :: fs' =>
      if negb ((frag_bytes f).1 =? end_)%nat
         || bool_decide (str_get_range text (frag_bytes f) = None)
         || negb (is_finite (frag_height f)) || f32_le (frag_height f) f32_zero
         || negb (is_finite (frag_y f)) || f32_lt (frag_y f) y
      then Err Incomplete
      else validate_fragments text fs' (frag_bytes f).2 (f32_add (frag_y f) (frag_height f))
  end.
(** [0.01] in single precision. *)
Definition hundredth : f32 := S754_finite false 10737418 (-30).
Definition validate (m : MeasuredLine) (text : bytes) : result MappingError unit :=
  if bool_decide (fragments m = []) then Err Incomplete
  else
    p ← validate_fragments text (fragments m) 0 f32_zero;
    if negb (p.1 =? length text)%nat || negb (is_finite (line_height m))
       || f32_lt (f32_add (line_height m) hundredth) p.2
    then Err Incomplete else Ok tt.

Definition fragment_for_byte (m : MeasuredLine) (byte : nat) : option nat :=
  match list_find (λ f, (frag_bytes f).1 ≤ byte ∧ byte < (frag_bytes f).2) (fragments m) with
  | Some (i, _) => Some i
  | None =>
      f ← last (fragments m);
      if (byte =? (frag_bytes f).2)%nat then Some (length (fragments m) - 1) else None
  end.

Definition split_row_height (left right : f32) : f32 := f32_max left right.
Definition in_source_height (y height : f32) : bool := f32_le f32_zero y && f32_lt y height.

(** ** Graphemes *)

(** [GraphemeCursor::is_boundary] and [prev_boundary] on a whole text. *)
Class GraphemeCursor := {
  is_grapheme_boundary : bytes → nat → bool;
  prev_boundary : bytes → nat → option nat
}.

(** [str::floor_char_boundary] of a position inside the text. *)
Fixpoint floor_char_boundary (s : bytes) (i : nat) : nat :=
  if is_char_boundary s i then i else match i with O => O | S i => floor_char_boundary s i end.

Definition snap_grapheme `{GraphemeCursor} (text : bytes) (byte : nat) : nat :=
  if (length text <=? byte)%nat then length text
  else
    let byte := floor_char_boundary text byte in
    if is_grapheme_boundary text byte then byte else default 0 (prev_boundary text byte).

(** ** Display text *)

(** [map] relates display and source positions. *)
Record DisplayText := mkDisplayText { text : bytes; map : list (nat * nat) }.

(** The entries of one tab: a space for each column. *)
Definition tab_entries (pos i n : nat) : list (nat * nat) := (λ k, (pos + k, i)) <$> seq 0 n.

(** The loop over [char_indices]: [i] is the position in the source, [pos] the length of the
    display text so far. *)
Fixpoint expand (tab : nat) (cs : list N) (i column pos : nat) : bytes * list (nat * nat) :=
  match cs with
  | [] => ([], [(pos, i)])
  | c :: cs' =>
      if (c =? 9)%N then
        let n := tab - column mod tab in
        let '(t, m) := expand tab cs' (i + len_utf8 c) (column + n) (pos + n) in
        (replicate n SPACE ++ t, tab_entries pos i n ++ m)
      else
        let '(t, m) := expand tab cs' (i + len_utf8 c) (S column) (pos + len_utf8 c) in
        (encode_char c ++ t, (pos, i) :: m)
  end.

Definition DisplayText_new (source : bytes) (tab_size : nat) : DisplayText :=
  if negb (contains_byte TAB source) then mkDisplayText source []
  else
    let tab := Nat.min 16 (Nat.max 1 tab_size) in
    let '(t, m) := expand tab (chars source) 0 0 0 in
    mkDisplayText t m.

Definition source_byte (d : DisplayText) (display : nat) : nat :=
  match map d with
  | [] => Nat.min display (length (text d))
  | m => match m !! (partition_point (λ e, (e.1 <=? display)%nat) m - 1) with
         | Some e => e.2
         | None => 0
         end
  end.
Definition display_byte (d : DisplayText) (source : nat) : nat :=
  match map d with
  | [] => Nat.min source (length (text d))
  | m => match m !! partition_point (λ e, (e.2 <? source)%nat) m with
         | Some e => e.1
         | None => length (text d)
         end
  end.

(** ** Maps in order *)

(** Display positions increase, source positions do not decrease. *)
Definition before (e1 e2 : nat * nat) : Prop := e1.1 < e2.1 ∧ e1.2 ≤ e2.2.

Lemma partition_point_le {A} (p : A → bool) l : partition_point p l ≤ length l.
Proof. induction l as [|x l IH]; [done|]. cbn. destruct (p x); lia. Qed.

(** In a list that the predicate partitions, the elements before the point are those
    that satisfy it. *)
Lemma partition_point_spec {A} (p : A → bool) (R : A → A → Prop) l i x :
  StronglySorted R l → (∀ x y, R x y → p y = true → p x = true) →
  l !! i = Some x → p x = true ↔ i < partition_point p l.
Proof.
  intros Hs HR. revert i. induction Hs as [|y l Hs IH Hy]; intros i Hi; [done|].
  cbn [partition_point]. destruct i as [|i]; cbn in Hi.
  - injection Hi as ->. destruct (p x); split; (done || lia).
  - destruct (p y) eqn:Ey.
    + rewrite (IH _ Hi). lia.
    + split; [|lia]. intros Hx. rewrite Forall_forall in Hy.
      rewrite (HR y x) in Ey; [done| |done]. by apply Hy, (list_elem_of_lookup_2 _ i).
Qed.

Lemma sorted_lookup {A} (R : A → A → Prop) l i j x y :
  StronglySorted R l → l !! i = Some x → l !! j = Some y → i < j → R x y.
Proof.
  intros Hs. revert i j. induction Hs as [|z l Hs IH Hz]; intros i j Hi Hj Hij; [done|].
  destruct j as [|j]; [lia|]. cbn in Hj. destruct i as [|i]; cbn in Hi.
  - injection Hi as ->. rewrite Forall_forall in Hz. by apply Hz, (list_elem_of_lookup_2 _ j).
  - apply (IH i j); [done|done|lia].
Qed.

(** The two lookups of [source_byte] and [display_byte] are adjoint. *)
Lemma lookups_adjoint (m : list (nat * nat)) s d e1 e2 n :
  StronglySorted before m → m !! 0 = Some (0, 0) → last m = Some (n, e2) → s ≤ e2 →
  m !! (partition_point (λ e, (e.1 <=? d)%nat) m - 1) = Some e1 →
  ∃ e, m !! partition_point (λ e, (e.2 <? s)%nat) m = Some e ∧ (e.1 ≤ d ↔ s ≤ e1.2) ∧ s ≤ e.2 ∧
    e1.1 ≤ d ∧ (∀ e', e' ∈ m → s ≤ e'.2 → e.1 ≤ e'.1).
Proof.
  intros Hs H0 Hl Hse H1.
  assert (∀ i x, m !! i = Some x → (x.1 <=? d)%nat = true ↔ i < partition_point (λ e, (e.1 <=? d)%nat) m) as Pd.
  { intros i x. apply (partition_point_spec (λ e, (e.1 <=? d)%nat) before); [done|].
    intros ?? [] ?. to_prop. apply Nat.leb_le. lia. }
  assert (∀ i x, m !! i = Some x → (x.2 <? s)%nat = true ↔ i < partition_point (λ e, (e.2 <? s)%nat) m) as Ps.
  { intros i x. apply (partition_point_spec (λ e, (e.2 <? s)%nat) before); [done|].
    intros ?? [] ?. to_prop. apply Nat.ltb_lt. lia. }
  set (k := partition_point (λ e, (e.1 <=? d)%nat) m) in *.
  set (j := partition_point (λ e, (e.2 <? s)%nat) m) in *. clearbody k j.
  assert (0 < k) as Hk by (by apply (Pd 0 (0, 0))).
  assert (j < length m) as Hj.
  { rewrite last_lookup in Hl. pose proof (lookup_lt_Some _ _ _ Hl).
    destruct (decide (j < length m)) as [|Hge]; [done|].
    assert (pred (length m) < j) as Hp.
    { eapply Nat.lt_le_trans; [eassumption|by apply Nat.nlt_ge]. }
    apply (Ps _ _ Hl) in Hp. cbn [snd] in Hp. to_prop. lia. }
  destruct (lookup_lt_is_Some_2 m j Hj) as [e He]. exists e. split; [done|].
  assert (s ≤ e.2) as Hse2.
  { destruct (e.2 <? s)%nat eqn:E; [|by to_prop]. apply (Ps _ _ He) in E. lia. }
  assert (e1.1 ≤ d) as He1 by (apply Nat.leb_le, (Pd _ _ H1); lia).
  split; [|split_and!; [done|done|]].
  2:{ intros e' [j' Hj']%list_elem_of_lookup Hse'. destruct (decide (j' < j)) as [Hlt|Hge].
    - apply (Ps _ _ Hj') in Hlt. to_prop. lia.
    - destruct (decide (j = j')) as [<-|]; [rewrite He in Hj'; by injection Hj' as <-|].
      assert (before e e') as [? _]; [|lia]. eapply sorted_lookup; [done|exact He|exact Hj'|lia]. }
  split.
  - intros Hd%Nat.leb_le. apply (Pd _ _ He) in Hd.
    destruct (decide (j = k - 1)) as [Heq|Hne]; [rewrite Heq in He; congruence|].
    assert (before e e1) as [_ ?]; [|lia].
    eapply sorted_lookup; [done|exact He|exact H1|lia].
  - intros Hs1. destruct (decide (k - 1 < j)) as [Hlt|Hge].
    { apply (Ps _ _ H1) in Hlt. to_prop. lia. }
    apply Nat.leb_le, (Pd _ _ He). lia.
Qed.

(** ** The map of a text with tabs *)

(** The entries of the characters [cs] at source position [i] and display position [pos];
    [n] is the end of the display text. *)
Record map_ok (m : list (nat * nat)) (pos i : nat) (cs : list N) (n : nat) : Prop := {
  mo_sorted : StronglySorted before m;
  mo_head : m !! 0 = Some (pos, i);
  mo_last : last m = Some (n, i + length (encode cs));
  mo_from e : e ∈ m → pos ≤ e.1 ∧ i ≤ e.2;
  mo_every cs1 cs2 : cs = cs1 ++ cs2 → ∃ e, e ∈ m ∧ e.2 = i + length (encode cs1);
  mo_only e : e ∈ m → ∃ cs1 cs2, cs = cs1 ++ cs2 ∧ e.2 = i + length (encode cs1)
}.

Lemma length_encode_cons c cs : length (encode (c :: cs)) = len_utf8 c + length (encode cs).
Proof. change (encode (c :: cs)) with (encode_char c ++ encode cs). apply length_app. Qed.

Lemma len_utf8_pos c : 0 < len_utf8 c.
Proof.
  unfold len_utf8. pose proof (encode_char_not_nil c). destruct (encode_char c); [done|cbn; lia].
Qed.

Lemma map_ok_nil pos i : map_ok [(pos, i)] pos i [] pos.
Proof.
  split; [repeat constructor|done|cbn; by rewrite Nat.add_0_r| | |].
  - by intros e ->%list_elem_of_singleton.
  - intros [|] cs2 Heq; [|done]. exists (pos, i). split; [left|cbn; lia].
  - intros e ->%list_elem_of_singleton. exists [], []. split; [done|cbn; lia].
Qed.

(** The entries [m1] of the character [c] in front, [d] wide. *)
Lemma map_ok_cons m1 m pos i d c cs n :
  m1 !! 0 = Some (pos, i) → StronglySorted before m1 →
  (∀ e, e ∈ m1 → pos ≤ e.1 < pos + d ∧ e.2 = i) →
  map_ok m (pos + d) (i + len_utf8 c) cs n → map_ok (m1 ++ m) pos i (c :: cs) n.
Proof.
  intros Hh Hs1 Hm1 [Hs _ Hl Hge Hex Hall]. pose proof (len_utf8_pos c) as Hc. split.
  - apply StronglySorted_app. split_and!; [|done|done].
    intros e1 e2 [? He]%Hm1 Hm. apply Hge in Hm. split; lia.
  - by apply lookup_app_l_Some.
  - rewrite last_app, Hl, length_encode_cons. do 2 f_equal. lia.
  - intros e [[? ?]%Hm1|?%Hge]%elem_of_app; lia.
  - intros [|c1 cs1] cs2 Heq.
    + exists (pos, i). split; [|cbn; lia]. apply elem_of_app. left. by eapply list_elem_of_lookup_2.
    + injection Heq as <- Heq. destruct (Hex _ _ Heq) as (e & He & He2). exists e.
      split; [apply elem_of_app; by right|]. rewrite He2, length_encode_cons. lia.
  - intros e [[_ He]%Hm1|(cs1 & cs2 & -> & He)%Hall]%elem_of_app.
    + exists [], (c :: cs). split; [done|cbn; lia].
    + exists (c :: cs1), cs2. split; [done|]. rewrite He, length_encode_cons. lia.
Qed.

Lemma tab_entries_sorted pos i n : StronglySorted before (tab_entries pos i n).
Proof.
  unfold tab_entries. generalize 0 as j. induction n as [|n IH]; intros j; [constructor|].
  cbn [seq]. rewrite fmap_cons. constructor; [apply IH|]. apply Forall_fmap, Forall_forall.
  intros k Hk%elem_of_seq. split; cbn; lia.
Qed.

Lemma expand_ok tab cs i column pos :
  0 < tab →
  map_ok (expand tab cs i column pos).2 pos i cs (pos + length (expand tab cs i column pos).1).
Proof.
  intros Htab. revert i column pos. induction cs as [|c cs IH]; intros i column pos; cbn [expand].
  { rewrite Nat.add_0_r. apply map_ok_nil. }
  destruct (c =? 9)%N.
  - set (n := tab - column mod tab).
    assert (0 < n) as Hn by (pose proof (Nat.mod_upper_bound column tab); lia).
    specialize (IH (i + len_utf8 c) (column + n) (pos + n)).
    destruct (expand tab cs _ _ _) as [t m]. cbn [fst snd] in *.
    rewrite length_app, length_replicate, Nat.add_assoc. apply (map_ok_cons _ _ _ _ n); [| | |done].
    + unfold tab_entries. destruct n; [lia|]. cbn. do 2 f_equal. lia.
    + apply tab_entries_sorted.
    + intros e (k & -> & Hk%elem_of_seq)%list_elem_of_fmap. cbn. lia.
  - specialize (IH (i + len_utf8 c) (S column) (pos + len_utf8 c)).
    destruct (expand tab cs _ _ _) as [t m]. cbn [fst snd] in *.
    rewrite length_app. fold (len_utf8 c). rewrite Nat.add_assoc.
    apply (map_ok_cons [(pos, i)] _ _ _ (len_utf8 c)); [done|repeat constructor| |done].
    intros e ->%list_elem_of_singleton. pose proof (len_utf8_pos c). cbn. lia.
Qed.

(** A character above ASCII has no ASCII byte. *)
Lemma encode_char_high c x :
  is_scalar c = true → (128 <= c)%N → x ∈ encode_char c → (128 <= bN x)%N.
Proof.
  intros Hs%is_scalar_elim Hc Hx.
  assert (∀ n, (128 <= bN (cont n))%N) as Hcont.
  { intros n. pose proof (is_cont_cont n) as H. unfold is_cont in H. apply between_true in H. lia. }
  assert (∀ n, (192 <= n < 256)%N → (128 <= bN (u8_of n))%N) as Hlead.
  { intros n Hn. rewrite bN_u8_of; lia. }
  destruct (decide (c < 2048)%N); [rewrite encode_char_2 in Hx by lia|
    destruct (decide (c < 65536)%N); [rewrite encode_char_3 in Hx by lia|
      rewrite encode_char_4 in Hx by lia]];
  repeat (apply elem_of_cons in Hx as [->|Hx]; [by apply Hcont || (apply Hlead; divlia)|]);
  by apply not_elem_of_nil in Hx.
Qed.

Lemma expand_no_tab tab cs i column pos :
  Forall (λ c, is_scalar c = true) cs → TAB ∉ (expand tab cs i column pos).1.
Proof.
  intros Hcs. revert i column pos. induction Hcs as [|c cs Hc _ IH]; intros i column pos;
    cbn [expand]; [apply not_elem_of_nil|].
  destruct (c =? 9)%N eqn:E; to_prop.
  - specialize (IH (i + len_utf8 c) (column + (tab - column mod tab)) (pos + (tab - column mod tab))).
    destruct (expand tab cs _ _ _). cbn [fst] in *. rewrite elem_of_app.
    intros [[H _]%elem_of_replicate|?]; [discriminate H|done].
  - specialize (IH (i + len_utf8 c) (S column) (pos + len_utf8 c)).
    destruct (expand tab cs _ _ _). cbn [fst] in *. rewrite elem_of_app.
    intros [H|?]; [|done]. destruct (decide (c < 128)%N) as [Hlt|Hge].
    + unfold encode_char in H. rewrite (proj2 (N.ltb_lt _ _) Hlt) in H.
      apply list_elem_of_singleton in H. apply E. rewrite <- (bN_u8_of c), <- H by lia. done.
    + apply encode_char_high in H; [by vm_compute in H|done|lia].
Qed.

(** ** Positions *)

Lemma display_maps source tab_size :
  utf8_valid source = true → TAB ∈ source →
  let d := DisplayText_new source tab_size in
  map_ok (map d) 0 0 (chars source) (length (text d)) ∧ TAB ∉ text d.
Proof.
  intros Hv Ht. unfold DisplayText_new, contains_byte. rewrite bool_decide_true by done. cbn [negb].
  set (tab := Nat.min 16 (Nat.max 1 tab_size)).
  pose proof (expand_ok tab (chars source) 0 0 0 ltac:(lia)) as Hm.
  assert (TAB ∉ (expand tab (chars source) 0 0 0).1) as Hn.
  { apply expand_no_tab. apply utf8_valid_iff in Hv as (cs & Hcs & ->).
    unfold chars. by rewrite utf8_decode_encode. }
  by destruct (expand tab (chars source) 0 0 0).
Qed.

Lemma map_lookups m pos i cs n source :
  map_ok m 0 0 cs n → source = encode cs → pos ≤ length source →
  ∃ e1 e2, m !! (partition_point (λ e, (e.1 <=? i)%nat) m - 1) = Some e1 ∧
    m !! partition_point (λ e, (e.2 <? pos)%nat) m = Some e2 ∧
    (e2.1 ≤ i ↔ pos ≤ e1.2) ∧ e1 ∈ m ∧ e2 ∈ m ∧ e1.1 ≤ i ∧
    (∀ e, e ∈ m → pos ≤ e.2 → e2.1 ≤ e.1).
Proof.
  intros [Hs Hh Hl _ _ _] -> Hp.
  assert (partition_point (λ e, (e.1 <=? i)%nat) m - 1 < length m) as Hk.
  { pose proof (partition_point_le (λ e : nat * nat, (e.1 <=? i)%nat) m).
    pose proof (lookup_lt_Some _ _ _ Hh). lia. }
  apply lookup_lt_is_Some_2 in Hk as [e1 He1].
  destruct (lookups_adjoint m pos i e1 _ _ Hs Hh Hl Hp He1) as (e2 & He2 & Hadj & _ & Hle & Hfirst).
  exists e1, e2. split_and!; try done; by eapply list_elem_of_lookup_2.
Qed.

Lemma map_monotone m : StronglySorted before m →
  ∀ e1 e2, e1 ∈ m → e2 ∈ m → e1.1 ≤ e2.1 → e1.2 ≤ e2.2.
Proof.
  intros Hs e1 e2 [i Hi]%list_elem_of_lookup [j Hj]%list_elem_of_lookup Hle.
  destruct (Nat.lt_trichotomy i j) as [Hij|[->|Hij]].
  - by destruct (sorted_lookup _ _ _ _ _ _ Hs Hi Hj Hij).
  - rewrite Hi in Hj. by injection Hj as ->.
  - destruct (sorted_lookup _ _ _ _ _ _ Hs Hj Hi Hij). lia.
Qed.

(** Positions in the display text and in the source correspond. The display text has
    no tab; the first display position of a source position and the source position of a
    display position are adjoint, so both maps keep the order; a character boundary maps
    to the display and back to itself; and a display position never maps past the end of
    the source nor, in a line with tabs, inside a character. *)
Theorem display_positions source tab_size :
  utf8_valid source = true →
  let d := DisplayText_new source tab_size in
  TAB ∉ text d ∧
  (∀ s i, s ≤ length source → display_byte d s ≤ i ↔ s ≤ source_byte d i) ∧
  (∀ s, s ≤ length source → is_char_boundary source s = true →
        source_byte d (display_byte d s) = s) ∧
  (∀ i, source_byte d i ≤ length source ∧
        (TAB ∈ source → is_char_boundary source (source_byte d i) = true)).
Proof.
  intros Hv d. destruct (decide (TAB ∈ source)) as [Ht|Ht].
  2:{ assert (d = mkDisplayText source []) as ->.
      { unfold d, DisplayText_new, contains_byte. by rewrite bool_decide_false. }
      unfold display_byte, source_byte. cbn. split_and!; [done|lia|lia|]. intros i. split; [lia|done]. }
  destruct (display_maps source tab_size Hv Ht) as [Hm Hn]. fold d in Hm, Hn.
  pose proof Hv as (cs & Hcs & Hsrc)%utf8_valid_iff.
  assert (chars source = cs) as Hch by (unfold chars; rewrite Hsrc; by rewrite utf8_decode_encode).
  rewrite Hch in Hm.
  assert (∀ s i, s ≤ length source → ∃ e1 e2, source_byte d i = e1.2 ∧ display_byte d s = e2.1 ∧
    (e2.1 ≤ i ↔ s ≤ e1.2) ∧ e1 ∈ map d ∧ e2 ∈ map d ∧ e1.1 ≤ i ∧
    (∀ e, e ∈ map d → s ≤ e.2 → e2.1 ≤ e.1)) as Hlook.
  { intros s i Hs. destruct (map_lookups _ s i _ _ _ Hm Hsrc Hs) as (e1 & e2 & H1 & H2 & Hrest).
    exists e1, e2. unfold source_byte, display_byte.
    destruct (map d); [by destruct Hrest as (_ & []%not_elem_of_nil & _)|]. by rewrite H1, H2. }
  split; [done|]. split; [|split].
  - intros s i Hs. destruct (Hlook s i Hs) as (e1 & e2 & -> & -> & ? & _). done.
  - intros s Hs Hb. apply Nat.le_antisymm.
    + destruct (boundary_split cs s Hcs) as (cs1 & cs2 & Heq & ->); [by rewrite <- Hsrc|].
      destruct (mo_every _ _ _ _ _ Hm _ _ Heq) as (e & He & Hes). cbn in Hes.
      destruct (Hlook _ (display_byte d (length (encode cs1))) Hs)
        as (e1 & e2 & -> & Hd & _ & He1 & He2 & Hle & Hfirst). rewrite Hd in Hle.
      pose proof (map_monotone _ (mo_sorted _ _ _ _ _ Hm)) as Hmono.
      rewrite <- Hes. etransitivity; [by eapply Hmono, Hle|]. apply Hmono; [done..|].
      apply Hfirst; [done|]. by rewrite Hes.
    + destruct (Hlook s (display_byte d s) Hs) as (e1 & e2 & -> & -> & Hadj & _). by apply Hadj.
  - intros i. destruct (Hlook 0 i ltac:(lia)) as (e1 & _ & -> & _ & _ & He1 & _).
    destruct (mo_only _ _ _ _ _ Hm _ He1) as (cs1 & cs2 & Heq & ->). cbn.
    rewrite Heq in Hcs, Hsrc. split.
    + rewrite Hsrc, encode_app, length_app. lia.
    + intros _. rewrite Hsrc. apply boundary_join. by apply Forall_app in Hcs as [_ ?].
Qed.

(** ** Witness *)

(** A tab at column 1 is three columns wide. *)
Example display_positions_witness :
  let source := Byte.x61 :: TAB :: bs "b" in
  let d := DisplayText_new source 4 in
  text d = bs "a   b" ∧ display_byte d 2 = 4 ∧ source_byte d 3 = 1 ∧
  source_byte d (display_byte d 2) = 2.
Proof.
  intros source d. split_and!; [vm_compute; reflexivity..|].
  apply (display_positions source 4); [vm_compute; reflexivity|cbn; lia|vm_compute; reflexivity].
Defined.
