(* ===== verification/Viewport.v ===== *)
(** * The source view: rows, navigation, and expanding context ([crates/ui/src/viewport.rs],
    [viewport/navigation.rs], and [expand_context] of [crates/ui/src/reader.rs])

    The part of the view that is independent of how text is measured and painted. The last
    painted frame is an argument where an operation asks it something. [u32] sums wrap around,
    as in a release build. *)

From S2P Require Import Prelude RustStr Utf8 Domain Patch BTree Overview Snapshot F32 F64 Heights.
From S2P Require Import Session Inline Presentation Layout.

(** ** Geometry *)

Definition f32_of_int (n : N) : f32 := f32_of_N n.
(** The top and the height of a scrollbar's thumb. *)
Definition vertical_thumb (view_height content_height scrolled : f32) : option (f32 * f32) :=
  let total := f32_max content_height view_height in
  thumb ← f32_clamp (view_height * view_height / f32_max total (f32_of_int 1))%f32 (f32_of_int 24)
                    (f32_max view_height (f32_of_int 24));
  top ← (if f32_lt view_height total
         then
           f ← f32_clamp (scrolled / (total - view_height))%f32 f32_zero (f32_of_int 1);
           Some (f * f32_max (view_height - thumb)%f32 f32_zero)%f32
         else Some f32_zero);
  Some (top, thumb).

Definition REVEAL_MARGIN : f32 := f32_of_int 24.
Definition reveal_horizontal (current x1 x2 visible : f32) : f32 :=
  let h := f32_max current f32_zero in
  let h := if f32_lt (h + visible)%f32 (x2 + REVEAL_MARGIN)%f32
           then (x2 + REVEAL_MARGIN - visible)%f32 else h in
  let h := if f32_lt (x1 - REVEAL_MARGIN)%f32 h then (x1 - REVEAL_MARGIN)%f32 else h in
  f32_max h f32_zero.

(** ** The view *)

Record Cursor := mkCursor { cursor_row : nat; cursor_offset : f32 }.
Definition cursor_default : Cursor := mkCursor 0 f32_zero.
Definition needs_bottom_fill (c : Cursor) (end_y height : f32) : bool :=
  f32_lt end_y height && ((0 <? cursor_row c)%nat || f32_lt f32_zero (cursor_offset c)).

(** [expanded] holds how many lines above and below each hunk were loaded; [hunk_target] is
    the header that navigation and context requests speak of; [focus] the bytes to reveal. *)
Record Viewport := mkViewport {
  v_snapshot : Snapshot; v_file : FileId; v_rows : list DisplayRow;
  v_split : bool; v_wrap : bool; font_size : f32;
  v_selection : option SourceSelection; v_anchor : option ViewportAnchor;
  expanded : gmap nat (N * N);
  v_horizontal : f32; max_horizontal : f32; cursor : Cursor; hunk_target : option nat;
  view_width : f32; view_height : f32; dirty : bool; pending_anchor : bool; pending_scroll : f32;
  height_index : HeightIndex; header_rows : list nat; focus : option Range
}.

Definition is_header (r : DisplayRow) : bool := match r with HunkRow _ _ _ => true | _ => false end.
(** [hunk_rows]: where the hunk headers are. *)
Definition headers (rs : list DisplayRow) : list nat :=
  omap (λ i, r ← rs !! i; if is_header r then Some i else None) (seq 0 (length rs)).

Section viewport.
Context {class_ : CharClass}.

Definition file_rows (s : Snapshot) (f : FileId) (split : bool) : list DisplayRow :=
  match file s f with Some c => Presentation.rows c split | None => [] end.

Definition Viewport_new (s : Snapshot) (f : FileId) (split wrap : bool) (font : f32)
    (anchor : option ViewportAnchor) : Viewport :=
  let rs := file_rows s f split in
  mkViewport s f rs split wrap font None anchor ∅ f32_zero f32_zero cursor_default None
    f32_zero f32_zero true false f32_zero (HeightIndex_new (length rs) (f32_of_int 28)) (headers rs) None.

(** Assignments to the fields an operation changes. *)
Definition set_rows (v : Viewport) (rs : list DisplayRow) (hs : list nat) (ex : gmap nat (N * N))
    : Viewport :=
  let 'mkViewport s f _ sp wr fo sel an _ ho mh cu ta wi he di pa ps hi _ fc := v in
  mkViewport s f rs sp wr fo sel an ex ho mh cu ta wi he di pa ps hi hs fc.
Definition set_layout (v : Viewport) (sp wr : bool) (fo : f32) (ho : f32) (di : bool) : Viewport :=
  let 'mkViewport s f rs _ _ _ sel an ex _ mh cu ta wi he _ pa ps hi hs fc := v in
  mkViewport s f rs sp wr fo sel an ex ho mh cu ta wi he di pa ps hi hs fc.
Definition set_target (v : Viewport) (ta : option nat) : Viewport :=
  let 'mkViewport s f rs sp wr fo sel an ex ho mh cu _ wi he di pa ps hi hs fc := v in
  mkViewport s f rs sp wr fo sel an ex ho mh cu ta wi he di pa ps hi hs fc.
Definition set_position (v : Viewport) (cu : Cursor) (an : option ViewportAnchor) (pa : bool)
    (ps : f32) (fc : option Range) : Viewport :=
  let 'mkViewport s f rs sp wr fo sel _ ex ho mh _ ta wi he di _ _ hi hs _ := v in
  mkViewport s f rs sp wr fo sel an ex ho mh cu ta wi he di pa ps hi hs fc.
Definition set_horizontal (v : Viewport) (ho : f32) : Viewport :=
  let 'mkViewport s f rs sp wr fo sel an ex _ mh cu ta wi he di pa ps hi hs fc := v in
  mkViewport s f rs sp wr fo sel an ex ho mh cu ta wi he di pa ps hi hs fc.
Definition set_selection (v : Viewport) (sel : option SourceSelection) : Viewport :=
  let 'mkViewport s f rs sp wr fo _ an ex ho mh cu ta wi he di pa ps hi hs fc := v in
  mkViewport s f rs sp wr fo sel an ex ho mh cu ta wi he di pa ps hi hs fc.
Definition set_geometry (v : Viewport) (wi : f32) (hi : HeightIndex) : Viewport :=
  let 'mkViewport s f rs sp wr fo sel an ex ho _ cu ta _ he di pa ps _ hs fc := v in
  mkViewport s f rs sp wr fo sel an ex ho f32_zero cu ta wi he di pa ps hi hs fc.

(** The bounds of this clamp are in order, so it does not panic. *)
Definition configure (v : Viewport) (split wrap : bool) (font : f32) : Viewport :=
  let font := default font (f32_clamp font (f32_of_int 10) (f32_of_int 30)) in
  if bool_decide (v_split v = split) && bool_decide (v_wrap v = wrap)
     && f32_lt (SFabs (font_size v - font)%f32) hundredth
  then v
  else
    let v := if negb (bool_decide (split = v_split v)) then
               let rs := file_rows (v_snapshot v) (v_file v) split in
               set_target (set_rows v rs (headers rs) ∅) None
             else v in
    set_layout v split wrap font
      (if wrap && negb (v_wrap v) then f32_zero else v_horizontal v) true.

Definition scroll (v : Viewport) (dx dy : f32) : Viewport :=
  let v := if f32_lt f32_zero dy || f32_lt dy f32_zero || is_nan dy then set_target v None else v in
  let v := if is_finite dx
           then set_horizontal v (default (v_horizontal v)
                  (f32_clamp (v_horizontal v + dx)%f32 f32_zero (f32_max (max_horizontal v) f32_zero)))
           else v in
  if is_finite dy
  then set_position v (cursor v) (v_anchor v) (pending_anchor v)
         (default (pending_scroll v)
            (f32_clamp (pending_scroll v + dy)%f32 (SFopp (f32_of_int 1000000)) (f32_of_int 1000000)))
         (focus v)
  else v.

Definition jump_fraction (v : Viewport) (fraction : f32) : Viewport :=
  let f := default fraction (f32_clamp fraction f32_zero (f32_of_int 1)) in
  let '(row, offset) :=
    locate (height_index v) (f * f32_max (Heights.total (height_index v) - view_height v) f32_zero)%f32 in
  set_position (set_target v None) (mkCursor row offset) None (pending_anchor v) f32_zero (focus v).

Definition reveal (v : Viewport) (p : SourcePoint) : Viewport :=
  let v := set_position (set_target v None) (cursor v) (v_anchor v) (pending_anchor v) (pending_scroll v) None in
  if negb (bool_decide (snapshot p = id (v_snapshot v))) || negb (bool_decide (file_of p = v_file v)) then v
  else
    set_position v (cursor v)
      (Some (mkViewportAnchor p (font_size v * f32_of_int 3)%f32 (v_horizontal v))) true f32_zero None.
Definition reveal_range (v : Viewport) (p : SourcePoint) (end_byte : nat) : Viewport :=
  let v := reveal v p in
  match v_anchor v with
  | Some _ => set_position v (cursor v) (v_anchor v) (pending_anchor v) (pending_scroll v)
                (Some (byte_column p, Nat.max end_byte (byte_column p)))
  | None => v
  end.

Definition jump_first_hunk (v : Viewport) : Viewport :=
  let target := hd_error (header_rows v) in
  set_position (set_target v target)
    match target with Some row => mkCursor row f32_zero | None => cursor_default end
    None false f32_zero None.
Definition jump_edge (v : Viewport) (end_ : bool) : Viewport :=
  set_position (set_target v None)
    (if end_ then mkCursor (length (v_rows v) - 1) (f32_of_int 1000000) else cursor_default)
    None (pending_anchor v) f32_zero (focus v).
(** The number of the hunk that is gone to, and how many there are. *)
Definition next_hunk (v : Viewport) (forward : bool) : Viewport * option (nat * nat) :=
  let current := default (cursor_row (cursor v)) (hunk_target v) in
  match (index ← (if forward then Some (partition_point (λ r, (r <=? current)%nat) (header_rows v))
                  else match partition_point (λ r, (r <? current)%nat) (header_rows v) with
                       | O => None
                       | S i => Some i
                       end);
         target ← header_rows v !! index;
         Some (index, target)) with
  | None => (v, None)
  | Some (index, target) =>
      (set_position (set_target v (Some target)) (mkCursor target f32_zero) None (pending_anchor v)
         f32_zero (focus v),
       Some (index + 1, length (header_rows v)))
  end.

Definition select_source_line (v : Viewport) (p : SourcePoint) : Viewport :=
  let width := default 0 (f ← file (v_snapshot v) (v_file v); r ← line f (side p) (line_no p);
                          Some (length (row_text r))) in
  set_target
    (set_selection v
       (Some (mkSourceSelection p
                (mkSourcePoint (snapshot p) (file_of p) (side p) (line_no p) width)))) None.

(** The bytes of a cell that the selection covers. *)
Definition selection_range (v : Viewport) (s : Side) (c : Cell) (unified : bool)
    (old_number : option N) : option Range :=
  sel ← v_selection v;
  let st := sel_start sel in
  let en := sel_end sel in
  if negb (bool_decide (snapshot st = id (v_snapshot v))) || negb (bool_decide (file_of st = v_file v))
  then None
  else
    line ← (if bool_decide (side st = s) then Some (number c)
            else if unified && bool_decide (side st = Left) && bool_decide (cell_kind c = RowKind.Context)
            then old_number else None);
    let '(a, b) := if point_le st en then (st, en) else (en, st) in
    if (line <? line_no a)%N || (line_no b <? line)%N then None
    else
      let lo := if (line =? line_no a)%N then byte_column a else 0 in
      let hi := if (line =? line_no b)%N then byte_column b else length (cell_text c) in
      if (lo <? hi)%nat then Some (lo, hi) else None.

(** New geometry: everything measured is forgotten. *)
Definition prepare_geometry (v : Viewport) (width : f32) : Viewport * bool :=
  if dirty v || f32_lt (S754_finite false 13421773 (-27)) (SFabs (width - view_width v)%f32)
  then (set_geometry v width
          (HeightIndex_new (length (v_rows v))
             (font_size v * S754_finite false 11744051 (-23) + f32_of_int 1 * f32_of_int 2)%f32), true)
  else (v, false).

(** ** Moving the selection *)

Inductive Motion := Up | Down | MoveLeft | MoveRight | Home | End_ | First | Last.

(** Where the graphemes of a line begin ([grapheme_indices]). *)
Class Graphemes := { grapheme_starts : bytes → list nat }.
Context {graphemes_ : Graphemes} {cursor_ : GraphemeCursor}.

(** The line of a row on a side: unified context is one cell but a line of both sides. *)
Definition navigable (s : Side) (r : DisplayRow) : option (N * bytes) :=
  match r with
  | LineRow l r unified old_number =>
      match s with
      | Left =>
          match l with
          | Some c => Some (number c, cell_text c)
          | None =>
              c ← r;
              if unified && bool_decide (cell_kind c = RowKind.Context)
              then o ← old_number; Some (o, cell_text c) else None
          end
      | Right => c ← r; Some (number c, cell_text c)
      end
  | _ => None
  end.

Fixpoint last_before (column : nat) (l : list nat) (acc : nat) : nat :=
  match l with
  | i :: l => if (i <? column)%nat then last_before column l i else acc
  | [] => acc
  end.
Definition text_at (cells : list (N * bytes)) (i : nat) : bytes := default [] (snd <$> cells !! i).
Definition width_at (cells : list (N * bytes)) (i : nat) : nat := length (text_at cells i).
(** The cell and the column a motion ends at. *)
Definition moved (cells : list (N * bytes)) (at_ column : nat) (m : Motion) : nat * nat :=
  match m with
  | Up => (at_ - 1, column)
  | Down => (Nat.min (at_ + 1) (length cells - 1), column)
  | Home => (at_, 0)
  | End_ => (at_, width_at cells at_)
  | First => (0, 0)
  | Last => (length cells - 1, width_at cells (length cells - 1))
  | MoveLeft =>
      if (column =? 0)%nat && (0 <? at_)%nat then (at_ - 1, width_at cells (at_ - 1))
      else (at_, last_before column (grapheme_starts (text_at cells at_)) 0)
  | MoveRight =>
      if (width_at cells at_ <=? column)%nat && (at_ + 1 <? length cells)%nat then (at_ + 1, 0)
      else (at_, default (width_at cells at_)
                   (List.find (λ i, (column <? i)%nat) (grapheme_starts (text_at cells at_))))
  end.

(** Where the selection ends before a motion. *)
Definition current_point (v : Viewport) : option SourcePoint :=
  match v_selection v with
  | Some s => Some (sel_end s)
  | None => point <$> v_anchor v
  end.
(** The point a motion ends at; [None] when no line has the side. *)
Definition motion_end (v : Viewport) (m : Motion) : option SourcePoint :=
  let current := current_point v in
  let s := match current with Some p => side p | None => Right end in
  let cells := omap (navigable s) (v_rows v) in
  if bool_decide (cells = []) then None
  else
    let at_ := default 0 (p ← current;
                          fst <$> list_find (λ c, c.1 = line_no p) cells) in
    let column := Nat.min match current with Some p => byte_column p | None => 0 end (width_at cells at_) in
    let '(at_, column) := moved cells at_ column m in
    Some (mkSourcePoint (id (v_snapshot v)) (v_file v) s (default 0%N (fst <$> cells !! at_))
            (snap_grapheme (text_at cells at_) column)).
(** [visible]: what the last painted frame says of the point. *)
Definition move_selection (v : Viewport) (m : Motion) (extend : bool) (visible : SourcePoint → bool)
    : Viewport :=
  match motion_end v m with
  | None => v
  | Some e =>
      let start := if extend
                   then match v_selection v with
                        | Some s => sel_start s
                        | None => default e (current_point v)
                        end
                   else e in
      let v := set_selection v (Some (mkSourceSelection start e)) in
      if visible e then v else reveal v e
  end.

(** ** Expanding context *)

Inductive ContextRequest := Above | Below | All.
Definition above (r : ContextRequest) : bool := match r with Below => false | _ => true end.

Definition CONTEXT_STEP : N := 10.
Definition CONTEXT_BUDGET : N := 1000.
Definition u32_add (a b : N) : N := ((a + b) mod (u32_max + 1))%N.

Definition used (ex : gmap nat (N * N)) : N :=
  (map_fold (λ _ p acc, p.1 + p.2 + acc) 0 ex mod (u32_max + 1))%N.
Definition expanded_at (ex : gmap nat (N * N)) (h : nat) : N * N := default (0, 0)%N (ex !! h).

(** The hunk, the first old and new lines, and how many lines. *)
Definition plan_for_row (v : Viewport) (row : nat) (request : ContextRequest)
    : option (nat * N * N * N) :=
  let used := used (expanded v) in
  if (CONTEXT_BUDGET <=? used)%N then None
  else
    let h := partition_point (λ header, (header <=? row)%nat) (header_rows v) - 1 in
    f ← file (v_snapshot v) (v_file v);
    current ← hunks f !! h;
    if (old_count current =? 0)%N || (new_count current =? 0)%N then None
    else
      let '(before, after) := expanded_at (expanded v) h in
      if above request then
        old ← checked_sub (old_start current) before;
        new ← checked_sub (new_start current) before;
        let previous_end :=
          match h with
          | O => 1%N
          | S i => match hunks f !! i with
                   | Some p => u32_add (u32_add (old_start p) (old_count p)) (expanded_at (expanded v) i).2
                   | None => 1%N
                   end
          end in
        let gap := N.min (old - previous_end) (new - 1) in
        count ← match request with
                | All => if (gap <=? CONTEXT_STEP)%N || (CONTEXT_BUDGET - used <? gap)%N
                         then None else Some gap
                | _ => Some (N.min gap CONTEXT_STEP)
                end;
        if (0 <? count)%N then Some (h, old - count, new - count, count)%N else None
      else
        let old := u32_add (u32_add (old_start current) (old_count current)) after in
        let new := u32_add (u32_add (new_start current) (new_count current)) after in
        let count :=
          match hunks f !! S h with
          | Some next => N.min (old_start next - (expanded_at (expanded v) (S h)).1 - old) CONTEXT_STEP
          | None => CONTEXT_STEP
          end%N in
        if (0 <? count)%N then Some (h, old, new, count) else None.
Definition context_plan (v : Viewport) (request : ContextRequest) : option (nat * N * N * N) :=
  plan_for_row v (default (cursor_row (cursor v)) (hunk_target v)) request.
Definition context_labels (v : Viewport) (row : nat) : list (ContextRequest * bytes) :=
  omap (λ request,
    '(_, _, _, count) ← plan_for_row v row request;
    Some (request, match request with
                   | Above => bs "↑ Show " ++ dec count ++ bs " above"
                   | All => bs "⇈ Show all " ++ dec count ++ bs " above"
                   | Below => bs "↓ Show " ++ dec count ++ bs " below"
                   end)) [Above; All; Below].

(** The rows of unchanged lines from [old] and [new] on. *)
Definition context_row (split : bool) (old new : N) (t : bytes) : DisplayRow :=
  let cell n := mkCell n t LineEnding.Lf RowKind.Context [] in
  LineRow (if split then Some (cell old) else None) (Some (cell new)) (negb split) (Some old).
Fixpoint context_rows (split : bool) (old new : N) (lines : list bytes) : list DisplayRow :=
  match lines with
  | [] => []
  | t :: lines => context_row split old new t :: context_rows split (u32_add old 1) (u32_add new 1) lines
  end.

(** [None] where [splice] panics: a position past the end. *)
Definition insert_context (v : Viewport) (hunk : nat) (above : bool) (old new : N)
    (lines : list bytes) : option Viewport :=
  match header_rows v !! hunk with
  | None => Some v
  | Some header =>
      let index := if above then header + 1
                   else default (length (v_rows v)) (header_rows v !! (hunk + 1)) in
      let count := length lines in
      if (length (v_rows v) <? index)%nat then None
      else
        let rs := take index (v_rows v) ++ context_rows (v_split v) old new lines
                  ++ drop index (v_rows v) in
        let hs := take (hunk + 1) (header_rows v)
                  ++ ((λ h, h + count) <$> drop (hunk + 1) (header_rows v)) in
        let '(a, b) := expanded_at (expanded v) hunk in
        let n := (N.of_nat count mod (u32_max + 1))%N in
        let entry := if above then (u32_add a n, b) else (a, u32_add b n) in
        let v := set_target (set_rows v rs hs (<[hunk := entry]> (expanded v))) None in
        Some (set_layout v (v_split v) (v_wrap v) (font_size v) (v_horizontal v) true)
  end.

(** ** Requests of context, which take time ([expand_context])

    While lines are being fetched the window goes on: [context_busy] only keeps a second
    request from starting. The lines of both revisions are read and must agree. *)

Record Pending := mkPending {
  p_hunk : nat; p_above : bool; p_old : N; p_new : N; p_count : N
}.
Record Reader := mkReader { view : Viewport; context_busy : option Pending }.

(** The paths of the file on both sides, when it has both and they are UTF-8. *)
Definition both_paths (f : FileChange) : option (bytes * bytes) :=
  a ← old_path f; b ← new_path f;
  match RepoPath.utf8 a, RepoPath.utf8 b with
  | Ok a, Ok b => Some (a, b)
  | _, _ => None
  end.
Definition expand_context (r : Reader) (request : ContextRequest) : Reader :=
  match context_busy r with
  | Some _ => r
  | None =>
      let v := view r in
      match (plan ← context_plan v request; _ ← remote (v_snapshot v);
             f ← file (v_snapshot v) (v_file v); _ ← both_paths f; Some plan) with
      | Some (hunk, old, new, count) =>
          mkReader v (Some (mkPending hunk (above request) old new count))
      | None => r
      end
  end.
(** The answer: the lines of the old and of the new revision, or an error. *)
Definition context_answer (r : Reader) (answer : option (list bytes * list bytes)) : option Reader :=
  match context_busy r with
  | None => Some r
  | Some p =>
      match answer with
      | Some (old_lines, new_lines) =>
          if negb (bool_decide (old_lines = new_lines)) then Some (mkReader (view r) None)
          else v ← insert_context (view r) (p_hunk p) (p_above p) (p_old p) (p_new p) new_lines;
               Some (mkReader v None)
      | None => Some (mkReader (view r) None)
      end
  end.

Inductive ReaderEvent :=
| Expand (r : ContextRequest)
| Fetched (ok : bool)
| Configure (split wrap : bool) (font : f32)
| Look (target : option nat) (c : Cursor)
| NextHunk (forward : bool)
| Move (m : Motion) (extend visible : bool).

(** What [source_lines] answers for the lines of a revision. *)
Definition lines_of (text : list bytes) (start count : N) : list bytes :=
  take (N.to_nat count) (drop (N.to_nat (start - 1)) text).

(** [old_text] and [new_text] are the lines of the file in the two revisions; [Look] is
    whatever layout, scrolling and clicks make of the cursor and the target. *)
Definition reader_event (old_text new_text : list bytes) (r : Reader) (e : ReaderEvent)
    : option Reader :=
  match e with
  | Expand request => Some (expand_context r request)
  | Fetched ok =>
      context_answer r
        (p ← context_busy r;
         if ok then Some (lines_of old_text (p_old p) (p_count p), lines_of new_text (p_new p) (p_count p))
         else None)
  | Configure split wrap font => Some (mkReader (configure (view r) split wrap font) (context_busy r))
  | Look target c =>
      let v := set_target (view r) target in
      Some (mkReader (set_position v c (v_anchor v) (pending_anchor v) (pending_scroll v) (focus v))
                     (context_busy r))
  | NextHunk forward => Some (mkReader (next_hunk (view r) forward).1 (context_busy r))
  | Move m extend visible =>
      Some (mkReader (move_selection (view r) m extend (λ _, visible)) (context_busy r))
  end.
Fixpoint reader_run (old_text new_text : list bytes) (r : Reader) (es : list ReaderEvent)
    : option Reader :=
  match es with
  | [] => Some r
  | e :: es => r ← reader_event old_text new_text r e; reader_run old_text new_text r es
  end.
End viewport.
