(* ===== verification/ViewportFacts.v ===== *)
(** * Expanding context: no line twice, every line the source's

    [layout_ok] says how the rows of a view are made up: notices, then for each hunk its
    header, the lines loaded above it, its own rows and the lines loaded below. *)

From S2P Require Import Prelude RustStr Utf8 Domain Patch PatchFacts BTree Overview Snapshot F32 Heights.
From S2P Require Import Session Inline InlineFacts Presentation PresentationFacts Layout Viewport.

(** ** Lines of rows *)

Definition row_lines (s : Side) (r : PatchRow) : option (N * bytes) :=
  n ← row_number r s; Some (n, row_text r).

Lemma omap_fmap {A B C} (f : A → option B) (g : B → C) (l : list A) :
  omap (λ x, g <$> f x) l = g <$> omap f l.
Proof. induction l as [|x l IH]; [done|]. cbn. rewrite IH. by destruct (f x). Qed.
Lemma omap_Forall {A B} (P : A → Prop) (f g : A → option B) (l : list A) :
  (∀ x, P x → f x = g x) → Forall P l → omap f l = omap g l.
Proof. intros H. induction 1 as [|x l Hx _ IH]; [done|]. cbn. by rewrite (H x Hx), IH. Qed.

Section facts.
Context {class_ : CharClass}.

Definition cell_line (c : Cell) : N * bytes := (number c, cell_text c).
Lemma Cell_line r s : cell_line <$> Cell_from r s = row_lines s r.
Proof. unfold Cell_from, row_lines. by destruct (row_number r s). Qed.

Lemma unified_line s r : row_wf r → navigable s (unified_row r) = row_lines s r.
Proof.
  intros [_ Hr]. destruct r as [o n t e k]. unfold unified_row, row_lines, navigable, Cell_from. cbn in *.
  destruct k; cbn [bool_decide decide_rel] in *.
  - destruct Hr as [[o' ->] [n' ->]]. by destruct s.
  - destruct Hr as [-> [n' ->]]. by destruct s.
  - destruct Hr as [[o' ->] ->]. by destruct s.
Qed.
Lemma unified_lines s rs :
  Forall row_wf rs → omap (navigable s) (unified_row <$> rs) = omap (row_lines s) rs.
Proof. intros Hrs. rewrite omap_of_fmap. eapply omap_Forall; [|exact Hrs]. intros. by apply unified_line. Qed.

Definition two_sided (r : DisplayRow) : Prop := match r with LineRow _ _ u _ => u = false | _ => False end.
Lemma split_two_sided fuel rs : Forall two_sided (split_rows fuel rs).
Proof.
  revert rs. induction fuel as [|fuel IH]; intros rs; [done|]. destruct rs as [|r rs]; [done|].
  cbn [split_rows]. case_bool_decide; [|by constructor].
  destruct (take_kind RowKind.Removed (r :: rs)) as [a b]. destruct (take_kind RowKind.Added b) as [c d].
  apply Forall_app. split; [|done]. unfold beside. by apply Forall_fmap, Forall_true.
Qed.
Lemma split_lines s fuel rs :
  Forall row_wf rs → length rs ≤ fuel → omap (navigable s) (split_rows fuel rs) = omap (row_lines s) rs.
Proof.
  intros Hrs Hf.
  rewrite (omap_Forall two_sided (navigable s) (λ r, cell_line <$> cell r s)); [|..|apply split_two_sided].
  2:{ intros [|[l|] [r|] [] o|]; [done|..|done]; by destruct s. }
  rewrite omap_fmap, split_rows_cells by done. unfold shown. rewrite <- omap_fmap. cbn [shows orb].
  apply (omap_Forall (λ _, True)); [|by apply Forall_true]. intros r _. apply Cell_line.
Qed.

(** The rows of a hunk below its header. *)
Definition body_rows (split : bool) (h : Hunk) : list DisplayRow := drop 1 (hunk_rows split h).
Lemma body_lines split s h :
  hunk_wf h → omap (navigable s) (body_rows split h) = omap (row_lines s) (Patch.rows h).
Proof.
  intros [Hw _ _]. unfold body_rows, hunk_rows. cbn [drop]. rewrite drop_0.
  destruct split; [by apply split_lines|by apply unified_lines].
Qed.
Lemma body_no_header split h : Forall (λ r, is_header r = false) (body_rows split h).
Proof.
  unfold body_rows, hunk_rows. cbn [drop]. rewrite drop_0. destruct split.
  - eapply Forall_impl; [apply split_two_sided|]. by intros [].
  - by apply Forall_fmap, Forall_true.
Qed.
Lemma notices_no_header f : Forall (λ r, is_header r = false) (notices f).
Proof. unfold notices. rewrite !Forall_app. split_and!; by case_bool_decide; repeat constructor. Qed.
Lemma notices_lines s f : omap (navigable s) (notices f) = [].
Proof. unfold notices. rewrite !omap_app. by do 3 destruct (bool_decide _). Qed.

(** Marking words changes neither the lines nor the headers. *)
Lemma decorate_lines s rs w : omap (navigable s) (decorate rs w) = omap (navigable s) rs.
Proof.
  revert w. induction rs as [|r rs IH]; intros w; [done|]. destruct r as [|l r u o|]; cbn; try apply IH.
  destruct l as [l|], r as [r|], s; cbn; by rewrite IH.
Qed.
Lemma decorate_no_header rs w :
  Forall (λ r, is_header r = false) rs → Forall (λ r, is_header r = false) (decorate rs w).
Proof.
  intros Hrs. revert w. induction Hrs as [|r rs Hr _ IH]; intros w; [done|].
  destruct r as [|l r u o|]; cbn; [done| |by constructor].
  destruct (decorate_cell Left l w) as [l' w1]. destruct (decorate_cell Right r w1). by constructor.
Qed.
Lemma decorate_app a b w : ∃ w', decorate (a ++ b) w = decorate a w ++ decorate b w'.
Proof.
  revert w. induction a as [|r a IH]; intros w; [by exists w|].
  destruct r as [|l r u o|]; cbn [decorate app].
  - destruct (IH w) as [w' ->]. by exists w'.
  - destruct (decorate_cell Left l w) as [l' w1]. destruct (decorate_cell Right r w1) as [r' w2].
    destruct (IH w2) as [w' ->]. by exists w'.
  - destruct (IH w) as [w' ->]. by exists w'.
Qed.

(** ** Segments: a hunk with the context loaded around it *)

Record Seg := mkSeg {
  sg_hunk : Hunk; sg_head : DisplayRow; sg_body : list DisplayRow;
  sg_above : list bytes; sg_below : list bytes
}.
Definition n_above (s : Seg) : N := lenN (sg_above s).
Definition n_below (s : Seg) : N := lenN (sg_below s).
Definition h_end (h : Hunk) (s : Side) : N := (side_start h s + side_count h s)%N.

Definition seg_above (split : bool) (s : Seg) : list DisplayRow :=
  context_rows split (old_start (sg_hunk s) - n_above s) (new_start (sg_hunk s) - n_above s) (sg_above s).
Definition seg_below (split : bool) (s : Seg) : list DisplayRow :=
  context_rows split (h_end (sg_hunk s) Left) (h_end (sg_hunk s) Right) (sg_below s).
Definition seg_rows (split : bool) (s : Seg) : list DisplayRow :=
  sg_head s :: seg_above split s ++ sg_body s ++ seg_below split s.

Lemma context_rows_length split a b ls : length (context_rows split a b ls) = length ls.
Proof. revert a b. induction ls as [|t ls IH]; intros a b; cbn; [done|by rewrite IH]. Qed.
Lemma u32_add_small a b : (a + b <= u32_max)%N → u32_add a b = (a + b)%N.
Proof. intros H. unfold u32_add. apply N.mod_small. unfold u32_max in *. lia. Qed.
Lemma context_rows_app split a b ls ls' :
  (a + lenN ls <= u32_max)%N → (b + lenN ls <= u32_max)%N →
  context_rows split a b (ls ++ ls')
  = context_rows split a b ls ++ context_rows split (a + lenN ls) (b + lenN ls) ls'.
Proof.
  revert a b. induction ls as [|t ls IH]; intros a b Ha Hb; cbn [context_rows app].
  { unfold lenN. cbn. by rewrite !N.add_0_r. }
  unfold lenN in *. cbn [length] in *. rewrite !u32_add_small by lia. rewrite IH by lia.
  do 3 f_equal; lia.
Qed.
Lemma context_no_header split a b ls : Forall (λ r, is_header r = false) (context_rows split a b ls).
Proof. revert a b. induction ls as [|t ls IH]; intros a b; by constructor. Qed.
Lemma context_lines split a b ls s :
  (a + lenN ls <= u32_max)%N → (b + lenN ls <= u32_max)%N →
  omap (navigable s) (context_rows split a b ls)
  = zip (range (match s with Left => a | Right => b end) (length ls)) ls.
Proof.
  revert a b. induction ls as [|t ls IH]; intros a b Ha Hb; [done|].
  unfold lenN in *. cbn [length] in *. cbn [context_rows]. rewrite range_cons. cbn [omap list_omap].
  change (list_omap _ _ ?f) with (omap f). rewrite !u32_add_small, IH by lia. by destruct split, s.
Qed.

(** ** Where the headers are *)

Fixpoint seg_starts (split : bool) (base : nat) (segs : list Seg) : list nat :=
  match segs with
  | [] => []
  | s :: segs => base :: seg_starts split (base + length (seg_rows split s)) segs
  end.

Lemma headers_app a b : headers (a ++ b) = headers a ++ ((λ i, length a + i) <$> headers b).
Proof.
  unfold headers. rewrite length_app, seq_app, omap_app, Nat.add_0_l. f_equal.
  - apply (omap_Forall (λ i, i < length a)).
    + intros i Hi. by rewrite lookup_app_l.
    + apply Forall_seq. lia.
  - rewrite <- (Nat.add_0_r (length a)) at 1. rewrite <- fmap_add_seq, omap_of_fmap, <- omap_fmap.
    apply (omap_Forall (λ _, True)); [|by apply Forall_true]. intros i _.
    rewrite lookup_app_r by lia. replace (length a + i - length a) with i by lia.
    destruct (b !! i) as [r|]; [|done]. cbn. by destruct (is_header r).
Qed.
Lemma headers_none l : Forall (λ r, is_header r = false) l → headers l = [].
Proof.
  intros Hl. unfold headers. apply omap_None, Forall_forall. intros i _.
  destruct (l !! i) as [r|] eqn:E; [|done]. cbn. rewrite Forall_lookup in Hl. by rewrite (Hl i r E).
Qed.

(** ** The invariant *)

Context (old_text new_text : list bytes).

Definition seg_ok (s : Seg) : Prop :=
  is_header (sg_head s) = true ∧ Forall (λ r, is_header r = false) (sg_body s) ∧
  (∀ side, omap (navigable side) (sg_body s) = omap (row_lines side) (Patch.rows (sg_hunk s))) ∧
  (n_above s < old_start (sg_hunk s))%N ∧ (n_above s < new_start (sg_hunk s))%N ∧
  lines_of old_text (old_start (sg_hunk s) - n_above s) (n_above s) = sg_above s ∧
  lines_of new_text (new_start (sg_hunk s) - n_above s) (n_above s) = sg_above s ∧
  lines_of old_text (h_end (sg_hunk s) Left) (n_below s) = sg_below s ∧
  lines_of new_text (h_end (sg_hunk s) Right) (n_below s) = sg_below s.

Lemma seg_starts_ge split base segs i x : seg_starts split base segs !! i = Some x → base ≤ x.
Proof.
  revert base i. induction segs as [|s segs IH]; intros base i Hx; [done|].
  destruct i as [|i]; [by injection Hx as <-|]. specialize (IH _ _ Hx). lia.
Qed.
Lemma seg_starts_headers split base segs :
  Forall seg_ok segs → headers (segs ≫= seg_rows split) = (λ i, i - base) <$> seg_starts split base segs.
Proof.
  intros Hs. revert base. induction Hs as [|s segs Hs _ IH]; intros base; [done|].
  rewrite bind_cons, headers_app. cbn [seg_starts]. rewrite fmap_cons, Nat.sub_diag.
  destruct Hs as (Hh & Hb & _).
  assert (headers (seg_rows split s) = [0]) as ->.
  { unfold seg_rows. change (sg_head s :: ?l) with ([sg_head s] ++ l). rewrite headers_app.
    rewrite (headers_none (seg_above split s ++ _)).
    2:{ rewrite !Forall_app. split_and!; [apply context_no_header|done|apply context_no_header]. }
    unfold headers. cbn. by rewrite Hh. }
  cbn [app]. f_equal. rewrite (IH (base + length (seg_rows split s))), <- list_fmap_compose.
  apply list_fmap_ext. intros i x Hx. unfold compose.
  apply seg_starts_ge in Hx. lia.
Qed.

Lemma seg_starts_app split base a b :
  seg_starts split base (a ++ b)
  = seg_starts split base a ++ seg_starts split (base + length (a ≫= seg_rows split)) b.
Proof.
  revert base. induction a as [|s a IH]; intros base; [by rewrite Nat.add_0_r|].
  cbn [app seg_starts]. rewrite IH, bind_cons, length_app. by rewrite Nat.add_assoc.
Qed.
Lemma seg_starts_shift split base k segs :
  seg_starts split (base + k) segs = (λ i, i + k) <$> seg_starts split base segs.
Proof.
  revert base. induction segs as [|s segs IH]; intros base; [done|]. cbn [seg_starts]. rewrite fmap_cons, <- IH.
  f_equal. f_equal. lia.
Qed.
Lemma seg_starts_length split base segs : length (seg_starts split base segs) = length segs.
Proof. revert base. induction segs as [|s segs IH]; intros base; cbn; [done|by rewrite IH]. Qed.

(** What the rows and the headers become when [new] is put at [index] inside or after a
    segment, which becomes [s']. *)
Lemma splice_segment split pre s1 s s' s2 index new (rs := pre ++ ((s1 ++ s :: s2) ≫= seg_rows split)) :
  (∃ a b, seg_rows split s = a ++ b ∧ seg_rows split s' = a ++ new ++ b ∧
          index = length pre + length (s1 ≫= seg_rows split) + length a) →
  take index rs ++ new ++ drop index rs = pre ++ ((s1 ++ s' :: s2) ≫= seg_rows split) ∧
  index ≤ length rs ∧
  let hs := seg_starts split (length pre) (s1 ++ s :: s2) in
  take (length s1 + 1) hs ++ ((λ h, h + length new) <$> drop (length s1 + 1) hs)
  = seg_starts split (length pre) (s1 ++ s' :: s2).
Proof.
  intros (a & b & Hs & Hs' & ->). subst rs. rewrite !bind_app, !bind_cons, Hs, Hs'.
  set (l := pre ++ (s1 ≫= seg_rows split) ++ a).
  assert (pre ++ (s1 ≫= seg_rows split) ++ (a ++ b) ++ (s2 ≫= seg_rows split)
    = l ++ b ++ (s2 ≫= seg_rows split)) as -> by (subst l; by rewrite <- !app_assoc).
  assert (length pre + length (s1 ≫= seg_rows split) + length a = length l) as ->
    by (subst l; rewrite !length_app; lia).
  split; [|split].
  - rewrite take_app_length, drop_app_length. subst l. by rewrite <- !app_assoc.
  - rewrite length_app. lia.
  - cbv zeta. rewrite !seg_starts_app. cbn [seg_starts].
    rewrite cons_middle, !app_assoc, take_app_length', drop_app_length'
      by (rewrite length_app, seg_starts_length; done).
    rewrite <- seg_starts_shift, <- !app_assoc. do 3 f_equal. rewrite Hs, Hs', !length_app. lia.
Qed.

(** ** Lines of a text *)

Lemma lines_of_app text a m n : (1 <= a)%N →
  lines_of text a m ++ lines_of text (a + m) n = lines_of text a (m + n).
Proof.
  intros Ha. unfold lines_of. rewrite N2Nat.inj_add, <- take_take_drop. f_equal. rewrite drop_drop. do 2 f_equal. lia.
Qed.
Lemma lines_of_take text a n : lines_of text a (lenN (lines_of text a n)) = lines_of text a n.
Proof.
  unfold lines_of, lenN. rewrite Nat2N.id, length_take.
  destruct (Nat.le_ge_cases (N.to_nat n) (length (drop (N.to_nat (a - 1)) text))).
  - by rewrite Nat.min_l.
  - rewrite Nat.min_r by done. by rewrite !take_ge by lia.
Qed.
Lemma lines_of_full text a n : (1 <= a)%N → (a + n <= lenN text + 1)%N → lenN (lines_of text a n) = n.
Proof. intros Ha Hn. unfold lines_of, lenN in *. rewrite length_take, length_drop. lia. Qed.
Lemma lines_of_end text a n :
  lenN (lines_of text a n) = n → (n = 0 ∨ a + n <= lenN text + 1 ∨ a = 0)%N.
Proof. unfold lines_of, lenN. rewrite length_take, length_drop. lia. Qed.

Record layout_ok (f : FileChange) (v : Viewport) (pre : list DisplayRow) (segs : list Seg) : Prop := {
  lo_file : file (v_snapshot v) (v_file v) = Some f;
  lo_rows : v_rows v = pre ++ (segs ≫= seg_rows (v_split v));
  lo_pre : Forall (λ r, is_header r = false) pre;
  lo_pre_lines s : omap (navigable s) pre = [];
  lo_segs : Forall seg_ok segs;
  lo_hunks : sg_hunk <$> segs = hunks f;
  lo_headers : header_rows v = seg_starts (v_split v) (length pre) segs;
  lo_expanded i :
    expanded_at (expanded v) i
    = match segs !! i with Some s => (n_above s, n_below s) | None => (0, 0)%N end;
  lo_gap i s1 s2 : segs !! i = Some s1 → segs !! S i = Some s2 → ∀ side,
    (h_end (sg_hunk s1) side + n_below s1 + n_above s2 <= side_start (sg_hunk s2) side)%N
}.

Definition text_of (s : Side) : list bytes := match s with Left => old_text | Right => new_text end.
(** The patch is a difference of the two texts, with lines on both sides of every hunk. *)
Record true_diff (f : FileChange) : Prop := {
  td_wf : file_wf f;
  td_pos h : h ∈ hunks f → (0 < old_count h ∧ 0 < new_count h)%N;
  td_gap i h1 h2 : hunks f !! i = Some h1 → hunks f !! S i = Some h2 →
    (old_start h2 + h_end h1 Right = new_start h2 + h_end h1 Left)%N;
  td_cover h side : h ∈ hunks f → (h_end h side <= lenN (text_of side) + 1)%N;
  td_small side : (lenN (text_of side) <= 2 * 1024 * 1024)%N
}.

(** What a plan for a segment says. *)
Definition plan_ok (segs : list Seg) (h : nat) (o n c : N) (ab : bool) : Prop :=
  ∃ s, segs !! h = Some s ∧ (0 < c)%N ∧
  if ab then
    (0 < o ∧ 0 < n ∧ o + c + n_above s = old_start (sg_hunk s) ∧ n + c + n_above s = new_start (sg_hunk s))%N ∧
    ∀ i s0, h = S i → segs !! i = Some s0 → ∀ side,
      (h_end (sg_hunk s0) side + n_below s0 + n_above s + c <= side_start (sg_hunk s) side)%N
  else
    (o = h_end (sg_hunk s) Left + n_below s ∧ n = h_end (sg_hunk s) Right + n_below s)%N ∧
    ∀ s2, segs !! S h = Some s2 → ∀ side,
      (h_end (sg_hunk s) side + n_below s + c + n_above s2 <= side_start (sg_hunk s2) side)%N.

Section run.
Context (f : FileChange) (Hdiff : true_diff f).

Lemma seg_hunk v pre segs i s :
  layout_ok f v pre segs → segs !! i = Some s → hunks f !! i = Some (sg_hunk s) ∧ sg_hunk s ∈ hunks f.
Proof.
  intros Hl Hi. assert (hunks f !! i = Some (sg_hunk s)) as H.
  { rewrite <- (lo_hunks _ _ _ _ Hl), list_lookup_fmap, Hi. done. }
  split; [done|]. by eapply list_elem_of_lookup_2.
Qed.
Lemma hunk_seg v pre segs i h :
  layout_ok f v pre segs → hunks f !! i = Some h → ∃ s, segs !! i = Some s ∧ sg_hunk s = h.
Proof.
  intros Hl. rewrite <- (lo_hunks _ _ _ _ Hl), list_lookup_fmap. intros (s & -> & H)%fmap_Some. by exists s.
Qed.
Lemma hunk_range h side : h ∈ hunks f → (0 < side_start h side ∧ h_end h side <= u32_max)%N.
Proof.
  intros Hh. pose proof (td_pos _ Hdiff h Hh) as [Ho Hn].
  destruct (td_wf _ Hdiff) as [Hw _ _]. rewrite Forall_forall in Hw.
  destruct (hw_range _ (Hw h Hh) side) as [_ [H|H]]; unfold h_end; destruct side; cbn in *; lia.
Qed.
Lemma below_bound v pre segs i s side :
  layout_ok f v pre segs → segs !! i = Some s →
  (h_end (sg_hunk s) side + n_below s <= u32_max)%N.
Proof.
  intros Hl Hi. destruct (seg_hunk _ _ _ _ _ Hl Hi) as [_ Hin]. pose proof (hunk_range _ side Hin) as [H0 H1].
  pose proof (lo_segs _ _ _ _ Hl) as Hs. rewrite Forall_lookup in Hs.
  destruct (Hs i s Hi) as (_ & _ & _ & _ & _ & _ & _ & Hb1 & Hb2).
  assert (lines_of (text_of side) (h_end (sg_hunk s) side) (n_below s) = sg_below s) as Hb by by destruct side.
  apply (f_equal lenN) in Hb. apply lines_of_end in Hb. pose proof (td_small _ Hdiff side).
  unfold u32_max, h_end, n_below in *. lia.
Qed.

Lemma plan_sound v pre segs row request h o n c :
  layout_ok f v pre segs → plan_for_row v row request = Some (h, o, n, c) →
  plan_ok segs h o n c (above request) ∧ (used (expanded v) + c <= 1009)%N.
Proof.
  intros Hl. unfold plan_for_row. destruct (N.leb_spec CONTEXT_BUDGET (used (expanded v))) as [|Hu]; [done|].
  unfold CONTEXT_BUDGET, CONTEXT_STEP in *.
  set (k := partition_point _ _ - 1). rewrite (lo_file _ _ _ _ Hl). cbn [mbind option_bind].
  destruct (hunks f !! k) as [hk|] eqn:Ek; [|done]. cbn [mbind option_bind].
  destruct (hunk_seg _ _ _ _ _ Hl Ek) as (s & Hs & <-). destruct (_ || _) eqn:Ez; [done|].
  apply orb_false_iff in Ez as [Ez1 Ez2]. apply N.eqb_neq in Ez1, Ez2.
  destruct (seg_hunk _ _ _ _ _ Hl Hs) as [_ Hin].
  rewrite (lo_expanded _ _ _ _ Hl k), Hs.
  pose proof (lo_segs _ _ _ _ Hl) as Hok. rewrite Forall_lookup in Hok.
  destruct (Hok k s Hs) as (_ & _ & _ & Ha1 & Ha2 & _).
  destruct (above request) eqn:Ea.
  - unfold checked_sub. rewrite !(proj2 (N.leb_le _ _)) by lia. cbn [mbind option_bind].
    set (prev := match k with O => 1%N | S i => _ end).
    assert (∀ i s0, k = S i → segs !! i = Some s0 → prev = (h_end (sg_hunk s0) Left + n_below s0)%N) as Hprev.
    { intros i s0 Hki Hi. subst prev. rewrite Hki. destruct (seg_hunk _ _ _ _ _ Hl Hi) as [-> Hin0].
      rewrite (lo_expanded _ _ _ _ Hl i), Hi. cbn [snd]. pose proof (below_bound _ _ _ _ _ Left Hl Hi) as Hb.
      unfold h_end in *. cbn [side_start side_count] in *. rewrite !u32_add_small by (rewrite ?u32_add_small; lia). done. }
    assert (1 <= prev)%N as Hp1.
    { destruct k as [|i] eqn:Eki; [done|].
      assert (is_Some (hunks f !! i)) as [hi Ehi].
      { apply lookup_lt_is_Some_2. apply lookup_lt_Some in Ek. lia. }
      destruct (hunk_seg _ _ _ _ _ Hl Ehi) as (s0 & Hs0 & <-). rewrite (Hprev i s0 eq_refl Hs0).
      destruct (seg_hunk _ _ _ _ _ Hl Hs0) as [_ Hin0]. pose proof (hunk_range _ Left Hin0). unfold h_end. lia. }
    set (gap := N.min (old_start (sg_hunk s) - n_above s - prev) (new_start (sg_hunk s) - n_above s - 1)).
    intros H. assert (c <= gap ∧ 0 < c ∧ c <= N.max (1000 - used (expanded v)) 10 ∧
      (h, o, n) = (k, old_start (sg_hunk s) - n_above s - c, new_start (sg_hunk s) - n_above s - c))%N as (Hc & Hc0 & Hcu & E).
    { revert H. destruct request; cbn [mbind option_bind]; [|discriminate Ea|].
      - destruct (N.ltb_spec 0 (N.min gap 10)); [|done]. intros [= <- <- <- <-]. split_and!; [lia..|done].
      - destruct (N.leb_spec gap 10); [done|]. destruct (N.ltb_spec (1000 - used (expanded v)) gap); [done|].
        cbn [orb mbind option_bind]. destruct (N.ltb_spec 0 gap); [|done]. intros [= <- <- <- <-].
        split_and!; [lia..|done]. }
    injection E as -> -> ->. split; [|lia]. exists s. split; [done|]. split; [done|]. subst gap. split; [lia|].
    intros i s0 Hki Hi side. specialize (Hprev i s0 Hki Hi).
    destruct (seg_hunk _ _ _ _ _ Hl Hi) as [Hhi _]. rewrite Hki in Ek.
    pose proof (td_gap _ Hdiff i _ _ Hhi Ek). destruct side; cbn [side_start]; lia.
  - set (count := match hunks f !! S k with Some _ => _ | None => _ end).
    pose proof (below_bound _ _ _ _ _ Left Hl Hs) as HbL. pose proof (below_bound _ _ _ _ _ Right Hl Hs) as HbR.
    assert (u32_add (u32_add (old_start (sg_hunk s)) (old_count (sg_hunk s))) (n_below s)
      = h_end (sg_hunk s) Left + n_below s)%N as Eo.
    { unfold h_end in *. cbn [side_start side_count] in *. by rewrite !u32_add_small by (rewrite ?u32_add_small; lia). }
    assert (u32_add (u32_add (new_start (sg_hunk s)) (new_count (sg_hunk s))) (n_below s)
      = h_end (sg_hunk s) Right + n_below s)%N as En.
    { unfold h_end in *. cbn [side_start side_count] in *. by rewrite !u32_add_small by (rewrite ?u32_add_small; lia). }
    destruct (N.ltb_spec 0 count) as [Hc0|]; [|done]. intros [= <- <- <- <-].
    assert (count <= 10)%N as Hc10 by (subst count; destruct (hunks f !! S k); lia).
    split; [|lia]. exists s. split; [done|]. split; [done|]. split; [done|]. intros s2 Hs2 side.
    destruct (seg_hunk _ _ _ _ _ Hl Hs2) as [Hh2 _].
    pose proof (lo_gap _ _ _ _ Hl k s s2 Hs Hs2 side) as Hg.
    pose proof (td_gap _ Hdiff k _ _ Ek Hh2) as Htd.
    subst count. rewrite Hh2, (lo_expanded _ _ _ _ Hl (S k)), Hs2 in *. cbn [fst] in *. rewrite Eo in *.
    destruct side; cbn [side_start] in *; lia.
Qed.

(** ** Loading lines keeps the layout *)

Definition total_used (ex : gmap nat (N * N)) : N := map_fold (λ _ p acc, p.1 + p.2 + acc)%N 0%N ex.
Lemma total_insert ex h a b :
  (total_used (<[h := (a, b)]> ex) + ((expanded_at ex h).1 + (expanded_at ex h).2) = total_used ex + (a + b))%N.
Proof.
  assert (∀ m e, m !! h = None → total_used (<[h := e]> m) = (e.1 + e.2 + total_used m)%N) as Hnew.
  { intros m e Hm. unfold total_used. rewrite map_fold_insert_L; [done|intros; cbn; lia|done]. }
  unfold expanded_at. destruct (ex !! h) as [[a0 b0]|] eqn:E; cbn [default Datatypes.id fst snd].
  - rewrite <- (insert_delete_id ex h (a0, b0) E) at 2. rewrite <- insert_delete_eq.
    rewrite !Hnew by apply lookup_delete_eq. cbn [fst snd]. lia.
  - rewrite Hnew by done. cbn [fst snd]. lia.
Qed.

Lemma seg_split (segs : list Seg) h s s' : segs !! h = Some s →
  segs = take h segs ++ s :: drop (S h) segs ∧ <[h := s']> segs = take h segs ++ s' :: drop (S h) segs ∧
  length (take h segs) = h.
Proof.
  intros Hh. pose proof (lookup_lt_Some _ _ _ Hh). split_and!.
  - symmetry. by apply take_drop_middle.
  - by apply insert_take_drop.
  - rewrite length_take. lia.
Qed.

(** The layout after a segment has been replaced. *)
Lemma replace_segment v pre segs h s s' rs hs e :
  layout_ok f v pre segs → segs !! h = Some s → seg_ok s' → sg_hunk s' = sg_hunk s →
  e = (n_above s', n_below s') →
  rs = pre ++ (<[h := s']> segs ≫= seg_rows (v_split v)) →
  hs = seg_starts (v_split v) (length pre) (<[h := s']> segs) →
  (∀ i s0, h = S i → segs !! i = Some s0 → ∀ side,
     (h_end (sg_hunk s0) side + n_below s0 + n_above s' <= side_start (sg_hunk s) side)%N) →
  (∀ s2, segs !! S h = Some s2 → ∀ side,
     (h_end (sg_hunk s) side + n_below s' + n_above s2 <= side_start (sg_hunk s2) side)%N) →
  ∀ v', v_snapshot v' = v_snapshot v → v_file v' = v_file v → v_split v' = v_split v →
    v_rows v' = rs → header_rows v' = hs → expanded v' = <[h := e]> (expanded v) →
    layout_ok f v' pre (<[h := s']> segs).
Proof.
  intros Hl Hh Hs' Hhk -> -> -> Hprev Hnext v' E1 E2 E3 E4 E5 E6.
  pose proof (lookup_lt_Some _ _ _ Hh) as Hlt. destruct Hl as [L1 L2 L3 L4 L5 L6 L7 L8 L9]. constructor.
  - by rewrite E1, E2.
  - by rewrite E4, E3.
  - done.
  - done.
  - by apply Forall_insert.
  - rewrite <- L6, list_fmap_insert, Hhk. apply list_insert_id. by rewrite list_lookup_fmap, Hh.
  - by rewrite E5, E3.
  - intros i. rewrite E6. unfold expanded_at in *. destruct (decide (i = h)) as [->|Hne].
    + by rewrite lookup_insert_eq, list_lookup_insert_eq by done.
    + rewrite lookup_insert_ne, list_lookup_insert_ne by done. apply L8.
  - intros i t1 t2 H1 H2 side. destruct (decide (i = h)) as [->|Hne].
    + rewrite list_lookup_insert_eq in H1 by done. injection H1 as <-.
      rewrite list_lookup_insert_ne in H2 by lia. rewrite Hhk. by apply Hnext.
    + rewrite list_lookup_insert_ne in H1 by done. destruct (decide (S i = h)) as [<-|Hne2].
      * rewrite list_lookup_insert_eq in H2 by done. injection H2 as <-. rewrite Hhk. by apply (Hprev i).
      * rewrite list_lookup_insert_ne in H2 by done. by apply (L9 i).
Qed.

Lemma insert_unfold v h (ab : bool) o n lines header index :
  header_rows v !! h = Some header →
  index = (if ab then header + 1 else default (length (v_rows v)) (header_rows v !! (h + 1))) →
  index ≤ length (v_rows v) → (lenN lines <= u32_max)%N →
  ∃ v', insert_context v h ab o n lines = Some v' ∧
    v_snapshot v' = v_snapshot v ∧ v_file v' = v_file v ∧ v_split v' = v_split v ∧
    v_rows v' = take index (v_rows v) ++ context_rows (v_split v) o n lines ++ drop index (v_rows v) ∧
    header_rows v' = take (h + 1) (header_rows v) ++ ((λ x, x + length lines) <$> drop (h + 1) (header_rows v)) ∧
    expanded v' = <[h := if ab then (u32_add (expanded_at (expanded v) h).1 (lenN lines), (expanded_at (expanded v) h).2)
      else ((expanded_at (expanded v) h).1, u32_add (expanded_at (expanded v) h).2 (lenN lines))]> (expanded v).
Proof.
  intros Hh -> Hi Hn. unfold insert_context. rewrite Hh, (proj2 (Nat.ltb_ge _ _) Hi).
  rewrite N.mod_small by (unfold lenN, u32_max in *; lia). fold (lenN lines).
  destruct (expanded_at (expanded v) h) as [a b]. cbn [fst snd]. destruct v. eexists. split; [reflexivity|]. done.
Qed.

Lemma insert_above_ok v pre segs h o n c lines :
  layout_ok f v pre segs → plan_ok segs h o n c true →
  lines_of old_text o c = lines → lines_of new_text n c = lines →
  ∃ v' segs', insert_context v h true o n lines = Some v' ∧ layout_ok f v' pre segs' ∧
    (total_used (expanded v') <= total_used (expanded v) + c)%N.
Proof.
  intros Hl (s & Hh & Hc0 & (Ho0 & Hn0 & Ho & Hn) & Hprev) Hold Hnew.
  pose proof (lo_segs _ _ _ _ Hl) as Hok. rewrite Forall_lookup in Hok.
  destruct (Hok h s Hh) as (Hhd & Hbody & Hlines & Ha1 & Ha2 & Ho1 & Ho2 & Hb1 & Hb2).
  destruct (seg_hunk _ _ _ _ _ Hl Hh) as [_ Hin].
  pose proof (hunk_range _ Left Hin) as HrL. pose proof (hunk_range _ Right Hin) as HrR.
  assert (lenN lines = c) as Hlen.
  { rewrite <- Hold. apply lines_of_full; [lia|]. pose proof (td_cover _ Hdiff _ Left Hin).
    unfold h_end in *. cbn [side_start text_of] in *. lia. }
  set (s' := mkSeg (sg_hunk s) (sg_head s) (sg_body s) (lines ++ sg_above s) (sg_below s)).
  assert (n_above s' = c + n_above s)%N as Hna by (unfold n_above, lenN in *; cbn [s' sg_above]; rewrite length_app; lia).
  assert (seg_ok s') as Hs'.
  { unfold seg_ok. cbn [s' sg_head sg_body sg_hunk sg_below]. fold s'. rewrite Hna.
    split_and!; [done|done|done|lia|lia| | |exact Hb1|exact Hb2].
    - rewrite <- lines_of_app by lia. replace (old_start (sg_hunk s) - (c + n_above s))%N with o by lia.
      rewrite Hold. replace (o + c)%N with (old_start (sg_hunk s) - n_above s)%N by lia. by rewrite Ho1.
    - rewrite <- lines_of_app by lia. replace (new_start (sg_hunk s) - (c + n_above s))%N with n by lia.
      rewrite Hnew. replace (n + c)%N with (new_start (sg_hunk s) - n_above s)%N by lia. by rewrite Ho2. }
  destruct (seg_split segs h s s' Hh) as (E & E' & Hl1). set (s1 := take h segs) in *. set (s2 := drop (S h) segs) in *.
  set (header := length pre + length (s1 ≫= seg_rows (v_split v))).
  assert (header_rows v !! h = Some header) as Hhr.
  { rewrite (lo_headers _ _ _ _ Hl), E, seg_starts_app. cbn [seg_starts].
    rewrite lookup_app_r by (rewrite seg_starts_length; lia). by rewrite seg_starts_length, Hl1, Nat.sub_diag. }
  destruct (splice_segment (v_split v) pre s1 s s' s2 (header + 1) (context_rows (v_split v) o n lines)) as (R1 & R2 & R3).
  { exists [sg_head s], (seg_above (v_split v) s ++ sg_body s ++ seg_below (v_split v) s).
    split_and!; [done| |done]. unfold seg_rows, seg_above at 1. cbn [s' sg_head sg_body sg_hunk sg_above]. fold s'.
    rewrite Hna. replace (old_start (sg_hunk s) - (c + n_above s))%N with o by lia.
    replace (new_start (sg_hunk s) - (c + n_above s))%N with n by lia.
    unfold h_end in *. cbn [side_start] in *. rewrite context_rows_app by lia. rewrite Hlen.
    unfold seg_above. replace (o + c)%N with (old_start (sg_hunk s) - n_above s)%N by lia.
    replace (n + c)%N with (new_start (sg_hunk s) - n_above s)%N by lia. cbn [app]. by rewrite <- !app_assoc. }
  rewrite <- E in R1, R2, R3. rewrite <- E' in R1, R3. rewrite <- (lo_rows _ _ _ _ Hl) in R1, R2.
  destruct (insert_unfold v h true o n lines header (header + 1) Hhr eq_refl R2) as (v' & Hv' & V1 & V2 & V3 & V4 & V5 & V6).
  { unfold h_end, u32_max in *. cbn [side_start] in *. lia. }
  exists v', (<[h := s']> segs). split; [done|]. rewrite (lo_expanded _ _ _ _ Hl h), Hh in V6. cbn [fst snd] in V6.
  assert (u32_add (n_above s) (lenN lines) = n_above s')%N as Hu.
  { rewrite Hna, u32_add_small by (unfold h_end in *; cbn [side_start] in *; lia). lia. }
  rewrite Hu in V6. split.
  - eapply (replace_segment v pre segs h s s' (v_rows v') (header_rows v') _ Hl Hh Hs' eq_refl eq_refl); try done.
    + rewrite V4. exact R1.
    + rewrite V5, (lo_headers _ _ _ _ Hl). rewrite context_rows_length, Hl1 in R3. exact R3.
    + intros i s0 Hi Hs0 side. specialize (Hprev i s0 Hi Hs0 side). lia.
    + intros t Ht side. exact (lo_gap _ _ _ _ Hl h s t Hh Ht side).
  - rewrite V6. pose proof (total_insert (expanded v) h (n_above s') (n_below s)) as Ht.
    rewrite (lo_expanded _ _ _ _ Hl h), Hh in Ht. cbn [fst snd] in Ht. lia.
Qed.

Lemma insert_below_ok v pre segs h o n c lines :
  layout_ok f v pre segs → plan_ok segs h o n c false →
  lines_of old_text o c = lines → lines_of new_text n c = lines →
  ∃ v' segs', insert_context v h false o n lines = Some v' ∧ layout_ok f v' pre segs' ∧
    (total_used (expanded v') <= total_used (expanded v) + c)%N.
Proof.
  intros Hl (s & Hh & Hc0 & [Ho Hn] & Hnext) Hold Hnew.
  pose proof (lo_segs _ _ _ _ Hl) as Hok. rewrite Forall_lookup in Hok.
  destruct (Hok h s Hh) as (Hhd & Hbody & Hlines & Ha1 & Ha2 & Ho1 & Ho2 & Hb1 & Hb2).
  destruct (seg_hunk _ _ _ _ _ Hl Hh) as [_ Hin].
  pose proof (hunk_range _ Left Hin) as HrL. pose proof (hunk_range _ Right Hin) as HrR.
  assert (lenN lines <= c)%N as Hlen.
  { rewrite <- Hold. unfold lines_of, lenN. rewrite length_take. lia. }
  set (s' := mkSeg (sg_hunk s) (sg_head s) (sg_body s) (sg_above s) (sg_below s ++ lines)).
  assert (n_below s' = n_below s + lenN lines)%N as Hnb
    by (unfold n_below, lenN; cbn [s' sg_below]; rewrite length_app; lia).
  assert (seg_ok s') as Hs'.
  { unfold seg_ok. cbn [s' sg_head sg_body sg_hunk sg_above]. fold s'. change (n_above s') with (n_above s). rewrite Hnb.
    split_and!; try done.
    - rewrite <- lines_of_app by (unfold h_end; lia). rewrite Hb1. cbn [s' sg_below]. f_equal.
      rewrite <- Ho, <- Hold at 1. by rewrite lines_of_take.
    - rewrite <- lines_of_app by (unfold h_end; lia). rewrite Hb2. cbn [s' sg_below]. f_equal.
      rewrite <- Hn, <- Hnew at 1. by rewrite lines_of_take. }
  destruct (seg_split segs h s s' Hh) as (E & E' & Hl1). set (s1 := take h segs) in *. set (s2 := drop (S h) segs) in *.
  set (header := length pre + length (s1 ≫= seg_rows (v_split v))).
  assert (header_rows v !! h = Some header) as Hhr.
  { rewrite (lo_headers _ _ _ _ Hl), E, seg_starts_app. cbn [seg_starts]. 
    rewrite lookup_app_r by (rewrite seg_starts_length; lia). by rewrite seg_starts_length, Hl1, Nat.sub_diag. }
  set (index := header + length (seg_rows (v_split v) s)).
  assert (index = default (length (v_rows v)) (header_rows v !! (h + 1))) as Hindex.
  { rewrite (lo_headers _ _ _ _ Hl), E, seg_starts_app. cbn [seg_starts]. 
    rewrite lookup_app_r by (rewrite seg_starts_length; lia). rewrite seg_starts_length, Hl1.
    replace (h + 1 - h) with 1 by lia. rewrite (lo_rows _ _ _ _ Hl), E, bind_app, bind_cons.  subst index header.
    destruct s2 as [|t s2]; cbn [seg_starts lookup list_lookup default].
    - cbn [mbind list_bind]. rewrite !length_app. cbn [length]. unfold Datatypes.id. lia.
    - cbn. lia. }
  pose proof (below_bound _ _ _ _ _ Left Hl Hh) as HbL. pose proof (below_bound _ _ _ _ _ Right Hl Hh) as HbR.
  destruct (splice_segment (v_split v) pre s1 s s' s2 index (context_rows (v_split v) o n lines)) as (R1 & R2 & R3).
  { exists (seg_rows (v_split v) s), []. split_and!; [by rewrite app_nil_r| |done]. rewrite app_nil_r.
    unfold seg_rows, seg_below at 1. cbn [s' sg_head sg_body sg_hunk sg_below]. fold s'.
    change (seg_above (v_split v) s') with (seg_above (v_split v) s). rewrite context_rows_app by (unfold n_below in *; lia).
    unfold seg_below. fold (n_below s). rewrite <- Ho, <- Hn. cbn [app]. by rewrite <- !app_assoc. }
  rewrite <- E in R1, R2, R3. rewrite <- E' in R1, R3. rewrite <- (lo_rows _ _ _ _ Hl) in R1, R2.
  destruct (insert_unfold v h false o n lines header index Hhr Hindex R2) as (v' & Hv' & V1 & V2 & V3 & V4 & V5 & V6).
  { rewrite <- Hold. pose proof (td_small _ Hdiff Left). cbn [text_of] in *. unfold lines_of, lenN in *.
    rewrite length_take, length_drop. unfold u32_max. lia. }
  exists v', (<[h := s']> segs). split; [done|]. rewrite (lo_expanded _ _ _ _ Hl h), Hh in V6. cbn [fst snd] in V6.
  assert (u32_add (n_below s) (lenN lines) = n_below s')%N as Hu.
  { rewrite Hnb. apply u32_add_small. rewrite <- Hnb. destruct Hs' as (_ & _ & _ & _ & _ & _ & _ & Hb & _).
    apply (f_equal lenN) in Hb. apply lines_of_end in Hb. pose proof (td_small _ Hdiff Left).
    unfold n_below, u32_max, h_end in *. cbn [text_of s' sg_hunk side_start] in *. lia. }
  rewrite Hu in V6. split.
  - eapply (replace_segment v pre segs h s s' (v_rows v') (header_rows v') _ Hl Hh Hs' eq_refl eq_refl); try done.
    + rewrite V4. exact R1.
    + rewrite V5, (lo_headers _ _ _ _ Hl). rewrite context_rows_length, Hl1 in R3. exact R3.
    + intros i s0 Hi Hs0 side. rewrite Hi in Hh. exact (lo_gap _ _ _ _ Hl i s0 s Hs0 Hh side).
    + intros t Ht side. specialize (Hnext t Ht side). lia.
  - rewrite V6. pose proof (total_insert (expanded v) h (n_above s) (n_below s')) as Ht.
    rewrite (lo_expanded _ _ _ _ Hl h), Hh in Ht. cbn [fst snd] in Ht. lia.
Qed.

(** ** The first layout *)

Lemma side_gap i h1 h2 side :
  hunks f !! i = Some h1 → hunks f !! S i = Some h2 → (h_end h1 side <= side_start h2 side)%N.
Proof.
  intros H1 H2. destruct (td_wf _ Hdiff) as [_ Ho _]. pose proof (Ho i h1 h2 H1 H2 side) as Hb.
  pose proof (hunk_range h1 side ltac:(by eapply list_elem_of_lookup_2)) as Hr.
  unfold u32_saturating_add, h_end in *. lia.
Qed.

Lemma rows_segments split :
  hunks f ≠ [] → ∃ pre segs, Presentation.rows f split = pre ++ (segs ≫= seg_rows split) ∧
    Forall (λ r, is_header r = false) pre ∧ (∀ s, omap (navigable s) pre = []) ∧
    Forall seg_ok segs ∧ sg_hunk <$> segs = hunks f ∧ Forall (λ s, sg_above s = [] ∧ sg_below s = []) segs.
Proof.
  intros Hne. unfold Presentation.rows. rewrite bool_decide_false by done.
  destruct (decorate_app (notices f) (concat (hunk_rows split <$> hunks f)) (mark_hunks (hunks f))) as [w ->].
  exists (decorate (notices f) (mark_hunks (hunks f))).
  assert (∀ hs w, (∀ h, h ∈ hs → h ∈ hunks f) → ∃ segs, decorate (concat (hunk_rows split <$> hs)) w = segs ≫= seg_rows split ∧
    Forall seg_ok segs ∧ sg_hunk <$> segs = hs ∧ Forall (λ s, sg_above s = [] ∧ sg_below s = []) segs) as H.
  { clear w. induction hs as [|h hs IH]; intros w Hhs; [by exists []|]. rewrite fmap_cons. cbn [concat].
    assert (hunk_rows split h = hunk_label h :: body_rows split h) as -> by (unfold body_rows; cbn; by rewrite drop_0).
    cbn [app]. unfold hunk_label at 1. cbn [decorate].
    destruct (decorate_app (body_rows split h) (concat (hunk_rows split <$> hs)) w) as [w' ->].
    destruct (IH w') as (segs & -> & Hs & Hh & Hempty); [intros; apply Hhs; by right|].
    set (s := mkSeg h (hunk_label h) (decorate (body_rows split h) w) [] []).
    exists (s :: segs). assert (h ∈ hunks f) as Hin by (apply Hhs; by left).
    destruct (td_wf _ Hdiff) as [Hw _ _]. rewrite Forall_forall in Hw.
    pose proof (hunk_range h Left Hin). pose proof (hunk_range h Right Hin).
    split_and!.
    - rewrite bind_cons.
      assert (seg_rows split s = hunk_label h :: decorate (body_rows split h) w) as ->; [|done].
      unfold seg_rows, seg_above, seg_below. cbn [s sg_head sg_above sg_body sg_below context_rows app].
      by rewrite app_nil_r.
    - constructor; [|done]. unfold seg_ok, n_above, n_below, lenN, lines_of. cbn [s sg_head sg_above sg_body sg_below sg_hunk length].
      cbn [side_start] in *. split_and!; try (done || lia).
      + apply decorate_no_header, body_no_header.
      + intros side. rewrite decorate_lines. apply body_lines. by apply Hw.
    - rewrite fmap_cons. by rewrite Hh.
    - by constructor. }
  destruct (H (hunks f) w ltac:(done)) as (segs & -> & Hs & Hh & He). exists segs. split_and!; try done.
  - apply decorate_no_header, notices_no_header.
  - intros s. rewrite decorate_lines. apply notices_lines.
Qed.

Lemma layout_fresh v :
  file (v_snapshot v) (v_file v) = Some f → v_rows v = Presentation.rows f (v_split v) →
  header_rows v = headers (v_rows v) → expanded v = ∅ → ∃ pre segs, layout_ok f v pre segs.
Proof.
  intros Hf Hr Hh He.
  assert (∀ i, expanded_at ∅ i = (0, 0)%N) as Hex by done.
  destruct (decide (hunks f = [])) as [E|E].
  - exists (notices f), []. unfold Presentation.rows in Hr. rewrite bool_decide_true in Hr by done.
    constructor; try done; rewrite ?He, ?E; try done.
    + cbn. by rewrite app_nil_r.
    + apply notices_no_header.
    + intros s. apply notices_lines.
    + rewrite Hh, Hr. apply headers_none, notices_no_header.
  - destruct (rows_segments (v_split v) E) as (pre & segs & R & Hp & Hpl & Hs & Hhk & Hempty).
    exists pre, segs. rewrite Forall_lookup in Hempty.
    assert (∀ i s, segs !! i = Some s → n_above s = 0%N ∧ n_below s = 0%N) as Hz.
    { intros i s Hi. destruct (Hempty i s Hi) as [Ea Eb]. unfold n_above, n_below. by rewrite Ea, Eb. }
    constructor; try done.
    + by rewrite Hr.
    + rewrite Hh, Hr, R, headers_app, (headers_none pre) by done.
      rewrite (seg_starts_headers _ (length pre)) by done. rewrite <- list_fmap_compose.
      rewrite <- (list_fmap_id (seg_starts _ _ _)) at 2. apply list_fmap_ext. intros i x Hx. unfold compose, Datatypes.id.
      apply seg_starts_ge in Hx. lia.
    + intros i. rewrite He, Hex. destruct (segs !! i) as [s|] eqn:Ei; [|done]. by destruct (Hz i s Ei) as [-> ->].
    + intros i s1 s2 H1 H2 side. destruct (Hz _ _ H1) as [_ ->]. destruct (Hz _ _ H2) as [-> _].
      assert (∀ j s, segs !! j = Some s → hunks f !! j = Some (sg_hunk s)) as Hj
        by (intros j s Hj; by rewrite <- Hhk, list_lookup_fmap, Hj).
      pose proof (side_gap i _ _ side (Hj _ _ H1) (Hj _ _ H2)). lia.
Qed.

(** ** Events *)

(** What the layout depends on. *)
Definition same_rows (v v' : Viewport) : Prop :=
  v_snapshot v' = v_snapshot v ∧ v_file v' = v_file v ∧ v_rows v' = v_rows v ∧ v_split v' = v_split v ∧
  header_rows v' = header_rows v ∧ expanded v' = expanded v.
Lemma layout_same v v' pre segs : same_rows v v' → layout_ok f v pre segs → layout_ok f v' pre segs.
Proof.
  intros (E1 & E2 & E3 & E4 & E5 & E6) [L1 L2 L3 L4 L5 L6 L7 L8 L9].
  constructor; rewrite ?E1, ?E2, ?E3, ?E4, ?E5, ?E6; done.
Qed.
Lemma next_hunk_same v forward : same_rows v (next_hunk v forward).1.
Proof. unfold next_hunk. destruct v. by destruct (_ ≫= _) as [[i t]|]. Qed.
Lemma reveal_same v p : same_rows v (reveal v p).
Proof. unfold reveal. destruct v. by destruct (_ || _). Qed.
Lemma move_same `{Graphemes} `{GraphemeCursor} v m extend visible : same_rows v (move_selection v m extend visible).
Proof.
  unfold move_selection. destruct (motion_end v m) as [e|]; [|by destruct v].
  set (v1 := set_selection v _). assert (same_rows v v1) as H1 by by destruct v.
  destruct (visible e); [done|]. destruct (reveal_same v1 e) as (A1 & A2 & A3 & A4 & A5 & A6).
  destruct H1 as (B1 & B2 & B3 & B4 & B5 & B6). unfold same_rows. split_and!; congruence.
Qed.
Lemma configure_layout v split wrap font pre segs :
  layout_ok f v pre segs → ∃ pre' segs', layout_ok f (configure v split wrap font) pre' segs' ∧
    (split = v_split v → pre' = pre ∧ segs' = segs ∧ expanded (configure v split wrap font) = expanded v) ∧
    (total_used (expanded (configure v split wrap font)) <= total_used (expanded v))%N.
Proof.
  intros Hl. unfold configure. set (fo := default _ _). destruct (_ && _).
  { exists pre, segs. done. }
  destruct (decide (split = v_split v)) as [->|Hne].
  - rewrite bool_decide_true by done. cbn [negb]. exists pre, segs. split; [|by destruct v].
    eapply layout_same; [|exact Hl]. by destruct v.
  - rewrite bool_decide_false by done. cbn [negb]. set (v' := set_layout _ _ _ _ _ _).
    assert (v_snapshot v' = v_snapshot v ∧ v_file v' = v_file v ∧ v_split v' = split ∧ expanded v' = ∅ ∧
      v_rows v' = file_rows (v_snapshot v) (v_file v) split ∧ header_rows v' = headers (v_rows v')) as (E1 & E2 & E3 & E4 & E5 & E6)
      by by destruct v.
    destruct (layout_fresh v') as (pre' & segs' & Hl').
    + rewrite E1, E2. apply (lo_file _ _ _ _ Hl).
    + rewrite E5, E3. unfold file_rows. by rewrite (lo_file _ _ _ _ Hl).
    + done.
    + done.
    + exists pre', segs'. split; [done|]. split; [done|]. rewrite E4. unfold total_used at 1. rewrite map_fold_empty. lia.
Qed.

Definition reader_ok (r : Reader) : Prop :=
  ∃ pre segs, layout_ok f (view r) pre segs ∧ (total_used (expanded (view r)) <= 1009)%N ∧
  match context_busy r with
  | None => True
  | Some p => plan_ok segs (p_hunk p) (p_old p) (p_new p) (p_count p) (p_above p) ∧
              (total_used (expanded (view r)) + p_count p <= 1009)%N
  end.

(** The view is not switched between one and two columns while lines are being fetched. *)
Definition calm (r : Reader) (e : ReaderEvent) : Prop :=
  match e with
  | Configure split _ _ => context_busy r = None ∨ split = v_split (view r)
  | _ => True
  end.
Context {graphemes_ : Graphemes} {cursor_ : GraphemeCursor}.
Fixpoint calm_run (r : Reader) (es : list ReaderEvent) : Prop :=
  match es with
  | [] => True
  | e :: es => calm r e ∧ match reader_event old_text new_text r e with
                          | Some r' => calm_run r' es
                          | None => True
                          end
  end.

Lemma reader_same r v' : reader_ok r → same_rows (view r) v' → reader_ok (mkReader v' (context_busy r)).
Proof.
  intros (pre & segs & Hl & Hu & Hp) Hs. exists pre, segs. cbn [view context_busy].
  split; [by eapply layout_same|]. destruct Hs as (_ & _ & _ & _ & _ & ->). done.
Qed.

Lemma event_ok r e : reader_ok r → calm r e → ∃ r', reader_event old_text new_text r e = Some r' ∧ reader_ok r'.
Proof.
  intros Hok Hcalm. destruct e as [request|ok|split wrap font|target cu|forward|m extend visible]; cbn [reader_event].
  - eexists. split; [reflexivity|]. unfold expand_context. destruct (context_busy r) as [p|] eqn:Eb; [by unfold reader_ok; rewrite Eb; destruct Hok as (? & ? & ? & ? & ?); rewrite Eb in *; eauto|].
    destruct (context_plan (view r) request) as [[[[h o] n] c]|] eqn:Ep; [|by cbn; unfold reader_ok in *; rewrite Eb in *].
    cbn [mbind option_bind]. destruct (remote _); [|by cbn; unfold reader_ok in *; rewrite Eb in *]. cbn [mbind option_bind].
    destruct (file _ _); [|by cbn; unfold reader_ok in *; rewrite Eb in *]. cbn [mbind option_bind].
    destruct (both_paths _); [|by cbn; unfold reader_ok in *; rewrite Eb in *]. cbn [mbind option_bind].
    destruct Hok as (pre & segs & Hl & Hu & _). exists pre, segs. cbn [view context_busy p_hunk p_above p_old p_new p_count].
    destruct (plan_sound _ _ _ _ _ _ _ _ _ Hl Ep) as [Hp Hub]. split_and!; [done..|].
    unfold used in Hub. fold (total_used (expanded (view r))) in Hub. rewrite N.mod_small in Hub by (unfold u32_max; lia). done.
  - unfold context_answer. destruct (context_busy r) as [p|] eqn:Eb; [|by exists r].
    destruct Hok as (pre & segs & Hl & Hu & Hp). rewrite Eb in Hp. destruct Hp as [Hp Hub].
    assert (∃ r', Some (mkReader (view r) None) = Some r' ∧ reader_ok r') as Hdrop.
    { eexists. split; [reflexivity|]. exists pre, segs. done. }
    destruct ok; cbn [mbind option_bind]; [|exact Hdrop].
    case_bool_decide as Heq; [|exact Hdrop]. cbn [negb].
    assert (∃ v' segs', insert_context (view r) (p_hunk p) (p_above p) (p_old p) (p_new p)
        (lines_of new_text (p_new p) (p_count p)) = Some v' ∧ layout_ok f v' pre segs' ∧
        (total_used (expanded v') <= total_used (expanded (view r)) + p_count p)%N) as (v' & segs' & -> & Hl' & Hu').
    { destruct (p_above p); [by eapply insert_above_ok|by eapply insert_below_ok]. }
    cbn [mbind option_bind]. eexists. split; [reflexivity|]. exists pre, segs'. split; [done|]. split; [|done]. cbn [view]. lia.
  - eexists. split; [reflexivity|]. destruct Hok as (pre & segs & Hl & Hu & Hp).
    destruct (configure_layout _ split wrap font _ _ Hl) as (pre' & segs' & Hl' & Hsame & Hu').
    exists pre', segs'. cbn [view context_busy]. split; [done|]. split; [lia|].
    destruct (context_busy r) as [p|] eqn:Eb; [|done]. destruct Hcalm as [|Hc]; [congruence|].
    destruct (Hsame Hc) as (-> & -> & ->). done.
  - eexists. split; [reflexivity|]. apply reader_same; [done|]. by destruct (view r).
  - eexists. split; [reflexivity|]. apply reader_same; [done|apply next_hunk_same].
  - eexists. split; [reflexivity|]. apply reader_same; [done|apply move_same].
Qed.

Lemma run_ok r es : reader_ok r → calm_run r es → ∃ r', reader_run old_text new_text r es = Some r' ∧ reader_ok r'.
Proof.
  revert r. induction es as [|e es IH]; intros r Hok Hc; [by exists r|]. cbn [reader_run calm_run] in *.
  destruct Hc as [Hc1 Hc2]. destruct (event_ok r e Hok Hc1) as (r' & Hr & Hok'). rewrite Hr in *.
  by apply IH.
Qed.

(** ** What a layout shows *)

Definition shown_lines (s : Side) (v : Viewport) : list (N * bytes) := omap (navigable s) (v_rows v).

Definition seg_lines (side : Side) (s : Seg) : list (N * bytes) :=
  zip (range (side_start (sg_hunk s) side - n_above s) (length (sg_above s))) (sg_above s)
  ++ omap (row_lines side) (Patch.rows (sg_hunk s))
  ++ zip (range (h_end (sg_hunk s) side) (length (sg_below s))) (sg_below s).
Lemma seg_shows v pre segs i s side :
  layout_ok f v pre segs → segs !! i = Some s → omap (navigable side) (seg_rows (v_split v) s) = seg_lines side s.
Proof.
  intros Hl Hi. pose proof (lo_segs _ _ _ _ Hl) as Hok. rewrite Forall_lookup in Hok.
  destruct (Hok i s Hi) as (Hhd & _ & Hlines & Ha1 & Ha2 & _).
  destruct (seg_hunk _ _ _ _ _ Hl Hi) as [_ Hin].
  pose proof (hunk_range _ Left Hin) as HrL. pose proof (hunk_range _ Right Hin) as HrR.
  pose proof (below_bound _ _ _ _ _ Left Hl Hi). pose proof (below_bound _ _ _ _ _ Right Hl Hi).
  unfold seg_rows, seg_lines. cbn [omap list_omap]. change (list_omap _ _ ?g) with (omap g).
  assert (navigable side (sg_head s) = None) as -> by by destruct (sg_head s).
  rewrite !omap_app, Hlines. unfold seg_above, seg_below.
  unfold n_below, h_end in *. cbn [side_start side_count] in *.
  rewrite !context_lines by (unfold n_above in *; lia). by destruct side.
Qed.
Lemma layout_shows v pre segs side :
  layout_ok f v pre segs → shown_lines side v = segs ≫= seg_lines side.
Proof.
  intros Hl. unfold shown_lines. rewrite (lo_rows _ _ _ _ Hl), omap_app, (lo_pre_lines _ _ _ _ Hl). cbn [app].
  assert (∀ i s, segs !! i = Some s → omap (navigable side) (seg_rows (v_split v) s) = seg_lines side s) as H
    by (intros; by eapply seg_shows).
  clear Hl. induction segs as [|s segs IH]; [done|]. rewrite !bind_cons, omap_app.
  rewrite (H 0 s eq_refl), IH; [done|]. intros i t Hi. by apply (H (S i)).
Qed.

Lemma fst_zip_range a n (l : list bytes) : length l = n → (zip (range a n) l).*1 = range a n.
Proof. intros <-. apply fst_zip. unfold range. by rewrite length_fmap, length_seq. Qed.
Lemma range_app a m n : range a (m + n) = range a m ++ range (a + N.of_nat m) n.
Proof.
  induction m as [|m IH] in a |- *; [cbn; by rewrite N.add_0_r|]. cbn [Nat.add]. rewrite !range_cons, IH. cbn [app].
  do 3 f_equal. lia.
Qed.
Lemma row_lines_numbers side rs : (omap (row_lines side) rs).*1 = side_numbers side rs.
Proof.
  unfold side_numbers. rewrite <- omap_fmap. apply (omap_Forall (λ _, True)); [|by apply Forall_true].
  intros r _. unfold row_lines. by destruct (row_number r side).
Qed.
(** The numbers a segment shows are one interval. *)
Definition seg_first (side : Side) (s : Seg) : N := side_start (sg_hunk s) side - n_above s.
Lemma seg_numbers v pre segs i s side :
  layout_ok f v pre segs → segs !! i = Some s →
  (seg_lines side s).*1 = range (seg_first side s)
    (length (sg_above s) + (N.to_nat (side_count (sg_hunk s) side) + length (sg_below s))).
Proof.
  intros Hl Hi. pose proof (lo_segs _ _ _ _ Hl) as Hok. rewrite Forall_lookup in Hok.
  destruct (Hok i s Hi) as (_ & _ & _ & Ha1 & Ha2 & _). destruct (seg_hunk _ _ _ _ _ Hl Hi) as [_ Hin].
  destruct (td_wf _ Hdiff) as [Hw _ _]. rewrite Forall_forall in Hw.
  unfold seg_lines. rewrite !fmap_app, !fst_zip_range, row_lines_numbers, (hw_numbers _ (Hw _ Hin)) by done.
  unfold seg_first. rewrite !range_app. unfold n_above, lenN, h_end in *.
  repeat f_equal; destruct side; cbn [side_start] in *; lia.
Qed.
Lemma range_ssorted a n : StronglySorted N.lt (range a n).
Proof.
  induction n as [|n IH] in a |- *; [constructor|]. rewrite range_cons. constructor; [done|].
  apply Forall_forall. intros x Hx%range_elem. lia.
Qed.

Lemma segments_sorted v pre segs side :
  layout_ok f v pre segs → StronglySorted N.lt (segs ≫= seg_lines side).*1.
Proof.
  intros Hl.
  assert (∀ i s, segs !! i = Some s → (seg_lines side s).*1 = range (seg_first side s)
    (length (sg_above s) + (N.to_nat (side_count (sg_hunk s) side) + length (sg_below s))) ∧
    (n_above s <= side_start (sg_hunk s) side)%N) as Hn.
  { intros i s Hi. split; [by eapply seg_numbers|]. pose proof (lo_segs _ _ _ _ Hl) as Hok. rewrite Forall_lookup in Hok.
    destruct (Hok i s Hi) as (_ & _ & _ & Ha1 & Ha2 & _). destruct side; cbn [side_start]; lia. }
  pose proof (λ i s1 s2 H1 H2, lo_gap _ _ _ _ Hl i s1 s2 H1 H2 side) as Hgap. clear Hl.
  assert (StronglySorted N.lt (segs ≫= seg_lines side).*1 ∧
    ∀ s x, hd_error segs = Some s → x ∈ (segs ≫= seg_lines side).*1 → (seg_first side s <= x)%N) as [H _]; [|done].
  induction segs as [|s segs IH]; [split; [constructor|done]|]. rewrite bind_cons, fmap_app.
  destruct (Hn 0 s eq_refl) as [-> Ha].
  destruct IH as [IH1 IH2]; [intros i t Ht; by apply (Hn (S i))|intros i s1 s2 H1 H2; by apply (Hgap (S i))|].
  assert (∀ x y, x ∈ range (seg_first side s) (length (sg_above s) + (N.to_nat (side_count (sg_hunk s) side) + length (sg_below s))) →
    y ∈ (segs ≫= seg_lines side).*1 → (x < y)%N) as Hlt.
  { intros x y Hx%range_elem Hy. destruct segs as [|t segs]; [by apply not_elem_of_nil in Hy|].
    specialize (IH2 t y eq_refl Hy). specialize (Hgap 0 s t eq_refl eq_refl).
    destruct (Hn 1 t eq_refl) as [_ Hat]. unfold seg_first, h_end, n_above, n_below, lenN in *. lia. }
  split.
  - apply StronglySorted_app_2; first [exact Hlt|exact IH1|apply range_ssorted].
  - intros s0 x [= <-] [Hx|Hx]%elem_of_app; [by apply range_elem in Hx as [? _]|].
    destruct segs as [|t segs]; [by apply not_elem_of_nil in Hx|]. specialize (IH2 t x eq_refl Hx).
    specialize (Hgap 0 s t eq_refl eq_refl). destruct (Hn 1 t eq_refl) as [_ Hat].
    unfold seg_first, h_end, n_above, n_below, lenN in *. lia.
Qed.

Lemma zip_range_text text a (l : list bytes) n x :
  (1 <= a)%N → lines_of text a (lenN l) = l → (n, x) ∈ zip (range a (length l)) l →
  text !! N.to_nat (n - 1) = Some x.
Proof.
  intros Ha Hl [i Hi]%list_elem_of_lookup. apply lookup_zip_Some in Hi as [H1 H2]. cbn in *.
  unfold range in H1. rewrite list_lookup_fmap in H1. apply fmap_Some in H1 as (k & Hk & ->).
  apply lookup_seq in Hk as [-> Hlt]. rewrite <- Hl in H2. unfold lines_of in H2.
  rewrite lookup_take in H2. destruct (decide _); [|done]. rewrite lookup_drop in H2.
  rewrite <- H2. f_equal. lia.
Qed.

Lemma shown_text v pre segs side n t :
  layout_ok f v pre segs → (n, t) ∈ shown_lines side v →
  (∃ r, line f side n = Some r ∧ row_text r = t) ∨ text_of side !! N.to_nat (n - 1) = Some t.
Proof.
  intros Hl. rewrite (layout_shows _ _ _ _ Hl). intros (s & Hx & [i Hi]%list_elem_of_lookup)%list_elem_of_bind.
  pose proof (lo_segs _ _ _ _ Hl) as Hok. rewrite Forall_lookup in Hok.
  destruct (Hok i s Hi) as (_ & _ & _ & Ha1 & Ha2 & Ho1 & Ho2 & Hb1 & Hb2).
  destruct (seg_hunk _ _ _ _ _ Hl Hi) as [_ Hin]. pose proof (hunk_range _ side Hin) as Hr.
  unfold seg_lines in Hx. rewrite !elem_of_app in Hx. destruct Hx as [Hx|[Hx|Hx]].
  - right. eapply zip_range_text; [| |exact Hx]; destruct side; cbn [side_start text_of] in *; try lia; done.
  - left. apply list_elem_of_omap in Hx as (r & Hr' & Hrl). unfold row_lines in Hrl.
    destruct (row_number r side) as [m|] eqn:En; [|done]. injection Hrl as <- <-. exists r. split; [|done].
    apply line_exact; [apply Hdiff| |done]. unfold all_rows. apply list_elem_of_bind. by exists (sg_hunk s).
  - right. eapply zip_range_text; [| |exact Hx]; unfold h_end in *; destruct side; cbn [side_start text_of] in *; try lia; done.
Qed.
Lemma shown_all v pre segs side n r :
  layout_ok f v pre segs → line f side n = Some r → (n, row_text r) ∈ shown_lines side v.
Proof.
  intros Hl Hline. rewrite (layout_shows _ _ _ _ Hl). unfold line in Hline.
  assert (r ∈ all_rows f ∧ row_number r side = Some n) as [Hr Hn].
  { clear -Hline. induction (all_rows f) as [|x l IH]; [done|]. cbn [find_map] in Hline.
    case_bool_decide as Hx; [injection Hline as ->; split; [left|done]|].
    destruct (IH Hline). split; [by right|done]. }
  unfold all_rows in Hr. apply list_elem_of_bind in Hr as (h & Hr & Hh).
  rewrite <- (lo_hunks _ _ _ _ Hl) in Hh. apply list_elem_of_fmap in Hh as (s & -> & Hs).
  apply list_elem_of_bind. exists s. split; [|done]. unfold seg_lines. rewrite !elem_of_app. right. left.
  apply list_elem_of_omap. exists r. split; [done|]. unfold row_lines. by rewrite Hn.
Qed.
End run.
End facts.

(** ** The theorem *)

(** C28: Context is expanded faithfully. From a fresh view of a file whose patch is a difference of
    the two texts, any sequence of requests, answers, failures, jumps, motions and changes of
    the layout that does not switch the columns while lines are being fetched never panics,
    and afterwards on each side the shown line numbers strictly increase, so that no line is
    shown twice; every line of the patch is shown; every other shown line is the line of that
    number in the text; the header positions are those of the rows; and at most nine lines
    over the budget were loaded. *)
Theorem context_expands_faithfully `{CharClass} `{Graphemes} `{GraphemeCursor}
    old_text new_text s fid f split wrap font anchor es :
  file s fid = Some f → true_diff old_text new_text f →
  calm_run old_text new_text (mkReader (Viewport_new s fid split wrap font anchor) None) es →
  ∃ r, reader_run old_text new_text (mkReader (Viewport_new s fid split wrap font anchor) None) es = Some r ∧
  let v := view r in
  (∀ side, StronglySorted N.lt (shown_lines side v).*1) ∧
  (∀ side n row, line f side n = Some row → (n, row_text row) ∈ shown_lines side v) ∧
  (∀ side n t, (n, t) ∈ shown_lines side v →
     (∃ row, line f side n = Some row ∧ row_text row = t)
     ∨ text_of old_text new_text side !! N.to_nat (n - 1) = Some t) ∧
  header_rows v = headers (v_rows v) ∧
  (total_used (expanded v) <= CONTEXT_BUDGET + CONTEXT_STEP - 1)%N.
Proof.
  intros Hf Hd Hc. set (v0 := Viewport_new s fid split wrap font anchor) in *.
  assert (reader_ok old_text new_text f (mkReader v0 None)) as Hok.
  { destruct (layout_fresh old_text new_text f Hd v0) as (pre & segs & Hl); [done| |done..|].
    { cbn. unfold file_rows. by rewrite Hf. }
    exists pre, segs. cbn [view context_busy]. split; [done|]. split; [|done].
    cbn [v0 Viewport_new expanded]. unfold total_used. rewrite map_fold_empty. lia. }
  destruct (run_ok old_text new_text f Hd _ es Hok Hc) as (r & Hr & pre & segs & Hl & Hu & _).
  exists r. split; [done|]. cbv zeta. split_and!.
  - intros side. rewrite (layout_shows _ _ _ Hd _ _ _ _ Hl). by eapply segments_sorted.
  - intros side n row. by eapply shown_all.
  - intros side n t. by eapply shown_text.
  - rewrite (lo_headers _ _ _ _ _ _ Hl), (lo_rows _ _ _ _ _ _ Hl), headers_app.
    rewrite (headers_none pre), (seg_starts_headers old_text new_text _ (length pre)) by (apply Hl).
    rewrite <- list_fmap_compose. cbn [app]. rewrite <- (list_fmap_id (seg_starts _ _ _)) at 1.
    apply list_fmap_ext. intros i x Hx. unfold compose, Datatypes.id.
    apply seg_starts_ge in Hx. lia.
  - exact Hu.
Qed.

(** ** Motions *)

Section motions.
Context {class_ : CharClass} {graphemes_ : Graphemes} {cursor_ : GraphemeCursor}.
(** Grapheme boundaries are boundaries of characters. *)
Context (Hprev : ∀ t i j, prev_boundary t i = Some j → is_char_boundary t j = true).

Lemma source_lines f split side :
  file_wf f → omap (navigable side) (Presentation.rows f split) = omap (row_lines side) (all_rows f).
Proof.
  intros [Hw _ _]. unfold Presentation.rows, all_rows. case_bool_decide as He; [by rewrite He, notices_lines|].
  rewrite decorate_lines, omap_app, notices_lines. cbn [app]. clear He.
  induction Hw as [|h hs Hh _ IH]; [done|]. rewrite fmap_cons, bind_cons. cbn [concat]. rewrite !omap_app. f_equal; [|exact IH].
  rewrite <- (body_lines split) by done. unfold body_rows. cbn. by rewrite drop_0.
Qed.

Lemma boundary_0 t : is_char_boundary t 0 = true.
Proof. by destruct t. Qed.
Lemma floor_boundary t i : is_char_boundary t (floor_char_boundary t i) = true.
Proof.
  induction i as [|i IH]; cbn [floor_char_boundary]; [by destruct (is_char_boundary t 0)|].
  by destruct (is_char_boundary t (S i)) eqn:E.
Qed.
Lemma snap_boundary t i : is_char_boundary t (snap_grapheme t i) = true.
Proof.
  unfold snap_grapheme. destruct (Nat.leb_spec (length t) i).
  - unfold is_char_boundary. destruct (length t) as [|n] eqn:E; [done|].
    by rewrite lookup_ge_None_2, Nat.eqb_refl by lia.
  - destruct (is_grapheme_boundary _ _); [apply floor_boundary|].
    destruct (prev_boundary _ _) as [j|] eqn:E; [by eapply Hprev|apply boundary_0].
Qed.

Lemma moved_bound cells at_ column m :
  at_ < length cells → (moved cells at_ column m).1 < length cells.
Proof.
  intros H. destruct m; cbn [moved fst]; try lia.
  - destruct (_ && _); cbn [fst]; lia.
  - destruct (Nat.leb_spec (width_at cells at_) column); cbn [andb fst]; [|done].
    destruct (Nat.ltb_spec (at_ + 1) (length cells)); cbn [fst]; lia.
Qed.

(** The shown line, of [n], that a motion from the shown line [i] with the caret at [column]
    of [width] bytes leads to. *)
Definition motion_line (m : Motion) (n i column width : nat) : nat :=
  match m with
  | Up => i - 1
  | Down => if (i + 1 <? n)%nat then i + 1 else i
  | Home | End_ => i
  | First => 0
  | Last => n - 1
  | MoveLeft => if (column =? 0)%nat then i - 1 else i
  | MoveRight => if (width <=? column)%nat && (i + 1 <? n)%nat then i + 1 else i
  end.

Lemma moved_line cells i column m :
  i < length cells →
  (moved cells i column m).1 = motion_line m (length cells) i column (width_at cells i).
Proof.
  intros H. destruct m; cbn [moved motion_line fst]; try done.
  - destruct (Nat.ltb_spec (i + 1) (length cells)); lia.
  - destruct (Nat.eqb_spec column 0); cbn [andb fst]; [|done].
    destruct (Nat.ltb_spec 0 i); cbn [fst]; lia.
  - by destruct (_ && _).
Qed.

(** The shown line a motion starts from: the one the selection or the anchor is on, or the
    first. *)
Definition starts_on (lines : list (N * bytes)) (current : option SourcePoint) (i : nat) : Prop :=
  match current with
  | Some p =>
      (lines.*1 !! i = Some (line_no p) ∧ ∀ k, k < i → lines.*1 !! k ≠ Some (line_no p)) ∨
      (i = 0 ∧ line_no p ∉ lines.*1)
  | None => i = 0
  end.
Lemma starts_on_found (lines : list (N * bytes)) current :
  lines ≠ [] →
  let i := default 0 (p ← current; fst <$> list_find (λ c, c.1 = line_no p) lines) in
  starts_on lines current i ∧ i < length lines.
Proof.
  intros Hne. destruct current as [p|]; cbn [mbind option_bind default from_option starts_on].
  2:{ split; [done|]. destruct lines; [done|cbn; lia]. }
  destruct (list_find _ lines) as [[i x]|] eqn:E; cbn.
  - apply list_find_Some in E as (Hi & Hx & Hk). split; [left|by eapply lookup_lt_Some].
    rewrite list_lookup_fmap, Hi. cbn. split; [by rewrite Hx|]. intros k Hlt Hk'.
    rewrite list_lookup_fmap in Hk'. apply fmap_Some in Hk' as (y & Hy & Hn). by eapply (Hk k y).
  - apply list_find_None in E. split; [right|destruct lines; [done|cbn; lia]]. split; [done|].
    intros (y & Hy & Hin)%list_elem_of_fmap. rewrite Forall_forall in E. by apply (E y Hin).
Qed.

Lemma accepted_point v f e row :
  file (v_snapshot v) (v_file v) = Some f → snapshot e = id (v_snapshot v) → file_of e = v_file v →
  line f (side e) (line_no e) = Some row → is_char_boundary (row_text row) (byte_column e) = true →
  validate_point (v_snapshot v) e = Ok row.
Proof.
  intros Hf Hs Hfl Hl Hb. unfold validate_point. rewrite Hs, Hfl, Hf, bool_decide_true by done.
  cbn [negb mbind option_bind]. rewrite Hl. cbn [ok_or mbind result_bind]. by rewrite Hb.
Qed.

(** C30: Keyboard motions stay among the shown lines. A motion fails only when no line of the
    side of the selection is shown. Otherwise it ends on that side, on the shown line the
    motion means: the next or the previous one for Down and Up and for Right and Left at an
    end of a line, and none past the first or the last; and in its text, at a boundary of
    characters. Where the line is one of the patch with the text that is shown, the snapshot
    accepts the point; and as long as the view has the rows of the file, without lines loaded
    around them, the shown lines of a side are exactly those of the patch. *)
Theorem motions_stay_in_source v m :
  let current := current_point v in
  let s := match current with Some p => side p | None => Right end in
  let lines := shown_lines s v in
  match motion_end v m with
  | Some e =>
      snapshot e = id (v_snapshot v) ∧ file_of e = v_file v ∧ side e = s ∧
      (∃ i from n t, starts_on lines current i ∧ lines !! i = Some from ∧
         let column := Nat.min match current with Some p => byte_column p | None => 0 end
                         (length from.2) in
         lines !! motion_line m (length lines) i column (length from.2) = Some (n, t) ∧
         line_no e = n ∧ is_char_boundary t (byte_column e) = true ∧
         ∀ f row, file (v_snapshot v) (v_file v) = Some f → line f s n = Some row →
           row_text row = t → validate_point (v_snapshot v) e = Ok row)
  | None => lines = []
  end ∧
  (∀ f, file (v_snapshot v) (v_file v) = Some f → file_wf f →
     v_rows v = Presentation.rows f (v_split v) → lines = omap (row_lines s) (all_rows f)).
Proof.
  intros current s lines. split.
  2:{ intros f _ Hwf Hr. unfold lines, shown_lines. rewrite Hr. by apply source_lines. }
  unfold motion_end. fold current s. change (omap (navigable s) (v_rows v)) with lines.
  case_bool_decide as Hne; [done|]. destruct (starts_on_found lines current Hne) as [Hst Hlt].
  set (i := default 0 _) in *. set (c := Nat.min _ _).
  pose proof (moved_line lines i c m Hlt) as Hline. pose proof (moved_bound lines i c m Hlt) as Hb.
  destruct (moved lines i c m) as [k col]. cbn [fst] in *. subst k.
  destruct (lookup_lt_is_Some_2 lines i Hlt) as [from Hfrom].
  assert (width_at lines i = length from.2) as Hw.
  { unfold width_at, text_at. by rewrite Hfrom. }
  destruct (lookup_lt_is_Some_2 lines _ Hb) as [[n t] Hk]. rewrite Hk. cbn [fmap option_fmap option_map default from_option fst].
  assert (text_at lines (motion_line m (length lines) i c (width_at lines i)) = t) as Ht.
  { unfold text_at. by rewrite Hk. }
  split_and!; [done..|]. exists i, from, n, t. split; [done|]. split; [done|].
  cbv zeta. rewrite <- Hw. fold c. split; [done|]. split; [done|]. rewrite Ht. cbn [byte_column].
  split; [apply snap_boundary|]. intros f row Hf Hrow <-.
  eapply accepted_point; [done..|]. cbn. apply snap_boundary.
Qed.
End motions.

(** ** Samples *)

Definition two_hunks : FileChange :=
  let row o n t k := mkPatchRow o n (bs t) LineEnding.Lf k in
  mkFileChange (bs "f") (Some (RepoPath.mkRepoPath (bs "f"))) (Some (RepoPath.mkRepoPath (bs "f")))
    ChangeKind.Modified ContentKind.Text None None None None
    [mkHunk 30 1 30 1 [] [row (Some 30%N) None "old" RowKind.Removed; row None (Some 30%N) "new" RowKind.Added];
     mkHunk 45 1 45 2 [] [row (Some 45%N) (Some 45%N) "x" RowKind.Context; row None (Some 46%N) "more" RowKind.Added]] [].
Definition hosted_snapshot : Snapshot :=
  mkSnapshot (bs "s") [] [] (mkPatchReport [two_hunks])
    (Some (mkRemoteTarget (bs "github") (mkRepositoryKey (bs "github.com") 1 (bs "o") (bs "r")) (bs "me") 7
             (bs "tip") (bs "base") (bs "head") true false false false None None))
    [] default_overview [].
Definition sample_lines : list bytes := (λ i, dec (N.of_nat i)) <$> seq 1 60.

Lemma two_hunks_diff : true_diff sample_lines sample_lines two_hunks.
Proof.
  constructor.
  - split.
    + apply Forall_cons; split; [|apply Forall_cons; split; [|by apply Forall_nil_2]].
      all: split; [repeat constructor; by eexists|by intros []|].
      all: intros []; (split; [by vm_compute|right; split; by vm_compute]).
    + intros [|[|i]] h1 h2; [|done|done]. intros [= <-] [= <-] []; vm_compute; discriminate.
    + by eexists.
  - intros h Hin. cbn in Hin. rewrite !elem_of_cons, elem_of_nil in Hin.
    destruct Hin as [->|[->|[]]]; cbn; lia.
  - intros [|[|i]] h1 h2; [|done|done]. intros [= <-] [= <-]. done.
  - intros h side Hin. cbn in Hin. rewrite !elem_of_cons, elem_of_nil in Hin.
    destruct Hin as [->|[->|[]]]; destruct side; vm_compute; discriminate.
  - intros []; vm_compute; discriminate.
Qed.

#[local] Existing Instance ascii_letters.
#[local] Instance no_graphemes : Graphemes := { grapheme_starts t := seq 0 (length t) }.
#[local] Instance byte_cursor : GraphemeCursor :=
  { is_grapheme_boundary _ _ := true; prev_boundary _ _ := None }.

Lemma context_expands_faithfully_witness :
  let es := [Expand Above; Fetched true; Configure true false (f32_of_N 14); Expand Below;
             NextHunk true; Fetched true; NextHunk true; Expand All; Fetched false; Expand Above; Fetched true] in
  let r0 := mkReader (Viewport_new hosted_snapshot (bs "f") false false (f32_of_N 14) None) None in
  (∃ r, reader_run sample_lines sample_lines r0 es = Some r ∧
    (∀ side, StronglySorted N.lt (shown_lines side (view r)).*1)) ∧
  ((λ r, length (v_rows (view r))) <$> reader_run sample_lines sample_lines r0 es) = Some 19.
Proof.
  intros es r0. split; [|by vm_compute].
  destruct (@context_expands_faithfully ascii_letters no_graphemes byte_cursor sample_lines sample_lines
    hosted_snapshot (bs "f") two_hunks false false (f32_of_N 14) None es) as (r & H1 & H2 & _).
  - by vm_compute.
  - apply two_hunks_diff.
  - vm_compute. repeat (split; [first [exact I|by left|by right]|]). exact I.
  - exists r. split; [exact H1|exact H2].
Defined.

(** A run in which switching the columns while lines are being fetched puts them in the wrong
    place: the lines of the second request belong above those of the first, which the switch
    removed, yet they are inserted right above the hunk and counted as the lines next to it.
    The next request loads the same lines again, and the view shows each of them twice. *)
Lemma switching_while_fetching_repeats_lines :
  let es := [Expand Above; Fetched true; Expand Above; Configure true false (f32_of_N 14); Fetched true;
             Expand Above; Fetched true] in
  let r0 := mkReader (Viewport_new hosted_snapshot (bs "f") false false (f32_of_N 14) None) None in
  true_diff sample_lines sample_lines two_hunks ∧
  ((λ r, take 20 (shown_lines Right (view r)).*1) <$> reader_run sample_lines sample_lines r0 es)
  = Some (range 10 10 ++ range 10 10).
Proof. split; [apply two_hunks_diff|by vm_compute]. Qed.

Lemma motions_stay_in_source_witness :
  let v := Viewport_new hosted_snapshot (bs "f") false false (f32_of_N 14) None in
  ∃ e row, motion_end v Last = Some e ∧ line_no e = 46%N ∧ validate_point hosted_snapshot e = Ok row.
Proof.
  intros v. exists (mkSourcePoint (bs "s") (bs "f") Right 46 4),
    (mkPatchRow None (Some 46%N) (bs "more") LineEnding.Lf RowKind.Added).
  split; [by vm_compute|]. split; [by vm_compute|].
  assert (∀ t i j, prev_boundary t i = Some j → is_char_boundary t j = true) as Hlaw by done.
  destruct (motions_stay_in_source Hlaw v Last) as [H _].
  assert (motion_end v Last = Some (mkSourcePoint (bs "s") (bs "f") Right 46 4)) as E by by vm_compute.
  rewrite E in H. destruct H as (_ & _ & _ & i & from & n & t & _ & _ & Hk & Hn & _ & H).
  cbn in Hn. subst n.
  refine (H two_hunks _ _ _ _); [by vm_compute|by vm_compute|].
  assert ((46%N, t) ∈ shown_lines Right v) as Hin by (by eapply list_elem_of_lookup_2).
  assert (forallb (λ x, negb (x.1 =? 46)%N || bool_decide (x.2 = bs "more")) (shown_lines Right v) = true)
    as Hall by by vm_compute.
  rewrite forallb_forall in Hall. apply list_elem_of_In, Hall in Hin. cbn in Hin.
  symmetry. exact (bool_decide_eq_true_1 _ Hin).
Defined.
