(* ===== verification/Timefmt.v ===== *)
(** * Times of day and dates ([crates/core/src/timefmt.rs]) *)

From S2P Require Import Prelude RustStr.

#[local] Open Scope N_scope.

Definition civil_from_days (z : N) : N * N * N :=
  let z := z + 719468 in
  let era := z / 146097 in
  let doe := z - era * 146097 in
  let yoe := (doe - doe / 1460 + doe / 36524 - doe / 146096) / 365 in
  let year := yoe + era * 400 in
  let doy := doe - (365 * yoe + yoe / 4 - yoe / 100) in
  let mp := (5 * doy + 2) / 153 in
  let day := doy - (153 * mp + 2) / 5 + 1 in
  let month := if mp <? 10 then mp + 3 else mp - 9 in
  (year + (if month <=? 2 then 1 else 0), month, day)%N.

Definition show_time (date : N * N * N) (hour minute : N) : bytes :=
  let '(year, month, day) := date in
  dec_pad 4 year ++ bs "-" ++ dec_pad 2 month ++ bs "-" ++ dec_pad 2 day ++ bs " "
  ++ dec_pad 2 hour ++ bs ":" ++ dec_pad 2 minute.

Definition short_unix_timestamp (secs : N) : bytes :=
  let days := (secs / 86400)%N in
  let secs_in_day := (secs mod 86400)%N in
  show_time (civil_from_days days) (secs_in_day / 3600) ((secs_in_day mod 3600) / 60).

(** ** The calendar *)

(** The Gregorian calendar, day by day. *)
Definition leap (y : N) : bool :=
  ((y mod 4 =? 0) && (negb (y mod 100 =? 0) || (y mod 400 =? 0)))%N.
Definition month_length (y m : N) : N :=
  if (m =? 2)%N then (if leap y then 29 else 28)%N
  else if existsb (N.eqb m) [4; 6; 9; 11]%N then 30%N else 31%N.
Definition next_day (date : N * N * N) : N * N * N :=
  let '(y, m, d) := date in
  if (d <? month_length y m)%N then (y, m, d + 1)%N
  else if (m <? 12)%N then (y, m + 1, 1)%N else (y + 1, 1, 1)%N.

(** ** Years of an era *)

Definition yoe_of (doe : N) : N := ((doe - doe / 1460 + doe / 36524 - doe / 146096) / 365)%N.
(** The day of the era at which a year, which begins in March, begins. *)
Definition year_start (y : N) : N := (365 * y + y / 4 - y / 100)%N.

Lemma yoe_mono a b : (a <= b)%N → (b < 146097)%N → (yoe_of a <= yoe_of b)%N.
Proof.
  intros Hab Hb. unfold yoe_of. apply N.Div0.div_le_mono.
  assert (∀ n, a + N.of_nat n < 146097 →
    a - a / 1460 + a / 36524 - a / 146096 <= (a + N.of_nat n) - (a + N.of_nat n) / 1460
      + (a + N.of_nat n) / 36524 - (a + N.of_nat n) / 146096)%N as H.
  { induction n as [|n IH]; intros Hn; [by rewrite N.add_0_r|].
    etransitivity; [apply IH; lia|]. replace (a + N.of_nat (S n))%N with (a + N.of_nat n + 1)%N by lia.
    generalize (a + N.of_nat n)%N as c. intros c. clear. divlia. }
  specialize (H (N.to_nat (b - a))). rewrite N2Nat.id in H.
  replace (a + (b - a))%N with b in H by lia. apply H. lia.
Qed.

Definition year_length (y : N) : N := if leap (y + 1) then 366 else 365.

Lemma forallb_lt (P : N → bool) (n : nat) y :
  forallb P (N.of_nat <$> seq 0 n) = true → y < N.of_nat n → P y = true.
Proof.
  rewrite forallb_forall. intros H Hy. apply H, list_elem_of_In, list_elem_of_fmap.
  exists (N.to_nat y). split; [by rewrite N2Nat.id|]. apply elem_of_seq. lia.
Qed.

Definition year_check (y : N) : bool :=
  (yoe_of (year_start y) =? y) && (yoe_of (year_start y + year_length y - 1) =? y)
  && (year_start y + year_length y =? if y =? 399 then 146097 else year_start (y + 1)).

Lemma year_checked y : y < 400 →
  yoe_of (year_start y) = y ∧ yoe_of (year_start y + year_length y - 1) = y ∧
  year_start y + year_length y = if y =? 399 then 146097 else year_start (y + 1).
Proof.
  intros Hy. assert (year_check y = true) as H.
  { apply (forallb_lt year_check 400); [vm_compute; reflexivity|done]. }
  unfold year_check in H. to_prop. done.
Qed.

Lemma year_length_pos y : 365 <= year_length y.
Proof. unfold year_length. destruct (leap _); lia. Qed.

Lemma year_end_le y : y < 400 → year_start y + year_length y <= 146097.
Proof.
  intros Hy. destruct (year_checked y Hy) as (_ & _ & ->). destruct (y =? 399) eqn:E; to_prop; [lia|].
  unfold year_start. divlia.
Qed.

(** The formula finds the year that the day lies in. *)
Lemma doe_year doe : doe < 146097 →
  yoe_of doe < 400 ∧ year_start (yoe_of doe) <= doe < year_start (yoe_of doe) + year_length (yoe_of doe).
Proof.
  intros Hd. assert (yoe_of doe < 400) as Hy.
  { apply N.le_lt_trans with (yoe_of 146096); [apply yoe_mono; lia|vm_compute; reflexivity]. }
  destruct (year_checked _ Hy) as (_ & _ & Hend).
  split; [done|]. split.
  - apply N.le_ngt. intros Hlt. destruct (decide (yoe_of doe = 0)) as [H0|H0].
    { rewrite H0 in Hlt. change (year_start 0) with 0 in Hlt. lia. }
    destruct (year_checked (yoe_of doe - 1)) as (_ & Hlast & Hprev); [lia|].
    rewrite (proj2 (N.eqb_neq _ _)), N.sub_add in Hprev by lia.
    rewrite Hprev in Hlast.
    pose proof (yoe_mono doe (year_start (yoe_of doe) - 1)) as Hm. rewrite Hlast in Hm.
    assert (year_start (yoe_of doe) <= 146097); [|lia].
    pose proof (year_length_pos (yoe_of doe)). unfold year_start in *. divlia.
  - apply N.nle_gt. intros Hle. rewrite Hend in Hle.
    destruct (yoe_of doe =? 399) eqn:E9; to_prop; [lia|].
    destruct (year_checked (yoe_of doe + 1)) as (Hs & _ & _); [lia|].
    pose proof (yoe_mono _ _ Hle Hd). lia.
Qed.

(** ** Days of a year that begins in March *)

(** Whether the calendar's year is the next one, the month and the day. *)
Definition rel_date (doy : N) : N * N * N :=
  let mp := (5 * doy + 2) / 153 in
  let month := if mp <? 10 then mp + 3 else mp - 9 in
  ((if month <=? 2 then 1 else 0), month, doy - (153 * mp + 2) / 5 + 1).
(** [next_day] where [b] tells whether the year of the February is a leap year. *)
Definition next_rel (b : bool) (date : N * N * N) : N * N * N :=
  let '(c, m, d) := date in
  if d <? (if m =? 2 then (if b then 29 else 28)
           else if existsb (N.eqb m) [4; 6; 9; 11] then 30 else 31)
  then (c, m, d + 1) else if m <? 12 then (c, m + 1, 1) else (c + 1, 1, 1).
Definition add_year (y : N) (date : N * N * N) : N * N * N :=
  let '(c, m, d) := date in (y + c, m, d).

Lemma next_day_rel y b date :
  (date.1.2 = 2 → leap (y + date.1.1) = b) →
  next_day (add_year y date) = add_year y (next_rel b date).
Proof.
  destruct date as [[c m] d]. cbn [fst snd]. intros Hb. unfold next_day, next_rel, add_year, month_length.
  destruct (m =? 2) eqn:E; to_prop.
  - rewrite (Hb E). destruct (d <? _), (m <? 12); f_equal; f_equal; lia.
  - destruct (d <? _), (m <? 12); f_equal; f_equal; lia.
Qed.

Definition day_check (b : bool) (doy : N) : bool :=
  bool_decide ((rel_date doy).1.2 = 2 → (rel_date doy).1.1 = 1)
  && bool_decide (next_rel b (rel_date doy)
       = if doy + 1 <? (if b then 366 else 365) then rel_date (doy + 1) else (1, 3, 1)).

Lemma day_checked (b : bool) (doy : N) : doy < (if b then 366 else 365) →
  ((rel_date doy).1.2 = 2 → (rel_date doy).1.1 = 1) ∧
  next_rel b (rel_date doy)
  = if doy + 1 <? (if b then 366 else 365) then rel_date (doy + 1) else (1, 3, 1).
Proof.
  intros Hd. assert (day_check b doy = true) as H.
  { destruct b.
    - apply (forallb_lt (day_check true) 366); [vm_compute; reflexivity|done].
    - apply (forallb_lt (day_check false) 365); [vm_compute; reflexivity|done]. }
  unfold day_check in H. apply andb_true_iff in H as [H1 H2].
  by apply bool_decide_eq_true in H1, H2.
Qed.

Lemma leap_period y k : leap (y + 400 * k) = leap y.
Proof.
  unfold leap. replace (y + 400 * k) with (y + (100 * k) * 4) at 1 by lia.
  replace (y + 400 * k) with (y + (4 * k) * 100) at 1 by lia.
  replace (y + 400 * k) with (y + k * 400) by lia. by rewrite !N.Div0.mod_add.
Qed.

(** [civil_from_days] by era, year of the era and day of the year. *)
Definition era_date (era doe : N) : N * N * N :=
  add_year (yoe_of doe + era * 400) (rel_date (doe - year_start (yoe_of doe))).

Lemma civil_era z :
  civil_from_days z = era_date ((z + 719468) / 146097) ((z + 719468) mod 146097).
Proof.
  rewrite N.Div0.mod_eq. unfold civil_from_days. cbv zeta.
  rewrite (N.mul_comm ((z + 719468) / 146097) 146097). reflexivity.
Qed.

Lemma era_date_next era doe : doe < 146097 →
  next_day (era_date era doe)
  = if doe + 1 =? 146097 then era_date (era + 1) 0 else era_date era (doe + 1).
Proof.
  intros Hd. destruct (doe_year doe Hd) as (Hy & Hlo & Hhi).
  unfold era_date at 1. set (y := yoe_of doe) in *.
  destruct (day_checked (leap (y + 1)) (doe - year_start y)) as [Hfeb Hnext].
  { unfold year_length in Hhi. lia. }
  rewrite (next_day_rel _ (leap (y + 1))).
  2:{ intros H2%Hfeb. rewrite H2. replace (y + era * 400 + 1) with (y + 1 + 400 * era) by lia.
      apply leap_period. }
  rewrite Hnext. fold (year_length y). destruct (year_checked y Hy) as (_ & _ & Hend).
  destruct (doe - year_start y + 1 <? year_length y) eqn:E; to_prop.
  - (* the same year *)
    pose proof (year_end_le y Hy).
    rewrite (proj2 (N.eqb_neq _ _)) by lia. unfold era_date.
    assert (yoe_of (doe + 1) = y) as ->.
    { apply N.le_antisymm; [|apply yoe_mono; lia].
      destruct (year_checked y Hy) as (_ & <- & _). apply yoe_mono; [lia|].
      lia. }
    do 2 f_equal. lia.
  - (* the last day of the year *)
    assert (doe + 1 = year_start y + year_length y) as Hlast by lia. rewrite Hlast, Hend.
    destruct (y =? 399) eqn:E9; to_prop.
    + rewrite N.eqb_refl. subst y. rewrite E9. unfold era_date.
      change (yoe_of 0) with 0. change (rel_date (0 - year_start 0)) with (0, 3, 1).
      unfold add_year. f_equal; f_equal; lia.
    + destruct (year_checked (y + 1)) as (Hs & _ & _); [lia|].
      rewrite (proj2 (N.eqb_neq _ _)) by (unfold year_start; divlia).
      unfold era_date. rewrite Hs, N.sub_diag. change (rel_date 0) with (0, 3, 1).
      unfold add_year. f_equal; f_equal; lia.
Qed.

Lemma civil_next z : civil_from_days (z + 1) = next_day (civil_from_days z).
Proof.
  rewrite !civil_era, era_date_next by (apply N.mod_lt; lia).
  replace (z + 1 + 719468) with (z + 719468 + 1) by lia. generalize (z + 719468). clear z. intros z.
  pose proof (N.mod_lt z 146097 ltac:(lia)). destruct (z mod 146097 + 1 =? 146097) eqn:E; to_prop.
  - f_equal; divlia.
  - f_equal; divlia.
Qed.

(** C29: A time is shown as the calendar has it. For every number of seconds, the date is the
    one that counting days from 1 January 1970 reaches, with the leap years of the
    Gregorian calendar, and the time is the hour and the minute of that day; and none of
    the subtractions of the code goes below zero, where 64-bit integers would wrap. *)
Theorem timestamp_calendar secs :
  short_unix_timestamp secs
  = show_time (N.iter (secs / 86400) next_day (1970, 1, 1))
      (secs mod 86400 / 3600) (secs mod 86400 mod 3600 / 60) ∧
  (let z := secs / 86400 + 719468 in
   let era := z / 146097 in
   let doe := z - era * 146097 in
   let yoe := (doe - doe / 1460 + doe / 36524 - doe / 146096) / 365 in
   let doy := doe - (365 * yoe + yoe / 4 - yoe / 100) in
   let mp := (5 * doy + 2) / 153 in
   era * 146097 <= z ∧ doe / 1460 <= doe ∧ doe / 146096 <= doe - doe / 1460 + doe / 36524 ∧
   yoe / 100 <= 365 * yoe + yoe / 4 ∧ 365 * yoe + yoe / 4 - yoe / 100 <= doe ∧
   (153 * mp + 2) / 5 <= doy).
Proof.
  split.
  - unfold short_unix_timestamp. f_equal. generalize (secs / 86400). clear secs. intros z.
    induction z as [|z IH] using N.peano_ind; [vm_compute; reflexivity|].
    by rewrite N.iter_succ, <- IH, <- N.add_1_r, civil_next.
  - generalize (secs / 86400 + 719468). clear secs. intros z. cbv zeta.
    assert (z / 146097 * 146097 <= z) as H1 by divlia.
    assert (z - z / 146097 * 146097 < 146097) as Hdoe by divlia.
    revert Hdoe. generalize (z - z / 146097 * 146097). intros doe Hdoe.
    pose proof (doe_year doe Hdoe) as (_ & Hlo & _). unfold yoe_of, year_start in Hlo.
    split_and!; [done|divlia|divlia|divlia|exact Hlo|].
    generalize (doe - (365 * ((doe - doe / 1460 + doe / 36524 - doe / 146096) / 365)
      + (doe - doe / 1460 + doe / 36524 - doe / 146096) / 365 / 4
      - (doe - doe / 1460 + doe / 36524 - doe / 146096) / 365 / 100)).
    intros doy. divlia.
Qed.
