(* ===== verification/FileTree.v ===== *)
(** * The file tree ([crates/core/src/file_tree.rs])

    Lower case is Unicode's table, an argument ([CaseMap]). [old_paths] is a hash map the
    code only looks keys up in. The theorems after the definitions show that the tree lists every
    matching file once. *)

From S2P Require Import Prelude RustStr Utf8 Domain Patch BTree.

(** [str::to_lowercase]. *)
Class CaseMap := to_lowercase : bytes → bytes.

Record TreeRow := mkTreeRow {
  tree_path : bytes; tree_label : bytes; tree_prefix : bytes; depth : nat;
  tree_file : option FileId; expanded : bool; tree_old_path : option bytes
}.

(** [dirs] is ordered by name, [dir_files] by name and file. *)
Inductive Directory := mkDirectory (ds : list (bytes * Directory))
                                   (fs : list ((bytes * FileId) * bytes)).
Definition dirs (d : Directory) : btree Directory := match d with mkDirectory ds _ => ds end.
Definition dir_files (d : Directory) : list ((bytes * FileId) * bytes) :=
  match d with mkDirectory _ fs => fs end.
Definition empty_dir : Directory := mkDirectory [] [].

(** [BTreeMap::insert] with keys of two strings. *)
Fixpoint insert_file (k : bytes * FileId) (v : bytes) (m : list ((bytes * FileId) * bytes))
    : list ((bytes * FileId) * bytes) :=
  match m with
  | [] => [(k, v)]
  | (k', v') :: m' =>
      if bool_decide (k = k') then (k, v) :: m'
      else if pair_lt lex_lt lex_lt k k' then (k, v) :: m
      else (k', v') :: insert_file k v m'
  end.

(** The walk along the parts of a path; the last part is the file's name. *)
Fixpoint insert_path (parts : list bytes) (i : FileId) (path : bytes) (d : Directory) : Directory :=
  match parts with
  | [] => d
  | [name] => mkDirectory (dirs d) (insert_file (name, i) path (dir_files d))
  | part :: parts' =>
      mkDirectory
        (insert_key part (insert_path parts' i path (default empty_dir (get part (dirs d))))
           (dirs d))
        (dir_files d)
  end.

Record FileTree := mkFileTree { entries : list (FileId * bytes); old_paths : btree bytes }.
Definition FileTree_new (es : list (FileId * bytes)) : FileTree := mkFileTree es [].
Definition with_old_paths (t : FileTree) (old : btree bytes) : FileTree :=
  mkFileTree (entries t) old.

Section tree.
Context {case_ : CaseMap}.

Definition matches_query (old : btree bytes) (query : bytes) (e : FileId * bytes) : bool :=
  contains query (to_lowercase e.2)
  || match get e.1 old with Some o => contains query (to_lowercase o) | None => false end.
Definition build (t : FileTree) (query : bytes) : Directory :=
  foldl (λ d e, if matches_query (old_paths t) query e
                then insert_path (split_on SLASH e.2) e.1 e.2 d else d)
    empty_dir (entries t).
End tree.

(** How deep directories nest. *)
Fixpoint height (d : Directory) : nat :=
  match d with mkDirectory ds _ => S (foldr Nat.max 0 (List.map (λ p, height p.2) ds)) end.

(** The inner loop: a folder that holds only one folder is shown with it as one row. *)
Fixpoint merge_dirs (fuel : nat) (label path : bytes) (node : Directory) : bytes * bytes * Directory :=
  match fuel, dir_files node, dirs node with
  | S fuel, [], [(name, child)] =>
      merge_dirs fuel (label ++ SLASH :: name) (path ++ SLASH :: name) child
  | _, _, _ => (label, path, node)
  end.

Definition file_row (old : btree bytes) (depth : nat) (f : (bytes * FileId) * bytes) : TreeRow :=
  mkTreeRow f.2 f.1.1 [] depth (Some f.1.2) false (get f.1.2 old).

(** [flatten]; the fuel is spent one for each level. *)
Fixpoint flatten (fuel : nat) (d : Directory) (parent : bytes) (depth : nat)
    (collapsed : list bytes) (filtering : bool) (old : btree bytes) : list TreeRow :=
  match fuel with
  | O => []
  | S fuel =>
      concat ((λ p,
        let '(name, child) := p in
        let '(label, path, node) :=
          merge_dirs (height child) name
            (match parent with [] => name | _ => parent ++ SLASH :: name end) child in
        match dirs node, dir_files node with
        | [], [((name, i), file_path)] =>
            [mkTreeRow file_path name (label ++ [SLASH]) depth (Some i) false (get i old)]
        | _, _ =>
            let expanded := filtering || negb (bool_decide (path ∈ collapsed)) in
            mkTreeRow path label [] depth None expanded None
            :: (if expanded then flatten fuel node path (S depth) collapsed filtering old else [])
        end) <$> dirs d)
      ++ (file_row old depth <$> dir_files d)
  end.

Definition tree_rows `{CaseMap} (t : FileTree) (collapsed : list bytes) (query : bytes) : list TreeRow :=
  let query := to_lowercase query in
  let root := build t query in
  flatten (height root) root [] 0 collapsed (negb (bool_decide (query = []))) (old_paths t).

(** ** The files below a directory *)

Fixpoint all_files (d : Directory) : list (FileId * bytes) :=
  match d with
  | mkDirectory ds fs =>
      concat (List.map (λ p, all_files p.2) ds) ++ List.map (λ f, (f.1.2, f.2)) fs
  end.

(** Directory names are in order at every level. *)
Fixpoint dir_ok (d : Directory) : Prop :=
  match d with
  | mkDirectory ds _ => ordered ds ∧ foldr and True (List.map (λ p, dir_ok p.2) ds)
  end.

Lemma all_files_unfold d :
  all_files d = concat ((λ p, all_files p.2) <$> dirs d) ++ ((λ f, (f.1.2, f.2)) <$> dir_files d).
Proof. by destruct d. Qed.

Lemma dir_ok_unfold d : dir_ok d ↔ ordered (dirs d) ∧ Forall (λ p, dir_ok p.2) (dirs d).
Proof.
  destruct d as [ds fs]. cbn. apply and_iff_compat_l.
  induction ds as [|p ds IH]; cbn; [by split|]. by rewrite IH, Forall_cons.
Qed.

Lemma empty_dir_ok : dir_ok empty_dir.
Proof. split; [constructor|done]. Qed.

Lemma height_child d p : p ∈ dirs d → height p.2 < height d.
Proof.
  destruct d as [ds fs]. cbn. intros Hp. apply Nat.lt_succ_r.
  induction Hp as [|q ds Hp IH]; cbn; lia.
Qed.

(** Replacing the value of a key, in any order-preserving map. *)
Lemma insert_key_perm {A} k (v : A) m :
  ordered m →
  ∃ m', m ≡ₚ (match get k m with Some v0 => [(k, v0)] | None => [] end) ++ m' ∧
        insert_key k v m ≡ₚ (k, v) :: m'.
Proof.
  induction m as [|[k' v'] m IH]; intros Hm; [by exists []|].
  pose proof Hm as Hm'. unfold ordered in Hm'. rewrite fmap_cons in Hm'.
  apply StronglySorted_inv in Hm' as [Hm' Hk].
  cbn [get insert_key]. destruct (decide (k = k')) as [->|Hne].
  { rewrite !bool_decide_true by done. by exists m. }
  rewrite !bool_decide_false by done. destruct (lex_lt k k') eqn:E.
  - exists ((k', v') :: m). assert (get k m = None) as ->; [|done].
    destruct (get k m) as [v0|] eqn:Eg; [|done]. apply get_Some_in in Eg.
    apply (list_elem_of_fmap_2 fst) in Eg. rewrite Forall_forall in Hk. apply Hk in Eg.
    exfalso. assert (key_lt k k) as H by (by eapply lex_lt_trans).
    unfold key_lt in H. by rewrite lex_lt_irrefl in H.
  - destruct (IH Hm') as (m' & H1 & H2). exists ((k', v') :: m').
    rewrite H2. split; [|apply Permutation_swap].
    rewrite H1 at 1. destruct (get k m); cbn [app]; [apply Permutation_swap|done].
Qed.

Lemma insert_file_perm k v m : k ∉ m.*1 → insert_file k v m ≡ₚ (k, v) :: m.
Proof.
  induction m as [|[k' v'] m IH]; intros Hk; [done|]. cbn [insert_file].
  rewrite fmap_cons in Hk. apply not_elem_of_cons in Hk as [Hne Hk]. cbn in Hne.
  rewrite bool_decide_false by done. destruct (pair_lt _ _ _ _); [done|].
  rewrite IH by done. apply Permutation_swap.
Qed.

Lemma in_all_files_dir d part c e : get part (dirs d) = Some c → e ∈ all_files c → e ∈ all_files d.
Proof.
  intros Hc%get_Some_in He. rewrite all_files_unfold. apply elem_of_app. left.
  apply list_elem_of_In, in_concat. exists (all_files c). split.
  - apply list_elem_of_In, list_elem_of_fmap. by exists (part, c).
  - by apply list_elem_of_In.
Qed.

Lemma insert_path_ok parts i path d : dir_ok d → dir_ok (insert_path parts i path d).
Proof.
  revert d. induction parts as [|part parts IH]; intros d Hd; [done|].
  destruct parts as [|q qs]; [by destruct d|].
  change (insert_path (part :: q :: qs) i path d) with
    (mkDirectory (insert_key part (insert_path (q :: qs) i path
       (default empty_dir (get part (dirs d)))) (dirs d)) (dir_files d)).
  apply dir_ok_unfold in Hd as [Ho Hd]. apply dir_ok_unfold. cbn [dirs].
  split; [by apply insert_key_ordered|]. rewrite Forall_forall in Hd. apply Forall_forall.
  intros p [->|Hp]%insert_key_elem; [|by apply Hd]. cbn [snd]. apply IH.
  destruct (get part (dirs d)) as [c|] eqn:E; [|apply empty_dir_ok]. by apply get_Some_in, Hd in E.
Qed.

(** A new file is below the directory once, with what was there. *)
Lemma insert_path_files parts i path d :
  parts ≠ [] → dir_ok d → i ∉ (all_files d).*1 →
  all_files (insert_path parts i path d) ≡ₚ (i, path) :: all_files d.
Proof.
  intros Hne. revert d. induction parts as [|part parts IH]; intros d Hd Hi; [done|].
  destruct parts as [|q qs].
  - cbn [insert_path]. rewrite all_files_unfold, (all_files_unfold d). cbn [dirs dir_files].
    rewrite insert_file_perm.
    + rewrite fmap_cons. cbn [fst snd]. symmetry. apply Permutation_middle.
    + intros ([k v] & Hk & Hin)%list_elem_of_fmap. apply Hi. rewrite all_files_unfold, fmap_app.
      apply elem_of_app. right. apply list_elem_of_fmap. exists (i, v). split; [done|].
      apply list_elem_of_fmap. exists (k, v). by rewrite <- Hk.
  - change (insert_path (part :: q :: qs) i path d) with
      (mkDirectory (insert_key part (insert_path (q :: qs) i path
         (default empty_dir (get part (dirs d)))) (dirs d)) (dir_files d)).
    pose proof Hd as [Ho Hds]%dir_ok_unfold.
    rewrite all_files_unfold, (all_files_unfold d). cbn [dirs dir_files].
    destruct (insert_key_perm part (insert_path (q :: qs) i path
      (default empty_dir (get part (dirs d)))) (dirs d) Ho) as (m' & H1 & H2).
    assert (concat ((λ p, all_files p.2) <$> dirs d)
            ≡ₚ all_files (default empty_dir (get part (dirs d)))
               ++ concat ((λ p, all_files p.2) <$> m')) as Hold.
    { rewrite H1 at 1. by destruct (get part (dirs d)). }
    rewrite H2, Hold, fmap_cons. cbn [concat snd]. rewrite IH; [done|done| |].
    + destruct (get part (dirs d)) as [c|] eqn:E; [|apply empty_dir_ok]. rewrite Forall_forall in Hds.
      by apply get_Some_in, Hds in E.
    + intros ([i' p'] & -> & Hin)%list_elem_of_fmap. apply Hi.
      destruct (get part (dirs d)) as [c|] eqn:E; [|by apply not_elem_of_nil in Hin].
      apply (list_elem_of_fmap_2 fst _ (i', p')). by eapply in_all_files_dir.
Qed.

(** ** Rows *)

(** The files that rows show. *)
Definition shown_files (rs : list TreeRow) : list (FileId * bytes) :=
  omap (λ r, i ← tree_file r; Some (i, tree_path r)) rs.

Lemma shown_files_app a b : shown_files (a ++ b) = shown_files a ++ shown_files b.
Proof. apply omap_app. Qed.

Lemma merge_dirs_files fuel label path node :
  all_files (merge_dirs fuel label path node).2 = all_files node ∧
  height (merge_dirs fuel label path node).2 ≤ height node.
Proof.
  revert label path node. induction fuel as [|fuel IH]; intros label path node; [done|].
  destruct node as [[|[name child] [|]] [|]]; cbn [merge_dirs dirs dir_files]; try done.
  destruct (IH (label ++ SLASH :: name) (path ++ SLASH :: name) child) as [H1 H2]. rewrite H1.
  split; [by cbn; rewrite !app_nil_r|]. etransitivity; [exact H2|]. cbn. lia.
Qed.

Lemma shown_file_rows old dep fs :
  shown_files (file_row old dep <$> fs) = (λ f, (f.1.2, f.2)) <$> fs.
Proof.
  induction fs as [|f fs IH]; [done|]. rewrite !fmap_cons. cbn. by rewrite <- IH.
Qed.

(** With nothing collapsed the rows show all files, in the order of the tree. *)
Lemma flatten_files fuel d parent dep collapsed filtering old :
  height d ≤ fuel → filtering = true ∨ collapsed = [] →
  shown_files (flatten fuel d parent dep collapsed filtering old) = all_files d.
Proof.
  intros Hf Hall. revert d parent dep Hf. induction fuel as [|fuel IH]; intros d parent dep Hf.
  { destruct d. cbn in Hf. lia. }
  rewrite all_files_unfold. cbn [flatten]. rewrite shown_files_app, shown_file_rows. f_equal.
  pose proof (λ p, height_child d p) as Hc.
  induction (dirs d) as [|[name child] ds IHds]; [done|].
  rewrite !fmap_cons. cbn [concat snd]. rewrite shown_files_app, IHds; [|intros p Hp; apply Hc; by right].
  f_equal. pose proof (Hc (name, child) ltac:(left)) as Hch. cbn [snd] in Hch.
  set (path0 := match parent with [] => name | _ => parent ++ SLASH :: name end).
  destruct (merge_dirs_files (height child) name path0 child) as [<- Hh].
  destruct (merge_dirs (height child) name path0 child) as [[label path] node]. cbn [snd] in *.
  assert (∀ rest, shown_files (mkTreeRow path label [] dep None true None :: rest)
    = shown_files rest) as Hfolder by done.
  assert (filtering || negb (bool_decide (path ∈ collapsed)) = true) as ->.
  { destruct Hall as [-> | ->]; [done|]. by rewrite bool_decide_false, orb_true_r by apply not_elem_of_nil. }
  destruct node as [[|p ds'] [|[[n i] fp] [|f fs']]]; cbn [dirs dir_files];
    try (rewrite Hfolder; apply IH; lia). done.
Qed.

(** Whatever is collapsed, the rows show files of the tree, in its order. *)
Lemma flatten_sublist fuel d parent dep collapsed filtering old :
  shown_files (flatten fuel d parent dep collapsed filtering old) `sublist_of` all_files d.
Proof.
  revert d parent dep. induction fuel as [|fuel IH]; intros d parent dep.
  { apply sublist_nil_l. }
  rewrite all_files_unfold. cbn [flatten]. rewrite shown_files_app, shown_file_rows.
  apply sublist_app; [|done].
  induction (dirs d) as [|[name child] ds IHds]; [done|].
  rewrite !fmap_cons. cbn [concat snd]. rewrite shown_files_app. apply sublist_app; [|done].
  set (path0 := match parent with [] => name | _ => parent ++ SLASH :: name end).
  destruct (merge_dirs_files (height child) name path0 child) as [<- _].
  destruct (merge_dirs (height child) name path0 child) as [[label path] node]. cbn [snd].
  assert (∀ e, shown_files (mkTreeRow path label [] dep None e None ::
    (if e then flatten fuel node path (S dep) collapsed filtering old else []))
    `sublist_of` all_files node) as Hfolder.
  { intros []; [apply IH|apply sublist_nil_l]. }
  destruct node as [[|p ds'] [|[[n i] fp] [|f fs']]]; cbn [dirs dir_files]; try apply Hfolder. done.
Qed.

Section build.
Context {case_ : CaseMap}.

Lemma build_files t query :
  NoDup (entries t).*1 →
  dir_ok (build t query) ∧
  all_files (build t query) ≡ₚ filter (λ e, matches_query (old_paths t) query e = true) (entries t).
Proof.
  unfold build. induction (entries t) as [|e es IH] using rev_ind; intros Hnd.
  { split; [apply empty_dir_ok|done]. }
  rewrite fmap_app, NoDup_app in Hnd. destruct Hnd as (Hnd & Hdis & _).
  destruct (IH Hnd) as [Hok Hp]. rewrite foldl_snoc, filter_app, filter_cons, filter_nil.
  destruct (matches_query (old_paths t) query e).
  - rewrite decide_True by done. split; [by apply insert_path_ok|].
    rewrite insert_path_files; [by rewrite Hp, Permutation_app_comm, <- surjective_pairing| |done|].
    + apply split_on_not_nil.
    + rewrite Hp. intros (e' & He & [_ Hin]%list_elem_of_filter)%list_elem_of_fmap.
      apply (Hdis e'.1); [by apply list_elem_of_fmap_2|]. rewrite <- He. by apply list_elem_of_singleton.
  - rewrite decide_False, app_nil_r by done. done.
Qed.

(** The file tree lists the matching files. A tree with nothing collapsed, or one that
    is filtered, shows each file whose path or old path has the query exactly once with its
    own path, and no other file; and collapsing folders only hides files. *)
Theorem tree_lists_files t collapsed query :
  NoDup (entries t).*1 →
  let found := filter (λ e, matches_query (old_paths t) (to_lowercase query) e = true) (entries t) in
  (to_lowercase query ≠ [] ∨ collapsed = [] →
   shown_files (tree_rows t collapsed query) ≡ₚ found) ∧
  shown_files (tree_rows t collapsed query) ⊆+ found.
Proof.
  intros Hnd found. destruct (build_files t (to_lowercase query) Hnd) as [_ Hp].
  unfold tree_rows. cbv zeta. split.
  - intros Hall. rewrite flatten_files; [done|done|]. destruct Hall as [Hq|Hc]; [left|by right].
    by rewrite bool_decide_false.
  - unfold found. rewrite <- Hp. apply sublist_submseteq, flatten_sublist.
Qed.
End build.

(** ** Witness *)

Definition ascii_case : CaseMap := to_ascii_lowercase.

Example tree_lists_files_witness :
  let t := FileTree_new [(bs "1", bs "src/a/x.rs"); (bs "2", bs "src/y.rs"); (bs "3", bs "README")] in
  length (@tree_rows ascii_case t [] []) = 4 ∧
  shown_files (@tree_rows ascii_case t [bs "src"] []) = [(bs "3", bs "README")] ∧
  shown_files (@tree_rows ascii_case t [] []) ≡ₚ entries t.
Proof.
  intros t. split_and!; [vm_compute; reflexivity..|].
  apply (@tree_lists_files ascii_case t [] []); [|by right].
  vm_compute. repeat constructor; rewrite ?list_elem_of_In; cbn; intuition discriminate.
Defined.
