(* ===== verification/Export.v ===== *)
(** * Exported context and links to source lines ([crates/core/src/export.rs],
      [crates/core/src/source_link.rs]) *)

From S2P Require Import Prelude RustStr Utf8 Domain Patch BTree Overview Snapshot.

(** ** Export *)

Record ContextExport := mkContextExport {
  schema_version : N; export_snapshot : SnapshotId; export_title : bytes;
  source_path : bytes; source_path_bytes : bytes; export_origin : bytes;
  export_repository : option RepositoryKey; reviewed_head : option bytes;
  selection : SourceSelection; export_text : bytes; notes : list bytes; provenance : bytes
}.

Definition mebibyte : N := 1024 * 1024.
Definition total_len (ns : list bytes) : N := foldr (λ n t, lenN n + t)%N 0%N ns.

Definition selected (s : Snapshot) (sel : SourceSelection) (notes : list bytes)
    : result bytes ContextExport :=
  text ← copy_selection s sel;
  if (mebibyte <? lenN text)%N || (mebibyte <? total_len notes)%N
  then Err (bs "selected context is larger than 1 MiB")
  else
    f ← ok_or (file s (file_of (sel_start sel))) (bs "selected source file is missing");
    path ← ok_or (match side (sel_start sel) with Left => old_path f | Right => new_path f end)
             (bs "selected source side has no file path");
    Ok (mkContextExport 1 (id s) (title s) (RepoPath.display path) (RepoPath.path_bytes path)
          (origin s) (repository <$> remote s) (head <$> remote s) sel text notes
          (bs "User-selected source from diffz; no model or remote transmission performed")).

(** ** Links *)

Definition unreserved (b : byte) : bool :=
  is_ascii_alphanumeric b || existsb (λ c, bool_decide (b = c)) (bs "-._~/").
Definition encode_byte (b : byte) : bytes :=
  if unreserved b then [b] else Byte.x25 :: hex2 true b.
Definition encode (value : bytes) : bytes := value ≫= encode_byte.

(** The rules of a provider as far as links use them. *)
Record LinkRules := mkLinkRules {
  link_provider : bytes;
  source_link_unavailable_reason : option bytes;
  line_url : RemoteTarget → bytes → bytes → N → bytes
}.

Definition source_link (s : Snapshot) (p : SourcePoint) (rules : option LinkRules)
    : result bytes bytes :=
  if negb (bool_decide (snapshot p = id s)) || (line_no p =? 0)%N
  then Err (bs "Line belongs to a different review")
  else
    t ← ok_or (remote s) (bs "Hosted line link unavailable for local source");
    rules ← ok_or (r ← rules; if bool_decide (link_provider r = provider t) then Some r else None)
              (bs "No provider named " ++ provider t ++ bs " is available for line links");
    match source_link_unavailable_reason rules with
    | Some reason => Err reason
    | None =>
        f ← ok_or (file s (file_of p)) (bs "File is not in this review");
        let '(path, revision) := match side p with
                                 | Left => (old_path f, comparison_base t)
                                 | Right => (new_path f, head t)
                                 end in
        path ← ok_or path (bs "This side has no source file");
        path ← RepoPath.utf8 path;
        Ok (line_url rules t path revision (line_no p))
    end.

(** ** Percent encoding can be undone *)

(** The value of an upper-case hexadecimal digit. *)
Definition upper_hex_val (b : byte) : option N :=
  if is_ascii_digit b then Some (bN b - 48)%N
  else if between 65 70 (bN b) then Some (bN b - 55)%N else None.
Fixpoint percent_decode (s : bytes) : bytes :=
  match s with
  | [] => []
  | b :: s' =>
      match bool_decide (b = Byte.x25), s' with
      | true, h :: (l :: s'') =>
          match upper_hex_val h, upper_hex_val l with
          | Some x, Some y => u8_of (16 * x + y) :: percent_decode s''
          | _, _ => b :: percent_decode s'
          end
      | _, _ => b :: percent_decode s'
      end
  end.

(** The encoding of one byte: itself, or three bytes that hold its two digits. *)
Definition byte_check (b : byte) : bool :=
  if unreserved b then negb (bool_decide (b = Byte.x25))
  else match hex2 true b with
       | [h; l] => match upper_hex_val h, upper_hex_val l with
                   | Some x, Some y => bool_decide (u8_of (16 * x + y) = b)
                                       && is_ascii_alphanumeric h && is_ascii_alphanumeric l
                   | _, _ => false
                   end
       | _ => false
       end.

Lemma bytes_checked b : byte_check b = true.
Proof. by destruct b. Qed.

(** A path put into a URL comes back out of it. Encoding leaves only letters, digits and
    [-._~/] as they are and writes every other byte as a percent sign and two digits, so no
    character that has a meaning in a URL other than the separator of path segments is left,
    and decoding gives the path back, byte by byte. *)
Theorem encode_decodes value :
  percent_decode (encode value) = value ∧
  Forall (λ b, unreserved b = true ∨ b = Byte.x25) (encode value).
Proof.
  induction value as [|b value [IH1 IH2]]; [done|]. unfold encode. rewrite bind_cons.
  fold (encode value). pose proof (bytes_checked b) as Hb. unfold byte_check in Hb.
  unfold encode_byte. destruct (unreserved b) eqn:Eu.
  - split; [|constructor; [by left|done]]. cbn [app percent_decode].
    apply negb_true_iff in Hb. by rewrite Hb, IH1.
  - unfold hex2 in *. destruct (upper_hex_val (hex_digit true (bN b / 16))) as [x|] eqn:Ex; [|done].
    destruct (upper_hex_val (hex_digit true (bN b mod 16))) as [y|] eqn:Ey; [|done].
    apply andb_true_iff in Hb as [[Hb%bool_decide_eq_true Hh]%andb_true_iff Hl]. split.
    + cbn [app percent_decode]. rewrite bool_decide_true by done. by rewrite Ex, Ey, Hb, IH1.
    + unfold unreserved. constructor; [by right|]. constructor; [left; by rewrite Hh|].
      constructor; [left; by rewrite Hl|done].
Qed.
