(* ===== verification/Releases.v ===== *)
(** * Release tags on a compare's range ([crates/adapters/src/releases.rs])

    [steps] cuts the first-parent path of a compare at its release tags, [members] gives
    every commit to the step that brought it in, and [bounded] reads many things at once.
    [bounded] is concurrent: [pool_step] interleaves its threads at the atomic counter. *)

From S2P Require Import Prelude RustStr Utf8 Domain Patch BTree Overview.

Definition MAX_RELEASES : nat := 30.
Definition TAG_PAGES : nat := 10.
Definition WIDTH : nat := 4.

(** ** The timeline *)

Record Step := mkStep { step_tag : option bytes; from : bytes; to : bytes }.

#[export] Instance Step_eq_dec : EqDecision Step.
Proof. solve_decision. Defined.

(** [collect] into a [HashMap]: the last pair of a key stays. *)
Definition hash_map {K V} `{Countable K} (l : list (K * V)) : gmap K V :=
  foldl (λ m p, <[p.1 := p.2]> m) ∅ l.

(** The [while let] loop: [path] is the code's vector, and the loop ends when the next
    parent is outside the range or when the path is longer than the range, on a cycle. *)
Fixpoint first_parents (fuel : nat) (parents : gmap bytes (option bytes)) (range_len : nat)
    (path : list bytes) (at_commit : option bytes) : list bytes :=
  match fuel, at_commit with
  | S f, Some sha =>
      let path := path ++ [sha] in
      first_parents f parents range_len path
        (p ← mjoin (parents !! sha);
         if bool_decide (is_Some (parents !! p)) && (length path <=? range_len)%nat
         then Some p else None)
  | _, _ => path
  end.

(** The loop over the tags, at one of them. *)
Definition place_tag (position : gmap bytes nat) (released : gset bytes)
    (at_ : gmap nat bytes) (t : bytes * bytes) : gmap nat bytes :=
  let '(name, sha) := t in
  match position !! sha with
  | None => at_
  | Some i =>
      match at_ !! i with
      | Some kept => if bool_decide (kept ∈ released) || negb (bool_decide (name ∈ released))
                     then at_ else <[i := name]> at_
      | None => <[i := name]> at_
      end
  end.

(** The loop over the placed tags: the steps so far and the end of the last one. *)
Definition push_step (range : list bytes) (acc : list Step * bytes) (p : nat * bytes)
    : list Step * bytes :=
  let '(ss, from) := acc in
  let to := default [] (range !! p.1) in
  (ss ++ [mkStep (Some p.2) from to], to).

Definition placed_lt : nat * bytes → nat * bytes → bool := pair_lt Nat.ltb lex_lt.

Definition steps (range : list (bytes * option bytes)) (base head : bytes)
    (tags : list (bytes * bytes)) (released : gset bytes) : list Step * list bytes :=
  let parents := hash_map range in
  let at_commit := if bool_decide (is_Some (parents !! head)) then Some head else None in
  let range := reverse (first_parents (S (length range)) parents (length range) [] at_commit) in
  let position := hash_map (imap (λ i sha, (sha, i)) range) in
  let at_ := foldl (place_tag position released) ∅ tags in
  let placed := merge_sort (le_of placed_lt) (map_to_list at_) in
  let cut := length placed - MAX_RELEASES in
  let folded := (take cut placed).*2 in
  let '(ss, from) := foldl (push_step range) ([], base) (drop cut placed) in
  let ss := match last range with
            | Some h => if negb (bool_decide (ss = [])) && negb (bool_decide (h = from))
                        then ss ++ [mkStep None from h] else ss
            | None => ss
            end in
  (ss, folded).

(** ** The commits of each step *)

(** The [while let Some(sha) = next.pop()] loop; [next] is a stack, its top first. *)
Fixpoint reach_loop (fuel : nat) (parents : gmap bytes (list bytes)) (next : list bytes)
    (seen : gset bytes) (added : list bytes) : list bytes * gset bytes :=
  match fuel, next with
  | S f, sha :: next =>
      match parents !! sha with
      | None => reach_loop f parents next seen added
      | Some up =>
          if bool_decide (sha ∈ seen) then reach_loop f parents next seen added
          else reach_loop f parents (reverse up ++ next) ({[sha]} ∪ seen) (added ++ [sha])
      end
  | _, _ => (added, seen)
  end.

(** Every parent of the range is pushed at most once. *)
Definition reach_fuel (parents : gmap bytes (list bytes)) : nat :=
  S (sum_list_with (λ p, length p.2) (map_to_list parents)).

Definition member_step (parents : gmap bytes (list bytes))
    (acc : list (list bytes) * gset bytes) (step : Step) : list (list bytes) * gset bytes :=
  let '(added, seen) := reach_loop (reach_fuel parents) parents [to step] acc.2 [] in
  (acc.1 ++ [added], seen).

Definition members (range : list (bytes * list bytes)) (ss : list Step) : list (list bytes) :=
  (foldl (member_step (hash_map range)) ([], ∅) ss).1.

Definition folded_warning (folded : list bytes) : option bytes :=
  first ← hd_error folded;
  last ← last folded;
  Some (bs "This range holds " ++ dec (lenN folded + N.of_nat MAX_RELEASES)
        ++ bs " release tags; the timeline keeps the newest " ++ dec (N.of_nat MAX_RELEASES)
        ++ bs " and folds the oldest " ++ dec (lenN folded) ++ bs " (" ++ first ++ bs " to "
        ++ last ++ bs ") into its first step.").

(** ** Reading many things at once *)

Section bounded.
Context {E R : Type}.

(** A worker thread: taking the next index, running [f] on an item, about to stop the
    others after a failure, returned, or panicked (its results are lost). *)
Inductive Phase := Taking | Running (i : nat) | Stopping | Returned | Panicked.
#[export] Instance Phase_eq_dec : EqDecision Phase.
Proof. solve_decision. Defined.
Record Worker := mkWorker { phase : Phase; worker_done : list (nat * result E R) }.
Record Pool := mkPool { next : nat; workers : list Worker }.

(** What the one call on each item does; [None] is a panic. *)
Variable outcomes : list (option (result E R)).

Definition set_worker (k : nat) (w : Worker) (ws : list Worker) : list Worker := <[k := w]> ws.

(** One atomic action of one thread. *)
Inductive pool_step : Pool → Pool → Prop :=
| pool_take n ws k d :
    ws !! k = Some (mkWorker Taking d) → n < length outcomes →
    pool_step (mkPool n ws) (mkPool (S n) (set_worker k (mkWorker (Running n) d) ws))
| pool_return n ws k d :
    ws !! k = Some (mkWorker Taking d) → length outcomes ≤ n →
    pool_step (mkPool n ws) (mkPool (S n) (set_worker k (mkWorker Returned d) ws))
| pool_ok n ws k d i r :
    ws !! k = Some (mkWorker (Running i) d) → outcomes !! i = Some (Some (Ok r)) →
    pool_step (mkPool n ws) (mkPool n (set_worker k (mkWorker Taking (d ++ [(i, Ok r)])) ws))
| pool_err n ws k d i e :
    ws !! k = Some (mkWorker (Running i) d) → outcomes !! i = Some (Some (Err e)) →
    pool_step (mkPool n ws) (mkPool n (set_worker k (mkWorker Stopping (d ++ [(i, Err e)])) ws))
| pool_panic n ws k d i :
    ws !! k = Some (mkWorker (Running i) d) → outcomes !! i = Some None →
    pool_step (mkPool n ws) (mkPool n (set_worker k (mkWorker Panicked []) ws))
| pool_stop n ws k d :
    ws !! k = Some (mkWorker Stopping d) →
    pool_step (mkPool n ws)
              (mkPool (length outcomes) (set_worker k (mkWorker Returned d) ws)).

Definition start_pool : Pool :=
  mkPool 0 (replicate (Nat.min WIDTH (length outcomes)) (mkWorker Taking [])).

(** Every thread is joined. *)
Definition joined_pool (p : Pool) : Prop :=
  Forall (λ w, phase w = Returned ∨ phase w = Panicked) (workers p).

Definition by_index (a b : nat * result E R) : Prop := a.1 ≤ b.1.
#[local] Instance by_index_dec a b : Decision (by_index a b) := decide (a.1 ≤ b.1).

(** After the join: sort by index, and collect unless results are missing. *)
Definition pool_result (stopped : E) (p : Pool) : result E (list R) :=
  let done := merge_sort by_index (concat (worker_done <$> workers p)) in
  if negb (length done =? length outcomes)%nat && forallb (λ d, is_ok d.2) done
  then Err stopped
  else mapM snd done.

End bounded.
