(* ===== verification/ReleasesFacts.v ===== *)
(** * Placing release tags and reading many things at once

    [bounded]: whatever the schedule of its threads, the answer is that of reading the
    items one after the other. [steps] and [members]: the timeline is a chain along first
    parents and every commit of the range belongs to the first step that reaches it. *)

From S2P Require Import Prelude RustStr Utf8 Domain Patch BTree Overview Releases.

(** ** The thread pool *)

(** Replacing one element of a list changes a concatenation in one place. *)
Lemma concat_insert {A B} (g : A → list B) ws k w w' :
  ws !! k = Some w →
  ∃ rest, concat (g <$> ws) ≡ₚ g w ++ rest ∧ concat (g <$> <[k:=w']> ws) ≡ₚ g w' ++ rest.
Proof.
  intros Hk. apply list_elem_of_split_length in Hk as (l1 & l2 & -> & ->).
  exists (concat (g <$> l1) ++ concat (g <$> l2)).
  rewrite (insert_app_r_alt l1) by lia. rewrite Nat.sub_diag. cbn [list_insert insert].
  rewrite !fmap_app, !fmap_cons, !concat_app. cbn [concat].
  split; apply Permutation_app_swap_app.
Qed.

Section pool.
Context {E R : Type}.
Implicit Types (rs : list (result E R)) (p : Pool (E := E) (R := R)).

Definition owned (w : Worker (E := E) (R := R)) : list nat :=
  (worker_done w).*1 ++ match phase w with Running i => [i] | _ => [] end.
Definition all_owned p : list nat := concat (owned <$> workers p).
Definition all_done p : list (nat * result E R) := concat (worker_done <$> workers p).

(** Reading the items in order and stopping at the first failure. *)
Definition one_by_one rs : result E (list R) := mapM id rs.

(** The indices handed out are the first [k], and no thread returns before either all of
    them are or a failure is known. *)
Record pool_inv rs (k : nat) p : Prop := {
  inv_bound : k ≤ length rs;
  inv_owned : all_owned p ≡ₚ seq 0 k;
  inv_done : ∀ d, d ∈ all_done p → rs !! d.1 = Some d.2;
  inv_next : next p = k ∨
    (length rs ≤ next p ∧ (k = length rs ∨ ∃ d, d ∈ all_done p ∧ is_ok d.2 = false));
  inv_stopping : ∀ w, w ∈ workers p → phase w = Stopping →
    ∃ d, d ∈ worker_done w ∧ is_ok d.2 = false;
  inv_returned : ∀ w, w ∈ workers p → phase w = Returned → length rs ≤ next p;
  inv_panicked : ∀ w, w ∈ workers p → phase w ≠ Panicked
}.

Lemma replicate_start n (w : Worker (E := E) (R := R)) :
  owned w = [] → worker_done w = [] →
  concat (owned <$> replicate n w) = [] ∧ concat (worker_done <$> replicate n w) = [].
Proof.
  intros Ho Hd. rewrite !fmap_replicate, Ho, Hd.
  induction n as [|n [IH1 IH2]]; cbn; [done|]. by rewrite IH1, IH2.
Qed.

Lemma pool_inv_start rs : pool_inv rs 0 (start_pool (Some <$> rs)).
Proof.
  destruct (replicate_start (Nat.min WIDTH (length (Some <$> rs))) (mkWorker Taking [])
              eq_refl eq_refl) as [Ho Hd].
  assert (∀ w : Worker (E := E) (R := R),
            w ∈ workers (start_pool (Some <$> rs)) → phase w = Taking) as Hp.
  { intros w Hw. apply elem_of_replicate in Hw as [-> _]. done. }
  split; unfold all_owned, all_done; cbn [workers next start_pool] in *.
  - lia.
  - by rewrite Ho.
  - rewrite Hd. intros d Hd'. by apply not_elem_of_nil in Hd'.
  - by left.
  - intros w Hw E1. rewrite (Hp w Hw) in E1. done.
  - intros w Hw E1. rewrite (Hp w Hw) in E1. done.
  - intros w Hw E1. rewrite (Hp w Hw) in E1. done.
Qed.

Lemma elem_of_insert_inv {A} (l : list A) k x y : y ∈ <[k:=x]> l → y = x ∨ y ∈ l.
Proof.
  intros H. apply list_elem_of_lookup in H as [j Hj].
  apply list_lookup_insert_Some in Hj as [(_ & <- & _)|(_ & Hj)]; [by left|right].
  by eapply list_elem_of_lookup_2.
Qed.

(** What one action of worker [k] does to the indices and to the results. *)
Lemma worker_change n m ws k w w' :
  ws !! k = Some w →
  ∃ ro rd,
    (all_owned (mkPool n ws) ≡ₚ owned w ++ ro ∧
     all_owned (mkPool m (set_worker k w' ws)) ≡ₚ owned w' ++ ro) ∧
    (all_done (mkPool n ws) ≡ₚ worker_done w ++ rd ∧
     all_done (mkPool m (set_worker k w' ws)) ≡ₚ worker_done w' ++ rd).
Proof.
  intros Hk. destruct (concat_insert owned ws k w w' Hk) as (ro & Ho).
  destruct (concat_insert worker_done ws k w w' Hk) as (rd & Hd). by exists ro, rd.
Qed.

(** A step that moves no index and keeps the worker's results. *)
Lemma pool_inv_quiet rs k n m ws j w w' :
  pool_inv rs k (mkPool n ws) → ws !! j = Some w →
  owned w' = owned w → worker_done w' = worker_done w →
  phase w' = Returned → length rs ≤ m → (length rs ≤ n ∨ phase w = Stopping) →
  pool_inv rs k (mkPool m (set_worker j w' ws)).
Proof.
  intros [Hb Ho Hd Hn Hs Hr Hp] Hj Eo Ed Ep Hm Hwhy.
  destruct (worker_change n m ws j w w' Hj) as (ro & rd & [O1 O2] & [D1 D2]).
  assert (all_done (mkPool m (set_worker j w' ws)) ≡ₚ all_done (mkPool n ws)) as HD.
  { by rewrite D1, D2, Ed. }
  split; cbn [next workers] in *.
  - done.
  - by rewrite O2, Eo, <- O1.
  - intros d Hd'. apply Hd. by rewrite <- HD.
  - right. split; [done|]. destruct Hwhy as [Hn'|Hst].
    + destruct Hn as [->|[_ [->|(d & Hd1 & Hd2)]]]; [left; lia|by left|].
      right. exists d. by rewrite HD.
    + right. destruct (Hs w) as (d & Hd1 & Hd2); [by eapply list_elem_of_lookup_2|done|].
      exists d. split; [|done]. rewrite HD, D1. apply elem_of_app. by left.
  - intros v Hv E1. apply elem_of_insert_inv in Hv as [-> |Hv]; [by rewrite Ep in E1|by apply Hs].
  - intros v _ _. done.
  - intros v Hv E1. apply elem_of_insert_inv in Hv as [-> |Hv]; [by rewrite Ep in E1|by apply (Hp v)].
Qed.

(** A step in which worker [j] stores the result of its item. *)
Lemma pool_inv_result rs k n ws j i r d ph :
  pool_inv rs k (mkPool n ws) → ws !! j = Some (mkWorker (Running i) d) →
  rs !! i = Some r → (ph = Taking ∨ (ph = Stopping ∧ is_ok r = false)) →
  pool_inv rs k (mkPool n (set_worker j (mkWorker ph (d ++ [(i, r)])) ws)).
Proof.
  intros [Hb Ho Hd Hn Hs Hr Hp] Hj Hi Hph.
  set (w' := mkWorker ph (d ++ [(i, r)])).
  destruct (worker_change n n ws j _ w' Hj) as (ro & rd & [O1 O2] & [D1 D2]).
  assert (owned w' = owned (mkWorker (Running i) d)) as Eo.
  { unfold owned, w'. cbn [worker_done phase]. rewrite fmap_app, <- app_assoc.
    destruct Hph as [-> |[-> _]]; done. }
  assert (all_done (mkPool n (set_worker j w' ws)) ≡ₚ (i, r) :: all_done (mkPool n ws)) as HD.
  { rewrite D1, D2. unfold w'. cbn [worker_done]. rewrite <- app_assoc.
    apply Permutation_sym, Permutation_middle. }
  split; cbn [next workers] in *.
  - done.
  - by rewrite O2, Eo, <- O1.
  - intros x Hx. rewrite HD, elem_of_cons in Hx. destruct Hx as [-> |Hx]; [done|by apply Hd].
  - destruct Hn as [->|[Hn [->|(x & Hx1 & Hx2)]]]; [by left|right; eauto|].
    right. split; [done|]. right. exists x. split; [|done]. rewrite HD. by right.
  - intros v Hv E1. apply elem_of_insert_inv in Hv as [-> |Hv]; [|by apply Hs].
    unfold w' in *. cbn [phase worker_done] in *. subst ph.
    destruct Hph as [Hph|[_ Hr']]; [done|]. exists (i, r). split; [|done].
    apply elem_of_app. right. by left.
  - intros v Hv E1. apply elem_of_insert_inv in Hv as [-> |Hv]; [|by apply (Hr v)].
    unfold w' in E1. cbn in E1. subst ph. destruct Hph as [Hph|[Hph _]]; done.
  - intros v Hv E1. apply elem_of_insert_inv in Hv as [-> |Hv]; [|by apply (Hp v)].
    unfold w' in E1. cbn in E1. subst ph. destruct Hph as [Hph|[Hph _]]; done.
Qed.

(** A step in which worker [j] takes the next index. *)
Lemma pool_inv_take rs k n ws j d :
  pool_inv rs k (mkPool n ws) → ws !! j = Some (mkWorker Taking d) → n < length rs →
  pool_inv rs (S k) (mkPool (S n) (set_worker j (mkWorker (Running n) d) ws)).
Proof.
  intros [Hb Ho Hd Hn Hs Hr Hp] Hj Hlt. cbn [next workers] in *.
  destruct Hn as [->|[Hn _]]; [|lia].
  destruct (worker_change k (S k) ws j _ (mkWorker (Running k) d) Hj)
    as (ro & rd & [O1 O2] & [D1 D2]).
  assert (all_done (mkPool (S k) (set_worker j (mkWorker (Running k) d) ws))
          ≡ₚ all_done (mkPool k ws)) as HD by (by rewrite D1, D2).
  split; cbn [next workers].
  - lia.
  - rewrite O2, seq_S, <- Ho, O1. unfold owned. cbn [worker_done phase].
    rewrite app_nil_r, <- !app_assoc. apply Permutation_app_head, Permutation_app_comm.
  - intros x Hx. apply Hd. by rewrite <- HD.
  - by left.
  - intros v Hv E1. apply elem_of_insert_inv in Hv as [-> |Hv]; [done|by apply Hs].
  - intros v Hv E1. apply elem_of_insert_inv in Hv as [-> |Hv]; [done|].
    specialize (Hr v Hv E1). lia.
  - intros v Hv E1. apply elem_of_insert_inv in Hv as [-> |Hv]; [done|by apply (Hp v)].
Qed.

Lemma pool_inv_step rs k p p' :
  pool_inv rs k p → pool_step (Some <$> rs) p p' → ∃ k', pool_inv rs k' p'.
Proof.
  intros Hinv Hstep. destruct Hstep as
    [n ws j d Hj Hlt|n ws j d Hj Hge|n ws j d i r Hj Hi|n ws j d i e Hj Hi
    |n ws j d i Hj Hi|n ws j d Hj]; rewrite ?length_fmap, ?list_lookup_fmap in *.
  - exists (S k). by apply pool_inv_take.
  - exists k. eapply pool_inv_quiet; [done..|lia|by left].
  - destruct (rs !! i) as [r'|] eqn:Hr; [|done]. injection Hi as ->.
    exists k. eapply pool_inv_result; [done..|by left].
  - destruct (rs !! i) as [r'|] eqn:Hr; [|done]. injection Hi as ->.
    exists k. eapply pool_inv_result; [done..|by right].
  - by destruct (rs !! i).
  - exists k. eapply pool_inv_quiet; [done..|by right].
Qed.

Lemma pool_inv_run rs p :
  rtc (pool_step (Some <$> rs)) (start_pool (Some <$> rs)) p → ∃ k, pool_inv rs k p.
Proof.
  intros Hrun. assert (∃ k, pool_inv rs k (start_pool (Some <$> rs))) as H0.
  { exists 0. apply pool_inv_start. }
  revert H0. induction Hrun as [p|p q r Hs _ IH]; intros [k Hk]; [by exists k|].
  apply IH. by eapply pool_inv_step.
Qed.

(** ** The results in order *)

#[local] Existing Instance by_index_dec.

Lemma by_index_total : Total (by_index (E := E) (R := R)).
Proof. intros a b. unfold by_index. lia. Qed.
Lemma by_index_trans : Transitive (by_index (E := E) (R := R)).
Proof. intros a b c. unfold by_index. lia. Qed.

Lemma seq_sorted a n : StronglySorted (≤) (seq a n).
Proof.
  revert a. induction n as [|n IH]; intros a; cbn; constructor; [done|].
  apply Forall_forall. intros x Hx. apply elem_of_seq in Hx. lia.
Qed.

(** Results of the first [k] items, in any order, are sorted into the order of the items. *)
Lemma sort_outcomes (os : list (option (result E R))) k (done : list (nat * result E R)) :
  done.*1 ≡ₚ seq 0 k → (∀ d, d ∈ done → os !! d.1 = Some (Some d.2)) →
  Some <$> (merge_sort by_index done).*2 = take k os.
Proof.
  intros Hk Hd. set (l := merge_sort by_index done).
  assert (l ≡ₚ done) as Hl by apply merge_sort_Permutation.
  assert (l.*1 = seq 0 k) as Hfst.
  { eapply (StronglySorted_unique (≤)); [|apply seq_sorted|by rewrite Hl].
    apply (StronglySorted_fmap _ by_index); [done|].
    apply StronglySorted_merge_sort; [apply by_index_trans|apply by_index_total]. }
  apply list_eq. intros i. rewrite !list_lookup_fmap.
  assert (fst <$> l !! i = seq 0 k !! i) as Hi by (by rewrite <- Hfst, list_lookup_fmap).
  destruct (decide (i < k)) as [Hik|Hik].
  - rewrite lookup_seq_lt in Hi by done. rewrite lookup_take_lt by done.
    destruct (l !! i) as [d|] eqn:Ed; [|done]. injection Hi as Hd1.
    rewrite <- Hd1. symmetry. apply Hd. rewrite <- Hl. by eapply list_elem_of_lookup_2.
  - rewrite lookup_seq_ge in Hi by lia. rewrite lookup_take_ge by lia.
    by destruct (l !! i).
Qed.

Lemma sort_results rs k (done : list (nat * result E R)) :
  done.*1 ≡ₚ seq 0 k → (∀ d, d ∈ done → rs !! d.1 = Some d.2) →
  (merge_sort by_index done).*2 = take k rs.
Proof.
  intros Hk Hd. apply (inj (fmap Some)). rewrite fmap_take.
  apply sort_outcomes; [done|]. intros d Hin. by rewrite list_lookup_fmap, Hd.
Qed.

Lemma mapM_snd (l : list (nat * result E R)) : mapM snd l = mapM id (l.*2).
Proof. induction l as [|[n [a|e]] l IH]; cbn; [done| |done]. by rewrite IH. Qed.

(** A failure among the first results decides the answer. *)
Lemma one_by_one_app rs1 rs2 :
  (∃ r, r ∈ rs1 ∧ is_ok r = false) → one_by_one (rs1 ++ rs2) = one_by_one rs1.
Proof.
  unfold one_by_one. induction rs1 as [|[a|e] rs1 IH]; cbn; intros (r & Hr & Hf).
  - by apply not_elem_of_nil in Hr.
  - rewrite elem_of_cons in Hr. destruct Hr as [-> |Hr]; [done|].
    rewrite IH; [done|by exists r].
  - done.
Qed.

Lemma one_by_one_Ok rs : forallb (λ r, is_ok r) rs = true ↔ ∃ l, one_by_one rs = Ok l.
Proof.
  unfold one_by_one. induction rs as [|[a|e] rs IH]; cbn.
  - split; [by eexists|done].
  - rewrite IH. split.
    + intros [l ->]. by eexists.
    + intros [l Hl]. destruct (mapM id rs) as [l'|]; [by eexists|done].
  - split; [done|]. by intros [l Hl].
Qed.

Lemma workers_kept (os : list (option (result E R))) p :
  rtc (pool_step os) (start_pool os) p → length (workers p) = Nat.min WIDTH (length os).
Proof.
  intros Hrun.
  assert (length (workers (start_pool os)) = Nat.min WIDTH (length os)) as H0.
  { cbn. apply length_replicate. }
  revert H0. induction Hrun as [|p q r Hs _ IH]; [done|]. intros H0. apply IH. rewrite <- H0.
  by destruct Hs; cbn [workers]; unfold set_worker; rewrite length_insert.
Qed.

(** Joined threads hold nothing, and they stopped early only after a failure. *)
Lemma joined_done rs p :
  rtc (pool_step (Some <$> rs)) (start_pool (Some <$> rs)) p → joined_pool p →
  ∃ k, (merge_sort by_index (all_done p)).*2 = take k rs ∧ k ≤ length rs ∧
       (k = length rs ∨ ∃ r, r ∈ take k rs ∧ is_ok r = false).
Proof.
  intros Hrun Hj. destruct (pool_inv_run _ _ Hrun) as [k [Hb Ho Hd Hn Hs Hr Hp]].
  assert (∀ w, w ∈ workers p → phase w = Returned) as Hret.
  { intros w Hw. unfold joined_pool in Hj. rewrite Forall_forall in Hj.
    destruct (Hj w Hw); [done|]. by destruct (Hp w). }
  assert (all_owned p = (all_done p).*1) as Hod.
  { unfold all_owned, all_done. clear -Hret. induction (workers p) as [|w ws IH]; [done|].
    rewrite !fmap_cons. cbn [concat]. rewrite fmap_app, <- IH.
    - f_equal. unfold owned. rewrite Hret by (by left). apply app_nil_r.
    - intros v Hv. apply Hret. by right. }
  rewrite Hod in Ho. pose proof (sort_results rs k _ Ho Hd) as Hsort.
  exists k. split; [done|]. split; [done|].
  assert (length rs ≤ next p ∨ k = length rs) as Hlen.
  { pose proof (workers_kept _ _ Hrun) as Hw. rewrite length_fmap in Hw.
    destruct (workers p) as [|w ws]; cbn [length] in Hw.
    - right. unfold WIDTH in Hw. lia.
    - left. apply (Hr w); [by left|]. apply Hret. by left. }
  destruct Hn as [Hn|[_ [Hn|(d & Hd1 & Hd2)]]]; [left; lia|by left|].
  right. exists d.2. split; [|done]. rewrite <- Hsort.
  apply list_elem_of_fmap_2. by rewrite merge_sort_Permutation.
Qed.

(** Every run of the pool that joins its threads gives the sequential answer. *)
Lemma joined_result rs p stopped :
  rtc (pool_step (Some <$> rs)) (start_pool (Some <$> rs)) p → joined_pool p →
  pool_result (Some <$> rs) stopped p = one_by_one rs.
Proof.
  intros Hrun Hj. destruct (joined_done _ _ Hrun Hj) as (k & Hsort & Hk & Hwhy).
  unfold pool_result. fold (all_done p). set (done := merge_sort by_index (all_done p)) in *.
  assert (mapM snd done = one_by_one rs) as ->.
  { rewrite mapM_snd, Hsort. fold (one_by_one (take k rs)).
    destruct Hwhy as [->|He]; [by rewrite take_ge|].
    rewrite <- (take_drop k rs) at 2. by rewrite one_by_one_app. }
  rewrite length_fmap.
  assert (length done = k) as ->.
  { rewrite <- (length_fmap snd done), Hsort, length_take. lia. }
  destruct Hwhy as [->|(r & Hr & Hf)]; [by rewrite Nat.eqb_refl|].
  assert (forallb (λ d, is_ok d.2) done = false) as ->; [|by rewrite andb_false_r].
  apply not_true_iff_false. rewrite forallb_forall. intros Hall.
  rewrite <- Hsort in Hr. apply list_elem_of_fmap_1 in Hr as (d & -> & Hd).
  rewrite Hall in Hf; [done|]. by apply list_elem_of_In.
Qed.

(** ** Every run ends *)

Definition phase_weight (ph : Phase) : nat :=
  match ph with Running _ => 3 | Taking => 1 | Stopping => 1 | Returned => 0 | Panicked => 0 end.
Definition pool_weight (len : nat) p : nat :=
  3 * (len - next p) + sum_list ((λ w, phase_weight (phase w)) <$> workers p).

Lemma sum_list_insert {A} (g : A → nat) ws k w w' :
  ws !! k = Some w → sum_list (g <$> <[k:=w']> ws) + g w = sum_list (g <$> ws) + g w'.
Proof.
  revert k. induction ws as [|v ws IH]; intros [|k] Hk; cbn in *; try done.
  - injection Hk as ->. lia.
  - specialize (IH k Hk). unfold fmap, insert in *. lia.
Qed.

(** Each action lowers the weight, panics included. *)
Lemma pool_step_weight (os : list (option (result E R))) p p' :
  pool_step os p p' → pool_weight (length os) p' < pool_weight (length os) p.
Proof.
  intros Hstep. unfold pool_weight. destruct Hstep as
    [n ws j d Hj Hlt|n ws j d Hj Hge|n ws j d i r Hj Hi|n ws j d i e Hj Hi
    |n ws j d i Hj Hi|n ws j d Hj]; cbn [next workers]; unfold set_worker;
    pose proof (sum_list_insert (λ w, phase_weight (phase w)) ws j _ (mkWorker Taking []) Hj) as H0;
    match goal with
    | |- context [<[j:=?w']> ws] =>
        pose proof (sum_list_insert (λ w, phase_weight (phase w)) ws j _ w' Hj) as H1
    end; cbn [phase phase_weight] in *; lia.
Qed.

(** With or without panics: no index is taken twice, and results are of their items. *)
Record pool_safe (os : list (option (result E R))) p : Prop := {
  safe_NoDup : NoDup (all_owned p);
  safe_bound : ∀ i, i ∈ all_owned p → i < length os ∧ i < next p;
  safe_done : ∀ d, d ∈ all_done p → os !! d.1 = Some (Some d.2)
}.

(** Taking nothing and storing only results of one's own items keeps the pool safe. *)
Lemma pool_safe_move os n m ws j w w' :
  pool_safe os (mkPool n ws) → ws !! j = Some w →
  NoDup (owned w') → (∀ i, i ∈ owned w' → i ∈ owned w ∨ (i = n ∧ n < length os)) →
  (∀ d, d ∈ worker_done w' → d ∈ worker_done w ∨ os !! d.1 = Some (Some d.2)) →
  (S n = m ∨ ((∀ i, i ∈ owned w' → i ∈ owned w) ∧ (m = n ∨ m = length os))) →
  pool_safe os (mkPool m (set_worker j w' ws)).
Proof.
  intros [Hnd Hb Hd] Hj Hnd' Hsub Hres Hm. cbn [next] in *.
  destruct (worker_change n m ws j w w' Hj) as (ro & rd & [O1 O2] & [D1 D2]).
  rewrite O1 in Hnd. apply NoDup_app in Hnd as (Hnd1 & Hnd2 & Hnd3).
  assert (∀ i, i ∈ owned w ∨ i ∈ ro → i < length os ∧ i < n) as Hb'.
  { intros i Hi. apply Hb. by rewrite O1, elem_of_app. }
  split; cbn [next].
  - rewrite O2. apply NoDup_app. split; [done|]. split; [|done].
    intros i Hi Hro. destruct (Hsub i Hi) as [Hi'|[-> _]]; [by apply (Hnd2 i)|].
    destruct (Hb' n) as [_ ?]; [by right|lia].
  - intros i Hi. rewrite O2, elem_of_app in Hi. destruct Hi as [Hi|Hi].
    + destruct Hm as [<-|[Hm Hm']].
      * destruct (Hsub i Hi) as [Hi'|[-> ?]]; [|lia]. destruct (Hb' i); [by left|lia].
      * destruct (Hb' i) as [? ?]; [left; by apply Hm|]. destruct Hm' as [-> | ->]; lia.
    + destruct (Hb' i) as [? ?]; [by right|]. destruct Hm as [<-|[_ [-> | ->]]]; lia.
  - intros d Hd'. rewrite D2, elem_of_app in Hd'. destruct Hd' as [Hd'|Hd'].
    + destruct (Hres d Hd') as [H|H]; [|done]. apply Hd. rewrite D1. apply elem_of_app. by left.
    + apply Hd. rewrite D1. apply elem_of_app. by right.
Qed.

Lemma pool_safe_owned os n ws j w :
  pool_safe os (mkPool n ws) → ws !! j = Some w →
  NoDup (owned w) ∧ (∀ i, i ∈ owned w → i < n).
Proof.
  intros [Hnd Hb _] Hj. destruct (concat_insert owned ws j w w Hj) as (ro & O1 & _).
  unfold all_owned in *. cbn [workers next] in *. rewrite O1 in Hnd.
  apply NoDup_app in Hnd as (Hnd & _). split; [done|].
  intros i Hi. apply Hb. rewrite O1. apply elem_of_app. by left.
Qed.

Lemma pool_safe_step os p p' : pool_safe os p → pool_step os p p' → pool_safe os p'.
Proof.
  intros Hsafe Hstep. destruct Hstep as
    [n ws j d Hj Hlt|n ws j d Hj Hge|n ws j d i r Hj Hi|n ws j d i e Hj Hi
    |n ws j d i Hj Hi|n ws j d Hj];
    destruct (pool_safe_owned _ _ _ _ _ Hsafe Hj) as [Hnd Hlt'];
    eapply (pool_safe_move _ _ _ _ _ _ _ Hsafe Hj);
    unfold owned in *; cbn [phase worker_done] in *;
    rewrite ?fmap_app, ?app_nil_r in *; cbn [fmap list_fmap fst] in *.
  - apply NoDup_app. split; [done|]. split; [|apply NoDup_singleton].
    intros x Hx ->%list_elem_of_singleton. specialize (Hlt' n Hx). lia.
  - intros x Hx. rewrite elem_of_app, list_elem_of_singleton in Hx. naive_solver.
  - by left.
  - by left.
  - done.
  - by left.
  - by left.
  - by left.
  - done.
  - by left.
  - intros x Hx. rewrite elem_of_app, list_elem_of_singleton in Hx.
    destruct Hx as [Hx| ->]; [by left|by right].
  - right. split; [done|by left].
  - done.
  - by left.
  - intros x Hx. rewrite elem_of_app, list_elem_of_singleton in Hx.
    destruct Hx as [Hx| ->]; [by left|by right].
  - right. split; [done|by left].
  - constructor.
  - intros x Hx. by apply not_elem_of_nil in Hx.
  - intros x Hx. by apply not_elem_of_nil in Hx.
  - right. split; [|by left]. intros x Hx. by apply not_elem_of_nil in Hx.
  - done.
  - by left.
  - by left.
  - right. split; [done|by right].
Qed.

Lemma pool_safe_run os p : rtc (pool_step os) (start_pool os) p → pool_safe os p.
Proof.
  intros Hrun. assert (pool_safe os (start_pool os)) as H0.
  { destruct (replicate_start (Nat.min WIDTH (length os)) (mkWorker Taking [])
                eq_refl eq_refl) as [Ho Hd].
    split; unfold all_owned, all_done; cbn [workers next start_pool]; rewrite ?Ho, ?Hd.
    - constructor.
    - intros i Hi. by apply not_elem_of_nil in Hi.
    - intros d Hd'. by apply not_elem_of_nil in Hd'. }
  revert H0. induction Hrun as [p|p q r Hs _ IH]; [done|]. intros H0.
  apply IH. by eapply pool_safe_step.
Qed.

(** A pool whose threads are not joined can move. *)
Lemma pool_progress os p :
  rtc (pool_step os) (start_pool os) p → joined_pool p ∨ ∃ p', pool_step os p p'.
Proof.
  intros Hrun. pose proof (pool_safe_run _ _ Hrun) as Hsafe. destruct p as [n ws].
  destruct (decide (Forall (λ w : Worker (E := E) (R := R),
                              phase w = Returned ∨ phase w = Panicked) ws)) as [H|H]; [by left|].
  right. apply not_Forall_Exists in H; [|apply _]. apply Exists_exists in H as (w & Hw & Hn).
  apply list_elem_of_lookup in Hw as [j Hj]. destruct w as [ph d]. cbn in Hn.
  destruct ph as [|i| | |].
  - destruct (decide (n < length os)); eexists; [by apply pool_take|apply pool_return; [done|lia]].
  - destruct (os !! i) as [[[r|e]|]|] eqn:Hi.
    + eexists. by eapply pool_ok.
    + eexists. by eapply pool_err.
    + eexists. by eapply pool_panic.
    + exfalso. apply lookup_ge_None in Hi. destruct Hsafe as [_ Hb _].
      destruct (concat_insert owned ws j _ (mkWorker Taking []) Hj) as (ro & O1 & _).
      destruct (Hb i) as [? _]; [|lia]. unfold all_owned. cbn [workers]. rewrite O1.
      unfold owned. cbn. rewrite !elem_of_app. left. right. by left.
  - eexists. by eapply pool_stop.
  - by destruct Hn; left.
  - by destruct Hn; right.
Qed.

Lemma one_by_one_Forall2 rs l : one_by_one rs = Ok l → rs = Ok <$> l.
Proof.
  unfold one_by_one. revert l. induction rs as [|[a|e] rs IH]; cbn; intros l Hl.
  - by injection Hl as <-.
  - destruct (mapM id rs) as [l'|]; [|done]. injection Hl as <-. cbn. f_equal. by apply IH.
  - done.
Qed.

(** Indices without repetition below their number are all of them. *)
Lemma NoDup_below n (l : list nat) :
  NoDup l → (∀ i, i ∈ l → i < n) → length l = n → l ≡ₚ seq 0 n.
Proof.
  intros Hnd Hb Hlen. apply submseteq_length_Permutation.
  - apply NoDup_submseteq; [done|]. intros i Hi. apply elem_of_seq. specialize (Hb i Hi). lia.
  - rewrite length_seq. lia.
Qed.

(** Even when threads panic, an answer is the complete list of results. *)
Lemma joined_Ok_complete os p stopped l :
  rtc (pool_step os) (start_pool os) p → pool_result os stopped p = Ok l →
  os = (λ r, Some (Ok r)) <$> l.
Proof.
  intros Hrun. destruct (pool_safe_run _ _ Hrun) as [Hnd Hb Hd].
  unfold pool_result. fold (all_done p). intros Hres.
  set (sorted := merge_sort by_index (all_done p)) in *.
  assert (mapM snd sorted = Ok l ∧ length sorted = length os) as [Hl Hlen].
  { destruct (negb _) eqn:En in Hres; [|by to_prop].
    destruct (forallb _ _) eqn:Ef in Hres; cbn in Hres; [done|]. exfalso.
    apply not_true_iff_false in Ef. apply Ef.
    rewrite mapM_snd in Hres. apply one_by_one_Forall2 in Hres.
    apply forallb_forall. intros d Hin%list_elem_of_In.
    apply (list_elem_of_fmap_2 snd) in Hin. rewrite Hres in Hin.
    by apply list_elem_of_fmap_1 in Hin as (r & -> & _). }
  assert (sorted ≡ₚ all_done p) as Hperm by apply merge_sort_Permutation.
  assert ((all_done p).*1 ⊆+ all_owned p) as Hsub.
  { unfold all_done, all_owned. clear. induction (workers p) as [|w ws IH]; [done|].
    rewrite !fmap_cons. cbn [concat]. rewrite fmap_app. apply submseteq_app; [|done].
    unfold owned. by apply submseteq_inserts_r. }
  rewrite mapM_snd in Hl. apply one_by_one_Forall2 in Hl.
  assert ((all_done p).*1 ≡ₚ seq 0 (length os)) as Hidx.
  { apply NoDup_below.
    - apply submseteq_Permutation in Hsub as [k Hsub]. rewrite Hsub in Hnd.
      by apply NoDup_app in Hnd as [Hnd _].
    - intros i Hi. apply Hb. by eapply elem_of_submseteq.
    - by rewrite length_fmap, <- Hperm. }
  pose proof (sort_outcomes os _ _ Hidx Hd) as Hs. rewrite take_ge in Hs by done.
  rewrite <- Hs. fold sorted. rewrite Hl, <- list_fmap_compose. done.
Qed.
End pool.

(** ** The commits of each step *)

Section reach.
Context (parents : gmap bytes (list bytes)).

(** [b] is a parent of [a], a commit of the range. *)
Definition edge (a b : bytes) : Prop := ∃ up, parents !! a = Some up ∧ b ∈ up.

(** The commits of the range that a commit has in its history, itself included. *)
Definition reaches (a b : bytes) : Prop := rtc edge a b ∧ is_Some (parents !! b).

Definition unseen (seen : gset bytes) : nat :=
  sum_list_with (λ p : bytes * list bytes, if decide (p.1 ∈ seen) then 0 else length p.2)
                (map_to_list parents).

Lemma unseen_insert seen k up :
  parents !! k = Some up → k ∉ seen → unseen ({[k]} ∪ seen) + length up = unseen seen.
Proof.
  intros Hk Hseen. apply elem_of_map_to_list in Hk.
  pose proof (NoDup_fst_map_to_list parents) as Hnd. unfold unseen.
  apply list_elem_of_split in Hk as (l1 & l2 & Hl). rewrite Hl in *. clear Hl.
  rewrite fmap_app, fmap_cons in Hnd. cbn [fst] in Hnd.
  apply NoDup_app in Hnd as (_ & Hnd1 & Hnd2). apply NoDup_cons in Hnd2 as [Hnd2 _].
  assert (∀ l : list (bytes * list bytes), k ∉ l.*1 →
    sum_list_with (λ p : bytes * list bytes, if decide (p.1 ∈ {[k]} ∪ seen) then 0 else length p.2) l
    = sum_list_with (λ p : bytes * list bytes, if decide (p.1 ∈ seen) then 0 else length p.2) l)
    as Hother.
  { induction l as [|[a u] l IH]; intros Hkl; [done|].
    rewrite fmap_cons in Hkl. apply not_elem_of_cons in Hkl as [Hka Hkl].
    cbn in *. rewrite (IH Hkl). f_equal.
    destruct (decide (a ∈ seen)); [rewrite decide_True by set_solver; done|].
    rewrite decide_False by set_solver. done. }
  rewrite !sum_list_with_app. cbn [sum_list_with fst snd]. rewrite !Hother; [|done|].
  - rewrite decide_True by set_solver. rewrite decide_False by done. lia.
  - intros Hin. by apply (Hnd1 k Hin); left.
Qed.

(** What holds between two rounds of the loop from [root], with [seen0] before it. *)
Record reach_inv (root : bytes) (seen0 : gset bytes) (next : list bytes) (seen : gset bytes)
    (added : list bytes) : Prop := {
  ri_seen : ∀ x, x ∈ seen ↔ x ∈ seen0 ∨ x ∈ added;
  ri_new : ∀ x, x ∈ added → x ∉ seen0;
  ri_NoDup : NoDup added;
  ri_reach : ∀ x, x ∈ added → reaches root x;
  ri_next : ∀ x, x ∈ next → rtc edge root x;
  ri_closed : ∀ a b, a ∈ seen → edge a b → is_Some (parents !! b) → b ∈ seen ∨ b ∈ next;
  ri_root : is_Some (parents !! root) → root ∈ seen ∨ root ∈ next
}.

Lemma reach_loop_inv root seen0 fuel next seen added :
  reach_inv root seen0 next seen added → length next + unseen seen ≤ fuel →
  ∃ seen' added', reach_loop fuel parents next seen added = (added', seen') ∧
                  reach_inv root seen0 [] seen' added'.
Proof.
  revert next seen added. induction fuel as [|f IH]; intros next seen added Hinv Hf.
  { destruct next; [|cbn in Hf; lia]. by eexists _, _. }
  destruct next as [|sha next]; cbn [reach_loop]; [by eexists _, _|]. cbn [length] in Hf.
  destruct Hinv as [H1 H2 H3 H4 H5 H6 H7].
  destruct (parents !! sha) as [up|] eqn:Hsha.
  - case_bool_decide as Hin.
    + apply IH; [|lia]. split; try done.
      * intros x Hx. apply H5. by right.
      * intros a b Ha Hab Hb. destruct (H6 a b Ha Hab Hb) as [?|Hb']; [by left|].
        apply elem_of_cons in Hb' as [-> |?]; [by left|by right].
      * intros Hr. destruct (H7 Hr) as [?|Hb']; [by left|].
        apply elem_of_cons in Hb' as [-> |?]; [by left|by right].
    + apply IH; [|rewrite length_app, length_reverse; pose proof (unseen_insert _ _ _ Hsha Hin); lia].
      split.
      * intros x. rewrite elem_of_union, elem_of_singleton, elem_of_app, list_elem_of_singleton, H1.
        naive_solver.
      * intros x Hx. apply elem_of_app in Hx as [Hx| ->%list_elem_of_singleton]; [by apply H2|].
        intros Hs. apply Hin. apply H1. by left.
      * apply NoDup_app. split; [done|]. split; [|apply NoDup_singleton].
        intros x Hx ->%list_elem_of_singleton. apply Hin. apply H1. by right.
      * intros x Hx. apply elem_of_app in Hx as [Hx| ->%list_elem_of_singleton]; [by apply H4|].
        split; [|by eexists]. apply H5. by left.
      * intros x Hx. apply elem_of_app in Hx as [Hx|Hx]; [|apply H5; by right].
        rewrite elem_of_reverse in Hx. assert (rtc edge root sha) as Hr by (apply H5; by left).
        apply (rtc_r _ sha); [done|]. by exists up.
      * intros a b Ha Hab Hb. apply elem_of_union in Ha as [->%elem_of_singleton|Ha].
        -- right. destruct Hab as (up' & Hup & Hb'). rewrite Hsha in Hup. injection Hup as <-.
           apply elem_of_app. left. by apply elem_of_reverse.
        -- destruct (H6 a b Ha Hab Hb) as [?|Hb']; [left; set_solver|].
           apply elem_of_cons in Hb' as [-> |?]; [left; set_solver|right; apply elem_of_app; by right].
      * intros Hr. destruct (H7 Hr) as [?|Hb']; [left; set_solver|].
        apply elem_of_cons in Hb' as [-> |?]; [left; set_solver|right; apply elem_of_app; by right].
  - apply IH; [|lia]. split; try done.
    + intros x Hx. apply H5. by right.
    + intros a b Ha Hab Hb. destruct (H6 a b Ha Hab Hb) as [?|Hb']; [by left|].
      apply elem_of_cons in Hb' as [-> |?]; [rewrite Hsha in Hb; by destruct Hb|by right].
    + intros Hr. destruct (H7 Hr) as [?|Hb']; [by left|].
      apply elem_of_cons in Hb' as [-> |?]; [rewrite Hsha in Hr; by destruct Hr|by right].
Qed.

(** Seen commits have their whole history seen. *)
Definition closed (seen : gset bytes) : Prop :=
  ∀ a b, a ∈ seen → edge a b → is_Some (parents !! b) → b ∈ seen.

Lemma closed_reaches seen a b : closed seen → a ∈ seen → reaches a b → b ∈ seen.
Proof.
  intros Hc Ha [Hr Hb]. induction Hr as [a|a c b Hac Hr IH]; [done|].
  apply IH; [|done]. apply (Hc a c Ha Hac). inversion Hr as [|? ? ? (up & Hup & _)]; subst; [done|].
  by eexists.
Qed.

Lemma reach_loop_spec root seen0 :
  closed seen0 →
  ∃ seen added,
    reach_loop (reach_fuel parents) parents [root] seen0 [] = (added, seen) ∧
    NoDup added ∧ closed seen ∧ (∀ x, x ∈ added ↔ reaches root x ∧ x ∉ seen0) ∧
    (∀ x, x ∈ seen ↔ x ∈ seen0 ∨ reaches root x).
Proof.
  intros Hc. destruct (reach_loop_inv root seen0 (reach_fuel parents) [root] seen0 [])
    as (seen & added & Hl & [H1 H2 H3 H4 H5 H6 H7]).
  - split.
    + intros x. rewrite elem_of_nil. naive_solver.
    + intros x Hx. by apply not_elem_of_nil in Hx.
    + constructor.
    + intros x Hx. by apply not_elem_of_nil in Hx.
    + intros x ->%list_elem_of_singleton. constructor.
    + intros a b Ha Hab Hb. left. by eapply Hc.
    + intros _. right. by left.
  - unfold reach_fuel, unseen. cbn. apply le_n_S. clear.
    induction (map_to_list parents) as [|p l IH]; cbn; [lia|]. destruct (decide _); lia.
  - assert (closed seen) as Hc'.
    { intros a b Ha Hab Hb. destruct (H6 a b Ha Hab Hb) as [?|Hn]; [done|].
      by apply not_elem_of_nil in Hn. }
    assert (∀ x, reaches root x → x ∈ seen) as Hall.
    { intros x Hx. eapply closed_reaches; [done| |done].
      destruct H7 as [?|Hn]; [|done|by apply not_elem_of_nil in Hn].
      destruct Hx as [Hr Hx]. inversion Hr as [|? ? ? (up & Hup & _)]; subst; [done|by eexists]. }
    exists seen, added. split; [done|]. split; [done|]. split; [done|]. split.
    + intros x. split; [naive_solver|]. intros [Hx Hn]. apply Hall, H1 in Hx. naive_solver.
    + intros x. rewrite H1. split; [naive_solver|].
      intros [Hx|Hx]; [by left|]. by apply H1, Hall.
Qed.
End reach.

(** The commits that [to] reaches and no earlier step does. *)
Definition first_reached (parents : gmap bytes (list bytes)) (ss : list Step) (k : nat)
    (s : Step) (x : bytes) : Prop :=
  reaches parents (to s) x ∧ ∀ j s', j < k → ss !! j = Some s' → ¬ reaches parents (to s') x.

Lemma members_fold parents ss :
  ∃ ml seen, foldl (member_step parents) ([], ∅) ss = (ml, seen) ∧ closed parents seen ∧
    length ml = length ss ∧ (∀ x, x ∈ seen ↔ ∃ s, s ∈ ss ∧ reaches parents (to s) x) ∧
    ∀ k s, ss !! k = Some s →
      ∃ added, ml !! k = Some added ∧ NoDup added ∧ ∀ x, x ∈ added ↔ first_reached parents ss k s x.
Proof.
  induction ss as [|s ss IH] using rev_ind.
  { exists [], ∅. split; [done|]. split; [intros a b Ha; set_solver|]. split; [done|].
    split; [|done]. intros x. split; [set_solver|]. by intros (s & Hs%not_elem_of_nil & _). }
  destruct IH as (ml & seen & Hf & Hc & Hlen & Hseen & Hml).
  destruct (reach_loop_spec parents (to s) seen Hc) as (seen' & added & Hl & Hnd & Hc' & Ha & Hs').
  exists (ml ++ [added]), seen'. rewrite foldl_app, Hf. cbn [foldl member_step fst snd].
  unfold member_step. cbn [fst snd]. rewrite Hl. split; [done|]. split; [done|].
  split; [rewrite !length_app; cbn; lia|]. split.
  - intros x. rewrite Hs', Hseen. setoid_rewrite elem_of_app.
    setoid_rewrite list_elem_of_singleton. naive_solver.
  - intros k s0 Hk. apply lookup_app_Some in Hk as [Hk|[Hge Hk]].
    + destruct (Hml k s0 Hk) as (a0 & Hk' & Hnd' & Ha'). exists a0.
      split; [by apply lookup_app_l_Some|]. split; [done|]. intros x. rewrite Ha'.
      unfold first_reached. apply lookup_lt_Some in Hk.
      split; intros [H1 H2]; split; [done| |done|]; intros j s' Hj Hjs; apply (H2 j s' Hj).
      * by rewrite lookup_app_l in Hjs by lia.
      * by rewrite lookup_app_l by lia.
    + apply list_lookup_singleton_Some in Hk as [Hk <-].
      assert (k = length ss) as -> by lia. exists added.
      split; [rewrite <- Hlen; by apply list_lookup_middle|]. split; [done|].
      intros x. rewrite Ha, Hseen. unfold first_reached. apply and_iff_compat_l. split.
      * intros Hn j s' Hj Hjs Hr. apply Hn. exists s'. split; [|done].
        rewrite lookup_app_l in Hjs by lia. by eapply list_elem_of_lookup_2.
      * intros Hn (s' & Hin & Hr). apply list_elem_of_lookup in Hin as [j Hj].
        pose proof (lookup_lt_Some _ _ _ Hj) as Hlt. apply (Hn j s' Hlt); [|done].
        by rewrite lookup_app_l by lia.
Qed.

(** [members] lists, for each step of the timeline, without repetition, exactly the
    commits of the range that are in the history of the step's commit and of no earlier
    step's: together the lists partition what the steps reach, whatever the shape of the
    graph, cycles and missing parents included. *)
Theorem members_first_reached range ss :
  length (members range ss) = length ss ∧
  ∀ k s, ss !! k = Some s →
    ∃ added, members range ss !! k = Some added ∧ NoDup added ∧
             ∀ x, x ∈ added ↔ first_reached (hash_map range) ss k s x.
Proof.
  unfold members. destruct (members_fold (hash_map range) ss) as (ml & seen & -> & _ & H & _ & Hm).
  done.
Qed.

(** ** The timeline *)

(** First parents from a commit to the last one in the range, newest first. *)
Inductive ancestry (parents : gmap bytes (option bytes)) : bytes → list bytes → Prop :=
| ancestry_out sha : parents !! sha = None → ancestry parents sha []
| ancestry_root sha : parents !! sha = Some None → ancestry parents sha [sha]
| ancestry_parent sha p l :
    parents !! sha = Some (Some p) → ancestry parents p l → ancestry parents sha (sha :: l).

(** The tag shown at a commit: the first with a release, else the first listed. *)
Definition tag_at (tags : list (bytes * bytes)) (released : gset bytes) (sha : bytes)
    : option bytes :=
  let names := (filter (λ t : bytes * bytes, t.2 = sha) tags).*1 in
  match hd_error (filter (λ n, n ∈ released) names) with
  | Some n => Some n
  | None => hd_error names
  end.

Fixpoint chain (start : bytes) (l : list (bytes * bytes)) : list Step :=
  match l with
  | [] => []
  | (name, sha) :: l' => mkStep (Some name) start sha :: chain sha l'
  end.

(** The timeline of a path, oldest commit first. *)
Definition timeline (path : list bytes) (base head : bytes) (tags : list (bytes * bytes))
    (released : gset bytes) : list Step * list bytes :=
  let placed := omap (λ sha, n ← tag_at tags released sha; Some (n, sha)) path in
  let cut := length placed - MAX_RELEASES in
  let kept := drop cut placed in
  (chain base kept ++
   match last kept with
   | Some (_, sha) => if bool_decide (head = sha) then [] else [mkStep None sha head]
   | None => []
   end, (take cut placed).*1).

Section hash_map.
Context {K V : Type} `{Countable K}.
Implicit Types (l : list (K * V)).

Lemma hash_map_snoc l k v : hash_map (l ++ [(k, v)]) = <[k:=v]> (hash_map l).
Proof. unfold hash_map. by rewrite foldl_app. Qed.

Lemma hash_map_is_Some l k : is_Some (hash_map l !! k) ↔ k ∈ l.*1.
Proof.
  induction l as [|[k' v] l IH] using rev_ind.
  { split; [by intros [? ?]|by intros ?%not_elem_of_nil]. }
  rewrite hash_map_snoc, lookup_insert_is_Some', IH, fmap_app, elem_of_app.
  cbn [fmap list_fmap fst]. rewrite list_elem_of_singleton. naive_solver.
Qed.

Lemma hash_map_lookup l k v : NoDup l.*1 → hash_map l !! k = Some v ↔ (k, v) ∈ l.
Proof.
  induction l as [|[k' v'] l IH] using rev_ind.
  { split; [done|by intros ?%not_elem_of_nil]. }
  rewrite fmap_app. intros (Hnd & Hn & _)%NoDup_app. rewrite hash_map_snoc.
  rewrite elem_of_app, list_elem_of_singleton. rewrite lookup_insert_Some, (IH Hnd).
  split; [naive_solver|]. intros [Hin|[= -> ->]]; [|by left]. right. split; [|done].
  intros ->. apply (Hn k); [by apply (list_elem_of_fmap_2 fst) in Hin|by left].
Qed.
End hash_map.

Lemma hash_map_position (path : list bytes) sha i :
  NoDup path → hash_map (imap (λ i sha, (sha, i)) path) !! sha = Some i ↔ path !! i = Some sha.
Proof.
  intros Hnd. rewrite hash_map_lookup.
  - rewrite elem_of_lookup_imap. split.
    + by intros (j & y & [= -> ->] & Hj).
    + intros Hi. by exists i, sha.
  - rewrite fmap_imap. enough (∀ l : list bytes, l = path → NoDup l) as Hl.
    { apply Hl. apply list_eq. intros j. rewrite list_lookup_imap. by destruct (path !! j). }
    by intros l ->.
Qed.

Section timeline.
Context (parents : gmap bytes (option bytes)).

Definition in_range (sha : bytes) : option bytes :=
  if bool_decide (is_Some (parents !! sha)) then Some sha else None.

Lemma ancestry_det sha l1 l2 : ancestry parents sha l1 → ancestry parents sha l2 → l1 = l2.
Proof.
  intros H1. revert l2. induction H1 as [sha Hs|sha Hs|sha p l Hs Ha IH]; intros l2 H2;
    inversion H2 as [? Hs'|? Hs'|? p' l' Hs' Ha']; subst; rewrite Hs in Hs';
    try done.
  injection Hs' as <-. f_equal. by apply IH.
Qed.

Lemma ancestry_suffix sha l x :
  ancestry parents sha l → x ∈ l → ∃ l', ancestry parents x l' ∧ length l' ≤ length l.
Proof.
  induction 1 as [sha Hs|sha Hs|sha p l Hs Ha IH]; intros Hx.
  - by apply not_elem_of_nil in Hx.
  - apply list_elem_of_singleton in Hx as ->. exists [sha]. split; [by apply ancestry_root|done].
  - apply elem_of_cons in Hx as [-> |Hx].
    + exists (sha :: l). split; [by eapply ancestry_parent|done].
    + destruct (IH Hx) as (l' & Hl' & Hlen). exists l'. split; [done|]. cbn. lia.
Qed.

Lemma ancestry_NoDup sha l : ancestry parents sha l → NoDup l.
Proof.
  induction 1 as [sha Hs|sha Hs|sha p l Hs Ha IH]; [constructor|apply NoDup_singleton|].
  constructor; [|done]. intros Hin. destruct (ancestry_suffix _ _ _ Ha Hin) as (l' & Hl' & Hlen).
  assert (ancestry parents sha (sha :: l)) as Hc by (by eapply ancestry_parent).
  rewrite (ancestry_det _ _ _ Hl' Hc) in Hlen. cbn in Hlen. lia.
Qed.

Lemma ancestry_in_range sha l x : ancestry parents sha l → x ∈ l → is_Some (parents !! x).
Proof.
  induction 1 as [sha Hs|sha Hs|sha p l Hs Ha IH]; intros Hx.
  - by apply not_elem_of_nil in Hx.
  - apply list_elem_of_singleton in Hx as ->. by eexists.
  - apply elem_of_cons in Hx as [-> |Hx]; [by eexists|by apply IH].
Qed.

(** Enough fuel for the loop is one unit for each commit. *)
Lemma first_parents_ancestry sha l fuel n path :
  ancestry parents sha l → length l ≤ fuel → length path + length l ≤ n →
  first_parents fuel parents n path (in_range sha) = path ++ l.
Proof.
  intros Ha. revert fuel path.
  induction Ha as [sha Hs|sha Hs|sha p l Hs Ha IH]; intros fuel path Hf Hn; unfold in_range.
  - rewrite bool_decide_false by (rewrite Hs; by intros [? ?]).
    rewrite app_nil_r. by destruct fuel.
  - rewrite bool_decide_true by (rewrite Hs; by eexists).
    destruct fuel as [|f]; [cbn in Hf; lia|]. cbn [first_parents]. rewrite Hs. cbn.
    by destruct f.
  - rewrite bool_decide_true by (rewrite Hs; by eexists).
    destruct fuel as [|f]; [cbn in Hf; lia|]. cbn [length] in *. cbn [first_parents]. rewrite Hs.
    cbn [mjoin option_join mbind option_bind]. rewrite length_app. cbn [length].
    rewrite (proj2 (Nat.leb_le (length path + 1) n)) by lia. rewrite andb_true_r.
    fold (in_range p). rewrite IH; [by rewrite <- app_assoc|lia|rewrite length_app; cbn; lia].
Qed.
End timeline.

Lemma tag_at_snoc tags released n s sha :
  tag_at (tags ++ [(n, s)]) released sha =
  if bool_decide (s = sha)
  then match tag_at tags released sha with
       | Some kept => if bool_decide (kept ∈ released) || negb (bool_decide (n ∈ released))
                      then Some kept else Some n
       | None => Some n
       end
  else tag_at tags released sha.
Proof.
  unfold tag_at. rewrite filter_app. destruct (decide (s = sha)) as [->|Hne].
  2:{ rewrite bool_decide_false by done. rewrite filter_cons_False by done.
      by rewrite app_nil_r. }
  rewrite bool_decide_true by done. rewrite filter_cons_True by done.
  rewrite filter_nil, fmap_app. cbn [fmap list_fmap fst].
  set (names := (filter (λ t : bytes * bytes, t.2 = sha) tags).*1). clearbody names.
  rewrite filter_app. destruct (filter (λ n, n ∈ released) names) as [|a l] eqn:Ef; cbn [app hd_error].
  - assert (∀ x, x ∈ names → x ∉ released) as Hno.
    { intros x Hx Hr. assert (x ∈ filter (λ n, n ∈ released) names) as Hin.
      { by apply list_elem_of_filter. }
      rewrite Ef in Hin. by apply not_elem_of_nil in Hin. }
    destruct (decide (n ∈ released)) as [Hn|Hn].
    + rewrite filter_cons_True by done. cbn [hd_error]. rewrite bool_decide_true by done.
      destruct names as [|k names]; cbn; [done|].
      rewrite bool_decide_false by (apply Hno; by left). done.
    + rewrite filter_cons_False by done. rewrite filter_nil. cbn [hd_error].
      rewrite bool_decide_false by done.
      destruct names as [|k names]; cbn; [done|]. by rewrite orb_true_r.
  - assert (a ∈ filter (λ n, n ∈ released) names) as Hin by (rewrite Ef; by left).
    apply list_elem_of_filter in Hin as [Ha _]. by rewrite bool_decide_true.
Qed.

(** The map the loop over the tags builds, by position on the path. *)
Lemma place_tags (path : list bytes) position released tags i :
  (∀ sha j, position !! sha = Some j ↔ path !! j = Some sha) →
  foldl (place_tag position released) ∅ tags !! i =
  sha ← path !! i; tag_at tags released sha.
Proof.
  intros Hpos. induction tags as [|[n s] tags IH] using rev_ind.
  { cbn [foldl]. rewrite lookup_empty. by destruct (path !! i). }
  rewrite foldl_app. cbn [foldl]. set (m := foldl (place_tag position released) ∅ tags) in *.
  unfold place_tag at 1.
  destruct (position !! s) as [j|] eqn:Ej.
  2:{ rewrite IH. destruct (path !! i) as [sha|] eqn:Ei; [|done]. cbn.
      rewrite tag_at_snoc, (bool_decide_false (s = sha)); [done|]. intros ->.
      apply Hpos in Ei. by rewrite Ej in Ei. }
  pose proof (proj1 (Hpos s j) Ej) as Hj. destruct (decide (i = j)) as [->|Hne].
  - rewrite Hj in IH |- *. cbn in IH |- *. rewrite tag_at_snoc, (bool_decide_true (s = s)) by done.
    rewrite <- IH. destruct (m !! j) as [kept|] eqn:Em; [|by rewrite lookup_insert_eq].
    destruct (_ || _); [done|by rewrite lookup_insert_eq].
  - assert (∀ v, <[j:=v]> m !! i = m !! i) as Hins.
    { intros v. by rewrite lookup_insert_ne. }
    assert (∀ o : option bytes, match o with
      | Some kept => if bool_decide (kept ∈ released) || negb (bool_decide (n ∈ released))
                     then m else <[j:=n]> m
      | None => <[j:=n]> m end !! i = m !! i) as Hall.
    { intros [kept|]; [destruct (_ || _)|]; done. }
    rewrite Hall, IH. destruct (path !! i) as [sha|] eqn:Ei; [|done]. cbn.
    rewrite tag_at_snoc, (bool_decide_false (s = sha)); [done|]. intros ->.
    apply Hpos in Ei. congruence.
Qed.

(** The tags of a path with their positions, in order. *)
Definition indexed (g : bytes → option bytes) (path : list bytes) : list (nat * bytes) :=
  omap (λ p : nat * bytes, n ← g p.2; Some (p.1, n)) (imap Datatypes.pair path).

Lemma indexed_elem g path i n : (i, n) ∈ indexed g path ↔ (sha ← path !! i; g sha) = Some n.
Proof.
  unfold indexed. rewrite list_elem_of_omap. split.
  - intros ([j sha] & Hj & Hn). apply elem_of_lookup_imap in Hj as (k & y & [= -> ->] & Hk).
    cbn in Hn. destruct (g y) as [m|] eqn:Eg; [|done]. injection Hn as -> ->. by rewrite Hk.
  - intros Hn. destruct (path !! i) as [sha|] eqn:Ei; [|done]. cbn in Hn.
    exists (i, sha). split; [apply elem_of_lookup_imap; by exists i, sha|]. cbn. by rewrite Hn.
Qed.

Lemma indexed_snoc g path sha :
  indexed g (path ++ [sha]) =
  indexed g path ++ match g sha with Some n => [(length path, n)] | None => [] end.
Proof.
  unfold indexed. rewrite imap_app, omap_app. f_equal. cbn. rewrite Nat.add_0_r.
  by destruct (g sha).
Qed.

Lemma indexed_bound g path p : p ∈ indexed g path → p.1 < length path.
Proof.
  destruct p as [i n]. rewrite indexed_elem. intros Hn.
  destruct (path !! i) eqn:Ei; [|done]. by apply lookup_lt_Some in Ei.
Qed.

Lemma indexed_sorted g path : StronglySorted (λ a b : nat * bytes, a.1 < b.1) (indexed g path).
Proof.
  induction path as [|sha path IH] using rev_ind; [constructor|].
  rewrite indexed_snoc. apply sorting.StronglySorted_app_2; [|done|].
  - intros a b Ha Hb. destruct (g sha) as [n|]; [|by apply not_elem_of_nil in Hb].
    apply list_elem_of_singleton in Hb as ->. by apply indexed_bound in Ha.
  - destruct (g sha); repeat constructor.
Qed.

Lemma sorted_NoDup (l : list (nat * bytes)) :
  StronglySorted (λ a b : nat * bytes, a.1 < b.1) l → NoDup l.
Proof.
  induction 1 as [|a l Hs IH Ha]; constructor; [|done].
  intros Hin. rewrite Forall_forall in Ha. specialize (Ha a Hin). lia.
Qed.

Lemma placed_lt_strict : strict_total placed_lt.
Proof.
  apply pair_lt_strict; [|apply lex_lt_strict]. split.
  - intros a. apply Nat.ltb_irrefl.
  - intros a b c. rewrite !Nat.ltb_lt. lia.
  - intros a b Hne. rewrite Nat.ltb_ge, Nat.ltb_lt. lia.
Qed.

Lemma merge_sort_sorted l :
  StronglySorted (λ a b : nat * bytes, a.1 < b.1) l → merge_sort (le_of placed_lt) l = l.
Proof.
  intros Hs. pose proof (le_of_antisymm placed_lt placed_lt_strict).
  pose proof (le_of_trans placed_lt placed_lt_strict).
  pose proof (le_of_total placed_lt placed_lt_strict).
  apply (StronglySorted_unique (le_of placed_lt)).
  - by apply StronglySorted_merge_sort.
  - induction Hs as [|a l Hs IH Ha]; constructor; [done|].
    eapply Forall_impl; [exact Ha|]. intros b Hab. unfold le_of, placed_lt, pair_lt.
    cbn in Hab. rewrite (proj2 (Nat.ltb_ge b.1 a.1)) by lia.
    by rewrite bool_decide_false by lia.
  - apply merge_sort_Permutation.
Qed.

(** Steps pushed one after the other are a chain. *)
Definition tag_and_commit (path : list bytes) (p : nat * bytes) : bytes * bytes :=
  (p.2, default [] (path !! p.1)).

Lemma push_steps path l ss start :
  foldl (push_step path) (ss, start) l =
  (ss ++ chain start (tag_and_commit path <$> l),
   match last (tag_and_commit path <$> l) with Some (_, sha) => sha | None => start end).
Proof.
  revert ss start. induction l as [|p l IH]; intros ss start; cbn [foldl fmap list_fmap chain].
  - by rewrite app_nil_r.
  - unfold push_step at 2. rewrite IH, <- app_assoc. f_equal.
    change (tag_and_commit path p) with (p.2, default [] (path !! p.1)).
    rewrite last_cons. by destruct (last (tag_and_commit path <$> l)).
Qed.

Lemma indexed_commits g path :
  tag_and_commit path <$> indexed g path = omap (λ sha, n ← g sha; Some (n, sha)) path.
Proof.
  induction path as [|sha path IH] using rev_ind; [done|].
  rewrite indexed_snoc, fmap_app, omap_app, <- IH. f_equal.
  - apply list_fmap_ext. intros i p Hp. apply list_elem_of_lookup_2, indexed_bound in Hp.
    unfold tag_and_commit. by rewrite lookup_app_l.
  - cbn. destruct (g sha) as [n|]; [|done]. cbn. unfold tag_and_commit. cbn.
    by rewrite list_lookup_middle.
Qed.

Lemma ancestry_length range head l : ancestry (hash_map range) head l → length l ≤ length range.
Proof.
  intros Ha. rewrite <- (length_fmap fst range). apply submseteq_length, NoDup_submseteq.
  - by eapply ancestry_NoDup.
  - intros x Hx. apply hash_map_is_Some. by eapply ancestry_in_range.
Qed.

(** On a range whose first parents do not run in a circle, [steps] gives the reference
    timeline: the path from the oldest commit to the head is cut at the one tag of each
    commit (the first with a release, else the first listed), each step starts where the one
    before it ends, the newest 30 tags are kept and the older ones are folded, and the
    commits after the last tag end the timeline at the head. *)
Theorem steps_timeline range base head tags released l :
  ancestry (hash_map range) head l →
  steps range base head tags released = timeline (reverse l) base head tags released.
Proof.
  intros Ha. pose proof (ancestry_length _ _ _ Ha) as Hlen.
  assert (NoDup (reverse l)) as Hnd.
  { rewrite reverse_Permutation. by eapply ancestry_NoDup. }
  unfold steps, timeline. fold (in_range (hash_map range) head).
  rewrite (first_parents_ancestry _ head l) by (done || cbn; lia). cbn [app].
  set (path := reverse l) in *.
  set (g := tag_at tags released). set (at_ := foldl _ ∅ tags).
  assert (merge_sort (le_of placed_lt) (map_to_list at_) = indexed g path) as ->.
  { rewrite <- (merge_sort_sorted (indexed g path)) by apply indexed_sorted.
    apply merge_sort_eq_iff; [apply placed_lt_strict|]. apply NoDup_Permutation.
    - apply NoDup_map_to_list.
    - eapply sorted_NoDup, indexed_sorted.
    - intros [i n]. rewrite elem_of_map_to_list, indexed_elem. unfold at_.
      rewrite (place_tags path) by (intros; by apply hash_map_position). done. }
  rewrite <- indexed_commits. rewrite length_fmap.
  set (ix := indexed g path). set (cut := length ix - MAX_RELEASES).
  rewrite push_steps. cbn [app]. rewrite fmap_drop.
  set (kept := drop cut (tag_and_commit path <$> ix)).
  f_equal; [|by rewrite !fmap_take, <- list_fmap_compose].
  assert (last path = hd_error l) as ->.
  { unfold path. destruct l as [|a l']; [done|]. by rewrite reverse_cons, last_snoc. }
  destruct (last kept) as [[n sha]|] eqn:Ek.
  - assert (chain base kept ≠ []) as Hne by (destruct kept as [|[]]; done).
    assert (hd_error l = Some head) as ->.
    { by destruct Ha. }
    rewrite (bool_decide_false (chain base kept = [])) by done. cbn [negb andb].
    destruct (decide (head = sha)) as [->|Hd].
    + rewrite !bool_decide_true by done. by rewrite app_nil_r.
    + by rewrite !bool_decide_false.
  - apply last_None in Ek as ->. cbn. by destruct (hd_error l).
Qed.

(** Five commits, the third of them a merge, with tags on and off the path. *)
Definition sample_range : list (bytes * option bytes) :=
  [(bs "c1", Some (bs "base")); (bs "s1", Some (bs "c1")); (bs "c2", Some (bs "c1"));
   (bs "c3", Some (bs "c2"))].
Definition sample_tags : list (bytes * bytes) :=
  [(bs "v2", bs "c2"); (bs "v1.1", bs "s1"); (bs "v1", bs "c1"); (bs "v1.0", bs "c1")].

Lemma steps_timeline_witness :
  ancestry (hash_map sample_range) (bs "c3") [bs "c3"; bs "c2"; bs "c1"] ∧
  steps sample_range (bs "base") (bs "c3") sample_tags {[bs "v1.0"]} =
    timeline [bs "c1"; bs "c2"; bs "c3"] (bs "base") (bs "c3") sample_tags {[bs "v1.0"]}.
Proof.
  assert (ancestry (hash_map sample_range) (bs "c3") [bs "c3"; bs "c2"; bs "c1"]) as Ha.
  { eapply ancestry_parent; [by vm_compute|]. eapply ancestry_parent; [by vm_compute|].
    eapply ancestry_parent; [by vm_compute|]. apply ancestry_out. by vm_compute. }
  split; [exact Ha|].
  exact (steps_timeline sample_range (bs "base") (bs "c3") sample_tags {[bs "v1.0"]} _ Ha).
Defined.

(** The steps of the sample, computed: the untagged head ends the timeline. *)
Example sample_steps :
  steps sample_range (bs "base") (bs "c3") sample_tags {[bs "v1.0"]} =
  ([mkStep (Some (bs "v1.0")) (bs "base") (bs "c1"); mkStep (Some (bs "v2")) (bs "c1") (bs "c2");
    mkStep None (bs "c2") (bs "c3")], []).
Proof. vm_compute. reflexivity. Qed.

(** ** The promise of [bounded] *)

(** C34: every schedule of the threads of [bounded] ends, after at most three actions for each
    item and one for each thread; until the threads are joined some thread can move; and when
    they are, without a panic the answer is that of reading the items one after the other up
    to the first failure. With panics, an answer that is not an error is still complete. *)
Theorem bounded_answers {E R} (os : list (option (result E R))) (stopped : E) :
  (∀ n p, nsteps (pool_step os) n (start_pool os) p → n ≤ 3 * length os + WIDTH) ∧
  (∀ p, rtc (pool_step os) (start_pool os) p → joined_pool p ∨ ∃ p', pool_step os p p') ∧
  (∀ p rs, rtc (pool_step os) (start_pool os) p → joined_pool p → os = Some <$> rs →
     pool_result os stopped p = one_by_one rs) ∧
  (∀ p l, rtc (pool_step os) (start_pool os) p → joined_pool p →
     pool_result os stopped p = Ok l → os = (λ r, Some (Ok r)) <$> l).
Proof.
  split; [|split; [|split]].
  - intros n p Hn.
    assert (∀ q, nsteps (pool_step os) n q p → n + pool_weight (length os) p
                                              ≤ pool_weight (length os) q) as Hw.
    { clear Hn. induction n as [|n IH]; intros q Hq; inversion Hq as [|? ? q' ? Hs Hr]; subst; [done|].
      apply pool_step_weight in Hs. specialize (IH q' Hr). lia. }
    specialize (Hw _ Hn). unfold pool_weight in Hw at 2. cbn [next workers start_pool] in Hw.
    assert (∀ k, sum_list ((λ w : Worker (E := E) (R := R), phase_weight (phase w))
                             <$> replicate k (mkWorker Taking [])) = k) as Hk.
    { induction k as [|k IHk]; cbn in *; lia. }
    rewrite Hk in Hw. lia.
  - apply pool_progress.
  - intros p rs Hrun Hj ->. by apply joined_result.
  - intros p l Hrun _. by apply joined_Ok_complete.
Qed.

(** One item, read by one thread. *)
Lemma bounded_answers_witness :
  ∃ p, nsteps (pool_step [Some (Ok 7)]) 3 (start_pool [Some (@Ok bytes nat 7)]) p ∧
       3 ≤ 3 * 1 + WIDTH ∧ joined_pool p ∧ pool_result [Some (Ok 7)] (bs "stopped") p = Ok [7].
Proof.
  pose (os := [Some (@Ok bytes nat 7)]).
  pose (p := mkPool 2 [mkWorker Returned [(0, @Ok bytes nat 7)]]).
  assert (nsteps (pool_step os) 3 (start_pool os) p) as Hrun.
  { eapply nsteps_l; [apply (pool_take os 0 _ 0 []); [done|cbn; lia]|].
    eapply nsteps_l; [eapply (pool_ok os 1 _ 0 [] 0 7); done|].
    eapply nsteps_l; [apply (pool_return os 1 _ 0 [(0, Ok 7)]); [done|cbn; lia]|].
    apply nsteps_O. }
  assert (joined_pool p) as Hj by (constructor; [by left|constructor]).
  pose proof (bounded_answers os (bs "stopped")) as (H1 & _ & H3 & _).
  exists p. split; [exact Hrun|]. split; [exact (H1 3 p Hrun)|]. split; [exact Hj|].
  exact (H3 p [Ok 7] (rtc_nsteps_2 _ _ _ Hrun) Hj eq_refl).
Defined.
