(* ===== verification/Process.v ===== *)
(** * Running command-line tools ([crates/adapters/src/process.rs])

    The operating system is outside the program. [drain] is what the reader of a pipe does
    with the pieces it reads, [poll] one round of the loop of [Runner::run] for what it
    observes in that round, and [stderr_excerpt] what an error message may show. *)

From S2P Require Import Prelude RustStr Utf8.

(** ** Requests and results *)

Record ProcessRequest := mkProcessRequest {
  executable : bytes; args : list bytes; cwd : option bytes; stdin : bytes;
  deadline : N;                                   (* milliseconds *)
  stdout_limit : N; stderr_limit : N
}.
Definition new_request (executable : bytes) : ProcessRequest :=
  mkProcessRequest executable [] None [] 30000 (32 * 1024 * 1024) (64 * 1024).
Definition with_args (a : list bytes) (r : ProcessRequest) : ProcessRequest :=
  mkProcessRequest (executable r) a (cwd r) (stdin r) (deadline r) (stdout_limit r)
    (stderr_limit r).

(** [ExitStatus]: its code, or [None] after a signal. *)
Record ProcessOutput := mkProcessOutput {
  status : option Z; stdout : bytes; stderr : bytes
}.
Definition success (code : option Z) : bool := bool_decide (code = Some 0%Z).

(** ** Reading a pipe *)

(** One piece that [read] returns, or its error; an empty piece is the end. *)
Fixpoint drain (cap : nat) (out : bytes) (reads : list (result bytes bytes))
    : option (result bytes bytes) :=
  match reads with
  | [] => None                                    (* still waiting *)
  | Err e :: _ => Some (Err e)
  | Ok [] :: _ => Some (Ok out)
  | Ok piece :: reads =>
      if (cap <? length out + length piece)%nat then Some (Err (bs "output limit"))
      else drain cap (out ++ piece) reads
  end.

(** ** Waiting for the process *)

(** The checks before anything is started. *)
Definition run_checks (cancelled : bool) (r : ProcessRequest) : result bytes unit :=
  if cancelled then Err (bs "process cancelled")
  else if negb (starts_with (bs "/") (executable r))
  then Err (bs "the executable must resolve to a trusted absolute path")
  else if (32 * 1024 * 1024 <? lenN (stdin r))%N
  then Err (bs "process input is larger than the permitted safety bound")
  else Ok tt.

(** What one round of the loop observes: results are [None] while a thread is still busy. *)
Record Tick := mkTick {
  tick_cancelled : bool; tick_overflow : bool; tick_elapsed : N;
  tick_out : option (result bytes bytes); tick_err : option (result bytes bytes);
  tick_input : option (result bytes unit);
  tick_status : result bytes (option (option Z))
}.
(** The loop's variables: [out], [err], [input], [status]. *)
Record Waiting := mkWaiting {
  w_out : option (result bytes bytes); w_err : option (result bytes bytes);
  w_input : option (result bytes unit); w_status : option (option Z)
}.
Definition waiting_start : Waiting := mkWaiting None None None None.
Definition keep {A} (a b : option A) : option A := match a with Some _ => a | None => b end.

(** One round: the result of [run], or the variables for the next round. *)
Definition poll (limit : N) (w : Waiting) (t : Tick) : result bytes ProcessOutput + Waiting :=
  if tick_cancelled t then inl (Err (bs "process cancelled"))
  else if tick_overflow t
  then inl (Err (bs "process output limit exceeded; response was not truncated into success"))
  else if (limit <? tick_elapsed t)%N
  then inl (Err (bs "process deadline exceeded; child group terminated"))
  else
    let out := keep (w_out w) (tick_out t) in
    let err := keep (w_err w) (tick_err t) in
    let input := keep (w_input w) (tick_input t) in
    match (match w_status w with Some s => Ok (Some s) | None => tick_status t end) with
    | Err e => inl (Err e)
    | Ok status =>
        match status, out, err, input with
        | Some s, Some out, Some err, Some input =>
            inl (stdout ← out; stderr ← err;
                 _ ← (if success s then input else Ok tt);
                 Ok (mkProcessOutput s stdout stderr))
        | _, _, _, _ => inr (mkWaiting out err input status)
        end
    end.
Fixpoint wait_loop (limit : N) (w : Waiting) (ts : list Tick)
    : option (result bytes ProcessOutput) :=
  match ts with
  | [] => None
  | t :: ts => match poll limit w t with inl r => Some r | inr w => wait_loop limit w ts end
  end.

(** ** Finding a program *)

Section resolve.
Context (is_file : bytes → bool) (mode : bytes → result bytes N)
  (canonicalize : bytes → result bytes bytes).

Definition join_path (dir name : bytes) : bytes :=
  if ends_with [SLASH] dir then dir ++ name else dir ++ [SLASH] ++ name.
Fixpoint search_path (name : bytes) (dirs : list bytes) : result bytes bytes :=
  match dirs with
  | [] => Err (bs "no absolute PATH directory contains " ++ name)
  | dir :: dirs =>
      if negb (starts_with [SLASH] dir) then search_path name dirs
      else
        let p := join_path dir name in
        if negb (is_file p) then search_path name dirs
        else
          m ← mode p;
          if (N.land m 73 =? 0)%N then search_path name dirs
          else c ← canonicalize dir; Ok (join_path c name)
  end.
Definition resolve_program_in (name path : bytes) : result bytes bytes :=
  if contains_byte SLASH name || contains_byte BACKSLASH name
  then Err (bs "the program name must not contain a path")
  else search_path name (split_on Byte.x3a path).
End resolve.

(** ** What an error may show *)

(** [String::from_utf8_lossy]: U+FFFD for each longest run of bytes that starts no
    character, as [Utf8Chunks] cuts them. *)
Definition invalid_len (s : bytes) : nat :=
  match s with
  | b0 :: b1 :: s2 =>
      if lead3 (bN b0) (bN b1) (is_cont b1) then 2
      else if lead4 (bN b0) (bN b1) (is_cont b1)
      then match s2 with b2 :: _ => if is_cont b2 then 3 else 2 | [] => 2 end
      else 1
  | _ => 1
  end.
Fixpoint lossy_skip (skip : nat) (s : bytes) : list N :=
  match s with
  | [] => []
  | _ :: s' =>
      match skip with
      | S k => lossy_skip k s'
      | O => match decode1 s with
             | Some (c, len) => c :: lossy_skip (pred len) s'
             | None => 65533%N :: lossy_skip (pred (invalid_len s)) s'
             end
      end
  end.
Definition from_utf8_lossy (s : bytes) : list N := lossy_skip 0 s.

(** [str::split] by a predicate on characters. *)
Fixpoint split_chars (p : N → bool) (cs : list N) : list (list N) :=
  match cs with
  | [] => [[]]
  | c :: cs' =>
      if p c then [] :: split_chars p cs'
      else match split_chars p cs' with [] => [[c]] | w :: ws => (c :: w) :: ws end
  end.

Definition hidden (c : N) : bool :=
  between 8203 8207 c || between 8234 8238 c || between 8294 8297 c || (c =? 65279)%N.
Definition breaks (c : N) : bool := is_whitespace c || is_control c || hidden c.

Definition LIMIT : nat := 300.
Definition SECRET_PREFIXES : list bytes :=
  [bs "ghp_"; bs "gho_"; bs "ghu_"; bs "ghs_"; bs "ghr_"; bs "github_pat_"; bs "glpat-";
   bs "gloas-"].
Definition is_secret (redact_next : bool) (word lower : bytes) : bool :=
  (redact_next && (16 <=? length word)%nat)
  || existsb (λ p, contains p lower) SECRET_PREFIXES
  || contains (bs "token=") lower || contains (bs "private-token:") lower
  || (contains (bs "://") lower && contains_byte Byte.x40 word).
Definition redacts_next (lower : bytes) : bool :=
  bool_decide (trim_end_byte Byte.x3a lower ∈
    [bs "bearer"; bs "basic"; bs "token"; bs "authorization"; bs "private-token"]).

(** The loop over the words. *)
Fixpoint excerpt_words (redact_next : bool) (ws : list (list N)) : list bytes :=
  match ws with
  | [] => []
  | [] :: ws => excerpt_words redact_next ws
  | cs :: ws =>
      let word := encode cs in
      let lower := to_ascii_lowercase word in
      (if is_secret redact_next word lower then bs "[redacted]" else word)
      :: excerpt_words (redacts_next lower) ws
  end.
(** [end] counts down to a boundary. *)
Fixpoint floor_boundary (s : bytes) (end_ : nat) : nat :=
  if is_char_boundary s end_ then end_
  else match end_ with S k => floor_boundary s k | O => O end.

Definition stderr_excerpt (stderr : bytes) : option bytes :=
  let text := from_utf8_lossy (take 4096 stderr) in
  let line := join [SPACE] (excerpt_words false (split_chars breaks text)) in
  if bool_decide (line = []) then None
  else if (length line <=? LIMIT)%nat then Some line
  else Some (take (floor_boundary line LIMIT) line ++ encode_char 8230).

(** [read_bounded], with what the file system says about the path. *)
Definition read_bounded (limit : N) (is_regular : bool) (meta_len : N) (data : bytes)
    : result bytes bytes :=
  if negb is_regular
  then Err (bs "source must be a regular file, rather than a pipe, directory, or device")
  else if (limit <? meta_len)%N then Err (bs "file exceeds safety limit")
  else
    let data := take (N.to_nat (limit + 1)) data in
    if (limit <? lenN data)%N
    then Err (bs "the file is over the safety limit; truncated input was not loaded")
    else Ok data.
