(* ===== verification/ProcessFacts.v ===== *)
(** * Tools: what an error shows, and when a run ends *)

From S2P Require Import Prelude RustStr Utf8 Process.

(** ** Substrings *)

Definition occurs (m s : bytes) : Prop := ∃ a b, s = a ++ m ++ b.

Lemma contains_iff m s : contains m s = true ↔ occurs m s.
Proof.
  unfold contains. split.
  - destruct (split_once m s) as [[a b]|] eqn:E; [|done]. intros _.
    apply split_once_Some in E. by exists a, b.
  - intros (a & b & ->). revert b. induction a as [|c a IH]; intros b; cbn [app].
    + destruct m as [|c m]; [by destruct b|]. cbn [app split_once].
      change (c :: m ++ b) with ((c :: m) ++ b). by rewrite strip_prefix_app.
    + cbn [split_once]. destruct (strip_prefix m (c :: a ++ m ++ b)) as [r|]; [done|].
      specialize (IH b). by destruct (split_once m (a ++ m ++ b)) as [[]|].
Qed.

(** A string without [c] that occurs around a [c] occurs on one side of it. *)
Lemma occurs_app_sep m c s t : c ∉ m → occurs m (s ++ c :: t) → occurs m s ∨ occurs m t.
Proof.
  intros Hc (a & b & He). apply app_eq_inv in He as [(k & -> & Hk)|(k & -> & Hk)].
  - apply app_eq_inv in Hk as [(k2 & -> & Hk)|(k2 & -> & _)].
    + left. destruct k2 as [|d k2].
      * exists a, []. by rewrite !app_nil_r.
      * injection Hk as <- _. exfalso. apply Hc, elem_of_app. right. by left.
    + left. by exists a, k2.
  - destruct k as [|d k]; cbn [app] in Hk.
    + destruct m as [|d m]; cbn [app] in Hk.
      * left. exists s, []. by rewrite !app_nil_r.
      * injection Hk as -> _. exfalso. apply Hc. by left.
    + injection Hk as -> ->. right. by exists k, b.
Qed.

Lemma occurs_join m c ws :
  c ∉ m → m ≠ [] → occurs m (join [c] ws) → ∃ w, w ∈ ws ∧ occurs m w.
Proof.
  intros Hc Hne. induction ws as [|w ws IH]; cbn [join].
  - intros (a & b & He). exfalso. apply Hne. destruct a; [|done]. by destruct m.
  - destruct ws as [|w2 ws].
    + intros Ho. exists w. split; [by left|done].
    + intros Ho. cbn [app] in Ho. apply occurs_app_sep in Ho as [Ho|Ho]; [| |done].
      * exists w. split; [by left|done].
      * destruct (IH Ho) as (v & Hv & Hov). exists v. split; [by right|done].
Qed.

Lemma occurs_take m n s : occurs m (take n s) → occurs m s.
Proof.
  intros (a & b & He). exists a, (b ++ drop n s). rewrite !app_assoc, <- (app_assoc a), <- He.
  by rewrite take_drop.
Qed.

(** ** The words of an excerpt *)

(** What an excerpt never shows, in any case of its letters. *)
Definition markers : list bytes := SECRET_PREFIXES ++ [bs "token="; bs "private-token:"].

Lemma redacted_word redact word m :
  m ∈ markers →
  ¬ occurs m (to_ascii_lowercase (if is_secret redact word (to_ascii_lowercase word)
                                  then bs "[redacted]" else word)).
Proof.
  intros Hm Ho. apply contains_iff in Ho.
  destruct (is_secret redact word (to_ascii_lowercase word)) eqn:Es.
  - assert (forallb (λ m, negb (contains m (to_ascii_lowercase (bs "[redacted]")))) markers = true)
      as Hall by (by vm_compute).
    rewrite forallb_forall in Hall. apply list_elem_of_In, Hall in Hm. by rewrite Ho in Hm.
  - unfold is_secret in Es. to_prop. unfold markers in Hm.
    apply elem_of_app in Hm as [Hm|Hm].
    + assert (existsb (λ p, contains p (to_ascii_lowercase word)) SECRET_PREFIXES = true) as He.
      { apply existsb_exists. exists m. split; [by apply list_elem_of_In|done]. }
      congruence.
    + apply elem_of_cons in Hm as [-> |Hm]; [congruence|].
      apply list_elem_of_singleton in Hm as ->. congruence.
Qed.

Lemma excerpt_words_redacted ws redact w m :
  w ∈ excerpt_words redact ws → m ∈ markers → ¬ occurs m (to_ascii_lowercase w).
Proof.
  revert redact. induction ws as [|[|c cs] ws IH]; intros redact; cbn [excerpt_words].
  - by intros ?%not_elem_of_nil.
  - apply IH.
  - intros Hw Hm. apply elem_of_cons in Hw as [-> |Hw]; [by apply redacted_word|by eapply IH].
Qed.

Lemma lowercase_join ws :
  to_ascii_lowercase (join [SPACE] ws) = join [SPACE] (to_ascii_lowercase <$> ws).
Proof.
  unfold to_ascii_lowercase. induction ws as [|w ws IH]; [done|].
  destruct ws as [|w2 ws]; [done|].
  change (join [SPACE] (w :: w2 :: ws)) with (w ++ [SPACE] ++ join [SPACE] (w2 :: ws)).
  rewrite !fmap_app, IH. done.
Qed.

(** Characters of the words: scalars that a line may show. *)
Definition shown (c : N) : Prop := is_scalar c = true ∧ is_control c = false ∧ hidden c = false.

Lemma lossy_scalars k s : Forall (λ c, is_scalar c = true) (lossy_skip k s).
Proof.
  revert k. induction s as [|b s IH]; intros [|k]; cbn [lossy_skip]; [constructor|constructor| |done].
  destruct (decode1 (b :: s)) as [[c len]|] eqn:E; constructor; try done.
  apply decode1_Some in E. naive_solver.
Qed.

Lemma split_chars_shown cs :
  Forall (λ c, is_scalar c = true) cs → Forall (Forall shown) (split_chars breaks cs).
Proof.
  induction 1 as [|c cs Hc _ IH]; cbn [split_chars]; [by repeat constructor|].
  destruct (breaks c) eqn:Eb; [by constructor|].
  unfold breaks in Eb. to_prop.
  destruct IH as [|w ws Hw Hws]; repeat constructor; done.
Qed.

(** A line whose characters are shown, as bytes. *)
Definition shown_text (s : bytes) : Prop := ∃ cs, Forall shown cs ∧ s = encode cs.

Lemma shown_text_app s t : shown_text s → shown_text t → shown_text (s ++ t).
Proof.
  intros (cs & Hcs & ->) (ds & Hds & ->). exists (cs ++ ds).
  by rewrite encode_app, Forall_app.
Qed.

Lemma shown_text_ascii s :
  forallb (λ b, (bN b <? 127)%N && (31 <? bN b)%N) s = true → shown_text s.
Proof.
  intros H. exists (bN <$> s). split.
  - apply Forall_fmap, Forall_forall. intros b Hb. rewrite forallb_forall in H.
    apply list_elem_of_In, H in Hb. to_prop. unfold shown, is_control, hidden.
    split; [apply is_scalar_intro; lia|].
    rewrite !(between_false _ _ (bN b)) by lia. rewrite (proj2 (N.ltb_ge _ _)) by lia.
    by rewrite (proj2 (N.eqb_neq _ _)) by lia.
  - induction s as [|b s IH]; [done|]. cbn [forallb] in H. to_prop.
    unfold encode in *. rewrite !fmap_cons. cbn [concat]. rewrite <- IH by done.
    rewrite encode_char_ascii by lia. done.
Qed.

Lemma excerpt_words_shown redact ws :
  Forall (Forall shown) ws → Forall shown_text (excerpt_words redact ws).
Proof.
  intros Hws. revert redact. induction Hws as [|w ws Hw _ IH]; intros redact; [constructor|].
  destruct w as [|c w]; cbn [excerpt_words]; [apply IH|]. constructor; [|apply IH].
  destruct (is_secret _ _ _); [apply shown_text_ascii; by vm_compute|by eexists].
Qed.

Lemma join_shown ws : Forall shown_text ws → shown_text (join [SPACE] ws).
Proof.
  induction 1 as [|w ws Hw Hws IH]; cbn [join]; [by exists []|].
  destruct ws as [|w2 ws]; [done|]. apply shown_text_app; [done|].
  change ([SPACE] ++ join [SPACE] (w2 :: ws)) with ([SPACE] ++ join [SPACE] (w2 :: ws)).
  apply shown_text_app; [apply shown_text_ascii; by vm_compute|done].
Qed.

Lemma floor_boundary_ok s n :
  is_char_boundary s (floor_boundary s n) = true ∧ floor_boundary s n ≤ n.
Proof.
  induction n as [|n [IH1 IH2]]; [done|]. cbn [floor_boundary].
  destruct (is_char_boundary s (S n)) eqn:E; [done|]. split; [done|lia].
Qed.

Lemma shown_text_take s n :
  shown_text s → is_char_boundary s n = true → shown_text (take n s).
Proof.
  intros (cs & Hcs & ->) Hn.
  assert (Forall (λ c, is_scalar c = true) cs) as Hsc.
  { eapply Forall_impl; [exact Hcs|]. by intros c []. }
  destruct (boundary_split _ _ Hsc Hn) as (c1 & c2 & -> & ->).
  apply Forall_app in Hcs as [Hc1 _]. exists c1. split; [done|].
  by rewrite encode_app, take_app_length.
Qed.

Lemma markers_plain m :
  m ∈ markers → SPACE ∉ m ∧ m ≠ [] ∧ Forall (λ b, (bN b < 128)%N) m.
Proof.
  intros Hm.
  assert (forallb (λ m, negb (contains_byte SPACE m) && negb (bool_decide (m = []))
                        && forallb (λ b, bN b <? 128)%N m) markers = true) as Hall by (by vm_compute).
  rewrite forallb_forall in Hall. apply list_elem_of_In, Hall in Hm.
  unfold contains_byte in Hm. to_prop. split_and!; [done..|].
  apply Forall_forall. intros b Hb. rewrite forallb_forall in H0.
  apply list_elem_of_In, H0 in Hb. by to_prop.
Qed.

(** An ASCII string does not reach into an appended character that is not. *)
Lemma occurs_ascii m s :
  Forall (λ b, (bN b < 128)%N) m ∧ m ≠ [] → occurs m (s ++ [Byte.xe2; Byte.x80; Byte.xa6]) →
  occurs m s.
Proof.
  intros [Hm Hne] Ho.
  assert (∀ b, b ∈ [Byte.xe2; Byte.x80; Byte.xa6] → b ∉ m) as Hn.
  { intros b Hb Hin. rewrite Forall_forall in Hm. specialize (Hm b Hin).
    repeat (apply elem_of_cons in Hb as [-> |Hb]; [by vm_compute in Hm|]).
    by apply not_elem_of_nil in Hb. }
  assert (¬ occurs m []) as Hnil.
  { intros (a & b & He). destruct a; [|done]. by destruct m. }
  apply occurs_app_sep in Ho as [Ho|Ho]; [done| |apply Hn; by left].
  change [Byte.x80; Byte.xa6] with ([] ++ Byte.x80 :: [Byte.xa6]) in Ho.
  apply occurs_app_sep in Ho as [Ho|Ho]; [by destruct (Hnil Ho)| |apply Hn; by right; left].
  change [Byte.xa6] with ([] ++ Byte.xa6 :: []) in Ho.
  apply occurs_app_sep in Ho as [Ho|Ho]; [by destruct (Hnil Ho)|by destruct (Hnil Ho)|].
  apply Hn. by right; right; left.
Qed.

(** Whatever a tool prints, the excerpt of it in an error message is at most 303 bytes
    of UTF-8 on one line, without control, bidirectional and zero-width characters, and it
    never contains the prefix of a GitHub, GitLab or Entire token, [token=] or
    [private-token:], in any case of the letters, not even where it was cut short. *)
Theorem stderr_excerpt_safe err line :
  stderr_excerpt err = Some line →
  utf8_valid line = true ∧ length line ≤ LIMIT + 3 ∧
  Forall (λ c, is_control c = false ∧ hidden c = false) (chars line) ∧
  Forall (λ m, contains m (to_ascii_lowercase line) = false) markers.
Proof.
  unfold stderr_excerpt. set (ws := excerpt_words _ _).
  assert (shown_text (join [SPACE] ws)) as Hshown.
  { apply join_shown, excerpt_words_shown, split_chars_shown, lossy_scalars. }
  assert (∀ m, m ∈ markers → ¬ occurs m (to_ascii_lowercase (join [SPACE] ws))) as Hmark.
  { intros m Hm Ho. rewrite lowercase_join in Ho. apply occurs_join in Ho as (w & Hw & Ho).
    - apply list_elem_of_fmap_1 in Hw as (v & -> & Hv). by eapply excerpt_words_redacted.
    - by apply markers_plain.
    - by apply markers_plain. }
  set (text := join [SPACE] ws) in *. clearbody text.
  assert (∀ s n, shown_text s → length s ≤ n → n ≤ LIMIT + 3 →
            (∀ m, m ∈ markers → ¬ occurs m (to_ascii_lowercase s)) →
            utf8_valid s = true ∧ length s ≤ LIMIT + 3 ∧
            Forall (λ c, is_control c = false ∧ hidden c = false) (chars s) ∧
            Forall (λ m, contains m (to_ascii_lowercase s) = false) markers) as Hdone.
  { intros s n (cs & Hcs & ->) Hn1 Hn2 Hm.
    assert (Forall (λ c, is_scalar c = true) cs) as Hsc.
    { eapply Forall_impl; [exact Hcs|]. by intros c []. }
    split; [apply utf8_valid_iff; by exists cs|]. split; [lia|]. split.
    - unfold chars. rewrite utf8_decode_encode by done. cbn.
      eapply Forall_impl; [exact Hcs|]. by intros c (_ & ? & ?).
    - apply Forall_forall. intros m Hin. apply not_true_iff_false.
      rewrite contains_iff. by apply Hm. }
  case_bool_decide; [done|].
  destruct (floor_boundary_ok text LIMIT) as [Hb Hle].
  set (n := floor_boundary text LIMIT) in *. clearbody n.
  destruct (length text <=? LIMIT) eqn:El; to_prop; intros [= <-].
  { by apply (Hdone _ LIMIT); [|lia|lia|]. }
  apply (Hdone _ (LIMIT + 3)).
  - apply shown_text_app; [apply shown_text_take; [exact Hshown|exact Hb]|]. exists [8230%N].
    split; [|unfold encode; cbn [fmap list_fmap concat]; by rewrite app_nil_r].
    constructor; [by vm_compute|constructor].
  - rewrite length_app, length_take. change (length (encode_char 8230)) with 3. lia.
  - lia.
  - intros m Hm Ho. apply (Hmark m Hm).
    unfold to_ascii_lowercase in *. rewrite fmap_app in Ho.
    assert (occurs m (byte_to_ascii_lowercase <$> take n text)) as Ho2.
    { change (byte_to_ascii_lowercase <$> encode_char 8230) with [Byte.xe2; Byte.x80; Byte.xa6] in Ho.
      apply occurs_ascii in Ho; [done|]. by destruct (markers_plain m Hm) as (_ & ? & ?). }
    rewrite fmap_take in Ho2. by eapply occurs_take.
Qed.

Lemma stderr_excerpt_safe_witness :
  stderr_excerpt (bs "token: ghp_abc") = Some (bs "token: [redacted]") ∧
  contains (bs "ghp_") (to_ascii_lowercase (bs "token: [redacted]")) = false.
Proof.
  assert (stderr_excerpt (bs "token: ghp_abc") = Some (bs "token: [redacted]")) as He
    by (vm_compute; reflexivity).
  split; [exact He|]. pose proof (stderr_excerpt_safe _ _ He) as (_ & _ & _ & Hm).
  rewrite Forall_forall in Hm. apply Hm. by left.
Defined.

(** ** The end of a run *)

(** [run] never waits longer than its deadline: once a round sees the deadline passed,
    a cancellation or an overflow, it has returned, whatever the pipes and the process do. *)
Lemma wait_loop_ends limit ts w :
  (∃ t, t ∈ ts ∧ ((limit < tick_elapsed t)%N ∨ tick_cancelled t = true ∨ tick_overflow t = true)) →
  is_Some (wait_loop limit w ts).
Proof.
  revert w. induction ts as [|t ts IH]; intros w (t' & Hin & Ht); [by apply not_elem_of_nil in Hin|].
  cbn [wait_loop]. destruct (poll limit w t) as [r|w'] eqn:Ep; [by eexists|].
  apply elem_of_cons in Hin as [-> |Hin]; [|apply IH; by exists t'].
  exfalso. unfold poll in Ep. destruct Ht as [Ht|[Ht|Ht]].
  - rewrite (proj2 (N.ltb_lt _ _) Ht) in Ep. by destruct (tick_cancelled t), (tick_overflow t).
  - by rewrite Ht in Ep.
  - rewrite Ht in Ep. by destruct (tick_cancelled t).
Qed.

(** A pipe's bytes are complete or an error, and never more than the limit. *)
Lemma drain_complete cap out reads data :
  drain cap out reads = Some (Ok data) → length out ≤ cap →
  length data ≤ cap ∧ ∃ pieces rest, reads = (Ok <$> pieces) ++ Ok [] :: rest ∧
                                     data = out ++ concat pieces.
Proof.
  revert out. induction reads as [|[[|b piece]|e] reads IH]; intros out; cbn [drain]; try done.
  - intros [= <-] Hle. split; [done|]. exists [], reads. cbn. by rewrite app_nil_r.
  - destruct (cap <? length out + length (b :: piece)) eqn:Ec; to_prop; [done|].
    intros Hd Hle. destruct (IH _ Hd) as (Hl & ps & rest & -> & ->).
    { rewrite length_app. lia. }
    split; [done|]. exists ((b :: piece) :: ps), rest. split; [done|].
    cbn [concat]. by rewrite app_assoc.
Qed.

(** A variable of the loop holds what some round observed. *)
Definition observed {A} (f : Tick → option A) (seen : list Tick) (o : option A) : Prop :=
  ∀ r, o = Some r → ∃ t, t ∈ seen ∧ f t = Some r.

Lemma observed_keep {A} (f : Tick → option A) seen o t :
  observed f seen o → observed f (seen ++ [t]) (keep o (f t)).
Proof.
  intros Ho r Hr. destruct o as [x|]; cbn in Hr.
  - destruct (Ho r Hr) as (t' & Ht' & Hf). exists t'. rewrite elem_of_app. by split; [left|].
  - exists t. rewrite elem_of_app. by split; [right; left|].
Qed.

Definition status_seen (t : Tick) : option (option Z) :=
  match tick_status t with Ok s => s | Err _ => None end.

(** What [run] returns is what the two readers and the process delivered; after a success
    the whole input was written. *)
Lemma wait_loop_Ok limit ts w seen out :
  observed tick_out seen (w_out w) → observed tick_err seen (w_err w) →
  observed status_seen seen (w_status w) → observed tick_input seen (w_input w) →
  wait_loop limit w ts = Some (Ok out) →
  (∃ t, t ∈ seen ++ ts ∧ tick_out t = Some (Ok (stdout out))) ∧
  (∃ t, t ∈ seen ++ ts ∧ tick_err t = Some (Ok (stderr out))) ∧
  (∃ t, t ∈ seen ++ ts ∧ tick_status t = Ok (Some (status out))) ∧
  (success (status out) = true → ∃ t, t ∈ seen ++ ts ∧ tick_input t = Some (Ok tt)).
Proof.
  revert w seen. induction ts as [|t ts IH]; intros w seen Ho He Hs Hi; [done|].
  cbn [wait_loop]. unfold poll.
  destruct (tick_cancelled t); [done|]. destruct (tick_overflow t); [done|].
  destruct (limit <? tick_elapsed t)%N; [done|].
  pose proof (observed_keep _ _ _ t Ho) as Ho'. pose proof (observed_keep _ _ _ t He) as He'.
  pose proof (observed_keep _ _ _ t Hi) as Hi'.
  assert (∀ x, (match w_status w with Some s => Ok (Some s) | None => tick_status t end) = Ok x →
            observed status_seen (seen ++ [t]) x) as Hs'.
  { intros x Hx r ->. destruct (w_status w) as [s|] eqn:Ew.
    - injection Hx as ->. destruct (Hs r eq_refl) as (t' & Ht' & Hf). exists t'.
      rewrite elem_of_app. by split; [left|].
    - exists t. rewrite elem_of_app. split; [by right; left|]. unfold status_seen. by rewrite Hx. }
  destruct (match w_status w with Some s => _ | None => _ end) as [x|e]; [|done].
  specialize (Hs' x eq_refl).
  set (o := keep (w_out w) (tick_out t)) in *. set (e := keep (w_err w) (tick_err t)) in *.
  set (i := keep (w_input w) (tick_input t)) in *. clearbody o e i.
  assert (∀ w', observed tick_out (seen ++ [t]) (w_out w') →
    observed tick_err (seen ++ [t]) (w_err w') → observed status_seen (seen ++ [t]) (w_status w') →
    observed tick_input (seen ++ [t]) (w_input w') → wait_loop limit w' ts = Some (Ok out) →
    _) as IH' by (intros w' A1 A2 A3 A4 A5; exact (IH w' _ A1 A2 A3 A4 A5)).
  rewrite <- !app_assoc in IH'. cbn [app] in IH'.
  destruct x as [s|]; [|by apply (IH' (mkWaiting _ _ _ _))].
  destruct o as [o|]; [|by apply (IH' (mkWaiting _ _ _ _))].
  destruct e as [e|]; [|by apply (IH' (mkWaiting _ _ _ _))].
  destruct i as [i|]; [|by apply (IH' (mkWaiting _ _ _ _))].
  intros [= Hr]. clear IH IH'. destruct o as [o|]; [|done]. destruct e as [e|]; [|done].
  cbn [mbind result_bind] in Hr.
  assert ((if success s then i else Ok tt) = Ok tt ∧ out = mkProcessOutput s o e) as [Hin ->].
  { destruct (if success s then i else Ok tt) as [[]|]; [|done]. by injection Hr. }
  assert (∀ A (f : Tick → option A) r, observed f (seen ++ [t]) (Some r) →
            ∃ t', t' ∈ seen ++ t :: ts ∧ f t' = Some r) as Hget.
  { intros A f r Hf. destruct (Hf r eq_refl) as (t' & Ht' & Hr'). exists t'. split; [|done].
    apply elem_of_app in Ht' as [?|Ht']; apply elem_of_app; [by left|right].
    apply list_elem_of_singleton in Ht' as ->. by left. }
  cbn [stdout stderr status]. split; [by apply Hget|]. split; [by apply Hget|]. split.
  - destruct (Hget _ _ _ Hs') as (t' & Ht' & Hst). exists t'. split; [done|].
    unfold status_seen in Hst. by destruct (tick_status t'); [subst|].
  - intros Hsu. rewrite Hsu in Hin. subst i. by apply Hget.
Qed.

(** A run of a tool ends: once a round of [Runner::run] sees the deadline passed, a
    cancellation or too much output, it has returned. What it returns as output is complete:
    the two pipes' contents up to their end and within their limits, the status of the
    process, and after a success an input that was written whole. *)
Theorem run_complete limit ts :
  (∀ t, t ∈ ts →
     (limit < tick_elapsed t)%N ∨ tick_cancelled t = true ∨ tick_overflow t = true →
     is_Some (wait_loop limit waiting_start ts)) ∧
  (∀ out, wait_loop limit waiting_start ts = Some (Ok out) →
     (∃ t, t ∈ ts ∧ tick_out t = Some (Ok (stdout out))) ∧
     (∃ t, t ∈ ts ∧ tick_err t = Some (Ok (stderr out))) ∧
     (∃ t, t ∈ ts ∧ tick_status t = Ok (Some (status out))) ∧
     (success (status out) = true → ∃ t, t ∈ ts ∧ tick_input t = Some (Ok tt))) ∧
  (∀ cap reads data, drain cap [] reads = Some (Ok data) →
     length data ≤ cap ∧ ∃ pieces rest, reads = (Ok <$> pieces) ++ Ok [] :: rest ∧
                                        data = concat pieces).
Proof.
  split; [|split].
  - intros t Hin Ht. apply wait_loop_ends. by exists t.
  - intros out. apply (wait_loop_Ok limit ts waiting_start []); by intros ?.
  - intros cap reads data Hd. by apply (drain_complete cap []); [|cbn; lia].
Qed.

Lemma run_complete_witness :
  let t := mkTick false false 5 (Some (Ok (bs "out"))) (Some (Ok [])) (Some (Ok tt))
             (Ok (Some (Some 0%Z))) in
  let t0 := mkTick false false 0 None (Some (Ok [])) None (Ok None) in
  wait_loop 30000 waiting_start [t0; t] = Some (Ok (mkProcessOutput (Some 0%Z) (bs "out") [])) ∧
  ∃ t', t' ∈ [t0; t] ∧ tick_input t' = Some (Ok tt).
Proof.
  intros t t0. split; [reflexivity|].
  pose proof (run_complete 30000 [t0; t]) as (_ & H & _).
  exact (proj2 (proj2 (proj2 (H (mkProcessOutput (Some 0%Z) (bs "out") []) eq_refl))) eq_refl).
Defined.
