(* ===== verification/Remote.v ===== *)
(** * Talking to a provider through its command-line tool

    What [github.rs] and [gitlab.rs] share. The crate [url] is a parameter ([UrlParser]), and
    so is the world the tools talk to: [Server] gives what running a tool returns after the
    commands that were run before, so that an answer may depend on everything the program
    has sent. Reads that the code starts on several threads are in the order of the text: a
    server is arbitrary, so every interleaving's answers are some server's.

    The last part is the logic [emits P m]: whatever the server answers, [m] only adds commands
    that satisfy [P] to the ones that were sent before. The rules follow the program text, so
    that [eauto with emits] finds most derivations. *)

From S2P Require Import Prelude RustStr Utf8 BTree Json Process.

(** ** Addresses *)

Class UrlParser := {
  Url : Type;
  parse_url : bytes → option Url;                 (* [Url::parse] *)
  scheme : Url → bytes;
  username : Url → bytes;
  password : Url → option bytes;
  port : Url → option N;
  query : Url → option bytes;
  host_str : Url → option bytes;
  url_path : Url → bytes;
  path_segments : Url → option (list bytes);
  query_pairs : Url → list (bytes * bytes);
  fragment : Url → option bytes;
  url_string : Url → bytes;                       (* [Display] *)
  form_encode : list (bytes * bytes) → bytes      (* [form_urlencoded::Serializer] *)
}.

(** ** Commands and their effects *)

(** One run of a tool: its arguments and its standard input. *)
Record Command := mkCommand { command_args : list bytes; command_stdin : bytes }.

(** The commands so far, oldest first, and the next one. *)
Definition Server := list Command → Command → result bytes ProcessOutput.

(** An error that the code returns, or a panic. *)
Inductive Stop := Failed (m : bytes) | Panics.

Definition io (A : Type) : Type := list Command → result Stop A * list Command.
#[export] Instance io_ret : MRet io := λ A a tr, (Ok a, tr).
#[export] Instance io_bind : MBind io := λ A B f m tr,
  match m tr with
  | (Ok a, tr) => f a tr
  | (Err e, tr) => (Err e, tr)
  end.
#[export] Instance io_fmap : FMap io := λ A B f m tr,
  match m tr with
  | (Ok a, tr) => (Ok (f a), tr)
  | (Err e, tr) => (Err e, tr)
  end.

(** The [?] operator on a pure result, and a value whose absence is a panic. *)
Definition lift {A} (r : result bytes A) : io A := λ tr, (map_err Failed r, tr).
Definition or_panic {A} (o : option A) : io A := λ tr, (ok_or o Panics, tr).
(** A result that the code looks at before it decides, as after joining threads. *)
Definition attempt {A} (m : io A) : io (result bytes A) := λ tr,
  match m tr with
  | (Ok a, tr) => (Ok (Ok a), tr)
  | (Err (Failed e), tr) => (Ok (Err e), tr)
  | (Err Panics, tr) => (Err Panics, tr)
  end.

(** [releases::bounded]: by [bounded_answers] its answer is that of reading the items one
    after the other. *)
Fixpoint bounded_io {A B} (f : A → io B) (l : list A) : io (list B) :=
  match l with
  | [] => mret []
  | x :: l => y ← f x; ys ← bounded_io f l; mret (y :: ys)
  end.

Definition run_command (server : Server) (c : Command) : io ProcessOutput := λ tr,
  (map_err Failed (server tr c), tr ++ [c]).

(** [{:?}] of an [Option<i32>]. *)
Definition debug_code (c : option Z) : bytes :=
  match c with
  | None => bs "None"
  | Some z => bs "Some(" ++ (if (z <? 0)%Z then bs "-" else []) ++ dec (Z.abs_N z) ++ bs ")"
  end.

(** An address with a relative path segment is refused before it is parsed. *)
Definition relative_segments (value : bytes) : bool :=
  existsb (λ p, bool_decide (p = bs "..") || bool_decide (p = bs ".")) (split_on SLASH value).

(** ** What a run sends *)

Definition emits (P : Command → Prop) {A} (m : io A) : Prop :=
  ∀ tr, ∃ cs, (m tr).2 = tr ++ cs ∧ Forall P cs.

Create HintDb emits discriminated.
#[export] Hint Constants Opaque : emits.

Section rules.
Context {P : Command → Prop}.

Lemma emits_ret {A} (a : A) : emits P (mret a).
Proof. intros tr. exists []. by rewrite app_nil_r. Qed.
Lemma emits_lift {A} (r : result bytes A) : emits P (lift r).
Proof. intros tr. exists []. by rewrite app_nil_r. Qed.
Lemma emits_or_panic {A} (o : option A) : emits P (or_panic o).
Proof. intros tr. exists []. by rewrite app_nil_r. Qed.
Lemma emits_panics {A} : emits P (λ tr, (Err Panics, tr) : result Stop A * list Command).
Proof. intros tr. exists []. by rewrite app_nil_r. Qed.
Lemma emits_bind {A B} (m : io A) (f : A → io B) :
  emits P m → (∀ a, emits P (f a)) → emits P (m ≫= f).
Proof.
  intros Hm Hf tr. destruct (Hm tr) as (cs & Hcs & HP). unfold mbind, io_bind.
  destruct (m tr) as [[a|e] tr1]; cbn [snd] in *; subst tr1; [|by exists cs].
  destruct (Hf a (tr ++ cs)) as (ds & -> & HD). exists (cs ++ ds).
  split; [by rewrite app_assoc|by apply Forall_app_2].
Qed.
Lemma emits_lift_bind {A B} (r : result bytes A) (f : A → io B) :
  (∀ a, r = Ok a → emits P (f a)) → emits P (lift r ≫= f).
Proof.
  intros Hf tr. unfold mbind, io_bind, lift. destruct r as [a|e]; cbn [map_err].
  - by apply Hf.
  - exists []. by rewrite app_nil_r.
Qed.
Lemma emits_fmap {A B} (f : A → B) (m : io A) : emits P m → emits P (f <$> m).
Proof.
  intros Hm tr. destruct (Hm tr) as (cs & Hcs & HP). unfold fmap, io_fmap.
  destruct (m tr) as [[a|e] tr1]; cbn [snd] in *; by exists cs.
Qed.
Lemma emits_attempt {A} (m : io A) : emits P m → emits P (attempt m).
Proof.
  intros Hm tr. destruct (Hm tr) as (cs & Hcs & HP). unfold attempt.
  destruct (m tr) as [[a|[e|]] tr1]; cbn [snd] in *; by exists cs.
Qed.
Lemma emits_bounded {A B} (f : A → io B) l : (∀ a, emits P (f a)) → emits P (bounded_io f l).
Proof.
  intros Hf. induction l as [|x l IH]; cbn [bounded_io]; [apply emits_ret|].
  apply emits_bind; [done|]. intros y. apply emits_bind; [done|]. intros ys. apply emits_ret.
Qed.
Lemma emits_run server c : P c → emits P (run_command server c).
Proof. intros Hc tr. exists [c]. split; [done|by constructor]. Qed.
Lemma emits_if {A} (b : bool) (m n : io A) : emits P m → emits P n → emits P (if b then m else n).
Proof. by destruct b. Qed.
End rules.

Lemma emits_weaken (P Q : Command → Prop) {A} (m : io A) :
  (∀ c, P c → Q c) → emits P m → emits Q m.
Proof.
  intros H Hm tr. destruct (Hm tr) as (cs & ? & ?). exists cs. split; [done|].
  by eapply Forall_impl.
Qed.

#[export] Hint Resolve emits_ret emits_lift emits_or_panic emits_panics emits_fmap emits_attempt
  emits_bounded emits_run : emits.

(** One pass over a program's text: binds and branches are taken apart, the rest is left to
    the hints. *)
Ltac emits_walk :=
  repeat first
    [ progress intros
    | solve [eauto 3 with emits nocore]
    | match goal with
      | |- emits _ (lift _ ≫= _) => apply emits_lift_bind
      | |- emits _ (_ ≫= _) => apply emits_bind
      | |- emits _ (_ <$> _) => apply emits_fmap
      | |- emits _ (attempt _) => apply emits_attempt
      | |- emits _ (bounded_io _ _) => apply emits_bounded
      | |- emits _ (match ?x with _ => _ end) => destruct x eqn:?
      end ].

(** ** Runs that succeed *)

Lemma io_bind_Ok {A B} (m : io A) (f : A → io B) tr b tr' :
  (m ≫= f) tr = (Ok b, tr') → ∃ a tr1, m tr = (Ok a, tr1) ∧ f a tr1 = (Ok b, tr').
Proof.
  unfold mbind, io_bind. destruct (m tr) as [[a|e] tr1]; [|done]. intros H. by exists a, tr1.
Qed.
Lemma lift_Ok {A} (r : result bytes A) tr a tr' : lift r tr = (Ok a, tr') → r = Ok a ∧ tr' = tr.
Proof. unfold lift. destruct r; cbn; [|done]. by intros [= -> ->]. Qed.
Lemma ret_Ok {A} (x : A) tr a tr' : (mret x : io A) tr = (Ok a, tr') → x = a ∧ tr' = tr.
Proof. by intros [= -> ->]. Qed.
Lemma or_panic_Ok {A} (o : option A) tr a tr' :
  or_panic o tr = (Ok a, tr') → o = Some a ∧ tr' = tr.
Proof. unfold or_panic. destruct o; cbn; [|done]. by intros [= -> ->]. Qed.
Lemma attempt_Ok {A} (m : io A) tr a tr' :
  attempt m tr = (Ok (Ok a), tr') → m tr = (Ok a, tr').
Proof. unfold attempt. by destruct (m tr) as [[x|[e|]] tr1]; intros [= -> ->]. Qed.
Lemma run_command_Ok server c tr a tr' :
  run_command server c tr = (Ok a, tr') → server tr c = Ok a ∧ tr' = tr ++ [c].
Proof. unfold run_command. destruct (server tr c); cbn; [|done]. by intros [= -> ->]. Qed.

(** Takes the run in [H] one bind further. *)
Ltac io_step H x tr Hx :=
  apply io_bind_Ok in H as (x & tr & Hx & H).
(** The same where the bound program is pure. *)
Ltac io_lift H x Hx :=
  let tr := fresh "tr" in let E := fresh "E" in
  apply io_bind_Ok in H as (x & tr & Hx & H);
  first [apply lift_Ok in Hx as [Hx E] | apply or_panic_Ok in Hx as [Hx E]
        | apply ret_Ok in Hx as [Hx E]];
  subst tr.

Lemma emits_extends {P A} (m : io A) tr r tr' :
  emits P m → m tr = (r, tr') → ∃ cs, tr' = tr ++ cs ∧ Forall P cs.
Proof. intros Hm H. destruct (Hm tr) as (cs & Hcs & HP). rewrite H in Hcs. by exists cs. Qed.
