(* ===== verification/Github.v ===== *)
(** * GitHub ([crates/adapters/src/github.rs])

    Addresses, the requests that [gh] makes, and the translation of what GitHub answers into
    snapshots, comments, checks and patches. *)

From S2P Require Import Prelude RustStr Utf8 Domain Patch BTree Overview Snapshot F32 Session.
From S2P Require Import Review Store Json Outbox Process Remote Releases.
From S2P Require Import Export.

(** ** Addresses *)

Record PrAddress := mkPrAddress {
  pr_host : bytes; pr_owner : bytes; pr_repo : bytes; number : N
}.

Definition identifier (s : bytes) : bool :=
  negb (bool_decide (s = [])) && negb (bool_decide (s = bs ".")) && negb (bool_decide (s = bs ".."))
  && (length s <=? 100)%nat
  && forallb (λ b, is_ascii_alphanumeric b || bool_decide (b ∈ bs "-_.")) s.

Definition checked (host owner repo n : bytes) : result bytes PrAddress :=
  if negb (identifier owner) || negb (identifier repo) || negb (forallb is_ascii_digit n)
  then Err (bs "bad repository identity, or a bad PR number")
  else
    number ← ok_or (parse_u64 n) (bs "invalid PR number");
    if (number =? 0)%N then Err (bs "PR number must be positive")
    else Ok (mkPrAddress host owner repo number).

(** The checks [git check-ref-format] applies. *)
Definition ref_name (s : bytes) : bool :=
  negb (bool_decide (s = [])) && (length s <=? 255)%nat
  && negb (existsb (λ p, starts_with p s) [bs "-"; bs "/"; bs "."])
  && negb (existsb (λ p, ends_with p s) [bs "/"; bs "."])
  && negb (ends_with (bs ".lock") s)
  && negb (contains (bs "..") s) && negb (contains (bs "//") s)
  && negb (contains (bs "@{") s) && negb (contains (bs "/.") s)
  && negb (existsb (λ b, (bN b <=? 32)%N || (bN b =? 127)%N
                         || bool_decide (b ∈ bs "~^:?*[\")) s).

(** The loop over the bytes; [str_get] is [s.get(i + 1..i + 3)]. *)
Fixpoint decode_path_loop (fuel : nat) (s : bytes) (i : nat) (out : bytes)
    : result bytes bytes :=
  match fuel with
  | O => Ok out
  | S f =>
      match s !! i with
      | None => Ok out
      | Some b =>
          if bool_decide (b = Byte.x25)
          then
            hex ← ok_or (h ← str_get s (i + 1) (i + 3); from_str_radix_16 u8_max h)
                    (bs "invalid percent-encoding in the URL");
            decode_path_loop f s (i + 3) (out ++ [u8_of hex])
          else decode_path_loop f s (i + 1) (out ++ [b])
      end
  end.
Definition decode_path (s : bytes) : result bytes bytes :=
  out ← decode_path_loop (length s) s 0 [];
  if utf8_valid out then Ok out else Err (bs "the URL is not valid UTF-8 once decoded").

Definition unreserved (b : byte) : bool :=
  is_ascii_alphanumeric b || bool_decide (b ∈ bs "-._~/").
Definition encode_path (path : bytes) : bytes :=
  concat ((λ b, if unreserved b then [b] else bs "%" ++ hex2 true b) <$> path).

Section address.
Context {url_ : UrlParser}.

Definition PrAddress_parse (value : bytes) : result bytes PrAddress :=
  let value := trim value in
  if starts_with (bs "https://") value then
    if relative_segments value
    then Err (bs "relative URL segments are not accepted as a PR identity")
    else
      u ← ok_or (parse_url value) (bs "invalid PR URL");
      if negb (bool_decide (username u = [])) || is_Some_b (password u) || is_Some_b (port u)
         || is_Some_b (query u)
      then Err (bs "credentials, ports, and query strings are not allowed in a PR URL")
      else
        host ← ok_or (to_ascii_lowercase <$> host_str u) (bs "PR URL has no host");
        match drop 1 (split_on SLASH (trim_end_byte SLASH (url_path u))) with
        | owner :: repo :: pull :: n :: rest =>
            if (1 <? length rest)%nat || negb (bool_decide (pull = bs "pull"))
               || existsb (λ p, negb (bool_decide (p = bs "files") || bool_decide (p = bs "commits")))
                          (take 1 rest)
            then Err (bs "the URL must look like https://HOST/OWNER/REPO/pull/NUMBER")
            else checked host owner repo n
        | _ => Err (bs "the URL must look like https://HOST/OWNER/REPO/pull/NUMBER")
        end
  else
    '(slug, n) ← ok_or (split_once (bs "#") value)
      (bs "pass an owner/repo#number or a full PR URL; a bare number alone is ambiguous");
    '(o, r) ← ok_or (split_once (bs "/") slug) (bs "expected owner/repo#number");
    checked (bs "github.com") o r n.

Record CompareAddress := mkCompareAddress {
  ca_host : bytes; ca_owner : bytes; ca_repo : bytes; ca_refs : CompareRefs
}.

(** [BASE...HEAD], or [BASE..HEAD] for a direct comparison. *)
Definition split_range (missing range : bytes) : result bytes (bytes * bytes * bool) :=
  match split_once (bs "...") range with
  | Some (base, head) => Ok (base, head, false)
  | None => '(base, head) ← ok_or (split_once (bs "..") range) missing; Ok (base, head, true)
  end.
(** A side may be [owner:ref]. *)
Definition side_name (side : bytes) : bytes :=
  match split_once (bs ":") side with
  | Some (owner, name) => if identifier owner then name else []
  | None => side
  end.

Definition view_toggle (q : bytes * bytes) : bool :=
  bool_decide (q ∈ [(bs "expand", bs "1"); (bs "diff", bs "split"); (bs "diff", bs "unified");
                    (bs "w", bs "1")]).

Definition CompareAddress_parse (value : bytes) : result bytes CompareAddress :=
  let value := trim value in
  if relative_segments value
  then Err (bs "relative URL segments are not accepted as a compare identity")
  else
    u ← ok_or (parse_url value) (bs "invalid compare URL");
    if negb (bool_decide (scheme u = bs "https")) || negb (bool_decide (username u = []))
       || is_Some_b (password u) || is_Some_b (port u)
       || existsb (λ q, negb (view_toggle q)) (query_pairs u)
    then Err (bs "a compare URL must be HTTPS, without credentials, ports, or query strings")
    else
      host ← ok_or (to_ascii_lowercase <$> host_str u) (bs "compare URL has no host");
      match drop 1 (splitn 5 SLASH (trim_end_byte SLASH (url_path u))) with
      | [owner; repo; word; range] =>
          if negb (bool_decide (word = bs "compare")) || negb (identifier owner)
             || negb (identifier repo)
          then Err (bs "the URL must look like https://HOST/OWNER/REPO/compare/BASE...HEAD")
          else
            range ← decode_path range;
            '(base, head, direct) ← split_range
              (bs "a compare needs two refs: BASE...HEAD, or BASE..HEAD") range;
            if negb (ref_name (side_name base)) || negb (ref_name (side_name head))
            then Err (bs "the compare names a ref that Git cannot use")
            else Ok (mkCompareAddress host owner repo (mkCompareRefs base head direct))
      | _ => Err (bs "the URL must look like https://HOST/OWNER/REPO/compare/BASE...HEAD")
      end.

Inductive GithubTarget := Pr (a : PrAddress) | Compare (a : CompareAddress).

Definition GithubTarget_parse (value : bytes) : result bytes GithubTarget :=
  let value := trim value in
  let compare := starts_with (bs "https://") value
    && bool_decide ((u ← parse_url value; segments ← path_segments u; segments !! 2)
                    = Some (bs "compare")) in
  if compare then Compare <$> CompareAddress_parse value else Pr <$> PrAddress_parse value.

End address.

Definition from_target (t : RemoteTarget) : PrAddress :=
  mkPrAddress (host (repository t)) (owner (repository t)) (repository_name (repository t)) (pr t).
Definition root (a : PrAddress) : bytes :=
  bs "repos/" ++ pr_owner a ++ bs "/" ++ pr_repo a ++ bs "/pulls/" ++ dec (number a).

(** ** Responses *)

Record HttpResponse := mkHttpResponse { http_status : N; headers : bytes; http_body : bytes }.

(** Where the headers end: at the first empty line, in either line ending. *)
Definition split_headers (s : bytes) : option (bytes * bytes) :=
  match split_once [CR; LF; CR; LF] s with
  | Some p => Some p
  | None => split_once [LF; LF] s
  end.
(** Interim responses are skipped; [fuel] is the length of the input. *)
Fixpoint decode_http_loop (fuel : nat) (s : bytes) : result bytes HttpResponse :=
  '(headers, rest) ← ok_or (split_headers s)
    (bs "no HTTP headers in the gh output could be parsed");
  if negb (utf8_valid headers) then Err (bs "invalid HTTP header encoding")
  else
    first ← ok_or (hd_error (str_lines headers)) (bs "missing HTTP status");
    let words := split_whitespace first in
    if negb (starts_with (bs "HTTP/") (default [] (hd_error words)))
    then Err (bs "gh did not print an HTTP response")
    else
      status ← ok_or (w ← words !! 1; n ← parse_u16 w;
                      if (100 <=? n)%N && (n <? 600)%N then Some n else None)
                 (bs "invalid HTTP status");
      if (status <? 200)%N
      then match fuel with
           | O => Err (bs "no HTTP headers in the gh output could be parsed")
           | S f => decode_http_loop f rest
           end
      else Ok (mkHttpResponse status headers rest).
Definition decode_http (s : bytes) : result bytes HttpResponse := decode_http_loop (length s) s.

Definition incomplete_http (tool : bytes) (output : ProcessOutput) : bytes :=
  let said := match stderr_excerpt (stderr output) with
              | Some e => bs "; " ++ tool ++ bs " reported: " ++ e
              | None => []
              end in
  tool ++ bs " exited before a full HTTP response arrived (exit " ++ debug_code (status output)
  ++ bs ")" ++ said ++ bs "; verify " ++ tool ++ bs " auth status covers this host".

(** ** Paths in a patch *)

Definition plain_byte (b : byte) : bool :=
  between 32 126 (bN b) && negb (bool_decide (b = QUOTE)) && negb (bool_decide (b = BACKSLASH)).
(** [{:03o}]. *)
Definition octal3 (n : N) : bytes :=
  [digit (n / 64); digit (n / 8 mod 8); digit (n mod 8)].
Definition quoted_byte (b : byte) : bytes :=
  if bool_decide (b = QUOTE) then [BACKSLASH; QUOTE]
  else if bool_decide (b = BACKSLASH) then [BACKSLASH; BACKSLASH]
  else if bool_decide (b = TAB) then BACKSLASH :: bs "t"
  else if bool_decide (b = LF) then BACKSLASH :: bs "n"
  else if between 32 126 (bN b) then [b]
  else BACKSLASH :: octal3 (bN b).
Definition quote_path (prefix path : bytes) : bytes :=
  if forallb plain_byte path then prefix ++ path
  else [QUOTE] ++ prefix ++ concat (quoted_byte <$> path) ++ [QUOTE].

(** ** Reading GitHub's JSON *)

Section json.
Context {json_ : JsonValue}.

Definition text (v : Value) (p : bytes) : result bytes bytes :=
  ok_or (x ← pointer v p; as_str x) (bs "GitHub response is missing " ++ p).
Definition number_at (v : Value) (p : bytes) : result bytes N :=
  ok_or (x ← pointer v p; as_u64 x) (bs "GitHub response is missing " ++ p).
Definition is_oid (s : bytes) : bool :=
  ((length s =? 40)%nat || (length s =? 64)%nat) && forallb is_ascii_hexdigit s.
Definition oid (v : Value) (p : bytes) : result bytes bytes :=
  s ← text v p;
  if is_oid s then Ok (to_ascii_lowercase s)
  else Err (bs "the object ID GitHub sent is not valid").

Definition str_at (v : Value) (k : string) : option bytes := as_str (index v (bs k)).
Definition u64_at (v : Value) (k : string) : option N := as_u64 (index v (bs k)).
Definition u32_at (v : Value) (k : string) : option N :=
  n ← u64_at v k; if (n <=? u32_max)%N then Some n else None.
Definition array_at (v : Value) (k : string) : list Value :=
  default [] (as_array (index v (bs k))).
Definition https (u : option bytes) : option bytes :=
  s ← u; if starts_with (bs "https://") s then Some s else None.

Definition check_row (v : Value) (kind : bytes) : CheckRun :=
  let legacy := bool_decide (kind = bs "Status") in
  let state := default (bs "unknown") (str_at v "state") in
  mkCheckRun
    (default (bs "Unnamed check") (str_at v (if legacy then "context" else "name")))
    kind
    (if legacy
     then if bool_decide (state = bs "pending") then bs "queued" else bs "completed"
     else default (bs "unknown") (str_at v "status"))
    (if legacy then Some state else str_at v "conclusion")
    (https (str_at v (if legacy then "target_url" else "html_url"))).

(** REST reports a merged pull request as [closed] with [merged] set. *)
Definition is_merged (m : Value) : bool :=
  is_true (index m (bs "merged")) || is_Some_b (str_at m "merged_at").

Definition target_of (a : PrAddress) (m : Value) (account comparison_base : bytes)
    : result bytes RemoteTarget :=
  owner ← text m (bs "/base/repo/owner/login");
  name ← text m (bs "/base/repo/name");
  if negb (eq_ignore_ascii_case owner (pr_owner a)) || negb (eq_ignore_ascii_case name (pr_repo a))
  then Err (bs "the repository moved to another identity; open the PR at its canonical URL")
  else
    rid ← number_at m (bs "/base/repo/id");
    tip ← oid m (bs "/base/sha");
    head ← oid m (bs "/head/sha");
    Ok (mkRemoteTarget ProviderId.GITHUB (mkRepositoryKey (pr_host a) rid owner name) account
          (number a) tip comparison_base head
          (is_str (index m (bs "state")) (bs "open")) (is_true (index m (bs "draft")))
          (is_merged m) false None None).

Definition thread (v : Value) : result bytes ThreadComment :=
  id ← number_at v (bs "/id");
  path ← text v (bs "/path");
  body ← text v (bs "/body");
  login ← text v (bs "/user/login");
  commit ← text v (bs "/commit_id");
  Ok (mkThreadComment id (default id (u64_at v "in_reply_to_id")) path
        (match str_at v "side" with
         | Some s => if bool_decide (s = bs "LEFT") then Some Left
                     else if bool_decide (s = bs "RIGHT") then Some Right else None
         | None => None
         end)
        (u32_at v "line") (u32_at v "start_line")
        (Some (is_str (index v (bs "subject_type")) (bs "file")))
        body login commit (str_at v "created_at")).

(** One file of the per-file API as a part of a patch. *)
Definition file_patch (f : Value) : bytes :=
  match str_at f "filename" with
  | None => []
  | Some name =>
      let prev := default name (str_at f "previous_filename") in
      let status := default (bs "modified") (str_at f "status") in
      let changes := default 0%N (u64_at f "changes") in
      let patch := str_at f "patch" in
      bs "diff --git " ++ quote_path (bs "a/") prev ++ bs " " ++ quote_path (bs "b/") name ++ [LF]
      ++ (if bool_decide (status = bs "added") then bs "new file mode 100644" ++ [LF]
          else if bool_decide (status = bs "removed") then bs "deleted file mode 100644" ++ [LF]
          else if (bool_decide (status = bs "renamed") || bool_decide (status = bs "copied"))
                  && negb (bool_decide (prev = name))
          then
            let verb := if bool_decide (status = bs "copied") then bs "copy" else bs "rename" in
            verb ++ bs " from " ++ quote_path [] prev ++ [LF]
            ++ verb ++ bs " to " ++ quote_path [] name ++ [LF]
          else [])
      ++ (if negb (is_Some_b patch) && (0 <? changes)%N
          then dec changes ++ bs "-line change; GitHub omitted its text" ++ [LF] else [])
      ++ (if is_Some_b patch || (0 <? changes)%N
          then
            let old := if bool_decide (status = bs "added") then bs "/dev/null"
                       else quote_path (bs "a/") prev in
            let new := if bool_decide (status = bs "removed") then bs "/dev/null"
                       else quote_path (bs "b/") name in
            bs "--- " ++ old ++ [LF] ++ bs "+++ " ++ new ++ [LF]
          else [])
      ++ match patch with
         | Some p => p ++ (if ends_with [LF] p then [] else [LF])
         | None => []
         end
  end.
Definition patch_from_files (files : list Value) : bytes := concat (file_patch <$> files).

End json.

(** ** Requests *)

Section reader.
Context {json_ : JsonValue} (gh : Server).

Definition page_limit : N := 64 * 1024 * 1024.

Definition accept_json : bytes := bs "Accept: application/vnd.github+json".
Definition accept_diff : bytes := bs "Accept: application/vnd.github.diff".
Definition accept_raw : bytes := bs "Accept: application/vnd.github.raw+json".

(** The command that [request] runs. *)
Definition gh_command (host endpoint method : bytes) (body : option Value) (accept : bytes)
    : Command :=
  mkCommand
    ([bs "api"; bs "--hostname"; host; bs "--include"; bs "--method"; method; bs "-H"; accept;
      bs "-H"; bs "X-GitHub-Api-Version: 2026-03-10"; endpoint]
     ++ (if is_Some_b body then [bs "--input"; bs "-"] else []))
    (match body with Some b => to_vec b | None => [] end).

Definition bad_endpoint (endpoint : bytes) : bool :=
  starts_with (bs "-") endpoint || starts_with (bs "/") endpoint || contains (bs "://") endpoint.

Definition request (host endpoint method : bytes) (body : option Value) (accept : bytes)
    : io HttpResponse :=
  if bad_endpoint endpoint then lift (Err (bs "invalid relative GitHub API endpoint"))
  else
    out ← run_command gh (gh_command host endpoint method body accept);
    lift (map_err (λ _, incomplete_http (bs "gh") out) (decode_http (stdout out))).

Definition source (t : RemoteTarget) (path revision : bytes) : io bytes :=
  let r := repository t in
  r ← request (host r)
        (bs "repos/" ++ owner r ++ bs "/" ++ repository_name r ++ bs "/contents/"
         ++ encode_path path ++ bs "?ref=" ++ encode_path revision)
        (bs "GET") None accept_raw;
  lift (if (http_status r =? 200)%N then Ok (http_body r)
        else Err (bs "Source read returned HTTP " ++ dec (http_status r))).

Definition get_json (host endpoint : bytes) : io Value :=
  r ← request host endpoint (bs "GET") None accept_json;
  lift (if (http_status r =? 200)%N then from_slice (http_body r)
        else Err (bs "GitHub read failed with HTTP " ++ dec (http_status r)
                  ++ bs "; no credentials or content were logged")).

Definition page_endpoint (endpoint : bytes) (page : N) : bytes :=
  endpoint ++ (if contains_byte Byte.x3f endpoint then bs "&" else bs "?")
  ++ bs "per_page=100&page=" ++ dec page.

(** The loop over the pages of a listing; [rows] picks the rows of a page. *)
Fixpoint pages_loop (pages_left : nat) (page : N) (host endpoint : bytes)
    (rows : Value → result bytes (list Value)) (limit : N) (too_large too_many : bytes)
    (all : list Value) (size : N) : io (list Value) :=
  match pages_left with
  | O => lift (Err too_many)
  | S pages_left =>
      value ← get_json host (page_endpoint endpoint page);
      let size := (size + lenN (to_vec value))%N in
      if (limit <? size)%N then lift (Err too_large)
      else
        items ← lift (rows value);
        let all := all ++ items in
        if (length items <? 100)%nat then mret all
        else pages_loop pages_left (page + 1) host endpoint rows limit too_large too_many all size
  end.
Definition pages (host endpoint : bytes) : io (list Value) :=
  pages_loop 100 1 host endpoint (λ v, ok_or (as_array v) (bs "expected GitHub array page"))
    page_limit (bs "paged GitHub data passed 64 MiB, so completeness is not guaranteed")
    (bs "GitHub pagination limit reached; truncated responses are never accepted") [] 0.
Definition named_pages (host endpoint field : bytes) : io (list Value) :=
  pages_loop 10 1 host endpoint
    (λ v, ok_or (as_array (index v field)) (bs "missing check metadata collection"))
    (16 * 1024 * 1024) (bs "check metadata exceeds 16 MiB")
    (bs "check metadata exceeds 1,000 entries") [] 0.

Definition account_of (host : bytes) : io bytes :=
  v ← get_json host (bs "user"); lift (text v (bs "/login")).
Definition metadata (a : PrAddress) : io Value := get_json (pr_host a) (root a).
Definition reviews_of (t : RemoteTarget) : io (list Value) :=
  let a := from_target t in pages (pr_host a) (root a ++ bs "/reviews").
Definition review_comments_of (t : RemoteTarget) (id : N) : io (list Value) :=
  let a := from_target t in pages (pr_host a) (root a ++ bs "/reviews/" ++ dec id ++ bs "/comments").

Definition compare_endpoint (owner repo base head : bytes) : bytes :=
  bs "repos/" ++ owner ++ bs "/" ++ repo ++ bs "/compare/" ++ base ++ bs "..." ++ head.

Definition is_pending (account : bytes) (r : Value) : bool :=
  is_str (index r (bs "state")) (bs "PENDING")
  && is_str (index (index r (bs "user")) (bs "login")) account.
Definition set_pending (b : bool) (t : RemoteTarget) : RemoteTarget :=
  mkRemoteTarget (provider t) (repository t) (account t) (pr t) (target_tip t) (comparison_base t)
    (head t) (open t) (draft t) (merged t) b (compare t) (entire t).

Definition current_target (t : RemoteTarget) : io RemoteTarget :=
  let a := from_target t in
  account ← account_of (pr_host a);
  meta ← metadata a;
  base ← lift (oid meta (bs "/base/sha"));
  head ← lift (oid meta (bs "/head/sha"));
  comparison ← get_json (pr_host a) (compare_endpoint (pr_owner a) (pr_repo a) base head);
  merge_base ← lift (oid comparison (bs "/merge_base_commit/sha"));
  target ← lift (target_of a meta account merge_base);
  rs ← reviews_of target;
  mret (set_pending (existsb (is_pending account) rs) target).

Definition conversation_row (v : Value) : option ConversationComment :=
  id ← u64_at v "id";
  author ← as_str (index (index v (bs "user")) (bs "login"));
  body ← str_at v "body";
  Some (mkConversationComment id author body (str_at v "created_at")).

(** Rows of one kind of check, or why they are missing. *)
Definition add_checks (o : Overview) (kr : bytes * result bytes (list Value)) : Overview :=
  let '(kind, rows) := kr in
  match rows with
  | Ok rows =>
      mkOverview (description o) (overview_author o) (decision o)
        (checks o ++ ((λ v, check_row v kind) <$> rows)) (notices o) (captured_at o)
        (conversation o) (releases o) (blame o)
  | Err e =>
      mkOverview (description o) (overview_author o) (decision o) (checks o)
        (notices o ++ [kind ++ bs " metadata unavailable: " ++ e]) (captured_at o)
        (conversation o) (releases o) (blame o)
  end.
Definition add_conversation (o : Overview) (rows : result bytes (list Value)) : Overview :=
  match rows with
  | Ok rows =>
      mkOverview (description o) (overview_author o) (decision o) (checks o) (notices o)
        (captured_at o) (omap conversation_row rows) (releases o) (blame o)
  | Err e =>
      mkOverview (description o) (overview_author o) (decision o) (checks o)
        (notices o ++ [bs "Conversation unavailable: " ++ e]) (captured_at o)
        (conversation o) (releases o) (blame o)
  end.

(** [now] is the clock. *)
Definition overview_of (now : N) (a : PrAddress) (metadata : Value) (head : bytes) : io Overview :=
  let repo := bs "repos/" ++ pr_owner a ++ bs "/" ++ pr_repo a in
  conversation ← attempt (pages (pr_host a)
    (repo ++ bs "/issues/" ++ dec (number a) ++ bs "/comments"));
  check_runs ← attempt (named_pages (pr_host a)
    (repo ++ bs "/commits/" ++ head ++ bs "/check-runs") (bs "check_runs"));
  workflows ← attempt (named_pages (pr_host a)
    (repo ++ bs "/actions/runs?head_sha=" ++ head) (bs "workflow_runs"));
  statuses ← attempt (named_pages (pr_host a)
    (repo ++ bs "/commits/" ++ head ++ bs "/status") (bs "statuses"));
  let o := mkOverview (str_at metadata "body")
             (as_str (index (index metadata (bs "user")) (bs "login"))) None [] [] (Some now)
             [] [] [] in
  mret (add_conversation
          (foldl add_checks o
             [(bs "Check", check_runs); (bs "Workflow", workflows); (bs "Status", statuses)])
          conversation).

End reader.

(** ** Snapshots *)

Section snapshot.
Context {sha_ : Sha256} {source_ : SourceJson} {json_ : JsonValue} (gh : Server).

Definition PatchError_message (e : PatchError) : bytes :=
  bs "patch cannot be loaded: " ++
  match e with
  | Malformed line m => bs "patch line " ++ dec (N.of_nat line) ++ bs " is malformed: " ++ m
  | Unsupported m => bs "unsupported patch format: " ++ m
  | Limit m => bs "patch exceeds safety limit: " ++ m
  end.
(** [parse_patch] always answers ([parse_patch_total]). *)
Definition parse_body (body : bytes) : io PatchReport :=
  match parse_patch body default_limits with
  | Some r => lift (map_err PatchError_message r)
  | None => λ tr, (Err Panics, tr)
  end.

Definition text_omitted (f : Value) : bool :=
  is_null (index f (bs "patch")) && (0 <? default 0 (u64_at f "changes"))%N.
Definition add_warnings (ws : list bytes) (s : Snapshot) : Snapshot :=
  mkSnapshot (id s) (title s) (origin s) (patch s) (remote s) (comments s) (overview s)
    (warnings s ++ ws).
Definition set_overview (o : Overview) (s : Snapshot) : Snapshot :=
  mkSnapshot (id s) (title s) (origin s) (patch s) (remote s) (comments s) o (warnings s).

(** Paths of the files that are UTF-8; [None] where [FileChange::path] panics. *)
Definition utf8_paths (p : PatchReport) : option (list (option bytes)) :=
  mapM (λ f, q ← path f;
             Some (match RepoPath.utf8 q with Ok s => Some s | Err _ => None end)) (files p).
(** The text of [name] is in the patch, or the file has none. *)
Definition captured (p : PatchReport) (paths : list (option bytes)) (name : bytes) : bool :=
  existsb (λ '(f, q), bool_decide (q = Some name)
                      && (negb (bool_decide (hunks f = []))
                          || negb (bool_decide (content_kind f = ContentKind.Text))))
          (zip (files p) paths).
Definition omitted_warnings (p : PatchReport) (paths : list (option bytes)) (fs : list Value)
    : list bytes :=
  omap (λ f, if text_omitted f
             then let name := default [] (str_at f "filename") in
                  if captured p paths name then None
                  else Some (bs "provider omitted text for " ++ name)
             else None) fs.

Definition review_line (v : Value) : option ConversationComment :=
  body ← str_at v "body";
  if is_blank body then None
  else
    id ← u64_at v "id";
    author ← as_str (index (index v (bs "user")) (bs "login"));
    Some (mkConversationComment id author body (str_at v "submitted_at")).
Definition review_ruling (r : Value) : option (bytes * bytes) :=
  user ← as_str (index (index r (bs "user")) (bs "login"));
  state ← str_at r "state";
  Some (user, state).

Definition files_warning (omitted : nat) : bytes :=
  bs "GitHub serves no unified diff past 300 files. This review then comes via the per-file endpoint, and GitHub had already omitted the text for "
  ++ dec (N.of_nat omitted) ++ bs " of those files.".
Definition coverage_warning (expected files patch : N) : bytes :=
  bs "coverage disagreement: metadata " ++ dec expected ++ bs ", file count " ++ dec files
  ++ bs ", patch count " ++ dec patch.

(** What the snapshot warns about, in order. *)
Definition snapshot_warnings (from_files : bool) (expected : N) (fs : list Value) (p : PatchReport)
    (paths : list (option bytes)) : list bytes :=
  (if from_files then [files_warning (length (filter (λ f, text_omitted f = true) fs))] else [])
  ++ (if negb (expected =? lenN fs)%N || negb (expected =? lenN (files p))%N
      then [coverage_warning expected (lenN fs) (lenN (files p))] else [])
  ++ (if bool_decide (list_to_set (omap (λ f, str_at f "filename") fs)
                      = (list_to_set (omap (λ q, q) paths) : gset bytes)) then []
      else [bs "file paths from the provider disagree with the canonical patch paths"])
  ++ omitted_warnings p paths fs.

(** The pull request as it is after the reads. *)
Definition refreshed (after : Value) (pending : bool) (t : RemoteTarget) : RemoteTarget :=
  mkRemoteTarget (provider t) (repository t) (account t) (pr t) (target_tip t) (comparison_base t)
    (head t) (is_str (index after (bs "state")) (bs "open")) (is_true (index after (bs "draft")))
    (is_merged after) pending (compare t) (entire t).

Definition snapshot_overview (o : Overview) (after : Value) (reviews : list Value) : Overview :=
  mkOverview (str_at after "body") (as_str (index (index after (bs "user")) (bs "login")))
    (review_decision (omap review_ruling reviews)) (checks o) (notices o) (captured_at o)
    (conversation o ++ omap review_line reviews) (releases o) (blame o).

Definition moved (base head : bytes) (before after : Value) : result bytes bool :=
  b ← oid after (bs "/base/sha");
  if negb (bool_decide (base = b)) then Ok true
  else
    h ← oid after (bs "/head/sha");
    Ok (negb (bool_decide (head = h))
        || negb (json_eqb (index (index (index before (bs "base")) (bs "repo")) (bs "id"))
                          (index (index (index after (bs "base")) (bs "repo")) (bs "id")))).

(** One attempt: [None] when the pull request moved meanwhile. *)
Definition snapshot_attempt (now : N) (a : PrAddress) (account : bytes) (before : Value)
    : io (option Snapshot) :=
  base ← lift (oid before (bs "/base/sha"));
  head ← lift (oid before (bs "/head/sha"));
  compare ← attempt (get_json gh (pr_host a) (compare_endpoint (pr_owner a) (pr_repo a) base head));
  fs ← attempt (pages gh (pr_host a) (root a ++ bs "/files"));
  raw ← attempt (request gh (pr_host a) (root a) (bs "GET") None accept_diff);
  cs ← attempt (pages gh (pr_host a) (root a ++ bs "/comments"));
  rs ← attempt (pages gh (pr_host a) (root a ++ bs "/reviews"));
  o ← overview_of gh now a before head;
  compare ← lift compare;
  merge_base ← lift (oid compare (bs "/merge_base_commit/sha"));
  remote ← lift (target_of a before account merge_base);
  fs ← lift fs;
  raw ← lift raw;
  let from_files := (http_status raw =? 406)%N in
  body ← lift (if (http_status raw =? 200)%N then Ok (http_body raw)
               else if from_files then Ok (patch_from_files fs)
               else Err (bs "GitHub diff failed (HTTP " ++ dec (http_status raw)
                         ++ bs "); the existing session stays as is"));
  p ← parse_body body;
  cs ← lift cs;
  rs ← lift rs;
  still ← attempt (account_of gh (pr_host a));
  after ← metadata gh a;
  gone ← lift (moved base head before after);
  if gone : bool then mret None
  else
    still ← lift still;
    if negb (bool_decide (still = account))
    then lift (Err (bs "the GitHub account changed while the snapshot was captured"))
    else
      t ← lift (text after (bs "/title"));
      threads ← lift (mapM thread cs);
      let s := Snapshot_new
                 (t ++ [Byte.x20; Byte.xc2; Byte.xb7; Byte.x20] ++ pr_owner a ++ bs "/" ++ pr_repo a
                  ++ bs " #" ++ dec (number a))
                 p (Some (refreshed after (existsb (is_pending account) rs) remote)) threads in
      expected ← lift (number_at after (bs "/changed_files"));
      paths ← or_panic (utf8_paths p);
      mret (Some (add_warnings (snapshot_warnings from_files expected fs p paths)
                    (set_overview (snapshot_overview o after rs) s))).

(** Three attempts; the first uses the metadata that is already there. *)
Fixpoint snapshot_loop (tries : nat) (now : N) (a : PrAddress) (account : bytes)
    (first : option Value) : io Snapshot :=
  match tries with
  | O => lift (Err (bs "the PR moved throughout the snapshot attempt; the old session and its drafts are kept"))
  | S tries =>
      before ← match first with Some m => mret m | None => metadata gh a end;
      r ← snapshot_attempt now a account before;
      match r with
      | Some s => mret s
      | None => snapshot_loop tries now a account None
      end
  end.
Definition github_snapshot (now : N) (a : PrAddress) : io Snapshot :=
  account ← attempt (account_of gh (pr_host a));
  first ← attempt (metadata gh a);
  account ← lift account;
  first ← lift first;
  snapshot_loop 3 now a account (Some first).

End snapshot.

(** ** Compares, releases and blame *)

Section compare.
Context {sha_ : Sha256} {source_ : SourceJson} {json_ : JsonValue} (gh : Server).

(** [encode_path(r).replace('/', "%2F")]. *)
Definition encode_ref (r : bytes) : bytes := replace_byte SLASH (bs "%2F") (encode_path r).
Definition range_endpoint (repo base head : bytes) : bytes :=
  repo ++ bs "/compare/" ++ encode_ref base ++ bs "..." ++ encode_ref head.

(** The commit a compare ends at. *)
Definition compare_head_of (named : Value) (merge_base : bytes) (commits : list Value)
    : result bytes bytes :=
  if bool_decide (u64_at named "total_commits" = Some 0%N) then Ok merge_base
  else match last commits with
       | Some c => oid c (bs "/sha")
       | None => Err (bs "GitHub's compare response has no commits to pin the head to")
       end.

(** One line of the description; [None] where the slice of the sha panics. *)
Definition commit_line (c : Value) : option bytes :=
  let sha := default [] (str_at c "sha") in
  let subject := default [] (m ← as_str (index (index c (bs "commit")) (bs "message"));
                             hd_error (str_lines m)) in
  short ← str_get sha 0 (Nat.min (length sha) 7);
  Some (bs "- `" ++ short ++ bs "` " ++ subject ++ [LF]).

Definition compare_warnings (from_files : bool) (fs : list Value) (p : PatchReport)
    (paths : list (option bytes)) (total : N) (commits : list Value) : list bytes :=
  let capped := (300 <=? length fs)%nat in
  (if from_files
   then [bs "GitHub refused the unified diff for this compare, so it comes from the per-file listing. That stops at 300 files, and GitHub had already omitted the text for "
         ++ dec (lenN (filter (λ f, text_omitted f = true) fs)) ++ bs " of those files."]
   else if (capped && (length (files p) <? length fs)%nat)
           || (negb capped && negb (length (files p) =? length fs)%nat)
   then [bs "coverage disagreement: file listing " ++ dec (lenN fs) ++ bs ", patch count "
         ++ dec (lenN (files p))]
   else [])
  ++ omitted_warnings p paths fs
  ++ (if (lenN commits <? total)%N
      then [bs "GitHub lists only the newest " ++ dec (lenN commits) ++ bs " of this compare's "
            ++ dec total ++ bs " commits; the diff still covers all of them."]
      else []).

Definition set_description (d : bytes) (now : N) (o : Overview) : Overview :=
  mkOverview (Some d) (overview_author o) (decision o) (checks o) (notices o) (Some now)
    (conversation o) (releases o) (blame o).

Definition github_compare (now : N) (a : CompareAddress) : io Snapshot :=
  let repo := bs "repos/" ++ ca_owner a ++ bs "/" ++ ca_repo a in
  let refs := ca_refs a in
  meta ← attempt (get_json gh (ca_host a) repo);
  named ← attempt (get_json gh (ca_host a) (range_endpoint repo (base refs) (compare_head refs)));
  meta ← lift meta;
  named ← lift named;
  owner ← lift (text meta (bs "/owner/login"));
  name ← lift (text meta (bs "/name"));
  if negb (eq_ignore_ascii_case owner (ca_owner a)) || negb (eq_ignore_ascii_case name (ca_repo a))
  then lift (Err (bs "the repository moved to another identity; open the compare at its canonical URL"))
  else
    base_oid ← lift (oid named (bs "/base_commit/sha"));
    merge_base ← lift (oid named (bs "/merge_base_commit/sha"));
    if direct refs && negb (bool_decide (merge_base = base_oid))
    then lift (Err (bs "GitHub's API compares against the merge base only, and BASE is not an ancestor of HEAD here, so BASE..HEAD would differ; use BASE...HEAD"))
    else
      commits ← lift (ok_or (as_array (index named (bs "commits")))
                        (bs "GitHub's compare response is missing its commit list"));
      head ← lift (compare_head_of named merge_base commits);
      raw ← request gh (ca_host a) (range_endpoint repo base_oid head) (bs "GET") None accept_diff;
      let fs := array_at named "files" in
      let from_files := (http_status raw =? 406)%N in
      body ← lift (if (http_status raw =? 200)%N then Ok (http_body raw)
                   else if from_files then Ok (patch_from_files fs)
                   else Err (bs "GitHub compare diff failed (HTTP " ++ dec (http_status raw)
                             ++ bs ")"));
      p ← parse_body body;
      rid ← lift (number_at meta (bs "/id"));
      let remote := mkRemoteTarget ProviderId.GITHUB (mkRepositoryKey (ca_host a) rid owner name)
                      [] 0 base_oid merge_base head true false false false (Some refs) None in
      let label := CompareRefs_label refs in
      let s := with_origin (owner ++ bs "/" ++ name ++ bs "  " ++ label) p (Some remote) []
                 (bs "github-compare:" ++ ca_host a ++ bs "/" ++ owner ++ bs "/" ++ name ++ bs ":"
                  ++ label) in
      paths ← or_panic (utf8_paths p);
      lines ← or_panic (mapM commit_line commits);
      mret (add_warnings
              (compare_warnings from_files fs p paths (default 0%N (u64_at named "total_commits"))
                 commits)
              (set_overview (set_description (concat lines) now (overview s)) s)).

(** The tags of the first pages; [true] when there were more. *)
Definition tag_row (t : Value) : result bytes (option (bytes * bytes)) :=
  match oid t (bs "/commit/sha") with
  | Ok sha => name ← text t (bs "/name"); Ok (Some (name, sha))
  | Err _ => Ok None
  end.
Fixpoint tag_pages (pages_left : nat) (page : N) (host repo : bytes) (tags : list (bytes * bytes))
    : io (list (bytes * bytes) * bool) :=
  match pages_left with
  | O => mret (tags, true)
  | S pages_left =>
      v ← get_json gh host (repo ++ bs "/tags?per_page=100&page=" ++ dec page);
      rows ← lift (ok_or (as_array v) (bs "expected GitHub array page"));
      found ← lift (mapM tag_row rows);
      let tags := tags ++ omap (λ o, o) found in
      if (length rows <? 100)%nat then mret (tags, false)
      else tag_pages pages_left (page + 1) host repo tags
  end.

Definition release_file (f : Value) : ReleaseFile :=
  mkReleaseFile (default [] (str_at f "filename")) (default 0%N (u64_at f "additions"))
    (default 0%N (u64_at f "deletions")) (str_at f "previous_filename").
Definition release_stats (v : Value) : N * list ReleaseFile :=
  (default 0%N (u64_at v "total_commits"), release_file <$> array_at v "files").

Definition commit_parents (c : Value) : list bytes :=
  omap (λ p, match oid p (bs "/sha") with Ok s => Some s | Err _ => None end)
       (array_at c "parents").
Definition range_row (c : Value) : result bytes (bytes * option bytes) :=
  sha ← oid c (bs "/sha");
  Ok (sha, match oid c (bs "/parents/0/sha") with Ok p => Some p | Err _ => None end).

(** The release pages by tag, drafts left out. *)
Definition release_notes (notes : Value) : gmap bytes Value :=
  hash_map (omap (λ r, if is_true (index r (bs "draft")) then None
                       else t ← str_at r "tag_name"; Some (t, r))
                 (default [] (as_array notes))).
Definition commit_dates (commits : list Value) : gmap bytes bytes :=
  hash_map (omap (λ c, sha ← str_at c "sha";
                       d ← as_str (index (index (index c (bs "commit")) (bs "committer")) (bs "date"));
                       Some (sha, d)) commits).

Definition make_release (t : RepositoryKey) (notes : gmap bytes Value) (dates : gmap bytes bytes)
    (step : Step) (st : N * list ReleaseFile) (members : list bytes) : Release :=
  let release := tag ← step_tag step; notes !! tag in
  mkRelease (step_tag step) (to step) (dates !! to step) st.1 st.2
    (b ← r ← release; str_at r "body"; if is_blank b then None else Some b)
    ((λ tag, default (bs "https://" ++ host t ++ bs "/" ++ owner t ++ bs "/" ++ repository_name t
                      ++ bs "/releases/tag/" ++ encode_path tag)
               (r ← release; str_at r "html_url")) <$> step_tag step)
    members.
Definition files_capped (head : bytes) (step : Step) (st : N * list ReleaseFile) : option bytes :=
  if (300 <=? length st.2)%nat
  then Some (bs "GitHub lists only the first 300 files of " ++ default head (step_tag step)
             ++ bs ", so the file tree may leave some of its files out and its +/"
             ++ [Byte.xe2; Byte.x88; Byte.x92] ++ bs " totals may be low.")
  else None.

(** The commits of the range: those listed, or every page of 100. *)
Definition range_commits (host repo base head : bytes) (compare : Value) : io (list Value) :=
  let listed := array_at compare "commits" in
  let total := default 0%N (u64_at compare "total_commits") in
  if (total <=? lenN listed)%N then mret listed
  else if (5000 <? total)%N
  then lift (Err (bs "the range holds " ++ dec total
                  ++ bs " commits, more than the 5,000 that are placed"))
  else
    ps ← bounded_io (λ page, get_json gh host
           (repo ++ bs "/compare/" ++ base ++ bs "..." ++ head ++ bs "?per_page=100&page="
            ++ dec (N.of_nat page)))
         (seq 1 (N.to_nat ((total + 99) / 100)));
    mret (ps ≫= λ p, array_at p "commits").

Definition github_releases (t : RemoteTarget) : io (list Release * list bytes) :=
  refs ← lift (ok_or (compare t) (bs "only a compare has releases"));
  let base := target_tip t in
  let head := head t in
  let target := repository t in
  let host := host target in
  let repo := bs "repos/" ++ owner target ++ bs "/" ++ repository_name target in
  tags ← attempt (tag_pages TAG_PAGES 1 host repo []);
  notes ← attempt (get_json gh host (repo ++ bs "/releases?per_page=100"));
  compare ← get_json gh host (repo ++ bs "/compare/" ++ base ++ bs "..." ++ head);
  '(tags, truncated) ← lift tags;
  notes ← lift notes;
  commits ← range_commits host repo base head compare;
  let notes := release_notes notes in
  range ← lift (mapM range_row commits);
  let '(ss, folded) := steps range base head tags (dom notes) in
  let graph := zip range.*1 (commit_parents <$> commits) in
  let shas := members graph ss in
  stats ← match ss with
          | [only] =>
              if bool_decide (from only = base) && bool_decide (to only = head)
              then mret [release_stats compare]
              else bounded_io (λ step, release_stats <$> get_json gh host
                     (repo ++ bs "/compare/" ++ from step ++ bs "..." ++ to step
                      ++ bs "?per_page=1")) ss
          | _ => bounded_io (λ step, release_stats <$> get_json gh host
                   (repo ++ bs "/compare/" ++ from step ++ bs "..." ++ to step
                    ++ bs "?per_page=1")) ss
          end;
  let rows := zip (zip ss stats) shas in
  mret ((λ '(step, st, ms), make_release target notes (commit_dates commits) step st ms) <$> rows,
        (if truncated : bool
         then [bs "Only the first " ++ dec (N.of_nat TAG_PAGES * 100)
               ++ bs " tags were checked for releases in this range."] else [])
        ++ option_list (folded_warning folded)
        ++ omap (λ '(step, st, _), files_capped (compare_head refs) step st) rows).

(** Blame: paths go as variables, four files to a query. *)
Definition BLAME_BATCH : nat := 4.
Notation Span := (bytes * N * N)%type.
Notation Blame := (list (N * N * bytes)).

Definition blame_params (i : nat) : bytes := bs ", $p" ++ dec (N.of_nat i) ++ bs ": String!".
Definition blame_fields (i : nat) : bytes :=
  bs " f" ++ dec (N.of_nat i) ++ bs ": blame(path: $p" ++ dec (N.of_nat i)
  ++ bs ") { ranges { startingLine endingLine commit { oid } } }".
Definition blame_query (n : nat) : bytes :=
  bs "query($owner: String!, $name: String!, $head: String!" ++ concat (blame_params <$> seq 0 n)
  ++ bs ") { repository(owner: $owner, name: $name) { object(expression: $head) { ... on Commit {"
  ++ concat (blame_fields <$> seq 0 n) ++ bs " } } } }".
Definition blame_variables (t : RemoteTarget) (batch : list Span) : list (bytes * Value) :=
  [(bs "owner", json_str (owner (repository t)));
   (bs "name", json_str (repository_name (repository t)));
   (bs "head", json_str (head t))]
  ++ imap (λ i (s : Span), (bs "p" ++ dec (N.of_nat i), json_str s.1.1)) batch.

Definition blame_range (r : Value) : option (N * N * bytes) :=
  s ← u32_at r "startingLine";
  e ← u32_at r "endingLine";
  c ← match oid r (bs "/commit/oid") with Ok c => Some c | Err _ => None end;
  Some (s, e, c).
(** Ranges outside the span are dropped; a range that cannot be read loses the file. *)
Definition blame_of_file (commit : Value) (i : nat) (s : Span) : option Blame :=
  let '(_, first, last) := s in
  rs ← as_array (index (index commit (bs "f" ++ dec (N.of_nat i))) (bs "ranges"));
  mapM (λ r, r) (filter (λ r : option (N * N * bytes),
                           match r with
                           | Some (s, e, _) => (s <=? last)%N && (first <=? e)%N
                           | None => true
                           end = true) (blame_range <$> rs)).

Definition blame_batch (t : RemoteTarget) (batch : list Span) : io (list (option Blame)) :=
  r ← request gh (host (repository t)) (bs "graphql") (bs "POST")
        (Some (json_object [(bs "query", json_str (blame_query (length batch)));
                            (bs "variables", json_object (blame_variables t batch))])) accept_json;
  if negb (http_status r =? 200)%N
  then lift (Err (bs "GitHub blame failed with HTTP " ++ dec (http_status r)))
  else
    v ← lift (from_slice (http_body r));
    let commit := index (index (index v (bs "data")) (bs "repository")) (bs "object") in
    mret (imap (blame_of_file commit) batch).

(** [slice::chunks]. *)
Fixpoint chunks {A} (fuel n : nat) (l : list A) : list (list A) :=
  match fuel, l with
  | S f, _ :: _ => take n l :: chunks f n (drop n l)
  | _, _ => []
  end.
Definition github_blame (t : RemoteTarget) (spans : list Span) : io (list (option Blame)) :=
  found ← bounded_io (λ batch,
      r ← attempt (blame_batch t batch);
      mret (match r with Ok b => b | Err _ => replicate (length batch) None end))
    (chunks (length spans) BLAME_BATCH spans);
  mret (concat found).

End compare.

(** ** Reviews *)

(** What GitHub is sent for one comment, and for the review. *)
Inductive PayloadComment :=
| File (path body subject_type : bytes)
| Line (path body : bytes) (line : N) (side : bytes) (start_line : option N)
    (start_side : option bytes).
Record Payload := mkPayload {
  payload_commit : bytes; event : bytes; payload_body : bytes;
  payload_comments : list PayloadComment
}.
Definition payload_comment (c : PreparedComment) : PayloadComment :=
  if pc_file_level c then File (pc_path c) (pc_body c) (bs "file")
  else
    let range := (pc_start_line c <? pc_line c)%N in
    Line (pc_path c) (pc_body c) (pc_line c) (Side_api (pc_side c))
      (if range then Some (pc_start_line c) else None)
      (if range then Some (Side_api (pc_side c)) else None).
Definition payload_of (p : PreparedReview) : Payload :=
  mkPayload (head (target p)) (Verdict.api (verdict p)) (summary p)
    (payload_comment <$> prepared_comments p).

(** [to_raw_value]: the serializer that [derive(Serialize)] makes for the payload. *)
Class PayloadJson := payload_json : Payload → bytes.

Definition GithubRules `{PayloadJson} : ReviewRules :=
  mkReviewRules ProviderId.GITHUB None (λ _ _ _, Ok tt) (λ _ _ _, Ok None)
    (λ p, payload_json (payload_of p)) false.

Definition reopen_address (t : RemoteTarget) : bytes :=
  let r := repository t in
  let repo := bs "https://" ++ host r ++ bs "/" ++ owner r ++ bs "/" ++ repository_name r in
  match compare t with
  | Some c => repo ++ bs "/compare/" ++ encode_path (base c)
              ++ (if direct c then bs ".." else bs "...") ++ encode_path (compare_head c)
  | None => repo ++ bs "/pull/" ++ dec (pr t)
  end.
Definition line_url (t : RemoteTarget) (path revision : bytes) (line : N) : bytes :=
  let r := repository t in
  bs "https://" ++ host r ++ bs "/" ++ Export.encode (owner r) ++ bs "/"
  ++ Export.encode (repository_name r) ++ bs "/blob/" ++ Export.encode revision ++ bs "/"
  ++ Export.encode path ++ bs "#L" ++ dec line.

Section writer.
Context {sha_ : Sha256} {review_ : ReviewJson} {payload_ : PayloadJson} {json_ : JsonValue}
  (gh : Server).

Definition send_outcome (r : result bytes HttpResponse) : SendOutcome :=
  match r with
  | Ok r =>
      if (http_status r =? 200)%N || (http_status r =? 201)%N
      then match from_slice (http_body r) with
           | Ok v => Accepted v
           | Err _ => Unknown (bs "the server reported success but the response body could not be read")
           end
      else if (400 <=? http_status r)%N && (http_status r <? 500)%N
              && negb (http_status r =? 408)%N
      then Outbox.Rejected (http_status r)
      else Unknown (bs "the write got HTTP " ++ dec (http_status r)
                    ++ bs "; retrying it automatically is not safe")
  | Err e => Unknown e
  end.
Definition github_send (p : PreparedReview) : io SendOutcome :=
  if negb (verify p GithubRules) then mret (Outbox.Rejected 422)
  else match from_slice (payload GithubRules p) with
  | Err _ => mret (Outbox.Rejected 422)
  | Ok v =>
      let a := from_target (target p) in
      r ← attempt (request gh (pr_host a) (root a ++ bs "/reviews") (bs "POST") (Some v) accept_json);
      mret (send_outcome r)
  end.
End writer.

(** ** The provider: opening an address *)

Section provider.
Context {sha_ : Sha256} {source_ : SourceJson} {json_ : JsonValue} {url_ : UrlParser}.

(** [gh] may not be installed. *)
Definition GithubProvider := option Server.
Definition reader (p : GithubProvider) : io Server :=
  lift (ok_or p (bs "Install gh, then run gh auth login for this host")).

Definition github_open (p : GithubProvider) (now : N) (address : bytes) : io Snapshot :=
  t ← lift (GithubTarget_parse address);
  match t with
  | Pr a => gh ← reader p; github_snapshot gh now a
  | Compare a => gh ← reader p; github_compare gh now a
  end.
Definition github_accepts (address : bytes) : bool := is_ok (GithubTarget_parse address).
End provider.
