(* ===== verification/GithubFacts.v ===== *)
(** * GitHub: addresses, quoting and percent encoding *)

From S2P Require Import Prelude RustStr Utf8 Domain Patch BTree Overview Snapshot F32 Session.
From S2P Require Import Review Store Json Outbox Process ProcessFacts Remote Releases Export.
From S2P Require Import Github.

(** ** Quoted paths *)

Lemma unquote_quoted_byte b s fuel :
  RepoPath.unquote (S fuel) (quoted_byte b ++ s) = cons b <$> RepoPath.unquote fuel s.
Proof. destruct b; reflexivity. Qed.

Lemma quoted_byte_length b : 1 ≤ length (quoted_byte b).
Proof. unfold quoted_byte. repeat case_match; cbn; lia. Qed.

Lemma unquote_quoted s fuel :
  length s ≤ fuel → RepoPath.unquote fuel (concat (quoted_byte <$> s)) = Ok s.
Proof.
  revert fuel. induction s as [|b s IH]; intros fuel H; [by destruct fuel|].
  cbn [length] in H. destruct fuel as [|fuel]; [lia|].
  rewrite fmap_cons. cbn [concat]. rewrite unquote_quoted_byte, IH by lia. done.
Qed.

Lemma length_quoted s : length s ≤ length (concat (quoted_byte <$> s)).
Proof.
  induction s as [|b s IH]; [done|]. rewrite fmap_cons. cbn [concat].
  rewrite length_app. pose proof (quoted_byte_length b). cbn. lia.
Qed.

Lemma quoted_plain s : forallb plain_byte s = true → concat (quoted_byte <$> s) = s.
Proof.
  induction s as [|b s IH]; [done|]. cbn [forallb]. intros [Hb Hs]%andb_true_iff.
  rewrite fmap_cons. cbn [concat]. rewrite IH by done.
  assert (quoted_byte b = [b]) as ->; [|done].
  revert Hb. clear. by destruct b.
Qed.

(** The quoting that the adapters give a path in a rebuilt patch is what the patch parser
    undoes: reading the token gives the prefixed path back for every byte string, quotes,
    control characters and bytes outside ASCII included. *)
Theorem quote_path_reads_back prefix path :
  forallb plain_byte prefix = true →
  RepoPath.from_git_token (quote_path prefix path) = RepoPath.new (prefix ++ path).
Proof.
  intros Hp. unfold quote_path, RepoPath.from_git_token.
  destruct (forallb plain_byte path) eqn:E.
  - assert (starts_with [QUOTE] (prefix ++ path) = false) as ->; [|done].
    apply not_true_iff_false. rewrite starts_with_true. intros [r Hr].
    assert (forallb plain_byte (prefix ++ path) = true) as Hall.
    { by rewrite forallb_app, Hp, E. }
    by rewrite Hr in Hall.
  - rewrite <- (quoted_plain prefix Hp). rewrite (app_assoc (concat _)), <- concat_app, <- fmap_app.
    rewrite (quoted_plain prefix Hp).
    set (s := prefix ++ path).
    assert (starts_with [QUOTE] ([QUOTE] ++ concat (quoted_byte <$> s) ++ [QUOTE]) = true) as ->.
    { apply starts_with_true. eauto. }
    assert (ends_with [QUOTE] ([QUOTE] ++ concat (quoted_byte <$> s) ++ [QUOTE]) = true) as ->.
    { apply ends_with_true. rewrite app_assoc. eauto. }
    rewrite !length_app. cbn [length]. rewrite (proj2 (Nat.ltb_ge _ _)) by lia. cbn [negb orb].
    replace (1 + (length (concat (quoted_byte <$> s)) + 1) - 2)
      with (length (concat (quoted_byte <$> s))) by lia.
    cbn [app]. rewrite skipn_cons, drop_0, take_app_length.
    by rewrite unquote_quoted by apply length_quoted.
Qed.

(** ** Percent encoding *)

Definition ascii (s : bytes) : Prop := Forall (λ b, (bN b < 128)%N) s.

Lemma ascii_boundary s i : ascii s → i ≤ length s → is_char_boundary s i = true.
Proof.
  intros Hs Hi. unfold is_char_boundary. destruct i as [|i]; [done|].
  destruct (s !! S i) as [b|] eqn:E.
  - eapply Forall_lookup_1 in Hs; [|exact E]. cbn in Hs. unfold is_cont.
    by rewrite between_false by lia.
  - apply lookup_ge_None in E. apply Nat.eqb_eq. lia.
Qed.

Definition encode_unit (b : byte) : bytes := if unreserved b then [b] else bs "%" ++ hex2 true b.

Lemma encode_path_units s : encode_path s = concat (encode_unit <$> s).
Proof. done. Qed.
Lemma encode_path_app s t : encode_path (s ++ t) = encode_path s ++ encode_path t.
Proof. unfold encode_path. by rewrite fmap_app, concat_app. Qed.

(** What a coded byte is: itself, or a percent sign and two digits of it. *)
Definition unit_ok (b : byte) : bool :=
  forallb (λ c, (bN c <? 128)%N) (encode_unit b)
  && (if unreserved b then bool_decide (encode_unit b = [b]) && negb (bool_decide (b = Byte.x25))
      else match encode_unit b with
           | [p; h; l] => bool_decide (p = Byte.x25)
                          && bool_decide (from_str_radix_16 u8_max [h; l] = Some (bN b))
           | _ => false
           end).
Lemma units_ok b : unit_ok b = true.
Proof. by destruct b. Qed.

Lemma unit_ascii b : ascii (encode_unit b).
Proof.
  pose proof (units_ok b) as [H _]%andb_true_iff. apply Forall_forall. intros c Hc.
  rewrite forallb_forall in H. apply list_elem_of_In, H in Hc. by to_prop.
Qed.
Lemma unit_cases b :
  (encode_unit b = [b] ∧ b ≠ Byte.x25) ∨
  ∃ h l, encode_unit b = [Byte.x25; h; l] ∧ from_str_radix_16 u8_max [h; l] = Some (bN b).
Proof.
  pose proof (units_ok b) as [_ H]%andb_true_iff. destruct (unreserved b).
  - left. by to_prop.
  - right. destruct (encode_unit b) as [|p [|h [|l [|]]]]; try done.
    apply andb_true_iff in H as [->%bool_decide_eq_true H%bool_decide_eq_true]. by exists h, l.
Qed.

Lemma encode_path_ascii s : ascii (encode_path s).
Proof.
  unfold ascii. rewrite encode_path_units. apply Forall_concat, Forall_fmap, Forall_true.
  apply unit_ascii.
Qed.

Lemma decode_loop_encoded fuel pre s out :
  ascii pre → length (encode_path s) ≤ fuel →
  decode_path_loop fuel (pre ++ encode_path s) (length pre) out = Ok (out ++ s).
Proof.
  revert fuel pre out. induction s as [|b s IH]; intros fuel pre out Hpre Hf.
  { rewrite encode_path_units. cbn [fmap list_fmap concat]. rewrite !app_nil_r.
    destruct fuel; cbn [decode_path_loop]; [done|]. by rewrite (lookup_ge_None_2 pre). }
  assert (encode_path (b :: s) = encode_unit b ++ encode_path s) as He by done.
  rewrite He in *. rewrite length_app in Hf. pose proof (unit_ascii b) as Hasc.
  assert (∀ out', length (encode_path s) ≤ pred fuel →
    decode_path_loop (pred fuel) ((pre ++ encode_unit b) ++ encode_path s)
      (length pre + length (encode_unit b)) out' = Ok (out' ++ s)) as IH'.
  { intros out' Hf'. rewrite <- length_app. apply IH; [|done]. by apply Forall_app_2. }
  destruct (unit_cases b) as [[Hu Hb]|(h & l & Hu & Hhex)]; rewrite Hu in *; cbn [length] in *;
    (destruct fuel as [|fuel]; [lia|]); cbn [decode_path_loop app pred] in *;
    rewrite list_lookup_middle by done; rewrite <- app_assoc in IH'; cbn [app] in IH'.
  - rewrite bool_decide_false by done. rewrite IH' by lia. by rewrite <- app_assoc.
  - rewrite bool_decide_true by done.
    set (all := pre ++ Byte.x25 :: h :: l :: encode_path s) in *.
    assert (ascii all) as Hall.
    { apply Forall_app_2; [done|]. inversion Hasc as [|? ? A1 A2]; subst.
      inversion A2 as [|? ? A3 A4]; subst. inversion A4 as [|? ? A5 A6]; subst.
      repeat constructor; try done. apply encode_path_ascii. }
    assert (length all = length pre + 3 + length (encode_path s)) as Hlen.
    { unfold all. rewrite length_app. cbn. lia. }
    assert (str_get all (length pre + 1) (length pre + 3) = Some [h; l]) as ->.
    { unfold str_get. rewrite (proj2 (Nat.leb_le _ _)) by lia.
      rewrite !ascii_boundary by (done || lia). cbn [andb]. f_equal.
      unfold all. rewrite drop_app_ge by lia.
      replace (length pre + 1 - length pre) with 1 by lia.
      replace (length pre + 3 - (length pre + 1)) with 2 by lia. done. }
    cbn [mbind option_bind]. rewrite Hhex. cbn [ok_or mbind result_bind]. rewrite u8_of_bN.
    rewrite IH' by lia. by rewrite <- app_assoc.
Qed.

(** Decoding undoes encoding for every text. *)
Lemma decode_encode_path s : utf8_valid s = true → decode_path (encode_path s) = Ok s.
Proof.
  intros Hs. unfold decode_path.
  rewrite (decode_loop_encoded _ [] s []) by (done || constructor). cbn. by rewrite Hs.
Qed.

(** ** What the program relies on in [Url::parse] *)

Record plain_url {url_ : UrlParser} (host path : bytes) (u : Url) : Prop := {
  plain_scheme : scheme u = bs "https";
  plain_username : username u = [];
  plain_password : password u = None;
  plain_port : port u = None;
  plain_query : query u = None;
  plain_host : host_str u = Some host;
  plain_path : url_path u = path;
  plain_segments : path_segments u = Some (drop 1 (split_on SLASH path));
  plain_pairs : query_pairs u = []
}.
(** An address that starts with [https://] has that scheme, and GitHub's is one; hosts are
    ASCII without a slash, and an [https] address made of a host that was parsed
    before and of an encoded path, none of its segments [.] or [..], is taken apart into that
    host and that path. *)
Class UrlLaws {url_ : UrlParser} : Prop := {
  https_scheme v u :
    parse_url v = Some u → starts_with (bs "https://") v = true → scheme u = bs "https";
  parse_github :
    ∃ v u, parse_url v = Some u ∧ scheme u = bs "https" ∧ host_str u = Some (bs "github.com");
  host_graphic v u h :
    parse_url v = Some u → scheme u = bs "https" → host_str u = Some h →
    Forall (λ b, is_ascii_graphic b = true ∧ b ≠ SLASH) h;
  parse_again v u h q :
    parse_url v = Some u → scheme u = bs "https" → host_str u = Some h →
    relative_segments q = false →
    ∃ u', parse_url (bs "https://" ++ to_ascii_lowercase h ++ SLASH :: encode_path q) = Some u' ∧
          plain_url (to_ascii_lowercase h) (SLASH :: encode_path q) u'
}.
Arguments UrlLaws _ : clear implicits.

(** ** Names and references *)

Lemma identifier_bytes s b :
  identifier s = true → b ∈ s → is_ascii_alphanumeric b = true ∨ b ∈ bs "-_.".
Proof.
  unfold identifier. intros H Hb. to_prop.
  match goal with H : forallb _ s = true |- _ => rewrite forallb_forall in H;
    apply list_elem_of_In, H in Hb end.
  apply orb_true_iff in Hb as [?|?%bool_decide_eq_true]; [by left|by right].
Qed.

(** What each byte of a name is not. *)
Definition name_byte (b : byte) : bool :=
  (is_ascii_alphanumeric b || bool_decide (b ∈ bs "-_.")).
Definition name_byte_ok (b : byte) : bool :=
  negb (name_byte b) ||
  (unreserved b && is_ascii_graphic b && negb (bool_decide (b = SLASH))
   && negb (bool_decide (b = Byte.x3a)) && bool_decide (encode_unit b = [b])).
Lemma name_bytes_ok b : name_byte_ok b = true.
Proof. by destruct b. Qed.

Lemma identifier_facts s :
  identifier s = true →
  s ≠ [] ∧ s ≠ bs "." ∧ s ≠ bs ".." ∧ SLASH ∉ s ∧ Byte.x3a ∉ s ∧ encode_path s = s ∧
  Forall (λ b, is_ascii_graphic b = true) s.
Proof.
  intros Hid.
  assert (∀ b, b ∈ s → unreserved b = true ∧ is_ascii_graphic b = true ∧ b ≠ SLASH ∧ b ≠ Byte.x3a
                       ∧ encode_unit b = [b]) as Hall.
  { intros b Hb. pose proof (name_bytes_ok b) as Hn. unfold name_byte_ok in Hn.
    assert (name_byte b = true) as Hnb.
    { unfold name_byte. apply orb_true_iff. destruct (identifier_bytes s b Hid Hb) as [?|?];
        [by left|right; by apply bool_decide_eq_true]. }
    rewrite Hnb in Hn. cbn [negb orb] in Hn. by to_prop. }
  unfold identifier in Hid. to_prop. split_and!; try done.
  - intros Hs. by destruct (Hall _ Hs) as (_ & _ & ? & _).
  - intros Hs. by destruct (Hall _ Hs) as (_ & _ & _ & ? & _).
  - clear -Hall. rewrite encode_path_units. induction s as [|b s IH]; [done|].
    rewrite fmap_cons. cbn [concat]. rewrite IH by (intros c Hc; apply Hall; by right).
    destruct (Hall b) as (_ & _ & _ & _ & ->); [by left|done].
  - apply Forall_forall. intros b Hb. by destruct (Hall b Hb) as (_ & ? & _).
Qed.

(** ** Path segments *)

Lemma split_on_prefix c x y :
  c ∉ x → ∃ w ws, split_on c y = w :: ws ∧ split_on c (x ++ y) = (x ++ w) :: ws.
Proof.
  intros Hc. destruct (split_on c y) as [|w ws] eqn:E; [by apply split_on_not_nil in E|].
  exists w, ws. split; [done|]. induction x as [|d x IH]; [done|].
  apply not_elem_of_cons in Hc as [Hd Hx]. cbn [app split_on].
  rewrite bool_decide_false by done. by rewrite IH.
Qed.

Lemma split_on_head c s w ws : split_on c s = w :: ws → ∃ r, s = w ++ r.
Proof.
  revert w ws. induction s as [|d s IH]; cbn [split_on]; intros w ws H.
  - injection H as <- <-. by exists [].
  - destruct (decide (d = c)) as [->|Hne].
    + rewrite bool_decide_true in H by done. injection H as <- <-. by eexists.
    + rewrite bool_decide_false in H by done. destruct (split_on c s) as [|v vs] eqn:E.
      * by apply split_on_not_nil in E.
      * injection H as <- <-. destruct (IH v vs eq_refl) as [r ->]. by exists r.
Qed.

Lemma split_on_none c s : c ∉ s → split_on c s = [s].
Proof.
  intros H. destruct (split_on_prefix c s [] H) as (w & ws & [= <- <-] & Hs).
  by rewrite !app_nil_r in Hs.
Qed.

(** A piece after the first follows a separator. *)
Lemma split_on_tail c s w ws p : split_on c s = w :: ws → p ∈ ws → occurs (c :: p) s.
Proof.
  revert w ws. induction s as [|d s IH]; cbn [split_on]; intros w ws H Hp.
  - injection H as <- <-. by apply not_elem_of_nil in Hp.
  - destruct (split_on c s) as [|v vs] eqn:E; [by apply split_on_not_nil in E|].
    assert (p ∈ vs → occurs (c :: p) (d :: s)) as Hlater.
    { intros Hin. destruct (IH v vs eq_refl Hin) as (a & b & ->). by exists (d :: a), b. }
    destruct (decide (d = c)) as [->|Hne].
    + rewrite bool_decide_true in H by done. injection H as <- <-.
      apply elem_of_cons in Hp as [-> |Hp]; [|by apply Hlater].
      apply split_on_head in E as [r ->]. by exists [], r.
    + rewrite bool_decide_false in H by done. injection H as <- <-. by apply Hlater.
Qed.

Lemma relative_segments_false s :
  relative_segments s = false ↔ ∀ p, p ∈ split_on SLASH s → p ≠ bs "." ∧ p ≠ bs "..".
Proof.
  unfold relative_segments. split.
  - intros H p Hp. apply not_true_iff_false in H. split; intros ->; apply H, existsb_exists.
    + exists (bs "."). split; [by apply list_elem_of_In|done].
    + exists (bs ".."). split; [by apply list_elem_of_In|done].
  - intros H. apply not_true_iff_false. rewrite existsb_exists.
    intros (p & Hp%list_elem_of_In & Hd). destruct (H p Hp).
    apply orb_true_iff in Hd as [?%bool_decide_eq_true|?%bool_decide_eq_true]; done.
Qed.

(** Segments of an encoded path are the encoded segments. *)
Lemma encode_unit_slash b : SLASH ∈ encode_unit b → b = SLASH.
Proof.
  assert (∀ b, (bool_decide (SLASH ∈ encode_unit b) && negb (bool_decide (b = SLASH))) = false)
    as Hall by (intros []; by vm_compute).
  intros H. specialize (Hall b). rewrite bool_decide_true in Hall by done. cbn in Hall. by to_prop.
Qed.

Lemma split_on_encoded s : split_on SLASH (encode_path s) = encode_path <$> split_on SLASH s.
Proof.
  induction s as [|b s IH]; [done|].
  assert (encode_path (b :: s) = encode_unit b ++ encode_path s) as -> by done.
  cbn [split_on]. destruct (decide (b = SLASH)) as [->|Hne].
  - rewrite bool_decide_true by done. rewrite fmap_cons, <- IH. done.
  - rewrite bool_decide_false by done.
    destruct (split_on_prefix SLASH (encode_unit b) (encode_path s)) as (w & ws & Hw & ->).
    { intros Hin. by apply Hne, encode_unit_slash. }
    rewrite IH in Hw. destruct (split_on SLASH s) as [|v vs]; [done|].
    rewrite !fmap_cons in *. by injection Hw as <- <-.
Qed.

#[export] Instance encode_path_inj : Inj (=) (=) encode_path.
Proof.
  intros s t H.
  pose proof (decode_loop_encoded (length (encode_path s)) [] s [] ltac:(constructor) (le_n _)) as Hs.
  pose proof (decode_loop_encoded (length (encode_path s)) [] t [] ltac:(constructor)
                ltac:(by rewrite H)) as Ht.
  cbn [app] in *. rewrite H in Hs at 2. rewrite Hs in Ht. by injection Ht.
Qed.

Lemma relative_encoded s : relative_segments s = false → relative_segments (encode_path s) = false.
Proof.
  rewrite !relative_segments_false. intros H p. rewrite split_on_encoded.
  intros (q & -> & Hq)%list_elem_of_fmap_1. destruct (H q Hq) as [H1 H2].
  change (bs ".") with (encode_path (bs ".")) in *.
  change (bs "..") with (encode_path (bs "..")) in *.
  split; intros He%(inj encode_path); done.
Qed.

(** ** The two sides of a compare *)

Definition DOT : byte := Byte.x2e.
Definition COLON : byte := Byte.x3a.

Lemma ref_name_facts s :
  ref_name s = true →
  ¬ occurs [SLASH; DOT] s ∧
  (∃ b r, s = b :: r ∧ b ≠ DOT ∧ b ≠ SLASH) ∧ ∃ r b, s = r ++ [b] ∧ b ≠ SLASH.
Proof.
  unfold ref_name. intros H. to_prop.
  repeat match goal with
  | H : contains _ _ = false |- _ => apply not_true_iff_false in H; rewrite contains_iff in H
  end.
  repeat match goal with
  | H : existsb _ (_ :: _) = false |- _ => cbn [existsb] in H; to_prop
  end.
  split; [by change [SLASH; DOT] with (bs "/.")|]. split.
  - destruct s as [|b r]; [done|]. exists b, r. split; [done|].
    assert (∀ x, starts_with [x] (b :: r) = false → b ≠ x) as Hs.
    { intros x Hx ->. apply not_true_iff_false in Hx. apply Hx, starts_with_true. by exists r. }
    split; by apply Hs.
  - destruct s as [|b r] using rev_ind; [done|]. exists r, b. split; [done|].
    intros ->. assert (ends_with (bs "/") (r ++ [SLASH]) = true) as He.
    { apply ends_with_true. by exists r. }
    congruence.
Qed.

(** What a side of an accepted compare looks like. *)
Record side_ok (s : bytes) : Prop := {
  so_dots : ¬ occurs [SLASH; DOT] s;
  so_last : ∃ r b, s = r ++ [b] ∧ b ≠ SLASH;
  so_first : (∃ b r, s = b :: r ∧ b ≠ DOT ∧ b ≠ SLASH) ∨
             (∃ o r, s = o ++ COLON :: r ∧ SLASH ∉ o)
}.

Lemma side_name_ok s : ref_name (side_name s) = true → side_ok s.
Proof.
  unfold side_name. destruct (split_once (bs ":") s) as [[o r]|] eqn:E.
  - destruct (identifier o) eqn:Ei; [|done]. intros Hr.
    apply split_once_Some in E. change (bs ":" ++ r) with (COLON :: r) in E. subst s.
    destruct (ref_name_facts r Hr) as (H1 & _ & (r' & b & -> & Hb)).
    destruct (identifier_facts o Ei) as (_ & _ & _ & Hslash & _). split.
    + intros Ho. apply occurs_app_sep in Ho as [Ho|Ho]; [|done|set_solver].
      destruct Ho as (x & y & ->). apply Hslash. set_solver.
    + exists (o ++ COLON :: r'), b. by rewrite <- app_assoc.
    + right. by exists o, (r' ++ [b]).
  - intros Hr. destruct (ref_name_facts s Hr) as (H1 & H2 & H3). split; [done|done|by left].
Qed.

(** Where two bytes occur in two strings put together. *)
Lemma occurs_two x y s t :
  occurs [x; y] (s ++ t) →
  occurs [x; y] s ∨ occurs [x; y] t ∨ (∃ r, s = r ++ [x]).
Proof.
  intros (a & b & He). apply app_eq_inv in He as [(k & -> & Hk)|(k & -> & Hk)].
  - destruct k as [|c [|d k]]; cbn [app] in Hk.
    + right. left. exists [], b. by rewrite <- Hk.
    + injection Hk as -> _. right. right. by exists a.
    + injection Hk as -> -> _. left. by exists a, k.
  - right. left. by exists k, b.
Qed.

Definition dots (direct : bool) : bytes := if direct then bs ".." else bs "...".

(** The range of an accepted compare has no relative segment. *)
Lemma range_segments base head d :
  side_ok base → side_ok head → relative_segments (base ++ dots d ++ head) = false.
Proof.
  intros [Hb1 (rb & xb & Hb2 & Hxb) Hb3] [Hh1 _ _]. apply relative_segments_false.
  set (R := base ++ dots d ++ head).
  assert (¬ occurs [SLASH; DOT] R) as HR.
  { intros Ho. apply occurs_two in Ho as [Ho|[Ho|[r Hr]]]; [done| |].
    - apply occurs_two in Ho as [(a & b & Ho)|[Ho|[r Hr]]]; [|done|].
      + assert (SLASH ∈ dots d) as Hin by (rewrite Ho; set_solver). by destruct d; set_solver.
      + assert (SLASH ∈ dots d) as Hin by (rewrite Hr; set_solver). by destruct d; set_solver.
    - rewrite Hb2 in Hr. apply app_inj_tail in Hr as [_ ->]. done. }
  destruct (split_on SLASH R) as [|w ws] eqn:E; [by apply split_on_not_nil in E|].
  intros p Hp. apply elem_of_cons in Hp as [-> |Hp].
  - assert ((∃ b v, w = b :: v ∧ b ≠ DOT) ∨ COLON ∈ w) as Hw.
    { destruct Hb3 as [(b & r & -> & Hd & Hs)|(o & r & -> & Ho)].
      - left. unfold R in E. cbn [app] in E.
        destruct (split_on_prefix SLASH [b] (r ++ dots d ++ head)) as (v & vs & _ & Hv); [set_solver|].
        cbn [app] in Hv. rewrite Hv in E. injection E as <- _. by exists b, v.
      - right. unfold R in E. rewrite <- app_assoc in E. cbn [app] in E.
        destruct (split_on_prefix SLASH (o ++ [COLON]) (r ++ dots d ++ head)) as (v & vs & _ & Hv).
        { rewrite not_elem_of_app. split; [done|]. by set_solver. }
        rewrite <- app_assoc in Hv. cbn [app] in Hv. rewrite Hv in E. injection E as <- _.
        set_solver. }
    destruct Hw as [(b & v & -> & Hd)|Hc].
    + split; intros [= -> _]; by apply Hd.
    + split; intros ->; by set_solver.
  - split; intros ->; apply HR; destruct (split_on_tail _ _ _ _ _ E Hp) as (a & b & ->).
    + by exists a, b.
    + by exists a, (DOT :: b).
Qed.

Lemma split_range_join m R base head d :
  split_range m R = Ok (base, head, d) → R = base ++ dots d ++ head.
Proof.
  unfold split_range. destruct (split_once (bs "...") R) as [[a b]|] eqn:E.
  - intros [= <- <- <-]. by apply split_once_Some in E.
  - destruct (split_once (bs "..") R) as [[a b]|] eqn:E2; [|done].
    intros [= <- <- <-]. by apply split_once_Some in E2.
Qed.

(** ** Reopening *)

Lemma drop_ws_graphic cs : Forall (λ c, is_whitespace c = false) cs → drop_ws cs = cs.
Proof. destruct 1 as [|c cs Hc _]; [done|]. cbn. by rewrite Hc. Qed.

Lemma trim_graphic s : Forall (λ b, is_ascii_graphic b = true) s → trim s = s.
Proof.
  intros Hs. assert (Forall printable s) as Hp.
  { eapply Forall_impl; [exact Hs|]. intros b Hb. unfold is_ascii_graphic in Hb.
    apply between_true in Hb. unfold printable. lia. }
  assert (Forall (λ c, is_whitespace c = false) (bN <$> s)) as Hw.
  { apply Forall_fmap. eapply Forall_impl; [exact Hs|]. intros b Hb. cbn.
    assert (∀ b, (negb (is_ascii_graphic b) || negb (is_whitespace (bN b))) = true) as Hall
      by (intros []; by vm_compute).
    specialize (Hall b). rewrite Hb in Hall. by apply negb_true_iff in Hall. }
  pose proof (utf8_decode_printable _ Hp) as Hd. unfold trim.
  assert (chars s = bN <$> s) as -> by (unfold chars; by rewrite Hd).
  rewrite (drop_ws_graphic (bN <$> s)) by done.
  rewrite drop_ws_graphic by (by rewrite reverse_Permutation).
  rewrite reverse_involutive. by apply encode_utf8_decode.
Qed.

Lemma splitn_step n w r :
  SLASH ∉ w → splitn (S (S n)) SLASH (w ++ SLASH :: r) = w :: splitn (S n) SLASH r.
Proof.
  intros Hw. cbn [splitn]. pose proof (split_once_app SLASH [] w r Hw) as H. cbn [app] in H.
  by rewrite H.
Qed.

Lemma trim_end_byte_id c s b : b ≠ c → trim_end_byte c (s ++ [b]) = s ++ [b].
Proof.
  intros Hb. unfold trim_end_byte. rewrite reverse_snoc. cbn [trim_start_byte].
  rewrite bool_decide_false by done. by rewrite reverse_cons, reverse_involutive.
Qed.

Lemma encoded_last s b : b ≠ SLASH → ∃ r c, encode_path (s ++ [b]) = r ++ [c] ∧ c ≠ SLASH.
Proof.
  intros Hb. rewrite encode_path_app.
  assert (encode_path [b] = encode_unit b) as -> by (unfold encode_path; cbn; by rewrite app_nil_r).
  assert (SLASH ∉ encode_unit b) as Hs by (intros Hin; by apply Hb, encode_unit_slash).
  destruct (encode_unit b) as [|c r _] eqn:E using rev_ind.
  { by destruct (unit_cases b) as [[H _]|(h & l & H & _)]; rewrite E in H. }
  exists (encode_path s ++ r), c. rewrite app_assoc. split; [done|]. intros ->. set_solver.
Qed.

Section reopen.
Context {url_ : UrlParser} (laws_ : UrlLaws url_).

Definition parsed_host (h : bytes) : Prop :=
  ∃ v u h0, parse_url v = Some u ∧ scheme u = bs "https" ∧ host_str u = Some h0 ∧
            h = to_ascii_lowercase h0.

Lemma lowercase_graphic h :
  Forall (λ b, is_ascii_graphic b = true ∧ b ≠ SLASH) h →
  Forall (λ b, is_ascii_graphic b = true ∧ b ≠ SLASH) (to_ascii_lowercase h).
Proof.
  intros H. apply Forall_fmap. eapply Forall_impl; [exact H|]. intros b [Hg Hs].
  assert (∀ b, (negb (is_ascii_graphic b) || bool_decide (b = SLASH)
    || (is_ascii_graphic (byte_to_ascii_lowercase b)
        && negb (bool_decide (byte_to_ascii_lowercase b = SLASH)))) = true) as Hall
    by (intros []; by vm_compute).
  specialize (Hall b). rewrite Hg, bool_decide_false in Hall by done. cbn [negb orb] in Hall.
  cbn. by to_prop.
Qed.

Lemma lowercase_idem h : to_ascii_lowercase (to_ascii_lowercase h) = to_ascii_lowercase h.
Proof.
  unfold to_ascii_lowercase. rewrite <- list_fmap_compose. apply list_fmap_ext.
  intros _ b _. by destruct b.
Qed.

Lemma encoded_graphic q : Forall (λ b, is_ascii_graphic b = true) (encode_path q).
Proof.
  rewrite encode_path_units. apply Forall_concat, Forall_fmap, Forall_true. intros b.
  assert (∀ b, forallb is_ascii_graphic (encode_unit b) = true) as Hall
    by (intros []; by vm_compute).
  apply Forall_forall. intros c Hc. specialize (Hall b). rewrite forallb_forall in Hall.
  by apply Hall, list_elem_of_In.
Qed.

(** An address made of a known host and a path is read as that host and that path. *)
Lemma address_parts h q :
  parsed_host h → h ≠ bs "." → h ≠ bs ".." → relative_segments q = false →
  let v := bs "https://" ++ h ++ SLASH :: encode_path q in
  trim v = v ∧ starts_with (bs "https://") v = true ∧ relative_segments v = false ∧
  ∃ u, parse_url v = Some u ∧ plain_url h (SLASH :: encode_path q) u.
Proof.
  intros (v0 & u0 & h0 & Hu & Hsch & Hh & ->) Hd1 Hd2 Hq v.
  pose proof (lowercase_graphic h0 (host_graphic v0 u0 h0 Hu Hsch Hh)) as Hg.
  set (h := to_ascii_lowercase h0) in *.
  assert (SLASH ∉ h) as Hns.
  { intros Hin. rewrite Forall_forall in Hg. by destruct (Hg _ Hin). }
  split; [|split; [|split]].
  - apply trim_graphic. unfold v. apply Forall_app_2; [by repeat constructor|].
    apply Forall_app_2; [eapply Forall_impl; [exact Hg|]; by intros b []|].
    constructor; [done|apply encoded_graphic].
  - apply starts_with_true. by eexists.
  - apply relative_segments_false. intros p. unfold v.
    change (bs "https://" ++ h ++ SLASH :: encode_path q)
      with (bs "https:" ++ SLASH :: [] ++ SLASH :: h ++ SLASH :: encode_path q).
    rewrite split_on_sep by (apply (bool_decide_unpack _); vm_compute; exact I).
    rewrite split_on_sep by apply not_elem_of_nil. rewrite split_on_sep by done.
    intros Hp. apply elem_of_cons in Hp as [-> |Hp]; [done|].
    apply elem_of_cons in Hp as [-> |Hp]; [done|].
    apply elem_of_cons in Hp as [-> |Hp]; [done|].
    pose proof (relative_encoded q Hq) as Hr. rewrite relative_segments_false in Hr. by apply Hr.
  - destruct (parse_again v0 u0 h0 q Hu Hsch Hh Hq) as (u & Hu' & Hp). by exists u.
Qed.

(** The address of an accepted compare, taken apart. *)
Lemma CompareAddress_parse_Ok v a :
  CompareAddress_parse v = Ok a →
  parsed_host (ca_host a) ∧ identifier (ca_owner a) = true ∧ identifier (ca_repo a) = true ∧
  ∃ m R, utf8_valid R = true ∧
    split_range m R = Ok (base (ca_refs a), compare_head (ca_refs a), direct (ca_refs a)) ∧
    side_ok (base (ca_refs a)) ∧ side_ok (compare_head (ca_refs a)) ∧
    ref_name (side_name (base (ca_refs a))) = true ∧
    ref_name (side_name (compare_head (ca_refs a))) = true.
Proof.
  unfold CompareAddress_parse. destruct (relative_segments (trim v)); [done|].
  destruct (parse_url (trim v)) as [u|] eqn:Eu; [|done]. cbn [ok_or mbind result_bind].
  destruct (negb (bool_decide (scheme u = bs "https")) || _ || _ || _ || _) eqn:Ec; [done|]. to_prop.
  destruct (host_str u) as [h|] eqn:Eh; [|done]. cbn [fmap option_fmap option_map ok_or mbind result_bind].
  destruct (drop 1 _) as [|o [|n [|w [|r [|]]]]]; try done.
  destruct (negb _ || _ || _) eqn:Ei; [done|]. to_prop.
  destruct (decode_path r) as [R|] eqn:Er; [|done]. cbn [mbind result_bind].
  destruct (split_range _ R) as [[[b hd] d]|] eqn:Es; [|done]. cbn [mbind result_bind].
  destruct (negb _ || negb _) eqn:En; [done|]. to_prop. intros [= <-]. cbn.
  split; [by exists (trim v), u, h|]. split; [done|]. split; [done|].
  eexists _, R. split; [|split; [exact Es|]].
  - unfold decode_path in Er. destruct (decode_path_loop _ _ _ _) as [out|]; [|done].
    cbn in Er. destruct (utf8_valid out) eqn:Ev; [by injection Er as <-|done].
  - split; [by apply side_name_ok|]. split; [by apply side_name_ok|]. done.
Qed.

Lemma split_range_any m m' R x : split_range m R = Ok x → split_range m' R = Ok x.
Proof.
  unfold split_range. destruct (split_once (bs "...") R) as [[]|]; [done|].
  destruct (split_once (bs "..") R) as [[]|]; done.
Qed.

Lemma lowercase_dot b : byte_to_ascii_lowercase b = DOT → b = DOT.
Proof. by destruct b. Qed.

(** A name that differs from an identifier in case only is one. *)
Lemma lowercase_identifier s t :
  eq_ignore_ascii_case s t = true → identifier t = true → identifier s = true.
Proof.
  unfold eq_ignore_ascii_case. intros He%bool_decide_eq_true Ht.
  assert (length s = length t) as Hlen.
  { unfold to_ascii_lowercase in He. rewrite <- (length_fmap byte_to_ascii_lowercase s), He.
    apply length_fmap. }
  assert (∀ b, name_byte (byte_to_ascii_lowercase b) = name_byte b) as Hl by (by intros []).
  assert (forallb name_byte s = forallb name_byte t) as Hb.
  { clear Ht. revert t He Hlen. induction s as [|b s IH]; intros [|c t] He Hlen; try done.
    cbn in He. injection He as Hbc He. cbn [forallb]. rewrite (IH t) by (done || by injection Hlen).
    by rewrite <- (Hl b), Hbc, Hl. }
  destruct (decide (identifier s = true)) as [|Hs%not_true_iff_false]; [done|].
  unfold identifier in *. rewrite Hlen in Hs. fold name_byte in *.
  change (forallb (λ b, is_ascii_alphanumeric b || bool_decide (b ∈ bs "-_.")) s)
    with (forallb name_byte s) in Hs. rewrite Hb in Hs.
  to_prop. exfalso.
  assert (length t ≠ 0) as Hn by (by destruct t).
  destruct (decide (s = [])) as [->|N1]; [by cbn in Hlen; lia|].
  destruct (decide (s = bs ".")) as [->|N2].
  { destruct t as [|b [|]]; try done. injection He as He. symmetry in He.
    apply lowercase_dot in He. by subst. }
  destruct (decide (s = bs "..")) as [->|N3].
  { destruct t as [|b [|c [|]]]; try done. injection He as He He'. symmetry in He, He'.
    apply lowercase_dot in He, He'. by subst. }
  rewrite !bool_decide_false in Hs by done. cbn [negb andb] in Hs.
  destruct Hs as [Hs%Nat.leb_gt|Hs]; [lia|congruence].
Qed.

Lemma dec_unreserved n : encode_path (dec n) = dec n ∧ SLASH ∉ dec n.
Proof.
  pose proof (dec_digits n) as Hd.
  assert (∀ b, (negb (is_ascii_digit b) || (bool_decide (encode_unit b = [b])
            && negb (bool_decide (b = SLASH)))) = true) as Hall by (intros []; by vm_compute).
  assert (∀ b, is_ascii_digit b = true → encode_unit b = [b] ∧ b ≠ SLASH) as Hb.
  { intros b Hb. specialize (Hall b). rewrite Hb in Hall. cbn [negb orb] in Hall. by to_prop. }
  split.
  - rewrite encode_path_units. induction Hd as [|b s Hs Hd IH]; [done|].
    rewrite fmap_cons. cbn [concat]. destruct (Hb b Hs) as [-> _]. by rewrite IH.
  - intros Hin. rewrite Forall_forall in Hd. by destruct (Hb _ (Hd _ Hin)).
Qed.

Lemma relative_cons w s :
  SLASH ∉ w → w ≠ bs "." → w ≠ bs ".." → relative_segments s = false →
  relative_segments (w ++ SLASH :: s) = false.
Proof.
  rewrite !relative_segments_false. intros Hw H1 H2 Hs p. rewrite split_on_sep by done.
  intros [-> |Hp]%elem_of_cons; [done|by apply Hs].
Qed.

(** The parts of [owner/name/rest], encoded. *)
Lemma identity_path o n s :
  identifier o = true → identifier n = true → relative_segments s = false →
  let q := o ++ SLASH :: n ++ SLASH :: s in
  relative_segments q = false ∧
  encode_path q = o ++ SLASH :: n ++ SLASH :: encode_path s.
Proof.
  intros Ho Hn Hs q.
  destruct (identifier_facts o Ho) as (_ & Ho1 & Ho2 & Ho3 & _ & Ho4 & _).
  destruct (identifier_facts n Hn) as (_ & Hn1 & Hn2 & Hn3 & _ & Hn4 & _).
  split; [by do 2 (apply relative_cons; try done)|].
  unfold q. rewrite encode_path_app, Ho4. f_equal.
  change (SLASH :: n ++ SLASH :: s) with ([SLASH] ++ n ++ [SLASH] ++ s).
  by rewrite !encode_path_app, Hn4.
Qed.

(** What an address and a target have in common when the target was read from it: the host,
    the owner and the name but for their case, and the number or the sides. *)
Definition target_address (g : GithubTarget) (t : RemoteTarget) : Prop :=
  let r := repository t in
  match g with
  | Pr a => host r = pr_host a ∧ eq_ignore_ascii_case (owner r) (pr_owner a) = true ∧
            eq_ignore_ascii_case (repository_name r) (pr_repo a) = true ∧
            pr t = number a ∧ compare t = None
  | Compare a => host r = ca_host a ∧ eq_ignore_ascii_case (owner r) (ca_owner a) = true ∧
            eq_ignore_ascii_case (repository_name r) (ca_repo a) = true ∧
            compare t = Some (ca_refs a)
  end.
Definition address_of (g : GithubTarget) (t : RemoteTarget) : GithubTarget :=
  match g with
  | Pr _ => Pr (from_target t)
  | Compare a => Compare (mkCompareAddress (ca_host a) (owner (repository t))
                            (repository_name (repository t)) (ca_refs a))
  end.

Lemma checked_Ok h o r n a :
  checked h o r n = Ok a →
  pr_host a = h ∧ identifier (pr_owner a) = true ∧ identifier (pr_repo a) = true ∧
  (0 < number a <= u64_max)%N.
Proof.
  unfold checked. destruct (negb _ || _ || _) eqn:E; [done|]. to_prop.
  destruct (parse_u64 n) as [m|] eqn:Em; [|done]. cbn [ok_or mbind result_bind].
  destruct (m =? 0)%N eqn:E0; [done|]. intros [= <-]. cbn.
  apply N.eqb_neq in E0. apply parse_uint_le in Em. split_and!; try done; lia.
Qed.

Lemma PrAddress_parse_Ok v a :
  PrAddress_parse v = Ok a →
  parsed_host (pr_host a) ∧ identifier (pr_owner a) = true ∧ identifier (pr_repo a) = true ∧
  (0 < number a <= u64_max)%N.
Proof.
  unfold PrAddress_parse. destruct (starts_with _ (trim v)) eqn:Es.
  - destruct (relative_segments (trim v)); [done|].
    destruct (parse_url (trim v)) as [u|] eqn:Eu; [|done]. cbn [ok_or mbind result_bind].
    destruct (negb (bool_decide (username u = [])) || _ || _ || _); [done|].
    destruct (host_str u) as [h|] eqn:Eh; [|done].
    cbn [fmap option_fmap option_map ok_or mbind result_bind].
    destruct (drop 1 _) as [|o [|n [|w [|r ?]]]]; try done.
    destruct (_ || _ || _); [done|]. intros (He & ?)%checked_Ok. split; [|done].
    exists (trim v), u, h. split_and!; try done. by eapply https_scheme.
  - destruct (split_once _ (trim v)) as [[slug n]|]; [|done]. cbn [ok_or mbind result_bind].
    destruct (split_once _ slug) as [[o r]|]; [|done]. cbn [ok_or mbind result_bind].
    intros (-> & ?)%checked_Ok. split; [|done].
    destruct parse_github as (w & u & ? & ? & ?). by exists w, u, (bs "github.com").
Qed.

Lemma path_first_segments o n s :
  identifier o = true → identifier n = true →
  split_on SLASH (SLASH :: o ++ SLASH :: n ++ SLASH :: s) = [] :: o :: n :: split_on SLASH s.
Proof.
  intros Ho Hn. destruct (identifier_facts o Ho) as (_ & _ & _ & Ho3 & _).
  destruct (identifier_facts n Hn) as (_ & _ & _ & Hn3 & _).
  change (SLASH :: o ++ SLASH :: n ++ SLASH :: s) with ([] ++ SLASH :: o ++ SLASH :: n ++ SLASH :: s).
  by rewrite !split_on_sep by (done || apply not_elem_of_nil).
Qed.

Lemma reopen_pull h o n num :
  parsed_host h → h ≠ bs "." → h ≠ bs ".." → identifier o = true → identifier n = true →
  (0 < num <= u64_max)%N →
  GithubTarget_parse (bs "https://" ++ h ++ bs "/" ++ o ++ bs "/" ++ n ++ bs "/pull/" ++ dec num)
  = Ok (Pr (mkPrAddress h o n num)).
Proof.
  intros Hh H1 H2 Ho Hn Hnum. destruct (dec_unreserved num) as [Hde Hds].
  destruct (identity_path o n (bs "pull/" ++ dec num) Ho Hn) as [Hq He].
  { change (bs "pull/" ++ dec num) with (bs "pull" ++ SLASH :: dec num).
    apply relative_cons; [apply (bool_decide_unpack _); vm_compute; exact I|done|done|].
    apply relative_segments_false. intros p. rewrite split_on_none by done.
    intros ->%list_elem_of_singleton. pose proof (dec_digits num) as Hd.
    split; intros E; rewrite E in Hd; inversion Hd; subst; done. }
  assert (encode_path (bs "pull/" ++ dec num) = bs "pull/" ++ dec num) as Hp.
  { by rewrite encode_path_app, Hde. }
  rewrite Hp in He.
  destruct (address_parts h _ Hh H1 H2 Hq) as (Ht & Hs & Hr & u & Hu & Hpl). rewrite He in *.
  change (bs "https://" ++ h ++ bs "/" ++ o ++ bs "/" ++ n ++ bs "/pull/" ++ dec num)
    with (bs "https://" ++ h ++ SLASH :: o ++ SLASH :: n ++ SLASH :: bs "pull/" ++ dec num).
  set (v := bs "https://" ++ _) in *. destruct Hpl.
  assert (∃ r b, url_path u = r ++ [b] ∧ b ≠ SLASH) as (r & b & Hlast & Hb).
  { rewrite plain_path0. destruct (dec num) as [|b r _] eqn:E using rev_ind.
    { by apply dec_not_nil in E. }
    exists ([SLASH] ++ o ++ [SLASH] ++ n ++ bs "/pull/" ++ r), b. split.
    - by rewrite <- !app_assoc.
    - intros ->. apply Hds. set_solver. }
  assert (split_on SLASH (url_path u) = [[]; o; n; bs "pull"; dec num]) as Hseg.
  { rewrite plain_path0, path_first_segments by done. do 3 f_equal.
    change (bs "pull/" ++ dec num) with (bs "pull" ++ SLASH :: dec num).
    rewrite split_on_sep by (apply (bool_decide_unpack _); vm_compute; exact I).
    by rewrite split_on_none. }
  unfold GithubTarget_parse. rewrite Ht, Hs, Hu. cbn [mbind option_bind andb].
  rewrite plain_segments0, <- plain_path0, Hseg. cbn [drop lookup list_lookup].
  rewrite bool_decide_false by done. unfold PrAddress_parse.
  rewrite Ht, Hs, Hr, Hu. cbn [ok_or mbind result_bind].
  rewrite plain_username0, plain_password0, plain_port0, plain_query0, plain_host0.
  cbn [is_Some_b fmap option_fmap option_map ok_or mbind result_bind].
  rewrite bool_decide_true by done. cbn [negb orb].
  rewrite Hlast, trim_end_byte_id, <- Hlast, Hseg by done. cbn [drop take existsb length].
  rewrite bool_decide_true by done. cbn [Nat.ltb Nat.leb negb orb].
  assert (to_ascii_lowercase h = h) as Hl.
  { destruct Hh as (? & ? & h0 & _ & _ & _ & ->). apply lowercase_idem. }
  rewrite Hl. unfold checked. rewrite Ho, Hn.
  assert (forallb is_ascii_digit (dec num) = true) as ->.
  { apply forallb_forall. pose proof (dec_digits num) as Hd. rewrite Forall_forall in Hd.
    intros c Hc. by apply Hd, list_elem_of_In. }
  cbn [negb orb]. unfold parse_u64. rewrite parse_uint_dec by lia.
  cbn [ok_or mbind result_bind]. rewrite (proj2 (N.eqb_neq _ _)) by lia. done.
Qed.

Lemma dots_encoded b d h : encode_path b ++ dots d ++ encode_path h = encode_path (b ++ dots d ++ h).
Proof. rewrite !encode_path_app. by destruct d. Qed.

Lemma reopen_compare h a o n m R :
  parsed_host h → h ≠ bs "." → h ≠ bs ".." → identifier o = true → identifier n = true →
  utf8_valid R = true →
  split_range m R = Ok (base a, compare_head a, direct a) →
  side_ok (base a) → side_ok (compare_head a) →
  ref_name (side_name (base a)) = true → ref_name (side_name (compare_head a)) = true →
  GithubTarget_parse (bs "https://" ++ h ++ bs "/" ++ o ++ bs "/" ++ n ++ bs "/compare/" ++
                      encode_path (base a) ++ dots (direct a) ++ encode_path (compare_head a))
  = Ok (Compare (mkCompareAddress h o n a)).
Proof.
  intros Hh H1 H2 Ho Hn HR Hsplit Hb Hhd Hbn Hhn. rewrite dots_encoded.
  pose proof (split_range_join _ _ _ _ _ Hsplit) as HRe. rewrite <- HRe.
  assert (relative_segments R = false) as Hrel by (rewrite HRe; by apply range_segments).
  destruct (identity_path o n (bs "compare/" ++ R) Ho Hn) as [Hq He].
  { change (bs "compare/" ++ R) with (bs "compare" ++ SLASH :: R).
    apply relative_cons; [apply (bool_decide_unpack _); vm_compute; exact I|done..]. }
  assert (encode_path (bs "compare/" ++ R) = bs "compare/" ++ encode_path R) as Hp
    by apply encode_path_app.
  rewrite Hp in He.
  destruct (address_parts h _ Hh H1 H2 Hq) as (Ht & Hs & Hr & u & Hu & Hpl). rewrite He in *.
  change (bs "https://" ++ h ++ bs "/" ++ o ++ bs "/" ++ n ++ bs "/compare/" ++ encode_path R)
    with (bs "https://" ++ h ++ SLASH :: o ++ SLASH :: n ++ SLASH :: bs "compare/" ++ encode_path R).
  set (v := bs "https://" ++ _) in *. destruct Hpl.
  assert (∃ r b, url_path u = r ++ [b] ∧ b ≠ SLASH) as (r & b & Hlast & Hbl).
  { rewrite plain_path0. destruct (so_last _ Hhd) as (r0 & b0 & Hh0 & Hb0).
    destruct (encoded_last (base a ++ dots (direct a) ++ r0) b0 Hb0) as (r & c & Hc & Hcs).
    exists ([SLASH] ++ o ++ [SLASH] ++ n ++ bs "/compare/" ++ r), c. split; [|done].
    rewrite HRe, Hh0. rewrite <- !app_assoc in Hc. rewrite Hc. by rewrite <- !app_assoc. }
  destruct (identifier_facts o Ho) as (_ & _ & _ & Hos & _).
  destruct (identifier_facts n Hn) as (_ & _ & _ & Hns & _).
  assert (to_ascii_lowercase h = h) as Hl.
  { destruct Hh as (? & ? & h0 & _ & _ & _ & ->). apply lowercase_idem. }
  assert (GithubTarget_parse v = Compare <$> CompareAddress_parse v) as ->.
  { unfold GithubTarget_parse. rewrite Ht, Hs, Hu. cbn [mbind option_bind andb].
    rewrite plain_segments0, path_first_segments by done.
    change (bs "compare/" ++ encode_path R) with (bs "compare" ++ SLASH :: encode_path R).
    rewrite split_on_sep by (apply (bool_decide_unpack _); vm_compute; exact I).
    cbn [drop lookup list_lookup]. by rewrite bool_decide_true. }
  unfold CompareAddress_parse. rewrite Ht, Hr, Hu. cbn [ok_or mbind result_bind].
  rewrite plain_scheme0, plain_username0, plain_password0, plain_port0, plain_pairs0, plain_host0.
  cbn [existsb is_Some_b fmap option_fmap option_map ok_or mbind result_bind].
  rewrite !bool_decide_true by done. cbn [negb orb].
  rewrite Hlast, trim_end_byte_id, <- Hlast, plain_path0 by done.
  change (SLASH :: o ++ SLASH :: n ++ SLASH :: bs "compare/" ++ encode_path R)
    with ([] ++ SLASH :: o ++ SLASH :: n ++ SLASH :: bs "compare" ++ SLASH :: encode_path R).
  rewrite !splitn_step; [|apply (bool_decide_unpack _); vm_compute; exact I|done..|apply not_elem_of_nil].
  cbn [splitn drop]. rewrite bool_decide_true, Ho, Hn by done. cbn [negb orb].
  rewrite decode_encode_path by done. cbn [mbind result_bind].
  rewrite (split_range_any _ _ _ _ Hsplit). cbn [mbind result_bind].
  rewrite Hbn, Hhn, Hl. cbn. by destruct a.
Qed.

(** The address written for a target that was opened from an address is read as the same
    target: the host, the target's owner and name, and the number or both sides of the
    comparison, whatever bytes their names hold. Only a host that is itself a relative segment
    is excluded. *)
Theorem reopen_address_reopens v g t :
  GithubTarget_parse v = Ok g → target_address g t →
  host (repository t) ≠ bs "." → host (repository t) ≠ bs ".." →
  GithubTarget_parse (reopen_address t) = Ok (address_of g t).
Proof.
  intros Hg Ht H1 H2. unfold GithubTarget_parse in Hg.
  destruct (_ && _) in Hg.
  - destruct (CompareAddress_parse _) as [a|] eqn:E; [|done]. injection Hg as <-.
    destruct Ht as (Hh & Ho & Hn & Hc).
    apply CompareAddress_parse_Ok in E as (Hph & Hio & Hin & m & R & HR & Hs & Hb & Hd & Hbn & Hdn).
    unfold reopen_address, address_of. rewrite Hc, <- !app_assoc, Hh in *.
    eapply (reopen_compare (ca_host a) (ca_refs a)); try done.
    + by eapply lowercase_identifier.
    + by eapply lowercase_identifier.
  - destruct (PrAddress_parse _) as [a|] eqn:E; [|done]. injection Hg as <-.
    destruct Ht as (Hh & Ho & Hn & Hnum & Hc).
    apply PrAddress_parse_Ok in E as (Hph & Hio & Hin & Hb).
    unfold reopen_address, address_of. rewrite Hc, <- !app_assoc. unfold from_target.
    rewrite Hh, Hnum in *. apply reopen_pull; try done.
    + by eapply lowercase_identifier.
    + by eapply lowercase_identifier.
Qed.

End reopen.

(** ** A parser of plain [https] addresses, for concrete inputs *)

#[export] Instance plain_parser : UrlParser := {
  Url := bytes * bytes;
  parse_url v := r ← strip_prefix (bs "https://") v;
                 let '(h, p) := default (r, []) (split_once [SLASH] r) in
                 if forallb name_byte h then Some (h, SLASH :: p) else None;
  scheme _ := bs "https"; username _ := []; password _ := None; port _ := None; query _ := None;
  host_str u := Some u.1; url_path u := u.2;
  path_segments u := Some (drop 1 (split_on SLASH u.2)); query_pairs _ := [];
  fragment _ := None; url_string u := bs "https://" ++ u.1 ++ u.2;
  form_encode ps := join (bs "&") ((λ '(k, v), k ++ bs "=" ++ v) <$> ps)
}.

Lemma plain_parse h p :
  forallb name_byte h = true → parse_url (bs "https://" ++ h ++ SLASH :: p) = Some (h, SLASH :: p).
Proof.
  intros Hh. unfold parse_url, plain_parser. rewrite strip_prefix_app. cbn [mbind option_bind].
  pose proof (split_once_app SLASH [] h p) as Hsp. cbn [app] in Hsp. rewrite Hsp.
  - change (default (h ++ SLASH :: p, []) (Some (h, p))) with (h, p). cbv iota. by rewrite Hh.
  - intros Hin. rewrite forallb_forall in Hh. by apply list_elem_of_In, Hh in Hin.
Qed.

#[export] Instance plain_laws : UrlLaws plain_parser.
Proof.
  split.
  - done.
  - exists (bs "https://github.com/"), (bs "github.com", [SLASH]). by vm_compute.
  - intros v [h0 p0] h Hv _ [= <-]. unfold parse_url, plain_parser in Hv.
    destruct (strip_prefix _ v) as [r|]; [|done]. cbn [mbind option_bind] in Hv.
    destruct (default (r, []) (split_once [SLASH] r)) as [h p].
    destruct (forallb name_byte h) eqn:E; [|done]. injection Hv as <- <-. cbn [fst] in *.
    apply Forall_forall. intros b Hb. rewrite forallb_forall in E.
    apply list_elem_of_In, E in Hb. pose proof (name_bytes_ok b) as Hn. unfold name_byte_ok in Hn.
    rewrite Hb in Hn. cbn [negb orb] in Hn. by to_prop.
  - intros v [h0 p0] h q Hv _ [= <-] _. unfold parse_url, plain_parser in Hv.
    destruct (strip_prefix _ v) as [r|]; [|done]. cbn [mbind option_bind] in Hv.
    destruct (default (r, []) (split_once [SLASH] r)) as [h p].
    destruct (forallb name_byte h) eqn:E; [|done]. injection Hv as <- <-. cbn [fst] in *.
    exists (to_ascii_lowercase h, SLASH :: encode_path q). split; [|done].
    apply plain_parse. apply forallb_forall. intros b Hb%list_elem_of_In.
    apply list_elem_of_fmap_1 in Hb as (c & -> & Hc). rewrite forallb_forall in E.
    assert (∀ b, name_byte (byte_to_ascii_lowercase b) = name_byte b) as Hl by (by intros []).
    cbn. rewrite Hl. by apply E, list_elem_of_In.
Qed.

Definition sample_refs : CompareRefs :=
  mkCompareRefs (bs "release/1.x") (bs "fork:caf" ++ [Byte.xc3; Byte.xa9]) false.
Definition sample_compare : CompareAddress :=
  mkCompareAddress (bs "git.example") (bs "acme") (bs "tool.rs") sample_refs.
Definition sample_target : RemoteTarget :=
  mkRemoteTarget ProviderId.GITHUB (mkRepositoryKey (bs "git.example") 7 (bs "Acme") (bs "Tool.rs"))
    (bs "me") 0 (bs "") (bs "") (bs "") true false false false (Some sample_refs) None.

Lemma reopen_address_reopens_witness :
  GithubTarget_parse (bs "https://Git.Example/acme/tool.rs/compare/release/1.x...fork:caf%c3%A9/")
    = Ok (Compare sample_compare) ∧
  target_address (Compare sample_compare) sample_target ∧
  GithubTarget_parse (reopen_address sample_target)
    = Ok (address_of (Compare sample_compare) sample_target).
Proof.
  assert (GithubTarget_parse
            (bs "https://Git.Example/acme/tool.rs/compare/release/1.x...fork:caf%c3%A9/")
          = Ok (Compare sample_compare)) as Hp by (vm_compute; reflexivity).
  assert (target_address (Compare sample_compare) sample_target) as Ht by (repeat split).
  split; [exact Hp|]. split; [exact Ht|].
  apply (reopen_address_reopens plain_laws _ _ _ Hp Ht); discriminate.
Defined.

Lemma quote_path_reads_back_witness :
  forallb plain_byte (bs "b/") = true ∧
  RepoPath.from_git_token (quote_path (bs "b/") [Byte.x09; Byte.xff; QUOTE])
    = RepoPath.new (bs "b/" ++ [Byte.x09; Byte.xff; QUOTE]).
Proof. split; [reflexivity|]. apply (quote_path_reads_back (bs "b/")). reflexivity. Defined.
