(* ===== verification/GithubRuns.v ===== *)
(** * GitHub: what is sent, and when *)

From S2P Require Import Prelude RustStr Utf8 Domain Patch BTree Overview Snapshot F32 Session.
From S2P Require Import Review Store Json Outbox Process Remote Releases Export.
From S2P Require Import ProcessFacts Github GithubFacts.

(** ** Only reads *)

(** A command that GitHub answers without changing anything: a [GET], or a query. *)
Inductive read_command {json_ : JsonValue} (host : bytes) : Command → Prop :=
| read_get endpoint accept :
    bad_endpoint endpoint = false →
    read_command host (gh_command host endpoint (bs "GET") None accept)
| read_query v accept :
    read_command host (gh_command host (bs "graphql") (bs "POST") (Some v) accept).

Section reads.
Context {sha_ : Sha256} {source_ : SourceJson} {json_ : JsonValue} (gh : Server).
Variable host_ : bytes.
Notation reads := (emits (read_command host_)).

Lemma reads_request endpoint accept : reads (request gh host_ endpoint (bs "GET") None accept).
Proof.
  unfold request. destruct (bad_endpoint endpoint) eqn:E; [apply emits_lift|].
  apply emits_bind; [apply emits_run; by constructor|]. intros a. apply emits_lift.
Qed.
#[local] Hint Resolve reads_request : emits.
Lemma reads_get_json endpoint : reads (get_json gh host_ endpoint).
Proof. unfold get_json. emits_walk. Qed.
#[local] Hint Resolve reads_get_json : emits.
Lemma reads_pages_loop n page endpoint rows limit large many all size :
  reads (pages_loop gh n page host_ endpoint rows limit large many all size).
Proof.
  revert page all size. induction n as [|n IH]; intros page all size; cbn [pages_loop]; emits_walk.
Qed.
#[local] Hint Resolve reads_pages_loop : emits.
Lemma reads_pages endpoint : reads (pages gh host_ endpoint).
Proof. unfold pages. emits_walk. Qed.
Lemma reads_named_pages endpoint field : reads (named_pages gh host_ endpoint field).
Proof. unfold named_pages. emits_walk. Qed.
#[local] Hint Resolve reads_pages reads_named_pages : emits.
Lemma reads_account : reads (account_of gh host_).
Proof. unfold account_of. emits_walk. Qed.
#[local] Hint Resolve reads_account : emits.
Lemma reads_tag_pages n page repo tags : reads (tag_pages gh n page host_ repo tags).
Proof.
  revert page tags. induction n as [|n IH]; intros page tags; cbn [tag_pages]; emits_walk.
Qed.
#[local] Hint Resolve reads_tag_pages : emits.
Lemma reads_range_commits repo base head v : reads (range_commits gh host_ repo base head v).
Proof. unfold range_commits. emits_walk. Qed.
#[local] Hint Resolve reads_range_commits : emits.
Lemma reads_parse_body body : reads (parse_body body).
Proof. unfold parse_body. emits_walk. Qed.
#[local] Hint Resolve reads_parse_body : emits.

Lemma reads_overview now a m head : pr_host a = host_ → reads (overview_of gh now a m head).
Proof. intros Ha. unfold overview_of. rewrite Ha. emits_walk. Qed.
Lemma reads_metadata a : pr_host a = host_ → reads (metadata gh a).
Proof. intros Ha. unfold metadata. rewrite Ha. emits_walk. Qed.
#[local] Hint Resolve reads_overview reads_metadata : emits.
Lemma reads_attempt now a acc m :
  pr_host a = host_ → reads (snapshot_attempt gh now a acc m).
Proof. intros Ha. unfold snapshot_attempt. rewrite Ha. emits_walk. Qed.
#[local] Hint Resolve reads_attempt : emits.
Lemma reads_snapshot_loop n now a acc m :
  pr_host a = host_ → reads (snapshot_loop gh n now a acc m).
Proof.
  intros Ha. revert m. induction n as [|n IH]; intros m; cbn [snapshot_loop]; emits_walk.
Qed.
#[local] Hint Resolve reads_snapshot_loop : emits.
Lemma reads_snapshot now a : pr_host a = host_ → reads (github_snapshot gh now a).
Proof. intros Ha. unfold github_snapshot. rewrite Ha. emits_walk. Qed.
Lemma reads_compare now a : ca_host a = host_ → reads (github_compare gh now a).
Proof. intros Ha. unfold github_compare. rewrite Ha. emits_walk. Qed.
Lemma reads_reviews t : host (repository t) = host_ → reads (reviews_of gh t).
Proof. intros Ha. unfold reviews_of, from_target. cbn [pr_host]. rewrite Ha. emits_walk. Qed.
Lemma reads_review_comments t n :
  host (repository t) = host_ → reads (review_comments_of gh t n).
Proof. intros Ha. unfold review_comments_of, from_target. cbn [pr_host]. rewrite Ha. emits_walk. Qed.
Lemma reads_source t path rev : host (repository t) = host_ → reads (source gh t path rev).
Proof. intros Ha. unfold source. rewrite Ha. emits_walk. Qed.
Lemma target_of_Ok a m acc mb t :
  target_of a m acc mb = Ok t →
  host (repository t) = pr_host a ∧
  eq_ignore_ascii_case (owner (repository t)) (pr_owner a) = true ∧
  eq_ignore_ascii_case (repository_name (repository t)) (pr_repo a) = true ∧
  pr t = number a ∧ compare t = None ∧ account t = acc ∧ comparison_base t = mb ∧
  oid m (bs "/base/sha") = Ok (target_tip t) ∧ oid m (bs "/head/sha") = Ok (head t) ∧
  number_at m (bs "/base/repo/id") = Ok (repository_id (repository t)).
Proof.
  unfold target_of. intros H. inv_bind H as o Ho. inv_bind H as n Hn.
  destruct (_ || _) eqn:E in H; [done|]. inv_bind H as r Hr. inv_bind H as b Hb.
  inv_bind H as h Hh. injection H as <-. cbn. by to_prop.
Qed.
Lemma target_of_host a m acc base t :
  target_of a m acc base = Ok t → host (repository t) = pr_host a.
Proof. by intros (? & _)%target_of_Ok. Qed.
Lemma reads_current t : host (repository t) = host_ → reads (current_target gh t).
Proof.
  intros Ha. unfold current_target. cbn [pr_host from_target]. rewrite Ha.
  assert (reads (metadata gh (from_target t))) by by apply reads_metadata.
  emits_walk. apply reads_reviews. etransitivity; [by eapply target_of_host|done].
Qed.

Lemma reads_releases t : host (repository t) = host_ → reads (github_releases gh t).
Proof. intros Ha. unfold github_releases. rewrite Ha. emits_walk. Qed.

Lemma reads_blame t spans : host (repository t) = host_ → reads (github_blame gh t spans).
Proof.
  intros Ha. unfold github_blame, blame_batch. rewrite Ha. unfold request.
  assert (∀ v, reads (run_command gh (gh_command host_ (bs "graphql") (bs "POST") (Some v) accept_json))).
  { intros v. apply emits_run. by constructor. }
  emits_walk.
Qed.
End reads.

(** ** A snapshot is of one state of the pull request *)

Section coherent.
Context {sha_ : Sha256} {source_ : SourceJson} {json_ : JsonValue} (gh : Server).

Lemma request_Ok h e m b acc tr r tr' :
  request gh h e m b acc tr = (Ok r, tr') →
  tr' = tr ++ [gh_command h e m b acc] ∧ bad_endpoint e = false ∧
  ∃ out, gh tr (gh_command h e m b acc) = Ok out ∧ decode_http (stdout out) = Ok r.
Proof.
  unfold request. destruct (bad_endpoint e); [done|]. intros H. io_step H out tr1 Ho.
  apply run_command_Ok in Ho as [Ho ->]. apply lift_Ok in H as [H ->].
  split; [done|]. split; [done|]. exists out. split; [done|].
  by destruct (decode_http (stdout out)); [injection H as ->|].
Qed.

Lemma get_json_Ok h e tr v tr' :
  get_json gh h e tr = (Ok v, tr') → tr' = tr ++ [gh_command h e (bs "GET") None accept_json].
Proof.
  unfold get_json. intros H. io_step H r tr1 Hr. apply request_Ok in Hr as [-> _].
  by apply lift_Ok in H as [_ ->].
Qed.

(** The command that reads the pull request. *)
Definition meta_command (a : PrAddress) : Command :=
  gh_command (pr_host a) (root a) (bs "GET") None accept_json.
Lemma metadata_Ok a tr v tr' : metadata gh a tr = (Ok v, tr') → tr' = tr ++ [meta_command a].
Proof. apply get_json_Ok. Qed.

Lemma moved_false base head before after :
  moved base head before after = Ok false →
  oid after (bs "/base/sha") = Ok base ∧ oid after (bs "/head/sha") = Ok head ∧
  json_eqb (index (index (index before (bs "base")) (bs "repo")) (bs "id"))
           (index (index (index after (bs "base")) (bs "repo")) (bs "id")) = true.
Proof.
  unfold moved. intros H. inv_bind H as b Hb. destruct (negb _) eqn:E in H; [done|].
  inv_bind H as h Hh. injection H as H. apply orb_false_iff in H as [H1 H2]. to_prop.
  subst. done.
Qed.

(** What is read between two reads of the pull request, and the second of them. *)
Record Reads := mkReads {
  rd_compare : Value; rd_files : list Value; rd_diff : HttpResponse; rd_comments : list Value;
  rd_reviews : list Value; rd_overview : Overview; rd_after : Value
}.
(** They are read one after the other, between [tr] and [tr'], each once; the account last before the
    pull request is read again. *)
Definition read_between (now : N) (a : PrAddress) (account0 base head0 : bytes) (before : Value)
    (tr tr' : list Command) (r : Reads) : Prop :=
  ∃ t1 t2 t3 t4 t5 t6 t7,
    get_json gh (pr_host a) (compare_endpoint (pr_owner a) (pr_repo a) base head0) tr
      = (Ok (rd_compare r), t1) ∧
    pages gh (pr_host a) (root a ++ bs "/files") t1 = (Ok (rd_files r), t2) ∧
    request gh (pr_host a) (root a) (bs "GET") None accept_diff t2 = (Ok (rd_diff r), t3) ∧
    pages gh (pr_host a) (root a ++ bs "/comments") t3 = (Ok (rd_comments r), t4) ∧
    pages gh (pr_host a) (root a ++ bs "/reviews") t4 = (Ok (rd_reviews r), t5) ∧
    overview_of gh now a before head0 t5 = (Ok (rd_overview r), t6) ∧
    account_of gh (pr_host a) t6 = (Ok account0, t7) ∧
    metadata gh a t7 = (Ok (rd_after r), tr').

(** The target says what both reads of the pull request say, and what the second says of its state. *)
Record target_of_reads (a : PrAddress) (account0 : bytes) (before : Value) (r : Reads) (t : RemoteTarget)
    : Prop := {
  tr_account : account t = account0;
  tr_base : oid before (bs "/base/sha") = Ok (target_tip t) ∧ oid (rd_after r) (bs "/base/sha") = Ok (target_tip t);
  tr_head : oid before (bs "/head/sha") = Ok (head t) ∧ oid (rd_after r) (bs "/head/sha") = Ok (head t);
  tr_repository : json_eqb (index (index (index before (bs "base")) (bs "repo")) (bs "id"))
                           (index (index (index (rd_after r) (bs "base")) (bs "repo")) (bs "id")) = true;
  tr_merge_base : oid (rd_compare r) (bs "/merge_base_commit/sha") = Ok (comparison_base t);
  tr_open : open t = is_str (index (rd_after r) (bs "state")) (bs "open");
  tr_draft : draft t = is_true (index (rd_after r) (bs "draft"));
  tr_merged : merged t = is_merged (rd_after r);
  tr_pending : pending_review t = existsb (is_pending account0) (rd_reviews r);
  tr_address : target_address (Pr a) t
}.
(** The parts of the snapshot come from these reads alone. *)
Record made_from (a : PrAddress) (account0 : bytes) (before : Value) (r : Reads) (s : Snapshot) : Prop := {
  mf_target : ∃ t, remote s = Some t ∧ target_of_reads a account0 before r t;
  mf_title : ∃ name, text (rd_after r) (bs "/title") = Ok name ∧
    title s = name ++ [Byte.x20; Byte.xc2; Byte.xb7; Byte.x20] ++ pr_owner a ++ bs "/" ++ pr_repo a
              ++ bs " #" ++ dec (number a);
  mf_patch : ∃ body, parse_patch body default_limits = Some (Ok (patch s)) ∧
    (http_status (rd_diff r) = 200%N ∧ body = http_body (rd_diff r) ∨
     http_status (rd_diff r) = 406%N ∧ body = patch_from_files (rd_files r));
  mf_comments : mapM thread (rd_comments r) = Ok (comments s);
  mf_description : description (overview s) = str_at (rd_after r) "body";
  mf_decision : decision (overview s) = review_decision (omap review_ruling (rd_reviews r));
  mf_conversation : conversation (overview s)
    = conversation (rd_overview r) ++ omap review_line (rd_reviews r);
  mf_checks : checks (overview s) = checks (rd_overview r)
}.

Lemma parse_body_Ok body tr p tr' :
  parse_body body tr = (Ok p, tr') → parse_patch body default_limits = Some (Ok p) ∧ tr' = tr.
Proof.
  unfold parse_body. destruct (parse_patch body default_limits) as [r|]; [|done].
  intros [H ->]%lift_Ok. split; [|done]. by destruct r; [injection H as ->|].
Qed.

Lemma attempt_coherent now a acc before tr s tr' :
  snapshot_attempt gh now a acc before tr = (Ok (Some s), tr') →
  ∃ base head0 r, oid before (bs "/base/sha") = Ok base ∧ oid before (bs "/head/sha") = Ok head0 ∧
    read_between now a acc base head0 before tr tr' r ∧ made_from a acc before r s.
Proof.
  unfold snapshot_attempt. intros H.
  io_lift H b Hb. io_lift H h0 Hh.
  io_step H cp tr1 Hcmp. io_step H fs tr2 Hfs. io_step H rw tr3 Hraw. io_step H cs tr4 Hcs.
  io_step H rs tr5 Hrs. io_step H o tr6 Ho. io_lift H cp' Hcmp'. io_lift H mb Hmb.
  io_lift H t Ht. io_lift H fs' Hfs'. io_lift H rw' Hraw'. subst.
  io_lift H bd Hbody. io_step H p tr7 Hp. apply parse_body_Ok in Hp as [Hp ->].
  io_lift H cs' Hcs'. io_lift H rs' Hrs'. io_step H still tr8 Hstill. io_step H after tr9 Hafter.
  io_lift H gone Hgone. destruct gone; [by apply ret_Ok in H as [? _]|].
  io_lift H still' Hs'. subst. destruct (negb _) eqn:Eacc in H; [by apply lift_Ok in H as [? _]|].
  to_prop. subst still'. io_lift H tt0 Htt. io_lift H th Hth. io_lift H ex0 Hex.
  io_lift H pths Hpaths. apply ret_Ok in H as [[= <-] ->].
  apply attempt_Ok in Hcmp, Hfs, Hraw, Hcs, Hrs, Hstill.
  apply moved_false in Hgone as (G1 & G2 & G3).
  apply target_of_Ok in Ht as (T1 & T2 & T3 & T4 & T5 & T6 & T7 & T8 & T9 & T10).
  exists b, h0, (mkReads cp' fs' rw' cs' rs' o after). split; [done|]. split; [done|].
  split.
  { eexists _, _, _, _, _, _, _. split; [exact Hcmp|]. split; [exact Hfs|]. split; [exact Hraw|].
    split; [exact Hcs|]. split; [exact Hrs|]. split; [exact Ho|]. split; [exact Hstill|exact Hafter]. }
  split.
  - eexists. split; [done|]. split; cbn [rd_after rd_compare rd_reviews]; try done.
    + cbn [target_tip refreshed]. split; [done|]. rewrite <- T8, Hb in *. congruence.
    + cbn [head refreshed]. split; [done|]. rewrite <- T9, Hh in *. congruence.
    + cbn [comparison_base refreshed]. by rewrite T7.
  - by exists tt0.
  - exists bd. split; [done|]. cbn [rd_diff rd_files].
    destruct (http_status rw' =? 200)%N eqn:E2; [left|].
    + apply N.eqb_eq in E2. split; [done|]. by injection Hbody.
    + destruct (http_status rw' =? 406)%N eqn:E3; [right|done].
      apply N.eqb_eq in E3. split; [done|]. by injection Hbody.
  - done.
  - done.
  - done.
  - done.
  - done.
Qed.

(** What an accepted snapshot was made from, by the account [acc] and the first of the two reads. *)
Definition coherent (now : N) (a : PrAddress) (acc : bytes) (s : Snapshot) (tr' : list Command) : Prop :=
  ∃ before tr0 tr1 base head0 r, metadata gh a tr0 = (Ok before, tr1) ∧
    oid before (bs "/base/sha") = Ok base ∧ oid before (bs "/head/sha") = Ok head0 ∧
    read_between now a acc base head0 before tr1 tr' r ∧ made_from a acc before r s.

Lemma loop_coherent n now a acc first tr s tr' :
  match first with Some m => ∃ tr0, metadata gh a tr0 = (Ok m, tr) | None => True end →
  snapshot_loop gh n now a acc first tr = (Ok s, tr') → coherent now a acc s tr'.
Proof.
  revert first tr. induction n as [|n IH]; intros first tr Hf H; cbn [snapshot_loop] in H.
  { by apply lift_Ok in H as [? _]. }
  io_step H before tr1 Hb. io_step H r tr2 Hr. destruct r as [s'|].
  - apply ret_Ok in H as [-> ->]. apply attempt_coherent in Hr as (b & h0 & r & Hr).
    destruct first as [m|].
    + apply ret_Ok in Hb as [-> ->]. destruct Hf as [tr0 Hf]. by exists before, tr0, tr, b, h0, r.
    + by exists before, tr, tr1, b, h0, r.
  - by eapply IH, H.
Qed.
Lemma snapshot_coherent now a tr s tr' :
  github_snapshot gh now a tr = (Ok s, tr') →
  ∃ acc tra, account_of gh (pr_host a) tr = (Ok acc, tra) ∧ coherent now a acc s tr'.
Proof.
  unfold github_snapshot. intros H. io_step H acc tr1 Hacc. io_step H fst0 tr2 Hfirst.
  io_lift H acc' Ha. io_lift H fst1 Hf. subst. apply attempt_Ok in Hacc, Hfirst.
  exists acc', tr1. split; [done|]. eapply loop_coherent, H. by exists tr1.
Qed.

(** C15: An accepted snapshot shows one state of the pull request. Between two reads of it that agree
    on the base commit, the head commit and the repository, the comparison of these commits, the files,
    the diff, the comments, the reviews, the rest of the overview with its checks and the account were
    read one after the other, each in this attempt; and the account is the one of the beginning. The
    target, the title, the patch, the comments and the overview come from these reads alone: the patch
    is the diff, or the one rebuilt from the files read when the server refuses with 406, and the merge
    base is that of the comparison. *)
Theorem github_snapshot_coherent now a tr s tr' :
  github_snapshot gh now a tr = (Ok s, tr') →
  ∃ acc tra, account_of gh (pr_host a) tr = (Ok acc, tra) ∧ coherent now a acc s tr'.
Proof. apply snapshot_coherent. Qed.

(** What the rest of the program takes for granted of a pull request it has opened. *)
Record well_typed_target (t : RemoteTarget) : Prop := {
  typed_owner : identifier (owner (repository t)) = true;
  typed_name : identifier (repository_name (repository t)) = true;
  typed_number : (0 < pr t <= u64_max)%N;
  typed_target_tip : is_oid (target_tip t) = true;
  typed_comparison_base : is_oid (comparison_base t) = true;
  typed_head : is_oid (head t) = true;
  typed_lower : to_ascii_lowercase (head t) = head t;
  typed_pull : compare t = None;
  typed_endpoint : bad_endpoint (root (from_target t)) = false
}.

Lemma oid_typed v p s : oid v p = Ok s → is_oid s = true ∧ to_ascii_lowercase s = s.
Proof.
  unfold oid. intros H. inv_bind H as x Hx. destruct (is_oid x) eqn:E in H; [|done].
  injection H as <-. split; [|apply lowercase_idem].
  unfold is_oid in *. unfold to_ascii_lowercase at 1 2. rewrite length_fmap.
  apply andb_true_iff in E as [-> E]. cbn [andb]. rewrite forallb_forall in E |- *.
  intros b Hb%list_elem_of_In. apply list_elem_of_fmap_1 in Hb as (c & -> & Hc).
  assert (is_ascii_hexdigit c = true) as He by by apply E, list_elem_of_In.
  clear -He. by destruct c.
Qed.

Lemma identifier_no_slashes s : identifier s = true → SLASH ∉ s ∧ Byte.x3a ∉ s.
Proof. by intros (_ & _ & _ & ? & ? & _)%identifier_facts. Qed.

Lemma root_endpoint a :
  identifier (pr_owner a) = true → identifier (pr_repo a) = true → bad_endpoint (root a) = false.
Proof.
  intros [_ Ho]%identifier_no_slashes [_ Hn]%identifier_no_slashes. unfold bad_endpoint.
  assert (starts_with (bs "-") (root a) = false) as -> by done.
  assert (starts_with (bs "/") (root a) = false) as -> by done. cbn [orb].
  apply not_true_iff_false. rewrite contains_iff. intros (x & y & Hxy).
  assert (Byte.x3a ∈ root a) as Hin by (rewrite Hxy; set_solver).
  unfold root in Hin. rewrite !elem_of_app in Hin.
  assert (∀ t : bytes, bool_decide (Byte.x3a ∈ t) = false → Byte.x3a ∉ t) as Hnot
    by (intros ?; apply bool_decide_eq_false).
  destruct Hin as [Hin|[Hin|[Hin|[Hin|[Hin|Hin]]]]]; try done;
    try (refine (Hnot _ _ Hin); vm_compute; reflexivity).
  pose proof (dec_digits (number a)) as Hd. rewrite Forall_forall in Hd. by apply Hd in Hin.
Qed.

(** Every snapshot of a pull request that is opened from an address has a well-typed
    target: its owner and name are identifiers, its number is positive and fits 64 bits, its
    commits are object identifiers in lower case, and requests for it go to a relative
    endpoint. *)
Theorem github_target_typed {url_ : UrlParser} (laws_ : UrlLaws url_) v a now tr s tr' :
  GithubTarget_parse v = Ok (Pr a) → github_snapshot gh now a tr = (Ok s, tr') →
  ∃ t, remote s = Some t ∧ well_typed_target t.
Proof.
  intros Ha Hs. apply snapshot_coherent in Hs as (acc & tra & _ & before & tr0 & tr1 & b & h0 & r & _ & _ & _ & _ & Hm).
  destruct (mf_target _ _ _ _ _ Hm) as (t & Ht & [_ [Hb _] [Hh _] _ Hmb _ _ _ _ (_ & Ho & Hn & Hnum & Hcmp)]).
  assert (PrAddress_parse (trim v) = Ok a) as Hp.
  { unfold GithubTarget_parse in Ha. destruct (_ && _) in Ha.
    - by destruct (CompareAddress_parse _).
    - destruct (PrAddress_parse _) as [a'|]; [by injection Ha as ->|done]. }
  apply (PrAddress_parse_Ok laws_) in Hp as (_ & Hio & Hin & Hpos).
  exists t. split; [done|]. apply oid_typed in Hb, Hh, Hmb.
  assert (identifier (owner (repository t)) = true) as H1 by by eapply lowercase_identifier.
  assert (identifier (repository_name (repository t)) = true) as H2 by by eapply lowercase_identifier.
  destruct Hb, Hh, Hmb.
  split; [done|done|by rewrite Hnum|done..|by apply root_endpoint].
Qed.

(** Reading never writes: whatever GitHub answers, taking a snapshot of a pull request or a
    compare, checking a pull request, reading source files, reviews, releases and blame only
    run [gh] with [GET] requests, or the blame query, at the host of the address, with a
    relative endpoint. *)
Theorem github_reads_only now a c t path revision n spans :
  let reads host A (m : io A) := emits (read_command host) m in
  reads (pr_host a) _ (github_snapshot gh now a) ∧
  reads (ca_host c) _ (github_compare gh now c) ∧
  reads (host (repository t)) _ (current_target gh t) ∧
  reads (host (repository t)) _ (source gh t path revision) ∧
  reads (host (repository t)) _ (reviews_of gh t) ∧
  reads (host (repository t)) _ (review_comments_of gh t n) ∧
  reads (host (repository t)) _ (github_releases gh t) ∧
  reads (host (repository t)) _ (github_blame gh t spans).
Proof.
  split_and!;
    [by apply reads_snapshot|by apply reads_compare|by apply reads_current|by apply reads_source
    |by apply reads_reviews|by apply reads_review_comments|by apply reads_releases
    |by apply reads_blame].
Qed.

End coherent.

(** ** Listings are whole *)

Section listing.
Context {json_ : JsonValue} (gh : Server).

Section loop.
Variables (host_ endpoint : bytes) (pick : Value → result bytes (list Value)) (limit : N).

Definition page_command (page : N) : Command :=
  gh_command host_ (page_endpoint endpoint page) (bs "GET") None accept_json.

(** The pages of a run that starts with page [page] at history [tr], and the rows they hold:
    every page but the last has at least 100 rows, and the last has fewer. *)
Inductive page_run : N → list Command → list (Value * list Value) → list Command → Prop :=
| page_last page tr v items :
    get_json gh host_ (page_endpoint endpoint page) tr = (Ok v, tr ++ [page_command page]) →
    pick v = Ok items → length items < 100 →
    page_run page tr [(v, items)] (tr ++ [page_command page])
| page_more page tr v items ps tr' :
    get_json gh host_ (page_endpoint endpoint page) tr = (Ok v, tr ++ [page_command page]) →
    pick v = Ok items → 100 ≤ length items →
    page_run (page + 1) (tr ++ [page_command page]) ps tr' →
    page_run page tr ((v, items) :: ps) tr'.

Definition pages_size (ps : list (Value * list Value)) : N :=
  foldr N.add 0%N ((λ p, lenN (to_vec p.1)) <$> ps).

Lemma pages_loop_Ok n page large many all size tr r tr' :
  pages_loop gh n page host_ endpoint pick limit large many all size tr = (Ok r, tr') →
  ∃ ps, page_run page tr ps tr' ∧ r = all ++ concat ps.*2 ∧ length ps ≤ n ∧
        (size + pages_size ps <= limit)%N.
Proof.
  revert page all size tr. induction n as [|n IH]; intros page all size tr H;
    cbn [pages_loop] in H.
  { by apply lift_Ok in H as [? _]. }
  io_step H v tr1 Hv. pose proof (get_json_Ok _ _ _ _ _ _ Hv) as ->.
  destruct (limit <? _)%N eqn:E; [by apply lift_Ok in H as [? _]|]. apply N.ltb_ge in E.
  io_lift H items Hi. destruct (length items <? 100) eqn:El.
  - apply Nat.ltb_lt in El. apply ret_Ok in H as [<- ->].
    exists [(v, items)]. split; [by constructor|]. cbn. rewrite app_nil_r.
    split; [done|]. split; [lia|]. unfold pages_size. cbn. lia.
  - apply Nat.ltb_ge in El. apply IH in H as (ps & Hps & -> & Hl & Hs).
    exists ((v, items) :: ps). split; [by econstructor|]. cbn. rewrite <- app_assoc.
    split; [done|]. split; [lia|]. unfold pages_size in *. cbn. lia.
Qed.
End loop.

(** A listing that is accepted is whole. It is what the pages 1, 2, ... of the endpoint,
    read in this order and nothing else in between, hold: at most 100 pages and 64 MiB, every
    page but the last full, and the last not; a listing that goes on is refused. *)
Theorem pages_whole host endpoint tr all tr' :
  pages gh host endpoint tr = (Ok all, tr') →
  ∃ ps, page_run host endpoint (λ v, ok_or (as_array v) (bs "expected GitHub array page")) 1 tr ps tr'
        ∧ all = concat ps.*2 ∧ length ps ≤ 100 ∧ (pages_size ps <= page_limit)%N.
Proof. intros (ps & ? & -> & ? & ?)%pages_loop_Ok. by exists ps. Qed.
End listing.

(** ** Sending a review *)

Section send.
Context {sha_ : Sha256} {review_ : ReviewJson} {payload_ : PayloadJson} {json_ : JsonValue}
  (gh : Server).

(** The command that creates a review. *)
Definition review_command (p : PreparedReview) (v : Value) : Command :=
  gh_command (host (repository (target p))) (root (from_target (target p)) ++ bs "/reviews")
    (bs "POST") (Some v) accept_json.

(** C8: sending a review answers in every case, sends at most one request, and that only for a
    verified review, with exactly its payload at its pull request. The review counts as
    rejected only if nothing was sent or GitHub refused it with a 4xx status other than 408,
    and as accepted only if GitHub answered 200 or 201 with a readable body; when no whole
    answer arrived, or any other, its outcome is unknown. *)
Theorem github_send_outcome p tr :
  ∃ o cs, github_send gh p tr = (Ok o, tr ++ cs) ∧
  (cs = [] ∨ ∃ v, cs = [review_command p v] ∧ verify p GithubRules = true ∧
                  from_slice (payload_json (payload_of p)) = Ok v) ∧
  match o with
  | Outbox.Rejected n =>
      cs = [] ∨ ∃ c out r, cs = [c] ∧ gh tr c = Ok out ∧ decode_http (stdout out) = Ok r ∧
                http_status r = n ∧ (400 <= n < 500)%N ∧ n ≠ 408%N
  | Accepted v =>
      ∃ c out r, cs = [c] ∧ gh tr c = Ok out ∧ decode_http (stdout out) = Ok r ∧
        (http_status r = 200%N ∨ http_status r = 201%N) ∧ from_slice (http_body r) = Ok v
  | Unknown _ => True
  end.
Proof.
  unfold github_send. destruct (verify p GithubRules) eqn:Ev; cbn [negb].
  2:{ exists (Outbox.Rejected 422), []. rewrite app_nil_r. split; [done|]. by split; left. }
  change (payload GithubRules p) with (payload_json (payload_of p)).
  destruct (from_slice (payload_json (payload_of p))) as [v|e] eqn:Ep.
  2:{ exists (Outbox.Rejected 422), []. rewrite app_nil_r. split; [done|]. by split; left. }
  unfold mbind, io_bind, attempt, request. change (pr_host (from_target (target p)))
    with (host (repository (target p))).
  destruct (bad_endpoint _) eqn:Eb.
  { cbn. eexists _, []. rewrite app_nil_r. split; [done|]. split; [by left|done]. }
  unfold mbind, io_bind, run_command. fold (review_command p v).
  destruct (gh tr (review_command p v)) as [out|e] eqn:Eo; cbn [map_err lift].
  2:{ cbn. eexists _, [_]. split; [done|]. split; [|done]. right. by exists v. }
  destruct (decode_http (stdout out)) as [r|e] eqn:Er; cbn [map_err lift].
  2:{ cbn. eexists _, [_]. split; [done|]. split; [|done]. right. by exists v. }
  cbn. exists (send_outcome (Ok r)), [review_command p v]. split; [done|].
  split; [right; by exists v|]. cbn [send_outcome].
  destruct (_ || _) eqn:E2.
  - destruct (from_slice (http_body r)) as [w|] eqn:Ew; [|done].
    exists (review_command p v), out, r. split_and!; try done.
    by apply orb_true_iff in E2 as [?%N.eqb_eq|?%N.eqb_eq]; [left|right].
  - destruct (_ && _) eqn:E4; [|done]. right. exists (review_command p v), out, r.
    to_prop. split_and!; done || lia.
Qed.
End send.

(** ** A small server *)

Section sample.
#[local] Instance short_sha : Sha256 := λ s, take 32 s.
#[local] Instance short_source : SourceJson := {| source_json _ o _ _ := o; entire_json _ := [] |}.

Definition sample_oid : bytes := replicate 40 Byte.x61.
Definition sample_meta : json := JObj
  [(bs "title", JStr (bs "Fix")); (bs "state", JStr (bs "open")); (bs "changed_files", JNum 1);
   (bs "base", JObj [(bs "sha", JStr sample_oid);
      (bs "repo", JObj [(bs "id", JNum 5); (bs "name", JStr (bs "tool"));
                        (bs "owner", JObj [(bs "login", JStr (bs "acme"))])])]);
   (bs "head", JObj [(bs "sha", JStr sample_oid)])].
Definition sample_replies : list (bytes * json) :=
  [(bs "user", JObj [(bs "login", JStr (bs "me"))]); (bs "meta", sample_meta);
   (bs "none", JArr []);
   (bs "base", JObj [(bs "merge_base_commit", JObj [(bs "sha", JStr sample_oid)])])].
(** The example's JSON text is the name of a reply. *)
#[local] Instance reply_json : JsonValue := {|
  Value := json; index := json_index; pointer := json_pointer;
  as_u64 := @as_u64 sample_json; as_str := @as_str sample_json; as_bool := @as_bool sample_json;
  as_array := @as_array sample_json; is_null := @is_null sample_json; is_object := @is_object sample_json; json_eqb := json_same;
  json_null := JNull; json_str := JStr; json_num := JNum; json_object := JObj;
  to_vec _ := [];
  from_slice s := ok_or (get s sample_replies) (bs "no such reply")
|}.
Definition sample_server : Server := λ _ c,
  let endpoint := default [] (command_args c !! 10) in
  let accept := default [] (command_args c !! 7) in
  let body := if bool_decide (endpoint = bs "user") then bs "user"
              else if bool_decide (endpoint = bs "repos/acme/tool/pulls/3")
              then if bool_decide (accept = accept_diff)
                   then bs "diff --git a/f b/f" ++ [LF] ++ bs "--- a/f" ++ [LF] ++ bs "+++ b/f" ++ [LF]
                        ++ bs "@@ -1 +1 @@" ++ [LF] ++ bs "-x" ++ [LF] ++ bs "+y" ++ [LF]
                   else bs "meta"
              else if contains (bs "/compare/") endpoint then bs "base" else bs "none" in
  Ok (mkProcessOutput (Some 0%Z) (bs "HTTP/1.1 200 OK" ++ [LF; LF] ++ body) []).
Definition sample_address : PrAddress := mkPrAddress (bs "github.com") (bs "acme") (bs "tool") 3.

Definition sample_run := github_snapshot sample_server 0 sample_address [].

Lemma github_snapshot_coherent_witness :
  ∃ s tr', sample_run = (Ok s, tr') ∧
  ∃ acc tra, account_of sample_server (bs "github.com") [] = (Ok acc, tra) ∧
    coherent sample_server 0 sample_address acc s tr'.
Proof.
  destruct sample_run as [[s|e] tr'] eqn:E.
  - exists s, tr'. split; [done|].
    exact (github_snapshot_coherent sample_server 0 sample_address [] s tr' E).
  - assert (is_ok sample_run.1 = true) as H by (vm_compute; reflexivity). by rewrite E in H.
Defined.

Lemma github_target_typed_witness :
  ∃ s tr', sample_run = (Ok s, tr') ∧ ∃ t, remote s = Some t ∧ well_typed_target t.
Proof.
  destruct sample_run as [[s|e] tr'] eqn:E.
  - exists s, tr'. split; [done|].
    apply (github_target_typed sample_server plain_laws (bs "acme/tool#3") sample_address 0 []
             s tr'); [vm_compute; reflexivity|exact E].
  - assert (is_ok sample_run.1 = true) as H by (vm_compute; reflexivity). by rewrite E in H.
Defined.

Lemma pages_whole_witness :
  ∃ tr', pages sample_server (bs "github.com") (bs "x") [] = (Ok [], tr') ∧
  ∃ ps, page_run sample_server (bs "github.com") (bs "x")
          (λ v, ok_or (as_array v) (bs "expected GitHub array page")) 1 [] ps tr'
        ∧ [] = concat ps.*2 ∧ length ps ≤ 100 ∧ (pages_size ps <= page_limit)%N.
Proof.
  eexists. split; [vm_compute; reflexivity|].
  apply (pages_whole sample_server (bs "github.com") (bs "x") [] []). vm_compute. reflexivity.
Defined.
End sample.
