(* ===== verification/Gitlab.v ===== *)
(** * GitLab ([crates/adapters/src/gitlab.rs])

    Addresses, what [glab] is asked, the translation of the answers, and the sending of a
    review: several requests, each after a check that the merge request is unchanged. *)

From S2P Require Import Prelude RustStr Utf8 Domain Patch BTree Overview Snapshot F32 Session.
From S2P Require Import Review Store Json Outbox Process Remote Releases Export Github.

(** ** Addresses *)

Record MrAddress := mkMrAddress { mr_host : bytes; project : bytes; mr_number : N }.

(** The check that both parsers make of [group/project]. *)
Definition project_part (p : bytes) : bool :=
  negb (bool_decide (p = [])) && negb (bool_decide (p = bs ".") || bool_decide (p = bs ".."))
  && forallb (λ c, is_ascii_alphanumeric c || bool_decide (c ∈ bs "-_.")) p.
Definition project_name (s : bytes) : bool :=
  (2 <=? length (split_on SLASH s))%nat && forallb project_part (split_on SLASH s).

(** [GROUP%2FPROJECT]. *)
Definition project_slug (project : bytes) : bytes := replace_byte SLASH (bs "%2F") project.

Section address.
Context {url_ : UrlParser}.

Definition mr_suffix (parts : list bytes) : bool :=
  match parts with
  | [] => true
  | [p] => bool_decide (p ∈ [bs "diffs"; bs "commits"; bs "pipelines"])
  | _ => false
  end.

(** Host, project and number as the two forms of an address name them. *)
Definition mr_parts (input : bytes) : result bytes (bytes * bytes * bytes) :=
  if starts_with (bs "https://") input then
    if relative_segments input then Err (bs "URL paths may not contain relative segments")
    else
      u ← ok_or (parse_url input) (bs "Invalid merge request URL");
      if negb (bool_decide (username u = [])) || is_Some_b (password u) || is_Some_b (port u)
         || is_Some_b (query u)
      then Err (bs "HTTPS MR URLs cannot include credentials, ports, or queries")
      else
        '(project, tail) ← ok_or (split_once (bs "/-/merge_requests/") (trim_byte SLASH (url_path u)))
                             (bs "Expected /group/project/-/merge_requests/number");
        if negb (mr_suffix (drop 1 (split_on SLASH tail))) then Err (bs "Invalid MR URL suffix")
        else
          host ← ok_or (host_str u) (bs "Missing GitLab host");
          Ok (host, project, default [] (hd_error (split_on SLASH tail)))
  else
    '(project, n) ← ok_or (rsplit_once (bs "!") input)
      (bs "Enter group/project!123, or provide an HTTPS URL for the GitLab MR");
    Ok (bs "gitlab.com", project, n).

Definition MrAddress_parse (input : bytes) : result bytes MrAddress :=
  '(host, project, number) ← mr_parts (trim input);
  if negb (project_name project) || negb (forallb is_ascii_digit number)
  then Err (bs "GitLab project name or merge request number is invalid")
  else
    number ← ok_or (parse_u64 number) (bs "Invalid MR number");
    if (number =? 0)%N then Err (bs "MR number must be positive")
    else Ok (mkMrAddress host project number).

Record GitlabCompare := mkGitlabCompare {
  gc_host : bytes; gc_project : bytes; gc_refs : CompareRefs; from_project_id : option N
}.

(** The query beside a range in the path: the project and [straight]. *)
Fixpoint path_query (qs : list (bytes * bytes)) (pid : option N) (straight : option bool)
    : result bytes (option N * option bool) :=
  match qs with
  | [] => Ok (pid, straight)
  | (k, v) :: qs =>
      if bool_decide (k = bs "from_project_id")
      then n ← ok_or (parse_u64 v) (bs "from_project_id must be a number");
           path_query qs (Some n) straight
      else if bool_decide (k = bs "straight")
      then path_query qs pid (Some (bool_decide (v = bs "true")))
      else Err (bs "Give the refs in the path or in the query, not both")
  end.

(** The query that names both sides. *)
Record RefsQuery := mkRefsQuery {
  rq_from : option bytes; rq_to : option bytes; rq_direct : bool; rq_pid : option N
}.
Fixpoint refs_query (qs : list (bytes * bytes)) (q : RefsQuery) : result bytes RefsQuery :=
  match qs with
  | [] => Ok q
  | (k, v) :: qs =>
      if bool_decide (k = bs "from")
      then refs_query qs (mkRefsQuery (Some v) (rq_to q) (rq_direct q) (rq_pid q))
      else if bool_decide (k = bs "to")
      then refs_query qs (mkRefsQuery (rq_from q) (Some v) (rq_direct q) (rq_pid q))
      else if bool_decide (k = bs "from_project_id")
      then n ← ok_or (parse_u64 v) (bs "from_project_id must be a number");
           refs_query qs (mkRefsQuery (rq_from q) (rq_to q) (rq_direct q) (Some n))
      else if bool_decide (k = bs "straight")
      then if bool_decide (v = bs "true")
           then refs_query qs (mkRefsQuery (rq_from q) (rq_to q) true (rq_pid q))
           else if bool_decide (v = bs "false")
           then refs_query qs (mkRefsQuery (rq_from q) (rq_to q) false (rq_pid q))
           else Err (bs "straight must be true or false")
      else Err (bs "Only from, to, straight, and from_project_id are accepted")
  end.

(** The two sides, whether the comparison is direct, and the project of the first. *)
Definition compare_sides (tail : option bytes) (qs : list (bytes * bytes))
    : result bytes (bytes * bytes * bool * option N) :=
  match tail with
  | Some range =>
      '(pid, straight) ← path_query qs None None;
      range ← decode_path range;
      '(from, to, direct) ← split_range (bs "A compare needs two refs: from...to, or from..to") range;
      if match straight with Some s => negb (eqb s direct) | None => false end
      then Err (bs "straight disagrees with the dots in the compare path")
      else Ok (from, to, direct, pid)
  | None =>
      q ← refs_query qs (mkRefsQuery None None false None);
      from ← ok_or (rq_from q) (bs "The compare query needs from and to");
      to ← ok_or (rq_to q) (bs "The compare query needs from and to");
      Ok (from, to, rq_direct q, rq_pid q)
  end.

Definition GitlabCompare_parse (input : bytes) : result bytes GitlabCompare :=
  let input := trim input in
  if relative_segments input then Err (bs "URL paths may not contain relative segments")
  else
    u ← ok_or (parse_url input) (bs "Invalid compare URL");
    if negb (bool_decide (scheme u = bs "https")) || negb (bool_decide (username u = []))
       || is_Some_b (password u) || is_Some_b (port u)
    then Err (bs "HTTPS compare URLs cannot include credentials or ports")
    else
      '(project, tail) ← ok_or (split_once (bs "/-/compare") (trim_byte SLASH (url_path u)))
                           (bs "Expected /group/project/-/compare/from...to");
      tail ← (match tail with
              | [] => Ok None
              | t => r ← ok_or (strip_prefix [SLASH] t) (bs "Invalid compare URL suffix"); Ok (Some r)
              end);
      '(from, to, direct, pid) ← compare_sides tail (query_pairs u);
      if negb (project_name project) then Err (bs "GitLab project name is invalid")
      else if negb (ref_name from) || negb (ref_name to)
      then Err (bs "The compare names a ref that Git cannot use")
      else
        host ← ok_or (host_str u) (bs "Missing GitLab host");
        Ok (mkGitlabCompare host project (mkCompareRefs from to direct) pid).

Inductive GitlabTarget := Mr (a : MrAddress) | Refs (a : GitlabCompare).

Definition is_compare_path (p : bytes) : bool :=
  let path := trim_end_byte SLASH p in
  ends_with (bs "/-/compare") path || contains (bs "/-/compare/") path.
Definition GitlabTarget_parse (input : bytes) : result bytes GitlabTarget :=
  let input := trim input in
  let compare := starts_with (bs "https://") input
    && match parse_url input with Some u => is_compare_path (url_path u) | None => false end in
  if compare then Refs <$> GitlabCompare_parse input else Mr <$> MrAddress_parse input.
End address.

Definition mr_root (a : MrAddress) : bytes :=
  bs "projects/" ++ project_slug (project a) ++ bs "/merge_requests/" ++ dec (mr_number a).
Definition mr_of_target (t : RemoteTarget) : MrAddress :=
  mkMrAddress (host (repository t)) (owner (repository t) ++ bs "/" ++ repository_name (repository t))
    (pr t).

(** ** Reading GitLab's JSON *)

Section json.
Context {json_ : JsonValue}.

Definition string_at (v : Value) (key : bytes) : result bytes bytes :=
  ok_or (x ← pointer v key; as_str x) (bs "GitLab response missing " ++ key).
Definition sha (v : Value) (key : bytes) : result bytes bytes :=
  s ← string_at v key;
  if is_oid s then Ok (to_ascii_lowercase s)
  else Err (bs "the object ID GitLab sent is not valid").
Definition true_at (v : Value) (k : string) : bool := is_true (index v (bs k)).

(** One file of a compare as a part of a patch. *)
Definition diff_patch (d : Value) : bytes :=
  match str_at d "old_path", str_at d "new_path" with
  | Some old, Some new =>
      let mode k := default (bs "100644") (str_at d k) in
      let text := default [] (str_at d "diff") in
      let omitted := bool_decide (text = []) && (true_at d "too_large" || true_at d "collapsed") in
      bs "diff --git " ++ quote_path (bs "a/") old ++ bs " " ++ quote_path (bs "b/") new ++ [LF]
      ++ (if true_at d "new_file" then bs "new file mode " ++ mode "b_mode"%string ++ [LF]
          else if true_at d "deleted_file"
          then bs "deleted file mode " ++ mode "a_mode"%string ++ [LF]
          else if negb (bool_decide (mode "a_mode"%string = mode "b_mode"%string))
          then bs "old mode " ++ mode "a_mode"%string ++ [LF]
               ++ bs "new mode " ++ mode "b_mode"%string ++ [LF]
          else [])
      ++ (if true_at d "renamed_file" && negb (bool_decide (old = new))
          then bs "rename from " ++ quote_path [] old ++ [LF]
               ++ bs "rename to " ++ quote_path [] new ++ [LF]
          else [])
      ++ (if omitted then bs "GitLab omitted its text" ++ [LF] else [])
      ++ (if negb (bool_decide (text = [])) || omitted
          then
            let a := if true_at d "new_file" then bs "/dev/null" else quote_path (bs "a/") old in
            let b := if true_at d "deleted_file" then bs "/dev/null" else quote_path (bs "b/") new in
            bs "--- " ++ a ++ [LF] ++ bs "+++ " ++ b ++ [LF]
          else [])
      ++ text
      ++ (if negb (bool_decide (text = [])) && negb (ends_with [LF] text) then [LF] else [])
  | _, _ => []
  end.
Definition patch_from_diffs (ds : list Value) : bytes := concat (diff_patch <$> ds).

Definition mr_sha (s : bytes) : bool := (length s =? 40)%nat && forallb is_ascii_hexdigit s.

Definition mr_target (a : MrAddress) (m user : Value) : result bytes RemoteTarget :=
  '(owner, name) ← ok_or (rsplit_once (bs "/") (project a)) (bs "Invalid project");
  pid ← ok_or (u64_at m "project_id") (bs "Missing project ID");
  account ← string_at user (bs "/username");
  tip ← string_at m (bs "/diff_refs/start_sha");
  base ← string_at m (bs "/diff_refs/base_sha");
  head ← string_at m (bs "/diff_refs/head_sha");
  let state s := is_str (index m (bs "state")) s in
  if negb (mr_sha head) || negb (mr_sha tip) || negb (mr_sha base)
  then Err (bs "GitLab has not produced usable diff references yet")
  else if negb (bool_decide (u64_at m "iid" = Some (mr_number a)))
  then Err (bs "GitLab MR identity mismatch")
  else Ok (mkRemoteTarget ProviderId.GITLAB (mkRepositoryKey (mr_host a) pid owner name) account
             (mr_number a) tip base head (state (bs "opened"))
             (true_at m "draft" || true_at m "work_in_progress") (state (bs "merged"))
             false None None).

Definition conclusion_of (status : bytes) : option bytes :=
  if bool_decide (status = bs "success") then Some (bs "success")
  else if bool_decide (status = bs "failed") then Some (bs "failure")
  else if bool_decide (status = bs "canceled") then Some (bs "cancelled")
  else if bool_decide (status = bs "skipped") then Some (bs "skipped")
  else None.
Definition check_run (v : Value) (kind : bytes) : CheckRun :=
  let status := default (bs "unknown") (str_at v "status") in
  let conclusion := conclusion_of status in
  mkCheckRun (default (bs "Pipeline #" ++ to_vec (index v (bs "id"))) (str_at v "name")) kind
    (if is_Some_b conclusion then bs "completed" else status) conclusion
    (https (str_at v "web_url")).

(** One note of a discussion: a comment on the source, or one of the conversation. *)
Definition note_comment (root n : Value) : option (ThreadComment + ConversationComment) :=
  let pos := index root (bs "position") in
  let kind k := is_str (index pos (bs "position_type")) (bs k) in
  id ← u64_at n "id";
  let text := default [] (str_at n "body") in
  let login := default (bs "unknown") (as_str (index (index n (bs "author")) (bs "username"))) in
  Some (if kind "text"%string || kind "file"%string
        then
          let file_level := kind "file"%string in
          let right := file_level || is_Some_b (u64_at pos "new_line") in
          let key k := if right then bs "new_" ++ bs k else bs "old_" ++ bs k in
          let line_of v := n ← as_u64 v; if (n <=? u32_max)%N then Some n else None in
          inl (mkThreadComment id (default id (u64_at root "id"))
                 (default [] (as_str (index pos (key "path"%string))))
                 (Some (if right then Right else Left))
                 (line_of (index pos (key "line"%string)))
                 (line_of (index (index (index pos (bs "line_range")) (bs "start")) (key "line"%string)))
                 (Some file_level) text login
                 (default [] (str_at pos "head_sha")) (str_at n "created_at"))
        else inr (mkConversationComment id login text (str_at n "created_at"))).
Definition human (n : Value) : bool := negb (true_at n "system").
Definition discussion_notes (d : Value) : list (ThreadComment + ConversationComment) :=
  match as_array (index d (bs "notes")) with
  | None => []
  | Some notes =>
      let notes := filter (λ n, human n = true) notes in
      match notes with
      | [] => []
      | root :: _ => omap (note_comment root) notes
      end
  end.
Definition discussion_comments (ds : list Value) : list ThreadComment * list ConversationComment :=
  let ns := ds ≫= discussion_notes in
  (omap (λ n, match n with inl c => Some c | inr _ => None end) ns,
   omap (λ n, match n with inr c => Some c | inl _ => None end) ns).
End json.

(** ** Requests *)

Section reader.
Context {json_ : JsonValue} (glab : Server).

Definition glab_command (a : MrAddress) (path method : bytes) (body : option Value) : Command :=
  mkCommand
    ([bs "api"; bs "--hostname"; mr_host a; bs "--method"; method; bs "--include"; path]
     ++ (if is_Some_b body
         then [bs "--header"; bs "Content-Type: application/json"; bs "--input"; bs "-"] else []))
    (match body with Some b => to_vec b | None => [] end).

Definition request (a : MrAddress) (path method : bytes) (body : option Value) : io HttpResponse :=
  out ← run_command glab (glab_command a path method body);
  lift (map_err (λ _, incomplete_http (bs "glab") out) (decode_http (stdout out))).

Definition file_slug (path : bytes) : bytes := replace_byte SLASH (bs "%2F") (encode_path path).

Definition source (t : RemoteTarget) (path revision : bytes) : io bytes :=
  let a := mr_of_target t in
  r ← request a
        (bs "projects/" ++ file_slug (project a) ++ bs "/repository/files/" ++ file_slug path
         ++ bs "/raw?ref=" ++ encode_path revision)
        (bs "GET") None;
  lift (if (http_status r =? 200)%N then Ok (http_body r)
        else Err (bs "Source read returned HTTP " ++ dec (http_status r))).

Definition get_ (a : MrAddress) (path : bytes) : io Value :=
  r ← request a path (bs "GET") None;
  lift (if (http_status r =? 200)%N then from_slice (http_body r)
        else Err (bs "GitLab read returned HTTP " ++ dec (http_status r))).

(** [array_of]: [serde_json::from_slice] to a [Vec] of values. *)
Definition array_of (body : bytes) : result bytes (list Value) :=
  v ← from_slice body; ok_or (as_array v) (bs "invalid type: expected a sequence").

Fixpoint pages_loop (pages_left : nat) (page : N) (a : MrAddress) (path : bytes)
    (rows : list Value) (size : N) : io (list Value) :=
  match pages_left with
  | O => lift (Err (bs "GitLab collection is over the 3000-item cap"))
  | S pages_left =>
      r ← request a (page_endpoint path page) (bs "GET") None;
      if negb (http_status r =? 200)%N
      then lift (Err (bs "GitLab list returned HTTP " ++ dec (http_status r)))
      else
        let size := (size + lenN (http_body r))%N in
        if (16 * 1024 * 1024 <? size)%N
        then lift (Err (bs "GitLab collection is over the 16 MiB cap"))
        else
          items ← lift (array_of (http_body r));
          let rows := rows ++ items in
          if (length items <? 100)%nat then mret rows
          else pages_loop pages_left (page + 1) a path rows size
  end.
Definition pages (a : MrAddress) (path : bytes) : io (list Value) := pages_loop 30 1 a path [] 0.

Definition target_read (a : MrAddress) : io RemoteTarget :=
  m ← get_ a (mr_root a);
  user ← get_ a (bs "user");
  lift (mr_target a m user).

End reader.

(** ** Compares, releases and blame *)

Section compare.
Context {sha_ : Sha256} {source_ : SourceJson} {json_ : JsonValue} (glab : Server).

Definition DIFF_FILES : nat := 1000.
Definition bool_text (b : bool) : bytes := if b then bs "true" else bs "false".
Definition compare_path (project from to : bytes) (straight : bool) : bytes :=
  project ++ bs "/repository/compare?from=" ++ from ++ bs "&to=" ++ to ++ bs "&straight="
  ++ bool_text straight.
Definition commit_path (project r : bytes) : bytes :=
  project ++ bs "/repository/commits/" ++ file_slug r.

Definition cut_short (v : Value) (diffs : list Value) : bool :=
  true_at v "compare_timeout" || (DIFF_FILES <=? length diffs)%nat.
Definition left_out (d : Value) : bool := true_at d "too_large" || true_at d "collapsed".
Definition compare_warnings (compare : Value) (diffs : list Value) (p : PatchReport) : list bytes :=
  (if cut_short compare diffs
   then [bs "GitLab timed out computing this compare or reached its file limit, so its file list, release timeline, and release attribution may be incomplete"]
   else [])
  ++ (if negb (length (files p) =? length diffs)%nat
      then [bs "coverage disagreement: file listing " ++ dec (lenN diffs) ++ bs ", patch count "
            ++ dec (lenN (files p))] else [])
  ++ omap (λ d, if left_out d
                then Some (bs "GitLab left out the text of " ++ default [] (str_at d "new_path")
                           ++ bs " because it is too large or collapsed")
                else None) diffs.
Definition commit_line (c : Value) : bytes :=
  bs "- `" ++ default [] (str_at c "short_id") ++ bs "` " ++ default [] (str_at c "title") ++ [LF].

Definition gitlab_compare (now : option N) (a : GitlabCompare) : io Snapshot :=
  let h := mkMrAddress (gc_host a) (gc_project a) 0 in
  let project := bs "projects/" ++ project_slug (gc_project a) in
  let refs := gc_refs a in
  meta ← attempt (get_ glab h project);
  from ← attempt (get_ glab h (commit_path project (base refs)));
  to ← attempt (get_ glab h (commit_path project (compare_head refs)));
  meta ← lift meta;
  from ← lift from;
  to ← lift to;
  from ← lift (sha from (bs "/id"));
  to ← lift (sha to (bs "/id"));
  compare ← attempt (get_ glab h (compare_path project from to (direct refs)));
  base ← attempt (if direct refs then mret from
                  else v ← get_ glab h (project ++ bs "/repository/merge_base?refs[]=" ++ from
                                        ++ bs "&refs[]=" ++ to);
                       lift (sha v (bs "/id")));
  compare ← lift compare;
  base ← lift base;
  let diffs := array_at compare "diffs" in
  p ← parse_body (patch_from_diffs diffs);
  pid ← lift (ok_or (u64_at meta "id") (bs "Missing project ID"));
  if match from_project_id a with Some i => negb (i =? pid)%N | None => false end
  then lift (Err (bs "cross-project compares are not supported"))
  else
    path ← lift (string_at meta (bs "/path_with_namespace"));
    '(owner, name) ← lift (ok_or (rsplit_once (bs "/") path) (bs "Invalid project"));
    let remote := mkRemoteTarget ProviderId.GITLAB (mkRepositoryKey (gc_host a) pid owner name) [] 0
                    from base to true false false false (Some refs) None in
    let label := CompareRefs_label refs in
    let s := with_origin (path ++ bs "  " ++ label) p (Some remote) []
               (bs "gitlab-compare:" ++ gc_host a ++ bs ":" ++ path ++ bs ":" ++ label) in
    let s := add_warnings (compare_warnings compare diffs p) s in
    now ← lift (ok_or now (bs "Clock error"));
    mret (set_overview (set_description (concat (commit_line <$> array_at compare "commits")) now
                          (overview s)) s).

(** The tags of the first pages with the notes of their releases; [true] when there were more. *)
Notation Tags := (list (bytes * bytes) * gmap bytes bytes)%type.
Fixpoint add_tags (rows : list Value) (acc : Tags) : result bytes Tags :=
  match rows with
  | [] => Ok acc
  | t :: rows =>
      match sha t (bs "/commit/id") with
      | Err _ => add_tags rows acc
      | Ok commit =>
          name ← string_at t (bs "/name");
          let notes := match as_str (index (index t (bs "release")) (bs "description")) with
                       | Some b => <[name := b]> acc.2
                       | None => acc.2
                       end in
          add_tags rows (acc.1 ++ [(name, commit)], notes)
      end
  end.
Fixpoint tag_pages (pages_left : nat) (page : N) (h : MrAddress) (project : bytes) (acc : Tags)
    : io (Tags * bool) :=
  match pages_left with
  | O => mret (acc, true)
  | S pages_left =>
      v ← get_ glab h (project ++ bs "/repository/tags?per_page=100&page=" ++ dec page);
      rows ← lift (ok_or (as_array v) (bs "Expected a GitLab tag list"));
      acc ← lift (add_tags rows acc);
      if (length rows <? 100)%nat then mret (acc, false)
      else tag_pages pages_left (page + 1) h project acc
  end.

Definition count_lines (c : byte) (text : bytes) : N :=
  lenN (filter (λ l, hd_error l = Some c) (str_lines text)).
Definition diff_file (d : Value) : ReleaseFile :=
  let text := default [] (str_at d "diff") in
  mkReleaseFile (default [] (str_at d "new_path")) (count_lines Byte.x2b text)
    (count_lines Byte.x2d text)
    (p ← str_at d "old_path"; if true_at d "renamed_file" then Some p else None).
(** Whether the list was cut, the commits, and the files of one step. *)
Definition diff_stats (v : Value) : bool * N * list ReleaseFile :=
  let diffs := array_at v "diffs" in
  (cut_short v diffs, lenN (array_at v "commits"), diff_file <$> diffs).

Definition range_row (v : Value) : result bytes (bytes * option bytes) :=
  id ← sha v (bs "/id");
  Ok (id, match sha v (bs "/parent_ids/0") with Ok p => Some p | Err _ => None end).
Definition commit_parents (v : Value) : list bytes :=
  omap (λ i, match sha v (bs "/parent_ids/" ++ dec (N.of_nat i)) with Ok p => Some p | Err _ => None end)
       (seq 0 (length (array_at v "parent_ids"))).
Definition commit_dates (commits : list Value) : gmap bytes bytes :=
  hash_map (omap (λ v, i ← str_at v "id"; d ← str_at v "created_at"; Some (i, d)) commits).

Definition make_release (host path : bytes) (notes dates : gmap bytes bytes) (step : Step)
    (st : bool * N * list ReleaseFile) (members : list bytes) : Release :=
  let note := tag ← step_tag step; notes !! tag in
  mkRelease (step_tag step) (to step) (dates !! to step) st.1.2 st.2
    (b ← note; if is_blank b then None else Some b)
    ((λ tag, bs "https://" ++ host ++ bs "/" ++ path ++ bs "/-/"
             ++ (if is_Some_b note then bs "releases" else bs "tags") ++ bs "/" ++ encode_path tag)
       <$> step_tag step)
    members.
Definition step_cut (head : bytes) (step : Step) (st : bool * N * list ReleaseFile) : option bytes :=
  if st.1.1 : bool
  then Some (bs "GitLab timed out or reached its file limit comparing " ++ default head (step_tag step)
             ++ bs ", so the file tree may leave some of its files out.")
  else None.

Definition gitlab_releases (t : RemoteTarget) : io (list Release * list bytes) :=
  refs ← lift (ok_or (compare t) (bs "only a compare has releases"));
  let path := owner (repository t) ++ bs "/" ++ repository_name (repository t) in
  let h := mkMrAddress (host (repository t)) path 0 in
  let project := bs "projects/" ++ project_slug path in
  let from := target_tip t in
  let to_ := head t in
  let straight := direct refs in
  compare ← attempt (get_ glab h (compare_path project from to_ straight));
  listed ← attempt (tag_pages TAG_PAGES 1 h project ([], ∅));
  compare ← lift compare;
  '((tags, notes), truncated) ← lift listed;
  let commits := array_at compare "commits" in
  range ← lift (mapM range_row commits);
  let '(ss, folded) := steps range from to_ tags (dom notes) in
  let graph := zip range.*1 (commit_parents <$> commits) in
  let shas := members graph ss in
  let every := bounded_io (λ step, diff_stats <$>
                 get_ glab h (compare_path project (Releases.from step) (to step) straight)) ss in
  stats ← match ss with
          | [only] =>
              if bool_decide (Releases.from only = from) && bool_decide (to only = to_)
              then let st := diff_stats compare in mret [(false, st.1.2, st.2)]
              else every
          | _ => every
          end;
  let rows := zip (zip ss stats) shas in
  mret ((λ '(step, st, ms), make_release (mr_host h) path notes (commit_dates commits) step st ms)
          <$> rows,
        (if truncated : bool
         then [bs "Only the first " ++ dec (N.of_nat TAG_PAGES * 100)
               ++ bs " tags were checked for releases in this range."] else [])
        ++ option_list (folded_warning folded)
        ++ omap (λ '(step, st, _), step_cut (compare_head refs) step st) rows).

(** Blame: GitLab groups consecutive lines by commit. Additions on lines wrap as in a release
    build. *)
Notation Span := (bytes * N * N)%type.
Notation Blame := (list (N * N * bytes)).
Definition u32_wrap (n : N) : N := n mod (u32_max + 1).
Fixpoint blame_groups (line : N) (gs : list Value) : option Blame :=
  match gs with
  | [] => Some []
  | g :: gs =>
      ls ← as_array (index g (bs "lines"));
      if (u32_max <? lenN ls)%N then None
      else
        let n := lenN ls in
        if (n =? 0)%N then None
        else
          c ← match sha g (bs "/commit/id") with Ok c => Some c | Err _ => None end;
          rest ← blame_groups (u32_wrap (line + n)) gs;
          Some ((line, u32_wrap (line + (n - 1)), c) :: rest)
  end.
Definition mr_blame_span (t : RemoteTarget) (s : Span) : io (option Blame) :=
  let '(path, first, last) := s in
  let a := mr_of_target t in
  v ← attempt (get_ glab a
        (bs "projects/" ++ file_slug (project a) ++ bs "/repository/files/" ++ file_slug path
         ++ bs "/blame?ref=" ++ head t ++ bs "&range[start]=" ++ dec first ++ bs "&range[end]="
         ++ dec last));
  mret (match v with
        | Ok v => gs ← as_array v; blame_groups first gs
        | Err _ => None
        end).
Definition gitlab_blame (t : RemoteTarget) (spans : list Span) : io (list (option Blame)) :=
  bounded_io (mr_blame_span t) spans.

End compare.

(** ** Snapshots *)

Section snapshot.
Context {sha_ : Sha256} {source_ : SourceJson} {json_ : JsonValue} (glab : Server).

(** Every file of the patch is listed, none of them cut, and the other way round. *)
Definition listed_path (paths : gset bytes) (f : Value) : bytes :=
  let new := default [] (str_at f "new_path") in
  if bool_decide (new ∈ paths) then new else default [] (str_at f "old_path").
Definition incomplete (paths : list bytes) (fs : list Value) : bool :=
  let all : gset bytes := list_to_set paths in
  let listed : gset bytes := list_to_set (listed_path all <$> fs) in
  negb (length fs =? length paths)%nat || negb (size listed =? size all)%nat
  || negb (bool_decide (listed ⊆ all)) || existsb left_out fs.

Definition approved_by (v : result bytes Value) : bool :=
  default false (v ← match v with Ok v => Some v | Err _ => None end;
                 users ← as_array (index v (bs "approved_by"));
                 Some (negb (bool_decide (length users = 0)))).
Definition changes_requested (v : result bytes Value) : bool :=
  default false (v ← match v with Ok v => Some v | Err _ => None end;
                 users ← as_array v;
                 Some (existsb (λ r, is_str (index r (bs "state")) (bs "requested_changes")) users)).

(** A comment on another revision keeps no line. *)
Definition outdated (head : bytes) (c : ThreadComment) : ThreadComment :=
  if bool_decide (commit_id c = head) then c
  else mkThreadComment (comment_id c) (root_id c) (comment_path c) (comment_side c) None None
         (file_level c) (body c) (author c) (commit_id c) (created_at c).

(** The jobs of the newest ten pipelines, as long as there are fewer than 500 checks. *)
Fixpoint add_pipelines (t : RemoteTarget) (a : MrAddress) (ps : list Value)
    (acc : list CheckRun * list bytes) : io (list CheckRun * list bytes) :=
  match ps with
  | [] => mret acc
  | p :: ps =>
      if (500 <=? length acc.1)%nat then mret acc
      else
        let acc := (acc.1 ++ [check_run p (bs "Pipeline")], acc.2) in
        match u64_at p "id" with
        | None => add_pipelines t a ps acc
        | Some i =>
            jobs ← attempt (pages glab a (bs "projects/" ++ dec (repository_id (repository t))
                                          ++ bs "/pipelines/" ++ dec i ++ bs "/jobs"));
            add_pipelines t a ps
              (match jobs with
               | Ok js => (acc.1 ++ ((λ j, check_run j (bs "Job")) <$> js), acc.2)
               | Err e => (acc.1, acc.2 ++ [e])
               end)
        end
  end.

Definition read_checks (t : RemoteTarget) (a : MrAddress) : io (list CheckRun * list bytes) :=
  found ← attempt (pages glab a (mr_root a ++ bs "/pipelines"));
  match found with
  | Err e => mret ([], [e])
  | Ok found =>
      let mine := filter (λ p, str_at p "sha" = Some (head t)) found in
      add_pipelines t a (take 10 mine)
        ([], if (10 <? length mine)%nat
             then [bs "Only the newest 10 pipelines for this revision are shown."] else [])
  end.

Definition gitlab_snapshot (now : option N) (a : MrAddress) : io Snapshot :=
  m ← get_ glab a (mr_root a);
  user ← get_ glab a (bs "user");
  t ← lift (mr_target a m user);
  raw ← request glab a (mr_root a ++ bs "/raw_diffs") (bs "GET") None;
  if negb (http_status raw =? 200)%N
  then lift (Err (bs "GitLab diff returned HTTP " ++ dec (http_status raw)))
  else
    p ← parse_body (http_body raw);
    fs ← pages glab a (mr_root a ++ bs "/diffs");
    paths ← or_panic (mapM display_path (files p));
    if incomplete paths fs
    then lift (Err (bs "GitLab did not provide every diff file; review was refused"))
    else
      discussions ← pages glab a (mr_root a ++ bs "/discussions");
      approvals ← attempt (get_ glab a (mr_root a ++ bs "/approvals"));
      reviewers ← attempt (get_ glab a (mr_root a ++ bs "/reviewers"));
      now ← lift (ok_or now (bs "Clock error"));
      let '(comments, talk) := discussion_comments discussions in
      '(checks, notices) ← read_checks t a;
      again ← target_read glab a;
      if negb (bool_decide (again = t))
      then lift (Err (bs "The merge request or account changed during loading; open it again"))
      else
        let o := mkOverview (str_at m "description")
                   (as_str (index (index m (bs "author")) (bs "username")))
                   (if changes_requested reviewers then Some ReviewDecision.ChangesRequested
                    else if approved_by approvals then Some ReviewDecision.Approved else None)
                   checks notices (Some now) talk [] [] in
        mret (set_overview o
                (with_origin
                   (default (bs "Merge request") (str_at m "title")
                    ++ [Byte.x20; Byte.xc2; Byte.xb7; Byte.x20] ++ project a ++ bs " !"
                    ++ dec (mr_number a))
                   p (Some t) (outdated (head t) <$> comments)
                   (bs "gitlab:" ++ mr_host a ++ bs ":" ++ project a ++ bs "!" ++ dec (mr_number a)))).

End snapshot.

(** The provider's way in; [glab] may not be installed. *)
Definition gitlab_open {sha_ : Sha256} {source_ : SourceJson} {json_ : JsonValue}
    {url_ : UrlParser} (p : option Server) (now : option N) (address : bytes) : io Snapshot :=
  t ← lift (GitlabTarget_parse address);
  let reader := lift (ok_or p (bs "Install glab, then authenticate for this GitLab host")) in
  match t with
  | Mr a => glab ← reader; gitlab_snapshot glab now a
  | Refs a => glab ← reader; gitlab_compare glab now a
  end.
Definition gitlab_accepts {url_ : UrlParser} (address : bytes) : bool :=
  is_ok (GitlabTarget_parse address).

(** ** Reviews *)

(** [Sha1::digest]. *)
Class Sha1 := sha1 : bytes → bytes.

Record GitlabRangeLine := mkGitlabRangeLine {
  line_code : bytes; range_side : bytes; range_old : option N; range_new : option N
}.
Record GitlabLineRange := mkGitlabLineRange { range_start : GitlabRangeLine; range_end : GitlabRangeLine }.
Record GitlabPosition := mkGitlabPosition {
  position_type : bytes; base_sha : bytes; start_sha : bytes; head_sha : bytes;
  pos_old_path : bytes; pos_new_path : bytes; pos_old_line : option N; pos_new_line : option N;
  line_range : option GitlabLineRange
}.
Definition GitlabRangeLine_new (path_hash : bytes) (side : Side) (row : PatchRow) : GitlabRangeLine :=
  mkGitlabRangeLine
    (path_hash ++ bs "_" ++ dec (default 0%N (old_line row)) ++ bs "_" ++ dec (default 0%N (new_line row)))
    (match side with Right => bs "new" | Left => bs "old" end) (old_line row) (new_line row).

(** [to_raw_value] of a position and of the payload: what [derive(Serialize)] makes. *)
Class PositionJson := position_json : GitlabPosition → result bytes bytes.
Class MrPayloadJson := mr_payload_json : bytes → Verdict → bytes → list PreparedComment → bytes.

Definition quick_action (text : bytes) : bool :=
  existsb (λ l, starts_with (bs "/") (trim_start l)) (str_lines text).
Definition quick_check (_ : Verdict) (summary : bytes) (drafts : list Draft) : result bytes unit :=
  if quick_action summary || existsb (λ d, quick_action (draft_body d)) drafts
  then Err (bs "GitLab quick actions are disallowed here; format inline slash-prefixed text before posting")
  else Ok tt.

Definition hex_text (s : bytes) : bytes := concat (hex2 false <$> s).

(** [f.path()] panics on a file without paths; [prepare] has called it before. *)
Definition position_of `{Sha1} (t : RemoteTarget) (f : FileChange) (d : Draft)
    : result bytes GitlabPosition :=
  p ← ok_or (path f) (bs "validated file path");
  old ← RepoPath.utf8 (default p (old_path f));
  new ← RepoPath.utf8 (default p (new_path f));
  let position := mkGitlabPosition (bs "file") (comparison_base t) (target_tip t) (head t) old new
                    None None None in
  if is_file_level d then Ok position
  else
    row ← ok_or (line f (draft_side d) (draft_line d))
            (bs "the draft holds no source line to post to GitLab");
    range ← (if (draft_start_line d =? draft_line d)%N then Ok None
             else
               start ← ok_or (line f (draft_side d) (draft_start_line d))
                         (bs "the draft starts outside the GitLab diff");
               let path_hash := hex_text (sha1 new) in
               Ok (Some (mkGitlabLineRange (GitlabRangeLine_new path_hash (draft_side d) start)
                           (GitlabRangeLine_new path_hash (draft_side d) row))));
    Ok (mkGitlabPosition (bs "text") (comparison_base t) (target_tip t) (head t) old new
          (old_line row) (new_line row) range).

Definition GitlabRules `{Sha1} `{PositionJson} `{MrPayloadJson} : ReviewRules :=
  mkReviewRules ProviderId.GITLAB None quick_check
    (λ t f d, p ← position_of t f d; j ← position_json p; Ok (Some j))
    (λ p, mr_payload_json (head (target p)) (verdict p) (summary p) (prepared_comments p))
    true.

Definition reopen_address (t : RemoteTarget) : bytes :=
  let r := repository t in
  let repo := bs "https://" ++ host r ++ bs "/" ++ owner r ++ bs "/" ++ repository_name r in
  match compare t with
  | Some c => repo ++ bs "/-/compare/" ++ encode_path (base c)
              ++ (if direct c then bs ".." else bs "...") ++ encode_path (compare_head c)
  | None => repo ++ bs "/-/merge_requests/" ++ dec (pr t)
  end.
Definition line_url (t : RemoteTarget) (path revision : bytes) (line : N) : bytes :=
  let r := repository t in
  bs "https://" ++ host r ++ bs "/" ++ Export.encode (owner r) ++ bs "/"
  ++ Export.encode (repository_name r) ++ bs "/-/blob/" ++ Export.encode revision ++ bs "/"
  ++ Export.encode path ++ bs "#L" ++ dec line.

(** ** The writer *)

(** A mark ends each note that belongs to a review. *)
Definition MARK : bytes := [LF; LF] ++ bs "<!-- diffz:".
Definition MARK_END : bytes := bs " -->".
Definition marker (p : PreparedReview) : bytes :=
  MARK ++ fingerprint p ++ bs ":" ++ head (target p) ++ bs ":" ++ Verdict.remote_state (verdict p)
  ++ MARK_END.

(** [str::trim_end_matches] of a text. *)
Fixpoint trim_end_matches (fuel : nat) (p s : bytes) : bytes :=
  match fuel, strip_suffix p s with
  | S f, Some r => trim_end_matches f p r
  | _, _ => s
  end.
(** What a comment of the review is sent as. *)
Definition comment_body (p : PreparedReview) (c : PreparedComment) : bytes :=
  let tag := marker p in
  pc_body c ++ trim_end_matches (length tag) MARK_END tag ++ bs ":" ++ Side_api (pc_side c) ++ MARK_END.

Section writer.
Context {sha_ : Sha256} {review_ : ReviewJson} {sha1_ : Sha1} {position_ : PositionJson}
  {payload_ : MrPayloadJson} {json_ : JsonValue} (glab : Server).

Definition marked_note (n : Value) : option Value :=
  body ← str_at n "body";
  '(body, mark) ← rsplit_once MARK body;
  mark ← strip_suffix MARK_END mark;
  match split_on Byte.x3a mark with
  | fingerprint :: commit :: state :: rest =>
      if (1 <? length rest)%nat then None
      else Some (json_object
        [(bs "id", index n (bs "id")); (bs "body", json_str body); (bs "commit_id", json_str commit);
         (bs "state", json_str state); (bs "fingerprint", json_str fingerprint);
         (bs "side", match rest with s :: _ => json_str s | [] => json_null end);
         (bs "user", json_object [(bs "login", index (index n (bs "author")) (bs "username"))])])
  | _ => None
  end.

(** File-level notes as earlier versions wrote them. *)
Definition file_level_note (n : Value) (fingerprint : bytes) : option Value :=
  marked ← marked_note n;
  if negb (is_str (index marked (bs "fingerprint")) fingerprint) then None
  else
    body ← str_at marked "body";
    body ← strip_prefix (bs "**") body;
    '(path, rest) ← split_once (bs "**" ++ [LF; LF]) body;
    if bool_decide (path = []) || bool_decide (rest = []) then None
    else Some (json_object [(bs "body", json_str rest); (bs "path", json_str path);
                            (bs "line", json_num 0); (bs "side", json_str (bs "RIGHT"))]).

Definition current (t : RemoteTarget) : io RemoteTarget := target_read glab (mr_of_target t).

Definition plain_note (n : Value) : bool :=
  human n && negb (is_str (index n (bs "type")) (bs "DiffNote")).
Definition mr_reviews (t : RemoteTarget) : io (list Value) :=
  let a := mr_of_target t in
  notes ← pages glab a (mr_root a ++ bs "/notes");
  mret (omap marked_note (filter (λ n, plain_note n = true) notes)).

(** A note of a discussion as a comment of the review with this fingerprint. *)
Definition note_key (t : RemoteTarget) (fingerprint : bytes) (n : Value)
    : result bytes (option Value) :=
  let pos := index n (bs "position") in
  let kind k := is_str (index pos (bs "position_type")) (bs k) in
  if negb (kind "text"%string) && negb (kind "file"%string) then Ok None
  else match marked_note n with
  | None => Ok None
  | Some marked =>
      if negb (is_str (index marked (bs "fingerprint")) fingerprint) then Ok None
      else if negb (is_str (index pos (bs "head_sha")) (head t))
              || negb (is_str (index pos (bs "base_sha")) (comparison_base t))
              || negb (is_str (index pos (bs "start_sha")) (target_tip t))
              || negb (is_str (index (index n (bs "author")) (bs "username")) (account t))
      then Err (bs "Discussion identity mismatch")
      else if kind "file"%string
      then Ok (Some (json_object
             [(bs "body", index marked (bs "body")); (bs "path", index pos (bs "new_path"));
              (bs "line", json_num 0); (bs "start_line", json_num 0);
              (bs "side", json_str (bs "RIGHT"))]))
      else
        let right := match str_at marked "side" with
                     | Some s => bool_decide (s = bs "RIGHT")
                     | None => is_Some_b (u64_at pos "new_line")
                     end in
        let key k := if right then bs "new_" ++ bs k else bs "old_" ++ bs k in
        let line := index pos (key "line"%string) in
        let start := match as_u64 (index (index (index pos (bs "line_range")) (bs "start"))
                                         (key "line"%string)) with
                     | Some n => json_num n
                     | None => line
                     end in
        Ok (Some (json_object
             [(bs "body", index marked (bs "body")); (bs "path", index pos (key "path"%string));
              (bs "line", line); (bs "start_line", start);
              (bs "side", json_str (if right then bs "RIGHT" else bs "LEFT"))]))
  end.

(** What the state of a found review needs to be true on the server. *)
Definition state_holds (t : RemoteTarget) (a : MrAddress) (review : Value) : io unit :=
  let mine u := is_str (index (index u (bs "user")) (bs "username")) (account t) in
  if is_str (index review (bs "state")) (bs "APPROVED")
  then
    approved ← get_ glab a (mr_root a ++ bs "/approvals");
    lift (if existsb mine (array_at approved "approved_by") then Ok tt
          else Err (bs "Approval could not be verified"))
  else if is_str (index review (bs "state")) (bs "CHANGES_REQUESTED")
  then
    reviewers ← get_ glab a (mr_root a ++ bs "/reviewers");
    lift (if existsb (λ u, mine u && is_str (index u (bs "state")) (bs "requested_changes"))
               (default [] (as_array reviewers)) then Ok tt
          else Err (bs "GitLab change request could not be verified"))
  else mret tt.

Definition mr_comments (t : RemoteTarget) (i : N) : io (list Value) :=
  let a := mr_of_target t in
  note ← get_ glab a (mr_root a ++ bs "/notes/" ++ dec i);
  review ← lift (ok_or (marked_note note) (bs "Review marker unavailable"));
  fingerprint ← lift (ok_or (str_at review "fingerprint") (bs "Missing fingerprint"));
  _ ← state_holds t a review;
  ds ← pages glab a (mr_root a ++ bs "/discussions");
  found ← lift (mapM (note_key t fingerprint) (ds ≫= λ d, array_at d "notes"));
  notes ← pages glab a (mr_root a ++ bs "/notes");
  mret (omap (λ o, o) found
        ++ omap (λ n, file_level_note n fingerprint) (filter (λ n, plain_note n = true) notes)).

(** The writes keep whether anything has been sent. *)
Definition sending (A : Type) : Type := bool → list Command → result Stop A * bool * list Command.
#[local] Instance sending_ret : MRet sending := λ A a sent tr, (Ok a, sent, tr).
#[local] Instance sending_bind : MBind sending := λ A B f m sent tr,
  match m sent tr with
  | (Ok a, sent, tr) => f a sent tr
  | (Err e, sent, tr) => (Err e, sent, tr)
  end.
Definition quiet {A} (m : io A) : sending A := λ sent tr, let '(r, tr) := m tr in (r, sent, tr).
Definition mark_sent : sending unit := λ _ tr, (Ok tt, true, tr).

Definition unchanged (t : RemoteTarget) (e : bytes) : sending unit :=
  now ← quiet (current t);
  if negb (bool_decide (now = t)) then quiet (lift (Err e)) else mret tt.
Definition post (a : MrAddress) (path : bytes) (v : Value) : sending HttpResponse :=
  _ ← mark_sent;
  quiet (request glab a path (bs "POST") (Some v)).

Definition change_query : bytes :=
  bs "mutation($projectPath: ID!, $iid: String!) { mergeRequestRequestChanges(input: { projectPath: $projectPath, iid: $iid }) { errors mergeRequest { iid } } }".
Definition change_request (a : MrAddress) : Value :=
  json_object [(bs "query", json_str change_query);
               (bs "variables", json_object [(bs "projectPath", json_str (project a));
                                             (bs "iid", json_str (dec (mr_number a)))])].
Definition errors_in (v : Value) : bool :=
  negb (bool_decide (length (array_at v "errors") = 0)).
Definition change_confirmed (a : MrAddress) (body : Value) : bool :=
  let result := index (index body (bs "data")) (bs "mergeRequestRequestChanges") in
  negb (errors_in body) && negb (errors_in result)
  && bool_decide ((i ← as_str (index (index result (bs "mergeRequest")) (bs "iid")); parse_u64 i)
                  = Some (mr_number a)).
Definition send_change_request (p : PreparedReview) (a : MrAddress) : sending unit :=
  if negb (bool_decide (verdict p = Verdict.RequestChanges)) then mret tt
  else
    _ ← unchanged (target p) (bs "MR changed before requesting changes");
    r ← post a (bs "graphql") (change_request a);
    quiet (lift (if negb (http_status r =? 200)%N
                 then Err (bs "GitLab change request returned HTTP " ++ dec (http_status r))
                 else
                   body ← from_slice (http_body r);
                   if change_confirmed a body then Ok tt
                   else Err (bs "GitLab did not confirm the change request"))).

(** [json!] of a frozen position parses it and panics on text that is not JSON. *)
Definition comment_payload (p : PreparedReview) (c : PreparedComment) (position : bytes)
    : option Value :=
  match from_slice position with
  | Ok v => Some (json_object [(bs "body", json_str (comment_body p c)); (bs "position", v)])
  | Err _ => None
  end.
Definition send_comment (p : PreparedReview) (a : MrAddress) (c : PreparedComment) : sending unit :=
  _ ← unchanged (target p) (bs "MR changed during publication");
  pos ← quiet (lift (ok_or (pc_position c) (bs "Frozen GitLab position is absent")));
  v ← quiet (or_panic (comment_payload p c pos));
  r ← post a (mr_root a ++ bs "/discussions") v;
  quiet (lift (if (http_status r =? 201)%N then Ok tt
               else Err (bs "GitLab rejected the comment with HTTP " ++ dec (http_status r)))).
Fixpoint send_comments (p : PreparedReview) (a : MrAddress) (cs : list PreparedComment)
    : sending unit :=
  match cs with
  | [] => mret tt
  | c :: cs => _ ← send_comment p a c; send_comments p a cs
  end.

Definition send_approval (p : PreparedReview) (a : MrAddress) : sending unit :=
  if negb (bool_decide (verdict p = Verdict.Approve)) then mret tt
  else
    _ ← unchanged (target p) (bs "MR changed before approval");
    r ← post a (mr_root a ++ bs "/approve") (json_object [(bs "sha", json_str (head (target p)))]);
    quiet (lift (if (http_status r =? 201)%N || (http_status r =? 200)%N then Ok tt
                 else Err (bs "GitLab approval did not confirm"))).

Definition send_summary (p : PreparedReview) (a : MrAddress) : sending Value :=
  _ ← unchanged (target p) (bs "MR changed before review summary");
  r ← post a (mr_root a ++ bs "/notes") (json_object [(bs "body", json_str (summary p ++ marker p))]);
  quiet (lift (if negb (http_status r =? 201)%N
               then Err (bs "GitLab summary write produced HTTP " ++ dec (http_status r))
               else
                 n ← from_slice (http_body r);
                 ok_or (marked_note n) (bs "Unverifiable GitLab summary"))).

Definition send_all (p : PreparedReview) (a : MrAddress) : sending Value :=
  _ ← send_change_request p a;
  _ ← send_comments p a (prepared_comments p);
  _ ← send_approval p a;
  send_summary p a.

Definition gitlab_send (p : PreparedReview) : io SendOutcome := λ tr,
  if negb (verify p GitlabRules) then (Ok (Outbox.Rejected 422), tr)
  else match send_all p (mr_of_target (target p)) false tr with
  | (Ok v, _, tr) => (Ok (Accepted v), tr)
  | (Err (Failed e), true, tr) =>
      (Ok (Unknown (e ++ bs ". Comments may exist remotely; inspect and reconcile before any resend.")), tr)
  | (Err (Failed _), false, tr) => (Ok (Outbox.Rejected 422), tr)
  | (Err Panics, _, tr) => (Err Panics, tr)
  end.

End writer.
