(* ===== verification/GitlabFacts.v ===== *)
(** * GitLab: a comment that was sent is read back as the comment that was prepared *)

From S2P Require Import Prelude RustStr Utf8 Domain Patch PatchFacts BTree Overview Snapshot F32.
From S2P Require Import Session Review ReviewFacts Store Json Outbox Process ProcessFacts Remote.
From S2P Require Import Releases Export Github Gitlab.

(** ** The mark at the end of a note *)

Lemma rsplit_once_None c m s : rsplit_once (c :: m) s = None ↔ ¬ occurs (c :: m) s.
Proof.
  induction s as [|d s IH].
  - cbn. split; [|done]. intros _ ([|? ?] & y & H); done.
  - cbn [rsplit_once]. destruct (rsplit_once (c :: m) s) as [[a b]|] eqn:E.
    + split; [done|]. intros H. exfalso. apply H.
      destruct (contains (c :: m) s) eqn:Ec.
      * apply contains_iff in Ec as (x & y & ->). by exists (d :: x), y.
      * apply not_true_iff_false in Ec. rewrite contains_iff in Ec. by apply IH in Ec.
    + destruct (strip_prefix (c :: m) (d :: s)) as [r|] eqn:Es; cbn [mbind option_bind].
      * split; [done|]. intros H. exfalso. apply H. apply strip_prefix_Some in Es. rewrite Es.
        by exists [], r.
      * split; [|done]. intros _ ([|x xs] & y & H).
        -- cbn [app] in H. rewrite H in Es. change (c :: m ++ y) with ((c :: m) ++ y) in Es.
           by rewrite strip_prefix_app in Es.
        -- cbn [app] in H. injection H as -> ->. destruct IH as [IH _]. by apply IH; [|exists xs, y].
Qed.

Lemma rsplit_once_app c m a b :
  ¬ occurs (c :: m) (m ++ b) → rsplit_once (c :: m) (a ++ (c :: m) ++ b) = Some (a, b).
Proof.
  intros H. induction a as [|d a IH].
  - cbn [app rsplit_once]. apply rsplit_once_None in H. rewrite H.
    change (c :: m ++ b) with ((c :: m) ++ b). by rewrite strip_prefix_app.
  - cbn [app] in *. cbn [rsplit_once]. by rewrite IH.
Qed.

Lemma occurs_mark_tail b : LF ∉ b → ¬ occurs MARK (drop 1 MARK ++ b).
Proof.
  intros Hb (x & y & H). set (m := drop 2 MARK) in *.
  assert (LF ∉ m ++ b) as Hno.
  { rewrite not_elem_of_app. split; [apply (bool_decide_unpack _); vm_compute; exact I|done]. }
  assert (MARK = LF :: LF :: m) as Hm by done. rewrite Hm in H. clearbody m. clear Hm.
  cbn [drop app] in H. destruct x as [|c [|d x]]; cbn [app] in H.
  - injection H as H. apply Hno. rewrite H. by left.
  - injection H as _ H. apply Hno. rewrite H. by left.
  - injection H as _ H. apply Hno. rewrite H. right. set_solver.
Qed.

Definition COLON : byte := Byte.x3a.
(** A field of a mark. *)
Definition field_ok (s : bytes) : Prop := LF ∉ s ∧ COLON ∉ s.

Lemma split_on_alone c s : c ∉ s → split_on c s = [s].
Proof.
  induction s as [|d s IH]; [done|]. intros [Hd Hs]%not_elem_of_cons. cbn [split_on].
  rewrite bool_decide_false, IH by done. done.
Qed.

Lemma hex_field s : Forall (λ b, is_ascii_hexdigit b = true) s → field_ok s.
Proof.
  intros H. rewrite Forall_forall in H. by split; intros Hin%H.
Qed.

Lemma digest_hex `{Sha256} parts : Forall (λ b, is_ascii_hexdigit b = true) (digest parts).
Proof.
  unfold digest, hex. apply Forall_concat, Forall_fmap, Forall_true. intros b.
  assert (∀ b, forallb is_ascii_hexdigit (hex2 false b) = true) as Hall by (by intros []).
  apply Forall_forall. intros c Hc. specialize (Hall b). rewrite forallb_forall in Hall.
  by apply Hall, list_elem_of_In.
Qed.

Lemma split_on_join c ws :
  ws ≠ [] → Forall (λ w, c ∉ w) ws → split_on c (join [c] ws) = ws.
Proof.
  intros Hne H. induction H as [|w ws Hw H IH]; [done|]. destruct ws as [|v ws].
  - by apply split_on_alone.
  - change (join [c] (w :: v :: ws)) with (w ++ c :: join [c] (v :: ws)).
    rewrite split_on_sep by done. by rewrite IH.
Qed.

Lemma join_not_in (b : byte) c ws : b ≠ c → Forall (λ w, b ∉ w) ws → b ∉ join [c] ws.
Proof.
  intros Hb H. induction H as [|w ws Hw H IH]; [apply not_elem_of_nil|]. destruct ws as [|v ws].
  - done.
  - change (join [c] (w :: v :: ws)) with (w ++ [c] ++ join [c] (v :: ws)).
    rewrite !not_elem_of_app. split; [done|]. split; [|done].
    intros Hin%list_elem_of_singleton. done.
Qed.

Section notes.
Context {json_ : JsonValue} (json_laws_ : JsonLaws json_).

(** A mark with three or four fields, put after a text. *)
Definition marked (body : bytes) (fields : list bytes) : bytes :=
  body ++ MARK ++ join [COLON] fields ++ MARK_END.
Definition note_value (n : Value) (body : bytes) (f c s : bytes) (side : Value) : Value :=
  json_object
    [(bs "id", index n (bs "id")); (bs "body", json_str body); (bs "commit_id", json_str c);
     (bs "state", json_str s); (bs "fingerprint", json_str f); (bs "side", side);
     (bs "user", json_object [(bs "login", index (index n (bs "author")) (bs "username"))])].

Lemma marked_note_marked n body f c s rest :
  Forall field_ok (f :: c :: s :: rest) → length rest ≤ 1 →
  str_at n "body" = Some (marked body (f :: c :: s :: rest)) →
  marked_note n
  = Some (note_value n body f c s (match rest with x :: _ => json_str x | [] => json_null end)).
Proof.
  intros Hf Hl Hb. unfold marked_note. rewrite Hb. cbn [mbind option_bind]. unfold marked.
  set (fields := join [COLON] (f :: c :: s :: rest)).
  assert (LF ∉ fields ++ MARK_END) as Hlf.
  { rewrite not_elem_of_app. split; [|apply (bool_decide_unpack _); vm_compute; exact I].
    apply join_not_in; [done|]. eapply Forall_impl; [exact Hf|]. by intros w [? _]. }
  pose proof (rsplit_once_app LF (drop 1 MARK) body (fields ++ MARK_END)
                (occurs_mark_tail _ Hlf)) as E.
  change (LF :: drop 1 MARK) with MARK in E. rewrite E.
  cbn [mbind option_bind]. rewrite (proj2 (strip_suffix_Some MARK_END _ fields)) by done.
  cbn [mbind option_bind]. unfold fields. change Byte.x3a with COLON.
  rewrite split_on_join by (done || (eapply Forall_impl; [exact Hf|]; by intros w [_ ?])).
  rewrite (proj2 (Nat.ltb_ge _ _)) by lia. done.
Qed.

(** What a field of an object reads as. *)
Lemma object_index fs k v :
  bool_decide (NoDup fs.*1) = true → get k fs = Some v → index (json_object fs) k = v.
Proof. intros Hd%bool_decide_eq_true Hg. rewrite index_object by done. by rewrite Hg. Qed.

Lemma note_value_fields n b f c st side :
  let v := note_value n b f c st side in
  index v (bs "body") = json_str b ∧ index v (bs "commit_id") = json_str c ∧
  index v (bs "state") = json_str st ∧ index v (bs "fingerprint") = json_str f ∧
  index v (bs "side") = side ∧
  index (index v (bs "user")) (bs "login") = index (index n (bs "author")) (bs "username").
Proof.
  unfold note_value. cbv zeta. split_and!; try by apply object_index.
  erewrite (object_index _ (bs "user")) by (done || by vm_compute). by apply object_index.
Qed.

(** ** Comments *)

(** What a JSON value says of a position, and a note of one. *)
Record position_value (v : Value) (pos : GitlabPosition) : Prop := {
  pv_type : as_str (index v (bs "position_type")) = Some (position_type pos);
  pv_base : as_str (index v (bs "base_sha")) = Some (base_sha pos);
  pv_start : as_str (index v (bs "start_sha")) = Some (start_sha pos);
  pv_head : as_str (index v (bs "head_sha")) = Some (head_sha pos);
  pv_old_path : as_str (index v (bs "old_path")) = Some (pos_old_path pos);
  pv_new_path : as_str (index v (bs "new_path")) = Some (pos_new_path pos);
  pv_old_line : as_u64 (index v (bs "old_line")) = pos_old_line pos;
  pv_new_line : as_u64 (index v (bs "new_line")) = pos_new_line pos;
  pv_range_old : as_u64 (index (index (index v (bs "line_range")) (bs "start")) (bs "old_line"))
                 = (r ← line_range pos; range_old (range_start r));
  pv_range_new : as_u64 (index (index (index v (bs "line_range")) (bs "start")) (bs "new_line"))
                 = (r ← line_range pos; range_new (range_start r))
}.
Record note_of (t : RemoteTarget) (n : Value) (text : bytes) (pos : GitlabPosition) : Prop := {
  no_body : str_at n "body" = Some text;
  no_position : position_value (index n (bs "position")) pos;
  no_author : as_str (index (index n (bs "author")) (bs "username")) = Some (account t)
}.

Lemma state_field v : field_ok (Verdict.remote_state v) ∧ ∃ r, Verdict.remote_state v = r ++ [Byte.x44].
Proof.
  split.
  - destruct v; split; apply (bool_decide_unpack _); vm_compute; exact I.
  - destruct v; [exists (bs "APPROVE")|exists (bs "CHANGES_REQUESTE")|exists (bs "COMMENTE")]; done.
Qed.

Lemma marker_trim x v n :
  trim_end_matches (S n) MARK_END (x ++ Verdict.remote_state v ++ MARK_END)
  = x ++ Verdict.remote_state v.
Proof.
  cbn [trim_end_matches]. rewrite (proj2 (strip_suffix_Some MARK_END _ (x ++ Verdict.remote_state v)))
    by by rewrite app_assoc.
  destruct n as [|n]; cbn [trim_end_matches]; [done|].
  destruct (strip_suffix MARK_END (x ++ Verdict.remote_state v)) as [r|] eqn:E; [|done].
  apply strip_suffix_Some in E. destruct (state_field v) as [_ [w Hw]]. rewrite Hw in E.
  change MARK_END with (bs " --" ++ [Byte.x3e]) in E. rewrite !app_assoc in E.
  by apply app_inj_tail in E as [_ E].
Qed.

Lemma comment_body_marked p c :
  comment_body p c
  = marked (pc_body c) [fingerprint p; head (target p); Verdict.remote_state (verdict p);
                        Side_api (pc_side c)].
Proof.
  unfold comment_body, marker, marked.
  set (m := MARK). set (st := Verdict.remote_state (verdict p)).
  assert (∃ n, length (m ++ fingerprint p ++ bs ":" ++ head (target p) ++ bs ":" ++ st ++ MARK_END)
               = S n) as [n ->] by by eexists.
  pose proof (marker_trim (m ++ fingerprint p ++ bs ":" ++ head (target p) ++ bs ":")
                (verdict p) n) as E.
  fold st in E. rewrite <- !app_assoc in E. rewrite E. cbn [join]. by rewrite <- !app_assoc.
Qed.
Lemma marker_marked p :
  summary p ++ marker p
  = marked (summary p) [fingerprint p; head (target p); Verdict.remote_state (verdict p)].
Proof. unfold marker, marked. cbn [join]. by rewrite <- !app_assoc. Qed.

Lemma side_field sd : field_ok (Side_api sd).
Proof. destruct sd; split; apply (bool_decide_unpack _); vm_compute; exact I. Qed.

(** The path a comment on a side is shown under. *)
Definition side_path (f : FileChange) (sd : Side) (p : RepoPath) : RepoPath :=
  match sd with Left => default p (old_path f) | Right => default p (new_path f) end.
Definition pos_path (pos : GitlabPosition) (sd : Side) : bytes :=
  match sd with Left => pos_old_path pos | Right => pos_new_path pos end.
Definition pos_line (pos : GitlabPosition) (sd : Side) : option N :=
  match sd with Left => pos_old_line pos | Right => pos_new_line pos end.
Definition range_line (r : GitlabRangeLine) (sd : Side) : option N :=
  match sd with Left => range_old r | Right => range_new r end.

Lemma position_of_Ok `{Sha1} t f d pos :
  position_of t f d = Ok pos →
  base_sha pos = comparison_base t ∧ start_sha pos = target_tip t ∧ head_sha pos = head t ∧
  (∃ p, path f = Some p ∧ ∀ sd, RepoPath.utf8 (side_path f sd p) = Ok (pos_path pos sd)) ∧
  if is_file_level d then position_type pos = bs "file"
  else position_type pos = bs "text" ∧ pos_line pos (draft_side d) = Some (draft_line d) ∧
       (draft_start_line d = draft_line d ∧ line_range pos = None ∨
        ∃ r, line_range pos = Some r ∧
             range_line (range_start r) (draft_side d) = Some (draft_start_line d)).
Proof.
  unfold position_of. intros Hp. inv_bind Hp as p Hpath. apply ok_or_Ok in Hpath.
  inv_bind Hp as old Hold. inv_bind Hp as new Hnew. destruct (is_file_level d).
  - injection Hp as <-. cbn. split_and!; try done. exists p. split; [done|]. by intros [].
  - inv_bind Hp as row Hrow. apply ok_or_Ok in Hrow. inv_bind Hp as range Hrange.
    injection Hp as <-. cbn. split_and!; try done.
    + exists p. split; [done|]. by intros [].
    + apply line_Some in Hrow as [_ Hrow]. by destruct (draft_side d).
    + destruct (draft_start_line d =? draft_line d)%N eqn:E.
      * left. injection Hrange as <-. by apply N.eqb_eq in E.
      * right. inv_bind Hrange as start Hstart. apply ok_or_Ok in Hstart.
        injection Hrange as <-. eexists. split; [done|]. cbn.
        apply line_Some in Hstart as [_ Hstart]. by destruct (draft_side d).
Qed.

Lemma marked_of_comment p c n pos :
  field_ok (fingerprint p) → field_ok (head (target p)) →
  note_of (target p) n (comment_body p c) pos →
  marked_note n = Some (note_value n (pc_body c) (fingerprint p) (head (target p))
                          (Verdict.remote_state (verdict p)) (json_str (Side_api (pc_side c)))).
Proof.
  intros Hf Hh [Hb _ _]. rewrite comment_body_marked in Hb.
  refine (marked_note_marked n _ _ _ _ [_] _ (le_n 1) Hb).
  destruct (state_field (verdict p)) as [Hs _]. pose proof (side_field (pc_side c)).
  rewrite !Forall_cons. by rewrite Forall_nil.
Qed.

(** A comment object's key, when it has these fields and no [start_side]. *)
Lemma object_key body path line start side q b n m sd :
  as_str body = Some b → as_str path = Some q → as_u64 line = Some n → as_u64 start = Some m →
  as_str side = Some sd →
  comment_key (json_object [(bs "body", body); (bs "path", path); (bs "line", line);
                            (bs "start_line", start); (bs "side", side)])
  = Some (q, b, sd, m, n).
Proof.
  intros Hb Hq Hn Hm Hs. unfold comment_key.
  set (o := json_object _).
  assert (∀ k v, get k [(bs "body", body); (bs "path", path); (bs "line", line);
                        (bs "start_line", start); (bs "side", side)] = Some v →
                 index o k = v) as Hi by (intros k v Hk; by apply object_index).
  rewrite (Hi (bs "line") line), (Hi (bs "start_line") start), (Hi (bs "side") side),
    (Hi (bs "path") path), (Hi (bs "body") body) by done.
  assert (as_str (index o (bs "start_side")) = None) as ->.
  { unfold o. rewrite index_object by (by apply (bool_decide_unpack _); vm_compute).
    apply as_str_null. }
  rewrite Hn, Hm, Hs. cbn. rewrite bool_decide_true by done. cbn. by rewrite Hq, Hb.
Qed.

Lemma right_of sd :
  bool_decide (Side_api sd = bs "RIGHT") = match sd with Right => true | Left => false end.
Proof. by destruct sd. Qed.

(** The shape that the program gives a draft on a whole file. *)
Definition whole_file (d : Draft) : Prop :=
  is_file_level d = true → draft_side d = Right ∧ draft_start_line d = 0%N ∧ draft_line d = 0%N.

(** What is sent to GitLab for a comment is what is found again. When the server lists a
    note with the text that was sent, the position that was sent and the account's name, it is
    recognized as a comment of this review, and its key is the prepared comment's body, side,
    first and last line, under the path that the position has on the comment's side. *)
Lemma gitlab_comment_reads_back `{Sha1, PositionJson, MrPayloadJson} s p ids d c n pos f path_ :
  prepare_comment GitlabRules s (target p) ids d = Ok c →
  file s (draft_file d) = Some f → path f = Some path_ →
  position_of (target p) f d = Ok pos → whole_file d →
  field_ok (fingerprint p) → field_ok (head (target p)) →
  note_of (target p) n (comment_body p c) pos →
  ∃ k q, note_key (target p) (fingerprint p) n = Ok (Some k) ∧
    comment_key k = Some (q, pc_body c, Side_api (pc_side c), pc_start_line c, pc_line c) ∧
    RepoPath.utf8 (side_path f (draft_side d) path_) = Ok q.
Proof.
  intros Hc Hf Hpath Hpos Hwhole Hfp Hhd Hn.
  pose proof (marked_of_comment p c n pos Hfp Hhd Hn) as Hm. destruct Hn as [_ Hv Ha].
  apply prepare_comment_Ok in Hc as [_ [_ _ _ _ (f' & p' & pos' & Hf' & _ & _ & _ & _ & ->)]].
  cbn [pc_body pc_side pc_start_line pc_line] in *.
  apply position_of_Ok in Hpos as (Hb & Hs & Hh & (p2 & Hp2 & Hu) & Hk).
  assert (p2 = path_) as -> by congruence.
  destruct Hv. rewrite Hb, Hs, Hh in *. unfold note_key. rewrite Hm.
  destruct (note_value_fields n (draft_body d) (fingerprint p) (head (target p))
              (Verdict.remote_state (verdict p)) (json_str (Side_api (draft_side d))))
    as (Eb & _ & _ & Ef & Es & _).
  rewrite Ef, Eb.
  unfold is_str, str_at. rewrite pv_head0, pv_base0, pv_start0, Ha, as_str_str.
  rewrite pv_type0, Es.
  rewrite as_str_str. specialize (Hu (draft_side d)).
  destruct (is_file_level d) eqn:Efl.
  - rewrite Hk in *. destruct (Hwhole Efl) as (Hsd & -> & ->). rewrite Hsd in *.
    eexists _, _. split; [|split; [|exact Hu]].
    + rewrite (bool_decide_false (Some (bs "file") = Some (bs "text"))) by done.
      rewrite !(bool_decide_true (Some _ = Some _)) by done. done.
    + apply object_key; try done; [apply as_str_str|apply as_u64_num|apply as_u64_num|apply as_str_str].
  - destruct Hk as (-> & Hline & Hrange).
    eexists _, _. split; [|split; [|exact Hu]].
    + rewrite (bool_decide_false (Some (bs "text") = Some (bs "file"))) by done.
      rewrite !(bool_decide_true (Some _ = Some _)) by done. done.
    + rewrite right_of. destruct (draft_side d); cbn [Side_api pos_path pos_line range_line] in *.
      * apply (object_key _ _ _ _ _ _ _ _ _ _ (as_str_str _) pv_old_path0);
          [exact (eq_trans pv_old_line0 Hline)| |apply as_str_str].
        change (bs "old_" ++ bs "line") with (bs "old_line"). rewrite pv_range_old0.
        destruct Hrange as [[-> ->]|(r & -> & Hst)]; cbn [mbind option_bind].
        -- exact (eq_trans pv_old_line0 Hline).
        -- rewrite Hst. apply as_u64_num.
      * apply (object_key _ _ _ _ _ _ _ _ _ _ (as_str_str _) pv_new_path0);
          [exact (eq_trans pv_new_line0 Hline)| |apply as_str_str].
        change (bs "new_" ++ bs "line") with (bs "new_line"). rewrite pv_range_new0.
        destruct Hrange as [[-> ->]|(r & -> & Hst)]; cbn [mbind option_bind].
        -- exact (eq_trans pv_new_line0 Hline).
        -- rewrite Hst. apply as_u64_num.
Qed.

(** The notes that the server lists for the comments of a review, in order. *)
Definition noted `{Sha1} (s : Snapshot) (p : PreparedReview) (dc : Draft * PreparedComment)
    (n : Value) : Prop :=
  ∃ f pos, file s (draft_file dc.1) = Some f ∧ position_of (target p) f dc.1 = Ok pos ∧
           note_of (target p) n (comment_body p dc.2) pos.
(** The path on the comment's side is the file's path. *)
Definition unmoved (s : Snapshot) (d : Draft) : Prop :=
  ∀ f q, file s (draft_file d) = Some f → path f = Some q → side_path f (draft_side d) q = q.

Lemma comments_read_back `{Sha1, PositionJson, MrPayloadJson} s p ids ds cs ns :
  prepare_comments GitlabRules s (target p) ids ds = Ok cs →
  Forall (λ d, whole_file d ∧ unmoved s d) ds →
  field_ok (fingerprint p) → field_ok (head (target p)) →
  Forall2 (noted s p) (zip ds cs) ns →
  ∃ ks, mapM (note_key (target p) (fingerprint p)) ns = Ok (Some <$> ks) ∧
        mapM comment_key ks = Some (expected_key <$> cs).
Proof.
  intros Hc Hd Hfp Hhd. revert ids cs ns Hc.
  induction Hd as [|d ds [Hw Hu] Hd IH]; intros ids cs ns Hc Hn; cbn [prepare_comments] in Hc.
  - injection Hc as <-. inversion Hn. by exists [].
  - inv_bind Hc as c Hc1. inv_bind Hc as cs' Hc2. injection Hc as <-. cbn [zip zip_with] in Hn.
    inversion Hn as [|? n ? ns' (f & pos & Hf & Hpos & Hno) Hn']; subst. cbn [fst snd] in *.
    destruct (IH _ _ _ Hc2 Hn') as (ks & Hks & Hkeys).
    destruct (position_of_Ok _ _ _ _ Hpos) as (_ & _ & _ & (q & Hq & _) & _).
    destruct (gitlab_comment_reads_back s p ids d c n pos f q Hc1 Hf Hq Hpos Hw Hfp Hhd Hno)
      as (k & x & Hk & Hkey & Hx).
    exists (k :: ks). cbn [mapM list_fmap fmap]. rewrite Hk, Hks. split; [done|].
    cbn. rewrite Hkey, Hkeys. cbn. rewrite (Hu f q Hf Hq) in Hx.
    apply prepare_comment_Ok in Hc1 as [_ [_ _ _ _ (f' & q' & pos' & Hf' & _ & Hq' & _ & _ & ->)]].
    assert (q' = q) as -> by congruence. apply utf8_path_Ok in Hx as [_ ->]. done.
Qed.

Lemma summary_read_back p n :
  field_ok (fingerprint p) → field_ok (head (target p)) →
  str_at n "body" = Some (summary p ++ marker p) →
  as_str (index (index n (bs "author")) (bs "username")) = Some (account (target p)) →
  ∃ r, marked_note n = Some r ∧ matches_metadata p r true = true.
Proof.
  intros Hf Hh Hb Ha. rewrite marker_marked in Hb. eexists. split.
  - refine (marked_note_marked n _ _ _ _ [] _ (le_S _ _ (le_n 0)) Hb).
    destruct (state_field (verdict p)) as [Hs _]. rewrite !Forall_cons. by rewrite Forall_nil.
  - destruct (note_value_fields n (summary p) (fingerprint p) (head (target p))
                (Verdict.remote_state (verdict p)) json_null) as (Eb & Ec & Es & Ef & _ & El).
    unfold matches_metadata. rewrite Ef, Ec, Es, Eb, El, Ha, !as_str_str. cbn [default].
    by rewrite !bool_decide_true by done.
Qed.

Lemma prepared_fields `{Sha256, SourceJson, ReviewJson} rules i s ds v sum p :
  prepare rules i s ds v sum = Ok p →
  summary p = sum ∧ field_ok (fingerprint p) ∧
  prepare_comments rules s (target p) ∅ ds = Ok (prepared_comments p).
Proof.
  intros (t & cs & Hr & Hcs & ->)%prepare_spec. split; [done|]. split.
  - apply hex_field, digest_hex.
  - apply prepare_comments_Ok. split_and!; [by destruct (rv_drafts _ _ _ _ _ _ Hr)| |done].
    intros d _. apply not_elem_of_empty.
Qed.

(** A review that was sent to GitLab is found again. When the server lists a summary note
    and, in order, notes of the comments with the texts and positions that were sent, by the
    account that sent them, then the notes are read as comments of this review and the review
    matches the operation, the condition for confirming it after its outcome was unknown. The
    files of drafts on a left side must not be renamed. *)
Theorem gitlab_review_found_again `{Sha256, SourceJson, ReviewJson, Sha1, PositionJson, MrPayloadJson}
    i s ds v sum p n0 ns :
  prepare GitlabRules i s ds v sum = Ok p →
  field_ok (head (target p)) → Forall (λ d, whole_file d ∧ unmoved s d) ds →
  str_at n0 "body" = Some (sum ++ marker p) →
  as_str (index (index n0 (bs "author")) (bs "username")) = Some (account (target p)) →
  Forall2 (noted s p) (zip ds (prepared_comments p)) ns →
  ∃ r ks, marked_note n0 = Some r ∧
    mapM (note_key (target p) (fingerprint p)) ns = Ok (Some <$> ks) ∧
    matches_review p r ks (marks_reviews GitlabRules) = true.
Proof.
  intros Hp Hh Hd Hb Ha Hn. destruct (prepared_fields _ _ _ _ _ _ _ Hp) as (<- & Hf & Hc).
  destruct (summary_read_back p n0 Hf Hh Hb Ha) as (r & Hr & Hm).
  destruct (comments_read_back s p ∅ ds _ ns Hc Hd Hf Hh Hn) as (ks & Hks & Hkeys).
  exists r, ks. split; [done|]. split; [done|]. unfold matches_review.
  change (marks_reviews GitlabRules) with true. rewrite Hm, Hkeys. cbn [negb orb].
  assert (length ks = length (prepared_comments p)) as ->.
  { apply length_mapM in Hkeys. by rewrite length_fmap in Hkeys. }
  rewrite Nat.eqb_refl. cbn [negb]. by apply bool_decide_eq_true.
Qed.

(** A comment on the left side of a renamed file is never found again: the note that the
    server lists for it is read under the file's old path, while the operation holds the new
    one. A review of that comment alone never matches its own notes. *)
Theorem gitlab_renamed_left_never_matches `{Sha256, SourceJson, ReviewJson, Sha1, PositionJson, MrPayloadJson}
    i s d v sum p n r f old new :
  prepare GitlabRules i s [d] v sum = Ok p →
  field_ok (head (target p)) → draft_side d = Left → is_file_level d = false →
  file s (draft_file d) = Some f → old_path f = Some old → new_path f = Some new → old ≠ new →
  Forall2 (noted s p) (zip [d] (prepared_comments p)) [n] →
  ∃ k, note_key (target p) (fingerprint p) n = Ok (Some k) ∧
       matches_review p r [k] (marks_reviews GitlabRules) = false.
Proof.
  intros Hp Hh Hd Hfl Hf Hold Hnew Hne Hn.
  destruct (prepared_fields _ _ _ _ _ _ _ Hp) as (_ & Hfp & Hc). cbn [prepare_comments] in Hc.
  inv_bind Hc as c Hc1. inv_bind Hc as cs' Hc2. injection Hc2 as <-. injection Hc as Hcs.
  rewrite <- Hcs in Hn. inversion Hn as [|? ? ? ? (f' & pos & Hf' & Hpos & Hno) _]; subst.
  cbn [fst snd] in *. assert (f' = f) as -> by congruence.
  assert (path f = Some new) as Hpath by (unfold path; by rewrite Hnew).
  assert (whole_file d) as Hw by (intros Hx; congruence).
  destruct (gitlab_comment_reads_back s p _ d c n pos f new Hc1 Hf Hpath Hpos Hw Hfp Hh Hno)
    as (k & q & Hk & Hkey & Hq).
  exists k. split; [done|]. unfold matches_review. destruct (negb _ || _); [done|].
  rewrite <- Hcs. cbn [mapM]. rewrite Hkey. cbn [mbind option_bind mret option_ret].
  apply bool_decide_eq_false. cbn. intros [= He].
  rewrite Hd in Hq. cbn [side_path] in Hq. rewrite Hold in Hq. cbn [default] in Hq.
  apply utf8_path_Ok in Hq as [_ ->].
  apply prepare_comment_Ok in Hc1 as [_ [_ _ _ _ (f' & p' & pos' & Hf2 & _ & Hp' & _ & _ & ->)]].
  assert (p' = new) as -> by congruence. cbn in He. apply Hne. destruct old, new. cbn in He. congruence.
Qed.

End notes.

(** ** A small review *)

Section sample.
#[local] Instance short_sha : Sha256 := λ s, take 8 s.
#[local] Instance short_source : SourceJson := {| source_json _ o _ _ := o; entire_json _ := [] |}.
#[local] Instance short_review : ReviewJson := λ _ _ _ _ _, [].
#[local] Instance short_sha1 : Sha1 := λ s, take 8 s.
#[local] Instance short_position : PositionJson := λ _, Ok (bs "null").
#[local] Instance short_payload : MrPayloadJson := λ _ _ _ _, [].

Definition mr_head : bytes := replicate 40 Byte.x61.
Definition mr_sample_target : RemoteTarget :=
  mkRemoteTarget ProviderId.GITLAB (mkRepositoryKey (bs "gitlab.com") 7 (bs "group") (bs "tool"))
    (bs "me") 3 mr_head mr_head mr_head true false false false None None.
Definition mr_patch : bytes :=
  join [LF] [bs "diff --git a/old.c b/new.c"; bs "similarity index 60%"; bs "rename from old.c";
             bs "rename to new.c"; bs "--- a/old.c"; bs "+++ b/new.c"; bs "@@ -1,3 +1,3 @@";
             bs " a"; bs "-b"; bs "+c"; bs " d"; []].
Definition mr_report : PatchReport :=
  match parse_patch mr_patch default_limits with Some (Ok r) => r | _ => mkPatchReport [] end.
Definition mr_snapshot : Snapshot := with_origin (bs "t") mr_report (Some mr_sample_target) [] (bs "o").
Definition mr_draft (sd : Side) : Draft :=
  mkDraft (bs "d") (id mr_snapshot)
    (default [] (file_id <$> hd_error (files mr_report))) sd 1 2 false (bs "why?") 1 1 false.
Definition mr_review (sd : Side) : PreparedReview :=
  match prepare GitlabRules (bs "op") mr_snapshot [mr_draft sd] Verdict.Comment (bs "sum") with
  | Ok p => p
  | Err _ => mkPreparedReview [] [] mr_sample_target Verdict.Comment [] [] []
  end.
Definition mr_file : option FileChange := file mr_snapshot (draft_file (mr_draft Right)).
Definition mr_position (sd : Side) : GitlabPosition :=
  match f ← mr_file; Some (position_of mr_sample_target f (mr_draft sd)) with
  | Some (Ok p) => p
  | _ => mkGitlabPosition [] [] [] [] [] [] None None None
  end.
Definition opt_num (o : option N) : json := match o with Some n => JNum n | None => JNull end.
Definition position_json_value (p : GitlabPosition) : json := JObj
  [(bs "position_type", JStr (position_type p)); (bs "base_sha", JStr (base_sha p));
   (bs "start_sha", JStr (start_sha p)); (bs "head_sha", JStr (head_sha p));
   (bs "old_path", JStr (pos_old_path p)); (bs "new_path", JStr (pos_new_path p));
   (bs "old_line", opt_num (pos_old_line p)); (bs "new_line", opt_num (pos_new_line p));
   (bs "line_range", match line_range p with
                     | Some r => JObj [(bs "start", JObj
                         [(bs "old_line", opt_num (range_old (range_start r)));
                          (bs "new_line", opt_num (range_new (range_start r)))])]
                     | None => JNull
                     end)].
Definition mr_note (text : bytes) (pos : json) : json := JObj
  [(bs "id", JNum 1); (bs "body", JStr text); (bs "position", pos);
   (bs "author", JObj [(bs "username", JStr (bs "me"))])].
Definition mr_comment (sd : Side) : PreparedComment :=
  default (mkPreparedComment [] 0 [] None [] sd 0 0 false) (hd_error (prepared_comments (mr_review sd))).
Definition mr_comment_note (sd : Side) : json :=
  mr_note (comment_body (mr_review sd) (mr_comment sd)) (position_json_value (mr_position sd)).

Lemma mr_prepared sd :
  prepare GitlabRules (bs "op") mr_snapshot [mr_draft sd] Verdict.Comment (bs "sum")
  = Ok (mr_review sd).
Proof. destruct sd; vm_compute; reflexivity. Qed.
Lemma mr_comments_one sd : prepared_comments (mr_review sd) = [mr_comment sd].
Proof. destruct sd; vm_compute; reflexivity. Qed.
Lemma opt_num_u64 o : @as_u64 sample_json (opt_num o) = o.
Proof. by destruct o. Qed.
Lemma position_value_json pos : position_value (json_ := sample_json) (position_json_value pos) pos.
Proof.
  split; try reflexivity; try apply opt_num_u64; unfold position_json_value;
    (destruct (line_range pos) as [r|]; [apply opt_num_u64|reflexivity]).
Qed.
Lemma mr_noted sd :
  Forall2 (noted (json_ := sample_json) mr_snapshot (mr_review sd))
    (zip [mr_draft sd] (prepared_comments (mr_review sd))) [mr_comment_note sd].
Proof.
  rewrite mr_comments_one. constructor; [|constructor].
  assert (∃ f, file mr_snapshot (draft_file (mr_draft sd)) = Some f ∧
               position_of mr_sample_target f (mr_draft sd) = Ok (mr_position sd)) as (f & Hf & Hp).
  { destruct sd; vm_compute; eexists; split; reflexivity. }
  assert (target (mr_review sd) = mr_sample_target) as Ht by (destruct sd; vm_compute; reflexivity).
  exists f, (mr_position sd). rewrite Ht. split; [done|]. split; [done|].
  split; [reflexivity|apply position_value_json|reflexivity].
Qed.

Lemma gitlab_review_found_again_witness :
  ∃ r ks, marked_note (json_ := sample_json)
            (mr_note (bs "sum" ++ marker (mr_review Right)) JNull) = Some r ∧
    mapM (note_key (target (mr_review Right)) (fingerprint (mr_review Right))) [mr_comment_note Right]
      = Ok (Some <$> ks) ∧
    matches_review (mr_review Right) r ks (marks_reviews GitlabRules) = true.
Proof.
  apply (gitlab_review_found_again sample_json_laws (bs "op") mr_snapshot [mr_draft Right]
           Verdict.Comment (bs "sum") (mr_review Right)).
  - apply mr_prepared.
  - split; apply (bool_decide_unpack _); vm_compute; exact I.
  - apply Forall_singleton. split; [by intros ?|]. intros f q. vm_compute. by intros [= <-] [= <-].
  - reflexivity.
  - vm_compute; reflexivity.
  - apply mr_noted.
Defined.

Lemma gitlab_renamed_left_never_matches_witness :
  ∃ k, note_key (target (mr_review Left)) (fingerprint (mr_review Left)) (mr_comment_note Left)
       = Ok (Some k) ∧
    matches_review (mr_review Left) JNull [k] (marks_reviews GitlabRules) = false.
Proof.
  destruct mr_file as [f|] eqn:Ef; [|by vm_compute in Ef].
  assert (old_path f = Some (RepoPath.mkRepoPath (bs "old.c")) ∧
          new_path f = Some (RepoPath.mkRepoPath (bs "new.c"))) as [Ho Hn].
  { vm_compute in Ef. by injection Ef as <-. }
  apply (gitlab_renamed_left_never_matches sample_json_laws (bs "op") mr_snapshot (mr_draft Left)
           Verdict.Comment (bs "sum") (mr_review Left) _ _ f
           (RepoPath.mkRepoPath (bs "old.c")) (RepoPath.mkRepoPath (bs "new.c")));
    [apply mr_prepared| |done|done|transitivity mr_file; [vm_compute; reflexivity|exact Ef]|exact Ho|exact Hn|done|apply mr_noted].
  split; apply (bool_decide_unpack _); vm_compute; exact I.
Defined.
End sample.
