(* ===== verification/GitlabRuns.v ===== *)
(** * GitLab: which requests a review makes, and in which order *)

From S2P Require Import Prelude RustStr Utf8 Domain Patch BTree Overview Snapshot F32 Session.
From S2P Require Import Review Store Json Outbox Process Remote Releases Export.
From S2P Require Import Github GithubRuns Gitlab.

(** A command that writes: a [POST]. *)
Definition is_write (c : Command) : bool := bool_decide (command_args c !! 4 = Some (bs "POST")).
Definition writes (cs : list Command) : list Command := filter (λ c, is_write c = true) cs.

Lemma writes_app cs ds : writes (cs ++ ds) = writes cs ++ writes ds.
Proof. apply filter_app. Qed.

Section runs.
Context {json_ : JsonValue} (glab : Server).

(** The two reads that say what the merge request is. *)
Definition target_reads (a : MrAddress) : list Command :=
  [glab_command a (mr_root a) (bs "GET") None; glab_command a (bs "user") (bs "GET") None].

Lemma mr_request_Ok a path method body tr r tr' :
  request glab a path method body tr = (Ok r, tr') →
  tr' = tr ++ [glab_command a path method body] ∧
  ∃ out, glab tr (glab_command a path method body) = Ok out ∧ decode_http (stdout out) = Ok r.
Proof.
  unfold request. intros H. io_step H out tr1 Ho.
  apply run_command_Ok in Ho as [Ho ->]. apply lift_Ok in H as [H ->].
  split; [done|]. exists out. split; [done|].
  by destruct (decode_http (stdout out)); [injection H as ->|].
Qed.
Lemma request_trace a path method body tr :
  (request glab a path method body tr).2 = tr ++ [glab_command a path method body].
Proof.
  unfold request, mbind, io_bind, run_command.
  destruct (glab tr _) as [out|e]; cbn; [|done]. by destruct (decode_http (stdout out)).
Qed.
Lemma get_Ok a path tr v tr' :
  get_ glab a path tr = (Ok v, tr') → tr' = tr ++ [glab_command a path (bs "GET") None].
Proof.
  unfold get_. intros H. io_step H r tr1 Hr. apply mr_request_Ok in Hr as [-> _].
  by apply lift_Ok in H as [_ ->].
Qed.
Lemma get_read (P : Command → Prop) a path :
  P (glab_command a path (bs "GET") None) → emits P (get_ glab a path).
Proof.
  intros HP. unfold get_, request. apply emits_bind; [|intros; apply emits_lift].
  apply emits_bind; [by apply emits_run|intros; apply emits_lift].
Qed.

Lemma target_read_Ok a tr t tr' :
  target_read glab a tr = (Ok t, tr') → tr' = tr ++ target_reads a.
Proof.
  unfold target_read. intros H. io_step H m tr1 Hm. io_step H u tr2 Hu.
  apply get_Ok in Hm, Hu. apply lift_Ok in H as [_ ->]. subst. by rewrite <- app_assoc.
Qed.
Lemma target_read_quiet a : emits (λ c, is_write c = false) (target_read glab a).
Proof.
  unfold target_read. apply emits_bind; [by apply get_read|]. intros m.
  apply emits_bind; [by apply get_read|]. intros u. apply emits_lift.
Qed.

(** Every write of [cs], run after [tr], comes right after reads that say that the merge
    request is still [t]. *)
Definition checked (t : RemoteTarget) (tr cs : list Command) : Prop :=
  ∀ pre w post, cs = pre ++ w :: post → is_write w = true →
    ∃ pre0, pre = pre0 ++ target_reads (mr_of_target t) ∧
            target_read glab (mr_of_target t) (tr ++ pre0) = (Ok t, tr ++ pre).

Lemma checked_quiet t tr cs : Forall (λ c, is_write c = false) cs → checked t tr cs.
Proof.
  intros H pre w post -> Hw. apply Forall_app in H as [_ H]. inversion H; subst. congruence.
Qed.
Lemma writes_quiet cs : Forall (λ c, is_write c = false) cs → writes cs = [].
Proof.
  intros H. induction H as [|c cs Hc H IH]; [done|]. unfold writes in *.
  by rewrite filter_cons_False by congruence.
Qed.
Lemma checked_app t tr cs ds :
  checked t tr cs → checked t (tr ++ cs) ds → checked t tr (cs ++ ds).
Proof.
  intros H1 H2 pre w post He Hw. apply app_eq_inv in He as [(k & -> & Hk)|(k & -> & Hk)].
  - destruct k as [|c k]; cbn [app] in Hk.
    + destruct (H2 [] w post) as (pre0 & Hp & Ht); [done|done|].
      by destruct pre0.
    + injection Hk as <- ->. by apply (H1 pre w k).
  - destruct (H2 k w post) as (pre0 & -> & Ht); [done|done|].
    exists (cs ++ pre0). rewrite !app_assoc in *. by rewrite <- !app_assoc in *.
Qed.
End runs.

(** ** What a part of the writer sends *)

(** A write, and the answers that confirm it. *)
Notation Write := (Command * (HttpResponse → Prop))%type.

Section sending.
Context {sha_ : Sha256} {review_ : ReviewJson} {sha1_ : Sha1} {position_ : PositionJson}
  {payload_ : MrPayloadJson} {json_ : JsonValue} (glab : Server).
Variable t : RemoteTarget.

(** What the server answered to a command that was run after [tr], and to the writes of [cs]. *)
Definition write_reply (tr : list Command) (c : Command) : option HttpResponse :=
  match glab tr c with
  | Ok out => match decode_http (stdout out) with Ok r => Some r | Err _ => None end
  | Err _ => None
  end.
Fixpoint replies (tr cs : list Command) : list (option HttpResponse) :=
  match cs with
  | [] => []
  | c :: cs => (if is_write c then [write_reply tr c] else []) ++ replies (tr ++ [c]) cs
  end.
Lemma replies_app tr cs ds : replies tr (cs ++ ds) = replies tr cs ++ replies (tr ++ cs) ds.
Proof.
  revert tr. induction cs as [|c cs IH]; intros tr; cbn [replies app]; [by rewrite app_nil_r|].
  by rewrite IH, <- !app_assoc.
Qed.
Lemma length_replies tr cs : length (replies tr cs) = length (writes cs).
Proof.
  revert tr. induction cs as [|c cs IH]; intros tr; [done|]. cbn [replies]. rewrite length_app, IH.
  unfold writes. rewrite filter_cons. case_decide as H; [by rewrite H|].
  by destruct (is_write c).
Qed.

Definition confirmed (w : Write) (a : option HttpResponse) : Prop :=
  match a with Some r => w.2 r | None => False end.
(** Every write is confirmed by its answer, unless [all] is wrong and it is the last. *)
Definition confirmed_all (all : Prop) (ws : list Write) (answers : list (option HttpResponse)) : Prop :=
  ∀ i w a, ws !! i = Some w → answers !! i = Some a → all ∨ S i < length ws → confirmed w a.

(** [m] sends the first of the writes [ws], all of them when it succeeds, each checked and each
    but the last one confirmed, that one too when it succeeds; and it remembers whether it sent any. *)
Definition sends (ws : list Write) {A} (m : sending A) : Prop :=
  ∀ sent tr, ∃ cs ds rest,
    (m sent tr).2 = tr ++ cs ∧ ws = ds ++ rest ∧ writes cs = ds.*1 ∧ checked glab t tr cs ∧
    (m sent tr).1.2 = sent || negb (bool_decide (writes cs = [])) ∧
    (is_ok (m sent tr).1.1 = true → rest = []) ∧
    confirmed_all (is_ok (m sent tr).1.1 = true) ds (replies tr cs).

Lemma confirmed_none all answers : confirmed_all all [] answers.
Proof. by intros i w a Hi. Qed.
Lemma confirmed_app all ds ds' tr cs cs' :
  writes cs = ds.*1 → confirmed_all True ds (replies tr cs) →
  confirmed_all all ds' (replies (tr ++ cs) cs') → confirmed_all all (ds ++ ds') (replies tr (cs ++ cs')).
Proof.
  intros Hw H1 H2 i w a Hi Ha Hall. rewrite replies_app in Ha.
  assert (length (replies tr cs) = length ds) as Hl by (by rewrite length_replies, Hw, length_fmap).
  apply lookup_app_Some in Hi as [Hi|[Hge Hi]].
  - rewrite lookup_app_l in Ha by (rewrite Hl; by eapply lookup_lt_Some). apply (H1 i); [done|done|by left].
  - rewrite lookup_app_r in Ha by lia. rewrite Hl in Ha. apply (H2 (i - length ds)); [done|done|].
    rewrite length_app in Hall. destruct Hall; [by left|right; lia].
Qed.
Lemma confirmed_all_mono (P Q : Prop) ds answers :
  (Q → P) → confirmed_all P ds answers → confirmed_all Q ds answers.
Proof. intros HPQ H i w a Hi Ha [Hq|Hlt]; eapply H; eauto. Qed.

Lemma sends_ret {A} (a : A) : sends [] (λ sent tr, (Ok a, sent, tr)).
Proof.
  intros sent tr. exists [], [], []. rewrite app_nil_r, orb_false_r. split_and!; try done.
  by apply checked_quiet.
Qed.
Lemma sends_quiet ws {A} (m : io A) :
  emits (λ c, is_write c = false) m → (∀ tr, ws ≠ [] → is_ok (m tr).1 = false) →
  sends ws (quiet m).
Proof.
  intros Hm Hws sent tr. destruct (Hm tr) as (cs & Hcs & Hq). exists cs, [], ws.
  unfold quiet. specialize (Hws tr). destruct (m tr) as [r tr']. cbn [fst snd] in *.
  rewrite writes_quiet by done. rewrite orb_false_r. split_and!; try done.
  - by apply checked_quiet.
  - intros Hr. destruct ws; [done|]. rewrite Hws in Hr; [done|done].
Qed.
Lemma sends_bind {A B} ws ws' (m : sending A) (f : A → sending B) :
  sends ws m → (∀ a, sends ws' (f a)) →
  sends (ws ++ ws') (λ sent tr, match m sent tr with
                                | (Ok a, sent, tr) => f a sent tr
                                | (Err e, sent, tr) => (Err e, sent, tr)
                                end).
Proof.
  intros Hm Hf sent tr. destruct (Hm sent tr) as (cs & ds & rest & Hcs & -> & Hw & Hc & Hs & Hr & Hd).
  destruct (m sent tr) as [[[a|e] sent1] tr1]; cbn [fst snd is_ok] in *.
  - rewrite Hr, app_nil_r by done.
    destruct (Hf a sent1 tr1) as (cs' & ds' & rest' & Hds & -> & Hw' & Hc' & Hs' & Hr' & Hd').
    exists (cs ++ cs'), (ds ++ ds'), rest'. rewrite Hds, Hcs, writes_app, Hw, Hw', fmap_app. subst sent1 tr1.
    split_and!; [by rewrite app_assoc|by rewrite app_assoc|done|by apply checked_app| |done|].
    + rewrite Hs', Hw, Hw'. destruct sent; [done|]. cbn [orb]. destruct (ds.*1); [done|].
      cbn [app]. by rewrite !bool_decide_false by done.
    + apply confirmed_app; [done|by eapply confirmed_all_mono; [|exact Hd]|done].
  - exists cs, ds, (rest ++ ws'). by rewrite app_assoc.
Qed.

(** One checked write. *)
Lemma sends_post path v e (P : HttpResponse → Prop) {A} (f : HttpResponse → result bytes A) :
  (∀ r, is_ok (f r) = true → P r) →
  sends [(glab_command (mr_of_target t) path (bs "POST") (Some v), P)]
    (λ sent tr, match unchanged glab t e sent tr with
                | (Ok _, sent, tr) =>
                    match post glab (mr_of_target t) path v sent tr with
                    | (Ok r, sent, tr) => quiet (lift (f r)) sent tr
                    | (Err e, sent, tr) => (Err e, sent, tr)
                    end
                | (Err e, sent, tr) => (Err e, sent, tr)
                end).
Proof.
  intros HP sent tr. set (w := glab_command _ path _ _).
  unfold unchanged, mbind, sending_bind, quiet, current.
  destruct (target_read glab (mr_of_target t) tr) as [[now|x] tr1] eqn:E.
  - pose proof (target_read_Ok _ _ _ _ _ E) as ->.
    destruct (decide (now = t)) as [->|Hne].
    + rewrite bool_decide_true by done. cbn [negb mret sending_ret].
      unfold post, mbind, sending_bind, mark_sent, quiet.
      pose proof (request_trace glab (mr_of_target t) path (bs "POST") (Some v)
                    (tr ++ target_reads (mr_of_target t))) as Ht. fold w in Ht.
      exists (target_reads (mr_of_target t) ++ [w]), [(w, P)], [].
      assert (writes (target_reads (mr_of_target t) ++ [w]) = [w]) as Hws by done.
      assert (checked glab t tr (target_reads (mr_of_target t) ++ [w])) as Hchk.
      { intros pre c post He Hc. exists [].
        assert (pre = target_reads (mr_of_target t)) as ->.
        { destruct pre as [|c1 [|c2 [|c3 pre]]]; cbn [app target_reads] in He.
          - injection He as Hw _. by rewrite <- Hw in Hc.
          - injection He as _ Hw _. by rewrite <- Hw in Hc.
          - injection He as H1 H2 _. by rewrite <- H1, <- H2.
          - injection He as _ _ _ He. by destruct pre. }
        split; [done|]. by rewrite app_nil_r. }
      assert (replies tr (target_reads (mr_of_target t) ++ [w])
        = [write_reply (tr ++ target_reads (mr_of_target t)) w]) as Hreply by (by rewrite replies_app).
      pose proof (mr_request_Ok glab (mr_of_target t) path (bs "POST") (Some v)
        (tr ++ target_reads (mr_of_target t))) as Hok. fold w in Hok.
      destruct (request glab (mr_of_target t) path (bs "POST") (Some v) _) as [[r|x] tr2];
        cbn [fst snd] in Ht; subst tr2; rewrite Hws, app_nil_r; cbn [lift fst snd];
        (split_and!; [by rewrite app_assoc|done|done|done|by rewrite orb_true_r|done|]);
        rewrite Hreply; intros [|i] w' y Hi Hy; try done; injection Hi as <-; injection Hy as <-.
      * destruct (Hok _ _ eq_refl) as (_ & out & Hout & Hdec). unfold write_reply. rewrite Hout, Hdec.
        intros [Hf|?]; [|cbn in *; lia]. apply HP. cbn in Hf. by destruct (f r).
      * intros [?|?]; [done|cbn in *; lia].
    + rewrite bool_decide_false by done. cbn [negb]. unfold quiet, lift. cbn.
      exists (target_reads (mr_of_target t)), [], [(w, P)]. split_and!; try done.
      * by apply checked_quiet; repeat constructor.
      * by rewrite orb_false_r.
  - destruct (target_read_quiet glab (mr_of_target t) tr) as (cs & Hcs & Hq).
    rewrite E in Hcs. cbn in Hcs. subst tr1. exists cs, [], [(w, P)]. rewrite writes_quiet by done.
    cbn. split_and!; try done; [by apply checked_quiet|by rewrite orb_false_r].
Qed.

Variable p : PreparedReview.
Hypothesis target_p : target p = t.
Notation a := (mr_of_target t).

(** What confirms each kind of write. *)
Definition change_requested (r : HttpResponse) : Prop :=
  http_status r = 200%N ∧ ∃ body, from_slice (http_body r) = Ok body ∧
    let result := index (index body (bs "data")) (bs "mergeRequestRequestChanges") in
    array_at body "errors" = [] ∧ array_at result "errors" = [] ∧
    ∃ iid, as_str (index (index result (bs "mergeRequest")) (bs "iid")) = Some iid ∧
      parse_u64 iid = Some (mr_number a).
Definition created (r : HttpResponse) : Prop := http_status r = 201%N.
Definition approved (r : HttpResponse) : Prop := http_status r = 200%N ∨ http_status r = 201%N.
Definition summary_created (r : HttpResponse) : Prop :=
  created r ∧ ∃ note, from_slice (http_body r) = Ok note ∧ is_Some (marked_note note).

Definition comment_write (c : PreparedComment) : option Write :=
  pos ← pc_position c;
  v ← comment_payload p c pos;
  Some (glab_command a (mr_root a ++ bs "/discussions") (bs "POST") (Some v), created).
(** The writes that make up a review, in order. *)
Definition review_writes : list Write :=
  (if bool_decide (verdict p = Verdict.RequestChanges)
   then [(glab_command a (bs "graphql") (bs "POST") (Some (change_request a)), change_requested)] else [])
  ++ omap comment_write (prepared_comments p)
  ++ (if bool_decide (verdict p = Verdict.Approve)
      then [(glab_command a (mr_root a ++ bs "/approve") (bs "POST")
              (Some (json_object [(bs "sha", json_str (head t))])), approved)] else [])
  ++ [(glab_command a (mr_root a ++ bs "/notes") (bs "POST")
        (Some (json_object [(bs "body", json_str (summary p ++ marker p))])), summary_created)].

Lemma unchanged_sends e : sends [] (unchanged glab t e).
Proof.
  unfold unchanged. apply (sends_bind [] []).
  - apply sends_quiet; [apply target_read_quiet|done].
  - intros now. destruct (negb _); [|apply sends_ret].
    apply sends_quiet; [apply emits_lift|done].
Qed.

Lemma change_request_sends :
  sends (if bool_decide (verdict p = Verdict.RequestChanges)
         then [(glab_command a (bs "graphql") (bs "POST") (Some (change_request a)), change_requested)] else [])
    (send_change_request glab p a).
Proof.
  unfold send_change_request. destruct (bool_decide _); cbn [negb]; [|apply sends_ret].
  rewrite target_p. refine (sends_post (bs "graphql") (change_request a) (bs "MR changed before requesting changes")
    change_requested (λ r, if negb (http_status r =? 200)%N
          then Err (bs "GitLab change request returned HTTP " ++ dec (http_status r))
          else
            body ← from_slice (http_body r);
            if change_confirmed a body then Ok tt
            else Err (bs "GitLab did not confirm the change request")) _).
  intros r Hr. destruct (http_status r =? 200)%N eqn:Es; [|done]. apply N.eqb_eq in Es. split; [done|].
  destruct (from_slice (http_body r)) as [body|e]; [|done]. exists body. split; [done|].
  destruct (change_confirmed a body) eqn:Ec; [|by cbn in Hr; rewrite Ec in Hr].
  apply andb_true_iff in Ec as [[E1 E2]%andb_true_iff E3%bool_decide_eq_true].
  assert (∀ v, negb (errors_in v) = true → array_at v "errors" = []) as He.
  { intros v Hv. unfold errors_in in Hv. rewrite negb_involutive in Hv. apply bool_decide_eq_true in Hv.
    by apply length_zero_iff_nil in Hv. }
  split; [by apply He|]. split; [by apply He|]. by apply bind_Some in E3.
Qed.

Lemma sends_ext ws {A} (m m' : sending A) :
  (∀ sent tr, m sent tr = m' sent tr) → sends ws m' → sends ws m.
Proof. intros He Hm sent tr. rewrite He. apply Hm. Qed.

Lemma comment_sends c : sends (option_list (comment_write c)) (send_comment glab p a c).
Proof.
  unfold comment_write.
  destruct (pc_position c) as [pos|] eqn:Ep; cbn [mbind option_bind option_list].
  2:{ unfold send_comment. rewrite target_p, Ep.
      apply (sends_bind [] []); [apply unchanged_sends|]. intros _. cbn.
      apply (sends_quiet [] (lift (Err _))); [apply emits_lift|done]. }
  assert (∀ sent tr, send_comment glab p a c sent tr
    = match unchanged glab t (bs "MR changed during publication") sent tr with
      | (Ok _, sent, tr) =>
          match comment_payload p c pos with
          | None => quiet (or_panic None) sent tr
          | Some v =>
              match post glab a (mr_root a ++ bs "/discussions") v sent tr with
              | (Ok r, sent, tr) =>
                  quiet (lift (if (http_status r =? 201)%N then Ok tt
                         else Err (bs "GitLab rejected the comment with HTTP " ++ dec (http_status r))))
                    sent tr
              | (Err e, sent, tr) => (Err e, sent, tr)
              end
          end
      | (Err e, sent, tr) => (Err e, sent, tr)
      end) as He.
  { intros sent tr. unfold send_comment, mbind, sending_bind. rewrite target_p, Ep.
    destruct (unchanged _ _ _ sent tr) as [[[u|e] s1] tr1]; [|done]. cbn.
    by destruct (comment_payload p c pos). }
  eapply sends_ext; [exact He|]. destruct (comment_payload p c pos) as [v|].
  - refine (sends_post (mr_root a ++ bs "/discussions") v (bs "MR changed during publication") created
      (λ r, if (http_status r =? 201)%N then Ok tt
            else Err (bs "GitLab rejected the comment with HTTP " ++ dec (http_status r))) _).
    intros r Hr. destruct (http_status r =? 201)%N eqn:Es; [by apply N.eqb_eq|done].
  - apply (sends_bind [] []); [apply unchanged_sends|]. intros _.
    apply (sends_quiet [] (or_panic None)); [apply emits_or_panic|done].
Qed.
Lemma comments_send cs : sends (omap comment_write cs) (send_comments glab p a cs).
Proof.
  induction cs as [|c cs IH]; cbn [send_comments omap list_omap]; [apply sends_ret|].
  assert (match comment_write c with Some y => y :: omap comment_write cs
                                   | None => omap comment_write cs end
          = option_list (comment_write c) ++ omap comment_write cs) as ->
    by by destruct (comment_write c).
  apply sends_bind; [apply comment_sends|]. intros _. exact IH.
Qed.
Lemma approval_sends :
  sends (if bool_decide (verdict p = Verdict.Approve)
         then [(glab_command a (mr_root a ++ bs "/approve") (bs "POST")
                 (Some (json_object [(bs "sha", json_str (head t))])), approved)] else [])
    (send_approval glab p a).
Proof.
  unfold send_approval. destruct (bool_decide _); cbn [negb]; [|apply sends_ret].
  rewrite target_p. refine (sends_post (mr_root a ++ bs "/approve") _ (bs "MR changed before approval") approved
    (λ r, if (http_status r =? 201)%N || (http_status r =? 200)%N then Ok tt
          else Err (bs "GitLab approval did not confirm")) _).
  intros r Hr. destruct (_ || _) eqn:Es; [|done]. apply orb_true_iff in Es.
  unfold approved. rewrite !N.eqb_eq in Es. tauto.
Qed.
Lemma summary_sends :
  sends [(glab_command a (mr_root a ++ bs "/notes") (bs "POST")
           (Some (json_object [(bs "body", json_str (summary p ++ marker p))])), summary_created)]
    (send_summary glab p a).
Proof.
  unfold send_summary. rewrite target_p.
  refine (sends_post (mr_root a ++ bs "/notes") _ (bs "MR changed before review summary") summary_created
    (λ r, if negb (http_status r =? 201)%N
          then Err (bs "GitLab summary write produced HTTP " ++ dec (http_status r))
          else
            n ← from_slice (http_body r);
            ok_or (marked_note n) (bs "Unverifiable GitLab summary")) _).
  intros r Hr. destruct (http_status r =? 201)%N eqn:Es; [|done]. apply N.eqb_eq in Es. split; [done|].
  destruct (from_slice (http_body r)) as [n|e]; [|done]. exists n. split; [done|].
  by destruct (marked_note n) eqn:En; [eexists|cbn in Hr; rewrite En in Hr].
Qed.

Lemma all_sends : sends review_writes (send_all glab p a).
Proof.
  unfold review_writes, send_all.
  apply sends_bind; [apply change_request_sends|]. intros _.
  apply sends_bind; [apply comments_send|]. intros _.
  apply sends_bind; [apply approval_sends|]. intros _. apply summary_sends.
Qed.

Lemma send_comment_Ok c sent tr :
  is_ok (send_comment glab p a c sent tr).1.1 = true → is_Some (comment_write c).
Proof.
  unfold send_comment, mbind, sending_bind, comment_write.
  destruct (unchanged _ _ _ sent tr) as [[[u|e] s1] tr1]; [|done].
  destruct (pc_position c) as [pos|]; [|done]. cbn.
  by destruct (comment_payload p c pos); [eexists|].
Qed.
Lemma send_comments_Ok cs sent tr :
  is_ok (send_comments glab p a cs sent tr).1.1 = true → is_Some (mapM comment_write cs).
Proof.
  revert sent tr. induction cs as [|c cs IH]; intros sent tr H; [by eexists|].
  cbn [send_comments] in H. unfold mbind, sending_bind in H.
  pose proof (send_comment_Ok c sent tr) as Hc.
  destruct (send_comment glab p a c sent tr) as [[[u|e] s1] tr1]; [|done].
  destruct Hc as [w Hw]; [done|]. destruct (IH _ _ H) as [ws Hws].
  cbn [mapM]. rewrite Hw, Hws. by eexists.
Qed.
Lemma send_all_Ok sent tr :
  is_ok (send_all glab p a sent tr).1.1 = true → is_Some (mapM comment_write (prepared_comments p)).
Proof.
  unfold send_all, mbind, sending_bind. intros H.
  destruct (send_change_request glab p a sent tr) as [[[u|e] s1] tr1]; [|done].
  pose proof (send_comments_Ok (prepared_comments p) s1 tr1) as Hc.
  destruct (send_comments glab p a (prepared_comments p) s1 tr1) as [[[u2|e] s2] tr2]; [|done].
  by apply Hc.
Qed.
End sending.

Section send.
Context {sha_ : Sha256} {review_ : ReviewJson} {sha1_ : Sha1} {position_ : PositionJson}
  {payload_ : MrPayloadJson} {json_ : JsonValue} (glab : Server).

(** C7: However GitLab answers, sending a review makes its writes in one order: the change
    request, the comments as prepared, the approval, the summary. Each write comes right after reads
    that say that the merge request is unchanged, and the next is only made when the server's answer
    confirmed it: the status of each kind, no errors and the number of the merge request for the
    change request, and a marked note for the summary. The review counts as rejected only if
    nothing was written, as unknown only if something was, and as accepted only if every write of it
    was made and confirmed. *)
Theorem gitlab_send_in_order p tr :
  ∃ r cs ds rest, gitlab_send glab p tr = (r, tr ++ cs) ∧
    review_writes (target p) p = ds ++ rest ∧ writes cs = ds.*1 ∧
    checked glab (target p) tr cs ∧ (writes cs ≠ [] → verify p GitlabRules = true) ∧
    confirmed_all (∃ v, r = Ok (Accepted v)) ds (replies glab tr cs) ∧
    match r with
    | Ok (Outbox.Rejected _) => writes cs = []
    | Ok (Unknown _) => writes cs ≠ []
    | Ok (Accepted _) => rest = [] ∧ verify p GitlabRules = true ∧
        is_Some (mapM (comment_write (target p) p) (prepared_comments p))
    | Err _ => True
    end.
Proof.
  unfold gitlab_send. destruct (verify p GitlabRules) eqn:Ev; cbn [negb].
  2:{ exists (Ok (Outbox.Rejected 422)), [], [], (review_writes (target p) p). rewrite app_nil_r.
      split_and!; try done. by apply checked_quiet. }
  destruct (all_sends glab (target p) p eq_refl false tr) as (cs & ds & rest & Hcs & Hw & Hds & Hc & Hs & Hr & Hd).
  pose proof (send_all_Ok glab (target p) p false tr) as Hall.
  destruct (send_all glab p (mr_of_target (target p)) false tr) as [[[v|e] sent] tr1] eqn:E;
    cbn [fst snd orb is_ok] in *; subst tr1.
  - eexists _, cs, ds, rest. split; [done|]. split_and!; auto. by eapply confirmed_all_mono; [|exact Hd].
  - assert (∀ (r : result Stop SendOutcome), (∀ v, r ≠ Ok (Accepted v)) →
      confirmed_all (∃ v, r = Ok (Accepted v)) ds (replies glab tr cs)) as Hno.
    { intros r Hne. eapply confirmed_all_mono; [|exact Hd]. intros [v Hv]. by apply Hne in Hv. }
    destruct e as [m|].
    + destruct sent; eexists _, cs, ds, rest; (split; [done|]); split_and!; auto; symmetry in Hs.
      * by apply negb_true_iff, bool_decide_eq_false in Hs.
      * by apply negb_false_iff, bool_decide_eq_true in Hs.
    + eexists _, cs, ds, rest. split; [by destruct sent|]. by split_and!; try apply Hno.
Qed.
End send.

(** ** Snapshots *)

Section coherent.
Context {sha_ : Sha256} {source_ : SourceJson} {json_ : JsonValue} (glab : Server).

Notation quietly := (emits (λ c, is_write c = false)).

Lemma request_quiet a path : quietly (request glab a path (bs "GET") None).
Proof.
  unfold request. apply emits_bind; [by apply emits_run|]. intros out. apply emits_lift.
Qed.
Lemma get_quiet a path : quietly (get_ glab a path).
Proof. by apply get_read. Qed.
#[local] Hint Resolve request_quiet get_quiet target_read_quiet : emits.
Lemma pages_quiet a path : quietly (pages glab a path).
Proof.
  unfold pages. generalize 30 at 1. intros n. generalize 1%N ([] : list Value) 0%N.
  induction n as [|n IH]; intros page rows size; cbn [pages_loop]; emits_walk.
Qed.
#[local] Hint Resolve pages_quiet : emits.
Lemma pipelines_quiet t a ps acc : quietly (add_pipelines glab t a ps acc).
Proof.
  revert acc. induction ps as [|p ps IH]; intros acc; cbn [add_pipelines]; emits_walk.
Qed.
#[local] Hint Resolve pipelines_quiet : emits.
Lemma checks_quiet t a : quietly (read_checks glab t a).
Proof. unfold read_checks. emits_walk. Qed.
#[local] Hint Resolve checks_quiet : emits.
Lemma parse_quiet b : quietly (parse_body b).
Proof. unfold parse_body. emits_walk. Qed.
#[local] Hint Resolve parse_quiet : emits.

Lemma snapshot_quiet now a : quietly (gitlab_snapshot glab now a).
Proof. unfold gitlab_snapshot. emits_walk. Qed.
Lemma tag_pages_quiet n page h project acc : quietly (tag_pages glab n page h project acc).
Proof.
  revert page acc. induction n as [|n IH]; intros page acc; cbn [tag_pages]; emits_walk.
Qed.
#[local] Hint Resolve tag_pages_quiet : emits.
Lemma blame_quiet t sp : quietly (mr_blame_span glab t sp).
Proof. unfold mr_blame_span. emits_walk. Qed.
#[local] Hint Resolve blame_quiet : emits.
Lemma state_quiet t a v : quietly (state_holds glab t a v).
Proof. unfold state_holds. emits_walk. Qed.
#[local] Hint Resolve state_quiet : emits.

(** Reading from GitLab never writes: whatever the server answers, taking a snapshot of a
    merge request or a compare, checking a merge request, reading source files, reviews and
    their comments, releases and blame send no [POST]. *)
Theorem gitlab_reads_only now a c t path revision n spans :
  quietly (gitlab_snapshot glab now a) ∧ quietly (gitlab_compare glab now c) ∧
  quietly (current glab t) ∧ quietly (source glab t path revision) ∧
  quietly (mr_reviews glab t) ∧ quietly (mr_comments glab t n) ∧
  quietly (gitlab_releases glab t) ∧ quietly (gitlab_blame glab t spans).
Proof.
  split_and!; [apply snapshot_quiet|..]; unfold gitlab_compare, current, source, mr_reviews,
    mr_comments, gitlab_releases, gitlab_blame; emits_walk.
Qed.

(** The patch and the listing of files say the same. *)
Definition listing_complete (p : PatchReport) (fs : list Value) : Prop :=
  ∃ paths : list bytes, mapM display_path (files p) = Some paths ∧
    length fs = length (files p) ∧ Forall (λ f, left_out f = false) fs ∧
    ∀ q, q ∈ paths ↔ q ∈ listed_path (list_to_set paths) <$> fs.

Lemma incomplete_false (paths : list bytes) fs :
  incomplete paths fs = false →
  length fs = length paths ∧ Forall (λ f, left_out f = false) fs ∧
  ∀ q, q ∈ paths ↔ q ∈ listed_path (list_to_set paths) <$> fs.
Proof.
  unfold incomplete. set (all := list_to_set paths : gset bytes).
  set (listed := list_to_set (listed_path all <$> fs) : gset bytes). intros H.
  apply orb_false_iff in H as [H H4]. apply orb_false_iff in H as [H H3].
  apply orb_false_iff in H as [H1 H2].
  apply negb_false_iff, Nat.eqb_eq in H1, H2. apply negb_false_iff, bool_decide_eq_true in H3.
  split; [done|]. split.
  - apply Forall_forall. intros f Hf. apply not_true_iff_false. intros Hl.
    apply not_true_iff_false in H4. apply H4, existsb_exists. exists f.
    split; [by apply list_elem_of_In|done].
  - assert (listed = all) as He by (apply set_subseteq_size_eq; [done|lia]).
    intros q. rewrite <- !(elem_of_list_to_set (C := gset bytes)). fold all listed. by rewrite He.
Qed.

(** An accepted snapshot of a merge request shows one state of it. Its target, account
    included, is what the server said before everything else was read and again after it;
    its patch is the diff that the server sent in between, of which the server listed every
    file, none of them cut. *)
Theorem gitlab_snapshot_coherent now a tr s tr' :
  gitlab_snapshot glab now a tr = (Ok s, tr') →
  ∃ t tr1 raw fs tr2 mid cs,
    target_read glab a tr = (Ok t, tr1) ∧ remote s = Some t ∧
    request glab a (mr_root a ++ bs "/raw_diffs") (bs "GET") None tr1
      = (Ok raw, tr1 ++ [glab_command a (mr_root a ++ bs "/raw_diffs") (bs "GET") None]) ∧
    http_status raw = 200%N ∧ parse_patch (http_body raw) default_limits = Some (Ok (patch s)) ∧
    pages glab a (mr_root a ++ bs "/diffs")
      (tr1 ++ [glab_command a (mr_root a ++ bs "/raw_diffs") (bs "GET") None]) = (Ok fs, tr2) ∧
    listing_complete (patch s) fs ∧
    mid = tr2 ++ cs ∧ target_read glab a mid = (Ok t, tr').
Proof.
  unfold gitlab_snapshot. intros H. io_step H m tr1 Hm. io_step H user tr2 Hu. io_lift H t Ht.
  subst. io_step H rw tr3 Hraw. pose proof (mr_request_Ok _ _ _ _ _ _ _ _ Hraw) as [-> _].
  destruct (negb _) eqn:Est in H; [by apply lift_Ok in H as [? _]|].
  apply negb_false_iff, N.eqb_eq in Est.
  io_step H p tr4 Hp. apply parse_body_Ok in Hp as [Hp ->].
  io_step H fs tr5 Hfs. io_lift H pths Hpaths. subst.
  destruct (incomplete pths fs) eqn:Einc; [by apply lift_Ok in H as [? _]|].
  io_step H ds tr6 Hds. io_step H av tr7 Hap. io_step H rv tr8 Hrv. io_lift H nw Hnw. subst.
  destruct (discussion_comments ds) as [cms talk].
  io_step H cn tr9 Hcn. destruct cn as [cks nts]. io_step H again tr10 Hagain.
  destruct (negb _) eqn:Et in H; [by apply lift_Ok in H as [? _]|].
  apply negb_false_iff, bool_decide_eq_true in Et. subst again.
  apply ret_Ok in H as [<- <-].
  destruct (emits_extends _ _ _ _ (pages_quiet a _) Hds) as (c1 & -> & _).
  destruct (emits_extends _ _ _ _ (emits_attempt _ (get_quiet a _)) Hap) as (c2 & -> & _).
  destruct (emits_extends _ _ _ _ (emits_attempt _ (get_quiet a _)) Hrv) as (c3 & -> & _).
  destruct (emits_extends _ _ _ _ (checks_quiet t a) Hcn) as (c4 & -> & _).
  exists t, tr2, rw, fs, tr5, (((((tr5 ++ c1) ++ c2) ++ c3) ++ c4)), (c1 ++ c2 ++ c3 ++ c4).
  split.
  { unfold target_read, mbind, io_bind. by rewrite Hm, Hu, Ht. }
  split_and!; try done.
  - apply incomplete_false in Einc as (H1 & H2 & H3). exists pths. split; [done|].
    split; [|by split]. rewrite H1. symmetry. exact (length_mapM _ _ _ Hpaths).
  - by rewrite <- !app_assoc.
Qed.
End coherent.

(** ** A small server *)

Section sample.
#[local] Instance short_sha : Sha256 := λ s, take 32 s.
#[local] Instance short_source : SourceJson := {| source_json _ o _ _ := o; entire_json _ := [] |}.

Definition mr_oid : bytes := replicate 40 Byte.x61.
Definition mr_replies : list (bytes * json) :=
  [(bs "user", JObj [(bs "username", JStr (bs "me"))]);
   (bs "projects/acme%2Ftool/merge_requests/3", JObj
     [(bs "title", JStr (bs "Fix")); (bs "state", JStr (bs "opened")); (bs "iid", JNum 3);
      (bs "project_id", JNum 5);
      (bs "diff_refs", JObj [(bs "start_sha", JStr mr_oid); (bs "base_sha", JStr mr_oid);
                             (bs "head_sha", JStr mr_oid)])]);
   (bs "projects/acme%2Ftool/merge_requests/3/diffs?per_page=100&page=1",
    JArr [JObj [(bs "new_path", JStr (bs "f"))]])].
(** The example's JSON text is the path of a reply; other replies are empty lists. *)
#[local] Instance path_json : JsonValue := {|
  Value := json; index := json_index; pointer := json_pointer;
  as_u64 := @as_u64 sample_json; as_str := @as_str sample_json; as_bool := @as_bool sample_json;
  as_array := @as_array sample_json; is_null := @is_null sample_json; is_object := @is_object sample_json; json_eqb := json_same;
  json_null := JNull; json_str := JStr; json_num := JNum; json_object := JObj;
  to_vec _ := []; from_slice s := Ok (default (JArr []) (get s mr_replies))
|}.
Definition mr_server : Server := λ _ c,
  let path := default [] (command_args c !! 6) in
  let body := if ends_with (bs "/raw_diffs") path
              then join [LF] [bs "diff --git a/f b/f"; bs "--- a/f"; bs "+++ b/f"; bs "@@ -1 +1 @@";
                              bs "-x"; bs "+y"; []]
              else path in
  Ok (mkProcessOutput (Some 0%Z) (bs "HTTP/1.1 200 OK" ++ [LF; LF] ++ body) []).
Definition mr_address : MrAddress := mkMrAddress (bs "gitlab.com") (bs "acme/tool") 3.
Definition mr_run := gitlab_snapshot mr_server (Some 0%N) mr_address [].

Lemma gitlab_snapshot_coherent_witness :
  ∃ s tr', mr_run = (Ok s, tr') ∧
  ∃ t tr1 raw fs tr2 mid cs,
    target_read mr_server mr_address [] = (Ok t, tr1) ∧ remote s = Some t ∧
    request mr_server mr_address (mr_root mr_address ++ bs "/raw_diffs") (bs "GET") None tr1
      = (Ok raw, tr1 ++ [glab_command mr_address (mr_root mr_address ++ bs "/raw_diffs") (bs "GET") None]) ∧
    http_status raw = 200%N ∧ parse_patch (http_body raw) default_limits = Some (Ok (patch s)) ∧
    pages mr_server mr_address (mr_root mr_address ++ bs "/diffs")
      (tr1 ++ [glab_command mr_address (mr_root mr_address ++ bs "/raw_diffs") (bs "GET") None])
      = (Ok fs, tr2) ∧
    listing_complete (patch s) fs ∧ mid = tr2 ++ cs ∧ target_read mr_server mr_address mid = (Ok t, tr').
Proof.
  destruct mr_run as [[s|e] tr'] eqn:E.
  - exists s, tr'. split; [done|].
    exact (gitlab_snapshot_coherent mr_server (Some 0%N) mr_address [] s tr' E).
  - assert (is_ok mr_run.1 = true) as H by (vm_compute; reflexivity). by rewrite E in H.
Defined.
End sample.
