(* ===== verification/Programs.v ===== *)
(** * Programs that talk to an environment

    [prog call A] is a program as a tree of the calls it makes: [call R] is the type of calls
    that are answered with an [R], and each answer is followed by the rest of the program. A
    loop that waits takes a number of rounds and becomes [Pending] when they are used up.
    [run] is the step relation of one program with its trace of calls and answers.

    [follows] is a logic for such programs: along every answer that the environment may give
    the program keeps to a protocol, an automaton over its calls, and ends in [Q]. *)

From S2P Require Import Prelude RustStr.

(** ** Errors *)

(** [std::io::ErrorKind], as far as the code looks at it. *)
Inductive ErrorKind :=
| NotFound | ConnectionRefused | InvalidInput | InvalidData | WouldBlock | TimedOut
| BrokenPipe | ConnectionReset | Interrupted | OtherKind.
#[export] Instance ErrorKind_eq_dec : EqDecision ErrorKind.
Proof. solve_decision. Defined.

(** [AdapterError]; the third-party errors are their text. *)
Inductive AdapterError :=
| Message (m : bytes) | Io (k : ErrorKind) | Sql (m : bytes) | Json (m : bytes)
| PatchFailed (m : bytes).
#[export] Instance AdapterError_eq_dec : EqDecision AdapterError.
Proof. solve_decision. Defined.

(** ** Programs *)

Inductive prog (call : Type → Type) (A : Type) : Type :=
| Return (r : result AdapterError A)
| Pending
| Op {R : Type} (c : call R) (k : R → prog call A).
Arguments Return {call A} r.
Arguments Pending {call A}.
Arguments Op {call A R} c k.

Section prog.
Context {call : Type → Type}.

#[export] Instance prog_ret : MRet (prog call) := λ A a, Return (Ok a).
#[export] Instance prog_bind : MBind (prog call) := λ A B f,
  fix go (p : prog call A) : prog call B :=
    match p with
    | Return (Ok a) => f a
    | Return (Err e) => Return (Err e)
    | Pending => Pending
    | Op c k => Op c (λ r, go (k r))
    end.

(** One call; [e.into()] of an error as the program's result; the [?] operator on a value. *)
Definition op {R} (c : call R) : prog call R := Op c (λ r, Return (Ok r)).
Definition throw {A} (e : AdapterError) : prog call A := Return (Err e).
Definition try_ {A} (r : result AdapterError A) : prog call A := Return r.
Definition try_io {A} (r : result ErrorKind A) : prog call A := Return (map_err Io r).
(** A result that the program looks at itself. *)
Fixpoint catch {A} (p : prog call A) : prog call (result AdapterError A) :=
  match p with
  | Return r => Return (Ok r)
  | Pending => Pending
  | Op c k => Op c (λ r, catch (k r))
  end.

(** ** Runs *)

Inductive event : Type :=
| Event {R : Type} (c : call R) (r : R).

(** [run p tr o]: the calls and answers [tr] end [p] in [o], [None] when it is still waiting. *)
Fixpoint run {A} (p : prog call A) (tr : list event) (o : option (result AdapterError A)) : Prop :=
  match p with
  | Return r => tr = [] ∧ o = Some r
  | Pending => tr = [] ∧ o = None
  | Op c k => ∃ r tr', tr = Event c r :: tr' ∧ run (k r) tr' o
  end.

Lemma run_bind {A B} (p : prog call A) (f : A → prog call B) tr o :
  run (p ≫= f) tr o →
  (∃ a tr1 tr2, run p tr1 (Some (Ok a)) ∧ run (f a) tr2 o ∧ tr = tr1 ++ tr2) ∨
  (∃ e, run p tr (Some (Err e)) ∧ o = Some (Err e)) ∨ (run p tr None ∧ o = None).
Proof.
  revert tr. induction p as [[a|e]| |R c k IH]; intros tr; cbn.
  - intros H. left. by exists a, [], tr.
  - intros [-> ->]. right. left. by exists e.
  - intros [-> ->]. by right; right.
  - intros (r & tr' & -> & H).
    destruct (IH _ _ H) as [(a & tr1 & tr2 & H1 & H2 & ->)|[(e & He & ->)|[H1 ->]]].
    + left. exists a, (Event c r :: tr1), tr2. split; [by exists r, tr1|done].
    + right. left. exists e. split; [by exists r, tr'|done].
    + right. right. split; [by exists r, tr'|done].
Qed.

(** A run that succeeds, one bind at a time. *)
Lemma run_bind_Ok {A B} (p : prog call A) (f : A → prog call B) tr b :
  run (p ≫= f) tr (Some (Ok b)) →
  ∃ a tr1 tr2, run p tr1 (Some (Ok a)) ∧ run (f a) tr2 (Some (Ok b)) ∧ tr = tr1 ++ tr2.
Proof. intros H. apply run_bind in H as [H|[(e & _ & H)|[_ H]]]; done. Qed.
Lemma run_op_Ok {R} (c : call R) tr r :
  run (op c) tr (Some (Ok r)) → tr = [Event c r].
Proof. cbn. intros (r' & tr' & -> & -> & H). injection H as ->. done. Qed.

Lemma run_catch_Ok {A} (p : prog call A) tr r :
  run (catch p) tr (Some (Ok r)) → run p tr (Some r).
Proof.
  revert tr. induction p as [r'| |R c k IH]; intros tr; cbn; [by intros [-> [= ->]]|by intros []|].
  intros (a & tr' & -> & H). exists a, tr'. split; [done|by apply IH].
Qed.
Lemma run_value_Ok {A} (r : result AdapterError A) tr a :
  run (Return r) tr (Some (Ok a)) → r = Ok a ∧ tr = [].
Proof. intros [-> H]. split; [by injection H|done]. Qed.

(** A run against an environment that is a function of its state. *)
Fixpoint simulate {E A} (answer : E → ∀ R, call R → R * E) (s : E) (p : prog call A)
    : list event * option (result AdapterError A) :=
  match p with
  | Return r => ([], Some r)
  | Pending => ([], None)
  | @Op _ _ R c k =>
      let '(r, s) := answer s R c in
      let '(tr, o) := simulate answer s (k r) in (Event c r :: tr, o)
  end.
Lemma run_simulate {E A} (answer : E → ∀ R, call R → R * E) s (p : prog call A) :
  run p (simulate answer s p).1 (simulate answer s p).2.
Proof.
  revert s. induction p as [r| |R c k IH]; intros s; cbn; [done..|].
  destruct (answer s R c) as [r s'] eqn:Ha. specialize (IH r s').
  destruct (simulate answer s' (k r)) as [tr o]. cbn in *. by exists r, tr.
Qed.

(** A run against an environment that may have no answer. *)
Fixpoint play {E A} (answer : E → ∀ R, call R → option (R * E)) (s : E) (p : prog call A)
    : option (list event * option (result AdapterError A)) :=
  match p with
  | Return r => Some ([], Some r)
  | Pending => Some ([], None)
  | @Op _ _ R c k =>
      '(r, s) ← answer s R c;
      '(tr, o) ← play answer s (k r);
      Some (Event c r :: tr, o)
  end.
Lemma run_play {E A} (answer : E → ∀ R, call R → option (R * E)) s (p : prog call A) tr o :
  play answer s p = Some (tr, o) → run p tr o.
Proof.
  revert s tr. induction p as [r| |R c k IH]; intros s tr; cbn; [by intros [= <- <-]..|].
  destruct (answer s R c) as [[r s']|]; [|done]. cbn.
  destruct (play answer s' (k r)) as [[tr' o']|] eqn:Hp; [|done]. intros [= <- <-].
  exists r, tr'. split; [done|]. by eapply IH.
Qed.

(** ** Protocols *)

Context {S : Type}.
(** What may be called in a state, what the environment may answer, and the next state. *)
Context (pre : S → ∀ R, call R → Prop) (env : S → ∀ R, call R → R → Prop).
Context (next : S → ∀ R, call R → R → S).

Fixpoint follows {A} (Q : S → option (result AdapterError A) → Prop) (s : S)
    (p : prog call A) : Prop :=
  match p with
  | Return r => Q s (Some r)
  | Pending => Q s None
  | @Op _ _ R c k => pre s R c ∧ ∀ r, env s R c r → follows Q (next s R c r) (k r)
  end.

Lemma follows_mono {A} (Q Q' : S → option (result AdapterError A) → Prop) p s :
  (∀ s o, Q s o → Q' s o) → follows Q s p → follows Q' s p.
Proof.
  intros HQ. revert s. induction p as [r| |R c k IH]; intros s; cbn; [apply HQ..|].
  intros [Hp Hk]. split; [done|]. intros r Hr. by apply IH, Hk.
Qed.

Lemma follows_bind {A B} (Q : S → option (result AdapterError B) → Prop) (p : prog call A) f s :
  follows (λ s o, match o with
                  | Some (Ok a) => follows Q s (f a)
                  | Some (Err e) => Q s (Some (Err e))
                  | None => Q s None
                  end) s p →
  follows Q s (p ≫= f).
Proof.
  revert s. induction p as [[a|e]| |R c k IH]; intros s; cbn; [done..|].
  intros [Hp Hk]. split; [done|]. intros r Hr. by apply IH, Hk.
Qed.

Lemma follows_catch {A} (Q : S → option (result AdapterError (result AdapterError A)) → Prop)
    (p : prog call A) s :
  follows (λ s o, Q s (Ok <$> o)) s p → follows Q s (catch p).
Proof.
  revert s. induction p as [r| |R c k IH]; intros s; cbn; [done..|].
  intros [Hp Hk]. split; [done|]. intros r Hr. by apply IH, Hk.
Qed.

(** The state after a trace, and a trace whose answers the environment may give. *)
Fixpoint after (s : S) (tr : list event) : S :=
  match tr with [] => s | Event c r :: tr => after (next s _ c r) tr end.
Fixpoint admitted (s : S) (tr : list event) : Prop :=
  match tr with [] => True | Event c r :: tr => env s _ c r ∧ admitted (next s _ c r) tr end.
Fixpoint allowed (s : S) (tr : list event) : Prop :=
  match tr with [] => True | Event c r :: tr => pre s _ c ∧ allowed (next s _ c r) tr end.

Lemma follows_run {A} (Q : S → option (result AdapterError A) → Prop) p tr o s :
  run p tr o → follows Q s p → admitted s tr → allowed s tr ∧ Q (after s tr) o.
Proof.
  revert s tr. induction p as [r| |R c k IH]; intros s tr; cbn.
  - by intros [-> ->] HQ _.
  - by intros [-> ->] HQ _.
  - intros (r & tr' & -> & Hrun) [Hp Hk] [He Ha].
    destruct (IH _ _ _ Hrun (Hk r He) Ha). done.
Qed.

Lemma allowed_at s tr1 {R} (c : call R) r tr2 :
  allowed s (tr1 ++ Event c r :: tr2) → pre (after s tr1) R c.
Proof.
  revert s. induction tr1 as [|[R' c' r'] tr1 IH]; intros s; cbn; [by intros []|].
  intros [_ H]. by apply IH.
Qed.
Lemma admitted_any s tr : (∀ s R (c : call R) r, env s R c r) → admitted s tr.
Proof. intros H. revert s. induction tr as [|[R c r] tr IH]; intros s; cbn; [done|]. by split. Qed.

(** ** Programs that do not wait *)

Fixpoint answers {A} (p : prog call A) : Prop :=
  match p with Return _ => True | Pending => False | Op c k => ∀ r, answers (k r) end.

Lemma answers_bind {A B} (p : prog call A) (f : A → prog call B) :
  answers p → (∀ a, answers (f a)) → answers (p ≫= f).
Proof.
  intros Hp Hf. induction p as [[a|e]| |R c k IH]; cbn; [apply Hf|done..|].
  intros r. apply IH, Hp.
Qed.

(** ** Calls of some kind only *)

Section makes.
Context (P : ∀ R, call R → Prop).

Fixpoint makes {A} (p : prog call A) : Prop :=
  match p with
  | @Op _ _ R c k => P R c ∧ ∀ r, makes (k r)
  | _ => True
  end.

Lemma makes_bind {A B} (p : prog call A) (f : A → prog call B) :
  makes p → (∀ a, makes (f a)) → makes (p ≫= f).
Proof.
  intros Hp Hf. induction p as [[a|e]| |R c k IH]; cbn; [apply Hf|done..|].
  destruct Hp as [Hc Hk]. split; [done|]. intros r. apply IH, Hk.
Qed.
Lemma makes_catch {A} (p : prog call A) : makes p → makes (catch p).
Proof.
  intros Hp. induction p as [r| |R c k IH]; cbn; [done..|].
  destruct Hp as [Hc Hk]. split; [done|]. intros r. apply IH, Hk.
Qed.

(** A program whose calls do not concern the protocol may end in any way. *)
Lemma makes_follows {A} (Q : S → option (result AdapterError A) → Prop) (p : prog call A) s :
  (∀ R c, P R c → pre s R c ∧ ∀ r, next s R c r = s) →
  makes p → (answers p ∨ Q s None) → (∀ r, Q s (Some r)) → follows Q s p.
Proof.
  intros Hs Hp Ha HQ. induction p as [r| |R c k IH]; cbn; [apply HQ|naive_solver|].
  destruct Hp as [Hc Hk]. destruct (Hs R c Hc) as [Hpre Hnext]. split; [done|].
  intros r _. rewrite Hnext. apply IH; [apply Hk|]. destruct Ha as [Ha|]; [left; apply Ha|by right].
Qed.
End makes.
End prog.

Arguments event : clear implicits.


(** A bind on a value that is known. *)
Ltac bind_value :=
  match goal with
  | |- context [mbind ?f (Return (Ok ?a))] =>
      change (mbind f (Return (Ok a))) with (f a); cbv beta
  | |- context [mbind ?f (mret ?a)] => change (mbind f (mret a)) with (f a); cbv beta
  end.

(** Splits a program by the structure of its text, down to its calls. *)
Ltac makes_walk :=
  repeat first
    [ progress intros
    | done
    | match goal with
      | |- makes _ (_ ≫= _) => apply makes_bind
      | |- makes _ (catch _) => apply makes_catch
      | |- makes _ (op _) => split; [try done|]
      | |- makes _ (match ?x with _ => _ end) => destruct x eqn:?
      end ].
Ltac answers_walk :=
  repeat first
    [ progress intros
    | done
    | match goal with
      | |- answers (_ ≫= _) => apply answers_bind
      | |- answers (match ?x with _ => _ end) => destruct x eqn:?
      end ].

(** A bind of a run that succeeds, split at its first part. *)
Tactic Notation "run_step" hyp(H) "as" simple_intropattern(a) simple_intropattern(tr)
    simple_intropattern(Ha) :=
  apply run_bind_Ok in H as (a & tr & ? & Ha & H & ->).
