(* ===== verification/Handoff.v ===== *)
(** * Handing a request to the running window ([crates/adapters/src/handoff.rs])

    Sockets, locks, the clock and starting a window are calls ([HandoffCall]); the programs
    below make them in the order of the code. A loop that waits takes [rounds]. The wire
    format is [serde_json]'s ([HandoffJson]). *)

From S2P Require Import Prelude RustStr Utf8 Json Process Programs.

(** ** Requests *)

(** [provider::OpenRequest]; a path is its bytes. *)
Inductive OpenRequest :=
| Fixture (name : bytes)
| PatchFile (path : bytes)
| Remote (provider address : bytes)
| LocalGit (root base head : bytes)
| LocalIndex (root : bytes)
| LocalWorktree (root : bytes)
| Resume (snapshot : bytes).
#[export] Instance OpenRequest_eq_dec : EqDecision OpenRequest.
Proof. solve_decision. Defined.

(** The write permissions a window started with. *)
Record Writes := mkWrites { allow_github : bool; allow_gitlab : bool }.
#[export] Instance Writes_eq_dec : EqDecision Writes.
Proof. solve_decision. Defined.

Definition VERSION : N := 1.
Definition FRAME_LIMIT : nat := 65536.
Definition ACTIVATION_TOKEN_LIMIT : nat := 4096.

Definition admit_activation_token (token : bytes) : option bytes :=
  if negb (bool_decide (token = [])) && (length token <=? ACTIVATION_TOKEN_LIMIT)%nat
     && negb (contains_byte NUL token)
  then Some token else None.

Record HandoffMessage := mkMessage {
  version : N; request : option OpenRequest; writes : Writes; activation_token : option bytes
}.
Definition without_token (m : HandoffMessage) : HandoffMessage :=
  mkMessage (version m) (request m) (writes m) None.

(** [serde_json] on the handoff's types. A message is read with its token as any JSON value
    (absent, when the field is); an error is a line and a column. *)
Class HandoffJson {json_ : JsonValue} := {
  message_json : HandoffMessage → option bytes;    (* fails on a path that is not UTF-8 *)
  ack_json : N → option bytes → option bytes;
  read_version : bytes → result (N * N) N;
  read_message : bytes → result (N * N) (N * option OpenRequest * Writes * option Value);
  read_ack : bytes → option (option bytes)         (* the error in an acknowledgement *)
}.
Arguments HandoffJson _ : clear implicits.

(** [optional_activation_token]. *)
Definition optional_activation_token {_ : JsonValue} (v : Value) : option bytes :=
  match as_str v with Some token => admit_activation_token token | None => None end.

Inductive Outcome := NotRunning | Accepted | Refused (message : bytes) | Unanswered.
#[export] Instance Outcome_eq_dec : EqDecision Outcome.
Proof. solve_decision. Defined.
Inductive Delivery := HandedOff | Launched.
#[export] Instance Delivery_eq_dec : EqDecision Delivery.
Proof. solve_decision. Defined.

(** ** Lines *)

(** [BufReader::read_line] on a stream that is cut after [limit] bytes: what each [read]
    gives, an empty piece or no more being the end. *)
Fixpoint read_until_newline (limit : nat) (acc : bytes) (reads : list (result ErrorKind bytes))
    : result ErrorKind bytes :=
  match reads with
  | [] => Ok acc
  | Err Interrupted :: reads => read_until_newline limit acc reads
  | Err e :: _ => Err e
  | Ok piece :: reads =>
      let piece := take limit piece in
      match split_once [LF] piece with
      | Some (before, _) => Ok (acc ++ before ++ [LF])
      | None =>
          if bool_decide (piece = []) then Ok acc
          else read_until_newline (limit - length piece) (acc ++ piece) reads
      end
  end.

Definition read_line (reads : list (result ErrorKind bytes)) : result ErrorKind bytes :=
  line ← read_until_newline FRAME_LIMIT [] reads;
  if negb (utf8_valid line) then Err InvalidData
  else if negb (ends_with [LF] line) then Err InvalidData
  else Ok line.

Definition unanswered (e : ErrorKind) : bool :=
  match e with WouldBlock | TimedOut | BrokenPipe | ConnectionReset => true | _ => false end.

Definition unreadable (at_ : N * N) : bytes :=
  bs "the running diffz could not read the request at line " ++ dec (fst at_)
  ++ bs " column " ++ dec (snd at_).

Definition missing_write_flag (asked granted : Writes) : option bytes :=
  if allow_github asked && negb (allow_github granted) then Some (bs "--allow-github-writes")
  else if allow_gitlab asked && negb (allow_gitlab granted)
  then Some (bs "--allow-gitlab-writes")
  else None.

(** ** Frames *)

Section frames.
Context {json_ : JsonValue} {wire : HandoffJson json_}.

(** One round of the loop of [frame]: [None] when the line is too long. *)
Definition frame_line (m : HandoffMessage) : result AdapterError (option bytes) :=
  b ← ok_or (message_json m) (Message (bs "could not encode handoff request"));
  let b := b ++ [LF] in
  Ok (if (length b <=? FRAME_LIMIT)%nat then Some b else None).

Definition frame (request : option OpenRequest) (writes : Writes) (token : option bytes)
    : result AdapterError bytes :=
  let m := mkMessage VERSION request writes (token ≫= admit_activation_token) in
  let too_long := Err (Message (bs "handoff request exceeds the 65536-byte frame limit")) in
  o ← frame_line m;
  match o with
  | Some b => Ok b
  | None =>
      match activation_token m with
      | None => too_long
      | Some _ =>
          o ← frame_line (without_token m);
          match o with Some b => Ok b | None => too_long end
      end
  end.

(** What a line that was read as the acknowledgement says. *)
Definition ack_outcome (line : bytes) : result AdapterError Outcome :=
  match read_ack line with
  | None => Err (Message (bs "could not read handoff acknowledgement"))
  | Some None => Ok Accepted
  | Some (Some error) => Ok (Refused error)
  end.
End frames.

(** ** Calls *)

Inductive HandoffCall : Type → Type :=
| DirExists : HandoffCall bool
| DirIsSymlink : HandoffCall (result ErrorKind bool)
| CreateDir : HandoffCall (result ErrorKind unit)
| SetDirMode : HandoffCall (result ErrorKind unit)
| OpenLog : HandoffCall (result ErrorKind unit)
| LogLength : HandoffCall (result ErrorKind N)
| EmptyLog : HandoffCall (result ErrorKind unit)
| Connect : HandoffCall (result ErrorKind unit)
| OpenWriterLock : HandoffCall (result ErrorKind unit)
| TryWriterLock : HandoffCall bool
| UnlockWriter : HandoffCall (result ErrorKind unit)
| RemoveSocket : HandoffCall (result ErrorKind unit)
| Now : HandoffCall N
| Sleep (milliseconds : N) : HandoffCall unit
| SetReadTimeout (milliseconds : N) : HandoffCall (result ErrorKind unit)
| SetWriteTimeout (milliseconds : N) : HandoffCall (result ErrorKind unit)
| WriteAll (b : bytes) : HandoffCall (result ErrorKind unit)
| ReadStream : HandoffCall (list (result ErrorKind bytes))
| OpenLaunchLock : HandoffCall (result ErrorKind unit)
| LockLaunch : HandoffCall (result ErrorKind unit)
| Launch (token : option bytes) : HandoffCall (result AdapterError unit)
| OpenWindow : HandoffCall (result AdapterError unit)
| BindSocket : HandoffCall (result ErrorKind unit)
| SetSocketMode : HandoffCall (result ErrorKind unit)
| AcceptConnection : HandoffCall (result ErrorKind unit).

Notation handoff := (prog HandoffCall).

Definition STARTUP : N := 3000.
Definition ACK : N := 10000.
Definition LAUNCH : N := 5000.
Definition PAUSE : N := 50.
Definition LOG_LIMIT : N := 1024 * 1024.

(** [store::private_dir] and [store::in_use]. *)
Definition private_dir : handoff unit :=
  exists_ ← op DirExists;
  linked ← (if exists_ : bool then l ← op DirIsSymlink; try_io l else mret false);
  if linked : bool then throw (Message (bs "state directory cannot be symlinked"))
  else
    c ← op CreateDir; _ ← try_io c;
    m ← op SetDirMode; try_io m.

Definition in_use : handoff bool :=
  lock ← op OpenWriterLock;
  match lock with
  | Err NotFound => mret false
  | Err e => throw (Io e)
  | Ok _ =>
      locked ← op TryWriterLock;
      if negb locked then mret true
      else u ← op UnlockWriter; _ ← try_io u; mret false
  end.

Definition log_path (dir : bytes) : bytes := join_path dir (bs "diffz.log").

Definition log_file : handoff unit :=
  _ ← private_dir;
  f ← op OpenLog; _ ← try_io f;
  l ← op LogLength; len ← try_io l;
  if (LOG_LIMIT <? len)%N then e ← op EmptyLog; try_io e else mret tt.

(** [remove_file], where a missing file is no error. *)
Definition remove_socket : handoff unit :=
  r ← op RemoveSocket;
  match r with
  | Err NotFound | Ok _ => mret tt
  | Err e => throw (Io e)
  end.

(** ** Sending *)

Section sending.
Context {json_ : JsonValue} {wire : HandoffJson json_}.
(** The state directory, and the rounds for which each loop may wait. *)
Context (dir : bytes) (rounds : nat).

(** The loop of [send_within] that connects: [None] once connected. *)
Fixpoint connect_loop (rounds : nat) (deadline : N) : handoff (option Outcome) :=
  match rounds with
  | O => Pending
  | S rounds =>
      c ← op Connect;
      match c with
      | Ok _ => mret None
      | Err NotFound | Err ConnectionRefused =>
          used ← in_use;
          if negb used then _ ← remove_socket; mret (Some NotRunning)
          else
            now ← op Now;
            if (deadline <=? now)%N
            then throw (Message (bs
              "another diffz instance is using this state directory but is not taking requests"))
            else _ ← op (Sleep PAUSE); connect_loop rounds deadline
      | Err InvalidInput =>
          used ← in_use;
          if used : bool
          then throw (Message (bs "another diffz instance is using this state directory, whose path is too long to take requests"))
          else mret (Some NotRunning)
      | Err e => throw (Io e)
      end
  end.

(** The token is taken before the frame is built, so it is not an argument that comes back. *)
Definition exchange (request : option OpenRequest) (writes : Writes) (token : option bytes)
    : handoff Outcome :=
  message ← try_ (frame request writes token);
  w ← op (WriteAll message);
  answer ← match w with
           | Err e => mret (Err e)
           | Ok _ => reads ← op ReadStream; mret (read_line reads)
           end;
  match answer with
  | Ok line => if bool_decide (line = []) then mret Unanswered else try_ (ack_outcome line)
  | Err e =>
      if bool_decide (e = InvalidData) || unanswered e then mret Unanswered else throw (Io e)
  end.

(** [send_within]: its result and what is left of the caller's token. *)
Definition connected : handoff (option Outcome) :=
  now ← op Now;
  c ← connect_loop rounds (now + STARTUP);
  match c with
  | Some o => mret (Some o)
  | None =>
      r ← op (SetReadTimeout ACK); _ ← try_io r;
      w ← op (SetWriteTimeout ACK); _ ← try_io w;
      mret None
  end.
Definition send_within (request : option OpenRequest) (writes : Writes) (token : option bytes)
    : handoff (result AdapterError Outcome * option bytes) :=
  c ← catch connected;
  match c with
  | Err e => mret (Err e, token)
  | Ok (Some o) => mret (Ok o, token)
  | Ok None => o ← catch (exchange request writes token); mret (o, None)
  end.

(** The loop of [settle] that waits for a closing window. *)
Fixpoint settle_loop (rounds : nat) (deadline : N) : handoff (option Delivery) :=
  match rounds with
  | O => Pending
  | S rounds =>
      used ← in_use;
      if negb used then mret None
      else
        now ← op Now;
        if (deadline <=? now)%N
        then throw (Message (bs "the running diffz did not answer in time; try again in a moment"))
        else _ ← op (Sleep PAUSE); settle_loop rounds deadline
  end.
Definition settle (o : Outcome) : handoff (option Delivery) :=
  match o with
  | Accepted => mret (Some HandedOff)
  | Refused message => throw (Message message)
  | NotRunning => mret None
  | Unanswered => now ← op Now; settle_loop rounds (now + STARTUP)
  end.

(** The loop of [deliver_observed] that waits for the new window. *)
Fixpoint listen_loop (rounds : nat) (deadline : N) : handoff unit :=
  match rounds with
  | O => Pending
  | S rounds =>
      c ← op Connect;
      match c with
      | Ok _ | Err InvalidInput => mret tt
      | Err _ =>
          now ← op Now;
          if (deadline <=? now)%N
          then throw (Message (bs "the new diffz window did not start taking requests; see "
                              ++ log_path dir))
          else _ ← op (Sleep PAUSE); listen_loop rounds deadline
      end
  end.

(** The part of [deliver_observed] under the launch lock, which is released when it ends. *)
Definition deliver_locked (request : option OpenRequest) (writes : Writes)
    (token : option bytes) : handoff Delivery :=
  '(o, token) ← send_within request writes token;
  o ← try_ o;
  d ← settle o;
  match d with
  | Some d => mret d
  | None =>
      l ← op (Launch token); _ ← try_ l;
      now ← op Now;
      _ ← listen_loop rounds (now + LAUNCH);
      mret Launched
  end.
Definition deliver (request : option OpenRequest) (writes : Writes) (token : option bytes)
    : handoff Delivery :=
  '(o, token) ← send_within request writes token;
  o ← try_ o;
  d ← settle o;
  match d with
  | Some d => mret d
  | None =>
      _ ← private_dir;
      f ← op OpenLaunchLock; _ ← try_io f;
      l ← op LockLaunch; _ ← try_io l;
      deliver_locked request writes token
  end.

(** [open_or_hand_off]: the opened window or [None], and what is left of the token. *)
Definition open_or_hand_off (request : option OpenRequest) (writes : Writes)
    (token : option bytes) : handoff (result AdapterError (option unit) * option bytes) :=
  opened ← op OpenWindow;
  match opened with
  | Ok w => mret (Ok (Some w), token)
  | Err error =>
      '(o, token) ← send_within request writes token;
      match o with
      | Err e => mret (Err e, token)
      | Ok Accepted => mret (Ok None, token)
      | Ok (Refused message) => mret (Err (Message message), token)
      | Ok NotRunning => again ← op OpenWindow; mret (Some <$> again, token)
      | Ok Unanswered => mret (Err error, token)
      end
  end.
End sending.

(** ** Listening *)

Record Incoming := mkIncoming {
  incoming_request : option OpenRequest; incoming_token : option bytes; accepted_at : N
}.

Section listening.
Context {json_ : JsonValue} {wire : HandoffJson json_}.

Definition bind_listener : handoff unit :=
  _ ← remove_socket;
  b ← op BindSocket; _ ← try_io b;
  m ← op SetSocketMode; try_io m.

(** What [Listener::accept] makes of a line: an error for the sender, or the request. *)
Definition judge (granted : Writes) (line : bytes)
    : result bytes (option OpenRequest * option bytes) :=
  match read_version line with
  | Err at_ => Err (unreadable at_)
  | Ok v =>
      if negb (v =? VERSION)%N
      then Err (bs "the running diffz reads handoff version " ++ dec VERSION ++ bs ", not "
                ++ dec v ++ bs "; restart it")
      else
        match read_message line with
        | Err at_ => Err (unreadable at_)
        | Ok (_, request, asked, token) =>
            match missing_write_flag asked granted with
            | Some flag =>
                Err (bs "the running diffz was started without " ++ flag
                     ++ bs "; close it, then run diffz again with the flag")
            | None => Ok (request, token ≫= optional_activation_token)
            end
        end
  end.

(** [Incoming::reply]; a sender that has gone is ignored. *)
Definition reply (r : result bytes unit) : handoff unit :=
  match ack_json VERSION (match r with Ok _ => None | Err e => Some e end) with
  | None => mret tt
  | Some ack => _ ← op (WriteAll (ack ++ [LF])); mret tt
  end.

Fixpoint accept (rounds : nat) (granted : Writes) : handoff Incoming :=
  match rounds with
  | O => Pending
  | S rounds =>
      a ← op AcceptConnection; _ ← try_io a;
      at_ ← op Now;
      _ ← op (SetReadTimeout 2000);
      _ ← op (SetWriteTimeout 2000);
      reads ← op ReadStream;
      let line := match read_line reads with Ok line => line | Err _ => [] end in
      match judge granted line with
      | Ok (request, token) => mret (mkIncoming request token at_)
      | Err error => _ ← reply (Err error); accept rounds granted
      end
  end.
End listening.
