(* ===== verification/HandoffFacts.v ===== *)
(** * Theorems about the handoff: frames, acknowledgements, the token, waiting *)

From S2P Require Import Prelude RustStr Utf8 Json Process Programs Handoff.

(** What the documentation of [serde_json] says of compact output: one line of UTF-8, read
    back as it was written. *)
Class HandoffLaws {json_ : JsonValue} (wire : HandoffJson json_) : Prop := {
  message_line m b : message_json m = Some b → LF ∉ b ∧ utf8_valid b = true;
  message_version m b : message_json m = Some b → read_version (b ++ [LF]) = Ok (version m);
  message_reads m b : message_json m = Some b →
    read_message (b ++ [LF]) = Ok (version m, request m, writes m, json_str <$> activation_token m);
  ack_line v e a : ack_json v e = Some a → LF ∉ a ∧ utf8_valid a = true;
  ack_reads v e a : ack_json v e = Some a → read_ack (a ++ [LF]) = Some e
}.

#[local] Opaque FRAME_LIMIT.

(** ** Reading a line *)

(** However a line arrives in pieces, it is read whole. *)
Lemma read_pieces limit acc s pieces :
  LF ∉ s → concat pieces = s ++ [LF] → Forall (.≠ []) pieces → (length s < limit)%nat →
  read_until_newline limit acc (Ok <$> pieces) = Ok (acc ++ s ++ [LF]).
Proof.
  revert limit acc s. induction pieces as [|p pieces IH]; intros limit acc s Hs Hc Hne Hl.
  { by destruct s. }
  apply Forall_cons in Hne as [Hp Hne]. cbn [concat] in Hc.
  cbn [fmap list_fmap read_until_newline].
  destruct pieces as [|q pieces].
  - cbn [concat] in Hc. rewrite app_nil_r in Hc. subst p.
    rewrite take_ge by (rewrite length_app; cbn; lia). by rewrite (split_once_app LF [] s [] Hs : split_once [LF] (s ++ [LF]) = _).
  - assert (∃ s', s = p ++ s' ∧ concat (q :: pieces) = s' ++ [LF]) as (s' & -> & Hc').
    { apply app_eq_app in Hc as (l & [[Hpl Hl']|[Hsp Hl']]).
      - subst p. exists []. rewrite app_nil_r. destruct l as [|b l]; [by rewrite app_nil_r|].
        destruct l; [|by destruct l]. injection Hl' as <- Hl'. exfalso.
        inversion Hne as [|? ? Hq]; subst. cbn in Hl'. destruct q; [done|]. done.
      - by exists l. }
    rewrite length_app in Hl. rewrite take_ge by lia.
    apply not_elem_of_app in Hs as [Hs1 Hs2]. rewrite (split_once_None_not_in LF p) by done.
    rewrite bool_decide_false by done.
    rewrite (IH (limit - length p)%nat (acc ++ p) s') by (done || lia).
    by rewrite <- !app_assoc.
Qed.

Lemma read_line_pieces s pieces :
  LF ∉ s → utf8_valid s = true → (length (s ++ [LF]) <= FRAME_LIMIT)%nat →
  concat pieces = s ++ [LF] → Forall (.≠ []) pieces →
  read_line (Ok <$> pieces) = Ok (s ++ [LF]).
Proof.
  intros Hs Hv Hl Hc Hne. unfold read_line. generalize dependent FRAME_LIMIT. intros limit Hl.
  rewrite length_app, Nat.add_comm in Hl.
  rewrite (read_pieces limit [] s pieces Hs Hc Hne Hl).
  cbn [mbind result_bind app]. rewrite utf8_valid_app by (done || by vm_compute).
  by rewrite (proj2 (ends_with_true [LF] (s ++ [LF]))) by by exists s.
Qed.

(** ** Frames *)

Section frames.
Context {json_ : JsonValue} {laws_ : JsonLaws json_} {wire : HandoffJson json_}
  {wire_laws : HandoffLaws wire}.

Lemma admit_Some token t :
  admit_activation_token token = Some t → t = token ∧ admit_activation_token t = Some t.
Proof. unfold admit_activation_token. case_match eqn:E; [|done]. intros [= <-]. by rewrite E. Qed.

Lemma frame_line_Ok m o :
  frame_line m = Ok o → ∃ b, message_json m = Some b ∧
    ((o = Some (b ++ [LF]) ∧ (length (b ++ [LF]) <= FRAME_LIMIT)%nat)
     ∨ (o = None ∧ (FRAME_LIMIT < length (b ++ [LF]))%nat)).
Proof.
  unfold frame_line. intros H. inv_bind H as b Hb. apply ok_or_Ok in Hb. injection H as <-.
  exists b. split; [done|]. destruct (Nat.leb_spec (length (b ++ [LF])) FRAME_LIMIT); [by left|by right].
Qed.

(** The message of a frame: with the admitted token, or without it when the line with it is
    too long. *)
Lemma frame_Ok request writes token b :
  frame request writes token = Ok b →
  ∃ t s, message_json (mkMessage VERSION request writes t) = Some s ∧ b = s ++ [LF] ∧
    (length b <= FRAME_LIMIT)%nat ∧
    (t = token ≫= admit_activation_token ∨
     t = None ∧ ∃ long, message_json (mkMessage VERSION request writes
                          (token ≫= admit_activation_token)) = Some long ∧
                        (FRAME_LIMIT < length (long ++ [LF]))%nat).
Proof.
  unfold frame. intros H. inv_bind H as o Ho.
  apply frame_line_Ok in Ho as (s & Hs & [[-> Hl]|[-> Hl]]); cbn [activation_token] in *.
  - injection H as <-. exists (token ≫= admit_activation_token), s. naive_solver.
  - destruct (token ≫= admit_activation_token) as [t|] eqn:Et; [|done]. inv_bind H as o Ho.
    apply frame_line_Ok in Ho as (s' & Hs' & [[-> Hl']|[-> Hl']]); [|done].
    injection H as <-. exists None, s'. split_and!; [done..|]. right. split; [done|].
    by exists s.
Qed.

Lemma missing_write_flag_None asked granted :
  missing_write_flag asked granted = None ↔
  (allow_github asked = true → allow_github granted = true) ∧
  (allow_gitlab asked = true → allow_gitlab granted = true).
Proof. destruct asked as [[] []], granted as [[] []]; cbn; naive_solver. Qed.

(** C10: A request reaches the running window as it was sent. However the frame arrives in
    pieces, the window reads it whole; a window with the permissions that are asked for gets
    the same request, with the sender's token unless that was not admitted or did not fit in
    the frame, and any other window refuses it and names a flag that it lacks. Whatever the
    window replies, however that arrives, is the outcome the sender sees. *)
Theorem handoff_delivers request writes granted token b pieces :
  frame request writes token = Ok b → concat pieces = b → Forall (.≠ []) pieces →
  read_line (Ok <$> pieces) = Ok b ∧
  match missing_write_flag writes granted with
  | None => ∃ t, judge granted b = Ok (request, t) ∧
      (t = token ≫= admit_activation_token ∨
       t = None ∧ ∃ long, message_json (mkMessage VERSION request writes
                            (token ≫= admit_activation_token)) = Some long ∧
                          (FRAME_LIMIT < length (long ++ [LF]))%nat)
  | Some flag => ∃ before after, judge granted b = Err (before ++ flag ++ after)
  end ∧
  (∀ error a answers, ack_json VERSION error = Some a →
     (length (a ++ [LF]) <= FRAME_LIMIT)%nat →
     concat answers = a ++ [LF] → Forall (.≠ []) answers →
     (read_line (Ok <$> answers) = Ok (a ++ [LF])) ∧
     ack_outcome (a ++ [LF]) = Ok (match error with None => Accepted | Some e => Refused e end)).
Proof.
  intros Hf Hc Hne. apply frame_Ok in Hf as (t & s & Hs & -> & Hl & Ht).
  destruct (message_line _ _ Hs) as [HLF Hv]. split; [by apply read_line_pieces|]. split.
  - unfold judge. rewrite (message_version _ _ Hs), (message_reads _ _ Hs). cbn.
    destruct (missing_write_flag writes granted) as [flag|].
    { by eexists (bs "the running diffz was started without "), _. }
    exists t. split; [|done]. f_equal. f_equal. destruct t as [t|]; [|done]. cbn.
    unfold optional_activation_token. rewrite as_str_str.
    destruct Ht as [Ht|[Ht _]]; [|done]. symmetry in Ht.
    apply bind_Some in Ht as (t' & _ & Ht). by apply admit_Some in Ht as [-> ?].
  - intros error a answers Ha Hla Hca Hna. destruct (ack_line _ _ _ Ha) as [HaLF Hav].
    split; [by apply read_line_pieces|]. unfold ack_outcome. rewrite (ack_reads _ _ _ Ha).
    by destruct error.
Qed.
End frames.

(** ** A wire format for examples: a value's number, in binary digits *)

Definition request_parts (r : OpenRequest) : nat * list bytes :=
  match r with
  | Fixture a => (0, [a])
  | PatchFile a => (1, [a])
  | Remote a b => (2, [a; b])
  | LocalGit a b c => (3, [a; b; c])
  | LocalIndex a => (4, [a])
  | LocalWorktree a => (5, [a])
  | Resume a => (6, [a])
  end.
Definition parts_request (x : nat * list bytes) : option OpenRequest :=
  match x with
  | (0, [a]) => Some (Fixture a)
  | (1, [a]) => Some (PatchFile a)
  | (2, [a; b]) => Some (Remote a b)
  | (3, [a; b; c]) => Some (LocalGit a b c)
  | (4, [a]) => Some (LocalIndex a)
  | (5, [a]) => Some (LocalWorktree a)
  | (6, [a]) => Some (Resume a)
  | _ => None
  end.
#[export] Instance OpenRequest_countable : Countable OpenRequest.
Proof. apply (inj_countable request_parts parts_request). by intros []. Defined.

#[export] Instance HandoffMessage_eq_dec : EqDecision HandoffMessage.
Proof. solve_decision. Defined.
#[export] Instance HandoffMessage_countable : Countable HandoffMessage.
Proof.
  apply (inj_countable'
    (λ m, (version m, request m, allow_github (writes m), allow_gitlab (writes m),
           activation_token m))
    (λ '(v, r, gh, gl, t), mkMessage v r (mkWrites gh gl) t)).
  by intros [? ? [] ?].
Defined.

Fixpoint binary (p : positive) : bytes :=
  match p with
  | xH => []
  | xO p => Byte.x30 :: binary p
  | xI p => Byte.x31 :: binary p
  end.
Fixpoint read_binary (s : bytes) : option positive :=
  match s with
  | [] => None
  | b :: s =>
      if bool_decide (b = LF) then if bool_decide (s = []) then Some xH else None
      else if bool_decide (b = Byte.x30) then xO <$> read_binary s else xI <$> read_binary s
  end.
Lemma read_binary_binary p : read_binary (binary p ++ [LF]) = Some p.
Proof.
  induction p as [p IH|p IH|]; [| |done]; cbn; rewrite IH;
    by repeat first [rewrite bool_decide_false by done|rewrite bool_decide_true by done].
Qed.
Lemma binary_line p : LF ∉ binary p ∧ utf8_valid (binary p) = true.
Proof.
  split.
  - induction p; cbn; [apply not_elem_of_cons; by split..|apply not_elem_of_nil].
  - apply utf8_valid_ascii. induction p; cbn; [by constructor..|constructor].
Qed.

#[export] Instance sample_wire {json_ : JsonValue} : HandoffJson json_ := {|
  message_json m := Some (binary (countable.encode m));
  ack_json _ e := Some (binary (countable.encode e));
  read_version s := ok_or (version <$> (read_binary s ≫= countable.decode)) (1, 1)%N;
  read_message s :=
    ok_or ((λ m, (version m, request m, writes m, json_str <$> activation_token m))
             <$> (read_binary s ≫= countable.decode)) (1, 1)%N;
  read_ack s := read_binary s ≫= countable.decode
|}.
#[export] Instance sample_wire_laws {json_ : JsonValue} : HandoffLaws sample_wire.
Proof.
  split; cbn.
  - intros m b [= <-]. apply binary_line.
  - intros m b [= <-]. by rewrite read_binary_binary; cbn; rewrite countable.decode_encode.
  - intros m b [= <-]. by rewrite read_binary_binary; cbn; rewrite countable.decode_encode.
  - intros _ e a [= <-]. apply binary_line.
  - intros _ e a [= <-]. by rewrite read_binary_binary; cbn; rewrite countable.decode_encode.
Qed.

(** A request for a pull request with a token, in two pieces, to a window that may write. *)
Definition sample_line : bytes :=
  match frame (wire := sample_wire) (Some (PatchFile (bs "p"))) (mkWrites true false)
          (Some (bs "t")) with
  | Ok b => b
  | Err _ => []
  end.
Lemma handoff_delivers_witness :
  (∃ t, judge (wire := sample_wire) (mkWrites true true) sample_line
        = Ok (Some (PatchFile (bs "p")), t)) ∧
  ack_outcome (wire := sample_wire) (binary (countable.encode (Some (bs "no"))) ++ [LF])
  = Ok (Refused (bs "no")).
Proof.
  assert (frame (Some (PatchFile (bs "p"))) (mkWrites true false) (Some (bs "t"))
          = Ok sample_line) as Hf by (vm_compute; reflexivity).
  destruct (handoff_delivers (Some (PatchFile (bs "p"))) (mkWrites true false)
              (mkWrites true true) (Some (bs "t")) sample_line
              [take 10 sample_line; drop 10 sample_line] Hf) as (_ & H & Ha).
  - cbn [concat]. by rewrite app_nil_r, take_drop.
  - constructor; [|constructor; [|constructor]]; by vm_compute.
  - split; [destruct H as (t & Ht & _); by exists t|].
    refine (proj2 (Ha (Some (bs "no")) (binary (countable.encode (Some (bs "no"))))
              [binary (countable.encode (Some (bs "no"))) ++ [LF]] eq_refl _ _ _)).
    + apply Nat.leb_le. by vm_compute.
    + cbn [concat]. by rewrite app_nil_r.
    + constructor; [by vm_compute|constructor].
Defined.

(** ** The activation token *)

(** Every call but those that send or start something. *)
Definition unsent (R : Type) (c : HandoffCall R) : Prop :=
  match c with WriteAll _ | Launch _ => False | _ => True end.

Lemma in_use_unsent : makes unsent in_use.
Proof. unfold in_use. makes_walk. Qed.
Lemma remove_socket_unsent : makes unsent remove_socket.
Proof. unfold remove_socket. makes_walk. Qed.
Lemma private_dir_unsent : makes unsent private_dir.
Proof. unfold private_dir. makes_walk. Qed.
#[local] Hint Resolve in_use_unsent remove_socket_unsent private_dir_unsent : core.
Lemma connect_loop_unsent rounds deadline : makes unsent (connect_loop rounds deadline).
Proof. induction rounds; cbn [connect_loop]; makes_walk. Qed.
Lemma settle_unsent rounds o : makes unsent (settle rounds o).
Proof.
  destruct o; unfold settle; makes_walk. generalize (a + STARTUP)%N. intros deadline.
  induction rounds; cbn [settle_loop]; makes_walk.
Qed.
Lemma listen_loop_unsent dir rounds deadline : makes unsent (listen_loop dir rounds deadline).
Proof. induction rounds; cbn [listen_loop]; makes_walk. Qed.
#[local] Hint Resolve connect_loop_unsent settle_unsent listen_loop_unsent : core.
Lemma connected_unsent rounds : makes unsent (connected rounds).
Proof. unfold connected. makes_walk. Qed.
#[local] Hint Resolve connected_unsent : core.

(** The token that is still to be used: a frame and a launch take it. *)
Section token.
Context {json_ : JsonValue} {wire : HandoffJson json_}.
Context (dir : bytes) (rounds : nat) (request : option OpenRequest) (writes : Writes).

Definition token_pre (held : option bytes) (R : Type) (c : HandoffCall R) : Prop :=
  match c with
  | WriteAll b => frame request writes held = Ok b
  | Launch token => token = held
  | _ => True
  end.
Definition token_next (held : option bytes) (R : Type) (c : HandoffCall R) (r : R)
    : option bytes :=
  match c with WriteAll _ | Launch _ => None | _ => held end.
Definition any_answer (held : option bytes) (R : Type) (c : HandoffCall R) (r : R) : Prop := True.

Notation keeps := (follows token_pre any_answer token_next).

Lemma keeps_unsent {A} Q s (p : prog HandoffCall A) :
  makes unsent p → (∀ o, Q s o) → keeps Q s p.
Proof. intros Hp HQ. apply (makes_follows _ _ _ unsent); [by intros R [] ?|by eauto..]. Qed.

Lemma keeps_exchange Q s :
  (∀ o, Q None o) → (∀ e, Q s (Some (Err e))) → keeps Q s (exchange request writes s).
Proof.
  intros HN Hs. unfold exchange. apply follows_bind.
  destruct (frame request writes s) as [b|e] eqn:Hf; cbn [follows try_]; [|apply Hs].
  apply follows_bind. split; [done|]. intros w _. cbn [follows token_next].
  apply keeps_unsent; [makes_walk|done].
Qed.

Lemma keeps_send Q s :
  (∀ o s', Q s' (Some (Ok (Ok o, s')))) →
  (∀ e s' s'', Q s'' (Some (Ok (Err e, s')))) → (∀ s, Q s None) →
  (∀ s e, Q s (Some (Err e))) →
  keeps Q s (send_within rounds request writes s).
Proof.
  intros H1 H2 H3 H4. unfold send_within. apply follows_bind, follows_catch.
  apply keeps_unsent; [auto|]. intros [[[o|]|e]|]; [apply H1| |apply H2|apply H3].
  cbn [follows fmap option_fmap option_map].
  apply follows_bind, follows_catch, keeps_exchange; [|intros e; apply H2].
  intros [[o|e]|]; [apply H1|apply H2|apply H3].
Qed.

Lemma keeps_settled {B} Q s o (f : option Delivery → prog HandoffCall B) :
  (∀ d, keeps Q s (f d)) → (∀ e, Q s (Some (Err e))) → Q s None →
  keeps Q s (settle rounds o ≫= f).
Proof.
  intros Hf He HN. apply follows_bind, keeps_unsent; [auto|]. intros [[d|e]|]; [apply Hf|apply He|apply HN].
Qed.

(** Ends that the protocol of the token does not restrict. *)
Definition no_end {A} (held : option bytes) (o : option (result AdapterError A)) : Prop := True.

Ltac ends := try solve [intros; exact I].

Lemma keeps_deliver_locked s :
  keeps no_end s (deliver_locked dir rounds request writes s).
Proof.
  unfold deliver_locked. apply follows_bind, keeps_send; ends. intros o s'. cbn [try_].
  apply keeps_settled; ends. intros [d|]; [ends|]. apply follows_bind. split; [done|].
  intros [u|e] _; [|ends]. cbn [follows].
  apply keeps_unsent; [makes_walk|ends].
Qed.

Lemma keeps_deliver s : keeps no_end s (deliver dir rounds request writes s).
Proof.
  unfold deliver. apply follows_bind, keeps_send; ends. intros o s'. cbn [try_].
  apply keeps_settled; ends. intros [d|]; [ends|].
  apply follows_bind, keeps_unsent; [auto|]. intros [[[]|e]|]; [|ends..].
  apply follows_bind. split; [done|]. intros [f|e] _; [|ends].
  apply follows_bind. split; [done|]. intros [l|e] _; [|ends]. apply keeps_deliver_locked.
Qed.

Definition spends (e : event HandoffCall) : bool :=
  match e with @Event _ R c r => match c with WriteAll _ | Launch _ => true | _ => false end end.

Lemma held_after held tr :
  after token_next held tr = if existsb spends tr then None else held.
Proof.
  revert held. induction tr as [|[R c r] tr IH]; intros held; [done|].
  cbn [after existsb]. rewrite IH. destruct c; cbn; by destruct (existsb spends tr).
Qed.

(** The activation token is used at most once. In every run of [deliver], whatever the
    other processes do, the first frame or launch may carry the token and every later one
    carries none: a frame that was cut off, lost or refused does not send it again, and
    neither does the window that is started then. *)
Theorem token_spent_once token tr o before R (c : HandoffCall R) r later :
  run (deliver dir rounds request writes token) tr o → tr = before ++ Event c r :: later →
  let held := if existsb spends before then None else token in
  match c with
  | WriteAll b => frame request writes held = Ok b
  | Launch t => t = held
  | _ => True
  end.
Proof.
  intros Hrun -> held. destruct (follows_run _ _ _ _ _ _ _ _ Hrun (keeps_deliver token))
    as [Hall _]; [by apply admitted_any|].
  apply allowed_at in Hall. rewrite held_after in Hall. by destruct c.
Qed.
End token.

(** ** What a delivery says of the windows that were started *)

Definition unlaunched (R : Type) (c : HandoffCall R) : Prop :=
  match c with Launch _ => False | _ => True end.
Lemma unsent_unlaunched {A} (p : prog HandoffCall A) : makes unsent p → makes unlaunched p.
Proof.
  induction p as [r| |R c k IH]; cbn; [done..|]. intros [Hc Hk]. split; [by destruct c|].
  intros r. by apply IH.
Qed.

Section launches.
Context {json_ : JsonValue} {wire : HandoffJson json_}.
Context (dir : bytes) (rounds : nat) (request : option OpenRequest) (writes : Writes).

(** The windows started so far. *)
Definition launch_next (n : nat) (R : Type) (c : HandoffCall R) : R → nat :=
  match c in HandoffCall R return R → nat with
  | Launch _ => λ r, if is_ok r then S n else n
  | _ => λ _, n
  end.
Definition no_pre (n : nat) (R : Type) (c : HandoffCall R) : Prop := True.
Definition any_reply (n : nat) (R : Type) (c : HandoffCall R) (r : R) : Prop := True.
(** A delivery that handed off started none, one that launched started one. *)
Definition tells (n : nat) (o : option (result AdapterError Delivery)) : Prop :=
  match o with
  | Some (Ok HandedOff) => n = 0
  | Some (Ok Launched) => n = 1
  | _ => True
  end.
Notation counts := (follows no_pre any_reply launch_next).

Lemma counts_unlaunched {A} Q n (p : prog HandoffCall A) :
  makes unlaunched p → (∀ o, Q n o) → counts Q n p.
Proof.
  intros Hp HQ. apply (makes_follows _ _ _ unlaunched); [|done|by right|done].
  intros R c Hc. by destruct c.
Qed.
Lemma send_unlaunched token : makes unlaunched (send_within rounds request writes token).
Proof.
  unfold send_within, exchange. makes_walk; by apply unsent_unlaunched.
Qed.
Lemma counts_settled Q n o (f : option Delivery → prog HandoffCall Delivery) :
  counts Q n (f (Some HandedOff)) → counts Q n (f None) → (∀ e, Q n (Some (Err e))) → Q n None →
  counts Q n (settle rounds o ≫= f).
Proof.
  intros Hs Hn He HN. apply follows_bind.
  destruct o; cbn [settle follows]; [exact Hn|exact Hs|apply He|].
  apply follows_bind. split; [done|]. intros now _. cbn [follows launch_next].
  generalize (now + STARTUP)%N as deadline. clear now. intros deadline.
  induction rounds as [|k IH]; [exact HN|]. cbn [settle_loop]. apply follows_bind.
  apply counts_unlaunched; [by apply unsent_unlaunched|]. intros [[[]|e]|]; [|exact Hn|apply He|exact HN].
  cbn [negb]. apply follows_bind. split; [done|]. intros now _. cbn [follows launch_next].
  destruct (_ <=? _)%N; [apply He|]. apply follows_bind. split; [done|]. intros ? _. exact IH.
Qed.

Lemma delivery_tells token : counts tells 0 (deliver dir rounds request writes token).
Proof.
  assert (∀ t, counts tells 0 (deliver_locked dir rounds request writes t)) as Hlocked.
  { intros t. unfold deliver_locked. apply follows_bind, counts_unlaunched; [apply send_unlaunched|].
    intros [[[[o|e] t']|e]|]; try done. cbn [try_]. apply counts_settled; try done.
    apply follows_bind. split; [done|]. intros [[]|e] _; [|done]. cbn [follows try_ launch_next is_ok].
    apply follows_bind. split; [done|]. intros now _. cbn [follows launch_next].
    apply follows_bind, counts_unlaunched; [by apply unsent_unlaunched|]. by intros [[[]|e]|]. }
  unfold deliver. apply follows_bind, counts_unlaunched; [apply send_unlaunched|].
  intros [[[[o|e] t]|e]|]; try done. cbn [try_]. apply counts_settled; try done.
  apply follows_bind, counts_unlaunched; [by apply unsent_unlaunched|]. intros [[[]|e]|]; try done.
  apply follows_bind. split; [done|]. intros [f|e] _; [|done]. cbn [follows try_io try_ launch_next].
  apply follows_bind. split; [done|]. intros [l|e] _; [|done]. apply Hlocked.
Qed.
End launches.

(** ** Waiting *)

(** The clock never goes back and a sleep lasts at least as long as it says; [s] is a time that
    has been reached. *)
Fixpoint clock_from (s : N) (tr : list (event HandoffCall)) : Prop :=
  match tr with
  | [] => True
  | @Event _ R c r :: tr =>
      match c in HandoffCall R return R → Prop with
      | Now => λ now, (s <= now)%N ∧ clock_from now tr
      | Sleep ms => λ _, clock_from (s + ms) tr
      | _ => λ _, clock_from s tr
      end r
  end.

Definition clock_pre (s : N) (R : Type) (c : HandoffCall R) : Prop := True.
Definition clock_env (s : N) (R : Type) (c : HandoffCall R) : R → Prop :=
  match c in HandoffCall R return R → Prop with Now => λ now, (s <= now)%N | _ => λ _, True end.
Definition clock_next (s : N) (R : Type) (c : HandoffCall R) : R → N :=
  match c in HandoffCall R return R → N with
  | Now => λ now, now
  | Sleep ms => λ _, (s + ms)%N
  | _ => λ _, s
  end.
Lemma clock_admitted s tr : clock_from s tr → admitted clock_env clock_next s tr.
Proof.
  revert s. induction tr as [|[R c r] tr IH]; intros s; [done|].
  destruct c; cbn; try (intros H; split; [done|by apply IH]). intros [H1 H2]. by split; [|apply IH].
Qed.

Definition untimed (R : Type) (c : HandoffCall R) : Prop :=
  match c with Now | Sleep _ => False | _ => True end.
Definition ended {A} (s : N) (o : option (result AdapterError A)) : Prop := is_Some o.
Notation timed := (follows clock_pre clock_env clock_next).

Lemma timed_untimed {A} Q s (p : prog HandoffCall A) :
  makes untimed p → answers p → (∀ r, Q s (Some r)) → timed Q s p.
Proof. intros Hp Ha HQ. apply (makes_follows _ _ _ untimed); [by intros R [] ?|by eauto..]. Qed.

Lemma in_use_untimed : makes untimed in_use ∧ answers in_use.
Proof. unfold in_use. split; [makes_walk|answers_walk]. Qed.
Lemma remove_socket_untimed : makes untimed remove_socket ∧ answers remove_socket.
Proof. unfold remove_socket. split; [makes_walk|answers_walk]. Qed.
Lemma private_dir_untimed : makes untimed private_dir ∧ answers private_dir.
Proof. unfold private_dir. split; [makes_walk|answers_walk]. Qed.

(** What every waiting loop does at the end of a round. *)
Lemma timed_pause {A} Q s n deadline (e : AdapterError) (loop : prog HandoffCall A) :
  (deadline <= s + PAUSE * N.of_nat n)%N → (∀ s r, Q s (Some r)) →
  (∀ s, (1 <= n)%nat → (deadline <= s + PAUSE * N.of_nat (n - 1))%N → timed Q s loop) →
  timed Q s (now ← op Now;
             if (deadline <=? now)%N then throw e else _ ← op (Sleep PAUSE); loop).
Proof.
  intros Hd HQ Hl. apply follows_bind. split; [done|]. intros now Hnow. cbn in Hnow |- *.
  destruct (N.leb_spec deadline now); [apply HQ|]. split; [done|]. intros [] _. cbn.
  unfold PAUSE in *. apply Hl; lia.
Qed.

Lemma timed_connect_loop Q n deadline s :
  (1 <= n)%nat → (deadline <= s + PAUSE * N.of_nat (n - 1))%N → (∀ s r, Q s (Some r)) →
  timed Q s (connect_loop n deadline).
Proof.
  intros Hn Hd HQ. revert s Hn Hd.
  induction n as [|n IH]; intros s Hn Hd; [lia|]. cbn [connect_loop].
  rewrite Nat.sub_succ, Nat.sub_0_r in Hd.
  apply follows_bind. split; [done|]. intros c _. cbn [follows clock_next].
  destruct c as [u|[]]; try (by cbn); try apply HQ;
    apply follows_bind, timed_untimed; try apply in_use_untimed; intros [[]|e]; try apply HQ.
  - apply (timed_pause _ _ n); auto.
  - apply timed_untimed; [unfold remove_socket; makes_walk|unfold remove_socket; answers_walk|done].
  - apply (timed_pause _ _ n); auto.
  - apply timed_untimed; [unfold remove_socket; makes_walk|unfold remove_socket; answers_walk|done].
Qed.

Lemma timed_settle_loop Q n deadline s :
  (1 <= n)%nat → (deadline <= s + PAUSE * N.of_nat (n - 1))%N → (∀ s r, Q s (Some r)) →
  timed Q s (settle_loop n deadline).
Proof.
  intros Hn Hd HQ. revert s Hn Hd.
  induction n as [|n IH]; intros s Hn Hd; [lia|]. cbn [settle_loop].
  rewrite Nat.sub_succ, Nat.sub_0_r in Hd.
  apply follows_bind, timed_untimed; try apply in_use_untimed. intros [[]|e]; try apply HQ.
  apply (timed_pause _ _ n); auto.
Qed.
Lemma timed_listen_loop dir Q n deadline s :
  (1 <= n)%nat → (deadline <= s + PAUSE * N.of_nat (n - 1))%N → (∀ s r, Q s (Some r)) →
  timed Q s (listen_loop dir n deadline).
Proof.
  intros Hn Hd HQ. revert s Hn Hd.
  induction n as [|n IH]; intros s Hn Hd; [lia|]. cbn [listen_loop].
  rewrite Nat.sub_succ, Nat.sub_0_r in Hd.
  apply follows_bind. split; [done|]. intros c _. cbn [follows clock_next].
  destruct c as [u|[]]; try apply HQ; apply (timed_pause _ _ n); auto.
Qed.

Section waiting.
Context {json_ : JsonValue} {wire : HandoffJson json_}.
Context (dir : bytes) (rounds : nat) (request : option OpenRequest) (writes : Writes).
(** Enough rounds for the longest wait. *)
Context (Hrounds : (LAUNCH <= PAUSE * N.of_nat (rounds - 1))%N ∧ (1 <= rounds)%nat).

(** A wait that begins with reading the clock. *)
Lemma timed_deadline {A} Q s (d : N) (loop : N → prog HandoffCall A) :
  (∀ s, timed Q s (loop (s + d)%N)) → timed Q s (now ← op Now; loop (now + d)%N).
Proof. intros Hl. apply follows_bind. split; [done|]. intros now _. apply Hl. Qed.

Lemma startup_enough s : (s + STARTUP <= s + PAUSE * N.of_nat (rounds - 1))%N.
Proof. unfold STARTUP, LAUNCH in *. lia. Qed.

Lemma timed_send Q s token :
  (∀ s r, Q s (Some r)) → timed Q s (send_within rounds request writes token).
Proof.
  intros HQ. unfold send_within. apply follows_bind, follows_catch. unfold connected.
  apply follows_bind. split; [done|]. intros now _. cbn [follows clock_next].
  apply follows_bind, timed_connect_loop; [lia|apply startup_enough|]. intros s' [[o|]|e].
  - apply HQ.
  - apply timed_untimed; [makes_walk|answers_walk|]. intros [[o|]|e]; [apply HQ| |apply HQ].
    apply follows_bind, follows_catch. unfold exchange.
    apply timed_untimed; [makes_walk|answers_walk|]. intros r. apply HQ.
  - apply HQ.
Qed.

Lemma timed_settle {B} Q s o (f : option Delivery → prog HandoffCall B) :
  (∀ s r, Q s (Some r)) → (∀ s d, timed Q s (f d)) → timed Q s (settle rounds o ≫= f).
Proof.
  intros HQ Hf. apply follows_bind. destruct o; cbn [settle];
    [exact (Hf _ _)|exact (Hf _ _)|exact (HQ _ _)|].
  apply (timed_deadline _ _ STARTUP (settle_loop rounds)). intros s'. apply timed_settle_loop; [lia|apply startup_enough|].
  intros s'' [d|e]; [apply Hf|apply HQ].
Qed.

Ltac answered := try solve [intros; eexists; reflexivity].

Lemma timed_deliver_locked s token :
  timed ended s (deliver_locked dir rounds request writes token).
Proof.
  unfold deliver_locked. apply follows_bind, timed_send. intros s1 [[[o|e] t]|e]; answered.
  apply timed_settle; answered. intros s2 [d|]; answered.
  apply follows_bind. split; [done|]. intros [l|e] _; answered. cbn [follows clock_next].
  apply follows_bind. cbn [follows try_].
  apply (timed_deadline _ _ LAUNCH (λ d, _ ← listen_loop dir rounds d; mret Launched)). intros s3.
  apply follows_bind, timed_listen_loop; [lia|lia|]. intros s4 [[]|e]; answered.
Qed.

(** C11: A delivery ends where its calls do. In every run in which each call returns, the one for the
    launch lock, which another process may hold, among them, and the clock runs, [deliver] does not
    wait for ever for a window that does not listen, does not answer or never starts, whatever the
    calls answer: the rounds that cover the longest wait are enough. *)
Theorem deliver_answers token s tr o :
  run (deliver dir rounds request writes token) tr o → clock_from s tr → is_Some o.
Proof using Hrounds.
  intros Hrun Hclock.
  refine (proj2 (follows_run clock_pre clock_env clock_next ended _ tr o s Hrun _
            (clock_admitted _ _ Hclock))).
  unfold deliver. apply follows_bind, timed_send. intros s1 [[[o'|e] t]|e]; answered.
  apply timed_settle; answered. intros s2 [d|]; answered.
  apply follows_bind, timed_untimed; try apply private_dir_untimed. intros [[]|e]; answered.
  apply follows_bind. split; [done|]. intros [f|e] _; answered. cbn [follows clock_next].
  apply follows_bind. cbn [follows try_].
  apply follows_bind. split; [done|]. intros [l|e] _; answered. cbn [follows clock_next].
  apply follows_bind. cbn [follows try_]. apply timed_deliver_locked.
Qed.
End waiting.

(** ** The listener *)

Section listener.
Context {json_ : JsonValue} {wire : HandoffJson json_}.

(** The lines a trace has read ([""] where none could be read) and what it has written. *)
Definition line_read (e : event HandoffCall) : list bytes :=
  match e with
  | @Event _ R c r =>
      match c in HandoffCall R return R → list bytes with
      | ReadStream => λ reads, [match read_line reads with Ok line => line | Err _ => [] end]
      | _ => λ _, []
      end r
  end.
Definition line_written (e : event HandoffCall) : list bytes :=
  match e with @Event _ R c r => match c with WriteAll b => [b] | _ => [] end end.

(** The answer to a line that the listener does not take. *)
Definition refusal (granted : Writes) (line : bytes) : list bytes :=
  match judge granted line with
  | Ok _ => []
  | Err error => match ack_json VERSION (Some error) with Some a => [a ++ [LF]] | None => [] end
  end.

(** The listener serves the first connection that it can take. Every connection before it
    was one whose line it could not take, and each of those got its error as the answer, in
    order; nothing else was written. *)
Theorem accept_answers rounds granted tr inc :
  run (accept rounds granted) tr (Some (Ok inc)) →
  ∃ refused line, tr ≫= line_read = refused ++ [line] ∧
    judge granted line = Ok (incoming_request inc, incoming_token inc) ∧
    Forall (λ l, is_ok (judge granted l) = false) refused ∧
    tr ≫= line_written = refused ≫= refusal granted.
Proof.
  revert tr. induction rounds as [|rounds IH]; intros tr; [by intros [_ ?]|]. cbn [accept].
  intros (r1 & tr1 & -> & H). destruct r1 as [[]|e]; [|by destruct H].
  destruct H as (now & tr3 & -> & r3 & tr4 & -> & r4 & tr5 & -> & reads & tr6 & -> & H).
  cbn [app mbind list_bind line_read line_written].
  set (line := match read_line reads with Ok line => line | Err _ => [] end) in *.
  cbn [prog_bind] in H. change (match read_line reads with Ok line => line | Err _ => [] end)
    with line in H.
  destruct (judge granted line) as [[request token]|error] eqn:Hj.
  - cbn [run mret prog_ret] in H. destruct H as [-> H]. injection H as ->.
    exists [], line. by rewrite Hj.
  - apply run_bind_Ok in H as ([] & trw & tr7 & Hw & H & ->).
    destruct (IH _ H) as (refused & last_ & Hl & Hlast & Hr & Hwr).
    exists (line :: refused), last_.
    assert (trw ≫= line_read = [] ∧ trw ≫= line_written = refusal granted line) as [Hlr Hlw].
    { unfold refusal. rewrite Hj. unfold reply in Hw. destruct (ack_json VERSION (Some error)).
      - destruct Hw as (w & trw' & -> & -> & _). done.
      - by destruct Hw as [-> _]. }
    rewrite !bind_app, Hlr, Hlw, Hl, Hwr. split_and!; [done..|by constructor; [rewrite Hj|]|done].
Qed.
End listener.

(** ** Examples *)

(** A quiet system: no window runs until one is launched; connections bring [lines]. *)
Record Quiet := mkQuiet {
  clock : N; launched : bool; lines : list (list (result ErrorKind bytes))
}.
Definition quiet_answer (s : Quiet) (R : Type) (c : HandoffCall R) : R * Quiet :=
  match c in HandoffCall R return R * Quiet with
  | DirExists => (false, s)
  | DirIsSymlink => (Ok false, s)
  | LogLength => (Ok 0%N, s)
  | Connect => (if launched s then Ok tt else Err NotFound, s)
  | OpenWriterLock => (Err NotFound, s)
  | TryWriterLock => (true, s)
  | Now => (clock s, s)
  | Sleep ms => (tt, mkQuiet (clock s + ms) (launched s) (lines s))
  | ReadStream => (default [] (head (lines s)), mkQuiet (clock s) (launched s) (drop 1 (lines s)))
  | Launch _ => (Ok tt, mkQuiet (clock s) true (lines s))
  | OpenWindow => (Ok tt, s)
  | CreateDir | SetDirMode | OpenLog | EmptyLog | UnlockWriter | RemoveSocket
  | SetReadTimeout _ | SetWriteTimeout _ | WriteAll _ | OpenLaunchLock | LockLaunch
  | BindSocket | SetSocketMode | AcceptConnection => (Ok tt, s)
  end.

Definition sample_delivery : prog HandoffCall Delivery :=
  deliver (wire := sample_wire) (bs "/d") 102 None (mkWrites false false) (Some (bs "t")).
Definition sample_trace : list (event HandoffCall) :=
  (simulate quiet_answer (mkQuiet 7 false []) sample_delivery).1.

(** The token goes to the launched window. *)
Lemma token_spent_once_witness :
  sample_trace !! 13 = Some (Event (Launch (Some (bs "t"))) (Ok tt)) ∧
  existsb spends (take 13 sample_trace) = false ∧ Some (bs "t") = Some (bs "t").
Proof.
  split_and!; [by vm_compute..|].
  refine (token_spent_once (wire := sample_wire) (bs "/d") 102 None (mkWrites false false)
    (Some (bs "t")) sample_trace
    (simulate quiet_answer (mkQuiet 7 false []) sample_delivery).2 (take 13 sample_trace) _
    (Launch (Some (bs "t"))) (Ok tt) (drop 14 sample_trace) (run_simulate _ _ _) _).
  by vm_compute.
Defined.

Lemma deliver_answers_witness :
  is_Some (simulate quiet_answer (mkQuiet 7 false []) sample_delivery).2.
Proof.
  refine (deliver_answers (wire := sample_wire) (bs "/d") 102 None (mkWrites false false) _
    (Some (bs "t")) 7 sample_trace _ (run_simulate _ _ _) _).
  - by split; [vm_compute|lia].
  - vm_compute. repeat split; discriminate.
Defined.

(** One connection is refused, the next is served. *)
Definition sample_hello : bytes :=
  match frame (wire := sample_wire) None (mkWrites false false) None with
  | Ok b => b
  | Err _ => []
  end.
Definition sample_accept : prog HandoffCall Incoming :=
  accept (wire := sample_wire) 9 (mkWrites false false).
Definition sample_system : Quiet := mkQuiet 7 false [[]; [Ok sample_hello]].

Lemma accept_answers_witness :
  (simulate quiet_answer sample_system sample_accept).2 = Some (Ok (mkIncoming None None 7)) ∧
  ∃ refused line,
    (simulate quiet_answer sample_system sample_accept).1 ≫= line_read = refused ++ [line] ∧
    judge (wire := sample_wire) (mkWrites false false) line = Ok (None, None).
Proof.
  assert ((simulate quiet_answer sample_system sample_accept).2
          = Some (Ok (mkIncoming None None 7))) as He by by vm_compute.
  split; [exact He|].
  destruct (accept_answers (wire := sample_wire) 9 (mkWrites false false)
    (simulate quiet_answer sample_system sample_accept).1 (mkIncoming None None 7))
    as (refused & line & H1 & H2 & _).
  - rewrite <- He. apply run_simulate.
  - by exists refused, line.
Defined.
