(* ===== verification/HandoffRuns.v ===== *)
(** * Several invocations at once

    The state directory as the invocations and the windows they start share it: the writer
    lock, the socket, the launch lock. [world_step] interleaves the calls of any number of
    [deliver]s with what the windows do and with processes that are killed. *)

From S2P Require Import Prelude RustStr Utf8 Json Process Programs Handoff HandoffFacts.

(** ** The state directory *)

(** A window that was started, one that holds the writer lock ([Store::open] to its drop), one
    that has gone. *)
Inductive Status := Starting | Holding | Gone.
#[export] Instance Status_eq_dec : EqDecision Status.
Proof. solve_decision. Defined.
Record Window := mkWindow { status : Status; launcher : option nat }.

(** Who holds the writer lock: a window, or an invocation inside [in_use]. *)
Inductive Holder := ByWindow (i : nat) | ByProbe (t : nat).
#[export] Instance Holder_eq_dec : EqDecision Holder.
Proof. solve_decision. Defined.

Record World := mkWorld {
  writer : option Holder;
  lock_file : bool;                    (* [writer.lock] exists *)
  socket : option nat;                 (* the socket file, by the window that bound it *)
  launch_lock : option nat;
  windows : list Window;
  threads : list (prog HandoffCall Delivery)
}.
Definition set_writer h w :=
  mkWorld h (lock_file w) (socket w) (launch_lock w) (windows w) (threads w).
Definition set_lock_file b w :=
  mkWorld (writer w) b (socket w) (launch_lock w) (windows w) (threads w).
Definition set_socket s w :=
  mkWorld (writer w) (lock_file w) s (launch_lock w) (windows w) (threads w).
Definition set_launch_lock l w :=
  mkWorld (writer w) (lock_file w) (socket w) l (windows w) (threads w).
Definition set_windows ws w :=
  mkWorld (writer w) (lock_file w) (socket w) (launch_lock w) ws (threads w).
Definition set_threads ts w :=
  mkWorld (writer w) (lock_file w) (socket w) (launch_lock w) (windows w) ts.
Definition set_status i s w :=
  set_windows (alter (λ v, mkWindow s (launcher v)) i (windows w)) w.

Definition holds (w : World) (i : nat) : Prop := status <$> windows w !! i = Some Holding.
#[export] Instance holds_dec w i : Decision (holds w i).
Proof. unfold holds. apply _. Defined.

(** ** What a call answers *)

Section steps.
(** Whether the state directory's path is too long for a socket. *)
Context (long_path : bool).

(** The answers that the shared state allows to a call of thread [t], and the state after.
    Other errors of the system may happen at any time. *)
Definition call_step (t : nat) (w : World) {R} (c : HandoffCall R) : R → World → Prop :=
  match c in HandoffCall R return R → World → Prop with
  | Connect => λ r w', w' = w ∧
      match r with
      | Ok _ => long_path = false ∧ ∃ i, socket w = Some i ∧ holds w i
      | Err NotFound => long_path = false ∧ socket w = None
      | Err ConnectionRefused => long_path = false ∧ ∃ i, socket w = Some i ∧ ¬ holds w i
      | Err InvalidInput => long_path = true
      | Err _ => True
      end
  | OpenWriterLock => λ r w', w' = w ∧
      match r with
      | Ok _ => lock_file w = true
      | Err NotFound => lock_file w = false
      | Err _ => True
      end
  | TryWriterLock => λ locked w',
      if locked : bool then writer w = None ∧ w' = set_writer (Some (ByProbe t)) w else w' = w
  | UnlockWriter => λ _ w',
      w' = if bool_decide (writer w = Some (ByProbe t)) then set_writer None w else w
  | RemoveSocket => λ r w',
      match r with
      | Ok _ => socket w ≠ None ∧ w' = set_socket None w
      | Err NotFound => socket w = None ∧ w' = w
      | Err _ => w' = w
      end
  | LockLaunch => λ r w',
      match r with
      | Ok _ => launch_lock w = None ∧ w' = set_launch_lock (Some t) w
      | Err _ => w' = w
      end
  | Launch _ => λ r w',
      match r with
      | Ok _ => w' = set_windows (windows w ++ [mkWindow Starting (Some t)]) w
      | Err _ => w' = w
      end
  | _ => λ _ w', w' = w
  end.

Inductive world_step (w : World) : World → Prop :=
| invoke dir rounds json_ (wire : HandoffJson json_) request writes token :
    world_step w (set_threads (threads w ++ [deliver dir rounds request writes token]) w)
| thread_step t R (c : HandoffCall R) k r w' :
    threads w !! t = Some (Op c k) → call_step t w c r w' →
    world_step w (set_threads (<[t := k r]> (threads w')) w')
| thread_ends t r :                    (* its files are closed *)
    threads w !! t = Some (Return r) → launch_lock w = Some t →
    world_step w (set_launch_lock None w)
| thread_killed t R (c : HandoffCall R) k :
    threads w !! t = Some (Op c k) →
    world_step w (set_threads (<[t := Return (Err (Message (bs "killed")))]> (threads w))
      (if bool_decide (writer w = Some (ByProbe t)) then set_writer None w else w))
| window_creates_lock i v :
    windows w !! i = Some v → status v = Starting → world_step w (set_lock_file true w)
| window_takes_lock i v :
    windows w !! i = Some v → status v = Starting → writer w = None →
    world_step w (set_status i Holding (set_lock_file true (set_writer (Some (ByWindow i)) w)))
| window_binds i :                     (* [Listener::bind] *)
    holds w i → long_path = false → world_step w (set_socket (Some i) w)
| window_unbinds i :                   (* the [Drop] of the listener *)
    holds w i → world_step w (set_socket None w)
| window_closes i :
    holds w i → world_step w (set_status i Gone (set_writer None w))
| window_fails i v :
    windows w !! i = Some v → status v = Starting → world_step w (set_status i Gone w).

(** Before the first invocation: windows of earlier times, and perhaps a socket they left. *)
Definition fresh (w : World) : Prop :=
  writer w = None ∧ launch_lock w = None ∧ threads w = [] ∧
  Forall (λ v, status v = Gone) (windows w).
Definition reachable (w : World) : Prop := ∃ w0, fresh w0 ∧ rtc world_step w0 w.
End steps.

(** ** The protocol of one invocation *)

(** Without the launch lock; with it, and whether the writer lock was seen free since; waiting
    for the window it launched; done waiting. *)
Inductive phase := Outside | Inside (seen_free : bool) | Listening | Reached.
#[export] Instance phase_eq_dec : EqDecision phase.
Proof. solve_decision. Defined.

Definition seen (g : phase) : phase := match g with Inside _ => Inside true | _ => g end.

Definition phase_pre (g : phase) (R : Type) (c : HandoffCall R) : Prop :=
  match c with Launch _ => g = Inside true | LockLaunch => g = Outside | _ => True end.
Definition phase_env (g : phase) (R : Type) (c : HandoffCall R) : R → Prop :=
  match c in HandoffCall R return R → Prop with
  | Connect => λ r, r ≠ Err InvalidInput
  | _ => λ _, True
  end.
Definition phase_next (g : phase) (R : Type) (c : HandoffCall R) : R → phase :=
  match c in HandoffCall R return R → phase with
  | OpenWriterLock => λ r, if bool_decide (r = Err NotFound) then seen g else g
  | TryWriterLock => λ locked, if locked : bool then seen g else g
  | LockLaunch => λ r, match r with Ok _ => Inside false | Err _ => g end
  | Launch _ => λ r, match r with Ok _ => Listening | Err _ => g end
  | Connect => λ r,
      match r with Ok _ => if bool_decide (g = Listening) then Reached else g | Err _ => g end
  | _ => λ _, g
  end.
(** An invocation that succeeds does not leave its window unreached. *)
Definition phase_end {A} (g : phase) (o : option (result AdapterError A)) : Prop :=
  match o with Some (Ok _) => g ≠ Listening | _ => True end.

Notation phased := (follows phase_pre phase_env phase_next).

(** Calls that no phase depends on. *)
Definition unphased (R : Type) (c : HandoffCall R) : Prop :=
  match c with
  | OpenWriterLock | TryWriterLock | LockLaunch | Launch _ | Connect => False
  | _ => True
  end.
Lemma phased_unphased {A} Q g (p : prog HandoffCall A) :
  makes unphased p → (∀ o, Q g o) → phased Q g p.
Proof. intros Hp HQ. apply (makes_follows _ _ _ unphased); [by intros R [] ?|by eauto..]. Qed.

(** The phase before a launch: outside, or inside with the lock seen free or not. *)
Definition early (g : phase) : Prop := match g with Outside | Inside _ => True | _ => False end.
Lemma early_seen g : early g → early (seen g).
Proof. by destruct g. Qed.
Lemma seen_seen g : seen (seen g) = seen g.
Proof. by destruct g. Qed.

(** [later g g']: the phase only changed by seeing the lock free. *)
Definition later (g g' : phase) : Prop := g' = g ∨ g' = seen g.
Lemma later_early g g' : early g → later g g' → early g'.
Proof. intros Hg [->| ->]; [done|by apply early_seen]. Qed.
Lemma later_trans g g' g'' : later g g' → later g' g'' → later g g''.
Proof. unfold later. intros [->| ->] [->| ->]; rewrite ?seen_seen; auto. Qed.

Lemma phased_in_use Q g :
  (∀ g', later g g' → Q g' (Some (Ok true)) ∧ ∀ e, Q g' (Some (Err e))) →
  Q (seen g) (Some (Ok false)) → phased Q g in_use.
Proof.
  intros HQ Hf. assert (later g g ∧ later g (seen g)) as [H1 H2] by (unfold later; auto).
  unfold in_use. apply follows_bind. split; [done|]. intros [u|e] _; cbn [follows phase_next].
  - rewrite bool_decide_false by done. apply follows_bind. split; [done|].
    intros [] _; cbn [follows phase_next negb]; [|by apply (HQ g)].
    apply follows_bind. split; [done|]. intros [[]|e] _; cbn [follows phase_next].
    + apply Hf.
    + by apply (HQ (seen g)).
  - case_bool_decide as He; [injection He as ->; exact Hf|]. destruct e; first [by apply (HQ g)|by destruct He].
Qed.

(** How connecting ends: finding no window includes seeing the lock free. *)
Definition found (g g' : phase) (o : option (result AdapterError (option Outcome))) : Prop :=
  later g g' ∧ match o with Some (Ok (Some x)) => x = NotRunning ∧ g' = seen g | _ => True end.

Lemma phased_connect_loop Q n deadline g :
  early g → (∀ g' o, found g g' o → Q g' o) → phased Q g (connect_loop n deadline).
Proof.
  revert g. induction n as [|n IH]; intros g Hg HQ; cbn [connect_loop].
  { apply HQ. split; [by left|done]. }
  assert (Hnr : Q (seen g) (Some (Ok (Some NotRunning)))) by (apply HQ; split; [by right|done]).
  assert (He : ∀ g' e, later g g' → Q g' (Some (Err e))) by (intros; by apply HQ).
  apply follows_bind. split; [done|]. intros c Hc. cbn [follows phase_next].
  assert (Hwait : phased Q g (used ← in_use;
      if negb used then _ ← remove_socket; mret (Some NotRunning)
      else now ← op Now;
           if (deadline <=? now)%N
           then throw (Message (bs "another diffz instance is using this state directory but is not taking requests"))
           else _ ← op (Sleep PAUSE); connect_loop n deadline)).
  { apply follows_bind, phased_in_use.
    - intros g' Hg'. split; [|intros e; by apply He]. cbn [negb].
      apply follows_bind. split; [done|]. intros now _. cbn [follows phase_next].
      destruct (N.leb_spec deadline now); [by apply He|].
      apply follows_bind. split; [done|]. intros [] _. cbn [follows phase_next].
      apply IH; [by eapply later_early|]. intros g'' o [Hg'' Ho]. apply HQ. split.
      + by eapply later_trans.
      + destruct o as [[[x|]|]|]; try done. destruct Ho as [-> ->]. split; [done|].
        destruct Hg' as [->| ->]; [done|by rewrite seen_seen].
    - cbn [negb]. apply follows_bind. unfold remove_socket. apply phased_unphased; [makes_walk|].
      intros [[[]|e]|]; [done|by apply He; right|]. apply HQ. split; [by right|done]. }
  destruct c as [u|e].
  { rewrite bool_decide_false by (by intros ->). apply HQ. split; [by left|done]. }
  destruct e; try exact Hwait; try (by apply He; left); done.
Qed.

Section invocation.
Context {json_ : JsonValue} {wire : HandoffJson json_}.
Context (dir : bytes) (rounds : nat) (request : option OpenRequest) (writes : Writes).

Lemma phased_exchange Q g token :
  (∀ o, o ≠ Some (Ok NotRunning) → Q g o) → phased Q g (exchange request writes token).
Proof.
  intros HQ. unfold exchange. apply follows_bind.
  destruct (frame request writes token) as [b|e]; cbn [follows try_]; [|by apply HQ].
  apply follows_bind. split; [done|]. intros w _. cbn [follows phase_next]. apply follows_bind.
  apply phased_unphased; [makes_walk|]. intros [[[line|e]|e]|]; try by apply HQ.
  - case_bool_decide; [by apply HQ|]. unfold ack_outcome. destruct (read_ack line) as [[]|];
      by apply HQ.
  - destruct (_ || _); by apply HQ.
Qed.

(** How [send_within] ends. *)
Definition sent (g g' : phase)
    (o : option (result AdapterError (result AdapterError Outcome * option bytes))) : Prop :=
  later g g' ∧ match o with Some (Ok (Ok NotRunning, _)) => g' = seen g | _ => True end.

Lemma phased_send Q g token :
  early g → (∀ g' o, sent g g' o → Q g' o) →
  phased Q g (send_within rounds request writes token).
Proof.
  intros Hg HQ. unfold send_within, connected. apply follows_bind, follows_catch, follows_bind.
  split; [done|]. intros now _. cbn [follows phase_next].
  apply follows_bind, phased_connect_loop; [done|]. intros g' o [Hl Ho].
  destruct o as [[[x|]|e]|]; cbv beta iota; [by apply HQ; destruct Ho as [-> ->]| |by apply HQ..].
  apply follows_bind. split; [done|]. intros [r|e] _; [|by apply HQ]. cbn [follows phase_next].
  apply follows_bind. cbn [follows try_io map_err].
  apply follows_bind. split; [done|]. intros [r'|e] _; [|by apply HQ]. cbn [follows phase_next].
  apply follows_bind. cbn [follows try_io map_err mret prog_ret fmap option_fmap option_map].
  apply follows_bind, follows_catch, phased_exchange. intros [[x|e]|] Hx; apply HQ; split; try done.
  by destruct x.
Qed.

(** Whether another window should be started is only said with the lock seen free. *)
Lemma phased_settle {B} Q g o (f : option Delivery → prog HandoffCall B) :
  early g → (o = NotRunning → g = seen g) →
  (∀ g' d, later g g' → phased Q g' (f (Some d))) →
  (∀ g', g' = seen g → phased Q g' (f None)) →
  (∀ g' e, later g g' → Q g' (Some (Err e))) → (∀ g', later g g' → Q g' None) →
  phased Q g (settle rounds o ≫= f).
Proof.
  intros Hg Hnr Hsome Hnone He HN. assert (later g g) as Hgg by by left.
  apply follows_bind. destruct o; cbn [settle].
  - apply (Hnone g). auto.
  - by apply (Hsome g).
  - by apply He.
  - apply follows_bind. split; [done|]. intros now _. cbn [follows phase_next].
    generalize (now + STARTUP)%N. intros deadline.
    assert (∀ n g', later g g' → phased (λ s o, match o with
        | Some (Ok a) => phased Q s (f a) | Some (Err e) => Q s (Some (Err e)) | None => Q s None
        end) g' (settle_loop n deadline)) as Hloop; [|by apply Hloop].
    induction n as [|n IH]; intros g' Hg'; cbn [settle_loop]; [by apply HN|].
    apply follows_bind, phased_in_use.
    + intros g'' Hg''. assert (later g g'') as Hl by by eapply later_trans.
      split; [|intros e; by apply He]. cbn [negb].
      apply follows_bind. split; [done|]. intros now' _. cbn [follows phase_next].
      destruct (N.leb_spec deadline now'); [by apply He|].
      apply follows_bind. split; [done|]. intros [] _. cbn [follows phase_next]. by apply IH.
    + cbn [negb]. apply Hnone. destruct Hg' as [->| ->]; [done|apply seen_seen].
Qed.

Lemma phased_listen_loop Q n deadline :
  Q Reached (Some (Ok tt)) → (∀ g e, Q g (Some (Err e))) → (∀ g, Q g None) →
  phased Q Listening (listen_loop dir n deadline).
Proof.
  intros Hok He HN. induction n as [|n IH]; cbn [listen_loop]; [apply HN|].
  apply follows_bind. split; [done|]. intros [u|e] Hc; cbn [follows phase_next].
  { by rewrite bool_decide_true by done. }
  assert (Hwait : phased Q Listening (now ← op Now;
      if (deadline <=? now)%N
      then throw (Message (bs "the new diffz window did not start taking requests; see "
                          ++ log_path dir))
      else _ ← op (Sleep PAUSE); listen_loop dir n deadline)).
  { apply follows_bind. split; [done|]. intros now _. cbn [follows phase_next].
    destruct (N.leb_spec deadline now); [apply He|].
    apply follows_bind. split; [done|]. intros [] _. exact IH. }
  by destruct e.
Qed.

Lemma phased_deliver_locked b token :
  phased phase_end (Inside b) (deliver_locked dir rounds request writes token).
Proof.
  assert (∀ g (o : option (result AdapterError Delivery)),
    later (Inside b) g → phase_end g o) as Hend by (by intros g [[]|] [->| ->]).
  unfold deliver_locked. apply follows_bind, phased_send; [done|]. intros g o [Hl Ho].
  destruct o as [[[o token']|e]|]; [|by apply Hend..].
  destruct o as [o|e]; [|by apply Hend]. apply follows_bind. cbn [follows try_].
  apply phased_settle.
  - by eapply (later_early (Inside b)).
  - intros ->. subst g. cbn. done.
  - intros g' d Hg'. apply Hend. by eapply later_trans.
  - intros g' ->. apply follows_bind. split.
    { by destruct Hl as [->| ->]. }
    intros [u|e] _; [|done]. cbn [follows phase_next].
    apply follows_bind. cbn [follows try_].
    apply follows_bind. split; [done|]. intros now _. cbn [follows phase_next].
    by apply follows_bind, phased_listen_loop.
  - intros g' e Hg'. done.
  - done.
Qed.

Lemma phased_deliver token : phased phase_end Outside (deliver dir rounds request writes token).
Proof.
  assert (∀ g, later Outside g → g = Outside) as Hout by (by intros g [->| ->]).
  unfold deliver. apply follows_bind, phased_send; [done|]. intros g o [Hl Ho].
  apply Hout in Hl as ->.
  destruct o as [[[o token']|e]|]; [|done..].
  destruct o as [o|e]; [|done]. apply follows_bind. cbn [follows try_].
  apply phased_settle; try done.
  - by intros g' d ->%Hout.
  - intros g' ->. cbn [seen].
    apply follows_bind, phased_unphased; [unfold private_dir; makes_walk|].
    intros [[[]|e]|]; try done.
    apply follows_bind. split; [done|]. intros [f|e] _; [|done]. cbn [follows phase_next].
    apply follows_bind. cbn [follows try_io map_err].
    apply follows_bind. split; [done|]. intros [f'|e] _; [|done]. cbn [follows phase_next].
    apply follows_bind. cbn [follows try_io map_err]. apply phased_deliver_locked.
Qed.
End invocation.

(** ** The invariant *)

(** Some invocation has launched a window and then failed, or waits for ever. *)
Definition stopped (p : prog HandoffCall Delivery) : Prop :=
  match p with Return (Err _) | Pending => True | _ => False end.
Definition gave_up (w : World) : Prop :=
  ∃ i v t p, windows w !! i = Some v ∧ launcher v = Some t ∧ threads w !! t = Some p ∧ stopped p.

Record Inv (gs : list phase) (w : World) : Prop := {
  inv_threads : Forall2 (phased phase_end) gs (threads w);
  inv_lock t g : gs !! t = Some g → g ≠ Outside → launch_lock w = Some t;
  inv_holds i : holds w i → writer w = Some (ByWindow i) ∧ lock_file w = true;
  inv_starting i v : ¬ gave_up w → windows w !! i = Some v → status v = Starting →
    ∃ t, gs !! t = Some Listening ∧ launcher v = Some t;
  inv_free t i v : ¬ gave_up w → gs !! t = Some (Inside true) → windows w !! i = Some v →
    status v = Gone;
  inv_last t i v : ¬ gave_up w → gs !! t = Some Listening → windows w !! i = Some v →
    status v ≠ Gone → S i = length (windows w)
}.

Lemma inv_same_lock gs w t t' g g' :
  Inv gs w → gs !! t = Some g → g ≠ Outside → gs !! t' = Some g' → g' ≠ Outside → t = t'.
Proof.
  intros HI H1 H2 H3 H4. pose proof (inv_lock _ _ HI _ _ H1 H2).
  pose proof (inv_lock _ _ HI _ _ H3 H4). congruence.
Qed.

(** A change that keeps the windows and what concerns the phases. *)
Lemma inv_frame gs gs' w w' :
  Inv gs w → Forall2 (phased phase_end) gs' (threads w') →
  windows w' = windows w → (gave_up w → gave_up w') →
  (∀ i, holds w i → writer w' = Some (ByWindow i) ∧ lock_file w' = true) →
  (∀ t g, gs' !! t = Some g → g ≠ Outside → launch_lock w' = Some t) →
  (∀ t, gs' !! t = Some (Inside true) → gs !! t = Some (Inside true) ∨
        ∀ i v, ¬ gave_up w → windows w !! i = Some v → status v = Gone) →
  (∀ t, gs' !! t = Some Listening → gs !! t = Some Listening) →
  (∀ t, gs !! t = Some Listening → gs' !! t = Some Listening ∨
        ∀ i v, ¬ gave_up w' → windows w !! i = Some v → status v ≠ Starting) →
  Inv gs' w'.
Proof.
  intros HI Ht Hw Hg Hh Hl Hf Hli Hli'. split.
  - done.
  - done.
  - intros i. unfold holds. rewrite Hw. apply Hh.
  - intros i v Hn Hi Hs. rewrite Hw in Hi.
    destruct (inv_starting _ _ HI i v) as (t & Ht1 & Ht2); [by intros ?%Hg|done..|].
    destruct (Hli' t Ht1) as [H|H]; [by exists t|]. by destruct (H i v).
  - intros t i v Hn Hfree Hi. rewrite Hw in Hi.
    destruct (Hf t Hfree) as [H|H]; [|by eapply H; [intros ?%Hg|]].
    eapply (inv_free _ _ HI); [by intros ?%Hg|done..].
  - intros t i v Hn Hlist Hi Hv. rewrite Hw in *.
    eapply (inv_last _ _ HI); [by intros ?%Hg|by apply Hli|done..].
Qed.

(** Phases that no thread changes. *)
Lemma inv_frame_same gs w w' :
  Inv gs w → Forall2 (phased phase_end) gs (threads w') →
  windows w' = windows w → (gave_up w → gave_up w') → launch_lock w' = launch_lock w →
  (∀ i, holds w i → writer w' = Some (ByWindow i) ∧ lock_file w' = true) → Inv gs w'.
Proof.
  intros HI Ht Hw Hg Hl Hh. eapply (inv_frame gs gs w w'); eauto.
  intros t g. rewrite Hl. apply (inv_lock _ _ HI).
Qed.

Lemma gave_up_mono w w' :
  (∀ i v t, windows w !! i = Some v → launcher v = Some t →
     ∃ v', windows w' !! i = Some v' ∧ launcher v' = Some t) →
  (∀ t p, threads w !! t = Some p → stopped p → threads w' !! t = Some p) →
  gave_up w → gave_up w'.
Proof.
  intros Hw Ht (i & v & t & p & Hi & Hv & Hp & Hs).
  destruct (Hw _ _ _ Hi Hv) as (v' & Hi' & Hv'). exists i, v', t, p. auto.
Qed.
Lemma gave_up_thread w ts t p :
  threads w !! t = Some p → ¬ stopped p →
  (∀ t', t' ≠ t → ts !! t' = threads w !! t') →
  gave_up w → gave_up (set_threads ts w).
Proof.
  intros Hp Hns Hts. apply gave_up_mono; [intros i v t' Hi Hv; by exists v|].
  intros t' p' Hp' Hs'. cbn. destruct (decide (t' = t)) as [->|Hne]; [congruence|].
  by rewrite Hts.
Qed.

(** What every call of a thread has in common. *)
Lemma thread_phase gs w t {R} (c : HandoffCall R) k :
  Inv gs w → threads w !! t = Some (Op c k) →
  ∃ g, gs !! t = Some g ∧ phase_pre g R c ∧
       ∀ r, phase_env g R c r →
         Forall2 (phased phase_end) (<[t := phase_next g R c r]> gs) (<[t := k r]> (threads w)).
Proof.
  intros HI Ht. destruct (Forall2_lookup_r _ _ _ _ _ (inv_threads _ _ HI) Ht) as (g & Hg & Hp).
  destruct Hp as [Hpre Hk]. exists g. split_and!; [done..|]. intros r Hr.
  apply Forall2_insert; [apply HI|by apply Hk].
Qed.

(** A phase that has seen the lock free: then no window is left. *)
Lemma seen_free_none gs w t :
  Inv gs w → (∀ i, ¬ holds w i) → gs !! t = Some (Inside false) ∨ gs !! t = Some (Inside true) →
  ∀ i v, ¬ gave_up w → windows w !! i = Some v → status v = Gone.
Proof.
  intros HI Hh Ht i v Hn Hi. destruct (status v) eqn:Hs; [|exfalso|done].
  - destruct (inv_starting _ _ HI i v Hn Hi Hs) as (t' & Ht' & _).
    assert (t = t') as <- by (destruct Ht; by eapply (inv_same_lock gs w)).
    destruct Ht; congruence.
  - apply (Hh i). unfold holds. by rewrite Hi; cbn; rewrite Hs.
Qed.

Lemma lookup_insert_phase (gs : list phase) t g t' g' :
  <[t:=g]> gs !! t' = Some g' → t' = t ∧ g' = g ∨ t' ≠ t ∧ gs !! t' = Some g'.
Proof. rewrite list_lookup_insert_Some. naive_solver. Qed.

(** A call after which no window has changed and the thread's phase has at most become
    [seen]. *)
Lemma inv_seen gs w w' t g :
  Inv gs w → gs !! t = Some g →
  Forall2 (phased phase_end) (<[t:=seen g]> gs) (threads w') →
  (∀ i, ¬ holds w i) → lock_file w' = lock_file w →
  windows w' = windows w → launch_lock w' = launch_lock w → (gave_up w → gave_up w') →
  Inv (<[t:=seen g]> gs) w'.
Proof.
  intros HI Hg Ht Hh Hlf Hw Hl Hgu. eapply (inv_frame gs _ w w'); eauto.
  - intros i Hi. by destruct (Hh i).
  - intros t' g' [[-> ->]|[Hne Hg']]%lookup_insert_phase Ho; rewrite Hl.
    + apply (inv_lock _ _ HI _ _ Hg). by destruct g.
    + by apply (inv_lock _ _ HI _ _ Hg').
  - intros t' [[-> Hs]|[Hne Hg']]%lookup_insert_phase; [|by left]. right.
    apply (seen_free_none gs w t HI Hh). destruct g as [|[]| |]; naive_solver.
  - intros t' [[-> Hs]|[Hne Hg']]%lookup_insert_phase; [|done]. by destruct g.
  - intros t' Hli. left. destruct (decide (t' = t)) as [->|Hne].
    + rewrite list_lookup_insert_eq by (by eapply lookup_lt_Some).
      by rewrite Hg in Hli; injection Hli as ->.
    + by rewrite list_lookup_insert_ne.
Qed.

(** The launch lock is taken: nobody else had it. *)
Lemma inv_take_launch_lock gs w t p :
  Inv gs w → gs !! t = Some Outside → threads w !! t = Some p → launch_lock w = None →
  ∀ ts, Forall2 (phased phase_end) (<[t:=Inside false]> gs) ts →
  (gave_up w → gave_up (set_threads ts (set_launch_lock (Some t) w))) →
  Inv (<[t:=Inside false]> gs) (set_threads ts (set_launch_lock (Some t) w)).
Proof.
  intros HI Hg Hp Hl ts Hts Hgu.
  assert (∀ t' g', gs !! t' = Some g' → g' = Outside) as Hout.
  { intros t' g' Hg'. destruct (decide (g' = Outside)) as [|Hne]; [done|].
    pose proof (inv_lock _ _ HI _ _ Hg' Hne). congruence. }
  eapply (inv_frame gs _ w); eauto.
  - intros i Hi. by apply (inv_holds _ _ HI).
  - intros t' g' [[-> ->]|[Hne Hg']]%lookup_insert_phase Ho; [done|].
    by apply Hout in Hg'.
  - intros t' [[-> Hs]|[Hne Hg']]%lookup_insert_phase; [done|by left].
  - intros t' [[-> Hs]|[Hne Hg']]%lookup_insert_phase; done.
  - intros t' Hli. by apply Hout in Hli.
Qed.

(** The launched window is reached: it is the last one and holds the writer lock. *)
Lemma inv_reached gs w t j ts :
  Inv gs w → gs !! t = Some Listening → holds w j →
  Forall2 (phased phase_end) (<[t:=Reached]> gs) ts → (gave_up w → gave_up (set_threads ts w)) →
  Inv (<[t:=Reached]> gs) (set_threads ts w).
Proof.
  intros HI Hg Hj Hts Hgu. eapply (inv_frame gs _ w); eauto.
  - intros i Hi. by apply (inv_holds _ _ HI).
  - intros t' g' [[-> ->]|[Hne Hg']]%lookup_insert_phase Ho;
      [by apply (inv_lock _ _ HI _ _ Hg)|by apply (inv_lock _ _ HI _ _ Hg')].
  - intros t' [[-> Hs]|[Hne Hg']]%lookup_insert_phase; [done|by left].
  - intros t' [[-> Hs]|[Hne Hg']]%lookup_insert_phase; done.
  - intros t' Hli. right. intros i v Hn Hi Hs.
    assert (¬ gave_up w) as Hn' by (by intros ?%Hgu).
    unfold holds in Hj. destruct (windows w !! j) as [vj|] eqn:Hvj; [|done]. injection Hj as Hj.
    assert (S i = length (windows w)) by (eapply (inv_last _ _ HI); eauto; by rewrite Hs).
    assert (S j = length (windows w)) by (eapply (inv_last _ _ HI); eauto; by rewrite Hj).
    assert (i = j) by lia. congruence.
Qed.

(** A window is launched where none is left. *)
Lemma inv_launch gs w t ts :
  Inv gs w → gs !! t = Some (Inside true) →
  let w' := set_threads ts (set_windows (windows w ++ [mkWindow Starting (Some t)]) w) in
  Forall2 (phased phase_end) (<[t:=Listening]> gs) ts → (gave_up w → gave_up w') →
  Inv (<[t:=Listening]> gs) w'.
Proof.
  intros HI Hg w' Hts Hgu.
  assert (∀ t' g', gs !! t' = Some g' → t' ≠ t → g' = Outside) as Hout.
  { intros t' g' Hg' Hne. destruct (decide (g' = Outside)) as [|Hno]; [done|].
    exfalso. apply Hne. by eapply (inv_same_lock gs w). }
  assert (∀ i v, ¬ gave_up w' → windows w' !! i = Some v → status v ≠ Gone →
            S i = length (windows w') ∧ launcher v = Some t) as Hlast.
  { intros i v Hn Hi Hv. cbn in Hi |- *. rewrite length_app. cbn.
    apply lookup_app_Some in Hi as [Hi|[Hge Hi]].
    - destruct Hv. eapply (inv_free _ _ HI); [by intros ?%Hgu|done..].
    - destruct (i - length (windows w)) as [|n] eqn:E; [|done]. injection Hi as <-.
      split; [lia|done]. }
  split.
  - done.
  - intros t' g' [[-> ->]|[Hne Hg']]%lookup_insert_phase Ho;
      [by apply (inv_lock _ _ HI _ _ Hg)|by apply (inv_lock _ _ HI _ _ Hg')].
  - intros i Hi. apply (inv_holds _ _ HI). unfold holds in *. cbn in Hi.
    rewrite fmap_Some in Hi. destruct Hi as (v & [Hi|[_ Hi]]%lookup_app_Some & Hv);
      [by rewrite Hi; cbn; rewrite Hv|].
    destruct (i - length (windows w)); [|done]. injection Hi as <-. done.
  - intros i v Hn Hi Hs. exists t. rewrite list_lookup_insert_eq by (by eapply lookup_lt_Some).
    split; [done|]. eapply Hlast; [done..|by rewrite Hs].
  - intros t' i v Hn [[-> Hs]|[Hne Hg']]%lookup_insert_phase; [done|].
    by apply Hout in Hg'.
  - intros t' i v Hn _ Hi Hv. by eapply Hlast.
Qed.

(** A call that leaves the phase, the windows and the launch lock. *)
Lemma inv_quiet gs w w' t p ts :
  Inv gs w → threads w !! t = Some p → ¬ stopped p →
  (∀ t', t' ≠ t → ts !! t' = threads w !! t') → Forall2 (phased phase_end) gs ts →
  windows w' = windows w → launch_lock w' = launch_lock w →
  (∀ i, holds w i → writer w' = Some (ByWindow i) ∧ lock_file w' = true) →
  Inv gs (set_threads ts w').
Proof.
  intros HI Hp Hns Hts Hf Hw Hl Hh. apply (inv_frame_same gs w); cbn; try done.
  apply gave_up_mono; cbn.
  - intros i v t' Hi Hv. rewrite Hw. by exists v.
  - intros t' p' Hp' Hs'. destruct (decide (t' = t)) as [->|Hne]; [congruence|]. by rewrite Hts.
Qed.

Lemma inv_call gs w t {R} (c : HandoffCall R) k r w' :
  Inv gs w → threads w !! t = Some (Op c k) → call_step false t w c r w' →
  ∃ gs', Inv gs' (set_threads (<[t := k r]> (threads w')) w').
Proof.
  intros HI Ht Hc. destruct (thread_phase _ _ _ _ _ HI Ht) as (g & Hg & Hpre & Hts).
  assert (phase_env g R c r) as Henv.
  { destruct c; cbn in *; try done. intros ->. by destruct Hc. }
  specialize (Hts r Henv).
  assert (∀ t', t' ≠ t → <[t:=k r]> (threads w) !! t' = threads w !! t') as Hne.
  { intros t' Hn. by rewrite list_lookup_insert_ne. }
  assert (Hh : ∀ i, holds w i → writer w = Some (ByWindow i) ∧ lock_file w = true)
    by apply (inv_holds _ _ HI).
  assert (Hgu : ∀ w1, windows w1 = windows w →
            gave_up w → gave_up (set_threads (<[t:=k r]> (threads w)) w1)).
  { intros w1 Hw1. apply gave_up_mono; [intros i v t' Hi Hv; exists v; cbn; by rewrite Hw1|].
    intros t' p' Hp' Hs'. cbn. destruct (decide (t' = t)) as [->|?]; [|by rewrite Hne].
    rewrite Ht in Hp'. by injection Hp' as <-. }
  assert (Hsame : phase_next g R c r = g → ∀ w1, windows w1 = windows w →
            launch_lock w1 = launch_lock w →
            (∀ i, holds w i → writer w1 = Some (ByWindow i) ∧ lock_file w1 = true) →
            ∃ gs', Inv gs' (set_threads (<[t:=k r]> (threads w)) w1)).
  { intros Hn w1 Hw1 Hl1 Hh1. rewrite Hn, list_insert_id in Hts by done. exists gs.
    apply (inv_quiet gs w w1 t (Op c k)); try done. by intros []. }
  destruct c; cbn in Hc, Hts; try (subst w'; by apply Hsame).
  - (* Connect *) destruct Hc as [-> Hr]. destruct r as [u|e]; [|by apply Hsame].
    destruct (decide (g = Listening)) as [->|Hn].
    + destruct Hr as (_ & j & _ & Hj). exists (<[t:=Reached]> gs).
      apply (inv_reached gs w t j); auto.
    + apply Hsame; [|done..]. cbn. by rewrite bool_decide_false.
  - (* OpenWriterLock *) destruct Hc as [-> Hr]. destruct (decide (r = Err NotFound)) as [->|Hn].
    + exists (<[t:=seen g]> gs). apply (inv_seen gs w _ t g); auto.
      intros i Hi. apply Hh in Hi as [_ ?]. congruence.
    + apply Hsame; [|done..]. cbn. by rewrite bool_decide_false.
  - (* TryWriterLock *) destruct r; [|subst w'; by apply Hsame].
    destruct Hc as [Hfree ->]. exists (<[t:=seen g]> gs). apply (inv_seen gs w _ t g); auto.
    intros i Hi. apply Hh in Hi as [? _]. congruence.
  - (* UnlockWriter *) subst w'. case_bool_decide as Hp; (apply Hsame; [done..|]);
      intros i Hi; cbn; [|by apply Hh]. apply Hh in Hi as [? _]. congruence.
  - (* RemoveSocket *) destruct r as [u|[]]; try (subst w'; by apply Hsame);
      destruct Hc as [_ ->]; by apply Hsame.
  - (* LockLaunch *) destruct r as [u|e]; [|subst w'; by apply Hsame].
    destruct Hc as [Hl ->]. cbn in Hpre. subst g. exists (<[t:=Inside false]> gs).
    eapply (inv_take_launch_lock gs w t); eauto.
  - (* Launch *) destruct r as [u|e]; [|subst w'; by apply Hsame].
    subst w'. cbn in Hpre. subst g. exists (<[t:=Listening]> gs).
    apply inv_launch; [done..|]. apply gave_up_mono.
    + intros i v t' Hi Hv. exists v. cbn. by rewrite (lookup_app_l_Some _ _ _ _ Hi).
    + intros t' p' Hp' Hs'. cbn. destruct (decide (t' = t)) as [->|?]; [|by rewrite Hne].
      rewrite Ht in Hp'. by injection Hp' as <-.
Qed.

(** A step that changes no thread and no phase, and one window at most, which stays launched
    by the same invocation. *)
Lemma set_status_lookup w i s j v :
  windows (set_status i s w) !! j = Some v →
  ∃ v0, windows w !! j = Some v0 ∧ launcher v = launcher v0 ∧
        (j = i ∧ status v = s ∨ j ≠ i ∧ v = v0).
Proof.
  cbn. destruct (decide (j = i)) as [->|Hne].
  - rewrite list_lookup_alter_eq, fmap_Some. intros (v0 & Hv & ->). exists v0. auto.
  - rewrite list_lookup_alter_ne by done. intros Hv. exists v. auto.
Qed.
Lemma set_status_gave_up w i s : gave_up w → gave_up (set_status i s w).
Proof.
  apply gave_up_mono; [|done]. intros j v t Hj Hv. cbn. destruct (decide (j = i)) as [->|Hne].
  - rewrite list_lookup_alter_eq, Hj. by eexists.
  - rewrite list_lookup_alter_ne by done. by exists v.
Qed.

(** A window that was not gone moves on, with the writer lock or without. *)
Lemma inv_window gs w i v s h lf :
  Inv gs w → windows w !! i = Some v → status v ≠ Gone → s ≠ Starting →
  (∀ j, holds (set_status i s w) j → h = Some (ByWindow j) ∧ lf = true) →
  Inv gs (set_status i s (set_lock_file lf (set_writer h w))).
Proof.
  intros HI Hi Hv Hs Hh.
  assert (Hgu : gave_up w → gave_up (set_status i s (set_lock_file lf (set_writer h w)))).
  { intros Hg. by apply (set_status_gave_up w i s) in Hg. }
  split.
  - apply HI.
  - apply (inv_lock _ _ HI).
  - intros j Hj. apply Hh. exact Hj.
  - intros j u Hn Hj Hu. apply (set_status_lookup w) in Hj as (u0 & Hj & Hl & [[-> ?]|[_ ->]]);
      [congruence|]. eapply (inv_starting _ _ HI); [by intros ?%Hgu|done..].
  - intros t j u Hn Ht Hj. exfalso. apply Hv.
    eapply (inv_free _ _ HI); [by intros ?%Hgu|done..].
  - intros t j u Hn Ht Hj Hu. cbn. rewrite length_alter.
    apply (set_status_lookup w) in Hj as (u0 & Hj & Hl & Hcase).
    eapply (inv_last _ _ HI); [by intros ?%Hgu|done..|].
    destruct Hcase as [[-> _]|[_ ->]]; [|done]. rewrite Hi in Hj. by injection Hj as <-.
Qed.

Lemma inv_step gs w w' : Inv gs w → world_step false w w' → ∃ gs', Inv gs' w'.
Proof.
  intros HI Hstep.
  assert (Hh : ∀ i, holds w i → writer w = Some (ByWindow i) ∧ lock_file w = true)
    by apply (inv_holds _ _ HI).
  destruct Hstep as [dir rounds json_ wire request writes token|t R c k r w' Ht Hc|t r Ht Hl
    |t R c k Ht|i v Hi Hs|i v Hi Hs Hw|i Hi Hlong|i Hi|i Hi|i v Hi Hs].
  - exists (gs ++ [Outside]). eapply (inv_frame gs _ w); cbn; try done.
    + apply Forall2_app; [apply HI|]. constructor; [apply phased_deliver|constructor].
    + apply gave_up_mono; cbn; [intros i v t Hi Hv; by exists v|].
      intros t p Hp _. by apply lookup_app_l_Some.
    + intros t g [Hg|[_ Hg]]%lookup_app_Some Ho; [by apply (inv_lock _ _ HI _ g)|].
      apply list_lookup_singleton_Some in Hg as [_ <-]. done.
    + intros t [Hg|[_ Hg]]%lookup_app_Some; [by left|].
      by apply list_lookup_singleton_Some in Hg as [_ ?].
    + intros t [Hg|[_ Hg]]%lookup_app_Some; [done|].
      by apply list_lookup_singleton_Some in Hg as [_ ?].
    + intros t Hg. left. by apply lookup_app_l_Some.
  - by eapply inv_call.
  - destruct (Forall2_lookup_r _ _ _ _ _ (inv_threads _ _ HI) Ht) as (g & Hg & Hend).
    exists (<[t:=Outside]> gs). eapply (inv_frame gs _ w); cbn; try done.
    + rewrite <- (list_insert_id (threads w) t (Return r)) by done.
      apply Forall2_insert; [apply HI|]. by destruct r.
    + intros t' g' [[-> ->]|[Hne Hg']]%lookup_insert_phase Ho; [done|].
      exfalso. apply Hne. pose proof (inv_lock _ _ HI _ _ Hg' Ho). congruence.
    + intros t' [[-> ?]|[Hne Hg']]%lookup_insert_phase; [done|by left].
    + intros t' [[-> ?]|[Hne Hg']]%lookup_insert_phase; done.
    + intros t' Hli. destruct (decide (t' = t)) as [->|Hne].
      * rewrite Hg in Hli. injection Hli as ->. right. intros i v Hn Hi Hs. apply Hn.
        destruct (inv_starting _ _ HI i v) as (t' & Ht' & Hv); [done..|].
        assert (t' = t) as -> by (by eapply (inv_same_lock gs w)).
        exists i, v, t, (Return r). destruct r; done.
      * left. by rewrite list_lookup_insert_ne.
  - exists gs. eapply (inv_quiet gs w _ t); try done.
    + intros [].
    + intros t' Hne. by rewrite list_lookup_insert_ne.
    + destruct (Forall2_lookup_r _ _ _ _ _ (inv_threads _ _ HI) Ht) as (g & Hg & _).
      rewrite <- (list_insert_id gs t g) by done. by apply Forall2_insert; [apply HI|].
    + by case_bool_decide.
    + by case_bool_decide.
    + intros i Hi. case_bool_decide as Hp; [|by apply Hh].
      apply Hh in Hi as [? _]. congruence.
  - exists gs. apply (inv_frame_same gs w); try done; [apply HI|].
    intros j Hj. cbn. by destruct (Hh j Hj).
  - exists gs. apply (inv_window gs w i v); [done..|by rewrite Hs|done|].
    intros j Hj. unfold holds in Hj. rewrite fmap_Some in Hj. destruct Hj as (u & Hj & Hu).
    apply set_status_lookup in Hj as (u0 & Hj & _ & [[-> _]|[_ ->]]); [done|].
    destruct (Hh j) as [Hw' _]; [|congruence]. unfold holds. rewrite Hj. cbn. by rewrite Hu.
  - exists gs. apply (inv_frame_same gs w); try done. apply HI.
  - exists gs. apply (inv_frame_same gs w); try done. apply HI.
  - exists gs. pose proof Hi as Hw. unfold holds in Hi. rewrite fmap_Some in Hi.
    destruct Hi as (v & Hi & Hv).
    refine (inv_window gs w i v Gone None (lock_file w) HI Hi _ _ _); [by rewrite <- Hv|done|].
    intros j Hj. unfold holds in Hj. rewrite fmap_Some in Hj. destruct Hj as (u & Hj & Hu).
    apply set_status_lookup in Hj as (u0 & Hj & _ & [[-> ?]|[Hne ->]]); [congruence|].
    assert (holds w j) as Hhj by (unfold holds; by rewrite Hj; cbn; rewrite Hu).
    apply Hh in Hhj as [? _]. apply Hh in Hw as [? _]. congruence.
  - exists gs.
    refine (inv_window gs w i v Gone (writer w) (lock_file w) HI Hi _ _ _); [by rewrite Hs|done|].
    intros j Hj. unfold holds in Hj. rewrite fmap_Some in Hj. destruct Hj as (u & Hj & Hu).
    apply set_status_lookup in Hj as (u0 & Hj & _ & [[-> ?]|[Hne ->]]); [congruence|].
    apply Hh. unfold holds. by rewrite Hj; cbn; rewrite Hu.
Qed.

Lemma shared_inv w : reachable false w → ∃ gs, Inv gs w.
Proof.
  intros (w0 & (Hw & Hl & Ht & Hg) & Hsteps).
  assert (∃ gs, Inv gs w0) as [gs HI].
  { exists []. rewrite Forall_lookup in Hg. split; try done.
    - by rewrite Ht.
    - intros i Hi. unfold holds in Hi. rewrite fmap_Some in Hi. destruct Hi as (v & Hi & Hv).
      apply Hg in Hi. congruence.
    - intros i v _ Hi Hv. apply Hg in Hi. congruence. }
  clear Hw Hl Ht Hg. revert gs HI. induction Hsteps as [|w0 w1 w Hstep _ IH]; intros gs HI.
  - by exists gs.
  - destruct (inv_step _ _ _ HI Hstep) as [gs' HI']. by apply (IH gs').
Qed.

(** C9: Invocations do not start a window beside another, when the path of the state directory is not
    too long for a socket. Wherever any number of them, the windows and kills may have brought it, an invocation that is about to
    launch a window holds the launch lock, and every window that was launched before has gone,
    unless some invocation gave up waiting for the window it had launched. *)
Theorem one_window_at_a_time w t token k :
  reachable false w → threads w !! t = Some (Op (Launch token) k) →
  launch_lock w = Some t ∧
  (¬ gave_up w → Forall (λ v, status v = Gone) (windows w)).
Proof.
  intros Hr Ht. destruct (shared_inv w Hr) as [gs HI].
  destruct (thread_phase _ _ _ _ _ HI Ht) as (g & Hg & -> & _).
  split; [by apply (inv_lock _ _ HI _ _ Hg)|]. intros Hn. apply Forall_lookup. intros i v Hi.
  by apply (inv_free _ _ HI t i).
Qed.

(** ** Executable runs *)

(** What a call answers when nothing fails. *)
Definition natural (t : nat) (w : World) {R} (c : HandoffCall R) : R * World :=
  match c in HandoffCall R return R * World with
  | DirExists => (true, w)
  | DirIsSymlink => (Ok false, w)
  | LogLength => (Ok 0%N, w)
  | Connect =>
      (match socket w with
       | None => Err NotFound
       | Some i => if decide (holds w i) then Ok tt else Err ConnectionRefused
       end, w)
  | OpenWriterLock => (if lock_file w then Ok tt else Err NotFound, w)
  | TryWriterLock =>
      match writer w with
      | None => (true, set_writer (Some (ByProbe t)) w)
      | Some _ => (false, w)
      end
  | UnlockWriter =>
      (Ok tt, if bool_decide (writer w = Some (ByProbe t)) then set_writer None w else w)
  | RemoveSocket =>
      match socket w with None => (Err NotFound, w) | Some _ => (Ok tt, set_socket None w) end
  | Now => (0%N, w)
  | Sleep _ => (tt, w)
  | ReadStream => ([], w)
  | LockLaunch =>
      match launch_lock w with
      | None => (Ok tt, set_launch_lock (Some t) w)
      | Some _ => (Err OtherKind, w)
      end
  | Launch _ => (Ok tt, set_windows (windows w ++ [mkWindow Starting (Some t)]) w)
  | OpenWindow => (Ok tt, w)
  | CreateDir | SetDirMode | OpenLog | EmptyLog | SetReadTimeout _ | SetWriteTimeout _
  | WriteAll _ | OpenLaunchLock | BindSocket | SetSocketMode | AcceptConnection => (Ok tt, w)
  end.

Lemma natural_step t w {R} (c : HandoffCall R) :
  call_step false t w c (natural t w c).1 (natural t w c).2.
Proof.
  destruct c; cbn; try done.
  - split; [done|]. destruct (socket w) as [i|]; [|done].
    destruct (decide (holds w i)); by split; [|exists i].
  - by destruct (lock_file w).
  - by destruct (writer w).
  - by destruct (socket w).
  - by destruct (launch_lock w).
Qed.

Inductive move := Thread (t : nat) | TakeLock (i : nat) | BindWindow (i : nat).
Definition make_move (w : World) (m : move) : option World :=
  match m with
  | Thread t =>
      match threads w !! t with
      | Some (Op c k) =>
          let '(r, w') := natural t w c in Some (set_threads (<[t := k r]> (threads w')) w')
      | _ => None
      end
  | TakeLock i =>
      match windows w !! i, writer w with
      | Some v, None =>
          if decide (status v = Starting)
          then Some (set_status i Holding (set_lock_file true (set_writer (Some (ByWindow i)) w)))
          else None
      | _, _ => None
      end
  | BindWindow i => if decide (holds w i) then Some (set_socket (Some i) w) else None
  end.
Fixpoint make_moves (ms : list move) (w : World) : option World :=
  match ms with [] => Some w | m :: ms => make_move w m ≫= make_moves ms end.

Lemma make_move_step w m w' : make_move w m = Some w' → world_step false w w'.
Proof.
  destruct m as [t|i|i]; cbn; intros Hm.
  - destruct (threads w !! t) as [[r| |R c k]|] eqn:Ht; try done.
    pose proof (natural_step t w c) as Hn. destruct (natural t w c) as [r w2].
    injection Hm as <-. by apply (thread_step _ _ t R c k r w2).
  - destruct (windows w !! i) as [v|] eqn:Hi; [|done].
    destruct (writer w) eqn:Hw; [done|]. case_decide; [|done]. injection Hm as <-.
    by eapply window_takes_lock.
  - case_decide; [|done]. injection Hm as <-. by apply window_binds.
Qed.
Lemma make_moves_steps ms w w' : make_moves ms w = Some w' → rtc (world_step false) w w'.
Proof.
  revert w. induction ms as [|m ms IH]; intros w; cbn; [by intros [= ->]|].
  intros (w1 & Hm & Hr)%bind_Some. eapply rtc_l; [by eapply make_move_step|by apply IH].
Qed.
Lemma make_moves_default ms w w0 :
  is_Some_b (make_moves ms w) = true → rtc (world_step false) w (default w0 (make_moves ms w)).
Proof.
  destruct (make_moves ms w) as [w'|] eqn:H; [|done]. intros _. by eapply make_moves_steps.
Qed.
Definition launching (p : prog HandoffCall Delivery) : bool :=
  match p with Op c _ => match c with Launch _ => true | _ => false end | _ => false end.
Lemma launching_true p : launching p = true → ∃ token k, p = Op (Launch token) k.
Proof. destruct p as [r| |R c k]; [done..|]. destruct c; try done. intros _. by exists token, k. Qed.

Definition sample_invocation : prog HandoffCall Delivery :=
  deliver (json_ := sample_json) (wire := sample_wire) (bs "/d") 102 None
    (mkWrites false false) None.
(** A window that crashed has left its socket; two invocations begin. *)
Definition crashed : World :=
  mkWorld None true (Some 0) None [mkWindow Gone None] [].
Definition two_invocations : World :=
  set_threads [sample_invocation; sample_invocation] crashed.
Lemma two_invocations_reachable w :
  rtc (world_step false) two_invocations w → reachable false w.
Proof.
  intros H. exists crashed. split; [split_and!; repeat constructor|].
  eapply rtc_l; [apply (invoke false crashed (bs "/d") 102 sample_json sample_wire None
                          (mkWrites false false) None)|].
  eapply rtc_l; [|exact H].
  apply (invoke false (set_threads [sample_invocation] crashed) (bs "/d") 102 sample_json
           sample_wire None (mkWrites false false) None).
Qed.

(** The first invocation alone, up to its launch. *)
Definition about_to_launch : World :=
  default crashed (make_moves (replicate 18 (Thread 0)) two_invocations).
Lemma one_window_at_a_time_witness :
  (∃ token k, threads about_to_launch !! 0 = Some (Op (Launch token) k)) ∧
  launch_lock about_to_launch = Some 0 ∧
  Forall (λ v, status v = Gone) (windows about_to_launch).
Proof.
  assert (∃ token k, threads about_to_launch !! 0 = Some (Op (Launch token) k))
    as (token & k & Hk).
  { assert (launching <$> threads about_to_launch !! 0 = Some true) as H by by vm_compute.
    apply fmap_Some in H as (p & -> & H). symmetry in H.
    apply launching_true in H as (token & k & ->). by exists token, k. }
  split; [by exists token, k|].
  destruct (one_window_at_a_time about_to_launch 0 token k) as [Hl Hg].
  - apply two_invocations_reachable, make_moves_default. by vm_compute.
  - exact Hk.
  - split; [exact Hl|]. apply Hg. intros (i & v & t & p & Hi & Hv & _).
    assert (windows about_to_launch = [mkWindow Gone None]) as Hw by by vm_compute.
    rewrite Hw in Hi. apply list_lookup_singleton_Some in Hi as [_ <-]. discriminate Hv.
Defined.

(** The second invocation finds the crashed window's socket, removes it and starts a window,
    which takes requests; the first had found the same socket before, and removes the socket
    of the new window. *)
Definition window_serves : World :=
  default crashed
    (make_moves (replicate 5 (Thread 0) ++ replicate 19 (Thread 1) ++ [TakeLock 1; BindWindow 1]
                 ++ replicate 2 (Thread 1)) two_invocations).

Definition removing (p : prog HandoffCall Delivery) : bool :=
  match p with Op c _ => match c with RemoveSocket => true | _ => false end | _ => false end.
Lemma removing_true p : removing p = true → ∃ k, p = Op RemoveSocket k.
Proof. destruct p as [r| |R c k]; [done..|]. destruct c; try done. intros _. by exists k. Qed.

(** C14: The removal of a stale socket can hit a live one. There is a run of two invocations in
    which the second has launched a window, which holds the writer lock and takes requests, while
    the first, without the launch lock, is about to remove the socket that it found stale before:
    its removal succeeds and takes away the socket of that window, which goes on holding the lock. *)
Theorem live_socket_removed :
  ∃ w k w', reachable false w ∧ threads w !! 1 = Some (Return (Ok Launched)) ∧
    launcher <$> windows w !! 1 = Some (Some 1) ∧ holds w 1 ∧ socket w = Some 1 ∧
    threads w !! 0 = Some (Op RemoveSocket k) ∧ launch_lock w ≠ Some 0 ∧
    call_step false 0 w RemoveSocket (Ok tt) w' ∧
    holds w' 1 ∧ writer w' = Some (ByWindow 1) ∧ socket w' = None.
Proof.
  assert (∃ k, threads window_serves !! 0 = Some (Op RemoveSocket k)) as [k Hk].
  { assert (removing <$> threads window_serves !! 0 = Some true) as H by by vm_compute.
    apply fmap_Some in H as (p & -> & H). symmetry in H. apply removing_true in H as [k ->]. by exists k. }
  exists window_serves, k, (set_socket None window_serves).
  split; [by apply two_invocations_reachable, make_moves_default; vm_compute|].
  do 4 (split; [by vm_compute|]). split; [exact Hk|]. split; [by vm_compute|].
  split; [split; [by vm_compute|done]|]. by split_and!; vm_compute.
Qed.
