(* ===== verification/EntireContext.v ===== *)
(** * Gates, CI runs and sessions of an Entire Change

    [crates/adapters/src/entire_context.rs] and [entire_sessions.rs]: what the overview says
    about evidence that the server reports. Both only add notices and checks. *)

From S2P Require Import Prelude RustStr Utf8 BTree Overview Json Remote.

Definition set_notices (ns : list bytes) (o : Overview) : Overview :=
  mkOverview (description o) (overview_author o) (decision o) (checks o) ns (captured_at o)
    (conversation o) (releases o) (blame o).
Definition add_check (c : CheckRun) (o : Overview) : Overview :=
  mkOverview (description o) (overview_author o) (decision o) (checks o ++ [c]) (notices o)
    (captured_at o) (conversation o) (releases o) (blame o).

(** [notice], the same in both files. *)
Definition notice (text : bytes) (o : Overview) : Overview :=
  if bool_decide (text ∈ notices o) then o else set_notices (notices o ++ [text]) o.

(** ** Gates *)

(** [serde_json::from_value] of the two structures; an absent optional field is [None]. *)
Record Gate {json_ : JsonValue} := mkGate {
  gate_key : bytes; gate_type : bytes; blocking : option bool; gate_status : option bytes;
  gate_state : option bytes; outcome : option bytes; gate_head_sha : option bytes;
  evaluated_at_sha : option bytes; stale_reason : option bytes; rationale : option bytes;
  not_applicable_reason : option bytes; gate_value : Value
}.
Arguments Gate : clear implicits.
Record CiRun := mkCiRun {
  run_name : bytes; run_status : bytes; run_conclusion : option bytes;
  details_url : option bytes; started_at : option bytes; completed_at : option bytes;
  app_name : option bytes; run_source : option bytes
}.
Class ContextJson {json_ : JsonValue} := {
  gate_of : Value → option (Gate json_);
  run_of : Value → option CiRun
}.
Arguments ContextJson _ : clear implicits.

Definition commit_length (s : bytes) : bool := (length s =? 40)%nat || (length s =? 64)%nat.
Definition same_revision (actual : option bytes) (expected : bytes) : bool :=
  commit_length expected && forallb is_ascii_hexdigit expected
  && match actual with Some sha => eq_ignore_ascii_case sha expected | None => false end.

(** [display_text] of entire_context.rs. *)
Definition display_text (text : bytes) : bytes :=
  join [SPACE] (split_whitespace (encode ((λ c, if is_control c then 32%N else c) <$> chars text))).

(** Status, conclusion, and a reason why a claimed result cannot be used. *)
Definition GateVerdict : Type := bytes * option bytes * option bytes.

Definition is_one_of (s : bytes) (l : list string) : bool := existsb (λ x, bool_decide (s = bs x)) l.
Definition unavailable_because (why : string) : GateVerdict := (bs "unavailable", None, Some (bs why)).

Definition gate_verdict {json_ : JsonValue} (g : Gate json_) (h : bytes) : GateVerdict :=
  let status := default [] (gate_status g) in
  let in_state x := bool_decide (gate_state g = Some (bs x)) in
  let is_status x := bool_decide (status = bs x) in
  if negb (is_one_of status ["passed"; "failed"; "pending"; "error"; "skipped"; "not_applicable"])
  then unavailable_because "its status is unknown"
  else if match gate_state g with
          | None => false
          | Some s => negb (is_one_of s ["evaluated"; "running"; "pending"; "disabled"; "stale";
                                         "not_applicable"])
          end
  then unavailable_because "its evaluation state is unknown"
  else if in_state "not_applicable" || is_status "not_applicable"
  then (bs "completed", Some (bs "not_applicable"), None)
  else if in_state "disabled" || is_status "skipped"
  then (bs "completed", Some (bs "skipped"), None)
  else if in_state "stale"
          || match stale_reason g with
             | Some s => negb (bool_decide (trim s = []))
             | None => false
             end
          || match evaluated_at_sha g with
             | Some sha => negb (same_revision (Some sha) h)
             | None => false
             end
  then (bs "pending", None, Some (bs "its result is stale for the displayed revision"))
  else if negb (same_revision (gate_head_sha g) h)
  then (bs "pending", None, Some (bs "it has no result pinned to the displayed revision"))
  else if in_state "running" then (bs "in_progress", None, None)
  else if is_status "pending" || in_state "pending" then (bs "pending", None, None)
  else if negb (same_revision (evaluated_at_sha g) h)
  then unavailable_because "its evaluation revision is unavailable"
  else if match outcome g with Some o => negb (bool_decide (o = status)) | None => false end
  then unavailable_because "its status and evaluation outcome disagree"
  else if is_status "passed" then (bs "completed", Some (bs "success"), None)
  else if is_status "failed" then (bs "completed", Some (bs "failure"), None)
  else if is_status "error" then (bs "completed", Some (bs "error"), None)
  else unavailable_because "its status is unknown".

(** ** Links *)

(** The bytes after each percent sign that two hexadecimal digits write. *)
Fixpoint escapes_control (s : bytes) : bool :=
  match s with
  | p :: s' =>
      (bool_decide (p = Byte.x25)
       && match s' with
          | a :: b :: _ =>
              match hex_val a, hex_val b with
              | Some hi, Some lo => (hi * 16 + lo <? 32)%N || (hi * 16 + lo =? 127)%N
              | _, _ => false
              end
          | _ => false
          end)
      || escapes_control s'
  | [] => false
  end.

(** The text before the first of some bytes ([split(..).next()]). *)
Fixpoint before_any (stop : byte → bool) (s : bytes) : bytes :=
  match s with
  | [] => []
  | b :: s => if stop b then [] else b :: before_any stop s
  end.

Definition safe_details_url {url_ : UrlParser} (value : bytes) : option bytes :=
  if existsb (λ c, is_control c || is_whitespace c) (chars value) || contains_byte BACKSLASH value
  then None
  else
    '(s, rest) ← split_once (bs "://") value;
    let authority := before_any (λ b, bool_decide (b ∈ bs "/?#")) rest in
    if negb (eq_ignore_ascii_case s (bs "https")) || bool_decide (authority = [])
       || contains_byte Byte.x40 authority
    then None
    else if escapes_control value then None
    else
      u ← parse_url value;
      if bool_decide (scheme u = bs "https") && is_Some_b (host_str u)
         && bool_decide (username u = []) && negb (is_Some_b (password u))
      then Some (url_string u) else None.

Section context.
Context {json_ : JsonValue} {url_ : UrlParser} {context_ : ContextJson json_}.

Definition add_gate (g : Gate json_) (h : bytes) (o : Overview) : Overview :=
  let key := display_text (gate_key g) in
  let name := if bool_decide (key = []) then display_text (gate_type g) else key in
  if bool_decide (name = []) then notice (bs "An Entire gate result did not identify its gate.") o
  else
    let name := if bool_decide (blocking g = Some false) then name ++ bs " (non-blocking)"
                else name in
    let '(status, conclusion, problem) := gate_verdict g h in
    let about s := bs "Entire gate " ++ name ++ bs ": " ++ s in
    let o := match problem with Some p => notice (about (p ++ bs ".")) o | None => o end in
    let o := if bool_decide (conclusion = Some (bs "not_applicable"))
                && bool_decide (not_applicable_reason g = Some (bs "no_changes"))
             then notice (about (bs "no code changes; the gate was not evaluated.")) o else o in
    let o := if bool_decide (conclusion = Some (bs "success")) then o
             else match display_text <$> rationale g with
                  | Some r => if bool_decide (r = []) then o else notice (about r) o
                  | None => o
                  end in
    add_check (mkCheckRun name (bs "Gate") status conclusion
                 (as_str (index (gate_value g) (bs "web_url")) ≫= safe_details_url)) o.

(** What one run's status and conclusion come to; [None] with a notice. *)
Definition run_verdict (r : CiRun) : option (bytes * option bytes) :=
  if bool_decide (run_status r = bs "queued") then Some (bs "queued", None)
  else if bool_decide (run_status r = bs "in_progress") then Some (bs "in_progress", None)
  else if bool_decide (run_status r = bs "completed")
          && match run_conclusion r with
             | Some c => is_one_of c ["success"; "failure"; "neutral"; "skipped"; "cancelled";
                                      "timed_out"; "action_required"; "startup_failure"; "stale"]
             | None => false
             end
  then Some (bs "completed", run_conclusion r)
  else None.
(** A required check that has not run yet. *)
Definition placeholder (r : CiRun) : bool :=
  bool_decide (run_status r = bs "queued") && negb (is_Some_b (started_at r))
  && negb (is_Some_b (completed_at r)) && negb (is_Some_b (run_conclusion r)).
Definition run_provider (r : CiRun) : option bytes :=
  let named := match app_name r with
               | Some s => if bool_decide (trim s = []) then None else Some s
               | None => None
               end in
  let p := match named with Some s => Some s | None => run_source r end in
  match display_text <$> p with
  | Some s => if bool_decide (s = []) then None else Some s
  | None => None
  end.
Definition add_run (available : bool) (v : Value) (o : Overview) : Overview :=
  match run_of v with
  | None => notice (bs "Some Entire CI results could not be read.") o
  | Some r =>
      if negb available && negb (placeholder r) then o
      else
        let name := display_text (run_name r) in
        let name := if bool_decide (name = []) then bs "Unnamed Entire CI check" else name in
        let name := match run_provider r with
                    | Some p => name ++ bs " (" ++ p ++ bs ")"
                    | None => name
                    end in
        let '(status, conclusion, o) :=
          match run_verdict r with
          | Some (s, c) => (s, c, o)
          | None => (bs "unavailable", None,
                     notice (bs "Entire CI check " ++ name
                             ++ bs ": its status or conclusion is unavailable.") o)
          end in
        add_check (mkCheckRun name (bs "Check") status conclusion
                     (details_url r ≫= safe_details_url)) o
  end.

Definition add_runs (checks : Value) (o : Overview) : Overview :=
  let availability := as_str (index checks (bs "availability")) in
  let is_ x := bool_decide (availability = Some (bs x)) in
  let available := is_ "available" in
  let o := if available then o
           else if is_ "unavailable"
           then notice (bs "Entire CI evidence is unavailable for this revision.") o
           else if is_ "not_applicable"
           then notice (bs "Entire reports no applicable CI evidence for this revision.") o
           else notice (bs "Entire did not report a recognized CI availability for this revision.") o in
  match pointer checks (bs "/runs") with
  | None => notice (bs "Entire did not provide a valid CI run list.") o
  | Some v =>
      match (if is_null v then Some [] else as_array v) with
      | None => notice (bs "Entire did not provide a valid CI run list.") o
      | Some runs =>
          let o := if available && bool_decide (length runs = 0%nat)
                   then notice (bs "Entire reports no external CI runs for this revision.") o
                   else o in
          foldl (λ o v, add_run available v o) o runs
      end
  end.

(** [entire_context::apply]. *)
Definition apply_context (mergeability : Value) (expected_head : bytes) (o : Overview) : Overview :=
  if negb (is_object mergeability)
  then notice (bs "Entire did not provide gate and CI results for this revision.") o
  else if negb (same_revision (as_str (index mergeability (bs "head_sha"))) expected_head)
  then notice (bs "Entire gate and CI results are not pinned to the displayed revision; their status is unavailable.") o
  else
    let bad := notice (bs "Entire did not provide a valid gate result list.") in
    let o := match pointer mergeability (bs "/gates") with
             | None => bad o
             | Some v =>
                 match as_array v with
                 | Some gates =>
                     foldl (λ o v, match gate_of v with
                                   | Some g => add_gate g expected_head o
                                   | None => notice (bs "Some Entire gate results could not be read.") o
                                   end) o gates
                 | None => if is_null v then o else bad o
                 end
             end in
    add_runs (index mergeability (bs "checks")) o.
End context.

(** ** Sessions *)

Definition MAX_ROWS : nat := 10.
Definition UNAVAILABLE : bytes := bs "Entire session metadata is unavailable for the captured commit range. Recordings may exist but be inaccessible or not indexed, including in a separate checkpoint repository.".
Definition INCOMPLETE : bytes := bs "Entire session metadata is incomplete; additional sessions may be available. At most 10 summaries are shown.".

(** Directional controls and invisible formatting. *)
Definition formatting (c : N) : bool :=
  (c =? 0x61c)%N || between 0x200b 0x200f c || between 0x202a 0x202e c || between 0x2060 0x2069 c
  || (c =? 0xfeff)%N.
Definition ELLIPSIS : N := 0x2026.

(** The loop of [display_text] of entire_sessions.rs: the characters that are left to scan,
    the text and its length, whether a space is due; the text and whether it was cut. *)
Fixpoint display_loop (limit scan : nat) (out : list N) (len : nat) (pending_space : bool)
    (cs : list N) {struct cs} : list N * bool :=
  match cs with
  | [] => (out, false)
  | c :: cs =>
      match scan with
      | O => (out, true)
      | S scan =>
          if formatting c then display_loop limit scan out len pending_space cs
          else if is_control c || is_whitespace c
          then display_loop limit scan out len (negb (bool_decide (out = []))) cs
          else
            let needed := if pending_space then 2%nat else 1%nat in
            if (limit <? len + needed)%nat then (out, true)
            else display_loop limit scan (out ++ (if pending_space then [32%N] else []) ++ [c])
                   (len + needed) false cs
      end
  end.
Definition display_within (text : bytes) (limit : nat) : bytes :=
  let '(out, cut) := display_loop limit (limit * 4) [] 0 false (chars text) in
  encode (if cut && negb (bool_decide (out = [])) then out ++ [ELLIPSIS] else out).

Section sessions.
Context {json_ : JsonValue}.

Definition field (v : Value) (k : string) : option Value := pointer v (bs "/" ++ bs k).

Record Envelope := mkEnvelope {
  env_sessions : list Value; env_access : bool; env_complete : bool; env_more : bool
}.
Definition Envelope_read (v : Value) : option Envelope :=
  s ← field v "sessions";
  sessions ← (match as_array s with
              | Some rows => Some rows
              | None => if is_null s then Some [] else None
              end);
  c ← field v "next_cursor";
  more ← (match as_str c with
          | Some cursor => Some (negb (bool_decide (cursor = [])))
          | None => if is_null c then Some false else None
          end);
  access ← field v "app_has_access" ≫= as_bool;
  branch ← field v "session_branch_exists" ≫= as_bool;
  complete ← field v "history_complete" ≫= as_bool;
  status ← field v "history_status" ≫= as_str;
  repo ← field v "repo_full_name" ≫= as_str;
  source ← field v "source" ≫= as_str;
  Some (mkEnvelope sessions access
          (complete && bool_decide (status = bs "complete") && branch
           && negb (bool_decide (repo = [])) && negb (bool_decide (source = []))) more).

Definition nullable_text (v : Value) : option (option bytes) :=
  if is_null v then Some None else Some <$> as_str v.

Definition DOT : bytes := [Byte.x20; Byte.xc2; Byte.xb7; Byte.x20].   (* [" · "] *)

Definition session_row (v : Value) : option (bytes * bytes) :=
  raw_id ← field v "sessionId" ≫= as_str;
  let id := display_within raw_id 80 in
  if bool_decide (id = []) then None
  else
    agent ← field v "agent" ≫= nullable_text;
    model ← field v "model" ≫= nullable_text;
    started ← field v "startedAt" ≫= as_str;
    active ← field v "lastActivityAt" ≫= as_str;
    let agent := display_within (default [] agent) 48 in
    let model := display_within (default [] model) 64 in
    let active := display_within active 40 in
    let started := display_within started 40 in
    Some (raw_id,
          bs "Entire session " ++ id
          ++ (if bool_decide (agent = []) then DOT ++ bs "agent unknown" else DOT) ++ agent
          ++ (if bool_decide (model = []) then [] else DOT ++ model)
          ++ (if negb (bool_decide (active = [])) then DOT ++ bs "active " ++ active
              else if negb (bool_decide (started = [])) then DOT ++ bs "started " ++ started
              else [])).

(** The loop over the first ten sessions: rows, and whether any was left out. *)
Fixpoint session_rows (seen : list bytes) (partial : bool) (vs : list Value)
    : list bytes * bool :=
  match vs with
  | [] => ([], partial)
  | v :: vs =>
      match session_row v with
      | None => session_rows seen true vs
      | Some (i, row) =>
          if bool_decide (i ∈ seen) then session_rows seen true vs
          else let '(rows, p) := session_rows (i :: seen) partial vs in (row :: rows, p)
      end
  end.

Definition unavailable_sessions (o : Overview) : Overview := notice UNAVAILABLE o.

(** [entire_sessions::apply]. *)
Definition apply_sessions (response : Value) (o : Overview) : Overview :=
  match Envelope_read response with
  | None => unavailable_sessions o
  | Some e =>
      if negb (env_access e) then unavailable_sessions o
      else
        let partial := negb (env_complete e) || env_more e
                       || (MAX_ROWS <? length (env_sessions e))%nat in
        let '(rows, partial) := session_rows [] partial (take MAX_ROWS (env_sessions e)) in
        if bool_decide (rows = []) then
          if partial : bool
          then notice (bs "Entire has not provided complete session metadata for the captured commit range; no usable summaries are available here. This does not establish that no agent sessions exist.") o
          else notice (bs "Entire reports no indexed sessions linked to the captured commit range. This does not rule out unrecorded or unindexed work.") o
        else
          let o := notice (bs "Entire session summaries linked to the captured commit range (metadata only):") o in
          let o := set_notices (notices o ++ rows) o in
          if partial then notice INCOMPLETE o else o
  end.
End sessions.
