(* ===== verification/EntireContextFacts.v ===== *)
(** * Theorems about Entire's evidence: what a gate, a run or a session may claim *)

From S2P Require Import Prelude RustStr Utf8 BTree Overview Json Remote EntireContext.

(** ** Revisions *)

Lemma same_revision_true o h :
  same_revision o h = true ↔
  commit_length h = true ∧ forallb is_ascii_hexdigit h = true ∧
  ∃ s, o = Some s ∧ to_ascii_lowercase s = to_ascii_lowercase h.
Proof.
  unfold same_revision. rewrite !andb_true_iff. split.
  - intros [[H1 H2] H3]. destruct o as [s|]; [|done]. unfold eq_ignore_ascii_case in H3.
    apply bool_decide_eq_true in H3. naive_solver.
  - intros (H1 & H2 & s & -> & H3). split; [done|]. by apply bool_decide_eq_true.
Qed.

(** What a gate must say for a verdict of success. *)
Definition passed_at {json_ : JsonValue} (g : Gate json_) (h : bytes) : Prop :=
  gate_status g = Some (bs "passed") ∧
  (gate_state g = None ∨ gate_state g = Some (bs "evaluated")) ∧
  same_revision (gate_head_sha g) h = true ∧ same_revision (evaluated_at_sha g) h = true ∧
  (∀ s, stale_reason g = Some s → trim s = []) ∧
  (∀ o, outcome g = Some o → o = bs "passed").

Lemma gate_verdict_success {json_ : JsonValue} (g : Gate json_) h s p :
  gate_verdict g h = (s, Some (bs "success"), p) →
  s = bs "completed" ∧ p = None ∧ passed_at g h.
Proof.
  unfold gate_verdict. cbv zeta.
  destruct (negb (is_one_of _ _)) eqn:E1; [done|].
  match goal with |- (if ?b then _ else _) = _ → _ => destruct b eqn:E2; [done|] end.
  destruct (bool_decide (gate_state g = Some (bs "not_applicable")) || _) eqn:E3; [done|].
  destruct (bool_decide (gate_state g = Some (bs "disabled")) || _) eqn:E4; [done|].
  match goal with |- (if ?b then _ else _) = _ → _ => destruct b eqn:E5; [done|] end.
  destruct (same_revision (gate_head_sha g) h) eqn:E6; [|done]. cbn [negb].
  destruct (bool_decide (gate_state g = Some (bs "running"))) eqn:E7; [done|].
  destruct (bool_decide (default [] (gate_status g) = bs "pending") || _) eqn:E8; [done|].
  destruct (same_revision (evaluated_at_sha g) h) eqn:E9; [|done]. cbn [negb].
  match goal with |- (if ?b then _ else _) = _ → _ => destruct b eqn:E10; [done|] end.
  destruct (bool_decide (default [] (gate_status g) = bs "passed")) eqn:E11.
  2:{ by repeat (match goal with |- (if ?b then _ else _) = _ → _ => destruct b; try done end). }
  intros [= <- <-]. apply bool_decide_eq_true in E11.
  repeat match goal with
    | H : _ || _ = false |- _ => apply orb_false_iff in H as [? ?]
    | H : bool_decide _ = false |- _ => apply bool_decide_eq_false in H
    end.
  assert (gate_state g = None ∨ gate_state g = Some (bs "evaluated")) as Hstate.
  { destruct (gate_state g) as [st|] eqn:Es; [|by left]. right. apply negb_false_iff in E2.
    unfold is_one_of in E2. cbn [existsb] in E2. rewrite !orb_true_iff, !bool_decide_eq_true in E2.
    destruct E2 as [-> |[-> |[-> |[-> |[-> |[-> |?]]]]]]; done. }
  split_and!; try done. split_and!; try done.
  - destruct (gate_status g); [by f_equal|done].
  - intros r Hr. match goal with H : match stale_reason g with _ => _ end = false |- _ =>
      rewrite Hr in H; by apply negb_false_iff, bool_decide_eq_true in H end.
  - intros o Ho. rewrite Ho in E10. apply negb_false_iff, bool_decide_eq_true in E10. congruence.
Qed.

(** ** Links *)

(** A link that is kept: [https], to a host, without credentials, and no escape of a control
    character in it. *)
Lemma safe_details_url_Some {url_ : UrlParser} value s :
  safe_details_url value = Some s →
  escapes_control value = false ∧
  ∃ u, parse_url value = Some u ∧ s = url_string u ∧ scheme u = bs "https" ∧ username u = [] ∧
       password u = None ∧ is_Some_b (host_str u) = true.
Proof.
  unfold safe_details_url. destruct (_ || contains_byte _ _); [done|].
  destruct (split_once _ value) as [[a b]|]; [|done]. cbn [mbind option_bind]. cbv zeta.
  destruct (_ || _ || _); [done|]. destruct (escapes_control value); [done|].
  destruct (parse_url value) as [u|] eqn:Eu; [|done]. cbn [mbind option_bind].
  destruct (_ && _ && _ && _) eqn:E; [|done]. intros [= <-]. split; [done|]. exists u.
  apply andb_true_iff in E as [[[E1 E2]%andb_true_iff E3]%andb_true_iff E4].
  to_prop. split_and!; try done. by destruct (password u).
Qed.

(** ** Checks *)

Section context.
Context {json_ : JsonValue} {url_ : UrlParser} {context_ : ContextJson json_}.

(** What [foldl] keeps when every step keeps it. *)
Lemma foldl_keeps {A B} (P : A → Prop) (f : A → B → A) l a :
  (∀ a b, b ∈ l → P a → P (f a b)) → P a → P (foldl f a l).
Proof.
  revert a. induction l as [|b l IH]; intros a Hf Ha; [done|]. cbn. apply IH.
  - intros a' b' Hb'. apply Hf. by right.
  - apply Hf; [by left|done].
Qed.

Lemma checks_notice t o : checks (notice t o) = checks o.
Proof. unfold notice. by case_bool_decide. Qed.
Lemma checks_if (b : bool) t o : checks (if b then notice t o else o) = checks o.
Proof. destruct b; [apply checks_notice|done]. Qed.

Definition gate_values (m : Value) : list Value :=
  default [] (v ← pointer m (bs "/gates"); as_array v).
Definition run_values (m : Value) : list Value :=
  default [] (v ← pointer (index m (bs "checks")) (bs "/runs"); as_array v).

(** What a shown check rests on. *)
Definition gate_backed (m : Value) (h : bytes) (c : CheckRun) : Prop :=
  ∃ v g, v ∈ gate_values m ∧ gate_of v = Some g ∧ check_kind c = bs "Gate" ∧
    (check_status c, conclusion c) = (gate_verdict g h).1 ∧
    ∀ s, check_url c = Some s → ∃ value, safe_details_url value = Some s.
Definition run_backed (m : Value) (c : CheckRun) : Prop :=
  ∃ v r, v ∈ run_values m ∧ run_of v = Some r ∧ check_kind c = bs "Check" ∧
    (conclusion c = None ∨
     as_str (index (index m (bs "checks")) (bs "availability")) = Some (bs "available") ∧
     run_status r = bs "completed" ∧ conclusion c = run_conclusion r) ∧
    ∀ s, check_url c = Some s → ∃ value, safe_details_url value = Some s.

Lemma add_gate_checks g h o :
  checks (add_gate g h o) = checks o ∨
  ∃ c, checks (add_gate g h o) = checks o ++ [c] ∧ check_kind c = bs "Gate" ∧
       (check_status c, conclusion c) = (gate_verdict g h).1 ∧
       ∀ s, check_url c = Some s → ∃ value, safe_details_url value = Some s.
Proof.
  unfold add_gate. cbv zeta. case_bool_decide; [left; apply checks_notice|]. right.
  destruct (gate_verdict g h) as [[st co] problem]. eexists. split.
  - unfold add_check at 1. cbn [checks]. f_equal.
    repeat first [rewrite checks_notice|case_match]; reflexivity.
  - split; [done|]. split; [done|]. intros s. cbn. destruct (as_str _) as [raw|]; [|done].
    cbn [mbind option_bind]. by exists raw.
Qed.

Lemma add_run_checks available v o :
  checks (add_run available v o) = checks o ∨
  ∃ c r, checks (add_run available v o) = checks o ++ [c] ∧ run_of v = Some r ∧
       check_kind c = bs "Check" ∧
       (conclusion c = None ∨
        available = true ∧ run_status r = bs "completed" ∧ conclusion c = run_conclusion r) ∧
       ∀ s, check_url c = Some s → ∃ value, safe_details_url value = Some s.
Proof.
  unfold add_run. destruct (run_of v) as [r|] eqn:Er; [|left; apply checks_notice].
  destruct (negb available && negb (placeholder r)) eqn:Ea; [by left|]. right. cbv zeta.
  assert (∀ s, (details_url r ≫= safe_details_url) = Some s →
               ∃ value, safe_details_url value = Some s) as Hurl.
  { intros s. destruct (details_url r) as [raw|]; [|done]. cbn [mbind option_bind]. by exists raw. }
  destruct (run_verdict r) as [[st co]|] eqn:Ev.
  2:{ eexists _, r. split; [unfold add_check; cbn [checks]; f_equal; apply checks_notice|].
      split_and!; [done..|by left|exact Hurl]. }
  eexists _, r. split; [reflexivity|]. split_and!; [done..| |exact Hurl]. cbn [conclusion].
  unfold run_verdict in Ev. destruct (bool_decide (run_status r = bs "queued")) eqn:E1.
  { injection Ev as <- <-. by left. }
  destruct (bool_decide (run_status r = bs "in_progress")); [injection Ev as <- <-; by left|].
  match type of Ev with (if ?b then _ else _) = _ => destruct b eqn:E2; [|done] end.
  injection Ev as <- <-. right.
  apply andb_true_iff in E2 as [E2%bool_decide_eq_true _]. split_and!; [|exact E2|reflexivity].
  destruct available; [done|]. cbn [negb andb] in Ea. unfold placeholder in Ea. by rewrite E1 in Ea.
Qed.

Lemma add_runs_backed m o c :
  c ∈ checks (add_runs (index m (bs "checks")) o) → c ∈ checks o ∨ run_backed m c.
Proof.
  unfold add_runs. cbv zeta. set (v := index m (bs "checks")).
  match goal with |- context [match pointer v _ with _ => _ end] => idtac end.
  set (available := bool_decide (as_str (index v (bs "availability")) = Some (bs "available"))).
  match goal with |- c ∈ checks (match _ with Some _ => _ | None => notice _ ?o1 end) → _ =>
    assert (checks o1 = checks o) as Ho1 by (repeat first [rewrite checks_notice|case_match]; done);
    revert Ho1; generalize o1; intros o' Ho' end.
  destruct (pointer v (bs "/runs")) as [runs|] eqn:Er; [|rewrite checks_notice, Ho'; by left].
  destruct (if is_null runs then Some [] else as_array runs) as [vs|] eqn:Evs;
    [|rewrite checks_notice, Ho'; by left].
  assert (∀ x, x ∈ vs → x ∈ run_values m) as Hvs.
  { intros x Hx. unfold run_values. fold v. rewrite Er. cbn.
    destruct (is_null runs); [by injection Evs as <-; apply elem_of_nil in Hx|by rewrite Evs]. }
  intros Hc. revert c Hc.
  apply (foldl_keeps (λ o', ∀ c, c ∈ checks o' → c ∈ checks o ∨ run_backed m c));
    [|intros c; rewrite checks_if, Ho'; by left].
  intros o1 x Hx IH c Hc.
  destruct (add_run_checks available x o1) as [E| (c' & r & E & Hr & Hk & Hcon & Hurl)];
    rewrite E in Hc; [by apply IH|].
  apply elem_of_app in Hc as [Hc| ->%list_elem_of_singleton]; [by apply IH|]. right.
  exists x, r. split_and!; [by apply Hvs|done..| |done].
  destruct Hcon as [?|(Ha & ? & ?)]; [by left|right]. by apply bool_decide_eq_true in Ha.
Qed.

(** C18: A check that the context of a Change adds is backed by evidence pinned to the displayed
    revision: it shows the verdict on a gate that the server listed for this head, or a run of
    its list, whose conclusion it shows only from completed runs of available evidence. A gate
    is shown as successful only when the server passed it at exactly this revision and nothing
    says that the result is stale. Links are checked addresses. *)
Theorem evidence_pinned m h o c :
  c ∈ checks (apply_context m h o) →
  c ∈ checks o ∨
  same_revision (as_str (index m (bs "head_sha"))) h = true ∧
  (gate_backed m h c ∨ run_backed m c) ∧
  (check_kind c = bs "Gate" → conclusion c = Some (bs "success") →
   ∃ v g, v ∈ gate_values m ∧ gate_of v = Some g ∧ passed_at g h).
Proof.
  unfold apply_context. destruct (negb (is_object m)); [rewrite checks_notice; by left|].
  destruct (same_revision _ h) eqn:Eh; cbn [negb]; [|rewrite checks_notice; by left]. cbv zeta.
  intros Hc.
  assert (c ∈ checks o ∨ gate_backed m h c ∨ run_backed m c) as [?|Hb]; [|by left|].
  2:{ right. split; [done|]. split; [done|]. intros Hk Hs. destruct Hb as [Hb|Hb].
      - destruct Hb as (v & g & Hv & Hg & _ & Hverdict & _). exists v, g. split; [done|].
        split; [done|]. destruct (gate_verdict g h) as [[st co] p] eqn:Eg. rewrite Hs in Hverdict.
        injection Hverdict as _ <-. by apply gate_verdict_success in Eg as (_ & _ & ?).
      - destruct Hb as (_ & _ & _ & _ & Hk' & _). by rewrite Hk' in Hk. }
  apply add_runs_backed in Hc as [Hc|?]; [|by right; right].
  destruct (pointer m (bs "/gates")) as [gates|] eqn:Eg; [|rewrite checks_notice in Hc; by left].
  destruct (as_array gates) as [vs|] eqn:Evs.
  2:{ destruct (is_null gates); [|rewrite checks_notice in Hc]; by left. }
  revert c Hc.
  apply (foldl_keeps (λ o', ∀ c, c ∈ checks o' → c ∈ checks o ∨ gate_backed m h c ∨ run_backed m c));
    [|by left].
  intros o' v Hv IH c Hc. destruct (gate_of v) as [g|] eqn:Egv.
  2:{ rewrite checks_notice in Hc. by apply IH. }
  destruct (add_gate_checks g h o') as [E|(c' & E & Hk & Hver & Hurl)];
    rewrite E in Hc; [by apply IH|].
  apply elem_of_app in Hc as [Hc| ->%list_elem_of_singleton]; [by apply IH|]. right. left.
  exists v, g. split_and!; [|done..]. unfold gate_values. by rewrite Eg; cbn; rewrite Evs.
Qed.
End context.

(** ** Text that may be shown *)

(** No control, no invisible or directional formatting, and no white space but the space. *)
Definition shown (c : N) : bool :=
  negb (formatting c) && negb (is_control c) && (negb (is_whitespace c) || (c =? 32)%N).

Lemma display_loop_shown limit scan out len pending cs r cut :
  display_loop limit scan out len pending cs = (r, cut) →
  length out = len → (len <= limit)%nat → Forall (λ c, shown c = true) out →
  last out ≠ Some 32%N → out !! 0%nat ≠ Some 32%N → (pending = true → out ≠ []) →
  (length r <= limit)%nat ∧ Forall (λ c, shown c = true) r ∧
  last r ≠ Some 32%N ∧ r !! 0%nat ≠ Some 32%N.
Proof.
  revert scan out len pending. induction cs as [|c cs IH]; intros scan out len pending H Hlen Hle Hs Hl Hh Hp;
    cbn [display_loop] in H.
  { injection H as <- <-. subst. done. }
  destruct scan as [|scan]; [injection H as <- <-; by subst|].
  destruct (formatting c) eqn:Ef; [by eapply IH|].
  destruct (is_control c || is_whitespace c) eqn:Ec.
  { eapply IH; try done. rewrite negb_true_iff. by intros ?%bool_decide_eq_false. }
  apply orb_false_iff in Ec as [Ec Ew]. cbv zeta in H.
  destruct (Nat.ltb_spec limit (len + (if pending then 2 else 1))) as [|Hfit];
    [injection H as <- <-; by subst|].
  assert (c ≠ 32%N) as Hc by by intros ->.
  assert (shown c = true) as Hshown by (unfold shown; by rewrite Ef, Ec, Ew).
  eapply IH; [exact H|..].
  - rewrite !length_app. cbn [length]. destruct pending; cbn [length]; lia.
  - done.
  - apply Forall_app. split; [done|]. apply Forall_app. split; [by destruct pending; repeat constructor|].
    by constructor.
  - rewrite app_assoc, last_snoc. congruence.
  - destruct out as [|c0 out]; [|done]. destruct pending; [by specialize (Hp eq_refl)|].
    cbn. congruence.
  - done.
Qed.

(** A text cut for display: characters that may be shown, at most [limit] and an ellipsis. *)
Definition within (n : nat) (s : bytes) : Prop :=
  ∃ cs, s = encode cs ∧ (length cs <= n)%nat ∧ Forall (λ c, shown c = true) cs.

Lemma within_display text limit : within (S limit) (display_within text limit).
Proof.
  unfold display_within. destruct (display_loop _ _ _ _ _ _) as [out cut] eqn:E.
  apply display_loop_shown in E as (H1 & H2 & _ & _); [|try done; lia..].
  eexists. split; [done|]. destruct (cut && _).
  - rewrite length_app. cbn [length]. split; [lia|]. apply Forall_app. split; [done|].
    by repeat constructor.
  - split; [lia|done].
Qed.
Lemma within_app n m s t : within n s → within m t → within (n + m) (s ++ t).
Proof.
  intros (cs & -> & H1 & H2) (ds & -> & H3 & H4). exists (cs ++ ds).
  split; [unfold encode; by rewrite fmap_app, concat_app|]. rewrite length_app.
  split; [lia|]. by apply Forall_app.
Qed.
Lemma within_weaken n m s : (n <= m)%nat → within n s → within m s.
Proof. intros Hn (cs & -> & H1 & H2). exists cs. split_and!; [done|lia|done]. Qed.
(** A text that the program writes. *)
Lemma within_text s :
  bool_decide (encode (bN <$> s) = s) && forallb shown (bN <$> s) = true → within (length s) s.
Proof.
  intros [H1%bool_decide_eq_true H2]%andb_true_iff. exists (bN <$> s). rewrite length_fmap.
  split; [done|]. split; [done|]. apply Forall_forall. intros c Hc. rewrite forallb_forall in H2.
  by apply H2, list_elem_of_In.
Qed.
Lemma within_nil : within 0 [].
Proof. by exists []. Qed.

Section sessions.
Context {json_ : JsonValue}.

Lemma session_row_within v i row : session_row v = Some (i, row) → within 300 row.
Proof.
  unfold session_row. intros H.
  apply bind_Some in H as (raw & _ & H). cbv zeta in H. case_bool_decide; [done|].
  do 4 apply bind_Some in H as (? & _ & H). apply (f_equal (from_option snd [])) in H.
  match type of H with from_option _ _ (Some (_, ?x)) = _ => change (x = row) in H end. subst row.
  assert (within 3 DOT) as Hdot.
  { exists [32; 183; 32]%N. split; [by vm_compute|]. split; [cbn; lia|]. by repeat constructor. }
  assert (∀ l t, bool_decide (encode (bN <$> l) = l) && forallb shown (bN <$> l) = true →
            within (3 + length l) (DOT ++ l) ∧ within (3 + (length l + 41)) (DOT ++ l ++ display_within t 40))
    as Hlabel.
  { intros l t Hl%within_text. split; [by apply within_app|].
    apply within_app; [done|]. apply within_app; [done|apply within_display]. }
  apply (within_weaken (15 + (81 + (16 + (49 + (68 + 52)))))); [lia|].
  apply within_app; [apply (within_text (bs "Entire session ")); by vm_compute|].
  apply within_app; [apply within_display|].
  apply within_app.
  { case_bool_decide; [apply (Hlabel (bs "agent unknown") []); by vm_compute|].
    eapply within_weaken; [|exact Hdot]. lia. }
  apply within_app; [apply within_display|]. apply within_app.
  - case_bool_decide; [eapply within_weaken; [|apply within_nil]; lia|].
    apply (within_weaken (3 + 65)); [lia|]. apply within_app; [done|apply within_display].
  - destruct (bool_decide (display_within x2 40 = [])); cbn [negb];
      [|eapply within_weaken; [|apply (Hlabel (bs "active ")); by vm_compute]; cbn; lia].
    destruct (bool_decide (display_within x1 40 = [])); cbn [negb].
    + eapply within_weaken; [|apply within_nil]. lia.
    + eapply within_weaken; [|apply (Hlabel (bs "started ")); by vm_compute]. cbn. lia.
Qed.

Definition NO_SESSIONS : bytes := bs "Entire reports no indexed sessions linked to the captured commit range. This does not rule out unrecorded or unindexed work.".
Definition NO_METADATA : bytes := bs "Entire has not provided complete session metadata for the captured commit range; no usable summaries are available here. This does not establish that no agent sessions exist.".
Definition SESSIONS_LISTED : bytes := bs "Entire session summaries linked to the captured commit range (metadata only):".

Lemma notice_notices t o :
  notices (notice t o) = notices o ∧ t ∈ notices o ∨ notices (notice t o) = notices o ++ [t].
Proof. unfold notice. case_bool_decide; [by left|by right]. Qed.

(** The rows of a list, and what a complete listing says. *)
Lemma session_rows_rows seen partial vs rows p :
  session_rows seen partial vs = (rows, p) →
  (length rows <= length vs)%nat ∧
  Forall (λ row, ∃ v i, v ∈ vs ∧ session_row v = Some (i, row)) rows ∧
  (p = false → partial = false ∧ length rows = length vs).
Proof.
  revert seen partial rows p. induction vs as [|v vs IH]; intros seen partial rows p; cbn.
  { intros [= <- <-]. split_and!; [apply le_n|constructor|done]. }
  destruct (session_row v) as [[i row]|] eqn:Er.
  2:{ intros H. apply IH in H as (H1 & H2 & H3). split_and!; [lia| |by intros [? _]%H3].
      eapply Forall_impl; [exact H2|]. intros r (w & j & Hw & Hr). exists w, j. split; [by right|done]. }
  case_bool_decide as Hi.
  { intros H. apply IH in H as (H1 & H2 & H3). split_and!; [lia| |by intros [? _]%H3].
    eapply Forall_impl; [exact H2|]. intros r (w & j & Hw & Hr). exists w, j. split; [by right|done]. }
  destruct (session_rows (i :: seen) partial vs) as [rows' p'] eqn:E. intros [= <- <-].
  apply IH in E as (H1 & H2 & H3). cbn [length]. split_and!; [lia| |intros Hp; naive_solver].
  apply Forall_cons. split; [exists v, i; split; [by left|done]|].
  eapply Forall_impl; [exact H2|]. intros r (w & j & Hw & Hr). exists w, j. split; [by right|done].
Qed.

(** What the sessions [v] may add to an overview. *)
Record session_notes (v : Value) (o o' : Overview) (before rows after : list bytes) : Prop := {
  notes_added : notices o' = notices o ++ before ++ rows ++ after;
  notes_rows : (length rows <= MAX_ROWS)%nat ∧ Forall (within 300) rows;
  notes_fixed : Forall (.∈ [UNAVAILABLE; NO_METADATA; NO_SESSIONS; SESSIONS_LISTED]) before ∧
                Forall (.= INCOMPLETE) after;
  notes_rest : checks o' = checks o;
  notes_none : NO_SESSIONS ∈ before →
    ∃ e, Envelope_read v = Some e ∧ env_access e = true ∧ env_complete e = true ∧
         env_more e = false ∧ env_sessions e = [];
  notes_all : rows ≠ [] → INCOMPLETE ∉ notices o' →
    ∃ e, Envelope_read v = Some e ∧ env_complete e = true ∧ env_more e = false ∧
         length rows = length (env_sessions e)
}.

(** One sentence and no rows. *)
Lemma one_note v o t :
  t ∈ [UNAVAILABLE; NO_METADATA; NO_SESSIONS; SESSIONS_LISTED] →
  (t = NO_SESSIONS → ∃ e, Envelope_read v = Some e ∧ env_access e = true ∧ env_complete e = true ∧
     env_more e = false ∧ env_sessions e = []) →
  ∃ before rows after, session_notes v o (notice t o) before rows after.
Proof.
  intros Ht Hno. destruct (notice_notices t o) as [[E _]|E].
  - exists [], [], []. split; rewrite ?E; try done.
    + by rewrite app_nil_r.
    + split; [cbn; lia|done].
    + apply checks_notice.
    + by intros ?%elem_of_nil.
  - exists [t], [], []. split; rewrite ?E; try done.
    + split; [cbn; lia|done].
    + split; [apply Forall_cons_2; [done|by apply Forall_nil_2]|by apply Forall_nil_2].
    + apply checks_notice.
    + intros Hin%list_elem_of_singleton. by apply Hno.
Qed.

(** Whatever the server lists, its sessions add to the overview at most ten rows, each a
    line of at most 300 characters that may be shown, and a few sentences of the program; the
    rest of the overview stays. That no sessions are indexed is said only when the server
    reports a complete, accessible history with an empty list, and rows without the note that
    they are incomplete only when they are all there is. *)
Theorem sessions_shown v o :
  ∃ before rows after, session_notes v o (apply_sessions v o) before rows after.
Proof.
  unfold apply_sessions. destruct (Envelope_read v) as [e|] eqn:Ee.
  2:{ apply one_note; [by left|done]. }
  destruct (env_access e) eqn:Ea; cbn [negb].
  2:{ apply one_note; [by left|done]. }
  cbv zeta. set (partial := negb (env_complete e) || env_more e || _).
  destruct (session_rows [] partial (take MAX_ROWS (env_sessions e))) as [rows p] eqn:E.
  apply session_rows_rows in E as (Hlen & Hrows & Hp). rewrite length_take in Hlen, Hp.
  assert (p = false → env_complete e = true ∧ env_more e = false ∧
                      length rows = length (env_sessions e)) as Hall.
  { intros Hpf. destruct (Hp Hpf) as [Hpartial Hl]. unfold partial in Hpartial.
    apply orb_false_iff in Hpartial as [[H1%negb_false_iff H2]%orb_false_iff H3%Nat.ltb_ge].
    split_and!; [done..|]. lia. }
  case_bool_decide as Hnil.
  { destruct p; apply one_note; try done.
    - by right; left.
    - by right; right; left.
    - intros _. destruct (Hall eq_refl) as (H1 & H2 & H3). exists e. subst rows.
      split_and!; try done. by destruct (env_sessions e). }
  set (o1 := notice _ o).
  assert (∃ before, notices o1 = notices o ++ before ∧ Forall (.= SESSIONS_LISTED) before)
    as (before & Hb & Hbf).
  { destruct (notice_notices SESSIONS_LISTED o) as [[H _]|H].
    - exists []. by rewrite app_nil_r.
    - exists [SESSIONS_LISTED]. split; [done|by constructor]. }
  set (o2 := set_notices (notices o1 ++ rows) o1).
  assert (∃ after, notices (if p then notice INCOMPLETE o2 else o2) = notices o ++ before ++ rows ++ after
                   ∧ Forall (.= INCOMPLETE) after) as (after & Haft & Hafter).
  { assert (notices o2 = notices o ++ before ++ rows) as Ho2 by (cbn; by rewrite Hb, <- app_assoc).
    destruct p; [|by exists []; rewrite app_nil_r].
    destruct (notice_notices INCOMPLETE o2) as [[-> _]| ->]; rewrite Ho2.
    - exists []. by rewrite app_nil_r.
    - exists [INCOMPLETE]. rewrite <- !app_assoc. split; [done|by constructor]. }
  exists before, rows, after. split.
  - exact Haft.
  - split; [lia|]. eapply Forall_impl; [exact Hrows|]. intros r (w & i & _ & Hr).
    by eapply session_row_within.
  - split; [|done]. eapply Forall_impl; [exact Hbf|]. intros t ->. by right; right; right; left.
  - rewrite checks_if. cbn. apply checks_notice.
  - intros Hin. rewrite Forall_forall in Hbf. by apply Hbf in Hin.
  - intros _ Hinc. exists e. split; [done|]. apply Hall. destruct p; [|done]. exfalso. apply Hinc.
    destruct (notice_notices INCOMPLETE o2) as [[-> H]| ->]; [done|].
    apply elem_of_app. right. by left.
Qed.
End sessions.
