(* ===== verification/Entire.v ===== *)
(** * The provider Entire ([crates/adapters/src/entire.rs])

    Runs of the [entire] tool and of [curl] are calls ([EntireCall]), each with its arguments,
    environment and standard input, so that a theorem can say which of them see the login. The
    crates [url] and [serde_json] are the classes [UrlParser] and [JsonValue]; [ComparisonJson]
    reads the one structure that the code derives a reader for. *)

From S2P Require Import Prelude RustStr Utf8 Domain Patch BTree Overview Snapshot Export Json.
From S2P Require Import Process Remote Programs Github EntireContext.

Definition READ_ONLY : bytes := bs "Entire Trails are read-only in Diffz. Local drafts and exports remain available; publish reviews in Entire.".
Definition MAX_RESPONSE : N := 32 * 1024 * 1024.
Definition CURL_STATUS : bytes := [LF] ++ bs "DIFFZ_ENTIRE_HTTP:".

(** ** Addresses *)

Inductive TrailSelection :=
| Project (number : N) (change : option (bytes * N))
| Repository (repo : bytes) (number : N).
#[export] Instance TrailSelection_eq_dec : EqDecision TrailSelection.
Proof. solve_decision. Defined.
Record TrailAddress := mkTrailAddress {
  trail_host : bytes; trail_forge : bytes; trail_project : bytes; selection : TrailSelection
}.
#[export] Instance TrailAddress_eq_dec : EqDecision TrailAddress.
Proof. solve_decision. Defined.

Definition project_name (s : bytes) : bool :=
  negb (bool_decide (s = [])) && (length s <=? 39)%nat
  && match s !! 0 with Some b => is_ascii_alphanumeric b | None => false end
  && match last s with Some b => is_ascii_alphanumeric b | None => false end
  && forallb (λ b, is_ascii_alphanumeric b || bool_decide (b = Byte.x2d)) s.
Definition repo_name (s : bytes) : bool :=
  negb (bool_decide (s = [])) && (length s <=? 100)%nat
  && negb (bool_decide (s ∈ [bs "."; bs ".."; bs "-"]))
  && forallb (λ b, is_ascii_alphanumeric b || bool_decide (b ∈ bs "-_.")) s.
Definition trail_number (s : bytes) : result bytes N :=
  let bad := bs "Entire Trail and Change numbers must be positive integers" in
  if bool_decide (s = []) || (10 <? length s)%nat || negb (forallb is_ascii_digit s)
  then Err bad
  else
    n ← ok_or (parse_u64 s) (bs "invalid Entire number");
    if (n =? 0)%N then Err bad else Ok n.
Definition opaque_id (s : bytes) : bool :=
  negb (bool_decide (s = [])) && (length s <=? 128)%nat
  && forallb (λ b, is_ascii_alphanumeric b || bool_decide (b ∈ bs "_-")) s.
Definition is_placement_id (s : bytes) : bool :=
  (length s =? 26)%nat
  && match s !! 0 with Some b => (bN b <=? 55)%N | None => false end
  && forallb (λ b, bool_decide (b ∈ bs "0123456789ABCDEFGHJKMNPQRSTVWXYZ")) s.
Definition is_commit_id (s : bytes) : bool :=
  ((length s =? 40)%nat || (length s =? 64)%nat) && forallb is_ascii_hexdigit s.

Definition one_of (cs : string) (b : byte) : bool := bool_decide (b ∈ bs cs).
Definition is_ascii_control (b : byte) : bool := (bN b <? 32)%N || (bN b =? 127)%N.

Section addresses.
Context {url_ : UrlParser}.

Definition strict_https_url (value : bytes) : result bytes Url :=
  if negb (starts_with (bs "https://") value)
     || existsb (λ b, is_ascii_control b || bool_decide (b = BACKSLASH)) value
     || relative_segments value
  then Err (bs "Entire URLs must be absolute HTTPS URLs without relative segments")
  else
    let authority := before_any (one_of "/?#") (drop 8 value) in
    if bool_decide (authority = []) || existsb (one_of "@:") authority
    then Err (bs "credentials and ports are not allowed in Entire URLs")
    else if contains_byte Byte.x25 (before_any (one_of "?#") (drop (8 + length authority) value))
    then Err (bs "encoded Entire URL identities are not accepted")
    else
      u ← ok_or (parse_url value) (bs "invalid Entire URL");
      if negb (match host_str u with Some h => eq_ignore_ascii_case authority h | None => false end)
         || negb (bool_decide (username u = [])) || is_Some_b (password u) || is_Some_b (port u)
         || contains_byte Byte.x25 (url_path u)
      then Err (bs "invalid or encoded Entire URL identity")
      else Ok u.

Definition trail_selection (p2 p3 p4 : bytes) (rest : list bytes) : result bytes TrailSelection :=
  if bool_decide (p2 = bs "-") && bool_decide (p3 = bs "trails") then
    number ← trail_number p4;
    change ← match rest with
             | [] => Ok None
             | [p5; p6; p7] =>
                 if bool_decide (p5 = bs "changes") && repo_name p6
                 then n ← trail_number p7; Ok (Some (p6, n))
                 else Err (bs "expected /-/trails/NUMBER or /-/trails/NUMBER/changes/REPO/NUMBER")
             | _ => Err (bs "expected /-/trails/NUMBER or /-/trails/NUMBER/changes/REPO/NUMBER")
             end;
    Ok (Project number change)
  else if (length rest <=? 1)%nat && repo_name p2 && bool_decide (p3 = bs "trails")
          && forallb repo_name rest
  then n ← trail_number p4; Ok (Repository p2 n)
  else Err (bs "expected an Entire project Trail or repository Change URL").

Definition TrailAddress_parse (value : bytes) : result bytes TrailAddress :=
  let value := trim value in
  u ← strict_https_url value;
  host ← ok_or (host_str u) (bs "Entire URL has no host");
  if negb (bool_decide (host = bs "entire.com")) && negb (bool_decide (host = bs "entire.io"))
  then Err (bs "Entire Trail URLs must use entire.com or entire.io")
  else if is_Some_b (query u)
  then Err (bs "query strings are not allowed in an Entire Trail identity")
  else
    let bad := Err (bs "expected an Entire URL with et/<project> or gh/<owner>") in
    match drop 1 (split_on SLASH (trim_end_byte SLASH (url_path u))) with
    | p0 :: p1 :: p2 :: p3 :: p4 :: rest =>
        if negb (bool_decide (p0 = bs "et") || bool_decide (p0 = bs "gh")) || negb (project_name p1)
        then bad
        else
          s ← trail_selection p2 p3 p4 rest;
          Ok (mkTrailAddress host p0 (to_ascii_lowercase p1) s)
    | _ => bad
    end.
End addresses.

Definition entire_root (a : TrailAddress) : bytes :=
  bs "https://entire.com/" ++ trail_forge a ++ bs "/" ++ trail_project a.
Definition change_url (a : TrailAddress) (repo : bytes) (number : N) : bytes :=
  match selection a with
  | Project trail _ =>
      entire_root a ++ bs "/-/trails/" ++ dec trail ++ bs "/changes/" ++ repo ++ bs "/" ++ dec number
  | Repository _ _ => entire_root a ++ bs "/" ++ repo ++ bs "/trails/" ++ dec number
  end.
Definition canonical_url (a : TrailAddress) : bytes :=
  match selection a with
  | Project number None => entire_root a ++ bs "/-/trails/" ++ dec number
  | Project _ (Some (repo, number)) | Repository repo number => change_url a repo number
  end.

(** ** The login *)

Definition base64url_digit (b : byte) : option N :=
  let n := bN b in
  if between 65 90 n then Some (n - 65)%N
  else if between 97 122 n then Some (n - 97 + 26)%N
  else if between 48 57 n then Some (n - 48 + 52)%N
  else if (n =? 45)%N then Some 62%N
  else if (n =? 95)%N then Some 63%N
  else None.

(** The loop of [decode_base64url]: [value] holds the [bits] that make no whole byte yet. *)
Fixpoint decode_base64url_loop (value bits : N) (out s : bytes) : option (N * N * bytes) :=
  match s with
  | [] => Some (value, bits, out)
  | b :: s =>
      digit ← base64url_digit b;
      let value := N.lor (N.shiftl value 6) digit in
      let bits := (bits + 6)%N in
      if (8 <=? bits)%N
      then let bits := (bits - 8)%N in
           decode_base64url_loop (N.land value (N.shiftl 1 bits - 1)) bits
             (out ++ [u8_of (N.shiftr value bits)]) s
      else decode_base64url_loop value bits out s
  end.
Definition decode_base64url (s : bytes) : result bytes bytes :=
  match decode_base64url_loop 0 0 [] s with
  | None => Err (bs "Entire login has invalid encoded claims")
  | Some (value, bits, out) =>
      if (bits =? 6)%N || negb (value =? 0)%N
      then Err (bs "Entire login has invalid encoded claims")
      else Ok out
  end.

Record Login := mkLogin { token : bytes }.

Definition token_byte (b : byte) : bool := is_ascii_alphanumeric b || bool_decide (b ∈ bs "._-").

(** The hosts that a login may be for. *)
Definition core_host (host : bytes) : bool :=
  match strip_prefix (bs "core.") host with
  | None => false
  | Some h =>
      match strip_suffix (bs ".entire.io") h with
      | Some label => project_name label
      | None =>
          match strip_suffix (bs ".entire.com") h with
          | Some label => project_name label
          | None => false
          end
      end
  end.
Definition login_host (host : bytes) : bool :=
  core_host host
  || bool_decide (host = bs "auth.entire.io") || bool_decide (host = bs "auth.entire.com")
  || ends_with (bs ".auth.entire.io") host || ends_with (bs ".auth.entire.com") host
  || ends_with (bs ".console.entire.io") host || ends_with (bs ".console.entire.com") host.

Definition bare_path (p : bytes) : bool := bool_decide (p = []) || bool_decide (p = [SLASH]).

Section login.
Context {json_ : JsonValue} {url_ : UrlParser}.

(** Only production cells may receive credentials. *)
Definition api_origin_of (value : bytes) : result bytes bytes :=
  u ← strict_https_url value;
  let host := default [] (host_str u) in
  if negb (ends_with (bs ".api.entire.io") host || ends_with (bs ".api.entire.com") host)
     || negb (bare_path (url_path u)) || is_Some_b (query u) || is_Some_b (fragment u)
  then Err (bs "Entire did not return a trusted HTTPS API cell origin")
  else Ok (bs "https://" ++ host).

Definition audiences (claims : Value) : list bytes :=
  let aud := index claims (bs "aud") in
  match as_str aud with
  | Some a => [a]
  | None => match as_array aud with Some l => omap as_str l | None => [] end
  end.
Definition is_address (a : bytes) : bool :=
  match parse_url a with Some u => negb (bool_decide (scheme u = [])) | None => false end.

Definition from_token (value : bytes) : result bytes Login :=
  if negb (utf8_valid value) then Err (bs "Entire returned an invalid login token")
  else
    let token := trim value in
    if bool_decide (token = []) || (16 * 1024 <? length token)%nat || negb (forallb token_byte token)
    then Err (bs "Entire returned an invalid login token; run entire login")
    else
      let parts := split_on Byte.x2e token in
      match parts with
      | [p0; p1; p2] =>
          if existsb (λ p, bool_decide (p = [])) parts
          then Err (bs "Entire requires a login or service-account JWT; run entire login")
          else
            payload ← decode_base64url p1;
            claims ← map_err (λ _, bs "Entire login claims could not be read") (from_slice payload);
            audience ← ok_or (List.find is_address (audiences claims))
                         (bs "Entire login has no control-plane audience");
            u ← strict_https_url audience;
            if negb (login_host (default [] (host_str u))) || negb (bare_path (url_path u))
               || is_Some_b (query u) || is_Some_b (fragment u)
            then Err (bs "Select an Entire production login before opening entire.com links")
            else Ok (mkLogin token)
      | _ => Err (bs "Entire requires a login or service-account JWT; run entire login")
      end.
End login.

(** ** Running the tools *)

Record ToolRun := mkToolRun {
  tool : bytes; tool_args : list bytes; tool_env : list (bytes * bytes);
  env_removed : list bytes; tool_stdin : bytes; tool_deadline : N; tool_stdout_limit : N
}.

Inductive EntireCall : Type → Type :=
| RunTool (r : ToolRun) : EntireCall (result AdapterError ProcessOutput)
| IsCancelled : EntireCall bool
| UnixTime : EntireCall N
| PanicNow : EntireCall Empty_set.                 (* never answered *)
Notation reads := (prog EntireCall).

Definition ensure {A} (r : result bytes A) : reads A := Return (map_err Message r).
Definition or_panics {A} (o : option A) : reads A :=
  match o with Some a => mret a | None => e ← op PanicNow; match e : Empty_set with end end.

(** [EntireReader]: the tools' paths. *)
Record EntireReader := mkEntireReader { entire_program : bytes; curl : option bytes }.

Definition AMBIENT : list bytes :=
  [bs "ENTIRE_API_BASE_URL"; bs "ENTIRE_AUTH_BASE_URL"; bs "ENTIRE_WEB_BASE_URL"].
Definition entire_command (r : EntireReader) (args : list bytes) : ToolRun :=
  mkToolRun (entire_program r) args [] AMBIENT [] 60000 MAX_RESPONSE.

Definition run_tool (t : ToolRun) : reads ProcessOutput := o ← op (RunTool t); try_ o.

Section reader.
Context {sha_ : Sha256} {source_ : SourceJson} {json_ : JsonValue} {url_ : UrlParser}.
Context (reader : EntireReader).

Definition login : reads Login :=
  let c := entire_command reader [bs "auth"; bs "token"] in
  output ← run_tool (mkToolRun (tool c) (tool_args c) [] (env_removed c) [] (tool_deadline c)
                       (16 * 1024));
  if negb (success (status output))
  then throw (Message (bs "Entire authentication failed. Install Entire CLI 0.12.2 or newer and run entire login."))
  else ensure (from_token (stdout output)).

Definition bad_endpoint (endpoint : bytes) : bool :=
  negb (starts_with (bs "/api/v1/") endpoint)
  || existsb (λ b, bool_decide (b ∈ [CR; LF; BACKSLASH; Byte.x7b; Byte.x7d])) endpoint
  || is_Some_b (parse_url endpoint).

(** The last status line on standard error. *)
Definition status_line (line : bytes) : option N :=
  match split_whitespace line with
  | p :: w :: _ => if starts_with (bs "HTTP/") p then parse_u16 w else None
  | _ => None
  end.
Definition entire_status (stderr : bytes) : option N :=
  last (omap status_line (str_lines (Utf8.encode (from_utf8_lossy stderr)))).

Definition read_failed (status : option N) : bytes :=
  match status with
  | Some s =>
      if (s =? 401)%N || (s =? 403)%N
      then bs "Entire access was denied; check the selected login and repository permissions"
      else if (s =? 404)%N
      then bs "Entire could not read this resource at its primary placement; it may be unavailable, inaccessible, or not indexed yet"
      else if (s =? 429)%N
      then bs "Entire rate limited this read; retry after its limit resets"
      else bs "Entire API read failed (HTTP " ++ dec s ++ bs "); the existing session is unchanged"
  | None => bs "Entire API read failed. Check entire login, CLI 0.12.2 or newer, and network access."
  end.

Definition api_args (cell : bool) (endpoint : bytes) : list bytes :=
  [bs "api"; bs "--to"; if cell then bs "cell" else bs "core"; bs "--include"; bs "--method";
   bs "GET"; endpoint].
Definition request (l : Login) (origin : option bytes) (endpoint : bytes) : reads bytes :=
  if bad_endpoint endpoint then throw (Message (bs "invalid relative Entire API endpoint"))
  else
    let c := entire_command reader (api_args (is_Some_b origin) endpoint) in
    let env := [(bs "ENTIRE_TOKEN", token l)] in
    c ← match origin with
        | None => mret (mkToolRun (tool c) (tool_args c) env (env_removed c) (tool_stdin c)
                          (tool_deadline c) (tool_stdout_limit c))
        | Some o =>
            o ← ensure (api_origin_of o);
            mret (mkToolRun (tool c) (tool_args c) (env ++ [(bs "ENTIRE_API_BASE_URL", o)])
                    (filter (λ n, n ≠ bs "ENTIRE_API_BASE_URL") (env_removed c)) (tool_stdin c)
                    (tool_deadline c) (tool_stdout_limit c))
        end;
    output ← run_tool c;
    let st := entire_status (stderr output) in
    if negb (success (status output))
       || negb match st with Some s => between 200 299 s | None => false end
    then throw (Message (read_failed st))
    else mret (stdout output).
Definition get_json (l : Login) (origin : option bytes) (endpoint : bytes) : reads Value :=
  b ← request l origin endpoint;
  ensure (map_err (λ _, bs "Entire returned invalid JSON for an API read") (from_slice b)).

(** A string that is not empty ([text]). *)
Definition text_at (v : Value) (path : bytes) : result bytes bytes :=
  match (p ← pointer v path; as_str p) with
  | Some s => if bool_decide (s = []) then Err (bs "Entire response is missing " ++ path) else Ok s
  | None => Err (bs "Entire response is missing " ++ path)
  end.
Definition account_id (l : Login) : reads bytes :=
  me ← get_json l None (bs "/api/v1/me");
  i ← ensure (text_at me (bs "/global/accountId"));
  if opaque_id i then mret i else throw (Message (bs "Entire did not return an account identity")).

Definition with_query (path : bytes) (values : list (bytes * bytes)) : bytes :=
  path ++ bs "?" ++ form_encode values.

(** ** The repository directory *)

Record EntireRepository := mkEntireRepository {
  er_id : bytes; er_placement : bytes; er_origin : bytes; er_name : bytes
}.
#[local] Instance EntireRepository_eq_dec : EqDecision EntireRepository.
Proof. solve_decision. Defined.

(** The name a row has in a forge, unless an explicit provider contradicts it. *)
Definition directory_name (row : Value) (forge project repo provider : bytes) : option bytes :=
  full ← as_str (index row (bs "full_name"));
  let stated := pointer row (bs "/provider") in
  if match stated with Some v => negb (is_str v provider) | None => false end then None
  else
    '(owner, name) ←
      (match split_on SLASH full with
       | [owner; name] =>
           if is_str (index row (bs "provider")) provider then Some (owner, name) else None
       | [prefix; owner; name] =>
           if bool_decide (prefix = forge) then Some (owner, name) else None
       | _ => None
       end);
    if eq_ignore_ascii_case owner project && eq_ignore_ascii_case name repo
    then Some name else None.

(** What a directory says about one repository. *)
Definition read_repository (a : TrailAddress) (repo : bytes) (directory : Value)
    : result bytes EntireRepository :=
  rows ← ok_or (as_array (index directory (bs "repos")))
           (bs "Entire repository directory has no repos array");
  if is_true (index directory (bs "truncated"))
     || match as_str (index directory (bs "nextPageToken")) with
        | Some s => negb (bool_decide (s = []))
        | None => false
        end
  then Err (bs "Entire's exact repository lookup was incomplete; retry before opening this Change")
  else
    let provider := if bool_decide (trail_forge a = bs "et") then bs "entire" else bs "github" in
    let name_of row := directory_name row (trail_forge a) (trail_project a) repo provider in
    match List.filter (λ row, is_Some_b (name_of row)) rows with
    | [row] =>
        i ← text_at row (bs "/id");
        if negb (opaque_id i) then Err (bs "Entire returned an invalid repository identity")
        else
          primary ← text_at row (bs "/primaries/processing");
          if negb (is_placement_id primary)
          then Err (bs "Entire repository has no usable processing-primary placement")
          else
            placements ← ok_or (as_array (index row (bs "placements")))
                           (bs "Entire repository has no placements");
            match List.filter (λ p, is_str (index p (bs "id")) primary) placements with
            | [placement] =>
                if negb (is_str (index placement (bs "status")) (bs "ready"))
                then Err (bs "Entire's processing-primary placement is not ready; retry when indexing completes")
                else
                  base ← text_at placement (bs "/apiBaseUrl");
                  origin ← api_origin_of base;
                  canonical ← ok_or (name_of row) (bs "invalid Entire repository name");
                  if negb (repo_name canonical) then Err (bs "invalid Entire repository name")
                  else Ok (mkEntireRepository i primary origin canonical)
            | _ => Err (bs "Entire processing primary is absent or ambiguous in its placement directory")
            end
    | _ => Err (bs "Entire could not resolve one accessible repository with this forge-qualified name")
    end.

Definition repository_of (l : Login) (a : TrailAddress) (repo : bytes) : reads EntireRepository :=
  if negb (repo_name repo) then throw (Message (bs "invalid Entire repository name"))
  else
    let qualified := trail_forge a ++ bs "/" ++ trail_project a ++ bs "/" ++ repo in
    directory ← get_json l None (with_query (bs "/api/v1/repos") [(bs "filter", qualified)]);
    ensure (read_repository a repo directory).

(** ** The project Trail and its Change *)

Record ProjectTrail := mkProjectTrail {
  pt_origin : bytes; pt_project_id : bytes; pt_id : bytes; pt_endpoint : bytes; pt_forge : bytes;
  pt_name : bytes; pt_number : N
}.

Definition project_trail (l : Login) (a : TrailAddress) (number : N)
    : reads (ProjectTrail * Value) :=
  resolved ← get_json l None (bs "/api/v1/projects/resolve/" ++ trail_forge a ++ bs "/"
                              ++ trail_project a);
  different ← (if negb (is_str (index (index resolved (bs "reference")) (bs "host")) (trail_forge a))
               then mret true
               else p ← ensure (text_at resolved (bs "/reference/project"));
                    mret (negb (eq_ignore_ascii_case p (trail_project a))));
  if different : bool then throw (Message (bs "Entire resolved a different project identity"))
  else
    project_id ← ensure (text_at resolved (bs "/project/id"));
    if negb (is_placement_id project_id)
    then throw (Message (bs "Entire project has no stable identity"))
    else
      _ ← ensure (text_at resolved (bs "/project/primaryProcessingCell"));
      _ ← ensure (text_at resolved (bs "/project/region"));
      base ← ensure (text_at resolved (bs "/project/apiUrl"));
      origin ← ensure (api_origin_of base);
      let endpoint := with_query (bs "/api/v1/" ++ trail_forge a ++ bs "/" ++ trail_project a
                                  ++ bs "/trails/" ++ dec number)
                        [(bs "project_id", project_id)] in
      detail ← get_json l (Some origin) endpoint;
      if negb (is_str (index detail (bs "projectId")) project_id)
         || negb (bool_decide (as_u64 (index detail (bs "number")) = Some number))
      then throw (Message (bs "Entire returned a different project Trail"))
      else
        i ← ensure (text_at detail (bs "/id"));
        if negb (is_placement_id i)
        then throw (Message (bs "Entire project Trail has no stable identity"))
        else mret (mkProjectTrail origin project_id i endpoint (trail_forge a) (trail_project a)
                     number, detail).

Definition valid_number (v : Value) : option N :=
  n ← as_u64 v; if (0 <? n)%N && (n <? 10000000000)%N then Some n else None.

(** The Changes of a Trail that cannot be chosen from. *)
Definition explicit_urls (a : TrailAddress) (changes : list Value) : list bytes :=
  take 10 (omap (λ c, repo ← as_str (index c (bs "repository"));
                      if repo_name repo
                      then n ← valid_number (index c (bs "number")); Some (change_url a repo n)
                      else None) changes).
Definition is_wanted (wanted : option (bytes * N)) (c : Value) : bool :=
  match wanted with
  | None => true
  | Some (repo, number) =>
      match as_str (index c (bs "repository")) with
      | Some r => eq_ignore_ascii_case r repo
      | None => false
      end && bool_decide (as_u64 (index c (bs "number")) = Some number)
  end.
Definition select_project_change (a : TrailAddress) (detail : Value) (wanted : option (bytes * N))
    : result bytes (bytes * N * bytes * bytes) :=
  changes ← ok_or (as_array (index detail (bs "changes")))
              (bs "Entire project Trail did not provide its readable Changes");
  if (10000 <? length changes)%nat
  then Err (bs "Entire project Trail exceeds the Change safety limit")
  else
    partial ← match pointer detail (bs "/isPossiblyPartial") with
              | None => Ok false
              | Some v => ok_or (as_bool v)
                            (bs "Entire project Trail has an invalid access-filtering marker")
              end;
    if bool_decide (wanted = None) && (negb (length changes =? 1)%nat || partial)
    then
      let urls := explicit_urls a changes in
      Err (bs "This Entire Trail has multiple, missing, or potentially access-filtered Changes. Open an explicit Change URL"
           ++ (if bool_decide (urls = []) then bs "." else bs ": " ++ join (bs " ; ") urls))
    else
      match List.filter (is_wanted wanted) changes with
      | [c] =>
          repo ← text_at c (bs "/repository");
          i ← text_at c (bs "/id");
          placement ← text_at c (bs "/repositoryId");
          number ← ok_or (valid_number (index c (bs "number"))) (bs "Entire Change has no valid number");
          if negb (repo_name repo) || negb (opaque_id i) || negb (is_placement_id placement)
          then Err (bs "Entire Change has an unsupported repository or Change identity")
          else Ok (repo, number, i, placement)
      | _ => Err (bs "This project Trail does not expose exactly one matching Change; open the Change from Entire")
      end.

Record Selected := mkSelected {
  sel_repo : bytes; sel_number : N; sel_change_id : option bytes; sel_placement : option bytes;
  sel_project : option ProjectTrail; parent_number : option N
}.
Definition select_change (l : Login) (a : TrailAddress) : reads Selected :=
  match selection a with
  | Repository repo number => mret (mkSelected repo number None None None None)
  | Project parent (Some (repo, number)) =>
      mret (mkSelected repo number None None None (Some parent))
  | Project number None =>
      '(project, detail) ← project_trail l a number;
      '(repo, number, i, placement) ← ensure (select_project_change a detail None);
      mret (mkSelected repo number (Some i) (Some placement) (Some project)
              (Some (pt_number project)))
  end.

(** ** What a Change is pinned to *)

Record Parent := mkParent {
  parent_id : bytes; parent_project_id : bytes; parent_forge : bytes; parent_project : bytes;
  parent_trail : N
}.
#[local] Instance Parent_eq_dec : EqDecision Parent.
Proof. solve_decision. Defined.

Definition stated_parent (v : Value) : option Value :=
  p ← pointer v (bs "/parent"); if is_null p then None else Some p.
Definition Parent_read (v : Value) (s : Selected) (a : TrailAddress) : result bytes (option Parent) :=
  match stated_parent v with
  | None =>
      if is_Some_b (parent_number s)
      then Err (bs "Entire Change does not expose the parent needed to verify this project Trail URL; open its repository-scoped URL instead")
      else Ok None
  | Some parent =>
      i ← text_at parent (bs "/id");
      project_id ← text_at parent (bs "/project_id");
      forge ← text_at parent (bs "/host");
      project ← text_at parent (bs "/project");
      let canonical := to_ascii_lowercase project in
      number ← ok_or (valid_number (index parent (bs "number")))
                 (bs "Entire Change has an invalid project Trail number");
      inconsistent ←
        (if negb (is_placement_id i) || negb (is_placement_id project_id)
            || negb (bool_decide (forge = trail_forge a))
            || negb (eq_ignore_ascii_case project (trail_project a)) || negb (project_name project)
         then Ok true
         else p ← text_at parent (bs "/path");
              Ok (negb (bool_decide (p = bs "/api/v1/" ++ forge ++ bs "/" ++ canonical
                                         ++ bs "/trails/" ++ i))));
      if inconsistent : bool then Err (bs "Entire Change has inconsistent project parent identity")
      else if match parent_number s with Some e => negb (e =? number)%N | None => false end
      then Err (bs "Entire Change has a different project Trail number")
      else if match sel_project s with
              | Some e =>
                  negb (bool_decide (i = pt_id e)) || negb (bool_decide (project_id = pt_project_id e))
                  || negb (bool_decide (forge = pt_forge e))
                  || negb (eq_ignore_ascii_case project (pt_name e))
                  || negb (number =? pt_number e)%N
              | None => false
              end
      then Err (bs "Entire Change does not confirm its selected project parent identity")
      else Ok (Some (mkParent i project_id forge canonical number))
  end.

Record Pins := mkPins {
  pin_id : bytes; pin_base : bytes; pin_head : bytes; pin_merge_base : bytes; pin_status : bytes;
  pin_parent : option Parent
}.
#[local] Instance Pins_eq_dec : EqDecision Pins.
Proof. solve_decision. Defined.

Definition Pins_read (v : Value) (s : Selected) (a : TrailAddress) : result bytes Pins :=
  i ← text_at v (bs "/id");
  if negb (opaque_id i)
     || negb (bool_decide (as_u64 (index v (bs "number")) = Some (sel_number s)))
     || match sel_change_id s with Some e => negb (bool_decide (e = i)) | None => false end
  then Err (bs "Entire returned a different Change identity")
  else
    parent ← Parent_read v s a;
    base ← text_at v (bs "/base_sha");
    head ← text_at v (bs "/head_sha");
    merge_base ← text_at v (bs "/merge_base_sha");
    if negb (forallb is_commit_id [base; head; merge_base])
       || negb (length base =? length head)%nat || negb (length base =? length merge_base)%nat
    then Err (bs "Entire has not supplied a complete immutable Change snapshot; retry after indexing completes")
    else
      status ← text_at v (bs "/status");
      if negb (is_one_of status ["open"; "draft"; "closed"; "merged"])
      then Err (bs "Entire returned an unsupported Change lifecycle status")
      else Ok (mkPins i base head merge_base status parent).

(** ** Comparison metadata *)

Record ChangedFile := mkChangedFile {
  cf_path : bytes; previous_path : option bytes; cf_status : bytes; binary : bool; too_large : bool
}.
Record Comparison := mkComparison { compared : list ChangedFile; truncated : bool }.

Fixpoint validate_files (seen : list bytes) (fs : list ChangedFile) : result bytes unit :=
  match fs with
  | [] => Ok tt
  | f :: fs =>
      _ ← RepoPath.new (cf_path f);
      if bool_decide (cf_path f ∈ seen) then Err (bs "Entire comparison repeats a file path")
      else if negb (is_one_of (cf_status f) ["added"; "modified"; "removed"; "renamed"])
      then Err (bs "Entire comparison contains an unsupported file status")
      else
        _ ← (if bool_decide (cf_status f = bs "renamed")
             then p ← ok_or (previous_path f) (bs "Entire rename has no previousPath");
                  _ ← RepoPath.new p; Ok tt
             else Ok tt);
        validate_files (cf_path f :: seen) fs
  end.
Definition validate_comparison (c : Comparison) : result bytes unit :=
  if (10000 <? length (compared c))%nat
  then Err (bs "Entire comparison exceeds the file safety limit")
  else validate_files [] (compared c).

(** The warnings of one listed file; [None] where [expect("validated path")] panics. *)
Definition file_warnings (paths : list (option bytes)) (f : ChangedFile) : option (list bytes) :=
  match RepoPath.new (cf_path f) with
  | Err _ => None
  | Ok p =>
      let shown := RepoPath.display p in
      Some ((if too_large f
             then [bs "Entire omitted size-limited comparison data for " ++ shown
                   ++ bs "; its full changes are not promised."]
             else [])
            ++ (if binary f && negb (bool_decide (Some (cf_path f) ∈ paths))
                then [bs "Entire lists a binary change absent from the diff: " ++ shown]
                else []))
  end.
Definition comparison_warnings (c : Comparison) (p : PatchReport) : option (list bytes) :=
  paths ← utf8_paths p;
  let expected : gset bytes := list_to_set (cf_path <$> compared c) in
  let actual : gset bytes := list_to_set (omap (λ q, q) paths) in
  rest ← mapM (file_warnings paths) (compared c);
  Some ((if truncated c
         then [bs "Entire truncated its comparison metadata; this snapshot cannot claim complete file coverage."]
         else [])
        ++ (if bool_decide (expected = actual) then []
            else [bs "Entire file coverage disagrees: " ++ dec (N.of_nat (size expected))
                  ++ bs " listed files, " ++ dec (N.of_nat (size actual))
                  ++ bs " files in the diff. Some changed files may be unavailable."])
        ++ concat rest).

(** ** Capturing a snapshot *)

Class ComparisonJson := comparison_of : Value → option Comparison.
Context {comparison_ : ComparisonJson} {context_ : ContextJson json_}.

(** The reads of the directory and of the login that end an attempt. *)
Definition same_repository (l : Login) (a : TrailAddress) (s : Selected) (r : EntireRepository)
    : reads unit :=
  again ← repository_of l a (sel_repo s);
  if bool_decide (again = r) then mret tt
  else throw (Message (bs "Entire repository identity or primary placement changed during capture; reopen the Trail")).
Definition same_project (l : Login) (a : TrailAddress) (s : Selected) : reads unit :=
  match sel_project s with
  | None => mret tt
  | Some project =>
      current ← get_json l (Some (pt_origin project)) (pt_endpoint project);
      if negb (is_str (index current (bs "id")) (pt_id project))
         || negb (is_str (index current (bs "projectId")) (pt_project_id project))
      then throw (Message (bs "Entire project Trail identity changed during capture"))
      else
        let wanted := match selection a with Project _ change => change | _ => None end in
        '(repo, number, i, placement) ← ensure (select_project_change a current wanted);
        if negb (eq_ignore_ascii_case repo (sel_repo s)) || negb (number =? sel_number s)%N
           || negb (bool_decide (Some i = sel_change_id s))
           || negb (bool_decide (Some placement = sel_placement s))
        then throw (Message (bs "Entire project Trail changed its selected Change during capture"))
        else mret tt
  end.
Definition same_account (account : bytes) : reads unit :=
  still ← login;
  now ← account_id still;
  if bool_decide (now = account) then mret tt
  else throw (Message (bs "The Entire account changed while the snapshot was captured")).

Definition entire_address (a : TrailAddress) (s : Selected) (r : EntireRepository) (p : Pins)
    : bytes :=
  match pin_parent p with
  | Some parent =>
      bs "https://entire.com/" ++ parent_forge parent ++ bs "/" ++ parent_project parent
      ++ bs "/-/trails/" ++ dec (parent_trail parent) ++ bs "/changes/" ++ er_name r ++ bs "/"
      ++ dec (sel_number s)
  | None => change_url a (er_name r) (sel_number s)
  end.
Definition entire_target (a : TrailAddress) (s : Selected) (r : EntireRepository) (p : Pins)
    : EntireTarget :=
  mkEntireTarget (trail_forge a) (er_id r) (er_placement r) (pin_id p) (er_origin r)
    (entire_address a s r p) (parent_id <$> pin_parent p).
Definition entire_remote (account : bytes) (a : TrailAddress) (s : Selected)
    (r : EntireRepository) (p : Pins) (after : Value) : RemoteTarget :=
  mkRemoteTarget ProviderId.ENTIRE
    (mkRepositoryKey (bs "entire.com") 0 (trail_project a) (er_name r)) account (sel_number s)
    (pin_base p) (pin_merge_base p) (pin_head p)
    (is_one_of (pin_status p) ["open"; "draft"])
    (bool_decide (pin_status p = bs "draft")
     || bool_decide (as_bool (index after (bs "ready_for_review")) = Some false))
    (bool_decide (pin_status p = bs "merged")) false None (Some (entire_target a s r p)).
Definition entire_title (a : TrailAddress) (s : Selected) (r : EntireRepository) (title : bytes)
    : bytes :=
  title ++ DOT ++ trail_forge a ++ bs "/" ++ trail_project a ++ bs "/" ++ er_name r
  ++ bs " Change #" ++ dec (sel_number s).

Definition parse_diff (b : bytes) : reads PatchReport :=
  r ← or_panics (parse_patch b default_limits);
  match r with
  | Ok p => mret p
  | Err e => throw (PatchFailed (PatchError_message e))
  end.

(** The overview of a captured Change, its evidence and notices. *)
Definition entire_overview (after : Value) (head : bytes) (now : N)
    (sessions : result AdapterError Value) : Overview :=
  let str p := (v ← pointer after (bs p); as_str v) in
  let o := mkOverview (str "/body_document/text_snapshot") (str "/author/login") None [] []
             (Some now) [] [] [] in
  let o := apply_context (index after (bs "mergeability")) head o in
  let o := match sessions with
           | Ok response => apply_sessions response o
           | Err _ => unavailable_sessions o
           end in
  set_notices
    (notices o
     ++ [READ_ONLY;
         bs "Entire findings, discussions, and full session transcripts are not imported yet."]) o.

Definition git_endpoint (r : EntireRepository) (what : bytes) : bytes :=
  bs "/api/v1/git/repos/" ++ er_placement r ++ bs "/" ++ what.

Definition set_warnings (ws : list bytes) (s : Snapshot) : Snapshot :=
  mkSnapshot (id s) (title s) (origin s) (patch s) (remote s) (comments s) (overview s) ws.

(** One attempt: [None] when the Change moved meanwhile. *)
Definition capture (l : Login) (account : bytes) (a : TrailAddress) (s : Selected)
    (r : EntireRepository) : reads (option Snapshot) :=
  let endpoint := bs "/api/v1/repos/" ++ er_placement r ++ bs "/trails/" ++ dec (sel_number s) in
  let get := get_json l (Some (er_origin r)) in
  before ← get endpoint;
  pins ← ensure (Pins_read before s a);
  let range := [(bs "base", pin_merge_base pins); (bs "head", pin_head pins)] in
  compare ← get (with_query (git_endpoint r (bs "compare"))
                   (range ++ [(bs "includeStats", bs "true")]));
  coverage ← ensure (ok_or (comparison_of compare)
                       (bs "Entire comparison metadata has an unsupported shape"));
  _ ← ensure (validate_comparison coverage);
  diff ← request l (Some (er_origin r)) (with_query (git_endpoint r (bs "diff")) range);
  patch ← parse_diff diff;
  if bool_decide (length (files patch) = 0%nat)
     && (negb (length (compared coverage) =? 0)%nat || truncated coverage)
  then throw (Message (bs "Entire returned an empty diff for an incomplete or nonempty comparison; no snapshot was installed"))
  else
    sessions ← catch (get (with_query (bs "/api/v1/repos/" ++ er_placement r ++ bs "/sessions")
                             (range ++ [(bs "limit", bs "10")])));
    cancelled ← op IsCancelled;
    if cancelled : bool then throw (Message (bs "Entire capture was cancelled"))
    else
      after ← get endpoint;
      pins' ← ensure (Pins_read after s a);
      if negb (bool_decide (pins' = pins)) then mret None
      else
        _ ← same_repository l a s r;
        _ ← same_project l a s;
        _ ← same_account account;
        title ← ensure (text_at after (bs "/title"));
        warnings ← or_panics (comparison_warnings coverage patch);
        now ← op UnixTime;
        let t := entire_target a s r pins in
        let snap := with_origin (entire_title a s r title) patch
                      (Some (entire_remote account a s r pins after)) []
                      (bs "entire:" ++ trail_forge a ++ bs ":" ++ entire_repository_id t ++ bs ":"
                       ++ placement_id t ++ bs ":" ++ change_id t) in
        mret (Some (set_warnings warnings
                      (set_overview (entire_overview after (pin_head pins) now sessions) snap))).

Fixpoint capture_loop (tries : nat) (l : Login) (account : bytes) (a : TrailAddress)
    (s : Selected) (r : EntireRepository) : reads Snapshot :=
  match tries with
  | O => throw (Message (bs "The Entire Change moved throughout capture; the existing session and its drafts are unchanged"))
  | S tries =>
      c ← capture l account a s r;
      match c with
      | Some snapshot => mret snapshot
      | None => capture_loop tries l account a s r
      end
  end.
Definition entire_snapshot (a : TrailAddress) : reads Snapshot :=
  l ← login;
  account ← account_id l;
  s ← select_change l a;
  r ← repository_of l a (sel_repo s);
  if match sel_placement s with Some p => negb (bool_decide (p = er_placement r)) | None => false end
  then throw (Message (bs "Entire's project Change and repository directory disagree on the repository placement"))
  else capture_loop 3 l account a s r.

(** ** Source files *)

(** [raw_body]: the response without the status that [curl] writes after it. *)
Definition raw_body (b : bytes) : result bytes bytes :=
  let suffix := (length CURL_STATUS + 3)%nat in
  if (length b <? suffix)%nat then Err (bs "Entire raw source returned no HTTP status")
  else
    let start := (length b - suffix)%nat in
    if negb (bool_decide (take (length CURL_STATUS) (drop start b) = CURL_STATUS))
    then Err (bs "Entire raw source returned an incomplete HTTP response")
    else if negb (bool_decide (drop (length b - 3) b = bs "200"))
    then Err (bs "Entire raw source was unavailable at the captured revision; reopen the Trail or check repository access")
    else if (MAX_RESPONSE <? N.of_nat start)%N
    then Err (bs "Entire source exceeds the 32 MiB safety limit")
    else Ok (take start b).

Definition curl_args (url : bytes) : list bytes :=
  (bs <$> ["--disable"; "--silent"; "--show-error"; "--globoff"; "--path-as-is"; "--proto";
           "=https"; "--proto-redir"; "=https"; "--max-redirs"; "0"; "--connect-timeout"; "10";
           "--max-time"; "60"; "--max-filesize"; "33554432"; "--request"; "GET"; "--header";
           "Accept: application/octet-stream"; "--config"; "-"; "--url"])
  ++ [url; bs "--write-out"; CURL_STATUS ++ bs "%{http_code}"].
Definition curl_run (program url : bytes) (l : Login) : ToolRun :=
  mkToolRun program (curl_args url) [] []
    (bs "header = " ++ [QUOTE] ++ bs "Authorization: Bearer " ++ token l ++ [QUOTE; LF]) 65000
    (MAX_RESPONSE + lenN CURL_STATUS + 3).

Definition entire_source (t : RemoteTarget) (path revision : bytes) : reads bytes :=
  if negb (bool_decide (provider t = ProviderId.ENTIRE))
  then throw (Message (bs "source target is not Entire"))
  else
    e ← ensure (ok_or (entire t) (bs "Entire source identity is missing; reopen the Trail"));
    origin ← ensure (api_origin_of (api_origin e));
    if negb (is_placement_id (placement_id e)) || negb (is_commit_id revision)
       || (negb (bool_decide (revision = head t)) && negb (bool_decide (revision = comparison_base t)))
    then throw (Message (bs "Entire source must use this snapshot's exact immutable revision"))
    else
      _ ← ensure (RepoPath.new path);
      if contains_byte BACKSLASH path
      then throw (Message (bs "backslashes in Entire source paths are not supported"))
      else
        program ← ensure (ok_or (curl reader) (bs "Install curl to read byte-exact Entire source context"));
        l ← login;
        account' ← account_id l;
        if negb (bool_decide (account' = account t))
        then throw (Message (bs "The selected Entire account differs from this snapshot; reopen the Trail"))
        else
          let endpoint := with_query (bs "/api/v1/git/repos/" ++ placement_id e ++ bs "/raw/"
                                      ++ Export.encode path) [(bs "ref", revision)] in
          output ← run_tool (curl_run program (origin ++ endpoint) l);
          if negb (success (status output))
          then throw (Message (bs "Entire raw source read failed; check access and network connectivity"))
          else ensure (raw_body (stdout output)).
End reader.

(** ** The provider *)

Section provider.
Context {sha_ : Sha256} {source_ : SourceJson} {json_ : JsonValue} {url_ : UrlParser}
  {comparison_ : ComparisonJson} {context_ : ContextJson json_}.

Definition SOURCE_LINK_UNAVAILABLE : bytes := bs "Entire immutable source links are not available yet; open the Trail in your browser.".
Definition entire_reopen_address (t : RemoteTarget) : bytes :=
  match entire t with
  | Some e => match TrailAddress_parse (address e) with Ok a => canonical_url a | Err _ => [] end
  | None => []
  end.
Definition entire_accepts (address : bytes) : bool := is_ok (TrailAddress_parse address).
Definition entire_reader (p : option EntireReader) : reads EntireReader :=
  ensure (ok_or p (bs "Install Entire CLI 0.12.2 or newer, then run entire login")).
Definition entire_open (p : option EntireReader) (address : bytes) : reads Snapshot :=
  r ← entire_reader p;
  a ← ensure (TrailAddress_parse address);
  entire_snapshot r a.
End provider.
