(* ===== verification/EntireFacts.v ===== *)
(** * Theorems about Entire's login and addresses *)

From S2P Require Import Prelude RustStr Utf8 BTree Domain Patch Overview Snapshot Json Process.
From S2P Require Import Remote Programs Github GithubFacts EntireContext Entire.

(** ** The encoded claims *)

(** The reference encoding of the alphabet without padding. *)
Definition base64url_char (n : N) : byte :=
  if (n <? 26)%N then u8_of (65 + n)
  else if (n <? 52)%N then u8_of (97 + (n - 26))
  else if (n <? 62)%N then u8_of (48 + (n - 52))
  else if (n =? 62)%N then u8_of 45 else u8_of 95.
Fixpoint encode_base64url (s : bytes) : bytes :=
  match s with
  | [] => []
  | [a] => [base64url_char (bN a / 4); base64url_char (bN a mod 4 * 16)]
  | [a; b] =>
      [base64url_char (bN a / 4); base64url_char (bN a mod 4 * 16 + bN b / 16);
       base64url_char (bN b mod 16 * 4)]
  | a :: b :: c :: s =>
      [base64url_char (bN a / 4); base64url_char (bN a mod 4 * 16 + bN b / 16);
       base64url_char (bN b mod 16 * 4 + bN c / 64); base64url_char (bN c mod 64)]
      ++ encode_base64url s
  end.

Lemma base64url_digit_char n : (n < 64)%N → base64url_digit (base64url_char n) = Some n.
Proof.
  intros Hn.
  assert (forallb (λ k, bool_decide (base64url_digit (base64url_char (N.of_nat k))
                                     = Some (N.of_nat k))) (seq 0 64) = true) as H
    by (vm_compute; reflexivity).
  rewrite forallb_forall in H. specialize (H (N.to_nat n)). rewrite N2Nat.id in H.
  assert (In (N.to_nat n) (seq 0 64)) as Hin by (apply in_seq; lia).
  specialize (H Hin). by to_prop.
Qed.

Lemma base64url_char_digit b d :
  base64url_digit b = Some d → (d < 64)%N ∧ b = base64url_char d.
Proof.
  intros H. assert (match base64url_digit b with
                    | Some d => (d <? 64)%N && bool_decide (b = base64url_char d)
                    | None => true end = true) as Hb by (destruct b; reflexivity).
  rewrite H in Hb. by to_prop.
Qed.

Lemma lor_shift v d : (d < 64)%N → N.lor (N.shiftl v 6) d = (v * 64 + d)%N.
Proof.
  intros Hd. rewrite N.shiftl_mul_pow2. change (2 ^ 6)%N with 64%N.
  rewrite <- N.lxor_lor.
  - symmetry. rewrite N.add_nocarry_lxor; [done|].
    apply N.bits_inj. intros i. rewrite N.land_spec, N.bits_0. change 64%N with (2 ^ 6)%N.
    destruct (N.lt_ge_cases i 6) as [Hi|Hi].
    + by rewrite N.mul_pow2_bits_low.
    + rewrite <- (N.mod_small d (2 ^ 6)) by done. rewrite N.mod_pow2_bits_high by done. apply andb_false_r.
  - apply N.bits_inj. intros i. rewrite N.land_spec, N.bits_0. change 64%N with (2 ^ 6)%N.
    destruct (N.lt_ge_cases i 6) as [Hi|Hi].
    + by rewrite N.mul_pow2_bits_low.
    + rewrite <- (N.mod_small d (2 ^ 6)) by done. rewrite N.mod_pow2_bits_high by done. apply andb_false_r.
Qed.
Lemma land_mask v n : N.land v (N.shiftl 1 n - 1) = (v mod 2 ^ n)%N.
Proof. rewrite N.shiftl_1_l, N.sub_1_r, <- N.ones_equiv. apply N.land_ones. Qed.

(** One digit, in arithmetic. *)
Lemma decode_digit value bits out b s :
  decode_base64url_loop value bits out (b :: s) =
  match base64url_digit b with
  | None => None
  | Some d =>
      let v := (value * 64 + d)%N in
      if (bits <? 2)%N then decode_base64url_loop v (bits + 6) out s
      else decode_base64url_loop (v mod 2 ^ (bits - 2)) (bits - 2)
             (out ++ [u8_of (v / 2 ^ (bits - 2))]) s
  end.
Proof.
  cbn [decode_base64url_loop]. destruct (base64url_digit b) as [d|] eqn:E; [|done].
  cbn [mbind option_bind]. apply base64url_char_digit in E as [Hd _]. rewrite lor_shift by done.
  destruct (N.ltb_spec bits 2), (N.leb_spec 8 (bits + 6)); try lia; [done|].
  replace (bits + 6 - 8)%N with (bits - 2)%N by lia.
  by rewrite land_mask, N.shiftr_div_pow2.
Qed.

(** Four digits are three bytes, and what two or three digits leave over. *)
Lemma decode_two out a b s x y :
  base64url_digit a = Some x → base64url_digit b = Some y →
  decode_base64url_loop 0 0 out (a :: b :: s) =
  decode_base64url_loop (y mod 16) 4 (out ++ [u8_of (x * 4 + y / 16)]) s.
Proof.
  intros Ha Hb. destruct (base64url_char_digit a x Ha), (base64url_char_digit b y Hb).
  rewrite !decode_digit, Ha. cbn [N.ltb N.compare N.add Pos.compare Pos.compare_cont].
  rewrite decode_digit, Hb. change (6 <? 2)%N with false. cbv zeta iota.
  change (0 + 6 - 2)%N with 4%N. change (2 ^ 4)%N with 16%N. f_equal; [divlia|].
  do 3 f_equal. divlia.
Qed.
Lemma decode_third out c s v z :
  base64url_digit c = Some z →
  decode_base64url_loop v 4 out (c :: s) =
  decode_base64url_loop (z mod 4) 2 (out ++ [u8_of (v * 16 + z / 4)]) s.
Proof.
  intros Hc. destruct (base64url_char_digit c z Hc). rewrite decode_digit, Hc.
  change (4 <? 2)%N with false. cbv zeta iota. change (4 - 2)%N with 2%N.
  change (2 ^ 2)%N with 4%N. f_equal; [divlia|]. do 3 f_equal. divlia.
Qed.
Lemma decode_fourth out d s v w :
  base64url_digit d = Some w →
  decode_base64url_loop v 2 out (d :: s) =
  decode_base64url_loop 0 0 (out ++ [u8_of (v * 64 + w)]) s.
Proof.
  intros Hd. destruct (base64url_char_digit d w Hd). rewrite decode_digit, Hd.
  change (2 <? 2)%N with false. cbv zeta iota. change (2 - 2)%N with 0%N.
  change (2 ^ 0)%N with 1%N. by rewrite N.mod_1_r, N.div_1_r.
Qed.

Lemma u8_value n b : n = bN b → u8_of n = b.
Proof. intros ->. apply u8_of_bN. Qed.

Lemma decode_encoded s out :
  ∃ bits, decode_base64url_loop 0 0 out (encode_base64url s) = Some (0%N, bits, out ++ s) ∧
          bits ≠ 6%N.
Proof.
  revert s out. fix IH 1. intros [|a [|b [|c s]]] out.
  - exists 0%N. by rewrite app_nil_r.
  - exists 4%N. split; [|done]. pose proof (bN_bound a).
    cbn [encode_base64url]. erewrite decode_two by (apply base64url_digit_char; divlia).
    cbn [decode_base64url_loop]. repeat f_equal; [divlia|]. apply u8_value. divlia.
  - exists 2%N. split; [|done]. pose proof (bN_bound a). pose proof (bN_bound b).
    cbn [encode_base64url]. erewrite decode_two by (apply base64url_digit_char; divlia).
    erewrite decode_third by (apply base64url_digit_char; divlia).
    cbn [decode_base64url_loop]. rewrite <- app_assoc. cbn [app].
    repeat f_equal; [divlia|apply u8_value; divlia..].
  - pose proof (bN_bound a). pose proof (bN_bound b). pose proof (bN_bound c).
    cbn [encode_base64url app]. erewrite decode_two by (apply base64url_digit_char; divlia).
    erewrite decode_third by (apply base64url_digit_char; divlia).
    erewrite decode_fourth by (apply base64url_digit_char; divlia).
    rewrite <- !app_assoc. cbn [app].
    destruct (IH s (out ++ [a; b; c])) as (bits & Hl & Hb). exists bits. split; [|done].
    rewrite <- app_assoc in Hl. cbn [app] in Hl. rewrite <- Hl. repeat f_equal; apply u8_value; divlia.
Qed.

Lemma decode_none out value bits b s :
  base64url_digit b = None → decode_base64url_loop value bits out (b :: s) = None.
Proof. intros H. by rewrite decode_digit, H. Qed.

Lemma decoded_is_encoding n s out bits r :
  (length s <= n)%nat → decode_base64url_loop 0 0 out s = Some (0%N, bits, r) → bits ≠ 6%N →
  ∃ b, r = out ++ b ∧ s = encode_base64url b.
Proof.
  revert s out. induction n as [n IH] using lt_wf_ind. intros s out Hn H Hb.
  destruct s as [|c1 s]; [injection H as <- <-; exists []; by rewrite app_nil_r|].
  destruct (base64url_digit c1) as [x|] eqn:E1; [|by rewrite decode_none in H].
  destruct (base64url_char_digit _ _ E1) as [Hx ->].
  destruct s as [|c2 s]; [rewrite decode_digit, E1 in H; cbn in H; by injection H as _ <- _|].
  destruct (base64url_digit c2) as [y|] eqn:E2; [|rewrite decode_digit, E1 in H; cbv zeta iota in H;
    change (0 <? 2)%N with true in H; cbv iota in H; by rewrite decode_none in H].
  destruct (base64url_char_digit _ _ E2) as [Hy ->].
  rewrite (decode_two _ _ _ _ x y) in H by done.
  destruct s as [|c3 s].
  { injection H as Hz <- <-. exists [u8_of (x * 4 + y / 16)]. split; [done|].
    cbn [encode_base64url]. rewrite bN_u8_of by divlia. repeat f_equal; divlia. }
  destruct (base64url_digit c3) as [z|] eqn:E3; [|by rewrite decode_none in H].
  destruct (base64url_char_digit _ _ E3) as [Hz ->].
  rewrite (decode_third _ _ _ _ z) in H by done.
  destruct s as [|c4 s].
  { injection H as Hw <- <-.
    exists [u8_of (x * 4 + y / 16); u8_of (y mod 16 * 16 + z / 4)]. rewrite <- app_assoc.
    split; [done|]. cbn [encode_base64url]. rewrite !bN_u8_of by divlia. repeat f_equal; divlia. }
  destruct (base64url_digit c4) as [w|] eqn:E4; [|by rewrite decode_none in H].
  destruct (base64url_char_digit _ _ E4) as [Hw ->].
  rewrite (decode_fourth _ _ _ _ w) in H by done.
  cbn [length] in Hn. destruct (IH (length s) ltac:(lia) s _ ltac:(done) H Hb) as (b & -> & Hs).
  exists ([u8_of (x * 4 + y / 16); u8_of (y mod 16 * 16 + z / 4); u8_of (z mod 4 * 64 + w)] ++ b).
  rewrite <- !app_assoc. split; [done|]. rewrite Hs.
  cbn [encode_base64url app]. rewrite !bN_u8_of by divlia. repeat f_equal; divlia.
Qed.

(** The login's claims are decoded from exactly the canonical encodings: the decoder inverts
    the reference encoder and refuses every other text, also one with stray low bits. *)
Theorem decode_base64url_inverts s b : decode_base64url s = Ok b ↔ s = encode_base64url b.
Proof.
  unfold decode_base64url. split.
  - destruct (decode_base64url_loop 0 0 [] s) as [[[value bits] out]|] eqn:E; [|done].
    destruct ((bits =? 6)%N || negb (value =? 0)%N) eqn:Ec; [done|]. intros [= <-].
    apply orb_false_iff in Ec as [Hb%N.eqb_neq Hv]. apply negb_false_iff, N.eqb_eq in Hv as ->.
    by destruct (decoded_is_encoding (length s) s [] bits out (le_n _) E Hb) as (b & -> & ->).
  - intros ->. destruct (decode_encoded b []) as (bits & -> & Hb).
    by rewrite (proj2 (N.eqb_neq bits 6) Hb).
Qed.

(** ** Where a login may be sent *)

Lemma before_any_prefix stop s : ∃ r, s = before_any stop s ++ r.
Proof.
  induction s as [|b s (r & IH)]; [by exists []|]. cbn. destruct (stop b); [by exists (b :: s)|].
  exists r. by rewrite IH at 1.
Qed.
Lemma before_any_Forall stop s : Forall (λ b, stop b = false) (before_any stop s).
Proof. induction s as [|b s IH]; cbn; [done|]. destruct (stop b) eqn:E; by constructor. Qed.

(** The bytes that end or divide the authority of an address. *)
Definition divides (b : byte) : bool := is_ascii_control b || one_of "/?#@:\" b.
Definition api_host (h : bytes) : Prop :=
  Forall (λ b, divides b = false) h ∧
  (ends_with (bs ".api.entire.io") h = true ∨ ends_with (bs ".api.entire.com") h = true).

Lemma divides_lower b : divides (byte_to_ascii_lowercase b) = divides b.
Proof. by destruct b. Qed.
Lemma divides_same_text a h :
  eq_ignore_ascii_case a h = true →
  Forall (λ b, divides b = false) a → Forall (λ b, divides b = false) h.
Proof.
  unfold eq_ignore_ascii_case. intros H%bool_decide_eq_true Ha.
  assert (Forall (λ b, divides b = false) (to_ascii_lowercase h)) as Hl.
  { rewrite <- H. apply Forall_fmap. eapply Forall_impl; [exact Ha|]. intros b Hb.
    cbn. by rewrite divides_lower. }
  apply Forall_fmap in Hl. eapply Forall_impl; [exact Hl|]. intros b Hb. cbn in Hb.
  by rewrite divides_lower in Hb.
Qed.

Section addresses.
Context {url_ : UrlParser}.

(** The host of an accepted address is its authority, whole. *)
Lemma strict_https_url_Ok v u :
  strict_https_url v = Ok u →
  parse_url v = Some u ∧ starts_with (bs "https://") v = true ∧
  ∃ h, host_str u = Some h ∧ Forall (λ b, divides b = false) h.
Proof.
  unfold strict_https_url. destruct (negb _ || _ || _) eqn:E1; [done|]. cbv zeta.
  set (a := before_any (one_of "/?#") (drop 8 v)).
  destruct (_ || existsb (one_of "@:") a) eqn:E2; [done|].
  destruct (contains_byte _ _); [done|]. intros H. inv_bind H as u' Hu. apply ok_or_Ok in Hu.
  destruct (host_str u') as [h|] eqn:Eh; [|done]. cbn [is_Some_b] in H.
  destruct (eq_ignore_ascii_case a h) eqn:Ea; [|done].
  destruct (negb _ || _ || _ || _ || _); [done|]. injection H as ->.
  apply orb_false_iff in E1 as [[E0 Ectl]%orb_false_iff _]. apply negb_false_iff in E0.
  split_and!; [done..|]. exists h. split; [done|]. eapply divides_same_text; [exact Ea|].
  apply Forall_forall. intros b Hb.
  assert (one_of "/?#" b = false) as H1.
  { pose proof (before_any_Forall (one_of "/?#") (drop 8 v)) as Hf. rewrite Forall_forall in Hf.
    by apply Hf. }
  assert (one_of "@:" b = false) as H2.
  { apply orb_false_iff in E2 as [_ E2]. destruct (one_of "@:" b) eqn:E; [|done].
    exfalso. rewrite <- not_true_iff_false in E2. apply E2, existsb_exists. exists b.
    split; [by apply list_elem_of_In|done]. }
  assert (is_ascii_control b || bool_decide (b = BACKSLASH) = false) as H3.
  { destruct (before_any_prefix (one_of "/?#") (drop 8 v)) as (r & Hr).
    rewrite <- not_true_iff_false in Ectl. apply not_true_iff_false. intros E. apply Ectl.
    apply existsb_exists. exists b. split; [|done]. apply list_elem_of_In.
    rewrite <- (take_drop 8 v). apply elem_of_app. right. rewrite Hr. apply elem_of_app. by left. }
  clear -H1 H2 H3. by destruct b.
Qed.

Lemma api_origin_of_Ok v o :
  api_origin_of v = Ok o → ∃ h, o = bs "https://" ++ h ∧ api_host h.
Proof.
  unfold api_origin_of. intros H. inv_bind H as u Hu.
  apply strict_https_url_Ok in Hu as (_ & _ & h & Hh & Hd). rewrite Hh in H.
  change (default [] (Some h)) with h in H.
  destruct (negb (_ || _) || _ || _ || _) eqn:E; [done|].
  injection H as <-. exists h. split; [done|]. split; [done|]. to_prop.
  match goal with H : _ ∨ _ |- _ => exact H end.
Qed.
End addresses.

(** ** What the tools are run with *)

(** The token of a login is one run of safe characters: it ends no header and no quoted text. *)
Lemma from_token_Ok {json_ : JsonValue} {url_ : UrlParser} b l :
  from_token b = Ok l → forallb token_byte (token l) = true.
Proof.
  unfold from_token. destruct (negb (utf8_valid b)); [done|]. cbv zeta.
  destruct (_ || negb (forallb token_byte (trim b))) eqn:E; [done|].
  apply orb_false_iff in E as [_ E%negb_false_iff].
  destruct (split_on Byte.x2e (trim b)) as [|p0 [|p1 [|p2 [|]]]]; try done.
  destruct (existsb _ _); [done|]. intros H. inv_bind H as payload Hp.
  inv_bind H as claims Hc. inv_bind H as audience Ha. inv_bind H as u Hu.
  destruct (negb _ || _ || _ || _); [done|]. by injection H as <-.
Qed.

Definition relative_endpoint (endpoint : bytes) : Prop :=
  starts_with (bs "/api/v1/") endpoint = true ∧
  Forall (λ b, b ∉ [CR; LF; BACKSLASH; Byte.x7b; Byte.x7d]) endpoint.

Section credentials.
Context {json_ : JsonValue} {url_ : UrlParser}.
Context (reader : EntireReader).

(** The run that asks the tool for the login. *)
Definition login_run : ToolRun :=
  mkToolRun (entire_program reader) [bs "auth"; bs "token"] []
    [bs "ENTIRE_API_BASE_URL"; bs "ENTIRE_AUTH_BASE_URL"; bs "ENTIRE_WEB_BASE_URL"] [] 60000 16384.

(** The runs that a token may be given to. *)
Definition token_run (t : bytes) (r : ToolRun) : Prop :=
  forallb token_byte t = true ∧
  ((∃ endpoint, relative_endpoint endpoint ∧
      r = mkToolRun (entire_program reader)
            [bs "api"; bs "--to"; bs "core"; bs "--include"; bs "--method"; bs "GET"; endpoint]
            [(bs "ENTIRE_TOKEN", t)]
            [bs "ENTIRE_API_BASE_URL"; bs "ENTIRE_AUTH_BASE_URL"; bs "ENTIRE_WEB_BASE_URL"]
            [] 60000 33554432) ∨
   (∃ endpoint h, relative_endpoint endpoint ∧ api_host h ∧
      r = mkToolRun (entire_program reader)
            [bs "api"; bs "--to"; bs "cell"; bs "--include"; bs "--method"; bs "GET"; endpoint]
            [(bs "ENTIRE_TOKEN", t); (bs "ENTIRE_API_BASE_URL", bs "https://" ++ h)]
            [bs "ENTIRE_AUTH_BASE_URL"; bs "ENTIRE_WEB_BASE_URL"] [] 60000 33554432) ∨
   (∃ program endpoint h, curl reader = Some program ∧ api_host h ∧
      starts_with (bs "/api/v1/git/repos/") endpoint = true ∧
      r = mkToolRun program (curl_args (bs "https://" ++ h ++ endpoint)) [] []
            (bs "header = " ++ [QUOTE] ++ bs "Authorization: Bearer " ++ t ++ [QUOTE; LF])
            65000 33554454)).

(** The state is the token of the latest login: a run asks for a login or has that token. *)
Definition may_run (s : option bytes) (R : Type) (c : EntireCall R) : Prop :=
  match c with
  | RunTool r => r = login_run ∨ ∃ t, s = Some t ∧ token_run t r
  | _ => True
  end.
Definition logged_in (s : option bytes) (R : Type) (c : EntireCall R) : R → option bytes :=
  match c with
  | RunTool r => λ a,
      match a with
      | Ok output =>
          if bool_decide (tool_args r = [bs "auth"; bs "token"])
          then match from_token (stdout output) with Ok l => Some (token l) | Err _ => s end
          else s
      | Err _ => s
      end
  | _ => λ _, s
  end.
Definition any_answer (s : option bytes) (R : Type) (c : EntireCall R) (r : R) : Prop := True.

Definition keeps {A} := @follows EntireCall (option bytes) may_run any_answer logged_in A.

(** A call of a program that has logged in. *)
Definition with_token (t : bytes) (R : Type) (c : EntireCall R) : Prop :=
  match c with RunTool r => token_run t r | _ => True end.

Lemma with_token_may t R c :
  with_token t R c → may_run (Some t) R c ∧ ∀ r, logged_in (Some t) R c r = Some t.
Proof.
  destruct c as [r| | |]; cbn; try done. intros H. split; [right; by exists t|]. intros [o|]; [|done].
  destruct H as [_ [(e & _ & ->)|[(e & h & _ & _ & ->)|(p & e & h & _ & _ & _ & ->)]]];
    by rewrite bool_decide_false.
Qed.

Lemma keeps_with_token {A B} t (p : reads A) (f : A → reads B) Q :
  makes (with_token t) p → (∀ e, Q (Some t) (Some (Err e))) → Q (Some t) None →
  (∀ a, keeps Q (Some t) (f a)) → keeps Q (Some t) (p ≫= f).
Proof.
  intros Hp He Hn Hf. apply follows_bind. eapply makes_follows; [apply with_token_may|exact Hp| |].
  - by right.
  - intros [a|e]; [apply Hf|apply He].
Qed.
Lemma keeps_makes {A} t (p : reads A) (Q : option bytes → option (result AdapterError A) → Prop) :
  makes (with_token t) p → (∀ o, Q (Some t) o) → keeps Q (Some t) p.
Proof.
  intros Hp HQ. eapply makes_follows; [apply with_token_may|exact Hp|by right|intros r; apply HQ].
Qed.

Lemma bad_endpoint_false endpoint : bad_endpoint endpoint = false → relative_endpoint endpoint.
Proof.
  unfold bad_endpoint. rewrite !orb_false_iff, negb_false_iff. intros [[H1 H2] _].
  split; [done|]. apply Forall_forall. intros b Hb Hin. rewrite <- not_true_iff_false in H2.
  apply H2, existsb_exists. exists b. split; [by apply list_elem_of_In|by apply bool_decide_eq_true].
Qed.

Section logged_in.
Context (l : Login) (Hl : forallb token_byte (token l) = true).
Notation P := (with_token (token l)).

Lemma run_token t : token_run (token l) t → makes P (run_tool t).
Proof. intros Ht. unfold run_tool. by makes_walk. Qed.

Lemma request_token origin endpoint : makes P (Entire.request reader l origin endpoint).
Proof.
  unfold Entire.request. destruct (bad_endpoint endpoint) eqn:Eb; [done|].
  apply bad_endpoint_false in Eb. cbv zeta. destruct origin as [o|]; cbn [is_Some_b].
  - destruct (api_origin_of o) as [o'|] eqn:Eo; [|done].
    apply api_origin_of_Ok in Eo as (h & -> & Hh).
    unfold ensure. cbn [map_err]. do 2 bind_value.
    apply makes_bind; [apply run_token|by makes_walk]. split; [done|]. right. left. by exists endpoint, h.
  - bind_value.
    apply makes_bind; [apply run_token|by makes_walk]. split; [done|]. left. by exists endpoint.
Qed.
Lemma get_json_token origin endpoint : makes P (Entire.get_json reader l origin endpoint).
Proof. apply makes_bind; [apply request_token|by makes_walk]. Qed.
Lemma account_id_token : makes P (account_id reader l).
Proof. apply makes_bind; [apply get_json_token|by makes_walk]. Qed.
Lemma repository_of_token a repo : makes P (repository_of reader l a repo).
Proof.
  unfold repository_of. case_match; [done|]. apply makes_bind; [apply get_json_token|by makes_walk].
Qed.
Lemma project_trail_token a n : makes P (project_trail reader l a n).
Proof.
  apply makes_bind; [apply get_json_token|]. makes_walk; apply makes_bind; [apply get_json_token|].
  by makes_walk.
Qed.
Lemma select_change_token a : makes P (select_change reader l a).
Proof.
  unfold select_change. destruct (selection a) as [n [[repo m]|]|repo n]; [done| |done].
  apply makes_bind; [apply project_trail_token|by makes_walk].
Qed.
End logged_in.

(** Logging in, whatever the state. *)
Lemma login_keeps {A} (f : Login → reads A) Q s :
  (∀ s e, Q s (Some (Err e))) →
  (∀ l, forallb token_byte (token l) = true → keeps Q (Some (token l)) (f l)) →
  keeps Q s (login reader ≫= f).
Proof.
  intros He Hf. apply follows_bind. unfold login, run_tool. apply follows_bind, follows_bind.
  cbn [follows op]. split; [by left|]. intros [o|e] _; cbn [follows try_]; [|apply He].
  unfold logged_in. cbn [tool_args entire_command]. rewrite bool_decide_true by done.
  destruct (success (status o)); cbn [negb]; [|apply He].
  destruct (from_token (stdout o)) as [l|e] eqn:El; [|apply He].
  apply Hf. by eapply from_token_Ok.
Qed.
Lemma login_keeps_any {A} (f : Login → reads A) s :
  (∀ l, forallb token_byte (token l) = true → makes (with_token (token l)) (f l)) →
  keeps (λ _ _, True) s (login reader ≫= f).
Proof. intros Hf. apply login_keeps; [done|]. intros l Hl. apply keeps_makes; [by apply Hf|done]. Qed.
End credentials.

Section capture.
Context {sha_ : Sha256} {source_ : SourceJson} {json_ : JsonValue} {url_ : UrlParser}.
Context {comparison_ : ComparisonJson} {context_ : ContextJson json_}.
Context (reader : EntireReader).
Notation keeps := (keeps reader).


Lemma same_project_token l a s :
  forallb token_byte (token l) = true → makes (with_token reader (token l)) (same_project reader l a s).
Proof.
  intros Hl. unfold same_project. destruct (sel_project s); [|done].
  apply makes_bind; [by apply get_json_token|]. by makes_walk.
Qed.
Lemma same_repository_token l a s r :
  forallb token_byte (token l) = true →
  makes (with_token reader (token l)) (same_repository reader l a s r).
Proof. intros Hl. apply makes_bind; [by apply repository_of_token|]. by makes_walk. Qed.

#[local] Ltac ensure_value :=
  match goal with
  | |- context [mbind ?f (ensure (Ok ?a))] => change (mbind f (ensure (Ok a))) with (f a); cbv beta
  end.

(** An attempt that asks for another one has not logged in again. *)
Lemma capture_keeps l account a s r :
  forallb token_byte (token l) = true →
  keeps (λ st o, match o with Some (Ok None) => st = Some (token l) | _ => True end)
    (Some (token l)) (capture reader l account a s r).
Proof.
  intros Hl. unfold capture. cbv zeta.
  repeat match goal with
    | |- keeps _ _ (same_account _ _ ≫= _) => fail 1
    | |- keeps _ _ (match ?x with _ => _ end) => destruct x eqn:?; try done
    | |- keeps _ _ (_ ≫= _) =>
        apply keeps_with_token;
        [first [ apply same_repository_token, Hl | apply same_project_token, Hl
               | apply get_json_token, Hl | apply request_token, Hl
               | apply makes_catch, get_json_token, Hl | unfold parse_diff, or_panics; by makes_walk ]
        |done|done|intros ?]
    end.
  apply follows_bind. unfold same_account. apply login_keeps; [done|]. intros still Hs.
  apply keeps_makes; [apply makes_bind; [by apply account_id_token|by makes_walk]|].
  intros [[[]|]|]; [|done..]. apply follows_bind. unfold ensure. cbn [follows].
  destruct (text_at _ _); [|done]. cbn [map_err]. apply follows_bind.
  unfold or_panics. destruct (comparison_warnings _ _); [|by split]. cbn. done.
Qed.

Lemma capture_loop_keeps tries l account a s r :
  forallb token_byte (token l) = true →
  keeps (λ _ _, True) (Some (token l)) (capture_loop reader tries l account a s r).
Proof.
  intros Hl. induction tries as [|tries IH]; [done|]. cbn [capture_loop]. apply follows_bind.
  eapply follows_mono; [|by apply capture_keeps].
  intros st [[[snap|]|]|]; [done| |done..]. by intros ->.
Qed.

Lemma snapshot_keeps a : keeps (λ _ _, True) None (entire_snapshot reader a).
Proof.
  unfold entire_snapshot. apply login_keeps; [done|]. intros l Hl.
  apply keeps_with_token; [by apply account_id_token|done..|]. intros account.
  apply keeps_with_token; [by apply select_change_token|done..|]. intros s.
  apply keeps_with_token; [by apply repository_of_token|done..|]. intros r.
  case_match; [done|by apply capture_loop_keeps].
Qed.

Lemma source_keeps t path revision :
  keeps (λ _ _, True) None (entire_source reader t path revision).
Proof.
  unfold entire_source. case_match; [done|].
  destruct (entire t) as [e|]; [|done]. cbn [ok_or]. ensure_value.
  destruct (api_origin_of (api_origin e)) as [o|] eqn:Eo; [|done].
  apply api_origin_of_Ok in Eo as (h & -> & Hh). ensure_value.
  case_match; [done|]. destruct (RepoPath.new path); [|done].
  ensure_value. case_match; [done|].
  destruct (curl reader) as [program|] eqn:Ec; [|done]. cbn [ok_or].
  ensure_value. apply login_keeps_any. intros l Hl.
  apply makes_bind; [by apply account_id_token|]. intros account'. case_match; [done|]. cbv zeta.
  apply makes_bind; [|by makes_walk]. apply run_token. split; [done|]. right. right.
  exists program. rewrite <- app_assoc. eexists _, h. split_and!; [done..| |].
  2:{ unfold curl_run. repeat f_equal. }
  apply starts_with_true. unfold with_query. rewrite <- !app_assoc. by eexists.
Qed.
End capture.

(** ** Canonical addresses *)

(** A path segment that is written as it is. *)
Definition plain_segment (w : bytes) : Prop :=
  w ≠ [] ∧ w ≠ bs "." ∧ w ≠ bs ".." ∧ forallb name_byte w = true.

Lemma plain_segment_bytes w :
  plain_segment w →
  SLASH ∉ w ∧ encode_path w = w ∧
  Forall (λ b, is_ascii_graphic b = true ∧ b ≠ BACKSLASH ∧ b ≠ Byte.x25) w.
Proof.
  intros (_ & _ & _ & H). rewrite forallb_forall in H.
  assert (∀ b, (negb (name_byte b)
                || (negb (bool_decide (b = SLASH)) && bool_decide (encode_unit b = [b])
                    && is_ascii_graphic b && negb (bool_decide (b = BACKSLASH))
                    && negb (bool_decide (b = Byte.x25)))) = true) as Hall
    by (intros []; by vm_compute).
  assert (∀ b, b ∈ w → b ≠ SLASH ∧ encode_unit b = [b] ∧ is_ascii_graphic b = true
                       ∧ b ≠ BACKSLASH ∧ b ≠ Byte.x25) as Hb.
  { intros b Hin%list_elem_of_In. specialize (Hall b). rewrite (H b Hin) in Hall.
    cbn [negb orb] in Hall. to_prop. naive_solver. }
  split; [intros Hin; by destruct (Hb _ Hin)|]. split.
  - rewrite encode_path_units. clear H Hall. induction w as [|b w IH]; [done|].
    rewrite fmap_cons. cbn [concat]. destruct (Hb b) as (_ & -> & _); [by left|].
    rewrite IH; [done|]. intros c Hc. apply Hb. by right.
  - apply Forall_forall. intros b Hin. destruct (Hb b Hin) as (_ & _ & ? & ? & ?). done.
Qed.

Lemma split_plain_join ws :
  ws ≠ [] → Forall plain_segment ws → split_on SLASH (join [SLASH] ws) = ws.
Proof.
  intros Hne H. induction H as [|w ws Hw H IH]; [done|].
  destruct (plain_segment_bytes w Hw) as (Hs & _ & _).
  destruct ws as [|w' ws]; [by apply split_on_single|].
  change (join [SLASH] (w :: w' :: ws)) with (w ++ SLASH :: join [SLASH] (w' :: ws)).
  rewrite split_on_sep by done. by rewrite IH.
Qed.

Lemma join_plain ws :
  Forall plain_segment ws →
  encode_path (join [SLASH] ws) = join [SLASH] ws ∧
  Forall (λ b, is_ascii_graphic b = true ∧ b ≠ BACKSLASH ∧ b ≠ Byte.x25) (join [SLASH] ws).
Proof.
  induction 1 as [|w ws Hw H [IH1 IH2]]; [done|].
  destruct (plain_segment_bytes w Hw) as (_ & He & Hg). destruct ws as [|w' ws]; [done|].
  change (join [SLASH] (w :: w' :: ws)) with (w ++ [SLASH] ++ join [SLASH] (w' :: ws)).
  split; [by rewrite !encode_path_app, He, IH1|].
  apply Forall_app. split; [done|]. apply Forall_app. split; [|done]. by repeat constructor.
Qed.

Lemma join_last ws :
  ws ≠ [] → Forall plain_segment ws → ∃ r b, join [SLASH] ws = r ++ [b] ∧ b ≠ SLASH.
Proof.
  intros Hne H. induction H as [|w ws Hw H IH]; [done|].
  destruct (plain_segment_bytes w Hw) as (Hs & _). destruct Hw as (Hnw & _).
  destruct ws as [|w' ws].
  - destruct w as [|b r _] using rev_ind; [done|]. exists r, b. split; [done|].
    intros ->. apply Hs. apply elem_of_app. right. by left.
  - destruct IH as (r & b & Hr & Hb); [done|]. exists (w ++ [SLASH] ++ r), b. split; [|done].
    change (join [SLASH] (w :: w' :: ws)) with (w ++ [SLASH] ++ join [SLASH] (w' :: ws)).
    by rewrite Hr, !app_assoc.
Qed.

(** ** Accepted addresses *)

Definition trail_number_ok (n : N) : Prop := (0 < n < 10000000000)%N.
Definition selection_ok (s : TrailSelection) : Prop :=
  match s with
  | Project n None => trail_number_ok n
  | Project n (Some (repo, m)) => trail_number_ok n ∧ repo_name repo = true ∧ trail_number_ok m
  | Repository repo n => repo_name repo = true ∧ trail_number_ok n
  end.
Record trail_address_ok (a : TrailAddress) : Prop := {
  forge_ok : trail_forge a = bs "et" ∨ trail_forge a = bs "gh";
  project_ok : project_name (trail_project a) = true;
  project_lower : to_ascii_lowercase (trail_project a) = trail_project a;
  selected_ok : selection_ok (selection a)
}.

Lemma parse_digits_lt max acc s n :
  parse_digits max acc s = Some n → (n < (acc + 1) * 10 ^ lenN s)%N.
Proof.
  revert acc. induction s as [|b s IH]; intros acc; cbn [parse_digits].
  - intros [= <-]. unfold lenN. cbn. lia.
  - destruct (digit_val b) as [d|] eqn:Ed; [|done]. cbn [mbind option_bind].
    assert (d < 10)%N as Hd.
    { unfold digit_val, is_ascii_digit in Ed. destruct (between 48 57 (bN b)) eqn:E; [|done].
      apply between_true in E. injection Ed as <-. lia. }
    destruct (N.leb_spec (acc * 10 + d) max); [|done]. intros Hn%IH. unfold lenN in *. cbn [length].
    rewrite Nat2N.inj_succ, N.pow_succ_r'. nia.
Qed.
Lemma strip_plus_digits s : forallb is_ascii_digit s = true → strip_plus s = s.
Proof.
  destruct s as [|c s]; [done|]. cbn [forallb strip_plus]. intros [Hc _]%andb_true_iff.
  destruct (N.eqb_spec (bN c) 43) as [E|]; [|done]. unfold is_ascii_digit in Hc. by rewrite E in Hc.
Qed.
Lemma trail_number_Ok s n : trail_number s = Ok n → trail_number_ok n.
Proof.
  unfold trail_number. cbv zeta. destruct (_ || _ || _) eqn:E; [done|]. intros H.
  inv_bind H as m Hm. apply ok_or_Ok in Hm. destruct (N.eqb_spec m 0) as [|Hz]; [done|].
  injection H as <-. apply orb_false_iff in E as [[_ Hl]%orb_false_iff Hd%negb_false_iff].
  apply Nat.ltb_ge in Hl. unfold parse_u64, parse_uint in Hm. rewrite strip_plus_digits in Hm by done.
  destruct s as [|c s']; [done|]. set (w := c :: s') in *. apply parse_digits_lt in Hm.
  pose proof (N.pow_le_mono_r 10 (lenN w) 10 ltac:(done) ltac:(unfold lenN; lia)) as Hp.
  change (10 ^ 10)%N with 10000000000%N in Hp. unfold trail_number_ok. lia.
Qed.

Lemma length_dec_aux fuel n tl k :
  (0 < k)%nat → (n < 10 ^ N.of_nat k)%N → (length (dec_aux fuel n tl) <= k + length tl)%nat.
Proof.
  revert n tl k. induction fuel as [|fuel IH]; intros n tl k Hk Hn; cbn [dec_aux]; [lia|].
  destruct (N.ltb_spec n 10) as [|Hge]; [cbn [length]; lia|].
  destruct k as [|[|k]]; [lia|cbn in Hn; lia|].
  specialize (IH (n / 10)%N (digit (n mod 10) :: tl) (S k)). cbn [length] in IH.
  rewrite Nat2N.inj_succ, N.pow_succ_r' in Hn. pose proof (N.Div0.div_lt_upper_bound n 10 _ Hn).
  lia.
Qed.
Lemma trail_number_dec n : trail_number_ok n → trail_number (dec n) = Ok n.
Proof.
  intros [H1 H2]. unfold trail_number. cbv zeta. rewrite bool_decide_false by apply dec_not_nil.
  assert (length (dec n) <= 10)%nat as Hl.
  { unfold dec. pose proof (length_dec_aux (S (N.size_nat n)) n [] 10 ltac:(lia) H2).
    cbn [length] in *. lia. }
  destruct (Nat.ltb_spec 10 (length (dec n))); [lia|].
  assert (forallb is_ascii_digit (dec n) = true) as ->.
  { apply forallb_forall. pose proof (dec_digits n) as Hd. rewrite Forall_forall in Hd.
    intros c Hc. by apply Hd, list_elem_of_In. }
  cbn [negb orb]. unfold parse_u64. rewrite parse_uint_dec by (unfold u64_max; lia).
  cbn [ok_or mbind result_bind]. by rewrite (proj2 (N.eqb_neq _ _)) by lia.
Qed.

Lemma plain_dec n : plain_segment (dec n).
Proof.
  assert (forallb name_byte (dec n) = true ∧ (∀ b, b ∈ dec n → b ≠ Byte.x2e)) as [H1 H2].
  { pose proof (dec_digits n) as Hd. rewrite Forall_forall in Hd. split.
    - apply forallb_forall. intros b Hb%list_elem_of_In. specialize (Hd b Hb). clear -Hd. by destruct b.
    - intros b Hb ->. by specialize (Hd _ Hb). }
  split_and!; [apply dec_not_nil| | |done].
  - intros E. apply (H2 Byte.x2e); [rewrite E; by left|done].
  - intros E. apply (H2 Byte.x2e); [rewrite E; by left|done].
Qed.
Lemma plain_repo repo : repo_name repo = true → plain_segment repo.
Proof.
  unfold repo_name. intros H. apply andb_true_iff in H as [[[H1 _]%andb_true_iff H2]%andb_true_iff H3].
  apply negb_true_iff, bool_decide_eq_false in H1, H2. split_and!; [done|set_solver..|exact H3].
Qed.
Lemma plain_project p : project_name p = true → plain_segment p.
Proof.
  unfold project_name. intros H.
  apply andb_true_iff in H as [[[[H1 _]%andb_true_iff H2]%andb_true_iff _]%andb_true_iff H3].
  apply negb_true_iff, bool_decide_eq_false in H1. split_and!; [done| | |].
  - by intros ->.
  - by intros ->.
  - rewrite forallb_forall in H3 |- *. intros b Hb%H3. clear -Hb. by destruct b.
Qed.

Definition trail_segments (a : TrailAddress) : list bytes :=
  trail_forge a :: trail_project a ::
  match selection a with
  | Project n None => [bs "-"; bs "trails"; dec n]
  | Project n (Some (repo, m)) => [bs "-"; bs "trails"; dec n; bs "changes"; repo; dec m]
  | Repository repo n => [repo; bs "trails"; dec n]
  end.

Lemma trail_segments_plain a : trail_address_ok a → Forall plain_segment (trail_segments a).
Proof.
  intros [Hf Hp _ Hs].
  assert (plain_segment (trail_forge a)) by (by destruct Hf as [-> | ->]).
  assert (plain_segment (bs "-") ∧ plain_segment (bs "trails") ∧ plain_segment (bs "changes"))
    as (? & ? & ?) by done.
  pose proof (plain_project _ Hp). unfold trail_segments.
  destruct (selection a) as [n [[repo m]|]|repo n]; cbn [selection_ok] in Hs;
    repeat (apply Forall_cons_2; [first [done|apply plain_dec|apply plain_repo; naive_solver]|]);
    apply Forall_nil_2.
Qed.
Lemma canonical_segments a :
  canonical_url a = bs "https://entire.com/" ++ join [SLASH] (trail_segments a).
Proof.
  unfold canonical_url, change_url, trail_segments, entire_root.
  destruct (selection a) as [n [[repo m]|]|repo n]; cbn [join]; by rewrite <- !app_assoc.
Qed.

Section accepted.
Context {url_ : UrlParser}.

Lemma trail_selection_Ok p2 p3 p4 rest s :
  trail_selection p2 p3 p4 rest = Ok s → selection_ok s.
Proof.
  unfold trail_selection. destruct (_ && _) eqn:E1.
  - intros H. inv_bind H as n Hn. apply trail_number_Ok in Hn. inv_bind H as c Hc.
    injection H as <-. destruct rest as [|p5 [|p6 [|p7 [|]]]]; try done; [by injection Hc as <-|].
    destruct (_ && repo_name p6) eqn:E2; [|done]. inv_bind Hc as m Hm. injection Hc as <-.
    apply trail_number_Ok in Hm. apply andb_true_iff in E2 as [_ E2]. done.
  - destruct (_ && _ && _ && _) eqn:E2; [|done]. intros H. inv_bind H as n Hn. injection H as <-.
    apply trail_number_Ok in Hn.
    apply andb_true_iff in E2 as [[[_ E2]%andb_true_iff _]%andb_true_iff _]. done.
Qed.

Lemma project_name_lower p : project_name p = true → project_name (to_ascii_lowercase p) = true.
Proof.
  unfold project_name. intros H.
  apply andb_true_iff in H as [[[[H1 H2]%andb_true_iff H3]%andb_true_iff H4]%andb_true_iff H5].
  apply negb_true_iff, bool_decide_eq_false in H1.
  assert (∀ b, is_ascii_alphanumeric b = true → is_ascii_alphanumeric (byte_to_ascii_lowercase b) = true)
    as Hl by (intros []; by vm_compute).
  assert (∀ b, is_ascii_alphanumeric b || bool_decide (b = Byte.x2d) = true →
    is_ascii_alphanumeric (byte_to_ascii_lowercase b)
    || bool_decide (byte_to_ascii_lowercase b = Byte.x2d) = true)
    as Hl' by (intros []; by vm_compute).
  unfold to_ascii_lowercase. rewrite length_fmap, H2, list_lookup_fmap, fmap_last.
  rewrite bool_decide_false by (by destruct p). cbn [negb andb].
  destruct (p !! 0) as [b|]; [|done]. destruct (last p) as [c|]; [|done].
  cbn [fmap option_fmap option_map]. rewrite (Hl b), (Hl c) by done. cbn [andb].
  rewrite forallb_forall in H5 |- *. intros x Hx%list_elem_of_In.
  apply list_elem_of_fmap_1 in Hx as (y & -> & Hy). by apply Hl', H5, list_elem_of_In.
Qed.

Lemma TrailAddress_parse_Ok v a : TrailAddress_parse v = Ok a → trail_address_ok a.
Proof.
  unfold TrailAddress_parse. cbv zeta. intros H. inv_bind H as u Hu. inv_bind H as host Hh.
  destruct (negb _ && negb _); [done|]. destruct (is_Some_b (query u)); [done|].
  destruct (drop 1 _) as [|p0 [|p1 [|p2 [|p3 [|p4 rest]]]]]; try done.
  destruct (negb (bool_decide (p0 = _) || _) || negb (project_name p1)) eqn:E; [done|].
  apply orb_false_iff in E as [E1%negb_false_iff E2%negb_false_iff].
  inv_bind H as s Hs. injection H as <-. split; cbn.
  - by apply orb_true_iff in E1 as [E1%bool_decide_eq_true|E1%bool_decide_eq_true]; [left|right].
  - by apply project_name_lower.
  - apply lowercase_idem.
  - by eapply trail_selection_Ok.
Qed.
End accepted.

Section canonical.
Context {url_ : UrlParser} (laws_ : UrlLaws url_).
Context (entire_host : parsed_host (bs "entire.com")).

Lemma existsb_none {A} (f : A → bool) l : Forall (λ x, f x = false) l → existsb f l = false.
Proof. induction 1 as [|x l Hx _ IH]; [done|]. cbn. by rewrite Hx. Qed.

(** An address made of plain segments is accepted, and taken apart into them. *)
Lemma entire_url_parts ws :
  ws ≠ [] → Forall plain_segment ws →
  let v := bs "https://entire.com/" ++ join [SLASH] ws in
  trim v = v ∧
  ∃ u, strict_https_url v = Ok u ∧ host_str u = Some (bs "entire.com") ∧ query u = None ∧
       drop 1 (split_on SLASH (trim_end_byte SLASH (url_path u))) = ws.
Proof.
  intros Hne Hws v. set (q := join [SLASH] ws) in *.
  destruct (join_plain ws Hws) as [He Hg]. fold q in He, Hg.
  assert (relative_segments q = false) as Hrel.
  { apply relative_segments_false. intros p. unfold q. rewrite split_plain_join by done.
    intros Hp. rewrite Forall_forall in Hws. by destruct (Hws p Hp) as (_ & ? & ? & _). }
  destruct (address_parts laws_ (bs "entire.com") q entire_host) as (Ht & Hs & Hr & u & Hu & Hp);
    [done..|]. rewrite He in Ht, Hs, Hr, Hu, Hp.
  change (bs "https://" ++ bs "entire.com" ++ SLASH :: q) with v in *.
  split; [done|]. exists u. destruct Hp.
  assert (existsb (λ b, is_ascii_control b || bool_decide (b = BACKSLASH)) v = false) as Hctl.
  { apply existsb_none. unfold v. apply Forall_app. split.
    - repeat (constructor; [by vm_compute|]). constructor.
    - eapply Forall_impl; [exact Hg|]. intros b (H1 & H2 & _). cbn beta.
      rewrite bool_decide_false, orb_false_r by done. clear -H1. by destruct b. }
  assert (contains_byte Byte.x25 (SLASH :: q) = false) as Hpct.
  { apply bool_decide_eq_false. intros Hin. apply elem_of_cons in Hin as [?|Hin]; [done|].
    rewrite Forall_forall in Hg. by destruct (Hg _ Hin) as (_ & _ & ?). }
  assert (contains_byte Byte.x25 (before_any (one_of "?#") (SLASH :: q)) = false) as Hpct'.
  { apply bool_decide_eq_false. apply bool_decide_eq_false in Hpct. intros Hin. apply Hpct.
    destruct (before_any_prefix (one_of "?#") (SLASH :: q)) as (r & ->). apply elem_of_app. by left. }
  split_and!; [|done..|].
  - unfold strict_https_url. rewrite Hs, Hctl, Hr. cbn [negb orb]. cbv zeta.
    change (before_any (one_of "/?#") (drop 8 v)) with (bs "entire.com").
    change (drop (8 + length (bs "entire.com")) v) with (SLASH :: q). rewrite Hpct'.
    cbn [orb]. rewrite Hu. cbn [ok_or mbind result_bind].
    rewrite plain_username, plain_password, plain_port, plain_host, plain_path, Hpct. done.
  - destruct (join_last ws Hne Hws) as (r & b & Hr' & Hb). fold q in Hr'. rewrite plain_path, Hr'.
    rewrite app_comm_cons, trim_end_byte_id by done. rewrite <- app_comm_cons, <- Hr'.
    change (SLASH :: q) with ([] ++ SLASH :: q). rewrite split_on_sep by apply not_elem_of_nil.
    cbn [drop]. by apply split_plain_join.
Qed.

Lemma parse_canonical a :
  trail_address_ok a →
  TrailAddress_parse (canonical_url a)
  = Ok (mkTrailAddress (bs "entire.com") (trail_forge a) (trail_project a) (selection a)).
Proof.
  intros Ha. rewrite canonical_segments.
  destruct (entire_url_parts (trail_segments a)) as (Ht & u & Hu & Hh & Hq & Hp);
    [done|by apply trail_segments_plain|].
  unfold TrailAddress_parse. rewrite Ht, Hu. cbn [mbind result_bind]. rewrite Hh.
  cbn [ok_or mbind result_bind]. rewrite bool_decide_true by done. cbn [negb andb].
  rewrite Hq. cbn [is_Some_b]. cbv zeta. rewrite Hp. destruct Ha as [Hf Hn Hl Hs].
  assert (bool_decide (trail_forge a = bs "et") || bool_decide (trail_forge a = bs "gh") = true)
    as Hforge by (by destruct Hf as [-> | ->]).
  unfold trail_segments. destruct (selection a) as [n [[repo m]|]|repo n];
    cbn [selection_ok] in Hs; rewrite Hforge, Hn; cbn [negb orb]; unfold trail_selection.
  - destruct Hs as (Hn' & Hr & Hm). rewrite !bool_decide_true by done. cbn [andb].
    rewrite !trail_number_dec by done. cbn [mbind result_bind]. rewrite Hr.
    cbn [mbind result_bind]. by rewrite Hl.
  - rewrite !bool_decide_true by done. cbn [andb].
    rewrite trail_number_dec by done. cbn [mbind result_bind]. by rewrite Hl.
  - destruct Hs as [Hr Hn'].
    assert (repo ≠ bs "-") as Hd by by intros ->. rewrite bool_decide_false by done. cbn [andb].
    change (length [] <=? 1)%nat with true. rewrite Hr, bool_decide_true by done.
    cbn [andb forallb]. rewrite trail_number_dec by done. cbn [mbind result_bind]. by rewrite Hl.
Qed.

(** The canonical address of any accepted Trail or Change is accepted and read as the same
    forge, project, numbers and repository. *)
Theorem canonical_url_reads_back a :
  trail_address_ok a →
  TrailAddress_parse (canonical_url a)
  = Ok (mkTrailAddress (bs "entire.com") (trail_forge a) (trail_project a) (selection a)).
Proof. apply parse_canonical. Qed.
End canonical.

Lemma canonical_url_reads_back_witness :
  let a := mkTrailAddress (bs "entire.io") (bs "et") (bs "acme-2")
             (Project 42 (Some (bs "tool.rs", 7%N))) in
  trail_address_ok a ∧
  TrailAddress_parse (canonical_url a)
  = Ok (mkTrailAddress (bs "entire.com") (bs "et") (bs "acme-2") (selection a)).
Proof.
  intros a. assert (trail_address_ok a) as Ha by (split; [by left|by vm_compute..]).
  split; [exact Ha|]. apply (canonical_url_reads_back plain_laws); [|exact Ha].
  exists (bs "https://entire.com/"), (bs "entire.com", bs "/"), (bs "entire.com"). by vm_compute.
Defined.
