(* ===== verification/EntireRuns.v ===== *)
(** * Runs of the provider Entire: what a snapshot holds, who sees the login, what is reopened *)

From S2P Require Import Prelude RustStr Utf8 BTree Domain Patch Overview Snapshot Json Process.
From S2P Require Import Remote Programs Github GithubFacts EntireContext EntireContextFacts.
From S2P Require Import Entire EntireFacts.

(** ** Runs that succeed *)

Lemma ensure_run {A} (r : result bytes A) tr a :
  run (ensure r) tr (Some (Ok a)) → r = Ok a ∧ tr = [].
Proof. intros [-> H]. split; [|done]. destruct r; [by injection H as ->|done]. Qed.
Lemma or_panics_run {A} (o : option A) tr a :
  run (or_panics o) tr (Some (Ok a)) → o = Some a ∧ tr = [].
Proof. destruct o as [x|]; cbn; [by intros [-> [= ->]]|]. by intros ([] & ?). Qed.
Lemma mret_run {A} (x : A) tr a :
  run (mret x : reads A) tr (Some (Ok a)) → x = a ∧ tr = [].
Proof. cbn. by intros [-> [= ->]]. Qed.
Lemma throw_run {A} e tr (a : A) : ¬ run (throw e : reads A) tr (Some (Ok a)).
Proof. cbn. by intros [_ [=]]. Qed.

(** What [H : run (ensure r) ..] and the like come to. *)
Ltac run_pure H :=
  first [apply ensure_run in H as [H ->]|apply or_panics_run in H as [H ->]
        |apply mret_run in H as [H ->]|by apply throw_run in H].

Section reads.
Context {json_ : JsonValue} {url_ : UrlParser}.
Context (reader : EntireReader).

(** One read of the API that was answered with success: by which run, and with what. *)
Definition answered (l : Login) (origin : option bytes) (endpoint b : bytes)
    (tr : list (Programs.event EntireCall)) : Prop :=
  ∃ r output,
    tr = [Event (RunTool r) (Ok output)] ∧ token_run reader (token l) r ∧
    last (tool_args r) = Some endpoint ∧
    get (bs "ENTIRE_API_BASE_URL") (tool_env r)
      = match origin with
        | Some o => match api_origin_of o with Ok o => Some o | Err _ => None end
        | None => None
        end ∧
    success (status output) = true ∧
    (∃ s, entire_status (stderr output) = Some s ∧ (200 <= s <= 299)%N) ∧
    stdout output = b.

Lemma request_answered l origin endpoint tr b :
  forallb token_byte (token l) = true →
  run (Entire.request reader l origin endpoint) tr (Some (Ok b)) →
  answered l origin endpoint b tr.
Proof.
  intros Hl H. unfold Entire.request in H. destruct (bad_endpoint endpoint) eqn:Eb.
  { by apply throw_run in H. }
  apply bad_endpoint_false in Eb. cbv zeta in H. run_step H as c tc Hc. run_step H as output t2 Ho.
  assert (tc = [] ∧ token_run reader (token l) c ∧ last (tool_args c) = Some endpoint ∧
          get (bs "ENTIRE_API_BASE_URL") (tool_env c)
            = match origin with
              | Some o => match api_origin_of o with Ok o => Some o | Err _ => None end
              | None => None
              end) as (-> & Ht & Hargs & Henv).
  { destruct origin as [o|]; cbn [is_Some_b] in Hc.
    - run_step Hc as o' t' Ho'. apply ensure_run in Ho' as [Ho' ->]. apply mret_run in Hc as [<- ->].
      rewrite Ho'. split_and!; [done| |done|done]. split; [done|]. right. left.
      apply api_origin_of_Ok in Ho' as (h & -> & Hh). by exists endpoint, h.
    - apply mret_run in Hc as [<- ->]. split_and!; [done| |done|done].
      split; [done|]. left. by exists endpoint. }
  unfold run_tool in Ho. run_step Ho as res t1 Hx. apply run_op_Ok in Hx as ->.
  cbn in Ho. destruct Ho as [-> [= <-]].
  exists c, output. destruct (success (status output)); cbn [negb orb] in H;
    [|by apply throw_run in H].
  destruct (entire_status (stderr output)) as [st|]; cbn [negb orb] in H; [|by apply throw_run in H].
  destruct (between 200 299 st) eqn:Es; cbn [negb orb] in H; [|by apply throw_run in H].
  apply mret_run in H as [<- ->]. rewrite !app_nil_r. split_and!; try done.
  exists st. split; [done|]. unfold between in Es. to_prop. lia.
Qed.

Lemma get_json_answered l origin endpoint tr v :
  forallb token_byte (token l) = true →
  run (Entire.get_json reader l origin endpoint) tr (Some (Ok v)) →
  ∃ b, answered l origin endpoint b tr ∧ from_slice b = Ok v.
Proof.
  intros Hl H. run_step H as b t Hb. apply ensure_run in H as [H ->]. rewrite app_nil_r.
  apply request_answered in Hb; [|done]. exists b. split; [done|]. by apply map_err_Ok in H.
Qed.

Lemma login_run_Ok tr l :
  run (login reader) tr (Some (Ok l)) →
  ∃ output, tr = [Event (RunTool (login_run reader)) (Ok output)] ∧
            success (status output) = true ∧ from_token (stdout output) = Ok l.
Proof.
  intros H. unfold login in H. cbv zeta in H. run_step H as output t2 Ho.
  unfold run_tool in Ho. run_step Ho as res t1 Hx. apply run_op_Ok in Hx as ->.
  cbn in Ho. destruct Ho as [-> [= <-]]. exists output.
  destruct (success (status output)); cbn [negb] in H; [|by apply throw_run in H].
  apply ensure_run in H as [H ->]. done.
Qed.

Lemma login_token tr l : run (login reader) tr (Some (Ok l)) → forallb token_byte (token l) = true.
Proof. intros (o & _ & _ & H)%login_run_Ok. by eapply from_token_Ok. Qed.
Lemma account_id_answered l tr account :
  forallb token_byte (token l) = true →
  run (account_id reader l) tr (Some (Ok account)) →
  ∃ b me, answered l None (bs "/api/v1/me") b tr ∧ from_slice b = Ok me ∧
          text_at me (bs "/global/accountId") = Ok account ∧ opaque_id account = true.
Proof.
  intros Hl H. unfold account_id in H. run_step H as me t1 H1.
  apply get_json_answered in H1 as (b & Hb & Hme); [|done].
  run_step H as i t2 H2. apply ensure_run in H2 as [H2 ->].
  destruct (opaque_id i) eqn:Ei; [|by apply throw_run in H]. apply mret_run in H as [<- ->].
  rewrite !app_nil_r. by exists b, me.
Qed.
Lemma repository_of_answered l a repo tr r :
  forallb token_byte (token l) = true →
  run (repository_of reader l a repo) tr (Some (Ok r)) →
  ∃ b directory,
    answered l None (with_query (bs "/api/v1/repos")
      [(bs "filter", trail_forge a ++ bs "/" ++ trail_project a ++ bs "/" ++ repo)]) b tr ∧
    from_slice b = Ok directory ∧ read_repository a repo directory = Ok r.
Proof.
  intros Hl H. unfold repository_of in H. destruct (negb (repo_name repo)); [by apply throw_run in H|].
  cbv zeta in H. run_step H as d t1 H1. apply get_json_answered in H1 as (b & Hb & Hd); [|done].
  apply ensure_run in H as [H ->]. rewrite app_nil_r. by exists b, d.
Qed.
End reads.

(** ** Who sees the login *)

Section provider.
Context {sha_ : Sha256} {source_ : SourceJson} {json_ : JsonValue} {url_ : UrlParser}.
Context {comparison_ : ComparisonJson} {context_ : ContextJson json_}.
Context (reader : EntireReader).

(** C16: Whatever Entire, its tools and its directory answer, every run while a Change is opened
    or a file is read asks the tool for the login without any ambient address, or has the token
    of the latest login: then it is a [GET] of a relative API endpoint through the tool, to the
    default core or to an [https] origin whose whole authority ends in [.api.entire.io] or
    [.api.entire.com], or a read of such an origin with [curl], which takes the token from its
    standard input only, as one quoted value that the token cannot end. *)
Theorem login_stays_with_entire address target path revision tr tr1 r answer tr2 :
  (∃ o, run (entire_open (Some reader) address) tr o) ∨
  (∃ o, run (entire_source reader target path revision) tr o) →
  tr = tr1 ++ Event (RunTool r) answer :: tr2 →
  r = login_run reader ∨
  ∃ t, after logged_in None tr1 = Some t ∧ token_run reader t r.
Proof.
  intros H ->.
  assert (allowed (may_run reader) logged_in None (tr1 ++ Event (RunTool r) answer :: tr2)) as Ha.
  { assert (admitted any_answer logged_in None (tr1 ++ Event (RunTool r) answer :: tr2)) as Hadm
      by by apply admitted_any.
    destruct H as [[o H]|[o H]].
    - unfold entire_open, entire_reader in H.
      eapply (follows_run _ _ _ (λ _ _, True)) in H as [Ha _]; [exact Ha| |exact Hadm].
      apply follows_bind. cbn [ok_or ensure map_err follows]. apply follows_bind.
      cbn [ensure follows]. destruct (TrailAddress_parse address); cbn [map_err]; [|done].
      apply snapshot_keeps.
    - eapply (follows_run _ _ _ (λ _ _, True)) in H as [Ha _]; [exact Ha| |exact Hadm].
      apply source_keeps. }
  by apply (allowed_at (may_run reader) logged_in) in Ha.
Qed.

(** ** What a snapshot holds *)

Definition change_endpoint (r : EntireRepository) (s : Selected) : bytes :=
  bs "/api/v1/repos/" ++ er_placement r ++ bs "/trails/" ++ dec (sel_number s).
Definition comparison_endpoint (r : EntireRepository) (p : Pins) : bytes :=
  with_query (bs "/api/v1/git/repos/" ++ er_placement r ++ bs "/compare")
    [(bs "base", pin_merge_base p); (bs "head", pin_head p); (bs "includeStats", bs "true")].
Definition diff_endpoint (r : EntireRepository) (p : Pins) : bytes :=
  with_query (bs "/api/v1/git/repos/" ++ er_placement r ++ bs "/diff")
    [(bs "base", pin_merge_base p); (bs "head", pin_head p)].

(** The project Trail, read again, still has its identity and selects the same Change. *)
Definition project_kept (l : Login) (a : TrailAddress) (s : Selected)
    (tr : list (Programs.event EntireCall)) : Prop :=
  match sel_project s with
  | None => tr = []
  | Some project => ∃ body current repo number i placement,
      answered reader l (Some (pt_origin project)) (pt_endpoint project) body tr ∧
      from_slice body = Ok current ∧
      as_str (index current (bs "id")) = Some (pt_id project) ∧
      as_str (index current (bs "projectId")) = Some (pt_project_id project) ∧
      select_project_change a current (match selection a with Project _ change => change | _ => None end)
        = Ok (repo, number, i, placement) ∧
      eq_ignore_ascii_case repo (sel_repo s) = true ∧ number = sel_number s ∧
      sel_change_id s = Some i ∧ sel_placement s = Some placement
  end.
Lemma same_project_kept l a s tr :
  forallb token_byte (token l) = true →
  run (same_project reader l a s) tr (Some (Ok tt)) → project_kept l a s tr.
Proof.
  intros Hl H. unfold same_project, project_kept in *.
  destruct (sel_project s) as [project|]; [|by apply mret_run in H as [_ ->]].
  run_step H as current t1 H1. apply get_json_answered in H1 as (b & H1 & Hb); [|done].
  destruct (negb _ || negb _) eqn:E in H; [by apply throw_run in H|].
  apply orb_false_iff in E as [E1%negb_false_iff E2%negb_false_iff].
  run_step H as q t2 H2. run_pure H2. destruct q as [[[repo number] i] placement].
  destruct (_ || _) eqn:E in H; [by apply throw_run in H|].
  apply orb_false_iff in E as [[[E3%negb_false_iff E4%negb_false_iff]%orb_false_iff E5%negb_false_iff]%orb_false_iff
    E6%negb_false_iff].
  apply mret_run in H as [_ ->]. unfold is_str in E1, E2. apply bool_decide_eq_true in E1, E2, E5, E6.
  apply N.eqb_eq in E4. rewrite !app_nil_r.
  exists b, current, repo, number, i, placement. by split_and!.
Qed.

(** The reads of an accepted attempt, in their order: the Change, its comparison, its diff
    (and its sessions), the Change again with the same pins, the same repository, the project
    Trail, and the same account at a login made after all of that. *)
Definition reading_of (l : Login) (account : bytes) (a : TrailAddress) (s : Selected)
    (r : EntireRepository) (tr : list (Programs.event EntireCall)) (snap : Snapshot) : Prop :=
  ∃ p before after coverage b1 b2 b3 b4 cmp t1 t2 t3 t4 t5 t6 t7 t8 t9 t10 still,
    tr = t1 ++ t2 ++ t3 ++ t4 ++ t5 ++ t6 ++ t7 ++ t8 ++ t9 ++ t10 ∧
    answered reader l (Some (er_origin r)) (change_endpoint r s) b1 t1 ∧
    from_slice b1 = Ok before ∧ Pins_read before s a = Ok p ∧
    answered reader l (Some (er_origin r)) (comparison_endpoint r p) b2 t2 ∧
    from_slice b2 = Ok cmp ∧ comparison_of cmp = Some coverage ∧
    validate_comparison coverage = Ok tt ∧
    answered reader l (Some (er_origin r)) (diff_endpoint r p) b3 t3 ∧
    parse_patch b3 default_limits = Some (Ok (patch snap)) ∧
    answered reader l (Some (er_origin r)) (change_endpoint r s) b4 t5 ∧
    from_slice b4 = Ok after ∧ Pins_read after s a = Ok p ∧
    run (repository_of reader l a (sel_repo s)) t6 (Some (Ok r)) ∧
    project_kept l a s t7 ∧
    run (login reader) t8 (Some (Ok still)) ∧
    run (account_id reader still) t9 (Some (Ok account)) ∧
    remote snap = Some (entire_remote account a s r p after) ∧
    comparison_warnings coverage (patch snap) = Some (warnings snap).

Lemma capture_reading l account a s r tr snap :
  forallb token_byte (token l) = true →
  run (capture reader l account a s r) tr (Some (Ok (Some snap))) →
  reading_of l account a s r tr snap.
Proof.
  intros Hl H. unfold capture in H. cbv zeta in H.
  run_step H as before t1 H1. apply get_json_answered in H1 as (b1 & H1 & Hb1); [|done].
  run_step H as p t' Hp. run_pure Hp.
  run_step H as cmp t2 H2. apply get_json_answered in H2 as (b2 & H2 & Hb2); [|done].
  run_step H as coverage t' Hc. run_pure Hc. apply ok_or_Ok in Hc.
  run_step H as u t' Hv. run_pure Hv. destruct u.
  run_step H as b3 t3 H3. apply request_answered in H3; [|done].
  run_step H as report tp Hpatch. unfold parse_diff in Hpatch.
  run_step Hpatch as res t4 Hres. run_pure Hres.
  destruct res as [report'|]; [|by apply throw_run in Hpatch]. apply mret_run in Hpatch as [-> ->].
  destruct (bool_decide _ && _); [by apply throw_run in H|].
  run_step H as sessions t4 H4. run_step H as cancelled t' Hcan. apply run_op_Ok in Hcan as ->.
  destruct cancelled; [by apply throw_run in H|].
  run_step H as after t5 H5. apply get_json_answered in H5 as (b4 & H5 & Hb4); [|done].
  run_step H as p' t' Hp'. run_pure Hp'.
  destruct (bool_decide (p' = p)) eqn:Ep; cbn [negb] in H; [|by apply mret_run in H as [? _]].
  apply bool_decide_eq_true in Ep as ->.
  run_step H as u t6 H6. unfold same_repository in H6. run_step H6 as r' t6' Hr'.
  destruct (bool_decide (r' = r)) eqn:Er; [|by apply throw_run in H6].
  apply bool_decide_eq_true in Er as ->. apply mret_run in H6 as [_ ->].
  run_step H as [] t7 H7. apply same_project_kept in H7; [|done]. run_step H as v t8 H8. unfold same_account in H8.
  run_step H8 as still t8' Hs. run_step H8 as now t9 Hn.
  destruct (bool_decide (now = account)) eqn:En; [|by apply throw_run in H8].
  apply bool_decide_eq_true in En as ->. apply mret_run in H8 as [_ ->].
  run_step H as title t' Ht. run_pure Ht. run_step H as ws t' Hw. run_pure Hw.
  run_step H as time t10 H10. apply mret_run in H as [H ->]. injection H as <-.
  exists p, before, after, coverage, b1, b2, b3, b4, cmp, t1, t2, t3.
  exists (t4 ++ [Event IsCancelled false]), t5, t6', t7, t8', t9, t10, still. rewrite !app_nil_l, !app_nil_r, <- !app_assoc.
  split; [reflexivity|]. repeat (split; [first [eassumption|reflexivity]|]). exact Hw.
Qed.

Lemma capture_loop_reading tries l account a s r tr snap :
  forallb token_byte (token l) = true →
  run (capture_loop reader tries l account a s r) tr (Some (Ok snap)) →
  ∃ tr0 tr1, tr = tr0 ++ tr1 ∧ reading_of l account a s r tr1 snap.
Proof.
  intros Hl. revert tr. induction tries as [|tries IH]; intros tr H; [by apply throw_run in H|].
  cbn [capture_loop] in H. run_step H as c t1 H1. destruct c as [snap'|].
  - apply mret_run in H as [-> ->]. exists [], t1. rewrite app_nil_r. split; [done|].
    by apply capture_reading.
  - destruct (IH _ H) as (tr0 & tr1 & -> & Hc). exists (t1 ++ tr0), tr1.
    by rewrite app_assoc.
Qed.

Lemma entire_snapshot_reads a tr snap :
  run (entire_snapshot reader a) tr (Some (Ok snap)) →
  ∃ l account s r t1 t2 t3 t4 t5 t6,
    tr = t1 ++ t2 ++ t3 ++ t4 ++ t5 ++ t6 ∧
    run (login reader) t1 (Some (Ok l)) ∧
    run (account_id reader l) t2 (Some (Ok account)) ∧
    run (select_change reader l a) t3 (Some (Ok s)) ∧
    run (repository_of reader l a (sel_repo s)) t4 (Some (Ok r)) ∧
    (∀ p, sel_placement s = Some p → er_placement r = p) ∧
    reading_of l account a s r t6 snap.
Proof.
  intros H. unfold entire_snapshot in H. run_step H as l t1 H1. run_step H as account t2 H2.
  run_step H as s t3 H3. run_step H as r t4 H4.
  assert (forallb token_byte (token l) = true) as Hl by by eapply login_token.
  exists l, account, s, r, t1, t2, t3, t4.
  destruct (sel_placement s) as [p|].
  - destruct (bool_decide (p = er_placement r)) eqn:Ep; cbn [negb] in H; [|by apply throw_run in H].
    apply bool_decide_eq_true in Ep.
    apply capture_loop_reading in H as (t5 & t6 & -> & Hc); [|done]. exists t5, t6.
    split_and!; try done. by intros ? [= <-].
  - apply capture_loop_reading in H as (t5 & t6 & -> & Hc); [|done]. by exists t5, t6.
Qed.

(** C17: An accepted snapshot of a Change is one consistent reading. The login, the account, the
    selected Change and its repository were read first; then one attempt read the Change, its
    comparison and the diff between the merge base and the head that the Change had been pinned
    to, and every later read agreed: the Change again with the same pins, the same repository
    and placement, the same project Trail, and the same account at a new login. The patch is
    that diff, parsed; the target and the warnings come from those reads alone. *)
Theorem entire_snapshot_coherent a tr snap :
  run (entire_snapshot reader a) tr (Some (Ok snap)) →
  ∃ l account s r t1 t2 t3 t4 t5 t6,
    tr = t1 ++ t2 ++ t3 ++ t4 ++ t5 ++ t6 ∧
    run (login reader) t1 (Some (Ok l)) ∧
    run (account_id reader l) t2 (Some (Ok account)) ∧
    run (select_change reader l a) t3 (Some (Ok s)) ∧
    run (repository_of reader l a (sel_repo s)) t4 (Some (Ok r)) ∧
    (∀ p, sel_placement s = Some p → er_placement r = p) ∧
    reading_of l account a s r t6 snap.
Proof. apply entire_snapshot_reads. Qed.

(** ** The target of a snapshot *)

(** The refused branch of a condition that [H] says was passed. *)
#[local] Ltac run_passed H :=
  match type of H with run (if ?b then _ else _) _ _ => destruct b; [by apply throw_run in H|] end.
#[local] Tactic Notation "passed" hyp(H) "as" simple_intropattern(E) :=
  match type of H with (if ?b then _ else _) = _ => destruct b eqn:E; [done|] end.

Lemma text_at_Ok v p s : text_at v p = Ok s → s ≠ [].
Proof.
  unfold text_at. destruct (pointer v p ≫= as_str) as [s'|]; [|done].
  destruct (bool_decide (s' = [])) eqn:E; [done|]. intros [= <-]. by apply bool_decide_eq_false in E.
Qed.
Lemma valid_number_Some v n : valid_number v = Some n → trail_number_ok n.
Proof.
  unfold valid_number. destruct (as_u64 v) as [m|]; [|done]. cbn [mbind option_bind].
  destruct (_ && _) eqn:E; [|done]. intros [= <-]. to_prop. unfold trail_number_ok. lia.
Qed.

(** A parent that is read is in the address's project. *)
Definition parent_of (a : TrailAddress) (p : Parent) : Prop :=
  is_placement_id (parent_id p) = true ∧ parent_forge p = trail_forge a ∧
  parent_project p = to_ascii_lowercase (trail_project a) ∧ project_name (parent_project p) = true ∧
  trail_number_ok (parent_trail p).
Lemma Parent_read_Ok v s a o :
  Parent_read v s a = Ok o →
  match o with
  | Some p => parent_of a p ∧ (∀ n, parent_number s = Some n → parent_trail p = n)
  | None => parent_number s = None
  end.
Proof.
  unfold Parent_read. cbv zeta. destruct (stated_parent v) as [parent|].
  2:{ destruct (parent_number s); [done|]. by intros [= <-]. }
  intros H. inv_bind H as i Hi. inv_bind H as project_id Hpi. inv_bind H as forge Hf.
  inv_bind H as project Hp. inv_bind H as number Hn. apply ok_or_Ok, valid_number_Some in Hn.
  inv_bind H as bad Hb. passed H as Ebad. subst bad.
  passed H as En. passed H as E'. injection H as <-.
  passed Hb as E.
  repeat (apply orb_false_iff in E as [E ?]). rewrite !negb_false_iff in *.
  repeat match goal with H : bool_decide _ = true |- _ => apply bool_decide_eq_true in H end.
  match goal with H : eq_ignore_ascii_case _ _ = true |- _ =>
    unfold eq_ignore_ascii_case in H; apply bool_decide_eq_true in H end.
  split; [split_and!; cbn; try done; by apply project_name_lower|].
  intros n Hn'. rewrite Hn' in En. apply negb_false_iff, N.eqb_eq in En. done.
Qed.

Lemma Pins_read_Ok v s a p :
  Pins_read v s a = Ok p →
  opaque_id (pin_id p) = true ∧
  (∀ i, sel_change_id s = Some i → pin_id p = i) ∧
  is_commit_id (pin_base p) = true ∧ is_commit_id (pin_head p) = true ∧
  is_commit_id (pin_merge_base p) = true ∧
  length (pin_base p) = length (pin_head p) ∧ length (pin_base p) = length (pin_merge_base p) ∧
  match pin_parent p with
  | Some parent => parent_of a parent ∧ (∀ n, parent_number s = Some n → parent_trail parent = n)
  | None => parent_number s = None
  end.
Proof.
  unfold Pins_read. intros H. inv_bind H as i Hi. passed H as E1.
  inv_bind H as parent Hp. apply Parent_read_Ok in Hp. inv_bind H as base Hb.
  inv_bind H as h Hh. inv_bind H as m Hm. passed H as E2.
  inv_bind H as st Hst. passed H as Est. injection H as <-. cbn.
  apply orb_false_iff in E1 as [[E0%negb_false_iff _]%orb_false_iff E1].
  apply orb_false_iff in E2 as [[E2%negb_false_iff E3%negb_false_iff]%orb_false_iff E4%negb_false_iff].
  cbn [forallb] in E2. apply Nat.eqb_eq in E3, E4. to_prop. split_and!; try done.
  intros j Hj. rewrite Hj in E1. by apply negb_false_iff, bool_decide_eq_true in E1.
Qed.

Lemma directory_name_Some row forge project repo prov name :
  directory_name row forge project repo prov = Some name → eq_ignore_ascii_case name repo = true.
Proof.
  unfold directory_name. destruct (as_str _) as [full|]; [|done]. cbn [mbind option_bind]. cbv zeta.
  match goal with |- (if ?b then _ else _) = _ → _ => destruct b; [done|] end.
  match goal with |- (?o ≫= _) = _ → _ => destruct o as [[o' n]|]; [|done] end.
  cbn [mbind option_bind]. destruct (_ && _) eqn:E; [|done]. intros [= <-].
  by apply andb_true_iff in E as [_ E].
Qed.

Lemma read_repository_Ok a repo directory r :
  read_repository a repo directory = Ok r →
  opaque_id (er_id r) = true ∧ is_placement_id (er_placement r) = true ∧
  (∃ h, er_origin r = bs "https://" ++ h ∧ api_host h) ∧
  repo_name (er_name r) = true ∧ eq_ignore_ascii_case (er_name r) repo = true.
Proof.
  unfold read_repository. intros H. inv_bind H as rows Hrows. passed H as E0.
  cbv zeta in H. destruct (List.filter _ rows) as [|row [|]]; try done.
  inv_bind H as i Hi. destruct (opaque_id i) eqn:Ei; [|done]. cbn [negb] in H.
  inv_bind H as primary Hp. destruct (is_placement_id primary) eqn:Ep; [|done]. cbn [negb] in H.
  inv_bind H as ps Hps. destruct (List.filter _ ps) as [|pl [|]]; try done.
  passed H as E1. inv_bind H as b Hb. inv_bind H as o Ho. inv_bind H as c Hc.
  destruct (repo_name c) eqn:Ec; [|done]. cbn [negb] in H. injection H as <-. cbn.
  apply ok_or_Ok, directory_name_Some in Hc. apply api_origin_of_Ok in Ho. done.
Qed.

Lemma select_project_change_Ok a detail wanted repo number i placement :
  select_project_change a detail wanted = Ok (repo, number, i, placement) →
  repo_name repo = true ∧ trail_number_ok number.
Proof.
  unfold select_project_change. intros H. inv_bind H as cs Hcs. passed H as E1.
  inv_bind H as partial Hp. cbv zeta in H. passed H as E.
  destruct (List.filter _ cs) as [|c [|]]; try done.
  inv_bind H as r Hr. inv_bind H as j Hj. inv_bind H as pl Hpl. inv_bind H as n Hn.
  apply ok_or_Ok, valid_number_Some in Hn. passed H as E'.
  injection H as <- <- <- <-. apply orb_false_iff in E' as [[E'%negb_false_iff _]%orb_false_iff _].
  done.
Qed.

(** What was selected is what the address asks for. *)
Definition selects (a : TrailAddress) (s : Selected) : Prop :=
  match selection a with
  | Repository repo n => sel_repo s = repo ∧ sel_number s = n ∧ parent_number s = None
  | Project n (Some (repo, m)) =>
      sel_repo s = repo ∧ sel_number s = m ∧ parent_number s = Some n
  | Project n None => parent_number s = Some n
  end.
Lemma select_change_selects l a tr s :
  trail_address_ok a → run (select_change reader l a) tr (Some (Ok s)) →
  selects a s ∧ trail_number_ok (sel_number s).
Proof.
  intros [_ _ _ Hs] H. unfold select_change, selects in *.
  destruct (selection a) as [n [[repo m]|]|repo n]; cbn [selection_ok] in Hs.
  - apply mret_run in H as [<- _]. cbn. naive_solver.
  - run_step H as [project detail] t1 H1. run_step H as [[[repo m] i] pl] t2 H2. run_pure H2.
    apply mret_run in H as [<- _]. cbn. apply select_project_change_Ok in H2 as [_ H2].
    split; [|done]. unfold project_trail in H1. run_step H1 as resolved t3 H3.
    run_step H1 as different t4 H4. run_passed H1.
    run_step H1 as pid t5 H5. run_passed H1.
    run_step H1 as c t6 H6. run_step H1 as rg t7 H7. run_step H1 as b t8 H8.
    run_step H1 as o t9 H9. cbv zeta in H1. run_step H1 as d t10 H10.
    run_passed H1. run_step H1 as j t11 H11.
    run_passed H1. apply mret_run in H1 as [H1 _].
    by injection H1 as <- _.
  - apply mret_run in H as [<- _]. cbn. naive_solver.
Qed.

(** What an accepted snapshot's target was made of. *)
Lemma snapshot_target a tr snap :
  trail_address_ok a → run (entire_snapshot reader a) tr (Some (Ok snap)) →
  ∃ account s r p before after,
    remote snap = Some (entire_remote account a s r p after) ∧ opaque_id account = true ∧
    selects a s ∧ trail_number_ok (sel_number s) ∧
    (∃ directory, read_repository a (sel_repo s) directory = Ok r) ∧ Pins_read before s a = Ok p.
Proof.
  intros Ha H.
  destruct (entire_snapshot_reads a tr snap H) as (l & account & s & r & t1 & t2 & t3 & t4 & t5 & t6
    & _ & H1 & H2 & H3 & H4 & _ & Hc).
  pose proof (login_token _ _ _ H1) as Hl.
  destruct Hc as (p & before & after & coverage & b1 & b2 & b3 & b4 & cmp & u1 & u2 & u3 & u4 & u5
    & u6 & u7 & u8 & u9 & u10 & still & _ & _ & _ & Hp & _ & _ & _ & _ & _ & _ & _ & _ & _ & _ & _
    & _ & _ & Hr & _).
  exists account, s, r, p, before, after.
  apply account_id_answered in H2 as (_ & _ & _ & _ & _ & Hacc); [|done].
  apply select_change_selects in H3 as [Hs Hn]; [|done].
  apply repository_of_answered in H4 as (_ & d & _ & _ & Hd); [|done].
  split_and!; try done. by exists d.
Qed.

(** The target of every accepted snapshot is well typed: full commit identifiers of one
    length, a Change number in range, opaque and placement identifiers of their alphabets, a
    trusted API origin, plain repository and project names, and not both open and merged. *)
Theorem entire_target_typed address a tr snap :
  TrailAddress_parse address = Ok a → run (entire_snapshot reader a) tr (Some (Ok snap)) →
  ∃ t e, remote snap = Some t ∧ entire t = Some e ∧ provider t = ProviderId.ENTIRE ∧
    forallb is_commit_id [head t; comparison_base t; target_tip t] = true ∧
    length (head t) = length (comparison_base t) ∧ length (head t) = length (target_tip t) ∧
    trail_number_ok (pr t) ∧ opaque_id (account t) = true ∧
    repo_name (repository_name (repository t)) = true ∧
    project_name (owner (repository t)) = true ∧
    opaque_id (entire_repository_id e) = true ∧ opaque_id (change_id e) = true ∧
    is_placement_id (placement_id e) = true ∧
    (∃ h, api_origin e = bs "https://" ++ h ∧ api_host h) ∧
    (∀ i, project_trail_id e = Some i → is_placement_id i = true) ∧
    ¬ (open t = true ∧ merged t = true).
Proof.
  intros Ha%TrailAddress_parse_Ok H.
  destruct (snapshot_target a tr snap Ha H)
    as (account & s & r & p & before & after & Hr & Hacc & _ & Hn & (d & Hd) & Hp).
  apply read_repository_Ok in Hd as (H1 & H2 & H3 & H4 & _).
  apply Pins_read_Ok in Hp as (P1 & _ & P2 & P3 & P4 & P5 & P6 & P7). destruct Ha.
  eexists _, (entire_target a s r p). split; [exact Hr|]. cbn.
  rewrite P2, P3, P4, <- P5, <- P6. split_and!; try done.
  - intros i. destruct (pin_parent p) as [parent|]; [|done]. intros [= <-].
    by destruct P7 as [(P7 & _) _].
  - unfold is_one_of. cbn [existsb]. rewrite !orb_true_iff, !bool_decide_eq_true.
    intros [[-> |[-> |?]] ?]; done.
Qed.

(** ** Reopening *)

(** The address written for a target. *)
Lemma entire_address_canonical a s r p :
  trail_address_ok a → selects a s → trail_number_ok (sel_number s) → repo_name (er_name r) = true →
  (match pin_parent p with
   | Some parent => parent_of a parent ∧ (∀ n, parent_number s = Some n → parent_trail parent = n)
   | None => parent_number s = None
   end) →
  ∃ a', entire_address a s r p = canonical_url a' ∧ trail_address_ok a' ∧
        trail_host a' = bs "entire.com" ∧ trail_forge a' = trail_forge a ∧
        trail_project a' = trail_project a ∧
        selection a' = match pin_parent p with
                       | Some parent => Project (parent_trail parent)
                                          (Some (er_name r, sel_number s))
                       | None => Repository (er_name r) (sel_number s)
                       end.
Proof.
  intros [Hf Hp Hl Hsel] Hs Hn Hr Hpar. unfold entire_address.
  destruct (pin_parent p) as [parent|].
  - destruct Hpar as [(H1 & H2 & H3 & H4 & H5) _]. rewrite Hl in H3.
    exists (mkTrailAddress (bs "entire.com") (trail_forge a) (trail_project a)
              (Project (parent_trail parent) (Some (er_name r, sel_number s)))).
    split_and!; [|by split|done..].
    unfold canonical_url, change_url, entire_root. cbn. by rewrite H2, H3, <- !app_assoc.
  - exists (mkTrailAddress (bs "entire.com") (trail_forge a) (trail_project a)
              (Repository (er_name r) (sel_number s))).
    split_and!; [|by split|done..]. unfold selects in Hs. unfold canonical_url, change_url, entire_root.
    cbn. destruct (selection a) as [n [[repo m]|]|repo n]; [|by rewrite Hs in Hpar|done].
    destruct Hs as (_ & _ & Hs). by rewrite Hs in Hpar.
Qed.

(** A snapshot can be opened again: the address kept with its target is the one the provider
    offers for reopening, and it is accepted and names the same forge, project, repository and
    Change, and the Trail the address was opened with, if it named one. *)
Theorem entire_reopens value a tr snap :
  UrlLaws url_ → parsed_host (bs "entire.com") →
  TrailAddress_parse value = Ok a → run (entire_snapshot reader a) tr (Some (Ok snap)) →
  ∃ t e a', remote snap = Some t ∧ entire t = Some e ∧ entire_reopen_address t = address e ∧
    TrailAddress_parse (address e) = Ok a' ∧
    trail_forge a' = trail_forge a ∧ trail_project a' = trail_project a ∧
    (∃ trail, selection a' = Project trail (Some (repository_name (repository t), pr t)) ∨
              selection a' = Repository (repository_name (repository t)) (pr t)) ∧
    match selection a with
    | Repository repo n =>
        eq_ignore_ascii_case (repository_name (repository t)) repo = true ∧ pr t = n
    | Project trail (Some (repo, n)) =>
        eq_ignore_ascii_case (repository_name (repository t)) repo = true ∧ pr t = n ∧
        selection a' = Project trail (Some (repository_name (repository t), n))
    | Project trail None =>
        selection a' = Project trail (Some (repository_name (repository t), pr t))
    end.
Proof.
  intros laws Hhost Ha%TrailAddress_parse_Ok H.
  destruct (snapshot_target a tr snap Ha H)
    as (account & s & r & p & before & after & Hr & Hacc & Hs & Hn & (d & Hd) & Hp).
  apply read_repository_Ok in Hd as (H1 & H2 & H3 & H4 & H5).
  apply Pins_read_Ok in Hp as (P1 & _ & P2 & P3 & P4 & P5 & P6 & P7).
  destruct (entire_address_canonical a s r p Ha Hs Hn H4 P7)
    as (a' & Hc & Ha' & Hh' & Hf' & Hp' & Hsel').
  assert (TrailAddress_parse (entire_address a s r p) = Ok a') as Hparse.
  { rewrite Hc, (parse_canonical laws Hhost a' Ha'). destruct a'; cbn in *. by subst. }
  eexists _, (entire_target a s r p), a'. split; [exact Hr|]. split; [done|].
  split; [|split; [exact Hparse|]].
  { unfold entire_reopen_address. cbn. by rewrite Hparse. }
  split; [done|]. split; [done|]. cbn. split.
  { rewrite Hsel'. destruct (pin_parent p) as [parent|];
      [exists (parent_trail parent); by left|exists 0%N; by right]. }
  rewrite Hsel'. unfold selects in Hs.
  destruct (selection a) as [n [[repo m]|]|repo n].
  - destruct Hs as (<- & <- & Hpn). split_and!; [done..|].
    destruct (pin_parent p) as [parent|]; [|by rewrite Hpn in P7]. destruct P7 as [_ P7].
    by rewrite (P7 _ Hpn).
  - destruct (pin_parent p) as [parent|]; [|by rewrite Hs in P7]. destruct P7 as [_ P7].
    by rewrite (P7 _ Hs).
  - by destruct Hs as (<- & <- & _).
Qed.

(** ** Source files *)

Lemma raw_body_Ok b body :
  raw_body b = Ok body →
  b = body ++ CURL_STATUS ++ bs "200" ∧ (N.of_nat (length body) <= MAX_RESPONSE)%N.
Proof.
  unfold raw_body. cbv zeta. set (n := (length CURL_STATUS + 3)%nat).
  destruct (Nat.ltb_spec (length b) n) as [|Hn]; [done|].
  destruct (bool_decide (take _ _ = CURL_STATUS)) eqn:E1; [|done].
  destruct (bool_decide (drop _ b = bs "200")) eqn:E2; [|done].
  destruct (N.ltb_spec MAX_RESPONSE (N.of_nat (length b - n))) as [|Hm]; [done|].
  cbn [negb]. intros [= <-]. apply bool_decide_eq_true in E1, E2.
  rewrite length_take. split; [|by rewrite Nat.min_l by lia].
  rewrite <- (take_drop (length b - n) b) at 1. f_equal.
  rewrite <- (take_drop (length CURL_STATUS) (drop (length b - n) b)), E1, drop_drop. f_equal.
  rewrite <- E2. f_equal. unfold n in *. lia.
Qed.

(** A source file that is accepted is byte for byte the body that [curl] read with status
    200 from the snapshot's own placement, path and revision, which is the target's head or
    comparison base; the login was for the target's account. *)
Theorem entire_source_exact t path revision tr body :
  run (entire_source reader t path revision) tr (Some (Ok body)) →
  ∃ e h program l tr0 output,
    entire t = Some e ∧ provider t = ProviderId.ENTIRE ∧ curl reader = Some program ∧
    (revision = head t ∨ revision = comparison_base t) ∧ is_commit_id revision = true ∧
    is_placement_id (placement_id e) = true ∧ is_ok (RepoPath.new path) = true ∧
    api_origin_of (api_origin e) = Ok (bs "https://" ++ h) ∧ api_host h ∧
    (∃ t1 t2, tr0 = t1 ++ t2 ∧ run (login reader) t1 (Some (Ok l)) ∧
              run (account_id reader l) t2 (Some (Ok (account t)))) ∧
    tr = tr0 ++ [Event (RunTool (curl_run program
           (bs "https://" ++ h
            ++ with_query (bs "/api/v1/git/repos/" ++ placement_id e ++ bs "/raw/"
                           ++ Export.encode path) [(bs "ref", revision)]) l)) (Ok output)] ∧
    success (status output) = true ∧
    stdout output = body ++ CURL_STATUS ++ bs "200" ∧
    (N.of_nat (length body) <= MAX_RESPONSE)%N.
Proof.
  intros H. unfold entire_source in H.
  destruct (bool_decide (provider t = _)) eqn:Epr; cbn [negb] in H; [|by apply throw_run in H].
  run_step H as e t' He. run_pure He. apply ok_or_Ok in He.
  run_step H as o t' Ho. run_pure Ho.
  destruct (negb (is_placement_id _) || _ || _) eqn:Ec; [by apply throw_run in H|].
  run_step H as rp t' Hrp. run_pure Hrp. destruct (contains_byte _ _); [by apply throw_run in H|].
  run_step H as program t' Hcu. run_pure Hcu. apply ok_or_Ok in Hcu.
  run_step H as l t1 H1. run_step H as account' t2 H2.
  destruct (bool_decide (account' = account t)) eqn:Ea; cbn [negb] in H; [|by apply throw_run in H].
  apply bool_decide_eq_true in Ea as ->. cbv zeta in H. run_step H as output t3 H3.
  unfold run_tool in H3. run_step H3 as res t4 Hres. apply run_op_Ok in Hres as ->.
  cbn [run try_] in H3. destruct H3 as [-> [= <-]].
  destruct (success (status output)) eqn:Es; cbn [negb] in H; [|by apply throw_run in H].
  run_pure H. apply raw_body_Ok in H as [Hb Hm].
  pose proof (api_origin_of_Ok _ _ Ho) as (h & -> & Hh).
  exists e, h, program, l, (t1 ++ t2), output. rewrite <- !app_assoc in *.
  apply orb_false_iff in Ec as [[Epl%negb_false_iff Ecid%negb_false_iff]%orb_false_iff Erev].
  apply bool_decide_eq_true in Epr.
  split_and!; try done.
  - destruct (decide (revision = head t)); [by left|].
    destruct (decide (revision = comparison_base t)); [by right|].
    by rewrite !bool_decide_false in Erev.
  - by rewrite Hrp.
  - by exists t1, t2.
Qed.
End provider.

(** ** A small Entire, for concrete runs *)

Section sample.
#[local] Instance prefix_sha : Sha256 := λ s, take 32 s.
#[local] Instance origin_source : SourceJson := {| source_json _ o _ _ := o; entire_json _ := [] |}.

Definition sample_placement : bytes := bs "01ARZ3NDEKTSV4RRFFQ69G5FAV".
Definition sample_commit : bytes := replicate 40 Byte.x61.
Definition sample_documents : list (bytes * json) :=
  [(bs "claims", JObj [(bs "aud", JArr [JNum 3; JStr (bs "cli"); JStr (bs "https://auth.entire.io/")])]);
   (bs "me", JObj [(bs "global", JObj [(bs "accountId", JStr (bs "acct_1"))])]);
   (bs "repos", JObj [(bs "repos", JArr [JObj
      [(bs "id", JStr (bs "repo-1")); (bs "full_name", JStr (bs "gh/acme/App"));
       (bs "primaries", JObj [(bs "processing", JStr sample_placement)]);
       (bs "placements", JArr [JObj
          [(bs "id", JStr sample_placement); (bs "status", JStr (bs "ready"));
           (bs "apiBaseUrl", JStr (bs "https://us1.api.entire.io/"))]])]])]);
   (bs "change", JObj
      [(bs "id", JStr (bs "ch-1")); (bs "number", JNum 7); (bs "title", JStr (bs "Fix"));
       (bs "status", JStr (bs "open")); (bs "base_sha", JStr sample_commit);
       (bs "head_sha", JStr sample_commit); (bs "merge_base_sha", JStr sample_commit)]);
   (bs "none", JNull)].
(** The example's JSON text is the name of a document. *)
#[local] Instance named_json : JsonValue := {|
  Value := json; index := json_index; pointer := json_pointer;
  as_u64 := @as_u64 sample_json; as_str := @as_str sample_json; as_bool := @as_bool sample_json;
  as_array := @as_array sample_json; is_null := @is_null sample_json;
  is_object := @is_object sample_json; json_eqb := json_same;
  json_null := JNull; json_str := JStr; json_num := JNum; json_object := JObj;
  to_vec _ := []; from_slice s := ok_or (get s sample_documents) (bs "no such document")
|}.
#[local] Instance one_file : ComparisonJson :=
  λ _, Some (mkComparison [mkChangedFile (bs "f") None (bs "modified") false false] false).
#[local] Instance no_context : ContextJson named_json := {| gate_of _ := None; run_of _ := None |}.

Definition sample_reader : EntireReader := mkEntireReader (bs "entire") (Some (bs "curl")).
Definition sample_output (r : ToolRun) : bytes :=
  let endpoint := default [] (last (tool_args r)) in
  if bool_decide (endpoint = bs "token") then bs "e30.Y2xhaW1z.x"
  else if bool_decide (endpoint = bs "/api/v1/me") then bs "me"
  else if starts_with (bs "/api/v1/repos?") endpoint then bs "repos"
  else if ends_with (bs "/trails/7") endpoint then bs "change"
  else if contains (bs "/diff?") endpoint
  then bs "diff --git a/f b/f" ++ [LF] ++ bs "--- a/f" ++ [LF] ++ bs "+++ b/f" ++ [LF]
       ++ bs "@@ -1 +1 @@" ++ [LF] ++ bs "-x" ++ [LF] ++ bs "+y" ++ [LF]
  else if bool_decide (tool r = bs "curl") then bs "y" ++ [LF] ++ CURL_STATUS ++ bs "200"
  else bs "none".
Definition sample_answer (_ : unit) (R : Type) (c : EntireCall R) : option (R * unit) :=
  match c with
  | RunTool r => Some (Ok (mkProcessOutput (Some 0%Z) (sample_output r) (bs "HTTP/2.0 200 OK")), tt)
  | IsCancelled => Some (false, tt)
  | UnixTime => Some (0%N, tt)
  | PanicNow => None
  end.

Definition sample_value : bytes := bs "https://entire.com/gh/Acme/app/trails/7/".
Definition sample_trail : TrailAddress :=
  mkTrailAddress (bs "entire.com") (bs "gh") (bs "acme") (Repository (bs "app") 7).
Definition sample_capture := play sample_answer tt (entire_snapshot sample_reader sample_trail).
Definition succeeded {A} (o : option (list (Programs.event EntireCall) * option (result AdapterError A)))
    : bool :=
  match o with Some (_, Some (Ok _)) => true | _ => false end.

Lemma sample_captured :
  ∃ tr snap, run (entire_snapshot sample_reader sample_trail) tr (Some (Ok snap)).
Proof.
  destruct sample_capture as [[tr [[snap|e]|]]|] eqn:E.
  1: exists tr, snap; exact (run_play _ _ _ _ _ E).
  all: assert (succeeded sample_capture = true) as H by (vm_compute; reflexivity);
    rewrite E in H; discriminate H.
Qed.

Definition sample_source_target : RemoteTarget :=
  mkRemoteTarget ProviderId.ENTIRE (mkRepositoryKey (bs "entire.com") 0 (bs "acme") (bs "App"))
    (bs "acct_1") 7 sample_commit sample_commit sample_commit true false false false None
    (Some (mkEntireTarget (bs "gh") (bs "repo-1") sample_placement (bs "ch-1")
             (bs "https://us1.api.entire.io") [] None)).

(** The second call of a run is a tool's. *)
Definition tool_second (tr : list (Programs.event EntireCall)) : bool :=
  match tr with _ :: @Event _ _ (RunTool _) _ :: _ => true | _ => false end.
Lemma login_stays_with_entire_witness :
  ∃ tr1 r answer tr2 snap,
    tr1 ≠ [] ∧ tr2 ≠ [] ∧
    run (entire_open (Some sample_reader) sample_value) (tr1 ++ Event (RunTool r) answer :: tr2)
      (Some (Ok snap)) ∧
    (r = login_run sample_reader ∨
     ∃ t, after logged_in None tr1 = Some t ∧ token_run sample_reader t r).
Proof.
  destruct (play sample_answer tt (entire_open (Some sample_reader) sample_value))
    as [[tr o]|] eqn:E.
  2:{ assert (succeeded (play sample_answer tt (entire_open (Some sample_reader) sample_value)) = true)
        as H by (vm_compute; reflexivity). rewrite E in H. discriminate H. }
  assert (succeeded (play sample_answer tt (entire_open (Some sample_reader) sample_value)) = true
    ∧ match play sample_answer tt (entire_open (Some sample_reader) sample_value) with
      | Some (tr, _) => tool_second tr && negb (length tr <=? 2)%nat | None => false end = true)
    as [H1 H2] by (split; vm_compute; reflexivity).
  rewrite E in H1, H2. apply andb_true_iff in H2 as [H2 H3].
  destruct tr as [|e1 [|[R c x] tr2]]; [discriminate H2..|]. destruct c as [r| | |]; try discriminate H2.
  destruct o as [[snap|e]|]; [|discriminate H1..].
  exists [e1], r, x, tr2, snap. split; [discriminate|]. split; [by destruct tr2|].
  apply run_play in E. split; [exact E|].
  refine (login_stays_with_entire sample_reader sample_value
            sample_source_target [] [] ([e1] ++ Event (RunTool r) x :: tr2) [e1] r x tr2 _ eq_refl).
  left. by eexists.
Defined.

Lemma entire_snapshot_coherent_witness :
  ∃ tr snap l account s r t1 t2 t3 t4 t5 t6,
    run (entire_snapshot sample_reader sample_trail) tr (Some (Ok snap)) ∧
    tr = t1 ++ t2 ++ t3 ++ t4 ++ t5 ++ t6 ∧
    reading_of sample_reader l account sample_trail s r t6 snap.
Proof.
  destruct sample_captured as (tr & snap & H). exists tr, snap.
  destruct (entire_snapshot_coherent sample_reader sample_trail tr snap H)
    as (l & account & s & r & t1 & t2 & t3 & t4 & t5 & t6 & E & _ & _ & _ & _ & _ & Hc).
  by exists l, account, s, r, t1, t2, t3, t4, t5, t6.
Defined.

Lemma sample_value_parsed : TrailAddress_parse sample_value = Ok sample_trail.
Proof. by vm_compute. Qed.
Lemma sample_host : parsed_host (bs "entire.com").
Proof. exists (bs "https://entire.com/"), (bs "entire.com", bs "/"), (bs "entire.com"). by vm_compute. Qed.

Lemma entire_target_typed_witness :
  ∃ snap t e, remote snap = Some t ∧ entire t = Some e ∧ provider t = ProviderId.ENTIRE ∧
    is_placement_id (placement_id e) = true.
Proof.
  destruct sample_captured as (tr & snap & H).
  destruct (entire_target_typed sample_reader sample_value sample_trail tr snap sample_value_parsed H)
    as (t & e & ? & ? & ? & _ & _ & _ & _ & _ & _ & _ & _ & _ & ? & _).
  by exists snap, t, e.
Defined.

Lemma entire_reopens_witness :
  ∃ snap t e a', remote snap = Some t ∧ entire t = Some e ∧
    entire_reopen_address t = address e ∧ TrailAddress_parse (address e) = Ok a'.
Proof.
  destruct sample_captured as (tr & snap & H).
  destruct (entire_reopens sample_reader sample_value sample_trail tr snap plain_laws sample_host
              sample_value_parsed H) as (t & e & a' & ? & ? & ? & ? & _).
  by exists snap, t, e, a'.
Defined.

Lemma entire_source_exact_witness :
  ∃ tr body h l,
    run (entire_source sample_reader sample_source_target (bs "src/a b") sample_commit) tr
      (Some (Ok body)) ∧
    ∃ tr0 output, tr = tr0 ++ [Event (RunTool (curl_run (bs "curl")
           (bs "https://" ++ h
            ++ with_query (bs "/api/v1/git/repos/" ++ sample_placement ++ bs "/raw/"
                           ++ Export.encode (bs "src/a b")) [(bs "ref", sample_commit)]) l))
           (Ok output)] ∧
    stdout output = body ++ CURL_STATUS ++ bs "200".
Proof.
  set (p := entire_source sample_reader sample_source_target (bs "src/a b") sample_commit).
  assert (succeeded (play sample_answer tt p) = true) as Hs by (vm_compute; reflexivity).
  destruct (play sample_answer tt p) as [[tr [[body|]|]]|] eqn:E; [|discriminate Hs..].
  apply run_play in E. exists tr, body.
  destruct (entire_source_exact sample_reader _ _ _ _ _ E)
    as (e & h & program & l & tr0 & output & He & _ & Hc & _ & _ & _ & _ & _ & _ & _ & Htr & _ & Hb & _).
  injection He as <-. injection Hc as <-. exists h, l. split; [exact E|]. by exists tr0, output.
Defined.

(** A reader of gates for the example. *)
#[local] Instance gate_reader : ContextJson named_json := {|
  gate_of v := key ← as_str (index v (bs "key"));
    Some (mkGate named_json key [] None (as_str (index v (bs "status"))) None None
            (as_str (index v (bs "head_sha"))) (as_str (index v (bs "evaluated_at_sha"))) None None
            None v);
  run_of _ := None
|}.
Definition sample_gate : json :=
  JObj [(bs "key", JStr (bs "lint")); (bs "status", JStr (bs "passed"));
        (bs "head_sha", JStr sample_commit); (bs "evaluated_at_sha", JStr sample_commit)].
Definition sample_mergeability : json :=
  JObj [(bs "head_sha", JStr sample_commit); (bs "gates", JArr [sample_gate])].
Definition sample_overview : Overview := mkOverview None None None [] [] None [] [] [].
Definition sample_check : CheckRun :=
  mkCheckRun (bs "lint") (bs "Gate") (bs "completed") (Some (bs "success")) None.

Lemma evidence_pinned_witness :
  let m : Value := sample_mergeability in
  sample_check ∈ checks (apply_context m sample_commit sample_overview) ∧
  ∃ v g, v ∈ gate_values m ∧ gate_of v = Some g ∧ passed_at g sample_commit.
Proof.
  intros m.
  assert (sample_check ∈ checks (apply_context m sample_commit sample_overview)) as H.
  { replace (checks (apply_context m sample_commit sample_overview)) with [sample_check]
      by (vm_compute; reflexivity). by left. }
  split; [exact H|].
  destruct (evidence_pinned m sample_commit sample_overview sample_check H)
    as [Hin|(_ & _ & Hpass)]; [by apply elem_of_nil in Hin|]. by apply Hpass.
Defined.
End sample.
