(* ===== verification/LocalGit.v ===== *)
(** * Local Git repositories ([crates/adapters/src/local_git.rs])

    Runs of Git and looks at the file system are calls ([GitCall]), each with what it is given,
    so that a theorem can say what a snapshot of a repository runs and opens. The characters
    that [char::escape_debug] shows as they are depend on Unicode's tables, a parameter. *)

From S2P Require Import Prelude RustStr Utf8 Domain Patch Overview Snapshot Process Remote.
From S2P Require Import Github Programs.

Module LocalMode.
Inductive LocalMode := Compare (base head : bytes) | Staged | WorkingTree.
End LocalMode.
Notation LocalMode := LocalMode.LocalMode.

(** ** Paths *)

(** [Path::components]: a root, and the pieces that are neither empty nor [.]; a relative
    path keeps its first piece. *)
Definition normal_part (p : bytes) : bool :=
  negb (bool_decide (p = [])) && negb (bool_decide (p = bs ".")).
Definition components (p : bytes) : list bytes :=
  if starts_with [SLASH] p then [SLASH] :: List.filter normal_part (split_on SLASH p)
  else match split_on SLASH p with
       | first :: rest =>
           (if bool_decide (first = []) then [] else [first]) ++ List.filter normal_part rest
       | [] => []
       end.
(** [Path::starts_with]. *)
Fixpoint list_prefix (a b : list bytes) : bool :=
  match a, b with
  | [], _ => true
  | x :: a, y :: b => bool_decide (x = y) && list_prefix a b
  | _, [] => false
  end.
Definition path_starts_with (p base : bytes) : bool :=
  list_prefix (components base) (components p).

(** [Path::display]. *)
Definition display_lossy (p : bytes) : bytes := Utf8.encode (from_utf8_lossy p).

(** [{:?}] of a path: [char::escape_debug] on characters, [\xNN] on other bytes. *)
Class CharDebug := escape_debug : N → bytes.
Fixpoint debug_skip `{CharDebug} (chars raw : nat) (s : bytes) : bytes :=
  match s with
  | [] => []
  | b :: s' =>
      match chars, raw with
      | S k, _ => debug_skip k raw s'
      | O, S k => bs "\x" ++ hex2 true b ++ debug_skip 0 k s'
      | O, O => match decode1 s with
                | Some (c, len) => escape_debug c ++ debug_skip (pred len) 0 s'
                | None => bs "\x" ++ hex2 true b ++ debug_skip 0 (pred (invalid_len s)) s'
                end
      end
  end.
Definition debug_path `{CharDebug} (p : bytes) : bytes :=
  [QUOTE] ++ debug_skip 0 0 p ++ [QUOTE].

(** ** Calls *)

Record Metadata := mkMetadata { is_file : bool; mode : N }.

(** A run of Git with the variables that are taken from its environment; the file system. *)
Inductive GitCall : Type → Type :=
| VarNames : GitCall (list bytes)
| RunGit (r : ProcessRequest) (env_remove : list bytes)
    : GitCall (result AdapterError ProcessOutput)
| Canonicalize (p : bytes) : GitCall (result ErrorKind bytes)
| SymlinkMetadata (p : bytes) : GitCall (result ErrorKind Metadata)
| OpenNoFollow (p : bytes) : GitCall (result ErrorKind nat)
| ReadToEnd (file : nat) (limit : N) : GitCall (result ErrorKind bytes).
Notation git := (prog GitCall).

Definition io_call {A} (c : GitCall (result ErrorKind A)) : git A := r ← op c; try_io r.
Definition message {A} (m : bytes) : git A := throw (Message m).
Definition checked {A} (r : result bytes A) : git A := try_ (map_err Message r).

(** ** Running Git *)

Definition GIT_OPTIONS : list bytes :=
  [bs "--no-optional-locks"; bs "--literal-pathspecs"; bs "-c"; bs "core.fsmonitor=false";
   bs "-c"; bs "core.untrackedCache=false"; bs "-c"; bs "core.pager=cat"; bs "-C"].
Definition GIT_VARIABLES : list bytes :=
  [bs "GIT_DIR"; bs "GIT_WORK_TREE"; bs "GIT_INDEX_FILE"; bs "GIT_OBJECT_DIRECTORY";
   bs "GIT_ALTERNATE_OBJECT_DIRECTORIES"; bs "GIT_EXTERNAL_DIFF"; bs "GIT_DIFF_OPTS"].
(** Configuration that the environment gives to a single command. *)
Definition config_variable (k : bytes) : bool :=
  starts_with (bs "GIT_CONFIG_KEY_") (display_lossy k)
  || starts_with (bs "GIT_CONFIG_VALUE_") (display_lossy k)
  || bool_decide (k = bs "GIT_CONFIG_COUNT").
Definition git_request (program root : bytes) (args : list bytes) : ProcessRequest :=
  mkProcessRequest program (GIT_OPTIONS ++ [root] ++ args) None [] 60000 (32 * 1024 * 1024)
    (64 * 1024).

Definition object_id (b : bytes) : result bytes bytes :=
  if negb (utf8_valid b) then Err (bs "Git object ID was not ASCII")
  else
    let value := trim b in
    if negb ((length value =? 40)%nat || (length value =? 64)%nat)
       || negb (forallb is_ascii_hexdigit value)
    then Err (bs "Git returned an object ID with an invalid form")
    else Ok (to_ascii_lowercase value).

(** The arguments of one diff, whose rows the counted parser can read. *)
Definition DIFF_ARGS : list bytes :=
  [bs "-c"; bs "diff.suppressBlankEmpty=false"; bs "diff"; bs "--no-color"; bs "--no-ext-diff";
   bs "--no-textconv"; bs "--full-index"; bs "--src-prefix=a/"; bs "--dst-prefix=b/";
   bs "--find-renames"; bs "--submodule=short"].
Definition UNTRACKED_ARGS : list bytes :=
  [bs "ls-files"; bs "--others"; bs "--exclude-standard"; bs "-z"].

Definition revision_ok (value : bytes) : bool :=
  negb (bool_decide (value = []) || starts_with (bs "-") value || contains_byte NUL value).

(** [serde_json::to_vec] of a report, which two captures are compared by. *)
Class ReportJson := report_json : PatchReport → bytes.

(** [self] of [LocalGit] is the path of the Git program. *)
Section repository.
Context {sha_ : Sha256} {source_ : SourceJson} {report_ : ReportJson} {debug_ : CharDebug}.
Context (program : bytes).

Definition run_git (root : bytes) (args : list bytes) : git bytes :=
  vars ← op VarNames;
  res ← op (RunGit (git_request program root args)
              (GIT_VARIABLES ++ List.filter config_variable vars));
  out ← try_ res;
  if negb (success (status out))
  then message (bs "Git could not read the repository (exit " ++ debug_code (status out)
                ++ bs "); the worktree was left untouched")
  else mret (stdout out).

Definition resolve (root value : bytes) : git bytes :=
  if negb (revision_ok value) then message (bs "invalid revision expression")
  else
    raw ← run_git root [bs "rev-parse"; bs "--verify"; bs "--end-of-options";
                        value ++ bs "^{commit}"];
    checked (object_id raw).

Definition parse_diff (b : bytes) : git PatchReport :=
  match parse_patch b default_limits with
  | Some (Ok p) => mret p
  | Some (Err e) => throw (PatchFailed (PatchError_message e))
  | None => Pending
  end.
Definition patch_of (root : bytes) (extra : list bytes) : git PatchReport :=
  b ← run_git root (DIFF_ARGS ++ extra); parse_diff b.

(** ** Untracked files *)

Definition MAX_UNTRACKED : nat := 200.
Definition MAX_BYTES : N := 32 * 1024 * 1024.
Definition MAX_ROWS : N := 500000.
Definition MAX_LINE : nat := 1024 * 1024.

(** [as u32]. *)
Definition as_u32 (n : N) : N := n mod (u32_max + 1).

Definition count_rows (p : PatchReport) : N :=
  foldr N.add 0%N ((λ h, lenN (rows h)) <$> (files p ≫= hunks)).

Definition untracked_row (d : SourceDocument) (i : nat) (l : SourceLine) : PatchRow :=
  mkPatchRow None (Some (as_u32 (N.of_nat i) + 1)%N)
    (default [] (line_text d (as_u32 (N.of_nat i) + 1))) (ending l) RowKind.Added.
Definition untracked_hunk (d : SourceDocument) : Hunk :=
  mkHunk 0 0 1 (as_u32 (lenN (lines d))) [] (imap (untracked_row d) (lines d)).
Definition line_length (l : SourceLine) : nat := ((content l).2 - (content l).1)%nat.

(** The file change of one untracked file, whose rows come after [total] others. *)
Definition untracked_change (path : RepoPath) (executable : bool) (b : bytes) (total : N)
    : result bytes (FileChange * N) :=
  doc ← (if contains_byte NUL b then Ok None
         else match from_utf8 b with
              | Ok d => Ok (Some d)
              | Err InvalidUtf8 => Ok None
              | Err TooLarge => Err (bs "source is over 32 MiB; every byte remains accounted for")
              | Err TooManyLines => Err (bs "logical line count exceeds 1,000,000")
              | Err InvalidCoordinate => Err (bs "coordinate lies outside the source or splits a UTF-8 code point")
              end);
  let f := mkFileChange (digest [bs "file-v1"; []; RepoPath.path_bytes path]) None (Some path)
             ChangeKind.Added
             (if is_Some_b doc then ContentKind.Text else ContentKind.Binary) None
             (Some (if executable then bs "100755" else bs "100644")) None None []
             [bs "untracked file; the worktree was left unchanged"] in
  match doc with
  | Some d =>
      let total := (total + lenN (lines d))%N in
      if (MAX_ROWS <? total)%N then Err (bs "the local patch total is above 500,000 rows")
      else if existsb (λ l, (MAX_LINE <? line_length l)%nat) (lines d)
      then Err (bs "an untracked source line is over 1 MiB")
      else Ok (if bool_decide (lines d = []) then f else push_hunk (untracked_hunk d) f, total)
  | None =>
      Ok (push_metadata (bs "untracked binary content digest: "
                         ++ digest [bs "untracked-binary-v1"; b]) f, total)
  end.

Definition read_untracked (root : bytes) (path : RepoPath) (raw : bytes) : git (bytes * bool) :=
  let full := join_path root raw in
  meta ← io_call (SymlinkMetadata full);
  if negb (is_file meta)
  then message (bs "untracked item " ++ RepoPath.display path
                ++ bs " is not a regular file; stage or exclude it before snapshotting")
  else
    file ← io_call (OpenNoFollow full);
    b ← io_call (ReadToEnd file (MAX_BYTES + 1));
    if (MAX_BYTES <? lenN b)%N
    then message (bs "an untracked file exceeds 32 MiB; it was kept out explicitly")
    else mret (b, negb (N.land (mode meta) 73 =? 0)%N).

(** The loop over the paths. *)
Fixpoint add_untracked (root : bytes) (paths : list bytes) (total_bytes total_rows : N)
    (patch : PatchReport) : git PatchReport :=
  match paths with
  | [] => mret patch
  | raw :: paths =>
      path ← checked (RepoPath.new raw);
      '(b, executable) ← read_untracked root path raw;
      let total_bytes := (total_bytes + lenN b)%N in
      if (u64_max <? total_bytes)%N then message (bs "untracked byte count overflow")
      else if (MAX_BYTES <? total_bytes)%N
      then message (bs "all untracked content is over the 32 MiB cap")
      else
        '(f, total_rows) ← checked (untracked_change path executable b total_rows);
        add_untracked root paths total_bytes total_rows (mkPatchReport (files patch ++ [f]))
  end.

Definition listed (names : bytes) : list bytes :=
  List.filter (λ p, negb (bool_decide (p = []))) (split_on NUL names).
Definition untracked (root : bytes) (patch : PatchReport) : git PatchReport :=
  names ← run_git root UNTRACKED_ARGS;
  let paths := listed names in
  if (MAX_UNTRACKED <? length paths)%nat
  then message (bs "over 200 files are untracked; use staged mode or narrow the set first")
  else add_untracked root paths 0 (count_rows patch) patch.

(** ** Snapshots *)

(** The top level of the repository [path] is in; Git itself must not be inside it. *)
Definition repository_root (path : bytes) : git bytes :=
  inside ← io_call (Canonicalize path);
  raw ← run_git inside [bs "rev-parse"; bs "--show-toplevel"];
  root ← io_call (Canonicalize (default raw (strip_suffix [LF] raw)));
  let refuse : git bytes :=
    message (bs "the Git executable cannot live inside the repository under review") in
  if path_starts_with program root then refuse
  else
    real ← io_call (Canonicalize program);
    if path_starts_with real root then refuse else mret root.

Definition compare_snapshot (root base head : bytes) : git Snapshot :=
  base_oid ← resolve root base;
  head_oid ← resolve root head;
  raw ← run_git root [bs "merge-base"; base_oid; head_oid];
  common ← checked (object_id raw);
  patch ← patch_of root [common; head_oid; bs "--"];
  mret (with_origin
          (display_lossy root ++ bs " · " ++ base ++ bs "…" ++ head ++ bs " · "
           ++ take 12 common ++ bs " → " ++ take 12 head_oid)
          patch None [] (bs "git:" ++ debug_path root ++ bs ":" ++ common ++ bs ":" ++ head_oid)).

(** One of the two captures of a round. *)
Definition capture_local (root : bytes) (staged : bool) : git PatchReport :=
  a ← patch_of root (if staged then [bs "--cached"; bs "--"] else [bs "--"]);
  if staged then mret a else untracked root a.
Definition local_snapshot (root : bytes) (staged : bool) (patch : PatchReport) : Snapshot :=
  with_origin
    (display_lossy root ++ bs " · "
     ++ (if staged then bs "staged" else bs "working tree + untracked") ++ bs " (double-captured)")
    patch None []
    (bs "git:" ++ debug_path root ++ bs ":" ++ (if staged then bs "staged" else bs "worktree")).
Fixpoint double_capture (rounds : nat) (root : bytes) (staged : bool) : git Snapshot :=
  match rounds with
  | O => message (bs "the local source changed during capture; the previous session was preserved")
  | S rounds =>
      a ← capture_local root staged;
      b ← capture_local root staged;
      if bool_decide (report_json a = report_json b) then mret (local_snapshot root staged a)
      else double_capture rounds root staged
  end.

Definition git_snapshot (path : bytes) (m : LocalMode) : git Snapshot :=
  root ← repository_root path;
  match m with
  | LocalMode.Compare base head => compare_snapshot root base head
  | LocalMode.Staged => double_capture 3 root true
  | LocalMode.WorkingTree => double_capture 3 root false
  end.
End repository.
