(* ===== verification/LocalGitRuns.v ===== *)
(** * Runs of local Git repositories

    How untracked files become rows, which runs of Git and which files a snapshot of a
    repository may use, that it ends, and what a snapshot that is accepted holds. *)

From S2P Require Import Prelude RustStr Utf8 Domain Patch PatchFacts Overview Snapshot.
From S2P Require Import SnapshotFacts Process.
From S2P Require Import Remote Github Programs LocalGit.

(** ** Untracked files as rows *)

Lemma utf8_valid_around (b : byte) p r :
  (bN b < 128)%N → utf8_valid (p ++ b :: r) = true → utf8_valid p = true ∧ utf8_valid r = true.
Proof.
  intros Hb Hv.
  assert (is_char_boundary (p ++ b :: r) (length p) = true) as Hc.
  { destruct p as [|x p]; [done|]. unfold is_char_boundary. cbn [length].
    change (S (length p)) with (length (x :: p)). rewrite list_lookup_middle by done.
    unfold is_cont. rewrite between_false by lia. done. }
  apply utf8_valid_cut in Hc as (Hp & Hr & _); [|done].
  rewrite take_app_length in Hp. rewrite drop_app_length in Hr. split; [done|].
  unfold utf8_valid in *. rewrite utf8_decode_ascii_cons in Hr by done.
  by destruct (utf8_decode r).
Qed.
Lemma split_on_valid (c : byte) s :
  (bN c < 128)%N → utf8_valid s = true → Forall (λ w, utf8_valid w = true) (split_on c s).
Proof.
  intros Hc. rewrite <- (join_split_on c s) at 1.
  induction (split_on c s) as [|w ws IH]; [constructor|]. destruct ws as [|w' ws].
  { intros Hw. by constructor. }
  change (join [c] (w :: w' :: ws)) with (w ++ c :: join [c] (w' :: ws)).
  intros [Hw Hr]%utf8_valid_around; [|done]. constructor; [done|by apply IH].
Qed.
Lemma reference_lines_valid s :
  utf8_valid s = true → Forall (λ l, utf8_valid l.1 = true) (reference_lines s).
Proof.
  intros Hs. apply (split_on_valid LF) in Hs; [|by vm_compute]. unfold reference_lines.
  induction Hs as [|w ws Hw Hws IH]; [constructor|]. destruct ws as [|w' ws].
  { destruct w; simpl; [constructor|]. by constructor. }
  change (close_pieces (w :: w' :: ws)) with (close_piece w :: close_pieces (w' :: ws)).
  constructor; [|by apply IH]. unfold close_piece.
  destruct (strip_suffix [CR] w) as [t|] eqn:E; [|done]. apply strip_suffix_Some in E as ->.
  by apply (utf8_valid_around CR t []) in Hw as [? _]; [|vm_compute].
Qed.

Lemma as_u32_small n : (n <= u32_max)%N → as_u32 n = n.
Proof. intros H. unfold as_u32. apply N.mod_small. unfold u32_max in *. lia. Qed.

Section rows.
Context (d : SourceDocument).
Hypothesis few : (lenN (lines d) <= MAX_ROWS)%N.

Lemma untracked_row_at i l :
  lines d !! i = Some l →
  untracked_row d i l = mkPatchRow None (Some (N.of_nat i + 1)%N) (slice (raw d) (content l))
                          (ending l) RowKind.Added.
Proof.
  intros Hl. pose proof (lookup_lt_Some _ _ _ Hl) as Hi.
  unfold untracked_row, lenN, MAX_ROWS in *. rewrite as_u32_small by (unfold u32_max; lia).
  f_equal. unfold line_text.
  assert (checked_sub (N.of_nat i + 1) 1 = Some (N.of_nat i)) as ->
    by (apply checked_sub_Some; lia).
  cbn [mbind option_bind]. by rewrite Nat2N.id, Hl.
Qed.
Lemma untracked_rows_lookup i r :
  imap (untracked_row d) (lines d) !! i = Some r ↔
  ∃ l, lines d !! i = Some l ∧
       r = mkPatchRow None (Some (N.of_nat i + 1)%N) (slice (raw d) (content l)) (ending l)
             RowKind.Added.
Proof.
  rewrite list_lookup_imap. destruct (lines d !! i) as [l|] eqn:El; cbn.
  - rewrite (untracked_row_at i l El). naive_solver.
  - naive_solver.
Qed.
Lemma untracked_rows_text :
  (λ r, (row_text r, row_ending r)) <$> imap (untracked_row d) (lines d) = read_lines d.
Proof.
  apply list_eq. intros i. rewrite list_lookup_fmap. unfold read_lines. rewrite list_lookup_fmap.
  destruct (imap _ _ !! i) as [r|] eqn:Er.
  - apply untracked_rows_lookup in Er as (l & -> & ->). done.
  - rewrite list_lookup_imap in Er. destruct (lines d !! i); done.
Qed.
Lemma untracked_numbers (rs : list PatchRow) k :
  (∀ i r, rs !! i = Some r → new_line r = Some (N.of_nat i + k)%N ∧ old_line r = None) →
  side_numbers Right rs = range k (length rs) ∧ side_numbers Left rs = [].
Proof.
  revert k. induction rs as [|r rs IH]; intros k Hr; [done|].
  destruct (Hr 0 r eq_refl) as [Hn Ho]. destruct (IH (k + 1)%N) as [H1 H2].
  { intros i r' Hi. destruct (Hr (S i) r' Hi) as [-> ->]. split; [f_equal; lia|done]. }
  assert (∀ s, side_numbers s (r :: rs) = match row_number r s with
                                          | Some n => n :: side_numbers s rs
                                          | None => side_numbers s rs
                                          end) as Hs by done.
  rewrite !Hs. cbn [row_number length]. rewrite Hn, Ho, range_cons, H1, H2.
  split; [f_equal; lia|done].
Qed.
Lemma untracked_hunk_wf :
  lines d ≠ [] → Forall (λ l, utf8_valid l.1 = true) (read_lines d) → hunk_wf (untracked_hunk d).
Proof.
  intros Hne Hv.
  assert (as_u32 (lenN (lines d)) = lenN (lines d)) as Hc.
  { apply as_u32_small. unfold MAX_ROWS, u32_max in *. lia. }
  assert (∀ i r, imap (untracked_row d) (lines d) !! i = Some r →
    new_line r = Some (N.of_nat i + 1)%N ∧ old_line r = None) as Hrow.
  { intros i r (l & _ & ->)%untracked_rows_lookup. done. }
  apply untracked_numbers in Hrow as [Hr Hl]. rewrite length_imap in Hr.
  constructor.
  - apply Forall_forall. intros r Hin. apply list_elem_of_lookup in Hin as [i Hi].
    rewrite <- untracked_rows_text in Hv. rewrite Forall_fmap in Hv.
    pose proof (Forall_lookup_1 _ _ _ _ Hv Hi) as Ht.
    apply untracked_rows_lookup in Hi as (l & _ & ->). by split_and!.
  - intros []; cbn [rows untracked_hunk side_start side_count old_start old_count new_start new_count].
    + done.
    + rewrite Hr, Hc. unfold lenN. by rewrite Nat2N.id.
  - intros []; cbn; [by split; [|left]|].
    rewrite Hc. unfold range_wf, MAX_ROWS, u32_max in *. split; [lia|]. right. lia.
Qed.
End rows.

(** What [untracked_change] makes of a file. *)
Definition text_of (f : FileChange) : bytes :=
  concat ((λ r, row_text r ++ LineEnding.ending_bytes (row_ending r)) <$> all_rows f).
Definition binary_note `{Sha256} (b : bytes) : bytes :=
  bs "untracked binary content digest: " ++ digest [bs "untracked-binary-v1"; b].
Definition untracked_note : bytes := bs "untracked file; the worktree was left unchanged".

Record captured `{Sha256} (path : RepoPath) (executable : bool) (b : bytes) (f : FileChange)
    : Prop := {
  cap_wf : file_wf f;
  cap_id : file_id f = digest [bs "file-v1"; []; RepoPath.path_bytes path];
  cap_path : old_path f = None ∧ new_path f = Some path;
  cap_mode : new_mode f = Some (if executable then bs "100755" else bs "100644");
  cap_content :
    (content_kind f = ContentKind.Text ∧ text_of f = b ∧ Patch.metadata f = [untracked_note]) ∨
    (content_kind f = ContentKind.Binary ∧ hunks f = [] ∧
     Patch.metadata f = [untracked_note; binary_note b])
}.

Lemma single_file_wf f :
  Forall hunk_wf (hunks f) → length (hunks f) ≤ 1 → is_Some (path f) → file_wf f.
Proof.
  intros Hh Hl Hp. constructor; [done| |done]. intros i h1 h2 _ H2.
  apply lookup_lt_Some in H2. lia.
Qed.

Lemma all_rows_single f h : hunks f = [h] → all_rows f = rows h.
Proof. unfold all_rows. intros ->. cbn. by rewrite app_nil_r. Qed.

Lemma untracked_change_captured `{Sha256} path executable b total f total' :
  untracked_change path executable b total = Ok (f, total') →
  captured path executable b f ∧ (total' = total + lenN (all_rows f))%N ∧
  (total' <= N.max total MAX_ROWS)%N.
Proof.
  unfold untracked_change. intros Hf. inv_bind Hf as doc Hdoc.
  destruct doc as [d|].
  - destruct (contains_byte NUL b); [done|].
    destruct (from_utf8 b) as [d'|[]] eqn:Ed; try done. injection Hdoc as ->.
    destruct (MAX_ROWS <? total + lenN (lines d))%N eqn:Em; [done|]. to_prop.
    destruct (existsb _ _); [done|]. injection Hf as <- <-.
    pose proof (from_utf8_roundtrip b d Ed) as Hb. pose proof (from_utf8_refines b) as Hr.
    rewrite Ed in Hr. destruct Hr as (_ & Hlines & _ & Hv & _).
    assert (lenN (lines d) <= MAX_ROWS)%N as Hfew by lia.
    apply reference_lines_valid in Hv. rewrite <- Hlines in Hv.
    destruct (lines d) as [|l ls] eqn:El.
    + rewrite bool_decide_true by done. unfold read_lines in Hb. rewrite El in Hb. cbn in Hb.
      subst b. split_and!; [|cbn; unfold lenN; cbn; lia|unfold lenN in *; cbn in *; lia].
      constructor; [|done..|by left]. apply single_file_wf; cbn; [constructor|lia|done].
    + rewrite bool_decide_false by done. rewrite <- El in *.
      assert (rows (untracked_hunk d) = imap (untracked_row d) (lines d)) as Hrows by done.
      set (f := push_hunk _ _).
      assert (all_rows f = imap (untracked_row d) (lines d)) as Hall.
      { by rewrite (all_rows_single f (untracked_hunk d)) by done. }
      split_and!; [|by rewrite Hall; unfold lenN; rewrite length_imap|lia].
      constructor; [|done..|left].
      * apply single_file_wf; [|cbn; lia|done]. constructor; [|constructor].
        apply untracked_hunk_wf; [done|by rewrite El|done].
      * split_and!; [done| |done]. unfold text_of. rewrite Hall, <- Hb.
        rewrite <- (untracked_rows_text d Hfew), <- list_fmap_compose. done.
  - injection Hf as <- <-. split_and!; [|cbn; unfold lenN; cbn; lia|lia].
    constructor; [|done..|by right]. apply single_file_wf; cbn; [constructor|lia|done].
Qed.

(** ** The protocol *)

(** What is known from the answers so far: the names of the environment's variables, the
    directory of the latest run of Git, where the Git program really is, and the latest path
    that was seen to be a regular file and no link. *)
Record Watch := mkWatch {
  w_vars : option (list bytes); w_dir : option bytes; w_real : option bytes;
  w_regular : option bytes
}.
Definition unwatched : Watch := mkWatch None None None None.

Definition is_oid (s : bytes) : bool :=
  ((length s =? 40)%nat || (length s =? 64)%nat) && forallb is_ascii_hexdigit s.

(** The commands that only read, with revisions that are no options. *)
Inductive reads_repository : list bytes → Prop :=
| rr_revision value :
    value ≠ [] → starts_with (bs "-") value = false → NUL ∉ value →
    reads_repository [bs "rev-parse"; bs "--verify"; bs "--end-of-options";
                      value ++ bs "^{commit}"]
| rr_merge_base a b :
    is_oid a = true → is_oid b = true → reads_repository [bs "merge-base"; a; b]
| rr_diff_commits a b :
    is_oid a = true → is_oid b = true → reads_repository (DIFF_ARGS ++ [a; b; bs "--"])
| rr_diff_index : reads_repository (DIFF_ARGS ++ [bs "--cached"; bs "--"])
| rr_diff_files : reads_repository (DIFF_ARGS ++ [bs "--"])
| rr_untracked : reads_repository UNTRACKED_ARGS.

(** ** Reports *)

Definition local_report `{Sha256} (p : PatchReport) : Prop :=
  Forall file_wf (files p) ∧
  Forall (λ f, file_id f =
    digest [bs "file-v1"; path_or_empty (old_path f); path_or_empty (new_path f)]) (files p) ∧
  (lenN (files p ≫= all_rows) <= MAX_ROWS)%N.

Lemma count_rows_all p : count_rows p = lenN (files p ≫= all_rows).
Proof.
  unfold count_rows. destruct p as [fs]. cbn [files].
  assert (∀ hs : list Hunk, foldr N.add 0%N ((λ h, lenN (rows h)) <$> hs) = lenN (hs ≫= rows)) as Hh.
  { induction hs as [|h hs IH]; [done|]. rewrite fmap_cons, bind_cons. cbn [foldr]. rewrite IH.
    unfold lenN. rewrite length_app. lia. }
  rewrite Hh. f_equal. unfold all_rows. induction fs as [|f fs IH]; [done|].
  rewrite !bind_cons, bind_app. by f_equal.
Qed.
Lemma parsed_report `{Sha256} b p :
  parse_patch b default_limits = Some (Ok p) → local_report p.
Proof.
  intros Hp. assert (lenN (files p ≫= all_rows) <= MAX_ROWS)%N as Hrows.
  { apply parse_patch_rows in Hp as [Hr _]. exact Hr. }
  apply parse_patch_report_ok in Hp as (Hw & Hi & _). done.
Qed.
Lemma captured_report `{Sha256} path x b p f total :
  local_report p → untracked_change path x b (count_rows p) = Ok (f, total) →
  local_report (mkPatchReport (files p ++ [f])) ∧
  total = count_rows (mkPatchReport (files p ++ [f])).
Proof.
  intros (Hw & Hi & Hr) Hf. apply untracked_change_captured in Hf as ([Hfw Hid [Ho Hn] _ _] & Ht & Hm).
  rewrite count_rows_all in *. cbn [files]. rewrite bind_app. cbn [mbind list_bind].
  rewrite app_nil_r. unfold lenN in *. rewrite length_app.
  split; [|lia]. split_and!; cbn [files].
  - by apply Forall_app_2; [|constructor].
  - apply Forall_app_2; [done|]. constructor; [|constructor]. by rewrite Hid, Ho, Hn.
  - rewrite bind_app. cbn [mbind list_bind]. rewrite app_nil_r. unfold lenN. rewrite length_app. lia.
Qed.

Section protocol.
Context (program : bytes).

Definition outside (w : Watch) (root : bytes) : Prop :=
  path_starts_with program root = false ∧
  ∃ real, w_real w = Some real ∧ path_starts_with real root = false.

Definition git_pre (w : Watch) (R : Type) (c : GitCall R) : Prop :=
  match c with
  | RunGit r env =>
      ∃ vars dir args,
        w_vars w = Some vars ∧ env = GIT_VARIABLES ++ List.filter config_variable vars ∧
        r = git_request program dir args ∧
        (args = [bs "rev-parse"; bs "--show-toplevel"] ∨ outside w dir ∧ reads_repository args)
  | OpenNoFollow p =>
      w_regular w = Some p ∧
      ∃ dir raw q, w_dir w = Some dir ∧ RepoPath.new raw = Ok q ∧ p = join_path dir raw
  | ReadToEnd _ limit => limit = (MAX_BYTES + 1)%N
  | _ => True
  end.
Definition git_next (w : Watch) (R : Type) (c : GitCall R) : R → Watch :=
  match c in GitCall R return R → Watch with
  | VarNames => λ vars, mkWatch (Some vars) (w_dir w) (w_real w) (w_regular w)
  | RunGit r _ => λ _, mkWatch (w_vars w) (args r !! length GIT_OPTIONS) (w_real w) (w_regular w)
  | Canonicalize p => λ res,
      match res with
      | Ok q => if bool_decide (p = program)
                then mkWatch (w_vars w) (w_dir w) (Some q) (w_regular w) else w
      | Err _ => w
      end
  | SymlinkMetadata p => λ res,
      mkWatch (w_vars w) (w_dir w) (w_real w)
        match res with Ok m => if is_file m then Some p else None | Err _ => None end
  | OpenNoFollow _ => λ _, w
  | ReadToEnd _ _ => λ _, w
  end.
Definition any_git (w : Watch) (R : Type) (c : GitCall R) (r : R) : Prop := True.
Definition git_keeps {A} := @follows GitCall Watch git_pre any_git git_next A.

(** A state predicate that holds at the end, with what a success returns. *)
Definition post {A} (I : Watch → Prop) (P : A → Prop) (w : Watch)
    (o : option (result AdapterError A)) : Prop :=
  I w ∧ match o with Some (Ok a) => P a | _ => True end.

Lemma keeps_seq {A B} (I1 I : Watch → Prop) (P : A → Prop) (P' : B → Prop) w p f :
  git_keeps (post I1 P) w p → (∀ w, I1 w → I w) →
  (∀ a w', I1 w' → P a → git_keeps (post I P') w' (f a)) → git_keeps (post I P') w (p ≫= f).
Proof.
  intros Hp HI Hf. apply follows_bind. eapply follows_mono; [|exact Hp].
  intros s [[a|e]|] [Hs Ha]; [by apply Hf|by split; [apply HI|]..].
Qed.
Lemma keeps_checked {A B} (I : Watch → Prop) (P : B → Prop) w (r : result bytes A) f :
  I w → (∀ a, r = Ok a → git_keeps (post I P) w (f a)) →
  git_keeps (post I P) w (checked r ≫= f).
Proof. intros Hw Hf. destruct r as [a|e]; cbn; [by apply Hf|by split]. Qed.

Definition settled (root : bytes) (w : Watch) : Prop := outside w root.
Definition settled_here (root : bytes) (w : Watch) : Prop := outside w root ∧ w_dir w = Some root.

Lemma run_git_keeps root args w :
  settled root w → reads_repository args →
  git_keeps (post (settled_here root) (λ _, True)) w (run_git program root args).
Proof.
  intros Hw Ha. unfold run_git. cbn. split; [done|]. intros vars _. split.
  { exists vars, root, args. split_and!; [done..|]. right. by split. }
  intros [out|e] _; cbn; [|done]. destruct (negb (success (status out))); cbn; done.
Qed.

Lemma object_id_is_oid b s : object_id b = Ok s → is_oid s = true.
Proof.
  unfold object_id. destruct (negb (utf8_valid b)); [done|].
  destruct (_ || _) eqn:E; [done|]. intros [= <-].
  apply orb_false_iff in E as [El%negb_false_iff Eh%negb_false_iff].
  unfold is_oid, to_ascii_lowercase. rewrite length_fmap. apply andb_true_intro. split; [done|].
  rewrite forallb_forall in Eh |- *. intros x Hx%list_elem_of_In.
  apply list_elem_of_fmap in Hx as (y & -> & Hy%list_elem_of_In). apply Eh in Hy.
  revert Hy. by destruct y.
Qed.

Section captures.
Context {sha_ : Sha256} {source_ : SourceJson} {report_ : ReportJson} {debug_ : CharDebug}.

Lemma parse_diff_keeps (I : Watch → Prop) w b :
  I w → git_keeps (post I local_report) w (parse_diff b).
Proof.
  intros Hw. unfold parse_diff. destruct (parse_patch b default_limits) as [[p|e]|] eqn:E; cbn.
  - split; [done|]. by eapply parsed_report.
  - done.
  - done.
Qed.
Lemma patch_of_keeps root extra w :
  settled root w → reads_repository (DIFF_ARGS ++ extra) →
  git_keeps (post (settled_here root) local_report) w (patch_of program root extra).
Proof.
  intros Hw He. unfold patch_of. eapply keeps_seq; [by apply run_git_keeps|done|].
  intros b w' Hw' _. by apply parse_diff_keeps.
Qed.

Lemma read_untracked_keeps root path raw w :
  settled_here root w → RepoPath.new raw = Ok path →
  git_keeps (post (settled_here root) (λ _, True)) w (read_untracked root path raw).
Proof.
  intros [Ho Hd] Hp. unfold read_untracked, io_call. cbn. split; [done|]. intros [m|e] _; cbn; [|done].
  destruct (is_file m); cbn; [|done]. split.
  { split; [done|]. by exists root, raw, path. }
  intros [fd|e] _; cbn; [|done]. split; [done|]. intros [b|e] _; cbn; [|done].
  destruct (MAX_BYTES <? lenN b)%N; cbn; done.
Qed.
Lemma add_untracked_keeps root paths tb w p :
  settled_here root w → local_report p →
  git_keeps (post (settled_here root) local_report) w
    (add_untracked root paths tb (count_rows p) p).
Proof.
  revert tb w p. induction paths as [|raw paths IH]; intros tb w p Hw Hp; [done|].
  cbn [add_untracked]. apply keeps_checked; [done|]. intros path Hpath.
  eapply keeps_seq; [by apply read_untracked_keeps|done|]. intros [b x] w' Hw' _. cbv zeta.
  destruct (u64_max <? _)%N; [done|]. destruct (MAX_BYTES <? _)%N; [done|].
  apply keeps_checked; [done|]. intros [f total] Hf.
  apply captured_report in Hf as [Hr ->]; [|done]. by apply IH.
Qed.
Lemma untracked_keeps root w p :
  settled root w → local_report p →
  git_keeps (post (settled_here root) local_report) w (untracked program root p).
Proof.
  intros Hw Hp. unfold untracked. eapply keeps_seq; [by apply run_git_keeps; [|constructor]|done|].
  intros names w' Hw' _. cbv zeta. destruct (MAX_UNTRACKED <? _); [done|]. by apply add_untracked_keeps.
Qed.
Lemma capture_local_keeps root staged w :
  settled root w →
  git_keeps (post (settled root) local_report) w (capture_local program root staged).
Proof.
  intros Hw. unfold capture_local. eapply (keeps_seq (settled_here root)).
  - apply patch_of_keeps; [done|]. destruct staged; constructor.
  - by intros w' [].
  - intros a w' [Hw' _] Ha. destruct staged; [done|]. eapply follows_mono; [|by apply untracked_keeps].
    intros w'' o [[] ?]. done.
Qed.

(** An accepted snapshot: whole, offline, and of a well-formed report. *)
Definition local_snapshot_ok (s : Snapshot) : Prop :=
  verify_identity s = true ∧ remote s = None ∧ local_report (patch s).
Lemma with_origin_ok t p o : local_report p → local_snapshot_ok (with_origin t p None [] o).
Proof. intros Hp. split_and!; [|done|done]. unfold verify_identity. by apply bool_decide_eq_true. Qed.

Lemma double_capture_keeps rounds root staged w :
  settled root w →
  git_keeps (post (settled root) local_snapshot_ok) w (double_capture program rounds root staged).
Proof.
  revert w. induction rounds as [|rounds IH]; intros w Hw; cbn [double_capture]; [done|].
  eapply keeps_seq; [by apply capture_local_keeps|done|]. intros a w1 Hw1 Ha.
  eapply keeps_seq; [by apply capture_local_keeps|done|]. intros b w2 Hw2 Hb.
  destruct (bool_decide _); [|by apply IH]. split; [done|]. by apply with_origin_ok.
Qed.

Lemma resolve_keeps root value w :
  settled root w →
  git_keeps (post (settled root) (λ s, is_oid s = true)) w (resolve program root value).
Proof.
  intros Hw. unfold resolve. destruct (revision_ok value) eqn:Ev; cbn [negb]; [|done].
  apply negb_true_iff, orb_false_iff in Ev as [[Hn Hd]%orb_false_iff Hz].
  apply bool_decide_eq_false in Hn, Hz.
  eapply (keeps_seq (settled_here root)); [by apply run_git_keeps; [|constructor]|by intros ? []|].
  intros raw w' [Hw' _] _. destruct (object_id raw) eqn:E; cbn; [|done].
  split; [done|]. by eapply object_id_is_oid.
Qed.
Lemma compare_keeps root base head w :
  settled root w →
  git_keeps (post (settled root) local_snapshot_ok) w (compare_snapshot program root base head).
Proof.
  intros Hw. unfold compare_snapshot.
  eapply keeps_seq; [by apply resolve_keeps|done|]. intros a w1 Hw1 Ha.
  eapply keeps_seq; [by apply resolve_keeps|done|]. intros b w2 Hw2 Hb.
  eapply (keeps_seq (settled_here root)); [by apply run_git_keeps; [|constructor]|by intros ? []|].
  intros raw w3 [Hw3 _] _. apply keeps_checked; [done|]. intros c Hc%object_id_is_oid.
  eapply (keeps_seq (settled_here root)); [|by intros ? []|].
  - apply patch_of_keeps; [done|]. by constructor.
  - intros p w4 [Hw4 _] Hp. split; [done|]. by apply with_origin_ok.
Qed.

Lemma snapshot_git_keeps path m :
  git_keeps (post (λ _, True) local_snapshot_ok) unwatched (git_snapshot program path m).
Proof.
  unfold git_snapshot. apply follows_bind.
  assert (∀ w root, settled root w →
    git_keeps (post (λ _, True) local_snapshot_ok) w
      match m with
      | LocalMode.Compare base head => compare_snapshot program root base head
      | LocalMode.Staged => double_capture program 3 root true
      | LocalMode.WorkingTree => double_capture program 3 root false
      end) as Hm.
  { intros w root Hw.
    eapply (follows_mono _ _ _ (post (settled root) local_snapshot_ok)); [by intros s o [_ H]|].
    destruct m; [by apply compare_keeps|by apply double_capture_keeps..]. }
  unfold repository_root, io_call. cbn [follows mbind prog_bind op]. split; [done|].
  intros [inside|e] _; cbn [try_io map_err follows prog_bind mbind]; [|done].
  unfold run_git. cbn [follows mbind prog_bind op]. split; [done|]. intros vars _. split.
  { exists vars, inside, [bs "rev-parse"; bs "--show-toplevel"]. split_and!; [done..|by left]. }
  intros [out|e] _; cbn [try_ follows prog_bind mbind]; [|done].
  destruct (negb (success (status out))); [done|]. cbn [follows mret prog_ret]. split; [done|].
  intros [root|e] _; cbn [try_io map_err follows prog_bind mbind]; [|done].
  destruct (path_starts_with program root) eqn:E1; [done|]. cbn [follows]. split; [done|].
  intros [real|e] _; cbn [try_io map_err follows prog_bind mbind]; [|done].
  destruct (path_starts_with real root) eqn:E2; [done|]. cbn [follows mret prog_ret]. apply Hm.
  split; [done|]. exists real. split; [|done]. cbn. by rewrite bool_decide_true.
Qed.
End captures.
End protocol.

(** ** What a snapshot may do *)

Section snapshots.
Context {sha_ : Sha256} {source_ : SourceJson} {report_ : ReportJson} {debug_ : CharDebug}.
Context (program : bytes).

Lemma local_git_run path m tr o :
  run (git_snapshot program path m) tr o →
  allowed (git_pre program) (git_next program) unwatched tr ∧
  post (λ _, True) local_snapshot_ok (after (git_next program) unwatched tr) o.
Proof.
  intros H.
  apply (follows_run (git_pre program) any_git (git_next program)
           (post (λ _, True) local_snapshot_ok) _ _ _ unwatched) in H; [done| |].
  - apply snapshot_git_keeps.
  - by apply admitted_any.
Qed.

(** C36: Whatever Git and the file system answer, every run of Git while a repository is read
    is one of the reading commands, in the options that switch off locks, monitors and pagers,
    without the variables that would redirect it, with revisions that cannot be options; all but
    the search for the top level run in a directory that holds the Git program neither by
    its path nor where it really is; and a file is opened only under the directory of the latest
    run, by a path that stays inside it, after it was seen to be a regular file. *)
Theorem local_git_reads_only path m tr o tr1 R (c : GitCall R) r tr2 :
  run (git_snapshot program path m) tr o → tr = tr1 ++ Event c r :: tr2 →
  git_pre program (after (git_next program) unwatched tr1) R c.
Proof.
  intros H ->. apply local_git_run in H as [Ha _].
  by apply (allowed_at (git_pre program) (git_next program)) in Ha.
Qed.

(** C40: An accepted snapshot of a repository has the identity of its content, no remote
    target, and a well-formed report: its hunks are in order with rows numbered without gaps,
    untracked files included, its files have the identities of their paths, and it has at most
    500,000 rows. *)
Theorem local_snapshot_whole path m tr s :
  run (git_snapshot program path m) tr (Some (Ok s)) → local_snapshot_ok s.
Proof. intros H. by apply local_git_run in H as [_ [_ H]]. Qed.

(** Reading a repository ends, whatever Git and the file system answer. *)
Theorem git_snapshot_answers path m : answers (git_snapshot program path m).
Proof.
  assert (∀ root args, answers (run_git program root args)) as Hrun.
  { intros. unfold run_git. answers_walk. }
  assert (∀ root extra, answers (patch_of program root extra)) as Hpatch.
  { intros. apply answers_bind; [apply Hrun|]. intros b. unfold parse_diff.
    destruct (parse_patch_total b default_limits) as [[]->]; done. }
  assert (∀ root paths tb n p, answers (add_untracked root paths tb n p)) as Hadd.
  { intros root paths. induction paths as [|raw paths IH]; intros tb n p; [done|].
    cbn [add_untracked]. apply answers_bind; [by destruct (RepoPath.new raw)|]. intros q.
    apply answers_bind; [unfold read_untracked, io_call; answers_walk|]. intros [b x]. cbv zeta.
    destruct (u64_max <? _)%N; [done|]. destruct (MAX_BYTES <? _)%N; [done|].
    apply answers_bind; [by destruct (untracked_change _ _ _ _)|]. intros [f k]. apply IH. }
  assert (∀ root staged, answers (capture_local program root staged)) as Hcap.
  { intros root staged. apply answers_bind; [apply Hpatch|]. intros a. destruct staged; [done|].
    apply answers_bind; [apply Hrun|]. intros names. cbv zeta. destruct (MAX_UNTRACKED <? _); [done|].
    apply Hadd. }
  assert (∀ n root staged, answers (double_capture program n root staged)) as Hdouble.
  { induction n as [|n IH]; intros root staged; [done|]. cbn [double_capture].
    apply answers_bind; [apply Hcap|]. intros a. apply answers_bind; [apply Hcap|]. intros b.
    destruct (bool_decide _); [done|apply IH]. }
  assert (∀ root v, answers (resolve program root v)) as Hresolve.
  { intros root v. unfold resolve. destruct (negb _); [done|]. apply answers_bind; [apply Hrun|].
    intros raw. by destruct (object_id raw). }
  apply answers_bind.
  - unfold repository_root, io_call. apply answers_bind; [by answers_walk|]. intros inside.
    apply answers_bind; [apply Hrun|]. intros raw. apply answers_bind; [by answers_walk|].
    intros root. cbv zeta. destruct (path_starts_with program root); [done|]. answers_walk.
  - intros root. destruct m; [|apply Hdouble..]. unfold compare_snapshot.
    repeat (apply answers_bind; [first [apply Hresolve|apply Hrun|apply Hpatch
              |match goal with |- context [object_id ?x] => by destruct (object_id x) end]|intros ?]).
    done.
Qed.

(** ** Two captures that agree *)

Definition staged_mode (m : LocalMode) : option bool :=
  match m with
  | LocalMode.Staged => Some true
  | LocalMode.WorkingTree => Some false
  | LocalMode.Compare _ _ => None
  end.

Lemma double_capture_run rounds root staged tr s :
  Inj (=) (=) report_json →
  run (double_capture program rounds root staged) tr (Some (Ok s)) →
  ∃ tr0 tr1 tr2,
    tr = tr0 ++ tr1 ++ tr2 ∧ s = local_snapshot root staged (patch s) ∧
    run (capture_local program root staged) tr1 (Some (Ok (patch s))) ∧
    run (capture_local program root staged) tr2 (Some (Ok (patch s))).
Proof.
  intros Hinj. revert tr. induction rounds as [|rounds IH]; intros tr H; cbn [double_capture] in H.
  { by destruct H as [_ [=]]. }
  apply run_bind_Ok in H as (a & t1 & t2 & Ha & H & ->).
  apply run_bind_Ok in H as (b & t3 & t4 & Hb & H & ->).
  case_bool_decide as Hab.
  - apply Hinj in Hab as <-. destruct H as [-> Hs].
    assert (s = local_snapshot root staged a) as -> by congruence.
    exists [], t1, t3. by rewrite app_nil_r.
  - apply IH in H as (tr0 & tr1 & tr2 & -> & H). exists (t1 ++ t3 ++ tr0), tr1, tr2.
    by rewrite <- !app_assoc.
Qed.

(** What is shown of the index or of the working tree was read twice in a row: the last
    two captures of the run, each a whole reading of the differences (and of the untracked files),
    gave the very report that the snapshot holds. *)
Theorem local_capture_stable path m staged tr s :
  Inj (=) (=) report_json → staged_mode m = Some staged →
  run (git_snapshot program path m) tr (Some (Ok s)) →
  ∃ root tr0 tr1 tr2,
    tr = tr0 ++ tr1 ++ tr2 ∧ s = local_snapshot root staged (patch s) ∧
    run (capture_local program root staged) tr1 (Some (Ok (patch s))) ∧
    run (capture_local program root staged) tr2 (Some (Ok (patch s))).
Proof.
  intros Hinj Hm H. apply run_bind_Ok in H as (root & t0 & t1 & _ & H & ->).
  assert (run (double_capture program 3 root staged) t1 (Some (Ok s))) as Hd
    by (by destruct m; try injection Hm as <-).
  apply double_capture_run in Hd as (tr0 & tr1 & tr2 & -> & H'); [|done].
  exists root, (t0 ++ tr0), tr1, tr2. by rewrite <- !app_assoc.
Qed.
End snapshots.

(** The change that a capture makes of an untracked file determines it: files with the
    same change have the same path, the same executable bit and the same bytes, unless they exhibit
    a SHA-256 collision; the rows of a text file are its bytes, every line and ending. *)
Theorem untracked_bytes_kept `{Sha256} p1 p2 x1 x2 b1 b2 n1 n2 m1 m2 f :
  (lenN b1 <= MAX_BYTES)%N → (lenN b2 <= MAX_BYTES)%N →
  untracked_change p1 x1 b1 n1 = Ok (f, m1) → untracked_change p2 x2 b2 n2 = Ok (f, m2) →
  p1 = p2 ∧ x1 = x2 ∧ (content_kind f = ContentKind.Text → text_of f = b1) ∧
  (b1 = b2 ∨ ∃ x y, x ≠ y ∧ sha256 x = sha256 y).
Proof.
  intros Hl1 Hl2 (H1 & _)%untracked_change_captured (H2 & _)%untracked_change_captured.
  destruct H1 as [_ _ [_ Hp1] Hm1 Hc1], H2 as [_ _ [_ Hp2] Hm2 Hc2].
  assert (x1 = x2) as ->.
  { rewrite Hm1 in Hm2. destruct x1, x2; try done; by apply (f_equal (λ o, bool_decide (o = Some (bs "100755")))) in Hm2. }
  split_and!; [congruence|done| |].
  - destruct Hc1 as [(_ & H1 & _)|(H1 & _)]; congruence.
  - destruct Hc1 as [(K1 & H1 & N1)|(K1 & _ & N1)], Hc2 as [(K2 & H2 & N2)|(K2 & _ & N2)];
      [left; congruence|congruence..|].
    assert (digest [bs "untracked-binary-v1"; b1] = digest [bs "untracked-binary-v1"; b2]) as Hd.
    { assert (binary_note b1 = binary_note b2) as Hn by congruence.
      unfold binary_note in Hn. by apply app_inv_head in Hn. }
    apply digest_collision in Hd as [Hd|Hd]; [left; congruence|by right| |];
      (repeat constructor; unfold part_fits, MAX_BYTES, u64_max in *; [by vm_compute|lia]).
Qed.

(** ** Witnesses: a repository with one untracked file *)

Section sample.
#[local] Instance sample_sha : Sha256 := λ s, s.
#[local] Instance sample_source : SourceJson :=
  {| source_json _ origin _ _ := origin; entire_json _ := [] |}.
#[local] Instance sample_report : ReportJson :=
  λ p, @source_json bits_json (serialize_path false) [] p None.
#[local] Instance sample_debug : CharDebug := encode_char.

Lemma split_at {A} n (l : list A) x r : drop n l = x :: r → l = take n l ++ x :: r.
Proof. intros <-. by rewrite take_drop. Qed.

Definition git_program : bytes := bs "/usr/bin/git".
Definition git_stdout (command : list bytes) : bytes :=
  match command with
  | w :: w' :: _ =>
      if bool_decide (w = bs "-c") then []
      else if bool_decide (w = bs "ls-files") then bs "new.txt" ++ [NUL]
      else if bool_decide (w' = bs "--show-toplevel") then bs "/r" ++ [LF]
      else replicate 40 Byte.x61 ++ [LF]
  | _ => []
  end.
Definition git_answer (_ : unit) (R : Type) (c : GitCall R) : R * unit :=
  (match c in GitCall R return R with
   | VarNames => [bs "HOME"; bs "GIT_CONFIG_COUNT"]
   | RunGit r _ => Ok (mkProcessOutput (Some 0%Z) (git_stdout (drop 10 (args r))) [])
   | Canonicalize p => Ok p
   | SymlinkMetadata _ => Ok (mkMetadata true 33261)
   | OpenNoFollow _ => Ok 3
   | ReadToEnd _ _ => Ok (bs "hi" ++ [CR; LF] ++ bs "there")
   end, tt).
Definition git_play (m : LocalMode) := simulate git_answer tt (git_snapshot git_program (bs "/r") m).
Lemma git_play_run m :
  run (git_snapshot git_program (bs "/r") m) (git_play m).1 (git_play m).2.
Proof. apply (run_simulate git_answer tt). Qed.
Lemma sample_report_inj : Inj (=) (=) report_json.
Proof.
  intros p q H. apply bits_json_laws.(source_json_inj) in H; [by destruct H as (_ & H & _)|apply _].
Qed.

Definition succeeds {A} (o : option (result AdapterError A)) : bool :=
  match o with Some (Ok _) => true | _ => false end.
Lemma git_play_ok m :
  succeeds (git_play m).2 = true →
  ∃ s, run (git_snapshot git_program (bs "/r") m) (git_play m).1 (Some (Ok s)).
Proof.
  intros H. pose proof (git_play_run m) as Hr. destruct (git_play m).2 as [[s|]|]; try done.
  by exists s.
Qed.

Lemma local_git_reads_only_witness :
  ∃ tr1 R (c : GitCall R) r tr2,
    (git_play LocalMode.WorkingTree).1 = tr1 ++ Event c r :: tr2 ∧
    git_pre git_program (after (git_next git_program) unwatched tr1) R c.
Proof.
  destruct (drop 11 (git_play LocalMode.WorkingTree).1) as [|[R c r] tr2] eqn:E.
  - assert (length (drop 11 (git_play LocalMode.WorkingTree).1) = 8%nat) as Hl
      by (vm_compute; reflexivity).
    rewrite E in Hl. discriminate.
  - exists (take 11 (git_play LocalMode.WorkingTree).1), R, c, r, tr2.
    assert ((git_play LocalMode.WorkingTree).1
            = take 11 (git_play LocalMode.WorkingTree).1 ++ Event c r :: tr2) as Htr
      by exact (split_at _ _ _ _ E).
    split; [exact Htr|].
    exact (local_git_reads_only git_program (bs "/r") LocalMode.WorkingTree _ _ _ R c r tr2
             (git_play_run _) Htr).
Defined.

Lemma local_snapshot_whole_witness :
  ∃ s, local_snapshot_ok s.
Proof.
  destruct (git_play_ok (LocalMode.Compare (bs "main") (bs "topic"))) as [s Hs];
    [vm_compute; reflexivity|].
  exists s. exact (local_snapshot_whole git_program (bs "/r") _ _ s Hs).
Defined.

Lemma local_capture_stable_witness :
  ∃ s root tr1 tr2,
    s = local_snapshot root false (patch s) ∧
    run (capture_local git_program root false) tr1 (Some (Ok (patch s))) ∧
    run (capture_local git_program root false) tr2 (Some (Ok (patch s))).
Proof.
  destruct (git_play_ok LocalMode.WorkingTree) as [s Hs]; [vm_compute; reflexivity|].
  destruct (local_capture_stable git_program (bs "/r") LocalMode.WorkingTree false _ s
              sample_report_inj eq_refl Hs) as (root & tr0 & tr1 & tr2 & _ & H).
  by exists s, root, tr1, tr2.
Defined.

Definition two_lines : bytes := bs "hi" ++ [CR; LF] ++ bs "there".
Definition two_line_path : RepoPath := RepoPath.mkRepoPath (bs "new.txt").
Lemma untracked_bytes_kept_witness :
  match untracked_change two_line_path true two_lines 5 with
  | Ok (f, n) => n = 7%N ∧ text_of f = two_lines
  | Err _ => False
  end.
Proof.
  destruct (untracked_change two_line_path true two_lines 5) as [[f n]|e] eqn:E.
  - destruct (untracked_bytes_kept two_line_path two_line_path true true two_lines two_lines 5 5 n n f
                ltac:(vm_compute; discriminate) ltac:(vm_compute; discriminate) E E)
      as (_ & _ & Ht & _).
    assert (match untracked_change two_line_path true two_lines 5 with
            | Ok (f, n) => bool_decide (content_kind f = ContentKind.Text) && (n =? 7)%N
            | Err _ => false
            end = true) as Hc by (vm_compute; reflexivity).
    rewrite E in Hc. apply andb_true_iff in Hc as [Hc%bool_decide_eq_true Hn%N.eqb_eq].
    split; [exact Hn|exact (Ht Hc)].
  - assert (is_ok (untracked_change two_line_path true two_lines 5) = true) as Hc
      by (vm_compute; reflexivity).
    rewrite E in Hc. discriminate.
Defined.
End sample.
