(* ===== verification/Service.v ===== *)
(** * The services of the window ([crates/adapters/src/service.rs])

    A method of [Services] is a program over [ServiceCall]: the store, the outbox, the read gate
    and the counter of identifiers, which the threads of a window share, and the providers, Git,
    the tools and the file system, which may answer anything. [serve] says what the shared parts
    answer and how they change; [window_step] interleaves the calls of any number of threads.
    The methods and errors are those of the traits [WorkbenchServices] and [ReviewProvider]
    ([crates/core/src/provider.rs], [crates/adapters/src/provider.rs]). *)

From S2P Require Import Prelude RustStr Utf8 Domain Patch BTree Overview Snapshot F32 Session.
From S2P Require Import Process Remote Github Gitlab Programs EntireContext Entire Handoff.
From S2P Require Import LocalGit Review Store Json Outbox.

#[export] Instance ReleaseFile_eq_dec : EqDecision ReleaseFile.
Proof. solve_decision. Defined.
#[export] Instance Release_eq_dec : EqDecision Release.
Proof. solve_decision. Defined.

(** ** Providers *)

(** [ReviewProvider], as far as it does not run anything: its rules, the two names the errors
    use, [accepts], and whether [remote] gives a writer. *)
Record ReviewProvider := mkReviewProvider {
  provider_rules : ReviewRules; provider_name : bytes; write_flag : bytes;
  takes_address : bytes → bool; provider_remote : result AdapterError unit
}.
Definition provider_id (p : ReviewProvider) : bytes := rules_id (provider_rules p).

Record Services := mkServices {
  providers : list ReviewProvider;
  outboxes : btree ReviewRules;
  git_program : option bytes;
  nonce : bytes;
  gh_program : option bytes;
  glab_program : option bytes
}.

(** The arguments of [register] are a provider and whether it may write. *)
Definition register (s : Services) (p : ReviewProvider) (writes : bool) : Services :=
  let rules := provider_rules p in
  let without := remove_key (rules_id rules) (outboxes s) in
  mkServices (providers s ++ [p])
    (if writes && negb (is_Some_b (read_only_reason rules)) && is_ok (provider_remote p)
     then insert_key (rules_id rules) rules without else without)
    (git_program s) (nonce s) (gh_program s) (glab_program s).
Definition register_all (s : Services) (ps : list (ReviewProvider * bool)) : Services :=
  foldl (λ s p, register s p.1 p.2) s ps.

(** The provider registered last with an id, and its place. *)
Definition find_provider (i : bytes) (ps : list ReviewProvider) : option (nat * ReviewProvider) :=
  find_map (λ p, if bool_decide (provider_id p.2 = i) then Some p else None)
    (reverse (imap Datatypes.pair ps)).
Definition provider_for (s : Services) (i : bytes) : result bytes (nat * ReviewProvider) :=
  ok_or (find_provider i (providers s)) (bs "No review provider named " ++ i ++ bs " is available").

(** The default of the trait, which the window uses for labels: the provider registered first. *)
Definition trait_provider (s : Services) (i : bytes) : option ReviewProvider :=
  find_map (λ p, if bool_decide (provider_id p = i) then Some p else None) (providers s).

Definition writes_enabled (s : Services) : bool := negb (bool_decide ((outboxes s).*1 = [])).
Definition writes_enabled_for (s : Services) (i : bytes) : bool := contains_key i (outboxes s).

(** [crates/adapters/src/error.rs]: the text of an error. *)
Class IoText := io_text : ErrorKind → bytes.
Definition error_text `{IoText} (e : AdapterError) : bytes :=
  match e with
  | Message m => m
  | Io k => bs "I/O operation failed: " ++ io_text k
  | Sql m => bs "draft store operation failed: " ++ m
  | Programs.Json m => bs "unexpected JSON document: " ++ m
  | PatchFailed m => m                             (* the text with its prefix *)
  end.

(** An error of the tables is SQLite's own, or the code's. *)
Definition sqlite_errors : list bytes :=
  [no_rows; no_snapshot; bs "UNIQUE constraint failed: outbox.id"].
Definition store_error (m : bytes) : AdapterError :=
  if bool_decide (m ∈ sqlite_errors) then Sql m else Message m.

(** ** Calls *)

(** One statement or transaction of the store; each holds the connection's lock. *)
Inductive StoreCall : Type → Type :=
| PutSnapshot (s : Snapshot) : StoreCall (result bytes unit)
| ShowRecent (i : SnapshotId) : StoreCall (result bytes unit)
| HideRecent (i : option SnapshotId) : StoreCall (result bytes unit)
| ReadSnapshot (i : SnapshotId) : StoreCall (result bytes Snapshot)
| ReadDrafts (i : SnapshotId) : StoreCall (list Draft)
| ReadView (i : SnapshotId) : StoreCall SavedView
| ReadRecent : StoreCall (list (SnapshotId * bytes))
| SaveBlame (i : SnapshotId) (key : bytes) (found : BlameRead) : StoreCall (result bytes unit)
| SaveDraft (d : Draft) : StoreCall (result bytes N)
| DiscardDraft (i : DraftId) (v : N) : StoreCall (result bytes unit)
| SaveView (i : SnapshotId) (v : SavedView) : StoreCall (result bytes unit)
| InsertPrepared (p : PreparedReview) (rules : ReviewRules) : StoreCall (result bytes OutboxEntry)
| ReadOperation (i : OperationId) : StoreCall (result bytes OutboxEntry)
| ReadOutbox : StoreCall (list OutboxEntry).

(** Lines of one path, and ranges of lines with the commit that last changed them. *)
Notation Span := (bytes * N * N)%type.
Notation Ranges := (list (N * N * bytes)).

Inductive ServiceCall : Type → Type :=
| Stored {R : Type} (c : StoreCall R) : ServiceCall R
| Acquire : ServiceCall (result AdapterError unit)              (* [permit] *)
| Release_permit : ServiceCall unit                             (* the permit is dropped *)
| IsCancelled : ServiceCall bool
| NextId : ServiceCall N
| PublishCheck (rules : ReviewRules) (p : PreparedReview)
    : ServiceCall (result bytes OutboxEntry)
| PublishWrite (rules : ReviewRules) (p : PreparedReview) (e : OutboxEntry)
    : ServiceCall (result bytes unit)
| PublishSend (rules : ReviewRules) (p : PreparedReview) (e : OutboxEntry) : ServiceCall unit
| PublishFinish (rules : ReviewRules) (p : PreparedReview) (e : OutboxEntry)
    : ServiceCall (result bytes OutboxEntry)
| Match (i : OperationId) : ServiceCall (result bytes OutboxEntry)
| Reconcile (rules : ReviewRules) (e : OutboxEntry) : ServiceCall (result bytes OutboxEntry)
| ProviderOpen (at_ : nat) (address : bytes) : ServiceCall (result AdapterError Snapshot)
| ProviderSource (at_ : nat) (t : RemoteTarget) (path revision : bytes)
    : ServiceCall (result AdapterError bytes)
| ProviderReleases (at_ : nat) (t : RemoteTarget)
    : ServiceCall (result AdapterError (list Release * list bytes))
| ProviderBlame (at_ : nat) (t : RemoteTarget) (spans : list Span)
    : ServiceCall (result AdapterError (list (option Ranges)))
| GitOp {R : Type} (c : GitCall R) : ServiceCall R
| CanonicalPath (p : bytes) : ServiceCall (result ErrorKind bytes)
| FileAt (p : bytes) : ServiceCall (result ErrorKind (bool * N * bytes))
| RunProgram (r : ProcessRequest) (env_remove : list bytes)
    : ServiceCall (result AdapterError ProcessOutput)
| PanicNow : ServiceCall Empty_set.                             (* never answered *)
Notation service := (prog ServiceCall).

Fixpoint embed {A} (p : git A) : service A :=
  match p with
  | Return r => Return r
  | Pending => Pending
  | Op c k => Op (GitOp c) (λ r, embed (k r))
  end.

Definition refuse {A} (m : bytes) : service A := throw (Message m).
Definition ensure {A} (r : result bytes A) : service A := try_ (map_err Message r).
Definition or_panics {A} (o : option A) : service A :=
  match o with Some a => mret a | None => e ← op PanicNow; match e : Empty_set with end end.
(** A read of the store that cannot fail, and one that can. *)
Definition stored {A} (c : StoreCall A) : service A := op (Stored c).
Definition store_ {A} (c : StoreCall (result bytes A)) : service A :=
  r ← op (Stored c); try_ (map_err store_error r).

(** The permit is dropped at the end of its scope, however that is left. *)
Definition with_permit {A} (p : service A) : service A :=
  _ ← (r ← op Acquire; try_ r);
  r ← catch p;
  _ ← op Release_permit;
  try_ r.

(** ** Publishing and reconciling ([crates/adapters/src/outbox.rs]) as calls *)

Definition outbox_publish (rules : ReviewRules) (p : PreparedReview) : service OutboxEntry :=
  r ← op (PublishCheck rules p);
  e ← try_ (map_err store_error r);
  r ← op (PublishWrite rules p e);
  _ ← try_ (map_err store_error r);
  if bool_decide (state e = OutboxState.Rejected) then mret e
  else
    _ ← op (PublishSend rules p e);
    r ← op (PublishFinish rules p e);
    try_ (map_err store_error r).
Definition outbox_reconcile (rules : ReviewRules) (i : OperationId) : service OutboxEntry :=
  r ← op (Match i);
  e ← try_ (map_err store_error r);
  if negb (bool_decide (state e = OutboxState.UnknownOutcome)) then mret e
  else r ← op (Reconcile rules e); try_ (map_err store_error r).

(** ** Fixtures ([crates/adapters/src/fixtures.rs]) *)

Definition sample_comment (i : N) (author body : bytes) : ThreadComment :=
  mkThreadComment i 6001 (bs "src/review.rs") (Some Right) (Some 12%N) None (Some false) body author
    [] (Some (bs "2026-09-04T10:" ++ dec_pad 2 (i mod 60) ++ bs ":00Z")).
Definition sample_overview : Overview :=
  mkOverview
    (Some (bs "## Sample offline review walkthrough" ++ [LF; LF]
           ++ bs "A **synthetic** fixture covering line threads, check status, compact rows, and scrolling across file boundaries."
           ++ [LF; LF] ++ bs "- Open the line 12 thread." ++ [LF]
           ++ bs "- Keep scrolling when a file boundary arrives; the view continues past it." ++ [LF]
           ++ bs "- Nothing here touches the network or performs a remote operation."))
    (Some (bs "sample-author")) (Some ReviewDecision.ChangesRequested)
    [mkCheckRun (bs "Example CI workflow") (bs "Workflow") (bs "in_progress") None None;
     mkCheckRun (bs "Example unit tests") (bs "Check") (bs "completed") (Some (bs "success")) None;
     mkCheckRun (bs "Example Linux build") (bs "Check") (bs "in_progress") None None;
     mkCheckRun (bs "Example formatting") (bs "Check") (bs "completed") (Some (bs "failure")) None]
    [bs "Offline UI testing uses these made-up statuses; they do not come from real CI runs."]
    (Some 0%N)
    [mkConversationComment 7001 (bs "sample-author")
       (bs "Two files and a single line thread holding two messages make up the sample.")
       (Some (bs "2026-09-04T09:58:00Z"))]
    [] [].
Definition decorate (s : Snapshot) (i : bytes) : Snapshot :=
  if negb (bool_decide (i = bs "F18")) then s
  else
    mkSnapshot (id s) (title s) (origin s) (patch s) (remote s)
      (comments s
       ++ [sample_comment 6001 (bs "sample-reviewer")
             (bs "<!-- hidden sample metadata -->" ++ [LF]
              ++ bs "Should the **original source text** of this line stay preserved here?");
           sample_comment 6002 (bs "sample-author")
             (bs "Yes. A wrapped fragment still maps to its original source coordinates.")])
      sample_overview (warnings s).

(** ** The methods *)

(** [Opened]. *)
Definition Opened : Type := Snapshot * list Draft * SavedView.

Section methods.
Context {sha_ : Sha256} {source_ : SourceJson} {review_ : ReviewJson} {key_ : ReleasesKey}
  {json_ : JsonValue} {report_ : ReportJson} {debug_ : CharDebug} {io_ : IoText}.
(** The patches that are compiled in ([fixtures::patch]). *)
Context (fixture_patch : bytes → option bytes).
Context (s : Services).

Definition cancelled_then {A} (m : bytes) (p : service A) : service A :=
  c ← op IsCancelled;
  if c : bool then refuse m else p.

(** The provider of an id, for a call that runs it. *)
Definition with_provider {A} (i : bytes) (f : nat → ReviewProvider → service A) : service A :=
  p ← ensure (provider_for s i); f p.1 p.2.

Definition read_patch (b : bytes) : service PatchReport :=
  r ← or_panics (parse_patch b default_limits);
  match r with
  | Ok p => mret p
  | Err e => throw (PatchFailed (PatchError_message e))
  end.

Definition open_fixture (i : bytes) : service Snapshot :=
  b ← ensure (ok_or (fixture_patch i) (bs "unknown/non-patch fixture"));
  p ← read_patch b;
  mret (decorate (with_origin (bs "Fixture " ++ i ++ bs " · offline") p None []
                    (bs "fixture:" ++ i)) i).
Definition open_patch_file (path : bytes) : service Snapshot :=
  r ← op (CanonicalPath path);
  path ← try_io r;
  r ← op (FileAt path);
  '(regular, len, data) ← try_io r;
  b ← ensure (read_bounded (32 * 1024 * 1024) regular len data);
  p ← read_patch b;
  mret (with_origin (display_lossy path) p None [] (bs "patch:" ++ debug_path path)).
Definition open_git (path : bytes) (m : LocalMode) : service Snapshot :=
  program ← ensure (ok_or (git_program s) (bs "Git was not found"));
  embed (git_snapshot program path m).

(** [Store::opened]. *)
Definition store_opened (i : SnapshotId) : service Opened :=
  _ ← store_ (ShowRecent i);
  snap ← store_ (ReadSnapshot i);
  ds ← stored (ReadDrafts i);
  v ← stored (ReadView i);
  mret (snap, ds, v).
(** What [load] does with a snapshot it has read from its source. *)
Definition store_read (read : service Snapshot) : service Opened :=
  snap ← read;
  _ ← store_ (PutSnapshot snap);
  _ ← store_ (ShowRecent (id snap));
  ds ← stored (ReadDrafts (id snap));
  v ← stored (ReadView (id snap));
  mret (snap, ds, v).
Definition load (r : OpenRequest) : service Opened :=
  with_permit
    (cancelled_then (bs "read cancelled")
       match r with
       | Resume i => store_opened i
       | Fixture i => store_read (open_fixture i)
       | PatchFile path => store_read (open_patch_file path)
       | Remote provider address =>
           store_read (with_provider provider (λ at_ _, r ← op (ProviderOpen at_ address); try_ r))
       | LocalGit root base head => store_read (open_git root (LocalMode.Compare base head))
       | LocalIndex root => store_read (open_git root LocalMode.Staged)
       | LocalWorktree root => store_read (open_git root LocalMode.WorkingTree)
       end).

Definition MAX_CONTEXT : N := 2 * 1024 * 1024.
Definition source_lines (t : RemoteTarget) (path revision : bytes) (start count : N)
    : service (list bytes) :=
  if (start =? 0)%N || (1000 <? count)%N
     || (negb (bool_decide (revision = head t)) && negb (bool_decide (revision = comparison_base t)))
  then refuse (bs "Invalid context request")
  else
    _ ← ensure (RepoPath.new path);
    with_permit
      (b ← with_provider (provider t) (λ at_ _, r ← op (ProviderSource at_ t path revision); try_ r);
       if (MAX_CONTEXT <? lenN b)%N then refuse (bs "Source context is over the 2 MiB cap")
       else if negb (utf8_valid b) then refuse (bs "Source is not UTF-8 text")
       else if contains_byte NUL b
       then refuse (bs "Binary input does not provide source lines")
       else mret (take (N.to_nat count) (drop (N.to_nat (start - 1)) (str_lines b)))).

(** The first file with a display path; the search panics on a file without one. *)
Fixpoint find_file (path : bytes) (fs : list FileChange) : option (option FileChange) :=
  match fs with
  | [] => Some None
  | f :: fs =>
      p ← display_path f;
      if bool_decide (p = path) then Some (Some f) else find_file path fs
  end.
Fixpoint blame_spans (snap : Snapshot) (paths : list bytes) : option (list Span) :=
  match paths with
  | [] => Some []
  | path :: paths =>
      f ← find_file path (files (patch snap));
      rest ← blame_spans snap paths;
      Some (match (f ← f; blame_span (overview snap) f) with
            | Some (first, last) => (path, first, last) :: rest
            | None => rest
            end)
  end.
(** One path with what was found for it: no ranges are no answer. *)
Definition attributed (snap : Snapshot) (span : Span) (found : option Ranges)
    : bytes * option (list Blamed) :=
  (span.1.1, attribute (releases (overview snap))
               <$> (r ← found; if bool_decide (r = []) then None else Some r)).
Definition blame_method (snap : Snapshot) (paths : list bytes) : service BlameRead :=
  t ← ensure (ok_or (remote snap) (bs "Release attribution needs a hosted compare"));
  spans ← or_panics (blame_spans snap paths);
  found ← with_permit
            (r ← catch (with_provider (provider t)
                          (λ at_ _, r ← op (ProviderBlame at_ t spans); try_ r));
             mret match r with Ok f => f | Err _ => replicate (length spans) None end);
  cancelled_then (bs "Release attribution was cancelled")
    (mret (extend [] (zip_with (attributed snap) spans found))).

(** The files that a release touched and the compare shows. *)
Definition retain_files (paths : list bytes) (r : Release) : Release :=
  mkRelease (tag r) (commit r) (date r) (commits r)
    (List.filter (λ f, bool_decide (rf_path f ∈ paths)) (release_files r)) (notes r) (url r) (shas r).
Definition set_releases (rs : list Release) (o : Overview) : Overview :=
  mkOverview (description o) (overview_author o) (decision o) (checks o) (notices o)
    (captured_at o) (conversation o) rs
    (if bool_decide (releases o = rs) then blame o else []).
Fixpoint add_warnings (ws old : list bytes) : list bytes :=
  match ws with
  | [] => old
  | w :: ws => add_warnings ws (if bool_decide (w ∈ old) then old else old ++ [w])
  end.
Definition with_releases (snap : Snapshot) (paths : list bytes) (rs : list Release)
    (ws : list bytes) : Snapshot :=
  mkSnapshot (id snap) (title snap) (origin snap) (patch snap) (remote snap) (comments snap)
    (set_releases (retain_files paths <$> rs) (overview snap)) (add_warnings ws (warnings snap)).
Definition releases_method (snap : Snapshot) : service Snapshot :=
  match (t ← remote snap; _ ← compare t; Some t) with
  | None => mret snap
  | Some t =>
      read ← catch (with_permit
                      (with_provider (provider t)
                         (λ at_ _, r ← op (ProviderReleases at_ t); try_ r)));
      let '(rs, ws) :=
        match read with
        | Ok read => read
        | Err e => ([], [bs "The releases in this range could not be listed: " ++ error_text e])
        end in
      paths ← or_panics (mapM display_path (files (patch snap)));
      let snap := with_releases snap paths rs ws in
      cancelled_then (bs "read cancelled")
        (_ ← store_ (PutSnapshot snap); mret snap)
  end.

(** [AtomicU64::fetch_add]. *)
Definition fresh_id : service bytes :=
  n ← op NextId; mret (nonce s ++ bs "-" ++ dec n).

Definition prepare_method (i : SnapshotId) (ds : list Draft) (v : Verdict) (sum : bytes)
    : service PreparedReview :=
  snap ← store_ (ReadSnapshot i);
  t ← ensure (ok_or (remote snap)
                (bs "offline source; a hosted review target is required"));
  with_provider (provider t) (λ _ p,
    let rules := provider_rules p in
    o ← fresh_id;
    p ← match prepare rules o snap ds v sum with
        | Ok p => mret p
        | Err (ReviewError m) => refuse m
        | Err Panic => or_panics None
        end;
    _ ← store_ (InsertPrepared p rules);
    mret p).

Definition publish_method (p : PreparedReview) : service OutboxEntry :=
  with_provider (provider (target p)) (λ _ pr,
    match read_only_reason (provider_rules pr) with
    | Some reason => refuse reason
    | None =>
        match get (provider (target p)) (outboxes s) with
        | None =>
            refuse (provider_name pr ++ bs " publication is disabled; restart with "
                    ++ write_flag pr ++ bs " to confirm a review")
        | Some rules => outbox_publish rules p
        end
    end).
Definition reconcile_method (i : OperationId) : service OutboxEntry :=
  e ← store_ (ReadOperation i);
  with_provider (provider (target (prepared e))) (λ _ p,
    _ ← try_ (provider_remote p);
    outbox_reconcile (provider_rules p) i).

(** A method called by the window, without the settings and the file of an export. *)
Inductive Method : Type → Type :=
| MOpen (r : OpenRequest) : Method Opened
| MSourceLines (t : RemoteTarget) (path revision : bytes) (start count : N) : Method (list bytes)
| MBlame (snap : Snapshot) (paths : list bytes) : Method BlameRead
| MSaveBlame (i : SnapshotId) (key : bytes) (found : BlameRead) : Method unit
| MSaveDraft (d : Draft) : Method N
| MDiscardDraft (i : DraftId) (v : N) : Method unit
| MSaveView (i : SnapshotId) (v : SavedView) : Method unit
| MRecent : Method (list (SnapshotId * bytes))
| MHideRecent (i : option SnapshotId) : Method unit
| MPrepare (i : SnapshotId) (ds : list Draft) (v : Verdict) (sum : bytes) : Method PreparedReview
| MPublish (p : PreparedReview) : Method OutboxEntry
| MOutbox : Method (list OutboxEntry)
| MReconcile (i : OperationId) : Method OutboxEntry
| MReleases (snap : Snapshot) : Method Snapshot.

Definition method {A} (m : Method A) : service A :=
  match m with
  | MOpen r => load r
  | MSourceLines t path revision start count => source_lines t path revision start count
  | MBlame snap paths => blame_method snap paths
  | MSaveBlame i key found => store_ (SaveBlame i key found)
  | MSaveDraft d => store_ (SaveDraft d)
  | MDiscardDraft i v => store_ (DiscardDraft i v)
  | MSaveView i v => store_ (SaveView i v)
  | MRecent => stored ReadRecent
  | MHideRecent i => store_ (HideRecent i)
  | MPrepare i ds v sum => prepare_method i ds v sum
  | MPublish p => publish_method p
  | MOutbox => stored ReadOutbox
  | MReconcile i => reconcile_method i
  | MReleases snap => releases_method snap
  end.
End methods.

(** ** The shared parts of a window *)

(** What one statement of the store answers, at the time [now], and the tables after it. *)
Definition ok_store {A} (a : A) (st : Store) (r : result bytes Store) : result bytes A * Store :=
  match r with Ok st' => (Ok a, st') | Err e => (Err e, st) end.
Definition store_answer `{Sha256} `{SourceJson} `{ReviewJson} `{ReleasesKey} (now : N) (st : Store)
    (R : Type) (c : StoreCall R) : R * Store :=
  match c in StoreCall R return R * Store with
  | PutSnapshot s => ok_store tt st (put_snapshot s now st)
  | ShowRecent i => (Ok tt, show_recent i now st)
  | HideRecent i => (Ok tt, hide_recent i st)
  | ReadSnapshot i => (stored_snapshot i st, st)
  | ReadDrafts i => (stored_drafts i st, st)
  | ReadView i => (view i st, st)
  | ReadRecent => (recent st, st)
  | SaveBlame i key found => ok_store tt st (save_blame i key found now st)
  | SaveDraft d =>
      match save_draft d st with Ok (v, st') => (Ok v, st') | Err e => (Err e, st) end
  | DiscardDraft i v => ok_store tt st (discard_draft i v st)
  | SaveView i v => ok_store tt st (save_view i v st)
  | InsertPrepared p rules =>
      match insert_prepared p rules st with Ok (e, st') => (Ok e, st') | Err e => (Err e, st) end
  | ReadOperation i => (operation i st, st)
  | ReadOutbox => (outbox st, st)
  end.

Definition MAX_READS : nat := 4.

(** The store, the outboxes' gates and the requests ([World]), the permits that are out and
    the counter of identifiers. *)
Record Host := mkHost { world : World; readers : nat; next_id : N }.
Definition set_world (w : World) (h : Host) : Host := mkHost w (readers h) (next_id h).

Section serve.
Context {sha_ : Sha256} {source_ : SourceJson} {review_ : ReviewJson} {key_ : ReleasesKey}
  {json_ : JsonValue}.

(** Calls that only ask what is outside: any answer, and nothing shared changes. *)
Definition asks_outside {R} (c : ServiceCall R) : bool :=
  match c with
  | IsCancelled | ProviderOpen _ _ | ProviderSource _ _ _ _ | ProviderReleases _ _
  | ProviderBlame _ _ _ | GitOp _ | CanonicalPath _ | FileAt _ | RunProgram _ _ => true
  | _ => false
  end.

(** [serve h c r h']: in [h] the call [c] may be answered with [r], which leaves [h']. A call
    that must wait is not answered. *)
Inductive serve (h : Host) : ∀ R, ServiceCall R → R → Host → Prop :=
| serve_outside R (c : ServiceCall R) r : asks_outside c = true → serve h R c r h
| serve_store R (c : StoreCall R) now :
    serve h R (Stored c) (store_answer now (store (world h)) R c).1
      (set_world (set_store (store_answer now (store (world h)) R c).2 (world h)) h)
| serve_permit :
    readers h < MAX_READS →
    serve h _ Acquire (Ok tt) (mkHost (world h) (S (readers h)) (next_id h))
| serve_no_permit :
    MAX_READS ≤ readers h →
    serve h _ Acquire (Err (Message (bs "read cancelled before execution"))) h
| serve_release :
    serve h _ Release_permit tt (mkHost (world h) (pred (readers h)) (next_id h))
| serve_next :
    serve h _ NextId (next_id h)
      (mkHost (world h) (readers h) ((next_id h + 1) mod (u64_max + 1))%N)
| serve_check rules a p e :
    active (world h) !! rules_id rules = None →
    publish_check rules a p (store (world h)) = Ok e →
    serve h _ (PublishCheck rules p) (Ok e)
      (set_world (set_active (<[rules_id rules := Checked p e]> (active (world h))) (world h)) h)
| serve_check_fails rules a p m :
    active (world h) !! rules_id rules = None →
    publish_check rules a p (store (world h)) = Err m →
    serve h _ (PublishCheck rules p) (Err m) h
| serve_reject rules p e st :
    active (world h) !! rules_id rules = Some (Checked p e) → state e = OutboxState.Rejected →
    transition e rules (store (world h)) = Ok st →
    serve h _ (PublishWrite rules p e) (Ok tt)
      (set_world (set_active (delete (rules_id rules) (active (world h)))
                    (set_store st (world h))) h)
| serve_fly rules p e st :
    active (world h) !! rules_id rules = Some (Checked p e) → state e ≠ OutboxState.Rejected →
    transition e rules (store (world h)) = Ok st →
    serve h _ (PublishWrite rules p e) (Ok tt)
      (set_world (set_active (<[rules_id rules := Flying p e]> (active (world h)))
                    (set_store st (world h))) h)
| serve_write_fails rules p e m :
    transition e rules (store (world h)) = Err m →
    serve h _ (PublishWrite rules p e) (Err m)
      (set_world (set_active (delete (rules_id rules) (active (world h))) (world h)) h)
| serve_send rules p e :
    active (world h) !! rules_id rules = Some (Flying p e) →
    serve h _ (PublishSend rules p e) tt
      (set_world (mkWorld (store (world h)) (requests (world h) ++ [op_id p])
                    (<[rules_id rules := Sent p e]> (active (world h))) (matching (world h))) h)
| serve_finish rules a p e st :
    active (world h) !! rules_id rules = Some (Sent p e) →
    transition (after_send rules a p e) rules (store (world h)) = Ok st →
    serve h _ (PublishFinish rules p e) (Ok (after_send rules a p e))
      (set_world (set_active (delete (rules_id rules) (active (world h)))
                    (set_store st (world h))) h)
| serve_finish_fails rules a p e m :
    transition (after_send rules a p e) rules (store (world h)) = Err m →
    serve h _ (PublishFinish rules p e) (Err m)
      (set_world (set_active (delete (rules_id rules) (active (world h))) (world h)) h)
| serve_match i e :
    operation i (store (world h)) = Ok e → state e = OutboxState.UnknownOutcome →
    serve h _ (Match i) (Ok e)
      (set_world (mkWorld (store (world h)) (requests (world h)) (active (world h))
                    (e :: matching (world h))) h)
| serve_settled i e :
    operation i (store (world h)) = Ok e → state e ≠ OutboxState.UnknownOutcome →
    serve h _ (Match i) (Ok e) h
| serve_no_operation i m :
    operation i (store (world h)) = Err m → serve h _ (Match i) (Err m) h
| serve_found rules a e e' st :
    e ∈ matching (world h) → reconciled rules a e = Ok (Some e') →
    transition e' rules (store (world h)) = Ok st →
    serve h _ (Reconcile rules e) (Ok e') (set_world (set_store st (world h)) h)
| serve_not_found rules a e :
    reconciled rules a e = Ok None → serve h _ (Reconcile rules e) (Ok e) h
| serve_look_fails rules a e m :
    reconciled rules a e = Err m → serve h _ (Reconcile rules e) (Err m) h
| serve_confirm_fails rules a e e' m :
    reconciled rules a e = Ok (Some e') → transition e' rules (store (world h)) = Err m →
    serve h _ (Reconcile rules e) (Err m) h.

(** ** A window and its threads *)

(** A thread that runs a method, and whether it holds a permit. *)
Inductive thread :=
| Thread {A : Type} (holds : bool) (p : service A).
Definition holds_permit (t : thread) : bool := match t with Thread holds _ => holds end.

Definition holds_after {R} (c : ServiceCall R) : R → bool → bool :=
  match c in ServiceCall R return R → bool → bool with
  | Acquire => λ r holds, is_ok r || holds
  | Release_permit => λ _ _, false
  | _ => λ _ holds, holds
  end.

Record Window := mkWindow { host : Host; threads : list thread }.
Definition first_host (w : World) : Host := mkHost w 0 1.

(** The window calls a method on a new thread; a thread makes its next call; a thread panics,
    which drops its permit; the process is killed, and the next one opens the store. *)
Inductive window_step (fixture_patch : bytes → option bytes) (s : Services)
    {report_ : ReportJson} {debug_ : CharDebug} {io_ : IoText} : Window → Window → Prop :=
| window_method h ts A (m : Method A) :
    window_step fixture_patch s (mkWindow h ts)
      (mkWindow h (ts ++ [Thread false (method fixture_patch s m)]))
| window_call h ts i A holds R (c : ServiceCall R) (k : R → service A) r h' :
    ts !! i = Some (Thread holds (Op c k)) → serve h R c r h' →
    window_step fixture_patch s (mkWindow h ts)
      (mkWindow h' (<[i := Thread (holds_after c r holds) (k r)]> ts))
| window_panic h ts i A (holds : bool) (k : Empty_set → service A) :
    ts !! i = Some (Thread holds (Op PanicNow k)) →
    window_step fixture_patch s (mkWindow h ts)
      (mkWindow (mkHost (world h) (if holds then pred (readers h) else readers h) (next_id h))
         (<[i := Thread false (Return (A := A) (Err (Message [])))]> ts))
| window_restart h ts st :
    open_store (store (world h)) = Ok st →
    window_step fixture_patch s (mkWindow h ts)
      (mkWindow (first_host (mkWorld st (requests (world h)) ∅ [])) []).

Definition window_start : Window := mkWindow (first_host start) [].
End serve.
