(* ===== verification/ServiceFacts.v ===== *)
(** * Theorems about the services: what the threads of a window may do together

    [steady] is the discipline every method keeps: it asks the shared parts only for what the
    registered providers permit, and it gives back the read permit it takes. *)

From S2P Require Import Prelude RustStr Utf8 Domain Patch PatchFacts BTree Overview Snapshot F32.
From S2P Require Import Session Process Remote Github Gitlab Programs EntireContext Entire Handoff.
From S2P Require Import LocalGit LocalGitRuns Review Store StoreFacts Json Outbox OutboxFacts Service.

(** ** Registering providers *)

Lemma register_all_snoc s ps p :
  register_all s (ps ++ [p]) = register (register_all s ps) p.1 p.2.
Proof. unfold register_all. by rewrite foldl_app. Qed.

Definition bare (git : option bytes) (nonce : bytes) (gh glab : option bytes) : Services :=
  mkServices [] [] git nonce gh glab.
(** What a registration makes of an outbox. *)
Definition writable (p : ReviewProvider) (writes : bool) : bool :=
  writes && negb (is_Some_b (read_only_reason (provider_rules p))) && is_ok (provider_remote p).

Section registered.
Context (git : option bytes) (nonce : bytes) (gh glab : option bytes).
Notation from := (register_all (bare git nonce gh glab)).

Lemma registered_providers ps : providers (from ps) = ps.*1.
Proof.
  induction ps as [|p ps IH] using rev_ind; [done|].
  rewrite register_all_snoc, fmap_app. cbn. by rewrite IH.
Qed.

(** The outbox of an id is the one of the latest registration with it. *)
Lemma registered_outbox ps i :
  get i (outboxes (from ps))
  = match last (List.filter (λ p, bool_decide (provider_id p.1 = i)) ps) with
    | Some (p, writes) => if writable p writes then Some (provider_rules p) else None
    | None => None
    end.
Proof.
  induction ps as [|[p writes] ps IH] using rev_ind; [done|].
  rewrite register_all_snoc, List.filter_app. cbn [register outboxes fst snd List.filter].
  fold (writable p writes). unfold provider_id in *.
  destruct (decide (rules_id (provider_rules p) = i)) as [He|Hne].
  - rewrite bool_decide_true by done. rewrite last_snoc. destruct (writable p writes).
    + by rewrite get_insert, bool_decide_true.
    + by rewrite get_remove, bool_decide_true.
  - rewrite bool_decide_false by done. rewrite app_nil_r, <- IH. destruct (writable p writes).
    + rewrite get_insert, bool_decide_false by done. by rewrite get_remove, bool_decide_false.
    + by rewrite get_remove, bool_decide_false.
Qed.
End registered.

(** The rules of the registered providers. *)
Definition known (s : Services) (rules : ReviewRules) : Prop :=
  ∃ p, p ∈ providers s ∧ provider_rules p = rules.
(** An outbox belongs to a registered provider that is not read-only. *)
Definition may_publish (s : Services) (rules : ReviewRules) : Prop :=
  get (rules_id rules) (outboxes s) = Some rules ∧ read_only_reason rules = None.
Record services_ok (s : Services) : Prop := {
  so_outbox i rules : get i (outboxes s) = Some rules →
    rules_id rules = i ∧ known s rules ∧ read_only_reason rules = None
}.

Lemma registered_ok git nonce gh glab ps :
  services_ok (register_all (bare git nonce gh glab) ps).
Proof.
  constructor. intros i rules H. rewrite registered_outbox in H.
  destruct (last _) as [[p writes]|] eqn:El; [|done].
  destruct (writable p writes) eqn:Ew; [|done]. injection H as <-.
  apply last_Some_elem_of, list_elem_of_In, filter_In in El as [Hin Hid].
  apply bool_decide_eq_true in Hid. unfold writable in Ew.
  apply andb_true_iff in Ew as [[_ Er%negb_true_iff]%andb_true_iff _].
  split_and!; [exact Hid| |].
  - exists p. split; [|done]. rewrite registered_providers. apply list_elem_of_fmap.
    exists (p, writes). split; [done|by apply list_elem_of_In].
  - by destruct (read_only_reason (provider_rules p)).
Qed.

Lemma find_provider_in i ps at_ p :
  find_provider i ps = Some (at_, p) → p ∈ ps ∧ provider_id p = i.
Proof.
  unfold find_provider. intros H.
  assert (∀ l, find_map (λ p, if bool_decide (provider_id p.2 = i) then Some p else None) l
               = Some (at_, p) → (at_, p) ∈ l ∧ provider_id p = i) as Hf.
  { clear H. induction l as [|q l IH]; [done|]. cbn. case_bool_decide.
    - intros [= ->]. split; [by left|done].
    - intros [? ?]%IH. split; [by right|done]. }
  apply Hf in H as [Hin Hid]. split; [|done]. rewrite elem_of_reverse in Hin.
  apply elem_of_lookup_imap_1 in Hin as (j & q & [= -> ->] & Hj). by eapply list_elem_of_lookup_2.
Qed.

(** ** The discipline of the methods *)

Section discipline.
Context {sha_ : Sha256} {source_ : SourceJson} {review_ : ReviewJson} {key_ : ReleasesKey}
  {json_ : JsonValue} {report_ : ReportJson} {debug_ : CharDebug} {io_ : IoText}.
Context (fixture_patch : bytes → option bytes) (s : Services) (Hs : services_ok s).

Definition good_store {R} (c : StoreCall R) : Prop :=
  match c with InsertPrepared _ rules => known s rules | _ => True end.
Definition good_call {R} (c : ServiceCall R) : Prop :=
  match c with
  | Stored c => good_store c
  | PublishCheck rules _ | PublishWrite rules _ _ | PublishSend rules _ _
  | PublishFinish rules _ _ => known s rules ∧ may_publish s rules
  | Reconcile rules _ => known s rules
  | _ => True
  end.

(** How far a thread is in a publication, whose gate it then holds, or in looking for one. *)
Inductive Stage :=
| Idle
| AtGate (rules : ReviewRules) (x : Publishing)
| Looking (e : OutboxEntry).
(** The steps of a publication are taken in their order, by the thread that holds the gate, and
    nothing else is called meanwhile. *)
Definition stage_pre (g : Stage) {R} (c : ServiceCall R) : Prop :=
  match c with
  | PublishWrite rules p e => g = AtGate rules (Checked p e)
  | PublishSend rules p e => g = AtGate rules (Flying p e)
  | PublishFinish rules p e => g = AtGate rules (Sent p e)
  | Reconcile _ e => g = Looking e
  | _ => g = Idle
  end.
Definition stage_next {R} (c : ServiceCall R) : R → Stage :=
  match c in ServiceCall R return R → Stage with
  | PublishCheck rules p => λ r,
      match r with Ok e => AtGate rules (Checked p e) | Err _ => Idle end
  | PublishWrite rules p e => λ r,
      match r with
      | Ok _ => if bool_decide (state e = OutboxState.Rejected) then Idle
                else AtGate rules (Flying p e)
      | Err _ => Idle
      end
  | PublishSend rules p e => λ _, AtGate rules (Sent p e)
  | Match _ => λ r,
      match r with
      | Ok e => if bool_decide (state e = OutboxState.UnknownOutcome) then Looking e else Idle
      | Err _ => Idle
      end
  | _ => λ _, Idle
  end.

(** Whether a thread holds a read permit, and its stage. *)
Notation duty := (bool * Stage)%type.
Definition permit_pre (d : duty) (R : Type) (c : ServiceCall R) : Prop :=
  good_call c ∧ stage_pre d.2 c ∧ match c with
                                  | Acquire => d.1 = false
                                  | Release_permit => d.1 = true
                                  | _ => True
                                  end.
Definition permit_next (d : duty) (R : Type) (c : ServiceCall R) (r : R) : duty :=
  (holds_after c r d.1, stage_next c r).
Definition any_answer (d : duty) (R : Type) (c : ServiceCall R) (r : R) : Prop := True.

(** A program ends, or stops for ever, outside of any gate; when it ends the permit is back. *)
Definition left_with {A} (holds : bool) (d : duty) (o : option (result AdapterError A)) : Prop :=
  d.2 = Idle ∧ (is_Some o → d.1 = holds).
Lemma left_with_Some {A} holds d (r : result AdapterError A) :
  left_with holds d (Some r) → d = (holds, Idle).
Proof. destruct d as [h g]. intros [Hg Hh]. cbn in *. by rewrite Hg, Hh. Qed.
Lemma left_with_here {A} holds (o : option (result AdapterError A)) : left_with holds (holds, Idle) o.
Proof. by split. Qed.

Definition steady {A} (holds : bool) (p : service A) : Prop :=
  follows permit_pre any_answer permit_next (left_with holds) (holds, Idle) p.

Lemma steady_bind {A B} holds (p : service A) (f : A → service B) :
  steady holds p → (∀ a, steady holds (f a)) → steady holds (p ≫= f).
Proof.
  intros Hp Hf. apply follows_bind. eapply follows_mono; [|exact Hp].
  intros h [[a|e]|] Hh; [|apply left_with_Some in Hh as ->; apply left_with_here|by split; [apply Hh|intros []]].
  apply left_with_Some in Hh as ->. apply Hf.
Qed.
Lemma steady_catch {A} holds (p : service A) : steady holds p → steady holds (catch p).
Proof. intros Hp. apply follows_catch. eapply follows_mono; [|exact Hp].
  intros h [r|] Hh; [apply left_with_Some in Hh as ->; apply left_with_here|by split; [apply Hh|intros []]].
Qed.

(** A call that leaves the permits and the gates alone. *)
Definition plain_call {R} (c : ServiceCall R) : bool :=
  match c with
  | Acquire | Release_permit | PublishCheck _ _ | PublishWrite _ _ _ | PublishSend _ _ _
  | PublishFinish _ _ _ | Match _ | Reconcile _ _ => false
  | _ => true
  end.
Lemma steady_op {R} holds (c : ServiceCall R) :
  plain_call c = true → good_call c → steady holds (op c).
Proof.
  intros Hc Hg. split; [split_and!; [done|by destruct c|by destruct c]|].
  intros r _. by destruct c.
Qed.
Lemma steady_ret {A} holds (r : result AdapterError A) : steady holds (Return r).
Proof. done. Qed.
Lemma steady_embed {A} holds (p : git A) : steady holds (embed p).
Proof. induction p as [r| |R c k IH]; [done..|]. split; [done|]. intros r _. apply IH. Qed.

Lemma steady_with_permit {A} (p : service A) : steady true p → steady false (with_permit p).
Proof.
  intros Hp. unfold with_permit. apply follows_bind, follows_bind. cbn. split; [done|].
  intros [u|e] _; cbn; [|done]. apply follows_bind, follows_catch.
  eapply follows_mono; [|exact Hp]. intros h [r|] Hh; cbn; [|by split; [apply Hh|intros []]].
  apply left_with_Some in Hh as ->. split; [done|]. by intros [] _.
Qed.
Lemma steady_if {A} holds (b : bool) (p q : service A) :
  steady holds p → steady holds q → steady holds (if b then p else q).
Proof. by destruct b. Qed.

Lemma steady_store {A} holds (c : StoreCall (result bytes A)) :
  good_store c → steady holds (store_ c).
Proof. intros Hc. apply steady_bind; [by apply steady_op|]. intros r. apply steady_ret. Qed.
Lemma steady_ensure_bind {A B} holds (r : result bytes A) (f : A → service B) :
  (∀ a, r = Ok a → steady holds (f a)) → steady holds (ensure r ≫= f).
Proof. intros Hf. destruct r as [a|e]; [by apply Hf|done]. Qed.
Lemma steady_with_provider {A} holds i (f : nat → ReviewProvider → service A) :
  (∀ at_ p, p ∈ providers s → provider_id p = i → steady holds (f at_ p)) →
  steady holds (with_provider s i f).
Proof.
  intros Hf. apply steady_ensure_bind. intros [at_ p] H. apply ok_or_Ok in H.
  apply find_provider_in in H as [Hin Hid]. by apply Hf.
Qed.

(** Walks through a program, down to the calls that matter. *)
Ltac steady_walk :=
  repeat first
    [ progress intros
    | match goal with
      | |- steady _ (ensure _ ≫= _) => apply steady_ensure_bind
      | |- steady _ (with_provider _ _ _) => apply steady_with_provider
      | |- steady _ (_ ≫= _) => apply steady_bind
      | |- steady _ (catch _) => apply steady_catch
      | |- steady _ (with_permit _) => apply steady_with_permit
      | |- steady _ (store_ _) => apply steady_store; try exact I
      | |- steady _ (stored _) => apply steady_op; [reflexivity|exact I]
      | |- steady _ (op _) => apply steady_op; [reflexivity|try exact I]
      | |- steady _ (embed _) => apply steady_embed
      | |- steady _ (Return _) => apply steady_ret
      | |- steady _ (mret _) => apply steady_ret
      | |- steady _ (throw _) => apply steady_ret
      | |- steady _ (refuse _) => apply steady_ret
      | |- steady _ (try_ _) => apply steady_ret
      | |- steady _ (try_io _) => apply steady_ret
      | |- steady _ (ensure _) => apply steady_ret
      | |- steady _ (match ?x with _ => _ end) => destruct x eqn:?
      end ].

Lemma steady_or_panics {A} holds (o : option A) : steady holds (or_panics o).
Proof. unfold or_panics. destruct o; [done|]. apply steady_bind; [by apply steady_op|]. by intros []. Qed.
Lemma steady_read_patch holds b : steady holds (read_patch b).
Proof. apply steady_bind; [apply steady_or_panics|]. intros. steady_walk. Qed.
Lemma steady_publish holds rules p :
  known s rules → may_publish s rules → steady holds (outbox_publish rules p).
Proof.
  intros Hk Hm. unfold outbox_publish. split; [done|]. intros [e|m] _; [|done].
  split; [done|]. intros [[]|m] _; [|done]. unfold permit_next; cbn.
  case_bool_decide; cbn; [done|].
  split; [done|]. intros [] _. split; [done|]. by intros [e'|m] _.
Qed.
Lemma steady_reconcile holds rules i : known s rules → steady holds (outbox_reconcile rules i).
Proof.
  intros Hk. unfold outbox_reconcile. split; [done|]. intros [e|m] _; [|done]. cbn.
  unfold permit_next; cbn. case_bool_decide; cbn; [|done].
  split; [done|]. by intros [e'|m] _.
Qed.

Lemma method_steady {A} (m : Method A) : steady false (method fixture_patch s m).
Proof.
  destruct m; cbn [method]; steady_walk.
  - unfold load, cancelled_then. apply steady_with_permit.
    steady_walk; unfold store_opened, store_read, open_fixture, open_patch_file, open_git; steady_walk;
      apply steady_read_patch.
  - unfold source_lines. steady_walk.
  - unfold blame_method, cancelled_then. steady_walk. apply steady_or_panics.
  - unfold prepare_method, fresh_id. steady_walk; [apply (steady_or_panics false None)|].
    cbn. by eexists.
  - unfold publish_method. steady_walk.
    match goal with H : get _ (outboxes s) = Some _ |- _ => apply (so_outbox _ Hs) in H as Ho end.
    destruct Ho as (Hid & Hk & Hr). apply steady_publish; [done|]. by split; [rewrite Hid|].
  - unfold reconcile_method. steady_walk. apply steady_reconcile. by eexists.
  - unfold releases_method, cancelled_then. steady_walk. apply steady_or_panics.
Qed.

(** ** What the shared parts do is what the outbox allows *)

Notation known := (known s).

Lemma store_step now R (c : StoreCall R) w :
  good_store c → rtc (step known) w (set_store (store_answer now (store w) R c).2 w).
Proof.
  intros Hc. assert (rtc (step known) w (set_store (store w) w)) as Hsame by (by destruct w).
  assert (∀ A (a : A) r, (∀ st, r = Ok st → step known w (set_store st w)) →
    rtc (step known) w (set_store (ok_store a (store w) r).2 w)) as Hok.
  { intros A a [st|e] Hr; [|done]. by apply rtc_once, Hr. }
  destruct c; cbn [store_answer].
  - apply Hok. intros st. by apply step_put_snapshot.
  - apply rtc_once, step_show_recent.
  - apply rtc_once, step_hide_recent.
  - done.
  - done.
  - done.
  - done.
  - apply Hok. intros st. by apply step_save_blame.
  - destruct (save_draft d (store w)) as [[v st]|e] eqn:E; [|done].
    by eapply rtc_once, step_save_draft.
  - apply Hok. intros st. by apply step_discard_draft.
  - apply Hok. intros st. by apply step_save_view.
  - destruct (insert_prepared p rules (store w)) as [[e st]|e] eqn:E; [|done].
    eapply rtc_once, step_prepare; [exact Hc|exact E].
  - done.
  - done.
Qed.

Lemma serve_step h R (c : ServiceCall R) r h' :
  serve h R c r h' → good_call c → rtc (step known) (world h) (world h').
Proof.
  intros Hserve Hc. destruct Hserve; cbn [world set_world]; try done.
  - by apply store_step.
  - apply rtc_once. by eapply step_check; [apply Hc|..].
  - apply rtc_once. by eapply step_reject; [apply Hc|..].
  - apply rtc_once. by eapply step_fly; [apply Hc|..].
  - apply rtc_once, step_fail.
  - apply rtc_once. by eapply step_send.
  - apply rtc_once. by eapply step_finish; [apply Hc|..].
  - apply rtc_once, step_fail.
  - apply rtc_once. by eapply step_match.
  - apply rtc_once. by eapply step_reconcile.
Qed.

(** ** Gates *)

Definition at_gate (g : Stage) : option (bytes * Publishing) :=
  match g with AtGate rules x => Some (rules_id rules, x) | _ => None end.
Definition clear_gate (g : Stage) (m : gmap bytes Publishing) : gmap bytes Publishing :=
  match at_gate g with Some (k, _) => delete k m | None => m end.
Definition set_gate (g : Stage) (m : gmap bytes Publishing) : gmap bytes Publishing :=
  match at_gate g with Some (k, x) => <[k := x]> m | None => m end.
(** The stage of a thread is what the outboxes say of it. *)
Definition backed (g : Stage) (w : World) : Prop :=
  match g with
  | Idle => True
  | AtGate rules x => active w !! rules_id rules = Some x
  | Looking e => e ∈ matching w
  end.

(** The effect of a call on the gates is that of the stage of its thread. *)
Lemma serve_gates h R (c : ServiceCall R) r h' g :
  serve h R c r h' → stage_pre g c → backed g (world h) →
  active (world h') = set_gate (stage_next c r) (clear_gate g (active (world h))) ∧
  matching (world h) ⊆ matching (world h') ∧ backed (stage_next c r) (world h') ∧
  ∀ k x, at_gate (stage_next c r) = Some (k, x) →
    (∃ y, at_gate g = Some (k, y)) ∨ active (world h) !! k = None.
Proof.
  intros Hserve Hg Hb. destruct Hserve; cbn [stage_pre] in Hg;
    try (subst g; cbn; split_and!; [done|done|done|done]).
  - assert (g = Idle) as -> by by destruct c.
    assert (stage_next c r = Idle) as -> by by destruct c. cbn. by split_and!.
  - subst g. cbn. split_and!; [done|done|apply lookup_insert_eq|]. intros k x [= <- <-]. by right.
  - subst g. cbn. rewrite bool_decide_true by done. by split_and!.
  - subst g. cbn. rewrite bool_decide_false by done. cbn. rewrite insert_delete_eq.
    split_and!; [done|done|apply lookup_insert_eq|]. intros k x [= <- <-]. left. by eexists.
  - subst g. cbn. rewrite insert_delete_eq. split_and!; [done|done|apply lookup_insert_eq|].
    intros k x [= <- <-]. left. by eexists.
  - subst g. cbn. rewrite bool_decide_true by done. cbn. split_and!; [done|set_solver|by left|done].
  - subst g. cbn. rewrite bool_decide_false by done. by split_and!.
Qed.
(** Each gate that is taken is taken by one thread. *)
Definition holder (gs : list Stage) (k : bytes) (i : nat) (x : Publishing) : Prop :=
  ∃ g, gs !! i = Some g ∧ at_gate g = Some (k, x).
Definition gates_ok (gs : list Stage) (m : gmap bytes Publishing) : Prop :=
  ∀ k, match m !! k with
       | Some x => ∃ i, holder gs k i x ∧ ∀ j y, holder gs k j y → j = i
       | None => ∀ i x, ¬ holder gs k i x
       end.

(** ** Threads *)

Definition disciplined {A} (d : duty) (p : service A) : Prop :=
  follows permit_pre any_answer permit_next (left_with false) d p.
Definition thread_ok (t : thread) (g : Stage) : Prop :=
  match t with Thread holds p => disciplined (holds, g) p end.

Lemma holder_insert (gs : list Stage) i g k j x :
  i < length gs →
  holder (<[i := g]> gs) k j x ↔
  (j = i ∧ at_gate g = Some (k, x)) ∨ (j ≠ i ∧ holder gs k j x).
Proof.
  intros Hi. unfold holder. destruct (decide (j = i)) as [->|Hne].
  - rewrite list_lookup_insert_eq by done. naive_solver.
  - rewrite list_lookup_insert_ne by done. naive_solver.
Qed.
Lemma gate_left (gs : list Stage) (m : gmap bytes Publishing) i (g g' : Stage) k :
  i < length gs → gs !! i = Some g →
  match m !! k with
  | Some x => ∃ i, holder gs k i x ∧ ∀ j y, holder gs k j y → j = i
  | None => ∀ i x, ¬ holder gs k i x
  end →
  (∀ y, at_gate g = Some (k, y) → ∀ j z, holder gs k j z → j = i) →
  (∀ y, at_gate g' ≠ Some (k, y)) →
  match match at_gate g with Some (k', _) => if decide (k' = k) then None else m !! k | None => m !! k end with
  | Some x => ∃ j, holder (<[i := g']> gs) k j x ∧ ∀ j' y, holder (<[i := g']> gs) k j' y → j' = j
  | None => ∀ j x, ¬ holder (<[i := g']> gs) k j x
  end.
Proof.
  intros Hlt Hi Hok Hmine Hg'.
  assert (∀ j x, holder (<[i := g']> gs) k j x ↔ j ≠ i ∧ holder gs k j x) as Hh.
  { intros j x. rewrite holder_insert by done. split; [|by right].
    intros [[_ Hx]|Hx]; [by apply Hg' in Hx|done]. }
  assert ((∃ y, at_gate g = Some (k, y)) ∨
    match at_gate g with Some (k', _) => if decide (k' = k) then None else m !! k | None => m !! k end
    = m !! k ∧ ∀ y, at_gate g ≠ Some (k, y)) as [[y Hy]|[-> Hn]].
  { destruct (at_gate g) as [[k' y]|]; [|by right].
    destruct (decide (k' = k)) as [->|Hne]; [left; by eexists|right]. split; [done|].
    intros z [= ? _]. done. }
  - rewrite Hy, decide_True by done. intros j x [Hne Hj]%Hh. by eapply Hne, Hmine.
  - destruct (m !! k) as [x|].
    + destruct Hok as (j & Hj & Hu). exists j. split.
      * apply Hh. split; [|done]. intros ->. destruct Hj as (g0 & Hg0 & Hx).
        rewrite Hi in Hg0. injection Hg0 as <-. by apply Hn in Hx.
      * intros j' y [_ Hj']%Hh. by eapply Hu.
    + intros j x [_ Hj]%Hh. by eapply Hok.
Qed.
(** A thread that moves from one stage to the next, with the gates. *)
Lemma gates_step (gs : list Stage) m i (g g' : Stage) :
  gs !! i = Some g → gates_ok gs m →
  (∀ k x, at_gate g' = Some (k, x) → (∃ y, at_gate g = Some (k, y)) ∨ m !! k = None) →
  gates_ok (<[i := g']> gs) (set_gate g' (clear_gate g m)).
Proof.
  intros Hi Hok Hg k. pose proof (lookup_lt_Some _ _ _ Hi) as Hlt. specialize (Hok k).
  assert (∀ y, at_gate g = Some (k, y) → ∀ j z, holder gs k j z → j = i) as Hmine.
  { intros y Hy j z Hj. assert (holder gs k i y) as Hiy by (by exists g).
    destruct (m !! k) as [x|].
    - destruct Hok as (i0 & _ & Hu). rewrite (Hu _ _ Hj). symmetry. by eapply Hu.
    - by destruct (Hok _ _ Hiy). }
  assert (set_gate g' (clear_gate g m) !! k =
    match at_gate g' with
    | Some (k', x) => if decide (k' = k) then Some x else clear_gate g m !! k
    | None => clear_gate g m !! k
    end) as ->.
  { unfold set_gate. destruct (at_gate g') as [[k' x]|]; [|done].
    destruct (decide (k' = k)) as [->|Hne]; [apply lookup_insert_eq|by rewrite lookup_insert_ne]. }
  assert (clear_gate g m !! k =
    match at_gate g with Some (k', _) => if decide (k' = k) then None else m !! k | None => m !! k end)
    as ->.
  { unfold clear_gate. destruct (at_gate g) as [[k' x]|]; [|done].
    destruct (decide (k' = k)) as [->|Hne]; [apply lookup_delete_eq|by rewrite lookup_delete_ne]. }
  destruct (at_gate g') as [[k' x']|] eqn:E'; [destruct (decide (k' = k)) as [->|Hk']|].
  - exists i. split; [apply holder_insert; [done|left; by rewrite E']|].
    intros j y [[-> _]|[Hne Hj]]%holder_insert; [done| |done].
    destruct (Hg k x' eq_refl) as [[y0 Hy0]|Hn]; [by eapply Hmine|].
    rewrite Hn in Hok. by destruct (Hok _ _ Hj).
  - apply (gate_left gs m i g g' k Hlt Hi Hok Hmine). by rewrite E'; intros y [= ? _].
  - apply (gate_left gs m i g g' k Hlt Hi Hok Hmine). by rewrite E'.
Qed.
Definition held (ts : list thread) : nat :=
  sum_list_with (λ t, if holds_permit t then 1 else 0) ts.

(** The stages of the threads of a window. *)
Record stages_ok (ts : list thread) (w : World) (gs : list Stage) : Prop := {
  st_threads : Forall2 thread_ok ts gs;
  st_gates : gates_ok gs (active w);
  st_looking e : Looking e ∈ gs → e ∈ matching w
}.
Lemma stages_backed ts w gs i g : stages_ok ts w gs → gs !! i = Some g → backed g w.
Proof.
  intros [_ Hg Hl] Hi. destruct g as [|rules x|e]; cbn; [done| |].
  - specialize (Hg (rules_id rules)). assert (holder gs (rules_id rules) i x) as Hh by (by exists (AtGate rules x)).
    destruct (active w !! rules_id rules) as [y|]; [|by destruct (Hg _ _ Hh)].
    destruct Hg as (j & (g0 & Hj & Hy) & Hu). apply Hu in Hh as ->. rewrite Hi in Hj.
    injection Hj as <-. cbn in Hy. congruence.
  - by eapply Hl, list_elem_of_lookup_2.
Qed.
Lemma stages_method {A} ts w gs (p : service A) :
  stages_ok ts w gs → steady false p → stages_ok (ts ++ [Thread false p]) w (gs ++ [Idle]).
Proof.
  intros [Ht Hg Hl] Hp.
  assert (∀ k i x, holder (gs ++ [Idle]) k i x ↔ holder gs k i x) as Hh.
  { intros k i x. unfold holder. split; intros (g & Hi & Hx); exists g; (split; [|done]).
    - apply lookup_app_Some in Hi as [Hi|[_ Hi]]; [done|].
      apply list_lookup_singleton_Some in Hi as [_ <-]. done.
    - by apply lookup_app_l_Some. }
  constructor.
  - apply Forall2_app; [done|]. by repeat constructor.
  - intros k. specialize (Hg k). destruct (active w !! k).
    + destruct Hg as (i & Hi & Hu). exists i. split; [by apply Hh|]. intros j y Hj%Hh. by eapply Hu.
    + intros i x Hx%Hh. by eapply Hg.
  - intros e [He|He%list_elem_of_singleton]%elem_of_app; [by apply Hl|done].
Qed.
(** A thread that moves on, with what its move does to the gates. *)
Lemma stages_move ts w w' gs i t' g g' :
  stages_ok ts w gs → gs !! i = Some g → thread_ok t' g' →
  active w' = set_gate g' (clear_gate g (active w)) → matching w ⊆ matching w' → backed g' w' →
  (∀ k x, at_gate g' = Some (k, x) → (∃ y, at_gate g = Some (k, y)) ∨ active w !! k = None) →
  stages_ok (<[i := t']> ts) w' (<[i := g']> gs).
Proof.
  intros [Ht Hg Hl] Hi Ht' Ha Hm Hb Hk. constructor.
  - by apply Forall2_insert.
  - rewrite Ha. by apply gates_step.
  - intros e [j He]%list_elem_of_lookup. destruct (decide (j = i)) as [->|Hne].
    + rewrite list_lookup_insert_eq in He by by eapply lookup_lt_Some. by injection He as ->.
    + rewrite list_lookup_insert_ne in He by done. by eapply Hm, Hl, list_elem_of_lookup_2.
Qed.

Lemma no_stages st rs ms : stages_ok [] (mkWorld st rs ∅ ms) [].
Proof.
  constructor; [constructor| |set_solver]. intros k. cbn [active]. rewrite lookup_empty.
  by intros j x (g & Hx & _).
Qed.

Record window_ok (w : Window) : Prop := {
  wo_world : Outbox.reachable known (world (host w));
  wo_threads : ∃ gs, stages_ok (threads w) (world (host w)) gs;
  wo_held : readers (host w) = held (threads w);
  wo_limit : readers (host w) ≤ MAX_READS
}.

Lemma held_insert ts i t t' :
  ts !! i = Some t →
  held (<[i := t']> ts) + (if holds_permit t then 1 else 0)
  = held ts + (if holds_permit t' then 1 else 0).
Proof.
  unfold held. revert i. induction ts as [|x ts IH]; intros [|i] Hi; [done..| |].
  - injection Hi as ->. cbn. lia.
  - apply IH in Hi. change (<[S i:=t']> (x :: ts)) with (x :: <[i:=t']> ts).
    cbn [sum_list_with]. lia.
Qed.
Lemma held_pos ts i t : ts !! i = Some t → holds_permit t = true → 0 < held ts.
Proof.
  intros Hi Ht. pose proof (held_insert ts i t (Thread false (Return (A := unit) (Ok tt))) Hi) as H.
  rewrite Ht in H. cbn in H. lia.
Qed.
Lemma held_app ts t : held (ts ++ [t]) = held ts + (if holds_permit t then 1 else 0).
Proof. unfold held. rewrite sum_list_with_app. cbn. lia. Qed.

(** Only the two calls of the gate change its count, with the thread that makes them. *)
Lemma serve_readers h R (c : ServiceCall R) r h' d :
  serve h R c r h' → permit_pre d R c → readers h ≤ MAX_READS →
  (d.1 = true → 0 < readers h) →
  readers h' ≤ MAX_READS ∧
  readers h' + (if d.1 then 1 else 0)
  = readers h + (if holds_after c r d.1 then 1 else 0).
Proof.
  destruct d as [holds g]. cbn [fst].
  intros Hserve (_ & _ & Hp) Hmax Hpos. destruct Hserve; cbn in *; try (split; [done|lia]).
  - split; [done|]. by destruct c.
  - subst holds. split; [unfold MAX_READS in *; lia|]. cbn. lia.
  - subst holds. specialize (Hpos eq_refl). split; lia.
Qed.

Lemma thread_stage ts w gs i t :
  stages_ok ts w gs → ts !! i = Some t → ∃ g, gs !! i = Some g ∧ thread_ok t g.
Proof. intros [Ht _ _] Hi. by apply (Forall2_lookup_l _ _ _ _ _ Ht Hi). Qed.

Lemma window_step_ok w w' : window_step fixture_patch s w w' → window_ok w → window_ok w'.
Proof.
  intros Hstep [Hw [gs Hgs] Hh Hm].
  destruct Hstep as [h ts A m|h ts i A holds R c k r h' Hi Hserve|h ts i A holds k Hi|h ts st Ho];
    cbn [host threads] in *.
  - constructor; cbn [host threads]; [done| | |done].
    + eexists. apply stages_method; [exact Hgs|exact (method_steady m)].
    + rewrite held_app. cbn. lia.
  - destruct (thread_stage _ _ _ _ _ Hgs Hi) as (g & Hg & Hpre & Hk).
    pose proof (held_insert ts i _ (Thread (holds_after c r holds) (k r)) Hi) as Hins.
    cbn [holds_permit] in Hins.
    assert (holds = true → 0 < readers h) as Hpos.
    { intros ->. rewrite Hh. by eapply held_pos. }
    destruct (serve_readers h R c r h' (holds, g) Hserve Hpre Hm Hpos) as [Hm' Hr].
    destruct (serve_gates h R c r h' g Hserve (proj1 (proj2 Hpre)) (stages_backed _ _ _ _ _ Hgs Hg))
      as (Ha & Hmt & Hb & Hn).
    cbn [fst] in Hr. constructor; cbn [host threads].
    + unfold Outbox.reachable in *; etrans; [exact Hw|]. eapply serve_step; [exact Hserve|]. apply Hpre.
    + eexists. by eapply (stages_move ts (world h)); [exact Hgs|exact Hg|exact (Hk r I)|..].
    + lia.
    + done.
  - destruct (thread_stage _ _ _ _ _ Hgs Hi) as (g & Hg & (_ & Hst & _) & _). cbn in Hst. subst g.
    pose proof (held_insert ts i _ (Thread false (Return (A := A) (Err (Message [])))) Hi) as Hins.
    cbn [holds_permit] in Hins. constructor; cbn [host threads world readers].
    + done.
    + eexists. by eapply (stages_move ts (world h) _ _ _ _ Idle Idle); [exact Hgs|exact Hg|..].
    + destruct holds; lia.
    + destruct holds; lia.
  - constructor; cbn; [| |done|unfold MAX_READS; lia].
    + unfold Outbox.reachable in *; eapply rtc_r; [exact Hw|]. by apply step_restart.
    + exists []. exact (no_stages _ _ _).
Qed.

(** ** No thread waits but at the gate of its provider *)



Definition window_reachable (w : Window) : Prop :=
  rtc (window_step fixture_patch s) window_start w.
Lemma reachable_ok w : window_reachable w → window_ok w.
Proof.
  intros Hr. apply (rtc_ind_r (R:=window_step fixture_patch s) window_ok window_start); [| |done].
  - constructor; cbn; [apply rtc_refl| |done|unfold MAX_READS; lia].
    exists []. exact (no_stages _ _ _).
  - intros w1 w2 _ Hs12 Hok. by eapply window_step_ok.
Qed.
End discipline.

(** ** Windows of registered providers *)

Section windows.
Context {sha_ : Sha256} {source_ : SourceJson} {review_ : ReviewJson} {key_ : ReleasesKey}
  {json_ : JsonValue} {report_ : ReportJson} {debug_ : CharDebug} {io_ : IoText}.
Context (fixture_patch : bytes → option bytes).
Context (git : option bytes) (nonce : bytes) (gh glab : option bytes).
Context (ps : list (ReviewProvider * bool)).
Notation services := (register_all (bare git nonce gh glab) ps).


(** C5: A request to publish leaves a window only through a provider whose latest
    registration was made with write permission, that has a writer and is not read-only. *)
Theorem publishes_with_permission w i A holds rules p e (k : unit → service A) :
  window_reachable fixture_patch services w →
  threads w !! i = Some (Thread holds (Op (PublishSend rules p e) k)) →
  ∃ pr, last (List.filter (λ q, bool_decide (provider_id q.1 = rules_id rules)) ps) = Some (pr, true) ∧
        provider_rules pr = rules ∧ read_only_reason rules = None ∧
        provider_remote pr = Ok tt.
Proof.
  intros H Hi. apply reachable_ok in H; [|apply registered_ok]. destruct H as [_ [gs Ht] _ _].
  destruct (thread_stage _ _ _ _ _ _ Ht Hi) as (g & _ & [[_ [Ho Hro]] _] & _).
  rewrite registered_outbox in Ho. destruct (last _) as [[pr writes]|]; [|done].
  destruct (writable pr writes) eqn:Ew; [|done]. injection Ho as Ho. exists pr.
  unfold writable in Ew. apply andb_true_iff in Ew as [[-> _]%andb_true_iff Er].
  split_and!; [done..|]. by destruct (provider_remote pr) as [[]|].
Qed.

Definition waits_for_permit (t : thread) : Prop :=
  match t with Thread _ p => ∃ k, p = Op Acquire k end.
Definition finished (t : thread) : Prop := match t with Thread _ p => ∃ r, p = Return r end.

(** C6: At most four threads read at a time: the permits that are out are those the threads
    hold, a finished thread holds none, and no thread waits for a second one, so a thread that
    waits can have its permit at once unless four others hold them, none of which waits. *)
Theorem reads_bounded w :
  window_reachable fixture_patch services w →
  readers (host w) = held (threads w) ∧ held (threads w) ≤ 4 ∧
  (∀ i t, threads w !! i = Some t → holds_permit t = true → ¬ finished t ∧ ¬ waits_for_permit t) ∧
  (∀ i t, threads w !! i = Some t → waits_for_permit t →
     (∃ h', serve (host w) _ Acquire (Ok tt) h') ∨ held (threads w) = 4).
Proof.
  intros H. apply reachable_ok in H; [|apply registered_ok]. destruct H as [_ [gs Ht] Hh Hm].
  unfold MAX_READS in *. split_and!; [done|lia| |].
  - intros i [A holds p] Hi Hp. cbn in Hp. subst holds.
    destruct (thread_stage _ _ _ _ _ _ Ht Hi) as (g & _ & Hd). cbn in Hd. split.
    + intros [r ->]. cbn in Hd. by apply left_with_Some in Hd.
    + intros [k ->]. destruct Hd as [(_ & _ & Hd) _]. done.
  - intros i t Hi Hw. destruct (decide (readers (host w) < 4)) as [Hlt|Hge]; [left|right; lia].
    eexists. by apply serve_permit.
Qed.
End windows.
