(* ===== verification/ServiceRuns.v ===== *)
(** * Runs of the services' methods: what opening, resuming and reading return *)

From S2P Require Import Prelude RustStr Utf8 Domain Patch PatchFacts BTree Overview Snapshot.
From S2P Require Import SnapshotFacts F32 Session Process Remote Github Gitlab Programs.
From S2P Require Import EntireContext Entire Handoff LocalGit Review Store StoreFacts Json.
From S2P Require Import Outbox OutboxFacts Service ServiceFacts.

Section runs.
Context {sha_ : Sha256} {source_ : SourceJson} {review_ : ReviewJson} {key_ : ReleasesKey}
  {json_ : JsonValue} {report_ : ReportJson} {debug_ : CharDebug} {io_ : IoText}.

(** ** Calls that are served *)

Inductive served : Host → list (Programs.event ServiceCall) → Host → Prop :=
| served_nil h : served h [] h
| served_call h R (c : ServiceCall R) r h1 tr h2 :
    serve h R c r h1 → served h1 tr h2 → served h (Event c r :: tr) h2.

Lemma served_app h tr1 tr2 h2 :
  served h (tr1 ++ tr2) h2 ↔ ∃ h1, served h tr1 h1 ∧ served h1 tr2 h2.
Proof.
  split.
  - revert h. induction tr1 as [|ev tr1 IH]; intros h H; [exists h; split; [constructor|done]|].
    inversion H as [|? R c r h1 ? ? Hc Ht]; subst. apply IH in Ht as (h3 & H1 & H2).
    exists h3. split; [by econstructor|done].
  - intros (h1 & H1 & H2). induction H1; [done|]. cbn. econstructor; [done|by apply IHserved].
Qed.

(** What a call of the store was answered. *)
Lemma serve_stored h R (c : StoreCall R) r h' :
  serve h R (Stored c) r h' →
  ∃ now, r = (store_answer now (store (world h)) R c).1 ∧
         store (world h') = (store_answer now (store (world h)) R c).2.
Proof.
  intros H.
  assert (∀ R (c0 : ServiceCall R) r, serve h R c0 r h' →
    match c0 in ServiceCall R return R → Prop with
    | Stored c => λ r, ∃ now, r = (store_answer now (store (world h)) _ c).1 ∧
                              store (world h') = (store_answer now (store (world h)) _ c).2
    | _ => λ _, True
    end r) as Hinv.
  { intros R' c0 r' Hs. destruct Hs as [R' c0 r' Ho|R' c' now| | | | | | | | | | | | | | | | | | |];
      try done; [by destruct c0|]. by exists now. }
  exact (Hinv _ _ _ H).
Qed.
Lemma serve_gate h R (c : ServiceCall R) r h' :
  serve h R c r h' →
  match c with Acquire | Release_permit | IsCancelled => world h' = world h | _ => True end.
Proof. intros H. destruct H as [R c r Ho| | | | | | | | | | | | | | | | | | | |]; try done. by destruct c. Qed.
Lemma served_gate h R (c : ServiceCall R) r tr h2 :
  served h (Event c r :: tr) h2 →
  match c with Acquire | Release_permit | IsCancelled => True | _ => False end →
  ∃ h1, world h1 = world h ∧ served h1 tr h2.
Proof.
  intros H Hc.
  assert (∀ ev, served h (ev :: tr) h2 →
    match ev with
    | @Event _ R c r => ∃ h1, serve h R c r h1 ∧ served h1 tr h2
    end) as Hinv.
  { intros ev He. inversion He; subst. eauto. }
  apply Hinv in H as (h1 & Hs & Ht). apply serve_gate in Hs. exists h1. by destruct c.
Qed.
Lemma served_stored h R (c : StoreCall R) r tr h2 :
  served h (Event (Stored c) r :: tr) h2 →
  ∃ h1 now, r = (store_answer now (store (world h)) R c).1 ∧
            store (world h1) = (store_answer now (store (world h)) R c).2 ∧ served h1 tr h2.
Proof.
  intros H.
  assert (∀ ev, served h (ev :: tr) h2 →
    match ev with
    | @Event _ R c r => ∃ h1, serve h R c r h1 ∧ served h1 tr h2
    end) as Hinv.
  { intros ev He. inversion He; subst. eauto. }
  apply Hinv in H as (h1 & Hs & Ht). apply serve_stored in Hs as (now & Hr & Hst).
  by exists h1, now.
Qed.

(** ** Runs that succeed *)

Lemma run_ensure {A} (r : result bytes A) tr (a : A) :
  run (ensure r) tr (Some (Ok a)) → r = Ok a ∧ tr = [].
Proof. intros [H ->]%run_value_Ok. by apply map_err_Ok in H. Qed.
Lemma run_or_panics {A} (o : option A) tr (a : A) :
  run (or_panics o) tr (Some (Ok a)) → o = Some a ∧ tr = [].
Proof. destruct o as [x|]; cbn; [by intros [-> [= ->]]|]. by intros ([] & ?). Qed.
Lemma run_store {A} (c : StoreCall (result bytes A)) tr (a : A) :
  run (store_ c) tr (Some (Ok a)) → tr = [Event (Stored c) (Ok a)].
Proof.
  intros H. run_step H as r t Hr. apply run_op_Ok in Hr as ->.
  apply run_value_Ok in H as [H ->]. by apply map_err_Ok in H as ->.
Qed.
Lemma run_with_permit {A} (p : service A) tr (a : A) :
  run (with_permit p) tr (Some (Ok a)) →
  ∃ tr0, tr = Event Acquire (Ok tt) :: tr0 ++ [Event Release_permit tt] ∧
         run p tr0 (Some (Ok a)).
Proof.
  intros H. run_step H as u t1 Hu. run_step Hu as r t2 Hr. apply run_op_Ok in Hr as ->.
  apply run_value_Ok in Hu as [-> ->]. run_step H as res t3 Hres. apply run_catch_Ok in Hres.
  run_step H as [] t4 Hd. apply run_op_Ok in Hd as ->. apply run_value_Ok in H as [-> ->].
  destruct u. exists t3. by rewrite app_nil_r.
Qed.
Lemma run_cancelled_then {A} m (p : service A) tr (a : A) :
  run (cancelled_then m p) tr (Some (Ok a)) →
  ∃ tr0, tr = Event IsCancelled false :: tr0 ∧ run p tr0 (Some (Ok a)).
Proof.
  intros H. run_step H as c t Hc. apply run_op_Ok in Hc as ->. destruct c.
  - by apply run_value_Ok in H as [? _].
  - eexists. split; [|exact H]. done.
Qed.
Lemma run_with_provider {A} s i (f : nat → ReviewProvider → service A) tr (a : A) :
  run (with_provider s i f) tr (Some (Ok a)) →
  ∃ at_ p, provider_for s i = Ok (at_, p) ∧ run (f at_ p) tr (Some (Ok a)).
Proof. intros H. run_step H as [at_ p] t Hp. apply run_ensure in Hp as [Hp ->]. by exists at_, p. Qed.

(** ** Opening and resuming *)

Section opening.
Context (fixture_patch : bytes → option bytes) (s : Services).

(** The end of an open: the calls of the store, in their order. *)
Definition stored_end (sn : Snapshot) (ds : list Draft) (v : SavedView)
    : list (Programs.event ServiceCall) :=
  [Event (Stored (PutSnapshot sn)) (Ok tt); Event (Stored (ShowRecent (id sn))) (Ok tt);
   Event (Stored (ReadDrafts (id sn))) ds; Event (Stored (ReadView (id sn))) v].
Definition resumed (i : SnapshotId) (sn : Snapshot) (ds : list Draft) (v : SavedView)
    : list (Programs.event ServiceCall) :=
  [Event Acquire (Ok tt); Event IsCancelled false; Event (Stored (ShowRecent i)) (Ok tt);
   Event (Stored (ReadSnapshot i)) (Ok sn); Event (Stored (ReadDrafts i)) ds;
   Event (Stored (ReadView i)) v; Event Release_permit tt].

Lemma run_store_read read tr sn ds v :
  run (store_read read) tr (Some (Ok (sn, ds, v))) →
  ∃ tr0, tr = tr0 ++ stored_end sn ds v ∧ run read tr0 (Some (Ok sn)).
Proof.
  intros H. run_step H as sn' t1 H1. run_step H as [] t2 H2. apply run_store in H2 as ->.
  run_step H as [] t3 H3. apply run_store in H3 as ->.
  run_step H as ds' t4 H4. apply run_op_Ok in H4 as ->.
  run_step H as v' t5 H5. apply run_op_Ok in H5 as ->.
  apply run_value_Ok in H as [[= -> -> ->] ->]. by exists t1.
Qed.
Lemma load_run r tr sn ds v :
  (∀ i, r ≠ Resume i) → run (load fixture_patch s r) tr (Some (Ok (sn, ds, v))) →
  ∃ tr0, tr = tr0 ++ stored_end sn ds v ++ [Event Release_permit tt].
Proof.
  intros Hr H. apply run_with_permit in H as (t0 & -> & H).
  apply run_cancelled_then in H as (t1 & -> & H).
  assert (∃ read, run (store_read read) t1 (Some (Ok (sn, ds, v)))) as [read H'].
  { destruct r; eauto. by destruct (Hr snapshot). }
  apply run_store_read in H' as (t2 & -> & _).
  exists (Event Acquire (Ok tt) :: Event IsCancelled false :: t2). cbn. by rewrite <- !app_assoc.
Qed.
Lemma resume_run i tr sn ds v :
  run (load fixture_patch s (Resume i)) tr (Some (Ok (sn, ds, v))) → tr = resumed i sn ds v.
Proof.
  intros H. apply run_with_permit in H as (t0 & -> & H).
  apply run_cancelled_then in H as (t1 & -> & H).
  run_step H as [] t2 H2. apply run_store in H2 as ->.
  run_step H as sn' t3 H3. apply run_store in H3 as ->.
  run_step H as ds' t4 H4. apply run_op_Ok in H4 as ->.
  run_step H as v' t5 H5. apply run_op_Ok in H5 as ->.
  apply run_value_Ok in H as [[= -> -> ->] ->]. done.
Qed.

Lemma with_blame_nothing sn : with_blame sn [] = sn.
Proof. by destruct sn as [? ? ? ? ? ? []]. Qed.

(** What [put_snapshot] stored is read back as it was. *)
Lemma put_then_read sn now st st1 now2 now3 :
  put_snapshot sn now st = Ok st1 →
  stored_snapshot (id sn) (show_recent (id sn) now3 (show_recent (id sn) now2 st1)) = Ok sn.
Proof.
  unfold put_snapshot. intros H. destruct (verify_identity sn) eqn:Ev; [|done]. cbn [negb] in H.
  injection H as <-. unfold stored_snapshot. cbn [show_recent t_snapshots t_blame].
  rewrite get_insert, bool_decide_true by done. cbn [ok_or mbind result_bind].
  rewrite Ev. cbn [negb].
  assert (∀ l : list (bytes * bytes * bytes * list Blamed),
    filter (λ r, r.1.1.1 = id sn ∧ r.1.2 = releases_key (releases (overview sn)))
      (filter (λ r, r.1.1.1 ≠ id sn) l) = []) as Hf.
  { induction l as [|x l IH]; [done|]. rewrite filter_cons. case_decide as Hx; [|done].
    rewrite filter_cons. case_decide as Hy; [|done]. by destruct Hy. }
  rewrite Hf. cbn. by rewrite with_blame_nothing.
Qed.

(** Resuming a snapshot that was just opened from its source returns exactly what the
    opening returned: the snapshot, its drafts and its view. *)
Theorem resume_returns_opened r tr sn ds v h h1 tr' h2 o :
  (∀ i, r ≠ Resume i) →
  run (load fixture_patch s r) tr (Some (Ok (sn, ds, v))) → served h tr h1 →
  run (load fixture_patch s (Resume (id sn))) tr' (Some (Ok o)) → served h1 tr' h2 →
  o = (sn, ds, v).
Proof.
  intros Hr Hopen Hs1 Hres Hs2. apply load_run in Hopen as [tr0 ->]; [|done].
  destruct o as [[sn' ds'] v']. apply resume_run in Hres as ->.
  apply served_app in Hs1 as (g0 & _ & Hs1). unfold stored_end in Hs1. cbn [app] in Hs1.
  apply served_stored in Hs1 as (g1 & now1 & Hput & Hg1 & Hs1).
  apply served_stored in Hs1 as (g2 & now2 & _ & Hg2 & Hs1).
  apply served_stored in Hs1 as (g3 & now3 & Hds & Hg3 & Hs1).
  apply served_stored in Hs1 as (g4 & now4 & Hv & Hg4 & Hs1).
  apply served_gate in Hs1 as (g5 & Hg5 & Hs1); [|done]. inversion Hs1; subst h1. clear Hs1.
  unfold resumed in Hs2.
  apply served_gate in Hs2 as (k0 & Hk0 & Hs2); [|done].
  apply served_gate in Hs2 as (k1 & Hk1 & Hs2); [|done].
  apply served_stored in Hs2 as (k2 & now5 & _ & Hk2 & Hs2).
  apply served_stored in Hs2 as (k3 & now6 & Hsn' & Hk3 & Hs2).
  apply served_stored in Hs2 as (k4 & now7 & Hds' & Hk4 & Hs2).
  apply served_stored in Hs2 as (k5 & now8 & Hv' & _ & _).
  cbn [store_answer fst snd] in *.
  destruct (put_snapshot sn now1 (store (world g0))) as [st1|] eqn:Ep; [|done]. cbn in Hg1.
  rewrite Hg1 in Hg2. rewrite Hg2 in Hg3, Hds. rewrite Hg3 in Hg4, Hv.
  assert (store (world k2) = show_recent (id sn) now5 (show_recent (id sn) now2 st1)) as Hst.
  { by rewrite Hk2, Hk1, Hk0, Hg5, Hg4. }
  rewrite Hst in Hsn', Hk3. rewrite Hk3 in Hds', Hk4. rewrite Hk4 in Hv'.
  rewrite (put_then_read sn now1 (store (world g0)) st1 now2 now5 Ep) in Hsn'.
  injection Hsn' as ->. subst. done.
Qed.
End opening.

(** ** Source lines *)

Section reading.
Context (s : Services).

(** Source lines are the requested lines, at most a thousand, of the file that the
    target's own provider read at one of the target's two revisions, under a read permit, by a
    path that stays in the repository; the file is UTF-8 text within the limit. *)
Theorem source_lines_exact t path revision start count tr ls :
  run (source_lines s t path revision start count) tr (Some (Ok ls)) →
  (1 <= start)%N ∧ (count <= 1000)%N ∧ (revision = head t ∨ revision = comparison_base t) ∧
  safe_path path ∧
  ∃ at_ p b,
    provider_for s (provider t) = Ok (at_, p) ∧
    tr = [Event Acquire (Ok tt); Event (ProviderSource at_ t path revision) (Ok b);
          Event Release_permit tt] ∧
    utf8_valid b = true ∧ NUL ∉ b ∧ (lenN b <= MAX_CONTEXT)%N ∧
    ls = take (N.to_nat count) (drop (N.to_nat (start - 1)) (str_lines b)).
Proof.
  unfold source_lines. intros H. destruct (_ || _) eqn:E in H.
  { by apply run_value_Ok in H as [? _]. }
  apply orb_false_iff in E as [[E1%N.eqb_neq E2%N.ltb_ge]%orb_false_iff E3].
  run_step H as q t1 Hq. apply run_ensure in Hq as [Hq ->]. apply RepoPath_new_Ok in Hq as [_ Hq].
  split_and!; [lia|done| |done|].
  { apply andb_false_iff in E3 as [E3|E3]; apply negb_false_iff, bool_decide_eq_true in E3; auto. }
  apply run_with_permit in H as (t2 & -> & H). run_step H as b t3 Hb.
  apply run_with_provider in Hb as (at_ & p & Hp & Hb). run_step Hb as res t4 Hres.
  apply run_op_Ok in Hres as ->. apply run_value_Ok in Hb as [-> ->].
  destruct (MAX_CONTEXT <? lenN b)%N eqn:El; [by apply run_value_Ok in H as [? _]|].
  destruct (utf8_valid b) eqn:Eu; cbn [negb] in H; [|by apply run_value_Ok in H as [? _]].
  destruct (contains_byte NUL b) eqn:En; [by apply run_value_Ok in H as [? _]|].
  apply run_value_Ok in H as [[= <-] ->]. apply N.ltb_ge in El. apply bool_decide_eq_false in En.
  by exists at_, p, b.
Qed.

(** ** Releases *)

Lemma add_warnings_spec ws old :
  ∃ new, add_warnings ws old = old ++ new ∧ Forall (λ w, w ∈ ws ∧ w ∉ old) new ∧ NoDup new ∧
         ∀ w, w ∈ ws → w ∈ add_warnings ws old.
Proof.
  revert old. induction ws as [|w ws IH]; intros old; cbn [add_warnings].
  { exists []. rewrite app_nil_r. split_and!; [done..| |]; [constructor|by intros w Hw%elem_of_nil]. }
  case_bool_decide as Hw.
  - destruct (IH old) as (new & -> & Hn & Hd & Hall). exists new. split_and!; [done| |done|].
    + eapply Forall_impl; [exact Hn|]. intros x [Hx ?]. split; [by right|done].
    + intros x [->|Hx]%elem_of_cons; [|by apply Hall]. apply elem_of_app. by left.
  - destruct (IH (old ++ [w])) as (new & -> & Hn & Hd & Hall). exists (w :: new).
    rewrite <- app_assoc. split_and!; [done| | |].
    + constructor; [split; [by left|done]|]. eapply Forall_impl; [exact Hn|].
      intros x [Hx Hno]. split; [by right|]. set_solver.
    + constructor; [|done]. intros Hin. rewrite Forall_forall in Hn. apply Hn in Hin. set_solver.
    + intros x [->|Hx]%elem_of_cons; [set_solver|]. apply Hall in Hx.
      by rewrite <- app_assoc in Hx.
Qed.

(** Listing a compare's releases only adds to the snapshot: it is the same source with
    the same identity, it is saved, its warnings come first and no warning is added twice, the
    releases list only files that the compare shows, and blame is kept exactly while the list of
    releases stays as it was. *)
Theorem releases_only_add sn t c tr sn' :
  remote sn = Some t → compare t = Some c →
  run (releases_method s sn) tr (Some (Ok sn')) →
  id sn' = id sn ∧ verify_identity sn' = verify_identity sn ∧
  (title sn', origin sn', patch sn', remote sn', comments sn')
  = (title sn, origin sn, patch sn, remote sn, comments sn) ∧
  (∃ new, warnings sn' = warnings sn ++ new ∧ NoDup new ∧ Forall (λ w, w ∉ warnings sn) new) ∧
  (∀ r f, r ∈ releases (overview sn') → f ∈ release_files r →
     ∃ g, g ∈ files (patch sn) ∧ display_path g = Some (rf_path f)) ∧
  blame (overview sn') = (if bool_decide (releases (overview sn) = releases (overview sn'))
                          then blame (overview sn) else []) ∧
  Event (Stored (PutSnapshot sn')) (Ok tt) ∈ tr.
Proof.
  intros Hr Hc H. unfold releases_method in H. rewrite Hr in H. cbn [mbind option_bind] in H.
  rewrite Hc in H. cbn [mbind option_bind] in H.
  run_step H as read t1 Hread.
  destruct (match read with Ok read => read | Err e => _ end) as [rs ws].
  run_step H as paths t2 Hpaths. apply run_or_panics in Hpaths as [Hpaths ->]. cbv zeta in H.
  apply run_cancelled_then in H as (t3 & -> & H). run_step H as [] t4 H4. apply run_store in H4 as ->.
  apply run_value_Ok in H as [[= <-] ->].
  destruct (add_warnings_spec ws (warnings sn)) as (new & Hnew & Hn & Hd & _).
  split_and!; [done|done|done| | | |].
  - exists new. split_and!; [exact Hnew|done|]. eapply Forall_impl; [exact Hn|]. by intros w [].
  - intros r f [r0 [-> _]]%list_elem_of_fmap Hf. cbn [retain_files release_files] in Hf.
    apply list_elem_of_In, filter_In in Hf as [_ Hf%bool_decide_eq_true].
    apply mapM_Some in Hpaths. apply list_elem_of_lookup in Hf as [i Hi].
    eapply Forall2_lookup_r in Hpaths as (g & Hg & Hd'); [|exact Hi].
    exists g. split; [by eapply list_elem_of_lookup_2|done].
  - cbn. done.
  - set_solver.
Qed.
End reading.
End runs.
