(* ===== verification/ServiceSamples.v ===== *)
(** * A window that runs: the theorems about the services at concrete inputs

    [answer] is an environment that can be executed, one of those that [serve] permits, and
    [script] runs the threads of a window against it. *)

From S2P Require Import Prelude RustStr Utf8 Domain Patch PatchFacts BTree Overview Snapshot.
From S2P Require Import SnapshotFacts F32 Session Process Remote Github Gitlab Programs.
From S2P Require Import EntireContext Entire Handoff LocalGit Review ReviewFacts Store StoreFacts.
From S2P Require Import Json Outbox OutboxFacts Service ServiceFacts ServiceRuns.

#[local] Instance PreparedComment_eq_dec : EqDecision PreparedComment.
Proof. solve_decision. Defined.
#[local] Instance PreparedReview_eq_dec : EqDecision PreparedReview.
Proof. solve_decision. Defined.
#[local] Instance OutboxEntry_eq_dec : EqDecision OutboxEntry.
Proof. solve_decision. Defined.

#[local] Instance plain_sha : Sha256 := λ s, s.
#[local] Instance plain_source : SourceJson :=
  {| source_json _ origin _ _ := origin; entire_json _ := [] |}.
#[local] Instance plain_review_json : ReviewJson := λ o _ _ _ _, o.
#[local] Instance plain_key : ReleasesKey := λ _, [].
#[local] Instance plain_report : ReportJson := λ _, [].
#[local] Instance plain_debug : CharDebug := encode_char.
#[local] Instance plain_io : IoText := λ _, [].
#[local] Existing Instance sample_json.

(** ** What is outside *)

Definition hosted : ReviewProvider :=
  mkReviewProvider sample_rules (bs "GitHub") (bs "--allow-github-writes") (λ _, true) (Ok tt).
Definition hosted_services : Services :=
  register_all (bare None (bs "n") None None) [(hosted, true)].
Definition compared_target : RemoteTarget :=
  mkRemoteTarget ProviderId.GITHUB (mkRepositoryKey (bs "github.com") 1 (bs "o") (bs "r"))
    (bs "me") 7 (bs "tip") (bs "base") (bs "head") true false false false
    (Some (mkCompareRefs (bs "v1") (bs "v2") false)) None.
Definition compared_snapshot : Snapshot :=
  with_origin (bs "t") (mkPatchReport [sample_file]) (Some compared_target) [] (bs "o").
Definition pull_snapshot : Snapshot :=
  with_origin (bs "t") (mkPatchReport [sample_file]) (Some sample_target) [] (bs "p").
Definition outside_answers : Answers :=
  mkAnswers (Ok sample_target) (Ok []) (Ok sample_target) (Unknown (bs "timeout")) (λ _, Ok []).
Definition listed : Release := mkRelease (Some (bs "v2")) (bs "c") None 1 [] None None [].

(** One answer to each call that the samples make. *)
Definition answer (h : Host) (R : Type) (c : ServiceCall R) : option (R * Host) :=
  let w := world h in
  match c in ServiceCall R return option (R * Host) with
  | Stored c =>
      let '(r, st) := store_answer 1 (store w) _ c in Some (r, set_world (set_store st w) h)
  | Acquire =>
      if decide (readers h < MAX_READS)
      then Some (Ok tt, mkHost w (S (readers h)) (next_id h)) else None
  | Release_permit => Some (tt, mkHost w (pred (readers h)) (next_id h))
  | IsCancelled => Some (false, h)
  | NextId => Some (next_id h, mkHost w (readers h) ((next_id h + 1) mod (u64_max + 1))%N)
  | PublishCheck rules p =>
      match active w !! rules_id rules, publish_check rules outside_answers p (store w) with
      | None, Ok e => Some (Ok e, set_world (set_active (<[rules_id rules := Checked p e]> (active w)) w) h)
      | _, _ => None
      end
  | PublishWrite rules p e =>
      match active w !! rules_id rules, transition e rules (store w) with
      | Some (Checked p' e'), Ok st =>
          if decide (p' = p ∧ e' = e ∧ state e ≠ OutboxState.Rejected)
          then Some (Ok tt, set_world (set_active (<[rules_id rules := Flying p e]> (active w))
                                         (set_store st w)) h)
          else None
      | _, _ => None
      end
  | ProviderOpen _ address =>
      Some (Ok (if bool_decide (address = bs "compare") then compared_snapshot else pull_snapshot), h)
  | ProviderSource _ _ _ _ => Some (Ok (bs "one" ++ [CR; LF] ++ bs "two" ++ [LF] ++ bs "three"), h)
  | ProviderReleases _ _ => Some (Ok ([listed], [bs "w"; bs "w"]), h)
  | _ => None
  end.

Lemma answer_served h R (c : ServiceCall R) r h' : answer h R c = Some (r, h') → serve h R c r h'.
Proof.
  destruct c; cbn [answer]; try done.
  - pose proof (serve_store h _ c 1) as Hs. destruct (store_answer _ _ _ _) as [r' st].
    by intros [= -> <-].
  - case_decide; [|done]. intros [= <- <-]. by constructor.
  - intros [= <- <-]. by constructor.
  - intros [= <- <-]. by constructor.
  - intros [= <- <-]. by constructor.
  - destruct (_ !! _) eqn:Ha; [done|]. destruct (publish_check _ _ _ _) eqn:Hp; [|done].
    intros [= <- <-]. by eapply serve_check.
  - destruct (_ !! _) as [[p' e'| |]|] eqn:Ha; try done.
    destruct (transition _ _ _) eqn:Ht; [|done]. case_decide as Hd; [|done].
    destruct Hd as (-> & -> & Hd). intros [= <- <-]. by eapply serve_fly.
  - intros [= <- <-]. by constructor.
  - intros [= <- <-]. by constructor.
  - intros [= <- <-]. by constructor.
Qed.

(** ** Windows that run *)

Definition advance (w : Window) (i : nat) : option Window :=
  match threads w !! i with
  | Some (@Thread A holds (@Op _ _ R c k)) =>
      '(r, h') ← answer (host w) R c;
      Some (mkWindow h' (<[i := Thread (holds_after c r holds) (k r)]> (threads w)))
  | _ => None
  end.

(** A command of a script: a new thread, or some calls of one thread. *)
Inductive command := | Start {A : Type} (m : Method A) | Go (i n : nat).
Fixpoint go (w : Window) (i n : nat) : option Window :=
  match n with 0 => Some w | S n => w ← advance w i; go w i n end.
Definition obey (w : Window) (c : command) : option Window :=
  match c with
  | Start m => Some (mkWindow (host w) (threads w ++ [Thread false (method (λ _, None) hosted_services m)]))
  | Go i n => go w i n
  end.
Fixpoint script (w : Window) (cs : list command) : option Window :=
  match cs with [] => Some w | c :: cs => w ← obey w c; script w cs end.

Notation wstep := (window_step (λ _, None) hosted_services).

Lemma advance_step w i w' : advance w i = Some w' → wstep w w'.
Proof.
  destruct w as [h ts]. unfold advance. cbn [host threads].
  destruct (ts !! i) as [[A holds [?| |R c k]]|] eqn:Hi; try done.
  destruct (answer h R c) as [[r h']|] eqn:Ha; [|done]. cbn. intros [= <-].
  eapply window_call; [exact Hi|by apply answer_served].
Qed.
Lemma go_steps w i n w' : go w i n = Some w' → rtc wstep w w'.
Proof.
  revert w. induction n as [|n IH]; intros w; cbn; [by intros [= ->]|].
  destruct (advance w i) as [w1|] eqn:Ha; [|done]. intros H.
  eapply rtc_l; [by eapply advance_step|by apply IH].
Qed.
Lemma script_steps w cs w' : script w cs = Some w' → rtc wstep w w'.
Proof.
  revert w. induction cs as [|c cs IH]; intros w; cbn; [by intros [= ->]|].
  destruct (obey w c) as [w1|] eqn:Hc; [|done]. intros H. transitivity w1; [|by apply IH].
  destruct c as [A m|i n]; [|by eapply go_steps]. injection Hc as <-.
  destruct w as [h ts]. apply rtc_once, window_method.
Qed.

(** The review that the script prepares and publishes. *)
Definition window_review : PreparedReview :=
  match prepare sample_rules (bs "n-1") pull_snapshot [] Verdict.Approve [] with
  | Ok p => p
  | Err _ => sample_review
  end.
Definition publishing_script : list command :=
  [Start (MOpen (Remote ProviderId.GITHUB (bs "a"))); Go 0 8;
   Start (MPrepare (id pull_snapshot) [] Verdict.Approve []); Go 1 3;
   Start (MPublish window_review); Go 2 2].
Definition window_of (cs : list command) : Window := default window_start (script window_start cs).
Lemma window_of_reachable cs :
  is_Some_b (script window_start cs) = true →
  window_reachable (λ _, None) hosted_services (window_of cs).
Proof.
  unfold window_of. destruct (script window_start cs) as [w|] eqn:E; [|done]. intros _.
  by eapply script_steps.
Qed.

(** The request that a thread is about to send. *)
Definition about_to_send (t : thread) : option (ReviewRules * PreparedReview * OutboxEntry) :=
  match t with
  | Thread _ (Op c _) =>
      match c with PublishSend rules p e => Some (rules, p, e) | _ => None end
  | _ => None
  end.
Lemma about_to_send_op t rules p e :
  about_to_send t = Some (rules, p, e) →
  ∃ A holds (k : unit → service A), t = Thread holds (Op (PublishSend rules p e) k).
Proof.
  destruct t as [A holds [?| |R c k]]; [done..|]. cbn. destruct c; try done.
  intros [= -> -> ->]. by exists A, holds, k.
Qed.

(** ** The witnesses *)


Example publishes_with_permission_witness :
  ∃ rules,
    (λ t, (λ x, x.1.1) <$> about_to_send t) <$> threads (window_of publishing_script) !! 2
      = Some (Some rules) ∧
    ∃ pr, last (List.filter (λ q, bool_decide (provider_id q.1 = rules_id rules)) [(hosted, true)])
          = Some (pr, true) ∧
          provider_rules pr = rules ∧ read_only_reason rules = None ∧ provider_remote pr = Ok tt.
Proof.
  assert (is_Some_b (t ← threads (window_of publishing_script) !! 2; about_to_send t) = true)
    as Hsome by (vm_compute; reflexivity).
  destruct (threads (window_of publishing_script) !! 2) as [t|] eqn:Hi; [|discriminate].
  cbn [mbind option_bind] in Hsome. destruct (about_to_send t) as [[[rules p] e]|] eqn:Ht; [|discriminate].
  exists rules. split; [cbn; by rewrite Ht|].
  apply about_to_send_op in Ht as (A & holds & k & ->).
  apply (publishes_with_permission (λ _, None) None (bs "n") None None [(hosted, true)]
           (window_of publishing_script) 2 A holds rules p e k); [|exact Hi].
  apply window_of_reachable. vm_compute. reflexivity.
Defined.

(** Five threads want to read a source; four have their permits. *)
Definition reading_script : list command :=
  let start := Start (MSourceLines compared_target (bs "f") (bs "head") 1 2) in
  [start; start; start; start; start; Go 0 1; Go 1 1; Go 2 1; Go 3 1].
Example reads_bounded_witness :
  let w := window_of reading_script in
  held (threads w) = 4 ∧ advance w 4 = None ∧
  readers (host w) = held (threads w) ∧ held (threads w) ≤ 4 ∧
  (∀ i t, threads w !! i = Some t → holds_permit t = true → ¬ finished t ∧ ¬ waits_for_permit t) ∧
  (∀ i t, threads w !! i = Some t → waits_for_permit t →
     (∃ h', serve (host w) _ Acquire (Ok tt) h') ∨ held (threads w) = 4).
Proof.
  split; [vm_compute; reflexivity|]. split; [vm_compute; reflexivity|].
  apply (reads_bounded (λ _, None) None (bs "n") None None [(hosted, true)]).
  apply window_of_reachable. vm_compute. reflexivity.
Defined.

(** Runs of one method against the same environment. *)
Fixpoint play_host {A} (h : Host) (p : service A) : option (Host * option (result AdapterError A)) :=
  match p with
  | Return r => Some (h, Some r)
  | Pending => Some (h, None)
  | Op c k => '(r, h) ← answer h _ c; play_host h (k r)
  end.
Lemma play_host_run {A} (p : service A) h h' o :
  play_host h p = Some (h', o) → ∃ tr, run p tr o ∧ served h tr h'.
Proof.
  revert h. induction p as [r| |R c k IH]; intros h; cbn.
  - intros [= <- <-]. exists []. split; [done|constructor].
  - intros [= <- <-]. exists []. split; [done|constructor].
  - destruct (answer h R c) as [[r h1]|] eqn:Ha; [|done]. cbn. intros Hp.
    destruct (IH _ _ Hp) as (tr & Hr & Hs). exists (Event c r :: tr).
    split; [by exists r, tr|]. econstructor; [by apply answer_served|done].
Qed.
Lemma acted {A} h (p : service A) (P : A → bool) :
  match play_host h p with Some (_, Some (Ok a)) => P a | _ => false end = true →
  ∃ tr a h', run p tr (Some (Ok a)) ∧ served h tr h' ∧ P a = true.
Proof.
  intros H. destruct (play_host h p) as [[h' [[a|e]|]]|] eqn:E; try discriminate H.
  apply play_host_run in E as (tr & Hr & Hs). by exists tr, a, h'.
Qed.

Example source_lines_exact_witness :
  ∃ tr ls,
    run (source_lines hosted_services compared_target (bs "f") (bs "head") 2 5) tr (Some (Ok ls)) ∧
    bool_decide (ls = [bs "two"; bs "three"]) = true ∧
    ∃ at_ p b,
      provider_for hosted_services (provider compared_target) = Ok (at_, p) ∧
      tr = [Event Acquire (Ok tt); Event (ProviderSource at_ compared_target (bs "f") (bs "head")) (Ok b);
            Event Release_permit tt] ∧
      ls = take (N.to_nat 5) (drop (N.to_nat (2 - 1)) (str_lines b)).
Proof.
  destruct (acted (first_host Outbox.start)
              (source_lines hosted_services compared_target (bs "f") (bs "head") 2 5)
              (λ ls, bool_decide (ls = [bs "two"; bs "three"])))
    as (tr & ls & h' & Hrun & _ & Hls); [vm_compute; reflexivity|].
  exists tr, ls. split; [exact Hrun|]. split; [exact Hls|].
  destruct (source_lines_exact hosted_services compared_target (bs "f") (bs "head") 2 5 tr ls Hrun)
    as (_ & _ & _ & _ & at_ & p & b & H1 & H2 & _ & _ & _ & H3).
  by exists at_, p, b.
Defined.

Example releases_only_add_witness :
  ∃ tr sn',
    run (releases_method hosted_services compared_snapshot) tr (Some (Ok sn')) ∧
    bool_decide (warnings sn' = [bs "w"]) = true ∧
    id sn' = id compared_snapshot ∧ Event (Stored (PutSnapshot sn')) (Ok tt) ∈ tr.
Proof.
  destruct (acted (first_host Outbox.start) (releases_method hosted_services compared_snapshot)
              (λ sn', bool_decide (warnings sn' = [bs "w"])))
    as (tr & sn' & h' & Hrun & _ & Hw); [vm_compute; reflexivity|].
  exists tr, sn'. split; [exact Hrun|]. split; [exact Hw|].
  destruct (releases_only_add hosted_services compared_snapshot compared_target
              (mkCompareRefs (bs "v1") (bs "v2") false) tr sn' eq_refl eq_refl Hrun)
    as (H1 & _ & _ & _ & _ & _ & H2).
  by split.
Defined.

Notation open_ r := (load (λ _, None) hosted_services r).
(** Opening, and then resuming what was opened, in the window that the opening left. *)
Lemma acted_twice h (p : service Opened) (q : SnapshotId → service Opened) :
  match play_host h p with
  | Some (h1, Some (Ok o)) =>
      match play_host h1 (q (id o.1.1)) with Some (_, Some (Ok _)) => true | _ => false end
  | _ => false
  end = true →
  ∃ tr sn ds v h1 tr' o h2,
    run p tr (Some (Ok (sn, ds, v))) ∧ served h tr h1 ∧
    run (q (id sn)) tr' (Some (Ok o)) ∧ served h1 tr' h2.
Proof.
  intros H. destruct (play_host h p) as [[h1 [[o|e]|]]|] eqn:E1; try discriminate H.
  destruct (play_host h1 _) as [[h2 [[o'|e]|]]|] eqn:E2; try discriminate H.
  apply play_host_run in E1 as (tr & H1 & H2). apply play_host_run in E2 as (tr' & H3 & H4).
  destruct o as [[sn ds] v]. by exists tr, sn, ds, v, h1, tr', o', h2.
Qed.

Example resume_returns_opened_witness :
  ∃ tr sn ds v tr' o,
    run (open_ (Remote ProviderId.GITHUB (bs "pull"))) tr (Some (Ok (sn, ds, v))) ∧
    run (open_ (Resume (id sn))) tr' (Some (Ok o)) ∧ o = (sn, ds, v).
Proof.
  destruct (acted_twice (first_host Outbox.start) (open_ (Remote ProviderId.GITHUB (bs "pull")))
              (λ i, open_ (Resume i)))
    as (tr & sn & ds & v & h1 & tr' & o & h2 & Hp & Hs & Hq & Hs'); [vm_compute; reflexivity|].
  exists tr, sn, ds, v, tr', o. split; [exact Hp|]. split; [exact Hq|].
  apply (resume_returns_opened (λ _, None) hosted_services
           (Remote ProviderId.GITHUB (bs "pull")) tr sn ds v (first_host Outbox.start) h1 tr' h2 o);
    [discriminate|exact Hp|exact Hs|exact Hq|exact Hs'].
Defined.
