(* ===== verification/ReviewFlow.v ===== *)
(** * Drafts in the window: writing, saving, discarding, publishing
      ([crates/ui/src/app/review_flow.rs], and parts of [app.rs], [app/source.rs],
      [panels/review.rs] and [review_panels/thread.rs])

    What the window keeps of a review and the tasks it has started. A task runs in the
    background while the window goes on: an event starts it, lets its service run on the store,
    or hands its answer to the window, so that events in any order are the interleavings.
    A [None] is a panic. The text field and the mouse are events; focus, colors and the marks of
    releases, annotations and highlighting are not modelled. *)

From S2P Require Import Prelude RustStr Utf8 Domain Patch BTree Overview Snapshot F32 Session.
From S2P Require Import Inline Presentation Layout Viewport Review Store.

(** ** The window *)

Inductive Panel :=
| NoPanel | OpenPanel | PalettePanel | PreviewPanel | ExportPanel | OutboxPanel | LinePanel
| RecentPanel | ThemesPanel | KeysPanel.
#[export] Instance Panel_eq_dec : EqDecision Panel.
Proof. solve_decision. Defined.

Record Active := mkActive {
  a_snapshot : Snapshot; a_blame : BlameRead; a_drafts : list Draft; a_view : SavedView;
  view_ack : N
}.

(** The task that saves a draft: it waits 180 ms, runs in the background, and comes back. *)
Inductive SavePhase :=
| Waiting | Running | Answered (r : result bytes N) | Finished (r : result bytes N).
Record SaveTask := mkSaveTask { saved_draft : Draft; phase : SavePhase }.
(** The task that saves the view, which reads it only after 250 ms. *)
Inductive ViewPhase := ViewWaiting | ViewRunning (v : SavedView) | ViewAnswered (r : result bytes unit).
Record ViewTask := mkViewTask { vt_snapshot : SnapshotId; vt_revision : N; vt_phase : ViewPhase }.

(** The calls that make the window busy, with their answers. *)
Inductive JobCall :=
| PrepareJob (i : SnapshotId) (ds : list Draft) (v : Verdict) (sum : bytes)
| PublishJob (p : PreparedReview)
| ReconcileJob (i : OperationId)
| DiscardJob (i : DraftId) (v : N).
Inductive JobAnswer :=
| PreparedIs (r : result bytes PreparedReview)
| EntryIs (r : result bytes OutboxEntry)
| DiscardedIs (r : result bytes unit).
Record Job := mkJob { call : JobCall; answer : option JobAnswer }.

Definition OpenedReview : Type := Snapshot * list Draft * SavedView.
(** Reading a source; an earlier one is cancelled and its answer ignored. *)
Record Opening := mkOpening { refresh : bool; opening_answer : option (result bytes OpenedReview) }.

(** [late_saves] and [late_views] are what tasks that were dropped while they ran in the
    background may still write. *)
Record Workbench := mkWorkbench {
  active : option Active;
  viewport : option Viewport;
  split_ : bool; wrap_ : option bool; font_ : f32;
  status : bytes; panel : Panel; loading : bool; busy : bool;
  prepared_ : option PreparedReview; verdict_ : Verdict; summary_input : bytes;
  draft_input : bytes;
  selected_draft : option DraftId; line_context : option SourceSelection;
  thread_root : option N; discard_candidate : option DraftId;
  offered : option OpenedReview; opening : option Opening;
  save_tasks : gmap bytes SaveTask; late_saves : list Draft;
  view_task : option ViewTask; late_views : list (SnapshotId * SavedView);
  jobs : list Job
}.

(** Assignments to the fields an operation changes. *)
Definition set_active (a : option Active) (w : Workbench) : Workbench :=
  let 'mkWorkbench _ vp sp wr fo st pa lo bu pr ve su di sd lc tr dc off opn ta ls vt lv js := w in
  mkWorkbench a vp sp wr fo st pa lo bu pr ve su di sd lc tr dc off opn ta ls vt lv js.
Definition set_viewport (vp : option Viewport) (w : Workbench) : Workbench :=
  let 'mkWorkbench a _ sp wr fo st pa lo bu pr ve su di sd lc tr dc off opn ta ls vt lv js := w in
  mkWorkbench a vp sp wr fo st pa lo bu pr ve su di sd lc tr dc off opn ta ls vt lv js.
Definition set_status (st : bytes) (w : Workbench) : Workbench :=
  let 'mkWorkbench a vp sp wr fo _ pa lo bu pr ve su di sd lc tr dc off opn ta ls vt lv js := w in
  mkWorkbench a vp sp wr fo st pa lo bu pr ve su di sd lc tr dc off opn ta ls vt lv js.
Definition set_panel (pa : Panel) (w : Workbench) : Workbench :=
  let 'mkWorkbench a vp sp wr fo st _ lo bu pr ve su di sd lc tr dc off opn ta ls vt lv js := w in
  mkWorkbench a vp sp wr fo st pa lo bu pr ve su di sd lc tr dc off opn ta ls vt lv js.
Definition set_opening (lo : bool) (off : option OpenedReview) (opn : option Opening) (w : Workbench)
    : Workbench :=
  let 'mkWorkbench a vp sp wr fo st pa _ bu pr ve su di sd lc tr dc _ _ ta ls vt lv js := w in
  mkWorkbench a vp sp wr fo st pa lo bu pr ve su di sd lc tr dc off opn ta ls vt lv js.
Definition set_jobs (bu : bool) (js : list Job) (w : Workbench) : Workbench :=
  let 'mkWorkbench a vp sp wr fo st pa lo _ pr ve su di sd lc tr dc off opn ta ls vt lv _ := w in
  mkWorkbench a vp sp wr fo st pa lo bu pr ve su di sd lc tr dc off opn ta ls vt lv js.
Definition set_prepared (pr : option PreparedReview) (w : Workbench) : Workbench :=
  let 'mkWorkbench a vp sp wr fo st pa lo bu _ ve su di sd lc tr dc off opn ta ls vt lv js := w in
  mkWorkbench a vp sp wr fo st pa lo bu pr ve su di sd lc tr dc off opn ta ls vt lv js.
Definition set_review (ve : Verdict) (su : bytes) (w : Workbench) : Workbench :=
  let 'mkWorkbench a vp sp wr fo st pa lo bu pr _ _ di sd lc tr dc off opn ta ls vt lv js := w in
  mkWorkbench a vp sp wr fo st pa lo bu pr ve su di sd lc tr dc off opn ta ls vt lv js.
(** What the comment panel is about: its text, the draft, the lines, the thread. *)
Definition set_line (di : bytes) (sd : option DraftId) (lc : option SourceSelection) (tr : option N)
    (w : Workbench) : Workbench :=
  let 'mkWorkbench a vp sp wr fo st pa lo bu pr ve su _ _ _ _ dc off opn ta ls vt lv js := w in
  mkWorkbench a vp sp wr fo st pa lo bu pr ve su di sd lc tr dc off opn ta ls vt lv js.
Definition set_candidate (dc : option DraftId) (w : Workbench) : Workbench :=
  let 'mkWorkbench a vp sp wr fo st pa lo bu pr ve su di sd lc tr _ off opn ta ls vt lv js := w in
  mkWorkbench a vp sp wr fo st pa lo bu pr ve su di sd lc tr dc off opn ta ls vt lv js.
Definition set_saves (ta : gmap bytes SaveTask) (ls : list Draft) (w : Workbench) : Workbench :=
  let 'mkWorkbench a vp sp wr fo st pa lo bu pr ve su di sd lc tr dc off opn _ _ vt lv js := w in
  mkWorkbench a vp sp wr fo st pa lo bu pr ve su di sd lc tr dc off opn ta ls vt lv js.
Definition set_view_task (vt : option ViewTask) (lv : list (SnapshotId * SavedView)) (w : Workbench)
    : Workbench :=
  let 'mkWorkbench a vp sp wr fo st pa lo bu pr ve su di sd lc tr dc off opn ta ls _ _ js := w in
  mkWorkbench a vp sp wr fo st pa lo bu pr ve su di sd lc tr dc off opn ta ls vt lv js.

Definition set_a_drafts (ds : list Draft) (a : Active) : Active :=
  mkActive (a_snapshot a) (a_blame a) ds (a_view a) (view_ack a).
Definition set_a_view (v : SavedView) (ack : N) (a : Active) : Active :=
  mkActive (a_snapshot a) (a_blame a) (a_drafts a) v ack.
(** [iter_mut().find]: the first draft with the id. *)
Fixpoint update_draft (k : DraftId) (g : Draft → Draft) (ds : list Draft) : list Draft :=
  match ds with
  | d :: ds => if bool_decide (draft_id d = k) then g d :: ds else d :: update_draft k g ds
  | [] => []
  end.
Definition draft_of_id (k : DraftId) (ds : list Draft) : option Draft :=
  List.find (λ d, bool_decide (draft_id d = k)) ds.
(** [std::mem::take] of the blame. *)
Definition take_blame (s : Snapshot) : BlameRead * Snapshot :=
  let o := overview s in
  (blame o,
   mkSnapshot (id s) (title s) (origin s) (patch s) (remote s) (comments s)
     (mkOverview (description o) (overview_author o) (decision o) (checks o) (Overview.notices o)
        (captured_at o) (conversation o) (releases o) []) (warnings s)).

Definition unsaved (w : Workbench) : bool :=
  match active w with
  | Some a => existsb (λ d, negb (is_saved d)) (a_drafts a) || (view_ack a <? revision (a_view a))%N
  | None => false
  end.

Section flow.
Context {class_ : CharClass} {sha_ : Sha256} {source_ : SourceJson} {review_ : ReviewJson}
  {key_ : ReleasesKey}.
(** The rules of the registered providers, by their ids. *)
Context (rules_of : bytes → result bytes ReviewRules).

(** ** Saving *)

(** A task that is replaced is dropped: if it runs in the background, it may still write. *)
Definition save_draft_later (d : Draft) (w : Workbench) : Workbench :=
  let late := match save_tasks w !! draft_id d with
              | Some t => match phase t with Running => [saved_draft t] | _ => [] end
              | None => []
              end in
  set_saves (<[draft_id d := mkSaveTask d Waiting]> (save_tasks w)) (late_saves w ++ late) w.

Definition remember_anchor (w : Workbench) : Workbench :=
  match active w, viewport w with
  | Some a, Some v =>
      match v_anchor v with
      | Some an =>
          let s := a_view a in
          set_active (Some (set_a_view
            (mkSavedView (revision s) (review_summary s) (review_verdict s) (view_viewed s)
               (insert_key (v_file v) an (view_anchors s)) (view_selected s)) (view_ack a) a)) w
      | None => w
      end
  | _, _ => w
  end.
Definition u64_saturating_add (a b : N) : N := N.min (a + b) u64_max.
Definition schedule_view_save (w : Workbench) : Workbench :=
  match active w with
  | None => w
  | Some a =>
      let s := a_view a in
      let r := u64_saturating_add (revision s) 1 in
      let late := match view_task w with
                  | Some t => match vt_phase t with ViewRunning v => [(vt_snapshot t, v)] | _ => [] end
                  | None => []
                  end in
      set_view_task (Some (mkViewTask (id (a_snapshot a)) r ViewWaiting)) (late_views w ++ late)
        (set_active (Some (set_a_view
           (mkSavedView r (review_summary s) (review_verdict s) (view_viewed s) (view_anchors s)
              (view_selected s)) (view_ack a) a)) w)
  end.
Definition retry_saves (w : Workbench) : Workbench :=
  let ds := match active w with
            | Some a => List.filter (λ d, negb (is_saved d)) (a_drafts a)
            | None => []
            end in
  schedule_view_save (foldl (λ w d, save_draft_later d w) w ds).

(** ** Showing a file and a draft *)

Definition select_file (k : FileId) (w : Workbench) : option Workbench :=
  let w := remember_anchor w in
  match active w with
  | None => Some w
  | Some a =>
      match file (a_snapshot a) k with
      | None => Some w
      | Some f =>
          wrap ← match wrap_ w with
                 | Some b => Some b
                 | None => default_wrap <$> display_path f
                 end;
          let s := a_view a in
          let a := set_a_view (mkSavedView (revision s) (review_summary s) (review_verdict s)
                     (view_viewed s) (view_anchors s) (Some k)) (view_ack a) a in
          let v := Viewport_new (a_snapshot a) k (split_ w) wrap (font_ w) (get k (view_anchors s)) in
          Some (schedule_view_save (set_viewport (Some v) (set_active (Some a) w)))
      end
  end.

Definition line_range (s : SourceSelection) : N * N :=
  let '(a, b) := (line_no (sel_start s), line_no (sel_end s)) in (N.min a b, N.max a b).
Definition open_draft_panel (s : SourceSelection) (w : Workbench) : Workbench :=
  match active w with
  | None => w
  | Some a =>
      let '(start, line) := line_range s in
      let existing :=
        List.find (λ d, bool_decide (draft_file d = file_of (sel_start s))
                        && bool_decide (draft_side d = side (sel_start s))
                        && (draft_start_line d =? start)%N && (draft_line d =? line)%N
                        && negb (published d)) (a_drafts a) in
      set_panel LinePanel
        (set_line (match existing with Some d => draft_body d | None => [] end)
           (draft_id <$> existing) (Some s) None w)
  end.
Definition new_draft_file (w : Workbench) : Workbench :=
  match active w with
  | None => w
  | Some a =>
      match match viewport w with
            | Some v => Some (v_file v)
            | None => view_selected (a_view a)
            end with
      | None => set_status (bs "Nothing to comment on until a file is open.") w
      | Some k =>
          match file (a_snapshot a) k with
          | None => w
          | Some _ =>
              let zero := mkSourcePoint (id (a_snapshot a)) k Right 0 0 in
              open_draft_panel (mkSourceSelection zero zero) w
          end
      end
  end.
Definition new_draft (w : Workbench) : Workbench :=
  match viewport w with
  | None => set_status (bs "Open a file before adding a comment.") w
  | Some v =>
      match v_selection v with
      | None =>
          match active w with
          | Some _ => new_draft_file w
          | None => set_status (bs "Open a file before adding a comment.") w
          end
      | Some s =>
          if negb (bool_decide (side (sel_start s) = side (sel_end s)))
             || negb (bool_decide (file_of (sel_start s) = file_of (sel_end s)))
          then set_status (bs "Comments are limited to a single side of a single file.") w
          else
            let '(start, line) := line_range s in
            match active w with
            | None => w
            | Some a =>
                if match file (a_snapshot a) (file_of (sel_start s)) with
                   | Some f => eligible f (side (sel_start s)) start line
                   | None => false
                   end
                then open_draft_panel s w
                else set_status
                  (bs "The selection reaches into unloaded context or across a hunk boundary.") w
            end
      end
  end.
Definition select_draft (k : DraftId) (w : Workbench) : option Workbench :=
  match (a ← active w; draft_of_id k (a_drafts a)) with
  | None => Some w
  | Some d =>
      w ← select_file (draft_file d) w;
      let start := mkSourcePoint (draft_snapshot d) (draft_file d) (draft_side d) (draft_start_line d) 0 in
      let end_ := mkSourcePoint (draft_snapshot d) (draft_file d) (draft_side d) (draft_line d) 0 in
      let w := set_viewport ((λ v, reveal v end_) <$> viewport w) w in
      Some (set_panel LinePanel
              (set_line (draft_body d) (Some k) (Some (mkSourceSelection start end_)) None w))
  end.
(** The file of a thread's line, which comes into view. *)
Definition show_point (p : SourcePoint) (w : Workbench) : option Workbench :=
  w ← select_file (file_of p) w;
  let w := if (0 <? line_no p)%N then set_viewport ((λ v, reveal v p) <$> viewport w) w else w in
  Some (set_line (draft_input w) (selected_draft w) (Some (mkSourceSelection p p)) (thread_root w) w).
(** [location] is where the thread that begins with the comment [root] is. *)
Definition show_thread (root : N) (location : ThreadLocation) (w : Workbench) : option Workbench :=
  let w := set_line (draft_input w) (selected_draft w) None (thread_root w) w in
  w ← match location with
      | ThreadLocation.Line p | ThreadLocation.File p => show_point p w
      | ThreadLocation.Outdated => Some w
      end;
  Some (set_panel LinePanel (set_line [] None (line_context w) (Some root) w)).
(** The command that closes the panel which is open. *)
Definition close_panel (w : Workbench) : Workbench :=
  if bool_decide (panel w = NoPanel) then w
  else set_panel NoPanel (set_line (draft_input w) None None None w).

(** ** Writing *)

(** A draft for what is typed first; its id is fresh. *)
Definition draft_created (fresh : DraftId) (body : bytes) (w : Workbench) : Workbench :=
  match selected_draft w, line_context w, active w with
  | None, Some s, Some a =>
      if is_blank body then w
      else
        let '(start, line) := line_range s in
        let level := bool_decide (side (sel_start s) = Right) && (start =? 0)%N && (line =? 0)%N in
        if match file (a_snapshot a) (file_of (sel_start s)) with
           | Some f => level || eligible f (side (sel_start s)) start line
           | None => false
           end
        then
          let d := mkDraft fresh (id (a_snapshot a)) (file_of (sel_start s)) (side (sel_start s))
                     start line level [] 0 0 false in
          set_line (draft_input w) (Some fresh) (line_context w) (thread_root w)
            (set_active (Some (set_a_drafts (a_drafts a ++ [d]) a)) w)
        else w
  | _, _, _ => w
  end.
Definition edit_selected (fresh : DraftId) (body : bytes) (w : Workbench) : Workbench :=
  let w := draft_created fresh body w in
  match (a ← active w; k ← selected_draft w; d ← draft_of_id k (a_drafts a); Some (a, k, d)) with
  | None => w
  | Some (a, k, d) =>
      if published d || bool_decide (body = draft_body d) then w
      else
        let w := if (64 * 1024 <? lenN body)%N
                 then set_status (bs "Draft is over the 64 KiB limit for publication; it stays editable and is saved locally.") w
                 else w in
        match edit_draft d body with
        | Ok (d', true) =>
            save_draft_later d'
              (set_prepared None
                 (set_active (Some (set_a_drafts (update_draft k (λ _, d') (a_drafts a)) a)) w))
        | Ok (_, false) => w
        | Err e => set_status e w
        end
  end.
Definition discard_selected (w : Workbench) : Workbench :=
  match selected_draft w with
  | None => w
  | Some k =>
      if negb (bool_decide (discard_candidate w = Some k))
      then set_status (bs "Click Confirm discard; that deletes this local draft.") (set_candidate (Some k) w)
      else
        match (a ← active w; draft_of_id k (a_drafts a)) with
        | None => w
        | Some d =>
            if negb (is_saved d)
            then set_status (bs "Let this draft finish saving before you discard it.") w
            else set_jobs true (jobs w ++ [mkJob (DiscardJob k (version d)) None]) w
        end
  end.
(** The button: the panel closes while the draft is being discarded. *)
Definition discard_clicked (w : Workbench) : Workbench :=
  let w := discard_selected w in if busy w then close_panel w else w.

(** ** Preparing and publishing *)

Definition start_job (c : JobCall) (w : Workbench) : Workbench :=
  set_jobs true (jobs w ++ [mkJob c None]) w.
Definition prepare_clicked (w : Workbench) : Workbench :=
  if busy w then w
  else match active w with
       | None => w
       | Some a =>
           start_job (PrepareJob (id (a_snapshot a))
                        (List.filter (λ d, negb (published d)) (a_drafts a)) (verdict_ w) (summary_input w))
             (set_prepared None w)
       end.
Definition publish_clicked (w : Workbench) : Workbench :=
  if busy w then w
  else match prepared_ w with Some p => start_job (PublishJob p) w | None => w end.
Definition reconcile_clicked (i : OperationId) (w : Workbench) : Workbench :=
  if busy w then w else start_job (ReconcileJob i) w.
Definition choose_verdict (v : Verdict) (w : Workbench) : Workbench :=
  let w := set_prepared None (set_review v (summary_input w) w) in
  schedule_view_save
    match active w with
    | Some a =>
        let s := a_view a in
        set_active (Some (set_a_view (mkSavedView (revision s) (review_summary s) (Some v)
          (view_viewed s) (view_anchors s) (view_selected s)) (view_ack a) a)) w
    | None => w
    end.
Definition summary_typed (text : bytes) (w : Workbench) : Workbench :=
  let w := set_review (verdict_ w) text w in
  match active w with
  | Some a =>
      let s := a_view a in
      if bool_decide (review_summary s = text) then w
      else schedule_view_save (set_prepared None
             (set_active (Some (set_a_view (mkSavedView (revision s) text (review_verdict s)
                (view_viewed s) (view_anchors s) (view_selected s)) (view_ack a) a)) w))
  | None => w
  end.

(** Every comment of a confirmed review marks the draft with its id, if it has its version. *)
Fixpoint mark_published (c : PreparedComment) (ds : list Draft) : list Draft :=
  match ds with
  | d :: ds =>
      if bool_decide (draft_id d = pc_draft c) && (version d =? pc_version c)%N
      then mkDraft (draft_id d) (draft_snapshot d) (draft_file d) (draft_side d)
             (draft_start_line d) (draft_line d) (draft_file_level d) (draft_body d)
             (version d) (saved_version d) true :: ds
      else d :: mark_published c ds
  | [] => []
  end.
Definition mark_confirmed_drafts_published (e : OutboxEntry) (w : Workbench) : Workbench :=
  match active w with
  | Some a =>
      if bool_decide (state e = OutboxState.Confirmed)
         && bool_decide (id (a_snapshot a) = op_snapshot (prepared e))
      then set_active (Some (set_a_drafts
             (foldl (λ ds c, mark_published c ds) (a_drafts a) (prepared_comments (prepared e))) a)) w
      else w
  | None => w
  end.

(** What the services do for a call ([Service] has them in detail). Publishing and reconciling
    change the store in steps of their own ([Transition]) and give the entry that is stored.
    Any call may fail without an effect ([failure]). [fresh] is the id of a new operation; a
    [None] is a panic. *)
Definition failed (e : bytes) (c : JobCall) : JobAnswer :=
  match c with
  | PrepareJob _ _ _ _ => PreparedIs (Err e)
  | PublishJob _ | ReconcileJob _ => EntryIs (Err e)
  | DiscardJob _ _ => DiscardedIs (Err e)
  end.
Definition run_job (fresh : OperationId) (failure : option bytes) (c : JobCall) (st : Store)
    : option (JobAnswer * Store) :=
  match failure with
  | Some e => Some (failed e c, st)
  | None =>
  match c with
  | PrepareJob i ds v sum =>
      match (s ← stored_snapshot i st;
             t ← ok_or (remote s) (bs "offline source; a hosted review target is required");
             rules ← rules_of (provider t);
             Ok (s, rules)) with
      | Err e => Some (PreparedIs (Err e), st)
      | Ok (s, rules) =>
          match prepare rules fresh s ds v sum with
          | Err (ReviewError e) => Some (PreparedIs (Err e), st)
          | Err Panic => None
          | Ok p =>
              match insert_prepared p rules st with
              | Ok (_, st) => Some (PreparedIs (Ok p), st)
              | Err e => Some (PreparedIs (Err e), st)
              end
          end
      end
  | PublishJob p => Some (EntryIs (operation (op_id p) st), st)
  | ReconcileJob i => Some (EntryIs (operation i st), st)
  | DiscardJob k v =>
      match discard_draft k v st with
      | Ok st => Some (DiscardedIs (Ok tt), st)
      | Err e => Some (DiscardedIs (Err e), st)
      end
  end
  end.
(** The window takes the answer of a call. *)
Definition prepare_returned (r : result bytes PreparedReview) (w : Workbench) : Workbench :=
  let w := set_jobs false (jobs w) w in
  match r with
  | Ok p =>
      set_status (bs "Payload frozen. Review each item; nothing has gone out.") (set_prepared (Some p) w)
  | Err e => set_status e w
  end.
Definition publish_returned (r : result bytes OutboxEntry) (w : Workbench) : Workbench :=
  let w := set_jobs false (jobs w) w in
  match r with
  | Ok e =>
      let w := set_status (bs "Review outcome: " ++ state_debug (state e) ++ bs ". "
                           ++ default [] (diagnostic e)) w in
      set_panel OutboxPanel (set_prepared None (mark_confirmed_drafts_published e w))
  | Err e => set_status e w
  end.
Definition reconcile_returned (r : result bytes OutboxEntry) (w : Workbench) : Workbench :=
  let w := set_jobs false (jobs w) w in
  match r with
  | Ok e =>
      mark_confirmed_drafts_published e
        (set_status (bs "Reconciliation: " ++ state_debug (state e)
                     ++ bs ". No resend was attempted.") w)
  | Err e => set_status e w
  end.
Definition discard_returned (k : DraftId) (r : result bytes unit) (w : Workbench) : Workbench :=
  let w := set_jobs false (jobs w) w in
  match r with
  | Ok _ =>
      let w := match active w with
               | Some a => set_active (Some (set_a_drafts
                   (List.filter (λ d, negb (bool_decide (draft_id d = k))) (a_drafts a)) a)) w
               | None => w
               end in
      set_status (bs "Discarded the local draft; nothing was published.")
        (set_prepared None (set_candidate None (set_line (draft_input w) None (line_context w) (thread_root w) w)))
  | Err e => set_status e w
  end.
Definition job_returned (c : JobCall) (a : JobAnswer) (w : Workbench) : Workbench :=
  match c, a with
  | PrepareJob _ _ _ _, PreparedIs r => prepare_returned r w
  | PublishJob _, EntryIs r => publish_returned r w
  | ReconcileJob _, EntryIs r => reconcile_returned r w
  | DiscardJob k _, DiscardedIs r => discard_returned k r w
  | _, _ => w
  end.

(** ** Opening another review *)

Definition open_pending (again : bool) (w : Workbench) : Workbench :=
  if unsaved w || busy w
  then set_status (bs "Save your outstanding changes before the source switches.") w
  else set_status (bs "Loading source; your snapshot and position carry over.")
         (set_opening true (offered w) (Some (mkOpening again None)) w).
Definition install (o : OpenedReview) (w : Workbench) : option Workbench :=
  let '(s, ds, v) := o in
  let '(found, s) := take_blame s in
  let selected :=
    match (k ← view_selected v; if file s k then Some k else None) with
    | Some k => Some k
    | None => file_id <$> hd_error (files (patch s))
    end in
  let w := set_review (default Verdict.Comment (review_verdict v)) (summary_input w) w in
  let w := set_active (Some (mkActive s found ds v (revision v))) (set_viewport None w) in
  let w := set_line (draft_input w) None None None w in
  let w := set_panel NoPanel (set_opening (loading w) None (opening w) (set_prepared None w)) in
  w ← match selected with Some k => select_file k w | None => Some w end;
  Some (set_status (bs "Snapshot loaded. The source holds still until another revision is accepted on purpose.") w).
Definition show_snapshot (s : Snapshot) (v : Viewport) : Viewport :=
  let 'mkViewport _ f rs sp wr fo sel an ex ho mh cu ta wi he di pa ps hi hs fc := v in
  mkViewport s f rs sp wr fo sel an ex ho mh cu ta wi he di pa ps hi hs fc.
(** The answer of the latest reading. *)
Definition opening_returned (again : bool) (r : result bytes OpenedReview) (w : Workbench)
    : option Workbench :=
  let w := set_opening false (offered w) None w in
  match r with
  | Err e => Some (set_status e w)
  | Ok (s, ds, v) =>
      if again then
        match active w with
        | Some a =>
            if negb (bool_decide (id (a_snapshot a) = id s))
            then Some (set_status (bs "New revision available. The snapshot on screen has not changed.")
                         (set_opening false (Some (s, ds, v)) None w))
            else
              let '(found, s) := take_blame s in
              let w := set_active (Some (mkActive s found (a_drafts a) (a_view a) (view_ack a))) w in
              let w := set_viewport (show_snapshot s <$> viewport w) w in
              Some (set_status (bs "Source unchanged; comment list and review state refreshed without moving the view.") w)
        | None =>
            Some (set_status (bs "Source unchanged; comment list and review state refreshed without moving the view.") w)
        end
      else install (s, ds, v) w
  end.
Definition accept_offer (w : Workbench) : option Workbench :=
  if unsaved w then Some (set_status (bs "Save your drafts before changing revisions.") w)
  else match offered w with
       | None => Some w
       | Some o =>
           w ← install o (set_opening (loading w) None (opening w) w);
           Some (set_status (bs "The new revision is active. Older drafts stay in their session; comments were not remapped.") w)
       end.

(** [composing]: whether the field holds text that [saved], the draft it edits, does not. *)
Definition composing (text : bytes) (saved : option bytes) : bool :=
  negb (is_blank text) && negb (bool_decide (saved = Some text)).
Definition blocked (saving composing previewing : bool) : option bytes :=
  if composing then Some (bs "a comment is being written in diffz; save or discard it first")
  else if previewing
  then Some (bs "a review is waiting to be published in diffz; publish it or close the preview first")
  else if saving then Some (bs "diffz is still saving or publishing; try again in a moment")
  else None.
Definition handoff_blocker (w : Workbench) : option bytes :=
  let d := k ← selected_draft w; a ← active w; draft_of_id k (a_drafts a) in
  blocked (unsaved w || busy w)
    (bool_decide (panel w = LinePanel) && composing (draft_input w) (draft_body <$> d))
    (bool_decide (panel w = PreviewPanel) && match prepared_ w with Some _ => true | None => false end).
(** A later invocation hands over a source, or only wants the window to come forward. *)
Definition take_handoff (source : bool) (w : Workbench) : result bytes unit * Workbench :=
  if negb source then (Ok tt, w)
  else match handoff_blocker w with
       | Some b => (Err b, w)
       | None => (Ok tt, open_pending false w)
       end.
(** Whether the window may close. *)
Definition should_close (w : Workbench) : bool * Workbench :=
  if unsaved w || busy w
  then (false, set_status (bs "Close blocked: saves/publication still running. Failed drafts are kept in memory; export before closing.") w)
  else (true, w).

(** ** Tasks *)

Definition set_phase (k : DraftId) (p : SavePhase) (w : Workbench) : Workbench :=
  set_saves (alter (λ t, mkSaveTask (saved_draft t) p) k (save_tasks w)) (late_saves w) w.
(** The window takes the answer of a save. *)
Definition save_returned (d : Draft) (r : result bytes N) (w : Workbench) : Workbench :=
  match active w with
  | Some a =>
      if bool_decide (id (a_snapshot a) = draft_snapshot d) then
        match draft_of_id (draft_id d) (a_drafts a) with
        | Some _ =>
            match r with
            | Ok v => set_active (Some (set_a_drafts
                        (update_draft (draft_id d) (λ d, acknowledge_save d v) (a_drafts a)) a)) w
            | Err e => set_status (bs "Draft NOT saved: " ++ e ++ bs ". The text is still in memory.") w
            end
        | None => w
        end
      else w
  | None => w
  end.
(** The view is read when its time has come. *)
Definition view_fires (t : ViewTask) (w : Workbench) : Workbench :=
  let w := remember_anchor w in
  match active w with
  | Some a =>
      if bool_decide (id (a_snapshot a) = vt_snapshot t) && (revision (a_view a) =? vt_revision t)%N
      then set_view_task (Some (mkViewTask (vt_snapshot t) (vt_revision t) (ViewRunning (a_view a))))
             (late_views w) w
      else set_view_task None (late_views w) w
  | None => set_view_task None (late_views w) w
  end.
Definition view_returned (t : ViewTask) (r : result bytes unit) (w : Workbench) : Workbench :=
  let w := set_view_task None (late_views w) w in
  match active w with
  | Some a =>
      if bool_decide (id (a_snapshot a) = vt_snapshot t) then
        match r with
        | Ok _ => set_active (Some (set_a_view (a_view a) (N.max (view_ack a) (vt_revision t)) a)) w
        | Err e => set_status (bs "View not saved: " ++ e) w
        end
      else w
  | None => w
  end.

(** ** The window and the store *)

Record Desk := mkDesk { bench : Workbench; disk : Store }.

(** What other calls of the services do to the store. *)
Inductive Elsewhere :=
| PutSnapshot (s : Snapshot) (now : N)
| SaveBlame (i : SnapshotId) (key : bytes) (found : BlameRead) (now : N)
| ShowRecent (i : SnapshotId) (now : N)
| HideRecent (i : option SnapshotId)
| Transition (e : OutboxEntry) (rules : option ReviewRules).
Definition elsewhere (c : Elsewhere) (st : Store) : Store :=
  let written r := match r with Ok st => st | Err _ => st end in
  match c with
  | PutSnapshot s now => written (put_snapshot s now st)
  | SaveBlame i key found now => written (save_blame i key found now st)
  | ShowRecent i now => show_recent i now st
  | HideRecent i => hide_recent i st
  | Transition e rules => written (write_transition e rules st)
  end.

(** What a source is read as: what a provider gave, which is stored, or a review of the store. *)
Inductive Source := Read (s : Snapshot) | Resumed (i : SnapshotId) | Unreadable (e : bytes).
Definition open_source (x : Source) (now : N) (st : Store) : result bytes OpenedReview * Store :=
  match x with
  | Read s =>
      match put_snapshot s now st with
      | Ok st =>
          let st := show_recent (id s) now st in
          (Ok (s, stored_drafts (id s) st, view (id s) st), st)
      | Err e => (Err e, st)
      end
  | Resumed i => opened i now st
  | Unreadable e => (Err e, st)
  end.

Inductive FlowEvent :=
| Comment | CommentFile | SelectFile (k : FileId) | SelectDraft (k : DraftId)
| ShowThread (root : N) (location : ThreadLocation) | Selected (s : option SourceSelection)
| Closed | Typed (fresh : DraftId) (body : bytes) | Discard | Retry
| ChooseVerdict (v : Verdict) | SummaryTyped (text : bytes) | Prepare | Publish
| Reconcile (i : OperationId) | ShowPanel (p : Panel)
| JobRuns (n : nat) (fresh : OperationId) (failure : option bytes) | JobReturns (n : nat)
| SaveFires (k : DraftId) | SaveRuns (k : DraftId) (failure : option bytes) | SaveReturns (k : DraftId) | LateSave (n : nat)
| ViewFires | ViewRuns | ViewReturns | LateView (n : nat)
| Open (again : bool) | Handoff (source : bool) | OpenRuns (x : Source) (now : N) | OpenReturns
| AcceptOffer | StoreChanges (c : Elsewhere).

Definition on_bench (D : Desk) (w : Workbench) : option Desk := Some (mkDesk w (disk D)).
Definition written {A} (st : Store) (r : result bytes (A * Store)) : result bytes A * Store :=
  match r with Ok (a, st) => (Ok a, st) | Err e => (Err e, st) end.

Definition save_step (k : DraftId) (e : FlowEvent) (D : Desk) : option Desk :=
  let w := bench D in
  match save_tasks w !! k with
  | None => Some D
  | Some t =>
      match e, phase t with
      | SaveFires _, Waiting => on_bench D (set_phase k Running w)
      | SaveRuns _ failure, Running =>
          let '(r, st) := match failure with
                          | Some e => (Err e, disk D)
                          | None => written (disk D) (save_draft (saved_draft t) (disk D))
                          end in
          Some (mkDesk (set_phase k (Answered r) w) st)
      | SaveReturns _, Answered r =>
          on_bench D (save_returned (saved_draft t) r (set_phase k (Finished r) w))
      | _, _ => Some D
      end
  end.
Definition view_step (e : FlowEvent) (D : Desk) : option Desk :=
  let w := bench D in
  match view_task w with
  | None => Some D
  | Some t =>
      match e, vt_phase t with
      | ViewFires, ViewWaiting => on_bench D (view_fires t w)
      | ViewRuns, ViewRunning v =>
          let '(r, st) := written (disk D)
            (st ← save_view (vt_snapshot t) v (disk D); Ok (tt, st)) in
          Some (mkDesk (set_view_task (Some (mkViewTask (vt_snapshot t) (vt_revision t) (ViewAnswered r)))
                          (late_views w) w) st)
      | ViewReturns, ViewAnswered r => on_bench D (view_returned t r w)
      | _, _ => Some D
      end
  end.
Definition job_step (n : nat) (e : FlowEvent) (D : Desk) : option Desk :=
  let w := bench D in
  match jobs w !! n with
  | None => Some D
  | Some j =>
      match e, answer j with
      | JobRuns _ fresh failure, None =>
          '(a, st) ← run_job fresh failure (call j) (disk D);
          Some (mkDesk (set_jobs (busy w) (<[n := mkJob (call j) (Some a)]> (jobs w)) w) st)
      | JobReturns _, Some a =>
          on_bench D (job_returned (call j) a (set_jobs (busy w) (delete n (jobs w)) w))
      | _, _ => Some D
      end
  end.

Definition flow_event (D : Desk) (e : FlowEvent) : option Desk :=
  let w := bench D in
  match e with
  | Comment => on_bench D (new_draft w)
  | CommentFile => on_bench D (new_draft_file w)
  | SelectFile k => w ← select_file k w; on_bench D w
  | SelectDraft k => w ← select_draft k w; on_bench D w
  | ShowThread root location => w ← show_thread root location w; on_bench D w
  | Selected s => on_bench D (set_viewport ((λ v, set_selection v s) <$> viewport w) w)
  | Closed => on_bench D (close_panel w)
  | Typed fresh body =>
      on_bench D (edit_selected fresh body
        (set_line body (selected_draft w) (line_context w) (thread_root w) w))
  | Discard => on_bench D (discard_clicked w)
  | Retry => on_bench D (retry_saves w)
  | ChooseVerdict v => on_bench D (choose_verdict v w)
  | SummaryTyped text => on_bench D (summary_typed text w)
  | Prepare => on_bench D (prepare_clicked w)
  | Publish => on_bench D (publish_clicked w)
  | Reconcile i => on_bench D (reconcile_clicked i w)
  | ShowPanel p => on_bench D (set_panel p w)
  | JobRuns n _ _ | JobReturns n => job_step n e D
  | SaveFires k | SaveRuns k _ | SaveReturns k => save_step k e D
  | LateSave n =>
      match late_saves w !! n with
      | Some d =>
          let '(_, st) := written (disk D) (save_draft d (disk D)) in
          Some (mkDesk (set_saves (save_tasks w) (delete n (late_saves w)) w) st)
      | None => Some D
      end
  | ViewFires | ViewRuns | ViewReturns => view_step e D
  | LateView n =>
      match late_views w !! n with
      | Some (i, v) =>
          let '(_, st) := written (disk D) (st ← save_view i v (disk D); Ok (tt, st)) in
          Some (mkDesk (set_view_task (view_task w) (delete n (late_views w)) w) st)
      | None => Some D
      end
  | Open again => on_bench D (open_pending again w)
  | Handoff source => on_bench D (take_handoff source w).2
  | OpenRuns x now =>
      match opening w with
      | Some (mkOpening again None) =>
          let '(r, st) := open_source x now (disk D) in
          Some (mkDesk (set_opening (loading w) (offered w) (Some (mkOpening again (Some r))) w) st)
      | _ => Some D
      end
  | OpenReturns =>
      match opening w with
      | Some (mkOpening again (Some r)) => w ← opening_returned again r w; on_bench D w
      | _ => Some D
      end
  | AcceptOffer => w ← accept_offer w; on_bench D w
  | StoreChanges c => Some (mkDesk w (elsewhere c (disk D)))
  end.
Fixpoint flow_run (D : Desk) (es : list FlowEvent) : option Desk :=
  match es with
  | [] => Some D
  | e :: es => D ← flow_event D e; flow_run D es
  end.
End flow.

(** The window as it opens. *)
Definition Workbench_new (split : bool) (wrap : option bool) (font : f32) : Workbench :=
  mkWorkbench None None split wrap font
    (bs "Open a hosted review, fixture, patch, or local Git comparison.") NoPanel false false None
    Verdict.Comment [] [] None None None None None None ∅ [] None [] [].
