(* ===== verification/ReviewFlowFacts.v ===== *)
(** * Drafts in the window: nothing that was typed is lost

    [inv] relates the drafts of the window to the store, to the saves that are under way and to
    what saves answered. It holds in every run in which a review is only entered as the store
    has it, with no save of its drafts under way. *)

From S2P Require Import Prelude RustStr Utf8 Domain Patch PatchFacts BTree Overview Snapshot F32.
From S2P Require Import SnapshotFacts Session Inline Presentation Layout Viewport Review ReviewFacts.
From S2P Require Import Store StoreFacts Json Outbox OutboxFacts ReviewFlow.

(** ** Drafts by their text *)

(** A draft without what saving and publishing note on it. *)
Definition core (d : Draft) : Draft :=
  mkDraft (draft_id d) (draft_snapshot d) (draft_file d) (draft_side d) (draft_start_line d)
    (draft_line d) (draft_file_level d) (draft_body d) (version d) 0 false.
(** [x] is [d] as it was once: an older version, or the same text. *)
Definition older (x d : Draft) : Prop := (version x < version d)%N ∨ core x = core d.

Lemma core_version x d : core x = core d → version x = version d.
Proof. intros H. exact (f_equal version H). Qed.
Lemma core_snapshot x d : core x = core d → draft_snapshot x = draft_snapshot d.
Proof. intros H. exact (f_equal draft_snapshot H). Qed.
Lemma core_id x d : core x = core d → draft_id x = draft_id d.
Proof. intros H. exact (f_equal draft_id H). Qed.
Lemma older_version x d : older x d → (version x <= version d)%N.
Proof. intros [H|H%core_version]; lia. Qed.
Lemma older_core x y d : core x = core y → older x d → older y d.
Proof. intros H [Hv|Hc]; [left; by rewrite <- (core_version _ _ H)|right; congruence]. Qed.
Lemma older_core_r x d d' : core d = core d' → older x d → older x d'.
Proof. intros H [Hv|Hc]; [left; by rewrite <- (core_version _ _ H)|right; congruence]. Qed.
Lemma older_newer x d d' : (version d < version d')%N → older x d → older x d'.
Proof. intros H Ho%older_version. left. lia. Qed.

(** ** What is under way *)

Definition flying (w : Workbench) (x : Draft) : Prop :=
  (∃ k t, save_tasks w !! k = Some t ∧ saved_draft t = x ∧ (phase t = Waiting ∨ phase t = Running))
  ∨ x ∈ late_saves w.
(** The store has deleted the draft, and the window is about to hear of it. *)
Definition discarded (js : list Job) (k : DraftId) : Prop :=
  ∃ v, mkJob (DiscardJob k v) (Some (DiscardedIs (Ok tt))) ∈ js.

Definition row (st : Store) (k : DraftId) : option Draft := get k (t_drafts st).

(** What holds of a draft of the window. *)
Record kept (w : Workbench) (st : Store) (d : Draft) : Prop := {
  kp_flying x : flying w x → draft_id x = draft_id d → older x d;
  kp_row r : row st (draft_id d) = Some r → older r d;
  kp_saved : saved_version d = 0%N ∧ (0 < version d)%N
             ∨ ∃ r, row st (draft_id d) = Some r ∧ (saved_version d <= version r)%N;
  kp_unsaved : is_saved d = false →
    ∃ t, save_tasks w !! draft_id d = Some t ∧ core (saved_draft t) = core d ∧
      match phase t with Answered (Ok v) => v = version d | Finished (Ok _) => False | _ => True end;
  kp_answer t v : save_tasks w !! draft_id d = Some t → phase t = Answered (Ok v) →
    ∃ r, row st (draft_id d) = Some r ∧ (v <= version r)%N
}.

Record inv `{Sha256} `{SourceJson} (w : Workbench) (st : Store) : Prop := {
  iv_tables : tables_ok st;
  iv_keys k t : save_tasks w !! k = Some t → draft_id (saved_draft t) = k;
  iv_nodup a : active w = Some a → NoDup (draft_id <$> a_drafts a);
  iv_snapshot a d : active w = Some a → d ∈ a_drafts a → draft_snapshot d = id (a_snapshot a);
  iv_kept a d : active w = Some a → d ∈ a_drafts a → discarded (jobs w) (draft_id d) ∨ kept w st d
}.

Lemma kept_saved_version w st d : kept w st d → (saved_version d <= version d)%N.
Proof.
  intros K. destruct (kp_saved _ _ _ K) as [[-> ?]|(r & Hr & Hv)]; [lia|].
  apply (kp_row _ _ _ K), older_version in Hr. lia.
Qed.
Lemma kept_stored w st d :
  kept w st d → is_saved d = true → ∃ r, row st (draft_id d) = Some r ∧ core r = core d.
Proof.
  intros K Hs%N.eqb_eq. destruct (kp_saved _ _ _ K) as [[H ?]|(r & Hr & Hv)]; [lia|].
  exists r. split; [done|]. destruct (kp_row _ _ _ K r Hr) as [|]; [lia|done].
Qed.

(** ** What an operation may leave as it is *)

(** Only the tables, the drafts and what is under way matter. *)
Definition drafts_of (w : Workbench) : option (SnapshotId * list Draft) :=
  (λ a, (id (a_snapshot a), a_drafts a)) <$> active w.
Record same (w w' : Workbench) : Prop := {
  sm_drafts : drafts_of w' = drafts_of w;
  sm_tasks : save_tasks w' = save_tasks w;
  sm_late : late_saves w' = late_saves w;
  sm_jobs k : discarded (jobs w) k → discarded (jobs w') k
}.
#[export] Instance same_refl : Reflexive same.
Proof. done. Qed.
#[export] Instance same_trans : Transitive same.
Proof. intros x y z [] []. split; [congruence..|auto]. Qed.

Lemma same_flying w w' x : same w w' → flying w' x → flying w x.
Proof. intros [_ Ht Hl _]. unfold flying. by rewrite Ht, Hl. Qed.
Lemma same_kept w w' st d : same w w' → kept w st d → kept w' st d.
Proof.
  intros H K. split; [|apply K..| |].
  - intros x Hx%(same_flying _ _ _ H). by apply K.
  - rewrite (sm_tasks _ _ H). apply K.
  - rewrite (sm_tasks _ _ H). apply K.
Qed.
Lemma drafts_of_active w a : active w = Some a → drafts_of w = Some (id (a_snapshot a), a_drafts a).
Proof. unfold drafts_of. by intros ->. Qed.
Lemma same_active w w' a :
  same w w' → active w' = Some a →
  ∃ a0, active w = Some a0 ∧ id (a_snapshot a0) = id (a_snapshot a) ∧ a_drafts a0 = a_drafts a.
Proof.
  intros H Ha%drafts_of_active. rewrite (sm_drafts _ _ H) in Ha. unfold drafts_of in Ha.
  destruct (active w) as [a0|]; [|done]. injection Ha as H1 H2. by exists a0.
Qed.
Lemma same_inv `{Sha256, SourceJson} w w' st : same w w' → inv w st → inv w' st.
Proof.
  intros Hw I. split.
  - apply I.
  - rewrite (sm_tasks _ _ Hw). apply I.
  - intros a (a0 & Ha & _ & <-)%(same_active _ _ _ Hw). by apply (iv_nodup _ _ I).
  - intros a d (a0 & Ha & <- & <-)%(same_active _ _ _ Hw). by apply (iv_snapshot _ _ I).
  - intros a d (a0 & Ha & _ & <-)%(same_active _ _ _ Hw) Hd.
    destruct (iv_kept _ _ I a0 d Ha Hd) as [Hx|K]; [left; by apply (sm_jobs _ _ Hw)|right].
    by apply (same_kept w).
Qed.

Create HintDb same discriminated.
Section setters.
Context (w w' : Workbench) (H : same w w').
Lemma same_status x : same w (set_status x w').
Proof. etrans; [exact H|by destruct w']. Qed.
Lemma same_panel x : same w (set_panel x w').
Proof. etrans; [exact H|by destruct w']. Qed.
Lemma same_viewport x : same w (set_viewport x w').
Proof. etrans; [exact H|by destruct w']. Qed.
Lemma same_opening x y z : same w (set_opening x y z w').
Proof. etrans; [exact H|by destruct w']. Qed.
Lemma same_prepared x : same w (set_prepared x w').
Proof. etrans; [exact H|by destruct w']. Qed.
Lemma same_review x y : same w (set_review x y w').
Proof. etrans; [exact H|by destruct w']. Qed.
Lemma same_line x y z u : same w (set_line x y z u w').
Proof. etrans; [exact H|by destruct w']. Qed.
Lemma same_candidate x : same w (set_candidate x w').
Proof. etrans; [exact H|by destruct w']. Qed.
Lemma same_view_task x y : same w (set_view_task x y w').
Proof. etrans; [exact H|by destruct w']. Qed.
Lemma same_set_jobs x js : (∀ k, discarded (jobs w') k → discarded js k) → same w (set_jobs x js w').
Proof. intros Hj. etrans; [exact H|]. destruct w'. by split. Qed.
Lemma same_busy x : same w (set_jobs x (jobs w') w').
Proof. by apply same_set_jobs. Qed.
Lemma same_set_active a a' :
  active w' = Some a → id (a_snapshot a') = id (a_snapshot a) → a_drafts a' = a_drafts a →
  same w (set_active (Some a') w').
Proof.
  intros Ha Hi Hd. etrans; [exact H|]. destruct w'. cbn in *. split; try done. unfold drafts_of. cbn.
  by rewrite Ha, Hi, Hd.
Qed.
End setters.
#[export] Hint Resolve same_refl same_status same_panel same_viewport same_opening same_prepared
  same_review same_line same_candidate same_view_task same_busy : same.
#[export] Hint Extern 2 (same _ (set_active (Some _) _)) =>
  eapply same_set_active; [|eassumption|reflexivity|reflexivity] : same.
Ltac same := repeat case_match; subst; eauto 12 with same.

Section same.
Context {class_ : CharClass}.
Lemma same_remember w : same w (remember_anchor w).
Proof. unfold remember_anchor. same. Qed.
Lemma same_schedule w : same w (schedule_view_save w).
Proof. unfold schedule_view_save. same. Qed.
Lemma same_select_file k w w' : select_file k w = Some w' → same w w'.
Proof.
  unfold select_file. pose proof (same_remember w) as Hr.
  destruct (active (remember_anchor w)) as [a|] eqn:Ea; [|by intros [= <-]].
  destruct (file _ k) as [f|]; [|by intros [= <-]].
  destruct (match wrap_ _ with Some b => _ | None => _ end) as [wrap|]; [|done]. intros [= <-].
  etrans; [|apply same_schedule]. etrans; [exact Hr|]. eauto with same.
Qed.
Lemma same_open_panel s w : same w (open_draft_panel s w).
Proof. unfold open_draft_panel. same. Qed.
Lemma same_new_file w : same w (new_draft_file w).
Proof. unfold new_draft_file. repeat case_match; eauto using same_open_panel with same. Qed.
Lemma same_new_draft w : same w (new_draft w).
Proof. unfold new_draft. repeat case_match; eauto using same_open_panel, same_new_file with same. Qed.
Lemma same_select_draft k w w' : select_draft k w = Some w' → same w w'.
Proof.
  unfold select_draft. destruct (_ ≫= _) as [d|]; [|by intros [= <-]].
  destruct (select_file _ w) as [w1|] eqn:Ef; [|done]. cbn. intros [= <-].
  apply same_select_file in Ef. eauto with same.
Qed.
Lemma same_show_point p w w' : show_point p w = Some w' → same w w'.
Proof.
  unfold show_point. destruct (select_file _ w) as [w1|] eqn:Ef; [|done]. cbn. intros [= <-].
  apply same_select_file in Ef. same.
Qed.
Lemma same_show_thread root l w w' : show_thread root l w = Some w' → same w w'.
Proof.
  unfold show_thread. set (w0 := set_line _ _ None _ w).
  assert (same w w0) as H0 by (subst w0; eauto with same).
  assert (∀ p w1, show_point p w0 = Some w1 → same w w1) as Hp.
  { intros p w1 ?%same_show_point. by etrans. }
  destruct l as [p|p|]; [destruct (show_point p w0) as [w1|] eqn:E..|]; cbn; try done;
    intros [= <-]; eauto with same.
Qed.
Lemma same_close w : same w (close_panel w).
Proof. unfold close_panel. same. Qed.
Lemma same_start_job c w : same w (start_job c w).
Proof.
  unfold start_job. apply same_set_jobs; [done|]. intros k (v & Hv). exists v. set_solver.
Qed.
Lemma same_choose v w : same w (choose_verdict v w).
Proof.
  unfold choose_verdict. etrans; [|apply same_schedule].
  assert (same w (set_prepared None (set_review v (summary_input w) w))) by eauto with same.
  destruct (active (set_prepared None _)) as [a|] eqn:Ea; eauto with same.
Qed.
Lemma same_summary x w : same w (summary_typed x w).
Proof.
  unfold summary_typed. assert (same w (set_review (verdict_ w) x w)) by eauto with same.
  destruct (active (set_review _ _ _)) as [a|] eqn:Ea; [|done]. case_match; [done|].
  etrans; [|apply same_schedule]. eauto with same.
Qed.
Lemma same_prepare w : same w (prepare_clicked w).
Proof.
  unfold prepare_clicked. repeat case_match; try done. etrans; [|apply same_start_job]. eauto with same.
Qed.
Lemma same_publish w : same w (publish_clicked w).
Proof. unfold publish_clicked. repeat case_match; try done. apply same_start_job. Qed.
Lemma same_reconcile i w : same w (reconcile_clicked i w).
Proof. unfold reconcile_clicked. repeat case_match; try done. apply same_start_job. Qed.
Lemma same_discard w : same w (discard_clicked w).
Proof.
  assert (same w (discard_selected w)) as H.
  { unfold discard_selected. repeat case_match; eauto with same. apply same_start_job. }
  unfold discard_clicked. case_match; [|done]. etrans; [exact H|apply same_close].
Qed.
Lemma same_open_pending b w : same w (open_pending b w).
Proof. unfold open_pending. same. Qed.
Lemma same_handoff b w : same w (take_handoff b w).2.
Proof.
  unfold take_handoff. repeat case_match; try done. apply same_open_pending.
Qed.
Lemma same_view_fires t w : same w (view_fires t w).
Proof.
  unfold view_fires. pose proof (same_remember w). repeat case_match; eauto with same.
Qed.
Lemma same_view_returned t r w : same w (view_returned t r w).
Proof.
  unfold view_returned. assert (same w (set_view_task None (late_views w) w)) by eauto with same.
  destruct (active (set_view_task _ _ _)) as [a|] eqn:Ea; [|done]. repeat case_match; eauto with same.
Qed.
End same.

(** ** Changes of the store *)

(** The rows of a draft in the new store are as old as the draft, and none became older. *)
Definition rows_follow (st st' : Store) (d : Draft) : Prop :=
  (∀ r, row st' (draft_id d) = Some r → older r d) ∧
  ∀ r, row st (draft_id d) = Some r →
    ∃ r', row st' (draft_id d) = Some r' ∧ (version r <= version r')%N.
Lemma kept_rows w st st' d : rows_follow st st' d → kept w st d → kept w st' d.
Proof.
  intros [Hr Hv] [K1 K2 K3 K4 K5]. split; [done|done| |done|].
  - destruct K3 as [?|(r & Hk & ?)]; [by left|right]. destruct (Hv r Hk) as (r' & ? & ?).
    exists r'. split; [done|lia].
  - intros t v Ht Hp. destruct (K5 t v Ht Hp) as (r & Hk & ?). destruct (Hv r Hk) as (r' & ? & ?).
    exists r'. split; [done|lia].
Qed.

Section inv.
Context {class_ : CharClass} {sha_ : Sha256} {source_ : SourceJson} {review_ : ReviewJson}
  {key_ : ReleasesKey}.
Implicit Types (w : Workbench) (st : Store) (d x : Draft).

Lemma rows_id st k r : tables_ok st → row st k = Some r → draft_id r = k.
Proof. intros Ht Hr%get_Some_in. by apply (tk_drafts _ Ht). Qed.

(** Stores whose rows differ only in what publishing notes. *)
Definition same_rows st st' : Prop :=
  ∀ k, core <$> row st' k = core <$> row st k.
Lemma same_rows_follow w st st' d : same_rows st st' → kept w st d → rows_follow st st' d.
Proof.
  intros H K. specialize (H (draft_id d)). split.
  - intros r Hr. rewrite Hr in H. destruct (row st (draft_id d)) as [r0|] eqn:E; [|done].
    apply (inj Some) in H. apply (older_core r0); [by symmetry|]. by apply (kp_row _ _ _ K).
  - intros r Hr. rewrite Hr in H. destruct (row st' (draft_id d)) as [r'|]; [|done].
    exists r'. split; [done|]. apply (inj Some) in H. by rewrite (core_version _ _ H).
Qed.
Lemma inv_rows w st st' : tables_ok st' → same_rows st st' → inv w st → inv w st'.
Proof.
  intros Ht Hs I. split; [done|apply I..|]. intros a d Ha Hd.
  destruct (iv_kept _ _ I a d Ha Hd) as [|K]; [by left|right].
  eapply kept_rows; [|exact K]. by eapply same_rows_follow.
Qed.

Lemma same_rows_eq st st' : t_drafts st' = t_drafts st → same_rows st st'.
Proof. intros H k. unfold row. by rewrite H. Qed.
Lemma same_rows_published st cs :
  (∀ k r, row st k = Some r → draft_id r = k) →
  same_rows st (set_t_drafts (foldl publish_draft (t_drafts st) cs) st).
Proof.
  intros H. unfold same_rows, row in *. cbn [t_drafts set_t_drafts]. revert H. generalize (t_drafts st) as m.
  induction cs as [|c cs IH]; intros m H k; [done|]. cbn [foldl].
  assert (∀ k, core <$> get k (publish_draft m c) = core <$> get k m) as Hc.
  { intros k'. unfold publish_draft. destruct (get (pc_draft c) m) as [r|] eqn:E; [|done].
    destruct (_ && _); [|done]. rewrite get_insert. case_bool_decide as Hk; [|done]. subst k'.
    assert (get (draft_id r) m = Some r) as -> by (by rewrite (H _ _ E)). done. }
  rewrite <- (Hc k). apply IH. intros k' r Hr. specialize (Hc k'). rewrite Hr in Hc.
  destruct (get k' m) as [r0|] eqn:E; [|done]. apply (inj Some) in Hc.
  rewrite (core_id _ _ Hc). by apply H.
Qed.
Lemma written_ok {A} (P : Store → Prop) st (r : result bytes (A * Store)) :
  P st → (∀ a st', r = Ok (a, st') → P st') → P (written st r).2.
Proof. intros H Hr. destruct r as [[a st']|]; [by eapply Hr|done]. Qed.

Lemma put_snapshot_drafts s now st st' : put_snapshot s now st = Ok st' → t_drafts st' = t_drafts st.
Proof. unfold put_snapshot. case_match; [done|]. by intros [= <-]. Qed.
Lemma save_blame_drafts i key found now st st' :
  save_blame i key found now st = Ok st' → t_drafts st' = t_drafts st.
Proof. unfold save_blame. repeat case_match; try done; by intros [= <-]. Qed.
Lemma save_view_drafts i v st st' : save_view i v st = Ok st' → t_drafts st' = t_drafts st.
Proof. unfold save_view. repeat case_match; try done; by intros [= <-]. Qed.

Lemma elsewhere_ok c st : tables_ok st → tables_ok (elsewhere c st) ∧ same_rows st (elsewhere c st).
Proof.
  intros Ht. destruct c as [s now|i key found now|i now|i|e rules]; cbn.
  - destruct (put_snapshot s now st) as [st'|] eqn:E; [|done].
    split; [by eapply put_snapshot_ok|by eapply same_rows_eq, put_snapshot_drafts].
  - destruct (save_blame i key found now st) as [st'|] eqn:E; [|done].
    split; [by eapply save_blame_ok|by eapply same_rows_eq, save_blame_drafts].
  - split; [by apply show_recent_ok|done].
  - split; [by apply hide_recent_ok|done].
  - destruct (write_transition e rules st) as [st'|] eqn:E; [|done].
    split; [by eapply write_transition_ok|].
    apply write_transition_Ok in E as (_ & _ & _ & _ & _ & _ & Hd).
    intros k. unfold row. rewrite Hd. case_bool_decide; [|done].
    apply (same_rows_published st). intros k' r. by apply rows_id.
Qed.
Lemma open_source_ok src now st : tables_ok st →
  tables_ok (open_source src now st).2 ∧ same_rows st (open_source src now st).2.
Proof.
  intros Ht. destruct src as [s|i|e]; cbn; [| |done].
  - destruct (put_snapshot s now st) as [st'|] eqn:E; [|done]. cbn.
    split; [by eapply show_recent_ok, put_snapshot_ok|].
    apply same_rows_eq. cbn. by eapply put_snapshot_drafts.
  - split; [by apply show_recent_ok|done].
Qed.

(** A save that is under way writes. *)
Lemma save_draft_rows x v st st' :
  save_draft x st = Ok (v, st') →
  v = version x ∧
  (∀ k, row st' k = if bool_decide (k = draft_id x) then Some (set_saved (version x) x) else row st k) ∧
  ∀ r, row st (draft_id x) = Some r → (version r <= version x)%N.
Proof.
  intros Hs. unfold save_draft in Hs. pass Hs as E1.
  apply bind_Ok in Hs as (s & _ & Hs). apply bind_Ok in Hs as (f & _ & Hs).
  pass Hs as E2. apply bind_Ok in Hs as (u & Hw & Hs). pass Hs as E3. injection Hs as <- <-.
  split; [done|]. split; [intros k; unfold row; cbn; apply get_insert|].
  intros r Hr. unfold row in Hr. rewrite Hr in Hw. unfold check_rewrite in Hw.
  pass Hw as W1. pass Hw as W2. to_prop. lia.
Qed.
Lemma save_follows w x v st st' d :
  (draft_id x = draft_id d → older x d) → save_draft x st = Ok (v, st') → kept w st d →
  rows_follow st st' d.
Proof.
  intros Hx Hs K. apply save_draft_rows in Hs as (-> & Hr & Hv). split.
  - intros r. rewrite Hr. case_bool_decide as Hk; [|by apply (kp_row _ _ _ K)].
    intros [= <-]. apply (older_core x); [done|]. by apply Hx.
  - intros r Hrow. rewrite Hr. case_bool_decide as Hk; [|by exists r].
    eexists. split; [done|]. cbn. apply Hv. by rewrite <- Hk.
Qed.
Lemma inv_save w x v st st' :
  flying w x → save_draft x st = Ok (v, st') → inv w st → inv w st'.
Proof.
  intros Hf Hs I. split; [by eapply save_draft_ok; [apply I|]|apply I..|]. intros a d Ha Hd.
  destruct (iv_kept _ _ I a d Ha Hd) as [|K]; [by left|right].
  eapply kept_rows; [|exact K]. eapply (save_follows w); [|exact Hs|exact K]. by apply (kp_flying _ _ _ K).
Qed.

(** ** Changes of the tasks *)

(** The phase of a task moves on. *)
Definition moves (t : SaveTask) (p : SavePhase) (st : Store) : Prop :=
  match p with
  | Waiting => False
  | Running => phase t = Waiting
  | Answered (Ok v) => v = version (saved_draft t)
      ∧ ∃ r, row st (draft_id (saved_draft t)) = Some r ∧ (v <= version r)%N
  | Answered (Err _) => True
  | Finished r => phase t = Answered r
  end.
Lemma flying_phase w k t p x st :
  save_tasks w !! k = Some t → moves t p st → flying (set_phase k p w) x → flying w x.
Proof.
  intros Ht Hm [(k' & t' & Ht' & <- & Hp)|Hl]; [|right; by destruct w].
  left. assert (alter (λ t, mkSaveTask (saved_draft t) p) k (save_tasks w) !! k' = Some t') as Hk
    by (by destruct w).
  destruct (decide (k' = k)) as [->|Hne].
  - rewrite lookup_alter_eq, Ht in Hk. injection Hk as <-. exists k, t. split_and!; [done..|].
    cbn in Hp. destruct Hp as [-> | ->]; [done|]. by left.
  - rewrite lookup_alter_ne in Hk by done. by exists k', t'.
Qed.
Lemma kept_phase w st k t p d :
  save_tasks w !! k = Some t → draft_id (saved_draft t) = k → moves t p st → kept w st d →
  (match p with Finished (Ok _) => draft_id d ≠ k ∨ is_saved d = true | _ => True end) →
  kept (set_phase k p w) st d.
Proof.
  intros Ht Hid Hm K Hf. assert (∀ k', save_tasks (set_phase k p w) !! k'
    = alter (λ t, mkSaveTask (saved_draft t) p) k (save_tasks w) !! k') as Hl by (by destruct w).
  destruct K as [K1 K2 K3 K4 K5]. split; [|done|done|..].
  - intros x Hx. apply K1. by eapply flying_phase.
  - intros Hu. destruct (K4 Hu) as (t0 & Ht0 & Hc & Hp). rewrite Hl.
    destruct (decide (draft_id d = k)) as [<- |Hne].
    2:{ rewrite lookup_alter_ne by done. by exists t0. }
    rewrite lookup_alter_eq, Ht. rewrite Ht in Ht0. injection Ht0 as <-. cbn.
    eexists. split; [done|]. split; [done|]. cbn. destruct p as [| |[v|]|[v|]]; cbn in *; try done.
    + destruct Hm as [-> _]. by apply core_version.
    + destruct Hf as [|Hs]; [done|]. by rewrite Hs in Hu.
  - intros t0 v. rewrite Hl. destruct (decide (draft_id d = k)) as [<- |Hne].
    2:{ rewrite lookup_alter_ne by done. by apply K5. }
    rewrite lookup_alter_eq, Ht. intros [= <-]. cbn. intros ->. destruct Hm as (-> & r & Hr & Hv).
    exists r. split; [|done]. by rewrite <- Hid.
Qed.

Lemma update_draft_elem k g ds d' :
  NoDup (draft_id <$> ds) → d' ∈ update_draft k g ds →
  (d' ∈ ds ∧ draft_id d' ≠ k) ∨ ∃ d, d ∈ ds ∧ draft_id d = k ∧ d' = g d.
Proof.
  induction ds as [|d ds IH]; cbn; [by intros _ ?%not_elem_of_nil|]. intros [Hn Hd]%NoDup_cons.
  case_bool_decide as Hk; intros [->|Hin]%elem_of_cons.
  - right. exists d. split_and!; [by left|done..].
  - left. split; [by right|]. intros E. apply Hn. rewrite Hk, <- E. by apply list_elem_of_fmap_2.
  - left. split; [by left|done].
  - destruct (IH Hd Hin) as [[? ?]|(d0 & ? & ? & ?)]; [left; split; [by right|done]|right].
    exists d0. split_and!; [by right|done..].
Qed.
Lemma update_draft_ids k g ds :
  (∀ d, draft_id d = k → draft_id (g d) = k) → draft_id <$> update_draft k g ds = draft_id <$> ds.
Proof.
  intros Hg. induction ds as [|d ds IH]; [done|]. cbn. case_bool_decide as Hk; cbn.
  - by rewrite (Hg d Hk), Hk.
  - by rewrite IH.
Qed.
Lemma draft_of_id_Some k ds d : draft_of_id k ds = Some d → d ∈ ds ∧ draft_id d = k.
Proof.
  intros [Hin Hk]%List.find_some. apply bool_decide_eq_true in Hk.
  split; [by apply list_elem_of_In|done].
Qed.
Lemma draft_of_id_None k ds d : draft_of_id k ds = None → d ∈ ds → draft_id d ≠ k.
Proof.
  intros Hn Hd%list_elem_of_In Hk. eapply List.find_none in Hn; [|exact Hd].
  by rewrite bool_decide_true in Hn.
Qed.

(** The window takes the answer of a save. *)
Lemma acknowledged w st t v d :
  kept w st d → save_tasks w !! draft_id d = Some t → draft_id (saved_draft t) = draft_id d →
  phase t = Answered (Ok v) →
  kept (set_phase (draft_id d) (Finished (Ok v)) w) st (acknowledge_save d v).
Proof.
  intros K Ht Hid Hp. pose proof (kept_saved_version _ _ _ K) as Hsv.
  destruct K as [K1 K2 K3 K4 K5]. destruct (K5 t v Ht Hp) as (r & Hr & Hv).
  assert (draft_id (acknowledge_save d v) = draft_id d) as Ei by (by unfold acknowledge_save; case_match).
  assert (core (acknowledge_save d v) = core d) as Ec by (by unfold acknowledge_save; case_match).
  assert (save_tasks (set_phase (draft_id d) (Finished (Ok v)) w) !! draft_id d
    = Some (mkSaveTask (saved_draft t) (Finished (Ok v)))) as Hl.
  { assert (∀ k' p, save_tasks (set_phase k' p w) = alter (λ t, mkSaveTask (saved_draft t) p) k' (save_tasks w))
      as -> by (by destruct w). by rewrite lookup_alter_eq, Ht. }
  split; rewrite ?Ei.
  - intros x Hx Hxi. apply (older_core_r x d); [by symmetry|]. apply K1; [|done].
    by eapply (flying_phase w (draft_id d) t (Finished (Ok v)) x st).
  - intros r' Hr'. apply (older_core_r r' d); [by symmetry|]. by apply K2.
  - unfold acknowledge_save. destruct (v <=? version d)%N; [|done]. right. cbn.
    exists r. split; [done|]. destruct K3 as [[-> _]|(r' & Hr' & ?)]; [lia|].
    rewrite Hr in Hr'. injection Hr' as <-. lia.
  - intros Hu. exfalso. revert Hu. unfold acknowledge_save, is_saved.
    destruct (N.leb_spec v (version d)); cbn.
    + intros Hn%N.eqb_neq. apply Hn. destruct (N.eq_dec (version d) (saved_version d)) as [|Hne]; [lia|].
      destruct K4 as (t0 & Ht0 & _ & Hm); [by apply N.eqb_neq|]. rewrite Ht in Ht0. injection Ht0 as <-.
      rewrite Hp in Hm. lia.
    + intros Hn. destruct (K4 Hn) as (t0 & Ht0 & _ & Hm). rewrite Ht in Ht0. injection Ht0 as <-.
      rewrite Hp in Hm. lia.
  - intros t0 v0. rewrite Hl. by intros [= <-].
Qed.
Lemma phase_fields w k p :
  save_tasks (set_phase k p w) = alter (λ t, mkSaveTask (saved_draft t) p) k (save_tasks w) ∧
  active (set_phase k p w) = active w ∧ jobs (set_phase k p w) = jobs w.
Proof. by destruct w. Qed.
Lemma inv_phase w st k t p :
  inv w st → save_tasks w !! k = Some t → moves t p st →
  (∀ a d, active w = Some a → d ∈ a_drafts a → discarded (jobs w) (draft_id d) ∨
     match p with Finished (Ok _) => draft_id d ≠ k ∨ is_saved d = true | _ => True end) →
  inv (set_phase k p w) st.
Proof.
  intros I Ht Hm Hd. pose proof (iv_keys _ _ I _ _ Ht) as Hid.
  destruct (phase_fields w k p) as (Et & Ea & Ej). split; [apply I| |rewrite Ea; apply I|rewrite Ea; apply I|].
  - intros k' t'. rewrite Et. destruct (decide (k' = k)) as [->|Hne]; [|rewrite lookup_alter_ne by done; apply I].
    rewrite lookup_alter_eq, Ht. by intros [= <-].
  - intros a d. rewrite Ea, Ej. intros Ha Hin. destruct (iv_kept _ _ I a d Ha Hin) as [|K]; [by left|].
    destruct (Hd a d Ha Hin) as [|Hr]; [by left|right]. by apply (kept_phase w st k t).
Qed.
(** Drafts replaced in the window, all else the same. *)
Lemma inv_drafts w st a ds :
  inv w st → active w = Some a → NoDup (draft_id <$> ds) →
  (∀ d, d ∈ ds → draft_snapshot d = id (a_snapshot a) ∧ (discarded (jobs w) (draft_id d) ∨ kept w st d)) →
  inv (set_active (Some (set_a_drafts ds a)) w) st.
Proof.
  intros I Ha Hn Hd. set (w2 := set_active _ w).
  assert (active w2 = Some (set_a_drafts ds a) ∧ save_tasks w2 = save_tasks w
    ∧ late_saves w2 = late_saves w ∧ jobs w2 = jobs w) as (Ea & Et & El & Ej) by (by subst w2; destruct w).
  split; [apply I|rewrite Et; apply I|..]; intros a0.
  - rewrite Ea. by intros [= <-].
  - intros d. rewrite Ea. intros [= <-]. apply Hd.
  - intros d. rewrite Ea, Ej. intros [= <-] Hin. destruct (Hd d Hin) as [_ [|K]]; [by left|right].
    destruct K as [K1 K2 K3 K4 K5]. split; rewrite ?Et; try done.
    intros x Hx. apply K1. revert Hx. unfold flying. by rewrite Et, El.
Qed.
Lemma inv_acknowledged w st k t v a :
  inv w st → save_tasks w !! k = Some t → phase t = Answered (Ok v) → active w = Some a →
  inv (set_active (Some (set_a_drafts (update_draft k (λ d, acknowledge_save d v) (a_drafts a)) a))
         (set_phase k (Finished (Ok v)) w)) st.
Proof.
  intros I Ht Hp Ha. pose proof (iv_keys _ _ I _ _ Ht) as Hid. pose proof (iv_nodup _ _ I a Ha) as Hnd.
  set (w1 := set_phase k (Finished (Ok v)) w). destruct (phase_fields w k (Finished (Ok v))) as (Et & Ea & Ej).
  set (w2 := set_active _ w1).
  assert (active w2 = Some (set_a_drafts (update_draft k (λ d, acknowledge_save d v) (a_drafts a)) a)
    ∧ save_tasks w2 = save_tasks w1 ∧ late_saves w2 = late_saves w1 ∧ jobs w2 = jobs w) as (Ea2 & Et2 & El2 & Ej2)
    by (subst w2 w1; by destruct w).
  assert (∀ d, draft_id d = k → draft_id (acknowledge_save d v) = k) as Hg
    by (intros d; unfold acknowledge_save; by case_match).
  assert (∀ d, kept w1 st d → kept w2 st d) as Hkept.
  { intros d [K1 K2 K3 K4 K5]. split; rewrite ?Et2; try done.
    intros x Hx. apply K1. revert Hx. unfold flying. by rewrite Et2, El2. }
  split; [apply I| |..]; [rewrite Et2; subst w1; rewrite Et|..]; intros a0.
  - intros t'. destruct (decide (a0 = k)) as [->|Hne]; [|rewrite lookup_alter_ne by done; apply I].
    rewrite lookup_alter_eq, Ht. by intros [= <-].
  - rewrite Ea2. intros [= <-]. cbn. by rewrite update_draft_ids.
  - intros d. rewrite Ea2. intros [= <-]. cbn. intros [[Hd _]|(d1 & Hd & _ & ->)]%update_draft_elem; [..|done].
    + by apply (iv_snapshot _ _ I a).
    + transitivity (draft_snapshot d1); [unfold acknowledge_save; by case_match|by apply (iv_snapshot _ _ I a)].
  - intros d. rewrite Ea2, Ej2. intros [= <-]. cbn.
    intros [[Hd Hne]|(d1 & Hd & Hk & ->)]%update_draft_elem; [..|done].
    + destruct (iv_kept _ _ I a d Ha Hd) as [|K]; [by left|right]. apply Hkept.
      apply (kept_phase w st k t); [done..|by left].
    + destruct (iv_kept _ _ I a d1 Ha Hd) as [|K]; [left; by rewrite (Hg d1 Hk), <- Hk|right]. apply Hkept.
      subst w1. rewrite <- Hk. apply (acknowledged w st t v d1); [done|by rewrite Hk|by rewrite Hk|done].
Qed.
Lemma inv_returned w st k t r :
  inv w st → save_tasks w !! k = Some t → phase t = Answered r →
  inv (save_returned (saved_draft t) r (set_phase k (Finished r) w)) st.
Proof.
  intros I Ht Hp. pose proof (iv_keys _ _ I _ _ Ht) as Hid.
  destruct (phase_fields w k (Finished r)) as (Et & Ea & Ej).
  assert ((∀ a d, active w = Some a → d ∈ a_drafts a → discarded (jobs w) (draft_id d) ∨
     match r with Ok _ => draft_id d ≠ k ∨ is_saved d = true | _ => True end) →
     inv (set_phase k (Finished r) w) st) as Hsame by (intros Hd; by eapply inv_phase).
  unfold save_returned. rewrite Ea. destruct (active w) as [a|] eqn:Eact; [|by apply Hsame].
  case_bool_decide as Hs.
  2:{ apply Hsame. intros a0 d [= <-] Hd. destruct r as [v|]; [|by right].
      destruct (iv_kept _ _ I a d Eact Hd) as [|K]; [by left|right].
      destruct (decide (draft_id d = k)) as [Hk|]; [right|by left].
      destruct (is_saved d) eqn:Eu; [done|]. exfalso. apply Hs.
      destruct (kp_unsaved _ _ _ K Eu) as (t0 & Ht0 & Hc & _). rewrite Hk, Ht in Ht0. injection Ht0 as <-.
      rewrite (core_snapshot _ _ Hc). symmetry. by apply (iv_snapshot _ _ I a). }
  rewrite Hid. destruct (draft_of_id k (a_drafts a)) as [d0|] eqn:Ed.
  2:{ apply Hsame. intros a0 d [= <-] Hd. right. destruct r; [left|done]. by eapply draft_of_id_None. }
  destruct r as [v|e].
  2:{ eapply same_inv; [by apply same_status|]. apply Hsame. intros. by right. }
  by apply inv_acknowledged with t.
Qed.

(** ** A save is scheduled *)

Lemma later_fields d w :
  save_tasks (save_draft_later d w) = <[draft_id d := mkSaveTask d Waiting]> (save_tasks w) ∧
  active (save_draft_later d w) = active w ∧ jobs (save_draft_later d w) = jobs w.
Proof. by destruct w. Qed.
Lemma later_flying d w x : flying (save_draft_later d w) x → flying w x ∨ x = d.
Proof.
  intros [(k & t & Ht & <- & Hp)|Hl].
  - rewrite (proj1 (later_fields d w)) in Ht. destruct (decide (draft_id d = k)) as [<- |Hne].
    + rewrite lookup_insert_eq in Ht. injection Ht as <-. by right.
    + rewrite lookup_insert_ne in Ht by done. left. left. by exists k, t.
  - left. assert (x ∈ late_saves w ++ match save_tasks w !! draft_id d with
      | Some t => match phase t with Running => [saved_draft t] | _ => [] end | None => [] end) as Hin
      by (by destruct w).
    apply elem_of_app in Hin as [|Hin]; [by right|]. left.
    destruct (save_tasks w !! draft_id d) as [t|] eqn:E; [|by apply not_elem_of_nil in Hin].
    destruct (phase t) eqn:Ep; try by apply not_elem_of_nil in Hin.
    apply list_elem_of_singleton in Hin as ->. exists (draft_id d), t. split_and!; [done..|by right].
Qed.
Lemma kept_later_other w st d0 d :
  draft_id d ≠ draft_id d0 → kept w st d → kept (save_draft_later d0 w) st d.
Proof.
  intros Hne [K1 K2 K3 K4 K5]. split; try done.
  - intros x [Hx| ->]%later_flying Hi; [by apply K1|by rewrite Hi in Hne].
  - rewrite (proj1 (later_fields d0 w)), lookup_insert_ne by done. done.
  - rewrite (proj1 (later_fields d0 w)), lookup_insert_ne by done. done.
Qed.
(** What a draft needs for its save to be scheduled. *)
Record fits (w : Workbench) (st : Store) (d : Draft) : Prop := {
  ft_flying x : flying w x → draft_id x = draft_id d → older x d;
  ft_row r : row st (draft_id d) = Some r → older r d;
  ft_saved : saved_version d = 0%N ∧ (0 < version d)%N
             ∨ ∃ r, row st (draft_id d) = Some r ∧ (saved_version d <= version r)%N
}.
Lemma kept_later_self w st d : fits w st d → kept (save_draft_later d w) st d.
Proof.
  intros [K1 K2 K3]. split; try done; rewrite ?(proj1 (later_fields d w)), ?lookup_insert_eq.
  - intros x [Hx| ->]%later_flying Hi; [by apply K1|by right].
  - intros _. by eexists.
  - intros t v. by intros [= <-].
Qed.
Lemma kept_fits w st d : kept w st d → fits w st d.
Proof. by intros []. Qed.
Lemma fits_edited w st d d' :
  draft_id d' = draft_id d → saved_version d' = saved_version d → (version d < version d')%N →
  fits w st d → fits w st d'.
Proof.
  intros Hi Hs Hv [K1 K2 K3]. split; rewrite ?Hi, ?Hs.
  - intros x Hx Hxi. by eapply older_newer, K1.
  - intros r Hr. by eapply older_newer, K2.
  - destruct K3 as [[? ?]|]; [left; lia|by right].
Qed.

(** A draft of the window is replaced by [d], or [d] is added, and its save is scheduled. *)
Lemma inv_put w st a ds d :
  inv w st → active w = Some a → NoDup (draft_id <$> ds) →
  (∀ x, x ∈ ds → x = d ∨ x ∈ a_drafts a ∧ draft_id x ≠ draft_id d) →
  draft_snapshot d = id (a_snapshot a) → discarded (jobs w) (draft_id d) ∨ fits w st d →
  inv (save_draft_later d (set_active (Some (set_a_drafts ds a)) w)) st.
Proof.
  intros I Ha Hn Hds Hsn Hd. set (w1 := set_active _ w).
  assert (active w1 = Some (set_a_drafts ds a) ∧ save_tasks w1 = save_tasks w
    ∧ late_saves w1 = late_saves w ∧ jobs w1 = jobs w) as (Ea & Et & El & Ej) by (by subst w1; destruct w).
  assert (∀ x, flying w1 x → flying w x) as Hf by (intros x; unfold flying; by rewrite Et, El).
  destruct (later_fields d w1) as (Et1 & Ea1 & Ej1).
  split; [apply I|intros k t; rewrite Et1, Et|..]; [|intros a0; rewrite Ea1, Ea..].
  - destruct (decide (draft_id d = k)) as [<- |Hne]; [rewrite lookup_insert_eq; by intros [= <-]|].
    rewrite lookup_insert_ne by done. apply I.
  - by intros [= <-].
  - intros x [= <-] Hx. destruct (Hds x Hx) as [->|[? _]]; [done|by apply (iv_snapshot _ _ I a)].
  - intros x [= <-] Hx. rewrite Ej1, Ej. destruct (Hds x Hx) as [->|[Hx' Hne]].
    + destruct Hd as [|[K1 K2 K3]]; [by left|right]. apply kept_later_self. split; [|done|done].
      intros x' Hx'. apply K1. by apply Hf.
    + destruct (iv_kept _ _ I a x Ha Hx') as [|[K1 K2 K3 K4 K5]]; [by left|right].
      apply kept_later_other; [done|]. split; rewrite ?Et; try done.
      intros x'' Hx''. apply K1. by apply Hf.
Qed.

Lemma inv_retry w st ds a :
  inv w st → active w = Some a → (∀ d, d ∈ ds → d ∈ a_drafts a) →
  inv (foldl (λ w d, save_draft_later d w) w ds) st.
Proof.
  revert w. induction ds as [|d ds IH]; intros w I Ha Hds; [done|]. cbn [foldl].
  apply IH; [|by rewrite (proj1 (proj2 (later_fields d w)))|intros; apply Hds; by right].
  assert (d ∈ a_drafts a) as Hd by (apply Hds; by left).
  assert (w = set_active (Some (set_a_drafts (a_drafts a) a)) w) as Hw by (destruct w, a; cbn in *; by subst).
  rewrite Hw. apply inv_put; [done|done|by apply (iv_nodup _ _ I)| |by apply (iv_snapshot _ _ I)|].
  - intros x Hx. destruct (decide (draft_id x = draft_id d)) as [Hi|]; [left|by right].
    pose proof (iv_nodup _ _ I a Ha) as Hn. clear -Hn Hx Hd Hi.
    induction (a_drafts a) as [|y l IH]; [by apply not_elem_of_nil in Hx|].
    cbn in Hn. apply NoDup_cons in Hn as [Hy Hn]. apply elem_of_cons in Hx as [->|Hx], Hd as [->|Hd]; try done.
    + exfalso. apply Hy. rewrite Hi. by apply list_elem_of_fmap_2.
    + exfalso. apply Hy. rewrite <- Hi. by apply list_elem_of_fmap_2.
    + by apply IH.
  - destruct (iv_kept _ _ I a d Ha Hd) as [|K]; [by left|right; by apply kept_fits].
Qed.

(** ** Typing *)

(** No draft, no row and no task has the id. *)
Definition unused (w : Workbench) (st : Store) (k : DraftId) : Prop :=
  (∀ x, flying w x → draft_id x ≠ k) ∧ row st k = None ∧
  ∀ a d, active w = Some a → d ∈ a_drafts a → draft_id d ≠ k.

Lemma same_later d w w' : same w w' → same (save_draft_later d w) (save_draft_later d w').
Proof.
  intros [Hd Ht Hl Hj]. destruct w, w'. cbn in *. subst. by split.
Qed.
Lemma edit_draft_true d b d' :
  edit_draft d b = Ok (d', true) → d' = set_body b (version d + 1) d.
Proof.
  unfold edit_draft. case_match; [done|]. destruct (_ <=? _)%N; [|done]. cbn. by intros [= <-].
Qed.
Lemma update_draft_app k g ds d :
  (∀ x, x ∈ ds → draft_id x ≠ k) → draft_id d = k → update_draft k g (ds ++ [d]) = ds ++ [g d].
Proof.
  intros Hn Hk. induction ds as [|x ds IH]; cbn; [by rewrite bool_decide_true|].
  rewrite bool_decide_false by (apply Hn; by left). f_equal. apply IH. intros y Hy. apply Hn. by right.
Qed.
Lemma draft_of_id_app k ds d :
  (∀ x, x ∈ ds → draft_id x ≠ k) → draft_id d = k → draft_of_id k (ds ++ [d]) = Some d.
Proof.
  intros Hn Hk. unfold draft_of_id. induction ds as [|x ds IH]; cbn; [by rewrite bool_decide_true|].
  rewrite bool_decide_false by (apply Hn; by left). apply IH. intros y Hy. apply Hn. by right.
Qed.

(** The edit of a draft that the window has. *)
Lemma inv_edited w w' st a k d d' :
  inv w st → active w = Some a → draft_of_id k (a_drafts a) = Some d →
  d' = set_body (draft_body d') (version d + 1) d →
  same (set_active (Some (set_a_drafts (update_draft k (λ _, d') (a_drafts a)) a)) w) w' →
  inv (save_draft_later d' w') st.
Proof.
  intros I Ha [Hd Hk]%draft_of_id_Some Hd' Hs. pose proof (iv_nodup _ _ I a Ha) as Hn.
  assert (draft_id d' = k) as Hk' by (by rewrite Hd').
  eapply same_inv; [by apply same_later|]. apply inv_put; [done|done| | | |].
  - by rewrite update_draft_ids.
  - intros x [[Hx Hne]|(x0 & _ & _ & ->)]%update_draft_elem; [right|by left|done].
    by rewrite Hk'.
  - rewrite Hd'. by apply (iv_snapshot _ _ I a d).
  - destruct (iv_kept _ _ I a d Ha Hd) as [Hx|K]; [left; by rewrite Hk', <- Hk|right].
    apply (fits_edited w st d); [by rewrite Hd'|by rewrite Hd'| |by apply kept_fits].
    rewrite Hd'. cbn. lia.
Qed.
(** The first text of a new draft. *)
Lemma inv_created w w' st a d' :
  inv w st → active w = Some a → unused w st (draft_id d') → draft_snapshot d' = id (a_snapshot a) →
  saved_version d' = 0%N → (0 < version d')%N →
  same (set_active (Some (set_a_drafts (a_drafts a ++ [d']) a)) w) w' →
  inv (save_draft_later d' w') st.
Proof.
  intros I Ha (Hf & Hr & Hu) Hsn Hsv Hv Hs. pose proof (iv_nodup _ _ I a Ha) as Hn.
  eapply same_inv; [by apply same_later|]. apply inv_put; [done|done| | |done|].
  - rewrite fmap_app. apply NoDup_app. split_and!; [done| |by apply NoDup_singleton].
    intros k (d & -> & Hd)%list_elem_of_fmap Hk%list_elem_of_singleton. by apply (Hu a d).
  - intros x [Hx|Hx]%elem_of_app; [right|left; by apply list_elem_of_singleton]. split; [done|by apply (Hu a)].
  - right. split; [|by rewrite Hr|by left]. intros x Hx Hi. by destruct (Hf x Hx).
Qed.

Lemma blank_nil : is_blank [] = true.
Proof. vm_compute. reflexivity. Qed.
Lemma inv_typed fresh body w st :
  inv w st → unused w st fresh → inv (edit_selected fresh body w) st.
Proof.
  intros I Hu. unfold edit_selected.
  assert (draft_created fresh body w = w ∨ ∃ a d,
    active w = Some a ∧ draft_id d = fresh ∧ draft_snapshot d = id (a_snapshot a) ∧ draft_body d = [] ∧
    version d = 0%N ∧ saved_version d = 0%N ∧ published d = false ∧ is_blank body = false ∧
    draft_created fresh body w = set_line (draft_input w) (Some fresh) (line_context w) (thread_root w)
      (set_active (Some (set_a_drafts (a_drafts a ++ [d]) a)) w)) as [->|H].
  { unfold draft_created. repeat case_match; try by left. right. eexists _, _.
    split_and!; try reflexivity; done. }
  - destruct (active w) as [a|] eqn:Ea; [|done]. cbn. destruct (selected_draft w) as [k|]; [|done]. cbn.
    destruct (draft_of_id k (a_drafts a)) as [d|] eqn:Ed; [|done]. cbn. case_match; [done|].
    set (w1 := if (64 * 1024 <? lenN body)%N then _ else w).
    assert (same w w1) as H1 by (subst w1; same).
    destruct (edit_draft d body) as [[d' [|]]|e] eqn:Ee.
    + apply edit_draft_true in Ee as ->. eapply inv_edited; [exact I|exact Ea|exact Ed|done|].
      subst w1. case_match; by destruct w.
    + by eapply same_inv.
    + eapply same_inv; [|exact I]. by apply same_status.
  - destruct H as (a & d & Ha & Hk & Hsn & Hb & Hv & Hs & Hp & Hbl & ->).
    set (w0 := set_line _ _ _ _ _).
    assert (active w0 = Some (set_a_drafts (a_drafts a ++ [d]) a) ∧ selected_draft w0 = Some fresh) as [-> ->]
      by (subst w0; by destruct w).
    destruct Hu as (Hf & Hr & Ht). pose proof (λ x, Ht a x Ha) as Hn.
    cbn [mbind option_bind a_drafts set_a_drafts].
    rewrite (draft_of_id_app fresh _ d Hn Hk). cbn [mbind option_bind]. rewrite Hp. cbn [orb].
    assert (body ≠ draft_body d) as Hne by (rewrite Hb; intros ->; by rewrite blank_nil in Hbl).
    rewrite bool_decide_false by done.
    assert (edit_draft d body = Ok (set_body body 1 d, true)) as ->.
    { unfold edit_draft. rewrite Hp, bool_decide_false by congruence. by rewrite Hv. }
    apply (inv_created w _ st a); cbn; [done|done|by rewrite Hk|done|done|lia|].
    rewrite (update_draft_app fresh _ _ d Hn Hk). subst w0. case_match; by destruct w.
Qed.

Lemma inv_retry_saves w st : inv w st → inv (retry_saves w) st.
Proof.
  intros I. unfold retry_saves. eapply same_inv; [apply same_schedule|].
  destruct (active w) as [a|] eqn:Ea; [|done]. apply inv_retry with a; [done|done|].
  intros d [Hd _]%list_elem_of_In%List.filter_In. by apply list_elem_of_In.
Qed.

(** ** Publishing *)

Definition noted (d d' : Draft) : Prop := core d = core d' ∧ saved_version d = saved_version d'.
Lemma kept_noted w st d d' : noted d d' → kept w st d → kept w st d'.
Proof.
  intros [Hc Hs] [K1 K2 K3 K4 K5]. pose proof (core_id _ _ Hc) as Hi. pose proof (core_version _ _ Hc) as Hv.
  split; rewrite <- ?Hi, <- ?Hs, <- ?Hv; try done.
  - intros x Hx Hxi. by eapply older_core_r, K1.
  - intros r Hr. by eapply older_core_r, K2.
  - intros Hu. unfold is_saved in *. rewrite <- Hs, <- Hv in Hu. destruct (K4 Hu) as (t & ? & ? & ?).
    exists t. split_and!; [done|congruence|done].
Qed.
Lemma mark_published_noted c ds : Forall2 noted ds (mark_published c ds).
Proof.
  induction ds as [|d ds IH]; cbn; [constructor|]. case_match; constructor; try done.
  clear. by induction ds; constructor.
Qed.
Lemma noted_trans l1 l2 l3 : Forall2 noted l1 l2 → Forall2 noted l2 l3 → Forall2 noted l1 l3.
Proof.
  intros H. revert l3. induction H as [|x y l l' [H1 H2] _ IH]; intros l3 H3; [done|].
  apply Forall2_cons_inv_l in H3 as (z & l3' & [] & ? & ->). constructor; [split; congruence|by apply IH].
Qed.
Lemma marked_noted cs ds : Forall2 noted ds (foldl (λ ds c, mark_published c ds) ds cs).
Proof.
  revert ds. induction cs as [|c cs IH]; intros ds; cbn; [by induction ds; constructor|].
  eapply noted_trans; [apply mark_published_noted|apply IH].
Qed.
Lemma inv_noted w st a ds :
  inv w st → active w = Some a → Forall2 noted (a_drafts a) ds →
  inv (set_active (Some (set_a_drafts ds a)) w) st.
Proof.
  intros I Ha Hf. apply inv_drafts; [done|done|..].
  - assert (draft_id <$> ds = draft_id <$> a_drafts a) as ->; [|by apply (iv_nodup _ _ I)].
    clear -Hf. induction Hf as [|d d' l l' [Hc _] _ IH]; [done|]. cbn. by rewrite (core_id _ _ Hc), IH.
  - intros d' Hd'. apply list_elem_of_lookup in Hd' as [i Hi].
    destruct (Forall2_lookup_r _ _ _ _ _ Hf Hi) as (d & Hd%list_elem_of_lookup_2 & Hn).
    pose proof Hn as [Hc _]. rewrite <- (core_snapshot _ _ Hc), <- (core_id _ _ Hc).
    split; [by apply (iv_snapshot _ _ I)|]. destruct (iv_kept _ _ I a d Ha Hd) as [|K]; [by left|right].
    by eapply kept_noted.
Qed.
Lemma inv_marked e w st : inv w st → inv (mark_confirmed_drafts_published e w) st.
Proof.
  intros I. unfold mark_confirmed_drafts_published. destruct (active w) as [a|] eqn:Ea; [|done].
  case_match; [|done]. apply inv_noted; [done|done|apply marked_noted].
Qed.

(** ** Calls that make the window busy *)

Lemma elem_of_delete_ne {A} (l : list A) n (x y : A) :
  l !! n = Some y → x ≠ y → x ∈ l → x ∈ delete n l.
Proof.
  intros Hy Hne Hx. rewrite delete_take_drop. rewrite <- (take_drop_middle _ _ _ Hy) in Hx.
  apply elem_of_app in Hx as [|[->|]%elem_of_cons]; [|done|]; apply elem_of_app; auto.
Qed.
Lemma elem_of_insert_ne {A} (l : list A) n (x y z : A) :
  l !! n = Some y → x ≠ y → x ∈ l → x ∈ <[n := z]> l.
Proof.
  intros Hy Hne Hx. rewrite (insert_take_drop _ _ _ (lookup_lt_Some _ _ _ Hy)).
  rewrite <- (take_drop_middle _ _ _ Hy) in Hx.
  apply elem_of_app in Hx as [|[->|]%elem_of_cons]; [|done|]; apply elem_of_app; rewrite ?elem_of_cons; auto.
Qed.
(** The call that is answered is gone. *)
Lemma inv_job_gone w st n j b :
  inv w st → jobs w !! n = Some j →
  (∀ a d v, active w = Some a → d ∈ a_drafts a →
     j ≠ mkJob (DiscardJob (draft_id d) v) (Some (DiscardedIs (Ok tt)))) →
  inv (set_jobs b (delete n (jobs w)) w) st.
Proof.
  intros I Hj Hd. set (w1 := set_jobs _ _ w).
  assert (active w1 = active w ∧ save_tasks w1 = save_tasks w ∧ late_saves w1 = late_saves w
    ∧ jobs w1 = delete n (jobs w)) as (Ea & Et & El & Ej) by (subst w1; by destruct w).
  split; [apply I|rewrite Et; apply I|rewrite Ea; apply I|rewrite Ea; apply I|]. intros a d.
  rewrite Ea, Ej. intros Ha Hin. destruct (iv_kept _ _ I a d Ha Hin) as [[v Hv]|[K1 K2 K3 K4 K5]].
  - left. exists v. eapply elem_of_delete_ne; [done| |done]. intros E. by apply (Hd a d v).
  - right. split; rewrite ?Et; try done. intros x Hx. apply K1. revert Hx. unfold flying. by rewrite Et, El.
Qed.
(** A call is answered. *)
Lemma same_answered w n j a :
  jobs w !! n = Some j → answer j = None →
  same w (set_jobs (busy w) (<[n := mkJob (call j) (Some a)]> (jobs w)) w).
Proof.
  intros Hj Hn. apply same_set_jobs; [done|]. intros k [v Hv]. exists v.
  eapply elem_of_insert_ne; [done| |done]. intros E. by rewrite <- E in Hn.
Qed.
Lemma inv_discarded w st st' n k v :
  inv w st → jobs w !! n = Some (mkJob (DiscardJob k v) None) → discard_draft k v st = Ok st' →
  inv (set_jobs (busy w) (<[n := mkJob (DiscardJob k v) (Some (DiscardedIs (Ok tt)))]> (jobs w)) w) st'.
Proof.
  intros I Hj Hs. assert (∀ k', row st' k' = if bool_decide (k' = k) then None else row st k') as Hr.
  { intros k'. unfold discard_draft in Hs. destruct (get k (t_drafts st)); [|done].
    destruct (_ && _); [|done]. injection Hs as <-. apply get_remove. }
  set (w1 := set_jobs _ _ w).
  assert (same w w1) as Hsame by (apply (same_answered w n _ (DiscardedIs (Ok tt)) Hj); done).
  assert (mkJob (DiscardJob k v) (Some (DiscardedIs (Ok tt))) ∈ jobs w1) as Hin.
  { assert (jobs w1 = <[n := mkJob (DiscardJob k v) (Some (DiscardedIs (Ok tt)))]> (jobs w)) as ->
      by (subst w1; by destruct w).
    eapply list_elem_of_lookup_2, list_lookup_insert_eq, lookup_lt_Some, Hj. }
  pose proof (same_inv _ _ _ Hsame I) as I1.
  split; [by eapply discard_draft_ok; [apply I|]|apply I1..|]. intros a d Ha Hd.
  destruct (decide (draft_id d = k)) as [->|Hne]; [left; by exists v|].
  destruct (iv_kept _ _ I1 a d Ha Hd) as [|K]; [by left|right]. eapply kept_rows; [|exact K].
  split; intros r; rewrite Hr, bool_decide_false by done.
  - apply K.
  - intros Hrow. by exists r.
Qed.
Lemma inv_discard_heard w st n k v b :
  inv w st → jobs w !! n = Some (mkJob (DiscardJob k v) (Some (DiscardedIs (Ok tt)))) →
  inv (job_returned (DiscardJob k v) (DiscardedIs (Ok tt)) (set_jobs b (delete n (jobs w)) w)) st.
Proof.
  intros I Hj. set (w1 := match active w with
    | Some a => set_active (Some (set_a_drafts
        (List.filter (λ d, negb (bool_decide (draft_id d = k))) (a_drafts a)) a)) w
    | None => w end).
  assert (∀ a d, active w1 = Some a → d ∈ a_drafts a → draft_id d ≠ k) as Hk.
  { intros a d. subst w1. destruct (active w) as [a0|] eqn:Ea; [|by rewrite Ea].
    assert (∀ y, active (set_active y w) = y) as -> by (by destruct w). intros [= <-].
    intros [_ H]%list_elem_of_In%List.filter_In. by case_bool_decide. }
  assert (inv w1 st) as I1.
  { subst w1. destruct (active w) as [a|] eqn:Ea; [|done].
    assert (∀ d, d ∈ List.filter (λ d, negb (bool_decide (draft_id d = k))) (a_drafts a) → d ∈ a_drafts a) as Hin
      by (intros d [? _]%list_elem_of_In%List.filter_In; by apply list_elem_of_In).
    apply inv_drafts; [done|done| |].
    - pose proof (iv_nodup _ _ I a Ea) as Hn. clear -Hn.
      induction (a_drafts a) as [|d l IH]; [done|]. apply NoDup_cons in Hn as [Hd Hn]. cbn.
      case_bool_decide; cbn; [by apply IH|]. apply NoDup_cons. split; [|by apply IH].
      intros (y & Hy & [Hin _]%list_elem_of_In%List.filter_In)%list_elem_of_fmap.
      apply Hd. rewrite Hy. by apply list_elem_of_fmap_2, list_elem_of_In.
    - intros d ?%Hin. split; [by apply (iv_snapshot _ _ I)|by apply (iv_kept _ _ I a)]. }
  assert (jobs w1 = jobs w) as Ej by (subst w1; case_match; by destruct w).
  eapply same_inv; [|eapply (inv_job_gone w1 st n _ b I1); [by rewrite Ej|]].
  - subst w1. rewrite Ej. unfold job_returned, discard_returned. destruct w as [[a|]]; by split.
  - intros a d v' Ha Hd [= Hi _]. by apply (Hk a d).
Qed.
Lemma inv_job_returned w st n j a b :
  inv w st → jobs w !! n = Some j → answer j = Some a →
  inv (job_returned (call j) a (set_jobs b (delete n (jobs w)) w)) st.
Proof.
  intros I Hj Ha. destruct j as [c a0]. cbn in Ha |- *. subst a0.
  pose proof (inv_job_gone w st n _ b I Hj) as Hgone. set (w1 := set_jobs b _ w) in *.
  assert ((∀ k v, c = DiscardJob k v → a ≠ DiscardedIs (Ok tt)) → inv (set_jobs false (jobs w1) w1) st) as I1.
  { intros Hno. eapply same_inv; [by apply same_busy, same_refl|]. apply Hgone. intros a0 d v _ _ [= -> ->].
    by eapply Hno. }
  assert ((∀ k v, c = DiscardJob k v → a ≠ DiscardedIs (Ok tt)) → inv w1 st) as I0.
  { intros Hno. apply Hgone. intros a0 d v _ _ [= -> ->]. by eapply Hno. }
  clear Hgone. unfold job_returned, prepare_returned, publish_returned, reconcile_returned, discard_returned.
  destruct c as [i ds v sum|p|i|k v]; destruct a as [[p'|e']|[e|e']|[[]|e']];
    try (apply I0; congruence); try (refine (same_inv _ _ _ _ (I1 _)); [solve [eauto with same]|congruence]).
  - refine (same_inv _ _ _ _ (inv_marked e _ _ (same_inv _ _ _ _ (I1 _)))); [eauto 8 with same..|congruence].
  - refine (inv_marked e _ _ (same_inv _ _ _ _ (I1 _))); [eauto with same|congruence].
  - by apply (inv_discard_heard w st n k v b).
Qed.
Lemma inv_job_runs (rules_of : bytes → result bytes ReviewRules) fresh failure w st n j a st' :
  inv w st → jobs w !! n = Some j → answer j = None →
  run_job rules_of fresh failure (call j) st = Some (a, st') →
  inv (set_jobs (busy w) (<[n := mkJob (call j) (Some a)]> (jobs w)) w) st'.
Proof.
  intros I Hj Hn Hr.
  assert (∀ st1, tables_ok st1 → t_drafts st1 = t_drafts st → st' = st1 →
    inv (set_jobs (busy w) (<[n := mkJob (call j) (Some a)]> (jobs w)) w) st') as Hok.
  { intros st1 Ht Hd ->. apply (same_inv w); [by apply same_answered|].
    by apply (inv_rows w st); [|apply same_rows_eq|]. }
  pose proof (Hok st (iv_tables _ _ I) eq_refl) as Hst. unfold run_job in Hr.
  destruct failure as [e|]; [injection Hr as _ <-; by apply Hst|].
  destruct (call j) as [i ds v sum|p|i|k v] eqn:Ec.
  - destruct (mbind _ _) as [[s rules]|e]; [|injection Hr as _ <-; by apply Hst].
    destruct (prepare _ _ _ _ _ _) as [p|[e|]]; [|injection Hr as _ <-; by apply Hst|done].
    destruct (insert_prepared p rules st) as [[e st1]|e] eqn:Ei; injection Hr as _ <-; [|by apply Hst].
    apply (Hok st1); [by eapply insert_prepared_ok; [apply I|]| |done].
    unfold insert_prepared in Ei. pass Ei as E1. case_match; [done|]. by injection Ei as _ <-.
  - injection Hr as _ <-. by apply Hst.
  - injection Hr as _ <-. by apply Hst.
  - destruct (discard_draft k v st) as [st1|e] eqn:Ed; injection Hr as <- <-; [|by apply Hst].
    assert (j = mkJob (DiscardJob k v) None) as -> by (destruct j; cbn in *; congruence).
    by eapply inv_discarded.
Qed.

(** ** Entering a review *)

(** The drafts are as the store has them, and no save under way will write anything newer. *)
Definition at_rest (w : Workbench) (st : Store) (o : OpenedReview) : Prop :=
  let '(s, ds, _) := o in
  ds = stored_drafts (id s) st ∧
  ∀ d, d ∈ ds →
    (∀ x, flying w x → draft_id x = draft_id d → older x d) ∧
    ∀ t v, save_tasks w !! draft_id d = Some t → phase t = Answered (Ok v) → (v <= version d)%N.
Lemma stored_row i st d : tables_ok st → d ∈ stored_drafts i st →
  row st (draft_id d) = Some d ∧ draft_snapshot d = i ∧ saved_version d = version d ∧ (0 < version d)%N.
Proof.
  intros Ht (Hi & ([k d'] & -> & Hin)%list_elem_of_fmap)%list_elem_of_filter.
  destruct (tk_drafts _ Ht _ _ Hin) as (<- & _ & Hv & Hs). split_and!; [|done|done|cbn in *; lia].
  apply ordered_get; [apply Ht|done].
Qed.
Lemma stored_nodup i st : tables_ok st → NoDup (draft_id <$> stored_drafts i st).
Proof.
  intros Ht. unfold stored_drafts.
  assert (∀ k d, (k, d) ∈ t_drafts st → draft_id d = k) as Hid by (intros k d ?; by apply (tk_drafts _ Ht)).
  pose proof (tk_drafts_ordered _ Ht) as Ho. unfold ordered in Ho. clear Ht. revert Ho Hid.
  generalize (t_drafts st) as m. induction m as [|[k d] m IH]; [by constructor|].
  intros [Ho Hk]%StronglySorted_inv Hid. rewrite fmap_cons, filter_cons. cbn [snd].
  assert (NoDup (draft_id <$> filter (λ d, draft_snapshot d = i) m.*2)) as Hn
    by (apply IH; [done|]; intros k' d' ?; apply Hid; by right).
  case_decide; [|done]. apply NoDup_cons. split; [|done].
  intros (d1 & Hd1 & (_ & ([k2 d2] & -> & Hin)%list_elem_of_fmap)%list_elem_of_filter)%list_elem_of_fmap.
  cbn [snd] in Hd1. rewrite (Hid k d), (Hid k2 d2) in Hd1 by (by constructor). subst k2.
  rewrite List.Forall_forall in Hk. assert (key_lt k k) as Hlt.
  { apply Hk. apply list_elem_of_In, list_elem_of_fmap. by exists (k, d2). }
  unfold key_lt in Hlt. by rewrite lex_lt_irrefl in Hlt.
Qed.
Lemma inv_enter w w' st s ds v :
  at_rest w st (s, ds, v) → inv w st → save_tasks w' = save_tasks w → late_saves w' = late_saves w →
  drafts_of w' = Some (id s, ds) → inv w' st.
Proof.
  intros [-> Hrest] I Et El Hd. pose proof (iv_tables _ _ I) as Ht.
  assert (∀ a, active w' = Some a → id (a_snapshot a) = id s ∧ a_drafts a = stored_drafts (id s) st) as Ha.
  { intros a Ea%drafts_of_active. rewrite Hd in Ea. by injection Ea as -> ->. }
  split; [done|rewrite Et; apply I|..].
  - intros a [_ ->]%Ha. by apply stored_nodup.
  - intros a d [-> ->]%Ha Hin. by apply (stored_row _ st).
  - intros a d [_ ->]%Ha Hin. right. destruct (Hrest d Hin) as [Hf Hp].
    destruct (stored_row _ _ _ Ht Hin) as (Hr & _ & Hs & Hv).
    assert (∀ x, flying w' x → flying w x) as Hfl by (intros x; unfold flying; by rewrite Et, El).
    split; rewrite ?Et.
    + intros x Hx. by apply Hf, Hfl.
    + rewrite Hr. intros r [= <-]. by right.
    + right. exists d. split; [done|lia].
    + unfold is_saved. rewrite Hs. intros []%N.eqb_neq. done.
    + intros t v' Hx Hx'. exists d. split; [done|by eapply Hp].
Qed.
Lemma inv_install w w' st o : at_rest w st o → inv w st → install o w = Some w' → inv w' st.
Proof.
  destruct o as [[s ds] v]. intros Hr I Hi. unfold install in Hi.
  destruct (take_blame s) as [found s'] eqn:Et.
  assert (id s' = id s) as Hid by (unfold take_blame in Et; by injection Et as _ <-).
  set (w1 := set_panel _ _) in Hi.
  assert (inv w1 st) as I1.
  { apply (inv_enter w w1 st s ds v Hr I); subst w1; destruct w; try done. unfold drafts_of. cbn.
    by rewrite Hid. }
  destruct (match match (k ← view_selected v; _) with Some k => Some k | None => _ end with
            | Some k => select_file k w1 | None => Some w1 end) as [w2|] eqn:E; [|done].
  cbn in Hi. injection Hi as <-.
  eapply same_inv; [apply same_status, same_refl|]. case_match; [|by injection E as <-].
  eapply same_inv; [by eapply same_select_file|done].
Qed.
Lemma inv_opening_returned w w' st again r :
  (∀ o, again = false → r = Ok o → at_rest w st o) → inv w st →
  opening_returned again r w = Some w' → inv w' st.
Proof.
  intros Hr I Ho. unfold opening_returned in Ho. set (w0 := set_opening _ _ None w) in Ho.
  assert (same w w0) as H0 by (subst w0; eauto with same).
  assert (inv w0 st) as I0 by (by eapply same_inv).
  destruct r as [[[s ds] v]|e]; [|injection Ho as <-; eapply same_inv; [|exact I0]; by apply same_status].
  destruct again.
  - destruct (active w0) as [a|] eqn:Ea.
    2:{ injection Ho as <-. eapply same_inv; [|exact I0]. by apply same_status. }
    case_bool_decide as Hid; cbn [negb] in Ho.
    + injection Ho as <-. eapply same_inv; [|exact I0].
      apply same_status, same_viewport. eapply same_set_active; [done|exact Ea|by symmetry|done].
    + injection Ho as <-. eapply same_inv; [|exact I0]. eauto with same.
  - eapply inv_install; [|exact I0|exact Ho]. specialize (Hr _ eq_refl eq_refl).
    destruct Hr as [Hd Hf]. split; [done|]. intros d Hin. destruct (Hf d Hin) as [Hx Ht]. split.
    + intros x Hfl. apply Hx. by eapply same_flying.
    + by rewrite (sm_tasks _ _ H0).
Qed.
Lemma inv_accept_offer w w' st :
  (∀ o, offered w = Some o → unsaved w = false → at_rest w st o) → inv w st →
  accept_offer w = Some w' → inv w' st.
Proof.
  intros Hr I Ha. unfold accept_offer in Ha.
  destruct (unsaved w); [injection Ha as <-; eapply same_inv; [|exact I]; eauto with same|].
  destruct (offered w) as [o|]; [|by injection Ha as <-].
  destruct (install o _) as [w1|] eqn:Ei; [|done]. cbn in Ha. injection Ha as <-.
  eapply same_inv; [apply same_status, same_refl|].
  pose proof (Hr o eq_refl eq_refl) as Ho. eapply inv_install; [|eapply same_inv; [|exact I]|exact Ei].
  - destruct o as [[s ds] v], Ho as [Hd Hf]. split; [done|]. intros d Hin. destruct (Hf d Hin) as [Hx Ht].
    assert (same w (set_opening (loading w) None (opening w) w)) as H0 by eauto with same.
    split; [|by rewrite (sm_tasks _ _ H0)]. intros x Hfl. apply Hx. by eapply same_flying.
  - eauto with same.
Qed.

(** ** Every step *)

Lemma inv_late w st n x st' :
  inv w st → late_saves w !! n = Some x → st' = (written st (save_draft x st)).2 →
  inv (set_saves (save_tasks w) (delete n (late_saves w)) w) st'.
Proof.
  intros I Hn ->.
  assert (inv w (written st (save_draft x st)).2) as I1.
  { destruct (save_draft x st) as [[v st1]|e] eqn:E; [|done]. cbn. eapply inv_save; [|exact E|done].
    right. by eapply list_elem_of_lookup_2. }
  revert I1. generalize (written st (save_draft x st)).2. clear I. intros st' I.
  set (w1 := set_saves _ _ w).
  assert (active w1 = active w ∧ save_tasks w1 = save_tasks w ∧ jobs w1 = jobs w
    ∧ late_saves w1 = delete n (late_saves w)) as (Ea & Et & Ej & El) by (subst w1; by destruct w).
  split; [apply I|rewrite Et; apply I|rewrite Ea; apply I|rewrite Ea; apply I|].
  intros a d. rewrite Ea, Ej. intros Ha Hin. destruct (iv_kept _ _ I a d Ha Hin) as [|K]; [by left|right].
  destruct K as [K1 K2 K3 K4 K5]. split; rewrite ?Et; try done.
  intros y Hy. apply K1. revert Hy. unfold flying. rewrite Et, El. intros [|Hy]; [by left|right].
  revert Hy. rewrite delete_take_drop, elem_of_app. intros [Hy|Hy].
  - exact (subseteq_take n _ _ Hy).
  - exact (subseteq_drop (S n) _ _ Hy).
Qed.
Lemma inv_save_step k e D D' : inv (bench D) (disk D) → save_step k e D = Some D' → inv (bench D') (disk D').
Proof.
  destruct D as [w st]. unfold save_step, on_bench. cbn [bench disk]. intros I.
  destruct (save_tasks w !! k) as [t|] eqn:Ht; [|by intros [= <-]].
  pose proof (iv_keys _ _ I _ _ Ht) as Hid.
  destruct e; try (by intros [= <-]); destruct (phase t) as [| |r|r] eqn:Hp; try (by intros [= <-]).
  - intros [= <-]. apply (inv_phase w st k t Running I Ht Hp). by right.
  - destruct failure as [e|].
    + intros [= <-]. apply (inv_phase w st k t (Answered (Err e)) I Ht); [done|by right].
    + destruct (save_draft (saved_draft t) st) as [[v st1]|e] eqn:E; intros [= <-].
      * pose proof (save_draft_rows _ _ _ _ E) as (Hv & Hr & _). cbn.
        apply (inv_phase w st1 k t (Answered (Ok v))); [|done| |by right].
        -- eapply inv_save; [|exact E|done]. left. exists k, t. split_and!; [done..|by right].
        -- split; [done|]. rewrite Hr, bool_decide_true by done. eexists. split; [done|]. cbn. lia.
      * apply (inv_phase w st k t (Answered (Err e)) I Ht); [done|by right].
  - intros [= <-]. by apply inv_returned.
Qed.
Lemma inv_view_step e D D' : inv (bench D) (disk D) → view_step e D = Some D' → inv (bench D') (disk D').
Proof.
  destruct D as [w st]. unfold view_step, on_bench. cbn [bench disk]. intros I.
  destruct (view_task w) as [t|]; [|by intros [= <-]].
  destruct e; try (by intros [= <-]); destruct (vt_phase t) as [|v|r]; try (by intros [= <-]).
  - intros [= <-]. eapply same_inv; [apply same_view_fires|done].
  - destruct (written st _) as [r st1] eqn:E. intros [= <-]. cbn.
    eapply same_inv; [apply same_view_task, same_refl|].
    destruct (save_view (vt_snapshot t) v st) as [st2|e] eqn:Ev; cbn in E; injection E as _ <-; [|done].
    apply (inv_rows w st); [by eapply save_view_ok; [apply I|]|by eapply same_rows_eq, save_view_drafts|done].
  - intros [= <-]. eapply same_inv; [apply same_view_returned|done].
Qed.
Lemma inv_job_step rules_of n e D D' :
  inv (bench D) (disk D) → job_step rules_of n e D = Some D' → inv (bench D') (disk D').
Proof.
  destruct D as [w st]. unfold job_step, on_bench. cbn [bench disk]. intros I.
  destruct (jobs w !! n) as [j|] eqn:Hj; [|by intros [= <-]].
  destruct e; try (by intros [= <-]); destruct (answer j) as [a|] eqn:Ha; try (by intros [= <-]).
  - destruct (run_job _ _ _ _ _) as [[a st1]|] eqn:E; [|done]. intros [= <-]. by eapply inv_job_runs.
  - intros [= <-]. by eapply inv_job_returned.
Qed.

(** A review is entered at rest, and a new draft gets an id of its own. *)
Definition faithful (D : Desk) (e : FlowEvent) : Prop :=
  match e with
  | Typed fresh _ => unused (bench D) (disk D) fresh
  | OpenReturns =>
      match opening (bench D) with
      | Some (mkOpening false (Some (Ok o))) => at_rest (bench D) (disk D) o
      | _ => True
      end
  | AcceptOffer =>
      match offered (bench D) with
      | Some o => unsaved (bench D) = false → at_rest (bench D) (disk D) o
      | None => True
      end
  | _ => True
  end.
#[local] Hint Resolve same_new_draft same_new_file same_close same_discard same_choose same_summary
  same_prepare same_publish same_reconcile same_open_pending same_handoff : same.
Lemma inv_event rules_of D e D' :
  faithful D e → inv (bench D) (disk D) → flow_event rules_of D e = Some D' → inv (bench D') (disk D').
Proof.
  destruct D as [w st]. intros Hf I.
  assert (∀ w1, same w w1 → Some (mkDesk w1 st) = Some D' → inv (bench D') (disk D')) as Hs
    by (intros w1 H [= <-]; by apply (same_inv w)).
  assert (∀ w1, inv w1 st → Some (mkDesk w1 st) = Some D' → inv (bench D') (disk D')) as Hi
    by (by intros w1 H [= <-]).
  destruct e; cbn [flow_event bench disk faithful] in *; unfold on_bench; cbn [disk];
    try (apply Hs; solve [eauto with same]).
  - destruct (select_file k w) as [w1|] eqn:E; [|done]. apply Hs. by eapply same_select_file.
  - destruct (select_draft k w) as [w1|] eqn:E; [|done]. apply Hs. by eapply same_select_draft.
  - destruct (show_thread root location w) as [w1|] eqn:E; [|done]. apply Hs. by eapply same_show_thread.
  - apply Hi. set (w1 := set_line _ _ _ _ w). assert (same w w1) as H by (subst w1; eauto with same).
    apply inv_typed; [by eapply same_inv|]. destruct Hf as (Hf & Hr & Ha). split_and!; [|done|].
    + intros x Hx. by apply Hf, (same_flying _ _ _ H).
    + intros a d (a0 & Ha0 & _ & <-)%(same_active _ _ _ H). by apply Ha.
  - apply Hi. by apply inv_retry_saves.
  - by apply inv_job_step.
  - by apply inv_job_step.
  - by apply inv_save_step.
  - by apply inv_save_step.
  - by apply inv_save_step.
  - destruct (late_saves w !! n) as [x|] eqn:E; [|by apply Hi].
    destruct (written st _) as [r st1] eqn:Ew. intros [= <-]. cbn. eapply inv_late; [done|done|].
    by rewrite Ew.
  - by apply inv_view_step.
  - by apply inv_view_step.
  - by apply inv_view_step.
  - destruct (late_views w !! n) as [[i v]|]; [|by apply Hi].
    destruct (written st _) as [r st1] eqn:Ew. intros [= <-]. cbn.
    eapply same_inv; [apply same_view_task, same_refl|].
    destruct (save_view i v st) as [st2|e] eqn:Ev; cbn in Ew; injection Ew as _ <-; [|done].
    apply (inv_rows w st); [by eapply save_view_ok; [apply I|]|by eapply same_rows_eq, save_view_drafts|done].
  - destruct (opening w) as [[again [r|]]|]; [by apply Hi| |by apply Hi].
    pose proof (open_source_ok x now st (iv_tables _ _ I)) as [Ht Hr].
    destruct (open_source x now st) as [r st1]. intros [= <-]. cbn in *.
    eapply same_inv; [apply same_opening, same_refl|]. by apply (inv_rows w st).
  - destruct (opening w) as [[again [r|]]|]; [|by apply Hi..].
    destruct (opening_returned again r w) as [w1|] eqn:E; [|done]. apply Hi.
    eapply inv_opening_returned; [|done|exact E]. by intros o -> ->.
  - destruct (accept_offer w) as [w1|] eqn:E; [|done]. apply Hi.
    eapply inv_accept_offer; [|done|exact E]. intros o Ho. by rewrite Ho in Hf.
  - intros [= <-]. cbn. pose proof (elsewhere_ok c st (iv_tables _ _ I)) as [Ht Hr].
    by apply (inv_rows w st).
Qed.

(** A run whose every event is [faithful] where it happens. *)
Fixpoint faithful_run (rules_of : bytes → result bytes ReviewRules) (D : Desk) (es : list FlowEvent) : Prop :=
  match es with
  | [] => True
  | e :: es =>
      faithful D e ∧ match flow_event rules_of D e with Some D => faithful_run rules_of D es | None => True end
  end.
Lemma inv_run rules_of es D D' :
  inv (bench D) (disk D) → faithful_run rules_of D es → flow_run rules_of D es = Some D' →
  inv (bench D') (disk D').
Proof.
  revert D. induction es as [|e es IH]; intros D I Hf Hr; [by injection Hr as <-|].
  cbn in Hf, Hr. destruct Hf as [He Hf]. destruct (flow_event rules_of D e) as [D1|] eqn:E; [|done].
  apply (IH D1); [|done|done]. by eapply inv_event.
Qed.
Lemma inv_new split wrap font st : tables_ok st → inv (Workbench_new split wrap font) st.
Proof. intros Ht. by split; [done|..]; cbn. Qed.

(** C3: In every run of the window and its tasks, a draft of the review on screen is in the store with
    its text and version when it is marked as saved, and is otherwise what its save task holds; only a
    draft that was discarded is excepted. A window that may close has stored every draft. *)
Theorem typed_text_kept rules_of split wrap font st es D a d :
  tables_ok st → faithful_run rules_of (mkDesk (Workbench_new split wrap font) st) es →
  flow_run rules_of (mkDesk (Workbench_new split wrap font) st) es = Some D →
  active (bench D) = Some a → d ∈ a_drafts a → ¬ discarded (jobs (bench D)) (draft_id d) →
  (is_saved d = true → ∃ r, row (disk D) (draft_id d) = Some r ∧ core r = core d) ∧
  (is_saved d = false →
     (should_close (bench D)).1 = false ∧
     ∃ t, save_tasks (bench D) !! draft_id d = Some t ∧ core (saved_draft t) = core d ∧
       match phase t with
       | Waiting | Running | Answered (Err _) | Finished (Err _) => True
       | Answered (Ok v) => v = version d
       | Finished (Ok _) => False
       end).
Proof.
  intros Ht Hf Hr Ha Hd Hn. pose proof (inv_run rules_of es (mkDesk (Workbench_new split wrap font) st) D
    (inv_new split wrap font st Ht) Hf Hr) as I.
  destruct (iv_kept _ _ I a d Ha Hd) as [|K]; [done|]. split; [by apply (kept_stored (bench D))|].
  intros Hs. split.
  - unfold should_close, unsaved. rewrite Ha.
    assert (existsb (λ d, negb (is_saved d)) (a_drafts a) = true) as ->; [|done].
    apply existsb_exists. exists d. split; [by apply list_elem_of_In|by rewrite Hs].
  - destruct (kp_unsaved _ _ _ K Hs) as (t & H1 & H2 & H3). exists t. split_and!; [done|done|].
    by destruct (phase t) as [| |[]|[]].
Qed.

(** ** A run that can be checked by evaluation *)

(** Enough for a run to be faithful: reviews are entered before they have drafts. *)
Definition unused_in (w : Workbench) (st : Store) (k : DraftId) : bool :=
  bool_decide (map_Forall (λ _ t, draft_id (saved_draft t) ≠ k) (save_tasks w))
  && bool_decide (Forall (λ x, draft_id x ≠ k) (late_saves w ++ default [] (a_drafts <$> active w)))
  && match row st k with None => true | Some _ => false end.
Definition faithful_in (D : Desk) (e : FlowEvent) : bool :=
  match e with
  | Typed fresh _ => unused_in (bench D) (disk D) fresh
  | OpenReturns =>
      match opening (bench D) with
      | Some (mkOpening false (Some (Ok (s, ds, _)))) =>
          bool_decide (ds = []) && bool_decide (stored_drafts (id s) (disk D) = [])
      | _ => true
      end
  | AcceptOffer => match offered (bench D) with Some _ => false | None => true end
  | _ => true
  end.
Fixpoint faithful_run_in (rules_of : bytes → result bytes ReviewRules) (D : Desk) (es : list FlowEvent) : bool :=
  match es with
  | [] => true
  | e :: es =>
      faithful_in D e && match flow_event rules_of D e with Some D => faithful_run_in rules_of D es | None => true end
  end.
Lemma unused_in_sound w st k : unused_in w st k = true → unused w st k.
Proof.
  unfold unused_in. rewrite !andb_true_iff, !bool_decide_eq_true. intros [[Ht Hl] Hr].
  rewrite Forall_app, !Forall_forall in Hl. destruct Hl as [Hl Ha]. split_and!.
  - intros x [(k' & t & Hk & <- & _)|Hx]; [by apply (Ht k')|by apply Hl].
  - by destruct (row st k).
  - intros a d Hd Hin. apply Ha. by rewrite Hd.
Qed.
Lemma faithful_run_sound rules_of D es : faithful_run_in rules_of D es = true → faithful_run rules_of D es.
Proof.
  revert D. induction es as [|e es IH]; intros D; [done|]. cbn. rewrite andb_true_iff. intros [He Hes].
  split; [|destruct (flow_event rules_of D e); [by apply IH|done]].
  destruct e; cbn in *; try done.
  - by apply unused_in_sound.
  - destruct (opening (bench D)) as [[[|] [[[[s ds] v]|]|]]|]; try done.
    apply andb_true_iff in He as [->%bool_decide_eq_true Hs%bool_decide_eq_true].
    split; [by symmetry|]. by intros d ?%not_elem_of_nil.
  - by destruct (offered (bench D)).
Qed.
End inv.

(** ** At concrete inputs *)

#[local] Instance no_letters : CharClass := λ _, false.
#[local] Instance plain_sha : Sha256 := λ s, s.
#[local] Instance plain_source : SourceJson :=
  {| source_json _ origin _ _ := origin; entire_json _ := [] |}.
#[local] Instance plain_review_json : ReviewJson := λ o _ _ _ _, o.
#[local] Instance plain_key : ReleasesKey := λ _, [].
Definition flow_snapshot : Snapshot :=
  with_origin (bs "t") (mkPatchReport [sample_file]) None [] (bs "o").
Definition no_rules (p : bytes) : result bytes ReviewRules := Err (bs "no provider").
Definition new_desk : Desk := mkDesk (Workbench_new false None (f32_of_N 13)) empty_store.
Definition saving (k : DraftId) : list FlowEvent := [SaveFires k; SaveRuns k None; SaveReturns k].
Definition opened_and_typed : list FlowEvent :=
  [Open false; OpenRuns (Read flow_snapshot) 1; OpenReturns; ViewFires; ViewRuns; ViewReturns;
   CommentFile; Typed (bs "d") (bs "why")] ++ saving (bs "d").
(** A comment on a file is typed and saved, and a second version is being saved. *)
Definition writing : list FlowEvent :=
  opened_and_typed ++ [Typed (bs "e") (bs "why?"); SaveFires (bs "d")].

Lemma typed_text_kept_witness :
  ∃ D a d, flow_run no_rules new_desk writing = Some D ∧ active (bench D) = Some a ∧ a_drafts a = [d] ∧
    draft_body d = bs "why?" ∧ version d = 2%N ∧ saved_version d = 1%N ∧
    (should_close (bench D)).1 = false ∧
    ∃ t, save_tasks (bench D) !! draft_id d = Some t ∧ core (saved_draft t) = core d ∧
      match phase t with
      | Waiting | Running | Answered (Err _) | Finished (Err _) => True
      | Answered (Ok v) => v = version d
      | Finished (Ok _) => False
      end.
Proof.
  assert (∃ D a d, flow_run no_rules new_desk writing = Some D ∧ active (bench D) = Some a ∧ a_drafts a = [d] ∧
    jobs (bench D) = [] ∧ draft_body d = bs "why?" ∧ version d = 2%N ∧ saved_version d = 1%N)
    as (D & a & d & Hr & Ha & Hd & Hj & Hb & Hv & Hs).
  { eexists _, _, _. split; [vm_compute; reflexivity|]. split_and!; reflexivity. }
  exists D, a, d. split_and!; [done..| |].
  all: apply (typed_text_kept no_rules false None (f32_of_N 13) empty_store writing D a d);
    [apply empty_tables_ok|apply faithful_run_sound; vm_compute; reflexivity|exact Hr|exact Ha
    |rewrite Hd; by left| |unfold is_saved; by rewrite Hv, Hs].
  all: rewrite Hj; by intros [v Hx%not_elem_of_nil].
Defined.

(** *** A review that is opened again while a comment is being typed *)


Section reopened.
Context {class_ : CharClass} {sha_ : Sha256} {source_ : SourceJson} {review_ : ReviewJson}
  {key_ : ReleasesKey}.
Context (rules_of : bytes → result bytes ReviewRules).







(** *** What the store makes of the edits *)



(** *** Opening again *)


(** *** Typing on *)



End reopened.

