(* ===== verification/Opening.v ===== *)
(** * Finding a source, its host, and the state directory ([crates/adapters/src/service.rs])

    [detect_source], [unconfirmed_host] and the helpers they use, [new_with_providers] and the
    search for the state directory, as programs that ask the file system, the environment and
    the tools ([HostCall]). Paths are Unix paths, as bytes. *)

From S2P Require Import Prelude RustStr Utf8 Domain Patch BTree Overview Snapshot F32 Session.
From S2P Require Import Process Remote Github Gitlab Programs EntireContext Entire Handoff.
From S2P Require Import LocalGit Review Store Json Outbox Service.

(** ** Calls *)

Inductive HostCall : Type → Type :=
| IsFile (p : bytes) : HostCall bool
| Absolute (p : bytes) : HostCall (result ErrorKind bytes)      (* [std::path::absolute] *)
| RunTool (r : ProcessRequest) (env_remove : list bytes)
    : HostCall (result AdapterError ProcessOutput)
| VarOs (name : bytes) : HostCall (option bytes)             (* [std::env::var_os] *)
| CurrentExe : HostCall (result ErrorKind bytes)
| CanonicalOf (p : bytes) : HostCall (result ErrorKind bytes)
| ReadText (p : bytes) : HostCall (result ErrorKind bytes)      (* [read_to_string] *)
| Exists (p : bytes) : HostCall bool
| Rename (from to_ : bytes) : HostCall (result ErrorKind unit)
| OpenStore (dir : bytes) : HostCall (result AdapterError unit)
| ProcessId : HostCall N
| Nanoseconds : HostCall (option N).                            (* since the Unix epoch *)

(** ** Free text *)

Section detect.
Context {url_ : UrlParser}.

Definition MAX_DETECTED : N := 4096.
Definition GITHUB_TOKENS : list bytes :=
  [bs "GH_TOKEN"; bs "GITHUB_TOKEN"; bs "GH_ENTERPRISE_TOKEN"; bs "GITHUB_ENTERPRISE_TOKEN"].
Definition GITLAB_TOKENS : list bytes :=
  [bs "GITLAB_TOKEN"; bs "GITLAB_ACCESS_TOKEN"; bs "OAUTH_TOKEN"].

Definition to_option {E A} (r : result E A) : option A :=
  match r with Ok a => Some a | Err _ => None end.
Definition remote_host (provider address : bytes) : option bytes :=
  if bool_decide (provider = ProviderId.GITHUB) then
    t ← to_option (GithubTarget_parse address);
    Some match t with Github.Pr a => pr_host a | Github.Compare a => ca_host a end
  else if bool_decide (provider = ProviderId.GITLAB) then
    t ← to_option (GitlabTarget_parse address);
    Some match t with Mr a => mr_host a | Refs a => gc_host a end
  else if bool_decide (provider = ProviderId.ENTIRE) then
    a ← to_option (TrailAddress_parse address); Some (trail_host a)
  else None.
Definition public_host (provider host : bytes) : bool :=
  if bool_decide (provider = ProviderId.GITHUB) then eq_ignore_ascii_case host (bs "github.com")
  else if bool_decide (provider = ProviderId.GITLAB)
  then eq_ignore_ascii_case host (bs "gitlab.com")
  else if bool_decide (provider = ProviderId.ENTIRE)
  then eq_ignore_ascii_case host (bs "entire.com") || eq_ignore_ascii_case host (bs "entire.io")
  else false.

Definition set_deadline (ms : N) (r : ProcessRequest) : ProcessRequest :=
  mkProcessRequest (executable r) (args r) (cwd r) (stdin r) ms (stdout_limit r) (stderr_limit r).
Definition status_request (program host : bytes) : ProcessRequest :=
  set_deadline 15000
    (with_args [bs "auth"; bs "status"; bs "--hostname"; host] (new_request program)).
Definition signed_in (program host : bytes) (tokens : list bytes) : prog HostCall bool :=
  r ← op (RunTool (status_request program host) tokens);
  mret match r with Ok out => bool_decide (status out = Some 0%Z) | Err _ => false end.

Definition unconfirmed_host (s : Services) (r : OpenRequest) : prog HostCall (option bytes) :=
  match r with
  | Remote provider address =>
      match remote_host provider address with
      | None => mret None
      | Some h =>
          if public_host provider h then mret None
          else
            let ask program tokens :=
              known ← match program with
                      | Some program => signed_in program h tokens
                      | None => mret false
                      end;
              mret (if known : bool then None else Some h) in
            if bool_decide (provider = ProviderId.GITHUB) then ask (gh_program s) GITHUB_TOKENS
            else if bool_decide (provider = ProviderId.GITLAB)
            then ask (glab_program s) GITLAB_TOKENS
            else mret (Some h)
      end
  | _ => mret None
  end.

(** [Detected]: the request, and a name for it. *)
Record Detected := mkDetected { request_of : OpenRequest; label : bytes }.

Definition entire_url (input : bytes) : bool :=
  match parse_url input with
  | Some u => match host_str u with Some h => public_host ProviderId.ENTIRE h | None => false end
  | None => false
  end.
Definition detect_remote (input : bytes) : option Detected :=
  '(provider, label) ←
    (if entire_url input
     then _ ← to_option (TrailAddress_parse input); Some (ProviderId.ENTIRE, bs "Entire Trail")
     else match GithubTarget_parse input, GitlabTarget_parse input with
          | Ok (Github.Pr _), _ => Some (ProviderId.GITHUB, bs "GitHub pull request")
          | Ok (Github.Compare _), _ => Some (ProviderId.GITHUB, bs "GitHub compare")
          | _, Ok (Mr _) => Some (ProviderId.GITLAB, bs "GitLab merge request")
          | _, Ok (Refs _) => Some (ProviderId.GITLAB, bs "GitLab compare")
          | _, _ => None
          end);
  Some (mkDetected (Remote provider input) label).
Definition detect_source (input : bytes) : prog HostCall (option Detected) :=
  let input := trim input in
  if bool_decide (input = []) || (MAX_DETECTED <? lenN input)%N || contains_byte LF input
  then mret None
  else
    file ← op (IsFile input);
    if file : bool then
      path ← op (Absolute input);
      mret (Some (mkDetected (PatchFile (default input (to_option path))) (bs "Patch file")))
    else mret (detect_remote input).
End detect.

(** ** Paths *)

(** [Path::join] of a relative path. *)
Definition join (dir name : bytes) : bytes :=
  if bool_decide (dir = []) || ends_with [SLASH] dir then dir ++ name else dir ++ [SLASH] ++ name.
Definition is_absolute (p : bytes) : bool := starts_with [SLASH] p.

(** Parts of a canonical path, which has no empty and no dotted components. *)
Definition parent (p : bytes) : option bytes :=
  '(dir, name) ← rsplit_once [SLASH] p;
  if bool_decide (dir = []) then if bool_decide (name = []) then None else Some [SLASH]
  else Some dir.
Definition file_name (p : bytes) : option bytes :=
  '(_, name) ← rsplit_once [SLASH] p;
  if bool_decide (name = []) then None else Some name.
Definition extension (p : bytes) : option bytes :=
  name ← file_name p;
  '(stem, ext) ← rsplit_once (bs ".") name;
  if bool_decide (stem = []) then None else Some ext.

(** ** The state directory *)

Section state.
Context {io_ : IoText}.
(** Built for macOS. *)
Context (macos : bool).

Definition bundled_state_dir (exe : bytes) : prog HostCall (option bytes) :=
  match parent exe, (dir ← parent exe; dir ← parent dir; parent dir) with
  | Some dir, Some bundle =>
      let contents := default dir (parent dir) in
      if negb (bool_decide (file_name dir = Some (bs "MacOS")))
         || negb (bool_decide (file_name contents = Some (bs "Contents")))
         || negb (bool_decide (extension bundle = Some (bs "app")))
      then mret None
      else
        let file := join contents (bs "Resources/state-dir") in
        r ← op (ReadText file);
        match r with
        | Err NotFound => mret None
        | Err e =>
            throw (Message (bs "Contents/Resources/state-dir must hold an absolute path; "
                            ++ display_lossy file ++ bs ": " ++ io_text e))
        | Ok text =>
            let dir := trim text in
            if negb (is_absolute dir)
            then throw (Message (bs "Contents/Resources/state-dir must hold an absolute path, got '"
                                 ++ dir ++ bs "'"))
            else mret (Some dir)
        end
  | _, _ => mret None
  end.

Definition migrated_state_dir (new old : bytes) : prog HostCall bytes :=
  there ← op (Exists new);
  if there : bool then mret new
  else
    former ← op (Exists old);
    if negb former then mret new
    else
      r ← op (Rename old new);
      mret (if is_ok r then new else old).
(** The directory of that name, and the two it was called before. *)
Definition migrated_twice (dir former : bytes) : prog HostCall bytes :=
  old ← migrated_state_dir (join dir (bs "diffr")) (join dir former);
  migrated_state_dir (join dir (bs "diffz")) old.

Definition bundled_or_none : prog HostCall (option bytes) :=
  exe ← op CurrentExe;
  match exe with
  | Err _ => mret None
  | Ok exe =>
      exe ← op (CanonicalOf exe);
      match exe with Err _ => mret None | Ok exe => bundled_state_dir exe end
  end.
Definition unix_state_dir : prog HostCall bytes :=
  xdg ← op (VarOs (bs "XDG_STATE_HOME"));
  match xdg with
  | Some p =>
      if is_absolute p then migrated_twice p (bs "review-workbench")
      else home ← op (VarOs (bs "HOME"));
           home ← try_ (ok_or home (Message (bs "HOME unset; specify --state-dir")));
           migrated_twice (join home (bs ".local/state")) (bs "review-workbench")
  | None =>
      home ← op (VarOs (bs "HOME"));
      home ← try_ (ok_or home (Message (bs "HOME unset; specify --state-dir")));
      migrated_twice (join home (bs ".local/state")) (bs "review-workbench")
  end.
Definition default_state_dir : prog HostCall bytes :=
  if negb macos then unix_state_dir
  else
    bundled ← bundled_or_none;
    match bundled with
    | Some dir => mret dir
    | None =>
        home ← op (VarOs (bs "HOME"));
        match home with
        | Some home =>
            migrated_twice (join home (bs "Library/Application Support")) (bs "ReviewWorkbench")
        | None => unix_state_dir
        end
    end.
End state.

(** ** Starting the services *)

Section start.
Context {url_ : UrlParser} {payload_ : PayloadJson} {sha1_ : Sha1} {position_ : PositionJson}
  {mr_payload_ : MrPayloadJson}.
(** Where [PATH] is searched ([resolve_program_in]). *)
Context (is_file_at : bytes → bool) (mode_of : bytes → result bytes N)
  (canonical : bytes → result bytes bytes).

Definition resolve_program (name : bytes) : prog HostCall bytes :=
  path ← op (VarOs (bs "PATH"));
  path ← try_ (ok_or path (Message (bs "PATH is unset")));
  try_ (map_err Message (resolve_program_in is_file_at mode_of canonical name path)).
Definition resolved (name : bytes) : prog HostCall (option bytes) :=
  r ← catch (resolve_program name); mret (to_option r).

(** [remote] of a provider whose tool may be missing. *)
Definition tool_remote (program : option bytes) (missing : bytes) : result AdapterError unit :=
  match program with Some _ => Ok tt | None => Err (Message missing) end.
Definition github_provider (gh : option bytes) : ReviewProvider :=
  mkReviewProvider GithubRules (bs "GitHub") (bs "--allow-github-writes") github_accepts
    (tool_remote gh (bs "Install gh, then run gh auth login for this host")).
Definition gitlab_provider (glab : option bytes) : ReviewProvider :=
  mkReviewProvider GitlabRules (bs "GitLab") (bs "--allow-gitlab-writes") gitlab_accepts
    (tool_remote glab (bs "Install glab, then authenticate for this GitLab host")).
Definition EntireRules : ReviewRules :=
  mkReviewRules ProviderId.ENTIRE (Some READ_ONLY) (λ _ _ _, Ok tt) (λ _ _ _, Ok None)
    (λ _, bs "null") false.
Definition entire_provider : ReviewProvider :=
  mkReviewProvider EntireRules (bs "Entire") [] entire_accepts (Err (Message READ_ONLY)).

Definition new_with_providers (state_dir : bytes) (writes gitlab_writes : bool)
    : prog HostCall Services :=
  _ ← (r ← op (OpenStore state_dir); try_ r);
  pid ← op ProcessId;
  now ← op Nanoseconds;
  now ← try_ (ok_or now (Message (bs "clock is before Unix epoch")));
  git ← resolved (bs "git");
  gh ← resolved (bs "gh");
  glab ← resolved (bs "glab");
  _ ← resolved (bs "entire");
  let s := mkServices [] [] git (dec pid ++ bs "-" ++ dec now) gh glab in
  let s := register s (github_provider gh) writes in
  let s := register s (gitlab_provider glab) gitlab_writes in
  mret (register s entire_provider false).
End start.
