(* ===== verification/OpeningFacts.v ===== *)
(** * Theorems about finding a source, its host, and the state directory *)

From S2P Require Import Prelude RustStr Utf8 Domain Patch BTree Overview Snapshot F32 Session.
From S2P Require Import Process Remote Github Gitlab Programs EntireContext Entire EntireFacts.
From S2P Require Import GithubFacts.
From S2P Require Import Handoff LocalGit Review Store Json Outbox Service ServiceFacts Opening.

(** ** White space at both ends *)

Lemma drop_ws_idem cs : drop_ws (drop_ws cs) = drop_ws cs.
Proof. induction cs as [|c cs IH]; [done|]. cbn. destruct (is_whitespace c) eqn:E; [done|]. cbn. by rewrite E. Qed.
Lemma drop_ws_prefix cs ds : drop_ws (cs ++ ds) = cs ++ ds → cs ≠ [] → drop_ws cs = cs.
Proof.
  destruct cs as [|c cs]; [done|]. cbn. destruct (is_whitespace c); [|done]. intros H _.
  destruct (drop_ws_suffix (cs ++ ds)) as [pre Hp].
  apply (f_equal length) in H, Hp. rewrite (length_app pre) in Hp. cbn in H. lia.
Qed.
Definition ws_core (cs : list N) : list N := reverse (drop_ws (reverse (drop_ws cs))).
Lemma ws_core_idem cs : ws_core (ws_core cs) = ws_core cs.
Proof.
  unfold ws_core at 1. set (ds := reverse (drop_ws (reverse (drop_ws cs)))).
  assert (drop_ws ds = ds) as Hd.
  { destruct (drop_ws_suffix (reverse (drop_ws cs))) as [pre Hp].
    apply (f_equal reverse) in Hp. rewrite reverse_involutive, reverse_app in Hp. fold ds in Hp.
    destruct ds as [|d ds'] eqn:E; [done|]. apply (drop_ws_prefix _ (reverse pre)); [|done].
    rewrite <- Hp. apply drop_ws_idem. }
  change (ws_core cs) with ds. rewrite Hd. unfold ds. by rewrite reverse_involutive, drop_ws_idem.
Qed.
Lemma trim_idem s : trim (trim s) = trim s.
Proof.
  change (encode (ws_core (chars (encode (ws_core (chars s))))) = encode (ws_core (chars s))).
  assert (Forall (λ c, is_scalar c = true) (ws_core (chars s))) as Hs.
  { assert (Forall (λ c, is_scalar c = true) (chars s)) as Hc.
    { unfold chars. destruct (utf8_decode s) as [cs|] eqn:E; cbn; [by eapply utf8_decode_scalars|done]. }
    assert (∀ cs, Forall (λ c, is_scalar c = true) cs → Forall (λ c, is_scalar c = true) (drop_ws cs)) as Hd.
    { intros cs H. destruct (drop_ws_suffix cs) as [pre Hp]. rewrite Hp in H. by apply Forall_app in H as [_ ?]. }
    unfold ws_core. by apply Forall_reverse, Hd, Forall_reverse, Hd. }
  unfold chars at 1. rewrite (utf8_decode_encode _ Hs). cbn [default from_option]. exact (f_equal encode (ws_core_idem (chars s))).
Qed.

(** ** Hosts *)

Section hosts.
Context {url_ : UrlParser}.

Lemma lower_idem s : to_ascii_lowercase (to_ascii_lowercase s) = to_ascii_lowercase s.
Proof.
  unfold to_ascii_lowercase. rewrite <- list_fmap_compose. apply list_fmap_ext.
  intros _ b _. by destruct b.
Qed.
Lemma public_host_lower p h : public_host p (to_ascii_lowercase h) = public_host p h.
Proof. unfold public_host, eq_ignore_ascii_case. by rewrite lower_idem. Qed.

(** The host of an address is the one of its URL, or the provider's own. *)
Definition named_host (address own h : bytes) : Prop :=
  h = own ∨ ∃ u h', parse_url (trim address) = Some u ∧ host_str u = Some h' ∧
                    (h = h' ∨ h = to_ascii_lowercase h').

Lemma pr_named a x : PrAddress_parse a = Ok x → named_host a (bs "github.com") (pr_host x).
Proof.
  unfold PrAddress_parse. destruct (starts_with _ _).
  - destruct (relative_segments _); [done|].
    destruct (parse_url (trim a)) as [u|] eqn:Eu; [|done]. cbn [ok_or mbind result_bind].
    destruct (_ || _ || _ || _); [done|]. destruct (host_str u) as [h|] eqn:Eh; [|done].
    cbn [fmap option_fmap option_map ok_or mbind result_bind].
    destruct (drop 1 _) as [|o [|n [|w [|r ?]]]]; try done. destruct (_ || _ || _); [done|].
    intros [-> _]%checked_Ok. right. exists u, h. auto.
  - destruct (split_once _ (trim a)) as [[slug n]|]; [|done]. cbn [ok_or mbind result_bind].
    destruct (split_once _ slug) as [[o r]|]; [|done]. cbn [ok_or mbind result_bind].
    intros [-> _]%checked_Ok. by left.
Qed.
Lemma compare_named a x : CompareAddress_parse a = Ok x → named_host a (bs "github.com") (ca_host x).
Proof.
  unfold CompareAddress_parse. destruct (relative_segments _); [done|].
  destruct (parse_url (trim a)) as [u|] eqn:Eu; [|done]. cbn [ok_or mbind result_bind].
  destruct (_ || _ || _ || _ || _); [done|]. destruct (host_str u) as [h|] eqn:Eh; [|done].
  cbn [fmap option_fmap option_map ok_or mbind result_bind].
  destruct (drop 1 _) as [|o [|n [|w [|r [|]]]]]; try done. destruct (_ || _ || _); [done|].
  destruct (decode_path r); [|done]. cbn. destruct (split_range _ _) as [[[b d] e]|]; [|done]. cbn.
  destruct (_ || _); [done|]. intros [= <-]. right. exists u, h. auto.
Qed.
Lemma mr_named a x : MrAddress_parse a = Ok x → named_host a (bs "gitlab.com") (mr_host x).
Proof.
  unfold MrAddress_parse. destruct (mr_parts (trim a)) as [[[h p] n]|] eqn:E; [|done]. cbn.
  destruct (_ || _); [done|]. destruct (parse_u64 n); [|done]. cbn.
  destruct (_ =? 0)%N; [done|]. intros [= <-]. cbn. revert E. unfold mr_parts.
  destruct (starts_with _ _).
  - destruct (relative_segments _); [done|].
    destruct (parse_url (trim a)) as [u|] eqn:Eu; [|done]. cbn [ok_or mbind result_bind].
    destruct (_ || _ || _ || _); [done|]. destruct (split_once _ _) as [[q t]|]; [|done]. cbn.
    destruct (negb _); [done|]. destruct (host_str u) as [h'|] eqn:Eh; [|done]. cbn.
    intros [= <- _ _]. right. exists u, h'. auto.
  - destruct (rsplit_once _ _) as [[q t]|]; [|done]. cbn. intros [= <- _ _]. by left.
Qed.
Lemma refs_named a x : GitlabCompare_parse a = Ok x → named_host a (bs "gitlab.com") (gc_host x).
Proof.
  unfold GitlabCompare_parse. destruct (relative_segments _); [done|].
  destruct (parse_url (trim a)) as [u|] eqn:Eu; [|done]. cbn [ok_or mbind result_bind].
  destruct (_ || _ || _ || _); [done|]. destruct (split_once _ _) as [[q t]|]; [|done]. cbn.
  intros H. inv_bind H as t' Ht. inv_bind H as x' Hx. destruct x' as [[[b d] e] f].
  destruct (negb _); [done|]. destruct (_ || _); [done|]. 
  destruct (host_str u) as [h|] eqn:Eh; [|done]. cbn in H. injection H as <-.
  right. exists u, h. auto.
Qed.
Lemma github_named a t :
  GithubTarget_parse a = Ok t →
  named_host (trim a) (bs "github.com")
    match t with Github.Pr x => pr_host x | Github.Compare x => ca_host x end.
Proof.
  unfold GithubTarget_parse. destruct (_ && _).
  - destruct (CompareAddress_parse _) as [x|] eqn:E; [|done]. intros [= <-]. by apply compare_named.
  - destruct (PrAddress_parse _) as [x|] eqn:E; [|done]. intros [= <-]. by apply pr_named.
Qed.
Lemma gitlab_named a t :
  GitlabTarget_parse a = Ok t →
  named_host (trim a) (bs "gitlab.com") match t with Mr x => mr_host x | Refs x => gc_host x end.
Proof.
  unfold GitlabTarget_parse. destruct (_ && _).
  - destruct (GitlabCompare_parse _) as [x|] eqn:E; [|done]. intros [= <-]. by apply refs_named.
  - destruct (MrAddress_parse _) as [x|] eqn:E; [|done]. intros [= <-]. by apply mr_named.
Qed.

(** A host named by an address that is no Entire page is no host of Entire. *)
Lemma named_not_entire a own h :
  named_host (trim a) own h → entire_url (trim a) = false → public_host ProviderId.ENTIRE own = false →
  public_host ProviderId.ENTIRE h = false.
Proof.
  intros [->|(u & h' & Hu & Hh & Hx)] He Hown; [done|]. rewrite trim_idem in Hu.
  unfold entire_url in He. rewrite Hu, Hh in He. destruct Hx as [->| ->]; [done|].
  by rewrite public_host_lower.
Qed.
Lemma trail_host_public a x :
  TrailAddress_parse a = Ok x → public_host ProviderId.ENTIRE (trail_host x) = true.
Proof.
  unfold TrailAddress_parse. intros H. inv_bind H as u Hu. destruct (host_str u) as [h|]; [|done].
  cbn in H. destruct (negb _ && _) eqn:E; [done|]. destruct (is_Some_b _); [done|].
  destruct (drop 1 _) as [|? [|? [|? [|? [|? ?]]]]]; try done. destruct (_ || _); [done|].
  inv_bind H as s Hs. injection H as <-. cbn.
  apply andb_false_iff in E as [E|E]; apply negb_false_iff, bool_decide_eq_true in E as ->; reflexivity.
Qed.
End hosts.

(** ** From text to a host *)

Section detected.
Context {url_ : UrlParser}.

(** What each provider's own parser takes, in the order in which they are asked. *)
Definition taken_by (p a : bytes) : Prop :=
  (p = ProviderId.ENTIRE ∧ entire_accepts a = true ∧ entire_url a = true) ∨
  (p = ProviderId.GITHUB ∧ github_accepts a = true ∧ entire_url a = false) ∨
  (p = ProviderId.GITLAB ∧ gitlab_accepts a = true ∧ github_accepts a = false ∧
   entire_url a = false).

Lemma detect_remote_taken a d :
  detect_remote a = Some d → ∃ p, request_of d = Remote p a ∧ taken_by p a.
Proof.
  unfold detect_remote, taken_by, entire_accepts, github_accepts, gitlab_accepts.
  destruct (entire_url a) eqn:Ee.
  - destruct (TrailAddress_parse a) eqn:Et; [|done]. intros [= <-]. eexists. split; [done|]. by left.
  - destruct (GithubTarget_parse a) as [[]|] eqn:Eg; cbn.
    + intros [= <-]. eexists. split; [done|]. auto.
    + intros [= <-]. eexists. split; [done|]. auto.
    + destruct (GitlabTarget_parse a) as [[]|] eqn:El; [..|done]; intros [= <-];
        (eexists; split; [done|]; by right; right).
Qed.
Lemma taken_host p a :
  taken_by p (trim a) →
  ∃ h, remote_host p (trim a) = Some h ∧
       public_host ProviderId.ENTIRE h = bool_decide (p = ProviderId.ENTIRE).
Proof.
  unfold taken_by, entire_accepts, github_accepts, gitlab_accepts.
  intros [(-> & H & _)|[(-> & H & He)|(-> & H & _ & He)]]; unfold remote_host.
  - destruct (TrailAddress_parse _) as [x|] eqn:E; [|done]. exists (trail_host x).
    split; [done|]. by eapply trail_host_public.
  - destruct (GithubTarget_parse _) as [t|] eqn:E; [|done].
    eexists. split; [reflexivity|]. pose proof (github_named _ _ E) as Hn.
    rewrite trim_idem in Hn. by eapply named_not_entire.
  - destruct (GitlabTarget_parse _) as [t|] eqn:E; [|done].
    eexists. split; [reflexivity|]. pose proof (gitlab_named _ _ E) as Hn.
    rewrite trim_idem in Hn. by eapply named_not_entire.
Qed.

Lemma detect_source_run input tr d :
  run (detect_source input) tr (Some (Ok (Some d))) →
  let a := trim input in
  a ≠ [] ∧ (lenN a <= MAX_DETECTED)%N ∧ LF ∉ a ∧
  ((∃ r, tr = [Event (IsFile a) true; Event (Absolute a) r] ∧
         request_of d = PatchFile (default a (to_option r))) ∨
   (tr = [Event (IsFile a) false] ∧ detect_remote a = Some d)).
Proof.
  unfold detect_source. cbv zeta. intros H. destruct (_ || _) eqn:E in H.
  { by apply run_value_Ok in H as [[= ] _]. }
  apply orb_false_iff in E as [[E1%bool_decide_eq_false E2%N.ltb_ge]%orb_false_iff E3].
  apply bool_decide_eq_false in E3. split_and!; [done..|].
  run_step H as f t Hf. apply run_op_Ok in Hf as ->. destruct f.
  - run_step H as r t2 Hr. apply run_op_Ok in Hr as ->. apply run_value_Ok in H as [[= <-] ->].
    left. by exists r.
  - apply run_value_Ok in H as [[= H] ->]. by right.
Qed.

(** The host of a pasted address is contacted without asking only when it is public or
    signed in to: an address that is detected is passed on unchanged, to a provider whose own
    parser takes it, after one look for a file; it names a host, an Entire host exactly when
    the provider is Entire; and when that host needs no confirmation, it is the provider's public
    one, or the provider's tool said so for that very host, without the token variables. *)
Theorem detected_host_known s input tr d p a tr' :
  run (detect_source input) tr (Some (Ok (Some d))) → request_of d = Remote p a →
  run (unconfirmed_host s (request_of d)) tr' (Some (Ok None)) →
  a = trim input ∧ (0 < lenN a <= MAX_DETECTED)%N ∧ LF ∉ a ∧ tr = [Event (IsFile a) false] ∧
  taken_by p a ∧
  ∃ h, remote_host p a = Some h ∧
    public_host ProviderId.ENTIRE h = bool_decide (p = ProviderId.ENTIRE) ∧
    ((public_host p h = true ∧ tr' = []) ∨
     ∃ program tokens out,
       ((p = ProviderId.GITHUB ∧ gh_program s = Some program ∧ tokens = GITHUB_TOKENS) ∨
        (p = ProviderId.GITLAB ∧ glab_program s = Some program ∧ tokens = GITLAB_TOKENS)) ∧
       tr' = [Event (RunTool (status_request program h) tokens) (Ok out)] ∧
       status out = Some 0%Z).
Proof.
  intros Hd Hr Hu. apply detect_source_run in Hd as (H1 & H2 & H3 & [(r & _ & Hf)|[-> Hd]]);
    [congruence|].
  apply detect_remote_taken in Hd as (p' & Hr' & Ht). rewrite Hr in Hr', Hu.
  injection Hr' as -> ->. split; [done|]. split; [destruct (trim input); [done|]; unfold lenN; cbn; unfold lenN in H2; cbn in H2; lia|].
  split; [done|]. split; [done|]. split; [done|].
  destruct (taken_host _ _ Ht) as (h & Hh & He). exists h. split; [done|]. split; [done|].
  cbn [unconfirmed_host] in Hu. rewrite Hh in Hu.
  destruct (public_host p' h) eqn:Ep; [left; by apply run_value_Ok in Hu as [_ ->]|right].
  assert (∀ program tokens,
    run (known ← match program with Some program => signed_in program h tokens | None => mret false end;
         mret (if known : bool then None else Some h)) tr' (Some (Ok None)) →
    ∃ program' out, program = Some program' ∧
      tr' = [Event (RunTool (status_request program' h) tokens) (Ok out)] ∧ status out = Some 0%Z)
    as Hask.
  { intros program tokens Hk. run_step Hk as k t Hs. apply run_value_Ok in Hk as [[= Hk] ->].
    destruct k; [|done]. destruct program as [program|]; [|by apply run_value_Ok in Hs as [? _]].
    run_step Hs as out t2 Ho. apply run_op_Ok in Ho as ->. apply run_value_Ok in Hs as [[= Hs] ->].
    destruct out as [out|]; [|done]. apply bool_decide_eq_true in Hs. by exists program, out. }
  destruct Ht as [(-> & _)|[(-> & _)|(-> & _)]].
  - exfalso. rewrite bool_decide_true in He by done. congruence.
  - apply Hask in Hu as (program & out & Hp & -> & Ho). exists program, GITHUB_TOKENS, out. auto.
  - apply Hask in Hu as (program & out & Hp & -> & Ho). exists program, GITLAB_TOKENS, out.
    split_and!; [right|..]; done.
Qed.
End detected.

(** ** The state directory *)

(** Directories with their contents, and how they answer. A rename may fail. *)
Section files.
Context {content : Type}.
Notation Files := (gmap bytes content).

Inductive files_serve (fs : Files) : ∀ R, HostCall R → R → Files → Prop :=
| serve_exists p : files_serve fs _ (Exists p) (bool_decide (is_Some (fs !! p))) fs
| serve_renamed a b c :
    fs !! a = Some c → files_serve fs _ (Rename a b) (Ok tt) (<[b := c]> (delete a fs))
| serve_not_renamed a b e : files_serve fs _ (Rename a b) (Err e) fs
| serve_other R (c : HostCall R) r :
    match c with Exists _ | Rename _ _ => False | _ => True end → files_serve fs R c r fs.
Inductive files_served : Files → list (Programs.event HostCall) → Files → Prop :=
| files_served_nil fs : files_served fs [] fs
| files_served_call fs R (c : HostCall R) r fs1 tr fs2 :
    files_serve fs R c r fs1 → files_served fs1 tr fs2 → files_served fs (Event c r :: tr) fs2.

Lemma files_served_app fs tr1 tr2 fs2 :
  files_served fs (tr1 ++ tr2) fs2 ↔ ∃ fs1, files_served fs tr1 fs1 ∧ files_served fs1 tr2 fs2.
Proof.
  split.
  - revert fs. induction tr1 as [|ev tr1 IH]; intros fs H; [exists fs; split; [constructor|done]|].
    inversion H as [|? R c r h1 ? ? Hc Ht]; subst. apply IH in Ht as (h3 & H1 & H2).
    exists h3. split; [by econstructor|done].
  - intros (h1 & H1 & H2). induction H1; [done|]. cbn. econstructor; [done|by apply IHfiles_served].
Qed.
Definition files_answer (fs : Files) {R} (c : HostCall R) : R → Files → Prop :=
  match c in HostCall R return R → Files → Prop with
  | Exists p => λ r fs', r = bool_decide (is_Some (fs !! p)) ∧ fs' = fs
  | Rename a b => λ r fs',
      (∃ c, fs !! a = Some c ∧ r = Ok tt ∧ fs' = <[b := c]> (delete a fs)) ∨
      (∃ e, r = Err e ∧ fs' = fs)
  | _ => λ _ fs', fs' = fs
  end.
Lemma files_serve_answer fs R (c : HostCall R) r fs' :
  files_serve fs R c r fs' → files_answer fs c r fs'.
Proof. intros H. destruct H as [p|a b c Hc|a b e|R c r Hc]; cbn; [done|left; eauto|right; eauto|by destruct c]. Qed.
Lemma files_served_cons fs R (c : HostCall R) r tr fs2 :
  files_served fs (Event c r :: tr) fs2 → ∃ fs1, files_answer fs c r fs1 ∧ files_served fs1 tr fs2.
Proof.
  intros H.
  assert (∀ ev, files_served fs (ev :: tr) fs2 →
    match ev with @Event _ R c r => ∃ fs1, files_serve fs R c r fs1 ∧ files_served fs1 tr fs2 end) as Hi.
  { intros ev He. inversion He; subst. eauto. }
  apply Hi in H as (fs1 & H & Ht). exists fs1. split; [by apply files_serve_answer|done].
Qed.
Lemma files_served_one fs R (c : HostCall R) r fs2 :
  files_served fs [Event c r] fs2 → files_answer fs c r fs2.
Proof. intros (fs1 & H & Ht)%files_served_cons. by inversion Ht; subst. Qed.

(** The first of some directories that is there. *)
Definition first_there (fs : Files) (ps : list bytes) : option content :=
  find_map (λ p, fs !! p) ps.

Lemma migrated_keeps new old tr fs fs' r :
  new ≠ old → run (migrated_state_dir new old) tr (Some (Ok r)) → files_served fs tr fs' →
  (r = new ∨ r = old) ∧
  ((fs' = fs ∧ fs !! r = first_there fs [new; old]) ∨
   (r = new ∧ fs !! new = None ∧ ∃ c, fs !! old = Some c ∧ fs' = <[new := c]> (delete old fs))).
Proof.
  intros Hne H Hs. run_step H as there t1 H1. apply run_op_Ok in H1 as ->. unfold first_there; cbn [find_map].
  apply files_served_cons in Hs as (f1 & [-> ->] & Hs). case_bool_decide as Hn.
  { apply run_value_Ok in H as [[= <-] ->]. inversion Hs; subst. split; [by left|]. left.
    split; [done|]. by destruct Hn as [c ->]. }
  apply eq_None_not_Some in Hn. rewrite Hn.
  run_step H as former t2 H2. apply run_op_Ok in H2 as ->.
  apply files_served_cons in Hs as (f2 & [-> ->] & Hs). case_bool_decide as Ho; cbn [negb] in H.
  2:{ apply run_value_Ok in H as [[= <-] ->]. inversion Hs; subst. split; [by left|]. left.
      split; [done|]. apply eq_None_not_Some in Ho. by rewrite Ho, Hn. }
  run_step H as res t3 H3. apply run_op_Ok in H3 as ->. apply run_value_Ok in H as [[= <-] ->].
  apply files_served_one in Hs as [(c & Hc & -> & ->)|(e & -> & ->)]; cbn.
  - split; [by left|]. right. eauto.
  - split; [by right|]. left. split; [done|]. by destruct Ho as [c ->].
Qed.

(** The state that a directory held under its newest name is what the program opens, under
    whichever name, and nothing else is touched. *)
Definition newest_kept (fs fs' : Files) (ps : list bytes) (dir : bytes) : Prop :=
  dir ∈ ps ∧ fs' !! dir = first_there fs ps ∧
  (∀ q, q ∉ ps → fs' !! q = fs !! q) ∧
  (∀ p c, p ∈ ps → fs !! p = Some c → ∃ p', p' ∈ ps ∧ fs' !! p' = Some c).

Lemma migrated_twice_keeps dir former tr fs fs' r :
  former ≠ bs "diffz" → former ≠ bs "diffr" →
  run (migrated_twice dir former) tr (Some (Ok r)) → files_served fs tr fs' →
  newest_kept fs fs' [join dir (bs "diffz"); join dir (bs "diffr"); join dir former] r.
Proof.
  intros Hz Hr H Hs.
  assert (∀ a b, join dir a = join dir b → a = b) as Hj.
  { intros a b. unfold join. destruct (_ || _); intros Hab; [by apply app_inv_head in Hab|].
    apply app_inv_head in Hab. by injection Hab. }
  set (z := join dir (bs "diffz")) in *. set (q := join dir (bs "diffr")) in *.
  set (f := join dir former) in *.
  assert (z ≠ q) as Hzq by (intros Hx%Hj; done). assert (z ≠ f) as Hzf by (intros Hx%Hj; congruence).
  assert (q ≠ f) as Hqf by (intros Hx%Hj; congruence).
  unfold migrated_twice in H. fold z q f in H. run_step H as old t1 H1.
  apply files_served_app in Hs as (fs1 & Hs1 & Hs2).
  apply (migrated_keeps q f _ fs fs1 old Hqf) in H1 as [Hold H1]; [|done].
  assert (z ≠ old) as Hzo by (destruct Hold; congruence).
  apply (migrated_keeps z old _ fs1 fs' r Hzo) in H as [Hres H]; [|done].
  unfold newest_kept, first_there in *. cbn [find_map] in *.
  split; [destruct Hres as [->| ->]; [set_solver|destruct Hold as [->| ->]; set_solver]|].
  destruct H1 as [[-> Hf1]|(-> & Hq & c & Hf & ->)].
  - destruct H as [[-> Hf2]|(-> & Hnz & c & Hc & ->)].
    + split_and!; [|done|eauto]. rewrite Hf2, Hf1. by destruct (fs !! z), (fs !! q), (fs !! f).
    + rewrite Hnz. rewrite lookup_insert_eq. split_and!.
      * rewrite Hc in Hf1. rewrite Hf1. by destruct (fs !! q), (fs !! f).
      * intros p Hp. rewrite lookup_insert_ne by set_solver.
        destruct Hold as [->| ->]; by rewrite lookup_delete_ne by set_solver.
      * intros p d Hp Hd. destruct (decide (p = old)) as [->|Hpo].
        { exists z. rewrite lookup_insert_eq. split; [set_solver|congruence]. }
        exists p. split; [done|]. rewrite lookup_insert_ne by congruence. by rewrite lookup_delete_ne.
  - assert ((<[q:=c]> (delete f fs)) !! z = fs !! z) as Hgz.
    { by rewrite lookup_insert_ne, lookup_delete_ne by congruence. }
    assert (∀ p, p ∉ [z; q; f] → (<[q:=c]> (delete f fs)) !! p = fs !! p) as Hout.
    { intros p Hp. rewrite lookup_insert_ne by set_solver. by rewrite lookup_delete_ne by set_solver. }
    destruct H as [[-> Hf2]|(-> & Hnz & d & Hd & ->)].
    + split_and!; [|done|].
      * rewrite Hf2, Hgz, Hq, Hf. destruct (fs !! z); [done|]. by rewrite lookup_insert_eq.
      * intros p d Hp Hd. destruct (decide (p = f)) as [->|Hpf].
        { exists q. rewrite lookup_insert_eq. split; [set_solver|congruence]. }
        exists p. split; [done|]. rewrite lookup_insert_ne by congruence. by rewrite lookup_delete_ne.
    + rewrite Hgz in Hnz. rewrite lookup_insert_eq in Hd. injection Hd as <-.
      rewrite Hnz, Hq, Hf, lookup_insert_eq. split_and!; [done| |].
      * intros p Hp. rewrite lookup_insert_ne by set_solver. rewrite lookup_delete_ne by set_solver.
        by apply Hout.
      * intros p d Hp Hd. exists z. rewrite lookup_insert_eq. split; [set_solver|].
        assert (p = f) as -> by (repeat (apply elem_of_cons in Hp as [->|Hp]; [congruence|]);
          try (apply elem_of_cons in Hp as [->|Hp]; [done|]); by apply elem_of_nil in Hp).
        congruence.
Qed.
End files.

(** Programs that leave the directories alone. *)
Definition calm (R : Type) (c : HostCall R) : Prop :=
  match c with Exists _ | Rename _ _ => False | _ => True end.
Lemma calm_served {content} (fs fs' : gmap bytes content) {A} (p : prog HostCall A) tr o :
  makes calm p → run p tr o → files_served fs tr fs' → fs' = fs.
Proof.
  revert tr. induction p as [r| |R c k IH]; intros tr; cbn.
  - intros _ [-> _] H. by inversion H.
  - intros _ [-> _] H. by inversion H.
  - intros [Hc Hk] (r & tr' & -> & Hr) (f1 & Ha & Hs)%files_served_cons.
    assert (f1 = fs) as -> by (by destruct c). by eapply IH.
Qed.

(** ** What the environment says *)

Record Environment := mkEnvironment {
  hs_var : bytes → option bytes;                           (* environment variables *)
  hs_exe : result ErrorKind bytes;                         (* the running program *)
  hs_canonical : bytes → result ErrorKind bytes;
  hs_text : bytes → result ErrorKind bytes                 (* files read as text *)
}.
Definition told (h : Environment) (ev : Programs.event HostCall) : Prop :=
  match ev with
  | Event c r =>
      match c in HostCall R return R → Prop with
      | VarOs name => λ r, r = hs_var h name
      | CurrentExe => λ r, r = hs_exe h
      | CanonicalOf p => λ r, r = hs_canonical h p
      | ReadText p => λ r, r = hs_text h p
      | _ => λ _, True
      end r
  end.

(** A program [p] inside an application bundle, and the file that names its state. *)
Definition bundled (p file : bytes) : Prop :=
  ∃ above stem name, stem ≠ [] ∧ SLASH ∉ stem ∧ SLASH ∉ name ∧
    p = above ++ [SLASH] ++ stem ++ bs ".app/Contents/MacOS/" ++ name ∧
    file = above ++ [SLASH] ++ stem ++ bs ".app/Contents/Resources/state-dir".
Definition runs_bundled (h : Environment) (file : bytes) : Prop :=
  ∃ exe p, hs_exe h = Ok exe ∧ hs_canonical h exe = Ok p ∧ bundled p file.

(** Where the state is outside of a bundle, and its first name there. *)
Inductive state_home (macos : bool) (h : Environment) : bytes → bytes → Prop :=
| mac_home home :
    macos = true → hs_var h (bs "HOME") = Some home →
    state_home macos h (join home (bs "Library/Application Support")) (bs "ReviewWorkbench")
| xdg_home p :
    (macos = true → hs_var h (bs "HOME") = None) →
    hs_var h (bs "XDG_STATE_HOME") = Some p → starts_with [SLASH] p = true →
    state_home macos h p (bs "review-workbench")
| user_home home :
    macos = false →
    (∀ p, hs_var h (bs "XDG_STATE_HOME") = Some p → starts_with [SLASH] p = false) →
    hs_var h (bs "HOME") = Some home →
    state_home macos h (join home (bs ".local/state")) (bs "review-workbench").

(** A byte is not in a text that is written out. *)
Ltac not_in := apply (bool_decide_eq_true_1 (_ ∉ _)); vm_compute; reflexivity.

(** Texts that differ in how they are put together. *)
Ltac assoc_texts := repeat (progress cbn || rewrite <- app_assoc); reflexivity.

Lemma rsplit_byte_spec c s :
  match rsplit_once [c] s with Some (a, b) => s = a ++ c :: b ∧ c ∉ b | None => c ∉ s end.
Proof.
  induction s as [|x s IH]; cbn [rsplit_once]; [apply not_elem_of_nil|].
  destruct (rsplit_once [c] s) as [[a b]|]; [destruct IH as [-> ?]; by split|].
  cbn [strip_prefix]. case_bool_decide as Hx; cbn; [by subst x|].
  rewrite not_elem_of_cons. by split.
Qed.
Lemma rsplit_byte c s a b : rsplit_once [c] s = Some (a, b) ↔ s = a ++ c :: b ∧ c ∉ b.
Proof.
  split; [intros E; pose proof (rsplit_byte_spec c s) as H; by rewrite E in H|].
  intros [-> Hb]. induction a as [|x a IH]; cbn [app rsplit_once]; [|by rewrite IH].
  pose proof (rsplit_byte_spec c b) as H. destruct (rsplit_once [c] b) as [[a' b']|].
  - destruct H as [-> _]. destruct Hb. apply elem_of_app. right. left.
  - cbn [strip_prefix]. by rewrite bool_decide_true.
Qed.

(** The directory and the name of a path. *)
Lemma parent_Some p dir :
  parent p = Some dir → dir ≠ [SLASH] → dir ≠ [] ∧ ∃ name, p = dir ++ SLASH :: name ∧ SLASH ∉ name.
Proof.
  unfold parent. destruct (rsplit_once [SLASH] p) as [[d n]|] eqn:E; [|done]. cbn.
  apply rsplit_byte in E as [-> Hn]. repeat case_bool_decide; try done; [by intros [= <-]|].
  intros [= <-] _. split; [done|]. by exists n.
Qed.
Lemma parent_app dir name : dir ≠ [] → SLASH ∉ name → parent (dir ++ SLASH :: name) = Some dir.
Proof.
  intros Hd Hn. unfold parent. rewrite (proj2 (rsplit_byte SLASH _ dir name)) by done. cbn.
  by rewrite bool_decide_false.
Qed.
Lemma file_name_Some p name :
  file_name p = Some name ↔ name ≠ [] ∧ SLASH ∉ name ∧ ∃ dir, p = dir ++ SLASH :: name.
Proof.
  unfold file_name. split.
  - destruct (rsplit_once [SLASH] p) as [[d n]|] eqn:E; [|done]. cbn.
    apply rsplit_byte in E as [-> Hn]. case_bool_decide; [done|]. intros [= <-]. eauto.
  - intros (Hne & Hn & dir & ->). rewrite (proj2 (rsplit_byte SLASH _ dir name)) by done. cbn.
    by rewrite bool_decide_false.
Qed.
Lemma app_extension p :
  extension p = Some (bs "app") ↔
  ∃ dir stem, stem ≠ [] ∧ SLASH ∉ stem ∧ p = dir ++ SLASH :: stem ++ bs ".app".
Proof.
  unfold extension. split.
  - destruct (file_name p) as [name|] eqn:E; [|done]. cbn [mbind option_bind].
    destruct (rsplit_once (bs ".") name) as [[stem ext]|] eqn:E2; [|done]. cbn [mbind option_bind].
    apply file_name_Some in E as (_ & Hn & dir & ->). apply rsplit_byte in E2 as [-> _].
    case_bool_decide; [done|]. intros [= ->]. exists dir, stem. split_and!; [done| |done].
    intros Hs. apply Hn, elem_of_app. by left.
  - intros (dir & stem & Hne & Hs & ->).
    rewrite (proj2 (file_name_Some _ (stem ++ bs ".app"))).
    + cbn. rewrite (proj2 (rsplit_byte Byte.x2e _ stem (bs "app"))).
      * cbn. by rewrite bool_decide_false.
      * split; [done|not_in].
    + split_and!; [by destruct stem| |by exists dir]. rewrite elem_of_app. intros [?|Hx]; [done|].
      revert Hx. not_in.
Qed.

Lemma join_contents x n :
  join (x ++ SLASH :: bs "Contents") n = x ++ SLASH :: bs "Contents" ++ SLASH :: n.
Proof.
  unfold join. rewrite bool_decide_false by by destruct x.
  unfold ends_with, strip_suffix. rewrite reverse_app.
  assert (strip_prefix (reverse [SLASH]) (reverse (SLASH :: bs "Contents") ++ reverse x) = None) as -> by done.
  transitivity ((x ++ SLASH :: bs "Contents") ++ [SLASH] ++ n); [done|].
  by rewrite <- app_assoc.
Qed.

Definition bundle_of (p : bytes) : option bytes :=
  dir ← parent p; dir ← parent dir; parent dir.
(** The checks of the code on the folders of a program. *)
Lemma bundled_checks p file :
  bundled p file ↔
  ∃ dir bundle, parent p = Some dir ∧ bundle_of p = Some bundle ∧
    let contents := default dir (parent dir) in
    file_name dir = Some (bs "MacOS") ∧ file_name contents = Some (bs "Contents") ∧
    extension bundle = Some (bs "app") ∧ file = join contents (bs "Resources/state-dir").
Proof.
  unfold bundle_of. split.
  - intros (above & stem & name & Hne & Hs & Hn & -> & ->).
    set (bundle := above ++ SLASH :: stem ++ bs ".app").
    assert (bundle ≠ []) as Hb by (unfold bundle; by destruct above).
    assert (above ++ [SLASH] ++ stem ++ bs ".app/Contents/MacOS/" ++ name =
      ((bundle ++ SLASH :: bs "Contents") ++ SLASH :: bs "MacOS") ++ SLASH :: name) as ->.
    { unfold bundle. assoc_texts. }
    assert (∀ a b, a ≠ [] → a ++ SLASH :: b ≠ []) as Hnn by (by intros []).
    assert (SLASH ∉ bs "MacOS" ∧ SLASH ∉ bs "Contents") as [H1 H2].
    { split; not_in. }
    rewrite parent_app by auto. exists ((bundle ++ SLASH :: bs "Contents") ++ SLASH :: bs "MacOS"), bundle.
    cbn [mbind option_bind]. rewrite !parent_app by auto. cbn [default from_option mbind option_bind].
    rewrite !parent_app by auto. split_and!; [done..| | | |].
    + apply file_name_Some. split_and!; [done|done|eauto].
    + apply file_name_Some. split_and!; [done|done|eauto].
    + apply app_extension. by exists above, stem.
    + unfold Datatypes.id. rewrite join_contents. unfold bundle. assoc_texts.
  - intros (dir & bundle & Hp & Hb & Hd & Hc & Ha & ->). rewrite Hp in Hb. cbn [mbind option_bind] in Hb.
    apply file_name_Some in Hd as (_ & Hm & contents & ->).
    assert (contents ≠ [] → parent (contents ++ SLASH :: bs "MacOS") = Some contents) as Hpc.
    { intros Hne. by apply parent_app. }
    destruct (decide (contents = [])) as [->|Hne].
    { exfalso. revert Hc. vm_compute. congruence. }
    rewrite Hpc in Hb, Hc |- * by done. cbn [mbind option_bind default from_option] in *.
    unfold Datatypes.id in *.
    apply file_name_Some in Hc as (_ & Hn & top & ->).
    destruct (decide (top = [])) as [->|Hne'].
    { revert Hb Ha. vm_compute. intros [= <-]. vm_compute. congruence. }
    rewrite parent_app in Hb by done. injection Hb as <-.
    apply app_extension in Ha as (above & stem & Hs1 & Hs2 & ->).
    apply parent_Some in Hp as (_ & name & -> & Hname); [|intros Hx; by apply (f_equal length) in Hx; rewrite !length_app in Hx; cbn in Hx; lia].
    exists above, stem, name. split_and!; [done..| |].
    + assoc_texts.
    + rewrite join_contents. assoc_texts.
Qed.


Section start.
Context {io_ : IoText}.

Lemma bundled_calm : makes calm bundled_or_none.
Proof.
  unfold bundled_or_none. split; [done|]. intros [exe|e]; [|done]. split; [done|].
  intros [p|e]; [|done]. change (makes calm (bundled_state_dir p)). unfold bundled_state_dir.
  destruct (parent p); [|done]. destruct (_ ≫= _) as [bundle|]; [|done]. cbv zeta.
  destruct (_ || negb (bool_decide (extension _ = _))); [done|]. split; [done|].
  intros [text|e']; cbn; repeat case_match; done.
Qed.
(** What the program reads of the bundle it is in. *)
Definition bundle_says (h : Environment) (r : option bytes) : Prop :=
  match r with
  | Some dir => ∃ file text, runs_bundled h file ∧ hs_text h file = Ok text ∧ dir = trim text ∧
                  starts_with [SLASH] dir = true
  | None => ∀ file, runs_bundled h file → hs_text h file = Err NotFound
  end.
Lemma bundled_state_run h exe p tr r :
  hs_exe h = Ok exe → hs_canonical h exe = Ok p →
  run (bundled_state_dir p) tr (Some (Ok r)) → Forall (told h) tr → bundle_says h r.
Proof.
  intros He Hp H Ht.
  assert (∀ file, runs_bundled h file ↔ bundled p file) as Hin.
  { intros file. split; [|intros Hf; by exists exe, p].
    intros (e & q & He' & Hq & Hf). rewrite He in He'. injection He' as <-.
    rewrite Hp in Hq. by injection Hq as <-. }
  assert ((∀ file, ¬ bundled p file) → r = None → bundle_says h r) as Hnone.
  { intros Hn ->. intros file Hf%Hin. by apply Hn in Hf. }
  unfold bundled_state_dir in H. fold (bundle_of p) in H.
  destruct (parent p) as [dir|] eqn:Ep.
  2:{ apply run_value_Ok in H as [[= <-] _]. apply Hnone; [|done].
      intros file (? & ? & E & _)%bundled_checks. congruence. }
  destruct (bundle_of p) as [bundle|] eqn:Eb.
  2:{ apply run_value_Ok in H as [[= <-] _]. apply Hnone; [|done].
      intros file (? & ? & _ & E & _)%bundled_checks. congruence. }
  cbv zeta in H. destruct (_ || negb (bool_decide (extension bundle = _))) eqn:Ec in H.
  { apply run_value_Ok in H as [[= <-] _]. apply Hnone; [|done].
    intros file (dir' & bundle' & Hd & Hb & H1 & H2 & H3 & _)%bundled_checks.
    rewrite Ep in Hd. rewrite Eb in Hb. injection Hd as <-. injection Hb as <-.
    by rewrite H1, H2, H3, !bool_decide_true in Ec. }
  to_prop. set (file := join _ _) in H.
  assert (∀ file', bundled p file' ↔ file' = file) as Hfile.
  { intros file'. rewrite bundled_checks. split.
    - intros (dir' & bundle' & Hd & Hb & _ & _ & _ & ->). rewrite Ep in Hd. by injection Hd as <-.
    - intros ->. exists dir, bundle. by split_and!. }
  run_step H as text t3 H3. apply run_op_Ok in H3 as ->.
  apply Forall_cons in Ht as [Htext _]. cbn in Htext. subst text.
  destruct (hs_text h file) as [text|[]] eqn:Et; try by apply run_value_Ok in H as [? _].
  2:{ apply run_value_Ok in H as [[= <-] _]. intros file' Hf. apply Hin, Hfile in Hf as ->. done. }
  cbv zeta in H. destruct (is_absolute (trim text)) eqn:Ea; cbn [negb] in H;
    apply run_value_Ok in H as [H _]; [|done]. injection H as <-.
  exists file, text. split; [by apply Hin, Hfile|]. done.
Qed.
Lemma bundled_run h tr r :
  run bundled_or_none tr (Some (Ok r)) → Forall (told h) tr → bundle_says h r.
Proof.
  intros H Ht. run_step H as exe t1 H1. apply run_op_Ok in H1 as ->.
  apply Forall_cons in Ht as [Hexe Ht]. cbn in Hexe. subst exe.
  destruct (hs_exe h) as [exe|e] eqn:He.
  2:{ apply run_value_Ok in H as [[= <-] _]. intros file (? & ? & ? & _). congruence. }
  run_step H as p t2 H2. apply run_op_Ok in H2 as ->.
  apply Forall_cons in Ht as [Hp Ht]. cbn in Hp. subst p.
  destruct (hs_canonical h exe) as [p|e] eqn:Hp; [by eapply bundled_state_run|].
  apply run_value_Ok in H as [[= <-] _]. intros file (? & ? & ? & ? & _). congruence.
Qed.
Lemma unix_run {content} (fs fs' : gmap bytes content) macos h tr dir :
  (macos = true → hs_var h (bs "HOME") = None) →
  run unix_state_dir tr (Some (Ok dir)) → files_served fs tr fs' → Forall (told h) tr →
  ∃ base former, state_home macos h base former ∧
    newest_kept fs fs' [join base (bs "diffz"); join base (bs "diffr"); join base former] dir.
Proof.
  intros Hmac H Hs Ht. run_step H as xdg t1 H1. apply run_op_Ok in H1 as ->.
  apply files_served_cons in Hs as (f1 & -> & Hs). apply Forall_cons in Ht as [Hx Ht].
  change (xdg = hs_var h (bs "XDG_STATE_HOME")) in Hx.
  assert (∀ base tr, state_home macos h base (bs "review-workbench") →
    run (migrated_twice base (bs "review-workbench")) tr (Some (Ok dir)) →
    files_served fs tr fs' → ∃ base former, state_home macos h base former ∧ newest_kept fs fs'
      [join base (bs "diffz"); join base (bs "diffr"); join base former] dir) as Hm.
  { intros base t Hb Hr Hs'. exists base, (bs "review-workbench"). split; [done|].
    by eapply migrated_twice_keeps. }
  assert ((∀ p, xdg = Some p → is_absolute p = false) → ∀ tr,
    run (home ← op (VarOs (bs "HOME"));
      home ← try_ (ok_or home (Message (bs "HOME unset; specify --state-dir")));
      migrated_twice (join home (bs ".local/state")) (bs "review-workbench")) tr (Some (Ok dir)) →
    files_served fs tr fs' → Forall (told h) tr →
    ∃ base former, state_home macos h base former ∧ newest_kept fs fs'
      [join base (bs "diffz"); join base (bs "diffr"); join base former] dir) as Hh.
  { clear H Hs Ht. intros Hno t H Hs Ht. run_step H as home t2 H2. apply run_op_Ok in H2 as ->.
    apply files_served_cons in Hs as (f2 & -> & Hs). apply Forall_cons in Ht as [Hhome _].
    change (home = hs_var h (bs "HOME")) in Hhome.
    run_step H as home' t3 H3.
    apply run_value_Ok in H3 as [H3 ->]. apply ok_or_Ok in H3 as ->.
    eapply Hm; [|exact H|exact Hs]. apply user_home; [|by subst xdg|done].
    destruct macos; [|done]. rewrite Hmac in Hhome; done. }
  destruct xdg as [p|]; [destruct (is_absolute p) eqn:Ea|].
  - eapply Hm; [|exact H|exact Hs]. by apply xdg_home.
  - eapply Hh; [|exact H|exact Hs|exact Ht]. by intros ? [= <-].
  - by eapply Hh; [|exact H|exact Hs|exact Ht].
Qed.

(** C38: No state is lost when the program is renamed, and it is looked for where the
    environment says. On macOS, a program that is an application bundle's
    [Name.app/Contents/MacOS/program] and finds a file [Contents/Resources/state-dir] in it opens
    the absolute directory this file names, and touches no directory. Otherwise, which on macOS
    means that there is no such file, the folder of the state is [Library/Application Support] of
    [HOME] on macOS; elsewhere, or without [HOME], an absolute [XDG_STATE_HOME]; and else
    [.local/state] of [HOME]; the state is in it under diffz, diffr before that, and its first
    name before that. The state opened is the one that the directory of the newest of these
    names held, whether or not a rename succeeds; every state that was there still is, under one
    of them, and nothing else is touched. *)
Theorem state_survives {content} (fs fs' : gmap bytes content) h macos tr dir :
  run (default_state_dir macos) tr (Some (Ok dir)) → files_served fs tr fs' → Forall (told h) tr →
  (macos = true ∧ fs' = fs ∧
   ∃ file text, runs_bundled h file ∧ hs_text h file = Ok text ∧ dir = trim text ∧
     starts_with [SLASH] dir = true) ∨
  ((macos = true → ∀ file, runs_bundled h file → hs_text h file = Err NotFound) ∧
   ∃ base former, state_home macos h base former ∧
     newest_kept fs fs' [join base (bs "diffz"); join base (bs "diffr"); join base former] dir).
Proof.
  unfold default_state_dir. intros H Hs Ht. destruct macos; cbn [negb] in H.
  2:{ right. split; [done|]. by eapply unix_run; [|exact H|exact Hs|exact Ht]. }
  run_step H as b t1 H1. apply files_served_app in Hs as (f1 & Hs1 & Hs).
  apply Forall_app in Ht as [Ht1 Ht]. pose proof (bundled_run h _ _ H1 Ht1) as Hb.
  pose proof (calm_served _ _ _ _ _ bundled_calm H1 Hs1) as ->. destruct b as [b|].
  { apply run_value_Ok in H as [[= <-] ->]. inversion Hs; subst. by left. }
  right. split; [done|]. run_step H as home t2 H2. apply run_op_Ok in H2 as ->.
  apply files_served_cons in Hs as (f2 & -> & Hs). apply Forall_cons in Ht as [Hhome Ht].
  change (home = hs_var h (bs "HOME")) in Hhome.
  destruct home as [home|].
  - exists (join home (bs "Library/Application Support")), (bs "ReviewWorkbench"). split; [by apply mac_home|].
    by eapply migrated_twice_keeps.
  - by eapply unix_run; [|exact H|exact Hs|exact Ht].
Qed.
End start.

(** ** Starting the services *)

Section services.
Context {url_ : UrlParser} {payload_ : PayloadJson} {sha1_ : Sha1} {position_ : PositionJson}
  {mr_payload_ : MrPayloadJson}.
Context (is_file_at : bytes → bool) (mode_of : bytes → result bytes N)
  (canonical : bytes → result bytes bytes).

(** What a window may publish is what it was started with: it may write to GitHub, and to
    GitLab, exactly when it was started with that permission and the provider's tool was found,
    and to nothing else, Entire included; the three providers are registered, each found under
    its own id; and nothing was started before the store was open. *)
Theorem writes_follow_flags dir writes gitlab_writes tr s :
  run (new_with_providers is_file_at mode_of canonical dir writes gitlab_writes) tr (Some (Ok s)) →
  writes_enabled_for s ProviderId.GITHUB = writes && is_Some_b (gh_program s) ∧
  writes_enabled_for s ProviderId.GITLAB = gitlab_writes && is_Some_b (glab_program s) ∧
  (∀ i, i ≠ ProviderId.GITHUB → i ≠ ProviderId.GITLAB → writes_enabled_for s i = false) ∧
  provider_id <$> providers s = [ProviderId.GITHUB; ProviderId.GITLAB; ProviderId.ENTIRE] ∧
  (∀ i, is_ok (provider_for s i) = true ↔ i ∈ provider_id <$> providers s) ∧
  ∃ tr', tr = Event (OpenStore dir) (Ok tt) :: tr'.
Proof.
  intros H. run_step H as [] t1 H1. run_step H1 as r t0 H0. apply run_op_Ok in H0 as ->.
  apply run_value_Ok in H1 as [-> ->].
  run_step H as pid t2 _. run_step H as now t3 _. run_step H as now' t4 _.
  run_step H as git t5 _. run_step H as gh t6 _. run_step H as glab t7 _. run_step H as e t8 _.
  apply run_value_Ok in H as [[= <-] _].
  set (nc := dec pid ++ bs "-" ++ dec now').
  change (register (register (register (mkServices [] [] git nc gh glab) (github_provider gh) writes)
            (gitlab_provider glab) gitlab_writes) entire_provider false)
    with (register_all (bare git nc gh glab)
            [(github_provider gh, writes); (gitlab_provider glab, gitlab_writes);
             (entire_provider, false)]).
  assert (∀ k, writes_enabled_for (register_all (bare git nc gh glab)
            [(github_provider gh, writes); (gitlab_provider glab, gitlab_writes);
             (entire_provider, false)]) k
          = (bool_decide (k = ProviderId.GITHUB) && (writes && is_Some_b gh)
             || bool_decide (k = ProviderId.GITLAB) && (gitlab_writes && is_Some_b glab))) as Hw.
  { intros k. unfold writes_enabled_for, contains_key. rewrite registered_outbox.
    cbn [List.filter fst]. unfold provider_id. cbn [provider_rules github_provider gitlab_provider entire_provider rules_id GithubRules GitlabRules EntireRules].
    destruct (decide (k = ProviderId.GITHUB)) as [->|H1];
      [by destruct writes, gh|].
    rewrite (bool_decide_false (k = ProviderId.GITHUB)), (bool_decide_false (ProviderId.GITHUB = k)) by congruence.
    destruct (decide (k = ProviderId.GITLAB)) as [->|H2];
      [by destruct gitlab_writes, glab|].
    rewrite (bool_decide_false (k = ProviderId.GITLAB)), (bool_decide_false (ProviderId.GITLAB = k)) by congruence.
    by destruct (bool_decide (ProviderId.ENTIRE = k)). }
  split_and!.
  - rewrite Hw, bool_decide_true, bool_decide_false by done. cbn. by rewrite orb_false_r.
  - rewrite Hw, bool_decide_false, bool_decide_true by done. done.
  - intros k H1 H2. rewrite Hw, !bool_decide_false by done. done.
  - reflexivity.
  - intros k. unfold provider_for, find_provider. cbn.
    unfold provider_id. cbn. repeat case_bool_decide; cbn; subst; try (split; [set_solver|done]).
    split; [done|]. intros Hk. set_solver.
  - cbn. by eexists.
Qed.
End services.

(** ** Witnesses *)

(** A machine that is signed in everywhere and has every tool. *)
Definition host_answer (_ : unit) (R : Type) (c : HostCall R) : R * unit :=
  (match c in HostCall R return R with
   | IsFile _ => false
   | Absolute p => Ok p
   | RunTool _ _ => Ok (mkProcessOutput (Some 0%Z) [] [])
   | VarOs name => if bool_decide (name = bs "XDG_STATE_HOME") then None else Some (bs "/h")
   | CurrentExe => Err NotFound
   | CanonicalOf p => Ok p
   | ReadText _ => Err NotFound
   | Exists p => bool_decide (p = bs "/h/.local/state/diffr")
   | Rename _ _ => Ok tt
   | OpenStore _ => Ok tt
   | ProcessId => 7%N
   | Nanoseconds => Some 9%N
   end, tt).
Definition host_play {A} (p : prog HostCall A) := simulate host_answer tt p.
Lemma host_play_run {A} (p : prog HostCall A) (P : A → bool) :
  match (host_play p).2 with Some (Ok a) => P a | _ => false end = true →
  ∃ a, run p (host_play p).1 (Some (Ok a)) ∧ P a = true.
Proof.
  intros H. pose proof (run_simulate host_answer tt p) as Hr. unfold host_play in *.
  destruct (simulate host_answer tt p).2 as [[a|e]|]; try discriminate H. by exists a.
Qed.

Definition corporate : bytes := bs " https://git.corp.example/o/r/pull/7 ".
Definition tooled : Services := mkServices [] [] None [] (Some (bs "/usr/bin/gh")) None.
Example detected_host_known_witness :
  ∃ d h tr',
    run (unconfirmed_host tooled (request_of d)) tr' (Some (Ok None)) ∧
    request_of d = Remote ProviderId.GITHUB (trim corporate) ∧
    remote_host ProviderId.GITHUB (trim corporate) = Some h ∧
    ((public_host ProviderId.GITHUB h = true ∧ tr' = []) ∨
     ∃ program tokens out,
       ((ProviderId.GITHUB = ProviderId.GITHUB ∧ gh_program tooled = Some program ∧
         tokens = GITHUB_TOKENS) ∨
        (ProviderId.GITHUB = ProviderId.GITLAB ∧ glab_program tooled = Some program ∧
         tokens = GITLAB_TOKENS)) ∧
       tr' = [Event (RunTool (status_request program h) tokens) (Ok out)] ∧
       status out = Some 0%Z).
Proof.
  destruct (host_play_run (detect_source corporate)
              (λ d, match d with
                    | Some d => bool_decide (request_of d = Remote ProviderId.GITHUB (trim corporate))
                    | None => false
                    end)) as (d & Hd & Hr); [vm_compute; reflexivity|].
  destruct d as [d|]; [|discriminate Hr]. apply bool_decide_eq_true in Hr.
  destruct (host_play_run (unconfirmed_host tooled (Remote ProviderId.GITHUB (trim corporate)))
              (λ o, bool_decide (o = None))) as (o & Hu & Ho); [vm_compute; reflexivity|].
  apply bool_decide_eq_true in Ho. subst o.
  assert (run (unconfirmed_host tooled (request_of d))
            (host_play (unconfirmed_host tooled (Remote ProviderId.GITHUB (trim corporate)))).1
            (Some (Ok None))) as Hu' by (rewrite Hr; exact Hu).
  destruct (detected_host_known tooled corporate (host_play (detect_source corporate)).1 d
              ProviderId.GITHUB (trim corporate)
              (host_play (unconfirmed_host tooled (Remote ProviderId.GITHUB (trim corporate)))).1
              Hd Hr Hu') as (_ & _ & _ & _ & _ & h & Hh & _ & Hor).
  exists d, h. eexists. split; [exact Hu'|]. split; [exact Hr|]. split; [exact Hh|exact Hor].
Defined.

#[local] Instance no_text : IoText := λ _, [].
Notation state_files := {[ bs "/h/.local/state/diffr" := bs "drafts" ]}.
(** Nothing is known of the program; [HOME] is all that is set. *)
Definition plain_home : Environment :=
  mkEnvironment (λ name, if bool_decide (name = bs "HOME") then Some (bs "/h") else None)
    (Err NotFound) (λ _, Err NotFound) (λ _, Err NotFound).
Example state_survives_witness :
  let fs : gmap bytes bytes := state_files in
  let fs' := <[bs "/h/.local/state/diffz" := bs "drafts"]> (delete (bs "/h/.local/state/diffr") fs) in
  fs' !! bs "/h/.local/state/diffz" = Some (bs "drafts") ∧
  ∃ base former, state_home false plain_home base former ∧
    newest_kept fs fs' [join base (bs "diffz"); join base (bs "diffr"); join base former]
      (bs "/h/.local/state/diffz").
Proof.
  intros fs fs'. split; [apply lookup_insert_eq|].
  destruct (state_survives fs fs' plain_home false (host_play (default_state_dir false)).1
              (bs "/h/.local/state/diffz")) as [(H & _)|[_ H]]; [| | |discriminate H|exact H].
  - destruct (host_play_run (default_state_dir false)
                (λ d, bool_decide (d = bs "/h/.local/state/diffz"))) as (d & Hr & Hd);
      [vm_compute; reflexivity|].
    apply bool_decide_eq_true in Hd as ->. exact Hr.
  - change (files_served fs
      [Event (VarOs (bs "XDG_STATE_HOME")) None; Event (VarOs (bs "HOME")) (Some (bs "/h"));
       Event (Exists (bs "/h/.local/state/diffr")) true;
       Event (Exists (bs "/h/.local/state/diffz")) false;
       Event (Exists (bs "/h/.local/state/diffr")) true;
       Event (Rename (bs "/h/.local/state/diffr") (bs "/h/.local/state/diffz")) (Ok tt)] fs').
    do 2 (econstructor; [by constructor|]).
    do 3 (econstructor; [apply serve_exists|]).
    econstructor; [|constructor]. apply serve_renamed. apply lookup_insert_eq.
  - change (Forall (told plain_home)
      [Event (VarOs (bs "XDG_STATE_HOME")) None; Event (VarOs (bs "HOME")) (Some (bs "/h"));
       Event (Exists (bs "/h/.local/state/diffr")) true;
       Event (Exists (bs "/h/.local/state/diffz")) false;
       Event (Exists (bs "/h/.local/state/diffr")) true;
       Event (Rename (bs "/h/.local/state/diffr") (bs "/h/.local/state/diffz")) (Ok tt)]).
    repeat (apply Forall_cons; split; [vm_compute; first [exact I|reflexivity]|]). constructor.
Defined.

#[local] Instance no_payload : PayloadJson := λ _, [].
#[local] Instance no_sha1 : Sha1 := λ s, s.
#[local] Instance no_position : PositionJson := λ _, Ok [].
#[local] Instance no_mr_payload : MrPayloadJson := λ _ _ _ _, [].
Example writes_follow_flags_witness :
  let p := new_with_providers (λ _, true) (λ _, Ok 493%N) (λ d, Ok d) (bs "/s") true false in
  ∃ s, run p (host_play p).1 (Some (Ok s)) ∧ is_Some_b (gh_program s) = true ∧
    writes_enabled_for s ProviderId.GITHUB = true && is_Some_b (gh_program s) ∧
    writes_enabled_for s ProviderId.GITLAB = false && is_Some_b (glab_program s).
Proof.
  intros p. destruct (host_play_run p (λ s, is_Some_b (gh_program s))) as (s & Hr & Hg);
    [vm_compute; reflexivity|].
  exists s. split; [exact Hr|]. split; [exact Hg|].
  destruct (writes_follow_flags (λ _, true) (λ _, Ok 493%N) (λ d, Ok d) (bs "/s") true false
              (host_play p).1 s Hr) as (H1 & H2 & _).
  by split.
Defined.
