(* ===== verification/CommandLine.v ===== *)
(** * The command line and the background launch ([crates/app/src/main.rs])

    Arguments are bytes, as Unix gives them. Parsing, the arguments of the window started in the
    background, and the handoff around them, on Unix with the desktop feature; asking the host
    is [HostCall], the handoff of [deliver] is run with its launch filled in ([MainCall]). The
    text of an error is what [{:#}] shows of it. *)

From S2P Require Import Prelude RustStr Utf8 Domain BTree F32 Theme Programs Process Remote Github Gitlab.
From S2P Require Import Patch Overview Snapshot Session EntireContext Entire Handoff LocalGit Review Store Json.
From S2P Require Import Outbox Service Opening.

(** ** Options *)

Record Options := mkOptions {
  o_request : option OpenRequest; o_state : option bytes;
  o_writes : bool; o_gitlab_writes : bool; o_inspect : bool; o_foreground : bool; o_json : bool;
  o_font : option bytes; o_theme : option bytes;
  o_probe : option bytes; o_probe_output : option bytes
}.

(** The variables of the loop over the arguments: the options so far, with [request] for
    [source], and those that are only used at its end. *)
Record ParseState := mkParseState {
  ps_options : Options; positional : bool; ps_base : bytes; ps_head : bytes
}.
Definition initial_options : Options :=
  mkOptions None None false false false false false None None None None.
Definition initial_state : ParseState :=
  mkParseState initial_options false (bs "main") (bs "HEAD").

Definition update (f : Options → Options) (s : ParseState) : ParseState :=
  mkParseState (f (ps_options s)) (positional s) (ps_base s) (ps_head s).
Definition with_request (r : option OpenRequest) (o : Options) : Options :=
  mkOptions r (o_state o) (o_writes o) (o_gitlab_writes o) (o_inspect o) (o_foreground o) (o_json o)
    (o_font o) (o_theme o) (o_probe o) (o_probe_output o).

Section options.
Context {url_ : UrlParser} {debug_ : DebugText} {json_ : JsonValue}.

(** [set_source] on the loop's variables. *)
Definition set_source (r : OpenRequest) (s : ParseState) : result bytes ParseState :=
  match o_request (ps_options s) with
  | Some _ => Err (bs "pass a single source per launch")
  | None => Ok (update (with_request (Some r)) s)
  end.
Definition text_argument (value flag : bytes) : result bytes bytes :=
  if utf8_valid value then Ok value
  else Err (bs "value after " ++ flag ++ bs " must be valid UTF-8").

(** Each provider's own parser decides whether a URL is a compare of its own. *)
Definition entire_host (host : bytes) : bool := bool_decide (host ∈ [bs "entire.com"; bs "entire.io"]).
Definition compare_request (address : bytes) : result bytes OpenRequest :=
  let unsupported :=
    Err (bs "Entire compare URLs are not supported; use --trail with an Entire Trail URL") in
  if is_ok (TrailAddress_parse address)
  then Err (debug_text address ++ bs " is an Entire Trail; use --trail")
  else
    provider ←
      match GithubTarget_parse address, GitlabTarget_parse address with
      | Ok (Compare a), gitlab =>
          if entire_host (ca_host a) then unsupported
          else match gitlab with
               | Ok (Refs b) => if entire_host (gc_host b) then unsupported else Ok ProviderId.GITHUB
               | _ => Ok ProviderId.GITHUB
               end
      | _, Ok (Refs b) => if entire_host (gc_host b) then unsupported else Ok ProviderId.GITLAB
      | Err github, Err gitlab =>
          Err (bs "not a GitHub compare (" ++ github ++ bs ") or a GitLab compare (" ++ gitlab ++ bs ")")
      | _, _ => Err (debug_text address ++ bs " is a pull or merge request; use --pr or --mr")
      end;
    Ok (Remote provider address).

(** ** The arms of the loop: a flag alone, or with the argument after it *)

Inductive Arm :=
| Alone (f : ParseState → result bytes ParseState)
| Valued (f : bytes → ParseState → result bytes ParseState).

Definition set_flag (f : Options → Options) : Arm := Alone (λ s, Ok (update f s)).
Definition path_source (f : bytes → OpenRequest) : Arm := Valued (λ v, set_source (f v)).
Definition text_source (flag : bytes) (f : bytes → OpenRequest) : Arm :=
  Valued (λ v s, t ← text_argument v flag; set_source (f t) s).
Definition path_option (f : option bytes → Options → Options) : Arm :=
  Valued (λ v s, Ok (update (f (Some v)) s)).
Definition text_option (flag : bytes) (f : option bytes → Options → Options) : Arm :=
  Valued (λ v s, t ← text_argument v flag; Ok (update (f (Some t)) s)).

Definition arms : list (bytes * Arm) := [
  (bs "--fixture", text_source (bs "--fixture") Fixture);
  (bs "--patch", path_source PatchFile);
  (bs "--pr", text_source (bs "--pr") (Remote ProviderId.GITHUB));
  (bs "--git", path_source (λ root, LocalGit root [] []));
  (bs "--staged", path_source LocalIndex);
  (bs "--worktree", path_source LocalWorktree);
  (bs "--resume", text_source (bs "--resume") Resume);
  (bs "--base", Valued (λ v s, t ← text_argument v (bs "--base");
                        Ok (mkParseState (ps_options s) (positional s) t (ps_head s))));
  (bs "--head", Valued (λ v s, t ← text_argument v (bs "--head");
                        Ok (mkParseState (ps_options s) (positional s) (ps_base s) t)));
  (bs "--state-dir", path_option (λ v o,
     mkOptions (o_request o) v (o_writes o) (o_gitlab_writes o) (o_inspect o) (o_foreground o)
       (o_json o) (o_font o) (o_theme o) (o_probe o) (o_probe_output o)));
  (bs "--allow-github-writes", set_flag (λ o,
     mkOptions (o_request o) (o_state o) true (o_gitlab_writes o) (o_inspect o) (o_foreground o)
       (o_json o) (o_font o) (o_theme o) (o_probe o) (o_probe_output o)));
  (bs "--allow-gitlab-writes", set_flag (λ o,
     mkOptions (o_request o) (o_state o) (o_writes o) true (o_inspect o) (o_foreground o)
       (o_json o) (o_font o) (o_theme o) (o_probe o) (o_probe_output o)));
  (bs "--mr", text_source (bs "--mr") (Remote ProviderId.GITLAB));
  (bs "--trail", Valued (λ v s,
     address ← text_argument v (bs "--trail");
     _ ← TrailAddress_parse address;
     set_source (Remote ProviderId.ENTIRE address) s));
  (bs "--compare", Valued (λ v s,
     address ← text_argument v (bs "--compare"); r ← compare_request address; set_source r s));
  (bs "--inspect", set_flag (λ o,
     mkOptions (o_request o) (o_state o) (o_writes o) (o_gitlab_writes o) true (o_foreground o)
       (o_json o) (o_font o) (o_theme o) (o_probe o) (o_probe_output o)));
  (bs "--foreground", set_flag (λ o,
     mkOptions (o_request o) (o_state o) (o_writes o) (o_gitlab_writes o) (o_inspect o) true
       (o_json o) (o_font o) (o_theme o) (o_probe o) (o_probe_output o)));
  (bs "--json", set_flag (λ o,
     mkOptions (o_request o) (o_state o) (o_writes o) (o_gitlab_writes o) (o_inspect o)
       (o_foreground o) true (o_font o) (o_theme o) (o_probe o) (o_probe_output o)));
  (bs "--font", text_option (bs "--font") (λ v o,
     mkOptions (o_request o) (o_state o) (o_writes o) (o_gitlab_writes o) (o_inspect o)
       (o_foreground o) (o_json o) v (o_theme o) (o_probe o) (o_probe_output o)));
  (bs "--theme", text_option (bs "--theme") (λ v o,
     mkOptions (o_request o) (o_state o) (o_writes o) (o_gitlab_writes o) (o_inspect o)
       (o_foreground o) (o_json o) (o_font o) v (o_probe o) (o_probe_output o)));
  (bs "--probe", path_option (λ v o,
     mkOptions (o_request o) (o_state o) (o_writes o) (o_gitlab_writes o) (o_inspect o)
       (o_foreground o) (o_json o) (o_font o) (o_theme o) v (o_probe_output o)));
  (bs "--probe-output", path_option (λ v o,
     mkOptions (o_request o) (o_state o) (o_writes o) (o_gitlab_writes o) (o_inspect o)
       (o_foreground o) (o_json o) (o_font o) (o_theme o) (o_probe o) v))
].
Definition positional_arm (arg : bytes) : ParseState → result bytes ParseState := λ s,
  set_source (PatchFile arg) (mkParseState (ps_options s) true (ps_base s) (ps_head s)).
Definition arm (arg : bytes) : Arm :=
  let flag := if utf8_valid arg then arg else [] in
  match get flag arms with
  | Some a => a
  | None =>
      if negb (starts_with (bs "-") arg) then Alone (positional_arm arg)
      else Alone (λ _, Err (bs "unknown argument " ++ debug_text arg ++ bs "; use --help"))
  end.

Fixpoint parse_loop (args : list bytes) (s : ParseState) : result bytes ParseState :=
  match args with
  | [] => Ok s
  | arg :: args =>
      match arm arg with
      | Alone f => s ← f s; parse_loop args s
      | Valued f =>
          match args with
          | [] => Err (bs "missing value after " ++ arg)
          | value :: args => s ← f value s; parse_loop args s
          end
      end
  end.

(** ** The request as JSON *)

Definition json_path (p : bytes) : result bytes Value :=
  if utf8_valid p then Ok (json_str p) else Err (bs "path contains invalid UTF-8 characters").
Definition request_value (r : OpenRequest) : result bytes Value :=
  let tagged tag v := json_object [(bs tag, v)] in
  match r with
  | Fixture id => Ok (tagged "Fixture" (json_str id))
  | PatchFile p => v ← json_path p; Ok (tagged "Patch" v)
  | Remote provider address =>
      Ok (tagged "Remote" (json_object [(bs "provider", json_str provider);
                                        (bs "address", json_str address)]))
  | LocalGit root base head =>
      v ← json_path root;
      Ok (tagged "LocalGit" (json_object [(bs "root", v); (bs "base", json_str base);
                                          (bs "head", json_str head)]))
  | LocalIndex p => v ← json_path p; Ok (tagged "LocalIndex" v)
  | LocalWorktree p => v ← json_path p; Ok (tagged "LocalWorktree" v)
  | Resume id => Ok (tagged "Resume" (json_str id))
  end.
Definition json_source (r : option OpenRequest) : result bytes Value :=
  match r with
  | None => Ok json_null
  | Some r => map_err (λ e, bs "source cannot be represented in JSON; use a UTF-8 path: " ++ e)
                (request_value r)
  end.

(** ** Parsing *)

Definition fill_refs (base head : bytes) (r : OpenRequest) : OpenRequest :=
  match r with LocalGit root _ _ => LocalGit root base head | r => r end.
Definition said {A} (r : result bytes A) : prog HostCall A := try_ (map_err Message r).

(** [parse_with_detect]. *)
Definition parse_with_detect (detect : bytes → prog HostCall OpenRequest) (args : list bytes)
    : prog HostCall Options :=
  s ← said (parse_loop args initial_state);
  let o := ps_options s in
  request ← match o_request o with
            | Some (PatchFile path) =>
                if positional s then r ← detect path; mret (Some r) else mret (Some (PatchFile path))
            | source => mret source
            end;
  let request := fill_refs (ps_base s) (ps_head s) <$> request in
  if negb (bool_decide (is_Some_b (o_probe o) = is_Some_b (o_probe_output o)))
  then throw (Message (bs "pass --probe together with --probe-output"))
  else
    _ ← (if o_json o then said (json_source request) else mret json_null);
    mret (with_request request o).

(** A bare [std::io::Error] shows its own text. *)
Definition io_said {IoText_ : IoText} {A} (r : result ErrorKind A) : prog HostCall A :=
  try_ (map_err (λ e, Message (io_text e)) r).
Context {io_ : IoText}.
Definition absolute_path (p : bytes) : prog HostCall bytes :=
  r ← op (Absolute p); io_said r.

Definition detect (path : bytes) : prog HostCall OpenRequest :=
  let neither :=
    throw (Message (debug_text path
      ++ bs " is neither a file nor a review address; pass a patch file, owner/repo#N or a "
      ++ bs "GitHub pull request URL, group/project!N or a GitLab merge request URL, or a GitHub "
      ++ bs "or GitLab compare URL, or an Entire Trail URL")) in
  file ← op (IsFile path);
  if file : bool then p ← absolute_path path; mret (PatchFile p)
  else if utf8_valid path then
    d ← detect_source path;
    match request_of <$> d with
    | Some (Remote provider address) => mret (Remote provider address)
    | _ => neither
    end
  else neither.
Definition parse (args : list bytes) : prog HostCall Options := parse_with_detect detect args.

Definition EXITS : list bytes := [bs "--help"; bs "-h"; bs "--version"; bs "-V"].
(** The texts of [--help] and [--version] are parameters. *)
Definition early_exit (help version : bytes) (args : list bytes) : option bytes :=
  if existsb (λ s, bool_decide (s = bs "--help") || bool_decide (s = bs "-h")) args then Some help
  else if existsb (λ s, bool_decide (s = bs "--version") || bool_decide (s = bs "-V")) args
  then Some version
  else None.

(** ** The arguments of the window in the background *)

(** [absolute], and [handed_request]. *)
Definition absolute (r : OpenRequest) : prog HostCall OpenRequest :=
  match r with
  | PatchFile p => p ← absolute_path p; mret (PatchFile p)
  | LocalGit root base head => root ← absolute_path root; mret (LocalGit root base head)
  | LocalIndex p => p ← absolute_path p; mret (LocalIndex p)
  | LocalWorktree p => p ← absolute_path p; mret (LocalWorktree p)
  | r => mret r
  end.
Definition handed_request (o : Options) : prog HostCall (option OpenRequest) :=
  match o_request o with
  | Some r => r ← absolute r; mret (Some r)
  | None => mret None
  end.

Definition request_args (r : OpenRequest) : result bytes (list bytes) :=
  match r with
  | Fixture id => Ok [bs "--fixture"; id]
  | PatchFile p => Ok [bs "--patch"; p]
  | Remote provider address =>
      flag ← (if bool_decide (provider = ProviderId.ENTIRE) then Ok (bs "--trail")
              else if is_ok (compare_request address) then Ok (bs "--compare")
              else if bool_decide (provider = ProviderId.GITHUB) then Ok (bs "--pr")
              else if bool_decide (provider = ProviderId.GITLAB) then Ok (bs "--mr")
              else Err (bs "no command-line flag opens a " ++ provider ++ bs " address"));
      Ok [flag; address]
  | LocalGit root base head => Ok [bs "--git"; root; bs "--base"; base; bs "--head"; head]
  | LocalIndex root => Ok [bs "--staged"; root]
  | LocalWorktree root => Ok [bs "--worktree"; root]
  | Resume id => Ok [bs "--resume"; id]
  end.
Definition theme_argument (theme : bytes) : prog HostCall bytes :=
  there ← op (Exists theme);
  if there : bool then absolute_path theme else mret theme.
Definition launch_args (o : Options) (state : bytes) (request : option OpenRequest)
    : prog HostCall (list bytes) :=
  state ← absolute_path state;
  source ← said match request with Some r => request_args r | None => Ok [] end;
  theme ← match o_theme o with
          | Some theme => theme ← theme_argument theme; mret [bs "--theme"; theme]
          | None => mret []
          end;
  mret ([bs "--foreground"; bs "--state-dir"; state] ++ source
        ++ (if o_writes o then [bs "--allow-github-writes"] else [])
        ++ (if o_gitlab_writes o then [bs "--allow-gitlab-writes"] else [])
        ++ match o_font o with Some font => [bs "--font"; font] | None => [] end
        ++ theme).
End options.

(** ** Handing off, or starting a window *)

Inductive MainCall : Type → Type :=
| Host {R} (c : HostCall R) : MainCall R
| Hand {R} (c : HandoffCall R) : MainCall R
| Spawn (exe : bytes) (args : list bytes) (env_token : option bytes)
    : MainCall (result ErrorKind unit)                       (* in a session of its own *)
| WriteLine (text : bytes) : MainCall (result ErrorKind unit)  (* to stdout, flushed *)
| PrintError (text : bytes) : MainCall unit.                 (* a line to stderr *)

(** A program that makes its calls through those of another. *)
Fixpoint handle {call call' : Type → Type} {A} (h : ∀ R, call R → prog call' R) (p : prog call A)
    : prog call' A :=
  match p with
  | Return r => Return r
  | Pending => Pending
  | Op c k => r ← h _ c; handle h (k r)
  end.
Definition host {A} (p : prog HostCall A) : prog MainCall A := handle (λ R c, op (Host c)) p.
Definition hand {A} (p : prog HandoffCall A) : prog MainCall A := handle (λ R c, op (Hand c)) p.

Definition captured_activation_token (value : option bytes) : option bytes :=
  v ← value; if utf8_valid v then admit_activation_token v else None.

Section handing.
Context {url_ : UrlParser} {debug_ : DebugText} {json_ : JsonValue} {io_ : IoText}
  {wire : HandoffJson json_}.
(** Built for macOS; the rounds that each loop of the handoff may wait. *)
Context (macos : bool) (rounds : nat).

(** [{:#}]: an error and the one it came from. *)
Definition chain_text (e : AdapterError) : bytes :=
  match e with
  | Message m => m
  | Io k => error_text e ++ bs ": " ++ io_text k
  | Sql m | Programs.Json m | PatchFailed m => error_text e ++ bs ": " ++ m
  end.

(** *** Output *)

Definition print_to (text : bytes) : prog MainCall (result ErrorKind unit) :=
  r ← op (WriteLine text);
  mret match r with Err BrokenPipe => Ok tt | r => r end.
Definition error_line (e : AdapterError) : Value :=
  json_object [(bs "status", json_str (bs "error")); (bs "message", json_str (chain_text e))].
Definition report_line (outcome : result AdapterError bytes) (request : option OpenRequest)
    : result AdapterError Value :=
  status ← outcome;
  source ← map_err Message (json_source request);
  Ok (json_object [(bs "status", json_str status); (bs "source", source)]).
Definition report (outcome : result AdapterError bytes) (request : option OpenRequest)
    : prog MainCall unit :=
  let line := report_line outcome request in
  r ← print_to (to_vec match line with Ok v => v | Err e => error_line e end);
  _ ← match r with
      | Err e => op (PrintError (bs "diffz: could not write the status line: " ++ io_text e))
      | Ok _ => mret tt
      end;
  try_ (_ ← line; Ok tt).

(** *** Starting the window *)

Definition app_bundle (exe : bytes) : option bytes :=
  macos ← parent exe; contents ← parent macos; bundle ← parent contents;
  name ← file_name macos;
  if negb (bool_decide (name = bs "MacOS")) then None
  else
    name ← file_name contents;
    if negb (bool_decide (name = bs "Contents")) then None
    else ext ← extension bundle; if bool_decide (ext = bs "app") then Some bundle else None.
Definition open_request (bundle state : bytes) (args : list bytes) : ProcessRequest :=
  with_args ([bs "-n"; bs "-a"; bundle; bs "--stderr"; log_path state; bs "--args"] ++ args)
    (new_request (bs "/usr/bin/open")).
Definition spawn_detached (exe : bytes) (args : list bytes) (token : option bytes) : prog MainCall unit :=
  r ← op (Spawn exe args (if macos then None else token));
  try_ (map_err (λ e, Message (bs "detached process could not start: " ++ io_text e)) r).
Definition launch (args : list bytes) (state : bytes) (token : option bytes) : prog MainCall unit :=
  exe ← host (r ← op CurrentExe; exe ← io_said r; r ← op (CanonicalOf exe); io_said r);
  _ ← hand (log_file);
  match (if macos then app_bundle exe else None) with
  | Some bundle =>
      r ← op (Host (RunTool (open_request bundle state args) []));
      output ← try_ r;
      if success (status output) then mret tt
      else throw (Message (bs "LaunchServices could not start " ++ display_lossy bundle ++ bs ": "
                           ++ default [] (stderr_excerpt (stderr output))))
  | None => spawn_detached exe args token
  end.

(** *** Handing off *)

Definition writes_of (o : Options) : Writes := mkWrites (o_writes o) (o_gitlab_writes o).
(** [deliver] with its last argument, which starts the window. *)
Definition on_launch (start : option bytes → prog MainCall unit) (R : Type) (c : HandoffCall R)
    : prog MainCall R :=
  match c in HandoffCall R return prog MainCall R with
  | Launch token => r ← catch (start token); mret (map_err (λ e, Message (chain_text e)) r)
  | c => op (Hand c)
  end.
Definition delivery_status (d : Delivery) : bytes :=
  match d with HandedOff => bs "handed_off" | Launched => bs "launched" end.
Definition hand_off (o : Options) (state : bytes) (token : option bytes) : prog MainCall unit :=
  request ← catch (host (request ← handed_request o;
                         _ ← (if o_json o then said (json_source request) else mret json_null);
                         mret request));
  match request with
  | Err e => if o_json o then report (Err e) None else throw e
  | Ok request =>
      d ← catch (handle (on_launch (λ token, args ← host (launch_args o state request); launch args state token))
                   (deliver state rounds request (writes_of o) token));
      let outcome := d ← d; Ok (delivery_status d) in
      _ ← (if bool_decide (d = Ok HandedOff) && (is_Some_b (o_font o) || is_Some_b (o_theme o))
           then op (PrintError (bs "diffz: the running window keeps the font and theme it started with"))
           else mret tt);
      if o_json o then report outcome request else try_ (_ ← outcome; Ok tt)
  end.
End handing.
