(* ===== verification/CommandLineFacts.v ===== *)
(** * Theorems about the command line and the background launch *)

From S2P Require Import Prelude RustStr Utf8 Domain BTree F32 Theme Programs Process Remote Github Gitlab.
From S2P Require Import Patch Overview Snapshot Session EntireContext Entire Handoff LocalGit Review Store Json.
From S2P Require Import Outbox Service Programs HandoffFacts Opening OpeningFacts CommandLine.

Section facts.
Context {url_ : UrlParser} {debug_ : DebugText} {json_ : JsonValue} {io_ : IoText}.

(** ** Texts the arguments may hold *)

Definition text_ok (t : bytes) : Prop := utf8_valid t = true ∧ t ∉ EXITS.
Definition request_ok (r : OpenRequest) : Prop :=
  match r with
  | Fixture t | Resume t => text_ok t
  | Remote p a =>
      text_ok a ∧ (p = ProviderId.GITHUB ∨ p = ProviderId.GITLAB
                   ∨ p = ProviderId.ENTIRE ∧ is_ok (TrailAddress_parse a) = true)
  | LocalGit _ b h => text_ok b ∧ text_ok h
  | _ => True
  end.
Record options_ok (o : Options) : Prop := {
  oo_request r : o_request o = Some r → request_ok r;
  oo_font t : o_font o = Some t → text_ok t;
  oo_theme t : o_theme o = Some t → text_ok t
}.
Record state_ok (s : ParseState) : Prop := {
  so_options : options_ok (ps_options s);
  so_base : text_ok (ps_base s); so_head : text_ok (ps_head s)
}.

Lemma text_ok_literal t : (utf8_valid t && negb (bool_decide (t ∈ EXITS))) = true → text_ok t.
Proof. intros [H1 H2%negb_true_iff%bool_decide_eq_false]%andb_true_iff. done. Qed.
Lemma initial_ok : state_ok initial_state.
Proof. split; [by split|by apply text_ok_literal..]. Qed.

Lemma text_argument_ok v flag t : v ∉ EXITS → text_argument v flag = Ok t → t = v ∧ text_ok t.
Proof. unfold text_argument. destruct (utf8_valid v) eqn:E; [|done]. by intros Hv [= <-]. Qed.
Lemma set_source_ok r s s' :
  set_source r s = Ok s' →
  o_request (ps_options s) = None ∧ s' = update (with_request (Some r)) s.
Proof. unfold set_source. destruct (o_request _); [done|]. by intros [= <-]. Qed.
Lemma set_source_state_ok r s s' :
  request_ok r → state_ok s → set_source r s = Ok s' → state_ok s'.
Proof.
  intros Hr [[H1 H2 H3] H4 H5] [_ ->]%set_source_ok. split; [|done..]. split; [|done..].
  cbn. by intros r' [= <-].
Qed.
Lemma compare_request_remote a r :
  compare_request a = Ok r → ∃ p, r = Remote p a ∧ (p = ProviderId.GITHUB ∨ p = ProviderId.GITLAB).
Proof.
  unfold compare_request. destruct (is_ok _); [done|]. intros (p & Hp & [= <-])%bind_Ok.
  exists p. split; [done|].
  destruct (GithubTarget_parse a) as [[x|x]|e], (GitlabTarget_parse a) as [[y|y]|e'];
    repeat match type of Hp with context [entire_host ?h] => destruct (entire_host h) end;
    try done; injection Hp as <-; auto.
Qed.

(** ** The loop *)

Lemma parse_loop_inv (P : ParseState → Prop) args s s' :
  (∀ a f s s', a ∈ args → arm a = Alone f → P s → f s = Ok s' → P s') →
  (∀ a v f s s', v ∈ args → arm a = Valued f → P s → f v s = Ok s' → P s') →
  P s → parse_loop args s = Ok s' → P s'.
Proof.
  remember (length args) as n eqn:En. assert (length args <= n)%nat as Hn by lia. clear En. revert args s Hn.
  induction n as [|n IH]; intros [|a args] s Hn H1 H2 Hs; cbn [parse_loop length] in *;
    try (by intros [= <-]); try lia.
  destruct (arm a) as [f|f] eqn:Ea.
  - intros (s1 & Hf & Hl)%bind_Ok. eapply (IH args s1); [lia| | | |done].
    + intros b g t t' Hb. apply H1. by right.
    + intros b v g t t' Hv. apply H2. by right.
    + eapply H1; [left|done..].
  - destruct args as [|v args]; [done|]. intros (s1 & Hf & Hl)%bind_Ok. cbn in Hn.
    eapply (IH args s1); [lia| | | |done].
    + intros b g t t' Hb. apply H1. by do 2 right.
    + intros b w g t t' Hw. apply H2. by do 2 right.
    + eapply H2; [|done..]. right. left.
Qed.
Lemma parse_loop_app xs ys s s' :
  parse_loop xs s = Ok s' → parse_loop (xs ++ ys) s = parse_loop ys s'.
Proof.
  remember (length xs) as n eqn:En. assert (length xs <= n)%nat as Hn by lia. clear En. revert xs s Hn.
  induction n as [|n IH]; intros [|a xs] s Hn; cbn [parse_loop length app] in *;
    try (by intros [= <-]); try lia.
  destruct (arm a) as [f|f] eqn:Ea.
  - intros (s1 & Hf & Hl)%bind_Ok. rewrite Hf. cbn. apply IH; [lia|done].
  - destruct xs as [|v xs]; [done|]. intros (s1 & Hf & Hl)%bind_Ok. cbn [app]. rewrite Hf. cbn in *.
    apply IH; [lia|done].
Qed.

Lemma get_In {A} k (m : btree A) v : get k m = Some v → (k, v) ∈ m.
Proof.
  induction m as [|[k' v'] m IH]; [done|]. cbn. case_bool_decide as E; [|intros H; right; auto].
  intros [= ->]. subst. left.
Qed.
(** What an argument's arm may do to the state. *)
Lemma arm_ok a :
  match arm a with
  | Alone f => ∀ s s', a ∉ EXITS → state_ok s → f s = Ok s' → state_ok s'
  | Valued f => ∀ v s s', v ∉ EXITS → state_ok s → f v s = Ok s' → state_ok s'
  end.
Proof.
  unfold arm. destruct (get _ arms) as [x|] eqn:E.
  - apply get_In in E. unfold arms in E.
    repeat (apply elem_of_cons in E as [[= _ ->]|E]); try by apply not_elem_of_nil in E.
    all: cbn; intros *.
    all: try (intros Hv Hs H; eapply set_source_state_ok, H; [|done]; cbn;
              by repeat split; apply text_ok_literal).
    all: try (intros _ [[H1 H2 H3] H4 H5] [= <-]; by (split; [split|..])).
    all: intros Hv Hs; try (intros (t & [-> Ht]%text_argument_ok & H)%bind_Ok; [|done]).
    all: try (eapply set_source_state_ok, H; cbn; by auto).
    all: try (injection H as <-; destruct Hs as [[H1 H2 H3] H4 H5]; split; [split|..]; cbn; try done;
              by intros t' [= <-]).
    + apply bind_Ok in H as (x & Hx & H). eapply set_source_state_ok, H; [|done].
      cbn. rewrite Hx. auto.
    + apply bind_Ok in H as (x & Hx & H).
      destruct (compare_request_remote _ _ Hx) as (p & -> & Hp).
      eapply set_source_state_ok, H; [|done]. cbn. split; [done|]. destruct Hp; auto.
  - destruct (negb _); cbn.
    + intros s s' Ha Hs H. eapply set_source_state_ok, H; [done|].
      destruct Hs as [[H1 H2 H3] H4 H5]. by (split; [split|..]).
    + done.
Qed.
Lemma parse_loop_ok args s' :
  Forall (λ a, a ∉ EXITS) args → parse_loop args initial_state = Ok s' → state_ok s'.
Proof.
  rewrite Forall_forall. intros Ha. apply (parse_loop_inv state_ok); [| |apply initial_ok].
  - intros a f s t Hin E Hs. pose proof (arm_ok a) as H. rewrite E in H. by apply H; [apply Ha|].
  - intros a v f s t Hin E Hs. pose proof (arm_ok a) as H. rewrite E in H. by apply H; [apply Ha|].
Qed.

(** ** The whole of parsing *)

Lemma trim_valid s : utf8_valid (trim s) = true.
Proof.
  change (utf8_valid (encode (ws_core (chars s))) = true).
  assert (∀ cs, Forall (λ c, is_scalar c = true) cs → Forall (λ c, is_scalar c = true) (drop_ws cs)) as Hd.
  { intros cs H. destruct (drop_ws_suffix cs) as [pre Hp]. rewrite Hp in H. by apply Forall_app in H as [_ ?]. }
  unfold utf8_valid. rewrite utf8_decode_encode; [done|].
  unfold ws_core. apply Forall_reverse, Hd, Forall_reverse, Hd.
  unfold chars. destruct (utf8_decode s) as [cs|] eqn:E; cbn; [by eapply utf8_decode_scalars|constructor].
Qed.
(** No provider takes the name of an option for an address. *)
Lemma exits_no_address e :
  e ∈ EXITS → is_ok (TrailAddress_parse e) = false ∧ is_ok (GithubTarget_parse e) = false
              ∧ is_ok (GitlabTarget_parse e) = false.
Proof.
  unfold EXITS. intros H.
  repeat (apply elem_of_cons in H as [->|H]); [split_and!; vm_compute; reflexivity..|].
  by apply not_elem_of_nil in H.
Qed.
Lemma detect_remote_ok e d p a :
  detect_remote e = Some d → request_of d = Remote p a →
  a = e ∧ e ∉ EXITS ∧ (p = ProviderId.GITHUB ∨ p = ProviderId.GITLAB
                       ∨ p = ProviderId.ENTIRE ∧ is_ok (TrailAddress_parse a) = true).
Proof.
  unfold detect_remote. intros H Hr. 
  assert (e ∈ EXITS → False) as Hx.
  { intros (H1 & H2 & H3)%exits_no_address. destruct (TrailAddress_parse e); [done|].
    destruct (GithubTarget_parse e); [done|]. destruct (GitlabTarget_parse e); [done|].
    by destruct (entire_url e). }
  destruct (entire_url e).
  - destruct (TrailAddress_parse e) as [x|] eqn:Et; [|done]. cbn in H. injection H as <-.
    cbn in Hr. injection Hr as <- <-. rewrite Et. split_and!; auto.
  - destruct (GithubTarget_parse e) as [[]|], (GitlabTarget_parse e) as [[]|]; cbn in H; try done;
      injection H as <-; cbn in Hr; injection Hr as <- <-; auto.
Qed.
Lemma detect_source_remote input tr d p a :
  run (detect_source input) tr (Some (Ok (Some d))) → request_of d = Remote p a →
  request_ok (Remote p a).
Proof.
  unfold detect_source. destruct (_ || _ || _); [by intros [_ [= [=]]]|].
  intros (f & tr1 & tr2 & _ & H & _)%run_bind_Ok. destruct f.
  - apply run_bind_Ok in H as (q & t1 & t2 & _ & [_ H] & _). injection H as ->. done.
  - destruct H as [_ H]. injection H as H. intros Hr.
    destruct (detect_remote_ok _ _ _ _ (eq_sym H) Hr) as (-> & Hx & Hp).
    split; [split; [apply trim_valid|done]|done].
Qed.
Lemma detect_ok path tr r : run (detect path) tr (Some (Ok r)) → request_ok r.
Proof.
  unfold detect. intros (f & tr1 & tr2 & _ & H & _)%run_bind_Ok. destruct f.
  - apply run_bind_Ok in H as (q & t1 & t2 & _ & [_ [= ->]] & _). done.
  - destruct (utf8_valid path); [|by destruct H].
    apply run_bind_Ok in H as (d & t1 & t2 & Hd & H & _).
    destruct d as [d|]; [|by destruct H]. cbn in H.
    destruct (request_of d) eqn:E; try by destruct H.
    destruct H as [_ [= ->]]. by eapply detect_source_remote.
Qed.
Lemma fill_refs_ok b h r : text_ok b → text_ok h → request_ok r → request_ok (fill_refs b h r).
Proof. destruct r; cbn; auto. Qed.

Lemma early_exit_none help version args :
  early_exit help version args = None ↔ Forall (λ a, a ∉ EXITS) args.
Proof.
  unfold early_exit. split.
  - intros H. apply Forall_forall. intros a Ha Hx.
    destruct (existsb _ args) eqn:E1; [done|]. destruct (existsb (λ s, _ || bool_decide (s = bs "-V")) args) eqn:E2; [done|].
    rewrite <- not_true_iff_false, existsb_exists in E1, E2.
    unfold EXITS in Hx. apply list_elem_of_In in Ha.
    repeat (apply elem_of_cons in Hx as [->|Hx]); [..|by apply not_elem_of_nil in Hx].
    all: first [apply E1; by eexists|apply E2; by eexists].
  - intros H. rewrite Forall_forall in H.
    destruct (existsb _ args) eqn:E1.
    { apply existsb_exists in E1 as (a & Ha%list_elem_of_In & E). destruct (H a Ha).
      apply orb_true_iff in E as [E|E]; apply bool_decide_eq_true in E; subst a; unfold EXITS; set_solver. }
    destruct (existsb (λ s, _ || bool_decide (s = bs "-V")) args) eqn:E2; [|done].
    apply existsb_exists in E2 as (a & Ha%list_elem_of_In & E). destruct (H a Ha).
    apply orb_true_iff in E as [E|E]; apply bool_decide_eq_true in E; subst a; unfold EXITS; set_solver.
Qed.
Lemma parse_ok args tr o :
  Forall (λ a, a ∉ EXITS) args → run (parse args) tr (Some (Ok o)) → options_ok o.
Proof.
  intros Ha. unfold parse, parse_with_detect.
  intros (s & t1 & t2 & [Hs _]%run_value_Ok & H & _)%run_bind_Ok.
  apply map_err_Ok in Hs. apply parse_loop_ok in Hs as [[H1 H2 H3] H4 H5]; [|done].
  apply run_bind_Ok in H as (r & t3 & t4 & Hr & H & _).
  destruct (negb _); [by destruct H|].
  apply run_bind_Ok in H as (u & t5 & t6 & _ & [_ H] & _). injection H as ->.
  split; [|done..]. cbn. intros q Hq. destruct r as [r|]; [|done]. cbn in Hq. injection Hq as <-.
  apply fill_refs_ok; [done..|].
  destruct (o_request (ps_options s)) as [x|] eqn:E; [|by destruct Hr].
  destruct x; try (destruct Hr as [_ [= ->]]; by eapply H1).
  destruct (positional s).
  - apply run_bind_Ok in Hr as (x & t7 & t8 & Hx & [_ [= ->]] & _). by eapply detect_ok.
  - destruct Hr as [_ [= ->]]. done.
Qed.

(** ** The arguments of the window in the background *)

Lemma parse_alone flag f rest s : arm flag = Alone f → parse_loop (flag :: rest) s = f s ≫= parse_loop rest.
Proof. intros E. cbn [parse_loop]. by rewrite E. Qed.
Lemma parse_valued flag f v rest s :
  arm flag = Valued f → parse_loop (flag :: v :: rest) s = f v s ≫= parse_loop rest.
Proof. intros E. cbn [parse_loop]. by rewrite E. Qed.
Lemma set_source_fresh r s :
  o_request (ps_options s) = None → set_source r s = Ok (update (with_request (Some r)) s).
Proof. intros H. unfold set_source. by rewrite H. Qed.
Lemma text_argument_text t flag : text_ok t → text_argument t flag = Ok t.
Proof. intros [H _]. unfold text_argument. by rewrite H. Qed.

Lemma text_argument_utf8 t flag : utf8_valid t = true → text_argument t flag = Ok t.
Proof. intros H. unfold text_argument. by rewrite H. Qed.

(** Where a compare address says itself whose it is. *)
Definition own_compare (r : OpenRequest) : Prop :=
  match r with
  | Remote p a => ∀ r', compare_request a = Ok r' → r' = Remote p a
  | _ => True
  end.
Definition source_state (r : OpenRequest) (s : ParseState) : ParseState :=
  match r with
  | LocalGit root b h =>
      mkParseState (with_request (Some (LocalGit root [] [])) (ps_options s)) (positional s) b h
  | r => update (with_request (Some r)) s
  end.

Ltac read_value :=
  erewrite parse_valued by reflexivity; unfold text_source, path_source, text_option, path_option;
  cbn [mbind result_bind]; rewrite ?text_argument_text by done; cbn [mbind result_bind].
Ltac read_flag := erewrite parse_alone by reflexivity; cbn [mbind result_bind].

Lemma request_args_parse r xs s :
  request_ok r → own_compare r → request_args r = Ok xs → o_request (ps_options s) = None →
  parse_loop xs s = Ok (source_state r s).
Proof.
  intros Hr Ho Hx Hs. destruct r as [id|p|p a|root b h|p|p|id]; cbn [request_args] in Hx.
  3:{ destruct Hr as [Ht Hp]. cbn in Ho. case_bool_decide as Ep.
      { injection Hx as <-. subst p. destruct Hp as [Hp|[Hp|[_ Hp]]]; [discriminate Hp..|].
        read_value. apply is_ok_true in Hp as [x ->]. cbn [mbind result_bind].
        by rewrite set_source_fresh. }
      destruct (is_ok (compare_request a)) eqn:Ec.
      { injection Hx as <-. read_value. apply is_ok_true in Ec as [x Ec]. rewrite Ec.
        rewrite (Ho x Ec). cbn [mbind result_bind]. by rewrite set_source_fresh. }
      destruct Hp as [->|[->|[-> _]]]; [..|done]; injection Hx as <-; read_value;
        by rewrite set_source_fresh. }
  all: injection Hx as <-.
  3:{ destruct Hr as [Hb Hh]. do 3 (read_value; rewrite ?set_source_fresh by done; cbn [mbind result_bind]). done. }
  all: read_value; by rewrite set_source_fresh.
Qed.
Lemma request_args_exits r xs :
  request_ok r → request_args r = Ok xs →
  (∀ p, match r with PatchFile q | LocalGit q _ _ | LocalIndex q | LocalWorktree q => p = q | _ => False end →
        p ∉ EXITS) →
  Forall (λ a, a ∉ EXITS) xs.
Proof.
  assert (∀ t, negb (bool_decide (t ∈ EXITS)) = true → t ∉ EXITS) as Hl
    by (by intros t H%negb_true_iff%bool_decide_eq_false).
  intros Hr Hx Hp. destruct r as [id|p|p a|root b h|p|p|id]; cbn [request_args] in Hx.
  3:{ apply bind_Ok in Hx as (flag & Hf & [= <-]). destruct Hr as [[_ Ht] _].
      repeat constructor; [|done]. apply Hl.
      repeat (case_match; [injection Hf as <-; reflexivity|]). done. }
  all: injection Hx as <-; cbn in Hr; repeat constructor; try (by apply Hl); try (by apply Hp);
    first [by destruct Hr|by destruct Hr as [[_ ?] [_ ?]]].
Qed.
Lemma source_state_request r s :
  fill_refs (ps_base (source_state r s)) (ps_head (source_state r s))
    <$> o_request (ps_options (source_state r s)) = Some r.
Proof. by destruct r. Qed.

(** Paths that [std::path::absolute] gave. *)
Definition absolute_answer (e : event HostCall) : Prop :=
  match e with
  | Event c r => match c in HostCall R return R → Prop with
                 | Absolute _ => λ r, match r with Ok q => is_absolute q = true | Err _ => True end
                 | _ => λ _, True
                 end r
  end.
Definition absolute_answers (tr : list (event HostCall)) : Prop := Forall absolute_answer tr.
Lemma absolute_answers_elem tr p q :
  absolute_answers tr → Event (Absolute p) (Ok q) ∈ tr → is_absolute q = true.
Proof. intros H Hin. exact (proj1 (Forall_forall _ _) H _ Hin). Qed.
Lemma absolute_no_exit q : is_absolute q = true → q ∉ EXITS.
Proof.
  intros H Hx. unfold EXITS in Hx.
  repeat (apply elem_of_cons in Hx as [->|Hx]; [done|]). by apply not_elem_of_nil in Hx.
Qed.
Lemma absolute_path_run p tr q :
  run (absolute_path p) tr (Some (Ok q)) → tr = [Event (Absolute p) (Ok q)].
Proof.
  intros (r & t1 & t2 & H1%run_op_Ok & [H2 ->]%run_value_Ok & ->)%run_bind_Ok.
  apply map_err_Ok in H2. by rewrite H1, H2.
Qed.
Lemma absolute_ok r tr r' :
  run (absolute r) tr (Some (Ok r')) → absolute_answers tr → request_ok r → own_compare r →
  request_ok r' ∧ own_compare r' ∧
  (∀ p, match r' with PatchFile q | LocalGit q _ _ | LocalIndex q | LocalWorktree q => p = q | _ => False end →
        p ∉ EXITS).
Proof.
  intros H Ht Hr Ho. destruct r; cbn [absolute] in H; try (destruct H as [_ [= ->]]; by split_and!).
  all: apply run_bind_Ok in H as (q & t1 & t2 & H1%absolute_path_run & [_ [= ->]] & ->); subst t1.
  all: split_and!; [done..|]; intros p ->; eapply absolute_no_exit, absolute_answers_elem; [exact Ht|left].
Qed.

Lemma handed_request_run o tr r :
  run (handed_request o) tr (Some (Ok r)) → absolute_answers tr →
  (∀ q, o_request o = Some q → request_ok q ∧ own_compare q) →
  ∀ r', r = Some r' → request_ok r' ∧ own_compare r' ∧
    (∀ p, match r' with PatchFile q | LocalGit q _ _ | LocalIndex q | LocalWorktree q => p = q | _ => False end →
          p ∉ EXITS).
Proof.
  unfold handed_request. intros H Ht Hq r' ->.
  destruct (o_request o) as [q|] eqn:E; [|by destruct H].
  apply run_bind_Ok in H as (x & t1 & t2 & H & [-> [= <-]] & ->). rewrite app_nil_r in Ht.
  destruct (Hq q eq_refl) as [Hok Hown]. by eapply absolute_ok.
Qed.

(** The theme handed on: as given, or made absolute where something has that name. *)
Definition theme_handed (tr : list (event HostCall)) (given handed : option bytes) : Prop :=
  match given with
  | Some t => Event (Exists t) false ∈ tr ∧ handed = Some t ∨
              Event (Exists t) true ∈ tr ∧
              ∃ p, Event (Absolute t) (Ok p) ∈ tr ∧ handed = Some p
  | None => handed = None
  end.
Lemma launch_args_run o state request tr args :
  run (launch_args o state request) tr (Some (Ok args)) →
  ∃ state' source theme,
    Event (Absolute state) (Ok state') ∈ tr ∧ theme_handed tr (o_theme o) theme ∧
    match request with Some r => request_args r | None => Ok [] end = Ok source ∧
    args = [bs "--foreground"; bs "--state-dir"; state'] ++ source
           ++ (if o_writes o then [bs "--allow-github-writes"] else [])
           ++ (if o_gitlab_writes o then [bs "--allow-gitlab-writes"] else [])
           ++ match o_font o with Some font => [bs "--font"; font] | None => [] end
           ++ match theme with Some t => [bs "--theme"; t] | None => [] end.
Proof.
  unfold launch_args.
  intros (state' & t1 & t2 & H1%absolute_path_run & H & ->)%run_bind_Ok. subst t1.
  apply run_bind_Ok in H as (source & t3 & t4 & [Hs%map_err_Ok ->]%run_value_Ok & H & ->).
  apply run_bind_Ok in H as (theme & t5 & t6 & Ht & [-> [= ->]] & ->).
  exists state', source. unfold theme_handed. destruct (o_theme o) as [t|].
  - apply run_bind_Ok in Ht as (p & t7 & t8 & Hp & [-> [= ->]] & ->). exists (Some p).
    split_and!; [left| |done..]. unfold theme_argument in Hp.
    apply run_bind_Ok in Hp as (b & t9 & t10 & ->%run_op_Ok & Hp & ->). destruct b.
    + apply absolute_path_run in Hp. subst t10. right. split; [set_solver|]. exists p. set_solver.
    + destruct Hp as [-> [= ->]]. left. set_solver.
  - destruct Ht as [-> [= ->]]. exists None. split_and!; [left|done..].
Qed.

(** What a window started with [o] in the background is to read. *)
Definition relaunched (o : Options) (state : bytes) (request : option OpenRequest) (theme : option bytes)
    : Options :=
  mkOptions request (Some state) (o_writes o) (o_gitlab_writes o) false true false (o_font o) theme None None.

Lemma launched_loop o state request source theme :
  (∀ r, request = Some r → request_ok r ∧ own_compare r) →
  match request with Some r => request_args r | None => Ok [] end = Ok source →
  (∀ t, o_font o = Some t → text_ok t) → (∀ t, theme = Some t → utf8_valid t = true) →
  ∃ s, parse_loop ([bs "--foreground"; bs "--state-dir"; state] ++ source
           ++ (if o_writes o then [bs "--allow-github-writes"] else [])
           ++ (if o_gitlab_writes o then [bs "--allow-gitlab-writes"] else [])
           ++ match o_font o with Some font => [bs "--font"; font] | None => [] end
           ++ match theme with Some t => [bs "--theme"; t] | None => [] end) initial_state = Ok s ∧
       fill_refs (ps_base s) (ps_head s) <$> o_request (ps_options s) = request ∧
       positional s = false ∧
       with_request request (ps_options s) = relaunched o state request theme.
Proof.
  intros Hr Hs Hf Ht. cbn [app]. read_flag. read_value.
  set (s0 := update _ (update _ initial_state)).
  set (s1 := match request with Some r => source_state r s0 | None => s0 end).
  assert (parse_loop source s0 = Ok s1 ∧ fill_refs (ps_base s1) (ps_head s1) <$> o_request (ps_options s1) = request)
    as [Hl Hq].
  { subst s1. destruct request as [r|].
    - destruct (Hr r eq_refl). split; [by apply request_args_parse|apply source_state_request].
    - injection Hs as <-. done. }
  rewrite (parse_loop_app _ _ _ _ Hl).
  assert (positional s1 = false ∧ ∀ q, with_request q (ps_options s1) =
    mkOptions q (Some state) false false false true false None None None None) as [Hpos Ho].
  { subst s1. destruct request as [[]|]; done. }
  clearbody s1. destruct s1 as [os pos b h]. cbn in Hq, Hpos. subst pos.
  specialize (Ho request). destruct os. cbn in Hq, Ho. injection Ho as -> -> -> -> -> -> -> -> -> ->.
  destruct o as [? ? w g ? ? ? font ? ? ?]. cbn [o_writes o_gitlab_writes o_font] in *. unfold relaunched. cbn.
  assert (∀ t, font = Some t → utf8_valid t = true) as Hf' by (intros t E; by apply Hf).
  destruct w, g, font as [f|], theme as [t|]; cbn [app];
    repeat first [read_flag|erewrite parse_valued by reflexivity; unfold text_option;
                   rewrite text_argument_utf8 by auto; cbn [mbind result_bind]];
    (eexists; split; [reflexivity|]; cbn; by split_and!).
Qed.

(** C12: A command line that opens a window in the background starts it with arguments that are
    read as the same source, the state directory, the same permissions and font, in the
    foreground; the new process never stops at [--help] or [--version], and whatever detects
    positional sources is not asked again. The theme is the one given, or its absolute path
    where a file has that name. This needs that absolute paths come back absolute, that the path
    of a theme file is UTF-8, and that the address of a remote source is no compare address of
    another provider ([own_compare]): such an address is handed on as a comparison. *)
Theorem background_window_reads_the_same help version args tr o tr1 request state tr2 launched :
  early_exit help version args = None →
  run (parse args) tr (Some (Ok o)) →
  run (handed_request o) tr1 (Some (Ok request)) →
  run (launch_args o state request) tr2 (Some (Ok launched)) →
  absolute_answers (tr1 ++ tr2) →
  (∀ r, o_request o = Some r → own_compare r) →
  (∀ t p, o_theme o = Some t → Event (Absolute t) (Ok p) ∈ tr2 → utf8_valid p = true) →
  ∃ state' theme,
    Event (Absolute state) (Ok state') ∈ tr2 ∧ theme_handed tr2 (o_theme o) theme ∧
    early_exit help version launched = None ∧
    ∀ detect, parse_with_detect detect launched = mret (relaunched o state' request theme).
Proof.
  rewrite !early_exit_none. intros Hx Hp Hh Hl Ha Ho Hu.
  destruct (parse_ok _ _ _ Hx Hp) as [Hr Hf Ht].
  assert (absolute_answers tr1 ∧ absolute_answers tr2) as [Ha1 Ha2].
  { by apply Forall_app in Ha. }
  assert (Hq := handed_request_run _ _ _ Hh Ha1 (λ r E, conj (Hr r E) (Ho r E))).
  apply launch_args_run in Hl as (state' & source & theme & Hs & Hth & Hsrc & ->).
  exists state', theme. split_and!; [done..| |].
  - assert (∀ t, negb (bool_decide (t ∈ EXITS)) = true → t ∉ EXITS) as Hlit
      by (by intros t H%negb_true_iff%bool_decide_eq_false).
    assert (∀ q, is_absolute q = true → q ∉ EXITS) as Habs by apply absolute_no_exit.
    apply early_exit_none. rewrite !Forall_app. split_and!.
    + repeat constructor; try (by apply Hlit). by eapply Habs, absolute_answers_elem.
    + destruct request as [r|]; [|by injection Hsrc as <-].
      destruct (Hq r eq_refl) as (H1 & _ & H2). by eapply request_args_exits.
    + destruct (o_writes o); repeat constructor; by apply Hlit.
    + destruct (o_gitlab_writes o); repeat constructor; by apply Hlit.
    + destruct (o_font o) as [f|]; repeat constructor; [by apply Hlit|by apply Hf].
    + unfold theme_handed in Hth. destruct (o_theme o) as [t|]; [|by subst theme].
      destruct Hth as [[_ ->]|(_ & p & Hp' & ->)]; repeat constructor; try by apply Hlit.
      * by apply Ht.
      * by eapply Habs, absolute_answers_elem.
  - intros detect. destruct (launched_loop o state' request source theme) as (s & H1 & H2 & H3 & H4).
    + intros r E. by destruct (Hq r E) as (? & ? & _).
    + done.
    + done.
    + intros t E. unfold theme_handed in Hth. destruct (o_theme o) as [t'|] eqn:Et; [|congruence].
      destruct Hth as [[_ ->]|(_ & p & Hp' & ->)]; injection E as <-; [by apply Ht|by eapply Hu].
    + unfold parse_with_detect. rewrite H1.
      assert (o_probe (ps_options s) = None ∧ o_probe_output (ps_options s) = None
              ∧ o_json (ps_options s) = false) as (E1 & E2 & E3).
      { destruct s as [[] ? ? ?]. by injection H4. }
      rewrite <- H4. revert H2 H3 E1 E2 E3. clear. destruct s as [os pos b h]. cbn.
      intros H2 -> -> -> ->. destruct (o_request os) as [[]|]; cbn in *; by rewrite H2.
Qed.

(** ** What a handoff prints and starts *)

Context {wire : HandoffJson json_} (macos : bool) (rounds : nat).

Lemma run_handle_Forall {call : Type → Type} {A} (Q : event MainCall → Prop)
    (h : ∀ R, call R → prog MainCall R) (p : prog call A) tr o :
  (∀ R (c : call R) tr o, run (h R c) tr o → Forall Q tr) → run (handle h p) tr o → Forall Q tr.
Proof.
  intros Hh. revert tr o. induction p as [r| |R c k IH]; intros tr o; cbn [handle].
  - by intros [-> _].
  - by intros [-> _].
  - intros [(r & t1 & t2 & H1 & H2 & ->)|[(e & H & _)|[H _]]]%run_bind; [|by eapply Hh..].
    apply Forall_app. split; [by eapply Hh|by eapply IH].
Qed.
Lemma run_bind_Forall {A B} (Q : event MainCall → Prop) (p : prog MainCall A) (f : A → prog MainCall B) tr o :
  (∀ tr o, run p tr o → Forall Q tr) → (∀ a tr o, run (f a) tr o → Forall Q tr) →
  run (p ≫= f) tr o → Forall Q tr.
Proof.
  intros H1 H2 [(r & t1 & t2 & Hp & Hf & ->)|[(e & H & _)|[H _]]]%run_bind; [|by eapply H1..].
  apply Forall_app. split; [by eapply H1|by eapply H2].
Qed.
Lemma run_catch_Forall {A} (Q : event MainCall → Prop) (p : prog MainCall A) tr o :
  (∀ tr o, run p tr o → Forall Q tr) → run (catch p) tr o → Forall Q tr.
Proof.
  intros Hp H. assert (∃ o', run p tr o') as [o' Ho]; [|by eapply Hp]. clear Hp Q.
  revert tr H. induction p as [r| |R c k IH]; intros tr; cbn.
  - intros [-> _]. by exists (Some r).
  - intros [-> _]. by exists None.
  - intros (r & tr' & -> & H). destruct (IH _ _ H) as [o' Ho]. by exists o', r, tr'.
Qed.

(** Calls of the system that run no other program. *)
Definition toolless (R : Type) (c : HostCall R) : Prop :=
  match c with RunTool _ _ => False | _ => True end.
(** An event that neither writes to stdout nor starts a process. *)
Definition inner (e : event MainCall) : Prop :=
  match e with
  | Event c _ => match c with
                 | WriteLine _ | Spawn _ _ _ => False
                 | Host c => toolless _ c
                 | _ => True
                 end
  end.
(** [launch_args] gave these arguments. *)
Definition given_args (o : Options) (state : bytes) (request : option OpenRequest) (args : list bytes) : Prop :=
  ∃ tr, run (launch_args o state request) tr (Some (Ok args)).
Definition opens_window (q : ProcessRequest) : bool := bool_decide (executable q = bs "/usr/bin/open").
(** Started with arguments that [asked] allows, by itself or through the launcher of the system. *)
Definition starts_with_args (asked : list bytes → Prop) (state : bytes) (e : event MainCall) : Prop :=
  match e with
  | Event c _ => match c with
                 | Spawn _ args _ => asked args
                 | @Host _ c =>
                     match c with
                     | RunTool q _ => opens_window q = true →
                         ∃ exe bundle args, app_bundle exe = Some bundle ∧ asked args ∧
                           q = open_request bundle state args
                     | _ => True
                     end
                 | _ => True
                 end
  end.
(** An event that may start a window, with the arguments of [launch_args]. *)
Definition starting (o : Options) (state : bytes) (request : option OpenRequest) (e : event MainCall) : Prop :=
  match e with Event c _ => match c with WriteLine _ => False | _ => True end end ∧
  starts_with_args (given_args o state request) state e.
(** An event that has started a window. *)
Definition window_started (e : event MainCall) : bool :=
  match e with
  | @Event _ R c r =>
      match c in MainCall R return R → bool with
      | Spawn _ _ _ => λ r, is_ok r
      | @Host R c =>
          match c in HostCall R return R → bool with
          | RunTool q _ => λ r, opens_window q && match r with Ok out => success (status out) | Err _ => false end
          | _ => λ _, false
          end
      | _ => λ _, false
      end r
  end.
Definition windows_started (tr : list (event MainCall)) : nat := length (List.filter window_started tr).
Definition lines_of (tr : list (event MainCall)) : list bytes :=
  omap (λ e, match e with Event c _ => match c with WriteLine t => Some t | _ => None end end) tr.

Lemma run_op_Forall {R} (Q : event MainCall → Prop) (c : MainCall R) tr o :
  (∀ r, Q (Event c r)) → run (op c) tr o → Forall Q tr.
Proof. intros H (r & t & -> & -> & _). by repeat constructor. Qed.
Lemma run_value_Forall {A} (Q : event MainCall → Prop) (r : result AdapterError A) tr o :
  run (Return r) tr o → Forall Q tr.
Proof. by intros [-> _]. Qed.
Lemma run_host_inner {A} (p : prog HostCall A) tr o :
  makes toolless p → run (host p) tr o → Forall inner tr.
Proof.
  intros Hp. revert tr. induction p as [r| |R c k IH]; intros tr; cbn; [by intros [-> _]..|].
  destruct Hp as [Hc Hk]. intros (r & t & -> & H). constructor; [done|]. by apply (IH r).
Qed.
Lemma absolute_toolless p : makes toolless (absolute_path p).
Proof. unfold absolute_path, io_said. makes_walk. Qed.
#[local] Hint Resolve absolute_toolless : core.
Lemma handed_toolless o : makes toolless (handed_request o).
Proof. unfold handed_request, absolute. makes_walk; auto. Qed.
Lemma launch_args_toolless o state request : makes toolless (launch_args o state request).
Proof. unfold launch_args, theme_argument, said. makes_walk; auto. Qed.
#[local] Hint Resolve handed_toolless launch_args_toolless : core.
Lemma run_hand_inner {A} (p : prog HandoffCall A) tr o : run (hand p) tr o → Forall inner tr.
Proof. apply run_handle_Forall. intros R c. by intros ? ?; apply run_op_Forall. Qed.
Lemma run_host_Ok {A} (p : prog HostCall A) tr o :
  run (host p) tr o → ∃ tr', run p tr' o.
Proof.
  revert tr. induction p as [r| |R c k IH]; intros tr; cbn.
  - intros [_ ->]. by exists [].
  - intros [_ ->]. by exists [].
  - intros (r & t & -> & H). apply IH in H as [t' H]. by exists (Event c r :: t'), r, t'.
Qed.
Lemma inner_starting o state request tr : Forall inner tr → Forall (starting o state request) tr.
Proof. intros H. eapply Forall_impl; [exact H|]. intros [R c r]. destruct c as [? []| | | |]; by split. Qed.
Lemma starting_lines o state request tr : Forall (starting o state request) tr → lines_of tr = [].
Proof. induction 1 as [|[R c r] tr [H _] _ IH]; [done|]. cbn. by destruct c. Qed.
#[local] Hint Resolve run_host_inner run_hand_inner : core.

Lemma run_exe_inner tr out :
  run (host (r ← op CurrentExe; exe ← io_said r; r ← op (CanonicalOf exe); io_said r)) tr out →
  Forall inner tr.
Proof. apply run_host_inner. unfold io_said. makes_walk. Qed.

Lemma launch_starting o state request args token tr out :
  given_args o state request args →
  run (launch macos args state token) tr out → Forall (starting o state request) tr.
Proof.
  intros Ha. apply run_bind_Forall; [by intros ? ? ?%run_exe_inner; apply inner_starting|]. intros exe ? ?.
  apply run_bind_Forall; [by intros ? ? ?%run_hand_inner; apply inner_starting|]. intros _ ? ?.
  destruct (if macos then _ else _) as [bundle|] eqn:Eb.
  - apply run_bind_Forall.
    + intros ? ?. apply run_op_Forall. intros r. split; [done|]. intros _.
      exists exe, bundle, args. by destruct macos.
    + intros r ? ?. apply run_bind_Forall; [by intros ? ?; apply run_value_Forall|]. intros out' ? ?.
      destruct (success _); apply run_value_Forall.
  - apply run_bind_Forall; [by intros ? ?; apply run_op_Forall|]. intros r ? ?. apply run_value_Forall.
Qed.
Lemma delivery_starting o state request token tr out :
  run (handle (on_launch (λ token, args ← host (launch_args o state request); launch macos args state token))
         (deliver state rounds request (writes_of o) token)) tr out →
  Forall (starting o state request) tr.
Proof.
  apply run_handle_Forall. intros R c tr' o'.
  destruct c; try (by apply run_op_Forall). cbn [on_launch].
  apply run_bind_Forall; [|intros ? ? ?; apply run_value_Forall]. intros ? ?.
  apply run_catch_Forall. intros ? ? H.
  apply run_bind in H as [(args & t1 & t2 & H1 & H2 & ->)|[(e & H & _)|[H _]]];
    [|by eapply inner_starting, run_host_inner..].
  apply Forall_app. split; [by eapply inner_starting, run_host_inner|].
  apply run_host_Ok in H1 as [t3 H3]. eapply launch_starting, H2. by exists t3.
Qed.

(** *** How many windows a run has started *)

Lemma started_app tr tr' : windows_started (tr ++ tr') = windows_started tr + windows_started tr'.
Proof. unfold windows_started. by rewrite List.filter_app, length_app. Qed.
Lemma inner_started tr : Forall inner tr → windows_started tr = 0.
Proof.
  induction 1 as [|[R c r] tr H _ IH]; [done|]. unfold windows_started in *.
  by destruct c as [? []| | | |]; cbn in *.
Qed.
Lemma run_catch_inv {A} (p : prog MainCall A) tr out :
  run (catch p) tr out → ∃ o, run p tr o ∧ out = Ok <$> o.
Proof.
  revert tr. induction p as [r| |R c k IH]; intros tr; cbn.
  - intros [-> ->]. by exists (Some r).
  - intros [-> ->]. by exists None.
  - intros (r & tr' & -> & (o & Ho & ->)%IH). exists o. split; [by exists r, tr'|done].
Qed.
(** Whether a launch has ended well. *)
Definition ended_well {A} (out : option (result AdapterError A)) : nat :=
  match out with Some (Ok _) => 1 | _ => 0 end.
Lemma launch_started args state token tr out :
  run (launch macos args state token) tr out → windows_started tr = ended_well out.
Proof.
  intros [(exe & t1 & t2 & H1 & H & ->)|[(e & H & ->)|[H ->]]]%run_bind;
    [|by apply run_exe_inner, inner_started in H..].
  apply run_exe_inner, inner_started in H1. rewrite started_app, H1. clear t1 H1.
  apply run_bind in H as [(u & t1 & t3 & H1 & H & ->)|[(e & H & ->)|[H ->]]];
    [|by apply run_hand_inner, inner_started in H..].
  apply run_hand_inner, inner_started in H1. rewrite started_app, H1. clear t1 H1. cbn [Nat.add].
  destruct (if macos then _ else _) as [bundle|].
  - destruct H as (r & t4 & -> & H). unfold windows_started. cbn [List.filter window_started].
    assert (opens_window (open_request bundle state args) = true) as -> by (by apply bool_decide_true).
    cbn [andb].
    destruct r as [outp|e]; cbn in H |- *; [|by destruct H as [-> ->]].
    destruct (success (status outp)); by destruct H as [-> ->].
  - destruct H as (r & t4 & -> & H). unfold windows_started. cbn [List.filter window_started].
    destruct r as [u'|e]; by destruct H as [-> ->].
Qed.

Lemma handle_started {A} (start : option bytes → prog MainCall unit) Q n (p : prog HandoffCall A) tr out :
  (∀ token tr out, run (start token) tr out → windows_started tr = ended_well out) →
  follows no_pre any_reply launch_next Q n p → run (handle (on_launch start) p) tr out →
  Q (n + windows_started tr) out ∨ out = None.
Proof.
  intros Hstart. revert n tr. induction p as [r| |R c k IH]; intros n tr; cbn [follows handle].
  - intros HQ [-> ->]. left. by rewrite Nat.add_0_r.
  - intros _ [_ ->]. by right.
  - intros [_ Hk] H.
    assert (∀ r t1 t2, windows_started t1 + n = launch_next n R c r → run (handle (on_launch start) (k r)) t2 out →
      Q (n + windows_started (t1 ++ t2)) out ∨ out = None) as Hnext.
    { intros r t1 t2 Hn Hr. rewrite started_app.
      destruct (IH r (launch_next n R c r) t2 (Hk r I) Hr) as [HQ|]; [left|by right].
      by replace (n + _) with (launch_next n R c r + windows_started t2) by lia. }
    apply run_bind in H as [(r & t1 & t2 & H1 & H2 & ->)|[(e & H & ->)|[_ ->]]]; [| |by right].
    + apply (Hnext r); [|done]. destruct c; try (by apply run_op_Ok in H1 as ->).
      cbn [on_launch] in H1. apply run_bind_Ok in H1 as (x & t3 & t4 & H3 & H4 & ->).
      destruct H4 as [-> Hx]. injection Hx as Hx. rewrite app_nil_r. apply run_catch_inv in H3 as (out' & H3 & Ho).
      rewrite (Hstart _ _ _ H3). destruct out' as [y|]; [|done]. injection Ho as ->. rewrite Hx. by destruct y.
    + exfalso. destruct c; try by destruct H as (? & ? & _ & _ & ?).
      cbn [on_launch] in H. apply run_bind in H as [(x & t3 & t4 & _ & [_ H] & _)|[(e' & H & _)|[_ H]]]; try done.
      apply run_catch_inv in H as ([o|] & _ & H); [|done]. done.
Qed.
Lemma delivery_started o state request token tr d :
  run (handle (on_launch (λ token, args ← host (launch_args o state request); launch macos args state token))
         (deliver state rounds request (writes_of o) token)) tr (Some (Ok d)) →
  windows_started tr = match d with HandedOff => 0 | Launched => 1 end.
Proof.
  intros H. eapply (handle_started _ tells 0) in H as [H|H];
    [destruct d; exact H|done| |exact (delivery_tells state rounds request (writes_of o) token)].
  clear. intros token tr out [(args & t1 & t2 & H1 & H & ->)|[(e & H & ->)|[H ->]]]%run_bind.
  - apply run_host_inner in H1; [|done]. by rewrite started_app, (inner_started _ H1), (launch_started _ _ _ _ _ H).
  - by apply run_host_inner, inner_started in H.
  - by apply run_host_inner, inner_started in H.
Qed.

Definition status_line (status : bytes) (source : Value) : Value :=
  json_object [(bs "status", json_str status); (bs "source", source)].
Definition spawns_nothing (e : event MainCall) : Prop :=
  match e with
  | Event c _ => match c with Spawn _ _ _ => False | Host c => toolless _ c | _ => True end
  end.
Lemma nothing_started tr : Forall spawns_nothing tr → windows_started tr = 0.
Proof.
  induction 1 as [|[R c r] tr H _ IH]; [done|]. unfold windows_started in *.
  by destruct c as [? []| | | |]; cbn in *.
Qed.
Lemma report_run outcome request tr r :
  run (report outcome request) tr (Some r) →
  lines_of tr = [to_vec match report_line outcome request with Ok v => v | Err e => error_line e end] ∧
  r = (_ ← report_line outcome request; Ok tt) ∧ Forall spawns_nothing tr.
Proof.
  unfold report, print_to. set (line := report_line outcome request). clearbody line.
  intros (a & t1 & -> & H). cbn in H. destruct (match a with Err BrokenPipe => _ | _ => _ end).
  - destruct line; destruct H as [-> [= ->]]; split_and!; [done..| |done|done|]; by repeat constructor.
  - destruct H as (c & t2 & -> & H).
    destruct line; destruct H as [-> [= ->]]; split_and!; [done..| |done|done|]; by repeat constructor.
Qed.

(** What starts in the trace is started with the arguments of the request. *)
Definition asked_args (o : Options) (state : bytes) (args : list bytes) : Prop :=
  ∃ request tr1, run (handed_request o) tr1 (Some (Ok request)) ∧ given_args o state request args.
Definition starts_as_asked (o : Options) (state : bytes) : event MainCall → Prop :=
  starts_with_args (asked_args o state) state.

Lemma printed_app tr tr' : lines_of (tr ++ tr') = lines_of tr ++ lines_of tr'.
Proof. apply omap_app. Qed.
Lemma run_catch_never {A} (p : prog MainCall A) tr e : run (catch p) tr (Some (Err e)) → False.
Proof.
  revert tr. induction p as [r| |R c k IH]; intros tr; cbn; [by intros [_ H]..|].
  intros (r & tr' & -> & H). by eapply IH.
Qed.
Lemma run_catch_bind {A B} (p : prog MainCall A) (f : result AdapterError A → prog MainCall B) tr r :
  run (catch p ≫= f) tr (Some r) →
  ∃ a tr1 tr2, run p tr1 (Some a) ∧ run (f a) tr2 (Some r) ∧ tr = tr1 ++ tr2.
Proof.
  intros [(a & t1 & t2 & H1 & H2 & ->)|[(e & H & _)|[_ H]]]%run_bind; [|by apply run_catch_never in H|done].
  apply run_catch_Ok in H1. by exists a, t1, t2.
Qed.
Lemma asked_inner o state tr : Forall inner tr → Forall (starts_as_asked o state) tr.
Proof. intros H. eapply Forall_impl; [exact H|]. intros [R c r]. by destruct c as [? []| | | |]. Qed.
Lemma asked_quiet o state tr : Forall spawns_nothing tr → Forall (starts_as_asked o state) tr.
Proof. intros H. eapply Forall_impl; [exact H|]. intros [R c r]. by destruct c as [? []| | | |]. Qed.
Lemma asked_starting o state request tr1 tr :
  run (handed_request o) tr1 (Some (Ok request)) →
  Forall (starting o state request) tr → Forall (starts_as_asked o state) tr.
Proof.
  intros Hr H. assert (∀ args, given_args o state request args → asked_args o state args) as Ha
    by (intros args ?; by exists request, tr1).
  eapply Forall_impl; [exact H|]. intros [R c r] [_ Hs].
  destruct c as [? []| | | |]; try done; [|by apply Ha].
  intros Hopen. destruct (Hs Hopen) as (exe & bundle & args & ? & ? & ?). exists exe, bundle, args. auto.
Qed.
Lemma inner_lines tr : Forall inner tr → lines_of tr = [].
Proof. induction 1 as [|[R c r] tr H _ IH]; [done|]. cbn. by destruct c. Qed.

(** C13: With [--json], a handoff that ends writes exactly one line to stdout, and it says how the
    handoff ended, even where that line cannot be written: the error when the process fails, and
    otherwise the source as it was handed on, with [handed_off] when no window was started in the run
    and [launched] when one was. Without it nothing is written. Whatever window is started, by itself
    or through the launcher of macOS, gets the arguments for the request. *)
Theorem hand_off_reports o state token tr r :
  run (hand_off macos rounds o state token) tr (Some r) →
  (if o_json o then
     match r with
     | Err e => lines_of tr = [to_vec (error_line e)]
     | Ok _ => ∃ status request source tr1,
         run (handed_request o) tr1 (Some (Ok request)) ∧ json_source request = Ok source ∧
         lines_of tr = [to_vec (status_line status source)] ∧
         (status = bs "handed_off" ∧ windows_started tr = 0 ∨
          status = bs "launched" ∧ windows_started tr = 1)
     end
   else lines_of tr = []) ∧
  Forall (starts_as_asked o state) tr.
Proof.
  unfold hand_off. intros (request & t1 & t2 & H1 & H & ->)%run_catch_bind.
  assert (Forall inner t1) as Hi1.
  { eapply run_host_inner, H1. apply makes_bind; [auto|]. intros ?. unfold said.
    destruct (o_json o); makes_walk. }
  rewrite printed_app, Forall_app, started_app, (inner_lines t1), (inner_started t1) by done. cbn [app Nat.add].
  assert (Forall (starts_as_asked o state) t1) as Hq1 by by apply asked_inner.
  destruct request as [request|e].
  2:{ destruct (o_json o).
      - apply report_run in H as (Hl & -> & Hq). cbn in Hl |- *. rewrite Hl. auto using asked_quiet.
      - destruct H as [-> [= ->]]. auto. }
  apply run_host_Ok in H1 as (t3 & (q & t4 & t5 & Hr & H1 & _)%run_bind_Ok).
  apply run_bind_Ok in H1 as (u & t6 & t7 & _ & [_ [= <-]] & _).
  apply run_catch_bind in H as (d & t8 & t9 & Hd & H & ->).
  pose proof (λ x, delivery_started o state request token t8 x) as Hcount.
  pose proof Hd as Hs. apply delivery_starting in Hs.
  rewrite printed_app, (starting_lines _ _ _ _ Hs), Forall_app, started_app. cbn [app].
  apply (asked_starting _ _ _ _ _ Hr) in Hs.
  set (outcome := d ← d; Ok (delivery_status d)) in H.
  apply run_bind in H as [(v & t10 & t11 & Hn & H & ->)|[(e & H & _)|[_ H]]]; [| |done].
  2:{ destruct (_ && _); [by destruct H as (? & ? & _ & _ & ?)|by destruct H]. }
  assert (lines_of t10 = [] ∧ Forall spawns_nothing t10) as [Hl10 Hq10].
  { destruct (_ && _); [destruct Hn as (? & ? & -> & -> & _)|destruct Hn as [-> _]]; by repeat constructor. }
  rewrite printed_app, Hl10, Forall_app, started_app, (nothing_started _ Hq10). cbn [app Nat.add].
  apply (asked_quiet o state) in Hq10. destruct (o_json o).
  - apply report_run in H as (Hl & -> & Hq). rewrite Hl, (nothing_started _ Hq).
    split; [|auto using asked_quiet].
    unfold report_line, outcome. destruct d as [d|e]; [|done]. cbn [mbind result_bind].
    destruct (json_source request) as [source|e] eqn:Es; [|done]. cbn [mbind result_bind map_err].
    exists (delivery_status d), request, source, t4. split_and!; [done..|].
    rewrite (Hcount d Hd). destruct d; [left|right]; by rewrite ?Nat.add_0_r.
  - destruct (_ ← outcome; Ok tt) as [x|x]; destruct H as [-> _]; auto.
Qed.
End facts.
(** Themes without a slash are names, but [launch_args] makes one absolute that is also a file
    name where the command was given. *)
Definition is_theme_name (t : bytes) : bool := negb (starts_with (bs "~") t) && negb (contains [SLASH] t).

(** ** Samples *)

#[local] Instance no_urls : UrlParser := {|
  Url := Empty_set; parse_url _ := None; scheme u := match u with end;
  username u := match u with end; password u := match u with end; port u := match u with end;
  query u := match u with end; host_str u := match u with end; url_path u := match u with end;
  path_segments u := match u with end; query_pairs u := match u with end;
  fragment u := match u with end; url_string u := match u with end; form_encode _ := []
|}.
#[local] Instance plain_debug : DebugText := λ s, s.
#[local] Instance plain_io : IoText := λ _, bs "I/O".

(** A working directory [/work] that holds files of the names [files]. *)
Definition in_work (files : list bytes) (_ : unit) (R : Type) (c : HostCall R) : option (R * unit) :=
  match c in HostCall R return option (R * unit) with
  | IsFile p => Some (bool_decide (p ∈ files), tt)
  | Exists p => Some (bool_decide (p ∈ files), tt)
  | Absolute p => Some (Ok (if is_absolute p then p else bs "/work/" ++ p), tt)
  | CurrentExe => Some (Ok (bs "/bin/diffz"), tt)
  | CanonicalOf p => Some (Ok p, tt)
  | _ => None
  end.
Definition started (files args : list bytes) : option (Options * option OpenRequest * list bytes) :=
  match play (in_work files) tt
          (o ← parse args; r ← handed_request o; l ← launch_args o (bs "state") r; mret (o, r, l)) with
  | Some (_, Some (Ok x)) => Some x
  | _ => None
  end.

(** A theme named on the command line is read as another theme in the background where the
    working directory has a file of that name: as a path, and no longer as a name. *)
Theorem theme_name_becomes_a_path :
  ∃ o l o',
    started [bs "current"] [bs "--theme"; bs "current"] = Some (o, None, l) ∧
    o_theme o = Some (bs "current") ∧ is_theme_name (bs "current") = true ∧
    parse_with_detect detect l = mret o' ∧
    o_theme o' = Some (bs "/work/current") ∧ is_theme_name (bs "/work/current") = false.
Proof. do 3 eexists. split_and!; [vm_compute; reflexivity|done|done|vm_compute; reflexivity|done|done]. Qed.

Definition sample_args : list bytes :=
  [bs "--git"; bs "repo"; bs "--base"; bs "v1"; bs "--allow-gitlab-writes"].
Definition sample_parsed := play (in_work []) tt (parse sample_args).
Definition sample_options : Options :=
  mkOptions (Some (LocalGit (bs "repo") (bs "v1") (bs "HEAD"))) None false true false false false
    None None None None.
Definition sample_request : OpenRequest := LocalGit (bs "/work/repo") (bs "v1") (bs "HEAD").
Definition sample_launched : list bytes :=
  [bs "--foreground"; bs "--state-dir"; bs "/work/state"; bs "--git"; bs "/work/repo"; bs "--base"; bs "v1";
   bs "--head"; bs "HEAD"; bs "--allow-gitlab-writes"].

Lemma background_window_reads_the_same_witness :
  started [] sample_args = Some (sample_options, Some sample_request, sample_launched) ∧
  ∃ state' theme, ∀ detect, parse_with_detect detect sample_launched
                            = mret (relaunched sample_options state' (Some sample_request) theme).
Proof.
  split; [vm_compute; reflexivity|].
  edestruct (background_window_reads_the_same [] [] sample_args
    [] sample_options [Event (Absolute (bs "repo")) (Ok (bs "/work/repo"))] (Some sample_request) (bs "state")
    [Event (Absolute (bs "state")) (Ok (bs "/work/state"))] sample_launched)
    as (state' & theme & _ & _ & _ & H).
  - vm_compute. reflexivity.
  - vm_compute. by split.
  - cbn. eexists _, _. split; [reflexivity|]. by vm_compute.
  - cbn. eexists _, _. split; [reflexivity|]. by vm_compute.
  - repeat constructor.
  - by intros r [= <-].
  - done.
  - by exists state', theme.
Defined.

(** The same directory, with a system on which no window runs yet. *)
Definition desk (s : Quiet) (R : Type) (c : MainCall R) : option (R * Quiet) :=
  match c in MainCall R return option (R * Quiet) with
  | Host c => '(r, _) ← in_work [] tt _ c; Some (r, s)
  | Hand c => Some (quiet_answer s _ c)
  | Spawn _ _ _ => Some (Ok tt, mkQuiet (clock s) true (lines s))
  | WriteLine _ => Some (Err BrokenPipe, s)
  | PrintError _ => Some (tt, s)
  end.
Definition reporting : Options :=
  mkOptions (Some (LocalIndex (bs "repo"))) None false false false false true None None None None.
Definition sample_hand_off := play desk (mkQuiet 7 false []) (hand_off false 102 reporting (bs "state") None).
Definition hand_off_trace : list (event MainCall) :=
  match sample_hand_off with Some (tr, _) => tr | None => [] end.
Definition spawned (tr : list (event MainCall)) : list (list bytes) :=
  omap (λ e, match e with Event c _ => match c with Spawn _ args _ => Some args | _ => None end end) tr.

Lemma hand_off_reports_witness :
  spawned hand_off_trace = [[bs "--foreground"; bs "--state-dir"; bs "/work/state"; bs "--staged"; bs "/work/repo"]] ∧
  ∃ status source, lines_of hand_off_trace = [to_vec (status_line status source)].
Proof.
  split; [vm_compute; reflexivity|].
  assert (match sample_hand_off with Some (tr, o) => Some o | None => None end = Some (Some (Ok tt))) as H
    by (vm_compute; reflexivity).
  unfold hand_off_trace. destruct sample_hand_off as [[tr o]|] eqn:E; [|done].
  injection H as ->. apply run_play in E.
  destruct (hand_off_reports false 102 reporting (bs "state") None tr (Ok tt) E)
    as [(status & request & source & tr1 & _ & _ & Hl & _) _].
  by exists status, source.
Defined.
